(* ===== verification/_CoqProject ===== *)
-Q . S2P
Prelude.v
Json.v
Recency.v
Stages.v
Results.v
Fingerprints.v
CacheKeys.v
CachedImports.v
ShardTables.v
Disk.v
DiskReads.v
Budget.v
Memory.v
MemoryCap.v
ClearRace.v
Maintenance.v
ImportCycles.v
AssetLedger.v
Flights.v
Lanes.v
EngineBoundary.v
Scheduling.v
AssetBoundary.v
RegistryCache.v
RegistryService.v
AssetReport.v
FileSize.v
SharedBytes.v
ProjectRegistry.v
ShardLocks.v
BoundedMap.v
BuildMemo.v
FileSizeCache.v
Paths.v
Manifests.v
BundlerAliases.v
Resolver.v
Aliases.v
PackageScan.v
Analyze.v
Outcomes.v
Text.v
CssDependencies.v
IgnoreRules.v
Specifiers.v
Positions.v
ScriptRegions.v
DetectedImports.v
Connections.v
Documents.v
Handlers.v
MemoryShard.v
PackageJson.v
Report.v
PathMaps.v
Stylesheets.v
AssetProcessing.v
VirtualEntry.v
Plugin.v
PluginRuns.v
Adapter.v
Completions.v
Dependencies.v
Prefetch.v
Server.v
CacheRequests.v
AtomicWrite.v
RegistryClient.v
Logging.v
Reclaim.v
