(* ===== verification/Prelude.v ===== *)
(** * The Import Lens daemon, verified

    Import Lens shows, beside each import of an open document, what that import
    adds to a bundle. The editor extension and the command line are thin
    clients; what is verified here is the daemon (src/daemon/src/), which
    receives documents over a socket, finds their package imports, resolves
    each to an installed package, bundles it, measures the result, caches it on
    disk and answers. This library models that path from the bytes of a
    document to the bytes of a database row, with the error paths, limits and
    interleavings the code handles.

    ** The program and its model, part by part

    _The document_ (daemon/src/document/). [Text] has the [str] methods the
    readers share. [Positions] is positions.rs (line index, UTF-16 columns);
    [ScriptRegions] is script_regions.rs (where Vue, Svelte and Astro documents
    keep scripts, and what markup refers to); [Specifiers] is specifier.rs and
    pipeline/node_builtins.rs; [DetectedImports] is imports.rs (the parser's
    module record grouped by statement, type imports erased); [Completions] is
    completion.rs and the two requests it serves; [IgnoreRules] is ignore.rs;
    [PackageJson] is package_json.rs (a byte scanner of manifests).

    _Resolution_ (daemon/src/pipeline/). [Paths] is the component view of
    [std::path], [PathMaps] a map keyed by paths. [Manifests], [Resolver] and [Aliases] are resolver.rs:
    side-effects declarations, entries and roots, and the probe that tells a
    path alias from a missing package; [BundlerAliases] is bundler_aliases.rs;
    [PackageScan] is types_only.rs, native_binary.rs and util.rs.

    _The engine_ (daemon/src/engine/). [VirtualEntry] is entry.rs and limits.rs
    (the module a build starts from); [Plugin] and [PluginRuns] are plugin.rs
    and asset_input.rs (the hooks the bundler calls on concurrent tasks, as
    threads); [Adapter] is adapter.rs (retries, failure classification, the
    artifact); [Scheduling] is scheduling.rs (the bounded drain of misses);
    [EngineBoundary] is boundary.rs (permits and timeouts);
    [BoundedMap] holds dependency_paths.rs; [Stages] is the stage vocabulary of
    mod.rs and pipeline/stage.rs. [Lanes] is lanes.rs.

    _Measurement_ (daemon/src/pipeline/). [Analyze] is analyze.rs, fallback.rs
    and full_package.rs, and [Outcomes] the theorems about it. [AssetLedger] is
    asset_budget.rs, [AssetBoundary] asset_boundary.rs, [ImportCycles]
    css_import_cycles.rs, [CssDependencies] css_dependencies.rs and
    asset_classifier.rs. Of assets.rs, [Stylesheets] is the provider, the
    cutting of import cycles and the bundle of a stylesheet tree,
    [AssetProcessing] the union of the stylesheets, its retry sheet by sheet
    and the binary kinds, [AssetReport] what they add to a size and disclose.
    [FileSize] and [SharedBytes] are file_size.rs, [FileSizeCache]
    file_size_cache.rs, [BuildMemo] build_memo.rs. [Results] is the result
    model of ipc/protocol.rs.

    _The caches_ (daemon/src/cache/). [Recency] is recency.rs; [CacheKeys] and
    [Fingerprints] are key.rs; [CachedImports], [ShardTables], [Disk] and
    [DiskReads] are disk.rs (a shard's redb tables and the transactions over
    them); [Memory], [MemoryCap] and [ClearRace] are memory.rs (the mirror over
    a shard); [Budget] is budget.rs; [ProjectRegistry], [ShardLocks] and
    [Maintenance] are project.rs, sequentially, under threads, and its
    maintenance pass. [Flights] is analysis_flight.rs.

    _The registry_ (daemon/src/registry/). [RegistryCache] is cache.rs (the
    file several daemons share), [RegistryService] service.rs (answers, retries
    and the rate limiter), [RegistryClient] client.rs (URLs, delays and errors
    of one exchange). [Json] is the value both read.

    _The service_ (daemon/src/service.rs, daemon/src/ipc/). [Documents] and
    [Handlers] are the analysis of a document and the requests for it,
    [Dependencies] the request for a package.json, [CacheRequests] the requests
    over the caches and the file watcher's invalidations; [MemoryShard]
    discharges the cache interface they use with [Memory]; [Prefetch] is
    prefetch.rs. [Server] is the loop of one connection (ipc/server.rs and
    lifecycle.rs), [Connections] the cancellations and build gates of its
    background work. [Report] is report/scanner.rs and report/model.rs.

    _The process._ [AtomicWrite] is atomic_write.rs (file replacement under
    concurrent writers, dying processes and power loss), [Reclaim] reclaim.rs
    (when freed memory is given back), [Logging] logging.rs (levels, lines and
    their dates).

    ** How the parts meet

    [Server] decodes frames into messages and runs each request as a task; the
    task's answer is a handler's of [Handlers], [Dependencies], [Completions],
    [CacheRequests] or [Report], and [Prefetch] warms the caches beside them.
    A request names a document; [Handlers] has [DetectedImports] find its
    imports and, for each, asks [Resolver] for an entry, [Memory] for a cached
    answer and, on a miss, [Analyze] for a new one through a [Flights] flight
    and a [Scheduling] worker. [Analyze] takes an engine artifact ([Adapter],
    from a run of [Plugin] started at a [VirtualEntry], admitted by
    [EngineBoundary]) and the processed assets (admitted by [AssetBoundary],
    charged to [AssetLedger]) and makes a [Results] value with the
    [Fingerprints] it expires against. The answer is stored through [Memory]
    and [Disk], whose rows [Budget] and [Maintenance] evict. [FileSize] adds the
    imports of a document together with one combined build.

    The interfaces between components are type classes with their laws: an
    evictor's shard in [Budget] ([Maintenance] proves that the production
    shard implements it), a document's shard in [Documents] ([MemoryShard]),
    redb's operations in [ShardTables], the disk in [Fingerprints], the file
    system the resolver sees in [Paths], and the module resolver in [Resolver].

    ** What is a parameter

    Code that is not of this repository: the bundler (Rolldown), the parser
    and module resolver (oxc), the CSS engine (Lightning CSS), redb, rmp_serde
    and serde_json, the compressors, tokio's semaphore, xxh3, the HTTP client
    and the file system. Each is an argument, and the laws assumed of it are
    documented behaviour: a codec decodes what it encoded, a database
    operation that succeeds does what its name says, a semaphore is fair. A
    database operation may fail; a theorem that needs some not to names them
    in its hypotheses. A theorem with such a law has a witness that
    instantiates the parameter with a concrete function.

    ** What the theorems show

    - The durable store: the summary and recency index equal what a scan of the
      rows gives after any sequence of operations and failed transactions in
      which none commits past a step it ignored; a committed clear is never
      undone by an insert queued before it; a served row passed the
      durability gate and the freshness check; eviction ends, reaches its goal
      and never goes below a shard's floor, and the shards in production
      implement what it was verified against.
    - Concurrency: over every interleaving, one thing happens to a shard at a
      time, an insert that lost to a clear leaves nothing fresh, a flight is
      shared by all who join it and strands none, permits are never exceeded,
      a document has one combined build at a time, drains answer in order,
      a plugin run accounts for every admitted byte, and a file replaced by
      several processes is never torn.
    - Answers: a size is there exactly when every stage succeeded; what is
      answered from a cache or a memo expires with the inputs it was measured
      from; every byte a number omits has its disclosure; a failure has one
      report that does not depend on the order of the bundler's diagnostics.
    - Requests: over every schedule of a connection each request is answered
      once, its partial answers before it; every dependency of a package.json
      settles; what is prewarmed is what a document later looks up; a handled
      removal names every shard it reached and leaves none of them loaded.
    - Readers: the imports found are those of the parser's statements, the
      dependencies found by the byte scanner are those of the JSON document,
      the glob matcher decides the language of its pattern, the virtual entry
      reads back as the clauses it was built from, cache keys are injective.

    ** Bounds and fuel

    A [u64] or [usize] is an [N] with its saturating, checked or wrapping
    operation written out; [f64] is IEEE binary64 ([SpecFloat]). Recursions
    that are not structural take fuel, and each has a theorem that enough fuel
    gives a result that more fuel does not change: eviction needs at most the
    entries held plus the shards ([Budget]); a build at most three attempts
    ([Adapter]); a walk over referenced configs at most the cap on them
    ([Aliases]); the glob matcher the lengths of its arguments ([IgnoreRules]);
    the walk up a path its components ([Analyze], [Resolver]); the stylesheet
    walk the edges of the tree ([ImportCycles]), and a bundle the sheets it
    knows and three more ([Stylesheets]); text scanners the length of
    the text. Step relations have no fuel.

    ** Not modelled

    The framing of ipc/codec.rs (two calls into rmp_serde and tokio's
    length-delimited codec) and the socket it runs over (run_server of
    ipc/server.rs); the calls of pipeline/minify.rs and pipeline/compress.rs,
    which are the minifier's and the compressors' answers elsewhere; the
    process's arguments, allocator and thread pools (main.rs, lib.rs) and the
    clock (time.rs); the build options handed to the bundler, which only
    configure it; the editor extension, the command line and the build
    scripts, which are not Rust. Within what is modelled: the questions of one
    stylesheet walk come one after the other, that returned sources stay
    alive is not stated, the registry's service takes an operation's read and
    rename of the shared file together ([RegistryCache] interleaves those of
    several daemons), and the directory entries a power loss leaves are
    those of the last rename. Poisoned locks are modelled only where the code
    answers them: no critical section of the modelled code panics. *)
From stdpp Require Export base gmap sets list strings sorting numbers option relations.
From Stdlib Require Export Ascii Lia NArith.

(** ** Scopes, tactics and hint databases *)

Declare Scope daemon_scope.
Delimit Scope daemon_scope with daemon.
Open Scope daemon_scope.

Create HintDb daemon discriminated.

(** Case analysis on the guards of an executable definition, closing the
    branches that contradict the hypotheses. *)
Ltac guards := repeat (case_match || case_decide || case_bool_decide); simplify_eq/=.

(** Destruct every existential and conjunction among the hypotheses. *)
Ltac explode :=
  repeat match goal with
  | H : _ ∧ _ |- _ => destruct H
  | H : ∃ _, _ |- _ => destruct H
  end.

(** ** Machine integers

    A [u64] or [usize] is a natural number [N]; the operations below write out
    what Rust does at the ends of the range. *)

Definition u64_max : N := 18446744073709551615%N.

(** [u64::saturating_add]. *)
Definition sat_add (a b : N) : N := N.min (a + b) u64_max.

(** [u64::saturating_sub]: [N.sub] truncates at zero. *)
Definition sat_sub (a b : N) : N := (a - b)%N.

(** [AtomicU64::fetch_add] and the other wrapping additions. *)
Definition wrap_add (a b : N) : N := ((a + b) mod (u64_max + 1))%N.

Lemma wrap_add_small a b : (a + b <= u64_max)%N → wrap_add a b = (a + b)%N.
Proof. intros ?. unfold wrap_add. apply N.mod_small. lia. Qed.

Lemma wrap_add_le_max a b : (wrap_add a b <= u64_max)%N.
Proof.
  unfold wrap_add. pose proof (N.mod_lt (a + b) (u64_max + 1) ltac:(done)). lia.
Qed.

Lemma sat_add_small a b : (a + b <= u64_max)%N → sat_add a b = (a + b)%N.
Proof. unfold sat_add. lia. Qed.

Lemma sat_add_exact a b m : (sat_add a b <= m)%N → (m < u64_max)%N → sat_add a b = (a + b)%N.
Proof. unfold sat_add. lia. Qed.

Lemma sat_add_le_max a b : (sat_add a b <= u64_max)%N.
Proof. unfold sat_add. lia. Qed.

Lemma sat_add_ge_l a b : (a <= u64_max)%N → (a <= sat_add a b)%N.
Proof. unfold sat_add. lia. Qed.

#[export] Hint Resolve sat_add_le_max sat_add_ge_l : daemon.

(** ** Boolean list predicates *)

Lemma forallb_Forall {A} (f : A → bool) (l : list A) :
  forallb f l = true ↔ Forall (λ x, f x = true) l.
Proof.
  induction l as [|a l IH]; cbn; [split; [constructor|done]|].
  rewrite andb_true_iff, Forall_cons, IH. done.
Qed.

Lemma existsb_Exists {A} (f : A → bool) (l : list A) :
  existsb f l = true ↔ Exists (λ x, f x = true) l.
Proof.
  induction l as [|a l IH]; cbn; [split; [done|by intros ?%Exists_nil]|].
  rewrite orb_true_iff, Exists_cons, IH. done.
Qed.

(** ** Three-way comparisons

    Rust's [Ord::cmp] and [Ordering::then_with]; [cmp_order] is what [sort_by]
    and the ordered tables rely on. *)

Definition then_with (c d : comparison) : comparison :=
  match c with Eq => d | _ => c end.

Class CmpOrder {A} (cmp : A → A → comparison) : Prop := {
  cmp_eq : ∀ a b, cmp a b = Eq ↔ a = b;
  cmp_opp : ∀ a b, cmp b a = CompOpp (cmp a b);
  cmp_trans : ∀ a b c, cmp a b = Lt → cmp b c = Lt → cmp a c = Lt;
}.

(** [cmp] read as the relation "not greater". *)
Definition cmp_le {A} (cmp : A → A → comparison) (a b : A) : Prop := cmp a b ≠ Gt.
Definition cmp_lt {A} (cmp : A → A → comparison) (a b : A) : Prop := cmp a b = Lt.

(** Lexicographic order on pairs, and an order read through an injection. *)
Definition cmp_lex {A B} (ca : A → A → comparison) (cb : B → B → comparison)
    (x y : A * B) : comparison := then_with (ca x.1 y.1) (cb x.2 y.2).
Definition cmp_on {A B} (f : A → B) (cb : B → B → comparison) (x y : A) : comparison :=
  cb (f x) (f y).
(** [Reverse]. *)
Definition cmp_rev {A} (ca : A → A → comparison) (x y : A) : comparison := ca y x.
(** [Option]'s order: [None] first. *)
Definition cmp_option {A} (ca : A → A → comparison) (x y : option A) : comparison :=
  match x, y with
  | None, None => Eq | None, Some _ => Lt | Some _, None => Gt | Some a, Some b => ca a b
  end.

#[global] Typeclasses Opaque cmp_lex cmp_on cmp_rev cmp_option.
#[export] Hint Mode CmpOrder - ! : typeclass_instances.

#[export] Instance cmp_N : CmpOrder N.compare.
Proof.
  split.
  - apply N.compare_eq_iff.
  - intros. apply N.compare_antisym.
  - intros a b c. rewrite !N.compare_lt_iff. lia.
Qed.

#[export] Instance cmp_nat : CmpOrder Nat.compare.
Proof.
  split.
  - apply Nat.compare_eq_iff.
  - intros. apply Nat.compare_antisym.
  - intros a b c. rewrite !Nat.compare_lt_iff. lia.
Qed.

(** [str::cmp]: byte-lexicographic. *)
#[export] Instance cmp_string : CmpOrder String.compare.
Proof.
  split.
  - intros a b. split; [apply String.compare_eq_iff|intros ->].
    induction b as [|y b IH]; cbn; [done|]. unfold Ascii.compare. by rewrite N.compare_refl.
  - intros. apply String.compare_antisym.
  - induction a as [|x a IH]; intros [|y b] [|z c]; cbn; try done.
    unfold Ascii.compare. intros H1 H2.
    destruct (N.compare_spec (N_of_ascii x) (N_of_ascii y)),
             (N.compare_spec (N_of_ascii y) (N_of_ascii z)); try done;
    destruct (N.compare_spec (N_of_ascii x) (N_of_ascii z)); try done; try lia.
    by eapply IH.
Qed.

#[export] Instance cmp_lex_order {A B} (ca : A → A → comparison) (cb : B → B → comparison) :
  CmpOrder ca → CmpOrder cb → CmpOrder (cmp_lex ca cb).
Proof.
  intros Ha Hb. unfold cmp_lex. split.
  - intros [a1 b1] [a2 b2]. cbn. destruct (ca a1 a2) eqn:E; cbn.
    + apply cmp_eq in E as ->. rewrite cmp_eq. naive_solver.
    + split; [done|]. intros [= -> ->]. by rewrite (proj2 (cmp_eq (cmp:=ca) a2 a2)) in E.
    + split; [done|]. intros [= -> ->]. by rewrite (proj2 (cmp_eq (cmp:=ca) a2 a2)) in E.
  - intros [a1 b1] [a2 b2]. cbn. rewrite (cmp_opp (cmp:=ca) a1 a2), (cmp_opp (cmp:=cb) b1 b2).
    by destruct (ca a1 a2).
  - intros [a1 b1] [a2 b2] [a3 b3]. cbn. intros H1 H2.
    destruct (ca a1 a2) eqn:E1; [|clear H1|done].
    + apply cmp_eq in E1 as ->. destruct (ca a2 a3) eqn:E2; cbn in *; [|done..].
      by eapply cmp_trans.
    + destruct (ca a2 a3) eqn:E2; [|clear H2|done].
      * apply cmp_eq in E2 as <-. by rewrite E1.
      * by rewrite (cmp_trans (cmp:=ca) _ _ _ E1 E2).
Qed.

#[export] Instance cmp_rev_order {A} (ca : A → A → comparison) :
  CmpOrder ca → CmpOrder (cmp_rev ca).
Proof.
  intros H. unfold cmp_rev. split.
  - intros a b. rewrite cmp_eq. naive_solver.
  - intros a b. apply cmp_opp.
  - intros a b c H1 H2. by eapply cmp_trans.
Qed.

#[export] Instance cmp_option_order {A} (ca : A → A → comparison) :
  CmpOrder ca → CmpOrder (cmp_option ca).
Proof.
  intros H. split.
  - intros [a|] [b|]; cbn; rewrite ?cmp_eq; naive_solver.
  - intros [a|] [b|]; cbn; [apply cmp_opp|done..].
  - intros [a|] [b|] [c|]; cbn; try done. apply cmp_trans.
Qed.

Lemma cmp_on_order {A B} (f : A → B) (cb : B → B → comparison) :
  Inj (=) (=) f → CmpOrder cb → CmpOrder (cmp_on f cb).
Proof.
  intros Hf Hb. unfold cmp_on. split.
  - intros a b. rewrite cmp_eq. split; [apply Hf|by intros ->].
  - intros a b. apply cmp_opp.
  - intros a b c. apply cmp_trans.
Qed.

(** [Vec::dedup]: drop an element equal to the one kept before it. *)
Fixpoint dedup {A} `{!EqDecision A} (l : list A) : list A :=
  match l with
  | a :: (b :: _) as rest => if decide (a = b) then dedup rest else a :: dedup rest
  | _ => l
  end.

Lemma elem_of_dedup {A} `{!EqDecision A} (a : A) l : a ∈ dedup l ↔ a ∈ l.
Proof.
  induction l as [|b [|c l] IH]; [done..|].
  change (dedup (b :: c :: l)) with
    (if decide (b = c) then dedup (c :: l) else b :: dedup (c :: l)).
  case_decide as Hbc; rewrite ?elem_of_cons, IH; set_solver.
Qed.

Section cmp_facts.
Context {A : Type} (cmp : A → A → comparison) `{!CmpOrder cmp}.

#[export] Instance cmp_le_dec : RelDecision (cmp_le cmp).
Proof. intros a b. unfold cmp_le. destruct (cmp a b); [by left|by left|by right; intros []]. Defined.

Lemma cmp_refl a : cmp a a = Eq.
Proof. by apply cmp_eq. Qed.

Lemma cmp_le_alt a b : cmp_le cmp a b ↔ cmp a b = Lt ∨ a = b.
Proof.
  unfold cmp_le. destruct (cmp a b) eqn:E.
  - apply cmp_eq in E. naive_solver.
  - naive_solver.
  - split; [done|]. intros [?| ->]; [done|]. by rewrite cmp_refl in E.
Qed.

#[export] Instance cmp_le_trans : Transitive (cmp_le cmp).
Proof.
  intros a b c. rewrite !cmp_le_alt. intros [H1| ->] [H2| ->]; auto.
  left. by eapply cmp_trans.
Qed.

#[export] Instance cmp_le_total : Total (cmp_le cmp).
Proof.
  intros a b. unfold cmp_le. rewrite (cmp_opp (cmp:=cmp) a b). destruct (cmp a b); cbn; auto.
Qed.

#[export] Instance cmp_le_antisymm : AntiSymm (=) (cmp_le cmp).
Proof.
  intros a b. unfold cmp_le. rewrite (cmp_opp (cmp:=cmp) a b).
  destruct (cmp a b) eqn:E; cbn; [by apply cmp_eq in E|done..].
Qed.

(** [sort_by]/[sort]/[sort_unstable] with a total order on the whole key. *)
Definition sort (l : list A) : list A := merge_sort (cmp_le cmp) l.

Lemma sort_perm l : sort l ≡ₚ l.
Proof. apply merge_sort_Permutation. Qed.

Lemma sort_sorted l : StronglySorted (cmp_le cmp) (sort l).
Proof. apply StronglySorted_merge_sort; apply _. Qed.

Lemma elem_of_sort a l : a ∈ sort l ↔ a ∈ l.
Proof. by rewrite sort_perm. Qed.

Lemma length_sort l : length (sort l) = length l.
Proof. by rewrite sort_perm. Qed.

Lemma sort_unique l l' : l ≡ₚ l' → sort l = sort l'.
Proof.
  intros H. apply (StronglySorted_unique (cmp_le cmp)); [apply sort_sorted..|].
  by rewrite !sort_perm.
Qed.

Context `{!EqDecision A}.
Lemma dedup_sorted l : StronglySorted (cmp_le cmp) l → StronglySorted (cmp_lt cmp) (dedup l).
Proof.
  induction l as [|b [|c l] IH]; intros Hs; [constructor|repeat constructor|].
  change (dedup (b :: c :: l)) with
    (if decide (b = c) then dedup (c :: l) else b :: dedup (c :: l)).
  apply StronglySorted_inv in Hs as [Hs Hb]. case_decide as Hbc; [by apply IH|].
  constructor; [by apply IH|]. apply Forall_forall. intros x Hx.
  rewrite elem_of_dedup in Hx. rewrite Forall_forall in Hb.
  pose proof (Hb x Hx) as [?|<-]%cmp_le_alt; [done|].
  apply elem_of_cons in Hx as [->|Hx]; [done|].
  exfalso. apply Hbc. apply (anti_symm (cmp_le cmp)); [by apply Hb; set_solver|].
  apply StronglySorted_inv in Hs as [_ Hc]. rewrite Forall_forall in Hc. by apply Hc.
Qed.

Lemma strictly_sorted_ext l l' :
  StronglySorted (cmp_lt cmp) l → StronglySorted (cmp_lt cmp) l' →
  (∀ x, x ∈ l ↔ x ∈ l') → l = l'.
Proof.
  intros Hl Hl' Hx.
  assert (weak : ∀ k, StronglySorted (cmp_lt cmp) k →
            StronglySorted (cmp_le cmp) k ∧ NoDup k).
  { induction 1 as [|a k Hk [IHs IHn] Ha]; split; [constructor..| |].
    - constructor; [done|]. eapply Forall_impl; [exact Ha|].
      intros x ?. apply cmp_le_alt. by left.
    - constructor; [|done]. intros Hin. rewrite Forall_forall in Ha.
      specialize (Ha a Hin). unfold cmp_lt in Ha. by rewrite cmp_refl in Ha. }
  apply (StronglySorted_unique (cmp_le cmp)); [by apply weak..|].
  apply NoDup_Permutation; [by apply weak..|done].
Qed.

(** [sort] then [dedup] depends only on the set of elements. *)
Lemma sort_dedup_canonical l l' :
  (∀ x, x ∈ l ↔ x ∈ l') → dedup (sort l) = dedup (sort l').
Proof.
  intros Hx. apply strictly_sorted_ext; [apply dedup_sorted, sort_sorted..|].
  intros x. by rewrite !elem_of_dedup, !elem_of_sort.
Qed.
End cmp_facts.

(** [sort_by_key] and [sort_by] on part of the value: equal keys keep their
    order. *)
Section stable.
Context {A : Type} (cmp : A → A → comparison).

Fixpoint insert_by (x : A) (l : list A) : list A :=
  match l with
  | [] => [x]
  | y :: rest => match cmp x y with Gt => y :: insert_by x rest | _ => x :: l end
  end.
Definition stable_sort (l : list A) : list A := foldr insert_by [] l.

Lemma insert_by_perm x l : insert_by x l ≡ₚ x :: l.
Proof. induction l as [|y l IH]; cbn; [done|]. destruct (cmp x y); [done..|]. rewrite IH. apply Permutation_swap. Qed.

Lemma stable_sort_perm l : stable_sort l ≡ₚ l.
Proof. induction l as [|x l IH]; cbn; [done|]. by rewrite insert_by_perm, IH. Qed.
End stable.

Section stable_keys.
Context {A B : Type} (f : A → B) (cmp : B → B → comparison) `{!CmpOrder cmp}.

Lemma stable_sort_sorted l : StronglySorted (λ x y, cmp_le cmp (f x) (f y)) (stable_sort (cmp_on f cmp) l).
Proof.
  induction l as [|x l IH]; cbn [stable_sort foldr]; [constructor|]. fold (stable_sort (cmp_on f cmp) l).
  induction IH as [|y s Hs IHs Hy]; cbn [insert_by]; [repeat constructor|].
  unfold cmp_on at 1. destruct (cmp (f x) (f y)) eqn:Hc.
  3:{ constructor; [done|]. apply Forall_forall. intros z. rewrite insert_by_perm.
      intros [->|Hz]%elem_of_cons; [|rewrite Forall_forall in Hy; by apply Hy].
      unfold cmp_le. by rewrite (cmp_opp (cmp:=cmp) (f x) (f y)), Hc. }
  all: constructor; [by constructor|]; constructor; [by unfold cmp_le; rewrite Hc|];
    eapply Forall_impl; [exact Hy|]; intros z Hz; cbn in Hz; etrans; [|exact Hz]; unfold cmp_le; by rewrite Hc.
Qed.
End stable_keys.

#[export] Hint Resolve sort_perm sort_sorted dedup_sorted : daemon.

#[export] Instance sort_proper {A} (cmp : A → A → comparison) `{!CmpOrder cmp} :
  Proper ((≡ₚ) ==> (=)) (sort cmp).
Proof. intros l l' H. by apply sort_unique. Qed.

(** ** Byte strings

    A Rust [str] is its UTF-8 bytes; a byte is an [ascii]. *)
Abbreviation bytes := (list ascii) (only parsing).
Definition to_bytes (s : string) : list ascii := String.list_ascii_of_string s.
Definition of_bytes (b : list ascii) : string := String.string_of_list_ascii b.

Lemma of_to_bytes s : of_bytes (to_bytes s) = s.
Proof. apply String.string_of_list_ascii_of_string. Qed.
Lemma to_of_bytes b : to_bytes (of_bytes b) = b.
Proof. apply String.list_ascii_of_string_of_list_ascii. Qed.
#[export] Instance to_bytes_inj : Inj (=) (=) to_bytes.
Proof. intros s t H. by rewrite <- (of_to_bytes s), <- (of_to_bytes t), H. Qed.

(** [starts_with] and [strip_prefix]. *)
Fixpoint strip_prefix (p l : list ascii) : option (list ascii) :=
  match p, l with
  | [], _ => Some l
  | a :: p', b :: l' => if decide (a = b) then strip_prefix p' l' else None
  | _ :: _, [] => None
  end.
Definition starts_with (p l : list ascii) : bool :=
  match strip_prefix p l with Some _ => true | None => false end.

Lemma strip_prefix_app p l : strip_prefix p (p ++ l) = Some l.
Proof. induction p; cbn; [done|]. by rewrite decide_True. Qed.

Lemma strip_prefix_Some p l r : strip_prefix p l = Some r ↔ l = p ++ r.
Proof.
  split; [|by intros ->; apply strip_prefix_app].
  revert l. induction p as [|a p IH]; intros [|b l]; cbn; intros H; simplify_eq; [done..|].
  case_decide; [|done]. subst. f_equal. by apply IH.
Qed.

(** [find] of a substring: the first index at which it occurs. *)
Fixpoint find_sub (needle hay : list ascii) : option nat :=
  if starts_with needle hay then Some 0
  else match hay with [] => None | _ :: hay' => S <$> find_sub needle hay' end.
Definition contains (needle hay : list ascii) : bool :=
  match find_sub needle hay with Some _ => true | None => false end.

(** [split(c)]: one segment more than there are separators. *)
Fixpoint split_on (c : ascii) (l : list ascii) : list (list ascii) :=
  match l with
  | [] => [[]]
  | a :: l' =>
      match split_on c l' with
      | [] => [[]] (* unreachable: the result is never empty *)
      | s :: ss => if decide (a = c) then [] :: s :: ss else (a :: s) :: ss
      end
  end.

(** ** Hash maps

    The order in which a [HashMap] is walked is not specified: it is a
    parameter of whatever walks one. *)
Class HashOrder := {
  hash_iter : ∀ {A}, gmap string A → list (string * A);
  hash_iter_perm : ∀ A (m : gmap string A), hash_iter m ≡ₚ map_to_list m;
}.
Definition key_order : HashOrder := {|
  hash_iter A m := map_to_list m;
  hash_iter_perm A m := reflexivity _;
|}.

Lemma hash_iter_nodup `{HashOrder} {A} (m : gmap string A) : NoDup (hash_iter m).*1.
Proof. rewrite hash_iter_perm. apply NoDup_fst_map_to_list. Qed.

Lemma elem_of_hash_iter `{HashOrder} {A} (m : gmap string A) k v :
  (k, v) ∈ hash_iter m ↔ m !! k = Some v.
Proof. rewrite hash_iter_perm. apply elem_of_map_to_list. Qed.

Lemma length_hash_iter `{HashOrder} {A} (m : gmap string A) : length (hash_iter m) = size m.
Proof. rewrite hash_iter_perm. apply length_map_to_list. Qed.

(** ** Tallies over a map

    How many units the entries of a map weigh, and what replacing one does. *)

Section tallies.
Context {K A : Type} `{Countable K}.
Implicit Types (f g : A → nat) (m : gmap K A).

Definition tally f m : nat := map_fold (λ _ a acc, f a + acc) 0 m.

Lemma tally_empty f : tally f ∅ = 0.
Proof. apply map_fold_empty. Qed.

Lemma tally_insert_new f m k a : m !! k = None → tally f (<[k := a]> m) = f a + tally f m.
Proof. intros Hk. unfold tally. rewrite map_fold_insert_L; [done|intros; lia|done]. Qed.

Lemma tally_delete f m k a : m !! k = Some a → tally f m = f a + tally f (delete k m).
Proof.
  intros Hk. rewrite <- (insert_delete_id m k a Hk) at 1.
  by rewrite tally_insert_new by apply lookup_delete_eq.
Qed.

Lemma tally_insert f m k a b :
  m !! k = Some a → tally f (<[k := b]> m) + f a = tally f m + f b.
Proof.
  intros Hk. rewrite (tally_delete f m k a Hk), <- insert_delete_eq.
  rewrite tally_insert_new by apply lookup_delete_eq. lia.
Qed.

Lemma tally_pos f m k a : m !! k = Some a → f a ≤ tally f m.
Proof. intros Hk. rewrite (tally_delete f m k a Hk). lia. Qed.

Lemma tally_exists f m : tally f m ≠ 0 → ∃ k a, m !! k = Some a ∧ f a ≠ 0.
Proof.
  unfold tally. apply (map_fold_weak_ind (λ r m, r ≠ 0 → ∃ k a, m !! k = Some a ∧ f a ≠ 0)); [done|].
  intros k a m' r Hk IH Hr. destruct (decide (f a = 0)) as [Hz|Hz].
  - destruct IH as (k' & b & Hb & Hf); [lia|]. exists k', b.
    rewrite lookup_insert_ne by (intros ->; congruence). done.
  - exists k, a. by rewrite lookup_insert_eq.
Qed.

Lemma tally_le f g m : (∀ a, f a ≤ g a) → tally f m ≤ tally g m.
Proof.
  intros Hfg. induction m as [|k a m Hk IH] using map_ind; [by rewrite !tally_empty|].
  rewrite !tally_insert_new by done. specialize (Hfg a). lia.
Qed.

Lemma tally_add f g m : tally (λ a, f a + g a) m = tally f m + tally g m.
Proof.
  induction m as [|k a m Hk IH] using map_ind; [by rewrite !tally_empty|].
  rewrite !tally_insert_new by done. lia.
Qed.

(** Entries that weigh at most one and whose keys a list holds. *)
Lemma tally_le_list f m (l : list K) :
  (∀ k a, m !! k = Some a → f a ≠ 0 → f a ≤ 1 ∧ k ∈ l) → tally f m ≤ length l.
Proof.
  revert m. induction l as [|x l IH]; intros m Hm; cbn [length].
  - destruct (decide (tally f m = 0)) as [->|Hz]; [done|].
    apply tally_exists in Hz as (k & a & Hk & Hf). destruct (Hm k a Hk Hf) as [_ Hin].
    by apply not_elem_of_nil in Hin.
  - assert (tally f (delete x m) ≤ length l) as Hd.
    { apply IH. intros k a [Hne Hk]%lookup_delete_Some Hf.
      destruct (Hm k a Hk Hf) as [? [->|?]%elem_of_cons]; done. }
    destruct (m !! x) as [a|] eqn:Hx.
    + rewrite (tally_delete f m x a Hx). destruct (decide (f a = 0)) as [->|Hf]; [lia|].
      destruct (Hm x a Hx Hf). lia.
    + rewrite delete_id in Hd by done. lia.
Qed.
End tallies.
