(* ===== verification/Json.v ===== *)
(** * JSON values ([serde_json::Value])

    The one type both the registry documents and the package manifests are read
    through. Objects keep their entries in declaration order ([preserve_order]);
    a number is kept as its text. *)
From stdpp Require Import base list strings.
From S2P Require Import Prelude.

Inductive Value :=
  | Null | Bool (b : bool) | Number (text : string) | String_ (s : string)
  | Array (l : list Value) | Object (fields : list (string * Value)).

Definition value_get (key : string) (v : Value) : option Value :=
  match v with Object fields => (λ p, p.2.2) <$> list_find (λ p, p.1 = key) fields | _ => None end.
Definition as_str (v : Value) : option string := match v with String_ s => Some s | _ => None end.
Definition as_object (v : Value) : option (list (string * Value)) :=
  match v with Object fields => Some fields | _ => None end.

Definition str_at (key : string) (v : Value) : option string :=
  match value_get key v with Some x => as_str x | None => None end.

(** ** Induction through arrays and objects *)

Section value_ind.
Context (P : Value → Prop).
Context (HNull : P Null) (HBool : ∀ b, P (Bool b)) (HNumber : ∀ t, P (Number t)) (HStr : ∀ s, P (String_ s)).
Context (HArray : ∀ items, Forall P items → P (Array items)).
Context (HObject : ∀ map, Forall (λ kv, P kv.2) map → P (Object map)).
Fixpoint value_rect (v : Value) : P v :=
  match v with
  | Null => HNull
  | Bool b => HBool b
  | Number t => HNumber t
  | String_ s => HStr s
  | Array items =>
      HArray items ((fix go l : Forall P l :=
        match l with [] => Forall_nil_2 P | v :: l => Forall_cons_2 P v l (value_rect v) (go l) end) items)
  | Object map =>
      HObject map ((fix go l : Forall (λ kv, P kv.2) l :=
        match l with
        | [] => Forall_nil_2 _
        | kv :: l => Forall_cons_2 (λ kv, P kv.2) kv l (value_rect kv.2) (go l)
        end) map)
  end.
End value_ind.
