(* ===== verification/Recency.v ===== *)
(** * Recency clock ([cache/recency.rs])

    The process-global counter that orders cache entries by last use. *)
From S2P Require Import Prelude.

Module RecencyClock.

(** The value of [RECENCY_CLOCK]; the static starts at 1. *)
Definition clock := N.
Definition initial : clock := 1%N.

(** [fetch_add(1)]: the returned sequence and the clock after it. *)
Definition next_seq (c : clock) : N * clock := (c, wrap_add c 1).

(** [fetch_max(seq.saturating_add(1))]. *)
Definition observe (seq : N) (c : clock) : clock := N.max c (sat_add seq 1).

(** A history of calls, in the order the atomic serialises them. *)
Inductive call := NextSeq | Observe (seq : N).

Fixpoint run (calls : list call) (c : clock) : list N * clock :=
  match calls with
  | [] => ([], c)
  | NextSeq :: rest =>
      let '(seq, c') := next_seq c in
      let '(seqs, c'') := run rest c' in
      (seq :: seqs, c'')
  | Observe seq :: rest => run rest (observe seq c)
  end.

Definition observed (calls : list call) : list N :=
  omap (λ k, match k with Observe s => Some s | NextSeq => None end) calls.

(** No call of the history can reach the end of the [u64] range. *)
Definition in_range (calls : list call) (c : clock) : Prop :=
  ∃ top, (c <= top)%N ∧ Forall (λ s, (s < top)%N) (observed calls) ∧
         (top + N.of_nat (length calls) <= u64_max)%N.

Lemma in_range_next calls c :
  in_range (NextSeq :: calls) c → wrap_add c 1 = (c + 1)%N ∧ in_range calls (c + 1)%N.
Proof.
  intros (top & ? & Hobs & Hlen). cbn in *. split.
  - apply wrap_add_small. lia.
  - exists (top + 1)%N. repeat split; [lia| |lia].
    eapply Forall_impl; [exact Hobs|]. cbn. lia.
Qed.

Lemma in_range_observe calls c s :
  in_range (Observe s :: calls) c →
  observe s c = N.max c (s + 1) ∧ in_range calls (N.max c (s + 1)).
Proof.
  intros (top & ? & Hobs & Hlen). cbn in *. apply Forall_cons in Hobs as [? ?].
  split; [unfold observe; rewrite sat_add_small; lia|].
  exists top. repeat split; [lia|done|lia].
Qed.

Lemma run_lower calls c :
  in_range calls c → Forall (λ seq, (c <= seq)%N) (run calls c).1.
Proof.
  revert c. induction calls as [|[|s] calls IH]; intros c Hr; cbn; [constructor| |].
  - apply in_range_next in Hr as [Hw Hr]. rewrite Hw.
    specialize (IH _ Hr). destruct (run calls _) as [seqs c'']. cbn in *.
    constructor; [lia|]. eapply Forall_impl; [exact IH|]. cbn. lia.
  - apply in_range_observe in Hr as [Hw Hr]. rewrite Hw.
    eapply Forall_impl; [exact (IH _ Hr)|]. cbn. lia.
Qed.

(** Over any history of calls that stays inside [u64], the sequences
    handed out strictly increase, and every sequence handed out after an
    [observe s] is greater than [s]. *)
Theorem recency_strictly_increasing before s after c :
  in_range (before ++ Observe s :: after) c →
  StronglySorted N.lt (run (before ++ Observe s :: after) c).1 ∧
  Forall (λ seq, (s < seq)%N) (run after (observe s (run before c).2)).1.
Proof.
  revert c. induction before as [|[|t] before IH]; intros c Hr; cbn in *.
  - apply in_range_observe in Hr as [Hw Hr]. rewrite Hw. split.
    + clear Hw. revert Hr. generalize (N.max c (s + 1))%N. clear.
      induction after as [|[|t] after IH]; intros c Hr; cbn; [constructor| |].
      * apply in_range_next in Hr as [Hw Hr]. rewrite Hw.
        pose proof (run_lower _ _ Hr) as Hlow. specialize (IH _ Hr).
        destruct (run after _) as [seqs c'']. cbn in *.
        constructor; [done|]. eapply Forall_impl; [exact Hlow|]. cbn. lia.
      * apply in_range_observe in Hr as [Hw Hr]. rewrite Hw. exact (IH _ Hr).
    + eapply Forall_impl; [exact (run_lower _ _ Hr)|]. cbn. lia.
  - apply in_range_next in Hr as [Hw Hr]. rewrite Hw.
    pose proof (run_lower _ _ Hr) as Hlow. destruct (IH _ Hr) as [Hsort Hfresh].
    destruct (run (before ++ _) _) as [seqs c'']. destruct (run before _) as [seqs' c'].
    cbn in *. split; [|done]. constructor; [done|].
    eapply Forall_impl; [exact Hlow|]. cbn. lia.
  - apply in_range_observe in Hr as [Hw Hr]. rewrite Hw. exact (IH _ Hr).
Qed.

Example recency_strictly_increasing_witness :
  StronglySorted N.lt (run ([NextSeq; NextSeq] ++ Observe 100 :: [NextSeq; NextSeq]) initial).1 ∧
  Forall (λ seq, (100 < seq)%N) (run [NextSeq; NextSeq] (observe 100 (run [NextSeq; NextSeq] initial).2)).1.
Proof.
  apply (recency_strictly_increasing [NextSeq; NextSeq] 100 [NextSeq; NextSeq] initial).
  exists 101%N. repeat split; [vm_compute; discriminate| |vm_compute; discriminate].
  cbn. constructor; [lia|constructor].
Defined.

End RecencyClock.
