(* ===== verification/Stages.v ===== *)
(** * Stages ([engine/mod.rs], [pipeline/stage.rs])

    The vocabulary of stages a result can carry, the rank a build failure is
    ordered by, and the allowlist every durable store consults. *)
From S2P Require Import Prelude.

(** ** Engine stages ([engine::stage]), in declaration order, which is rank order *)
Module engine_stage.
Definition PANIC := "panic".
Definition TIMEOUT := "timeout".
Definition ENGINE_GONE := "engine_gone".
Definition ASSET_IO := "asset_io".
Definition MODULE_GRAPH_LIMIT := "module_graph_limit".
Definition RESOLVE := "resolve".
Definition PARSE := "parse".
Definition MISSING_EXPORT := "missing_export".
Definition AMBIGUOUS_EXPORT := "ambiguous_export".
Definition LINK := "link".
Definition GENERATE := "generate".
Definition OUTPUT_SHAPE := "output_shape".

Definition ALL : list string :=
  [PANIC; TIMEOUT; ENGINE_GONE; ASSET_IO; MODULE_GRAPH_LIMIT; RESOLVE; PARSE;
   MISSING_EXPORT; AMBIGUOUS_EXPORT; LINK; GENERATE; OUTPUT_SHAPE].

(** [ALL.iter().position(|known| known == stage).unwrap_or(ALL.len())]. *)
Definition rank (stage : string) : nat :=
  match list_find (λ known, known = stage) ALL with
  | Some (i, _) => i
  | None => length ALL
  end.
End engine_stage.

(** ** Diagnostic-only stages ([engine::diagnostic_stage]) *)
Module diagnostic_stage.
Definition EXTERNAL := "external".
Definition UNCOUNTED_ASSETS := "uncounted_assets".
Definition IMPRECISE_ASSETS := "imprecise_assets".
Definition ALL : list string := [EXTERNAL; UNCOUNTED_ASSETS; IMPRECISE_ASSETS].
End diagnostic_stage.

(** ** Pipeline stages ([pipeline/stage.rs]) *)
Module stage.
Definition PACKAGE_VALIDATION := "package_validation".
Definition PACKAGE_RESOLUTION := "package_resolution".
Definition PATH_ALIAS := "path_alias".
Definition PACKAGE_MANIFEST := "package_manifest".
Definition ENTRY_RESOLUTION := "entry_resolution".
Definition NO_ROOT_ENTRY := "no_root_entry".
Definition ENTRY_METADATA := "entry_metadata".
Definition OVERSIZED_ENTRY := "oversized_entry".
Definition MINIFY := "minify".
Definition COMPRESSION := "compression".
Definition PROTOCOL := "protocol".
Definition FILE_SIZE_FALLBACK := "file_size_fallback".
Definition TYPES_ONLY := "types_only".
Definition NATIVE_BINARY_ONLY := "native_binary_only".
Definition NATIVE_BINARY := "native_binary".

Definition ALL : list string :=
  [PACKAGE_VALIDATION; PACKAGE_RESOLUTION; PATH_ALIAS; PACKAGE_MANIFEST;
   ENTRY_RESOLUTION; NO_ROOT_ENTRY; ENTRY_METADATA; OVERSIZED_ENTRY; MINIFY;
   COMPRESSION; PROTOCOL; FILE_SIZE_FALLBACK; TYPES_ONLY; NATIVE_BINARY_ONLY;
   NATIVE_BINARY].

Definition TRANSIENT_ANALYSIS_STAGES : list string :=
  [engine_stage.PANIC; engine_stage.TIMEOUT; engine_stage.ENGINE_GONE;
   engine_stage.ASSET_IO; ENTRY_METADATA; COMPRESSION].

Definition is_transient (s : string) : bool :=
  bool_decide (s ∈ TRANSIENT_ANALYSIS_STAGES).

Definition DURABLE_RESULT_STAGES : list string :=
  [engine_stage.RESOLVE; engine_stage.PARSE; engine_stage.LINK; engine_stage.GENERATE;
   engine_stage.OUTPUT_SHAPE; engine_stage.MODULE_GRAPH_LIMIT;
   engine_stage.MISSING_EXPORT; engine_stage.AMBIGUOUS_EXPORT;
   diagnostic_stage.EXTERNAL; diagnostic_stage.UNCOUNTED_ASSETS;
   diagnostic_stage.IMPRECISE_ASSETS;
   PACKAGE_VALIDATION; PACKAGE_RESOLUTION; PACKAGE_MANIFEST; ENTRY_RESOLUTION;
   NO_ROOT_ENTRY; OVERSIZED_ENTRY; MINIFY;
   TYPES_ONLY; NATIVE_BINARY_ONLY; NATIVE_BINARY].

Definition may_enter_a_durable_store (s : string) : bool :=
  bool_decide (s ∈ DURABLE_RESULT_STAGES).

Definition NON_BUDGETABLE_RESULT_STAGES : list string := [diagnostic_stage.IMPRECISE_ASSETS].

Definition prevents_budget_verdict (s : string) : bool :=
  bool_decide (s ∈ NON_BUDGETABLE_RESULT_STAGES).

Definition marks_a_floor (s : string) : bool :=
  bool_decide (s ∈ [diagnostic_stage.UNCOUNTED_ASSETS; engine_stage.RESOLVE;
                    engine_stage.MISSING_EXPORT]).

(** The two vocabularies do not overlap: the request-local stages are never
    on the allowlist. *)
Lemma transient_not_durable s :
  is_transient s = true → may_enter_a_durable_store s = false.
Proof.
  unfold is_transient, may_enter_a_durable_store. rewrite bool_decide_eq_true.
  intros Hin. apply bool_decide_eq_false.
  unfold TRANSIENT_ANALYSIS_STAGES in Hin.
  repeat (apply elem_of_cons in Hin as [->|Hin]; [by vm_compute; set_solver|]).
  by apply elem_of_nil in Hin.
Qed.
End stage.

Module StageOrder.
Import engine_stage.

Lemma rank_bound s : rank s ≤ length ALL.
Proof.
  unfold rank. destruct (list_find _ _) as [[i y]|] eqn:H; [|done].
  apply list_find_Some in H as (H & _). apply lookup_lt_Some in H. lia.
Qed.

Lemma rank_lookup s i : ALL !! i = Some s → rank s = i.
Proof.
  intros H. unfold ALL in H.
  do 12 (destruct i as [|i]; [cbn in H; by injection H as <-|]).
  by rewrite lookup_ge_None_2 in H by (cbn; lia).
Qed.

(** [rank] is a total order on the engine vocabulary: every declared stage
    has a rank below every undeclared one, no two share a rank, and the four
    stages of a build that produced no reusable answer rank before every
    deterministic stage, so a ranking never reports a lost build as a fact
    about the package. *)
Theorem rank_orders_lost_builds_first s t :
  s ∈ ALL → t ∈ ALL → stage.is_transient s = true → stage.is_transient t = false →
  rank s < rank t ∧ rank t < length ALL ∧ (∀ u, u ∈ ALL → rank u = rank t → u = t).
Proof.
  intros Hs Ht Hts Htt.
  apply list_elem_of_lookup in Hs as [i Hi], Ht as [j Hj].
  rewrite (rank_lookup _ _ Hi), (rank_lookup _ _ Hj).
  assert (Hjlt : j < length ALL) by by eapply lookup_lt_Some.
  assert (i < 4 ∧ 4 ≤ j) as [Hi4 Hj4].
  { split.
    - destruct (decide (i < 4)); [done|]. exfalso. revert Hts. unfold ALL in Hi.
      do 4 (destruct i as [|i]; [lia|]).
      do 8 (destruct i as [|i]; [cbn in Hi; injection Hi as <-; by vm_compute|]).
      by rewrite lookup_ge_None_2 in Hi by (cbn; lia).
    - destruct (decide (4 ≤ j)); [done|]. exfalso. revert Htt. unfold ALL in Hj.
      do 4 (destruct j as [|j]; [cbn in Hj; injection Hj as <-; by vm_compute|]). lia. }
  split_and!; [lia|done|].
  intros u Hu Hr. apply list_elem_of_lookup in Hu as [k Hk].
  rewrite (rank_lookup _ _ Hk) in Hr. subst. congruence.
Qed.

Example rank_orders_lost_builds_first_witness :
  rank TIMEOUT < rank PARSE ∧ rank PARSE < length ALL ∧
  (∀ u, u ∈ ALL → rank u = rank PARSE → u = PARSE).
Proof.
  apply (rank_orders_lost_builds_first TIMEOUT PARSE);
    [vm_compute; set_solver|vm_compute; set_solver|reflexivity|reflexivity].
Defined.
End StageOrder.
