(* ===== verification/Results.v ===== *)
(** * The result model ([ipc/protocol.rs])

    One import's analysis: measured, with five sizes, or unmeasured, with the
    stage that could not answer. The predicates the durable stores and the
    budget verdict consult are defined here. *)
From S2P Require Import Prelude Stages.

Inductive ImportKind := Named | Default | Namespace | Dynamic.
Inductive ImportRuntime := Component | Client | Server.
Inductive ConfidenceLevel := High | Medium | Low.
Inductive AssetKind := Css | Wasm | Font | Image.
Inductive FreshnessKind := KFresh | KStale | KUnverified.

#[export] Instance ImportKind_eq_dec : EqDecision ImportKind.
Proof. solve_decision. Defined.
#[export] Instance ImportRuntime_eq_dec : EqDecision ImportRuntime.
Proof. solve_decision. Defined.
#[export] Instance ConfidenceLevel_eq_dec : EqDecision ConfidenceLevel.
Proof. solve_decision. Defined.
#[export] Instance AssetKind_eq_dec : EqDecision AssetKind.
Proof. solve_decision. Defined.
#[export] Instance FreshnessKind_eq_dec : EqDecision FreshnessKind.
Proof. solve_decision. Defined.
#[export] Instance ImportRuntime_countable : Countable ImportRuntime.
Proof.
  refine (inj_countable' (λ r, match r with Component => 0 | Client => 1 | Server => 2 end)
            (λ n, match n with 0 => Component | 1 => Client | _ => Server end) _).
  by intros [].
Defined.

(** [ResultFreshness]: the data-layer freshness a served value carries. *)
Record ResultFreshness := {
  kind : FreshnessKind;
  revalidating : bool;
  reason : option string;
}.

Module freshness.
Definition fresh : ResultFreshness := {| kind := KFresh; revalidating := false; reason := None |}.
Definition stale (r : bool) : ResultFreshness :=
  {| kind := KStale; revalidating := r; reason := None |}.
Definition unverified (why : string) : ResultFreshness :=
  {| kind := KUnverified; revalidating := false; reason := Some why |}.
Definition is_fresh (f : ResultFreshness) : bool := bool_decide (kind f = KFresh).
End freshness.

Record MeasuredSizes := {
  m_raw : N; m_minified : N; m_gzip : N; m_brotli : N; m_zstd : N;
}.
Definition ZERO : MeasuredSizes :=
  {| m_raw := 0; m_minified := 0; m_gzip := 0; m_brotli := 0; m_zstd := 0 |}.

Record ImportDiagnostic := { d_stage : string; d_message : string; d_details : list string }.
Record ModuleContribution := { mc_path : string; mc_bytes : N }.
Record AssetContribution := { ac_kind : AssetKind; ac_sizes : MeasuredSizes }.

Record ImportResult := {
  specifier : string;
  raw_bytes : option N;
  minified_bytes : option N;
  gzip_bytes : option N;
  brotli_bytes : option N;
  zstd_bytes : option N;
  cache_hit : bool;
  side_effects : bool;
  truly_treeshakeable : bool;
  is_cjs : bool;
  confidence : ConfidenceLevel;
  confidence_reasons : list string;
  error : option string;
  unmeasured_stage : option string;
  diagnostics : list ImportDiagnostic;
  module_breakdown : option (list ModuleContribution);
  shared_bytes : option N;
  asset_breakdown : list AssetContribution;
  r_freshness : ResultFreshness;
  internal_contributions : list ModuleContribution;
}.

(** The field updates the daemon performs on a served result. *)
Definition set_served (hit : bool) (f : ResultFreshness) (r : ImportResult) : ImportResult :=
  {| specifier := specifier r; raw_bytes := raw_bytes r; minified_bytes := minified_bytes r;
     gzip_bytes := gzip_bytes r; brotli_bytes := brotli_bytes r; zstd_bytes := zstd_bytes r;
     cache_hit := hit; side_effects := side_effects r;
     truly_treeshakeable := truly_treeshakeable r; is_cjs := is_cjs r;
     confidence := confidence r; confidence_reasons := confidence_reasons r;
     error := error r; unmeasured_stage := unmeasured_stage r; diagnostics := diagnostics r;
     module_breakdown := module_breakdown r; shared_bytes := shared_bytes r;
     asset_breakdown := asset_breakdown r; r_freshness := f;
     internal_contributions := internal_contributions r |}.

Definition set_cache_hit (hit : bool) (r : ImportResult) : ImportResult :=
  set_served hit (r_freshness r) r.
Definition set_freshness (f : ResultFreshness) (r : ImportResult) : ImportResult :=
  set_served (cache_hit r) f r.

Definition push_diagnostic (d : ImportDiagnostic) (r : ImportResult) : ImportResult :=
  {| specifier := specifier r; raw_bytes := raw_bytes r; minified_bytes := minified_bytes r;
     gzip_bytes := gzip_bytes r; brotli_bytes := brotli_bytes r; zstd_bytes := zstd_bytes r;
     cache_hit := cache_hit r; side_effects := side_effects r;
     truly_treeshakeable := truly_treeshakeable r; is_cjs := is_cjs r;
     confidence := confidence r; confidence_reasons := confidence_reasons r;
     error := error r; unmeasured_stage := unmeasured_stage r;
     diagnostics := diagnostics r ++ [d];
     module_breakdown := module_breakdown r; shared_bytes := shared_bytes r;
     asset_breakdown := asset_breakdown r; r_freshness := r_freshness r;
     internal_contributions := internal_contributions r |}.

(** [ImportResult::measured]. *)
Definition measured (spec : string) (s : MeasuredSizes) : ImportResult :=
  {| specifier := spec;
     raw_bytes := Some (m_raw s); minified_bytes := Some (m_minified s);
     gzip_bytes := Some (m_gzip s); brotli_bytes := Some (m_brotli s);
     zstd_bytes := Some (m_zstd s);
     cache_hit := false; side_effects := false; truly_treeshakeable := false; is_cjs := false;
     confidence := Low; confidence_reasons := []; error := None; unmeasured_stage := None;
     diagnostics := []; module_breakdown := None; shared_bytes := None; asset_breakdown := [];
     r_freshness := freshness.fresh; internal_contributions := [] |}.

(** [ImportResult::unmeasured]. *)
Definition unmeasured (spec stage message : string) (details : list string) : ImportResult :=
  {| specifier := spec;
     raw_bytes := None; minified_bytes := None; gzip_bytes := None; brotli_bytes := None;
     zstd_bytes := None;
     cache_hit := false; side_effects := true; truly_treeshakeable := false; is_cjs := false;
     confidence := Low;
     confidence_reasons := ["Analysis failed before a bundle size could be measured."];
     error := Some message; unmeasured_stage := Some stage;
     diagnostics := [{| d_stage := stage; d_message := message; d_details := details |}];
     module_breakdown := None; shared_bytes := None; asset_breakdown := [];
     r_freshness := freshness.fresh; internal_contributions := [] |}.

(** [ImportResult::sizes]: the five sizes, when all five are present. *)
Definition sizes (r : ImportResult) : option MeasuredSizes :=
  raw ← raw_bytes r; min ← minified_bytes r; gz ← gzip_bytes r; br ← brotli_bytes r;
  zs ← zstd_bytes r;
  Some {| m_raw := raw; m_minified := min; m_gzip := gz; m_brotli := br; m_zstd := zs |}.

Definition stage_of_diagnostics (p : string → bool) (r : ImportResult) : bool :=
  existsb (λ d, p (d_stage d)) (diagnostics r).

(** [is_transient]: describes this run of the daemon, not the package. *)
Definition is_transient (r : ImportResult) : bool :=
  match unmeasured_stage r with Some s => stage.is_transient s | None => false end
  || stage_of_diagnostics stage.is_transient r.

(** [is_durable]: the gate every durable store applies. *)
Definition is_durable (r : ImportResult) : bool :=
  match unmeasured_stage r with Some s => stage.may_enter_a_durable_store s | None => true end
  && forallb (λ d, stage.may_enter_a_durable_store (d_stage d)) (diagnostics r).

(** [is_budgetable]: precise enough for a budget verdict. *)
Definition is_budgetable (r : ImportResult) : bool :=
  bool_decide (is_Some (sizes r)) && is_durable r &&
  forallb (λ d, negb (stage.prevents_budget_verdict (d_stage d))) (diagnostics r).

Definition is_floor (r : ImportResult) : bool :=
  stage_of_diagnostics stage.marks_a_floor r.

Definition has_stage (s : string) (r : ImportResult) : bool :=
  bool_decide (is_Some (sizes r)) && stage_of_diagnostics (λ t, bool_decide (t = s)) r.
Definition is_types_only := has_stage stage.TYPES_ONLY.
Definition is_native_binary_only := has_stage stage.NATIVE_BINARY_ONLY.
Definition is_native_binary := has_stage stage.NATIVE_BINARY.

(** ** The invariant of the result model *)

(** A result is in exactly one of the two states a response can carry. *)
Definition result_wf (r : ImportResult) : Prop :=
  (is_Some (raw_bytes r) ∧ is_Some (minified_bytes r) ∧ is_Some (gzip_bytes r) ∧
   is_Some (brotli_bytes r) ∧ is_Some (zstd_bytes r) ∧
   unmeasured_stage r = None ∧ error r = None)
  ∨ (raw_bytes r = None ∧ minified_bytes r = None ∧ gzip_bytes r = None ∧
     brotli_bytes r = None ∧ zstd_bytes r = None ∧
     is_Some (unmeasured_stage r) ∧ is_Some (error r)).

Lemma measured_wf spec s : result_wf (measured spec s).
Proof. left. repeat split; by eexists. Qed.
Lemma unmeasured_wf spec s m d : result_wf (unmeasured spec s m d).
Proof. right. repeat split; by eexists. Qed.
Lemma set_served_wf hit f r : result_wf r → result_wf (set_served hit f r).
Proof. done. Qed.
Lemma push_diagnostic_wf d r : result_wf r → result_wf (push_diagnostic d r).
Proof. done. Qed.
#[export] Hint Resolve measured_wf unmeasured_wf set_served_wf push_diagnostic_wf : daemon.

Lemma sizes_wf r : result_wf r → is_Some (sizes r) ↔ unmeasured_stage r = None.
Proof.
  unfold sizes. intros [(Ha&Hb&Hc&Hd&He&Hs&_)|(->&->&->&->&->&[? ->]&_)].
  - destruct Ha as [? ->], Hb as [? ->], Hc as [? ->], Hd as [? ->], He as [? ->].
    cbn. rewrite Hs. split; [done|by eexists].
  - cbn. split; [by intros []|done].
Qed.

(** A size exists exactly when a build succeeded: on any result built by the
    constructors and changed only by the daemon's updates, the five sizes are
    present together, and they are present exactly when there is no failing
    stage and no error. *)
Theorem size_iff_measured r :
  result_wf r →
  (is_Some (sizes r) ↔ unmeasured_stage r = None) ∧
  (is_Some (sizes r) ↔ error r = None) ∧
  (is_Some (brotli_bytes r) ↔ is_Some (sizes r)).
Proof.
  intros Hwf. pose proof (sizes_wf r Hwf) as Hsz. split; [done|].
  destruct Hwf as [(_&_&_&[b Hb]&_&Hs&He)|(_&_&_&Hb&_&[s Hs]&[e He])]; rewrite Hsz, Hs, Hb, ?He.
  - naive_solver.
  - split; [naive_solver|]. split; [by intros []|naive_solver].
Qed.

Example size_iff_measured_witness :
  (is_Some (sizes (set_cache_hit true (measured "lodash" ZERO))) ↔
   unmeasured_stage (set_cache_hit true (measured "lodash" ZERO)) = None) ∧
  (is_Some (sizes (set_cache_hit true (measured "lodash" ZERO))) ↔
   error (set_cache_hit true (measured "lodash" ZERO)) = None) ∧
  (is_Some (brotli_bytes (set_cache_hit true (measured "lodash" ZERO))) ↔
   is_Some (sizes (set_cache_hit true (measured "lodash" ZERO)))).
Proof. apply size_iff_measured. apply set_served_wf, measured_wf. Defined.

(** ** The gates *)

Lemma is_durable_spec r :
  is_durable r = true ↔
  (∀ s, unmeasured_stage r = Some s → stage.may_enter_a_durable_store s = true) ∧
  Forall (λ d, stage.may_enter_a_durable_store (d_stage d) = true) (diagnostics r).
Proof.
  unfold is_durable. rewrite andb_true_iff, forallb_Forall.
  destruct (unmeasured_stage r); naive_solver.
Qed.

Lemma transient_refused r : is_transient r = true → is_durable r = false.
Proof.
  intros Ht. apply not_true_iff_false. rewrite is_durable_spec. intros [Hs Hd].
  unfold is_transient, stage_of_diagnostics in Ht.
  rewrite orb_true_iff, existsb_Exists in Ht. destruct Ht as [Ht|Ht].
  - destruct (unmeasured_stage r) as [s|]; [|done].
    specialize (Hs s eq_refl). by rewrite stage.transient_not_durable in Hs.
  - apply Exists_exists in Ht as (d & Hin & Ht). rewrite Forall_forall in Hd.
    specialize (Hd d Hin). by rewrite stage.transient_not_durable in Hd.
Qed.

(** The gates are ordered: a result that describes this run of the daemon
    (a lost build, an unobserved asset, a failed compressor, on the result or
    on any of its diagnostics) is refused by every durable store, and a budget
    verdict is given only on a durable result that has all five sizes and
    discloses no upper bound. *)
Theorem gates_ordered r :
  (is_transient r = true → is_durable r = false) ∧
  (is_budgetable r = true →
   is_durable r = true ∧ is_transient r = false ∧ is_Some (sizes r) ∧
   Forall (λ d, d_stage d ≠ diagnostic_stage.IMPRECISE_ASSETS) (diagnostics r)).
Proof.
  split; [apply transient_refused|].
  unfold is_budgetable. rewrite !andb_true_iff, bool_decide_eq_true.
  intros [[Hs Hd] Hp]. split_and!; try done.
  - destruct (is_transient r) eqn:Ht; [|done]. by rewrite transient_refused in Hd.
  - eapply Forall_impl; [by apply forallb_Forall|]. intros d Hp' Heq; cbn in *; by rewrite Heq in Hp'.
Qed.

Example gates_ordered_witness :
  (is_transient (unmeasured "a" engine_stage.TIMEOUT "slow" []) = true →
   is_durable (unmeasured "a" engine_stage.TIMEOUT "slow" []) = false) ∧
  (is_budgetable (measured "a" ZERO) = true → is_durable (measured "a" ZERO) = true).
Proof.
  split; [apply gates_ordered|]. intros H. exact (proj1 (proj2 (gates_ordered _) H)).
Defined.
