(* ===== verification/Fingerprints.v ===== *)
(** * Fingerprints and freshness ([cache/key.rs], second half)

    What an analysis observed of each file it read, and whether the files on
    disk still match. The file system and the content hash (xxh3) are
    parameters: one [FileSystem] value is one state of the disk. *)
From S2P Require Import Prelude.

(** ** The disk, as [std::fs] reports it *)

Inductive ErrorKind := NotFound | InvalidData | OtherError.
#[export] Instance ErrorKind_eq_dec : EqDecision ErrorKind.
Proof. solve_decision. Defined.

(** [fs::Metadata]: the length and, where the platform reports one, the
    modification time in nanoseconds relative to the Unix epoch. *)
Record Metadata := { md_len : N; md_modified : option Z }.

Class FileSystem := {
  fs_metadata : string → Metadata + ErrorKind;
  fs_read : string → list ascii + ErrorKind;
  fs_canonicalize : string → option string;
}.

(** [content_hash]: [xxh3_64], a third-party function of the bytes. *)
Class ContentHash := content_hash : list ascii → N.

(** ** [FileFingerprint] *)

Record FileFingerprint := {
  fp_path : string;
  fp_len : N;
  fp_modified_millis : N;
  fp_content_hash : option N;
}.
#[export] Instance FileFingerprint_eq_dec : EqDecision FileFingerprint.
Proof. solve_decision. Defined.

Inductive Freshness := Fresh | Stale | Gone | Unknown.
#[export] Instance Freshness_eq_dec : EqDecision Freshness.
Proof. solve_decision. Defined.

Definition u64_of_z (z : Z) : option N :=
  if decide (0 ≤ z ∧ z ≤ Z.of_N u64_max)%Z then Some (Z.to_N z) else None.

(** [modified_millis]: [0] when there is no mtime, it precedes the epoch, or
    its milliseconds do not fit a [u64]. *)
Definition modified_millis (md : Metadata) : N :=
  match md_modified md with
  | Some t => if decide (t < 0)%Z then 0%N else default 0%N (u64_of_z (t / 1000000))
  | None => 0%N
  end.

(** ** Ordering and conflicts *)

Definition fp_tuple (f : FileFingerprint) : string * (N * (N * option N)) :=
  (fp_path f, (fp_len f, (fp_modified_millis f, fp_content_hash f))).

(** The comparator of [sort_and_dedup_fingerprints]: path, then length, then
    mtime, then hash. *)
Definition fp_cmp : FileFingerprint → FileFingerprint → comparison :=
  cmp_on fp_tuple
    (cmp_lex String.compare (cmp_lex N.compare (cmp_lex N.compare (cmp_option N.compare)))).

#[export] Instance fp_tuple_inj : Inj (=) (=) fp_tuple.
Proof. by intros [] [] [=]; simplify_eq/=. Qed.
#[export] Instance fp_cmp_order : CmpOrder fp_cmp.
Proof. unfold fp_cmp. apply cmp_on_order; apply _. Qed.

Definition sort_and_dedup_fingerprints (fps : list FileFingerprint) : list FileFingerprint :=
  dedup (sort fp_cmp fps).

(** The loop of [fingerprints_have_conflicting_snapshots]: [observed] maps a
    path to the metadata and the hash known for it so far. *)
Fixpoint conflicting_from (observed : gmap string (N * N * option N))
    (fps : list FileFingerprint) : bool :=
  match fps with
  | [] => false
  | f :: rest =>
      match observed !! fp_path f with
      | None =>
          conflicting_from
            (<[fp_path f := (fp_len f, fp_modified_millis f, fp_content_hash f)]> observed) rest
      | Some (len, mtime, known) =>
          if decide (len ≠ fp_len f ∨ mtime ≠ fp_modified_millis f) then true
          else match known, fp_content_hash f with
               | Some l, Some r =>
                   if decide (l ≠ r) then true else conflicting_from observed rest
               | None, Some h =>
                   conflicting_from (<[fp_path f := (len, mtime, Some h)]> observed) rest
               | _, None => conflicting_from observed rest
               end
      end
  end.

Definition fingerprints_have_conflicting_snapshots (fps : list FileFingerprint) : bool :=
  conflicting_from ∅ fps.

(** Two observations that no single file state can have produced. *)
Definition incompatible (f g : FileFingerprint) : Prop :=
  fp_path f = fp_path g ∧
  (fp_len f ≠ fp_len g ∨ fp_modified_millis f ≠ fp_modified_millis g ∨
   ∃ a b, fp_content_hash f = Some a ∧ fp_content_hash g = Some b ∧ a ≠ b).

(** [observed] is exactly what the fingerprints [seen] so far say. *)
Definition summarises (observed : gmap string (N * N * option N))
    (seen : list FileFingerprint) : Prop :=
  ∀ p, match observed !! p with
       | None => Forall (λ f, fp_path f ≠ p) seen
       | Some (len, mtime, known) =>
           (∃ f, f ∈ seen ∧ fp_path f = p) ∧
           (∀ f, f ∈ seen → fp_path f = p →
                 fp_len f = len ∧ fp_modified_millis f = mtime ∧
                 (fp_content_hash f = None ∨ fp_content_hash f = known)) ∧
           (is_Some known → ∃ f, f ∈ seen ∧ fp_path f = p ∧ fp_content_hash f = known)
       end.

Lemma summarises_compatible observed seen f g :
  summarises observed seen → f ∈ seen → g ∈ seen → ¬ incompatible f g.
Proof.
  intros Hs Hf Hg [Hp Hdiff]. specialize (Hs (fp_path f)).
  destruct (observed !! fp_path f) as [[[len mtime] known]|].
  - destruct Hs as (_ & Hall & _).
    destruct (Hall f Hf eq_refl) as (Hl & Hm & Hh).
    destruct (Hall g Hg (eq_sym Hp)) as (Hl' & Hm' & Hh').
    destruct Hdiff as [?|[?|(a & b & Ha & Hb & ?)]]; [congruence..|].
    rewrite Ha in Hh. rewrite Hb in Hh'. destruct Hh, Hh'; congruence.
  - rewrite Forall_forall in Hs. by apply (Hs f).
Qed.

Lemma summarises_new observed seen f :
  summarises observed seen → observed !! fp_path f = None →
  summarises (<[fp_path f := (fp_len f, fp_modified_millis f, fp_content_hash f)]> observed)
             (seen ++ [f]).
Proof.
  intros Hs Hnone p. destruct (decide (p = fp_path f)) as [->|Hne].
  - rewrite lookup_insert_eq. specialize (Hs (fp_path f)). rewrite Hnone, Forall_forall in Hs.
    split_and!; [exists f; set_solver| |intros _; exists f; set_solver].
    intros g [Hg|Hg%list_elem_of_singleton]%elem_of_app Hp; [by apply Hs in Hg|]. subst. auto.
  - rewrite lookup_insert_ne by done. specialize (Hs p).
    destruct (observed !! p) as [[[len mtime] known]|].
    + destruct Hs as ((g & ? & ?) & Hall & Hk). split_and!.
      * exists g. set_solver.
      * intros g' [?|Hg%list_elem_of_singleton]%elem_of_app Hp; [by apply Hall|congruence].
      * intros Hsome. destruct (Hk Hsome) as (g' & ? & ? & ?). exists g'. set_solver.
    + apply Forall_app. split; [done|]. by repeat constructor.
Qed.

Lemma summarises_old observed seen f len mtime known :
  summarises observed seen → observed !! fp_path f = Some (len, mtime, known) →
  len = fp_len f → mtime = fp_modified_millis f →
  (fp_content_hash f = None ∨ known = None ∨ fp_content_hash f = known) →
  summarises (<[fp_path f := (len, mtime, if fp_content_hash f then fp_content_hash f else known)]>
                observed) (seen ++ [f]).
Proof.
  intros Hs Hsome -> -> Hh p. destruct (decide (p = fp_path f)) as [->|Hne].
  - rewrite lookup_insert_eq. specialize (Hs (fp_path f)). rewrite Hsome in Hs.
    destruct Hs as ((g & ? & ?) & Hall & Hk). split_and!.
    + exists g. set_solver.
    + intros g' [Hg|Hg%list_elem_of_singleton]%elem_of_app Hp.
      * destruct (Hall g' Hg Hp) as (? & ? & Hg'). split_and!; [done..|].
        destruct (fp_content_hash f) eqn:E; [|done]. destruct Hh as [?|[->|<-]]; naive_solver.
      * subst. split_and!; [done..|]. destruct (fp_content_hash f); auto.
    + destruct (fp_content_hash f) eqn:E; [intros _; exists f; set_solver|].
      intros Hk'. destruct (Hk Hk') as (g' & ? & ? & ?). exists g'. set_solver.
  - rewrite lookup_insert_ne by done. specialize (Hs p).
    destruct (observed !! p) as [[[len' mtime'] known']|].
    + destruct Hs as ((g & ? & ?) & Hall & Hk). split_and!.
      * exists g. set_solver.
      * intros g' [?|Hg%list_elem_of_singleton]%elem_of_app Hp; [by apply Hall|congruence].
      * intros Hsm. destruct (Hk Hsm) as (g' & ? & ? & ?). exists g'. set_solver.
    + apply Forall_app. split; [done|]. by repeat constructor.
Qed.

Lemma conflicting_from_spec observed seen fps :
  summarises observed seen →
  conflicting_from observed fps = true ↔
  ∃ f g, f ∈ seen ++ fps ∧ g ∈ fps ∧ incompatible f g.
Proof.
  revert observed seen. induction fps as [|f fps IH]; intros observed seen Hs; cbn.
  { split; [done|]. intros (? & ? & _ & Hg & _). by apply elem_of_nil in Hg. }
  (* the step common to every branch that keeps going *)
  assert (continue : ∀ observed', summarises observed' (seen ++ [f]) →
    conflicting_from observed' fps = true ↔
    ∃ g h, g ∈ seen ++ f :: fps ∧ h ∈ f :: fps ∧ incompatible g h).
  { intros observed' Hs'. rewrite (IH _ _ Hs'). split.
    - intros (g & h & Hg & Hh & ?). exists g, h. set_solver.
    - intros (g & h & Hg & Hh & Hi). rewrite (cons_middle f seen fps), app_assoc in Hg.
      apply elem_of_cons in Hh as [->|Hh]; [|by exists g, h].
      assert (Hf : f ∈ seen ++ [f]) by set_solver.
      apply elem_of_app in Hg as [Hg|Hg]; [by destruct (summarises_compatible _ _ _ _ Hs' Hg Hf)|].
      exists f, g. split_and!; [set_solver|done|].
      destruct Hi as [Hp Hd]. split; [done|]. naive_solver. }
  pose proof (Hs (fp_path f)) as Hf.
  destruct (observed !! fp_path f) as [[[len mtime] known]|] eqn:Ho.
  2: by apply continue, summarises_new.
  destruct Hf as ((g & Hgin & Hgp) & Hall & Hk).
  destruct (Hall g Hgin Hgp) as (Hl & Hm & _).
  case_decide as Hd.
  { split; [intros _|done]. exists g, f. split_and!; [set_solver..|]. split; [done|].
    destruct Hd; [left|right; left]; congruence. }
  assert (len = fp_len f ∧ mtime = fp_modified_millis f) as [? ?] by (split; apply dec_stable; tauto).
  pose proof (summarises_old observed seen f len mtime known Hs Ho) as Hold.
  destruct known as [l|], (fp_content_hash f) as [r|] eqn:Hh; cbn in Hold.
  - case_decide as Hlr.
    + split; [intros _|done]. destruct (Hk (mk_is_Some _ _ eq_refl)) as (g' & ? & ? & ?).
      exists g', f. split_and!; [set_solver..|]. split; [done|]. right. right. eauto.
    + subst l. apply continue.
      rewrite <- (insert_id observed (fp_path f) (len, mtime, Some r)) by done. by apply Hold; auto.
  - apply continue. rewrite <- (insert_id observed (fp_path f) (len, mtime, Some l)) by done.
    by apply Hold; auto.
  - apply continue. by apply Hold; auto.
  - apply continue. rewrite <- (insert_id observed (fp_path f) (len, mtime, None)) by done.
    by apply Hold; auto.
Qed.

Lemma have_conflict fps :
  fingerprints_have_conflicting_snapshots fps = true ↔
  ∃ f g, f ∈ fps ∧ g ∈ fps ∧ incompatible f g.
Proof.
  apply (conflicting_from_spec ∅ [] fps). intros p. rewrite lookup_empty. constructor.
Qed.

(** The single pass over the fingerprints finds a conflict exactly when two
    of them are observations of one path that no single file state explains:
    different metadata, or two different known hashes. The answer does not
    depend on the order of the observations. *)
Theorem conflict_detection_complete fps :
  fingerprints_have_conflicting_snapshots fps = true ↔
  ∃ f g, f ∈ fps ∧ g ∈ fps ∧ incompatible f g.
Proof. apply have_conflict. Qed.

(** The stored order of a fingerprint set depends only on which
    observations it holds, never on the order or the number of times they were
    made, and conflicting observations of one path all survive. *)
Theorem fingerprint_set_canonical fps fps' :
  (∀ f, f ∈ fps ↔ f ∈ fps') →
  sort_and_dedup_fingerprints fps = sort_and_dedup_fingerprints fps' ∧
  (∀ f, f ∈ sort_and_dedup_fingerprints fps ↔ f ∈ fps) ∧
  fingerprints_have_conflicting_snapshots (sort_and_dedup_fingerprints fps) =
    fingerprints_have_conflicting_snapshots fps'.
Proof.
  intros Hset. unfold sort_and_dedup_fingerprints.
  assert (Hin : ∀ l f, f ∈ dedup (sort fp_cmp l) ↔ f ∈ l)
    by (intros l f; by rewrite elem_of_dedup, elem_of_sort).
  split_and!; [exact (sort_dedup_canonical fp_cmp _ _ Hset)|apply Hin|].
  apply eq_bool_prop_intro. rewrite !Is_true_true, !conflict_detection_complete.
  setoid_rewrite Hin. by setoid_rewrite Hset.
Qed.

Example fingerprint_set_canonical_witness :
  let f := {| fp_path := "/p/a.js"; fp_len := 3; fp_modified_millis := 9; fp_content_hash := Some 1%N |} in
  let g := {| fp_path := "/p/a.js"; fp_len := 3; fp_modified_millis := 9; fp_content_hash := Some 2%N |} in
  sort_and_dedup_fingerprints [g; f; g] = sort_and_dedup_fingerprints [f; g] ∧
  (∀ h, h ∈ sort_and_dedup_fingerprints [g; f; g] ↔ h ∈ [g; f; g]) ∧
  fingerprints_have_conflicting_snapshots (sort_and_dedup_fingerprints [g; f; g]) =
    fingerprints_have_conflicting_snapshots [f; g].
Proof. intros f g. apply fingerprint_set_canonical. intros h. rewrite !elem_of_cons. tauto. Defined.

(** ** Freshness against the disk *)

Definition classify_stat_error (e : ErrorKind) : Freshness :=
  if decide (e = NotFound) then Gone else Unknown.

Definition fingerprint_is_absent (f : FileFingerprint) : bool :=
  bool_decide (fp_len f = u64_max) && bool_decide (fp_modified_millis f = 0%N) &&
  bool_decide (fp_content_hash f = None).

Definition fingerprint_is_unverifiable (f : FileFingerprint) : bool :=
  bool_decide (fp_len f = u64_max) && bool_decide (fp_modified_millis f = u64_max) &&
  bool_decide (fp_content_hash f = None).

(** [fingerprint_is_installed]: an input under [node_modules]. *)
Definition fingerprint_is_installed (f : FileFingerprint) : bool :=
  contains (to_bytes "/node_modules/") (to_bytes (fp_path f)).

Definition fingerprints_are_reusable (fps : list FileFingerprint) : bool :=
  negb (existsb fingerprint_is_unverifiable fps) &&
  negb (fingerprints_have_conflicting_snapshots fps).

Section freshness.
Context `{FS : FileSystem, CH : ContentHash}.

Definition verify_content_hash (path : string) (expected : N) : Freshness :=
  match fs_read path with
  | inl bs => if decide (content_hash bs = expected) then Fresh else Stale
  | inr e => classify_stat_error e
  end.

Definition check_fingerprint (stored : FileFingerprint) : Freshness :=
  if fingerprint_is_absent stored then
    match fs_metadata (fp_path stored) with
    | inl _ => Stale
    | inr e => if decide (e = NotFound) then Fresh else classify_stat_error e
    end
  else
    match fs_metadata (fp_path stored) with
    | inr e => classify_stat_error e
    | inl md =>
        if decide (md_len md = fp_len stored ∧ modified_millis md = fp_modified_millis stored)
        then Fresh
        else match fp_content_hash stored with
             | Some expected => verify_content_hash (fp_path stored) expected
             | None => Stale
             end
    end.

Definition check_fingerprint_strict (stored : FileFingerprint) : Freshness :=
  match fp_content_hash stored with
  | Some expected => verify_content_hash (fp_path stored) expected
  | None => check_fingerprint stored
  end.

(** The check [check_fingerprints_strict] applies to one fingerprint. *)
Definition check_one (f : FileFingerprint) : Freshness :=
  if fingerprint_is_installed f then check_fingerprint f else check_fingerprint_strict f.

Fixpoint check_fingerprints_from (worst : Freshness) (fps : list FileFingerprint) : Freshness :=
  match fps with
  | [] => worst
  | f :: rest =>
      match check_one f with
      | Unknown => Unknown
      | Gone => check_fingerprints_from Gone rest
      | Stale => check_fingerprints_from (if decide (worst = Fresh) then Stale else worst) rest
      | Fresh => check_fingerprints_from worst rest
      end
  end.

Definition check_fingerprints_strict (fps : list FileFingerprint) : Freshness :=
  check_fingerprints_from Fresh fps.

(** [\\] separates names only on Windows. *)
Definition identity_path_string (windows : bool) (path : string) : string :=
  if windows
  then of_bytes ((λ c, if decide (c = "\"%char) then "/"%char else c) <$> to_bytes path)
  else path.
Definition normalize_identity_path (windows : bool) (path : string) : string :=
  identity_path_string windows (default path (fs_canonicalize path)).

(** The fingerprint of what was read: no new stat, the path already canonical. *)
Definition file_fingerprint_from_read_time (windows : bool) (canonical_path : string)
    (len mtime hash : N) : FileFingerprint :=
  {| fp_path := identity_path_string windows canonical_path; fp_len := len;
     fp_modified_millis := mtime; fp_content_hash := Some hash |}.

Definition file_fingerprint_with_hash (windows : bool) (path : string) (hash : option N)
    : option FileFingerprint :=
  match fs_metadata path with
  | inl md => Some {| fp_path := normalize_identity_path windows path; fp_len := md_len md;
                      fp_modified_millis := modified_millis md; fp_content_hash := hash |}
  | inr _ => None
  end.

Definition file_fingerprint_reading_hash (windows : bool) (path : string)
    : option FileFingerprint :=
  match fs_read path with
  | inl bs => file_fingerprint_with_hash windows path (Some (content_hash bs))
  | inr _ => file_fingerprint_with_hash windows path None
  end.

Definition unverifiable_file_fingerprint (windows : bool) (path : string) : FileFingerprint :=
  {| fp_path := normalize_identity_path windows path; fp_len := u64_max;
     fp_modified_millis := u64_max; fp_content_hash := None |}.

Definition absent_file_fingerprint (windows : bool) (path : string) : FileFingerprint :=
  {| fp_path := normalize_identity_path windows path; fp_len := u64_max;
     fp_modified_millis := 0; fp_content_hash := None |}.

(** *** Facts about the aggregate check *)

(** How bad an outcome is: the precedence of the aggregate. *)
Definition severity (f : Freshness) : nat :=
  match f with Fresh => 0 | Stale => 1 | Gone => 2 | Unknown => 3 end.

Definition worse (a b : Freshness) : Freshness :=
  if decide (severity a < severity b) then b else a.

Lemma severity_inj a b : severity a = severity b → a = b.
Proof. by destruct a, b. Qed.

Lemma check_from_max worst fps :
  worst ≠ Unknown →
  check_fingerprints_from worst fps = foldr (λ f acc, worse acc (check_one f)) worst fps.
Proof.
  revert worst. induction fps as [|f fps IH]; intros worst Hw; cbn; [done|].
  assert (shift : ∀ a b, foldr (λ f acc, worse acc (check_one f)) (worse a b) fps
                 = worse (foldr (λ f acc, worse acc (check_one f)) a fps) b).
  { intros a b. clear. induction fps as [|g fps IH]; cbn; [done|]. rewrite IH.
    generalize (foldr (λ f acc, worse acc (check_one f)) a fps) (check_one g). clear.
    intros x y. by destruct x, y, b. }
  rewrite <- shift. destruct (check_one f) eqn:E.
  - rewrite IH by done. by destruct worst.
  - rewrite IH by (by destruct worst). by destruct worst.
  - rewrite IH by done. by destruct worst.
  - rewrite shift. by destruct (foldr _ worst fps).
Qed.

Lemma check_strict_severity fps n :
  severity (check_fingerprints_strict fps) ≤ n ↔ Forall (λ f, severity (check_one f) ≤ n) fps.
Proof.
  unfold check_fingerprints_strict. rewrite check_from_max by done.
  induction fps as [|f fps IH]; cbn; [split; [constructor|lia]|].
  rewrite Forall_cons, <- IH. generalize (foldr (λ f acc, worse acc (check_one f)) Fresh fps).
  intros x. unfold worse. case_decide; lia.
Qed.

Lemma check_strict_fresh fps :
  check_fingerprints_strict fps = Fresh ↔ Forall (λ f, check_one f = Fresh) fps.
Proof.
  transitivity (severity (check_fingerprints_strict fps) ≤ 0).
  { split; [by intros ->|]. intros H. apply severity_inj. cbn. lia. }
  rewrite check_strict_severity. apply Forall_proper; [|done].
  intros f. split; [|by intros ->]. intros H. apply severity_inj. cbn. lia.
Qed.

Lemma check_strict_attained fps :
  check_fingerprints_strict fps ≠ Fresh →
  Exists (λ f, check_one f = check_fingerprints_strict fps) fps.
Proof.
  unfold check_fingerprints_strict. rewrite check_from_max by done.
  induction fps as [|f fps IH]; cbn; [done|].
  set (r := foldr _ _ fps) in *. unfold worse. case_decide; [by left|]. intros Hr. right. by apply IH.
Qed.

(** The freshness of a set of inputs is the worst of its members in the
    order Fresh, Stale, Gone, Unknown: it is Fresh only when every input is, a
    transient error on any input makes it Unknown whatever the others say, and
    otherwise it is the verdict of some input that no other exceeds. *)
Theorem strict_freshness_is_worst_input fps :
  let r := check_fingerprints_strict fps in
  (r = Fresh ↔ Forall (λ f, check_one f = Fresh) fps) ∧
  (r = Unknown ↔ Exists (λ f, check_one f = Unknown) fps) ∧
  Forall (λ f, severity (check_one f) ≤ severity r) fps ∧
  (r ≠ Fresh → Exists (λ f, check_one f = r) fps).
Proof.
  cbn. split_and!.
  - apply check_strict_fresh.
  - split.
    + intros Hr. rewrite <- Hr. apply check_strict_attained. by rewrite Hr.
    + intros (f & Hf & Hu)%Exists_exists. apply severity_inj.
      pose proof (proj1 (check_strict_severity fps (severity (check_fingerprints_strict fps)))
                    (Nat.le_refl _)) as Hall.
      rewrite Forall_forall in Hall. specialize (Hall f Hf). rewrite Hu in Hall.
      destruct (check_fingerprints_strict fps); cbn in *; lia.
  - by apply check_strict_severity.
  - apply check_strict_attained.
Qed.

(** *** What no disk state can make fresh *)

Lemma verify_content_hash_fresh path h :
  verify_content_hash path h = Fresh ↔ ∃ bs, fs_read path = inl bs ∧ content_hash bs = h.
Proof.
  unfold verify_content_hash, classify_stat_error.
  destruct (fs_read path) as [bs|e]; repeat case_decide; naive_solver.
Qed.

Lemma absent_check f :
  fingerprint_is_absent f = true →
  check_one f = match fs_metadata (fp_path f) with
                | inl _ => Stale
                | inr e => if decide (e = NotFound) then Fresh else Unknown end.
Proof.
  intros Ha. assert (fp_content_hash f = None) as Hh.
  { unfold fingerprint_is_absent in Ha. apply andb_true_iff in Ha as [_ Ha].
    by apply bool_decide_eq_true in Ha. }
  assert (check_one f = check_fingerprint f) as ->.
  { unfold check_one, check_fingerprint_strict. rewrite Hh. by destruct (fingerprint_is_installed f). }
  unfold check_fingerprint. rewrite Ha.
  destruct (fs_metadata (fp_path f)) as [|e]; [done|].
  unfold classify_stat_error. by case_decide.
Qed.

(** The sentinels mean what they claim on every disk. An input recorded as
    absent is fresh exactly while the file is missing. An input that could not
    be read is never fresh (no real file has the maximal length), and neither
    is a result that saw two different contents of one first-party file. *)
Theorem sentinels_and_torn_reads_never_fresh fps f :
  (∀ p md, fs_metadata p = inl md → (md_len md < u64_max)%N) →
  f ∈ fps →
  (fingerprint_is_absent f = true →
     check_one f = Fresh ↔ fs_metadata (fp_path f) = inr NotFound) ∧
  (fingerprint_is_unverifiable f = true → check_fingerprints_strict fps ≠ Fresh) ∧
  (∀ g a b, g ∈ fps → fp_path f = fp_path g → fingerprint_is_installed f = false →
     fp_content_hash f = Some a → fp_content_hash g = Some b → a ≠ b →
     check_fingerprints_strict fps ≠ Fresh).
Proof.
  intros Hreal Hf. split_and!.
  - intros Ha. rewrite absent_check by done.
    destruct (fs_metadata _) as [|[]]; cbn; naive_solver.
  - intros Hu Hfresh. apply check_strict_fresh in Hfresh. rewrite Forall_forall in Hfresh.
    specialize (Hfresh f Hf). unfold fingerprint_is_unverifiable in Hu.
    rewrite !andb_true_iff, !bool_decide_eq_true in Hu. destruct Hu as [[Hl Hm] Hh].
    assert (check_one f = check_fingerprint f) as Hc.
    { unfold check_one, check_fingerprint_strict. rewrite Hh. by destruct (fingerprint_is_installed f). }
    rewrite Hc in Hfresh. revert Hfresh. unfold check_fingerprint, fingerprint_is_absent.
    rewrite Hl, Hm, Hh. cbn. destruct (fs_metadata (fp_path f)) as [md|e] eqn:Hmd.
    + pose proof (Hreal _ _ Hmd). case_decide; [lia|done].
    + unfold classify_stat_error. by case_decide.
  - intros g a b Hg Hp Hi Ha Hb Hne Hfresh.
    apply check_strict_fresh in Hfresh. rewrite Forall_forall in Hfresh.
    pose proof (Hfresh f Hf) as Hcf. pose proof (Hfresh g Hg) as Hcg.
    unfold check_one, check_fingerprint_strict in Hcf, Hcg.
    assert (fingerprint_is_installed g = false) as Hi'.
    { unfold fingerprint_is_installed in *. by rewrite <- Hp. }
    rewrite Hi, Ha in Hcf. rewrite Hi', Hb, <- Hp in Hcg.
    apply verify_content_hash_fresh in Hcf as (x & Hx & <-), Hcg as (y & Hy & <-). congruence.
Qed.
End freshness.

(** A disk holding one file, for the witnesses. *)
Definition one_file (path : string) (md : Metadata) (bs : list ascii) : FileSystem := {|
  fs_metadata p := if decide (p = path) then inl md else inr NotFound;
  fs_read p := if decide (p = path) then inl bs else inr NotFound;
  fs_canonicalize p := Some p;
|}.
Definition length_hash : ContentHash := λ bs, N.of_nat (length bs).

Example sentinels_and_torn_reads_never_fresh_witness :
  let fs := one_file "/app/x.js" {| md_len := 3; md_modified := None |} (to_bytes "abc") in
  let f := {| fp_path := "/app/x.js"; fp_len := 3; fp_modified_millis := 0; fp_content_hash := Some 3%N |} in
  let g := {| fp_path := "/app/x.js"; fp_len := 4; fp_modified_millis := 0; fp_content_hash := Some 4%N |} in
  @check_fingerprints_strict fs length_hash [f; g] ≠ Fresh.
Proof.
  intros fs f g.
  refine (proj2 (proj2 (@sentinels_and_torn_reads_never_fresh fs length_hash [f; g] f _ _))
            g 3%N 4%N _ eq_refl _ eq_refl eq_refl _).
  - intros p md. cbn. destruct (decide (p = "/app/x.js")); [|discriminate].
    intros [= <-]. reflexivity.
  - set_solver.
  - set_solver.
  - reflexivity.
  - discriminate.
Defined.
