(* ===== verification/CacheKeys.v ===== *)
(** * Cache identities and keys ([cache/key.rs], first half)

    The identity of an import, its encoding as a string key, and the tests the
    cache runs on keys. The MessagePack codec ([rmp_serde]) is a parameter with
    its round-trip law; the hex layer over it is modelled. *)
From S2P Require Import Prelude Results Fingerprints.

Set Default Proof Using "Type*".

(** ** Requests and identities *)

Record ImportRequest := {
  rq_specifier : string;
  rq_package_name : string;
  rq_version : string;
  rq_named : list string;
  rq_import_kind : ImportKind;
  rq_runtime : ImportRuntime;
}.

(** What the key takes from a [ResolvedPackage]. *)
Record ResolvedPackage := { rp_package_root : string; rp_entry_path : string }.

Record CacheIdentity := {
  ci_analyzer_version : string;
  ci_specifier : string;
  ci_package_name : string;
  ci_package_version : string;
  ci_package_root : option string;
  ci_entry_path : option string;
  ci_runtime : ImportRuntime;
  ci_import_kind : ImportKind;
  ci_named_exports : list string;
}.

Definition CACHE_KEY_VERSION : string := "4".
Definition ANALYZER_REVISION : string := "rolldown-1.2.x+29".

(** [rmp_serde::to_vec] and [from_slice] at [CacheIdentity]. *)
Class IdentityCodec := {
  to_vec : CacheIdentity → option (list ascii);
  from_slice : list ascii → option CacheIdentity;
}.
Class LawfulCodec (C : IdentityCodec) : Prop := {
  from_to_vec : ∀ i b, to_vec i = Some b → from_slice b = Some i;
}.

(** ** The hex layer *)

Definition hex_digit (n : N) : ascii :=
  match n with
  | 0 => "0" | 1 => "1" | 2 => "2" | 3 => "3" | 4 => "4" | 5 => "5" | 6 => "6" | 7 => "7"
  | 8 => "8" | 9 => "9" | 10 => "a" | 11 => "b" | 12 => "c" | 13 => "d" | 14 => "e" | _ => "f"
  end%N%char.

Fixpoint hex_encode (bs : list ascii) : list ascii :=
  match bs with
  | [] => []
  | b :: rest =>
      let byte := N_of_ascii b in
      hex_digit (N.shiftr byte 4) :: hex_digit (N.land byte 15) :: hex_encode rest
  end.

Definition hex_value (c : ascii) : option N :=
  let byte := N_of_ascii c in
  if decide (48 ≤ byte ∧ byte ≤ 57)%N then Some (byte - 48)%N
  else if decide (97 ≤ byte ∧ byte ≤ 102)%N then Some (byte - 97 + 10)%N
  else if decide (65 ≤ byte ∧ byte ≤ 70)%N then Some (byte - 65 + 10)%N
  else None.

(** The chunks of two, each to one byte. *)
Fixpoint hex_pairs (l : list ascii) : option (list ascii) :=
  match l with
  | hi :: lo :: rest =>
      h ← hex_value hi; v ← hex_value lo; tl ← hex_pairs rest;
      Some (ascii_of_N (N.lor (N.shiftl h 4) v) :: tl)
  | _ => Some []
  end.

Definition hex_decode (l : list ascii) : option (list ascii) :=
  if negb (Nat.even (length l)) then None else hex_pairs l.

Lemma hex_byte b :
  (h ← hex_value (hex_digit (N.shiftr (N_of_ascii b) 4));
   v ← hex_value (hex_digit (N.land (N_of_ascii b) 15));
   Some (ascii_of_N (N.lor (N.shiftl h 4) v))) = Some b.
Proof. destruct b as [[] [] [] [] [] [] [] []]; vm_compute; reflexivity. Qed.

Lemma length_hex_encode bs : length (hex_encode bs) = 2 * length bs.
Proof. induction bs; cbn in *; lia. Qed.

Lemma hex_pairs_encode bs : hex_pairs (hex_encode bs) = Some bs.
Proof.
  induction bs as [|b bs IH]; [done|]. cbn [hex_encode hex_pairs]. rewrite IH.
  pose proof (hex_byte b) as Hb.
  destruct (hex_value (hex_digit (N.shiftr _ _))) as [h|]; [|done]. cbn in *.
  destruct (hex_value _) as [v|]; [|done]. cbn in *. by simplify_eq.
Qed.

Lemma hex_decode_encode bs : hex_decode (hex_encode bs) = Some bs.
Proof.
  unfold hex_decode. rewrite length_hex_encode, hex_pairs_encode.
  by rewrite (proj2 (Nat.even_spec _)) by (by eexists).
Qed.
#[export] Hint Rewrite hex_decode_encode : daemon.

(** ** Keys *)

Definition KEY_PREFIX : list ascii := to_bytes "v" ++ to_bytes CACHE_KEY_VERSION ++ to_bytes ":".

Section keys.
Context `{FS : FileSystem, CD : IdentityCodec} (CARGO_PKG_VERSION : string) (windows : bool).

Definition ANALYZER_VERSION : string := CARGO_PKG_VERSION +:+ "+" +:+ ANALYZER_REVISION.

Definition encode_cache_identity (i : CacheIdentity) : string :=
  of_bytes (KEY_PREFIX ++ hex_encode (default [] (to_vec i))).

Definition decode_cache_identity (key : string) : option CacheIdentity :=
  encoded ← strip_prefix KEY_PREFIX (to_bytes key);
  bs ← hex_decode encoded;
  from_slice bs.

Definition cache_identity_for_import (request : ImportRequest)
    (resolved : option ResolvedPackage) : CacheIdentity :=
  let named_exports :=
    if decide (rq_import_kind request = Named) then rq_named request else [] in
  {| ci_analyzer_version := ANALYZER_VERSION;
     ci_specifier := rq_specifier request;
     ci_package_name := rq_package_name request;
     ci_package_version := rq_version request;
     ci_package_root := normalize_identity_path windows ∘ rp_package_root <$> resolved;
     ci_entry_path := normalize_identity_path windows ∘ rp_entry_path <$> resolved;
     ci_runtime := rq_runtime request;
     ci_import_kind := rq_import_kind request;
     ci_named_exports := dedup (sort String.compare named_exports) |}.

Definition cache_key_for_resolved_import (request : ImportRequest)
    (resolved : ResolvedPackage) : string :=
  encode_cache_identity (cache_identity_for_import request (Some resolved)).

(** ** Tests on keys *)

Definition is_first_party_path (entry_path : string) : bool :=
  negb (existsb (λ segment, bool_decide (segment = to_bytes "node_modules"))
          (split_on "/"%char (to_bytes entry_path))).

Definition cache_key_is_first_party (key : string) : bool :=
  match decode_cache_identity key ≫= ci_entry_path with
  | Some entry_path => is_first_party_path entry_path
  | None => false
  end.

Definition cache_key_matches_any_package (key : string) (package_names : gset string) : bool :=
  match decode_cache_identity key with
  | Some identity => bool_decide (ci_package_name identity ∈ package_names)
  | None =>
      existsb (λ name,
        starts_with (to_bytes name ++ ["@"%char]) (to_bytes key) ||
        starts_with (to_bytes name ++ ["/"%char]) (to_bytes key)) (elements package_names)
  end.

(** [fs::symlink_metadata], by its error only. *)
Context (fs_symlink_metadata : string → option ErrorKind).

Definition path_is_definitely_gone (path : string) : bool :=
  bool_decide (fs_symlink_metadata path = Some NotFound).

Definition option_is_some_and {A} (f : A → bool) (o : option A) : bool :=
  match o with Some a => f a | None => false end.

Definition cache_key_is_orphan (key current_analyzer_version : string) : bool :=
  match decode_cache_identity key with
  | None => false
  | Some identity =>
      if decide (ci_analyzer_version identity ≠ current_analyzer_version) then true
      else if option_is_some_and path_is_definitely_gone (ci_entry_path identity) then true
      else option_is_some_and path_is_definitely_gone (ci_package_root identity)
  end.

(** ** What holds of them *)

Lemma decode_encode_identity `{!LawfulCodec CD} i :
  is_Some (to_vec i) → decode_cache_identity (encode_cache_identity i) = Some i.
Proof.
  intros [b Hb]. unfold decode_cache_identity, encode_cache_identity.
  rewrite to_of_bytes, strip_prefix_app, Hb. cbn. rewrite hex_decode_encode. cbn.
  by apply from_to_vec.
Qed.

(** The named exports two requests are told apart by. *)
Definition requested_names (r : ImportRequest) : list string :=
  if decide (rq_import_kind r = Named) then rq_named r else [].

(** Two requests for the same analysis. *)
Definition same_import (r r' : ImportRequest) (p p' : ResolvedPackage) : Prop :=
  rq_specifier r = rq_specifier r' ∧ rq_package_name r = rq_package_name r' ∧
  rq_version r = rq_version r' ∧ rq_runtime r = rq_runtime r' ∧
  rq_import_kind r = rq_import_kind r' ∧
  (∀ n, n ∈ requested_names r ↔ n ∈ requested_names r') ∧
  normalize_identity_path windows (rp_package_root p) =
    normalize_identity_path windows (rp_package_root p') ∧
  normalize_identity_path windows (rp_entry_path p) =
    normalize_identity_path windows (rp_entry_path p').

Lemma same_identity r r' p p' :
  cache_identity_for_import r (Some p) = cache_identity_for_import r' (Some p') ↔
  same_import r r' p p'.
Proof.
  unfold cache_identity_for_import, same_import. split.
  - intros [= Hs Hp Hv Hr He Ht Hk Hn]. split_and!; try done.
    unfold requested_names. intros n.
    rewrite <- (elem_of_sort String.compare n (if decide (rq_import_kind r = Named) then _ else _)).
    rewrite <- elem_of_dedup, Hn, elem_of_dedup, elem_of_sort. done.
  - intros (-> & -> & -> & -> & Hk & Hn & Hr & He). cbn.
    unfold requested_names in Hn. rewrite Hk in Hn. rewrite Hr, He, Hk.
    by rewrite (sort_dedup_canonical String.compare _ _ Hn).
Qed.

(** C39. Two imports share a cache key exactly when they ask for the same
    analysis: the same specifier, package, version, runtime, kind and canonical
    paths, and (for a named import) the same set of names in whatever order and
    multiplicity they were written. *)
Theorem cache_key_identifies_import `{!LawfulCodec CD} r r' p p' :
  is_Some (to_vec (cache_identity_for_import r (Some p))) →
  is_Some (to_vec (cache_identity_for_import r' (Some p'))) →
  cache_key_for_resolved_import r p = cache_key_for_resolved_import r' p' ↔
  same_import r r' p p'.
Proof.
  intros H1 H2. rewrite <- same_identity. unfold cache_key_for_resolved_import. split.
  - intros Hk. apply (f_equal decode_cache_identity) in Hk.
    rewrite !decode_encode_identity in Hk by done. congruence.
  - by intros ->.
Qed.

(** Every test the cache runs on a key answers for the import the key was
    built from: package invalidation matches exactly its package name, the
    first-party test reads its canonical entry path, and the purge drops it
    exactly when the analyzer version moved or one of its two paths is
    confirmed missing, so a path that exists or cannot be statted never costs
    an entry. *)
Theorem key_tests_read_the_import `{!LawfulCodec CD} r p names current :
  is_Some (to_vec (cache_identity_for_import r (Some p))) →
  let key := cache_key_for_resolved_import r p in
  let root := normalize_identity_path windows (rp_package_root p) in
  let entry := normalize_identity_path windows (rp_entry_path p) in
  (cache_key_matches_any_package key names = true ↔ rq_package_name r ∈ names) ∧
  (cache_key_is_first_party key = true ↔
     to_bytes "node_modules" ∉ split_on "/"%char (to_bytes entry)) ∧
  (cache_key_is_orphan key current = true ↔
     current ≠ ANALYZER_VERSION ∨ fs_symlink_metadata entry = Some NotFound ∨
     fs_symlink_metadata root = Some NotFound).
Proof.
  intros Hv. cbn zeta.
  unfold cache_key_matches_any_package, cache_key_is_first_party, cache_key_is_orphan,
    cache_key_for_resolved_import. rewrite decode_encode_identity by done. cbn. split_and!.
  - apply bool_decide_eq_true.
  - unfold is_first_party_path. rewrite negb_true_iff, <- not_true_iff_false, existsb_Exists,
      Exists_exists. setoid_rewrite bool_decide_eq_true. naive_solver.
  - unfold path_is_definitely_gone. case_decide as Hd; [naive_solver|].
    case_bool_decide; [naive_solver|]. rewrite bool_decide_eq_true.
    naive_solver.
Qed.
End keys.

(** ** Project roots *)

Inductive ProjectRootState := Present | Orphaned | VolumeUnreachable.

(** A path as its components; [Path::parent] drops the last one, so the root
    directory and the empty relative path have no parent. *)
Definition components := list string.
Definition ancestors (root : components) : list components :=
  (λ n, take n root) <$> reverse (seq 0 (S (length root))).

(** [exists] answers [None] for an error of the probe. *)
Definition classify_project_root_with (root : components)
    (exists_ : components → option bool) : ProjectRootState :=
  match exists_ root with
  | Some true => Present
  | Some false =>
      if existsb (λ a, bool_decide (exists_ a = Some true)) (drop 1 (ancestors root))
      then Orphaned else VolumeUnreachable
  | None => VolumeUnreachable
  end.

Lemma elem_of_proper_ancestors a root :
  a ∈ drop 1 (ancestors root) ↔ ∃ n, n < length root ∧ a = take n root.
Proof.
  unfold ancestors. rewrite seq_S, reverse_snoc. cbn. rewrite skipn_O, list_elem_of_fmap.
  setoid_rewrite elem_of_reverse. setoid_rewrite elem_of_seq.
  split; intros (n & ? & ?); exists n; split; try done; lia.
Qed.

(** Only a confirmed deletion authorises removing a project's shard: a root
    is orphaned exactly when the probe says it does not exist and says that
    some proper ancestor does. Any failed probe of the root, and a volume whose
    every ancestor is missing (an unplugged drive), keep the shard. *)
Theorem orphan_root_needs_live_ancestor root exists_ :
  (classify_project_root_with root exists_ = Orphaned ↔
     exists_ root = Some false ∧
     ∃ n, n < length root ∧ exists_ (take n root) = Some true) ∧
  (classify_project_root_with root exists_ = Present ↔ exists_ root = Some true).
Proof.
  unfold classify_project_root_with.
  destruct (exists_ root) as [[]|]; [split; split; naive_solver| |split; split; naive_solver].
  destruct (existsb _ _) eqn:He.
  - split; [|naive_solver]. apply existsb_Exists, Exists_exists in He as (a & Ha & Ht).
    apply elem_of_proper_ancestors in Ha as (n & ? & ->). apply bool_decide_eq_true in Ht.
    split; [intros _; eauto|done].
  - split; [|naive_solver]. split; [done|]. intros (_ & n & Hn & Ht).
    rewrite <- not_true_iff_false, existsb_Exists, Exists_exists in He. destruct He.
    exists (take n root). rewrite elem_of_proper_ancestors, bool_decide_eq_true. eauto.
Qed.

(** ** A concrete codec for the witnesses *)

Definition identity_tuple (i : CacheIdentity) :=
  (ci_analyzer_version i, ci_specifier i, ci_package_name i, ci_package_version i,
   ci_package_root i, ci_entry_path i,
   match ci_runtime i with Component => 0 | Client => 1 | Server => 2 end,
   match ci_import_kind i with Named => 0 | Default => 1 | Namespace => 2 | Dynamic => 3 end,
   ci_named_exports i).
Definition identity_of_tuple t : CacheIdentity :=
  let '(a, s, n, v, r, e, t, k, x) := t in
  {| ci_analyzer_version := a; ci_specifier := s; ci_package_name := n; ci_package_version := v;
     ci_package_root := r; ci_entry_path := e;
     ci_runtime := match t with 0 => Component | 1 => Client | _ => Server end;
     ci_import_kind := match k with 0 => Named | 1 => Default | 2 => Namespace | _ => Dynamic end;
     ci_named_exports := x |}.

Fixpoint pos_bytes (p : positive) : list ascii :=
  match p with
  | xH => ["1"%char] | xO q => "0"%char :: pos_bytes q | xI q => "i"%char :: pos_bytes q
  end.
Fixpoint bytes_pos (l : list ascii) : option positive :=
  match l with
  | [] => None
  | c :: r =>
      if decide (c = "1"%char) then Some xH
      else if decide (c = "0"%char) then xO <$> bytes_pos r else xI <$> bytes_pos r
  end.
Lemma bytes_pos_bytes p : bytes_pos (pos_bytes p) = Some p.
Proof. induction p; cbn; rewrite ?IHp; done. Qed.

Definition bit_codec : IdentityCodec := {|
  to_vec i := Some (pos_bytes (encode (identity_tuple i)));
  from_slice b := p ← bytes_pos b; identity_of_tuple <$> decode p;
|}.
#[export] Instance bit_codec_lawful : LawfulCodec bit_codec.
Proof.
  split. intros i b [= <-]. cbn. rewrite bytes_pos_bytes. cbn. rewrite decode_encode. cbn.
  by destruct i as [? ? ? ? ? ? [] [] ?].
Qed.

Definition lodash (names : list string) : ImportRequest :=
  {| rq_specifier := "lodash"; rq_package_name := "lodash"; rq_version := "4.17.21";
     rq_named := names; rq_import_kind := Named; rq_runtime := Component |}.
Definition lodash_package : ResolvedPackage :=
  {| rp_package_root := "/app/node_modules/lodash";
     rp_entry_path := "/app/node_modules/lodash/lodash.js" |}.
Definition some_disk : FileSystem :=
  one_file "/app/x.js" {| md_len := 0; md_modified := None |} [].

Example cache_key_identifies_import_witness :
  @cache_key_for_resolved_import some_disk bit_codec "1.0.0" false (lodash ["map"; "get"; "map"])
    lodash_package =
  @cache_key_for_resolved_import some_disk bit_codec "1.0.0" false (lodash ["get"; "map"])
    lodash_package.
Proof.
  apply (@cache_key_identifies_import some_disk bit_codec "1.0.0" false bit_codec_lawful
           (lodash ["map"; "get"; "map"]) (lodash ["get"; "map"]) lodash_package lodash_package).
  - eexists. reflexivity.
  - eexists. reflexivity.
  - unfold same_import. split_and!; try reflexivity.
    intros n. unfold requested_names. cbn. set_solver.
Defined.

Example key_tests_read_the_import_witness :
  @cache_key_is_orphan bit_codec (λ _, Some OtherError)
    (@cache_key_for_resolved_import some_disk bit_codec "1.0.0" false (lodash ["map"]) lodash_package)
    (ANALYZER_VERSION "1.0.0") ≠ true.
Proof.
  intros H.
  apply (@key_tests_read_the_import some_disk bit_codec "1.0.0" false (λ _, Some OtherError)
           bit_codec_lawful (lodash ["map"]) lodash_package ∅ (ANALYZER_VERSION "1.0.0")) in H.
  - destruct H as [H|[H|H]]; [by apply H|discriminate|discriminate].
  - eexists. reflexivity.
Defined.
