(* ===== verification/CachedImports.v ===== *)
(** * Cached imports and their stored form ([cache/memory.rs] 78-141, [cache/disk.rs] 1495-1552)

    What the cache keeps per key, when a verification is still current, and the
    bytes of a row: eight little-endian bytes of recency, then the MessagePack
    envelope. The codec of the envelope ([rmp_serde]) is a parameter. *)
From S2P Require Import Prelude Recency Results Fingerprints.

Set Default Proof Using "Type*".

(** ** Verification state *)

Record Verification := { v_generation : N; v_at_millis : N }.
#[export] Instance Verification_eq_dec : EqDecision Verification.
Proof. solve_decision. Defined.

Definition REVERIFY_TTL_millis : N := 30000.

Module verification.
Definition never : Verification := {| v_generation := 0; v_at_millis := 0 |}.

(** [now] is the milliseconds since the process's verification epoch. *)
Definition verified_now (now generation : N) : Verification :=
  {| v_generation := generation; v_at_millis := sat_add now 1 |}.

Definition is_current (now generation : N) (v : Verification) : bool :=
  if decide (v_at_millis v = 0 ∨ v_generation v ≠ generation)%N then false
  else bool_decide (sat_sub now (v_at_millis v - 1) < REVERIFY_TTL_millis)%N.

Lemma never_current now generation : is_current now generation never = false.
Proof. unfold is_current. by rewrite decide_True by (by left). Qed.
End verification.

(** ** [CachedImport]

    The three shared cells are read through here: the memory layer, which
    updates them in place, models the sharing. *)
Record CachedImport := {
  c_result : ImportResult;
  c_fingerprints : list FileFingerprint;
  c_verification : Verification;
  c_last_seq : N;
  c_persisted_seq : N;
  c_first_party : bool;
}.

(** The gate every store applies to what it accepts and to what it serves. *)
Definition storable (c : CachedImport) : bool :=
  is_durable (c_result c) && fingerprints_are_reusable (c_fingerprints c).

Definition set_first_party (b : bool) (c : CachedImport) : CachedImport :=
  {| c_result := c_result c; c_fingerprints := c_fingerprints c;
     c_verification := c_verification c; c_last_seq := c_last_seq c;
     c_persisted_seq := c_persisted_seq c; c_first_party := b |}.
Definition set_result (r : ImportResult) (c : CachedImport) : CachedImport :=
  {| c_result := r; c_fingerprints := c_fingerprints c;
     c_verification := c_verification c; c_last_seq := c_last_seq c;
     c_persisted_seq := c_persisted_seq c; c_first_party := c_first_party c |}.

(** ** Little-endian recency prefix *)

Definition SEQ_PREFIX_LEN : nat := 8.

(** [u64::to_le_bytes] and [from_le_bytes]. *)
Fixpoint to_le_bytes (width : nat) (x : N) : list ascii :=
  match width with
  | 0 => []
  | S w => ascii_of_N (x mod 256) :: to_le_bytes w (x / 256)
  end.
Fixpoint from_le_bytes (bs : list ascii) : N :=
  match bs with
  | [] => 0%N
  | b :: rest => (N_of_ascii b + 256 * from_le_bytes rest)%N
  end.

Lemma length_to_le_bytes w x : length (to_le_bytes w x) = w.
Proof. revert x. induction w; intros; cbn; auto. Qed.

Lemma from_to_le_bytes w x :
  (x < 256 ^ N.of_nat w)%N → from_le_bytes (to_le_bytes w x) = x.
Proof.
  revert x. induction w as [|w IH]; intros x Hx.
  - cbn in *. lia.
  - cbn [to_le_bytes from_le_bytes]. rewrite N_ascii_embedding by (apply N.mod_lt; lia).
    rewrite IH.
    + pose proof (N.div_mod x 256). lia.
    + apply N.Div0.div_lt_upper_bound. rewrite Nat2N.inj_succ, N.pow_succ_r' in Hx. lia.
Qed.

Definition decode_last_seq (bs : list ascii) : N :=
  if decide (SEQ_PREFIX_LEN ≤ length bs) then from_le_bytes (take SEQ_PREFIX_LEN bs) else 0%N.

Lemma decode_last_seq_prefix x rest :
  (x <= u64_max)%N → decode_last_seq (to_le_bytes SEQ_PREFIX_LEN x ++ rest) = x.
Proof.
  intros Hx. unfold decode_last_seq.
  rewrite decide_True by (rewrite length_app, length_to_le_bytes; lia).
  rewrite take_app_length' by (by rewrite length_to_le_bytes). apply from_to_le_bytes.
  unfold u64_max in Hx. change (256 ^ N.of_nat SEQ_PREFIX_LEN)%N with 18446744073709551616%N. lia.
Qed.

(** ** The stored value *)

Record CacheEnvelope := {
  e_analyzer_version : string;
  e_result : ImportResult;
  e_fingerprints : list FileFingerprint;
  e_full_contributions : list ModuleContribution;
}.

Definition set_internal (l : list ModuleContribution) (r : ImportResult) : ImportResult :=
  {| specifier := specifier r; raw_bytes := raw_bytes r; minified_bytes := minified_bytes r;
     gzip_bytes := gzip_bytes r; brotli_bytes := brotli_bytes r; zstd_bytes := zstd_bytes r;
     cache_hit := cache_hit r; side_effects := side_effects r;
     truly_treeshakeable := truly_treeshakeable r; is_cjs := is_cjs r;
     confidence := confidence r; confidence_reasons := confidence_reasons r;
     error := error r; unmeasured_stage := unmeasured_stage r;
     diagnostics := diagnostics r; module_breakdown := module_breakdown r;
     shared_bytes := shared_bytes r; asset_breakdown := asset_breakdown r;
     r_freshness := r_freshness r; internal_contributions := l |}.

(** [rmp_serde] at [CacheEnvelope]. [internal_contributions] is [serde(skip)],
    so it comes back empty. *)
Class EnvelopeCodec := {
  env_to_vec : CacheEnvelope → option (list ascii);
  env_from_slice : list ascii → option CacheEnvelope;
}.
Class LawfulEnvelopeCodec (C : EnvelopeCodec) : Prop := {
  env_roundtrip : ∀ e b, env_to_vec e = Some b →
    env_from_slice b =
      Some {| e_analyzer_version := e_analyzer_version e;
              e_result := set_internal [] (e_result e);
              e_fingerprints := e_fingerprints e;
              e_full_contributions := e_full_contributions e |};
}.

Section value.
Context `{EC : EnvelopeCodec} (ANALYZER_VERSION : string).

Definition full_contributions_of (r : ImportResult) : list ModuleContribution :=
  match internal_contributions r with
  | [] => default [] (module_breakdown r)
  | l => l
  end.

Definition encode_cache_value (c : CachedImport) : option (list ascii) :=
  env ← env_to_vec {|
    e_analyzer_version := ANALYZER_VERSION;
    e_result := c_result c;
    e_fingerprints := c_fingerprints c;
    e_full_contributions := full_contributions_of (c_result c) |};
  Some (to_le_bytes SEQ_PREFIX_LEN (c_last_seq c) ++ env).

(** The decoded import and the recency clock after it observed the row. *)
Definition decode_cached_result (clock : RecencyClock.clock) (bs : list ascii)
    : option CachedImport * RecencyClock.clock :=
  if decide (length bs < SEQ_PREFIX_LEN) then (None, clock)
  else
    let last_seq := decode_last_seq bs in
    match env_from_slice (drop SEQ_PREFIX_LEN bs) with
    | None => (None, clock)
    | Some env =>
        if decide (e_analyzer_version env ≠ ANALYZER_VERSION) then (None, clock)
        else (Some {| c_result := set_internal (e_full_contributions env) (e_result env);
                      c_fingerprints := e_fingerprints env;
                      c_verification := verification.never;
                      c_last_seq := last_seq; c_persisted_seq := last_seq;
                      c_first_party := false |},
              RecencyClock.observe last_seq clock)
    end.

(** A row decodes to the import that was written: the same result (its full
    contribution list restored), fingerprints and recency, marked unverified so
    that its next read checks the disk; and the live clock moves past the
    row's recency. *)
Theorem stored_value_roundtrip `{!LawfulEnvelopeCodec EC} clock c bs :
  encode_cache_value c = Some bs → (c_last_seq c < u64_max)%N →
  decode_last_seq bs = c_last_seq c ∧
  ∃ clock',
    decode_cached_result clock bs =
      (Some {| c_result := set_internal (full_contributions_of (c_result c)) (c_result c);
               c_fingerprints := c_fingerprints c;
               c_verification := verification.never;
               c_last_seq := c_last_seq c; c_persisted_seq := c_last_seq c;
               c_first_party := false |}, clock') ∧
    (c_last_seq c < (RecencyClock.next_seq clock').1)%N ∧ (clock ≤ clock')%N.
Proof.
  unfold encode_cache_value. intros Henc Hseq.
  destruct (env_to_vec _) as [env|] eqn:Henv; [|done]. apply (inj Some) in Henc as <-.
  assert (decode_last_seq (to_le_bytes SEQ_PREFIX_LEN (c_last_seq c) ++ env) = c_last_seq c)
    as Hs by (apply decode_last_seq_prefix; lia).
  split; [done|]. exists (RecencyClock.observe (c_last_seq c) clock).
  unfold decode_cached_result.
  case_decide as Hlen; [rewrite length_app, length_to_le_bytes in Hlen; lia|].
  rewrite drop_app_length' by (by rewrite length_to_le_bytes).
  rewrite (env_roundtrip _ _ Henv), Hs. cbn [e_analyzer_version].
  case_decide; [done|]. cbn. split; [by destruct (c_result c)|].
  unfold RecencyClock.observe. rewrite sat_add_small by lia. lia.
Qed.

(** A row of another analyzer version never decodes. *)
Lemma decode_other_version clock bs e :
  env_from_slice (drop SEQ_PREFIX_LEN bs) = Some e → e_analyzer_version e ≠ ANALYZER_VERSION →
  decode_cached_result clock bs = (None, clock).
Proof. intros He Hv. unfold decode_cached_result. case_decide; [done|]. by rewrite He, decide_True. Qed.
End value.

(** ** A concrete codec for the witnesses: it knows one envelope *)

#[export] Instance ResultFreshness_eq_dec : EqDecision ResultFreshness.
Proof. solve_decision. Defined.
#[export] Instance MeasuredSizes_eq_dec : EqDecision MeasuredSizes.
Proof. solve_decision. Defined.
#[export] Instance AssetContribution_eq_dec : EqDecision AssetContribution.
Proof. solve_decision. Defined.
#[export] Instance ImportDiagnostic_eq_dec : EqDecision ImportDiagnostic.
Proof. solve_decision. Defined.
#[export] Instance ModuleContribution_eq_dec : EqDecision ModuleContribution.
Proof. solve_decision. Defined.
#[export] Instance ImportResult_eq_dec : EqDecision ImportResult.
Proof. solve_decision. Defined.
#[export] Instance CacheEnvelope_eq_dec : EqDecision CacheEnvelope.
Proof. solve_decision. Defined.

Definition one_envelope (e : CacheEnvelope) (b : list ascii) : EnvelopeCodec := {|
  env_to_vec e' := if decide (e' = e) then Some b else None;
  env_from_slice b' :=
    if decide (b' = b) then
      Some {| e_analyzer_version := e_analyzer_version e;
              e_result := set_internal [] (e_result e);
              e_fingerprints := e_fingerprints e;
              e_full_contributions := e_full_contributions e |}
    else None;
|}.
#[export] Instance one_envelope_lawful e b : LawfulEnvelopeCodec (one_envelope e b).
Proof.
  split. intros e' b'. cbn. case_decide as He; [|done]. intros [= <-]. subst e'.
  by rewrite decide_True.
Qed.

Definition sample_import (seq : N) : CachedImport :=
  {| c_result := measured "react" {| m_raw := 9; m_minified := 5; m_gzip := 3; m_brotli := 2; m_zstd := 3 |};
     c_fingerprints := []; c_verification := verification.never;
     c_last_seq := seq; c_persisted_seq := 0; c_first_party := false |}.
Definition sample_envelope : CacheEnvelope :=
  {| e_analyzer_version := "1.0.0"; e_result := c_result (sample_import 0);
     e_fingerprints := []; e_full_contributions := [] |}.

Example stored_value_roundtrip_witness :
  ∃ clock',
    @decode_cached_result (one_envelope sample_envelope ["x"%char]) "1.0.0" 5%N
      (to_le_bytes 8 300 ++ ["x"%char]) = (Some {|
         c_result := set_internal [] (c_result (sample_import 300)); c_fingerprints := [];
         c_verification := verification.never; c_last_seq := 300; c_persisted_seq := 300;
         c_first_party := false |}, clock') ∧
    (300 < (RecencyClock.next_seq clock').1)%N ∧ (5 ≤ clock')%N.
Proof.
  refine (proj2 (@stored_value_roundtrip (one_envelope sample_envelope ["x"%char]) "1.0.0"
           (one_envelope_lawful _ _) 5%N (sample_import 300) _ _ _)).
  - reflexivity.
  - reflexivity.
Defined.
