(* ===== verification/ShardTables.v ===== *)
(** * A shard's tables and the transactions that maintain them ([cache/disk.rs] 22-69, 1265-1491)

    A shard keeps, beside its rows, a summary of byte, entry and recency totals
    and an index by recency, all three written in one transaction. [redb] is a
    parameter: its operations are fallible, and its laws say what an operation
    that succeeded did to the tables. The library of weakest preconditions below
    is what the transactions are proved with. *)
From S2P Require Import Prelude Recency Results Fingerprints CachedImports.

Set Default Proof Using "Type*".

(** ** Tables *)

Definition SUMMARY_TOTAL_BYTES : string := "total_bytes".
Definition SUMMARY_ENTRY_COUNT : string := "entry_count".
Definition SUMMARY_MAX_SEQ : string := "max_seq".
Definition SCHEMA_VERSION_KEY : string := "schema_version".
Definition CURRENT_SCHEMA_VERSION : N := 8.
Definition INSERT_FLUSH_BATCH : nat := 64.
Definition MAX_PENDING_INSERTS : nat := 16 * INSERT_FLUSH_BATCH.

Inductive table := CACHE_TABLE | METADATA_TABLE | SUMMARY_TABLE | SEQ_INDEX_TABLE.

Record Tables := {
  t_cache : gmap string (list ascii);
  t_summary : gmap string N;
  t_index : gset (N * string);
  t_meta : gmap string N;
}.
Definition set_cache (c : gmap string (list ascii)) (T : Tables) : Tables :=
  {| t_cache := c; t_summary := t_summary T; t_index := t_index T; t_meta := t_meta T |}.
Definition set_summary (s : gmap string N) (T : Tables) : Tables :=
  {| t_cache := t_cache T; t_summary := s; t_index := t_index T; t_meta := t_meta T |}.
Definition set_index (i : gset (N * string)) (T : Tables) : Tables :=
  {| t_cache := t_cache T; t_summary := t_summary T; t_index := i; t_meta := t_meta T |}.
Definition set_meta (m : gmap string N) (T : Tables) : Tables :=
  {| t_cache := t_cache T; t_summary := t_summary T; t_index := t_index T; t_meta := m |}.
Definition no_tables : Tables :=
  {| t_cache := ∅; t_summary := ∅; t_index := ∅; t_meta := ∅ |}.

Definition field (f : string) (T : Tables) : N := default 0%N (t_summary T !! f).

(** ** Transactions

    A fallible operation on a transaction: the transaction after it, and its
    value unless it failed. *)
Definition txn_op (X A : Type) : Type := X → option A * X.

#[export] Instance txn_ret X : MRet (txn_op X) := λ A a t, (Some a, t).
#[export] Instance txn_bind X : MBind (txn_op X) := λ A B k m t,
  match m t with
  | (Some a, t') => k a t'
  | (None, t') => (None, t')
  end.

(** In an iteration over a table a row that cannot be read is [None]. *)
Class Redb := {
  Database : Type;
  Txn : Type;
  begin_read : Database → option Txn;
  begin_write : Database → option Txn;
  (** [None]: the commit failed and the database is what it was. *)
  commit : Txn → Database → option Database;
  open_table : table → txn_op Txn unit;
  cache_insert : string → list ascii → txn_op Txn (option (list ascii));
  cache_remove : string → txn_op Txn (option (list ascii));
  cache_get : string → txn_op Txn (option (list ascii));
  cache_clear : txn_op Txn unit;
  cache_len : txn_op Txn N;
  cache_iter : txn_op Txn (list (option (string * list ascii)));
  summary_get : string → txn_op Txn (option N);
  summary_insert : string → N → txn_op Txn unit;
  index_insert : N * string → txn_op Txn unit;
  index_remove : N * string → txn_op Txn unit;
  index_clear : txn_op Txn unit;
  index_iter : txn_op Txn (list (option (N * string)));
  meta_get : string → txn_op Txn (option N);
  meta_insert : string → N → txn_op Txn unit;
  (** What a database and a transaction hold. *)
  db_tables : Database → Tables;
  txn_tables : Txn → Tables;
}.

(** The order of the index's key type [(u64, &str)]. *)
Definition index_cmp : N * string → N * string → comparison :=
  cmp_lex N.compare String.compare.
#[export] Instance index_cmp_order : CmpOrder index_cmp.
Proof. unfold index_cmp. apply _. Qed.

(** [wp m Q T]: if [m] succeeds on a transaction holding [T], its value and
    the tables after it satisfy [Q]. *)
Definition wp `{R : Redb} {A} (m : txn_op Txn A) (Q : A → Tables → Prop) (T : Tables) : Prop :=
  ∀ t a t', txn_tables t = T → m t = (Some a, t') → Q a (txn_tables t').

(** An iteration over [rows] some of which may have been unreadable. *)
Definition readable {A} (rows : list A) (l : list (option A)) : Prop :=
  Forall2 (λ r o, o = None ∨ o = Some r) rows l.

(** What [redb] documents: the effect of a successful operation, snapshots at
    [begin], and atomic commits. *)
Class RedbLaws `{R : Redb} : Prop := {
  begin_read_tables : ∀ d t, begin_read d = Some t → txn_tables t = db_tables d;
  begin_write_tables : ∀ d t, begin_write d = Some t → txn_tables t = db_tables d;
  commit_tables : ∀ t d d', commit t d = Some d' → db_tables d' = txn_tables t;
  open_table_fails : ∀ w t t', open_table w t = (None, t') → txn_tables t' = txn_tables t;
  cache_iter_fails : ∀ t t', cache_iter t = (None, t') → txn_tables t' = txn_tables t;
  summary_get_fails : ∀ f t t', summary_get f t = (None, t') → txn_tables t' = txn_tables t;
  wp_open_table : ∀ w (Q : unit → Tables → Prop) T, Q () T → wp (open_table w) Q T;
  wp_cache_insert : ∀ k v (Q : option (list ascii) → Tables → Prop) T,
    Q (t_cache T !! k) (set_cache (<[k:=v]> (t_cache T)) T) → wp (cache_insert k v) Q T;
  wp_cache_remove : ∀ k (Q : option (list ascii) → Tables → Prop) T,
    Q (t_cache T !! k) (set_cache (delete k (t_cache T)) T) → wp (cache_remove k) Q T;
  wp_cache_get : ∀ k (Q : option (list ascii) → Tables → Prop) T,
    Q (t_cache T !! k) T → wp (cache_get k) Q T;
  wp_cache_clear : ∀ (Q : unit → Tables → Prop) T, Q () (set_cache ∅ T) → wp cache_clear Q T;
  wp_cache_len : ∀ (Q : N → Tables → Prop) T,
    Q (N.of_nat (size (t_cache T))) T → wp cache_len Q T;
  wp_cache_iter : ∀ (Q : list (option (string * list ascii)) → Tables → Prop) T,
    (∀ rows l, rows ≡ₚ map_to_list (t_cache T) → readable rows l → Q l T) → wp cache_iter Q T;
  wp_summary_get : ∀ f (Q : option N → Tables → Prop) T,
    Q (t_summary T !! f) T → wp (summary_get f) Q T;
  wp_summary_insert : ∀ f v (Q : unit → Tables → Prop) T,
    Q () (set_summary (<[f:=v]> (t_summary T)) T) → wp (summary_insert f v) Q T;
  wp_index_insert : ∀ p (Q : unit → Tables → Prop) T,
    Q () (set_index ({[p]} ∪ t_index T) T) → wp (index_insert p) Q T;
  wp_index_remove : ∀ p (Q : unit → Tables → Prop) T,
    Q () (set_index (t_index T ∖ {[p]}) T) → wp (index_remove p) Q T;
  wp_index_clear : ∀ (Q : unit → Tables → Prop) T, Q () (set_index ∅ T) → wp index_clear Q T;
  wp_index_iter : ∀ (Q : list (option (N * string)) → Tables → Prop) T,
    (∀ l, readable (sort index_cmp (elements (t_index T))) l → Q l T) →
    wp index_iter Q T;
  wp_meta_get : ∀ k (Q : option N → Tables → Prop) T,
    Q (t_meta T !! k) T → wp (meta_get k) Q T;
  wp_meta_insert : ∀ k v (Q : unit → Tables → Prop) T,
    Q () (set_meta (<[k:=v]> (t_meta T)) T) → wp (meta_insert k v) Q T;
}.

(** Summary reads that never fail: what the queries that read the accounting
    rely on, since [read_summary_field] turns a failed read into zero. *)
Class SummaryReadsSucceed `{R : Redb} : Prop := {
  summary_get_ok : ∀ f t, ∃ r t', summary_get f t = (Some r, t');
}.

(** ** The transactions *)

Section transactions.
Context `{R : Redb, HO : HashOrder}.

Notation M := (txn_op Txn).

(** [read_summary_field]: a failed read and an absent field both read zero. *)
Definition read_summary_field (f : string) : M N := λ t,
  match summary_get f t with
  | (Some (Some v), t') => (Some v, t')
  | (_, t') => (Some 0%N, t')
  end.

(** The same read, in a transaction that would not go on past its failure. *)
Definition strict_summary_field (f : string) : M N :=
  v ← summary_get f; mret (default 0%N v).

(** [u64::try_from] of an [i128]. *)
Definition u64_try_from (z : Z) : option N :=
  if decide (0 ≤ z ∧ z ≤ Z.of_N u64_max)%Z then Some (Z.to_N z) else None.

Definition write_summary (total_bytes entry_count : Z) (max_seq : option N) : M bool :=
  match u64_try_from total_bytes, u64_try_from entry_count with
  | Some total, Some count =>
      _ ← summary_insert SUMMARY_TOTAL_BYTES total;
      _ ← summary_insert SUMMARY_ENTRY_COUNT count;
      _ ← match max_seq with
          | Some m => summary_insert SUMMARY_MAX_SEQ m
          | None => mret ()
          end;
      mret true
  | _, _ => mret false
  end.

Definition byte_len (bs : list ascii) : N := N.of_nat (length bs).

(** The scan of [rebuild_summary_in_txn]. *)
Fixpoint rebuild_rows (rows : list (option (string * list ascii))) (total count max_seq : N)
    : M (N * N * N) :=
  match rows with
  | [] => mret (total, count, max_seq)
  | None :: _ => λ t, (None, t)
  | Some (key, bs) :: rest =>
      let seq := decode_last_seq bs in
      _ ← index_insert (seq, key);
      rebuild_rows rest (wrap_add total (byte_len bs)) (wrap_add count 1) (N.max max_seq seq)
  end.

Definition rebuild_summary_in_txn : M unit :=
  _ ← open_table CACHE_TABLE;
  _ ← open_table SUMMARY_TABLE;
  _ ← open_table SEQ_INDEX_TABLE;
  _ ← index_clear;
  rows ← cache_iter;
  '(total, count, max_seq) ← rebuild_rows rows 0 0 0;
  _ ← write_summary (Z.of_N total) (Z.of_N count) (Some max_seq);
  mret ().

(** The loop of [write_pending_inserts]. *)
Fixpoint insert_rows (rows : list (string * list ascii)) (total count : Z) (max_seq : N)
    : M (Z * Z * N) :=
  match rows with
  | [] => mret (total, count, max_seq)
  | (key, bs) :: rest =>
      let new_len := Z.of_N (byte_len bs) in
      let new_seq := decode_last_seq bs in
      prior ← cache_insert key bs;
      '(total', count') ←
        match prior with
        | Some old =>
            _ ← index_remove (decode_last_seq old, key);
            mret (total + (new_len - Z.of_N (byte_len old)), count)%Z
        | None => mret (total + new_len, count + 1)%Z
        end;
      _ ← index_insert (new_seq, key);
      insert_rows rest total' count' (N.max max_seq new_seq)
  end.

(** The transactions, over the [read] of a summary field they use. *)
Definition write_pending_with (read : string → M N) (pending : gmap string (list ascii))
    : M unit :=
  _ ← open_table CACHE_TABLE;
  _ ← open_table SUMMARY_TABLE;
  _ ← open_table SEQ_INDEX_TABLE;
  total ← read SUMMARY_TOTAL_BYTES;
  count ← read SUMMARY_ENTRY_COUNT;
  max_seq ← read SUMMARY_MAX_SEQ;
  '(total', count', max') ← insert_rows (hash_iter pending) (Z.of_N total) (Z.of_N count) max_seq;
  summary_consistent ← write_summary total' count' (Some max');
  if (summary_consistent : bool) then mret () else rebuild_summary_in_txn.

Definition write_pending_txn (pending : gmap string (list ascii)) : M unit :=
  write_pending_with read_summary_field pending.

(** The loop of [maintain_removals]. *)
Fixpoint remove_rows (keys : list string) (total count : Z) (freed : N) : M (Z * Z * N) :=
  match keys with
  | [] => mret (total, count, freed)
  | key :: rest =>
      removed ← cache_remove key;
      match removed with
      | Some old =>
          _ ← index_remove (decode_last_seq old, key);
          remove_rows rest (total - Z.of_N (byte_len old))%Z (count - 1)%Z
            (wrap_add freed (byte_len old))
      | None => remove_rows rest total count freed
      end
  end.

Definition maintain_removals_with (read : string → M N) (keys : list string) : M N :=
  _ ← open_table CACHE_TABLE;
  _ ← open_table SUMMARY_TABLE;
  _ ← open_table SEQ_INDEX_TABLE;
  total ← read SUMMARY_TOTAL_BYTES;
  count ← read SUMMARY_ENTRY_COUNT;
  '(total', count', freed) ← remove_rows keys (Z.of_N total) (Z.of_N count) 0;
  summary_consistent ← write_summary total' count' None;
  _ ← (if (summary_consistent : bool) then mret () else rebuild_summary_in_txn);
  mret freed.

Definition maintain_removals (keys : list string) : M N :=
  maintain_removals_with read_summary_field keys.

(** Run a write transaction's body and commit it. A body that fails drops the
    transaction, and a commit that fails leaves the database alone. *)
Definition transact {A} (db : Database) (body : M A) : option A * Database :=
  match begin_write db with
  | None => (None, db)
  | Some t =>
      match body t with
      | (Some a, t') =>
          match commit t' db with
          | Some db' => (Some a, db')
          | None => (None, db)
          end
      | (None, _) => (None, db)
      end
  end.

(** The transaction ends as it would if a failed summary read ended it: it does
    not commit counters computed from a zero that stands for a failure. *)
Definition loses_no_read {A} (db : Database) (body : (string → M N) → M A) : Prop :=
  transact db (body read_summary_field) = transact db (body strict_summary_field).

Definition write_pending_inserts (db : Database) (pending : gmap string (list ascii))
    : option unit * Database := transact db (write_pending_txn pending).

Definition heal_summary_if_inconsistent (db : Database) : Database :=
  let needs_rebuild :=
    match begin_read db with
    | Some t =>
        let cache_rows := match (_ ← open_table CACHE_TABLE; cache_len) t with
                          | (Some n, _) => n | (None, _) => 0%N end in
        let summary_count :=
          match (_ ← open_table SUMMARY_TABLE; read_summary_field SUMMARY_ENTRY_COUNT) t with
          | (Some n, _) => n | (None, _) => 0%N end in
        negb (bool_decide (cache_rows = summary_count))
    | None => false
    end in
  if needs_rebuild then (transact db rebuild_summary_in_txn).2 else db.
End transactions.

(** ** The accounting invariant *)

(** Equal as 64-bit values: the counters wrap, as the release build does. *)
Definition congr64 (a b : Z) : Prop := ∃ q, (a = b + q * 18446744073709551616)%Z.

#[export] Instance congr64_equiv : Equivalence congr64.
Proof.
  split.
  - intros a. exists 0%Z. lia.
  - intros a b [q ?]. exists (- q)%Z. lia.
  - intros a b c [q ?] [r ?]. exists (q + r)%Z. lia.
Qed.
#[export] Instance congr64_add : Proper (congr64 ==> congr64 ==> congr64) Z.add.
Proof. intros a b [q ->] c d [r ->]. exists (q + r)%Z. lia. Qed.
#[export] Instance congr64_sub : Proper (congr64 ==> congr64 ==> congr64) Z.sub.
Proof. intros a b [q ->] c d [r ->]. exists (q - r)%Z. lia. Qed.

Lemma congr64_wrap a b : congr64 (Z.of_N (wrap_add a b)) (Z.of_N a + Z.of_N b).
Proof.
  unfold wrap_add. change (u64_max + 1)%N with 18446744073709551616%N.
  exists (- Z.of_N ((a + b) / 18446744073709551616))%Z.
  pose proof (N.div_mod (a + b) 18446744073709551616 ltac:(done)) as H.
  revert H. generalize ((a + b) / 18446744073709551616)%N ((a + b) mod 18446744073709551616)%N.
  intros q r. lia.
Qed.

Lemma congr64_small a b :
  (0 ≤ a ≤ Z.of_N u64_max)%Z → (0 ≤ b ≤ Z.of_N u64_max)%Z → congr64 a b → a = b.
Proof. unfold u64_max. intros ?? [q ?]. assert (q = 0)%Z by lia. lia. Qed.

(** The bytes of all rows. *)
Definition row_bytes (m : gmap string (list ascii)) : Z :=
  map_fold (λ _ bs acc, Z.of_N (byte_len bs) + acc)%Z 0%Z m.

Lemma row_bytes_insert_new m k v :
  m !! k = None → row_bytes (<[k:=v]> m) = (Z.of_N (byte_len v) + row_bytes m)%Z.
Proof. intros H. unfold row_bytes. rewrite map_fold_insert_L; [done|intros; lia|done]. Qed.

Lemma row_bytes_delete m k v :
  m !! k = Some v → row_bytes (delete k m) = (row_bytes m - Z.of_N (byte_len v))%Z.
Proof.
  intros H. rewrite <- (insert_delete_id m k v H) at 2.
  rewrite row_bytes_insert_new by apply lookup_delete_eq. lia.
Qed.

Lemma row_bytes_replace m k v old :
  m !! k = Some old →
  row_bytes (<[k:=v]> m) = (row_bytes m + (Z.of_N (byte_len v) - Z.of_N (byte_len old)))%Z.
Proof.
  intros H. rewrite <- insert_delete_eq, row_bytes_insert_new by apply lookup_delete_eq.
  rewrite (row_bytes_delete _ _ _ H). lia.
Qed.

(** The index lists exactly the rows, by their recency. *)
Definition index_exact (T : Tables) : Prop :=
  ∀ s k, (s, k) ∈ t_index T ↔ ∃ bs, t_cache T !! k = Some bs ∧ decode_last_seq bs = s.

Definition seqs_below (T : Tables) (m : N) : Prop :=
  ∀ k bs, t_cache T !! k = Some bs → (decode_last_seq bs ≤ m)%N.

(** Counters that describe the rows of [T]. *)
Record counts (T : Tables) (total count : Z) (max_seq : N) : Prop := {
  counts_index : index_exact T;
  counts_total : congr64 total (row_bytes (t_cache T));
  counts_count : congr64 count (Z.of_nat (size (t_cache T)));
  counts_max : seqs_below T max_seq;
}.

(** The summary is what a scan of the rows would compute. *)
Definition consistent (T : Tables) : Prop :=
  counts T (Z.of_N (field SUMMARY_TOTAL_BYTES T)) (Z.of_N (field SUMMARY_ENTRY_COUNT T))
    (field SUMMARY_MAX_SEQ T) ∧
  (field SUMMARY_TOTAL_BYTES T ≤ u64_max)%N ∧ (field SUMMARY_ENTRY_COUNT T ≤ u64_max)%N.

Lemma counts_summary T s total count m :
  counts T total count m → counts (set_summary s T) total count m.
Proof. intros []. by split. Qed.

Lemma field_insert f g v T :
  field f (set_summary (<[g:=v]> (t_summary T)) T) =
    if decide (f = g) then v else field f T.
Proof.
  unfold field. cbn. case_decide as H; [subst; by rewrite lookup_insert_eq|].
  by rewrite lookup_insert_ne.
Qed.

Lemma counts_insert_row T total count m k bs :
  counts T total count m →
  let T1 := set_cache (<[k:=bs]> (t_cache T)) T in
  let old := t_cache T !! k in
  let T2 := match old with
            | Some o => set_index (t_index T1 ∖ {[(decode_last_seq o, k)]}) T1
            | None => T1 end in
  counts (set_index ({[(decode_last_seq bs, k)]} ∪ t_index T2) T2)
    (match old with Some o => total + (Z.of_N (byte_len bs) - Z.of_N (byte_len o))
                  | None => total + Z.of_N (byte_len bs) end)%Z
    (match old with Some _ => count | None => count + 1 end)%Z
    (N.max m (decode_last_seq bs)).
Proof.
  intros [Hi Ht Hc Hm] T1 old T2. subst T1 T2 old.
  unfold index_exact in Hi. destruct (t_cache T !! k) as [o|] eqn:Ho; (split; cbn).
  - intros s k'. cbn. rewrite elem_of_union, elem_of_singleton, elem_of_difference, elem_of_singleton, Hi.
    destruct (decide (k' = k)) as [->|Hk].
    + rewrite lookup_insert_eq, Ho. naive_solver.
    + rewrite lookup_insert_ne by done. naive_solver.
  - rewrite (row_bytes_replace _ _ _ _ Ho). by rewrite Ht.
  - by rewrite map_size_insert_Some by (by rewrite Ho).
  - intros k' bs'. destruct (decide (k' = k)) as [->|Hk]; cbn.
    + rewrite lookup_insert_eq. intros [= <-]. lia.
    + rewrite lookup_insert_ne by done. intros ?%Hm. lia.
  - intros s k'. cbn. rewrite elem_of_union, elem_of_singleton, Hi.
    destruct (decide (k' = k)) as [->|Hk].
    + rewrite lookup_insert_eq, Ho. naive_solver.
    + rewrite lookup_insert_ne by done. naive_solver.
  - rewrite row_bytes_insert_new by done. rewrite Ht, Z.add_comm. reflexivity.
  - rewrite map_size_insert_None by done. rewrite Hc. rewrite Nat2Z.inj_succ. reflexivity.
  - intros k' bs'. destruct (decide (k' = k)) as [->|Hk]; cbn.
    + rewrite lookup_insert_eq. intros [= <-]. lia.
    + rewrite lookup_insert_ne by done. intros ?%Hm. lia.
Qed.

Lemma counts_remove_row T total count m k o :
  counts T total count m → t_cache T !! k = Some o →
  let T1 := set_cache (delete k (t_cache T)) T in
  counts (set_index (t_index T1 ∖ {[(decode_last_seq o, k)]}) T1)
    (total - Z.of_N (byte_len o)) (count - 1) m.
Proof.
  intros [Hi Ht Hc Hm] Ho T1. subst T1. unfold index_exact in Hi. split; cbn.
  - intros s k'. cbn. rewrite elem_of_difference, elem_of_singleton, Hi.
    destruct (decide (k' = k)) as [->|Hk].
    + rewrite lookup_delete_eq, Ho. naive_solver.
    + rewrite lookup_delete_ne by done. naive_solver.
  - rewrite (row_bytes_delete _ _ _ Ho). by rewrite Ht.
  - rewrite map_size_delete_Some by (by rewrite Ho). rewrite Hc.
    assert (size (t_cache T) ≠ 0).
    { intros ?%map_size_empty_inv%(f_equal (lookup k)). rewrite Ho, lookup_empty in *. done. }
    rewrite Nat2Z.inj_pred by lia. reflexivity.
  - intros k' bs'. cbn. rewrite lookup_delete_Some. intros [_ ?]. by eapply Hm.
Qed.

Definition delete_all (keys : list string) (m : gmap string (list ascii)) :=
  foldl (λ m k, delete k m) m keys.

Lemma lookup_delete_all keys m k :
  delete_all keys m !! k = if decide (k ∈ keys) then None else m !! k.
Proof.
  revert m. induction keys as [|k' keys IH]; intros m; cbn; [done|].
  unfold delete_all in IH. rewrite IH. destruct (decide (k ∈ keys)).
  - by rewrite decide_True by (by apply elem_of_cons; right).
  - destruct (decide (k = k')) as [->|Hk].
    + by rewrite lookup_delete_eq, decide_True by (apply elem_of_cons; by left).
    + rewrite lookup_delete_ne by done. rewrite decide_False; [done|]. set_solver.
Qed.

(** ** Weakest preconditions of the transactions *)

Section proofs.
Context `{R : Redb, HO : HashOrder, RL : !RedbLaws}.

Notation M := (txn_op Txn).

Lemma wp_ret {A} (a : A) Q T : Q a T → wp (mret a : M A) Q T.
Proof. intros HQ t a' t' HT [= <- <-]. by rewrite HT. Qed.

Lemma wp_bind {A B} (m : M A) (k : A → M B) Q T :
  wp m (λ a T', wp (k a) Q T') T → wp (m ≫= k) Q T.
Proof.
  intros Hm t b t'' HT. unfold mbind, txn_bind. destruct (m t) as [[a|] t'] eqn:E; [|done].
  intros Hk. by eapply Hm.
Qed.

Lemma wp_mono {A} (m : M A) (Q Q' : A → Tables → Prop) T :
  (∀ a T', Q a T' → Q' a T') → wp m Q T → wp m Q' T.
Proof. intros HQ Hm t a t' HT E. eapply HQ, Hm; eauto. Qed.

Lemma wp_read_summary_field `{!SummaryReadsSucceed} f (Q : N → Tables → Prop) T :
  Q (field f T) T → wp (read_summary_field f) Q T.
Proof.
  intros HQ t a t' HT. unfold read_summary_field.
  destruct (summary_get_ok f t) as (r & t1 & E). rewrite E.
  assert (wp (summary_get f) (λ r T', r = t_summary T !! f ∧ T' = T) T) as Hw
    by (by apply wp_summary_get).
  destruct (Hw _ _ _ HT E) as [-> HT']. unfold field in HQ.
  destruct (t_summary T !! f); intros [= <- <-]; by rewrite HT'.
Qed.

(** What a transaction needs of the reads of its summary: to leave the tables
    alone, and to answer the field. *)
Definition reads_only (read : string → M N) : Prop :=
  ∀ f (Q : N → Tables → Prop) T, (∀ v, Q v T) → wp (read f) Q T.
Definition reads_fields (read : string → M N) : Prop :=
  ∀ f (Q : N → Tables → Prop) T, Q (field f T) T → wp (read f) Q T.

Lemma reads_only_summary : reads_only read_summary_field.
Proof.
  intros f Q T HQ t a t' HT. unfold read_summary_field.
  destruct (summary_get f t) as [r t1] eqn:E.
  assert (txn_tables t1 = T) as H1.
  { destruct r as [r|]; [by eapply (wp_summary_get f (λ _ T', T' = T)); eauto|].
    by rewrite (summary_get_fails _ _ _ E). }
  destruct r as [[v|]|]; intros [= <- <-]; by rewrite H1.
Qed.

Lemma reads_fields_strict : reads_fields strict_summary_field.
Proof. intros f Q T HQ. by apply wp_bind, wp_summary_get, wp_ret. Qed.

Lemma reads_fields_summary `{!SummaryReadsSucceed} : reads_fields read_summary_field.
Proof. intros f Q T. apply wp_read_summary_field. Qed.

Definition insert_all (rows : list (string * list ascii)) (m : gmap string (list ascii)) :=
  foldl (λ m kv, <[kv.1:=kv.2]> m) m rows.

Lemma insert_all_union rows m :
  NoDup rows.*1 → insert_all rows m = list_to_map rows ∪ m.
Proof.
  revert m. induction rows as [|[k v] rows IH]; intros m Hnd; cbn; [by rewrite map_empty_union|].
  apply NoDup_cons in Hnd as [Hk Hnd]. unfold insert_all in IH. rewrite IH by done.
  rewrite <- insert_union_l. rewrite insert_union_r; [done|].
  by apply not_elem_of_list_to_map_1.
Qed.

Lemma insert_all_hash (pending m : gmap string (list ascii)) :
  insert_all (hash_iter pending) m = pending ∪ m.
Proof.
  rewrite insert_all_union by apply hash_iter_nodup. f_equal.
  rewrite (list_to_map_proper (hash_iter pending) (map_to_list pending));
    [apply list_to_map_to_list|apply hash_iter_nodup|apply hash_iter_perm].
Qed.

Lemma wp_insert_rows rows total count m T :
  counts T total count m →
  wp (insert_rows rows total count m)
    (λ '(t, c, m') T', counts T' t c m' ∧ t_cache T' = insert_all rows (t_cache T) ∧
       t_summary T' = t_summary T ∧ t_meta T' = t_meta T) T.
Proof.
  revert total count m T. induction rows as [|[k bs] rows IH]; intros total count m T Hc; cbn.
  { by apply wp_ret. }
  pose proof (counts_insert_row _ _ _ _ k bs Hc) as Hrow. cbn in Hrow.
  apply wp_bind, wp_cache_insert. destruct (t_cache T !! k) as [o|] eqn:Ho.
  - apply wp_bind, wp_bind, wp_index_remove, wp_ret, wp_bind, wp_index_insert.
    eapply wp_mono; [|by apply IH]. by intros [[? ?] ?] T'.
  - apply wp_bind, wp_ret, wp_bind, wp_index_insert.
    eapply wp_mono; [|by apply IH]. by intros [[? ?] ?] T'.
Qed.

Lemma wp_remove_rows keys total count freed m T :
  counts T total count m →
  wp (remove_rows keys total count freed)
    (λ '(t, c, f) T', counts T' t c m ∧
       t_cache T' = foldl (λ m k, delete k m) (t_cache T) keys ∧
       t_summary T' = t_summary T ∧ t_meta T' = t_meta T ∧
       congr64 (Z.of_N f - Z.of_N freed) (row_bytes (t_cache T) - row_bytes (t_cache T')) ∧
       ((freed ≤ u64_max)%N → (f ≤ u64_max)%N)) T.
Proof.
  revert total count freed T. induction keys as [|k keys IH]; intros total count freed T Hc; cbn.
  { apply wp_ret. split_and!; [done..| |done]. exists 0%Z. lia. }
  apply wp_bind, wp_cache_remove. destruct (t_cache T !! k) as [o|] eqn:Ho.
  - apply wp_bind, wp_index_remove. eapply wp_mono; [|by apply IH, counts_remove_row].
    intros [[t c] f] T' (? & Hcache & ? & ? & Hf & Hle). cbn in Hcache, Hf.
    split_and!; [done..| |intros _; apply Hle, wrap_add_le_max].
    rewrite (row_bytes_delete _ _ _ Ho) in Hf.
    destruct Hf as [q Hq], (congr64_wrap freed (byte_len o)) as [r Hr].
    exists (q + r)%Z. lia.
  - assert (set_cache (delete k (t_cache T)) T = T) as ->.
    { rewrite delete_id by done. by destruct T. }
    eapply wp_mono; [|by apply IH]. intros [[t c] f] T' Hpost.
    by rewrite (delete_id (t_cache T) k) by done.
Qed.

Lemma u64_try_from_Some z n : u64_try_from z = Some n → z = Z.of_N n ∧ (n ≤ u64_max)%N.
Proof. unfold u64_try_from. case_decide; [|done]. intros [= <-]. lia. Qed.

Lemma wp_write_summary total count m mx T :
  counts T total count m → (mx = Some m ∨ mx = None ∧ field SUMMARY_MAX_SEQ T = m) →
  wp (write_summary total count mx)
    (λ ok T', t_cache T' = t_cache T ∧ t_meta T' = t_meta T ∧
       (ok = true → consistent T') ∧
       (ok = false → u64_try_from total = None ∨ u64_try_from count = None)) T.
Proof.
  intros Hc Hm. unfold write_summary.
  destruct (u64_try_from total) as [tn|] eqn:Ht; [|apply wp_ret; split_and!; by auto].
  destruct (u64_try_from count) as [cn|] eqn:Hn; [|apply wp_ret; split_and!; by auto].
  apply u64_try_from_Some in Ht as [-> ?], Hn as [-> ?].
  apply wp_bind, wp_summary_insert, wp_bind, wp_summary_insert, wp_bind.
  destruct Hm as [->|[-> Hf]].
  - apply wp_summary_insert, wp_ret. split_and!; [done..|intros _|done].
    unfold consistent. rewrite !field_insert. cbn. split_and!; [|done..].
    by do 3 apply counts_summary.
  - apply wp_ret, wp_ret. split_and!; [done..|intros _|done].
    unfold consistent. rewrite !field_insert, Hf. cbn.
    split_and!; [|done..]. by do 2 apply counts_summary.
Qed.

(** The scan, on the rows it has still to see. *)
Definition list_bytes (rows : list (string * list ascii)) : Z :=
  foldr (λ kv acc, Z.of_N (byte_len kv.2) + acc)%Z 0%Z rows.

Lemma wp_rebuild_rows rows l total count m T :
  readable rows l →
  (total ≤ u64_max)%N → (count ≤ u64_max)%N →
  wp (rebuild_rows l total count m)
    (λ '(t, c, m') T',
       congr64 (Z.of_N t) (Z.of_N total + list_bytes rows) ∧
       congr64 (Z.of_N c) (Z.of_N count + Z.of_nat (length rows)) ∧
       (t ≤ u64_max)%N ∧ (c ≤ u64_max)%N ∧ (m ≤ m')%N ∧
       (∀ k bs, (k, bs) ∈ rows → (decode_last_seq bs ≤ m')%N) ∧
       (∀ p, p ∈ t_index T' ↔ p ∈ t_index T ∨ ∃ bs, (p.2, bs) ∈ rows ∧ decode_last_seq bs = p.1) ∧
       t_cache T' = t_cache T ∧ t_summary T' = t_summary T ∧ t_meta T' = t_meta T) T.
Proof.
  intros Hl0. revert total count m T.
  induction Hl0 as [|[k bs] ? rows l [->| ->] _ IH]; intros total count m T Ht Hc.
  { apply wp_ret. split_and!; try done; [exists 0%Z; cbn; lia|exists 0%Z; cbn; lia|set_solver|set_solver]. }
  { by intros t a t' HT E. }
  cbn [rebuild_rows]. apply wp_bind, wp_index_insert.
  eapply wp_mono; [|apply IH; apply wrap_add_le_max].
  intros [[t c] m'] T' (Hb & Hl & ? & ? & ? & Hmx & Hi & ? & ? & ?). split_and!; try done.
  - rewrite Hb, congr64_wrap. cbn [list_bytes foldr snd]. exists 0%Z. unfold list_bytes. lia.
  - rewrite Hl, congr64_wrap. exists 0%Z. cbn [length]. lia.
  - lia.
  - intros k' bs' [[= -> ->]|?]%elem_of_cons; [lia|by eapply Hmx].
  - intros [s k']. rewrite Hi. cbn. rewrite elem_of_union, elem_of_singleton.
    setoid_rewrite elem_of_cons. naive_solver.
Qed.

Lemma list_bytes_perm rows m : rows ≡ₚ map_to_list m → list_bytes rows = row_bytes m.
Proof.
  intros Hp. unfold row_bytes. rewrite map_fold_foldr. transitivity (list_bytes (map_to_list m)).
  - induction Hp; unfold list_bytes in *; cbn; lia.
  - unfold list_bytes. generalize (map_to_list m). intros l. induction l as [|[k v] l IHl]; cbn; [done|].
    by rewrite IHl.
Qed.

Lemma wp_rebuild T :
  wp rebuild_summary_in_txn
    (λ _ T', consistent T' ∧ t_cache T' = t_cache T ∧ t_meta T' = t_meta T) T.
Proof.
  unfold rebuild_summary_in_txn.
  do 3 apply wp_bind, wp_open_table. apply wp_bind, wp_index_clear, wp_bind, wp_cache_iter.
  intros rows l Hrows Hl0. apply wp_bind. eapply wp_mono; [|by eapply wp_rebuild_rows].
  intros [[t c] m] T1 (Hb & Hl & Ht & Hn & _ & Hmx & Hi & Hcache & Hsum & Hmeta). cbn in *.
  apply wp_bind.
  assert (counts T1 (Z.of_N t) (Z.of_N c) m) as Hcounts.
  { split.
    - intros s k. rewrite Hi, Hcache. cbn. setoid_rewrite Hrows. setoid_rewrite elem_of_map_to_list.
      set_solver.
    - by rewrite Hb, Hcache, (list_bytes_perm _ _ Hrows).
    - by rewrite Hl, Hcache, Hrows, length_map_to_list.
    - intros k bs Hk. rewrite Hcache in Hk. apply (Hmx k bs).
      by rewrite Hrows, elem_of_map_to_list. }
  eapply wp_mono; [|by eapply wp_write_summary; [|left]].
  intros ok T2 (Hc2 & Hm2 & Hok & Hbad). apply wp_ret. split_and!; [|congruence..].
  destruct ok; [by apply Hok|].
  destruct Hbad as [H|H]; [done|..]; revert H; unfold u64_try_from; rewrite decide_True by lia; done.
Qed.

(** What a committed transaction leaves; any other leaves the database alone. *)
Lemma transact_spec {A} db (body : M A) (Q : A → Tables → Prop) :
  wp body Q (db_tables db) →
  match transact db body with
  | (Some a, db') => Q a (db_tables db')
  | (None, db') => db' = db
  end.
Proof.
  intros Hb. unfold transact. destruct (begin_write db) as [t|] eqn:Et; [|done].
  destruct (body t) as [[a|] t'] eqn:Eb; [|done].
  destruct (commit t' db) as [db'|] eqn:Ec; [|done].
  rewrite (commit_tables _ _ _ Ec). eapply Hb; [by apply begin_write_tables|done].
Qed.

Lemma heal_spec db :
  t_cache (db_tables (heal_summary_if_inconsistent db)) = t_cache (db_tables db) ∧
  (consistent (db_tables db) → consistent (db_tables (heal_summary_if_inconsistent db))) ∧
  t_meta (db_tables (heal_summary_if_inconsistent db)) = t_meta (db_tables db).
Proof.
  unfold heal_summary_if_inconsistent. destruct (begin_read db) as [t|]; [|done].
  case_match; [|done].
  pose proof (transact_spec db rebuild_summary_in_txn _ (wp_rebuild _)) as Ht.
  destruct (transact db rebuild_summary_in_txn) as [[a|] db'] eqn:E; cbn; [|by rewrite Ht].
  destruct Ht as (? & ? & ?). done.
Qed.
(** *** What happens to the rows, whatever becomes of the counters *)

Definition same_rows (T T' : Tables) : Prop := t_cache T' = t_cache T ∧ t_meta T' = t_meta T.

Lemma wp_write_summary_rows total count mx T :
  wp (write_summary total count mx) (λ _, same_rows T) T.
Proof.
  unfold write_summary, same_rows. do 2 (case_match; [|by apply wp_ret]).
  apply wp_bind, wp_summary_insert, wp_bind, wp_summary_insert, wp_bind.
  destruct mx; [by apply wp_summary_insert, wp_ret|by apply wp_ret, wp_ret].
Qed.

Lemma wp_insert_rows_rows rows total count m T :
  wp (insert_rows rows total count m)
    (λ _ T', t_cache T' = insert_all rows (t_cache T) ∧ t_meta T' = t_meta T) T.
Proof.
  revert total count m T. induction rows as [|[k bs] rows IH]; intros total count m T; cbn.
  { by apply wp_ret. }
  apply wp_bind, wp_cache_insert. destruct (t_cache T !! k) as [o|] eqn:Ho.
  - apply wp_bind, wp_bind, wp_index_remove, wp_ret, wp_bind, wp_index_insert.
    eapply wp_mono; [|apply IH]. done.
  - apply wp_bind, wp_ret, wp_bind, wp_index_insert. eapply wp_mono; [|apply IH]. done.
Qed.

Lemma wp_remove_rows_rows keys total count freed T :
  wp (remove_rows keys total count freed)
    (λ _ T', t_cache T' = delete_all keys (t_cache T) ∧ t_meta T' = t_meta T) T.
Proof.
  revert total count freed T. induction keys as [|k keys IH]; intros total count freed T; cbn.
  { by apply wp_ret. }
  apply wp_bind, wp_cache_remove. destruct (t_cache T !! k) as [o|] eqn:Ho.
  - apply wp_bind, wp_index_remove. eapply wp_mono; [|apply IH]. done.
  - eapply wp_mono; [|apply IH]. done.
Qed.

Lemma wp_rebuild_unless (b : bool) T :
  wp (if b then mret () else rebuild_summary_in_txn) (λ _, same_rows T) T.
Proof.
  destruct b; [by apply wp_ret|]. eapply wp_mono; [|apply wp_rebuild]. by intros _ T' (? & ? & ?).
Qed.

Lemma wp_write_pending_rows pending T :
  wp (write_pending_txn pending)
    (λ _ T', t_cache T' = pending ∪ t_cache T ∧ t_meta T' = t_meta T) T.
Proof.
  unfold write_pending_txn, write_pending_with.
  do 3 apply wp_bind, wp_open_table. do 3 (apply wp_bind, reads_only_summary; intros ?).
  apply wp_bind. eapply wp_mono; [|apply wp_insert_rows_rows].
  intros [[total count] m] T1 (Hcache & Hmeta). rewrite insert_all_hash in Hcache.
  apply wp_bind. eapply wp_mono; [|apply wp_write_summary_rows].
  intros ok T2 [Hc2 Hm2]. eapply wp_mono; [|apply wp_rebuild_unless].
  intros _ T3 [? ?]. split; congruence.
Qed.

Lemma wp_maintain_removals_rows keys T :
  wp (maintain_removals keys)
    (λ _ T', t_cache T' = delete_all keys (t_cache T) ∧ t_meta T' = t_meta T) T.
Proof.
  unfold maintain_removals, maintain_removals_with.
  do 3 apply wp_bind, wp_open_table. do 2 (apply wp_bind, reads_only_summary; intros ?).
  apply wp_bind. eapply wp_mono; [|apply wp_remove_rows_rows].
  intros [[total count] freed] T1 (Hcache & Hmeta).
  apply wp_bind. eapply wp_mono; [|apply wp_write_summary_rows].
  intros ok T2 [Hc2 Hm2]. apply wp_bind. eapply wp_mono; [|apply wp_rebuild_unless].
  intros _ T3 [? ?]. apply wp_ret. split; congruence.
Qed.

(** *** The counters, with a read that answers the field *)

Section exact.
Context (read : string → M N) (Hread : reads_fields read).

Lemma wp_write_pending_with pending T :
  consistent T →
  wp (write_pending_with read pending)
    (λ _ T', consistent T' ∧ t_cache T' = pending ∪ t_cache T ∧ t_meta T' = t_meta T) T.
Proof.
  intros [Hc _]. unfold write_pending_with.
  do 3 apply wp_bind, wp_open_table. do 3 apply wp_bind, Hread.
  apply wp_bind. eapply wp_mono; [|by apply wp_insert_rows].
  intros [[total count] m] T1 (Hc1 & Hcache & Hsum & Hmeta). rewrite insert_all_hash in Hcache.
  apply wp_bind. eapply wp_mono; [|by eapply wp_write_summary; [|left]].
  intros [] T2 (HcT2 & HmT2 & Hok & _).
  - apply wp_ret. split_and!; [by apply Hok|congruence..].
  - eapply wp_mono; [|apply wp_rebuild]. intros _ T3 (? & ? & ?). split_and!; [done|congruence..].
Qed.

Lemma wp_maintain_removals_with keys T :
  consistent T →
  wp (maintain_removals_with read keys)
    (λ freed T', consistent T' ∧ t_cache T' = delete_all keys (t_cache T) ∧
       t_meta T' = t_meta T ∧
       congr64 (Z.of_N freed) (row_bytes (t_cache T) - row_bytes (t_cache T')) ∧
       (freed ≤ u64_max)%N) T.
Proof.
  intros [Hc _]. unfold maintain_removals_with.
  do 3 apply wp_bind, wp_open_table. do 2 apply wp_bind, Hread.
  apply wp_bind. eapply wp_mono; [|by apply wp_remove_rows].
  intros [[total count] freed] T1 (Hc1 & Hcache & Hsum & Hmeta & Hf & Hle).
  change (t_cache T1 = delete_all keys (t_cache T)) in Hcache.
  rewrite Z.sub_0_r in Hf. apply wp_bind. eapply wp_mono.
  2: { eapply wp_write_summary; [done|right]. split; [done|]. unfold field. by rewrite Hsum. }
  intros ok T2 (HcT2 & HmT2 & Hok & _). apply wp_bind. destruct ok.
  - apply wp_ret, wp_ret. split_and!; [by apply Hok|congruence..|by rewrite HcT2|by apply Hle].
  - eapply wp_mono; [|apply wp_rebuild]. intros _ T3 (? & HcT3 & ?). apply wp_ret.
    split_and!; [done|congruence..|by rewrite HcT3, HcT2|by apply Hle].
Qed.
End exact.

Lemma wp_maintain_removals `{SR : !SummaryReadsSucceed} keys T :
  consistent T →
  wp (maintain_removals keys)
    (λ freed T', consistent T' ∧ t_cache T' = delete_all keys (t_cache T) ∧
       t_meta T' = t_meta T ∧
       congr64 (Z.of_N freed) (row_bytes (t_cache T) - row_bytes (t_cache T')) ∧
       (freed ≤ u64_max)%N) T.
Proof. apply wp_maintain_removals_with, reads_fields_summary. Qed.

(** A transaction that loses no read is as exact as one whose reads succeed. *)
Lemma lossless_spec {A} db (body : (string → M N) → M A) (Q : A → Tables → Prop) :
  loses_no_read db body →
  (∀ read, reads_fields read → wp (body read) Q (db_tables db)) →
  match transact db (body read_summary_field) with
  | (Some a, db') => Q a (db_tables db')
  | (None, db') => db' = db
  end.
Proof.
  intros -> Hw. apply transact_spec, Hw, reads_fields_strict.
Qed.

(** [redb] answering every summary read loses none. *)
Lemma strict_agrees `{SR : !SummaryReadsSucceed} f t :
  read_summary_field f t = strict_summary_field f t.
Proof.
  unfold read_summary_field, strict_summary_field, mbind, txn_bind.
  destruct (summary_get_ok f t) as (r & t' & ->). by destruct r.
Qed.

Lemma bind_ext {A B} (m1 m2 : M A) (k1 k2 : A → M B) :
  (∀ t, m1 t = m2 t) → (∀ a t, k1 a t = k2 a t) → ∀ t, (m1 ≫= k1) t = (m2 ≫= k2) t.
Proof.
  intros Hm Hk t. unfold mbind, txn_bind. rewrite Hm. destruct (m2 t) as [[a|] t']; [apply Hk|done].
Qed.

Lemma transact_ext {A} db (m1 m2 : M A) :
  (∀ t, m1 t = m2 t) → transact db m1 = transact db m2.
Proof. intros Hm. unfold transact. destruct (begin_write db); [|done]. by rewrite Hm. Qed.

Lemma removals_ext read1 read2 keys :
  (∀ f t, read1 f t = read2 f t) →
  ∀ t, maintain_removals_with read1 keys t = maintain_removals_with read2 keys t.
Proof.
  intros Hr. unfold maintain_removals_with.
  do 3 (apply bind_ext; [done|intros ?]). do 2 (apply bind_ext; [apply Hr|intros ?]). done.
Qed.

Lemma pending_ext read1 read2 pending :
  (∀ f t, read1 f t = read2 f t) →
  ∀ t, write_pending_with read1 pending t = write_pending_with read2 pending t.
Proof.
  intros Hr. unfold write_pending_with.
  do 3 (apply bind_ext; [done|intros ?]). do 3 (apply bind_ext; [apply Hr|intros ?]). done.
Qed.

End proofs.

(** ** A [redb] of finite maps, for the witnesses

    [commits] says whether its commits succeed, [clears] whether emptying the
    index does. *)
Definition mem_redb_with (commits clears : bool) : Redb := {|
  Database := Tables; Txn := Tables;
  begin_read d := Some d; begin_write d := Some d;
  commit t d := if commits then Some t else None;
  open_table _ t := (Some (), t);
  cache_insert k v t := (Some (t_cache t !! k), set_cache (<[k:=v]> (t_cache t)) t);
  cache_remove k t := (Some (t_cache t !! k), set_cache (delete k (t_cache t)) t);
  cache_get k t := (Some (t_cache t !! k), t);
  cache_clear t := (Some (), set_cache ∅ t);
  cache_len t := (Some (N.of_nat (size (t_cache t))), t);
  cache_iter t := (Some (Some <$> map_to_list (t_cache t)), t);
  summary_get f t := (Some (t_summary t !! f), t);
  summary_insert f v t := (Some (), set_summary (<[f:=v]> (t_summary t)) t);
  index_insert p t := (Some (), set_index ({[p]} ∪ t_index t) t);
  index_remove p t := (Some (), set_index (t_index t ∖ {[p]}) t);
  index_clear t := if clears then (Some (), set_index ∅ t) else (None, t);
  index_iter t := (Some (Some <$> sort index_cmp (elements (t_index t))), t);
  meta_get k t := (Some (t_meta t !! k), t);
  meta_insert k v t := (Some (), set_meta (<[k:=v]> (t_meta t)) t);
  db_tables d := d; txn_tables t := t;
|}.

Lemma readable_all {A} (l : list A) : readable l (Some <$> l).
Proof. unfold readable. induction l; cbn; constructor; auto. Qed.

Lemma mem_redb_laws_with commits clears : @RedbLaws (mem_redb_with commits clears).
Proof.
  split; try (intros; intros t a t' HT E; cbn in HT, E; destruct clears; simplify_eq; done).
  - by intros ?? [= ->].
  - by intros ?? [= ->].
  - cbn. by intros ??? ?; destruct commits; simplify_eq.
  - cbn. by intros.
  - cbn. by intros.
  - cbn. by intros.
  - intros Q T HQ t a t' HT E. cbn in *. simplify_eq. eapply HQ; [done|apply readable_all].
  - intros Q T HQ t a t' HT E. cbn in *. simplify_eq. apply HQ, readable_all.
Qed.

Lemma mem_redb_summary_with commits clears : @SummaryReadsSucceed (mem_redb_with commits clears).
Proof. split. intros f t. by do 2 eexists. Qed.

Definition mem_redb (commits : bool) : Redb := mem_redb_with commits true.
Lemma mem_redb_laws commits : @RedbLaws (mem_redb commits).
Proof. apply mem_redb_laws_with. Qed.
Lemma mem_redb_summary commits : @SummaryReadsSucceed (mem_redb commits).
Proof. apply mem_redb_summary_with. Qed.
