(* ===== verification/Disk.v ===== *)
(** * The durable shard ([cache/disk.rs] 90-1240)

    A shard's database, its queue of inserts waiting for a batched commit, the
    clear generation that supersedes them, and opening, healing and recreating
    the database file. Operations are sequential: what the shard's locks
    serialise is one call here, with one reading [now] of the wall clock.
    Poisoned locks are not modelled; compaction is in Maintenance. *)
From S2P Require Import Prelude Recency Results Fingerprints CacheKeys CachedImports ShardTables.

Set Default Proof Using "Type*".

Definition FLUSH_RETRY_BACKOFF_millis : N := 30000.

(** [ShardRollup]. *)
Record ShardRollup := { total_bytes : N; oldest_seq : N; entry_count : N }.
Module ShardRollup.
Definition empty : ShardRollup := {| total_bytes := 0; oldest_seq := u64_max; entry_count := 0 |}.
End ShardRollup.

(** ** The queue of inserts *)

(** Queued bytes with the clear generation they were derived under. *)
Abbreviation queue := (gmap string (N * list ascii)).

(** The order of the pairs [(last_seq, key)] that [sort_unstable] uses. *)
Definition shed_cmp : N * string → N * string → comparison := index_cmp.

Section queue.
Context `{HO : HashOrder}.

Definition by_recency (pending : queue) : list (N * string) :=
  sort index_cmp ((λ '(key, (_, bs)), (decode_last_seq bs, key)) <$> hash_iter pending).

Definition shed_oldest_pending_inserts (pending : queue) : queue :=
  if decide (size pending ≤ MAX_PENDING_INSERTS) then pending
  else
    let excess := size pending - (MAX_PENDING_INSERTS - INSERT_FLUSH_BATCH) in
    foldl (λ p sk, delete sk.2 p) pending (take excess (by_recency pending)).

(** The entries a flush writes: those queued under the current generation. *)
Definition kept_inserts (generation : N) (pending : queue) : gmap string (list ascii) :=
  omap (λ e : N * list ascii, if decide (e.1 = generation) then Some e.2 else None) pending.
End queue.

(** [compare_recent_keys]: most recent first, ties by key. *)
Definition compare_recent_keys : string * N → string * N → comparison :=
  cmp_on (λ kn, (kn.2, kn.1)) (cmp_lex (cmp_rev N.compare) String.compare).
#[export] Instance compare_recent_keys_order : CmpOrder compare_recent_keys.
Proof. apply cmp_on_order; [by intros [] [] [=]; simplify_eq/=|apply _]. Qed.

(** The walk of [recent_keys], from the highest recency down; [acc] is the
    vector in reverse. *)
Fixpoint recent_loop (limit : nat) (rows : list (option (N * string))) (acc : list (string * N))
    : list (string * N) :=
  match rows with
  | [] => acc
  | None :: rest => recent_loop limit rest acc
  | Some (seq, key) :: rest =>
      let tied := match acc with (_, last) :: _ => bool_decide (last = seq) | [] => true end in
      if decide (limit ≤ length acc) then
        if tied then recent_loop limit rest ((key, seq) :: acc) else acc
      else recent_loop limit rest ((key, seq) :: acc)
  end.

(** ** The shard *)

Section disk.
Context `{R : Redb, HO : HashOrder, EC : EnvelopeCodec, CD : IdentityCodec,
          FS : FileSystem, CH : ContentHash}.
Context (ANALYZER_VERSION : string) (fs_symlink_metadata : string → option ErrorKind).

Record DiskCache := {
  d_db : option Database;
  d_pending : queue;
  d_clear_generation : N;
  d_last_access : N;
  d_flush_retry_after : N;
  d_storage_path : option string;
}.

Definition set_db (db : option Database) (c : DiskCache) : DiskCache :=
  {| d_db := db; d_pending := d_pending c; d_clear_generation := d_clear_generation c;
     d_last_access := d_last_access c; d_flush_retry_after := d_flush_retry_after c;
     d_storage_path := d_storage_path c |}.
Definition set_pending (p : queue) (c : DiskCache) : DiskCache :=
  {| d_db := d_db c; d_pending := p; d_clear_generation := d_clear_generation c;
     d_last_access := d_last_access c; d_flush_retry_after := d_flush_retry_after c;
     d_storage_path := d_storage_path c |}.
Definition set_clear_generation (g : N) (c : DiskCache) : DiskCache :=
  {| d_db := d_db c; d_pending := d_pending c; d_clear_generation := g;
     d_last_access := d_last_access c; d_flush_retry_after := d_flush_retry_after c;
     d_storage_path := d_storage_path c |}.
Definition stamp_access (now : N) (c : DiskCache) : DiskCache :=
  {| d_db := d_db c; d_pending := d_pending c; d_clear_generation := d_clear_generation c;
     d_last_access := now; d_flush_retry_after := d_flush_retry_after c;
     d_storage_path := d_storage_path c |}.
Definition set_retry_after (t : N) (c : DiskCache) : DiskCache :=
  {| d_db := d_db c; d_pending := d_pending c; d_clear_generation := d_clear_generation c;
     d_last_access := d_last_access c; d_flush_retry_after := t;
     d_storage_path := d_storage_path c |}.

Definition disabled : DiskCache :=
  {| d_db := None; d_pending := ∅; d_clear_generation := 0; d_last_access := 0;
     d_flush_retry_after := 0; d_storage_path := None |}.

Definition is_available (c : DiskCache) : bool := bool_decide (is_Some (d_db c)).
Definition clear_generation (c : DiskCache) : N := d_clear_generation c.

(** *** Inserting and flushing *)

Definition flush_pending_inserts (now : N) (c : DiskCache) : DiskCache :=
  match d_db c with
  | None => c
  | Some db =>
      if decide (d_pending c = ∅) then c
      else
        let pending := d_pending c in
        let c := set_pending ∅ c in
        let generation := clear_generation c in
        let kept := kept_inserts generation pending in
        if decide (kept = ∅) then c
        else
          match write_pending_inserts db kept with
          | (Some _, db') => set_retry_after 0 (set_db (Some db') c)
          | (None, db') =>
              let current := d_pending c ∪ ((λ bs, (generation, bs)) <$> kept) in
              set_pending (shed_oldest_pending_inserts current)
                (set_retry_after (sat_add now FLUSH_RETRY_BACKOFF_millis) (set_db (Some db') c))
          end
  end.

(** [false] is an [Err]. *)
Definition write_at_generation (now : N) (key : string) (cached : CachedImport) (generation : N)
    (c : DiskCache) : bool * DiskCache :=
  let c := stamp_access now c in
  let persisted := set_result (set_cache_hit false (c_result cached)) cached in
  match encode_cache_value ANALYZER_VERSION persisted with
  | None => (false, c)
  | Some bs =>
      let pending := shed_oldest_pending_inserts (<[key := (generation, bs)]> (d_pending c)) in
      let c := set_pending pending c in
      let should_flush := bool_decide (INSERT_FLUSH_BATCH ≤ size pending) &&
                          bool_decide (d_flush_retry_after c ≤ now)%N in
      (true, if should_flush then flush_pending_inserts now c else c)
  end.

Definition insert_at_generation (now : N) (key : string) (cached : CachedImport) (generation : N)
    (c : DiskCache) : bool * DiskCache :=
  if negb (is_available c) then (true, c)
  else if negb (storable cached) then (true, c)
  else write_at_generation now key cached generation c.

Definition insert (now : N) (key : string) (cached : CachedImport) (c : DiskCache)
    : bool * DiskCache := insert_at_generation now key cached (clear_generation c) c.

(** *** Removing *)

Definition with_db (c : DiskCache) (db' : Database) : DiskCache := set_db (Some db') c.

Definition remove (key : string) (c : DiskCache) : DiskCache :=
  let c := set_pending (delete key (d_pending c)) c in
  match d_db c with
  | None => c
  | Some db => with_db c (transact db (maintain_removals [key])).2
  end.

Definition remove_keys (keys : list string) (c : DiskCache) : N * DiskCache :=
  if decide (keys = []) then (0%N, c)
  else
    let c := set_pending (foldl (λ p k, delete k p) (d_pending c) keys) c in
    match d_db c with
    | None => (0%N, c)
    | Some db =>
        let '(freed, db') := transact db (maintain_removals keys) in
        (default 0%N freed, with_db c db')
    end.

(** The scan of the rows for the keys [p] holds of; what cannot be read is skipped. *)
Definition matching_keys (p : string → bool) : txn_op Txn (list string) := λ t,
  match (_ ← open_table CACHE_TABLE; cache_iter) t with
  | (Some rows, t') => (Some (filter (λ k, p k = true) (omap id rows).*1), t')
  | (None, t') => (Some [], t')
  end.

Definition invalidate_packages (names : gset string) (c : DiskCache) : DiskCache :=
  if decide (names = ∅) then c
  else
    let c := set_pending
      (filter (λ kv, cache_key_matches_any_package kv.1 names = false) (d_pending c)) c in
    match d_db c with
    | None => c
    | Some db =>
        with_db c (transact db
          (keys ← matching_keys (λ k, cache_key_matches_any_package k names);
           maintain_removals keys)).2
    end.

Definition is_orphan (current : string) (key : string) : bool :=
  cache_key_is_orphan fs_symlink_metadata key current.

(** The scan of a read transaction for the orphaned keys. *)
Definition orphan_keys (current : string) (db : Database) : list string :=
  match begin_read db with
  | Some t => default [] (matching_keys (is_orphan current) t).1
  | None => []
  end.

Definition purge_orphan_entries (current : string) (c : DiskCache) : nat * DiskCache :=
  match d_db c with
  | None => (0, c)
  | Some db =>
      let orphan_keys := orphan_keys current db in
      if decide (orphan_keys = []) then (0, c)
      else
        let '(done, db') := transact db (maintain_removals orphan_keys) in
        let removed := if done then length orphan_keys else 0 in
        (removed,
         set_pending (filter (λ kv, is_orphan current kv.1 = false) (d_pending c))
           (with_db c db'))
  end.

(** [let _ = op]: the transaction goes on whether or not the operation failed. *)
Definition ignoring {A} (m : txn_op Txn A) (t : Txn) : Txn := (m t).2.

Definition clear_tables (t : Txn) : Txn :=
  let t := match open_table CACHE_TABLE t with
           | (Some _, t) => ignoring cache_clear t | (None, t) => t end in
  let t := match open_table SEQ_INDEX_TABLE t with
           | (Some _, t) => ignoring index_clear t | (None, t) => t end in
  match open_table SUMMARY_TABLE t with
  | (Some _, t) =>
      ignoring (summary_insert SUMMARY_MAX_SEQ 0)
        (ignoring (summary_insert SUMMARY_ENTRY_COUNT 0)
          (ignoring (summary_insert SUMMARY_TOTAL_BYTES 0) t))
  | (None, t) => t
  end.

Definition clear (c : DiskCache) : DiskCache :=
  let c := set_clear_generation (wrap_add (d_clear_generation c) 1) c in
  let c :=
    match d_db c with
    | None => c
    | Some db =>
        match begin_write db with
        | None => c
        | Some t => match commit (clear_tables t) db with
                    | Some db' => with_db c db'
                    | None => c
                    end
        end
    end in
  set_pending ∅ c.

(** *** Reading *)

Definition pending_insert (clock : RecencyClock.clock) (key : string) (c : DiskCache)
    : option CachedImport * RecencyClock.clock :=
  match d_pending c !! key with
  | None => (None, clock)
  | Some (entry_generation, bs) =>
      if decide (entry_generation ≠ clear_generation c) then (None, clock)
      else decode_cached_result ANALYZER_VERSION clock bs
  end.

(** The row of [key] in a read transaction of its own. *)
Definition committed_row (key : string) (db : Database) : option (list ascii) :=
  t ← begin_read db;
  match (_ ← open_table CACHE_TABLE; cache_get key) t with
  | (Some row, _) => row
  | (None, _) => None
  end.

Definition read_committed (clock : RecencyClock.clock) (now : N) (key : string) (c : DiskCache)
    : option CachedImport * RecencyClock.clock * DiskCache :=
  match d_db c with
  | None => (None, clock, c)
  | Some db =>
      let c := stamp_access now c in
      match committed_row key db with
      | None => (None, clock, c)
      | Some bs =>
          match decode_cached_result ANALYZER_VERSION clock bs with
          | (None, clock) => (None, clock, remove key c)
          | (Some cached, clock) =>
              if negb (storable cached) then (None, clock, remove key c)
              else (Some cached, clock, c)
          end
      end
  end.

Definition get_entry (clock : RecencyClock.clock) (now : N) (key : string) (c : DiskCache)
    : option (CachedImport * Freshness) * RecencyClock.clock * DiskCache :=
  let '(cached, clock, c) :=
    match pending_insert clock key c with
    | (Some pending, clock) => (Some pending, clock, stamp_access now c)
    | (None, clock) => read_committed clock now key c
    end in
  match cached with
  | None => (None, clock, c)
  | Some cached =>
      let cached := set_first_party (cache_key_is_first_party key) cached in
      match check_fingerprints_strict (c_fingerprints cached) with
      | Stale | Gone => (None, clock, remove key c)
      | f => (Some (cached, f), clock, c)
      end
  end.

Definition recent_keys (now : N) (limit : nat) (c : DiskCache) : list string * DiskCache :=
  if decide (limit = 0) then ([], c)
  else
    let c := flush_pending_inserts now c in
    match d_db c ≫= begin_read with
    | None => ([], c)
    | Some t =>
        match (_ ← open_table SEQ_INDEX_TABLE; index_iter) t with
        | (Some rows, _) =>
            let keys := reverse (recent_loop limit (reverse rows) []) in
            ((take limit (sort compare_recent_keys keys)).*1, c)
        | (None, _) => ([], c)
        end
    end.

Fixpoint load_keys (clock : RecencyClock.clock) (now : N) (keys : list string) (c : DiskCache)
    : list (string * CachedImport) * RecencyClock.clock * DiskCache :=
  match keys with
  | [] => ([], clock, c)
  | key :: rest =>
      let '(entry, clock, c) := get_entry clock now key c in
      let '(loaded, clock, c) := load_keys clock now rest c in
      (match entry with Some (cached, _) => (key, cached) :: loaded | None => loaded end, clock, c)
  end.

Definition load_recent (clock : RecencyClock.clock) (now : N) (limit : nat) (c : DiskCache)
    : list (string * CachedImport) * RecencyClock.clock * DiskCache :=
  if decide (limit = 0) then ([], clock, c)
  else let '(keys, c) := recent_keys now limit c in load_keys clock now keys c.

(** The value of a read-only operation, when it did not fail. *)
Definition read_value {A} (m : txn_op Txn A) (t : Txn) : option A := (m t).1.

Definition shard_rollup (clock : RecencyClock.clock) (now : N) (c : DiskCache)
    : ShardRollup * RecencyClock.clock * DiskCache :=
  let c := flush_pending_inserts now c in
  match d_db c ≫= begin_read with
  | None => (ShardRollup.empty, clock, c)
  | Some t =>
      match read_value (_ ← open_table SUMMARY_TABLE;
                        total ← read_summary_field SUMMARY_TOTAL_BYTES;
                        count ← read_summary_field SUMMARY_ENTRY_COUNT;
                        max_seq ← read_summary_field SUMMARY_MAX_SEQ;
                        mret (total, count, max_seq)) t with
      | None => (ShardRollup.empty, clock, c)
      | Some (total, count, max_seq) =>
          let clock := RecencyClock.observe max_seq clock in
          if decide (count = 0%N) then (ShardRollup.empty, clock, c)
          else
            let oldest :=
              match read_value (_ ← open_table SEQ_INDEX_TABLE; index_iter) t with
              | Some (Some (seq, _) :: _) => seq
              | _ => u64_max
              end in
            ({| total_bytes := total; oldest_seq := oldest; entry_count := count |}, clock, c)
      end
  end.

Definition summary_max_seq (now : N) (c : DiskCache) : N * DiskCache :=
  let c := flush_pending_inserts now c in
  match d_db c ≫= begin_read with
  | None => (0%N, c)
  | Some t =>
      (default 0%N (read_value (_ ← open_table SUMMARY_TABLE;
                                read_summary_field SUMMARY_MAX_SEQ) t), c)
  end.

Definition lowest_seq_keys (now : N) (n : nat) (floor : N) (c : DiskCache)
    : list (string * N) * DiskCache :=
  if decide (n = 0) then ([], c)
  else
    let c := flush_pending_inserts now c in
    match d_db c ≫= begin_read with
    | None => ([], c)
    | Some t =>
        match read_value (_ ← open_table SUMMARY_TABLE; read_summary_field SUMMARY_ENTRY_COUNT) t with
        | None => ([], c)
        | Some count =>
            let wanted := Nat.min n (N.to_nat (sat_sub count floor)) in
            if decide (wanted = 0) then ([], c)
            else
              match read_value (_ ← open_table SEQ_INDEX_TABLE; index_iter) t with
              | None => ([], c)
              | Some rows => ((λ sk, (sk.2, sk.1)) <$> take wanted (omap id rows), c)
              end
        end
    end.

(** *** Opening the database file *)

Inductive StorageError :=
  | Corrupted | Io (kind : ErrorKind) | ValueTooLarge | PreviousIo | DatabaseClosed
  | LockPoisoned | OtherStorage.
Inductive DatabaseError :=
  | DatabaseAlreadyOpen | Storage (e : StorageError) | UpgradeRequired | RepairAborted
  | TransactionInProgress | OtherDatabaseError.

Definition is_corruption_error (e : DatabaseError) : bool :=
  match e with
  | Storage Corrupted => true
  | UpgradeRequired => true
  | RepairAborted => true
  | Storage (Io kind) => bool_decide (kind = InvalidData)
  | _ => false
  end.

Inductive SchemaError := Incompatible | Transient.

Definition ensure_schema (db : Database) (initialize_missing_schema : bool)
    : (unit + SchemaError) * Database :=
  match begin_write db with
  | None => (inr Transient, db)
  | Some t =>
      match (_ ← open_table METADATA_TABLE; meta_get SCHEMA_VERSION_KEY) t with
      | (None, _) => (inr Transient, db)
      | (Some current, t) =>
          let version :=
            match current with
            | Some value => (inl value, t)
            | None =>
                if initialize_missing_schema then
                  match meta_insert SCHEMA_VERSION_KEY CURRENT_SCHEMA_VERSION t with
                  | (Some _, t) => (inl CURRENT_SCHEMA_VERSION, t)
                  | (None, t) => (inr Transient, t)
                  end
                else (inr Incompatible, t)
            end in
          match version with
          | (inr e, _) => (inr e, db)
          | (inl v, t) =>
              if decide (v ≠ CURRENT_SCHEMA_VERSION) then (inr Incompatible, db)
              else
                match (_ ← open_table CACHE_TABLE; _ ← open_table SUMMARY_TABLE;
                       open_table SEQ_INDEX_TABLE) t with
                | (None, _) => (inr Transient, db)
                | (Some _, t) =>
                    match commit t db with
                    | Some db' => (inl (), db')
                    | None => (inr Transient, db)
                    end
                end
          end
      end
  end.

(** The directory and the database file of the shard, behind [std::fs] and
    [redb::Builder::create]. *)
Context {Files : Type}
  (create_dir_all : Files → option Files)
  (is_file exists_ : Files → bool)
  (create_database : Files → (Database + DatabaseError) * Files)
  (remove_file : Files → (unit + ErrorKind) * Files).

Definition recreate_database (fs : Files) : option Database * Files :=
  match remove_file fs with
  | (inr _, fs) => (None, fs)
  | (inl _, fs) =>
      match create_database fs with
      | (inr _, fs) => (None, fs)
      | (inl db, fs) =>
          match ensure_schema db true with
          | (inl _, db) => (Some db, fs)
          | (inr _, _) => (None, fs)
          end
      end
  end.

Definition open_database (create_missing : bool) (fs : Files) : option Database * Files :=
  let ready :=
    if negb create_missing then if is_file fs then Some fs else None
    else create_dir_all fs in
  match ready with
  | None => (None, fs)
  | Some fs =>
      let db_existed := exists_ fs in
      match create_database fs with
      | (inr DatabaseAlreadyOpen, fs) => (None, fs)
      | (inr e, fs) => if is_corruption_error e then recreate_database fs else (None, fs)
      | (inl db, fs) =>
          match ensure_schema db (negb db_existed) with
          | (inl _, db) => (Some (heal_summary_if_inconsistent db), fs)
          | (inr Incompatible, _) => recreate_database fs
          | (inr Transient, _) => (None, fs)
          end
      end
  end.

Definition open_ (storage_path : option string) (enabled create_missing : bool) (fs : Files)
    : DiskCache * Files :=
  if negb enabled then (disabled, fs)
  else
    match storage_path with
    | None => (disabled, fs)
    | Some path =>
        let '(db, fs) := open_database create_missing fs in
        ({| d_db := db; d_pending := ∅; d_clear_generation := 0; d_last_access := 0;
            d_flush_retry_after := 0; d_storage_path := Some path |}, fs)
    end.

Definition reopen_if_unavailable (c : DiskCache) (fs : Files) : bool * DiskCache * Files :=
  if is_available c then (true, c, fs)
  else
    match d_storage_path c with
    | None => (false, c, fs)
    | Some _ =>
        match open_database true fs with
        | (None, fs) => (false, c, fs)
        | (Some opened, fs) =>
            (true, match d_db c with None => set_db (Some opened) c | Some _ => c end, fs)
        end
    end.
End disk.

(** ** The queue *)

Lemma lookup_delete_fold {A B} (f : A → string) (l : list A) (p : gmap string B) k v :
  foldl (λ p a, delete (f a) p) p l !! k = Some v ↔ p !! k = Some v ∧ Forall (λ a, f a ≠ k) l.
Proof.
  revert p. induction l as [|a l IH]; intros p; cbn; [rewrite Forall_nil; tauto|].
  rewrite IH, lookup_delete_Some, Forall_cons. tauto.
Qed.

Lemma shed_lookup `{HO : HashOrder} (p : queue) k e :
  shed_oldest_pending_inserts p !! k = Some e → p !! k = Some e.
Proof. unfold shed_oldest_pending_inserts. case_decide; [done|]. by rewrite lookup_delete_fold; intros []. Qed.

Lemma kept_lookup g (p : queue) k bs :
  kept_inserts g p !! k = Some bs ↔ p !! k = Some (g, bs).
Proof.
  unfold kept_inserts. rewrite lookup_omap_Some. split.
  - intros ([g' bs'] & Hd & Hp). cbn in Hd. case_decide; simplify_eq. done.
  - intros Hp. exists (g, bs). cbn. by rewrite decide_True.
Qed.

(** ** Histories of operations *)

Section histories.
Context `{R : Redb, HO : HashOrder, EC : EnvelopeCodec, CD : IdentityCodec,
          FS : FileSystem, CH : ContentHash}.
Context (ANALYZER_VERSION : string) (fs_symlink_metadata : string → option ErrorKind).

Notation DiskCache := (@DiskCache R).

Inductive disk_op :=
  | OInsert (now : N) (key : string) (cached : CachedImport) (generation : N)
  | OFlush (now : N)
  | OGet (clock now : N) (key : string)
  | ORemove (key : string)
  | ORemoveKeys (keys : list string)
  | OInvalidate (names : gset string)
  | OPurge (current : string)
  | OClear.

Definition run_op (op : disk_op) (c : DiskCache) : DiskCache :=
  match op with
  | OInsert now key cached g => (insert_at_generation ANALYZER_VERSION now key cached g c).2
  | OFlush now => flush_pending_inserts now c
  | OGet clock now key => (get_entry ANALYZER_VERSION clock now key c).2
  | ORemove key => remove key c
  | ORemoveKeys keys => (remove_keys keys c).2
  | OInvalidate names => invalidate_packages names c
  | OPurge current => (purge_orphan_entries fs_symlink_metadata current c).2
  | OClear => clear c
  end.
Definition run_ops (ops : list disk_op) (c : DiskCache) : DiskCache :=
  foldl (λ c op, run_op op c) c ops.

(** *** Failures that are swallowed

    A failed summary read becomes a zero, and a clear ignores the failure of
    its steps; both transactions go on to commit. An operation is lossless where
    they do not: its transaction ends as it would if such a failure ended it. *)
Definition clear_strict : txn_op Txn unit :=
  _ ← open_table CACHE_TABLE; _ ← cache_clear;
  _ ← open_table SEQ_INDEX_TABLE; _ ← index_clear;
  _ ← open_table SUMMARY_TABLE;
  _ ← summary_insert SUMMARY_TOTAL_BYTES 0;
  _ ← summary_insert SUMMARY_ENTRY_COUNT 0;
  summary_insert SUMMARY_MAX_SEQ 0.

Definition clear_loses_no_step (db : Database) : Prop :=
  ∀ t db', begin_write db = Some t → commit (clear_tables t) db = Some db' →
    ∃ t', clear_strict t = (Some (), t').

Definition removal_with (read : string → txn_op Txn N) (names : gset string) : txn_op Txn N :=
  keys ← matching_keys (λ k, cache_key_matches_any_package k names);
  maintain_removals_with read keys.

Definition lossless (op : disk_op) (c : DiskCache) : Prop :=
  ∀ db, d_db c = Some db →
  match op with
  | OInsert _ _ _ _ => ∀ pending, loses_no_read db (λ read, write_pending_with read pending)
  | OFlush _ => loses_no_read db
      (λ read, write_pending_with read (kept_inserts (d_clear_generation c) (d_pending c)))
  | OGet _ _ key | ORemove key => loses_no_read db (λ read, maintain_removals_with read [key])
  | ORemoveKeys keys => loses_no_read db (λ read, maintain_removals_with read keys)
  | OInvalidate names => loses_no_read db (λ read, removal_with read names)
  | OPurge current => loses_no_read db
      (λ read, maintain_removals_with read (orphan_keys fs_symlink_metadata current db))
  | OClear => clear_loses_no_step db
  end.

Fixpoint lossless_run (ops : list disk_op) (c : DiskCache) : Prop :=
  match ops with
  | [] => True
  | op :: rest => lossless op c ∧ lossless_run rest (run_op op c)
  end.

(** ** The accounting invariant *)

(** A predicate on the tables of a shard whose database is open. *)
Definition on_db (P : Tables → Prop) (c : DiskCache) : Prop :=
  ∀ db, d_db c = Some db → P (db_tables db).

Lemma flush_pending_subset now c : d_pending (flush_pending_inserts now c) ⊆ d_pending c.
Proof.
  unfold flush_pending_inserts. destruct (d_db c) as [db|]; [|done].
  case_decide; [done|]. cbn. case_decide; cbn; [apply map_empty_subseteq|].
  destruct (write_pending_inserts _ _) as [[u|] db']; cbn; [apply map_empty_subseteq|].
  apply map_subseteq_spec. intros k [g bs] Hs%shed_lookup.
  apply lookup_union_Some_raw in Hs as [Hs|[_ Hs]]; [by apply lookup_empty_Some in Hs|].
  apply lookup_fmap_Some in Hs as (bs' & [= <- <-] & Hbs). by apply kept_lookup.
Qed.

Context `{RL : !RedbLaws}.

Lemma transact_preserves {A} (P : Tables → Prop) db (body : txn_op Txn A) :
  wp body (λ _ T, P T) (db_tables db) → P (db_tables db) → P (db_tables (transact db body).2).
Proof.
  intros Hw HP. pose proof (transact_spec db body _ Hw) as Ht.
  by destruct (transact db body) as [[a|] db']; cbn in *; [|subst].
Qed.

Lemma wp_matching_keys p (Q : list string → Tables → Prop) T :
  (∀ keys, Q keys T) → wp (matching_keys p) Q T.
Proof.
  intros HQ t a t' HT. unfold matching_keys, mbind, txn_bind.
  destruct (open_table CACHE_TABLE t) as [[[]|] t1] eqn:Eo.
  - assert (txn_tables t1 = T) as HT1.
    { eapply (wp_open_table _ (λ _ T', T' = T)); eauto. }
    destruct (cache_iter t1) as [[rows|] t2] eqn:Ei; intros [= <- <-].
    + assert (txn_tables t2 = T) as ->; [|done].
      eapply (wp_cache_iter (λ _ T', T' = T)); eauto.
    + rewrite (cache_iter_fails _ _ Ei), HT1. done.
  - intros [= <- <-]. rewrite (open_table_fails _ _ _ Eo), HT. done.
Qed.

Lemma delete_all_subseteq keys m : delete_all keys m ⊆ m.
Proof.
  apply map_subseteq_spec. intros k v. rewrite lookup_delete_all. by case_decide.
Qed.

(** What a transaction does to the database: rows only disappear, or the
    accounting stays exact. *)
Definition rows_shrink (db db' : Database) : Prop :=
  t_cache (db_tables db') ⊆ t_cache (db_tables db).
Definition exact_still (db db' : Database) : Prop :=
  consistent (db_tables db) → consistent (db_tables db').

#[export] Instance rows_shrink_preorder : PreOrder rows_shrink.
Proof. unfold rows_shrink. split; [by intros ?|]. intros a b c ??. by etrans. Qed.
#[export] Instance exact_still_preorder : PreOrder exact_still.
Proof. unfold exact_still. split; [by intros ?|]. intros a b c ??. auto. Qed.

Lemma rows_shrink_transact {A} db (body : txn_op Txn A) :
  (∀ T, wp body (λ _ T', t_cache T' ⊆ t_cache T) T) → rows_shrink db (transact db body).2.
Proof. intros Hw. by apply (transact_preserves (λ T, t_cache T ⊆ t_cache (db_tables db))). Qed.

Lemma wp_removal_rows keys T :
  wp (maintain_removals keys) (λ _ T', t_cache T' ⊆ t_cache T) T.
Proof.
  eapply wp_mono; [|apply wp_maintain_removals_rows]. intros _ T' (-> & _).
  apply delete_all_subseteq.
Qed.

Lemma rows_shrink_removal db keys : rows_shrink db (transact db (maintain_removals keys)).2.
Proof. apply rows_shrink_transact. intros T. apply wp_removal_rows. Qed.

Lemma rows_shrink_scan db names :
  rows_shrink db (transact db (removal_with read_summary_field names)).2.
Proof.
  apply rows_shrink_transact. intros T. apply wp_bind, wp_matching_keys. intros keys.
  apply wp_removal_rows.
Qed.

Lemma exact_transact {A} db (body : (string → txn_op Txn N) → txn_op Txn A) :
  loses_no_read db body →
  (∀ read T, reads_fields read → consistent T → wp (body read) (λ _ T', consistent T') T) →
  exact_still db (transact db (body read_summary_field)).2.
Proof.
  intros Hl Hw Hc. pose proof (lossless_spec db body (λ _, consistent) Hl) as Hs.
  destruct (transact db (body read_summary_field)) as [[a|] db']; cbn in *; [|rewrite Hs]; auto.
Qed.

Lemma wp_removal_exact read keys T : reads_fields read → consistent T →
  wp (maintain_removals_with read keys) (λ _ T', consistent T') T.
Proof.
  intros Hr HT. eapply wp_mono; [|by apply wp_maintain_removals_with]. by intros f T' (? & _).
Qed.

Lemma exact_removal db keys :
  loses_no_read db (λ read, maintain_removals_with read keys) →
  exact_still db (transact db (maintain_removals keys)).2.
Proof. intros Hl. apply (exact_transact _ _ Hl). intros *. apply wp_removal_exact. Qed.

Lemma exact_scan db names :
  loses_no_read db (λ read, removal_with read names) →
  exact_still db (transact db (removal_with read_summary_field names)).2.
Proof.
  intros Hl. apply (exact_transact _ _ Hl). intros read T Hr HT.
  apply wp_bind, wp_matching_keys. intros keys. by apply wp_removal_exact.
Qed.

(** What an operation that only removes does: the generation stays, queued
    inserts only disappear, and the database takes the steps of [P]. *)
Record shrinks_by (P : Database → Database → Prop) (c c' : DiskCache) : Prop := {
  shrinks_generation : d_clear_generation c' = d_clear_generation c;
  shrinks_pending : d_pending c' ⊆ d_pending c;
  shrinks_closed : d_db c = None → d_db c' = None;
  shrinks_db : ∀ db', d_db c' = Some db' → ∃ db, d_db c = Some db ∧ P db db';
}.

Section shrinking.
Context (P : Database → Database → Prop) `{PO : !PreOrder P}.

#[export] Instance shrinks_preorder : PreOrder (shrinks_by P).
Proof.
  split; [intros c; split; eauto|].
  { intros db Hdb. exists db. by split. }
  intros a b c [g1 p1 n1 r1] [g2 p2 n2 r2]. split; [congruence|by etrans|auto|].
  intros dc Hdc. destruct (r2 _ Hdc) as (db & Hdb & H2). destruct (r1 _ Hdb) as (da & Hda & H1).
  exists da. split; [done|]. by etrans.
Qed.

Lemma shrinks_transact {A} c db p (body : txn_op Txn A) :
  d_db c = Some db → p ⊆ d_pending c → P db (transact db body).2 →
  shrinks_by P c (with_db (set_pending p c) (transact db body).2).
Proof. intros Hdb Hp Hb. split; cbn; [done..|congruence|]. intros db' [= <-]. eauto. Qed.

Lemma shrinks_pending_only c p : p ⊆ d_pending c → shrinks_by P c (set_pending p c).
Proof. intros Hp. split; cbn; [done..|]. intros db Hdb. exists db. by split. Qed.

Lemma shrinks_stamp now c : shrinks_by P c (stamp_access now c).
Proof. split; cbn; [done..|]. intros db Hdb. exists db. by split. Qed.

Definition removing (keys : list string) (c : DiskCache) : Prop :=
  ∀ db, d_db c = Some db → P db (transact db (maintain_removals keys)).2.

Lemma shrinks_by_remove key c : removing [key] c → shrinks_by P c (remove key c).
Proof.
  intros HP. unfold remove. cbn. destruct (d_db c) as [db|] eqn:Hdb.
  - apply (shrinks_transact c db); [done|apply delete_subseteq|by apply HP].
  - apply shrinks_pending_only, delete_subseteq.
Qed.

Lemma shrinks_by_remove_keys keys c : removing keys c → shrinks_by P c (remove_keys keys c).2.
Proof.
  intros HP. unfold remove_keys. case_decide; [done|]. cbn.
  assert (foldl (λ p k, delete k p) (d_pending c) keys ⊆ d_pending c) as Hp.
  { apply map_subseteq_spec. intros k v. rewrite lookup_delete_fold. by intros []. }
  destruct (d_db c) as [db|] eqn:Hdb; [|by apply shrinks_pending_only].
  pose proof (shrinks_transact c db _ (maintain_removals keys) Hdb Hp (HP _ Hdb)) as H'.
  by destruct (transact db (maintain_removals keys)) as [f db'].
Qed.

Lemma shrinks_by_invalidate names c :
  (∀ db, d_db c = Some db → P db (transact db (removal_with read_summary_field names)).2) →
  shrinks_by P c (invalidate_packages names c).
Proof.
  intros HP. unfold invalidate_packages. case_decide; [done|]. cbn.
  destruct (d_db c) as [db|] eqn:Hdb.
  - apply (shrinks_transact c db); [done|apply map_filter_subseteq|by apply HP].
  - apply shrinks_pending_only, map_filter_subseteq.
Qed.

Lemma shrinks_by_purge current c :
  (∀ db, d_db c = Some db →
     P db (transact db (maintain_removals (orphan_keys fs_symlink_metadata current db))).2) →
  shrinks_by P c (purge_orphan_entries fs_symlink_metadata current c).2.
Proof.
  intros HP. unfold purge_orphan_entries. destruct (d_db c) as [db|] eqn:Hdb; [|done].
  cbn zeta. set (keys := orphan_keys _ _ _) in *. case_decide; [done|].
  pose proof (shrinks_transact c db _ (maintain_removals keys) Hdb
    (map_filter_subseteq (λ kv, is_orphan fs_symlink_metadata current kv.1 = false) (d_pending c))
    (HP _ eq_refl)) as H'.
  by destruct (transact db (maintain_removals keys)) as [[n|] db'].
Qed.

Lemma shrinks_by_get clock now key c :
  removing [key] c → shrinks_by P c (get_entry ANALYZER_VERSION clock now key c).2.
Proof.
  intros HP. unfold get_entry.
  destruct (match pending_insert ANALYZER_VERSION clock key c with
            | (Some pending, clock) => (Some pending, clock, stamp_access now c)
            | (None, clock) => read_committed ANALYZER_VERSION clock now key c
            end) as [[cached clock'] c'] eqn:E.
  assert (shrinks_by P c c' ∧ (is_Some cached → d_db c' = d_db c)) as [Hc' Hdb].
  { destruct (pending_insert ANALYZER_VERSION clock key c) as [[p|] clk];
      simplify_eq; [by split; [apply shrinks_stamp|]|].
    unfold read_committed in E. destruct (d_db c) as [db|] eqn:Hd; [|by simplify_eq].
    assert (shrinks_by P c (remove key (stamp_access now c))) as Hr.
    { etrans; [apply (shrinks_stamp now)|]. apply shrinks_by_remove.
      intros db2 Hdb2. apply HP. cbn in Hdb2. congruence. }
    destruct (committed_row key db) as [bs|];
      [|simplify_eq; split; [apply shrinks_stamp|by intros []]].
    destruct (decode_cached_result ANALYZER_VERSION clk bs) as [[d|] clk'];
      [|simplify_eq; split; [exact Hr|by intros []]].
    destruct (storable d); simplify_eq/=; (split; [|by intros []]);
      [apply shrinks_stamp|exact Hr]. }
  destruct cached as [cached|]; [|done]. specialize (Hdb (mk_is_Some _ _ eq_refl)).
  destruct (check_fingerprints_strict _); [done| | |done]; cbn;
    (etrans; [exact Hc'|apply shrinks_by_remove; intros db Hd; apply HP; congruence]).
Qed.
End shrinking.

(** The queue and the rows, whether or not anything was lost. *)
Abbreviation shrinks := (shrinks_by rows_shrink).

Lemma removing_rows keys c : removing rows_shrink keys c.
Proof. intros db _. apply rows_shrink_removal. Qed.

Lemma shrinks_remove key c : shrinks c (remove key c).
Proof. apply shrinks_by_remove; [apply _|]. apply removing_rows. Qed.
Lemma shrinks_remove_keys keys c : shrinks c (remove_keys keys c).2.
Proof. apply shrinks_by_remove_keys; [apply _|]. apply removing_rows. Qed.
Lemma shrinks_invalidate names c : shrinks c (invalidate_packages names c).
Proof. apply shrinks_by_invalidate; [apply _|]. intros db _. apply rows_shrink_scan. Qed.
Lemma shrinks_purge current c : shrinks c (purge_orphan_entries fs_symlink_metadata current c).2.
Proof. apply shrinks_by_purge; [apply _|]. intros db _. apply rows_shrink_removal. Qed.
Lemma shrinks_get clock now key c : shrinks c (get_entry ANALYZER_VERSION clock now key c).2.
Proof. apply shrinks_by_get; [apply _|]. apply removing_rows. Qed.

(** *** Flushing *)

(** What a flush leaves, where a write that commits leaves the rows it wrote
    and tables that satisfy [Q]. *)
Lemma flush_leaves (Q : Tables → Prop) now c db :
  let kept := kept_inserts (d_clear_generation c) (d_pending c) in
  d_db c = Some db → Q (db_tables db) →
  match transact db (write_pending_txn kept) with
  | (Some _, db') => Q (db_tables db') ∧ t_cache (db_tables db') = kept ∪ t_cache (db_tables db)
  | (None, db') => db' = db
  end →
  let c' := flush_pending_inserts now c in
  ∃ db', d_db c' = Some db' ∧ Q (db_tables db') ∧
    d_clear_generation c' = d_clear_generation c ∧
    (t_cache (db_tables db') = kept ∪ t_cache (db_tables db) ∧ d_pending c' = ∅
     ∨ db' = db ∧ d_pending c' ⊆ d_pending c).
Proof.
  intros kept Hdb Hc Ht. cbn zeta. unfold flush_pending_inserts. rewrite Hdb.
  case_decide as Hp; [exists db; split_and!; auto|]. cbn.
  unfold clear_generation. cbn. fold kept. case_decide as Hk.
  { exists db. split_and!; [done..|left]. cbn. by rewrite Hk, map_empty_union. }
  unfold write_pending_inserts.
  destruct (transact db (write_pending_txn kept)) as [[u|] db']; cbn.
  - destruct Ht as (? & Hrows). exists db'. split_and!; [done..|by left].
  - subst db'. exists db. split_and!; [done..|right]. split; [done|].
    apply map_subseteq_spec. intros k [g bs] Hs%shed_lookup.
    apply lookup_union_Some_raw in Hs as [Hs|[_ Hs]]; [by apply lookup_empty_Some in Hs|].
    apply lookup_fmap_Some in Hs as (bs' & [= <- <-] & Hbs). by apply kept_lookup.
Qed.

(** The rows of a flush, whether or not a read was lost. *)
Lemma flush_rows now c db :
  d_db c = Some db →
  let c' := flush_pending_inserts now c in
  ∃ db', d_db c' = Some db' ∧ d_clear_generation c' = d_clear_generation c ∧
    (t_cache (db_tables db') =
       kept_inserts (d_clear_generation c) (d_pending c) ∪ t_cache (db_tables db) ∧
     d_pending c' = ∅
     ∨ db' = db ∧ d_pending c' ⊆ d_pending c).
Proof.
  intros Hdb. destruct (flush_leaves (λ _, True) now c db Hdb I) as (db' & ? & _ & ?); [|eauto].
  pose proof (transact_spec db _ _ (wp_write_pending_rows
    (kept_inserts (d_clear_generation c) (d_pending c)) (db_tables db))) as Ht.
  destruct (transact db (write_pending_txn _)) as [[u|] db']; [|done]. by destruct Ht.
Qed.

Lemma flush_spec now c db :
  d_db c = Some db → consistent (db_tables db) →
  loses_no_read db
    (λ read, write_pending_with read (kept_inserts (d_clear_generation c) (d_pending c))) →
  ∃ db', d_db (flush_pending_inserts now c) = Some db' ∧ consistent (db_tables db').
Proof.
  intros Hdb Hc Hl. destruct (flush_leaves consistent now c db Hdb Hc) as (db' & ? & ? & _); [|eauto].
  pose proof (lossless_spec db _ _ Hl (λ read Hr, wp_write_pending_with read Hr _ _ Hc)) as Ht.
  unfold write_pending_txn. destruct (transact db _) as [[u|] db']; [|done]. by destruct Ht as (? & ? & _).
Qed.

Lemma flush_closed now c : d_db c = None → flush_pending_inserts now c = c.
Proof. intros H. unfold flush_pending_inserts. by rewrite H. Qed.

(** *** Clearing *)

Definition cleared (T : Tables) : Prop := t_cache T = ∅ ∧ consistent T.

Lemma wp_clear_strict T : wp clear_strict (λ _, cleared) T.
Proof.
  unfold clear_strict.
  apply wp_bind, wp_open_table, wp_bind, wp_cache_clear, wp_bind, wp_open_table, wp_bind,
    wp_index_clear, wp_bind, wp_open_table, wp_bind, wp_summary_insert, wp_bind, wp_summary_insert,
    wp_summary_insert.
  split; [done|]. unfold consistent. rewrite !field_insert. cbn. split_and!; [split|done..]; cbn.
  - intros s k. cbn. split; [set_solver|]. intros (bs & Hbs & _). by rewrite lookup_empty in Hbs.
  - reflexivity.
  - reflexivity.
  - intros k bs Hbs. cbn in Hbs. by rewrite lookup_empty in Hbs.
Qed.

(** A clear that lost no step did what its steps do. *)
Lemma clear_strict_tables t t' : clear_strict t = (Some (), t') → clear_tables t = t'.
Proof.
  unfold clear_strict, clear_tables, ignoring, mbind, txn_bind.
  destruct (open_table CACHE_TABLE t) as [[[]|] t1]; [|done].
  destruct (cache_clear t1) as [[[]|] t2]; [|done]. cbn [snd].
  destruct (open_table SEQ_INDEX_TABLE t2) as [[[]|] t3]; [|done].
  destruct (index_clear t3) as [[[]|] t4]; [|done]. cbn [snd].
  destruct (open_table SUMMARY_TABLE t4) as [[[]|] t5]; [|done].
  destruct (summary_insert SUMMARY_TOTAL_BYTES 0 t5) as [[[]|] t6]; [|done]. cbn [snd].
  destruct (summary_insert SUMMARY_ENTRY_COUNT 0 t6) as [[[]|] t7]; [|done]. cbn [snd].
  by intros ->.
Qed.

Lemma clear_exact db t db' :
  clear_loses_no_step db → begin_write db = Some t → commit (clear_tables t) db = Some db' →
  cleared (db_tables db').
Proof.
  intros Hl Hb Hcm. destruct (Hl _ _ Hb Hcm) as [t' Hs]. rewrite (commit_tables _ _ _ Hcm).
  rewrite (clear_strict_tables _ _ Hs). by eapply wp_clear_strict.
Qed.

Lemma clear_spec c :
  d_pending (clear c) = ∅ ∧
  d_clear_generation (clear c) = wrap_add (d_clear_generation c) 1.
Proof. unfold clear. cbn. split; [done|]. by repeat case_match. Qed.

Lemma clear_consistent c : lossless OClear c → on_db consistent c → on_db consistent (clear c).
Proof.
  intros Hl Hc db'. unfold clear. cbn. destruct (d_db c) as [db|] eqn:Hdb; [|cbn; congruence].
  destruct (begin_write db) as [t|] eqn:Et; [|cbn; rewrite Hdb; intros [= <-]; by apply Hc].
  destruct (commit (clear_tables t) db) as [db2|] eqn:Ec;
    [|cbn; rewrite Hdb; intros [= <-]; by apply Hc].
  intros [= <-]. by eapply clear_exact; [apply Hl|..].
Qed.

(** *** The two histories *)

Lemma insert_cases now key cached g c :
  let c' := (insert_at_generation ANALYZER_VERSION now key cached g c).2 in
  d_db c' = d_db c ∧ shrinks c c' ∨
  storable cached = true ∧
  ∃ bs p, encode_cache_value ANALYZER_VERSION
            (set_result (set_cache_hit false (c_result cached)) cached) = Some bs ∧
    p ⊆ <[key := (g, bs)]> (d_pending c) ∧
    let q := set_pending p (stamp_access now c) in
    (c' = q ∨ c' = flush_pending_inserts now q).
Proof.
  cbn zeta. unfold insert_at_generation. destruct (is_available c); [|by left].
  destruct (storable cached); [|by left]. cbn. unfold write_at_generation.
  destruct (encode_cache_value _ _) as [bs|]; [|left; split; [done|]; by apply shrinks_stamp, _].
  right. split; [done|]. exists bs. eexists. split_and!; [done| |].
  - apply map_subseteq_spec. intros k e. apply shed_lookup.
  - cbn. case_match; auto.
Qed.

Lemma exact_shrinks c c' : shrinks_by exact_still c c' → on_db consistent c → on_db consistent c'.
Proof.
  intros Hs Hc db' Hdb'. destruct (shrinks_db _ _ _ Hs _ Hdb') as (db & Hdb & Himp).
  by apply Himp, Hc.
Qed.

Lemma exact_flush now c :
  lossless (OFlush now) c → on_db consistent c → on_db consistent (flush_pending_inserts now c).
Proof.
  intros Hl Hc db' Hdb'. destruct (d_db c) as [db|] eqn:Hdb.
  - destruct (flush_spec now c db Hdb (Hc _ Hdb) (Hl _ Hdb)) as (db2 & E & ?). congruence.
  - rewrite flush_closed in Hdb' by done. congruence.
Qed.

Lemma exact_op op c : lossless op c → on_db consistent c → on_db consistent (run_op op c).
Proof.
  intros Hl Hc. destruct op as [now key cached g|now|clock now key|key|keys|names|current|]; cbn.
  - destruct (insert_cases now key cached g c) as [[Hd _]|(_ & bs & p & _ & _ & [->| ->])].
    + intros db. rewrite Hd. apply Hc.
    + exact Hc.
    + apply exact_flush; [|exact Hc]. intros db Hdb. apply (Hl db Hdb).
  - by apply exact_flush.
  - apply (exact_shrinks c); [|done]. apply shrinks_by_get; [apply _|].
    intros db Hdb. by apply exact_removal, Hl.
  - apply (exact_shrinks c); [|done]. apply shrinks_by_remove; [apply _|].
    intros db Hdb. by apply exact_removal, Hl.
  - apply (exact_shrinks c); [|done]. apply shrinks_by_remove_keys; [apply _|].
    intros db Hdb. by apply exact_removal, Hl.
  - apply (exact_shrinks c); [|done]. apply shrinks_by_invalidate; [apply _|].
    intros db Hdb. by apply exact_scan, Hl.
  - apply (exact_shrinks c); [|done]. apply shrinks_by_purge; [apply _|].
    intros db Hdb. by apply exact_removal, Hl.
  - by apply clear_consistent.
Qed.

(** C1. The O(1) accounting stays exact as long as no transaction commits past a
    failure it swallowed. Whatever operations a shard goes through, in whatever
    order, and whichever of their transactions fail or are not committed, if no
    operation of the history commits after a summary read it took for zero or a
    clear step it ignored ([lossless], judged where the operation runs), then the
    summary and the recency index remain what a full scan of the rows would
    compute: total bytes and entry count (as 64-bit counters), a recency mark no
    row exceeds, and one index entry per row. The condition cannot be dropped:
    [clear_commits_a_failed_step]. *)
Theorem accounting_stays_exact ops c :
  lossless_run ops c → on_db consistent c → on_db consistent (run_ops ops c).
Proof.
  revert c. induction ops as [|op ops IH]; intros c; [done|]. intros [Hl Hrest] Hc.
  by apply IH, exact_op.
Qed.

(** Where every row and every queued insert of the current generation of [c]
    came from. *)
Record origin (P : string → N → list ascii → Prop) (c : DiskCache) : Prop := {
  origin_pending : ∀ k g bs, d_pending c !! k = Some (g, bs) → P k g bs;
  origin_rows : on_db (λ T, ∀ k bs, t_cache T !! k = Some bs → P k (d_clear_generation c) bs) c;
}.

Lemma origin_shrinks P c c' : origin P c → shrinks c c' → origin P c'.
Proof.
  intros [Hp Hr] [Hg Hsub _ Hrows]. split.
  - intros k g bs Hk. apply Hp. by eapply lookup_weaken.
  - intros db' Hdb' k bs Hk. destruct (Hrows _ Hdb') as (db & Hdb & Hrs).
    rewrite Hg. eapply (Hr _ Hdb), lookup_weaken; done.
Qed.

Lemma origin_flush P now c : origin P c → origin P (flush_pending_inserts now c).
Proof.
  intros Ho. destruct (d_db c) as [db|] eqn:Hdb; [|by rewrite flush_closed].
  destruct Ho as [Hp Hr].
  destruct (flush_rows now c db Hdb) as (db' & Hdb' & Hg & Hcase). split.
  - intros k g bs Hk. apply Hp. destruct Hcase as [[_ He]|[_ Hsub]].
    + rewrite He in Hk. by apply lookup_empty_Some in Hk.
    + by eapply lookup_weaken.
  - intros d Hd k bs Hk. assert (d = db') as -> by congruence. rewrite Hg.
    destruct Hcase as [[Hrows _]|[-> _]]; [|by eapply (Hr _ Hdb)].
    rewrite Hrows in Hk. apply lookup_union_Some_raw in Hk as [Hk|[_ Hk]].
    + by apply Hp, kept_lookup.
    + by eapply (Hr _ Hdb).
Qed.

Lemma origin_queue P p c : origin P c →
  (∀ k g bs, p !! k = Some (g, bs) → P k g bs) → origin P (set_pending p c).
Proof. intros [Hp Hr] Hnew. by split. Qed.

(** The inserts of a history. *)
Definition inserted (ops : list disk_op) (k : string) (g : N) (bs : list ascii) : Prop :=
  ∃ now cached, OInsert now k cached g ∈ ops ∧ storable cached = true ∧
    encode_cache_value ANALYZER_VERSION
      (set_result (set_cache_hit false (c_result cached)) cached) = Some bs.

Lemma origin_run (P : string → N → list ascii → Prop) ops c :
  (∀ k g bs, inserted ops k g bs → P k g bs) → OClear ∉ ops →
  origin P c → origin P (run_ops ops c) ∧ d_clear_generation (run_ops ops c) = d_clear_generation c.
Proof.
  revert c. induction ops as [|op ops IH]; intros c HP Hno Ho; [done|].
  assert (origin P (run_op op c) ∧ d_clear_generation (run_op op c) = d_clear_generation c)
    as [Ho' Hg'].
  { assert (shrink : ∀ c', shrinks c c' →
      origin P c' ∧ d_clear_generation c' = d_clear_generation c).
    { intros c' Hs. split; [by eapply origin_shrinks|apply Hs]. }
    assert (flush_gen : ∀ now c', d_clear_generation (flush_pending_inserts now c') =
                          d_clear_generation c').
    { intros now c'. unfold flush_pending_inserts, write_pending_inserts.
      repeat (case_match; try done). }
    destruct op as [now key cached g|now|clock now key|key|keys|names|current|]; cbn.
    - destruct (insert_cases now key cached g c) as [[_ ?]|(Hst & bs & p & He & Hsub & Hcase)];
        [by apply shrink|].
      assert (origin P (set_pending p (stamp_access now c))) as Hq.
      { apply origin_queue; [by eapply origin_shrinks, shrinks_stamp, _|].
        intros k g' bs' Hk. eapply lookup_weaken in Hk; [|exact Hsub].
        destruct (decide (k = key)) as [->|Hne].
        - rewrite lookup_insert_eq in Hk. simplify_eq. apply HP. exists now, cached. set_solver.
        - rewrite lookup_insert_ne in Hk by done. by eapply (origin_pending _ _ Ho). }
      destruct Hcase as [->| ->]; [done|]. split; [by apply origin_flush|by rewrite flush_gen].
    - split; [by apply origin_flush|apply flush_gen].
    - apply shrink, shrinks_get.
    - apply shrink, shrinks_remove.
    - apply shrink, shrinks_remove_keys.
    - apply shrink, shrinks_invalidate.
    - apply shrink, shrinks_purge.
    - set_solver. }
  destruct (IH (run_op op c)) as [? Hg]; [|set_solver|done|].
  - intros k g bs (now & cached & Hin & ?). apply HP. exists now, cached. set_solver.
  - split; [done|]. cbn in Hg |- *. unfold run_ops in *. cbn. congruence.
Qed.

(** C2. A clear whose wipe was committed is final. When the table of rows is
    empty after the clear, or the shard has no database, then whatever follows
    short of another clear, and whichever operations of [redb] fail, every row of
    the shard and every queued insert that could be served was inserted after the
    clear, with the generation the clear started: a writer that captured the
    generation before the clear never brings wiped bytes back. And only storable
    results were ever queued. *)
Theorem clear_is_not_undone ops c :
  on_db (λ T, t_cache T = ∅) (clear c) → OClear ∉ ops →
  let c' := run_ops ops (clear c) in
  on_db (λ T, ∀ k bs, t_cache T !! k = Some bs →
                inserted ops k (wrap_add (d_clear_generation c) 1) bs) c' ∧
  (∀ k bs, d_pending c' !! k = Some (clear_generation c', bs) →
     inserted ops k (wrap_add (d_clear_generation c) 1) bs).
Proof.
  intros Hempty Hno. cbn zeta. destruct (clear_spec c) as (Hp & Hg).
  destruct (origin_run (inserted ops) ops (clear c)) as [[Hpend Hrows] Hgen]; [done..| |].
  - split.
    + intros k g bs Hk. rewrite Hp in Hk. by apply lookup_empty_Some in Hk.
    + intros db' Hdb' k bs. by rewrite (Hempty _ Hdb'), lookup_empty.
  - rewrite Hg in Hgen. split.
    + intros db' Hdb' k bs Hk. rewrite <- Hgen. by eapply Hrows.
    + intros k bs Hk. unfold clear_generation in Hk. rewrite Hgen in Hk. by apply Hpend.
Qed.

(** *** The bounded queue *)

Lemma length_by_recency (p : queue) : length (by_recency p) = size p.
Proof. unfold by_recency. by rewrite length_sort, length_fmap, length_hash_iter. Qed.

Lemma elem_of_by_recency (p : queue) s k :
  (s, k) ∈ by_recency p ↔ ∃ g bs, p !! k = Some (g, bs) ∧ decode_last_seq bs = s.
Proof.
  unfold by_recency. rewrite elem_of_sort, list_elem_of_fmap. split.
  - intros ([k' [g bs]] & [= -> ->] & Hin). apply elem_of_hash_iter in Hin. eauto.
  - intros (g & bs & Hk & <-). exists (k, (g, bs)). by rewrite elem_of_hash_iter.
Qed.

Lemma nodup_by_recency (p : queue) : NoDup (by_recency p).*2.
Proof.
  unfold by_recency. rewrite sort_perm, <- list_fmap_compose.
  erewrite list_fmap_ext; [apply (hash_iter_nodup p)|].
  by intros ? [k [g bs]] _.
Qed.

Lemma size_delete_fold {A} (l : list A) (f : A → string) (p : queue) :
  NoDup (f <$> l) → Forall (λ a, is_Some (p !! f a)) l →
  size (foldl (λ p a, delete (f a) p) p l) = size p - length l.
Proof.
  revert p. induction l as [|a l IH]; intros p Hnd Hall; cbn; [lia|].
  apply NoDup_cons in Hnd as [Ha Hnd]. apply Forall_cons in Hall as [Hpa Hall].
  rewrite IH; [|done|].
  - rewrite map_size_delete_Some by done. lia.
  - rewrite Forall_forall in *. intros b Hb. rewrite lookup_delete_ne; [by apply Hall|].
    intros He. apply Ha. rewrite He. by apply list_elem_of_fmap_2.
Qed.

Lemma shed_size (p : queue) :
  MAX_PENDING_INSERTS < size p →
  size (shed_oldest_pending_inserts p) = MAX_PENDING_INSERTS - INSERT_FLUSH_BATCH.
Proof.
  intros Hlarge. unfold shed_oldest_pending_inserts. rewrite decide_False by lia.
  set (n := size p - _). rewrite size_delete_fold.
  - rewrite length_take, length_by_recency. subst n.
    unfold MAX_PENDING_INSERTS, INSERT_FLUSH_BATCH in *. lia.
  - rewrite fmap_take. eapply sublist_NoDup; [apply (nodup_by_recency p)|apply sublist_take].
  - apply Forall_take, Forall_forall. intros [s k] Hin. apply elem_of_by_recency in Hin.
    destruct Hin as (g & bs & Hk & _). by exists (g, bs).
Qed.

Lemma shed_bound (p : queue) : size (shed_oldest_pending_inserts p) ≤ MAX_PENDING_INSERTS.
Proof.
  destruct (decide (size p ≤ MAX_PENDING_INSERTS)) as [Hle|Hgt].
  - unfold shed_oldest_pending_inserts. by rewrite decide_True.
  - rewrite shed_size; lia.
Qed.

Lemma shed_drops_oldest (p : queue) k k' g g' bs bs' :
  MAX_PENDING_INSERTS < size p → p !! k = Some (g, bs) →
  shed_oldest_pending_inserts p !! k = None → shed_oldest_pending_inserts p !! k' = Some (g', bs') →
  (decode_last_seq bs ≤ decode_last_seq bs')%N.
Proof.
  intros Hlarge Hk Hdrop Hkeep.
  unfold shed_oldest_pending_inserts in Hdrop, Hkeep. rewrite decide_False in Hdrop, Hkeep by lia.
  set (n := size p - _) in *. apply lookup_delete_fold in Hkeep as [Hk' Hnot].
  assert ((decode_last_seq bs, k) ∈ take n (by_recency p)) as Hin.
  { apply dec_stable. intros Hno. assert (foldl (λ p sk, delete sk.2 p) p (take n (by_recency p))
      !! k = Some (g, bs)) as He; [|congruence].
    apply lookup_delete_fold. split; [done|]. apply Forall_forall. intros [s k2] Hin2 <-.
    assert ((s, k2) ∈ by_recency p) as Hb 
      by (apply elem_of_take in Hin2 as (i & Hi & _); by eapply list_elem_of_lookup_2).
    apply elem_of_by_recency in Hb as (? & ? & ? & <-). simplify_eq/=. by apply Hno. }
  assert ((decode_last_seq bs', k') ∈ drop n (by_recency p)) as Hin'.
  { assert ((decode_last_seq bs', k') ∈ by_recency p) as Hb
      by (apply elem_of_by_recency; eauto).
    rewrite <- (take_drop n (by_recency p)) in Hb. apply elem_of_app in Hb as [Hb|?]; [|done].
    rewrite Forall_forall in Hnot. by destruct (Hnot _ Hb). }
  pose proof (sort_sorted index_cmp
    ((λ '(key, (_, bs)), (decode_last_seq bs, key)) <$> hash_iter p)) as Hs.
  change (sort index_cmp _) with (by_recency p) in Hs.
  rewrite <- (take_drop n (by_recency p)) in Hs. apply StronglySorted_app in Hs as (Hs & _ & _).
  specialize (Hs _ _ Hin Hin'). unfold cmp_le, index_cmp, cmp_lex in Hs. cbn in Hs.
  destruct (N.compare_spec (decode_last_seq bs) (decode_last_seq bs')); cbn in Hs; [lia|lia|done].
Qed.

(** The queue of unflushed inserts never exceeds its ceiling, whatever the
    operations and however often flushes fail. When it overflows it sheds to
    one batch below the ceiling, and what it drops is never more recent than
    anything it keeps. *)
Theorem queue_bounded_and_sheds_oldest ops c :
  size (d_pending c) ≤ MAX_PENDING_INSERTS →
  size (d_pending (run_ops ops c)) ≤ MAX_PENDING_INSERTS ∧
  ∀ p : queue, MAX_PENDING_INSERTS < size p →
    size (shed_oldest_pending_inserts p) = MAX_PENDING_INSERTS - INSERT_FLUSH_BATCH ∧
    ∀ k k' g g' bs bs', p !! k = Some (g, bs) → shed_oldest_pending_inserts p !! k = None →
      shed_oldest_pending_inserts p !! k' = Some (g', bs') →
      (decode_last_seq bs ≤ decode_last_seq bs')%N.
Proof.
  intros Hc. split.
  - revert c Hc. induction ops as [|op ops IH]; intros c Hc; [done|]. apply IH. clear IH.
    assert (sub : ∀ c', shrinks c c' → size (d_pending c') ≤ MAX_PENDING_INSERTS).
    { intros c' Hs. etrans; [apply map_subseteq_size, Hs|exact Hc]. }
    destruct op as [now key cached g|now|clock now key|key|keys|names|current|]; cbn.
    + unfold insert_at_generation. destruct (is_available c); [|done].
      destruct (storable cached); [|done]. cbn. unfold write_at_generation.
      destruct (encode_cache_value _ _) as [bs|]; [|done]. cbn.
      case_match; [|apply shed_bound].
      etrans; [apply map_subseteq_size, flush_pending_subset|apply shed_bound].
    + etrans; [apply map_subseteq_size, flush_pending_subset|exact Hc].
    + apply sub, shrinks_get.
    + apply sub, shrinks_remove.
    + apply sub, shrinks_remove_keys.
    + apply sub, shrinks_invalidate.
    + apply sub, shrinks_purge.
    + unfold clear. cbn. rewrite map_size_empty. lia.
  - intros p Hlarge. split; [by apply shed_size|]. intros *. by apply shed_drops_oldest.
Qed.
End histories.

(** ** An open, empty shard over the finite-map [redb], for the witnesses *)

(** The finite-map [redb] swallows nothing. *)
Lemma mem_lossless {HO EC CD FS CH} commits v meta ops (c : @DiskCache (mem_redb commits)) :
  @lossless_run (mem_redb commits) HO EC CD FS CH v meta ops c.
Proof.
  pose proof (mem_redb_summary commits) as SR. pose proof (mem_redb_laws commits) as RL.
  revert c. induction ops as [|op ops IH]; intros c; [done|]. split; [|apply IH].
  intros db _. destruct op; cbn [lossless]; intros;
    try (apply transact_ext, removals_ext, strict_agrees);
    try (apply transact_ext, pending_ext, strict_agrees).
  - apply transact_ext. apply bind_ext; [done|]. intros keys.
    apply removals_ext, strict_agrees.
  - intros t db' _ _. by eexists.
Qed.

Definition shard_of (R : Redb) (db : Database) (pending : queue) (generation : N) : DiskCache :=
  {| d_db := Some db; d_pending := pending; d_clear_generation := generation;
     d_last_access := 0; d_flush_retry_after := 0; d_storage_path := Some "/cache/p" |}.

Lemma no_tables_consistent : consistent no_tables.
Proof.
  unfold consistent. split_and!; [split|done..]; cbn.
  - intros s k. cbn. split; [set_solver|]. intros (bs & Hbs & _). by rewrite lookup_empty in Hbs.
  - reflexivity.
  - reflexivity.
  - intros k bs Hbs. cbn in Hbs. by rewrite lookup_empty in Hbs.
Qed.

Definition sample_codec : EnvelopeCodec := one_envelope sample_envelope ["x"%char].
Definition sample_ops : list disk_op :=
  [OInsert 0 "react" (sample_import 7) 0; OInsert 0 "react" (sample_import 9) 0; OFlush 0;
   OGet 1 0 "react"; OPurge "1.0.0"; OInvalidate {["vue"]}; ORemoveKeys ["preact"]].

Example accounting_stays_exact_witness :
  on_db consistent (@run_ops (mem_redb true) key_order sample_codec bit_codec some_disk length_hash
    "1.0.0" (λ _, None) sample_ops (shard_of (mem_redb true) no_tables ∅ 0)).
Proof.
  apply (@accounting_stays_exact (mem_redb true) key_order sample_codec bit_codec some_disk
    length_hash "1.0.0" (λ _, None) (mem_redb_laws true)).
  - apply mem_lossless.
  - intros db [= <-]. apply no_tables_consistent.
Defined.

Example clear_is_not_undone_witness :
  let c := shard_of (mem_redb true) no_tables {["stale" := (0%N, ["s"%char])]} 0 in
  on_db (λ T, ∀ k bs, t_cache T !! k = Some bs →
           @inserted sample_codec "1.0.0" [OInsert 0 "react" (sample_import 7) 1; OFlush 0] k 1 bs)
    (@run_ops (mem_redb true) key_order sample_codec bit_codec some_disk length_hash "1.0.0"
       (λ _, None) [OInsert 0 "react" (sample_import 7) 1; OFlush 0] (clear c)).
Proof.
  intros c.
  apply (@clear_is_not_undone (mem_redb true) key_order sample_codec bit_codec some_disk
    length_hash "1.0.0" (λ _, None) (mem_redb_laws true) _ c).
  - intros db [= <-]. reflexivity.
  - set_solver.
Defined.

Example queue_bounded_and_sheds_oldest_witness :
  size (d_pending (@run_ops (mem_redb false) key_order sample_codec bit_codec some_disk length_hash
    "1.0.0" (λ _, None) sample_ops (shard_of (mem_redb false) no_tables ∅ 0)))
    ≤ MAX_PENDING_INSERTS.
Proof.
  apply (@queue_bounded_and_sheds_oldest (mem_redb false) key_order sample_codec bit_codec some_disk
    length_hash "1.0.0" (λ _, None) (mem_redb_laws false)).
  vm_compute. lia.
Defined.

(** *** A clear that loses a step

    [clear] commits whatever its steps did. If emptying the index fails and the
    commit goes through, the shard is left with index entries for rows that no
    longer exist, and the count-only check on the next open does not see it. *)
Example clear_commits_a_failed_step :
  let R := mem_redb_with true false in
  let T := {| t_cache := {["a" := ["x"%char]]}; t_index := {[(0%N, "a")]}; t_meta := ∅;
              t_summary := {[SUMMARY_TOTAL_BYTES := 1%N; SUMMARY_ENTRY_COUNT := 1%N]} |} in
  let c' := @clear R (shard_of R T ∅ 0) in
  match d_db c' with
  | Some db => t_cache db = ∅ ∧ t_index db = {[(0%N, "a")]} ∧
               @heal_summary_if_inconsistent R db = db
  | None => False
  end.
Proof. cbn. split_and!; by vm_compute. Qed.
