(* ===== verification/DiskReads.v ===== *)
(** * What a shard answers ([cache/disk.rs])

    The queries that read the recency index agree with a full scan of the rows;
    a served entry passed the durability gate and the freshness check; opening
    a valid database never unlinks it. *)
From S2P Require Import Prelude Recency Results Fingerprints CacheKeys CachedImports ShardTables Disk.

Set Default Proof Using "Type*".

(** ** The walk of [recent_keys] takes a prefix that ends between recencies *)

Definition swap_row (p : N * string) : string * N := (p.2, p.1).

Lemma recent_loop_prefix limit rows acc :
  StronglySorted (λ p q : N * string, q.1 ≤ p.1)%N rows →
  StronglySorted (λ a b : string * N, a.2 ≤ b.2)%N acc →
  (∀ a p, a ∈ acc → p ∈ rows → p.1 ≤ a.2)%N → 0 < limit →
  ∃ taken rest, rows = taken ++ rest ∧
    recent_loop limit (Some <$> rows) acc = reverse (swap_row <$> taken) ++ acc ∧
    (rest = [] ∨ limit ≤ length acc + length taken ∧
       ∀ a p, a ∈ reverse (swap_row <$> taken) ++ acc → p ∈ rest → (p.1 < a.2)%N).
Proof.
  intros Hrows Hacc Hle Hlim. revert acc Hacc Hle.
  induction Hrows as [|[seq key] rows Hrows IH Hhd]; intros acc Hacc Hle.
  { exists [], []. split_and!; [done..|by left]. }
  assert (push : ∃ taken rest, (seq, key) :: rows = taken ++ rest ∧
    recent_loop limit (Some <$> rows) ((key, seq) :: acc) = reverse (swap_row <$> taken) ++ acc ∧
    (rest = [] ∨ limit ≤ length acc + length taken ∧
       ∀ a p, a ∈ reverse (swap_row <$> taken) ++ acc → p ∈ rest → (p.1 < a.2)%N)).
  { destruct (IH ((key, seq) :: acc)) as (taken & rest & -> & E & Hr).
    - constructor; [done|]. apply Forall_forall. intros a Ha. cbn. apply (Hle a (seq, key)); [done|].
      by left.
    - intros a p [->|Ha]%elem_of_cons Hp; [|by apply Hle; [|right]].
      rewrite Forall_forall in Hhd. by apply (Hhd p).
    - exists ((seq, key) :: taken), rest. rewrite E, fmap_cons, reverse_cons, <- app_assoc.
      split_and!; [done..|]. destruct Hr as [?|[Hlen Hlt]]; [by left|right]. cbn in Hlen |- *.
      split; [lia|]. intros a p Ha Hp. apply (Hlt a p); [|done]. set_solver. }
  cbn. case_decide as Hfull; [|exact push].
  destruct acc as [|[k0 last] acc]; [cbn in Hfull; lia|].
  case_bool_decide as Ht; [exact push|].
  exists [], ((seq, key) :: rows). split_and!; [done..|right]. split; [cbn in *; lia|].
  intros a p Ha Hp. cbn in Ha.
  assert (seq < last)%N as Hlt.
  { pose proof (Hle (k0, last) (seq, key)) as H. cbn in H. specialize (H ltac:(by left) ltac:(by left)).
    assert (last ≠ seq) by done. lia. }
  assert (last ≤ a.2)%N.
  { apply StronglySorted_inv in Hacc as [_ Hacc]. rewrite Forall_forall in Hacc.
    apply elem_of_cons in Ha as [->|Ha]; [cbn; lia|]. by apply (Hacc a). }
  assert (p.1 ≤ seq)%N; [|lia].
  apply elem_of_cons in Hp as [->|Hp]; [cbn; lia|]. rewrite Forall_forall in Hhd. by apply (Hhd p).
Qed.

(** Sorting two blocks, one of which comes first. *)
Lemma sort_app_before {A} (cmp : A → A → comparison) `{!CmpOrder cmp} l k :
  (∀ a b, a ∈ l → b ∈ k → cmp a b = Lt) → sort cmp (l ++ k) = sort cmp l ++ sort cmp k.
Proof.
  intros H. apply (StronglySorted_unique (cmp_le cmp)).
  - apply sort_sorted; apply _.
  - apply StronglySorted_app. split_and!; [|by apply sort_sorted..].
    intros a b Ha Hb. rewrite elem_of_sort in Ha, Hb. unfold cmp_le. by rewrite H.
  - by rewrite !sort_perm.
Qed.

Lemma recent_top limit (idx : list (N * string)) :
  0 < limit → StronglySorted (cmp_le index_cmp) idx →
  take limit (sort compare_recent_keys (reverse (recent_loop limit (reverse (Some <$> idx)) []))) =
  take limit (sort compare_recent_keys (swap_row <$> idx)).
Proof.
  intros Hlim Hs. rewrite <- fmap_reverse.
  destruct (recent_loop_prefix limit (reverse idx) []) as (taken & rest & Hsplit & -> & Hr);
    [|constructor|set_solver|done|].
  { clear Hlim. induction Hs as [|[s k] idx Hs IH Hall]; [constructor|].
    rewrite reverse_cons. apply StronglySorted_app. split_and!; [|done|repeat constructor].
    intros [s1 k1] ? Hin ->%list_elem_of_singleton. rewrite elem_of_reverse in Hin.
    rewrite Forall_forall in Hall. specialize (Hall _ Hin). cbn.
    unfold cmp_le, index_cmp, cmp_lex in Hall. cbn in Hall.
    destruct (N.compare_spec s s1); cbn in Hall; [lia|lia|done]. }
  rewrite app_nil_r in *. rewrite reverse_involutive.
  assert (sort compare_recent_keys (swap_row <$> idx) =
          sort compare_recent_keys ((swap_row <$> taken) ++ (swap_row <$> rest))) as ->.
  { apply sort_unique; [apply _|]. rewrite <- fmap_app, <- Hsplit. by rewrite reverse_Permutation. }
  destruct Hr as [->|[Hlen Hlt]]; [by rewrite app_nil_r|].
  rewrite sort_app_before; [|apply _|].
  - rewrite take_app_le; [done|]. rewrite length_sort, length_fmap. cbn in Hlen. lia.
  - intros a b Ha Hb. apply list_elem_of_fmap in Hb as (p & -> & Hp).
    assert (p.1 < a.2)%N as Hpa by (apply Hlt; [by rewrite elem_of_reverse|done]).
    unfold compare_recent_keys, cmp_on, cmp_lex, cmp_rev. cbn.
    by rewrite (proj2 (N.compare_lt_iff _ _) Hpa).
Qed.

(** ** The queries *)

(** The rows of a shard with their recency, as the full scan lists them. *)
Definition scan (T : Tables) : list (string * N) :=
  (λ '(k, bs), (k, decode_last_seq bs)) <$> map_to_list (t_cache T).

(** Reads succeed: what the queries fall back on when they do not is empty. *)
Class ReadsSucceed `{R : Redb} : Prop := {
  begin_read_ok : ∀ d, ∃ t, begin_read d = Some t;
  read_open_ok : ∀ w t, ∃ t', open_table w t = (Some (), t');
  index_iter_ok : ∀ t, ∃ rows t', index_iter t = (Some (Some <$> rows), t');
}.

Section queries.
Context `{R : Redb, HO : HashOrder, RL : !RedbLaws, SR : !SummaryReadsSucceed, RS : !ReadsSucceed}.

Lemma readable_some {A} (rows l : list A) : readable rows (Some <$> l) → l = rows.
Proof.
  unfold readable. revert rows. induction l as [|a l IH]; intros [|r rows]; cbn; inversion 1; subst.
  - done.
  - destruct H3 as [|[= ->]]; [done|]. f_equal. by apply IH.
Qed.

Lemma omap_some {A} (l : list A) : omap id (Some <$> l) = l.
Proof. induction l; cbn; by f_equal. Qed.

(** The index a read transaction sees. *)
Lemma read_index t :
  (read_value (_ ← open_table SEQ_INDEX_TABLE; index_iter) t) =
  Some (Some <$> sort index_cmp (elements (t_index (txn_tables t)))).
Proof.
  unfold read_value. destruct (read_open_ok SEQ_INDEX_TABLE t) as [t1 E1].
  destruct (index_iter_ok t1) as (rows & t2 & E2).
  unfold mbind, txn_bind. rewrite E1, E2. cbn. do 2 f_equal.
  apply readable_some. rewrite <- (wp_open_table SEQ_INDEX_TABLE (λ _ T, T = txn_tables t) _
    eq_refl t () t1 eq_refl E1).
  assert (wp index_iter (λ l _, readable (sort index_cmp (elements (t_index (txn_tables t1)))) l)
    (txn_tables t1)) as Hw by (by apply wp_index_iter). by apply (Hw _ _ _ eq_refl E2).
Qed.

Lemma read_field f t (A : Type) (k : N → txn_op Txn A) :
  ∃ t', txn_tables t' = txn_tables t ∧
    read_value (read_summary_field f ≫= k) t = read_value (k (field f (txn_tables t))) t'.
Proof.
  unfold read_value, mbind, txn_bind.
  assert (wp (read_summary_field f) (λ v T, v = field f (txn_tables t) ∧ T = txn_tables t)
    (txn_tables t)) as Hw by (by apply wp_read_summary_field).
  assert (∃ v t', read_summary_field f t = (Some v, t')) as (v & t' & E).
  { unfold read_summary_field. destruct (summary_get_ok f t) as (r & t' & ->).
    destruct r; by do 2 eexists. }
  rewrite E. destruct (Hw _ _ _ eq_refl E) as [-> Ht]. eauto.
Qed.

Lemma index_scan T :
  consistent T → swap_row <$> sort index_cmp (elements (t_index T)) ≡ₚ scan T.
Proof.
  intros [[Hi _ _ _] _]. unfold index_exact in Hi. rewrite sort_perm. apply NoDup_Permutation.
  - apply NoDup_fmap_2; [|apply NoDup_elements]. by intros [] [] [=]; subst.
  - unfold scan. apply (NoDup_fmap_1 fst). rewrite <- list_fmap_compose.
    erewrite list_fmap_ext; [apply (NoDup_fst_map_to_list (t_cache T))|]. by intros ? [] _.
  - intros [k s]. unfold scan. rewrite !list_elem_of_fmap. split.
    + intros ([s' k'] & [= -> ->] & Hin). apply elem_of_elements, Hi in Hin as (bs & Hk & <-).
      exists (k', bs). by rewrite elem_of_map_to_list.
    + intros ([k' bs] & [= -> ->] & Hin). apply elem_of_map_to_list in Hin.
      exists (decode_last_seq bs, k'). rewrite elem_of_elements, Hi. eauto.
Qed.

Lemma field_count T :
  consistent T → (Z.of_nat (size (t_cache T)) ≤ Z.of_N u64_max)%Z →
  field SUMMARY_ENTRY_COUNT T = N.of_nat (size (t_cache T)).
Proof.
  intros [[_ _ Hc _] [_ Hle]] Hsz. apply congr64_small in Hc; lia.
Qed.

Lemma field_total T :
  consistent T → (0 ≤ row_bytes (t_cache T) ≤ Z.of_N u64_max)%Z →
  Z.of_N (field SUMMARY_TOTAL_BYTES T) = row_bytes (t_cache T).
Proof. intros [[_ Ht _ _] [Hle _]] Hsz. apply congr64_small in Ht; lia. Qed.

Definition index_row (kn : string * N) : N * string := (kn.2, kn.1).

Lemma index_rows T :
  consistent T →
  sort index_cmp (elements (t_index T)) = sort index_cmp (index_row <$> scan T).
Proof.
  intros HT. apply sort_unique; [apply _|].
  pose proof (index_scan T HT) as Hp. rewrite <- Hp, sort_perm, <- list_fmap_compose.
  rewrite (list_fmap_ext _ id); [by rewrite list_fmap_id|by intros ? [] _].
Qed.

Lemma index_size T : consistent T → length (sort index_cmp (elements (t_index T))) = length (scan T).
Proof. intros HT. by rewrite index_rows, length_sort, length_fmap. Qed.

Lemma opened_read c db :
  d_db c = Some db → ∃ t, d_db c ≫= begin_read = Some t ∧ txn_tables t = db_tables db.
Proof.
  intros ->. destruct (begin_read_ok db) as [t Ht]. exists t. split; [done|].
  by apply begin_read_tables.
Qed.

Lemma recent_keys_scan now limit c db :
  d_db (flush_pending_inserts now c) = Some db → consistent (db_tables db) →
  (recent_keys now limit c).1 = (take limit (sort compare_recent_keys (scan (db_tables db)))).*1.
Proof.
  intros Hdb HT. unfold recent_keys. case_decide as Hl; [by subst|].
  destruct (opened_read _ _ Hdb) as (t & -> & Ht).
  pose proof (read_index t) as E. unfold read_value in E.
  destruct ((_ ← open_table SEQ_INDEX_TABLE; index_iter) t) as [o t']. cbn in E. subst o. cbn [fst].
  rewrite Ht, recent_top by (first [lia|apply sort_sorted; apply _]). f_equal. f_equal.
  apply sort_unique; [apply _|]. by apply index_scan.
Qed.

Lemma lowest_scan now n floor c db :
  d_db (flush_pending_inserts now c) = Some db → consistent (db_tables db) →
  (Z.of_nat (size (t_cache (db_tables db))) ≤ Z.of_N u64_max)%Z →
  (lowest_seq_keys now n floor c).1 =
    swap_row <$> take (Nat.min n (length (scan (db_tables db)) - N.to_nat floor))
                   (sort index_cmp (index_row <$> scan (db_tables db))).
Proof.
  intros Hdb HT Hsz. unfold lowest_seq_keys. case_decide as Hn; [by subst|].
  destruct (opened_read _ _ Hdb) as (t & -> & Ht).
  assert (read_value (_ ← open_table SUMMARY_TABLE; read_summary_field SUMMARY_ENTRY_COUNT) t =
          Some (N.of_nat (length (scan (db_tables db))))) as ->.
  { unfold read_value, mbind, txn_bind. destruct (read_open_ok SUMMARY_TABLE t) as [t1 E1].
    rewrite E1. destruct (summary_get_ok SUMMARY_ENTRY_COUNT t1) as (r & t2 & E2).
    pose proof (wp_open_table SUMMARY_TABLE (λ _ T, T = txn_tables t) _ eq_refl t () t1 eq_refl E1)
      as Ht1. cbn in Ht1.
    assert (∃ v, read_summary_field SUMMARY_ENTRY_COUNT t1 = (Some v, t2)) as [v E3].
    { unfold read_summary_field. rewrite E2. destruct r; by eexists. }
    rewrite E3. cbn. f_equal.
    rewrite (wp_read_summary_field SUMMARY_ENTRY_COUNT (λ v T, v = field _ (txn_tables t1)) _
      eq_refl t1 v t2 eq_refl E3), Ht1, Ht, field_count by done.
    unfold scan. by rewrite length_fmap, length_map_to_list. }
  unfold sat_sub. rewrite N2Nat.inj_sub, Nat2N.id.
  case_decide as Hz; [by rewrite Hz|]. rewrite read_index, Ht. cbn [fst].
  by rewrite omap_some, index_rows.
Qed.
(** The three summary fields a rollup reads. *)
Lemma read_rollup t :
  read_value (_ ← open_table SUMMARY_TABLE;
              total ← read_summary_field SUMMARY_TOTAL_BYTES;
              count ← read_summary_field SUMMARY_ENTRY_COUNT;
              max_seq ← read_summary_field SUMMARY_MAX_SEQ;
              mret (total, count, max_seq)) t =
  Some (field SUMMARY_TOTAL_BYTES (txn_tables t), field SUMMARY_ENTRY_COUNT (txn_tables t),
        field SUMMARY_MAX_SEQ (txn_tables t)).
Proof.
  destruct (read_open_ok SUMMARY_TABLE t) as [t1 E1].
  pose proof (wp_open_table SUMMARY_TABLE (λ _ T, T = txn_tables t) _ eq_refl t () t1 eq_refl E1)
    as Ht1. cbn in Ht1. unfold read_value at 1, mbind at 1, txn_bind at 1. rewrite E1.
  match goal with |- (?m t1).1 = _ => change ((m t1).1) with (read_value m t1) end.
  edestruct (read_field SUMMARY_TOTAL_BYTES t1) as (t2 & H2 & ->).
  edestruct (read_field SUMMARY_ENTRY_COUNT t2) as (t3 & H3 & ->).
  edestruct (read_field SUMMARY_MAX_SEQ t3) as (t4 & H4 & ->).
  by rewrite H3, H2, Ht1.
Qed.

Lemma oldest_of_sorted (idx : list (N * string)) rows p rest :
  sort index_cmp idx = p :: rest → swap_row <$> idx ≡ₚ rows →
  Forall (λ kn, p.1 ≤ kn.2)%N rows ∧ Exists (λ kn, kn.2 = p.1) rows.
Proof.
  intros Hs Hp. pose proof (sort_sorted index_cmp idx) as Hsrt. rewrite Hs in Hsrt.
  apply StronglySorted_inv in Hsrt as [_ Hall]. rewrite Forall_forall in Hall. split.
  - apply Forall_forall. intros [k s] Hin. rewrite <- Hp, list_elem_of_fmap in Hin.
    destruct Hin as ([s' k'] & [= -> ->] & Hin). rewrite <- (elem_of_sort index_cmp), Hs in Hin.
    apply elem_of_cons in Hin as [<-|Hin]; [cbn; lia|]. specialize (Hall _ Hin).
    unfold cmp_le, index_cmp, cmp_lex in Hall. cbn in *.
    destruct (N.compare_spec p.1 s'); cbn in Hall; [lia|lia|done].
  - apply Exists_exists. exists (swap_row p). split; [|done]. rewrite <- Hp.
    apply list_elem_of_fmap_2. rewrite <- (elem_of_sort index_cmp), Hs. by left.
Qed.

Lemma rollup_scan now clock c db :
  d_db (flush_pending_inserts now c) = Some db → consistent (db_tables db) →
  (Z.of_nat (size (t_cache (db_tables db))) ≤ Z.of_N u64_max)%Z →
  (0 ≤ row_bytes (t_cache (db_tables db)) ≤ Z.of_N u64_max)%Z →
  let rows := scan (db_tables db) in
  let '(r, clock', _) := shard_rollup clock now c in
  Z.of_N (entry_count r) = Z.of_nat (length rows) ∧
  (rows ≠ [] → Z.of_N (total_bytes r) = row_bytes (t_cache (db_tables db)) ∧
               Forall (λ kn, oldest_seq r ≤ kn.2)%N rows ∧ Exists (λ kn, kn.2 = oldest_seq r) rows) ∧
  Forall (λ kn, kn.2 < u64_max → kn.2 < (RecencyClock.next_seq clock').1)%N rows.
Proof.
  intros Hdb HT Hsz Hb rows. unfold shard_rollup.
  destruct (opened_read _ _ Hdb) as (t & -> & Ht). rewrite read_rollup, Ht.
  assert (length rows = size (t_cache (db_tables db))) as Hlen
    by (subst rows; unfold scan; by rewrite length_fmap, length_map_to_list).
  assert (Forall (λ kn, kn.2 < u64_max → kn.2 <
    (RecencyClock.next_seq (RecencyClock.observe (field SUMMARY_MAX_SEQ (db_tables db)) clock)).1)%N
    rows) as Hclock.
  { apply Forall_forall. intros [k s] Hin Hs. subst rows. unfold scan in Hin.
    apply list_elem_of_fmap in Hin as ([k' bs] & [= -> ->] & Hin%elem_of_map_to_list).
    destruct HT as [[_ _ _ Hm] _]. specialize (Hm _ _ Hin).
    unfold RecencyClock.next_seq, RecencyClock.observe, sat_add. cbn [fst snd] in *. lia. }
  rewrite (field_count _ HT Hsz). case_decide as Hz.
  - split_and!; [cbn; lia| |done]. intros Hne. destruct rows; [done|cbn in Hlen; lia].
  - cbn [entry_count total_bytes oldest_seq]. rewrite read_index, Ht.
    split_and!; [lia| |done]. intros _. split; [by apply field_total|].
    pose proof (index_scan _ HT) as Hp. pose proof (index_size _ HT) as Hisz.
    destruct (sort index_cmp (elements (t_index (db_tables db)))) as [|p rest] eqn:Es.
    { cbn in Hisz. subst rows. lia. }
    rewrite <- Es, sort_perm in Hp. destruct p as [s k]. cbn.
    by apply (oldest_of_sorted _ _ _ _ Es).
Qed.

(** The index answers as a full scan would. On a shard whose accounting is
    exact, the most recent keys are the first [limit] of all rows sorted by
    recency; the eviction candidates are the first rows in ascending recency
    that leave at least [floor] behind; and the rollup is the exact byte total,
    entry count and smallest recency, with the live clock moved past every
    row. *)
Theorem queries_equal_full_scan now clock limit n floor c db :
  d_db (flush_pending_inserts now c) = Some db → consistent (db_tables db) →
  (Z.of_nat (size (t_cache (db_tables db))) ≤ Z.of_N u64_max)%Z →
  (0 ≤ row_bytes (t_cache (db_tables db)) ≤ Z.of_N u64_max)%Z → (floor ≤ u64_max)%N →
  let rows := scan (db_tables db) in
  (recent_keys now limit c).1 = (take limit (sort compare_recent_keys rows)).*1 ∧
  (lowest_seq_keys now n floor c).1 =
    swap_row <$> take (Nat.min n (length rows - N.to_nat floor))
                   (sort index_cmp (index_row <$> rows)) ∧
  let '(r, clock', _) := shard_rollup clock now c in
  Z.of_N (entry_count r) = Z.of_nat (length rows) ∧
  (rows ≠ [] → Z.of_N (total_bytes r) = row_bytes (t_cache (db_tables db)) ∧
               Forall (λ kn, oldest_seq r ≤ kn.2)%N rows ∧ Exists (λ kn, kn.2 = oldest_seq r) rows) ∧
  Forall (λ kn, kn.2 < u64_max → kn.2 < (RecencyClock.next_seq clock').1)%N rows.
Proof.
  intros Hdb HT Hsz Hb Hfl rows. subst rows. split_and!.
  - by apply recent_keys_scan.
  - by apply lowest_scan.
  - by apply rollup_scan.
Qed.
End queries.

(** ** What is served *)

Section served.
Context `{R : Redb, HO : HashOrder, EC : EnvelopeCodec, CD : IdentityCodec,
          FS : FileSystem, CH : ContentHash}.
Context (ANALYZER_VERSION : string) (fs_symlink_metadata : string → option ErrorKind).
Context `{RL : !RedbLaws, LC : !LawfulEnvelopeCodec EC}.

Lemma storable_set_internal l r : is_durable (set_internal l r) = is_durable r.
Proof. by destruct r. Qed.
Lemma storable_set_hit b r : is_durable (set_cache_hit b r) = is_durable r.
Proof. by destruct r. Qed.

Lemma decode_encoded clock clock' cached bs c :
  encode_cache_value ANALYZER_VERSION cached = Some bs →
  decode_cached_result ANALYZER_VERSION clock bs = (Some c, clock') →
  storable c = storable cached.
Proof.
  unfold encode_cache_value, decode_cached_result. intros He Hd.
  destruct (env_to_vec _) as [env|] eqn:Henv; [|done]. apply (inj Some) in He as <-.
  case_decide; [done|]. rewrite drop_app_length' in Hd by (by rewrite length_to_le_bytes).
  rewrite (env_roundtrip _ _ Henv) in Hd. cbn [e_analyzer_version] in Hd.
  case_decide; [done|]. injection Hd as <- _. unfold storable. cbn.
  by rewrite !storable_set_internal.
Qed.

Lemma run_op_pending op c k g bs :
  d_pending (run_op ANALYZER_VERSION fs_symlink_metadata op c) !! k = Some (g, bs) →
  d_pending c !! k = Some (g, bs) ∨ inserted ANALYZER_VERSION [op] k g bs.
Proof.
  intros Hk. assert (sub : ∀ c', shrinks_by rows_shrink c c' → d_pending c' !! k = Some (g, bs) →
    d_pending c !! k = Some (g, bs) ∨ inserted ANALYZER_VERSION [op] k g bs).
  { intros c' Hs Hk'. left. eapply lookup_weaken; [exact Hk'|apply Hs]. }
  destruct op as [now key cached g'|now|clock now key|key|keys|names|current|]; cbn in Hk.
  - destruct (insert_cases ANALYZER_VERSION now key cached g' c) as [[_ ?]|(Hst & bs' & p & He & Hsub & Hc)];
      [by eapply sub|].
    assert (p !! k = Some (g, bs)) as Hp.
    { destruct Hc as [Hc|Hc]; rewrite Hc in Hk; [done|].
      eapply lookup_weaken; [exact Hk|]. apply (flush_pending_subset now (set_pending p (stamp_access now c))). }
    eapply lookup_weaken in Hp; [|exact Hsub]. destruct (decide (k = key)) as [->|Hne].
    + rewrite lookup_insert_eq in Hp. simplify_eq. right. exists now, cached.
      split_and!; [by left|done..].
    + rewrite lookup_insert_ne in Hp by done. by left.
  - left. eapply lookup_weaken; [exact Hk|]. apply flush_pending_subset.
  - eapply sub; [|exact Hk]. apply shrinks_get; apply _.
  - eapply sub; [|exact Hk]. apply shrinks_remove; apply _.
  - eapply sub; [|exact Hk]. apply shrinks_remove_keys; apply _.
  - eapply sub; [|exact Hk]. apply shrinks_invalidate; apply _.
  - eapply sub; [|exact Hk]. apply shrinks_purge; apply _.
  - unfold clear in Hk. by apply lookup_empty_Some in Hk.
Qed.

(** Every queued insert passed the durability gate on its way in. *)
Definition queue_ok (c : DiskCache) : Prop :=
  ∀ k g bs, d_pending c !! k = Some (g, bs) →
    ∃ cached, storable cached = true ∧
      encode_cache_value ANALYZER_VERSION
        (set_result (set_cache_hit false (c_result cached)) cached) = Some bs.

Lemma queue_ok_empty c : d_pending c = ∅ → queue_ok c.
Proof. intros He k g bs Hk. rewrite He in Hk. by apply lookup_empty_Some in Hk. Qed.

Lemma queue_ok_run_op op c :
  queue_ok c → queue_ok (run_op ANALYZER_VERSION fs_symlink_metadata op c).
Proof.
  intros Hq k g bs Hk. apply run_op_pending in Hk as [Hk|(now & cached & _ & ? & ?)].
  - by apply Hq in Hk.
  - eauto.
Qed.

Lemma queue_ok_run_ops ops c :
  queue_ok c → queue_ok (run_ops ANALYZER_VERSION fs_symlink_metadata ops c).
Proof.
  revert c. induction ops as [|op ops IH]; intros c Hq; [done|]. by apply IH, queue_ok_run_op.
Qed.

Lemma decode_unverified k0 k1 bs d :
  decode_cached_result ANALYZER_VERSION k0 bs = (Some d, k1) → c_verification d = verification.never.
Proof.
  intros Hd. unfold decode_cached_result in Hd. repeat (case_match; simplify_eq; try done).
Qed.

Lemma get_entry_served c clock now key cached f :
  queue_ok c → (get_entry ANALYZER_VERSION clock now key c).1.1 = Some (cached, f) →
  storable cached = true ∧
  f = check_fingerprints_strict (c_fingerprints cached) ∧ (f = Fresh ∨ f = Unknown) ∧
  c_verification cached = verification.never ∧
  c_first_party cached = cache_key_is_first_party key.
Proof.
  intros Hq. unfold get_entry.
  destruct (match pending_insert ANALYZER_VERSION clock key c with
            | (Some pending, clock) => (Some pending, clock, stamp_access now c)
            | (None, clock) => read_committed ANALYZER_VERSION clock now key c
            end) as [[found clock'] s'] eqn:E.
  assert (∀ d, found = Some d → storable d = true ∧ c_verification d = verification.never) as Hfound.
  { intros d ->.
    destruct (pending_insert ANALYZER_VERSION clock key c) as [[p|] clk] eqn:Ep; simplify_eq.
    - unfold pending_insert in Ep. destruct (d_pending c !! key) as [[g bs]|] eqn:Hk; [|done].
      case_decide; [done|]. split; [|by eapply decode_unverified].
      apply Hq in Hk as (ca & Hst & Henc).
      rewrite (decode_encoded _ _ _ _ _ Henc Ep). unfold storable in *. cbn.
      by rewrite storable_set_hit.
    - unfold read_committed in E. repeat (case_match; simplify_eq/=; try done).
      rewrite negb_false_iff in *. split; [done|by eapply decode_unverified]. }
  destruct found as [d|]; [|done]. destruct (Hfound d eq_refl) as [Hst Hv].
  cbn [c_fingerprints set_first_party].
  destruct (check_fingerprints_strict (c_fingerprints d)) eqn:Hf; cbn; try done;
    intros [= <- <-]; cbn; rewrite ?Hf; split_and!; auto.
Qed.

(** What a shard serves is durable and checked. After any history from an
    empty queue, an entry handed out holds a storable result, its freshness is
    the strict check of its own fingerprints and is Fresh or Unknown, and it is
    marked unverified with the first-party flag of its key: a stale, missing,
    undecodable, torn or request-local row is never served. *)
Theorem served_results_are_storable ops c clock now key cached f :
  d_pending c = ∅ →
  (get_entry ANALYZER_VERSION clock now key
     (run_ops ANALYZER_VERSION fs_symlink_metadata ops c)).1.1 = Some (cached, f) →
  storable cached = true ∧
  f = check_fingerprints_strict (c_fingerprints cached) ∧ (f = Fresh ∨ f = Unknown) ∧
  c_verification cached = verification.never ∧
  c_first_party cached = cache_key_is_first_party key.
Proof.
  intros Hp. apply get_entry_served. by apply queue_ok_run_ops, queue_ok_empty.
Qed.
End served.

(** ** Opening *)

Section opening.
Context `{R : Redb, HO : HashOrder, RL : !RedbLaws}.
Context {Files : Type}
  (create_dir_all : Files → option Files)
  (is_file exists_ : Files → bool)
  (create_database : Files → (Database + DatabaseError) * Files)
  (remove_file : Files → (unit + ErrorKind) * Files).

Lemma ensure_schema_current db init :
  t_meta (db_tables db) !! SCHEMA_VERSION_KEY = Some CURRENT_SCHEMA_VERSION →
  match ensure_schema db init with
  | (inl _, db') => db_tables db' = db_tables db
  | (inr e, _) => e = Transient
  end.
Proof.
  intros Hv. unfold ensure_schema. destruct (begin_write db) as [t|] eqn:Ew; [|done].
  apply begin_write_tables in Ew as Ht.
  destruct ((_ ← open_table METADATA_TABLE; meta_get SCHEMA_VERSION_KEY) t) as [[current|] t1] eqn:E1;
    [|done].
  assert (wp (_ ← open_table METADATA_TABLE; meta_get SCHEMA_VERSION_KEY)
    (λ v T, v = Some CURRENT_SCHEMA_VERSION ∧ T = db_tables db) (db_tables db)) as Hw.
  { apply wp_bind, wp_open_table, wp_meta_get. by rewrite Hv. }
  destruct (Hw _ _ _ Ht E1) as [-> Ht1]. rewrite decide_False by auto.
  destruct ((_ ← open_table CACHE_TABLE; _ ← open_table SUMMARY_TABLE; open_table SEQ_INDEX_TABLE) t1)
    as [[u|] t2] eqn:E2; [|done].
  assert (wp (_ ← open_table CACHE_TABLE; _ ← open_table SUMMARY_TABLE; open_table SEQ_INDEX_TABLE)
    (λ _ T, T = db_tables db) (db_tables db)) as Hw2.
  { by apply wp_bind, wp_open_table, wp_bind, wp_open_table, wp_open_table. }
  destruct (commit t2 db) as [db'|] eqn:Ec; [|done].
  rewrite (commit_tables _ _ _ Ec). by apply (Hw2 _ _ _ Ht1 E2).
Qed.

(** Opening never destroys a shard it might still use. When the database
    opens and carries the current schema, no file is removed and what is
    handed out holds the same rows, with exact accounting if it was exact; when
    it does not open for any reason that is not positively corruption (a lock,
    a permission, an offline drive), the file is left alone and the shard stays
    closed. Files are removed only in [recreate_database]. *)
Theorem open_keeps_a_valid_shard (create_missing : bool) fs fs1 (r : Database + DatabaseError) fs2 :
  (if create_missing then create_dir_all fs else if is_file fs then Some fs else None) = Some fs1 →
  create_database fs1 = (r, fs2) →
  let opened := open_database create_dir_all is_file exists_ create_database remove_file
                  create_missing fs in
  match r with
  | inl db =>
      t_meta (db_tables db) !! SCHEMA_VERSION_KEY = Some CURRENT_SCHEMA_VERSION →
      opened.2 = fs2 ∧
      ∀ db', opened.1 = Some db' →
        t_cache (db_tables db') = t_cache (db_tables db) ∧
        t_meta (db_tables db') = t_meta (db_tables db) ∧
        (consistent (db_tables db) → consistent (db_tables db'))
  | inr e => is_corruption_error e = false → opened = (None, fs2)
  end.
Proof.
  intros Hready Hcreate. cbn zeta. unfold open_database.
  assert ((if negb create_missing then if is_file fs then Some fs else None else create_dir_all fs)
    = Some fs1) as -> by (by destruct create_missing).
  rewrite Hcreate. destruct r as [db|e].
  - intros Hv. pose proof (ensure_schema_current db (negb (exists_ fs1)) Hv) as Hs.
    destruct (ensure_schema db _) as [[u|e] db1]; [|subst e; by split].
    split; [done|]. intros db' [= <-]. destruct (heal_spec db1) as (Hc & Hi & Hm).
    rewrite Hs in *. by split_and!.
  - intros Hc. destruct e; cbn in *; try done. by rewrite Hc.
Qed.
End opening.

(** ** Witnesses *)

Lemma mem_reads commits : @ReadsSucceed (mem_redb commits).
Proof. split; intros; repeat eexists. Qed.

(** A shard with two queued rows of the current generation. *)
Definition queued_shard : @DiskCache (mem_redb true) :=
  shard_of (mem_redb true) no_tables
    {["a" := (0%N, to_le_bytes 8 5 ++ ["x"%char]); "b" := (0%N, to_le_bytes 8 9 ++ ["y"%char])]} 0.
Definition flushed_tables : Tables :=
  match d_db (@flush_pending_inserts (mem_redb true) key_order 0 queued_shard) with
  | Some T => T
  | None => no_tables
  end.

Lemma flushed_consistent : consistent flushed_tables.
Proof.
  destruct (@flush_spec (mem_redb true) key_order (mem_redb_laws true)
    0%N queued_shard no_tables eq_refl no_tables_consistent) as (db & Hdb & Hc).
  { pose proof (mem_redb_laws true). pose proof (mem_redb_summary true).
    apply transact_ext, pending_ext, strict_agrees. }
  assert (db = flushed_tables) as <-; [|exact Hc].
  unfold flushed_tables. by rewrite Hdb.
Qed.

Example queries_equal_full_scan_witness :
  (@recent_keys (mem_redb true) key_order 0 1 queued_shard).1 = ["b"] ∧
  (@recent_keys (mem_redb true) key_order 0 1 queued_shard).1 =
    (take 1 (sort compare_recent_keys (scan flushed_tables))).*1.
Proof.
  split; [vm_compute; reflexivity|].
  apply (@queries_equal_full_scan (mem_redb true) key_order (mem_redb_laws true)
    (mem_redb_summary true) (mem_reads true) 0%N 1%N 1 0 0%N queued_shard flushed_tables).
  - vm_compute. reflexivity.
  - apply flushed_consistent.
  - vm_compute. discriminate.
  - vm_compute. split; discriminate.
  - vm_compute. discriminate.
Defined.

Example served_results_are_storable_witness :
  let c := shard_of (mem_redb true) no_tables ∅ 0 in
  let got := (@get_entry (mem_redb true) sample_codec bit_codec some_disk length_hash
                "1.0.0" 1%N 0%N "react"
                (@run_ops (mem_redb true) key_order sample_codec bit_codec some_disk length_hash
                   "1.0.0" (λ _, None) [OInsert 0 "react" (sample_import 7) 0] c)).1.1 in
  match got with
  | Some (cached, f) => storable cached = true ∧ f = Fresh
  | None => False
  end.
Proof.
  intros c got. destruct got as [[cached f]|] eqn:E.
  - pose proof (@served_results_are_storable (mem_redb true) key_order sample_codec bit_codec
      some_disk length_hash "1.0.0" (λ _, None) (mem_redb_laws true)
      (one_envelope_lawful _ _) [OInsert 0 "react" (sample_import 7) 0] c 1%N 0%N "react" cached f
      eq_refl E) as (Hst & _).
    split; [exact Hst|]. revert E. vm_compute. intros [= _ <-]. reflexivity.
  - revert E. vm_compute. discriminate.
Defined.

(** A shard file that exists and opens. *)
Example open_keeps_a_valid_shard_witness :
  let T := {| t_cache := ∅; t_summary := ∅; t_index := ∅;
              t_meta := {[SCHEMA_VERSION_KEY := CURRENT_SCHEMA_VERSION]} |} in
  let create (files : nat) : (Tables + DatabaseError) * nat := (inl T, files) in
  let remove (files : nat) : (unit + ErrorKind) * nat := (inl (), S files) in
  (@open_database (mem_redb true) nat Some (λ _, true) (λ _, true) create remove false 0).2 = 0.
Proof.
  intros T create remove.
  refine (proj1 (@open_keeps_a_valid_shard (mem_redb true) (mem_redb_laws true) nat Some
    (λ _, true) (λ _, true) create remove false 0 0 (inl T) 0 eq_refl eq_refl _)).
  vm_compute. reflexivity.
Defined.
