(* ===== verification/Budget.v ===== *)
(** * The byte budget ([cache/budget.rs])

    Eviction across shards down to the low-water mark: repeatedly the shard with
    the globally oldest entry above its floor gives up a batch of its oldest
    entries. A shard is an interface; its laws say what an implementation
    promises, and the evictor is verified against them. *)
From Stdlib Require Import SpecFloat.
From S2P Require Import Prelude CachedImports ShardTables Disk.

Set Default Proof Using "Type*".

Definition EVICTION_FLOOR : N := 128.
Definition EVICTION_BATCH : nat := 128.
Definition MAX_EVICTION_SCAN : nat := 8 * EVICTION_BATCH.

(** ** [f64], for the low-water mark *)

(** [n as f64], [a * b] and [x as u64] in binary64 with round-to-nearest-even. *)
Definition f64_of_u64 (n : N) : spec_float := binary_normalize 53 1024 (Z.of_N n) 0 false.
Definition f64_mul (a b : spec_float) : spec_float := SFmul 53 1024 a b.
Definition u64_of_f64 (x : spec_float) : N :=
  match x with
  | S754_finite false m e => N.min (Z.to_N (Z.shiftl (Zpos m) e)) u64_max
  | S754_infinity false => u64_max
  | _ => 0%N
  end.
(** The literal [0.9]: the nearest double. *)
Definition LOW_WATER : spec_float := S754_finite false 8106479329266893 (-53).

Definition low_water_of (budget_bytes : N) : N :=
  u64_of_f64 (f64_mul (f64_of_u64 budget_bytes) LOW_WATER).

Example low_water_half_gib : low_water_of 536870912 = 483183820%N.
Proof. vm_compute. reflexivity. Qed.

(** ** The trait [EvictableShard]

    [W] is the state the shards live in; each operation is one step on it. *)
Class EvictableShard (Sh W : Type) := {
  shard_id : Sh → string;
  rollup : Sh → W → ShardRollup * W;
  lowest_keys : Sh → nat → N → W → list string * W;
  evict_keys : Sh → list string → W → N * W;
}.

Record EvictionOutcome := { evicted_bytes : N; evicted_keys : N; still_over_budget : bool }.
Definition no_eviction : EvictionOutcome :=
  {| evicted_bytes := 0; evicted_keys := 0; still_over_budget := false |}.

Section evict.
Context {Sh W : Type} `{ES : EvictableShard Sh W}.

(** The first shard of each id. *)
Fixpoint dedup_ids (seen : gset string) (shards : list Sh) : list Sh :=
  match shards with
  | [] => []
  | s :: rest =>
      if decide (shard_id s ∈ seen) then dedup_ids seen rest
      else s :: dedup_ids ({[shard_id s]} ∪ seen) rest
  end.

Fixpoint collect_rollups (shards : list Sh) (w : W) : gmap string ShardRollup * W :=
  match shards with
  | [] => (∅, w)
  | s :: rest =>
      let '(r, w) := rollup s w in
      let '(m, w) := collect_rollups rest w in
      (<[shard_id s := r]> m, w)
  end.

Definition rollups_total (rollups : gmap string ShardRollup) : N :=
  map_fold (λ _ r acc, wrap_add (total_bytes r) acc) 0%N rollups.

Definition eligible (rollups : gmap string ShardRollup) (exhausted : gset string) (s : Sh) : bool :=
  negb (bool_decide (shard_id s ∈ exhausted)) &&
  match rollups !! shard_id s with
  | Some r => bool_decide (EVICTION_FLOOR < entry_count r)%N
  | None => false
  end.

Definition oldest_of (rollups : gmap string ShardRollup) (s : Sh) : N :=
  match rollups !! shard_id s with Some r => oldest_seq r | None => u64_max end.

(** [Iterator::min_by_key]: the first of the minimal elements. *)
Fixpoint min_by (key : Sh → N) (l : list Sh) : option Sh :=
  match l with
  | [] => None
  | s :: rest =>
      match min_by key rest with
      | Some m => if decide (key m < key s)%N then Some m else Some s
      | None => Some s
      end
  end.

Definition select_victim (shards : list Sh) (rollups : gmap string ShardRollup)
    (exhausted : gset string) : option Sh :=
  min_by (oldest_of rollups) (filter (λ s, eligible rollups exhausted s = true) shards).

(** The loop state. *)
Record progress := {
  p_rollups : gmap string ShardRollup;
  p_exhausted : gset string;
  p_total : N;
  p_bytes : N;
  p_keys : N;
  p_world : W;
}.

(** One turn of the loop body; [None] is the [break]. *)
Definition evict_turn (shards : list Sh) (p : progress) : option progress :=
  victim ← select_victim shards (p_rollups p) (p_exhausted p);
  let '(keys, w) := lowest_keys victim EVICTION_BATCH EVICTION_FLOOR (p_world p) in
  Some (
    if decide (keys = []) then
      {| p_rollups := p_rollups p; p_exhausted := {[shard_id victim]} ∪ p_exhausted p;
         p_total := p_total p; p_bytes := p_bytes p; p_keys := p_keys p; p_world := w |}
    else
      let '(freed, w) := evict_keys victim keys w in
      let '(after, w) := rollup victim w in
      {| p_rollups := <[shard_id victim := after]> (p_rollups p);
         p_exhausted := if decide (freed = 0%N) then {[shard_id victim]} ∪ p_exhausted p
                        else p_exhausted p;
         p_total := sat_sub (p_total p) freed;
         p_bytes := wrap_add (p_bytes p) freed;
         p_keys := wrap_add (p_keys p) (N.of_nat (length keys));
         p_world := w |}).

Fixpoint evict_loop (fuel : nat) (shards : list Sh) (low_water : N) (p : progress)
    : option progress :=
  if decide (p_total p ≤ low_water)%N then Some p
  else
    match fuel with
    | 0 => None
    | S fuel =>
        match evict_turn shards p with
        | None => Some p
        | Some p' => evict_loop fuel shards low_water p'
        end
    end.

(** Turns that are always enough: one per byte over, one per shard. *)
Definition enough_fuel (shards : list Sh) (p : progress) : nat :=
  N.to_nat (p_total p) + length shards.

Definition start (shards : list Sh) (w : W) : progress :=
  let '(rollups, w) := collect_rollups shards w in
  {| p_rollups := rollups; p_exhausted := ∅; p_total := rollups_total rollups;
     p_bytes := 0; p_keys := 0; p_world := w |}.

(** [BudgetCoordinator::evict]; [fuel] bounds its loop. *)
Definition evict (fuel : nat) (budget_bytes : N) (shards : list Sh) (target : option N) (w : W)
    : option (EvictionOutcome * W) :=
  if decide (budget_bytes = 0%N) then Some (no_eviction, w)
  else
    let shards := dedup_ids ∅ shards in
    let p := start shards w in
    let low_water :=
      match target with
      | Some t => Some t
      | None => if decide (p_total p ≤ budget_bytes)%N then None
                else Some (low_water_of budget_bytes)
      end in
    match low_water with
    | None => Some (no_eviction, p_world p)
    | Some low =>
        p ← evict_loop fuel shards low p;
        Some ({| evicted_bytes := p_bytes p; evicted_keys := p_keys p;
                 still_over_budget := bool_decide (budget_bytes < p_total p)%N |}, p_world p)
    end.

Definition evict_to_budget (fuel : nat) (budget_bytes : N) (shards : list Sh) (w : W) :=
  evict fuel budget_bytes shards None w.
Definition evict_down_to (fuel : nat) (budget_bytes : N) (shards : list Sh) (target : N) (w : W) :=
  evict fuel budget_bytes shards (Some target) w.

(** ** Termination, whatever the shards do *)

Lemma min_by_elem key l s : min_by key l = Some s → s ∈ l.
Proof.
  revert s. induction l as [|a l IH]; intros s; cbn; [done|].
  destruct (min_by key l) as [m|]; [case_decide|]; intros [= <-]; set_solver.
Qed.

Lemma select_victim_spec shards rollups exhausted s :
  select_victim shards rollups exhausted = Some s →
  s ∈ shards ∧ shard_id s ∉ exhausted ∧
  ∃ r, rollups !! shard_id s = Some r ∧ (EVICTION_FLOOR < entry_count r)%N.
Proof.
  intros [He Hs]%min_by_elem%list_elem_of_filter. split; [done|].
  unfold eligible in He. apply andb_true_iff in He as [He Hr].
  apply negb_true_iff, bool_decide_eq_false in He. split; [done|].
  destruct (rollups !! shard_id s) as [r|]; [|done]. exists r. split; [done|].
  by apply bool_decide_eq_true in Hr.
Qed.

(** The ids not yet exhausted. *)
Definition live (shards : list Sh) (p : progress) : nat :=
  length (filter (λ s, shard_id s ∉ p_exhausted p) shards).

Lemma live_exhaust (shards : list Sh) (ex : gset string) s :
  s ∈ shards → shard_id s ∉ ex →
  length (filter (λ s', shard_id s' ∉ {[shard_id s]} ∪ ex) shards) <
  length (filter (λ s', shard_id s' ∉ ex) shards).
Proof.
  intros Hs Hex.
  assert (mono : ∀ l : list Sh, length (filter (λ s', shard_id s' ∉ {[shard_id s]} ∪ ex) l) ≤
                     length (filter (λ s', shard_id s' ∉ ex) l)).
  { intros l. induction l as [|a l IH]; [done|]. rewrite !filter_cons.
    repeat case_decide; cbn; try lia. set_solver. }
  induction shards as [|a l IH]; [set_solver|]. rewrite !filter_cons.
  apply elem_of_cons in Hs as [<-|Hs].
  - rewrite decide_False by set_solver. rewrite decide_True by done. cbn. specialize (mono l). lia.
  - specialize (IH Hs). repeat case_decide; cbn; try lia. set_solver.
Qed.

Lemma evict_turn_decreases shards p p' :
  (0 < p_total p)%N → evict_turn shards p = Some p' →
  N.to_nat (p_total p') + live shards p' < N.to_nat (p_total p) + live shards p.
Proof.
  intros Hpos. unfold evict_turn.
  destruct (select_victim shards (p_rollups p) (p_exhausted p)) as [v|] eqn:Hv; [|done].
  apply select_victim_spec in Hv as (Hin & Hex & _). cbn.
  destruct (lowest_keys v _ _ _) as [keys w].
  pose proof (live_exhaust shards (p_exhausted p) v Hin Hex) as Hlt.
  case_decide; [intros [= <-]; unfold live; cbn; lia|].
  destruct (evict_keys v keys w) as [freed w']. destruct (rollup v w') as [after w''].
  intros [= <-]. unfold live. cbn. unfold sat_sub. case_decide; lia.
Qed.

Lemma evict_loop_terminates shards low p fuel :
  N.to_nat (p_total p) + live shards p ≤ fuel →
  ∃ p', ∀ fuel', fuel ≤ fuel' → evict_loop fuel' shards low p = Some p'.
Proof.
  revert p. induction fuel as [|fuel IH]; intros p Hf.
  - exists p. intros fuel' _. destruct fuel'; cbn; (rewrite decide_True by lia; done).
  - destruct (decide (p_total p ≤ low)%N) as [Hle|Hgt].
    { exists p. intros fuel' _. destruct fuel'; cbn; by rewrite decide_True. }
    destruct (evict_turn shards p) as [p1|] eqn:Ht.
    + pose proof (evict_turn_decreases shards p p1 ltac:(lia) Ht) as Hd.
      destruct (IH p1 ltac:(lia)) as [p' Hp']. exists p'. intros [|fuel'] Hfuel; [lia|].
      cbn. rewrite decide_False, Ht by lia. apply Hp'. lia.
    + exists p. intros [|fuel'] Hfuel; [lia|]. cbn. by rewrite decide_False, Ht by lia.
Qed.

Lemma evict_returns budget shards target w :
  ∃ outcome, ∀ fuel, enough_fuel (dedup_ids ∅ shards) (start (dedup_ids ∅ shards) w) ≤ fuel →
    evict fuel budget shards target w = Some outcome.
Proof.
  unfold evict. case_decide; [by eexists|].
  set (ss := dedup_ids ∅ shards). set (p := start ss w).
  assert (∀ low, ∃ p', ∀ fuel, enough_fuel ss p ≤ fuel → evict_loop fuel ss low p = Some p')
    as Hloop.
  { intros low. destruct (evict_loop_terminates ss low p (enough_fuel ss p)) as [p' Hp'].
    - unfold enough_fuel, live. pose proof (length_filter (λ s, shard_id s ∉ p_exhausted p) ss). lia.
    - by exists p'. }
  destruct target as [t|]; [|case_decide; [by eexists|]].
  - destruct (Hloop t) as [p' Hp']. eexists. intros fuel Hf. by rewrite Hp'.
  - destruct (Hloop (low_water_of budget)) as [p' Hp']. eexists. intros fuel Hf. by rewrite Hp'.
Qed.

(** C23. Eviction always finishes, whatever the shards answer: a shard that
    frees nothing (a full or read-only disk, an index of keys that are gone)
    is retired for the pass, so the number of turns is bounded by the bytes
    held plus the number of shards, and more fuel never changes the outcome. *)
Theorem eviction_terminates budget shards target w :
  ∃ outcome, ∀ fuel, enough_fuel (dedup_ids ∅ shards) (start (dedup_ids ∅ shards) w) ≤ fuel →
    evict fuel budget shards target w = Some outcome.
Proof. apply evict_returns. Qed.
End evict.

(** ** What a shard promises *)

(** An entry as the budget sees it: its recency and its bytes on disk. *)
Abbreviation contents := (gmap string (N * N)).

Definition content_bytes (m : contents) : N := map_fold (λ _ e acc, e.2 + acc)%N 0%N m.

(** The entries in ascending recency, and the part of them above a floor. *)
Definition by_age (m : contents) : list (N * string) :=
  sort index_cmp ((λ '(k, e), (e.1, k)) <$> map_to_list m).
Definition above_floor (floor : nat) (m : contents) : list (N * string) :=
  take (size m - floor) (by_age m).
Definition newest (floor : nat) (m : contents) : list (N * string) :=
  drop (size m - floor) (by_age m).

(** [inv] holds of the states the shards are kept in; [entries] is what each
    shard holds. *)
Class ShardLaws {Sh W : Type} `{ES : EvictableShard Sh W}
    (inv : W → Prop) (entries : Sh → W → contents) : Prop := {
  rollup_law : ∀ s w, inv w → let '(r, w') := rollup s w in
    inv w' ∧ (∀ s', entries s' w' = entries s' w) ∧
    total_bytes r = content_bytes (entries s w) ∧
    entry_count r = N.of_nat (size (entries s w));
  lowest_law : ∀ s n floor w, inv w → let '(keys, w') := lowest_keys s n floor w in
    inv w' ∧ (∀ s', entries s' w' = entries s' w) ∧ length keys ≤ n ∧
    ∀ k, k ∈ keys → k ∈ (above_floor (N.to_nat floor) (entries s w)).*2;
  evict_law : ∀ s keys w, inv w → let '(freed, w') := evict_keys s keys w in
    inv w' ∧ (∀ s', shard_id s' ≠ shard_id s → entries s' w' = entries s' w) ∧
    (entries s w' = entries s w ∧ freed = 0%N ∨
     entries s w' = foldl (λ m k, delete k m) (entries s w) keys ∧
     (freed + content_bytes (entries s w') = content_bytes (entries s w))%N);
}.

(** *** Ageing order under deletion *)

Lemma by_age_nodup m : NoDup (by_age m).*2.
Proof.
  unfold by_age. rewrite sort_perm, <- list_fmap_compose.
  erewrite list_fmap_ext; [apply (NoDup_fst_map_to_list m)|]. by intros ? [k e] _.
Qed.

Lemma elem_of_by_age m s k : (s, k) ∈ by_age m ↔ ∃ b, m !! k = Some (s, b).
Proof.
  unfold by_age. rewrite elem_of_sort, list_elem_of_fmap. split.
  - intros ([k' [s' b]] & [= -> ->] & Hin%elem_of_map_to_list). eauto.
  - intros [b Hb]. exists (k, (s, b)). by rewrite elem_of_map_to_list.
Qed.

Lemma length_by_age m : length (by_age m) = size m.
Proof. unfold by_age. by rewrite length_sort, length_fmap, length_map_to_list. Qed.

Lemma StronglySorted_filter {A} (Rl : A → A → Prop) (P : A → Prop) `{!∀ x, Decision (P x)} (l : list A) :
  StronglySorted Rl l → StronglySorted Rl (filter P l).
Proof.
  induction 1 as [|a l Hl IH Ha]; [constructor|]. rewrite filter_cons. case_decide; [|done].
  constructor; [done|]. rewrite Forall_forall in *. intros x [_ Hx]%list_elem_of_filter. by apply Ha.
Qed.

Lemma filter_all {A} (P : A → Prop) `{!∀ x, Decision (P x)} (l : list A) :
  (∀ x, x ∈ l → P x) → filter P l = l.
Proof.
  induction l as [|a l IH]; intros Hall; [done|].
  rewrite filter_cons, decide_True by (apply Hall; by left).
  f_equal. apply IH. intros x Hx. apply Hall. by right.
Qed.

Lemma by_age_delete_all m keys :
  by_age (foldl (λ m k, delete k m) m keys) = filter (λ p, p.2 ∉ keys) (by_age m).
Proof.
  apply (StronglySorted_unique (cmp_le index_cmp)).
  - apply sort_sorted. apply _.
  - apply StronglySorted_filter, sort_sorted. apply _.
  - apply NoDup_Permutation.
    + apply (NoDup_fmap_1 snd), by_age_nodup.
    + apply NoDup_filter, (NoDup_fmap_1 snd), by_age_nodup.
    + intros [s k]. rewrite list_elem_of_filter, !elem_of_by_age. cbn. split.
      * intros [b Hb]. apply (lookup_delete_fold id) in Hb as [Hb Hall]. split; [|by exists b].
        intros Hin. rewrite Forall_forall in Hall. by apply (Hall _ Hin).
      * intros [Hk [b Hb]]. exists b. apply (lookup_delete_fold id). split; [done|].
        apply Forall_forall. intros x Hx He. apply Hk. by rewrite <- He.
Qed.

Lemma newest_app floor m : by_age m = above_floor floor m ++ newest floor m.
Proof. unfold above_floor, newest. by rewrite take_drop. Qed.

Lemma length_newest floor m : length (newest floor m) = Nat.min floor (size m).
Proof. unfold newest. rewrite length_drop, length_by_age. lia. Qed.

(** Evicting from above the floor leaves the newest entries as they are. *)
Lemma newest_delete floor m keys :
  (∀ k, k ∈ keys → k ∈ (above_floor floor m).*2) →
  newest floor (foldl (λ m k, delete k m) m keys) = newest floor m.
Proof.
  intros Hkeys. set (m' := foldl _ m keys).
  assert (filter (λ p, p.2 ∉ keys) (newest floor m) = newest floor m) as Hkeep.
  { apply filter_all. intros p Hp Hk%Hkeys. pose proof (by_age_nodup m) as Hnd.
    rewrite (newest_app floor m), fmap_app in Hnd. apply NoDup_app in Hnd as (_ & Hdis & _).
    by apply (Hdis _ Hk), list_elem_of_fmap_2. }
  assert (by_age m' = filter (λ p, p.2 ∉ keys) (above_floor floor m) ++ newest floor m) as Hb.
  { unfold m'. rewrite by_age_delete_all, (newest_app floor m), filter_app. by rewrite Hkeep. }
  unfold newest at 1. rewrite Hb, drop_app_ge.
  - replace (size m' - floor - _) with 0; [done|]. rewrite <- length_by_age, Hb, length_app.
    rewrite length_newest. pose proof (length_newest floor m). 
    destruct (decide (floor ≤ size m)); [lia|].
    assert (above_floor floor m = []) as Ha by (unfold above_floor; by rewrite (proj2 (Nat.sub_0_le _ _)) by lia).
    rewrite Ha. cbn. lia.
  - rewrite <- length_by_age, Hb, length_app, length_newest.
    destruct (decide (floor ≤ size m)); [lia|].
    assert (above_floor floor m = []) as Ha by (unfold above_floor; by rewrite (proj2 (Nat.sub_0_le _ _)) by lia).
    rewrite Ha. cbn. lia.
Qed.

Lemma content_bytes_nonneg_delete_all m keys :
  (content_bytes (foldl (λ m k, delete k m) m keys) ≤ content_bytes m)%N.
Proof.
  revert m. induction keys as [|k keys IH]; intros m; cbn; [lia|]. etrans; [apply IH|].
  destruct (m !! k) as [e|] eqn:Hk; [|by rewrite delete_id].
  rewrite <- (insert_delete_id m k e Hk) at 2. unfold content_bytes at 2.
  rewrite map_fold_insert_L; [|intros; lia|apply lookup_delete_eq].
  unfold content_bytes. lia.
Qed.

Section laws.
Context {Sh W : Type} `{ES : EvictableShard Sh W}
  (inv : W → Prop) (entries : Sh → W → contents).

(** Bytes held by a list of shards. *)
Definition held (shards : list Sh) (w : W) : N :=
  foldr (λ s acc, content_bytes (entries s w) + acc)%N 0%N shards.

Lemma held_cons s shards w :
  held (s :: shards) w = (content_bytes (entries s w) + held shards w)%N.
Proof. done. Qed.

Lemma held_ext shards w w' :
  (∀ s, s ∈ shards → entries s w' = entries s w) → held shards w' = held shards w.
Proof.
  induction shards as [|s shards IH]; intros He; [done|].
  rewrite !held_cons, IH, He; [done|by left|]. intros s' Hs'. apply He. by right.
Qed.

Lemma held_change shards v w w' :
  NoDup (shard_id <$> shards) → v ∈ shards →
  (∀ s, shard_id s ≠ shard_id v → entries s w' = entries s w) →
  (held shards w' + content_bytes (entries v w) = held shards w + content_bytes (entries v w'))%N.
Proof.
  induction shards as [|s shards IH]; intros Hnd Hv He; [set_solver|]. rewrite !held_cons.
  apply NoDup_cons in Hnd as [Hs Hnd]. apply elem_of_cons in Hv as [<-|Hv].
  - rewrite (held_ext shards w w'); [lia|]. intros s Hin. apply He. intros Heq.
    apply Hs. rewrite <- Heq. by apply list_elem_of_fmap_2.
  - specialize (IH Hnd Hv He). rewrite (He s); [lia|]. intros Heq. apply Hs. rewrite Heq.
    by apply list_elem_of_fmap_2.
Qed.

Lemma same_shard (shards : list Sh) s v :
  NoDup (shard_id <$> shards) → s ∈ shards → v ∈ shards → shard_id s = shard_id v → s = v.
Proof.
  induction shards as [|a l IH]; [set_solver|].
  intros Hnd Hs Hv Heq. apply NoDup_cons in Hnd as [Ha Hnd].
  apply elem_of_cons in Hs as [->|Hs], Hv as [->|Hv]; try done.
  - destruct Ha. rewrite Heq. by apply list_elem_of_fmap_2.
  - destruct Ha. rewrite <- Heq. by apply list_elem_of_fmap_2.
  - by apply IH.
Qed.

Lemma dedup_ids_nodup (seen : gset string) (shards : list Sh) :
  NoDup (shard_id <$> dedup_ids seen shards) ∧
  ∀ s, s ∈ dedup_ids seen shards → shard_id s ∉ seen.
Proof.
  revert seen. induction shards as [|s shards IH]; intros seen; cbn; [split; [constructor|set_solver]|].
  case_decide as Hs; [apply IH|]. destruct (IH ({[shard_id s]} ∪ seen)) as [Hnd Hseen]. split.
  - apply NoDup_cons. split; [|done]. intros (s' & Heq & Hin)%list_elem_of_fmap.
    apply (Hseen s' Hin). set_solver.
  - intros s' [->|Hin]%elem_of_cons; [done|]. specialize (Hseen _ Hin). set_solver.
Qed.

Context `{SL : !ShardLaws inv entries}.

Lemma wrap_add_comm3 a b c : wrap_add a (wrap_add b c) = wrap_add b (wrap_add a c).
Proof.
  unfold wrap_add. rewrite !N.Div0.add_mod_idemp_r. f_equal. lia.
Qed.

Lemma collect_rollups_spec shards w m w' :
  inv w → NoDup (shard_id <$> shards) → (held shards w ≤ u64_max)%N →
  collect_rollups shards w = (m, w') →
  inv w' ∧ (∀ s, entries s w' = entries s w) ∧ rollups_total m = held shards w ∧
  (∀ i, is_Some (m !! i) → i ∈ shard_id <$> shards) ∧
  ∀ s, s ∈ shards → ∃ r, m !! shard_id s = Some r ∧ entry_count r = N.of_nat (size (entries s w)).
Proof.
  revert w m w'. induction shards as [|s shards IH]; intros w m w' Hinv Hnd Hheld; cbn [collect_rollups].
  { intros [= <- <-]. split_and!; [done..| |set_solver]. intros i [? Hi].
    by rewrite lookup_empty in Hi. }
  apply NoDup_cons in Hnd as [Hs Hnd]. pose proof (rollup_law s w Hinv) as Hr.
  destruct (rollup s w) as [r w1]. destruct Hr as (Hinv1 & He1 & Hb & Hn). rewrite held_cons in Hheld |- *.
  assert (held shards w1 = held shards w) as Hh1 by (by apply held_ext).
  destruct (collect_rollups shards w1) as [m1 w2] eqn:Ec.
  destruct (IH w1 m1 w2 Hinv1 Hnd ltac:(lia) Ec) as (Hinv2 & He2 & Ht & Hk & Hc).
  assert (m1 !! shard_id s = None) as Hnone.
  { destruct (m1 !! shard_id s) eqn:E; [|done]. destruct Hs. apply Hk. by eexists. }
  intros [= <- <-]. split_and!; [done|congruence| | |].
  - unfold rollups_total. rewrite map_fold_insert_L; [|intros; apply wrap_add_comm3|done].
    unfold rollups_total in Ht. rewrite Ht, Hh1, Hb. apply wrap_add_small. lia.
  - intros i [r' Hi]. cbn. destruct (decide (i = shard_id s)) as [->|Hne]; [by left|].
    rewrite lookup_insert_ne in Hi by done. right. apply Hk. by eexists.
  - intros s' [->|Hin]%elem_of_cons; [exists r; by rewrite lookup_insert_eq|].
    destruct (Hc s' Hin) as (r' & Hr' & Hn'). exists r'. rewrite lookup_insert_ne.
    + by rewrite Hn', He1.
    + intros Heq. apply Hs. rewrite Heq. by apply list_elem_of_fmap_2.
Qed.

(** What the loop maintains, from the state [w0] it started in. *)
Record sound (shards : list Sh) (w0 : W) (p : progress) : Prop := {
  sound_inv : inv (p_world p);
  sound_floor : ∀ s, s ∈ shards →
    newest (N.to_nat EVICTION_FLOOR) (entries s (p_world p)) =
    newest (N.to_nat EVICTION_FLOOR) (entries s w0);
  sound_total : p_total p = held shards (p_world p);
  sound_bytes : (p_bytes p + p_total p = held shards w0)%N;
  sound_rollups : ∀ s, s ∈ shards → ∃ r, p_rollups p !! shard_id s = Some r ∧
    entry_count r = N.of_nat (size (entries s (p_world p)));
}.

Lemma sound_turn shards w0 p p' :
  NoDup (shard_id <$> shards) → (held shards w0 ≤ u64_max)%N →
  sound shards w0 p → evict_turn shards p = Some p' → sound shards w0 p'.
Proof.
  intros Hnd Hmax [Hinv Hfl Htot Hby Hro]. unfold evict_turn.
  destruct (select_victim shards (p_rollups p) (p_exhausted p)) as [v|] eqn:Hv; [|done].
  apply select_victim_spec in Hv as (Hin & _). cbn.
  pose proof (lowest_law v EVICTION_BATCH EVICTION_FLOOR (p_world p) Hinv) as Hl.
  destruct (lowest_keys v _ _ _) as [keys w1]. destruct Hl as (Hinv1 & He1 & _ & Hkeys).
  case_decide as Hk.
  { intros [= <-]. split; cbn; [done| | |done|].
    - intros s Hs. by rewrite He1, Hfl.
    - rewrite Htot. symmetry. by apply held_ext.
    - intros s Hs. by rewrite He1; apply Hro. }
  pose proof (evict_law v keys w1 Hinv1) as Hev.
  destruct (evict_keys v keys w1) as [freed w2]. destruct Hev as (Hinv2 & Hother & Hcase).
  pose proof (rollup_law v w2 Hinv2) as Hr. destruct (rollup v w2) as [after w3].
  destruct Hr as (Hinv3 & He3 & _ & Hcount). intros [= <-].
  pose proof (held_change shards v w1 w2 Hnd Hin Hother) as Hch.
  rewrite (held_ext shards (p_world p) w1) in Hch by auto.
  assert (freed + content_bytes (entries v w2) = content_bytes (entries v w1))%N as Hfreed.
  { destruct Hcase as [[-> ->]|[_ ?]]; [lia|done]. }
  assert (held shards w3 = held shards w2) as Hh3 by (by apply held_ext).
  split; cbn [p_world p_total p_bytes p_rollups].
  - done.
  - intros s Hs. rewrite He3. destruct (decide (shard_id s = shard_id v)) as [Heq|Hne].
    + rewrite (same_shard _ _ _ Hnd Hs Hin Heq).
      rewrite <- Hfl by done. destruct Hcase as [[-> _]|[-> _]]; rewrite He1; [done|].
      apply newest_delete. intros k Hkk. by apply Hkeys.
    + by rewrite Hother, He1, Hfl.
  - rewrite Hh3, Htot. unfold sat_sub. lia.
  - unfold sat_sub. rewrite wrap_add_small; lia.
  - intros s Hs. destruct (decide (shard_id s = shard_id v)) as [Heq|Hne].
    + rewrite (same_shard _ _ _ Hnd Hs Hin Heq), lookup_insert_eq. exists after.
      split; [done|]. by rewrite He3.
    + rewrite lookup_insert_ne by done. rewrite He3, Hother, He1 by done. by apply Hro.
Qed.

Lemma start_sound shards w :
  inv w → NoDup (shard_id <$> shards) → (held shards w ≤ u64_max)%N →
  sound shards w (start shards w).
Proof.
  intros Hinv Hnd Hmax. unfold start. destruct (collect_rollups shards w) as [m w'] eqn:Ec.
  destruct (collect_rollups_spec _ _ _ _ Hinv Hnd Hmax Ec) as (Hinv' & He & Ht & _ & Hr).
  split; cbn; [done| | |lia|].
  - intros s _. by rewrite He.
  - rewrite Ht. symmetry. apply held_ext. intros s _. apply He.
  - intros s Hs. by rewrite He; apply Hr.
Qed.

Lemma loop_sound fuel shards low w0 p p' :
  NoDup (shard_id <$> shards) → (held shards w0 ≤ u64_max)%N →
  sound shards w0 p → evict_loop fuel shards low p = Some p' →
  sound shards w0 p' ∧ ((p_total p' ≤ low)%N ∨ evict_turn shards p' = None).
Proof.
  intros Hnd Hmax. revert p. induction fuel as [|fuel IH]; intros p Hs; cbn.
  - case_decide; [|done]. intros [= <-]. auto.
  - case_decide; [intros [= <-]; auto|]. destruct (evict_turn shards p) as [p1|] eqn:Ht.
    + apply IH. by eapply sound_turn.
    + intros [= <-]. auto.
Qed.

(** What eviction aims for: the explicit target, or the low-water mark once the
    bytes held exceed the budget. *)
Definition goal_of (budget : N) (target : option N) (held_before : N) : N :=
  match target with
  | Some t => t
  | None => if decide (held_before ≤ budget)%N then budget else low_water_of budget
  end.

Lemma evict_sound fuel budget shards target w o w' :
  inv w → (held (dedup_ids ∅ shards) w ≤ u64_max)%N → budget ≠ 0%N →
  evict fuel budget shards target w = Some (o, w') →
  let ss := dedup_ids ∅ shards in
  ∃ p, sound ss w p ∧ p_world p = w' ∧ evicted_bytes o = p_bytes p ∧
    still_over_budget o = bool_decide (budget < p_total p)%N ∧
    ((p_total p ≤ goal_of budget target (held ss w))%N ∨ evict_turn ss p = None).
Proof.
  intros Hinv Hmax Hb. unfold evict. rewrite decide_False by done. set (ss := dedup_ids ∅ shards).
  pose proof (proj1 (dedup_ids_nodup ∅ shards)) as Hnd. fold ss in Hnd, Hmax.
  pose proof (start_sound ss w Hinv Hnd Hmax) as Hs0. set (p0 := start ss w) in *.
  assert (p_bytes p0 = 0%N) as Hb0 by (unfold p0, start; by destruct (collect_rollups ss w)).
  assert (p_total p0 = held ss w) as Ht0 by (pose proof (sound_bytes _ _ _ Hs0); lia).
  intros He. cbn zeta.
  assert (∀ low, (p ← evict_loop fuel ss low p0; Some (
     {| evicted_bytes := p_bytes p; evicted_keys := p_keys p;
        still_over_budget := bool_decide (budget < p_total p)%N |}, p_world p)) = Some (o, w') →
     ∃ p, sound ss w p ∧ p_world p = w' ∧ evicted_bytes o = p_bytes p ∧
       still_over_budget o = bool_decide (budget < p_total p)%N ∧
       ((p_total p ≤ low)%N ∨ evict_turn ss p = None)) as Hloop.
  { intros low Hl. destruct (evict_loop fuel ss low p0) as [p|] eqn:El; [|done].
    cbn in Hl. simplify_eq. destruct (loop_sound _ _ _ _ _ _ Hnd Hmax Hs0 El). by exists p. }
  unfold goal_of. destruct target as [t|]; [by apply Hloop|].
  rewrite Ht0 in He. case_decide as Hle; [|by apply Hloop]. simplify_eq.
  exists p0. split_and!; [done..| | |by left; lia].
  - by rewrite Hb0.
  - cbn. rewrite bool_decide_eq_false_2; [done|lia].
Qed.

(** Whatever is evicted, every shard keeps its newest entries up to the
    floor, exactly as they were; the bytes reported evicted are the bytes the
    shards lost; and the cache is reported over budget exactly when what the
    shards still hold exceeds it. Eviction that fails on some shard costs no
    accuracy. *)
Theorem eviction_keeps_floors_and_accounts fuel budget shards target w o w' :
  inv w → (held (dedup_ids ∅ shards) w ≤ u64_max)%N → budget ≠ 0%N →
  evict fuel budget shards target w = Some (o, w') →
  let ss := dedup_ids ∅ shards in
  inv w' ∧
  (∀ s, s ∈ ss → newest (N.to_nat EVICTION_FLOOR) (entries s w') =
                 newest (N.to_nat EVICTION_FLOOR) (entries s w)) ∧
  (evicted_bytes o + held ss w' = held ss w)%N ∧
  (still_over_budget o = true ↔ (budget < held ss w')%N).
Proof.
  intros Hinv Hmax Hb He. cbn zeta.
  destruct (evict_sound _ _ _ _ _ _ _ Hinv Hmax Hb He) as (p & [Hi Hf Ht Hby _] & <- & -> & -> & _).
  split_and!; [done|done|lia|]. rewrite bool_decide_eq_true, Ht. done.
Qed.

(** Shards whose writes succeed and that offer something while they are above
    their floor. *)
Class CompleteShards : Prop := {
  lowest_complete : ∀ s n floor w w', inv w → 0 < n → lowest_keys s n floor w = ([], w') →
    size (entries s w) ≤ N.to_nat floor;
  evict_complete : ∀ s keys w w', inv w → keys ≠ [] →
    (∀ k, k ∈ keys → is_Some (entries s w !! k)) → evict_keys s keys w ≠ (0%N, w');
}.

Definition retired_at_floor (shards : list Sh) (p : progress) : Prop :=
  ∀ s, s ∈ shards → shard_id s ∈ p_exhausted p →
    size (entries s (p_world p)) ≤ N.to_nat EVICTION_FLOOR.

Lemma above_floor_lookup floor (m : contents) k :
  k ∈ (above_floor floor m).*2 → is_Some (m !! k).
Proof.
  intros ([s k'] & -> & Hin)%list_elem_of_fmap. unfold above_floor in Hin.
  assert ((s, k') ∈ by_age m) as Hb
    by (apply elem_of_take in Hin as (i & Hi & _); by eapply list_elem_of_lookup_2).
  apply elem_of_by_age in Hb as [b Hb]. by eexists.
Qed.

Lemma retired_turn `{CS : !CompleteShards} shards w0 p p' :
  NoDup (shard_id <$> shards) → sound shards w0 p → retired_at_floor shards p →
  evict_turn shards p = Some p' → retired_at_floor shards p'.
Proof.
  intros Hnd [Hinv _ _ _ _] Hret. unfold evict_turn.
  destruct (select_victim shards (p_rollups p) (p_exhausted p)) as [v|] eqn:Hv; [|done].
  apply select_victim_spec in Hv as (Hin & Hnex & _). cbn.
  pose proof (lowest_law v EVICTION_BATCH EVICTION_FLOOR (p_world p) Hinv) as Hl.
  destruct (lowest_keys v _ _ _) as [keys w1] eqn:El. destruct Hl as (Hinv1 & He1 & _ & Hkeys).
  case_decide as Hk.
  { intros [= <-] s Hs. cbn. rewrite elem_of_union, elem_of_singleton, He1. intros [Heq|Hx].
    - rewrite (same_shard _ _ _ Hnd Hs Hin Heq). subst keys.
      eapply lowest_complete; [done| |exact El]. unfold EVICTION_BATCH. lia.
    - by apply Hret. }
  pose proof (evict_law v keys w1 Hinv1) as Hev.
  destruct (evict_keys v keys w1) as [freed w2] eqn:Ev. destruct Hev as (Hinv2 & Hother & _).
  pose proof (rollup_law v w2 Hinv2) as Hr. destruct (rollup v w2) as [after w3].
  destruct Hr as (_ & He3 & _). intros [= <-] s Hs. cbn. case_decide as Hf.
  { subst freed. exfalso. eapply (evict_complete v keys w1 w2); [done..| |exact Ev].
    intros k Hkk. rewrite He1. eapply above_floor_lookup, Hkeys, Hkk. }
  intros Hx. rewrite He3, Hother; [|by intros Heq; apply Hnex; rewrite <- Heq].
  rewrite He1. by apply Hret.
Qed.

Lemma loop_retired `{CS : !CompleteShards} fuel shards low w0 p p' :
  NoDup (shard_id <$> shards) → (held shards w0 ≤ u64_max)%N →
  sound shards w0 p → retired_at_floor shards p →
  evict_loop fuel shards low p = Some p' → retired_at_floor shards p'.
Proof.
  intros Hnd Hmax. revert p. induction fuel as [|fuel IH]; intros p Hs Hr; cbn.
  - case_decide; [|done]. by intros [= <-].
  - case_decide; [by intros [= <-]|]. destruct (evict_turn shards p) as [p1|] eqn:Ht.
    + apply IH; [by eapply sound_turn|by eapply retired_turn].
    + by intros [= <-].
Qed.

Lemma no_victim_at_floor shards w0 p :
  sound shards w0 p → retired_at_floor shards p → evict_turn shards p = None →
  ∀ s, s ∈ shards → size (entries s (p_world p)) ≤ N.to_nat EVICTION_FLOOR.
Proof.
  intros [_ _ _ _ Hro] Hret Hnone s Hs. unfold evict_turn in Hnone.
  destruct (select_victim shards (p_rollups p) (p_exhausted p)) as [v|] eqn:Hv.
  { cbn in Hnone. by destruct (lowest_keys v _ _ _). }
  destruct (decide (shard_id s ∈ p_exhausted p)) as [Hx|Hx]; [by apply Hret|].
  destruct (Hro s Hs) as (r & Hr & Hn).
  destruct (decide (EVICTION_FLOOR < entry_count r)%N) as [Hlt|Hge]; [|rewrite Hn in Hge; lia].
  exfalso. unfold select_victim in Hv.
  assert (s ∈ filter (λ s, eligible (p_rollups p) (p_exhausted p) s = true) shards) as Hf.
  { apply list_elem_of_filter. split; [|done]. unfold eligible.
    rewrite bool_decide_eq_false_2, Hr, bool_decide_eq_true_2 by done. done. }
  destruct (filter _ shards) as [|a l]; [set_solver|]. cbn in Hv.
  destruct (min_by _ l); [case_decide|]; done.
Qed.

(** C24. Over healthy shards eviction achieves its purpose: it ends at or below
    the target (the low-water mark for a cache over its budget), or with every
    shard down to its floor, which is the only way to stay over. *)
Theorem eviction_reaches_goal `{CS : !CompleteShards} fuel budget shards target w o w' :
  inv w → (held (dedup_ids ∅ shards) w ≤ u64_max)%N → budget ≠ 0%N →
  evict fuel budget shards target w = Some (o, w') →
  let ss := dedup_ids ∅ shards in
  (held ss w' ≤ goal_of budget target (held ss w))%N ∨
  ∀ s, s ∈ ss → size (entries s w') ≤ N.to_nat EVICTION_FLOOR.
Proof.
  intros Hinv Hmax Hb He ss.
  pose proof (proj1 (dedup_ids_nodup ∅ shards)) as Hnd. fold ss in Hnd, Hmax.
  pose proof (start_sound ss w Hinv Hnd Hmax) as Hs0.
  assert (retired_at_floor ss (start ss w)) as Hr0.
  { intros s _ Hx. exfalso. revert Hx. unfold start. destruct (collect_rollups ss w). set_solver. }
  unfold evict in He. rewrite decide_False in He by done. fold ss in He. unfold goal_of.
  assert (p_total (start ss w) = held ss w) as Ht0.
  { pose proof (sound_bytes _ _ _ Hs0) as Hsb. revert Hsb. unfold start.
    destruct (collect_rollups ss w). cbn. lia. }
  assert (∀ low p, evict_loop fuel ss low (start ss w) = Some p → p_world p = w' →
    (held ss w' ≤ low)%N ∨ ∀ s, s ∈ ss → size (entries s w') ≤ N.to_nat EVICTION_FLOOR) as Hloop.
  { intros low p El <-. destruct (loop_sound _ _ _ _ _ _ Hnd Hmax Hs0 El) as [Hs [Hle|Hnone]].
    - left. by rewrite <- (sound_total _ _ _ Hs).
    - right. eapply no_victim_at_floor; [done| |done]. exact (loop_retired _ _ _ _ _ _ Hnd Hmax Hs0 Hr0 El). }
  destruct target as [t|]; [|rewrite Ht0 in He; case_decide].
  - destruct (evict_loop fuel ss t _) as [p|] eqn:El; [|done]. cbn in He. simplify_eq.
    by eapply Hloop.
  - simplify_eq. left. pose proof (sound_total _ _ _ Hs0). lia.
  - destruct (evict_loop fuel ss _ _) as [p|] eqn:El; [|done]. cbn in He. simplify_eq.
    by eapply Hloop.
Qed.
End laws.

(** ** A cache of maps, for the witnesses

    Shards are their ids; the state is each shard's entries. *)
Abbreviation map_world := (gmap string contents).
Definition world_get (s : string) (w : map_world) : contents := default ∅ (w !! s).

#[local] Instance map_shards : EvictableShard string map_world := {|
  shard_id s := s;
  rollup s w :=
    ({| total_bytes := content_bytes (world_get s w);
        oldest_seq := match by_age (world_get s w) with (q, _) :: _ => q | [] => u64_max end;
        entry_count := N.of_nat (size (world_get s w)) |}, w);
  lowest_keys s n floor w := (take n (above_floor (N.to_nat floor) (world_get s w)).*2, w);
  evict_keys s keys w :=
    let m' := foldl (λ m k, delete k m) (world_get s w) keys in
    ((content_bytes (world_get s w) - content_bytes m')%N, <[s := m']> w);
|}.

(** Every entry has bytes, so that removing one frees some. *)
Definition positive_world (w : map_world) : Prop :=
  ∀ s k e, world_get s w !! k = Some e → (0 < e.2)%N.

Lemma world_get_insert s m (w : map_world) : world_get s (<[s:=m]> w) = m.
Proof. unfold world_get. by rewrite lookup_insert_eq. Qed.
Lemma world_get_other s s' m (w : map_world) : s' ≠ s → world_get s' (<[s:=m]> w) = world_get s' w.
Proof. intros Hne. unfold world_get. by rewrite lookup_insert_ne. Qed.

#[local] Instance map_shards_laws : ShardLaws positive_world world_get.
Proof.
  split.
  - intros s w Hw. by split_and!.
  - intros s n floor w Hw. split_and!; [done..|rewrite length_take; lia|].
    intros k Hk. apply elem_of_take in Hk as (i & Hi & _). by eapply list_elem_of_lookup_2.
  - intros s keys w Hw. cbn. split_and!.
    + intros s' k e Hk. destruct (decide (s' = s)) as [->|Hne].
      * rewrite world_get_insert in Hk. apply (lookup_delete_fold id) in Hk as [Hk _].
        by apply (Hw s k).
      * rewrite world_get_other in Hk by done. by apply (Hw s' k).
    + intros s' Hne. by apply world_get_other.
    + right. rewrite world_get_insert. split; [done|].
      pose proof (content_bytes_nonneg_delete_all (world_get s w) keys). lia.
Qed.

#[local] Instance map_shards_complete : CompleteShards positive_world world_get.
Proof.
  split.
  - intros s n floor w w' _ Hn [= Hk]. apply (f_equal length) in Hk.
    rewrite length_take, length_fmap in Hk. unfold above_floor in Hk.
    rewrite length_take, length_by_age in Hk. cbn in Hk. lia.
  - intros s [|k keys] w w' Hw Hne Hall; [done|]. cbn. intros [= Hz _].
    destruct (Hall k) as [e He]; [by left|].
    assert (content_bytes (delete k (world_get s w)) + e.2 = content_bytes (world_get s w))%N as Hd.
    { rewrite <- (insert_delete_id _ k e He) at 2. unfold content_bytes.
      rewrite (map_fold_insert_L _ _ k e); [lia|intros; lia|apply lookup_delete_eq]. }
    pose proof (content_bytes_nonneg_delete_all (delete k (world_get s w)) keys).
    pose proof (Hw s k e He). cbn in *. lia.
Qed.

(** Two shards of 130 entries of ten bytes each; the floor protects 128. *)
Definition many (n : nat) : contents :=
  list_to_map ((λ i, (String (ascii_of_nat (i / 16)) (String (ascii_of_nat (i mod 16)) ""), (N.of_nat i, 10%N)))
    <$> seq 0 n).
Definition two_shards : map_world := <["a" := many 130]> (<["b" := many 130]> ∅).

Definition evicted_world : option (EvictionOutcome * map_world) :=
  evict_to_budget 50 2590 ["a"; "b"; "a"] two_shards.

Lemma two_shards_positive : positive_world two_shards.
Proof.
  assert (∀ k e, many 130 !! k = Some e → (0 < e.2)%N) as Hm.
  { intros k e Hk. apply elem_of_list_to_map_2, list_elem_of_fmap in Hk as (i & [= _ ->] & _). done. }
  intros s. unfold two_shards.
  destruct (decide (s = "a")) as [->|]; [by rewrite world_get_insert|].
  rewrite world_get_other by done.
  destruct (decide (s = "b")) as [->|]; [by rewrite world_get_insert|].
  rewrite world_get_other by done. unfold world_get. rewrite lookup_empty.
  cbn. by intros k e ?%lookup_empty_Some.
Qed.

Definition evicted_forty : EvictionOutcome :=
  {| evicted_bytes := 40; evicted_keys := 4; still_over_budget := false |}.

Lemma evicted_world_outcome : fst <$> evicted_world = Some evicted_forty.
Proof. vm_compute. reflexivity. Qed.

Example eviction_keeps_floors_and_accounts_witness :
  match evicted_world with
  | Some (o, w') =>
      o = evicted_forty ∧
      newest 128 (world_get "a" w') = newest 128 (world_get "a" two_shards)
  | None => False
  end.
Proof.
  pose proof evicted_world_outcome as Ho. unfold evicted_world, evict_to_budget in *.
  destruct (evict 50 2590 ["a"; "b"; "a"] None two_shards) as [[o w']|] eqn:E; [|discriminate Ho].
  split; [injection Ho as ->; reflexivity|].
  refine (proj1 (proj2 (@eviction_keeps_floors_and_accounts string map_world map_shards positive_world
    world_get map_shards_laws 50 2590%N ["a"; "b"; "a"] None two_shards o w' two_shards_positive _ _ E)) "a" _).
  - vm_compute. discriminate.
  - discriminate.
  - vm_compute. left.
Defined.


Example eviction_reaches_goal_witness :
  match evicted_world with
  | Some (o, w') =>
      (held world_get ["a"; "b"] w' ≤ low_water_of 2590)%N ∨
      ∀ s, s ∈ ["a"; "b"] → size (world_get s w') ≤ 128
  | None => False
  end.
Proof.
  pose proof evicted_world_outcome as Ho. unfold evicted_world, evict_to_budget in *.
  destruct (evict 50 2590 ["a"; "b"; "a"] None two_shards) as [[o w']|] eqn:E; [|discriminate Ho].
  refine (@eviction_reaches_goal string map_world map_shards positive_world world_get
    map_shards_laws map_shards_complete 50 2590%N ["a"; "b"; "a"] None two_shards o w'
    two_shards_positive _ _ E).
  - vm_compute. discriminate.
  - discriminate.
Defined.
