(* ===== verification/Memory.v ===== *)
(** * The import cache ([cache/memory.rs])

    The in-memory mirror over a durable shard: reads with their freshness
    policies, the durability gate on inserts, the memory cap, and the paths that
    keep both layers together. An entry's recency and verification live in
    shared cells (the [Arc]s), so a hit restamps the entry in place; cells are
    modelled as a store indexed by identity. *)
From S2P Require Import Prelude Recency Results Fingerprints CacheKeys CachedImports ShardTables Disk DiskReads.

Set Default Proof Using "Type*".

Definition RECENT_PRELOAD_LIMIT : nat := 20.
Definition MAX_MEMORY_ENTRIES : N := 4096.
Definition MAX_MEMORY_WEIGHT_BYTES : N := 128 * 1024 * 1024.
Definition GRAPH_ROW_WEIGHT_BYTES : N := 256.
Definition UNKNOWN_MAX_ATTEMPTS : N := 3.
Definition UNKNOWN_PERSIST_AFTER_millis : N := 2000.
Definition MAX_EVICTION_SCAN : nat := 8 * 128.
Definition u32_max : N := 4294967295.

(** [usize::saturating_mul]. *)
Definition sat_mul (a b : N) : N := N.min (a * b) u64_max.

(** ** State *)

(** The shared cells of one entry. *)
Record Cell := { k_last_seq : N; k_persisted_seq : N; k_verification : Verification }.

(** What an entry holds beside its cells; [e_cell] is the identity of its
    [last_seq] cell, unique per insert. *)
Record Entry := {
  en_cell : N;
  en_result : ImportResult;
  en_fingerprints : list FileFingerprint;
  en_first_party : bool;
}.

Record UnknownRetry := { first_seen : N; attempts : N }.

Definition memory_weight (e : Entry) : N :=
  sat_mul (sat_add (N.of_nat (length (en_fingerprints e) +
                              length (internal_contributions (en_result e)))) 1)
    GRAPH_ROW_WEIGHT_BYTES.

Inductive ReadIntent := Serve | RequireFresh (promote : bool).
Inductive StalePolicy := EvictStale | ServeStale.
#[export] Instance StalePolicy_eq_dec : EqDecision StalePolicy.
Proof. solve_decision. Defined.

Definition intent_promotes (i : ReadIntent) : bool :=
  match i with Serve => false | RequireFresh promote => promote end.
Definition intent_requires_fresh (i : ReadIntent) : bool :=
  match i with Serve => false | RequireFresh _ => true end.

(** The readings of the clocks during one operation: wall-clock milliseconds
    and monotonic milliseconds since the verification epoch. *)
Record Times := { wall : N; mono : N }.

Section memory.
Context `{R : Redb, HO : HashOrder, EC : EnvelopeCodec, CD : IdentityCodec,
          FS : FileSystem, CH : ContentHash}.
Context (ANALYZER_VERSION : string) (fs_symlink_metadata : string → option ErrorKind).

Record ImportCache := {
  memory : gmap string Entry;
  cells : gmap N Cell;
  next_cell : N;
  disk : @DiskCache R;
  dirty : gmap string unit;
  revalidating : gset string;
  unknown_retry : gmap string UnknownRetry;
  (** The process-global recency clock and cache generation. *)
  clock : RecencyClock.clock;
  generation : N;
}.

Definition set_memory (m : gmap string Entry) (c : ImportCache) : ImportCache :=
  {| memory := m; cells := cells c; next_cell := next_cell c; disk := disk c; dirty := dirty c;
     revalidating := revalidating c; unknown_retry := unknown_retry c; clock := clock c;
     generation := generation c |}.
Definition set_cells (k : gmap N Cell) (c : ImportCache) : ImportCache :=
  {| memory := memory c; cells := k; next_cell := next_cell c; disk := disk c; dirty := dirty c;
     revalidating := revalidating c; unknown_retry := unknown_retry c; clock := clock c;
     generation := generation c |}.
Definition set_disk (d : DiskCache) (c : ImportCache) : ImportCache :=
  {| memory := memory c; cells := cells c; next_cell := next_cell c; disk := d; dirty := dirty c;
     revalidating := revalidating c; unknown_retry := unknown_retry c; clock := clock c;
     generation := generation c |}.
Definition set_dirty (d : gmap string unit) (c : ImportCache) : ImportCache :=
  {| memory := memory c; cells := cells c; next_cell := next_cell c; disk := disk c; dirty := d;
     revalidating := revalidating c; unknown_retry := unknown_retry c; clock := clock c;
     generation := generation c |}.
Definition set_revalidating (s : gset string) (c : ImportCache) : ImportCache :=
  {| memory := memory c; cells := cells c; next_cell := next_cell c; disk := disk c;
     dirty := dirty c; revalidating := s; unknown_retry := unknown_retry c; clock := clock c;
     generation := generation c |}.
Definition set_unknown (u : gmap string UnknownRetry) (c : ImportCache) : ImportCache :=
  {| memory := memory c; cells := cells c; next_cell := next_cell c; disk := disk c;
     dirty := dirty c; revalidating := revalidating c; unknown_retry := u; clock := clock c;
     generation := generation c |}.
Definition set_clock (k : RecencyClock.clock) (c : ImportCache) : ImportCache :=
  {| memory := memory c; cells := cells c; next_cell := next_cell c; disk := disk c;
     dirty := dirty c; revalidating := revalidating c; unknown_retry := unknown_retry c;
     clock := k; generation := generation c |}.
Definition set_generation (g : N) (c : ImportCache) : ImportCache :=
  {| memory := memory c; cells := cells c; next_cell := next_cell c; disk := disk c;
     dirty := dirty c; revalidating := revalidating c; unknown_retry := unknown_retry c;
     clock := clock c; generation := g |}.

Definition bump_cache_generation (c : ImportCache) : ImportCache :=
  set_generation (wrap_add (generation c) 1) c.

Definition no_cell : Cell :=
  {| k_last_seq := 0; k_persisted_seq := 0; k_verification := verification.never |}.
Definition cell (id : N) (c : ImportCache) : Cell := default no_cell (cells c !! id).
Definition update_cell (id : N) (f : Cell → Cell) (c : ImportCache) : ImportCache :=
  set_cells (<[id := f (cell id c)]> (cells c)) c.
Definition store_last_seq (id seq : N) : ImportCache → ImportCache :=
  update_cell id (λ k, {| k_last_seq := seq; k_persisted_seq := k_persisted_seq k;
                          k_verification := k_verification k |}).
Definition store_persisted_seq (id seq : N) : ImportCache → ImportCache :=
  update_cell id (λ k, {| k_last_seq := k_last_seq k; k_persisted_seq := seq;
                          k_verification := k_verification k |}).
Definition store_verification (id : N) (v : Verification) : ImportCache → ImportCache :=
  update_cell id (λ k, {| k_last_seq := k_last_seq k; k_persisted_seq := k_persisted_seq k;
                          k_verification := v |}).

(** The entry as the disk layer receives it: its cells read now. *)
Definition cached_of (e : Entry) (c : ImportCache) : CachedImport :=
  let k := cell (en_cell e) c in
  {| c_result := en_result e; c_fingerprints := en_fingerprints e;
     c_verification := k_verification k; c_last_seq := k_last_seq k;
     c_persisted_seq := k_persisted_seq k; c_first_party := en_first_party e |}.

(** A decoded or freshly built import with cells of its own. *)
Definition allocate (cached : CachedImport) (c : ImportCache) : Entry * ImportCache :=
  let id := next_cell c in
  let e := {| en_cell := id; en_result := c_result cached;
              en_fingerprints := c_fingerprints cached; en_first_party := c_first_party cached |} in
  (e, {| memory := memory c;
         cells := <[id := {| k_last_seq := c_last_seq cached;
                             k_persisted_seq := c_persisted_seq cached;
                             k_verification := c_verification cached |}]> (cells c);
         next_cell := id + 1; disk := disk c; dirty := dirty c; revalidating := revalidating c;
         unknown_retry := unknown_retry c; clock := clock c; generation := generation c |}).

Definition next_seq (c : ImportCache) : N * ImportCache :=
  let '(seq, k) := RecencyClock.next_seq (clock c) in (seq, set_clock k c).

Definition disk_insert (tm : Times) (key : string) (e : Entry) (captured : N) (c : ImportCache)
    : bool * ImportCache :=
  let '(ok, d) := insert_at_generation ANALYZER_VERSION (wall tm) key (cached_of e c) captured
                    (disk c) in
  (ok, set_disk d c).

(** *** Graduation of transient errors *)

Definition record_unknown (tm : Times) (key : string) (c : ImportCache)
    : ResultFreshness * ImportCache :=
  let entry := default {| first_seen := mono tm; attempts := 0 |} (unknown_retry c !! key) in
  let n := N.min (attempts entry + 1) u32_max in
  let c := set_unknown (<[key := {| first_seen := first_seen entry; attempts := n |}]>
                          (unknown_retry c)) c in
  let within_window := bool_decide (n ≤ UNKNOWN_MAX_ATTEMPTS)%N &&
    bool_decide (sat_sub (mono tm) (first_seen entry) < UNKNOWN_PERSIST_AFTER_millis)%N in
  (if within_window then freshness.stale true
   else freshness.unverified "dependency verification failed (transient)", c).

Definition clear_unknown (key : string) (c : ImportCache) : ImportCache :=
  set_unknown (delete key (unknown_retry c)) c.

(** *** The memory mirror *)

Definition remove_from_memory_if_current (key : string) (identity : N) (c : ImportCache)
    : bool * ImportCache :=
  match memory c !! key with
  | Some e => if decide (en_cell e = identity) then (true, set_memory (delete key (memory c)) c)
              else (false, c)
  | None => (false, c)
  end.

Definition evict_if_current (key : string) (identity : N) (c : ImportCache) : ImportCache :=
  let '(removed, c) := remove_from_memory_if_current key identity c in
  if removed then set_disk (remove key (disk c)) c else c.

Definition insert_into_memory_guarded (key : string) (e : Entry) (captured : N) (c : ImportCache)
    : ImportCache :=
  if decide (clear_generation (disk c) ≠ captured) then c
  else
    let c := set_memory (<[key := e]> (memory c)) c in
    if decide (clear_generation (disk c) ≠ captured)
    then (remove_from_memory_if_current key (en_cell e) c).2
    else c.

Definition total_weight (m : gmap string Entry) : N :=
  map_fold (λ _ e acc, sat_add (memory_weight e) acc) 0%N m.

Definition candidate := (N * (string * N))%type.
Definition candidate_cmp : candidate → candidate → comparison :=
  cmp_lex N.compare (cmp_lex String.compare N.compare).

Definition candidates (c : ImportCache) : list candidate :=
  sort candidate_cmp
    ((λ ke, (k_last_seq (cell (en_cell ke.2) c), (ke.1, memory_weight ke.2))) <$>
       filter (λ ke : string * Entry, dirty c !! ke.1 = None) (hash_iter (memory c))).

(** The batch loop of [enforce_memory_cap]. *)
Fixpoint evict_batch (tm : Times) (captured : N) (l : list candidate) (count weight : N)
    (c : ImportCache) : ImportCache :=
  match l with
  | [] => c
  | (_, (key, entry_weight)) :: rest =>
      if decide (count ≤ MAX_MEMORY_ENTRIES * 9 / 10 ∧
                 weight ≤ MAX_MEMORY_WEIGHT_BYTES * 9 / 10)%N then c
      else
        let c :=
          match memory c !! key with
          | Some e =>
              let last_seq := k_last_seq (cell (en_cell e) c) in
              if decide (k_persisted_seq (cell (en_cell e) c) < last_seq)%N then
                let '(ok, c) := disk_insert tm key e captured c in
                if (ok : bool) then store_persisted_seq (en_cell e) last_seq c else c
              else c
          | None => c
          end in
        evict_batch tm captured rest (sat_sub count 1) (sat_sub weight entry_weight)
          (set_memory (delete key (memory c)) c)
  end.

Definition enforce_memory_cap (tm : Times) (c : ImportCache) : ImportCache :=
  let weight := total_weight (memory c) in
  let count := N.of_nat (size (memory c)) in
  if decide (count ≤ MAX_MEMORY_ENTRIES ∧ weight ≤ MAX_MEMORY_WEIGHT_BYTES)%N then c
  else evict_batch tm (clear_generation (disk c)) (candidates c) count weight c.

(** *** Inserting *)

Definition insert_with_fingerprints_at_generation (tm : Times) (key : string)
    (result : ImportResult) (fps : list FileFingerprint) (verified_generation : N)
    (c : ImportCache) : ImportCache :=
  if negb (is_durable result) || negb (fingerprints_are_reusable fps) then c
  else
    let c := clear_unknown key c in
    let captured := clear_generation (disk c) in
    let '(born_seq, c) := next_seq c in
    let '(e, c) := allocate
      {| c_result := result; c_fingerprints := fps;
         c_verification := verification.verified_now (mono tm) verified_generation;
         c_last_seq := born_seq; c_persisted_seq := born_seq;
         c_first_party := cache_key_is_first_party key |} c in
    let '(ok, c) := disk_insert tm key e captured c in
    let c := if (ok : bool) then c else set_dirty (<[key := tt]> (dirty c)) c in
    enforce_memory_cap tm (insert_into_memory_guarded key e captured c).

Definition insert_with_fingerprints (tm : Times) (key : string) (result : ImportResult)
    (fps : list FileFingerprint) (c : ImportCache) : ImportCache :=
  insert_with_fingerprints_at_generation tm key result fps (generation c) c.

(** *** Reading *)

(** The memory half of [lookup], on the entry found. *)
Definition lookup_memory (tm : Times) (key : string) (e : Entry) (promote require_fresh : bool)
    (stale : StalePolicy) (c : ImportCache) : option (ImportResult * Freshness) * ImportCache :=
  let c := if promote then let '(seq, c) := next_seq c in store_last_seq (en_cell e) seq c else c in
  let fast_path := negb require_fresh && negb (en_first_party e) &&
    verification.is_current (mono tm) (generation c) (k_verification (cell (en_cell e) c)) in
  let f := if fast_path then Fresh else check_fingerprints_strict (en_fingerprints e) in
  let served c := (Some (set_cache_hit true (en_result e), f), c) in
  match f with
  | Unknown => served c
  | Stale => if decide (stale = ServeStale) then served (clear_unknown key c)
             else (None, evict_if_current key (en_cell e) (clear_unknown key c))
  | Gone => (None, evict_if_current key (en_cell e) (clear_unknown key c))
  | Fresh =>
      if fast_path then served c
      else
        let c := clear_unknown key c in
        served (if en_first_party e then c
                else store_verification (en_cell e)
                       (verification.verified_now (mono tm) (generation c)) c)
  end.

(** The disk half, on a memory miss. *)
Definition lookup_disk (tm : Times) (key : string) (promote require_fresh : bool)
    (c : ImportCache) : option (ImportResult * Freshness) * ImportCache :=
  let hydration_generation := generation c in
  let captured := clear_generation (disk c) in
  let '(got, k, d) := get_entry ANALYZER_VERSION (clock c) (wall tm) key (disk c) in
  let c := set_clock k (set_disk d c) in
  match got with
  | None => (None, c)
  | Some (cached, f) =>
      if decide (f ≠ Fresh ∧ require_fresh = true) then (None, c)
      else
        let '(e, c) := allocate cached c in
        let c := if decide (f = Fresh) then
                   clear_unknown key (store_verification (en_cell e)
                     (verification.verified_now (mono tm) hydration_generation) c)
                 else c in
        let c := if promote then let '(seq, c) := next_seq c in store_last_seq (en_cell e) seq c
                 else c in
        let c := insert_into_memory_guarded key e captured c in
        (Some (set_cache_hit true (en_result e), f), enforce_memory_cap tm c)
  end.

Definition lookup_cache (tm : Times) (key : string) (promote require_fresh : bool)
    (stale : StalePolicy) (c : ImportCache) : option (ImportResult * Freshness) * ImportCache :=
  match memory c !! key with
  | Some e => lookup_memory tm key e promote require_fresh stale c
  | None => lookup_disk tm key promote require_fresh c
  end.

Definition read (tm : Times) (key : string) (intent : ReadIntent) (c : ImportCache)
    : option ImportResult * ImportCache :=
  let require_fresh := intent_requires_fresh intent in
  match lookup_cache tm key (intent_promotes intent) require_fresh EvictStale c with
  | (Some (result, f), c) =>
      (if negb require_fresh || bool_decide (f = Fresh) then Some result else None, c)
  | (None, c) => (None, c)
  end.

Definition get_for_prewarm (tm : Times) (key : string) := read tm key Serve.
Definition get_if_fresh (tm : Times) (key : string) := read tm key (RequireFresh false).
Definition get_if_fresh_and_promote (tm : Times) (key : string) := read tm key (RequireFresh true).

Definition get_with_result_freshness (tm : Times) (key : string) (c : ImportCache)
    : option (ImportResult * ResultFreshness) * ImportCache :=
  match lookup_cache tm key true false ServeStale c with
  | (None, c) => (None, c)
  | (Some (result, f), c) =>
      let '(served, c) :=
        match f with
        | Fresh => (freshness.fresh, c)
        | Stale => (freshness.stale true, c)
        | Unknown | Gone => record_unknown tm key c
        end in
      (Some (set_freshness served result, served), c)
  end.

Definition probe_freshness (key : string) (c : ImportCache) : option Freshness :=
  (λ e, check_fingerprints_strict (en_fingerprints e)) <$> memory c !! key.

(** *** Revalidation claims *)

Definition begin_revalidation (claim : string) (c : ImportCache) : bool * ImportCache :=
  if decide (claim ∈ revalidating c) then (false, c)
  else (true, set_revalidating ({[claim]} ∪ revalidating c) c).
Definition finish_revalidation (claim : string) (c : ImportCache) : ImportCache :=
  set_revalidating (revalidating c ∖ {[claim]}) c.

(** *** Maintenance *)

Definition invalidate (names : gset string) (c : ImportCache) : ImportCache :=
  if decide (names = ∅) then c
  else
    let c := set_disk (invalidate_packages names (disk c)) c in
    set_memory (filter (λ kv, cache_key_matches_any_package kv.1 names = false) (memory c)) c.

Definition purge_orphans (current : string) (c : ImportCache) : nat * ImportCache :=
  let '(removed, d) := purge_orphan_entries fs_symlink_metadata current (disk c) in
  let c := set_disk d c in
  (removed, set_memory (filter (λ kv, is_orphan fs_symlink_metadata current kv.1 = false)
              (memory c)) c).

Definition clear_cache (c : ImportCache) : ImportCache :=
  set_unknown ∅ (set_dirty ∅ (set_memory ∅ (set_disk (clear (disk c)) c))).

Definition evict_disk_keys (keys : list string) (c : ImportCache) : N * ImportCache :=
  let '(freed, d) := remove_keys keys (disk c) in
  let c := set_disk d c in
  (freed, set_memory (foldl (λ m k, delete k m) (memory c) keys) c).

(** The candidates that are not hot in memory, the first [n] of them. *)
Fixpoint filter_evictable (c : ImportCache) (l : list (string * N)) (n : nat) : list string :=
  match l with
  | [] => []
  | (key, persisted_seq) :: rest =>
      let memory_hot := match memory c !! key with
                        | Some e => bool_decide (persisted_seq < k_last_seq (cell (en_cell e) c))%N
                        | None => false
                        end in
      if memory_hot then filter_evictable c rest n
      else
        match n with
        | 0 | 1 => [key]
        | S n' => key :: filter_evictable c rest n'
        end
  end.

Definition lowest_seq_disk_keys (tm : Times) (n : nat) (floor : N) (c : ImportCache)
    : list string * ImportCache :=
  if decide (n = 0) then ([], c)
  else
    let '(first, d) := lowest_seq_keys (wall tm) n floor (disk c) in
    let c := set_disk d c in
    let region_exhausted := bool_decide (length first < n) in
    let cold := filter_evictable c first n in
    if bool_decide (length cold = n) || region_exhausted then (cold, c)
    else
      let '(wide, d) := lowest_seq_keys (wall tm) MAX_EVICTION_SCAN floor (disk c) in
      let c := set_disk d c in
      (filter_evictable c wide n, c).

(** Persist [entries] under [captured]; the keys that failed. *)
Fixpoint persist_all (tm : Times) (captured : N) (l : list (string * Entry)) (c : ImportCache)
    : list string * ImportCache :=
  match l with
  | [] => ([], c)
  | (key, e) :: rest =>
      let '(ok, c) := disk_insert tm key e captured c in
      let '(failed, c) := persist_all tm captured rest c in
      (if (ok : bool) then failed else key :: failed, c)
  end.

(** The recency sweep: each promoted entry, its persisted mark moved on success. *)
Fixpoint sweep (tm : Times) (captured : N) (l : list (string * Entry)) (c : ImportCache)
    : list string * ImportCache :=
  match l with
  | [] => ([], c)
  | (key, e) :: rest =>
      let seq_at_flush := k_last_seq (cell (en_cell e) c) in
      let '(ok, c) := disk_insert tm key e captured c in
      let c := if (ok : bool) then store_persisted_seq (en_cell e) seq_at_flush c else c in
      let '(failed, c) := sweep tm captured rest c in
      (if (ok : bool) then failed else key :: failed, c)
  end.

Definition flush_to_disk (tm : Times) (c : ImportCache) : bool * ImportCache :=
  let captured := clear_generation (disk c) in
  let dirty_keys := dirty c in
  let c := set_dirty ∅ c in
  let entries := omap (λ k, (λ e, (k, e)) <$> memory c !! k) (hash_iter dirty_keys).*1 in
  let '(failed_dirty, c) := persist_all tm captured entries c in
  let promoted :=
    filter (λ ke : string * Entry, ke.1 ∉ failed_dirty ∧
      (k_persisted_seq (cell (en_cell ke.2) c) < k_last_seq (cell (en_cell ke.2) c))%N)
      (hash_iter (memory c)) in
  let '(failed, c) := sweep tm captured promoted c in
  let c := set_disk (flush_pending_inserts (wall tm) (disk c)) c in
  let c := set_dirty (foldl (λ d k, <[k := tt]> d) (dirty c) failed_dirty) c in
  (bool_decide (failed_dirty = [] ∧ failed = []), c).

(** The preload of keys memory does not hold. *)
Fixpoint preload (l : list (string * CachedImport)) (captured : N) (c : ImportCache)
    : ImportCache :=
  match l with
  | [] => c
  | (key, cached) :: rest =>
      let c := match memory c !! key with
               | Some _ => c
               | None => let '(e, c) := allocate cached c in
                         insert_into_memory_guarded key e captured c
               end in
      preload rest captured c
  end.

(** [reopen_disk], once [DiskCache::reopen_if_unavailable] gave [reopened]. *)
Definition reopen_disk (tm : Times) (reopened : bool * DiskCache) (c : ImportCache)
    : bool * ImportCache :=
  if is_available (disk c) then (true, c)
  else
    let '(ok, d) := reopened in
    let c := set_disk d c in
    if negb ok then (false, c)
    else
      let captured := clear_generation (disk c) in
      let '(failed, c) := persist_all tm captured (hash_iter (memory c)) c in
      let c := set_dirty (foldl (λ d k, <[k := tt]> d) (dirty c) failed) c in
      let '(recent, k, d) := load_recent ANALYZER_VERSION (clock c) (wall tm)
                               RECENT_PRELOAD_LIMIT (disk c) in
      let c := set_clock k (set_disk d c) in
      (true, enforce_memory_cap tm (preload recent captured c)).
End memory.

(** ** Histories *)

Section facts.
Context `{R : Redb, HO : HashOrder, EC : EnvelopeCodec, CD : IdentityCodec,
          FS : FileSystem, CH : ContentHash}.
Context (ANALYZER_VERSION : string) (fs_symlink_metadata : string → option ErrorKind).

Notation ImportCache := (@ImportCache R).
Notation disk_runs := (run_ops ANALYZER_VERSION fs_symlink_metadata).

Inductive cache_op :=
  | CInsert (tm : Times) (key : string) (result : ImportResult) (fps : list FileFingerprint)
      (verified_generation : N)
  | CRead (tm : Times) (key : string) (intent : ReadIntent)
  | CReadStale (tm : Times) (key : string)
  | CInvalidate (names : gset string)
  | CPurge (current : string)
  | CEvict (keys : list string)
  | CFlush (tm : Times)
  | CClear
  | CBumpGeneration.

Definition run_cache_op (op : cache_op) (c : ImportCache) : ImportCache :=
  match op with
  | CInsert tm key r fps g =>
      insert_with_fingerprints_at_generation ANALYZER_VERSION tm key r fps g c
  | CRead tm key intent => (read ANALYZER_VERSION tm key intent c).2
  | CReadStale tm key => (get_with_result_freshness ANALYZER_VERSION tm key c).2
  | CInvalidate names => invalidate names c
  | CPurge current => (purge_orphans fs_symlink_metadata current c).2
  | CEvict keys => (evict_disk_keys keys c).2
  | CFlush tm => (flush_to_disk ANALYZER_VERSION tm c).2
  | CClear => clear_cache c
  | CBumpGeneration => bump_cache_generation c
  end.
Definition run_cache (ops : list cache_op) (c : ImportCache) : ImportCache :=
  foldl (λ c op, run_cache_op op c) c ops.

(** An entry that passed the gate, with the first-party flag of its key. *)
Definition entry_ok (key : string) (e : Entry) : Prop :=
  is_durable (en_result e) = true ∧ fingerprints_are_reusable (en_fingerprints e) = true ∧
  en_first_party e = cache_key_is_first_party key.

Record cache_ok (c : ImportCache) : Prop := {
  ok_queue : queue_ok ANALYZER_VERSION (disk c);
  ok_memory : ∀ k e, memory c !! k = Some e → entry_ok k e;
}.

(** A step that may rewrite cells, bookkeeping and the disk queue, and whose
    memory only gains entries that are [entry_ok]. *)
Record steps (c c' : ImportCache) : Prop := {
  steps_disk : ∃ ops, disk c' = disk_runs ops (disk c);
  steps_memory : ∀ k e, memory c' !! k = Some e → memory c !! k = Some e ∨ entry_ok k e;
}.

#[export] Instance steps_preorder : PreOrder steps.
Proof.
  split.
  - intros c. split; [by exists []|auto].
  - intros a b c [[o1 H1] M1] [[o2 H2] M2]. split.
    + exists (o1 ++ o2). unfold run_ops in *. rewrite foldl_app. congruence.
    + intros k e Hk. destruct (M2 _ _ Hk) as [Hb|?]; [by apply M1|auto].
Qed.

Lemma steps_local c c' : disk c' = disk c → memory c' ⊆ memory c → steps c c'.
Proof.
  intros Hd Hm. split; [by exists []|]. intros k e Hk. left. by eapply lookup_weaken.
Qed.

Lemma steps_op op c c' :
  disk c' = run_op ANALYZER_VERSION fs_symlink_metadata op (disk c) → memory c' ⊆ memory c →
  steps c c'.
Proof.
  intros Hd Hm. split; [by exists [op]|]. intros k e Hk. left. by eapply lookup_weaken.
Qed.

Lemma steps_disk_insert tm key e captured c :
  steps c (disk_insert ANALYZER_VERSION tm key e captured c).2 ∧
  memory (disk_insert ANALYZER_VERSION tm key e captured c).2 = memory c ∧
  cells (disk_insert ANALYZER_VERSION tm key e captured c).2 = cells c ∧
  dirty (disk_insert ANALYZER_VERSION tm key e captured c).2 = dirty c.
Proof.
  unfold disk_insert.
  destruct (insert_at_generation ANALYZER_VERSION (wall tm) key (cached_of e c) captured (disk c))
    as [ok d] eqn:E. cbn. split_and!; [|done..].
  apply (steps_op (OInsert (wall tm) key (cached_of e c) captured)); [|done]. cbn. by rewrite E.
Qed.

Lemma steps_remove_if_current key id c :
  steps c (remove_from_memory_if_current key id c).2.
Proof.
  unfold remove_from_memory_if_current. destruct (memory c !! key); [|done].
  case_decide; [|done]. apply steps_local; [done|]. apply delete_subseteq.
Qed.

Lemma steps_evict key id c : steps c (evict_if_current key id c).
Proof.
  unfold evict_if_current. pose proof (steps_remove_if_current key id c) as H.
  destruct (remove_from_memory_if_current key id c) as [[] c1]; [|done]. cbn in H.
  etrans; [exact H|]. by apply (steps_op (ORemove key)).
Qed.

Lemma steps_insert_memory key e captured c :
  entry_ok key e → steps c (insert_into_memory_guarded key e captured c).
Proof.
  intros He. unfold insert_into_memory_guarded. case_decide; [done|].
  assert (steps c (set_memory (<[key:=e]> (memory c)) c)) as H1.
  { split; [by exists []|]. cbn. intros k e' Hk. destruct (decide (k = key)) as [->|Hne].
    - rewrite lookup_insert_eq in Hk. simplify_eq. auto.
    - rewrite lookup_insert_ne in Hk by done. auto. }
  case_decide; [|done]. etrans; [exact H1|]. apply steps_remove_if_current.
Qed.

Lemma steps_evict_batch tm captured l count weight c :
  steps c (evict_batch ANALYZER_VERSION tm captured l count weight c).
Proof.
  revert count weight c. induction l as [|[s [key w]] l IH]; intros count weight c; cbn; [done|].
  case_decide; [done|]. etrans; [|apply IH].
  assert (∀ c', steps c c' → steps c (set_memory (delete key (memory c')) c')) as Hdel.
  { intros c' Hc. etrans; [exact Hc|]. apply steps_local; [done|]. apply delete_subseteq. }
  apply Hdel. destruct (memory c !! key) as [e|]; [|done]. case_decide; [|done].
  destruct (steps_disk_insert tm key e captured c) as [Hs _].
  destruct (disk_insert ANALYZER_VERSION tm key e captured c) as [[] c1]; [|done].
  etrans; [exact Hs|]. by apply steps_local.
Qed.

Lemma steps_cap tm c : steps c (enforce_memory_cap ANALYZER_VERSION tm c).
Proof. unfold enforce_memory_cap. case_decide; [done|]. apply steps_evict_batch. Qed.

Lemma steps_insert tm key r fps g c :
  steps c (insert_with_fingerprints_at_generation ANALYZER_VERSION tm key r fps g c).
Proof.
  unfold insert_with_fingerprints_at_generation.
  destruct (is_durable r) eqn:Hd; [|done]. destruct (fingerprints_are_reusable fps) eqn:Hf; [|done].
  cbn [negb orb]. unfold next_seq. destruct (RecencyClock.next_seq _) as [seq k]. cbn [allocate].
  set (c1 := {| memory := _ |}). set (e := {| en_cell := _ |}).
  assert (steps c c1) as H1 by (by apply steps_local).
  destruct (steps_disk_insert tm key e (clear_generation (disk c)) c1) as [H2 _].
  change (clear_generation (disk (clear_unknown key c))) with (clear_generation (disk c)).
  destruct (disk_insert ANALYZER_VERSION tm key e _ c1) as [ok c2]. cbn in H2.
  etrans; [|apply steps_cap]. etrans; [|apply steps_insert_memory; by split_and!].
  etrans; [exact H1|]. etrans; [exact H2|]. by destruct ok; [|apply steps_local].
Qed.

Lemma steps_promote (promote : bool) e c :
  let c' := if promote then let '(seq, c) := next_seq c in store_last_seq (en_cell e) seq c else c in
  steps c c' ∧ disk c' = disk c ∧ memory c' = memory c ∧ generation c' = generation c.
Proof.
  cbn zeta. destruct promote; [|by split]. unfold next_seq.
  destruct (RecencyClock.next_seq (clock c)) as [seq k]. split; [by apply steps_local|done].
Qed.

Lemma steps_lookup_memory tm key e promote rf stale c :
  steps c (lookup_memory tm key e promote rf stale c).2.
Proof.
  unfold lookup_memory. destruct (steps_promote promote e c) as [H1 _].
  set (c1 := if promote then _ else c) in *.
  assert (steps c1 (clear_unknown key c1)) as H2 by (by apply steps_local).
  assert (steps c (evict_if_current key (en_cell e) (clear_unknown key c1))) as Hev.
  { etrans; [exact H1|]. etrans; [exact H2|]. apply steps_evict. }
  destruct (negb rf && _ && _); cbn; [done|].
  destruct (check_fingerprints_strict (en_fingerprints e)); cbn; [|case_decide| |]; try done;
    try (etrans; [exact H1|]; by (destruct (en_first_party e); apply steps_local)).
Qed.

Context `{RL : !RedbLaws, LC : !LawfulEnvelopeCodec EC}.

Lemma steps_ok c c' : cache_ok c → steps c c' → cache_ok c'.
Proof.
  intros [Hq Hm] [[ops Hd] Hs]. split.
  - rewrite Hd. by apply (queue_ok_run_ops ANALYZER_VERSION fs_symlink_metadata).
  - intros k e Hk. destruct (Hs _ _ Hk); [by apply Hm|done].
Qed.

Lemma steps_lookup_disk tm key promote rf c :
  cache_ok c → steps c (lookup_disk ANALYZER_VERSION tm key promote rf c).2.
Proof.
  intros [Hq _]. unfold lookup_disk.
  pose proof (get_entry_served ANALYZER_VERSION (disk c) (clock c) (wall tm) key) as Hserved.
  destruct (get_entry ANALYZER_VERSION (clock c) (wall tm) key (disk c)) as [[got k] d] eqn:Eg.
  assert (steps c (set_clock k (set_disk d c))) as H1.
  { apply (steps_op (OGet (clock c) (wall tm) key)); [|done]. cbn. by rewrite Eg. }
  destruct got as [[cached f]|]; [|done]. case_decide; [done|].
  destruct (Hserved cached f Hq eq_refl) as (Hst & _ & _ & _ & Hfp).
  unfold storable in Hst. apply andb_true_iff in Hst as [Hdur Hreu].
  cbn [allocate]. set (e := {| en_cell := _ |}). set (c1 := {| memory := _ |}).
  assert (entry_ok key e) as He by (by split_and!).
  assert (steps c c1) as H2 by (etrans; [exact H1|by apply steps_local]).
  set (c2 := if decide (f = Fresh) then _ else c1).
  assert (steps c c2) as H3.
  { unfold c2. case_decide; [|done]. etrans; [exact H2|]. by apply steps_local. }
  destruct (steps_promote promote e c2) as [H4 _]. cbn.
  etrans; [exact H3|]. etrans; [exact H4|]. etrans; [by apply steps_insert_memory|apply steps_cap].
Qed.

Lemma steps_lookup tm key promote rf stale c :
  cache_ok c → steps c (lookup_cache ANALYZER_VERSION tm key promote rf stale c).2.
Proof.
  intros Hc. unfold lookup_cache. destruct (memory c !! key).
  - apply steps_lookup_memory.
  - by apply steps_lookup_disk.
Qed.

Lemma steps_persist_all tm captured l c :
  steps c (persist_all ANALYZER_VERSION tm captured l c).2.
Proof.
  revert c. induction l as [|[key e] l IH]; intros c; cbn; [done|].
  destruct (steps_disk_insert tm key e captured c) as [H1 _].
  destruct (disk_insert ANALYZER_VERSION tm key e captured c) as [ok c1]. specialize (IH c1).
  destruct (persist_all ANALYZER_VERSION tm captured l c1) as [failed c2]. by etrans.
Qed.

Lemma steps_sweep tm captured l c : steps c (sweep ANALYZER_VERSION tm captured l c).2.
Proof.
  revert c. induction l as [|[key e] l IH]; intros c; cbn; [done|].
  destruct (steps_disk_insert tm key e captured c) as [H1 _].
  destruct (disk_insert ANALYZER_VERSION tm key e captured c) as [ok c1]. cbn in H1.
  set (c2 := if ok then _ else c1). specialize (IH c2).
  assert (steps c c2) as H2.
  { etrans; [exact H1|]. unfold c2. by destruct ok; [apply steps_local|]. }
  destruct (sweep ANALYZER_VERSION tm captured l c2) as [failed c3]. by etrans.
Qed.

Lemma steps_flush tm c : steps c (flush_to_disk ANALYZER_VERSION tm c).2.
Proof.
  unfold flush_to_disk. set (entries := omap _ _).
  pose proof (steps_persist_all tm (clear_generation (disk c)) entries (set_dirty ∅ c)) as H1.
  destruct (persist_all _ _ _ entries _) as [fd c1]. cbn in H1. set (promoted := filter _ _).
  pose proof (steps_sweep tm (clear_generation (disk c)) promoted c1) as H2.
  destruct (sweep _ _ _ promoted c1) as [failed c2]. cbn in *.
  etrans; [by apply (steps_local c (set_dirty ∅ c))|]. etrans; [exact H1|]. etrans; [exact H2|].
  by apply (steps_op (OFlush (wall tm))).
Qed.

Lemma steps_run_op op c : cache_ok c → steps c (run_cache_op op c).
Proof.
  intros Hc. destruct op as [tm key r fps g|tm key intent|tm key|names|current|keys|tm| |]; cbn.
  - apply steps_insert.
  - unfold read. pose proof (steps_lookup tm key (intent_promotes intent)
      (intent_requires_fresh intent) EvictStale c Hc) as H.
    by destruct (lookup_cache _ _ _ _ _ _ c) as [[[r f]|] c1].
  - unfold get_with_result_freshness. pose proof (steps_lookup tm key true false ServeStale c Hc) as H.
    destruct (lookup_cache _ _ _ _ _ _ c) as [[[r f]|] c1]; [|done]. cbn in H.
    destruct f; try done; (etrans; [exact H|by apply steps_local]).
  - unfold invalidate. case_decide; [done|].
    apply (steps_op (OInvalidate names)); [done|]. apply map_filter_subseteq.
  - unfold purge_orphans.
    destruct (purge_orphan_entries fs_symlink_metadata current (disk c)) as [n d] eqn:E. cbn.
    apply (steps_op (OPurge current)); [cbn; by rewrite E|]. apply map_filter_subseteq.
  - unfold evict_disk_keys. destruct (remove_keys keys (disk c)) as [freed d] eqn:E. cbn.
    apply (steps_op (ORemoveKeys keys)); [cbn; by rewrite E|].
    apply map_subseteq_spec. intros k v Hk. by apply (lookup_delete_fold id) in Hk as [? _].
  - apply steps_flush.
  - apply (steps_op OClear); [done|]. apply map_empty_subseteq.
  - by apply steps_local.
Qed.

Lemma run_cache_ok ops c : cache_ok c → cache_ok (run_cache ops c).
Proof.
  revert c. induction ops as [|op ops IH]; intros c Hc; [done|].
  apply IH. eapply steps_ok; [done|]. by apply steps_run_op.
Qed.

(** A cache that has just been opened with nothing preloaded. *)
Definition new_cache (d : DiskCache) (k : RecencyClock.clock) (g : N) : ImportCache :=
  {| memory := ∅; cells := ∅; next_cell := 0; disk := d; dirty := ∅; revalidating := ∅;
     unknown_retry := ∅; clock := k; generation := g |}.

Lemma new_cache_ok d k g : d_pending d = ∅ → cache_ok (new_cache d k g).
Proof.
  intros Hd. split; [by apply queue_ok_empty|]. intros k' e Hk. cbn in Hk. by apply lookup_empty_Some in Hk.
Qed.

(** What a lookup may answer for an entry with fingerprints [fps]. *)
Definition honest (tm : Times) (key : string) (require_fresh : bool) (c : ImportCache)
    (fps : list FileFingerprint) (f : Freshness) : Prop :=
  f = check_fingerprints_strict fps ∨
  f = Fresh ∧ require_fresh = false ∧ cache_key_is_first_party key = false ∧
  ∃ e, memory c !! key = Some e ∧ en_fingerprints e = fps ∧
    verification.is_current (mono tm) (generation c) (k_verification (cell (en_cell e) c)) = true.

(** The bytes the shard holds for a key: a queued insert of its generation, or
    the committed row. *)
Definition keeps_bytes (d : DiskCache) (key : string) (bs : list ascii) : Prop :=
  d_pending d !! key = Some (clear_generation d, bs) ∨ ∃ db, d_db d = Some db ∧ committed_row key db = Some bs.
(** The result and the fingerprints of the entry that a lookup of [key] serves:
    the mirror's, and the shard's only when the mirror has none. *)
Definition entry_served (c : ImportCache) (key : string) (r : ImportResult) (fps : list FileFingerprint) : Prop :=
  match memory c !! key with
  | Some e => r = set_cache_hit true (en_result e) ∧ fps = en_fingerprints e
  | None => ∃ bs clock clock' stored, keeps_bytes (disk c) key bs ∧
      decode_cached_result ANALYZER_VERSION clock bs = (Some stored, clock') ∧
      r = set_cache_hit true (c_result stored) ∧ fps = c_fingerprints stored
  end.
Lemma get_entry_holds clock now key d cached f clock' d' :
  get_entry ANALYZER_VERSION clock now key d = (Some (cached, f), clock', d') →
  ∃ bs k k' stored, keeps_bytes d key bs ∧ decode_cached_result ANALYZER_VERSION k bs = (Some stored, k') ∧
    cached = set_first_party (cache_key_is_first_party key) stored ∧ f = check_fingerprints_strict (c_fingerprints stored).
Proof.
  unfold get_entry.
  destruct (match pending_insert ANALYZER_VERSION clock key d with
            | (Some pending, clock) => (Some pending, clock, stamp_access now d)
            | (None, clock) => read_committed ANALYZER_VERSION clock now key d
            end) as [[[stored|] k1] d1] eqn:E; [|done].
  intros H. assert (cached = set_first_party (cache_key_is_first_party key) stored ∧
    f = check_fingerprints_strict (c_fingerprints stored)) as [Hc Hf].
  { change (c_fingerprints (set_first_party (cache_key_is_first_party key) stored)) with (c_fingerprints stored) in H.
    destruct (check_fingerprints_strict (c_fingerprints stored)); by simplify_eq. }
  clear H. destruct (pending_insert ANALYZER_VERSION clock key d) as [[p|] k2] eqn:Hp.
  - simplify_eq. unfold pending_insert in Hp. destruct (d_pending d !! key) as [[g bs]|] eqn:Hk; [|done].
    case_decide as Hg; [done|]. subst g. exists bs, clock, k1, stored. split_and!; try done. by left.
  - unfold read_committed in E. destruct (d_db d) as [db|] eqn:Hdb; [|done].
    destruct (committed_row key db) as [bs|] eqn:Hrow; [|done].
    destruct (decode_cached_result ANALYZER_VERSION k2 bs) as [[x|] k3] eqn:Hdec; [|done].
    destruct (negb (storable x)); [done|]. simplify_eq. exists bs, k2, k1, stored. split_and!; try done. right. by exists db.
Qed.

Lemma lookup_served tm key promote rf stale c r f :
  cache_ok c →
  (lookup_cache ANALYZER_VERSION tm key promote rf stale c).1 = Some (r, f) →
  is_durable r = true ∧ f ≠ Gone ∧ (f = Stale → stale = ServeStale) ∧
  ∃ fps, entry_served c key r fps ∧ fingerprints_are_reusable fps = true ∧ honest tm key rf c fps f.
Proof.
  intros [Hq Hm]. unfold lookup_cache, entry_served. destruct (memory c !! key) as [e|] eqn:Hk.
  - destruct (Hm _ _ Hk) as (Hdur & Hreu & Hfp). unfold lookup_memory.
    set (c1 := if promote then _ else c).
    assert (k_verification (cell (en_cell e) c1) = k_verification (cell (en_cell e) c) ∧
            generation c1 = generation c) as [Hv Hg].
    { unfold c1. destruct promote; [|done]. unfold next_seq.
      destruct (RecencyClock.next_seq (clock c)). cbn. unfold cell at 1. cbn.
      by rewrite lookup_insert_eq. }
    rewrite Hg, Hv.
    destruct (negb rf && negb (en_first_party e) && verification.is_current _ _ _) eqn:Hfast.
    + cbn. intros [= <- <-]. apply andb_true_iff in Hfast as [Hfast Hcur].
      apply andb_true_iff in Hfast as [Hrf Hnf]. rewrite negb_true_iff in Hrf, Hnf.
      split_and!; [by rewrite storable_set_hit|done..|]. exists (en_fingerprints e).
      split; [done|]. split; [done|]. right. rewrite <- Hfp. split_and!; [done..|]. by exists e.
    + assert (∀ c' : ImportCache, (Some (set_cache_hit true (en_result e),
          check_fingerprints_strict (en_fingerprints e)), c').1 = Some (r, f) →
        check_fingerprints_strict (en_fingerprints e) ≠ Gone →
        (check_fingerprints_strict (en_fingerprints e) = Stale → stale = ServeStale) →
        is_durable r = true ∧ f ≠ Gone ∧ (f = Stale → stale = ServeStale) ∧
        ∃ fps, (r = set_cache_hit true (en_result e) ∧ fps = en_fingerprints e) ∧
          fingerprints_are_reusable fps = true ∧ honest tm key rf c fps f) as Hserve.
      { intros c' [= <- <-] ? ?. split_and!; [by rewrite storable_set_hit|done..|].
        exists (en_fingerprints e). split; [done|]. split; [done|by left]. }
      destruct (check_fingerprints_strict (en_fingerprints e)) eqn:Hf; cbn.
      * intros H. by eapply (Hserve c).
      * case_decide; [|done]. intros H'. by eapply (Hserve c).
      * done.
      * intros H. by eapply (Hserve c).
  - unfold lookup_disk.
    pose proof (get_entry_served ANALYZER_VERSION (disk c) (clock c) (wall tm) key) as Hserved.
    destruct (get_entry ANALYZER_VERSION (clock c) (wall tm) key (disk c)) as [[got k] d] eqn:Hget.
    destruct got as [[cached f']|]; [|done]. case_decide; [done|]. cbn. intros [= <- <-].
    apply get_entry_holds in Hget as (bs & k1 & k2 & stored & Hh & Hdec & -> & Hfs).
    destruct (Hserved _ f' Hq eq_refl) as (Hst & Hf & Hff & _).
    unfold storable in Hst. apply andb_true_iff in Hst as [Hdur Hreu].
    split_and!; [by rewrite storable_set_hit|by destruct Hff as [->| ->]|by destruct Hff as [->| ->]|].
    exists (c_fingerprints stored). split; [by exists bs, k1, k2, stored|]. split; [done|by left].
Qed.

(** C13. Reads never lie about freshness and never serve what must not be
    cached. After any history of a freshly opened cache, whatever a lookup
    serves is the durable result of the mirror's entry, or of the shard's when
    the mirror has none, and that entry's own fingerprints are one consistent
    observation; its freshness is the strict check of those fingerprints
    against the disk, or the fast path: never for a force-fresh read, never for
    a first-party package, and only while the entry was verified under the
    current generation within the window. A gone dependency is never served,
    and a stale one only under stale-while-revalidate. A force-fresh read
    returns a value only when its own entry's dependencies check out fresh now. *)
Theorem reads_are_durable_and_honest ops d k g tm key promote rf stale r f :
  d_pending d = ∅ →
  let c := run_cache ops (new_cache d k g) in
  (lookup_cache ANALYZER_VERSION tm key promote rf stale c).1 = Some (r, f) →
  is_durable r = true ∧ f ≠ Gone ∧ (f = Stale → stale = ServeStale) ∧
  (∃ fps, entry_served c key r fps ∧ fingerprints_are_reusable fps = true ∧ honest tm key rf c fps f) ∧
  (∀ b v, (read ANALYZER_VERSION tm key (RequireFresh b) c).1 = Some v →
     ∃ fps, entry_served c key v fps ∧ fingerprints_are_reusable fps = true ∧ check_fingerprints_strict fps = Fresh).
Proof.
  intros Hd c Hl. assert (cache_ok c) as Hc by (by apply run_cache_ok, new_cache_ok).
  destruct (lookup_served _ _ _ _ _ _ _ _ Hc Hl) as (? & ? & ? & ?). split_and!; [done..|].
  intros b v. unfold read. cbn [intent_promotes intent_requires_fresh].
  destruct (lookup_cache _ tm key b true EvictStale c) as [[[r' f']|] c'] eqn:El; [|done].
  cbn. case_bool_decide as Hf; [|done]. intros [= <-]. subst f'.
  destruct (lookup_served tm key b true EvictStale c r' Fresh Hc) as (_ & _ & _ & fps & Hs & Hreu & Hh);
    [by rewrite El|].
  exists fps. split; [done|]. split; [done|]. destruct Hh as [Hh|(_ & ? & _)]; [by rewrite <- Hh|done].
Qed.
End facts.
