(* ===== verification/MemoryCap.v ===== *)
(** * The memory cap, the recency sweep and graduation ([cache/memory.rs])

    The cap holds after every insert and evicts the least recently used clean
    entries only; a flush leaves no recency promotion behind; eviction
    candidates are never hot in memory; transient errors graduate. *)
From S2P Require Import Prelude Recency Results Fingerprints CacheKeys CachedImports ShardTables Disk DiskReads Memory.

Set Default Proof Using "Type*".

(** ** Weights *)

Definition true_weight (m : gmap string Entry) : N :=
  map_fold (λ _ e acc, memory_weight e + acc)%N 0%N m.

Lemma true_weight_insert m k e :
  m !! k = None → true_weight (<[k:=e]> m) = (memory_weight e + true_weight m)%N.
Proof. intros H. unfold true_weight. rewrite map_fold_insert_L; [done|intros; lia|done]. Qed.

Lemma true_weight_delete m k e :
  m !! k = Some e → (true_weight (delete k m) + memory_weight e = true_weight m)%N.
Proof.
  intros H. rewrite <- (insert_delete_id m k e H) at 2.
  rewrite true_weight_insert by apply lookup_delete_eq. lia.
Qed.

Lemma total_weight_true m : (true_weight m ≤ u64_max)%N → total_weight m = true_weight m.
Proof.
  induction m as [|k e m Hk _ IH] using map_first_key_ind; [done|]. intros Hle.
  rewrite true_weight_insert in Hle |- * by done. unfold total_weight.
  rewrite map_fold_insert_L; [|intros; unfold sat_add; lia|done].
  unfold total_weight in IH. rewrite IH by lia. apply sat_add_small. lia.
Qed.

Section cap.
Context `{R : Redb, HO : HashOrder, EC : EnvelopeCodec}.
Context (ANALYZER_VERSION : string).

Notation ImportCache := (@ImportCache R).

(** ** The batch *)

Lemma disk_insert_frame tm key e captured (c : ImportCache) :
  let c' := (disk_insert ANALYZER_VERSION tm key e captured c).2 in
  memory c' = memory c ∧ cells c' = cells c ∧ dirty c' = dirty c.
Proof. unfold disk_insert. by destruct (insert_at_generation _ _ _ _ _ _). Qed.

(** The part of a turn that persists a promotion. *)
Definition persist_promotion tm captured (key : string) (c : ImportCache) : ImportCache :=
  match memory c !! key with
  | Some e =>
      let last_seq := k_last_seq (cell (en_cell e) c) in
      if decide (k_persisted_seq (cell (en_cell e) c) < last_seq)%N then
        let '(ok, c) := disk_insert ANALYZER_VERSION tm key e captured c in
        if (ok : bool) then store_persisted_seq (en_cell e) last_seq c else c
      else c
  | None => c
  end.

Lemma persist_promotion_frame tm captured key c :
  memory (persist_promotion tm captured key c) = memory c ∧
  dirty (persist_promotion tm captured key c) = dirty c.
Proof.
  unfold persist_promotion. destruct (memory c !! key) as [e|]; [|done]. case_decide; [|done].
  destruct (disk_insert_frame tm key e captured c) as (Hm & _ & Hd).
  by destruct (disk_insert ANALYZER_VERSION tm key e captured c) as [[] c1].
Qed.

Lemma evict_batch_spec tm captured (l : list candidate) count weight (c : ImportCache) :
  NoDup ((λ x : candidate, x.2.1) <$> l) →
  (∀ s k w, (s, (k, w)) ∈ l → ∃ e, memory c !! k = Some e ∧ w = memory_weight e) →
  count = N.of_nat (size (memory c)) → weight = true_weight (memory c) →
  ∃ taken rest, l = taken ++ rest ∧
    let c' := evict_batch ANALYZER_VERSION tm captured l count weight c in
    memory c' = foldl (λ m x, delete (x : candidate).2.1 m) (memory c) taken ∧ dirty c' = dirty c ∧
    (rest = [] ∨ (N.of_nat (size (memory c')) ≤ MAX_MEMORY_ENTRIES * 9 / 10)%N ∧
                 (true_weight (memory c') ≤ MAX_MEMORY_WEIGHT_BYTES * 9 / 10)%N).
Proof.
  revert count weight c. induction l as [|[s [key w]] l IH]; intros count weight c Hnd Hin Hcount Hweight.
  { exists [], []. split; [done|]. cbn zeta. split_and!; [done..|by left]. }
  cbn [evict_batch]. case_decide as Hstop.
  { exists [], ((s, (key, w)) :: l). split; [done|]. cbn zeta. split_and!; [done..|right]. by subst. }
  fold (persist_promotion tm captured key c).
  destruct (persist_promotion_frame tm captured key c) as [Hm Hd].
  set (c1 := persist_promotion tm captured key c) in *.
  apply NoDup_cons in Hnd as [Hk Hnd]. cbn in Hk.
  destruct (Hin s key w) as (e & He & ->); [by left|].
  destruct (IH (sat_sub count 1) (sat_sub weight (memory_weight e))
    (set_memory (delete key (memory c1)) c1)) as (taken & rest & -> & Hmem & Hdirty & Hrest).
  - done.
  - intros s' k' w' Hin'. destruct (Hin s' k' w') as (e' & He' & ->); [by right|].
    exists e'. split; [|done]. cbn. rewrite Hm, lookup_delete_ne; [done|]. intros ->.
    apply Hk. apply list_elem_of_fmap. by exists (s', (k', memory_weight e')).
  - cbn. rewrite Hm, map_size_delete_Some by (by rewrite He). unfold sat_sub.
    assert (size (memory c) ≠ 0).
    { intros Hz%map_size_empty_inv. by rewrite Hz, lookup_empty in He. }
    lia.
  - cbn. rewrite Hm. pose proof (true_weight_delete (memory c) key e He). unfold sat_sub. lia.
  - exists ((s, (key, memory_weight e)) :: taken), rest. split; [done|]. cbn zeta.
    split_and!; [rewrite Hmem; cbn; by rewrite Hm|rewrite Hdirty; exact Hd|exact Hrest].
Qed.

(** ** The cap *)

Lemma elem_of_candidates (c : ImportCache) s k w :
  (s, (k, w)) ∈ candidates c ↔
  ∃ e, memory c !! k = Some e ∧ dirty c !! k = None ∧
    s = k_last_seq (cell (en_cell e) c) ∧ w = memory_weight e.
Proof.
  unfold candidates. rewrite elem_of_sort, list_elem_of_fmap. split.
  - intros ([k' e] & [= -> -> ->] & [Hd Hin]%list_elem_of_filter).
    apply elem_of_hash_iter in Hin. cbn in Hd. eauto.
  - intros (e & Hk & Hd & -> & ->). exists (k, e). split; [done|].
    apply list_elem_of_filter. by rewrite elem_of_hash_iter.
Qed.

Lemma candidates_nodup (c : ImportCache) : NoDup ((λ x : candidate, x.2.1) <$> candidates c).
Proof.
  unfold candidates. rewrite sort_perm, <- list_fmap_compose.
  eapply sublist_NoDup; [apply (hash_iter_nodup (memory c))|].
  assert (∀ l : list (string * Entry), (λ x : string * Entry, x.1) <$>
    filter (λ ke : string * Entry, dirty c !! ke.1 = None) l `sublist_of` l.*1) as Hsub.
  { intros l. induction l as [|[k e] l IH]; [constructor|]. rewrite filter_cons.
    case_decide; cbn; [by apply sublist_skip|by apply sublist_cons]. }
  apply Hsub.
Qed.

(** The memory cap holds. After enforcement the mirror is within both its
    entry and its weight bound, or holds nothing but dirty entries (whose only
    copy it is). Dirty entries are never evicted, nothing is added, and what is
    evicted was never used more recently than a clean entry that stays. *)
Theorem memory_cap_enforced tm (c : ImportCache) :
  (true_weight (memory c) ≤ u64_max)%N →
  let c' := enforce_memory_cap ANALYZER_VERSION tm c in
  ((N.of_nat (size (memory c')) ≤ MAX_MEMORY_ENTRIES)%N ∧
     (true_weight (memory c') ≤ MAX_MEMORY_WEIGHT_BYTES)%N ∨
   ∀ k, is_Some (memory c' !! k) → is_Some (dirty c' !! k)) ∧
  memory c' ⊆ memory c ∧ dirty c' = dirty c ∧
  (∀ k, is_Some (dirty c !! k) → memory c' !! k = memory c !! k) ∧
  (∀ k e k' e', memory c !! k = Some e → memory c' !! k = None →
     memory c' !! k' = Some e' → dirty c !! k' = None →
     (k_last_seq (cell (en_cell e) c) ≤ k_last_seq (cell (en_cell e') c))%N).
Proof.
  intros Hw. cbn zeta. unfold enforce_memory_cap. rewrite total_weight_true by done.
  case_decide as Hfit.
  { split_and!; [by left|done..|]. intros. congruence. }
  destruct (evict_batch_spec tm (clear_generation (disk c)) (candidates c)
    (N.of_nat (size (memory c))) (true_weight (memory c)) c) as (taken & rest & Hl & Hm & Hd & Hrest);
    [apply candidates_nodup| |done|done|].
  { intros s k w (e & ? & _ & _ & ->)%elem_of_candidates. eauto. }
  set (c' := evict_batch _ _ _ _ _ _ c) in *.
  assert (gone : ∀ k e, memory c' !! k = Some e ↔ memory c !! k = Some e ∧
                          Forall (λ x : candidate, x.2.1 ≠ k) taken).
  { intros k e. rewrite Hm. apply (lookup_delete_fold (λ x : candidate, x.2.1)). }
  assert (evicted : ∀ k e, memory c !! k = Some e → memory c' !! k = None →
            (k_last_seq (cell (en_cell e) c), (k, memory_weight e)) ∈ taken).
  { intros k e Hk Hnone. apply dec_stable. intros Hno.
    assert (memory c' !! k = Some e) as Hk'; [|congruence]. apply gone. split; [done|].
    apply Forall_forall. intros [s [k' w]] Hin Heq. cbn in Heq. subst k'.
    assert ((s, (k, w)) ∈ candidates c) as (e' & Hk2 & _ & -> & ->)%elem_of_candidates
      by (rewrite Hl; set_solver). simplify_eq. by apply Hno. }
  split_and!; [| |done| |].
  - destruct Hrest as [->|[? ?]]; [right|left; split; etrans; try done; by vm_compute].
    intros k [e He]. rewrite Hd. destruct (dirty c !! k) as [[]|] eqn:Hdk; [by eexists|].
    apply gone in He as [Hk Hall]. exfalso. rewrite app_nil_r in Hl. rewrite <- Hl in Hall.
    rewrite Forall_forall in Hall.
    apply (Hall (k_last_seq (cell (en_cell e) c), (k, memory_weight e))); [|done].
    apply elem_of_candidates. eauto.
  - apply map_subseteq_spec. intros k e He. by apply gone in He as [? _].
  - intros k [[] Hdk]. apply option_eq. intros e. rewrite gone. split; [by intros []|].
    intros Hk. split; [done|]. apply Forall_forall. intros [s [k' w]] Hin Heq. cbn in Heq. subst k'.
    assert ((s, (k, w)) ∈ candidates c) as (? & _ & ? & _)%elem_of_candidates
      by (rewrite Hl; set_solver). congruence.
  - intros k e k' e' Hk Hnone Hk' Hclean. specialize (evicted k e Hk Hnone).
    apply gone in Hk' as [Hk' Hall].
    assert ((k_last_seq (cell (en_cell e') c), (k', memory_weight e')) ∈ rest) as Hin'.
    { assert ((k_last_seq (cell (en_cell e') c), (k', memory_weight e')) ∈ candidates c) as Hc
        by (apply elem_of_candidates; eauto).
      rewrite Hl in Hc. apply elem_of_app in Hc as [Hc|?]; [|done].
      rewrite Forall_forall in Hall. by destruct (Hall _ Hc). }
    pose proof (sort_sorted candidate_cmp ((λ ke, (k_last_seq (cell (en_cell ke.2) c),
      (ke.1, memory_weight ke.2))) <$> filter (λ ke : string * Entry, dirty c !! ke.1 = None)
      (hash_iter (memory c)))) as Hs.
    change (sort candidate_cmp _) with (candidates c) in Hs. rewrite Hl in Hs.
    apply StronglySorted_app in Hs as (Hs & _ & _). specialize (Hs _ _ evicted Hin').
    unfold cmp_le, candidate_cmp, cmp_lex in Hs. cbn in Hs.
    destruct (N.compare_spec (k_last_seq (cell (en_cell e) c)) (k_last_seq (cell (en_cell e') c)));
      cbn in Hs; [lia|lia|done].
Qed.

(** ** The recency sweep *)

(** No unflushed promotion in the cell [id]. *)
Definition settled (id : N) (c : ImportCache) : Prop :=
  (k_last_seq (cell id c) ≤ k_persisted_seq (cell id c))%N.

Lemma settled_store id id' c :
  settled id c ∨ id = id' → settled id (store_persisted_seq id' (k_last_seq (cell id' c)) c).
Proof.
  unfold settled, store_persisted_seq, update_cell, cell. cbn. intros H.
  destruct (decide (id = id')) as [->|Hne].
  - rewrite lookup_insert_eq. cbn. lia.
  - rewrite lookup_insert_ne by done. by destruct H.
Qed.

Lemma sweep_settles tm captured l c failed c' :
  sweep ANALYZER_VERSION tm captured l c = (failed, c') →
  memory c' = memory c ∧ dirty c' = dirty c ∧
  (∀ id, settled id c → settled id c') ∧
  (∀ k e, (k, e) ∈ l → k ∉ failed → settled (en_cell e) c').
Proof.
  revert c failed c'. induction l as [|[key e] l IH]; intros c failed c'; cbn.
  { intros [= <- <-]. split_and!; [done..|]. set_solver. }
  destruct (disk_insert_frame tm key e captured c) as (Hm & Hc & Hd).
  destruct (disk_insert ANALYZER_VERSION tm key e captured c) as [ok c1]. cbn in Hm, Hc, Hd.
  assert (Hcell : ∀ id, cell id c1 = cell id c) by (intros id; unfold cell; by rewrite Hc).
  rewrite <- Hcell.
  destruct (sweep ANALYZER_VERSION tm captured l (if ok then _ else c1)) as [failed1 c2] eqn:Es.
  destruct (IH _ _ _ Es) as (Hm2 & Hd2 & Hkeep & Hset). intros [= <- <-].
  split_and!.
  - rewrite Hm2. by destruct ok.
  - rewrite Hd2. by destruct ok.
  - intros id Hs. apply Hkeep. assert (settled id c1) by (unfold settled; by rewrite Hcell).
    destruct ok; [apply settled_store; by left|done].
  - intros k' e' [[= -> ->]|Hin]%elem_of_cons Hnf.
    + destruct ok; [|set_solver]. apply Hkeep, settled_store. by right.
    + apply (Hset k'); [done|]. destruct ok; [done|]. set_solver.
Qed.

Lemma persist_all_frame tm captured l c :
  let c' := (persist_all ANALYZER_VERSION tm captured l c).2 in
  memory c' = memory c ∧ dirty c' = dirty c.
Proof.
  revert c. induction l as [|[key e] l IH]; intros c; cbn; [done|].
  destruct (disk_insert_frame tm key e captured c) as (Hm & _ & Hd).
  destruct (disk_insert ANALYZER_VERSION tm key e captured c) as [ok c1]. specialize (IH c1).
  destruct (persist_all ANALYZER_VERSION tm captured l c1) as [failed c2]. cbn in *.
  destruct IH. split; congruence.
Qed.

Lemma persist_all_failed tm captured l c k :
  k ∈ (persist_all ANALYZER_VERSION tm captured l c).1 → k ∈ l.*1.
Proof.
  revert c. induction l as [|[key e] l IH]; intros c; cbn; [done|].
  destruct (disk_insert ANALYZER_VERSION tm key e captured c) as [ok c1]. specialize (IH c1).
  destruct (persist_all ANALYZER_VERSION tm captured l c1) as [failed c2]. cbn in *.
  destruct ok; set_solver.
Qed.

Lemma mark_all_lookup (l : list string) (d : gmap string unit) k :
  is_Some (foldl (λ d k, <[k := tt]> d) d l !! k) → is_Some (d !! k) ∨ k ∈ l.
Proof.
  revert d. induction l as [|a l IH]; intros d; cbn; [auto|]. intros [Hs|Hs]%IH; [|set_solver].
  destruct (decide (a = k)) as [->|Hne]; [set_solver|]. rewrite lookup_insert_ne in Hs by done. auto.
Qed.

(** A flush that reports success has settled the session: no entry is
    marked dirty any more, none has a recency promotion that was not handed to
    the disk layer, and memory is unchanged. A flush that fails keeps exactly
    the keys whose replay failed marked dirty. *)
Theorem flush_settles_recency tm c ok c' :
  flush_to_disk ANALYZER_VERSION tm c = (ok, c') →
  memory c' = memory c ∧
  (ok = true → dirty c' = ∅ ∧
     ∀ k e, memory c' !! k = Some e → settled (en_cell e) c') ∧
  (∀ k, is_Some (dirty c' !! k) → is_Some (dirty c !! k)).
Proof.
  unfold flush_to_disk.
  set (entries := omap (λ k, (λ e, (k, e)) <$> memory (set_dirty ∅ c) !! k) (hash_iter (dirty c)).*1).
  pose proof (persist_all_frame tm (clear_generation (disk c)) entries (set_dirty ∅ c)) as Hp.
  destruct (persist_all _ _ _ entries _) as [fd c1] eqn:Epa. destruct Hp as [Hm1 Hd1]. cbn in Hm1, Hd1.
  set (promoted := filter _ _). destruct (sweep _ _ _ promoted c1) as [failed c2] eqn:Es.
  destruct (sweep_settles _ _ _ _ _ _ Es) as (Hm2 & Hd2 & Hkeep & Hset).
  intros [= <- <-]. cbn [memory set_dirty set_disk dirty]. split_and!.
  - congruence.
  - intros [-> ->]%bool_decide_eq_true. split; [cbn; congruence|].
    intros k e Hk. change (settled (en_cell e) c2).
    destruct (decide (k_persisted_seq (cell (en_cell e) c1) < k_last_seq (cell (en_cell e) c1))%N)
      as [Hlt|Hge].
    + apply (Hset k); [|set_solver]. unfold promoted. apply list_elem_of_filter.
      rewrite elem_of_hash_iter. cbn. split_and!; [set_solver|done|congruence].
    + apply Hkeep. unfold settled. lia.
  - intros k Hk. apply mark_all_lookup in Hk as [[? Hk]|Hk].
    { rewrite Hd2, Hd1 in Hk. by apply lookup_empty_Some in Hk. }
    pose proof (persist_all_failed tm (clear_generation (disk c)) entries (set_dirty ∅ c) k) as Hsub.
    rewrite Epa in Hsub. apply Hsub, list_elem_of_fmap in Hk as ([k' e] & -> & Hin).
    unfold entries in Hin. apply list_elem_of_omap in Hin as (k2 & Hk2 & He).
    apply list_elem_of_fmap in Hk2 as ([k3 []] & -> & Hk3%elem_of_hash_iter). cbn in *.
    destruct (memory c !! k3); simplify_eq/=. by eexists.
Qed.

(** ** Eviction candidates *)

(** [key], persisted at [seq], was used since. *)
Definition hot (c : ImportCache) (key : string) (seq : N) : Prop :=
  ∃ e, memory c !! key = Some e ∧ (seq < k_last_seq (cell (en_cell e) c))%N.
#[export] Instance hot_dec c key seq : Decision (hot c key seq).
Proof.
  destruct (memory c !! key) as [e|] eqn:E.
  - destruct (decide (seq < k_last_seq (cell (en_cell e) c))%N).
    + left. by exists e.
    + right. intros (e' & He & ?). congruence.
  - right. intros (e & He & _). congruence.
Defined.

Lemma filter_evictable_spec c l n :
  0 < n →
  filter_evictable c l n = (take n (filter (λ ks : string * N, ¬ hot c ks.1 ks.2) l)).*1.
Proof.
  revert n. induction l as [|[key seq] l IH]; intros n Hn; [by destruct n|].
  cbn [filter_evictable]. rewrite filter_cons.
  assert (match memory c !! key with
          | Some e => bool_decide (seq < k_last_seq (cell (en_cell e) c))%N
          | None => false end = bool_decide (hot c key seq)) as ->.
  { symmetry. destruct (memory c !! key) as [e|] eqn:E.
    - apply bool_decide_ext. split; [|by exists e]. intros (e' & He & ?). by simplify_eq.
    - apply bool_decide_eq_false. intros (e & He & _). congruence. }
  case_bool_decide as Hh.
  - rewrite decide_False by (by intros Hn'; apply Hn'). by apply IH.
  - rewrite decide_True by done. destruct n as [|[|n]]; [lia|done|].
    cbn [take fmap list_fmap fst]. f_equal. apply IH. lia.
Qed.

Lemma evictable_window tm n floor c :
  0 < n →
  let c' := (lowest_seq_disk_keys tm n floor c).2 in
  let keys := (lowest_seq_disk_keys tm n floor c).1 in
  length keys ≤ n ∧
  ∃ window, keys = (take n (filter (λ ks : string * N, ¬ hot c' ks.1 ks.2) window)).*1 ∧
    (window = (lowest_seq_keys (wall tm) n floor (disk c)).1 ∨
     length (lowest_seq_keys (wall tm) n floor (disk c)).1 = n ∧
     window = (lowest_seq_keys (wall tm) MAX_EVICTION_SCAN floor
                (lowest_seq_keys (wall tm) n floor (disk c)).2).1).
Proof.
  intros Hn. cbn zeta. unfold lowest_seq_disk_keys. rewrite decide_False by lia.
  destruct (lowest_seq_keys (wall tm) n floor (disk c)) as [first d] eqn:E1.
  assert (length first ≤ n) as Hlen.
  { revert E1. unfold lowest_seq_keys. repeat case_match; intros; simplify_eq; cbn; try lia.
    rewrite length_fmap, length_take. lia. }
  destruct (bool_decide _ || bool_decide _) eqn:Hdone.
  - cbn. rewrite filter_evictable_spec by done. split.
    + rewrite length_fmap, length_take. lia.
    + exists first. split; [done|by left].
  - apply orb_false_iff in Hdone as [_ Hex]. apply bool_decide_eq_false in Hex. cbn [disk set_disk].
    destruct (lowest_seq_keys (wall tm) MAX_EVICTION_SCAN floor d) as [wide d2] eqn:E2. cbn.
    rewrite filter_evictable_spec by done. split.
    + rewrite length_fmap, length_take. lia.
    + exists wide. split; [done|]. right. split; [lia|]. exact (eq_sym (f_equal fst E2)).
Qed.

(** The evictor never takes an entry in use. The candidates a cache offers
    are at most [n], in ascending recency, none of them promoted in memory past
    the recency the disk index filed it under; and they are the first [n] such
    rows of the shard's eviction window: of the first [n] rows when enough of
    those are cold, of the wider window otherwise. *)
Theorem evictable_keys_are_cold tm n floor c :
  0 < n →
  let c' := (lowest_seq_disk_keys tm n floor c).2 in
  let keys := (lowest_seq_disk_keys tm n floor c).1 in
  length keys ≤ n ∧
  ∃ window, keys = (take n (filter (λ ks : string * N, ¬ hot c' ks.1 ks.2) window)).*1 ∧
    (window = (lowest_seq_keys (wall tm) n floor (disk c)).1 ∨
     length (lowest_seq_keys (wall tm) n floor (disk c)).1 = n ∧
     window = (lowest_seq_keys (wall tm) MAX_EVICTION_SCAN floor
                (lowest_seq_keys (wall tm) n floor (disk c)).2).1).
Proof. apply evictable_window. Qed.

(** ** Graduation *)

(** Sightings of a transient error at the monotonic times [ts]; what the last
    one is served as. *)
Fixpoint sightings (key : string) (ts : list N) (c : ImportCache) : option ResultFreshness * ImportCache :=
  match ts with
  | [] => (None, c)
  | t :: rest =>
      let '(f, c) := record_unknown {| wall := 0; mono := t |} key c in
      match rest with
      | [] => (Some f, c)
      | _ => sightings key rest c
      end
  end.

Lemma sightings_from key t0 ts n c :
  unknown_retry c !! key = Some {| first_seen := t0; attempts := n |} →
  (n + N.of_nat (length ts) ≤ u32_max)%N → ∀ t, last ts = Some t →
  (sightings key ts c).1 = Some
    (if decide (n + N.of_nat (length ts) ≤ UNKNOWN_MAX_ATTEMPTS ∧
                sat_sub t t0 < UNKNOWN_PERSIST_AFTER_millis)%N
     then freshness.stale true
     else freshness.unverified "dependency verification failed (transient)").
Proof.
  revert n c. induction ts as [|t1 ts IH]; intros n c Hu Hmax t Hlast; [done|].
  cbn [sightings]. unfold record_unknown. rewrite Hu. unfold default, id; cbn [attempts first_seen mono].
  cbn [length] in Hmax. rewrite N.min_l by lia. destruct ts as [|t2 ts].
  - cbn in Hlast. simplify_eq. cbn [fst length]. f_equal.
    change (N.of_nat 1) with 1%N. unfold sat_sub.
    case_decide as Hd; [destruct Hd; by rewrite !bool_decide_eq_true_2|].
    destruct (bool_decide _ && bool_decide _) eqn:Eb; [|done].
    apply andb_true_iff in Eb as [?%bool_decide_eq_true ?%bool_decide_eq_true]. by destruct Hd.
  - etrans; [apply (IH (n + 1)%N); [by cbn; rewrite lookup_insert_eq|cbn [length] in *; lia|exact Hlast]|].
    do 2 f_equal. cbn [length]. replace (n + 1 + N.of_nat (S (length ts)))%N
      with (n + N.of_nat (S (S (length ts))))%N by lia. done.
Qed.

(** A transient error graduates. Counted from the last conclusive outcome
    for a key, the sightings of an unknown freshness are served quietly as stale
    while there have been at most three of them and the first is less than two
    seconds old, and as unverified from then on; never as fresh. *)
Theorem unknown_graduates key t0 ts c t :
  (N.of_nat (S (length ts)) ≤ u32_max)%N → last (t0 :: ts) = Some t →
  (sightings key (t0 :: ts) (clear_unknown key c)).1 = Some
    (if decide (N.of_nat (S (length ts)) ≤ UNKNOWN_MAX_ATTEMPTS ∧
                sat_sub t t0 < UNKNOWN_PERSIST_AFTER_millis)%N
     then freshness.stale true
     else freshness.unverified "dependency verification failed (transient)").
Proof.
  intros Hmax Hlast.
  set (c0 := set_unknown (<[key := {| first_seen := t0; attempts := 0 |}]> (unknown_retry c)) c).
  pose proof (sightings_from key t0 (t0 :: ts) 0 c0 (lookup_insert_eq _ _ _) Hmax t Hlast) as H.
  rewrite N.add_0_l in H. etrans; [|exact H]. clear H.
  cbn [sightings]. unfold record_unknown, clear_unknown. cbn [unknown_retry set_unknown c0].
  rewrite lookup_delete_eq, lookup_insert_eq. unfold default, id. cbn [attempts first_seen mono].
  rewrite insert_delete_eq, insert_insert_eq. done.
Qed.
End cap.

Section clear.
Context `{R : Redb, HO : HashOrder, EC : EnvelopeCodec, CD : IdentityCodec,
          FS : FileSystem, CH : ContentHash, RL : !RedbLaws}.
Context (ANALYZER_VERSION : string).

(** C3. A cleared cache serves nothing: once the shard's wipe went through, no
    read of any kind finds any key in either layer until something is inserted
    again. *)
Theorem cleared_cache_serves_nothing tm key promote rf stale (c : @ImportCache R) :
  on_db (λ T, t_cache T = ∅) (disk (clear_cache c)) →
  (lookup_cache ANALYZER_VERSION tm key promote rf stale (clear_cache c)).1 = None.
Proof.
  intros Hempty. unfold lookup_cache. cbn [clear_cache memory set_unknown set_dirty set_memory].
  rewrite lookup_empty. unfold lookup_disk.
  change (disk (clear_cache c)) with (clear (disk c)) in *.
  destruct (get_entry ANALYZER_VERSION (clock (clear_cache c)) (wall tm) key (clear (disk c)))
    as [[got k] d] eqn:Eg.
  enough (got = None) as -> by done. revert Eg. unfold get_entry.
  assert (pending_insert ANALYZER_VERSION (clock (clear_cache c)) key (clear (disk c)) =
    (None, clock (clear_cache c))) as ->.
  { unfold pending_insert. assert (d_pending (clear (disk c)) = ∅) as -> by done.
    by rewrite lookup_empty. }
  unfold read_committed. destruct (d_db (clear (disk c))) as [db|] eqn:Hdb; [|by intros [= <- _ _]].
  assert (committed_row key db = None) as ->; [|by intros [= <- _ _]].
  unfold committed_row. destruct (begin_read db) as [t|] eqn:Hb; [|done]. cbn.
  destruct ((_ ← open_table CACHE_TABLE; cache_get key) t) as [[row|] t'] eqn:E; [|done].
  assert (wp (_ ← open_table CACHE_TABLE; cache_get key) (λ r _, r = None) (db_tables db)) as Hw.
  { apply wp_bind, wp_open_table, wp_cache_get. by rewrite (Hempty _ Hdb), lookup_empty. }
  apply (Hw t row t'); [by apply begin_read_tables|done].
Qed.
End clear.

(** ** Witnesses *)

Definition small_cache : @ImportCache (mem_redb true) :=
  new_cache (shard_of (mem_redb true) no_tables ∅ 0) 5%N 1%N.
Definition at_zero : Times := {| wall := 0; mono := 0 |}.
Definition react_entry : Entry :=
  {| en_cell := 0; en_result := c_result (sample_import 7); en_fingerprints := [];
     en_first_party := false |}.
(** One entry, promoted past what the disk holds. *)
Definition promoted_cache : @ImportCache (mem_redb true) :=
  set_cells {[0%N := {| k_last_seq := 9; k_persisted_seq := 7; k_verification := verification.never |}]}
    (set_memory {["react" := react_entry]} small_cache).

Example memory_cap_enforced_witness :
  memory (@enforce_memory_cap (mem_redb true) key_order sample_codec "1.0.0" at_zero promoted_cache)
    ⊆ memory promoted_cache.
Proof.
  refine (proj1 (proj2 (@memory_cap_enforced (mem_redb true) key_order sample_codec "1.0.0" at_zero
    promoted_cache _))).
  vm_compute. discriminate.
Defined.

Example flush_settles_recency_witness :
  let r := @flush_to_disk (mem_redb true) key_order sample_codec "1.0.0" at_zero promoted_cache in
  r.1 = true ∧ settled 0 r.2.
Proof.
  intros r. destruct r as [ok c'] eqn:E.
  assert (ok = true) as -> by (apply (f_equal fst) in E; revert E; vm_compute; congruence).
  split; [reflexivity|].
  pose proof (@flush_settles_recency (mem_redb true) key_order sample_codec "1.0.0" at_zero
    promoted_cache true c' E) as (Hm & Hok & _).
  apply (proj2 (Hok eq_refl) "react" react_entry). rewrite Hm. reflexivity.
Defined.

Example evictable_keys_are_cold_witness :
  length (@lowest_seq_disk_keys (mem_redb true) key_order at_zero 4 0 promoted_cache).1 ≤ 4.
Proof.
  refine (proj1 (@evictable_keys_are_cold (mem_redb true) key_order at_zero 4 0%N promoted_cache _)).
  lia.
Defined.

Example unknown_graduates_witness :
  (sightings "react" [10; 20; 30; 40]%N (clear_unknown "react" small_cache)).1 =
    Some (freshness.unverified "dependency verification failed (transient)") ∧
  (sightings "react" [10; 20; 30]%N (clear_unknown "react" small_cache)).1 = Some (freshness.stale true).
Proof.
  split.
  - rewrite (@unknown_graduates (mem_redb true) "react" 10%N [20; 30; 40]%N small_cache 40%N);
      [reflexivity|vm_compute; discriminate|reflexivity].
  - rewrite (@unknown_graduates (mem_redb true) "react" 10%N [20; 30]%N small_cache 30%N);
      [reflexivity|vm_compute; discriminate|reflexivity].
Defined.

Example cleared_cache_serves_nothing_witness :
  (@lookup_cache (mem_redb true) key_order sample_codec bit_codec some_disk length_hash "1.0.0"
     at_zero "react" true false EvictStale (clear_cache promoted_cache)).1 = None.
Proof.
  apply (@cleared_cache_serves_nothing (mem_redb true) key_order sample_codec bit_codec some_disk
    length_hash (mem_redb_laws true) "1.0.0" at_zero "react" true false EvictStale promoted_cache).
  intros db [= <-]. reflexivity.
Defined.

Example reads_are_durable_and_honest_witness :
  let c := @run_cache (mem_redb true) key_order sample_codec bit_codec some_disk length_hash "1.0.0"
             (λ _, None) [CInsert at_zero "react" (c_result (sample_import 7)) [] 1%N] small_cache in
  match (@lookup_cache (mem_redb true) key_order sample_codec bit_codec some_disk length_hash "1.0.0"
           at_zero "react" true true EvictStale c).1 with
  | Some (r, f) => is_durable r = true ∧ f ≠ Gone
  | None => False
  end.
Proof.
  intros c.
  destruct (@lookup_cache (mem_redb true) key_order sample_codec bit_codec some_disk length_hash
    "1.0.0" at_zero "react" true true EvictStale c).1 as [[r f]|] eqn:E.
  - destruct (@reads_are_durable_and_honest (mem_redb true) key_order sample_codec bit_codec
      some_disk length_hash "1.0.0" (λ _, None) (mem_redb_laws true)
      (one_envelope_lawful _ _) [CInsert at_zero "react" (c_result (sample_import 7)) [] 1%N]
      (shard_of (mem_redb true) no_tables ∅ 0) 5%N 1%N at_zero "react" true true EvictStale r f
      eq_refl E)
      as (Hd & Hf & _).
    split; [exact Hd|exact Hf].
  - revert E. vm_compute. discriminate.
Defined.
