(* ===== verification/ClearRace.v ===== *)
(** * A clear racing inserts ([cache/memory.rs] 681-749)

    [insert_into_memory_guarded] and [clear] run on different threads over a
    lock-free map. Here each is split at its atomic actions, and any
    interleaving of any number of them is a run. A thread is named by the
    identity of the entry it inserts; the generation a thread captured is kept
    with the entry in the map, as a ghost. Generations do not wrap here: it
    would take 2^64 clears. *)
From S2P Require Import Prelude.

(** Where a thread is. *)
Inductive thread :=
  | Captured (key : string) (g : N)   (* read the generation, derived its entry *)
  | Checked (key : string) (g : N)    (* saw it unchanged *)
  | Inserted (key : string) (g : N)   (* put its entry in the map *)
  | Bumped.                           (* a clear, between its two halves *)

Record race := {
  r_generation : N;
  r_memory : gmap string (N * N);     (* key to (entry identity, captured generation) *)
  r_threads : gmap N thread;
  r_next : N;
}.

Definition initial : race :=
  {| r_generation := 0; r_memory := ∅; r_threads := ∅; r_next := 0 |}.

Inductive action :=
  | BeginInsert (key : string)        (* capture [clear_generation] *)
  | CheckBefore (id : N)              (* line 709 *)
  | InsertEntry (id : N)              (* line 718 *)
  | CheckAfter (id : N)               (* lines 720-722 *)
  | BeginClear                        (* [disk.clear()]: the bump *)
  | WipeMemory (id : N).              (* [memory.pin().clear()] *)

Definition with_threads (t : gmap N thread) (s : race) : race :=
  {| r_generation := r_generation s; r_memory := r_memory s; r_threads := t; r_next := r_next s |}.
Definition with_memory (m : gmap string (N * N)) (s : race) : race :=
  {| r_generation := r_generation s; r_memory := m; r_threads := r_threads s; r_next := r_next s |}.

(** [remove_from_memory_if_current]. *)
Definition remove_if_current (key : string) (id : N) (m : gmap string (N * N)) : gmap string (N * N) :=
  match m !! key with
  | Some (id', _) => if decide (id' = id) then delete key m else m
  | None => m
  end.

(** One atomic action; [None] when no thread is ready for it. *)
Definition step (a : action) (s : race) : option race :=
  match a with
  | BeginInsert key =>
      Some {| r_generation := r_generation s; r_memory := r_memory s;
              r_threads := <[r_next s := Captured key (r_generation s)]> (r_threads s);
              r_next := r_next s + 1 |}
  | CheckBefore id =>
      match r_threads s !! id with
      | Some (Captured key g) =>
          Some (if decide (r_generation s ≠ g) then with_threads (delete id (r_threads s)) s
                else with_threads (<[id := Checked key g]> (r_threads s)) s)
      | _ => None
      end
  | InsertEntry id =>
      match r_threads s !! id with
      | Some (Checked key g) =>
          Some (with_memory (<[key := (id, g)]> (r_memory s))
                  (with_threads (<[id := Inserted key g]> (r_threads s)) s))
      | _ => None
      end
  | CheckAfter id =>
      match r_threads s !! id with
      | Some (Inserted key g) =>
          let s' := with_threads (delete id (r_threads s)) s in
          Some (if decide (r_generation s ≠ g)
                then with_memory (remove_if_current key id (r_memory s)) s' else s')
      | _ => None
      end
  | BeginClear =>
      Some {| r_generation := r_generation s + 1; r_memory := r_memory s;
              r_threads := <[r_next s := Bumped]> (r_threads s); r_next := r_next s + 1 |}
  | WipeMemory id =>
      match r_threads s !! id with
      | Some Bumped => Some (with_memory ∅ (with_threads (delete id (r_threads s)) s))
      | _ => None
      end
  end.

Inductive reachable : race → Prop :=
  | reach_initial : reachable initial
  | reach_step a s s' : reachable s → step a s = Some s' → reachable s'.

(** ** The invariant *)

Definition thread_generation (t : thread) : option N :=
  match t with Captured _ g | Checked _ g | Inserted _ g => Some g | Bumped => None end.

(** Why an entry may be in the map. *)
Definition accounted (s : race) (key : string) (id g : N) : Prop :=
  g = r_generation s ∨ r_threads s !! id = Some (Inserted key g) ∨
  ∃ i, r_threads s !! i = Some Bumped.

Record inv (s : race) : Prop := {
  inv_accounted : ∀ k id g, r_memory s !! k = Some (id, g) → accounted s k id g;
  inv_fresh_memory : ∀ k id g, r_memory s !! k = Some (id, g) → (id < r_next s)%N;
  inv_fresh_threads : ∀ id t, r_threads s !! id = Some t → (id < r_next s)%N;
  inv_identity : ∀ k id g t g', r_memory s !! k = Some (id, g) → r_threads s !! id = Some t →
    thread_generation t = Some g' → g = g';
  inv_not_inserted : ∀ k id g key g', r_memory s !! k = Some (id, g) →
    r_threads s !! id ≠ Some (Captured key g') ∧ r_threads s !! id ≠ Some (Checked key g');
  inv_same_key : ∀ k id g key g', r_memory s !! k = Some (id, g) →
    r_threads s !! id = Some (Inserted key g') → k = key;
}.

Lemma remove_if_current_lookup key id m k e :
  remove_if_current key id m !! k = Some e ↔ m !! k = Some e ∧ (k = key → e.1 ≠ id).
Proof.
  unfold remove_if_current. destruct (m !! key) as [[id' g]|] eqn:Hk.
  - case_decide as Hid.
    + rewrite lookup_delete_Some. split.
      * intros [Hne Hm]. split; [done|]. intros ->. done.
      * intros [Hm He]. split; [|done]. intros ->. rewrite Hk in Hm. simplify_eq. by apply He.
    + split; [|by intros []]. intros Hm. split; [done|]. intros ->. rewrite Hk in Hm. by simplify_eq.
  - split; [|by intros []]. intros Hm. split; [done|]. intros ->. congruence.
Qed.

Lemma inv_begin s t g :
  inv s → (r_generation s ≤ g)%N →
  (t = Bumped ∨ ∃ k, t = Captured k (r_generation s) ∧ g = r_generation s) →
  inv {| r_generation := g; r_memory := r_memory s; r_threads := <[r_next s := t]> (r_threads s);
         r_next := r_next s + 1 |}.
Proof.
  intros [Ha Hfm Hft Hid Hni Hsk] Hg Ht.
  assert (Hother : ∀ k id g, r_memory s !! k = Some (id, g) →
            <[r_next s := t]> (r_threads s) !! id = r_threads s !! id).
  { intros k id g0 Hk. rewrite lookup_insert_ne; [done|]. pose proof (Hfm _ _ _ Hk). lia. }
  split; cbn.
  - intros k id g0 Hk. unfold accounted. cbn. rewrite (Hother _ _ _ Hk).
    destruct Ht as [->|(k0 & -> & ->)]; [right; right; exists (r_next s); by rewrite lookup_insert_eq|].
    destruct (Ha _ _ _ Hk) as [?|[?|[i Hi]]]; [by left|by right; left|].
    right. right. exists i. rewrite lookup_insert_ne; [done|]. pose proof (Hft _ _ Hi). lia.
  - intros k id g0 Hk. pose proof (Hfm _ _ _ Hk). lia.
  - intros id t'. destruct (decide (id = r_next s)) as [->|Hne]; [lia|].
    rewrite lookup_insert_ne by done. intros Hi. pose proof (Hft _ _ Hi). lia.
  - intros k id g0 t' g' Hk. rewrite (Hother _ _ _ Hk). by eapply Hid.
  - intros k id g0 key g' Hk. rewrite (Hother _ _ _ Hk). by eapply Hni.
  - intros k id g0 key g' Hk. rewrite (Hother _ _ _ Hk). by eapply Hsk.
Qed.

(** Dropping entries, or a thread no entry depends on. *)
Lemma inv_shrink s m t :
  inv s →
  (∀ k e, m !! k = Some e → r_memory s !! k = Some e) →
  (∀ id x, t !! id = Some x → r_threads s !! id = Some x) →
  (∀ k id g, m !! k = Some (id, g) → g = r_generation s ∨ t !! id = Some (Inserted k g) ∨
     ∃ i, t !! i = Some Bumped) →
  inv (with_memory m (with_threads t s)).
Proof.
  intros [Ha Hfm Hft Hid Hni Hsk] Hm Ht Hacc. split; cbn.
  - intros k id g Hk. by apply Hacc.
  - intros k id g Hk. by eapply Hfm, Hm.
  - intros id x Hx. by eapply Hft, Ht.
  - intros k id g x g' Hk Hx. eapply Hid; [by apply Hm|by apply Ht].
  - intros k id g key g' Hk. destruct (Hni _ _ _ key g' (Hm _ _ Hk)) as [H1 H2].
    split; intros Hx; [apply H1|apply H2]; by apply Ht.
  - intros k id g key g' Hk Hx. eapply Hsk; [by apply Hm|by apply Ht].
Qed.

(** A thread that has not inserted yet names no entry of the map. *)
Lemma no_entry_yet s id key g :
  inv s → (r_threads s !! id = Some (Captured key g) ∨ r_threads s !! id = Some (Checked key g)) →
  ∀ k id' g', r_memory s !! k = Some (id', g') → id' ≠ id.
Proof.
  intros [_ _ _ _ Hni _] Ht k id' g' Hk ->. destruct (Hni _ _ _ key g Hk). by destruct Ht.
Qed.

(** Entries of other threads stay accounted for when thread [id], which is not
    a clear, moves on. *)
Lemma accounted_other s s' id k id' g :
  accounted s k id' g → id' ≠ id → r_threads s !! id ≠ Some Bumped →
  r_generation s' = r_generation s →
  (∀ i, i ≠ id → r_threads s' !! i = r_threads s !! i) → accounted s' k id' g.
Proof.
  intros [?|[Hi|[i Hi]]] Hne Hb Hg Ht.
  - left. congruence.
  - right. left. by rewrite Ht.
  - right. right. exists i. rewrite Ht; [done|]. by intros ->.
Qed.

Lemma inv_check_before s id key g :
  inv s → r_threads s !! id = Some (Captured key g) →
  inv (if decide (r_generation s ≠ g) then with_threads (delete id (r_threads s)) s
       else with_threads (<[id := Checked key g]> (r_threads s)) s).
Proof.
  intros Hinv Ht. pose proof (no_entry_yet s id key g Hinv (or_introl Ht)) as Hdel.
  destruct Hinv as [Ha Hfm Hft Hid Hni Hsk]. case_decide.
  - split; cbn; [|done| | | |].
    + intros k id' g' Hk. eapply (accounted_other s); [by apply Ha|by eapply Hdel|by rewrite Ht|done|].
      intros i Hi. cbn. by rewrite lookup_delete_ne.
    + intros i x [_ Hx]%lookup_delete_Some. by eapply Hft.
    + intros k id' g' t g0 Hk [_ Hx]%lookup_delete_Some. by eapply Hid.
    + intros k id' g' key' g0 Hk. rewrite lookup_delete_ne by (symmetry; by eapply Hdel). by eapply Hni.
    + intros k id' g' key' g0 Hk [_ Hx]%lookup_delete_Some. by eapply Hsk.
  - split; cbn; [|done| | | |].
    + intros k id' g' Hk. eapply (accounted_other s); [by apply Ha|by eapply Hdel|by rewrite Ht|done|].
      intros i Hi. cbn. by rewrite lookup_insert_ne.
    + intros i x. destruct (decide (i = id)) as [->|Hne]; [intros _; by eapply Hft|].
      rewrite lookup_insert_ne by done. apply Hft.
    + intros k id' g' t g0 Hk. rewrite lookup_insert_ne by (symmetry; by eapply Hdel). by eapply Hid.
    + intros k id' g' key' g0 Hk. rewrite lookup_insert_ne by (symmetry; by eapply Hdel). by eapply Hni.
    + intros k id' g' key' g0 Hk. rewrite lookup_insert_ne by (symmetry; by eapply Hdel). by eapply Hsk.
Qed.

Lemma inv_insert_entry s id key g :
  inv s → r_threads s !! id = Some (Checked key g) →
  inv (with_memory (<[key := (id, g)]> (r_memory s))
         (with_threads (<[id := Inserted key g]> (r_threads s)) s)).
Proof.
  intros Hinv Ht. pose proof (no_entry_yet s id key g Hinv (or_intror Ht)) as Hdel.
  destruct Hinv as [Ha Hfm Hft Hid Hni Hsk].
  assert (Hcase : ∀ k id' g', <[key := (id, g)]> (r_memory s) !! k = Some (id', g') →
    (k = key ∧ id' = id ∧ g' = g) ∨ (id' ≠ id ∧ r_memory s !! k = Some (id', g'))).
  { intros k id' g'. destruct (decide (k = key)) as [->|Hne].
    - rewrite lookup_insert_eq. intros [= <- <-]. by left.
    - rewrite lookup_insert_ne by done. intros Hk. right. split; [by eapply Hdel|done]. }
  split; cbn.
  - intros k id' g' [(-> & -> & ->)|[Hne Hk]]%Hcase.
    + right. left. cbn. by rewrite lookup_insert_eq.
    + eapply (accounted_other s); [by apply Ha|done|by rewrite Ht|done|].
      intros i Hi. cbn. by rewrite lookup_insert_ne.
  - intros k id' g' [(-> & -> & ->)|[Hne Hk]]%Hcase; [by eapply Hft|by eapply Hfm].
  - intros i x. destruct (decide (i = id)) as [->|Hne]; [intros _; by eapply Hft|].
    rewrite lookup_insert_ne by done. apply Hft.
  - intros k id' g' t g0 [(-> & -> & ->)|[Hne Hk]]%Hcase.
    + rewrite lookup_insert_eq. by intros [= <-] [= <-].
    + rewrite lookup_insert_ne by done. by eapply Hid.
  - intros k id' g' key' g0 [(-> & -> & ->)|[Hne Hk]]%Hcase.
    + by rewrite lookup_insert_eq.
    + rewrite lookup_insert_ne by done. by eapply Hni.
  - intros k id' g' key' g0 [(-> & -> & ->)|[Hne Hk]]%Hcase.
    + rewrite lookup_insert_eq. by intros [= <- _].
    + rewrite lookup_insert_ne by done. by eapply Hsk.
Qed.

Lemma inv_check_after s id key g :
  inv s → r_threads s !! id = Some (Inserted key g) →
  let s' := with_threads (delete id (r_threads s)) s in
  inv (if decide (r_generation s ≠ g)
       then with_memory (remove_if_current key id (r_memory s)) s' else s').
Proof.
  intros Hinv Ht. pose proof Hinv as [Ha _ _ _ _ Hsk]. cbn zeta.
  assert (Hsub : ∀ i x, delete id (r_threads s) !! i = Some x → r_threads s !! i = Some x).
  { intros i x [_ ?]%lookup_delete_Some. done. }
  assert (Hother : ∀ k id' g', r_memory s !! k = Some (id', g') → id' ≠ id →
    g' = r_generation s ∨ delete id (r_threads s) !! id' = Some (Inserted k g') ∨
    ∃ i, delete id (r_threads s) !! i = Some Bumped).
  { intros k id' g' Hk Hne. change (accounted (with_threads (delete id (r_threads s)) s) k id' g').
    eapply (accounted_other s); [by apply Ha|done|by rewrite Ht|done|].
    intros i Hi. cbn. by rewrite lookup_delete_ne. }
  case_decide as Hg.
  - apply (inv_shrink s); [done| |done|].
    + intros k e Hk. by apply remove_if_current_lookup in Hk as [? _].
    + intros k id' g' [Hk Hcur]%remove_if_current_lookup. apply Hother; [done|]. intros ->.
      apply Hcur; [|done]. by eapply Hsk.
  - change (inv (with_memory (r_memory s) (with_threads (delete id (r_threads s)) s))).
    apply (inv_shrink s); [done..|]. intros k id' g' Hk.
    destruct (decide (id' = id)) as [->|Hne]; [|by apply Hother].
    left. rewrite (inv_identity s Hinv _ _ _ _ g Hk Ht eq_refl). done.
Qed.

Lemma inv_step a s s' : inv s → step a s = Some s' → inv s'.
Proof.
  intros Hinv. destruct a as [key|id|id|id| |id]; cbn.
  - intros [= <-]. apply inv_begin; [done|lia|right; eauto].
  - destruct (r_threads s !! id) as [[]|] eqn:Ht; intros [= <-]. by apply inv_check_before.
  - destruct (r_threads s !! id) as [[]|] eqn:Ht; intros [= <-]. by apply inv_insert_entry.
  - destruct (r_threads s !! id) as [[]|] eqn:Ht; intros [= <-]. by apply inv_check_after.
  - intros [= <-]. apply inv_begin; [done|lia|by left].
  - destruct (r_threads s !! id) as [[]|] eqn:Ht; intros [= <-].
    apply (inv_shrink s); [done| | |].
    + intros k e Hk. by apply lookup_empty_Some in Hk.
    + intros i x [_ ?]%lookup_delete_Some. done.
    + intros k id' g' Hk. by apply lookup_empty_Some in Hk.
Qed.

Lemma reachable_inv s : reachable s → inv s.
Proof.
  induction 1 as [|a s s' _ IH Hs]; [|by eapply inv_step].
  split; cbn; try (intros *; intros Hk; by apply lookup_empty_Some in Hk).
Qed.

(** C16. No interleaving of inserts and clears leaves a survivor. Once every
    thread has finished, every entry in memory was derived under the current
    clear generation, so nothing a clear wiped is still served; and the
    rollback of a superseded insert never removes an entry another thread put
    under the same key after the clear. *)
Theorem quiescent_memory_is_current s :
  reachable s →
  (r_threads s = ∅ → ∀ k id g, r_memory s !! k = Some (id, g) → g = r_generation s) ∧
  (∀ i s', step (CheckAfter i) s = Some s' →
     ∀ k id, r_memory s !! k = Some (id, r_generation s) →
       r_memory s' !! k = Some (id, r_generation s)).
Proof.
  intros Hr%reachable_inv. split.
  - intros Hq k id g Hk. destruct (inv_accounted s Hr _ _ _ Hk) as [?|[Hi|[i Hi]]]; [done|..];
      rewrite Hq in Hi; by apply lookup_empty_Some in Hi.
  - intros i s'. cbn. destruct (r_threads s !! i) as [[key g|key g|key g|]|] eqn:Ht; intros [= <-].
    intros k id Hk. case_decide as Hg; cbn; [|done].
    apply remove_if_current_lookup. split; [done|]. intros -> <-. cbn in Ht.
    by destruct Hg, (inv_identity s Hr _ _ _ _ g Hk Ht eq_refl).
Qed.

(** An insert that captured its generation before a clear, and one after. *)
Definition racing_run : list action :=
  [BeginInsert "react"; CheckBefore 0; BeginClear; WipeMemory 1; InsertEntry 0;
   BeginInsert "vue"; CheckBefore 2; InsertEntry 2; CheckAfter 0; CheckAfter 2].
Definition run (l : list action) (s : race) : option race :=
  foldl (λ o a, s ← o; step a s) (Some s) l.

Lemma run_reachable l s s' : reachable s → run l s = Some s' → reachable s'.
Proof.
  revert s. induction l as [|a l IH]; intros s Hs; cbn; [by intros [= <-]|].
  destruct (step a s) as [s1|] eqn:E; cbn; [by apply IH; eapply reach_step|].
  clear. induction l; [done|]. exact IHl.
Qed.

Example quiescent_memory_is_current_witness :
  match run racing_run initial with
  | Some s => r_memory s = {["vue" := (2%N, 1%N)]} ∧
      ∀ k id g, r_memory s !! k = Some (id, g) → g = 1%N
  | None => False
  end.
Proof.
  destruct (run racing_run initial) as [s|] eqn:E; [|revert E; vm_compute; discriminate].
  assert (s = {| r_generation := 1; r_memory := {["vue" := (2%N, 1%N)]}; r_threads := ∅; r_next := 3 |})
    as -> by (revert E; vm_compute; congruence).
  split; [reflexivity|].
  apply (@quiescent_memory_is_current _ (run_reachable _ _ _ reach_initial E)). reflexivity.
Defined.
