(* ===== verification/Maintenance.v ===== *)
(** The maintenance pass over all shards of a workspace: byte-budget eviction,
    compaction of fragmented files, and up to four further evictions while the
    files stay over the budget (cache/project.rs); and the production shards,
    which implement what the evictor asks of a shard (cache/memory.rs over
    cache/disk.rs). The sizes of the files and redb's page statistics and
    compaction are arguments. *)
From Stdlib Require Import Floats.SpecFloat.
From stdpp Require Import base gmap sets list strings functions.
From S2P Require Import Prelude Recency Results Fingerprints CacheKeys CachedImports ShardTables Disk DiskReads Budget Memory MemoryCap.

Set Default Proof Using "Type*".

Definition MAX_PHYSICAL_BUDGET_PASSES : nat := 4.
Definition AGGREGATE_OVER_BUDGET_COMPACT_THRESHOLD : spec_float := S754_zero false.
(** [0.5] *)
Definition COMPACT_THRESHOLD : spec_float := S754_finite false 4503599627370496 (-53).
Definition COMPACT_IDLE_millis : N := 5000.

Definition f64_div (a b : spec_float) : spec_float := SFdiv 53 1024 a b.

(** ** The pass *)

Record MaintenanceOutcome := {
  eviction : EvictionOutcome;
  compacted_shards : N;
  skipped_under_budget : bool;
}.
Definition no_maintenance : MaintenanceOutcome :=
  {| eviction := no_eviction; compacted_shards := 0; skipped_under_budget := false |}.

(** A shard whose file can be compacted, in a world whose file sizes are known. *)
Class CompactableTarget (Sh W : Type) := {
  compact_target : Sh → spec_float → W → bool * W;
  total_shard_file_bytes : W → N;
}.

Section pass.
Context {Sh W : Type} `{ES : EvictableShard Sh W, CT : CompactableTarget Sh W}.

Fixpoint compact_targets (targets : list Sh) (threshold : spec_float) (w : W) : N * W :=
  match targets with
  | [] => (0%N, w)
  | s :: rest =>
      let '(ran, w) := compact_target s threshold w in
      let '(n, w) := compact_targets rest threshold w in
      ((if ran then 1 + n else n)%N, w)
  end.

Definition aggressive_compact_targets_if_physical_over_budget (targets : list Sh)
    (physical_bytes budget_bytes : N) (w : W) : N * W :=
  if decide (physical_bytes ≤ budget_bytes)%N then (0%N, w)
  else compact_targets targets AGGREGATE_OVER_BUDGET_COMPACT_THRESHOLD w.

(** The evictor with turns enough for any answer of the shards. *)
Definition evict_fully (budget_bytes : N) (shards : list Sh) (target : option N) (w : W) :=
  let ss := dedup_ids ∅ shards in
  evict (enough_fuel ss (start ss w)) budget_bytes shards target w.

Fixpoint logical_bytes_of (shards : list Sh) (w : W) : N * W :=
  match shards with
  | [] => (0%N, w)
  | s :: rest =>
      let '(r, w) := rollup s w in
      let '(total, w) := logical_bytes_of rest w in
      (wrap_add (total_bytes r) total, w)
  end.

Definition scaled_target (budget_bytes logical_bytes physical_bytes : N) : N :=
  let ratio := f64_div (f64_of_u64 logical_bytes) (f64_of_u64 physical_bytes) in
  u64_of_f64 (f64_mul (f64_mul (f64_of_u64 budget_bytes) LOW_WATER) ratio).

Definition add_eviction (e more : EvictionOutcome) : EvictionOutcome :=
  {| evicted_bytes := wrap_add (evicted_bytes e) (evicted_bytes more);
     evicted_keys := wrap_add (evicted_keys e) (evicted_keys more);
     still_over_budget := still_over_budget e |}.

(** The passes on the measured file sizes. *)
Fixpoint physical_passes (passes : nat) (budget_bytes : N) (targets : list Sh)
    (e : EvictionOutcome) (compacted : N) (w : W) : option (EvictionOutcome * N * W) :=
  match passes with
  | 0 => Some (e, compacted, w)
  | S passes =>
      let physical_bytes := total_shard_file_bytes w in
      if bool_decide (physical_bytes ≤ budget_bytes)%N || still_over_budget e then
        Some (e, compacted, w)
      else
        let '(logical_bytes, w) := logical_bytes_of targets w in
        let target := scaled_target budget_bytes logical_bytes physical_bytes in
        '(more, w) ← evict_fully budget_bytes targets (Some target) w;
        if decide (evicted_bytes more = 0%N) then Some (e, compacted, w)
        else
          let e := add_eviction e more in
          let '(n, w) := compact_targets targets AGGREGATE_OVER_BUDGET_COMPACT_THRESHOLD w in
          physical_passes passes budget_bytes targets e (compacted + n)%N w
  end.

(** The loaded shards, then every shard found on disk that is not loaded and
    has a path, opened for the pass. *)
Section collect.
Context `{HO : HashOrder} (loaded : gmap string Sh)
  (scan_disk_shard_paths : W → list (string * string))
  (open_existing : string → string → W → Sh * W).

Fixpoint open_unloaded (found : list (string * string)) (w : W) : list Sh * W :=
  match found with
  | [] => ([], w)
  | (id, cache_path) :: rest =>
      if decide (is_Some (loaded !! id) ∨ cache_path = "") then open_unloaded rest w
      else
        let '(s, w) := open_existing id cache_path w in
        let '(ss, w) := open_unloaded rest w in
        (s :: ss, w)
  end.

Definition collect_shard_targets (w : W) : list Sh * W :=
  let '(opened, w) := open_unloaded (scan_disk_shard_paths w) w in
  ((hash_iter loaded).*2 ++ opened, w).
End collect.

Definition run_maintenance (enable_disk_cache : bool) (budget_bytes : N) (force : bool)
    (collect_shard_targets : W → list Sh * W) (w : W) : option (MaintenanceOutcome * W) :=
  if negb enable_disk_cache || bool_decide (budget_bytes = 0%N) then Some (no_maintenance, w)
  else if negb force && bool_decide (total_shard_file_bytes w ≤ budget_bytes)%N then
    Some ({| eviction := no_eviction; compacted_shards := 0; skipped_under_budget := true |}, w)
  else
    let '(targets, w) := collect_shard_targets w in
    '(e, w) ← evict_fully budget_bytes targets None w;
    let '(compacted, w) := compact_targets targets COMPACT_THRESHOLD w in
    let '(more, w) := aggressive_compact_targets_if_physical_over_budget targets
                        (total_shard_file_bytes w) budget_bytes w in
    '(e, compacted, w) ←
      physical_passes MAX_PHYSICAL_BUDGET_PASSES budget_bytes targets e (compacted + more)%N w;
    Some ({| eviction := e; compacted_shards := compacted; skipped_under_budget := false |}, w).
End pass.

(** ** What a pass leaves alone *)

Section laws.
Context {Sh W : Type} `{ES : EvictableShard Sh W, CT : CompactableTarget Sh W}
  (inv : W → Prop) (entries : Sh → W → contents) `{SL : !ShardLaws inv entries}.

(** Compaction moves pages, not rows. *)
Class CompactionLaws : Prop := {
  compact_law : ∀ s threshold w, inv w → let '(_, w') := compact_target s threshold w in
    inv w' ∧ ∀ s', entries s' w' = entries s' w;
}.
Context `{CL : !CompactionLaws}.

(** From [w] to [w'] the shards lost [freed] bytes, none of them of an entry
    under a shard's floor. *)
Record kept (ss : list Sh) (freed : N) (w w' : W) : Prop := {
  kept_inv : inv w';
  kept_newest : ∀ s, s ∈ ss → newest (N.to_nat EVICTION_FLOOR) (entries s w') =
                              newest (N.to_nat EVICTION_FLOOR) (entries s w);
  kept_bytes : (freed + held entries ss w' = held entries ss w)%N;
}.

Lemma kept_same ss w w' : inv w' → (∀ s, entries s w' = entries s w) → kept ss 0 w w'.
Proof.
  intros Hi He. split; [done|intros; by rewrite He|]. by rewrite (held_ext inv entries ss w w').
Qed.

Lemma kept_trans ss a b w w1 w2 : kept ss a w w1 → kept ss b w1 w2 → kept ss (a + b) w w2.
Proof.
  intros [_ Hn Hb] [Hi Hn' Hb']. split; [done|intros; by rewrite Hn', Hn|lia].
Qed.

Lemma evict_fully_kept budget shards target w :
  inv w → (held entries (dedup_ids ∅ shards) w ≤ u64_max)%N → budget ≠ 0%N →
  ∃ o w', evict_fully budget shards target w = Some (o, w') ∧
    kept (dedup_ids ∅ shards) (evicted_bytes o) w w' ∧
    (still_over_budget o = true ↔ (budget < held entries (dedup_ids ∅ shards) w')%N).
Proof.
  intros Hi Hmax Hb. destruct (evict_returns budget shards target w) as [[o w'] Ho].
  exists o, w'. specialize (Ho _ (le_n _)). split; [done|].
  destruct (evict_sound inv entries _ _ _ _ _ _ _ Hi Hmax Hb Ho)
    as (p & [Hpi Hf Ht Hby _] & <- & -> & -> & _).
  rewrite bool_decide_eq_true, Ht. split; [|done]. split; [done..|lia].
Qed.

Lemma compact_targets_kept ss targets th w :
  inv w → kept ss 0 w (compact_targets targets th w).2.
Proof.
  revert w. induction targets as [|s rest IH]; intros w Hi; cbn; [by apply kept_same|].
  pose proof (compact_law s th w Hi) as Hc. destruct (compact_target s th w) as [ran w1].
  destruct Hc as [Hi1 He1]. specialize (IH w1 Hi1). destruct (compact_targets rest th w1) as [n w2].
  exact (kept_trans _ 0 0 _ _ _ (kept_same ss w w1 Hi1 He1) IH).
Qed.

Lemma logical_bytes_kept ss targets w :
  inv w → kept ss 0 w (logical_bytes_of targets w).2.
Proof.
  revert w. induction targets as [|s rest IH]; intros w Hi; cbn; [by apply kept_same|].
  pose proof (rollup_law s w Hi) as Hr. destruct (rollup s w) as [r w1].
  destruct Hr as (Hi1 & He1 & _). specialize (IH w1 Hi1).
  destruct (logical_bytes_of rest w1) as [n w2].
  exact (kept_trans _ 0 0 _ _ _ (kept_same ss w w1 Hi1 He1) IH).
Qed.

Lemma physical_passes_kept passes budget targets e compacted w0 w :
  let ss := dedup_ids ∅ targets in
  (held entries ss w0 ≤ u64_max)%N → budget ≠ 0%N → kept ss (evicted_bytes e) w0 w →
  ∃ e' compacted' w', physical_passes passes budget targets e compacted w = Some (e', compacted', w') ∧
    kept ss (evicted_bytes e') w0 w' ∧ still_over_budget e' = still_over_budget e.
Proof.
  intros ss Hmax Hb. revert e compacted w. induction passes as [|passes IH]; intros e compacted w Hk;
    cbn [physical_passes]; [by eauto 6|].
  destruct (_ || _); [by eauto 6|].
  pose proof (logical_bytes_kept ss targets w (kept_inv _ _ _ _ Hk)) as Hl.
  destruct (logical_bytes_of targets w) as [logical w1]. cbn in Hl.
  pose proof (kept_trans _ _ _ _ _ _ Hk Hl) as Hk1. rewrite N.add_0_r in Hk1.
  destruct (evict_fully_kept budget targets
    (Some (scaled_target budget logical (total_shard_file_bytes w))) w1) as (more & w2 & -> & Hm & _);
    [apply Hk1| |done|]. { pose proof (kept_bytes _ _ _ _ Hk1). unfold ss in *. lia. }
  pose proof (kept_trans _ _ _ _ _ _ Hk1 Hm) as Hk2. cbn [mbind option_bind].
  case_decide as Hz; [rewrite Hz, N.add_0_r in Hk2; by eauto 6|].
  pose proof (compact_targets_kept ss targets AGGREGATE_OVER_BUDGET_COMPACT_THRESHOLD w2
    (kept_inv _ _ _ _ Hk2)) as Hc.
  destruct (compact_targets targets _ w2) as [n w3]. cbn in Hc.
  pose proof (kept_trans _ _ _ _ _ _ Hk2 Hc) as Hk3. rewrite N.add_0_r in Hk3.
  destruct (IH (add_eviction e more) (compacted + n)%N w3) as (e' & c' & w' & -> & Hk' & Hs).
  - unfold add_eviction. cbn. rewrite wrap_add_small; [done|].
    pose proof (kept_bytes _ _ _ _ Hk3). unfold ss in *. lia.
  - by eauto 6.
Qed.

Lemma run_maintenance_kept enable budget force collect w targets w1 :
  collect w = (targets, w1) → inv w1 → (held entries (dedup_ids ∅ targets) w1 ≤ u64_max)%N →
  ∃ o w', run_maintenance enable budget force collect w = Some (o, w') ∧
    (eviction o = no_eviction ∧ w' = w ∨
     kept (dedup_ids ∅ targets) (evicted_bytes (eviction o)) w1 w').
Proof.
  intros Hcol Hi Hmax. unfold run_maintenance. destruct (negb enable || _) eqn:Hoff;
    [by do 2 eexists; split; [done|left]|].
  apply orb_false_iff in Hoff as [_ Hb%bool_decide_eq_false]. destruct (negb force && _);
    [by do 2 eexists; split; [done|left]|].
  rewrite Hcol. destruct (evict_fully_kept budget targets None w1 Hi Hmax Hb) as (e & w2 & -> & Hk & _).
  cbn [mbind option_bind].
  pose proof (compact_targets_kept (dedup_ids ∅ targets) targets COMPACT_THRESHOLD w2
    (kept_inv _ _ _ _ Hk)) as Hc.
  destruct (compact_targets targets COMPACT_THRESHOLD w2) as [n w3]. cbn in Hc.
  pose proof (kept_trans _ _ _ _ _ _ Hk Hc) as Hk3. rewrite N.add_0_r in Hk3.
  unfold aggressive_compact_targets_if_physical_over_budget.
  destruct (decide (total_shard_file_bytes w3 ≤ budget)%N).
  - destruct (physical_passes_kept MAX_PHYSICAL_BUDGET_PASSES budget targets e (n + 0)%N w1 w3 Hmax Hb Hk3)
      as (e' & c' & w' & -> & Hk' & _). do 2 eexists. split; [done|by right].
  - pose proof (compact_targets_kept (dedup_ids ∅ targets) targets
      AGGREGATE_OVER_BUDGET_COMPACT_THRESHOLD w3 (kept_inv _ _ _ _ Hk3)) as Hc'.
    destruct (compact_targets targets _ w3) as [m w4]. cbn in Hc'.
    pose proof (kept_trans _ _ _ _ _ _ Hk3 Hc') as Hk4. rewrite N.add_0_r in Hk4.
    destruct (physical_passes_kept MAX_PHYSICAL_BUDGET_PASSES budget targets e (n + m)%N w1 w4 Hmax Hb Hk4)
      as (e' & c' & w' & -> & Hk' & _). do 2 eexists. split; [done|by right].
Qed.
End laws.

(** ** The production shards *)

(** What redb reports of its pages, and its compaction. *)
Class PageStats `{R : Redb} := {
  allocated_pages : Txn → option N;
  page_size : N;
  fragmented_bytes : Txn → N;
  redb_compact : Database → option bool * Database;
}.
Class PageStatsLaws `{PS : PageStats} : Prop := {
  compact_tables : ∀ db, db_tables (redb_compact db).2 = db_tables db;
}.

Lemma foldl_delete_empty {A} (keys : list string) :
  foldl (λ (m : gmap string A) k, delete k m) ∅ keys = ∅.
Proof. induction keys as [|k keys IH]; [done|]. cbn. by rewrite delete_empty. Qed.

Lemma fmap_delete_all {A} (f : list ascii → A) keys m :
  f <$> delete_all keys m = foldl (λ m k, delete k m) (f <$> m) keys.
Proof.
  revert m. induction keys as [|k keys IH]; intros m; [done|]. cbn. by rewrite <- fmap_delete, <- IH.
Qed.

Lemma delete_all_size keys m : size (delete_all keys m) ≤ size m.
Proof.
  revert m. induction keys as [|k keys IH]; intros m; [done|].
  change (delete_all (k :: keys) m) with (delete_all keys (delete k m)). etrans; [apply IH|].
  rewrite map_size_delete. destruct (m !! k); cbn; lia.
Qed.

Lemma row_bytes_nonneg m : (0 ≤ row_bytes m)%Z.
Proof.
  induction m as [|k bs m Hk IH] using map_ind; [done|]. rewrite row_bytes_insert_new by done. lia.
Qed.

Lemma delete_all_row_bytes keys m :
  (0 ≤ row_bytes (delete_all keys m) ≤ row_bytes m)%Z.
Proof.
  split; [apply row_bytes_nonneg|]. revert m. induction keys as [|k keys IH]; intros m; [done|].
  change (delete_all (k :: keys) m) with (delete_all keys (delete k m)). etrans; [apply IH|].
  destruct (m !! k) as [bs|] eqn:Hk.
  - rewrite (row_bytes_delete m k bs Hk). lia.
  - by rewrite delete_id.
Qed.

Record ShardTarget := { target_id : string; target_cache : N }.
#[export] Instance shard_target_eq_dec : EqDecision ShardTarget.
Proof. solve_decision. Defined.

Section compaction.
Context `{PS : PageStats}.

Definition fragmentation_ratio (db : Database) : spec_float :=
  match begin_write db with
  | None => S754_zero false
  | Some txn =>
      match allocated_pages txn with
      | None => S754_zero false
      | Some pages =>
          let allocated := ((pages * page_size) mod 2 ^ 64)%N in
          if decide (allocated = 0)%N then S754_zero false
          else f64_div (f64_of_u64 (fragmented_bytes txn)) (f64_of_u64 allocated)
      end
  end.

Definition compact_if_fragmented (now : N) (threshold : spec_float) (c : DiskCache)
    : bool * DiskCache :=
  let idle_for := sat_sub now (d_last_access c) in
  if decide (idle_for < COMPACT_IDLE_millis)%N then (false, c)
  else
    match d_db c with
    | None => (false, c)
    | Some db =>
        if SFleb (fragmentation_ratio db) threshold then (false, c)
        else
          let '(r, db') := redb_compact db in
          (default false r, with_db c db')
    end.
End compaction.

Section shards.
Context `{R : Redb, HO : HashOrder, PS : !PageStats}.

(** All shards of a process share one recency clock; each call reads the wall
    clock anew. *)
Context (times : nat → Times) (file_bytes : (ShardTarget → @ImportCache R) → N).

Record World := {
  w_clock : RecencyClock.clock;
  w_calls : nat;
  w_caches : ShardTarget → @ImportCache R;
}.

Definition on_shard {A} (s : ShardTarget) (f : Times → @ImportCache R → A * @ImportCache R)
    (w : World) : A * World :=
  let '(a, c) := f (times (w_calls w)) (set_clock (w_clock w) (w_caches w s)) in
  (a, {| w_clock := clock c; w_calls := S (w_calls w); w_caches := <[s := c]> (w_caches w) |}).

Definition cache_rollup (tm : Times) (c : @ImportCache R) : ShardRollup * @ImportCache R :=
  let '(r, k, d) := shard_rollup (clock c) (wall tm) (disk c) in (r, set_clock k (set_disk d c)).

Definition cache_compact (threshold : spec_float) (tm : Times) (c : @ImportCache R)
    : bool * @ImportCache R :=
  let '(ran, d) := compact_if_fragmented (wall tm) threshold (disk c) in (ran, set_disk d c).

#[export] Instance shard_target_evictable : EvictableShard ShardTarget World := {|
  shard_id := target_id;
  rollup s := on_shard s cache_rollup;
  lowest_keys s n floor := on_shard s (λ tm, lowest_seq_disk_keys tm n floor);
  evict_keys s keys := on_shard s (λ _, evict_disk_keys keys);
|}.

#[export] Instance shard_target_compactable : CompactableTarget ShardTarget World := {|
  compact_target s threshold := on_shard s (cache_compact threshold);
  total_shard_file_bytes w := file_bytes (w_caches w);
|}.

(** The rows of a shard as the budget sees them, and the shards whose rows the
    summary counts, with nothing waiting to be written. *)
Definition rows_of (c : @DiskCache R) : contents :=
  match d_db c with
  | Some db => (λ bs, (decode_last_seq bs, byte_len bs)) <$> t_cache (db_tables db)
  | None => ∅
  end.
Definition shard_contents (s : ShardTarget) (w : World) : contents := rows_of (disk (w_caches w s)).

Definition settled_shard (c : @DiskCache R) : Prop :=
  d_pending c = ∅ ∧ ∀ db, d_db c = Some db →
    consistent (db_tables db) ∧
    (Z.of_nat (size (t_cache (db_tables db))) ≤ Z.of_N u64_max)%Z ∧
    (row_bytes (t_cache (db_tables db)) ≤ Z.of_N u64_max)%Z.
Definition settled_world (w : World) : Prop := ∀ s, settled_shard (disk (w_caches w s)).

(** *** Reads change nothing *)

Lemma flush_settled now (c : @DiskCache R) : d_pending c = ∅ → flush_pending_inserts now c = c.
Proof. intros H. unfold flush_pending_inserts. destruct (d_db c); [by rewrite decide_True|done]. Qed.

Lemma rollup_keeps k now (c : @DiskCache R) : d_pending c = ∅ → (shard_rollup k now c).2 = c.
Proof.
  intros H. unfold shard_rollup. rewrite (flush_settled now c H).
  repeat case_match; simplify_eq; done.
Qed.

Lemma lowest_keeps now n floor (c : @DiskCache R) :
  d_pending c = ∅ → (lowest_seq_keys now n floor c).2 = c.
Proof.
  intros H. unfold lowest_seq_keys. rewrite (flush_settled now c H).
  repeat case_match; simplify_eq; done.
Qed.

Lemma lowest_disk_keeps tm n floor (c : @ImportCache R) :
  d_pending (disk c) = ∅ → disk (lowest_seq_disk_keys tm n floor c).2 = disk c.
Proof.
  intros H. unfold lowest_seq_disk_keys. case_decide; [done|].
  pose proof (lowest_keeps (wall tm) n floor _ H) as Hk.
  destruct (lowest_seq_keys _ n _ _) as [first d]. cbn in Hk. subst d.
  case_match; [done|]. cbn [disk set_disk].
  pose proof (lowest_keeps (wall tm) MAX_EVICTION_SCAN floor _ H) as Hk.
  by destruct (lowest_seq_keys _ MAX_EVICTION_SCAN _ _).
Qed.

(** *** The promises, kept *)

Context `{RL : !RedbLaws, SR : !SummaryReadsSucceed, RS : !ReadsSucceed, PL : !PageStatsLaws}.

Lemma rows_bytes (m : gmap string (list ascii)) :
  Z.of_N (content_bytes ((λ bs, (decode_last_seq bs, byte_len bs)) <$> m)) = row_bytes m.
Proof.
  induction m as [|k bs m Hk IH] using map_ind; [done|].
  rewrite fmap_insert, row_bytes_insert_new, <- IH by done. unfold content_bytes.
  rewrite map_fold_insert_L; [cbn; lia|intros; lia|by rewrite lookup_fmap, Hk].
Qed.

Lemma rows_by_age (T : Tables) :
  by_age ((λ bs, (decode_last_seq bs, byte_len bs)) <$> t_cache T) =
  sort index_cmp (index_row <$> scan T).
Proof.
  unfold by_age, scan. f_equal. rewrite map_to_list_fmap, <- !list_fmap_compose.
  apply list_fmap_ext. by intros ? [k bs] _.
Qed.

Lemma length_scan (T : Tables) : length (scan T) = size (t_cache T).
Proof. unfold scan. by rewrite length_fmap, length_map_to_list. Qed.

Lemma lowest_above_floor now n floor (c : @DiskCache R) k s :
  settled_shard c → (k, s) ∈ (lowest_seq_keys now n floor c).1 →
  k ∈ (above_floor (N.to_nat floor) (rows_of c)).*2.
Proof.
  intros [Hp Hc] Hin. pose proof (flush_settled now c Hp) as Hf. unfold rows_of.
  destruct (d_db c) as [db|] eqn:Hdb.
  2: { revert Hin. unfold lowest_seq_keys. rewrite Hf, Hdb. case_decide; cbn; set_solver. }
  destruct (Hc _ eq_refl) as (HT & Hsz & _).
  rewrite (lowest_scan now n floor c db) in Hin by (rewrite ?Hf; done).
  apply list_elem_of_fmap in Hin as ([s' k'] & [= -> ->] & Hin).
  unfold above_floor. rewrite rows_by_age, map_size_fmap, <- length_scan.
  apply list_elem_of_fmap. exists (s', k'). split; [done|].
  apply elem_of_take in Hin as (i & Hi & Hlt). apply elem_of_take. exists i. split; [done|lia].
Qed.

Lemma on_shard_frame {A} s (f : Times → @ImportCache R → A * @ImportCache R) (w : World) s' :
  s' ≠ s → w_caches (on_shard s f w).2 s' = w_caches w s'.
Proof. intros Hne. unfold on_shard. case_match. cbn. by rewrite fn_lookup_insert_ne. Qed.

Lemma on_shard_self {A} s (f : Times → @ImportCache R → A * @ImportCache R) (w : World) :
  on_shard s f w =
    ((f (times (w_calls w)) (set_clock (w_clock w) (w_caches w s))).1, (on_shard s f w).2) ∧
  w_caches (on_shard s f w).2 s = (f (times (w_calls w)) (set_clock (w_clock w) (w_caches w s))).2.
Proof. unfold on_shard. case_match. cbn. by rewrite fn_lookup_insert. Qed.

(** A step that leaves the shard's disk as it was leaves the world's. *)
Lemma on_shard_reads {A} s (f : Times → @ImportCache R → A * @ImportCache R) (w : World) :
  settled_world w → (∀ tm c, settled_shard (disk c) → disk (f tm c).2 = disk c) →
  settled_world (on_shard s f w).2 ∧
  ∀ s', shard_contents s' (on_shard s f w).2 = shard_contents s' w.
Proof.
  intros Hw Hf. assert (∀ s', disk (w_caches (on_shard s f w).2 s') = disk (w_caches w s')) as He.
  { intros s'. destruct (decide (s' = s)) as [->|Hne]; [|by rewrite on_shard_frame].
    rewrite (proj2 (on_shard_self s f w)), Hf; [done|exact (Hw s)]. }
  split; [intros s'; rewrite He; apply Hw|]. intros s'. unfold shard_contents. by rewrite He.
Qed.

Lemma remove_keys_settled keys (c : @DiskCache R) :
  settled_shard c → let '(freed, c') := remove_keys keys c in
  settled_shard c' ∧
  (rows_of c' = rows_of c ∧ freed = 0%N ∨
   rows_of c' = foldl (λ m k, delete k m) (rows_of c) keys ∧
   (freed + content_bytes (rows_of c') = content_bytes (rows_of c))%N).
Proof.
  intros [Hp Hc]. unfold remove_keys. case_decide; [by split; [split|left]|].
  assert (foldl (λ p k, delete k p) (d_pending c) keys = ∅) as Hp' by (rewrite Hp; apply foldl_delete_empty).
  rewrite Hp'. change (d_db (set_pending ∅ c)) with (d_db c).
  destruct (d_db c) as [db|] eqn:Hdb.
  2: { split; [split; [done|]; intros ? E; cbn in E; congruence|].
       left. unfold rows_of. cbn. by rewrite Hdb. }
  destruct (Hc _ eq_refl) as (HT & Hsz & Hb).
  pose proof (transact_spec db _ _ (wp_maintain_removals keys _ HT)) as Ht.
  unfold settled_shard, rows_of, with_db.
  destruct (transact db (maintain_removals keys)) as [[freed|] db'];
    cbn [d_db d_pending set_db set_pending default]; rewrite ?Hdb.
  2: { subst db'. split; [split; [done|]|by left]. intros ? [= <-]. done. }
  destruct Ht as (HT' & Hrows & _ & Hfreed & Hle).
  pose proof (delete_all_row_bytes keys (t_cache (db_tables db))) as Hsub.
  rewrite <- Hrows in Hsub. split.
  - split; [done|]. intros ? [= <-]. split_and!; [done| |lia].
    rewrite Hrows. pose proof (delete_all_size keys (t_cache (db_tables db))). lia.
  - right. change (id freed) with freed. split; [by rewrite Hrows, fmap_delete_all|].
    apply congr64_small in Hfreed; [|lia..]. apply N2Z.inj. rewrite N2Z.inj_add, !rows_bytes. lia.
Qed.

Lemma rollup_without_rows k now (c : @DiskCache R) :
  entry_count (shard_rollup k now c).1.1 = 0%N → total_bytes (shard_rollup k now c).1.1 = 0%N.
Proof. unfold shard_rollup. repeat case_match; simplify_eq; done. Qed.

Lemma cache_rollup_spec tm (c : @ImportCache R) :
  settled_shard (disk c) →
  disk (cache_rollup tm c).2 = disk c ∧
  total_bytes (cache_rollup tm c).1 = content_bytes (rows_of (disk c)) ∧
  entry_count (cache_rollup tm c).1 = N.of_nat (size (rows_of (disk c))).
Proof.
  intros [Hp Hc]. unfold cache_rollup. pose proof (flush_settled (wall tm) _ Hp) as Hf.
  pose proof (rollup_keeps (clock c) (wall tm) _ Hp) as Hk. unfold rows_of.
  destruct (d_db (disk c)) as [db|] eqn:Hdb.
  - destruct (Hc _ eq_refl) as (HT & Hsz & Hb).
    pose proof (rollup_scan (wall tm) (clock c) (disk c) db) as Hr. rewrite Hf in Hr.
    specialize (Hr Hdb HT Hsz (conj (row_bytes_nonneg _) Hb)).
    pose proof (rollup_without_rows (clock c) (wall tm) (disk c)) as Hz.
    destruct (shard_rollup _ _ _) as [[r k] d]. cbn in *. rewrite length_scan in Hr.
    destruct Hr as (He & Ht & _). split_and!; [done| |by rewrite map_size_fmap; lia].
    apply N2Z.inj. rewrite rows_bytes.
    destruct (decide (t_cache (db_tables db) = ∅)) as [Hn|Hn].
    + rewrite Hz by (rewrite Hn, map_size_empty in He; lia). by rewrite Hn.
    + apply Ht. intros E. apply Hn, map_size_empty_iff. by rewrite <- length_scan, E.
  - unfold shard_rollup in *. rewrite Hf, Hdb in *. done.
Qed.

Lemma compact_settled now th (c : @DiskCache R) :
  settled_shard c → settled_shard (compact_if_fragmented now th c).2 ∧
    rows_of (compact_if_fragmented now th c).2 = rows_of c.
Proof.
  intros [Hp Hc]. unfold compact_if_fragmented. case_decide; [by split; [split|]|].
  destruct (d_db c) as [db|] eqn:Hdb;
    [|split; [split; [done|]|done]; intros ? E; cbn in E; congruence].
  case_match; [split; [split; [done|]|done]; intros ? E; cbn in E; apply Hc; congruence|].
  pose proof (compact_tables db) as Ht. destruct (redb_compact db) as [r db']. cbn in Ht.
  unfold settled_shard, rows_of, with_db. cbn. rewrite Hdb, Ht.
  split; [split; [done|]|done]. intros ? [= <-]. rewrite Ht. by apply Hc.
Qed.

Lemma on_shard_writes {A} s (f : Times → @ImportCache R → A * @ImportCache R) (w : World) :
  settled_world w → (∀ tm c, settled_shard (disk c) → settled_shard (disk (f tm c).2)) →
  settled_world (on_shard s f w).2 ∧
  (∀ s', s' ≠ s → shard_contents s' (on_shard s f w).2 = shard_contents s' w).
Proof.
  intros Hw Hf. split.
  - intros s'. destruct (decide (s' = s)) as [->|Hne]; [|rewrite on_shard_frame by done; apply Hw].
    rewrite (proj2 (on_shard_self s f w)). apply Hf, (Hw s).
  - intros s' Hne. unfold shard_contents. by rewrite on_shard_frame.
Qed.

Lemma lowest_disk_above_floor tm n floor (c : @ImportCache R) :
  settled_shard (disk c) →
  length (lowest_seq_disk_keys tm n floor c).1 ≤ n ∧
  ∀ k, k ∈ (lowest_seq_disk_keys tm n floor c).1 →
    k ∈ (above_floor (N.to_nat floor) (rows_of (disk c))).*2.
Proof.
  intros Hc. destruct (decide (n = 0)) as [->|Hn].
  { unfold lowest_seq_disk_keys. cbn. split; [done|set_solver]. }
  destruct (evictable_window tm n floor c) as (Hlen & window & Hk & Hw); [lia|].
  split; [done|]. intros k Hin. rewrite Hk in Hin.
  apply list_elem_of_fmap in Hin as ([k' q] & -> & (i & Hi & _)%elem_of_take).
  apply list_elem_of_lookup_2, list_elem_of_filter in Hi as [_ Hi].
  rewrite (lowest_keeps (wall tm) n floor _ (proj1 Hc)) in Hw.
  destruct Hw as [->|[_ ->]]; by eapply lowest_above_floor.
Qed.

Lemma evict_disk_keys_settled keys (c : @ImportCache R) :
  settled_shard (disk c) →
  let r := evict_disk_keys keys c in
  settled_shard (disk r.2) ∧
  (rows_of (disk r.2) = rows_of (disk c) ∧ r.1 = 0%N ∨
   rows_of (disk r.2) = foldl (λ m k, delete k m) (rows_of (disk c)) keys ∧
   (r.1 + content_bytes (rows_of (disk r.2)) = content_bytes (rows_of (disk c)))%N).
Proof.
  intros Hc. pose proof (remove_keys_settled keys _ Hc) as Hr. unfold evict_disk_keys.
  by destruct (remove_keys keys (disk c)).
Qed.

Lemma shard_targets_lawful : ShardLaws settled_world shard_contents.
Proof.
  split.
  - intros s w Hw. cbn [rollup shard_target_evictable].
    destruct (on_shard_reads s cache_rollup w Hw) as [Hw' He];
      [intros; by apply cache_rollup_spec|].
    rewrite (proj1 (on_shard_self s cache_rollup w)).
    destruct (cache_rollup_spec (times (w_calls w)) (set_clock (w_clock w) (w_caches w s)) (Hw s))
      as (_ & Ht & Hc). by split_and!.
  - intros s n floor w Hw. cbn [lowest_keys shard_target_evictable].
    set (f := λ tm, lowest_seq_disk_keys tm n floor).
    destruct (on_shard_reads s f w Hw) as [Hw' He];
      [intros tm c [Hp _]; by apply lowest_disk_keeps|].
    rewrite (proj1 (on_shard_self s f w)). subst f.
    split_and!; [done..| |].
    + apply (lowest_disk_above_floor _ n floor (set_clock (w_clock w) (w_caches w s)) (Hw s)).
    + apply (lowest_disk_above_floor _ n floor (set_clock (w_clock w) (w_caches w s)) (Hw s)).
  - intros s keys w Hw. cbn [evict_keys shard_target_evictable].
    set (f := λ _ : Times, evict_disk_keys keys).
    destruct (on_shard_writes s f w Hw) as [Hw' He];
      [intros tm c Hc; by apply evict_disk_keys_settled|].
    pose proof (proj2 (on_shard_self s f w)) as Hs. rewrite (proj1 (on_shard_self s f w)).
    split_and!; [done|intros s' Hne; apply He; by intros ->|].
    unfold shard_contents. rewrite Hs. subst f.
    apply (evict_disk_keys_settled keys (set_clock (w_clock w) (w_caches w s)) (Hw s)).
Qed.

Lemma shard_targets_compact : CompactionLaws settled_world shard_contents.
Proof.
  split. intros s th w Hw. cbn [compact_target shard_target_compactable].
  set (f := cache_compact th).
  assert (∀ tm c, settled_shard (disk c) → settled_shard (disk (f tm c).2) ∧
    rows_of (disk (f tm c).2) = rows_of (disk c)) as Hf.
  { intros tm c Hc. pose proof (compact_settled (wall tm) th _ Hc) as Hd.
    subst f. unfold cache_compact. by destruct (compact_if_fragmented _ _ _). }
  destruct (on_shard_writes s f w Hw) as [Hw' He]; [intros tm c Hc; by apply Hf|].
  rewrite (proj1 (on_shard_self s f w)). split; [done|]. intros s'.
  destruct (decide (s' = s)) as [->|Hne]; [|by apply He].
  unfold shard_contents. rewrite (proj2 (on_shard_self s f w)).
  apply (Hf _ (set_clock (w_clock w) (w_caches w s)) (Hw s)).
Qed.

(** The maintenance pass over the shards on disk always finishes, and it
    never removes an entry among a shard's newest up to the floor: over all its
    evictions and compactions each shard's protected rows stay as they were,
    the rows stay exactly accounted for, and the bytes it reports evicted are
    the bytes the shards lost. Otherwise it was gated off and changed nothing. *)
Theorem maintenance_keeps_recent_entries enable budget force loaded scan_paths open_existing w targets w1 :
  collect_shard_targets loaded scan_paths open_existing w = (targets, w1) →
  settled_world w1 → (held shard_contents (dedup_ids ∅ targets) w1 ≤ u64_max)%N →
  ∃ o w', run_maintenance enable budget force
            (collect_shard_targets loaded scan_paths open_existing) w = Some (o, w') ∧
    (eviction o = no_eviction ∧ w' = w ∨
     settled_world w' ∧
     (∀ s, s ∈ dedup_ids ∅ targets →
        newest (N.to_nat EVICTION_FLOOR) (shard_contents s w') =
        newest (N.to_nat EVICTION_FLOOR) (shard_contents s w1)) ∧
     (evicted_bytes (eviction o) + held shard_contents (dedup_ids ∅ targets) w' =
      held shard_contents (dedup_ids ∅ targets) w1)%N).
Proof.
  intros Hcol Hw Hmax.
  pose proof shard_targets_lawful as SL. pose proof shard_targets_compact as CL.
  destruct (run_maintenance_kept settled_world shard_contents enable budget force _ w targets w1
    Hcol Hw Hmax) as (o & w' & Ho & Hk).
  exists o, w'. split; [done|]. destruct Hk as [?|[? ? ?]]; [by left|by right].
Qed.

(** C25. The shards on disk implement what the budget is proved against, where
    they are settled (their queue is empty and their accounting is exact and
    within 64 bits, [settled_world]) and the reads of [redb] do not fail
    ([SummaryReadsSucceed], [ReadsSucceed]); writes and commits may. Seen as a
    map from keys to recency and bytes, a shard's rollup is that map's size and
    total; the keys it offers for eviction lie above the floor; an eviction
    either changes nothing and reports nothing, or deletes those keys and
    reports exactly their bytes; a compaction leaves every map as it was; none
    of them disturbs another shard; and all of them keep the shards settled. *)
Theorem shards_implement_eviction :
  ShardLaws settled_world shard_contents ∧ CompactionLaws settled_world shard_contents.
Proof. split; [apply shard_targets_lawful|apply shard_targets_compact]. Qed.
End shards.

(** ** Witness: one loaded shard of two rows, over a budget of one byte *)

#[local] Instance mem_pages : @PageStats (mem_redb true) := {|
  allocated_pages _ := Some 1%N; page_size := 4096%N; fragmented_bytes _ := 0%N;
  redb_compact db := (Some true, db);
|}.
#[local] Instance mem_pages_laws : @PageStatsLaws (mem_redb true) mem_pages.
Proof. by split. Qed.

Definition one_shard : ShardTarget := {| target_id := "p"; target_cache := 0 |}.
Definition one_shard_world : @World (mem_redb true) :=
  {| w_clock := 10%N; w_calls := 0;
     w_caches := λ _, new_cache (shard_of (mem_redb true) flushed_tables ∅ 0) 10%N 0%N |}.
Definition noon (_ : nat) : Times := {| wall := 100000; mono := 0 |}.
Definition one_file (_ : ShardTarget → @ImportCache (mem_redb true)) : N := 4096.

Lemma one_shard_settled : settled_world one_shard_world.
Proof.
  intros s. split; [done|]. intros db [= <-]. split; [apply flushed_consistent|].
  vm_compute. split; discriminate.
Qed.

Example maintenance_keeps_recent_entries_witness :
  let w := one_shard_world in
  let collect := collect_shard_targets (W := World) (HO := key_order) {["p" := one_shard]}
                   (λ _, []) (λ _ _ w, (one_shard, w)) in
  collect w = ([one_shard], w) ∧
  ∃ o w',
    @run_maintenance ShardTarget World
      (@shard_target_evictable (mem_redb true) key_order noon)
      (@shard_target_compactable (mem_redb true) mem_pages noon one_file)
      true 1 true collect w = Some (o, w') ∧
    (eviction o = no_eviction ∧ w' = w ∨
     settled_world w' ∧
     (∀ s, s ∈ [one_shard] →
        newest (N.to_nat EVICTION_FLOOR) (shard_contents s w') =
        newest (N.to_nat EVICTION_FLOOR) (shard_contents s w)) ∧
     (evicted_bytes (eviction o) + held shard_contents [one_shard] w' =
      held shard_contents [one_shard] w)%N).
Proof.
  split; [reflexivity|].
  apply (@maintenance_keeps_recent_entries (mem_redb true) key_order mem_pages noon one_file
    (mem_redb_laws true) (mem_redb_summary true) (mem_reads true) mem_pages_laws
    true 1%N true {["p" := one_shard]} (λ _, []) (λ _ _ w, (one_shard, w))
    one_shard_world [one_shard] one_shard_world).
  - reflexivity.
  - apply one_shard_settled.
  - vm_compute. discriminate.
Defined.

Lemma shards_implement_eviction_witness :
  settled_world one_shard_world ∧
  @ShardLaws ShardTarget World (@shard_target_evictable (mem_redb true) key_order noon)
    settled_world shard_contents.
Proof.
  split; [apply one_shard_settled|].
  apply (@shards_implement_eviction (mem_redb true) key_order mem_pages noon one_file
    (mem_redb_laws true) (mem_redb_summary true) (mem_reads true) mem_pages_laws).
Defined.
