(* ===== verification/ImportCycles.v ===== *)
(** Which [@import] edges of a stylesheet tree close a cycle
    (pipeline/css_import_cycles.rs): the depth-first walk, with the sheets of
    the tree named by their paths and the resolved imports of a sheet given by
    a function. *)
From stdpp Require Import base gmap sets list strings relations.
From S2P Require Import Prelude.

Abbreviation import_edge := (string * string)%type.

(** [Walk]. *)
Record walk := {
  on_stack : gset string;
  finished : gset string;
  closing : gset import_edge;
}.

Definition start_walk : walk := {| on_stack := ∅; finished := ∅; closing := ∅ |}.
Definition enter (sheet : string) (w : walk) : walk :=
  {| on_stack := {[sheet]} ∪ on_stack w; finished := finished w; closing := closing w |}.
Definition leave (sheet : string) (w : walk) : walk :=
  {| on_stack := on_stack w ∖ {[sheet]}; finished := {[sheet]} ∪ finished w;
     closing := closing w |}.
Definition close_edge (e : import_edge) (w : walk) : walk :=
  {| on_stack := on_stack w; finished := finished w; closing := {[e]} ∪ closing w |}.

Section walk.
Context (imports : string → list string).

(** The loop of [visit] over the targets of [sheet]. *)
Fixpoint visit_targets (visit : string → walk → option walk) (sheet : string)
    (targets : list string) (w : walk) : option walk :=
  match targets with
  | [] => Some w
  | target :: rest =>
      w ← (if decide (target ∈ on_stack w) then Some (close_edge (sheet, target) w)
           else if decide (target ∉ finished w) then visit target w
           else Some w);
      visit_targets visit sheet rest w
  end.

(** [fuel] bounds the depth of the recursion. *)
Fixpoint visit (fuel : nat) (sheet : string) (w : walk) : option walk :=
  match fuel with
  | 0 => None
  | S fuel =>
      w ← visit_targets (visit fuel) sheet (imports sheet) (enter sheet w);
      Some (leave sheet w)
  end.

Definition closing_edges (fuel : nat) (entry : string) : option (gset import_edge) :=
  closing <$> visit fuel entry start_walk.

(** *** The tree as a graph *)

Definition edge (x y : string) : Prop := y ∈ imports x.
(** The edges that are left once [cut] is removed. *)
Definition kept_edge (cut : gset import_edge) (x y : string) : Prop := edge x y ∧ (x, y) ∉ cut.
Definition reachable (entry x : string) : Prop := rtc edge entry x.
Definition acyclic_below (cut : gset import_edge) (entry : string) : Prop :=
  ∀ x, reachable entry x → ¬ tc (kept_edge cut) x x.

(** *** Finishing order *)

(** Where [x] stands in the finishing order [l], latest first. *)
Fixpoint rank (l : list string) (x : string) : nat :=
  match l with
  | [] => 0
  | y :: rest => if decide (x = y) then S (length rest) else rank rest x
  end.

Lemma finish_rank_bound l x : rank l x ≤ length l.
Proof. induction l as [|y l IH]; cbn; [lia|]. case_decide; lia. Qed.

Lemma rank_pos l x : x ∈ l → 0 < rank l x.
Proof.
  induction l as [|y l IH]; [set_solver|]. intros Hx. cbn. case_decide; [lia|].
  apply IH. set_solver.
Qed.

(** Every edge of a finished sheet is cut or leads to a sheet finished before. *)
Definition ordered (cut : gset import_edge) (l : list string) : Prop :=
  ∀ x y, x ∈ l → edge x y → (x, y) ∈ cut ∨ (y ∈ l ∧ rank l y < rank l x).

Lemma ordered_acyclic cut l x :
  ordered cut l → x ∈ l → ¬ tc (kept_edge cut) x x.
Proof.
  intros Ho Hx Hc.
  assert (∀ y z, tc (kept_edge cut) y z → y ∈ l → z ∈ l ∧ rank l z < rank l y) as Hdec.
  { intros y z Hyz. induction Hyz as [y z [He Hn]|y z u [He Hn] _ IH]; intros Hy.
    - destruct (Ho _ _ Hy He); [done|]. done.
    - destruct (Ho _ _ Hy He) as [?|[Hz ?]]; [done|]. destruct (IH Hz). split; [done|lia]. }
  destruct (Hdec _ _ Hc Hx). lia.
Qed.

Lemma rank_self l x : rank (x :: l) x = S (length l).
Proof. cbn. by rewrite decide_True. Qed.
Lemma rank_other l x y : y ≠ x → rank (x :: l) y = rank l y.
Proof. intros. cbn. by rewrite decide_False. Qed.

(** Finishing [x] after [l]. *)
Lemma ordered_cons cut cut' l x :
  ordered cut l → cut ⊆ cut' → x ∉ l →
  (∀ y, edge x y → (x, y) ∈ cut' ∨ y ∈ l) → ordered cut' (x :: l).
Proof.
  intros Ho Hsub Hx Hnew u y Hu He. assert (∀ z, z ∈ l → z ≠ x) as Hne by (by intros z Hz ->).
  apply elem_of_cons in Hu as [->|Hu].
  - destruct (Hnew _ He) as [?|Hy]; [by left|right]. split; [by right|].
    rewrite rank_self, rank_other by auto. pose proof (finish_rank_bound l y). lia.
  - destruct (Ho _ _ Hu He) as [?|[Hy ?]]; [left; set_solver|right]. split; [by right|].
    by rewrite !rank_other by auto.
Qed.

Lemma ordered_mono cut cut' l : ordered cut l → cut ⊆ cut' → ordered cut' l.
Proof. intros Ho Hsub x y Hx He. destruct (Ho _ _ Hx He); [left; set_solver|by right]. Qed.

(** *** What a walk maintains *)

(** The finished sheets in some order, and every cut edge an import whose
    target leads back to its sheet. *)
Record good (w : walk) (l : list string) : Prop := {
  good_finished : ∀ x, x ∈ finished w ↔ x ∈ l;
  good_ordered : ordered (closing w) l;
  good_closing : ∀ x y, (x, y) ∈ closing w → edge x y ∧ rtc edge y x ∧
    (x ∈ on_stack w ∨ x ∈ l) ∧ (y ∈ on_stack w ∨ y ∈ l);
}.

(** What a completed call did: it left the stack as it was and cut and finished
    more, from [l] to [l'], only sheets that [sheet] leads to. *)
Record progressed (sheet : string) (w : walk) (l : list string) (w' : walk) (l' : list string)
    : Prop := {
  prog_stack : on_stack w' = on_stack w;
  prog_closing : closing w ⊆ closing w';
  prog_finished : ∃ l1, l' = l1 ++ l ∧ ∀ x, x ∈ l1 → x ∉ on_stack w ∧ rtc edge sheet x;
}.

Lemma progressed_refl sheet w l : progressed sheet w l w l.
Proof. split; [done..|]. exists []. split; [done|set_solver]. Qed.

Lemma progressed_trans sheet w l w1 l1 w2 l2 :
  progressed sheet w l w1 l1 → progressed sheet w1 l1 w2 l2 → progressed sheet w l w2 l2.
Proof.
  intros [Hs Hc (m1 & -> & Hm1)] [Hs' Hc' (m2 & -> & Hm2)]. split; [congruence|set_solver|].
  exists (m2 ++ m1). split; [by rewrite (assoc_L (++))|]. rewrite Hs in Hm2. set_solver.
Qed.

(** The stack leads to [sheet]. *)
Definition stacked (sheet : string) (w : walk) : Prop := ∀ a, a ∈ on_stack w → rtc edge a sheet.

(** The specification of a visit. *)
Definition visit_spec (visit : string → walk → option walk) : Prop :=
  ∀ sheet w w' l, good w l → stacked sheet w → sheet ∉ on_stack w → sheet ∉ l →
    visit sheet w = Some w' →
    ∃ l', good w' l' ∧ sheet ∈ l' ∧ progressed sheet w l w' l'.

Lemma visit_targets_spec visit sheet :
  visit_spec visit → ∀ targets w w' l,
  (∀ t, t ∈ targets → edge sheet t) → good w l → stacked sheet w → sheet ∈ on_stack w →
  visit_targets visit sheet targets w = Some w' →
  ∃ l', good w' l' ∧ progressed sheet w l w' l' ∧
    ∀ t, t ∈ targets → (sheet, t) ∈ closing w' ∨ t ∈ l'.
Proof.
  intros Hv targets. induction targets as [|t rest IH]; intros w w' l Hin Hg Hst Hmem; cbn.
  { intros [= <-]. exists l. split_and!; [done|apply progressed_refl|set_solver]. }
  destruct (if decide (t ∈ on_stack w) then _ else _) as [w1|] eqn:E1; [cbn|done]. intros E2.
  assert (∃ l1, good w1 l1 ∧ progressed sheet w l w1 l1 ∧ ((sheet, t) ∈ closing w1 ∨ t ∈ l1))
    as (l1 & Hg1 & Hp1 & Ht).
  { assert (edge sheet t) as He by (apply Hin; by left). case_decide as Hs; [|case_decide as Hf].
    - injection E1 as <-. exists l. split_and!; [|split; [done|set_solver|]|left; set_solver].
      + destruct Hg as [Hf Ho Hc]. split; [done| |].
        * eapply ordered_mono; [done|set_solver].
        * intros x y [[= -> ->]%elem_of_singleton|Hxy]%elem_of_union; [|by apply Hc].
          split_and!; [done|by apply Hst|by left|by left].
      + exists []. split; [done|set_solver].
    - destruct (Hv t w w1 l) as (l1 & Hg1 & Ht & [Hs1 Hc1 (m & -> & Hm)]); [done| |done| |done|].
      + intros a Ha. eapply rtc_r; [by apply Hst|done].
      + by rewrite <- (good_finished _ _ Hg).
      + exists (m ++ l). split_and!; [done| |by right]. split; [done..|].
        exists m. split; [done|]. intros x Hx. destruct (Hm x Hx). split; [done|].
        by eapply rtc_l.
    - injection E1 as <-. exists l. split_and!; [done|apply progressed_refl|]. right.
      by apply (good_finished _ _ Hg). }
  destruct (IH w1 w' l1) as (l' & Hg' & Hp' & Hall); [set_solver|done| | |done|].
  { unfold stacked. by rewrite (prog_stack _ _ _ _ _ Hp1). }
  { by rewrite (prog_stack _ _ _ _ _ Hp1). }
  exists l'. split_and!; [done|by eapply progressed_trans|].
  intros t' [->|Ht']%elem_of_cons; [|by apply Hall].
  destruct Hp' as [_ Hc (m & -> & _)]. destruct Ht; [left|right]; set_solver.
Qed.

Lemma visit_meets_spec fuel : visit_spec (visit fuel).
Proof.
  induction fuel as [|fuel IH]; intros sheet w w' l Hg Hst Hs Hl; [done|].
  cbn [visit]. destruct (visit_targets _ _ _ _) as [w1|] eqn:E; [cbn|done]. intros [= <-].
  assert (good (enter sheet w) l) as Hg0.
  { destruct Hg as [Hf Ho Hc]. split; [done..|]. intros x y Hxy.
    destruct (Hc x y Hxy) as (? & ? & ? & ?). cbn. set_solver. }
  assert (stacked sheet (enter sheet w)) as Hst0.
  { intros a [->%elem_of_singleton|Ha]%elem_of_union; [done|by apply Hst]. }
  destruct (visit_targets_spec (visit fuel) sheet IH (imports sheet) _ w1 l ltac:(done) Hg0 Hst0
    ltac:(cbn; set_solver) E)
    as (l1 & Hg1 & [Hs1 Hc1 (m & -> & Hm)] & Hall). cbn in Hs1, Hc1, Hm.
  assert (sheet ∉ m ++ l) as Hnew.
  { intros [Hin|?]%elem_of_app; [|done]. destruct (Hm _ Hin) as [Hno _]. set_solver. }
  exists (sheet :: m ++ l). split_and!.
  - destruct Hg1 as [Hf Ho Hc]. split; cbn.
    + intros x. rewrite elem_of_cons, elem_of_union, elem_of_singleton, Hf. done.
    + by apply (ordered_cons (closing w1)).
    + intros x y Hxy. destruct (Hc x y Hxy) as (? & ? & Hx & Hy). rewrite Hs1 in *.
      split_and!; [done..| |]; destruct (decide (sheet = x)), (decide (sheet = y)); set_solver.
  - by left.
  - split; cbn; [rewrite Hs1; set_solver|done|]. exists (sheet :: m). split; [done|].
    intros x [->|Hx]%elem_of_cons; [done|]. destruct (Hm x Hx). set_solver.
Qed.

Lemma visit_start fuel entry w' :
  visit fuel entry start_walk = Some w' →
  ∃ l, good w' l ∧ on_stack w' = ∅ ∧ entry ∈ l ∧ ∀ x, x ∈ l ↔ reachable entry x.
Proof.
  intros E. assert (good start_walk []) as Hg0.
  { split; cbn; [set_solver|by intros x y ?%elem_of_nil|set_solver]. }
  destruct (visit_meets_spec fuel entry start_walk w' [] Hg0) as (l & Hg & He & [Hs _ (m & -> & Hm)]);
    [by intros a ?%elem_of_empty|apply not_elem_of_empty|apply not_elem_of_nil|done|].
  rewrite app_nil_r in *. exists m. split_and!; [done..|]. intros x. split; [by apply Hm|].
  intros Hr. induction Hr as [|x y z Hxy _ IH] in He |- *; [done|]. apply IH.
  destruct (good_ordered _ _ Hg _ _ He Hxy) as [Hc|[? _]]; [|done].
  destruct (good_closing _ _ Hg _ _ Hc) as (_ & _ & _ & [Hy|?]); [|done].
  rewrite Hs in Hy. set_solver.
Qed.

(** A finite tree closed under imports bounds the depth of the recursion. *)
Lemma visit_total (tree : gset string) :
  (∀ x y, x ∈ tree → edge x y → y ∈ tree) →
  ∀ fuel sheet w, sheet ∈ tree → sheet ∉ on_stack w → size (tree ∖ on_stack w) ≤ fuel →
  ∃ w', visit fuel sheet w = Some w' ∧ on_stack w' = on_stack w.
Proof.
  intros Hclosed. induction fuel as [|fuel IH]; intros sheet w Hin Hno Hsz.
  { assert (sheet ∈ tree ∖ on_stack w) as Hx by set_solver.
    assert (tree ∖ on_stack w ≡ ∅) as He by (by apply size_empty_iff; lia). set_solver. }
  cbn [visit].
  assert (∀ targets w1, (∀ t, t ∈ targets → edge sheet t) →
    on_stack w1 = {[sheet]} ∪ on_stack w →
    ∃ w2, visit_targets (visit fuel) sheet targets w1 = Some w2 ∧ on_stack w2 = on_stack w1)
    as Hloop.
  { induction targets as [|t rest IHt]; intros w1 Ht Hs; cbn; [by eexists|].
    assert (∃ w2, (if decide (t ∈ on_stack w1) then Some (close_edge (sheet, t) w1)
      else if decide (t ∉ finished w1) then visit fuel t w1 else Some w1) = Some w2 ∧
      on_stack w2 = on_stack w1) as (w2 & -> & Hs2).
    { case_decide as Hon; [by eexists|]. case_decide; [|by eexists].
      apply IH; [apply (Hclosed sheet); [done|apply Ht; by left]|done|].
      enough (tree ∖ on_stack w1 ⊂ tree ∖ on_stack w) as Hlt%subset_size by lia.
      rewrite Hs. set_solver. }
    cbn. destruct (IHt w2) as (w3 & -> & Hs3); [set_solver|congruence|].
    exists w3. split; [done|congruence]. }
  destruct (Hloop (imports sheet) (enter sheet w)) as (w2 & -> & Hs2); [done|done|].
  eexists. split; [done|]. cbn. rewrite Hs2. cbn. set_solver.
Qed.

(** C30. Cutting the closing edges makes a stylesheet tree acyclic and removes
    nothing else: on any finite tree the walk finishes, no sheet reached from
    the entry still leads to itself, every edge cut is an import on a cycle of
    the tree, and nothing is cut exactly when the tree had no cycle. *)
Theorem closing_edges_leave_a_dag (tree : gset string) fuel entry :
  entry ∈ tree → (∀ x y, x ∈ tree → edge x y → y ∈ tree) → size tree ≤ fuel →
  ∃ cut, closing_edges fuel entry = Some cut ∧
    acyclic_below cut entry ∧
    (∀ x y, (x, y) ∈ cut → reachable entry x ∧ edge x y ∧ rtc edge y x) ∧
    (cut = ∅ ↔ acyclic_below ∅ entry).
Proof.
  intros He Hclosed Hf. destruct (visit_total tree Hclosed fuel entry start_walk) as (w & E & _);
    [done|apply not_elem_of_empty|cbn; by rewrite difference_empty_L|].
  destruct (visit_start _ _ _ E) as (l & Hg & Hs & _ & Hl). unfold closing_edges. rewrite E.
  exists (closing w). assert (acyclic_below (closing w) entry) as Hdag.
  { intros x Hx. eapply ordered_acyclic; [apply Hg|by apply Hl]. }
  assert (∀ x y, (x, y) ∈ closing w → reachable entry x ∧ edge x y ∧ rtc edge y x) as Hcut.
  { intros x y Hxy. destruct (good_closing _ _ Hg _ _ Hxy) as (? & ? & [Hx|Hx] & _).
    - rewrite Hs in Hx. set_solver.
    - by apply Hl in Hx. }
  split_and!; [done..|]. split; [by intros <-|]. intros Hno. apply set_eq. intros [x y].
  split; [|set_solver]. intros Hxy. destruct (Hcut _ _ Hxy) as (Hx & Hedge & Hback).
  destruct (Hno x Hx). eapply tc_rtc_r.
  - apply tc_once. by split; [|apply not_elem_of_empty].
  - eapply rtc_subrel; [|exact Hback]. intros a b Hab. by split; [|apply not_elem_of_empty].
Qed.
End walk.

(** [sorted_adjacency]: the recorded edges of a tree, by importing sheet, each
    target list in the order of the set. *)
Definition sorted_adjacency (edges : list import_edge) : gmap string (list string) :=
  foldl (λ adj '(from, to), <[from := default [] (adj !! from) ++ [to]]> adj) ∅ edges.
Definition adjacent (adj : gmap string (list string)) (sheet : string) : list string :=
  default [] (adj !! sheet).

Lemma sorted_adjacency_edges edges x : adjacent (sorted_adjacency edges) x =
  (filter (λ e, e.1 = x) edges).*2.
Proof.
  unfold sorted_adjacency, adjacent.
  assert (∀ adj, default [] (foldl (λ (adj : gmap string (list string)) '(from, to),
    <[from := default [] (adj !! from) ++ [to]]> adj) adj edges !! x) =
    default [] (adj !! x) ++ (filter (λ e, e.1 = x) edges).*2) as H.
  { induction edges as [|[a b] edges IH]; intros adj; [by rewrite app_nil_r|]. cbn [foldl].
    rewrite IH. destruct (decide (a = x)) as [->|Hne].
    - rewrite lookup_insert_eq, filter_cons_True by done. cbn. by rewrite <- (assoc_L (++)).
    - by rewrite lookup_insert_ne, filter_cons_False by done. }
  by rewrite H, lookup_empty.
Qed.

(** ** A tree with two cycles *)
Definition sheets (s : string) : list string :=
  if decide (s = "/a.css") then ["/b.css"; "/c.css"]
  else if decide (s = "/b.css") then ["/c.css"; "/a.css"]
  else if decide (s = "/c.css") then ["/b.css"]
  else [].

Example closing_edges_leave_a_dag_witness :
  let tree : gset string := {["/a.css"; "/b.css"; "/c.css"]} in
  closing_edges sheets 3 "/a.css" = Some {[("/c.css", "/b.css"); ("/b.css", "/a.css")]} ∧
  ∃ cut, closing_edges sheets 3 "/a.css" = Some cut ∧
    acyclic_below sheets cut "/a.css" ∧
    (∀ x y, (x, y) ∈ cut → reachable sheets "/a.css" x ∧ edge sheets x y ∧ rtc (edge sheets) y x) ∧
    (cut = ∅ ↔ acyclic_below sheets ∅ "/a.css").
Proof.
  split; [vm_compute; reflexivity|].
  apply (closing_edges_leave_a_dag sheets {["/a.css"; "/b.css"; "/c.css"]} 3 "/a.css").
  - vm_compute. reflexivity.
  - intros x y Hx Hy. unfold edge, sheets in Hy.
    repeat case_decide; set_solver.
  - vm_compute. lia.
Defined.
