(* ===== verification/AssetLedger.v ===== *)
(** The resource ledger shared by every non-JavaScript input of a build
    (pipeline/asset_budget.rs): the metadata-first reservation of files and
    bytes, the CSS work budget, the snapshots and the observations. Every
    operation runs under the ledger's lock, so concurrent users interleave
    whole operations; a reservation lives between the two halves of a read. *)
From stdpp Require Import base gmap sets list strings.
From S2P Require Import Prelude Fingerprints.

Set Default Proof Using "Type*".

(** ** Assets *)

Inductive AssetKind := Css | Wasm | Font | Image.

Record CollectedAsset := {
  a_path : string;
  a_kind : AssetKind;
  a_bytes : list ascii;
  a_fingerprint : FileFingerprint;
}.
Definition asset_len (a : CollectedAsset) : N := N.of_nat (length (a_bytes a)).

Record AssetBudgetLimits := {
  max_unique_files : N;
  max_input_bytes : N;
  max_file_bytes : N;
  max_css_work_reads : N;
  max_css_work_bytes : N;
}.
(** [production]: the source ceiling is the default, no override being set. *)
Definition production : AssetBudgetLimits :=
  {| max_unique_files := 2000; max_input_bytes := 100 * 1024 * 1024;
     max_file_bytes := 20 * 1024 * 1024; max_css_work_reads := 512;
     max_css_work_bytes := 16 * 1024 * 1024 |}.

(** The formatted messages, by what they say. *)
Inductive breach :=
  | GraphFiles | TotalSource
  | CssWorkReading (path : string) | FileTooLarge (path : string) | TotalReading (path : string)
  | GraphFilesLoading (path : string) | TotalLoading (path : string)
  | CssWorkLoading (path : string).

Inductive io_error := LimitError (m : option breach) | DeadlineExpired | FsError (k : ErrorKind).

(** ** The ledger *)

Record BudgetState := {
  unique_files : gmap string N;
  graph_files : gset string;
  aliases : gmap string string;
  input_bytes : N;
  css_work_reads : N;
  css_work_bytes : N;
  snapshots : gmap string CollectedAsset;
  read_paths : gset string;
  fingerprints : list FileFingerprint;
  module_limit_message : option breach;
  timed_out : bool;
}.

Definition set_unique (m : gmap string N) (bytes : N) (s : BudgetState) : BudgetState :=
  {| unique_files := m; graph_files := graph_files s; aliases := aliases s; input_bytes := bytes;
     css_work_reads := css_work_reads s; css_work_bytes := css_work_bytes s;
     snapshots := snapshots s; read_paths := read_paths s; fingerprints := fingerprints s;
     module_limit_message := module_limit_message s; timed_out := timed_out s |}.
Definition set_alias (requested path : string) (s : BudgetState) : BudgetState :=
  {| unique_files := unique_files s; graph_files := graph_files s;
     aliases := <[requested := path]> (aliases s); input_bytes := input_bytes s;
     css_work_reads := css_work_reads s; css_work_bytes := css_work_bytes s;
     snapshots := snapshots s; read_paths := read_paths s; fingerprints := fingerprints s;
     module_limit_message := module_limit_message s; timed_out := timed_out s |}.
Definition set_css_work (reads bytes : N) (s : BudgetState) : BudgetState :=
  {| unique_files := unique_files s; graph_files := graph_files s; aliases := aliases s;
     input_bytes := input_bytes s; css_work_reads := reads; css_work_bytes := bytes;
     snapshots := snapshots s; read_paths := read_paths s; fingerprints := fingerprints s;
     module_limit_message := module_limit_message s; timed_out := timed_out s |}.
Definition set_snapshots (m : gmap string CollectedAsset) (s : BudgetState) : BudgetState :=
  {| unique_files := unique_files s; graph_files := graph_files s; aliases := aliases s;
     input_bytes := input_bytes s; css_work_reads := css_work_reads s;
     css_work_bytes := css_work_bytes s; snapshots := m; read_paths := read_paths s;
     fingerprints := fingerprints s; module_limit_message := module_limit_message s;
     timed_out := timed_out s |}.
Definition add_observation (path : string) (f : FileFingerprint) (s : BudgetState) : BudgetState :=
  {| unique_files := unique_files s; graph_files := graph_files s; aliases := aliases s;
     input_bytes := input_bytes s; css_work_reads := css_work_reads s;
     css_work_bytes := css_work_bytes s; snapshots := snapshots s;
     read_paths := {[path]} ∪ read_paths s; fingerprints := fingerprints s ++ [f];
     module_limit_message := module_limit_message s; timed_out := timed_out s |}.
Definition set_failure (m : option breach) (late : bool) (s : BudgetState) : BudgetState :=
  {| unique_files := unique_files s; graph_files := graph_files s; aliases := aliases s;
     input_bytes := input_bytes s; css_work_reads := css_work_reads s;
     css_work_bytes := css_work_bytes s; snapshots := snapshots s; read_paths := read_paths s;
     fingerprints := fingerprints s; module_limit_message := m; timed_out := late |}.

(** An operation under the lock: a value, an [io::Error], or a panic of one of
    the two [expect]s. *)
Inductive outcome (A : Type) := Done (a : A) | Refused (e : io_error) | Panicked.
Arguments Done {_} _.
Arguments Refused {_} _.
Arguments Panicked {_}.

Definition op (A : Type) : Type := BudgetState → outcome A * BudgetState.
#[export] Instance op_ret : MRet op := λ A a s, (Done a, s).
#[export] Instance op_bind : MBind op := λ A B f m s,
  match m s with
  | (Done a, s) => f a s
  | (Refused e, s) => (Refused e, s)
  | (Panicked, s) => (Panicked, s)
  end.
Definition get {A} (f : BudgetState → A) : op A := λ s, (Done (f s), s).
Definition modify (f : BudgetState → BudgetState) : op unit := λ s, (Done (), f s).
Definition panic {A} : op A := λ s, (Panicked, s).
Definition refuse {A} (e : io_error) : op A := λ s, (Refused e, s).

Definition limit_io_error (s : BudgetState) : io_error := LimitError (module_limit_message s).

(** Keep the first breach. *)
Definition record_limit (m : breach) (s : BudgetState) : BudgetState :=
  set_failure (Some (default m (module_limit_message s))) (timed_out s) s.
Definition breached {A} (m : breach) : op A := λ s,
  let s := record_limit m s in (Refused (limit_io_error s), s).

(** [expired] is what the deadline answers at this call. *)
Definition check_available (expired : bool) : op unit := λ s,
  match module_limit_message s with
  | Some _ => (Refused (limit_io_error s), s)
  | None =>
      if expired then (Refused DeadlineExpired, set_failure None true s)
      else (Done (), s)
  end.

(** ** Paths

    [Path::parent] and [Path::file_name] on a [/]-separated path: trailing
    separators and [.] components do not count, and a path whose last component
    is [..] has no file name. The bytes are taken from the end. *)
Fixpoint trim_rev (l : list ascii) : list ascii :=
  match l with
  | "/"%char :: rest => trim_rev rest
  | "."%char :: ("/"%char :: _) as rest => trim_rev rest
  | _ => l
  end.

Fixpoint span_name (l : list ascii) : list ascii * option (list ascii) :=
  match l with
  | [] => ([], None)
  | "/"%char :: rest => ([], Some rest)
  | c :: rest => let '(name, before) := span_name rest in (c :: name, before)
  end.

Definition parent_and_name (path : string) : option (string * string) :=
  let '(name, before) := span_name (trim_rev (reverse (to_bytes path))) in
  let name := of_bytes (reverse name) in
  if decide (name = "" ∨ name = "." ∨ name = "..") then None
  else
    let parent := match before with
                  | None => ""
                  | Some rest => match trim_rev rest with
                                 | [] => "/"
                                 | rest => of_bytes (reverse rest)
                                 end
                  end in
    Some (parent, name).

Definition join (parent name : string) : string :=
  if decide (parent = "" ∨ last (to_bytes parent) = Some "/"%char) then (parent +:+ name)%string
  else (parent +:+ "/" +:+ name)%string.

Section ledger.
Context `{FS : FileSystem, CH : ContentHash} (windows : bool) (limits : AssetBudgetLimits).

Definition canonical_path (path : string) : string :=
  match fs_canonicalize path with
  | Some p => p
  | None =>
      default path
        ('(parent, name) ← parent_and_name path;
         (λ parent, join parent name) <$> fs_canonicalize parent)
  end.

Definition from_read (canonical_path : string) (kind : AssetKind) (md : Metadata)
    (bs : list ascii) : CollectedAsset :=
  {| a_path := canonical_path; a_kind := kind; a_bytes := bs;
     a_fingerprint := file_fingerprint_from_read_time windows canonical_path (md_len md)
                        (modified_millis md) (content_hash bs) |}.

Definition stat_fingerprint (path : string) (md : Metadata) : FileFingerprint :=
  {| fp_path := identity_path_string windows path; fp_len := md_len md;
     fp_modified_millis := modified_millis md; fp_content_hash := None |}.

(** ** Operations *)

(** [AssetProcessingContext::new]: the state it starts from. *)
Definition new_ledger (graph_source_bytes : N) (graph_loaded_paths : list string)
    (direct_assets : list CollectedAsset) : BudgetState :=
  let graph : gset string := list_to_set graph_loaded_paths ∪ list_to_set (a_path <$> direct_assets) in
  let unique := set_fold (λ p m, <[p := 0%N]> m) (∅ : gmap string N) graph in
  let snaps := foldl (λ m a, <[a_path a := a]> m) (∅ : gmap string CollectedAsset) direct_assets in
  let unique := map_fold (λ p a m, match m !! p with
                                   | Some _ => m
                                   | None => <[p := asset_len a]> m
                                   end) unique snaps in
  let s :=
    {| unique_files := unique; graph_files := graph;
       aliases := foldl (λ m a, <[a_path a := a_path a]> m) ∅ direct_assets;
       input_bytes := graph_source_bytes; css_work_reads := 0; css_work_bytes := 0;
       snapshots := snaps; read_paths := ∅; fingerprints := a_fingerprint <$> direct_assets;
       module_limit_message := None; timed_out := false |} in
  let s := if decide (max_unique_files limits < N.of_nat (size (unique_files s)))%N
           then set_failure (Some GraphFiles) false s else s in
  if decide (max_input_bytes limits < input_bytes s)%N then record_limit TotalSource s else s.

Definition charge_css_work (bytes : N) (path : string) : op unit :=
  work ← get (λ s, (css_work_reads s, css_work_bytes s));
  let reads := sat_add work.1 1 in
  let next_css_work_bytes := sat_add work.2 bytes in
  if decide (max_css_work_reads limits < reads ∨ max_css_work_bytes limits < next_css_work_bytes)%N
  then breached (CssWorkLoading path)
  else modify (set_css_work reads next_css_work_bytes).

Definition reserve_unique (path : string) (bytes : N) : op unit :=
  if decide (max_file_bytes limits < bytes)%N then breached (FileTooLarge path)
  else
    s ← get id;
    if decide (is_Some (unique_files s !! path)) then mret ()
    else if decide (max_unique_files limits < sat_add (N.of_nat (size (unique_files s))) 1)%N then
      breached (GraphFilesLoading path)
    else
      let next_input_bytes := sat_add (input_bytes s) bytes in
      if decide (max_input_bytes limits < next_input_bytes)%N then breached (TotalLoading path)
      else modify (set_unique (<[path := bytes]> (unique_files s)) next_input_bytes).

Record CssReadReservation := {
  r_path : string;
  r_metadata : Metadata;
  r_css_work_reserved_bytes : option N;
}.

Definition check_deadline (expired : bool) : op unit := check_available expired.

Definition charge_css_snapshot (expired : bool) (asset : CollectedAsset) : op unit :=
  _ ← check_available expired;
  _ ← modify (add_observation (a_path asset) (a_fingerprint asset));
  charge_css_work (asset_len asset) (a_path asset).

(** [usize] is 64 bits wide, so a length always fits. *)
Definition begin_css_read (expired : bool) (path : string) (md : Metadata)
    : op CssReadReservation :=
  let path := canonical_path path in
  _ ← check_available expired;
  _ ← modify (add_observation path (stat_fingerprint path md));
  _ ← charge_css_work (md_len md) path;
  _ ← reserve_unique path (md_len md);
  mret {| r_path := path; r_metadata := md; r_css_work_reserved_bytes := Some (md_len md) |}.

Definition begin_resource_read (expired : bool) (path : string) (md : Metadata)
    : op CssReadReservation :=
  _ ← check_available expired;
  _ ← modify (add_observation path (stat_fingerprint path md));
  _ ← reserve_unique path (md_len md);
  mret {| r_path := path; r_metadata := md; r_css_work_reserved_bytes := None |}.

(** The CSS work held by a reservation becomes the work of the bytes read. *)
Definition reconcile_css_work (r : CssReadReservation) (actual_bytes : N) : op unit :=
  match r_css_work_reserved_bytes r with
  | None => mret ()
  | Some reserved_bytes =>
      s ← get id;
      if decide (css_work_bytes s < reserved_bytes)%N then panic
      else
        let reconciled_work_bytes := sat_add (css_work_bytes s - reserved_bytes) actual_bytes in
        if decide (max_css_work_bytes limits < reconciled_work_bytes)%N then
          breached (CssWorkReading (r_path r))
        else modify (set_css_work (css_work_reads s) reconciled_work_bytes)
  end.

(** The bytes charged for a path grow to the largest read of it. *)
Definition reconcile_input (path : string) (actual_bytes : N) : op unit :=
  s ← get id;
  if decide (path ∈ graph_files s) then mret ()
  else
    match unique_files s !! path with
    | None => panic
    | Some charged_bytes =>
        let reconciled := sat_add (input_bytes s) (sat_sub actual_bytes charged_bytes) in
        if decide (max_input_bytes limits < reconciled)%N then breached (TotalReading path)
        else
          modify (set_unique (if decide (charged_bytes < actual_bytes)%N
                              then <[path := actual_bytes]> (unique_files s) else unique_files s)
                    reconciled)
    end.

Definition finish_read (expired : bool) (r : CssReadReservation) (kind : AssetKind)
    (bs : list ascii) : op CollectedAsset :=
  let asset := from_read (r_path r) kind (r_metadata r) bs in
  let actual_bytes := asset_len asset in
  _ ← check_available expired;
  _ ← modify (add_observation (r_path r) (a_fingerprint asset));
  _ ← reconcile_css_work r actual_bytes;
  _ ← (if decide (max_file_bytes limits < actual_bytes)%N then breached (FileTooLarge (r_path r))
       else mret ());
  _ ← reconcile_input (r_path r) actual_bytes;
  _ ← modify (λ s, set_snapshots (match snapshots s !! r_path r with
                                  | Some _ => snapshots s
                                  | None => <[r_path r := asset]> (snapshots s)
                                  end) s);
  mret asset.

Definition finish_css_read (expired : bool) (r : CssReadReservation) (bs : list ascii) :=
  finish_read expired r Css bs.

Definition record_failed_path (path : string) (missing : bool) : op unit :=
  let path := canonical_path path in
  modify (add_observation path (if missing then absent_file_fingerprint windows path
                                else unverifiable_file_fingerprint windows path)).

Definition observe_metadata (path : string) : op Metadata :=
  match fs_metadata path with
  | inl md => _ ← modify (add_observation path (stat_fingerprint path md)); mret md
  | inr e =>
      _ ← record_failed_path path (bool_decide (e = NotFound));
      refuse (FsError e)
  end.

(** [inr]: the canonical path the miss was looked up under. *)
Definition snapshot_if_present (path : string) : op (CollectedAsset + string) :=
  get (λ s,
    match snapshots s !! default path (aliases s !! path) with
    | Some a => inl a
    | None =>
        let canonical := canonical_path path in
        match snapshots s !! canonical with
        | Some a => inl a
        | None => inr canonical
        end
    end).

(** The deadline is read at each of the three calls that check it. *)
Definition snapshot (expired : nat → bool) (path : string) (kind : AssetKind) : op CollectedAsset :=
  let failed (path : string) (e : ErrorKind) : op CollectedAsset :=
    _ ← record_failed_path path (bool_decide (e = NotFound)); refuse (FsError e) in
  found ← snapshot_if_present path;
  match found with
  | inl asset => _ ← check_deadline (expired 0); mret asset
  | inr canonical =>
      _ ← modify (set_alias path canonical);
      _ ← check_deadline (expired 0);
      match fs_metadata canonical with
      | inr e => failed canonical e
      | inl md =>
          r ← begin_resource_read (expired 1) canonical md;
          match fs_read canonical with
          | inr e => failed canonical e
          | inl bs => finish_read (expired 2) r kind bs
          end
      end
  end.

Definition snapshot_for (path : string) (s : BudgetState) : option CollectedAsset :=
  snapshots s !! path.

(** ** Observations *)

Definition exact_metadata (f : FileFingerprint) : string * N * N :=
  (fp_path f, fp_len f, fp_modified_millis f).

Definition normalized_observations (observations : list FileFingerprint) : list FileFingerprint :=
  let exact := exact_metadata <$> filter (λ f, is_Some (fp_content_hash f)) observations in
  sort_and_dedup_fingerprints
    (filter (λ f, is_Some (fp_content_hash f) ∨ exact_metadata f ∉ exact) observations).

Definition freshness_fingerprints (s : BudgetState) : list FileFingerprint :=
  normalized_observations (fingerprints s).

Inductive AssetBudgetStage := ModuleGraphLimit | Timeout.
Record AssetBudgetFailure := {
  bf_stage : AssetBudgetStage;
  bf_message : option breach;
  bf_read_paths : gset string;
  bf_fingerprints : list FileFingerprint;
}.

Definition failure (s : BudgetState) : option AssetBudgetFailure :=
  let fail stage message :=
    Some {| bf_stage := stage; bf_message := message; bf_read_paths := read_paths s;
            bf_fingerprints := normalized_observations (fingerprints s) |} in
  match module_limit_message s with
  | Some m => fail ModuleGraphLimit (Some m)
  | None => if timed_out s then fail Timeout None else None
  end.

(** ** Histories

    The whole operations in the order the lock serialised them. A reservation
    is finished once or dropped, by its position among those outstanding. *)
Inductive event :=
  | ECheck (expired : bool)
  | ECharge (expired : bool) (asset : CollectedAsset)
  | EBeginCss (expired : bool) (path : string) (md : Metadata)
  | EBeginResource (expired : bool) (path : string) (md : Metadata)
  | EFinish (expired : bool) (i : nat) (kind : AssetKind) (bs : list ascii)
  | EDrop (i : nat)
  | EAlias (requested path : string)
  | EObserve (path : string)
  | EFail (path : string) (missing : bool).

Definition reserved (o : outcome CssReadReservation * BudgetState)
    (out : list CssReadReservation) : option (BudgetState * list CssReadReservation) :=
  match o with
  | (Done r, s) => Some (s, r :: out)
  | (Refused _, s) => Some (s, out)
  | (Panicked, _) => None
  end.
Definition completed {A} (o : outcome A * BudgetState) (out : list CssReadReservation)
    : option (BudgetState * list CssReadReservation) :=
  match o with
  | (Panicked, _) => None
  | (_, s) => Some (s, out)
  end.

(** [None] is a panic. *)
Definition run_event (e : event) (st : BudgetState * list CssReadReservation)
    : option (BudgetState * list CssReadReservation) :=
  let '(s, out) := st in
  match e with
  | ECheck x => completed (check_deadline x s) out
  | ECharge x a => completed (charge_css_snapshot x a s) out
  | EBeginCss x p md => reserved (begin_css_read x p md s) out
  | EBeginResource x p md => reserved (begin_resource_read x p md s) out
  | EFinish x i kind bs =>
      match out !! i with
      | Some r => completed (finish_read x r kind bs s) (delete i out)
      | None => Some (s, out)
      end
  | EDrop i => Some (s, delete i out)
  | EAlias requested p => completed (modify (set_alias requested p) s) out
  | EObserve p => completed (observe_metadata p s) out
  | EFail p missing => completed (record_failed_path p missing s) out
  end.

Fixpoint run_events (es : list event) (st : BudgetState * list CssReadReservation)
    : option (BudgetState * list CssReadReservation) :=
  match es with
  | [] => Some st
  | e :: es => st ← run_event e st; run_events es st
  end.

(** ** Bounds and accounting *)

Definition charged (m : gmap string N) : N := map_fold (λ _ n acc, n + acc)%N 0%N m.

Definition within_limits (s : BudgetState) : Prop :=
  (N.of_nat (size (unique_files s)) ≤ max_unique_files limits)%N ∧
  (input_bytes s ≤ max_input_bytes limits)%N ∧
  (css_work_reads s ≤ max_css_work_reads limits)%N ∧
  (css_work_bytes s ≤ max_css_work_bytes limits)%N.

(** [graph] bytes came with the module graph; [held] bytes of CSS work and the
    files [paths] belong to reads that have begun. *)
Record accounts (graph : N) (s : BudgetState) (held : N) (paths : list string) : Prop := {
  acc_bytes : input_bytes s = (graph + charged (unique_files s))%N;
  acc_limits : module_limit_message s = None → within_limits s;
  acc_files : ∀ p n, unique_files s !! p = Some n → (n ≤ max_file_bytes limits)%N;
  acc_css : (held ≤ css_work_bytes s)%N;
  acc_paths : ∀ p, p ∈ paths → is_Some (unique_files s !! p);
}.

Definition finite_limits : Prop :=
  (max_input_bytes limits < u64_max ∧ max_css_work_bytes limits < u64_max ∧
   max_unique_files limits < u64_max)%N.

(** [m] does not panic from [s]; it ends in [Q], or refuses in [E]. *)
Definition ends {A} (m : op A) (s : BudgetState) (Q : A → BudgetState → Prop)
    (E : BudgetState → Prop) : Prop :=
  match m s with
  | (Done a, s') => Q a s'
  | (Refused _, s') => E s'
  | (Panicked, _) => False
  end.

Lemma ends_bind {A B} (m : op A) (f : A → op B) s Q E R :
  ends m s R E → (∀ a s', R a s' → ends (f a) s' Q E) → ends (m ≫= f) s Q E.
Proof.
  unfold ends, mbind, op_bind. destruct (m s) as [[a|e|] s']; [|done..]. intros Hr Hf. by apply Hf.
Qed.

Lemma ends_get {A B} (f : BudgetState → A) (k : A → op B) s Q E :
  ends (k (f s)) s Q E → ends (get f ≫= k) s Q E.
Proof. done. Qed.

Lemma ends_modify {B} (f : BudgetState → BudgetState) (k : unit → op B) s Q E :
  ends (k ()) (f s) Q E → ends (modify f ≫= k) s Q E.
Proof. done. Qed.

Lemma ends_mono {A} (m : op A) s (Q Q' : A → BudgetState → Prop) (E E' : BudgetState → Prop) :
  ends m s Q E → (∀ a s', Q a s' → Q' a s') → (∀ s', E s' → E' s') → ends m s Q' E'.
Proof. unfold ends. destruct (m s) as [[a|e|] s']; auto. Qed.

Lemma charged_insert_new m p n : m !! p = None → charged (<[p := n]> m) = (n + charged m)%N.
Proof. intros H. unfold charged. rewrite map_fold_insert_L; [done|intros; lia|done]. Qed.

Lemma charged_replace m p n n' :
  m !! p = Some n → (charged (<[p := n']> m) + n = charged m + n')%N.
Proof.
  intros H. rewrite <- (insert_delete_id m p n H) at 2.
  rewrite <- insert_delete_eq, !charged_insert_new by apply lookup_delete_eq. lia.
Qed.

Section bounded.
Context (graph : N) (FIN : finite_limits).

Lemma accounts_weaken s held held' paths paths' :
  accounts graph s held paths → (held' ≤ held)%N → paths' ⊆ paths → accounts graph s held' paths'.
Proof. intros [] ? ?. split; [done..|lia|]. auto. Qed.

Lemma accounts_observe s held paths p f :
  accounts graph s held paths → accounts graph (add_observation p f s) held paths.
Proof. by intros []. Qed.

Lemma breached_ends {A} m s held paths (Q : A → BudgetState → Prop) :
  accounts graph s held paths → ends (breached m) s Q (λ s', accounts graph s' held paths).
Proof. by intros []. Qed.

Lemma check_available_ends x s held paths :
  accounts graph s held paths →
  ends (check_available x) s (λ _ s', s' = s ∧ module_limit_message s = None)
    (λ s', accounts graph s' held paths).
Proof.
  intros H. unfold ends, check_available. destruct (module_limit_message s) eqn:E; [done|].
  destruct x; [|done]. destruct H as [? Hl ? ? ?]. split; try done. intros _. by apply Hl.
Qed.

Lemma charge_css_work_ends b p s held paths :
  accounts graph s held paths →
  ends (charge_css_work b p) s (λ _ s', accounts graph s' (held + b) paths)
    (λ s', accounts graph s' held paths).
Proof.
  intros H. unfold charge_css_work. apply ends_get. cbn zeta. case_decide as Hd; [by apply breached_ends|].
  apply Decidable.not_or in Hd as [Hr Hb]. destruct FIN as (_ & Hcss & _).
  cbn [fst snd] in *. pose proof (sat_add_exact (css_work_bytes s) b (max_css_work_bytes limits) ltac:(lia) Hcss) as Hs.
  rewrite Hs in *. unfold ends, modify. destruct H as [? Hl ? ? ?]. split; cbn; try done; [|lia].
  intros Hm. destruct (Hl Hm) as (? & ? & _). unfold within_limits. cbn. split_and!; try done; lia.
Qed.

Lemma reserve_unique_ends b p s held paths :
  accounts graph s held paths →
  ends (reserve_unique p b) s (λ _ s', accounts graph s' held (p :: paths))
    (λ s', accounts graph s' held paths).
Proof.
  intros H. unfold reserve_unique. case_decide as Hfile; [by apply breached_ends|].
  apply ends_get. unfold id. case_decide as Hin.
  { destruct H as [? ? ? ? Hp]. split; try done. intros q [->|?]%elem_of_cons; auto. }
  case_decide as Hcount; [by apply breached_ends|]. cbn zeta.
  case_decide as Htotal; [by apply breached_ends|]. apply eq_None_not_Some in Hin.
  destruct FIN as (Hmax & _ & Hmaxf), H as [Hb Hl Hf Hcss Hp].
  pose proof (sat_add_exact (input_bytes s) b (max_input_bytes limits) ltac:(lia) Hmax) as Hs.
  pose proof (sat_add_exact (N.of_nat (size (unique_files s))) 1 (max_unique_files limits)
    ltac:(lia) Hmaxf) as Hn1.
  rewrite Hs in Htotal. unfold ends, modify. rewrite Hs. split; cbn.
  - rewrite charged_insert_new by done. lia.
  - intros Hm. destruct (Hl Hm) as (Hn & _ & ? & ?). unfold within_limits. cbn.
    split_and!; try done; [|lia]. rewrite map_size_insert_None by done. rewrite Hn1 in Hcount. lia.
  - intros q n [[<- <-]|[_ Hq]]%lookup_insert_Some; [lia|by eapply Hf].
  - done.
  - intros q [->|Hq]%elem_of_cons; [by rewrite lookup_insert_eq|].
    rewrite lookup_insert_is_Some. destruct (decide (p = q)); [by left|right; auto].
Qed.

Lemma reconcile_css_work_ends r b s held paths :
  accounts graph s held paths → (default 0 (r_css_work_reserved_bytes r) ≤ held)%N →
  let held' := (held - default 0 (r_css_work_reserved_bytes r))%N in
  ends (reconcile_css_work r b) s (λ _ s', accounts graph s' held' paths)
    (λ s', accounts graph s' held' paths).
Proof.
  intros H Hr held'. assert (accounts graph s held' paths) as H' by (by eapply accounts_weaken; [done|lia|]).
  unfold reconcile_css_work. destruct (r_css_work_reserved_bytes r) as [reserved_bytes|]; [|done].
  apply ends_get. unfold id. cbn in Hr. pose proof (acc_css _ _ _ _ H) as Hc.
  case_decide as Hlt; [lia|]. cbn zeta. case_decide as Hmax; [by apply breached_ends|].
  destruct FIN as (_ & Hcss & _).
  pose proof (sat_add_exact (css_work_bytes s - reserved_bytes) b (max_css_work_bytes limits) ltac:(lia) Hcss) as Hs.
  rewrite Hs in *. unfold ends, modify. destruct H' as [? Hl ? _ ?]. subst held'.
  split; cbn; try done; [|lia]. intros Hm. destruct (Hl Hm) as (? & ? & ? & ?).
  unfold within_limits. cbn. split_and!; try done; lia.
Qed.

Lemma reconcile_input_ends p b s held paths :
  accounts graph s held paths → p ∈ paths → (b ≤ max_file_bytes limits)%N →
  ends (reconcile_input p b) s (λ _ s', accounts graph s' held paths)
    (λ s', accounts graph s' held paths).
Proof.
  intros H Hp Hb. unfold reconcile_input. apply ends_get. unfold id. case_decide; [done|].
  destruct (acc_paths _ _ _ _ H p Hp) as [charged_bytes Hch]. rewrite Hch. cbn zeta.
  case_decide as Hmax; [by apply breached_ends|]. destruct FIN as (Hi & _).
  pose proof (sat_add_exact (input_bytes s) (sat_sub b charged_bytes) (max_input_bytes limits)
    ltac:(lia) Hi) as Hs.
  rewrite Hs in *. unfold sat_sub in *. destruct H as [Hbytes Hl Hf Hc Hps]. unfold ends, modify.
  case_decide as Hgrow.
  - split; cbn.
    + pose proof (charged_replace _ _ _ b Hch). lia.
    + intros Hm. destruct (Hl Hm) as (? & ? & ? & ?). unfold within_limits. cbn.
      split_and!; try done; [|lia]. by rewrite map_size_insert_Some.
    + intros q n [[<- <-]|[_ Hq]]%lookup_insert_Some; [lia|by eapply Hf].
    + done.
    + intros q Hq. rewrite lookup_insert_is_Some. destruct (decide (p = q)); [by left|right; auto].
  - assert (b - charged_bytes = 0)%N as -> by (clear - Hgrow; lia). rewrite N.add_0_r.
    split; cbn; assumption.
Qed.

Lemma finish_read_ends x r kind bs s held paths :
  accounts graph s held paths → r_path r ∈ paths →
  (default 0 (r_css_work_reserved_bytes r) ≤ held)%N →
  let held' := (held - default 0 (r_css_work_reserved_bytes r))%N in
  ends (finish_read x r kind bs) s (λ _ s', accounts graph s' held' paths)
    (λ s', accounts graph s' held' paths).
Proof.
  intros H Hp Hr held'. assert (∀ s', accounts graph s' held paths → accounts graph s' held' paths)
    as Hw by (intros s' H'; by eapply accounts_weaken; [done|lia|]).
  unfold finish_read. cbn zeta. eapply ends_bind.
  { eapply ends_mono; [by apply check_available_ends|exact (λ _ _ H, H)|by auto]. }
  intros _ s1 [-> _]. apply ends_modify. eapply ends_bind.
  { apply reconcile_css_work_ends; [by apply accounts_observe|done]. }
  intros [] s1 H1. eapply (ends_bind _ _ _ _ _ (λ _ s', s' = s1 ∧
    (N.of_nat (length bs) ≤ max_file_bytes limits)%N)).
  { case_decide as Hbig; [by apply breached_ends|]. split; [done|]. unfold asset_len in *. cbn in *. lia. }
  intros [] s2 [-> Hsize]. eapply ends_bind; [by apply reconcile_input_ends|].
  intros [] s2 H2. apply ends_modify. by destruct H2.
Qed.

Lemma charge_css_snapshot_ends x a s held paths :
  accounts graph s held paths →
  ends (charge_css_snapshot x a) s (λ _ s', accounts graph s' held paths)
    (λ s', accounts graph s' held paths).
Proof.
  intros H. unfold charge_css_snapshot. eapply ends_bind.
  { eapply ends_mono; [by apply check_available_ends|exact (λ _ _ H, H)|by auto]. }
  intros [] s1 [-> _]. apply ends_modify. eapply ends_mono.
  - by apply charge_css_work_ends, accounts_observe.
  - intros [] s' H'. eapply accounts_weaken; [exact H'|lia|done].
  - by auto.
Qed.

(** What a begun read holds. *)
Definition held_by (r : CssReadReservation) : N := default 0%N (r_css_work_reserved_bytes r).

Lemma begin_css_read_ends x p md s held paths :
  accounts graph s held paths →
  ends (begin_css_read x p md) s (λ r s', accounts graph s' (held_by r + held) (r_path r :: paths))
    (λ s', accounts graph s' held paths).
Proof.
  intros H. unfold begin_css_read. cbn zeta. eapply ends_bind.
  { eapply ends_mono; [by apply check_available_ends|exact (λ _ _ H, H)|by auto]. }
  intros [] s1 [-> _]. apply ends_modify. eapply ends_bind.
  { by apply charge_css_work_ends, accounts_observe. }
  intros [] s1 H1. eapply ends_bind.
  { eapply ends_mono; [by apply reserve_unique_ends|exact (λ _ _ H, H)|].
    intros s' H'. eapply accounts_weaken; [exact H'|lia|done]. }
  intros [] s2 H2. unfold ends, mret, op_ret, held_by. cbn [default r_css_work_reserved_bytes r_path].
  by rewrite N.add_comm.
Qed.

Lemma begin_resource_read_ends x p md s held paths :
  accounts graph s held paths →
  ends (begin_resource_read x p md) s
    (λ r s', accounts graph s' (held_by r + held) (r_path r :: paths))
    (λ s', accounts graph s' held paths).
Proof.
  intros H. unfold begin_resource_read. eapply ends_bind.
  { eapply ends_mono; [by apply check_available_ends|exact (λ _ _ H, H)|by auto]. }
  intros [] s1 [-> _]. apply ends_modify. eapply ends_bind.
  { by apply reserve_unique_ends, accounts_observe. }
  by intros [] s2 H2.
Qed.

Definition held_total (out : list CssReadReservation) : N :=
  foldr (λ r acc, held_by r + acc)%N 0%N out.
Definition accounted (st : BudgetState * list CssReadReservation) : Prop :=
  accounts graph st.1 (held_total st.2) (r_path <$> st.2).

Lemma held_delete out i r :
  out !! i = Some r → (held_total (delete i out) + held_by r = held_total out)%N.
Proof.
  revert i. induction out as [|r' out IH]; intros [|i] Hi; try done.
  - injection Hi as ->. change (held_total out + held_by r = held_by r + held_total out)%N. lia.
  - specialize (IH i Hi).
    change (held_by r' + held_total (delete i out) + held_by r = held_by r' + held_total out)%N. lia.
Qed.

Lemma paths_delete (out : list CssReadReservation) i : (r_path <$> delete i out) ⊆ (r_path <$> out).
Proof.
  intros p (r & -> & Hr)%list_elem_of_fmap. apply list_elem_of_fmap_2.
  eapply elem_of_submseteq; [exact Hr|]. apply sublist_submseteq, sublist_delete.
Qed.

Lemma accounted_drop s out i : accounted (s, out) → accounted (s, delete i out).
Proof.
  intros H. destruct (out !! i) as [r|] eqn:Hi.
  - pose proof (held_delete _ _ _ Hi). eapply accounts_weaken; [exact H|cbn [fst snd]; lia|].
    exact (paths_delete out i).
  - apply lookup_ge_None in Hi. by rewrite delete_take_drop, drop_ge, app_nil_r, take_ge by lia.
Qed.

Lemma completed_accounted {A} (m : op A) s out :
  ends m s (λ _ s', accounted (s', out)) (λ s', accounted (s', out)) →
  ∃ st', completed (m s) out = Some st' ∧ accounted st'.
Proof. unfold ends. destruct (m s) as [[a|e|] s']; [by eexists..|done]. Qed.

Lemma reserved_accounted (m : op CssReadReservation) s out :
  ends m s (λ r s', accounted (s', r :: out)) (λ s', accounted (s', out)) →
  ∃ st', reserved (m s) out = Some st' ∧ accounted st'.
Proof. unfold ends. destruct (m s) as [[a|e|] s']; [by eexists..|done]. Qed.

Lemma run_event_accounted e st : accounted st → ∃ st', run_event e st = Some st' ∧ accounted st'.
Proof.
  destruct st as [s out]. intros H. destruct e as [x|x a|x p md|x p md|x i kind bs|i|q p|p|p missing]; cbn.
  - apply completed_accounted. unfold check_deadline.
    eapply ends_mono; [exact (check_available_ends x s _ _ H)| |by auto]. by intros [] s' [-> _].
  - apply completed_accounted. exact (charge_css_snapshot_ends x a s _ _ H).
  - apply reserved_accounted. exact (begin_css_read_ends x p md s _ _ H).
  - apply reserved_accounted. exact (begin_resource_read_ends x p md s _ _ H).
  - destruct (out !! i) as [r|] eqn:Hi; [|by eexists]. apply completed_accounted.
    pose proof (held_delete _ _ _ Hi) as Hd.
    assert (∀ s', accounts graph s' (held_total out - held_by r) (r_path <$> out) →
      accounted (s', delete i out)) as Hw.
    { intros s' H'. eapply accounts_weaken; [exact H'|cbn [fst snd]; lia|].
      exact (paths_delete out i). }
    eapply ends_mono; [apply finish_read_ends; [exact H| |]|by auto..].
    + apply list_elem_of_fmap_2. by eapply list_elem_of_lookup_2.
    + change (held_by r ≤ held_total out)%N. lia.
  - eexists. split; [done|]. by apply accounted_drop.
  - eexists. split; [done|]. by destruct H.
  - apply completed_accounted. unfold observe_metadata. destruct (fs_metadata p); by destruct H.
  - eexists. split; [done|]. by destruct H.
Qed.

Lemma run_events_accounted es st :
  accounted st → ∃ st', run_events es st = Some st' ∧ accounted st'.
Proof.
  revert st. induction es as [|e es IH]; intros st H; [by eexists|].
  destruct (run_event_accounted e st H) as (st1 & E & H1). cbn. rewrite E. by apply IH.
Qed.
End bounded.

Lemma charged_zero (m : gmap string N) : (∀ p n, m !! p = Some n → n = 0%N) → charged m = 0%N.
Proof.
  induction m as [|p n m Hp IH] using map_ind; intros H; [done|].
  rewrite charged_insert_new by done. rewrite (H p n) by apply lookup_insert_eq.
  rewrite IH; [done|]. intros q k Hq. apply (H q). rewrite lookup_insert_ne; [done|congruence].
Qed.

Lemma free_files (graph : gset string) (snaps : gmap string CollectedAsset) :
  dom snaps ⊆ graph →
  let unique := set_fold (λ p m, <[p := 0%N]> m) (∅ : gmap string N) graph in
  map_fold (λ p a m, match m !! p with Some _ => m | None => <[p := asset_len a]> m end)
    unique snaps = unique ∧
  ∀ p n, unique !! p = Some n → n = 0%N.
Proof.
  intros Hsub. cbn zeta.
  assert (∀ p, set_fold (λ p m, <[p := 0%N]> m) (∅ : gmap string N) graph !! p =
    if decide (p ∈ graph) then Some 0%N else None) as Hu.
  { clear Hsub.
    pose (P := λ (m : gmap string N) (X : gset string), ∀ p,
      m !! p = if decide (p ∈ X) then Some 0%N else None).
    apply (set_fold_ind_L P); subst P; cbn.
    - intros p. rewrite decide_False by set_solver. apply lookup_empty.
    - intros x X m Hx Hm p. destruct (decide (p = x)) as [->|Hne].
      + rewrite lookup_insert_eq, decide_True by set_solver. done.
      + rewrite lookup_insert_ne, Hm by done. destruct (decide (p ∈ X)).
        * by rewrite decide_True by set_solver.
        * by rewrite decide_False by set_solver. }
  set (unique := set_fold _ _ _) in *. split.
  - revert Hsub. apply (map_fold_weak_ind (λ r (m : gmap string CollectedAsset), dom m ⊆ graph → r = unique)); [done|].
    intros p a m r Hp IH Hd. rewrite dom_insert_L in Hd. rewrite IH by set_solver.
    rewrite Hu, decide_True by set_solver. done.
  - intros p n. rewrite Hu. case_decide; congruence.
Qed.

Lemma new_ledger_accounts graph loaded direct :
  let s := new_ledger graph loaded direct in accounts graph s 0 [].
Proof.
  cbn zeta. unfold new_ledger. set (g := list_to_set loaded ∪ _).
  set (snaps := foldl (λ m a, <[a_path a := a]> m) (∅ : gmap string CollectedAsset) direct).
  assert (dom snaps ⊆ g) as Hsub.
  { subst snaps g.
    assert (∀ (m : gmap string CollectedAsset) p,
      p ∈ dom (foldl (λ m a, <[a_path a := a]> m) m direct) → p ∈ dom m ∨ p ∈ a_path <$> direct)
      as H.
    { induction direct as [|a direct IH]; intros m p Hp; [by left|]. cbn in *.
      apply IH in Hp as [Hp|?]; set_solver. }
    intros p [Hp|Hp]%H; [by rewrite dom_empty_L in Hp|]. set_solver. }
  destruct (free_files g snaps Hsub) as [-> Hz]. set (unique := set_fold _ _ _) in *.
  pose proof (charged_zero unique Hz) as Hc.
  match goal with |- accounts _ (if _ then record_limit _ ?s1 else _) _ _ => set (st := s1) end.
  assert (input_bytes st = graph ∧ unique_files st = unique ∧ css_work_bytes st = 0%N ∧
    css_work_reads st = 0%N ∧
    (module_limit_message st = None → (N.of_nat (size unique) ≤ max_unique_files limits)%N))
    as (Hi & Hu & Hcss & Hr & Hm).
  { subst st. case_decide as Hd; cbn in *; split_and!; try done. intros _. lia. }
  case_decide as Hd; split; cbn; rewrite ?Hi, ?Hu, ?Hcss, ?Hc; try lia; try set_solver;
    try (intros p n Hp; rewrite (Hz _ _ Hp); lia).
  intros Hnone. unfold within_limits. rewrite Hi, Hu, Hcss, Hr in *. split_and!; [auto|lia..].
Qed.

(** *** Composed operations are histories

    The gate of [snapshot] keeps other snapshots out, not other operations, so
    its effect is that of its steps. *)
Section histories.
Context (graph : N) (FIN : finite_limits).

Definition is_history {A} (m : op A) : Prop := ∀ s out,
  accounted graph (s, out) → ∃ es, run_events es (s, out) = Some ((m s).2, out).

Lemma run_events_app es es' st :
  run_events (es ++ es') st = st' ← run_events es st; run_events es' st'.
Proof.
  revert st. induction es as [|e es IH]; intros st; [done|]. cbn [run_events app].
  destruct (run_event e st); [apply IH|done].
Qed.

Lemma history_nothing {A} (m : op A) : (∀ s, (m s).2 = s) → is_history m.
Proof. intros Hm s out _. exists []. by rewrite Hm. Qed.

Lemma history_step {A} (m : op A) e :
  (∀ s out, run_event e (s, out) = completed (m s) out) → is_history m.
Proof.
  intros He s out H. exists [e]. destruct (run_event_accounted graph FIN e _ H) as (st & E & _).
  cbn [run_events]. rewrite He in E |- *. by destruct (m s) as [[a|er|] s1].
Qed.

Lemma history_bind {A B} (m : op A) (f : A → op B) :
  is_history m → (∀ a, is_history (f a)) → is_history (m ≫= f).
Proof.
  intros Hm Hf s out H. destruct (Hm s out H) as [es E]. unfold mbind, op_bind.
  destruct (m s) as [[a|e|] s1] eqn:Em; [|by exists es..]. cbn in E.
  destruct (run_events_accounted graph FIN es _ H) as (st & E' & H1).
  rewrite E in E'. injection E' as <-. destruct (Hf a s1 out H1) as [es' E2].
  exists (es ++ es'). by rewrite run_events_app, E.
Qed.

Lemma history_read {A} x p md (f : CssReadReservation → op A) :
  (∀ r s out, accounted graph (s, r :: out) →
     ∃ es, run_events es (s, r :: out) = Some ((f r s).2, out)) →
  is_history (begin_resource_read x p md ≫= f).
Proof.
  intros Hf s out H. unfold mbind, op_bind.
  assert (run_event (EBeginResource x p md) (s, out) = reserved (begin_resource_read x p md s) out)
    as Ee by done.
  destruct (run_event_accounted graph FIN (EBeginResource x p md) _ H) as (st & E & H1).
  destruct (begin_resource_read x p md s) as [[r|e|] s1]; rewrite Ee in E; cbn in E; [| |done].
  - injection E as <-. destruct (Hf r s1 out H1) as [es E].
    exists (EBeginResource x p md :: es). cbn [run_events]. by rewrite Ee.
  - exists [EBeginResource x p md]. cbn [run_events]. by rewrite Ee.
Qed.

Lemma snapshot_history expired path kind : is_history (snapshot expired path kind).
Proof.
  assert (∀ i, is_history (check_deadline (expired i))) as Hcheck.
  { intros i. by apply (history_step _ (ECheck (expired i))). }
  assert (∀ p e, is_history (_ ← record_failed_path p (bool_decide (e = NotFound));
    refuse (A := CollectedAsset) (FsError e))) as Hfail.
  { intros p e. apply history_bind; [|intros _; by apply history_nothing].
    by apply (history_step _ (EFail p (bool_decide (e = NotFound)))). }
  unfold snapshot. apply history_bind; [by apply history_nothing|]. intros [asset|canonical].
  { apply history_bind; [apply Hcheck|]. intros _. by apply history_nothing. }
  apply history_bind; [by apply (history_step _ (EAlias path canonical))|]. intros _.
  apply history_bind; [apply Hcheck|]. intros _.
  destruct (fs_metadata canonical) as [md|e]; [|apply Hfail]. apply history_read.
  intros r s out H. destruct (fs_read canonical) as [bs|e].
  - exists [EFinish (expired 2) 0 kind bs].
    destruct (run_event_accounted graph FIN (EFinish (expired 2) 0 kind bs) _ H) as (st & E & _).
    cbn [run_events]. cbn in E |- *. by destruct (finish_read _ r kind bs s) as [[a|er|] s1].
  - exists [EFail canonical (bool_decide (e = NotFound)); EDrop 0]. done.
Qed.
End histories.

(** The ledger never overdraws and never panics. Under any interleaving of
    the operations, with every begun read finished once or dropped, neither
    [expect] can fire; as long as no breach is recorded the files, the input
    bytes and both CSS work counters are within their limits; no file is
    charged more than the per-file ceiling; and the input bytes are exactly the
    graph's plus the largest size seen of each file. A snapshot, which stats,
    reads and keeps a resource under one gate, is one of these histories. *)
Theorem ledger_within_limits graph loaded direct es :
  finite_limits →
  ∃ s out, run_events es (new_ledger graph loaded direct, []) = Some (s, out) ∧
    (module_limit_message s = None → within_limits s) ∧
    input_bytes s = (graph + charged (unique_files s))%N ∧
    (∀ p n, unique_files s !! p = Some n → (n ≤ max_file_bytes limits)%N) ∧
    (held_total out ≤ css_work_bytes s)%N ∧
    (∀ expired path kind, ∃ es',
       run_events es' (s, out) = Some ((snapshot expired path kind s).2, out)).
Proof.
  intros Hfin. destruct (run_events_accounted graph Hfin es (new_ledger graph loaded direct, []))
    as ([s out] & Hr & H); [apply (new_ledger_accounts graph loaded direct)|].
  exists s, out. split_and!; [done|apply H..|]. intros. by eapply snapshot_history.
Qed.

(** ** What is never taken back *)

Record extends (s s' : BudgetState) : Prop := {
  ext_limit : ∀ m, module_limit_message s = Some m → module_limit_message s' = Some m;
  ext_snapshots : ∀ p a, snapshots s !! p = Some a → snapshots s' !! p = Some a;
  ext_read_paths : read_paths s ⊆ read_paths s';
  ext_observed : ∃ l, fingerprints s' = fingerprints s ++ l;
}.

#[export] Instance extends_preorder : PreOrder extends.
Proof.
  split.
  - intros s. split; try done. exists []. by rewrite app_nil_r.
  - intros s1 s2 s3 [Hl Hs Hr (l & El)] [Hl' Hs' Hr' (l' & El')]. split.
    + intros m Hm. by apply Hl', Hl.
    + intros p a Ha. by apply Hs', Hs.
    + set_solver.
    + exists (l ++ l'). by rewrite El', El, (assoc_L (++)).
Qed.

Definition extending {A} (m : op A) : Prop := ∀ s, extends s (m s).2.

Lemma extends_same s s' :
  module_limit_message s' = module_limit_message s → snapshots s' = snapshots s →
  read_paths s' = read_paths s → fingerprints s' = fingerprints s → extends s s'.
Proof.
  intros Hm Hs Hr Hf. split; [congruence..|set_solver|]. exists []. by rewrite Hf, app_nil_r.
Qed.

Lemma extending_bind {A B} (m : op A) (f : A → op B) :
  extending m → (∀ a, extending (f a)) → extending (m ≫= f).
Proof.
  intros Hm Hf s. specialize (Hm s). unfold mbind, op_bind.
  destruct (m s) as [[a|e|] s1]; [|done..]. etrans; [exact Hm|apply Hf].
Qed.

Lemma extending_ret {A} (a : A) : extending (mret a).
Proof. by intros s. Qed.
Lemma extending_get {A} (f : BudgetState → A) : extending (get f).
Proof. by intros s. Qed.
Lemma extending_refuse {A} e : extending (refuse (A := A) e).
Proof. by intros s. Qed.
Lemma extending_panic {A} : extending (panic (A := A)).
Proof. by intros s. Qed.
Lemma extending_css reads bytes : extending (modify (set_css_work reads bytes)).
Proof. intros s. by apply extends_same. Qed.
Lemma extending_unique m b : extending (modify (set_unique m b)).
Proof. intros s. by apply extends_same. Qed.
Lemma extending_alias q p : extending (modify (set_alias q p)).
Proof. intros s. by apply extends_same. Qed.

Lemma extending_observe p f : extending (modify (add_observation p f)).
Proof. intros s. split; cbn; [done..|set_solver|by eexists]. Qed.

Lemma extending_breached {A} m : extending (breached (A := A) m).
Proof.
  intros s. split; try done; [|exists []; by rewrite app_nil_r].
  intros m' Hm. cbn. by rewrite Hm.
Qed.

Lemma extending_check x : extending (check_available x).
Proof.
  intros s. unfold check_available. destruct (module_limit_message s) eqn:E; [done|].
  destruct x; [|done]. by apply extends_same.
Qed.

Lemma extending_keep_snapshot p asset :
  extending (modify (λ s, set_snapshots (match snapshots s !! p with
                                         | Some _ => snapshots s
                                         | None => <[p := asset]> (snapshots s)
                                         end) s)).
Proof.
  intros s. split; try done; [|exists []; by rewrite app_nil_r]. intros q a Hq. cbn.
  destruct (snapshots s !! p) eqn:Hp; [done|]. rewrite lookup_insert_ne; congruence.
Qed.

#[local] Hint Resolve extending_ret extending_get extending_refuse extending_panic extending_css
  extending_unique extending_alias extending_observe extending_breached extending_check
  extending_keep_snapshot : extending.
Ltac extending :=
  repeat first [ apply extending_bind; [|intros ?] | progress cbn zeta | case_decide
               | solve [auto with extending] | case_match ].

Lemma extending_charge b p : extending (charge_css_work b p).
Proof. unfold charge_css_work. extending. Qed.
Lemma extending_reserve p b : extending (reserve_unique p b).
Proof. unfold reserve_unique. extending. Qed.
#[local] Hint Resolve extending_charge extending_reserve : extending.
Lemma extending_begin_css x p md : extending (begin_css_read x p md).
Proof. unfold begin_css_read. extending. Qed.
Lemma extending_begin_resource x p md : extending (begin_resource_read x p md).
Proof. unfold begin_resource_read. extending. Qed.
Lemma extending_charge_snapshot x a : extending (charge_css_snapshot x a).
Proof. unfold charge_css_snapshot. extending. Qed.
Lemma extending_finish x r kind bs : extending (finish_read x r kind bs).
Proof. unfold finish_read, reconcile_css_work, reconcile_input. extending. Qed.
Lemma extending_failed p missing : extending (record_failed_path p missing).
Proof. unfold record_failed_path. extending. Qed.
#[local] Hint Resolve extending_failed : extending.
Lemma extending_observe_metadata p : extending (observe_metadata p).
Proof. unfold observe_metadata. extending. Qed.

#[local] Hint Resolve extending_begin_css extending_begin_resource extending_charge_snapshot
  extending_finish extending_observe_metadata : extending.

Lemma run_event_extends e s out s' out' :
  run_event e (s, out) = Some (s', out') → extends s s'.
Proof.
  assert (∀ A (m : op A) out1, extending m → completed (m s) out1 = Some (s', out') → extends s s')
    as Hc.
  { intros A m out1 Hm. specialize (Hm s). destruct (m s) as [[a|er|] s1]; cbn; intros; by simplify_eq. }
  assert (∀ m, extending m → reserved (m s) out = Some (s', out') → extends s s') as Hr.
  { intros m Hm. specialize (Hm s). destruct (m s) as [[a|er|] s1]; cbn; intros; by simplify_eq. }
  destruct e as [x|x a|x p md|x p md|x i kind bs|i|q p|p|p missing]; cbn [run_event]; intros E.
  5: { destruct (out !! i) as [r|]; [|by simplify_eq]. eapply Hc, E. auto with extending. }
  5: by simplify_eq.
  3-4: eapply Hr, E; auto with extending.
  all: eapply Hc, E; first [auto with extending|apply extending_check].
Qed.

(** Everything that is counted or kept. *)
Definition frozen (s s' : BudgetState) : Prop :=
  unique_files s' = unique_files s ∧ input_bytes s' = input_bytes s ∧
  css_work_reads s' = css_work_reads s ∧ css_work_bytes s' = css_work_bytes s ∧
  snapshots s' = snapshots s.

Lemma check_refuses {B} m x (f : unit → op B) s :
  module_limit_message s = Some m →
  (check_available x ≫= f) s = (Refused (LimitError (Some m)), s).
Proof. intros Hm. unfold mbind, op_bind, check_available, limit_io_error. by rewrite Hm. Qed.

Ltac frozen := cbn; intros; simplify_eq; unfold frozen; by split_and!.

Lemma run_event_frozen m e s out s' out' :
  module_limit_message s = Some m → run_event e (s, out) = Some (s', out') → frozen s s'.
Proof.
  intros Hm.
  destruct e as [x|x a|x p md|x p md|x i kind bs|i|q p|p|p missing]; cbn.
  - unfold check_deadline, check_available. rewrite Hm. frozen.
  - unfold charge_css_snapshot. rewrite (check_refuses m) by done. frozen.
  - unfold begin_css_read. cbn zeta. rewrite (check_refuses m) by done. frozen.
  - unfold begin_resource_read. rewrite (check_refuses m) by done. frozen.
  - destruct (out !! i) as [r|]; [|frozen]. unfold finish_read. cbn zeta.
    rewrite (check_refuses m) by done. frozen.
  - frozen.
  - frozen.
  - unfold observe_metadata, mbind, op_bind. destruct (fs_metadata p); frozen.
  - frozen.
Qed.

Lemma run_events_extend es s out s' out' :
  run_events es (s, out) = Some (s', out') →
  extends s s' ∧ ∀ m, module_limit_message s = Some m → frozen s s'.
Proof.
  revert s out. induction es as [|e es IH]; intros s out; cbn [run_events].
  { intros [= <- <-]. split; [done|]. intros. unfold frozen. by split_and!. }
  destruct (run_event e (s, out)) as [[s1 out1]|] eqn:E; [cbn|done]. intros Hr.
  destruct (IH _ _ Hr) as [He Hf]. pose proof (run_event_extends _ _ _ _ _ E) as He1.
  split; [by etrans|]. intros m Hm. pose proof (run_event_frozen _ _ _ _ _ _ Hm E) as Hf1.
  specialize (Hf m (ext_limit _ _ He1 m Hm)). unfold frozen in *.
  destruct Hf as (?&?&?&?&?), Hf1 as (?&?&?&?&?). split_and!; congruence.
Qed.

(** A breach is final and nothing observed is taken back. Whatever follows,
    the first breach stays the one reported, as a graph limit even if the
    deadline passes too, and nothing more is charged or kept after it; a
    snapshot, once taken, is never replaced, so one canonical path has one set
    of bytes for every later reader; and no path read and no observation is
    forgotten. *)
Theorem ledger_never_takes_back es s out s' out' :
  run_events es (s, out) = Some (s', out') →
  (∀ m, module_limit_message s = Some m →
     frozen s s' ∧ ∃ f, failure s' = Some f ∧ bf_stage f = ModuleGraphLimit ∧ bf_message f = Some m) ∧
  (∀ p a, snapshots s !! p = Some a → snapshot_for p s' = Some a) ∧
  read_paths s ⊆ read_paths s' ∧
  ∃ l, fingerprints s' = fingerprints s ++ l.
Proof.
  intros Hr. destruct (run_events_extend _ _ _ _ _ Hr) as [[Hl Hs Hp Ho] Hf].
  split_and!; [|done..]. intros m Hm. split; [by eapply Hf|].
  unfold failure. rewrite (Hl m Hm). by eexists.
Qed.

(** ** Normalised observations *)

Lemma elem_of_normalized f obs :
  f ∈ normalized_observations obs ↔
  f ∈ obs ∧ (is_Some (fp_content_hash f) ∨
    ∀ g, g ∈ obs → is_Some (fp_content_hash g) → exact_metadata g ≠ exact_metadata f).
Proof.
  unfold normalized_observations, sort_and_dedup_fingerprints.
  rewrite elem_of_dedup, elem_of_sort, list_elem_of_filter, list_elem_of_fmap.
  setoid_rewrite list_elem_of_filter. split.
  - intros [[?|Hno] Hf]; (split; [done|]); [by left|right]. intros g Hg Hs Heq. apply Hno. by exists g.
  - intros [Hf [?|Hno]]; (split; [|done]); [by left|right]. intros (g & Heq & Hs & Hg). by apply (Hno g).
Qed.

Lemma exact_covers f obs :
  f ∈ obs → ∃ g, g ∈ normalized_observations obs ∧ exact_metadata g = exact_metadata f ∧
    (is_Some (fp_content_hash f) → g = f).
Proof.
  intros Hf. destruct (decide (is_Some (fp_content_hash f))) as [Hs|Hs].
  { exists f. rewrite elem_of_normalized. by split_and!; [|left|..]. }
  destruct (decide (Exists (λ g, is_Some (fp_content_hash g) ∧ exact_metadata g = exact_metadata f) obs))
    as [(g & Hg & Hgs & Heq)%Exists_exists|Hno].
  - exists g. rewrite elem_of_normalized. by split_and!; [|left|..].
  - exists f. rewrite elem_of_normalized. split_and!; [done| |done..].
    right. intros g Hg Hgs Heq. apply Hno, Exists_exists. by exists g.
Qed.

(** Normalising the observations hides no change. What is reported are
    observations that were made, every exact read among them; a stat is dropped
    only for an exact read of the same metadata; and the report contains a
    conflict, two observations of one path that no single file state can have
    produced, exactly when the raw observations do. *)
Theorem normalization_keeps_conflicts obs :
  (∀ f, f ∈ normalized_observations obs → f ∈ obs) ∧
  (∀ f, f ∈ obs → ∃ g, g ∈ normalized_observations obs ∧ exact_metadata g = exact_metadata f ∧
     (is_Some (fp_content_hash f) → g = f)) ∧
  fingerprints_have_conflicting_snapshots (normalized_observations obs) =
  fingerprints_have_conflicting_snapshots obs.
Proof.
  split_and!; [by intros f [? _]%elem_of_normalized|by intros; apply exact_covers|].
  apply eq_true_iff_eq. rewrite !have_conflict. split.
  - intros (f & g & [Hf _]%elem_of_normalized & [Hg _]%elem_of_normalized & Hi). by exists f, g.
  - intros (f & g & Hf & Hg & Hp & Hi).
    destruct (exact_covers f obs Hf) as (f' & Hf' & [= Hfp Hfl Hfm] & Hfh).
    destruct (exact_covers g obs Hg) as (g' & Hg' & [= Hgp Hgl Hgm] & Hgh).
    exists f', g'. split_and!; [done..|]. split; [congruence|].
    destruct Hi as [?|[?|(a & b & Ha & Hb & ?)]].
    + left. congruence.
    + right. left. congruence.
    + right. right. rewrite (Hfh ltac:(by rewrite Ha)), (Hgh ltac:(by rewrite Hb)). by exists a, b.
Qed.
End ledger.

(** ** Witnesses: one font on disk *)

Definition font_md : Metadata := {| md_len := 3; md_modified := Some 0%Z |}.
Definition font_disk : FileSystem := one_file "/a.woff" font_md ["x"; "y"; "z"; "w"]%char.

Example ledger_within_limits_witness :
  let es := [EBeginResource false "/a.woff" font_md;
             EFinish false 0 Font ["x"; "y"; "z"; "w"]%char] in
  let start := @new_ledger production 100 ["/index.js"] [] in
  finite_limits production ∧
  (λ st, input_bytes st.1) <$> @run_events font_disk length_hash false production es (start, []) =
    Some 104%N ∧
  ∃ s out, @run_events font_disk length_hash false production es (start, []) = Some (s, out) ∧
    (module_limit_message s = None → within_limits production s) ∧
    input_bytes s = (100 + charged (unique_files s))%N ∧
    (∀ p n, unique_files s !! p = Some n → (n ≤ max_file_bytes production)%N) ∧
    (held_total out ≤ css_work_bytes s)%N ∧
    (∀ expired path kind, ∃ es', @run_events font_disk length_hash false production es' (s, out) =
       Some ((@snapshot font_disk length_hash false production expired path kind s).2, out)).
Proof.
  assert (finite_limits production) as Hfin by (by split_and!).
  split; [exact Hfin|]. split; [vm_compute; reflexivity|].
  exact (@ledger_within_limits font_disk length_hash false production 100 ["/index.js"] [] _ Hfin).
Defined.

Example ledger_never_takes_back_witness :
  let s := record_limit GraphFiles (@new_ledger production 100 [] []) in
  ∃ s', @run_events font_disk length_hash false production
          [ECheck true; EObserve "/a.woff"] (s, []) = Some (s', []) ∧
    (∀ m, module_limit_message s = Some m →
       frozen s s' ∧
       ∃ f, failure s' = Some f ∧ bf_stage f = ModuleGraphLimit ∧ bf_message f = Some m) ∧
    (∀ p a, snapshots s !! p = Some a → snapshot_for p s' = Some a) ∧
    read_paths s ⊆ read_paths s' ∧
    ∃ l, fingerprints s' = fingerprints s ++ l.
Proof.
  intros s. eexists. split; [reflexivity|].
  by apply (@ledger_never_takes_back font_disk length_hash false production
    [ECheck true; EObserve "/a.woff"] s [] _ []).
Defined.
