(* ===== verification/Flights.v ===== *)
(** Single-flight analysis (analysis_flight.rs): one compute per cache key and
    generation at a time, whose result every caller that joined it gets. Each
    caller of [run_or_join] is a thread, split at the sections its two locks
    make atomic; any interleaving of any number of callers is a run. *)
From stdpp Require Import base gmap sets list strings.
From S2P Require Import Prelude.

Module Flight.

(** [AnalysisFlightKey]: the cache key and the generation. *)
Abbreviation key := (string * N)%type.

Section flights.
Context {T : Type}.

(** [AnalysisFlightState]. *)
Record flight := { result : option T; closed : bool }.

(** Where a caller of [run_or_join] is. *)
Inductive caller :=
  | Looping (k : key)                  (* about to claim *)
  | Waiting (k : key) (f : N)          (* a follower in [wait_for_result] *)
  | Computing (k : key) (f : N)        (* the leader, inside [compute] *)
  | Published (k : key) (f : N) (r : T) (* the leader, about to drop *)
  | Unwinding (k : key) (f : N)        (* [compute] panicked: dropping unpublished *)
  | Closing (k : key) (f : N)          (* the same, its flight already removed *)
  | Returned (k : key) (f : N) (r : T)
  | Panicked.

Record registry := {
  flights : gmap key N;        (* the claimed flight of a key *)
  states : gmap N flight;      (* every flight made, by identity *)
  callers : gmap N caller;
  next : N;
  made : gmap N (key * N);     (* ghost: the key and the leader of every flight *)
  log : list (key * N * T);    (* ghost: the results published, by flight *)
}.

Definition initial : registry :=
  {| flights := ∅; states := ∅; callers := ∅; next := 0; made := ∅; log := [] |}.

Definition set_caller (t : N) (c : caller) (s : registry) : registry :=
  {| flights := flights s; states := states s; callers := <[t := c]> (callers s);
     next := next s; made := made s; log := log s |}.
Definition set_state (f : N) (st : flight) (s : registry) : registry :=
  {| flights := flights s; states := <[f := st]> (states s); callers := callers s;
     next := next s; made := made s; log := log s |}.
Definition set_flights (m : gmap key N) (s : registry) : registry :=
  {| flights := m; states := states s; callers := callers s; next := next s; made := made s; log := log s |}.
Definition record (k : key) (f : N) (r : T) (s : registry) : registry :=
  {| flights := flights s; states := states s; callers := callers s; next := next s; made := made s;
     log := (k, f, r) :: log s |}.

(** [claim_flight], under the registry's lock. *)
Definition claim_flight (t : N) (k : key) (s : registry) : registry :=
  match flights s !! k with
  | Some f => set_caller t (Waiting k f) s
  | None =>
      let f := next s in
      set_caller t (Computing k f)
        {| flights := <[k := f]> (flights s);
           states := <[f := {| result := None; closed := false |}]> (states s);
           callers := callers s; next := next s + 1; made := <[f := (k, t)]> (made s);
           log := log s |}
  end.

(** [publish] and [close_without_result], under the flight's lock. *)
Definition publish (k : key) (f : N) (r : T) (s : registry) : registry :=
  record k f r (set_state f {| result := Some r; closed := true |} s).
Definition close_without_result (f : N) (s : registry) : registry :=
  set_state f {| result := states s !! f ≫= result; closed := true |} s.

(** Only the flight's own entry is removed. *)
Definition remove_current_flight (k : key) (f : N) (s : registry) : registry :=
  match flights s !! k with
  | Some f' => if decide (f' = f) then set_flights (delete k (flights s)) s else s
  | None => s
  end.

Inductive action :=
  | Call (t : N) (k : key)
  | Claim (t : N)
  | Finish (t : N) (r : T)      (* [compute] returned [r]; it is published *)
  | Panic (t : N)               (* [compute] panicked *)
  | Remove (t : N)              (* the drop of a leader, under the registry's lock *)
  | Close (t : N)               (* the drop of an unpublished leader, second half *)
  | Wake (t : N).               (* a follower that sees its flight closed *)

(** One atomic section; [None] when the thread is not ready for it. *)
Definition step (a : action) (s : registry) : option registry :=
  match a with
  | Call t k =>
      match callers s !! t with
      | None => Some (set_caller t (Looping k) s)
      | Some _ => None
      end
  | Claim t =>
      match callers s !! t with
      | Some (Looping k) => Some (claim_flight t k s)
      | _ => None
      end
  | Finish t r =>
      match callers s !! t with
      | Some (Computing k f) => Some (set_caller t (Published k f r) (publish k f r s))
      | _ => None
      end
  | Panic t =>
      match callers s !! t with
      | Some (Computing k f) => Some (set_caller t (Unwinding k f) s)
      | _ => None
      end
  | Remove t =>
      match callers s !! t with
      | Some (Published k f r) => Some (set_caller t (Returned k f r) (remove_current_flight k f s))
      | Some (Unwinding k f) => Some (set_caller t (Closing k f) (remove_current_flight k f s))
      | _ => None
      end
  | Close t =>
      match callers s !! t with
      | Some (Closing k f) => Some (set_caller t Panicked (close_without_result f s))
      | _ => None
      end
  | Wake t =>
      match callers s !! t with
      | Some (Waiting k f) =>
          match states s !! f with
          | Some {| result := r; closed := true |} =>
              Some (set_caller t (match r with Some r => Returned k f r | None => Looping k end) s)
          | _ => None
          end
      | _ => None
      end
  end.

Inductive reachable : registry → Prop :=
  | reach_initial : reachable initial
  | reach_step a s s' : reachable s → step a s = Some s' → reachable s'.

(** ** The invariant *)

Definition open_flight : flight := {| result := None; closed := false |}.
Definition settled (r : T) : flight := {| result := Some r; closed := true |}.

(** What the state of the registry must be for a caller to be where it is. *)
Definition placed (s : registry) (t : N) (c : caller) : Prop :=
  match c with
  | Looping _ | Panicked => True
  | Waiting k f => ∃ l, made s !! f = Some (k, l)
  | Computing k f | Unwinding k f =>
      made s !! f = Some (k, t) ∧ states s !! f = Some open_flight ∧ flights s !! k = Some f
  | Closing k f => made s !! f = Some (k, t) ∧ states s !! f = Some open_flight ∧
      flights s !! k ≠ Some f
  | Published k f r =>
      made s !! f = Some (k, t) ∧ states s !! f = Some (settled r) ∧ flights s !! k = Some f
  | Returned k f r => ∃ l, made s !! f = Some (k, l) ∧ states s !! f = Some (settled r)
  end.

(** The leader of an open flight has still to settle it. *)
Definition leading (c : caller) (k : key) (f : N) : Prop :=
  c = Computing k f ∨ c = Unwinding k f ∨ c = Closing k f.

Record inv (s : registry) : Prop := {
  inv_next : ∀ f m, made s !! f = Some m → (f < next s)%N;
  inv_made : ∀ f, is_Some (states s !! f) ↔ is_Some (made s !! f);
  inv_placed : ∀ t c, callers s !! t = Some c → placed s t c;
  (** a registered flight still has its owner *)
  inv_flights : ∀ k f, flights s !! k = Some f → ∃ t c, made s !! f = Some (k, t) ∧
    callers s !! t = Some c ∧ (c = Computing k f ∨ c = Unwinding k f ∨ ∃ r, c = Published k f r);
  (** every flight is open with its leader at work, settled, or given up by a leader that panicked *)
  inv_flight : ∀ f k t, made s !! f = Some (k, t) →
    (states s !! f = Some open_flight ∧ ∃ c, callers s !! t = Some c ∧ leading c k f) ∨
    (∃ r, states s !! f = Some (settled r)) ∨
    (states s !! f = Some {| result := None; closed := true |} ∧ callers s !! t = Some Panicked);
  inv_log : ∀ k f r, (k, f, r) ∈ log s ↔
    ∃ t, made s !! f = Some (k, t) ∧ states s !! f = Some (settled r);
  inv_once : NoDup (log s).*1.*2;
}.

Lemma flight_inv_initial : inv initial.
Proof.
  split; cbn; try (intros *; rewrite lookup_empty; naive_solver).
  - intros *. rewrite !lookup_empty. done.
  - intros k f r. rewrite lookup_empty. set_solver.
  - constructor.
Qed.

Lemma placed_caller s t t' c c' : placed (set_caller t c s) t' c' ↔ placed s t' c'.
Proof. by destruct c'. Qed.

(** A caller that leads no flight can move without touching the flights. *)
Definition bystander (c : option caller) : Prop :=
  match c with None | Some (Looping _) | Some (Waiting _ _) => True | _ => False end.

Lemma inv_bystander s t c' :
  inv s → bystander (callers s !! t) → placed s t c' → inv (set_caller t c' s).
Proof.
  intros [Hn Hm Hp Hfl Hf Hl Ho] Hb Hpl.
  assert (∀ t' c, callers s !! t' = Some c → bystander (Some c) ∨ <[t := c']> (callers s) !! t' = Some c)
    as Hother.
  { intros t' c Hc. destruct (decide (t = t')) as [<-|Hne]; [left; by rewrite <- Hc|right].
    by rewrite lookup_insert_ne. }
  split; cbn; try done.
  - intros t' c0. rewrite placed_caller. intros [[<- <-]|[_ ?]]%lookup_insert_Some; auto.
  - intros k f Hk. destruct (Hfl k f Hk) as (t' & c0 & Hmade & Ht' & Hown).
    exists t', c0. split_and!; [done| |done].
    destruct (Hother _ _ Ht') as [Hc|?]; [|done]. by destruct Hown as [->|[->|[r ->]]].
  - intros f k t' Hmade. destruct (Hf f k t' Hmade) as [(Hst & c & Hc & Hlead)|[?|[Hst Hc]]].
    + left. split; [done|]. exists c. split; [|done].
      destruct (Hother _ _ Hc) as [Hb'|?]; [|done]. by destruct Hlead as [->|[->| ->]].
    + by right; left.
    + right; right. split; [done|]. by destruct (Hother _ _ Hc).
Qed.

Lemma inv_claim_vacant s t k :
  inv s → callers s !! t = Some (Looping k) → flights s !! k = None →
  inv (claim_flight t k s).
Proof.
  intros [Hn Hm Hp Hfl Hf Hl Ho] Hc Hk. unfold claim_flight. rewrite Hk.
  assert (made s !! next s = None) as Hfresh.
  { destruct (made s !! next s) eqn:E; [|done]. pose proof (Hn _ _ E). lia. }
  assert (states s !! next s = None) as Hfresh'.
  { apply eq_None_not_Some. rewrite Hm, Hfresh. by intros []. }
  assert (∀ f m, made s !! f = Some m → f ≠ next s) as Hne by (intros f m Hf' ->; congruence).
  split; cbn.
  - intros f m [[<- _]|[_ Hf']]%lookup_insert_Some; [lia|]. pose proof (Hn _ _ Hf'). lia.
  - intros f. rewrite !lookup_insert_is_Some, Hm. done.
  - intros t' c0 [[<- <-]|[Hne' Hc0]]%lookup_insert_Some.
    + by rewrite placed_caller; cbn; rewrite !lookup_insert_eq.
    + rewrite placed_caller. apply Hp in Hc0. revert Hc0.
      destruct c0 as [k0|k0 f0|k0 f0|k0 f0 r0|k0 f0|k0 f0|k0 f0 r0|]; cbn; try done.
      * intros [l Hl0]. exists l. rewrite lookup_insert_ne; [done|]. by apply not_eq_sym, (Hne _ _ Hl0).
      * intros (Hm0 & Hs0 & Hf0). pose proof (Hne _ _ Hm0). rewrite !lookup_insert_ne by congruence. done.
      * intros (Hm0 & Hs0 & Hf0). pose proof (Hne _ _ Hm0). rewrite !lookup_insert_ne by congruence. done.
      * intros (Hm0 & Hs0 & Hf0). pose proof (Hne _ _ Hm0). rewrite !lookup_insert_ne by congruence. done.
      * intros (Hm0 & Hs0 & Hf0). pose proof (Hne _ _ Hm0). rewrite !(lookup_insert_ne _ (next s)) by congruence.
        split_and!; [done..|]. destruct (decide (k0 = k)) as [->|].
        -- rewrite lookup_insert_eq. congruence.
        -- by rewrite lookup_insert_ne.
      * intros (l & Hm0 & Hs0). exists l. pose proof (Hne _ _ Hm0).
        rewrite !lookup_insert_ne by congruence. done.
  - intros k0 f0 [[<- <-]|[Hk0 Hf0]]%lookup_insert_Some.
    + exists t, (Computing k (next s)). rewrite !lookup_insert_eq. by split_and!; [..|left].
    + destruct (Hfl _ _ Hf0) as (t' & c0 & Hm0 & Hc0 & Hown). exists t', c0.
      pose proof (Hne _ _ Hm0). rewrite lookup_insert_ne by congruence. split_and!; [done| |done].
      rewrite lookup_insert_ne; [done|]. intros <-. rewrite Hc in Hc0. simplify_eq.
      by destruct Hown as [?|[?|[??]]].
  - intros f0 k0 t' [[<- [= <- <-]]|[Hne0 Hm0]]%lookup_insert_Some.
    + left. rewrite !lookup_insert_eq. split; [done|]. eexists. split; [done|by left].
    + rewrite !(lookup_insert_ne _ (next s)) by done.
      destruct (Hf _ _ _ Hm0) as [(Hst & c & Hc0 & Hlead)|[?|[Hst Hc0]]].
      * left. split; [done|]. exists c. split; [|done]. rewrite lookup_insert_ne; [done|].
        intros <-. rewrite Hc in Hc0. simplify_eq. by destruct Hlead as [?|[?|?]].
      * by right; left.
      * right; right. split; [done|]. rewrite lookup_insert_ne; [done|]. intros <-. congruence.
  - intros k0 f0 r0. rewrite Hl. split.
    + intros (t' & Hm0 & Hs0). exists t'. pose proof (Hne _ _ Hm0). by rewrite !lookup_insert_ne by congruence.
    + intros (t' & Hm0 & Hs0). destruct (decide (f0 = next s)) as [->|].
      * rewrite lookup_insert_eq in Hs0. done.
      * rewrite !lookup_insert_ne in * by congruence. eauto.
  - done.
Qed.

(** *** The leader's steps *)

(** The flight a leader has in hand. *)
Definition in_hand (c : caller) (f : N) : Prop :=
  match c with
  | Computing _ f' | Published _ f' _ | Unwinding _ f' | Closing _ f' => f' = f
  | _ => False
  end.
Definition owning (c : caller) (k : key) (f : N) : Prop :=
  c = Computing k f ∨ c = Unwinding k f ∨ ∃ r, c = Published k f r.

(** What a leader's step may do to the registry. *)
Record leader_step (s s' : registry) (t : N) (k : key) (f : N) (c c' : caller) (st st' : flight)
    : Prop := {
  ls_caller : callers s !! t = Some c;
  ls_hand : in_hand c f;
  ls_made : made s !! f = Some (k, t);
  ls_before : states s !! f = Some st;
  ls_kept : made s' = made s ∧ next s' = next s ∧ callers s' = <[t := c']> (callers s) ∧
    states s' = <[f := st']> (states s);
  ls_open : st' = st ∨ st = open_flight;
  ls_flights : ∀ k', flights s' !! k' = flights s !! k' ∨
    k' = k ∧ flights s !! k = Some f ∧ flights s' !! k' = None;
  ls_placed : placed s' t c';
  ls_owning : flights s' !! k = Some f → owning c' k f;
  ls_status : st' = open_flight ∧ leading c' k f ∨ (∃ r, st' = settled r) ∨
    st' = {| result := None; closed := true |} ∧ c' = Panicked;
  ls_log : (log s' = log s ∧ ∀ r, st = settled r ↔ st' = settled r) ∨
    ∃ r, st = open_flight ∧ st' = settled r ∧ log s' = (k, f, r) :: log s;
}.

Lemma placed_other s s' t k f c c' st st' t' c0 :
  leader_step s s' t k f c c' st st' → t' ≠ t → placed s t' c0 → placed s' t' c0.
Proof.
  intros [Hc Hh Hm Hst (Em & En & Ec & Es) Hopen Hfl _ _ _ _] Hne.
  assert (∀ k0 f0, made s !! f0 = Some (k0, t') → f0 ≠ f) as Hf0 by congruence.
  assert (∀ k0 f0, f0 ≠ f → flights s !! k0 = Some f0 → flights s' !! k0 = Some f0) as Hkeep.
  { intros k0 f0 Hn0 Hk0. destruct (Hfl k0) as [->|(-> & Hk & _)]; congruence. }
  destruct c0 as [k0|k0 f0|k0 f0|k0 f0 r0|k0 f0|k0 f0|k0 f0 r0|]; cbn; rewrite ?Em, ?Es; try done.
  - intros (Hm0 & Hs0 & Hk0). pose proof (Hf0 _ _ Hm0). rewrite lookup_insert_ne by congruence.
    split_and!; auto.
  - intros (Hm0 & Hs0 & Hk0). pose proof (Hf0 _ _ Hm0). rewrite lookup_insert_ne by congruence.
    split_and!; auto.
  - intros (Hm0 & Hs0 & Hk0). pose proof (Hf0 _ _ Hm0). rewrite lookup_insert_ne by congruence.
    split_and!; auto.
  - intros (Hm0 & Hs0 & Hk0). pose proof (Hf0 _ _ Hm0). rewrite lookup_insert_ne by congruence.
    split_and!; [done..|]. destruct (Hfl k0) as [->|(_ & _ & ->)]; congruence.
  - intros (l & Hm0 & Hs0). exists l. split; [done|]. destruct (decide (f0 = f)) as [->|].
    + rewrite lookup_insert_eq. unfold open_flight, settled in *. destruct Hopen; congruence.
    + by rewrite lookup_insert_ne.
Qed.

Lemma leader_keeps_inv s s' t k f c c' st st' :
  inv s → leader_step s s' t k f c c' st st' → inv s'.
Proof.
  intros [Hn Hm Hp Hfl Hf Hl Ho] LS. pose proof LS as
    [Hc Hh Hmade Hst (Em & En & Ec & Es) Hopen Hflk Hpl Hown Hstat Hlog].
  split.
  - intros f0 m. rewrite Em, En. apply Hn.
  - intros f0. rewrite Em, Es, lookup_insert_is_Some, Hm. split.
    + intros [<-|[_ ?]]; [by rewrite Hmade|done].
    + intros ?. destruct (decide (f = f0)); [by left|by right].
  - intros t0 c0. rewrite Ec. intros [[<- <-]|[Hne Hc0]]%lookup_insert_Some; [done|].
    eapply placed_other; [done..|by apply Hp].
  - intros k0 f0 Hk0. assert (flights s !! k0 = Some f0) as Hk by (destruct (Hflk k0) as [<-|(_ & _ & ?)]; congruence).
    destruct (Hfl _ _ Hk) as (t0 & c0 & Hm0 & Hc0 & Hown0). exists t0. rewrite Em, Ec.
    destruct (decide (t = t0)) as [<-|Hne].
    + assert (f0 = f) as ->.
      { rewrite Hc in Hc0. simplify_eq. by destruct Hown0 as [->|[->|[r ->]]]; cbn in Hh. }
      assert (k0 = k) as -> by congruence. exists c'. rewrite lookup_insert_eq. split_and!; auto. by apply Hown.
    + exists c0. by rewrite lookup_insert_ne.
  - intros f0 k0 t0. rewrite Em, Es, Ec. intros Hm0. destruct (decide (f = f0)) as [<-|Hne].
    + assert (k0 = k ∧ t0 = t) as [-> ->] by (split; congruence). rewrite !lookup_insert_eq.
      destruct Hstat as [[-> ?]|[[r ->]|[-> ->]]]; [left|right; left|right; right]; eauto.
    + rewrite !(lookup_insert_ne _ f) by done.
      destruct (Hf _ _ _ Hm0) as [(Hs0 & c0 & Hc0 & Hlead)|[?|[Hs0 Hc0]]].
      * left. split; [done|]. exists c0. split; [|done]. rewrite lookup_insert_ne; [done|].
        intros <-. rewrite Hc in Hc0. simplify_eq. by destruct Hlead as [->|[->| ->]]; cbn in Hh.
      * by right; left.
      * right; right. split; [done|]. rewrite lookup_insert_ne; [done|]. intros <-.
        rewrite Hc in Hc0. by simplify_eq.
  - intros k0 f0 r0. rewrite Em, Es. destruct Hlog as [[-> Hset]|(r & -> & -> & ->)].
    + rewrite Hl. destruct (decide (f = f0)) as [<-|Hne]; [|by rewrite lookup_insert_ne].
      rewrite lookup_insert_eq, Hst. split; intros (t0 & ? & [= E]); exists t0; split; try done; f_equal; by apply Hset.
    + rewrite elem_of_cons, Hl. destruct (decide (f = f0)) as [<-|Hne].
      * rewrite lookup_insert_eq, Hst. split.
        -- intros [[= -> ->]|(? & ? & ?)]; [by exists t|done].
        -- intros (t0 & Hm0 & [= ->]). left. congruence.
      * rewrite lookup_insert_ne by done. split; [intros [[= -> -> ->]|?]; done|by right].
  - destruct Hlog as [[-> _]|(r & -> & _ & ->)]; [done|]. cbn. apply NoDup_cons. split; [|done].
    intros ([k0 f0] & -> & ([[k1 f1] r1] & [= -> ->] & Hin)%list_elem_of_fmap)%list_elem_of_fmap.
    cbn in *. apply Hl in Hin as (? & _ & ?). unfold open_flight, settled in *. congruence.
Qed.

Lemma remove_flights k f s k' :
  flights (remove_current_flight k f s) !! k' = flights s !! k' ∨
  k' = k ∧ flights s !! k = Some f ∧ flights (remove_current_flight k f s) !! k' = None.
Proof.
  unfold remove_current_flight. destruct (flights s !! k) as [f'|] eqn:E; [|by left].
  case_decide as Hf; [|by left]. subst f'. cbn. destruct (decide (k' = k)) as [->|Hne].
  - right. by rewrite lookup_delete_eq.
  - left. by rewrite lookup_delete_ne.
Qed.

Lemma remove_gone k f s : flights (remove_current_flight k f s) !! k ≠ Some f.
Proof.
  unfold remove_current_flight. destruct (flights s !! k) as [f'|] eqn:E; [|congruence].
  case_decide as Hf; [|congruence]. cbn. by rewrite lookup_delete_eq.
Qed.

Lemma remove_keeps k f s :
  let s' := remove_current_flight k f s in
  made s' = made s ∧ next s' = next s ∧ callers s' = callers s ∧ states s' = states s ∧ log s' = log s.
Proof. cbn zeta. unfold remove_current_flight. repeat case_match; done. Qed.

Lemma flight_inv_finish s t k f r :
  inv s → callers s !! t = Some (Computing k f) →
  inv (set_caller t (Published k f r) (publish k f r s)).
Proof.
  intros Hi Hc. destruct (inv_placed s Hi _ _ Hc) as (Hm & Hs & Hk).
  eapply (leader_keeps_inv s _ t k f _ (Published k f r) open_flight (settled r)); [done|].
  split; try done; cbn.
  - by right.
  - by left.
  - by rewrite lookup_insert_eq.
  - intros _. right. right. by exists r.
  - right. left. by exists r.
  - right. by exists r.
Qed.

Lemma flight_inv_panic s t k f :
  inv s → callers s !! t = Some (Computing k f) → inv (set_caller t (Unwinding k f) s).
Proof.
  intros Hi Hc. destruct (inv_placed s Hi _ _ Hc) as (Hm & Hs & Hk).
  eapply (leader_keeps_inv s _ t k f _ (Unwinding k f) open_flight open_flight); [done|].
  split; try done; cbn.
  - by rewrite (insert_id (states s)).
  - by left.
  - by left.
  - intros _. by right; left.
  - left. split; [done|]. by right; left.
  - by left.
Qed.

Lemma inv_remove_published s t k f r :
  inv s → callers s !! t = Some (Published k f r) →
  inv (set_caller t (Returned k f r) (remove_current_flight k f s)).
Proof.
  intros Hi Hc. destruct (inv_placed s Hi _ _ Hc) as (Hm & Hs & Hk).
  destruct (remove_keeps k f s) as (Em & En & Ec & Es & El).
  eapply (leader_keeps_inv s _ t k f _ (Returned k f r) (settled r) (settled r)); [done|].
  split; try done; cbn [set_caller flights states callers next made log placed]; rewrite ?Em, ?En, ?Ec, ?Es, ?El.
  - by rewrite (insert_id (states s)).
  - by left.
  - apply remove_flights.
  - by exists t.
  - by intros ?%remove_gone.
  - right. left. by exists r.
  - by left.
Qed.

Lemma inv_remove_unwinding s t k f :
  inv s → callers s !! t = Some (Unwinding k f) →
  inv (set_caller t (Closing k f) (remove_current_flight k f s)).
Proof.
  intros Hi Hc. destruct (inv_placed s Hi _ _ Hc) as (Hm & Hs & Hk).
  destruct (remove_keeps k f s) as (Em & En & Ec & Es & El).
  eapply (leader_keeps_inv s _ t k f _ (Closing k f) open_flight open_flight); [done|].
  split; try done; cbn [set_caller flights states callers next made log placed]; rewrite ?Em, ?En, ?Ec, ?Es, ?El.
  - by rewrite (insert_id (states s)).
  - by left.
  - apply remove_flights.
  - split_and!; [done..|apply remove_gone].
  - by intros ?%remove_gone.
  - left. split; [done|]. by right; right.
  - by left.
Qed.

Lemma flight_inv_close s t k f :
  inv s → callers s !! t = Some (Closing k f) → inv (set_caller t Panicked (close_without_result f s)).
Proof.
  intros Hi Hc. destruct (inv_placed s Hi _ _ Hc) as (Hm & Hs & Hk).
  eapply (leader_keeps_inv s _ t k f _ Panicked open_flight {| result := None; closed := true |}); [done|].
  split; try done; cbn.
  - by rewrite Hs.
  - by right.
  - by left.
  - by right; right.
  - by left.
Qed.

Lemma flight_inv_step a s s' : inv s → step a s = Some s' → inv s'.
Proof.
  intros Hi. destruct a as [t k|t|t r|t|t|t|t]; cbn;
    destruct (callers s !! t) as [[k0|k0 f0|k0 f0|k0 f0 r0|k0 f0|k0 f0|k0 f0 r0|]|] eqn:Hc; try done;
    try (intros [= <-]).
  - apply inv_bystander; [done|by rewrite Hc|done].
  - destruct (flights s !! k0) as [f|] eqn:Hk; [|by apply inv_claim_vacant].
    unfold claim_flight. rewrite Hk. apply inv_bystander; [done|by rewrite Hc|].
    destruct (inv_flights s Hi _ _ Hk) as (l & ? & Hm & _). by exists l.
  - by apply flight_inv_finish.
  - by apply flight_inv_panic.
  - by apply inv_remove_published.
  - by apply inv_remove_unwinding.
  - by apply (flight_inv_close s t k0).
  - destruct (states s !! f0) as [[res []]|] eqn:Hs; try done. intros [= <-].
    destruct (inv_placed s Hi _ _ Hc) as [l Hm].
    apply inv_bystander; [done|by rewrite Hc|]. destruct res as [r|]; [|done]. by exists l.
Qed.

Lemma flight_reachable_inv s : reachable s → inv s.
Proof. induction 1; [apply flight_inv_initial|by eapply flight_inv_step]. Qed.

(** ** What callers can rely on *)

(** C35. Callers of one key and generation share one compute. In every reachable
    state at most one caller computes for a key; a result is returned only if a
    compute for that very key and generation produced it for the flight the
    caller joined, and all callers of a flight return the same one; no follower
    is stranded: its flight is closed, so that it can go on, or a leader is
    still at work on it; and a follower is sent round to claim again only when
    the leader it waited for panicked. *)
Theorem flights_are_shared_and_never_strand s :
  reachable s →
  (∀ t t' k f f', callers s !! t = Some (Computing k f) → callers s !! t' = Some (Computing k f') → t = t') ∧
  (∀ t k f r, callers s !! t = Some (Returned k f r) → (k, f, r) ∈ log s) ∧
  (∀ t t' k k' f r r', callers s !! t = Some (Returned k f r) →
     callers s !! t' = Some (Returned k' f r') → k = k' ∧ r = r') ∧
  (∀ t k f, callers s !! t = Some (Waiting k f) →
     (∃ s', step (Wake t) s = Some s') ∨
     ∃ l c, callers s !! l = Some c ∧ leading c k f) ∧
  (∀ t k f, callers s !! t = Some (Waiting k f) →
     step (Wake t) s = Some (set_caller t (Looping k) s) →
     ∃ l, made s !! f = Some (k, l) ∧ callers s !! l = Some Panicked) ∧
  NoDup (log s).*1.*2.
Proof.
  intros Hi%flight_reachable_inv.
  split_and!.
  - intros t t' k f f' Hc Hc'. destruct (inv_placed s Hi _ _ Hc) as (Hm & _ & Hk).
    destruct (inv_placed s Hi _ _ Hc') as (Hm' & _ & Hk'). congruence.
  - intros t k f r Hc. apply (inv_log s Hi). by destruct (inv_placed s Hi _ _ Hc) as (l & ? & ?); exists l.
  - intros t t' k k' f r r' Hc Hc'. destruct (inv_placed s Hi _ _ Hc) as (l & Hm & Hs).
    destruct (inv_placed s Hi _ _ Hc') as (l' & Hm' & Hs'). unfold settled in *. split; congruence.
  - intros t k f Hc. destruct (inv_placed s Hi _ _ Hc) as [l Hm].
    destruct (inv_flight s Hi _ _ _ Hm) as [(_ & c & ? & ?)|[[r Hs]|[Hs _]]]; [by right; exists l, c|left..];
      cbn; rewrite Hc, Hs; by eexists.
  - intros t k f Hc. destruct (inv_placed s Hi _ _ Hc) as [l Hm]. cbn. rewrite Hc.
    destruct (inv_flight s Hi _ _ _ Hm) as [(-> & _)|[[r ->]|[-> Hl]]]; [done| |by exists l].
    cbn. intros E. exfalso. apply (f_equal (λ o, o ≫= λ s, callers s !! t)) in E. cbn in E.
    by rewrite !lookup_insert_eq in E.
  - apply Hi.
Qed.

Fixpoint run (l : list action) (s : registry) : option registry :=
  match l with
  | [] => Some s
  | a :: l => s' ← step a s; run l s'
  end.

Lemma flight_run_reachable l s s' : reachable s → run l s = Some s' → reachable s'.
Proof.
  revert s. induction l as [|a l IH]; intros s Hs; cbn [run]; [by intros [= <-]|].
  destruct (step a s) as [s1|] eqn:E; [|done]. apply IH. by eapply reach_step.
Qed.
End flights.

(** Two callers of one key, the second joining the first; a third whose leader
    panicked and that is sent round again. *)
Definition shared_run : list (@action N) :=
  let k := ("react", 3%N) in
  [Call 1 k; Claim 1; Call 2 k; Claim 2; Finish 1 42%N; Remove 1; Wake 2;
   Call 4 k; Claim 4; Call 3 k; Claim 3; Panic 4; Remove 4; Close 4; Wake 3].

Lemma shared_run_state :
  ∃ s, run shared_run initial = Some s ∧ callers s !! 2%N = Some (Returned ("react", 3%N) 0 42%N) ∧
    callers s !! 3%N = Some (Looping ("react", 3%N)).
Proof.
  assert ((λ s, (callers s !! 2%N, callers s !! 3%N)) <$> run shared_run initial =
    Some (Some (Returned ("react", 3%N) 0 42%N), Some (Looping ("react", 3%N)))) as E
    by (vm_compute; reflexivity).
  destruct (run shared_run initial) as [s|]; [|done]. injection E as H2 H3. by exists s.
Qed.

Example flights_are_shared_and_never_strand_witness :
  ∃ s, run shared_run initial = Some s ∧ callers s !! 2%N = Some (Returned ("react", 3%N) 0 42%N) ∧
    callers s !! 3%N = Some (Looping ("react", 3%N)) ∧ (("react", 3%N), 0%N, 42%N) ∈ log s.
Proof.
  destruct shared_run_state as (s & Hs & H2 & H3). exists s. split_and!; [done..|].
  pose proof (flight_run_reachable shared_run initial s reach_initial Hs) as Hr.
  destruct (flights_are_shared_and_never_strand s Hr) as (_ & Hret & _). by apply (Hret 2%N).
Defined.
End Flight.
