(* ===== verification/Lanes.v ===== *)
(** Bounded lanes (lanes.rs): a queue of jobs drained by at most [limit]
    runners that exist only while there is work. A spawn and a pop are atomic
    under the lane's lock; starting a runner, and a job, happen outside it.
    Any interleaving is a run. *)
From stdpp Require Import base gmap list strings.
From S2P Require Import Prelude.

Module Lane.

(** A runner: between jobs, or running one. A runner is a thread of its own or,
    when none could be started, the spawning thread itself. *)
Inductive runner := Popping | Running (job : N).

Record lane := {
  limit : nat;
  queue : list N;
  running : nat;
  starting : nat;              (* runners counted but not yet started *)
  runners : gmap N runner;
  next_runner : N;
  spawned : list N;            (* ghost: jobs in the order they were queued *)
  started : list N;            (* ghost: jobs in the order they were taken *)
}.

(** [Lane::new]. *)
Definition new_lane (width : nat) : lane :=
  {| limit := Nat.max width 1; queue := []; running := 0; starting := 0; runners := ∅;
     next_runner := 0; spawned := []; started := [] |}.

(** [spawn], its locked part: the job is queued and a runner counted if the
    lane is not at its width. *)
Definition spawn (job : N) (s : lane) : lane :=
  let start := bool_decide (running s < limit s) in
  {| limit := limit s; queue := queue s ++ [job];
     running := if start then S (running s) else running s;
     starting := if start then S (starting s) else starting s;
     runners := runners s; next_runner := next_runner s;
     spawned := spawned s ++ [job]; started := started s |}.

(** [start_runner]: the runner begins to drain. *)
Definition start_runner (s : lane) : option lane :=
  match starting s with
  | 0 => None
  | S n => Some {| limit := limit s; queue := queue s; running := running s; starting := n;
                   runners := <[next_runner s := Popping]> (runners s);
                   next_runner := next_runner s + 1; spawned := spawned s; started := started s |}
  end.

(** [drain], its locked part: take the oldest job, or leave. *)
Definition pop (r : N) (s : lane) : option lane :=
  match runners s !! r with
  | Some Popping =>
      match queue s with
      | job :: rest =>
          Some {| limit := limit s; queue := rest; running := running s; starting := starting s;
                  runners := <[r := Running job]> (runners s); next_runner := next_runner s;
                  spawned := spawned s; started := started s ++ [job] |}
      | [] =>
          Some {| limit := limit s; queue := []; running := pred (running s); starting := starting s;
                  runners := delete r (runners s); next_runner := next_runner s;
                  spawned := spawned s; started := started s |}
      end
  | _ => None
  end.

(** The job ends, by returning or by a panic that is caught. *)
Definition finish (r : N) (s : lane) : option lane :=
  match runners s !! r with
  | Some (Running _) =>
      Some {| limit := limit s; queue := queue s; running := running s; starting := starting s;
              runners := <[r := Popping]> (runners s); next_runner := next_runner s;
              spawned := spawned s; started := started s |}
  | _ => None
  end.

Inductive action := Spawn (job : N) | Start | Pop (r : N) | Finish (r : N).

Definition step (a : action) (s : lane) : option lane :=
  match a with
  | Spawn job => Some (spawn job s)
  | Start => start_runner s
  | Pop r => pop r s
  | Finish r => finish r s
  end.

Fixpoint run (l : list action) (s : lane) : option lane :=
  match l with
  | [] => Some s
  | a :: l => s' ← step a s; run l s'
  end.

Record inv (s : lane) : Prop := {
  inv_running : running s = starting s + size (runners s);
  inv_limit : running s ≤ limit s;
  inv_width : 0 < limit s;
  inv_staffed : queue s ≠ [] → 0 < running s;
  inv_fifo : spawned s = started s ++ queue s;
  inv_next : ∀ r x, runners s !! r = Some x → (r < next_runner s)%N;
}.

Lemma lane_inv_new width : inv (new_lane width).
Proof.
  split; cbn; try done; try lia.
Qed.

Lemma lane_inv_step a s s' : inv s → step a s = Some s' → inv s'.
Proof.
  intros [Hr Hl Hw Hst Hf Hn]. destruct a as [job| |r|r]; cbn.
  - intros [= <-]. unfold spawn. case_bool_decide as Hlt; split; cbn; try done; try lia;
      by rewrite Hf, (assoc_L (++)).
  - unfold start_runner. destruct (starting s) as [|n] eqn:Hs; [done|]. intros [= <-].
    assert (runners s !! next_runner s = None) as Hfresh.
    { destruct (runners s !! next_runner s) eqn:E; [|done]. pose proof (Hn _ _ E). lia. }
    split; cbn; try done.
    + rewrite map_size_insert_None by done. lia.
    + intros r x [[<- _]|[_ Hx]]%lookup_insert_Some; [lia|]. pose proof (Hn _ _ Hx). lia.
  - unfold pop. destruct (runners s !! r) as [[|job0]|] eqn:Hx; [|done..].
    destruct (queue s) as [|job rest] eqn:Hq; intros [= <-]; split; cbn; try done.
    + rewrite map_size_delete_Some by done.
      assert (size (runners s) ≠ 0) by (intros E%map_size_empty_inv; rewrite E in Hx; by apply lookup_empty_Some in Hx).
      lia.
    + lia.
    + intros r' x [_ Hx']%lookup_delete_Some. by eapply Hn.
    + by rewrite map_size_insert_Some.
    + intros _. by apply Hst.
    + by rewrite Hf, <- (assoc_L (++)).
    + intros r' x [[<- _]|[_ Hx']]%lookup_insert_Some; by eapply Hn.
  - unfold finish. destruct (runners s !! r) as [[|job]|] eqn:Hx; [done| |done].
    intros [= <-]. split; cbn; try done.
    + by rewrite map_size_insert_Some.
    + intros r' x [[<- _]|[_ Hx']]%lookup_insert_Some; by eapply Hn.
Qed.

Lemma lane_inv_run l s s' : inv s → run l s = Some s' → inv s'.
Proof.
  revert s. induction l as [|a l IH]; intros s Hi; cbn [run]; [by intros [= <-]|].
  destruct (step a s) as [s1|] eqn:E; [|done]. by apply IH, (lane_inv_step a s).
Qed.

(** *** Draining ends *)

(** What is left to do: two steps per queued job, one per busy runner, and the
    leaving of every runner. *)
Definition work_left (s : lane) : nat :=
  3 * length (queue s) + 2 * starting s +
  map_fold (λ _ x acc, match x with Popping => 1 | Running _ => 2 end + acc) 0 (runners s).

Lemma work_insert (m : gmap N runner) r x y :
  m !! r = Some x →
  let w := λ m : gmap N runner, map_fold (λ _ x acc, match x with Popping => 1 | Running _ => 2 end + acc) 0 m in
  w (<[r := y]> m) + (match x with Popping => 1 | Running _ => 2 end) =
    w m + match y with Popping => 1 | Running _ => 2 end ∧
  w (delete r m) + (match x with Popping => 1 | Running _ => 2 end) = w m.
Proof.
  intros Hx w. subst w. cbn zeta. rewrite <- (insert_delete_id m r x Hx) at 2 4.
  rewrite <- (insert_delete_eq m r y).
  rewrite !map_fold_insert_L by (first [intros; lia|apply lookup_delete_eq]). lia.
Qed.

Lemma work_decreases a s s' :
  inv s → step a s = Some s' → (∀ job, a ≠ Spawn job) → work_left s' < work_left s.
Proof.
  intros Hi. destruct a as [job| |r|r]; cbn [step]; intros Hs Hns; [by destruct (Hns job)|..];
    unfold work_left.
  - unfold start_runner in Hs. destruct (starting s) as [|n] eqn:Hst; [done|].
    injection Hs as <-. cbn.
    assert (runners s !! next_runner s = None) as Hfresh.
    { destruct (runners s !! next_runner s) eqn:E; [|done]. pose proof (inv_next s Hi _ _ E). lia. }
    rewrite map_fold_insert_L by (first [intros; lia|done]). lia.
  - unfold pop in Hs. destruct (runners s !! r) as [[|job0]|] eqn:Hx; [|done..].
    destruct (queue s) as [|job rest] eqn:Hq; injection Hs as <-; cbn [queue starting runners length].
    + pose proof (proj2 (work_insert _ _ _ Popping Hx)) as E. cbn in E. lia.
    + pose proof (proj1 (work_insert _ _ _ (Running job) Hx)) as E. cbn in E. lia.
  - unfold finish in Hs. destruct (runners s !! r) as [[|job]|] eqn:Hx; [done| |done].
    injection Hs as <-. cbn [queue starting runners].
    pose proof (proj1 (work_insert _ _ _ Popping Hx)) as E. cbn in E. lia.
Qed.

(** A lane that is not idle can go on. *)
Lemma lane_progresses s :
  inv s → queue s ≠ [] ∨ running s ≠ 0 → ∃ a s', (∀ job, a ≠ Spawn job) ∧ step a s = Some s'.
Proof.
  intros Hi Hbusy. assert (0 < running s) as Hpos.
  { destruct Hbusy as [Hq|?]; [by apply (inv_staffed s Hi)|lia]. }
  rewrite (inv_running s Hi) in Hpos.
  destruct (starting s) as [|n] eqn:Hst.
  - destruct (map_choose (runners s)) as (r & x & Hx).
    { intros E. rewrite E, map_size_empty in Hpos. lia. }
    destruct x as [|job].
    + exists (Pop r). cbn. unfold pop. rewrite Hx. destruct (queue s); eexists; split; done.
    + exists (Finish r). cbn. unfold finish. rewrite Hx. eexists; split; done.
  - exists Start. cbn. unfold start_runner. rewrite Hst. eexists; split; done.
Qed.

(** A lane runs every job once, in the order it was queued, within its
    width, and strands none. Over any interleaving of spawns, runner starts and
    drains: the running count is exactly the runners there are and never above
    the limit; a queued job always has a runner counted for it; the jobs taken
    are a prefix of the jobs queued; and while no more is spawned, the lane can
    always go on until it is idle with every job taken, in at most [work_left]
    steps. A job that panics costs nothing. *)
Theorem lane_never_strands_a_job width l s :
  run l (new_lane width) = Some s →
  running s = starting s + size (runners s) ∧ running s ≤ Nat.max width 1 ∧
  (queue s ≠ [] → 0 < running s) ∧
  spawned s = started s ++ queue s ∧
  (∀ a s', (∀ job, a ≠ Spawn job) → step a s = Some s' → work_left s' < work_left s) ∧
  ((∀ a s', (∀ job, a ≠ Spawn job) → step a s ≠ Some s') → running s = 0 ∧ started s = spawned s).
Proof.
  intros Hr. pose proof (lane_inv_run _ _ _ (lane_inv_new width) Hr) as Hi.
  assert (limit s = Nat.max width 1) as Hlim.
  { clear Hi. revert Hr. change (Nat.max width 1) with (limit (new_lane width)).
    generalize (new_lane width). induction l as [|a l IH]; intros s0; cbn [run]; [by intros [= <-]|].
    destruct (step a s0) as [s1|] eqn:E; [|done]. intros Hr. rewrite (IH s1 Hr).
    destruct a; cbn in E; unfold spawn, start_runner, pop, finish in E;
      repeat case_match; simplify_eq; done. }
  rewrite <- Hlim. split_and!; [apply Hi..| |].
  - intros a s' Hns Hs. by eapply work_decreases.
  - intros Hstuck. destruct (decide (queue s ≠ [] ∨ running s ≠ 0)) as [Hbusy|Hidle].
    + destruct (lane_progresses s Hi Hbusy) as (a & s' & Hns & Hs). by destruct (Hstuck a s').
    + assert (queue s = []) as Hq by (destruct (queue s); [done|destruct Hidle; by left]).
      split; [lia|]. by rewrite (inv_fifo s Hi), Hq, app_nil_r.
Qed.

Example lane_never_strands_a_job_witness :
  ∃ s, run [Spawn 1; Spawn 2; Spawn 3; Start; Pop 0; Finish 0; Pop 0]%N (new_lane 1) = Some s ∧
    started s = [1; 2]%N ∧ spawned s = started s ++ queue s ∧ running s ≤ 1.
Proof.
  eexists. split; [reflexivity|]. split; [reflexivity|].
  destruct (lane_never_strands_a_job 1 [Spawn 1; Spawn 2; Spawn 3; Start; Pop 0; Finish 0; Pop 0]%N _ eq_refl)
    as (_ & Hl & _ & Hf & _). by split.
Defined.
End Lane.
