(* ===== verification/EngineBoundary.v ===== *)
(** The engine's execution boundary (engine/boundary.rs): the permits that bound
    concurrent builds, the smaller pool of them background builds share, and
    the ways a build ends.  Tokio's semaphore is used through an interface that
    states what its documentation promises: it is fair, and a freed permit goes
    to the head of the line. *)
From stdpp Require Import base gmap list strings.
From S2P Require Import Prelude Stages Fingerprints Results.

Module Permits.

Definition ENGINE_PERMITS : nat := 2.

(** ** The semaphore *)

(** [acquire t] asks for a permit, and waits in line while none is free;
    [release t] drops the one [t] holds. *)
Class Semaphore := {
  sem : Type;
  new_sem : nat → sem;
  permits : sem → nat;
  holders : sem → list N;
  queue : sem → list N;
  acquire : N → sem → sem;
  release : N → sem → sem;
}.

Class FairSemaphore `{Sm : Semaphore} : Prop := {
  new_law n : permits (new_sem n) = n ∧ holders (new_sem n) = [] ∧ queue (new_sem n) = [];
  acquire_law t s :
    permits (acquire t s) = permits s ∧
    if decide (queue s = [] ∧ length (holders s) < permits s)
    then holders (acquire t s) ≡ₚ t :: holders s ∧ queue (acquire t s) = []
    else holders (acquire t s) = holders s ∧ queue (acquire t s) = queue s ++ [t];
  release_law t rest s :
    holders s ≡ₚ t :: rest →
    permits (release t s) = permits s ∧ queue (release t s) = tail (queue s) ∧
    holders (release t s) ≡ₚ option_list (head (queue s)) ++ rest;
}.

Section line.
Context `{FS : FairSemaphore}.

Definition in_line (s : sem) (t : N) : Prop := t ∈ holders s ++ queue s.

(** Nobody waits while a permit is free. *)
Record sem_ok (n : nat) (s : sem) : Prop := {
  ok_permits : permits s = n;
  ok_nodup : NoDup (holders s ++ queue s);
  ok_bound : length (holders s) ≤ n;
  ok_busy : queue s ≠ [] → length (holders s) = n;
}.

Lemma new_sem_ok n : sem_ok n (new_sem n).
Proof. destruct (new_law n) as (? & Hh & Hq). split; rewrite ?Hh, ?Hq; try done; [constructor|cbn; lia]. Qed.

Lemma new_sem_line n t : ¬ in_line (new_sem n) t.
Proof. unfold in_line. destruct (new_law n) as (_ & -> & ->). apply not_elem_of_nil. Qed.

Lemma acquire_line t s : holders (acquire t s) ++ queue (acquire t s) ≡ₚ t :: holders s ++ queue s.
Proof.
  destruct (acquire_law t s) as [_ H]. case_decide as Hd; destruct H as [Hh Hq]; rewrite Hh, Hq.
  - destruct Hd as [-> _]. by rewrite !app_nil_r.
  - solve_Permutation.
Qed.

Lemma acquire_ok n t s : sem_ok n s → ¬ in_line s t → sem_ok n (acquire t s).
Proof.
  intros [Hp Hn Hb Hq] Ht. pose proof (acquire_law t s) as [Hp' H]. split; [congruence|..].
  - rewrite acquire_line. by constructor.
  - case_decide as Hd; destruct H as [Hh _]; rewrite Hh; [cbn; lia|done].
  - case_decide as Hd; destruct H as [Hh Hq']; rewrite Hh, Hq'; [done|]. intros _.
    destruct (decide (queue s = [])) as [He|He]; [|by apply Hq].
    destruct (decide (length (holders s) < permits s)); [by destruct Hd|lia].
Qed.

Lemma acquire_keeps t u s : u ∈ holders s → u ∈ holders (acquire t s).
Proof.
  destruct (acquire_law t s) as [_ H]. case_decide; destruct H as [-> _]; [|done].
  intros ?. by right.
Qed.

Lemma release_line t s :
  t ∈ holders s → holders s ++ queue s ≡ₚ t :: holders (release t s) ++ queue (release t s).
Proof.
  intros [rest Hr]%elem_of_Permutation. destruct (release_law t rest s Hr) as (_ & -> & ->).
  rewrite Hr. destruct (queue s); cbn; solve_Permutation.
Qed.

Lemma release_ok n t s : sem_ok n s → t ∈ holders s → sem_ok n (release t s).
Proof.
  intros [Hp Hn Hb Hq] Ht. pose proof (release_line t s Ht) as Hl.
  apply elem_of_Permutation in Ht as [rest Hr].
  destruct (release_law t rest s Hr) as (Hp' & Hq' & Hh). split; [congruence|..].
  - rewrite Hl in Hn. by apply NoDup_cons in Hn as [_ ?].
  - rewrite Hh. rewrite Hr in Hb. destruct (queue s); cbn in *; lia.
  - rewrite Hq', Hh. destruct (queue s) as [|u q]; [done|]. intros _.
    specialize (Hq ltac:(done)). rewrite Hr in Hq. done.
Qed.

Lemma release_keeps n t u s : sem_ok n s → t ∈ holders s → u ≠ t → u ∈ holders s → u ∈ holders (release t s).
Proof.
  intros Hs [rest Hr]%elem_of_Permutation Hu. destruct (release_law t rest s Hr) as (_ & _ & ->).
  rewrite Hr. intros [->|?]%elem_of_cons; [done|]. apply elem_of_app. by right.
Qed.

Lemma release_leaves n t s : sem_ok n s → t ∈ holders s → ¬ in_line (release t s) t.
Proof.
  intros Hs Ht. pose proof (ok_nodup _ _ Hs) as Hn. rewrite (release_line t s Ht) in Hn.
  by apply NoDup_cons in Hn as [? _].
Qed.

(** Someone in the line of a semaphore means someone holds it. *)
Lemma line_held n s t : 0 < n → sem_ok n s → in_line s t → ∃ u, u ∈ holders s.
Proof.
  intros Hn Hs [?|Hq]%elem_of_app; [by exists t|]. destruct (holders s) as [|u l] eqn:E; [|exists u; left].
  assert (length (holders s) = n) as Hl.
  { apply (ok_busy _ _ Hs). intros E'. rewrite E' in Hq. by apply not_elem_of_nil in Hq. }
  rewrite E in Hl. cbn in Hl. lia.
Qed.
End line.

(** ** Builds *)

Record BundleFailure := {
  stage : string;
  message : string;
  diagnostics : list ImportDiagnostic;
  loaded_paths : list string;
  read_time_fingerprints : list FileFingerprint;
}.

(** What a build's future does: it returns, unwinds, or is cut off. *)
Inductive ending (A : Type) :=
  | Completed (r : A + BundleFailure)
  | Unwound (detail : option string)    (* the payload, when it is a string *)
  | Elapsed.
#[global] Arguments Completed {A}.
#[global] Arguments Unwound {A}.
#[global] Arguments Elapsed {A}.

Definition panic_failure (detail : option string) : BundleFailure :=
  {| stage := engine_stage.PANIC;
     message := "engine build panicked: " +:+ default "non-string panic payload" detail;
     diagnostics := []; loaded_paths := []; read_time_fingerprints := [] |}.

(** [secs] is how a duration is printed in seconds. *)
Definition timeout_failure (secs : string) : BundleFailure :=
  {| stage := engine_stage.TIMEOUT;
     message := "engine build did not complete within " +:+ secs +:+
       "s; this usually means a module task panicked inside the bundler and the build never finished";
     diagnostics := []; loaded_paths := []; read_time_fingerprints := [] |}.

Definition with_permit_result {A} (secs : string) (e : ending A) : A + BundleFailure :=
  match e with
  | Completed r => r
  | Unwound detail => inr (panic_failure detail)
  | Elapsed => inr (timeout_failure secs)
  end.

Section boundary.
Context `{Sm : Semaphore} {A : Type} (secs : string).

(** Where a build is in [with_permit]. *)
Inductive phase :=
  | AskedBackground
  | AskedEngine
  | Running
  | Leaving (r : A + BundleFailure)            (* the permit is about to be dropped *)
  | LeavingBackground (r : A + BundleFailure)
  | Done (r : A + BundleFailure).

Record build := { background : bool; phase_of : phase }.

Record boundary := {
  PERMITS : sem;
  BACKGROUND_PERMITS : sem;
  WAITING : nat;
  IN_FLIGHT : nat;
  PEAK_IN_FLIGHT : nat;
  STARTED : nat;
  builds : gmap N build;
}.

Definition new_boundary : boundary :=
  {| PERMITS := new_sem ENGINE_PERMITS; BACKGROUND_PERMITS := new_sem (ENGINE_PERMITS - 1);
     WAITING := 0; IN_FLIGHT := 0; PEAK_IN_FLIGHT := 0; STARTED := 0; builds := ∅ |}.

Inductive action :=
  | Submit (t : N) (background : bool)     (* [run_on_engine]: the future is spawned *)
  | GotBackground (t : N)
  | Admit (t : N)                          (* the engine permit is granted *)
  | Finish (t : N) (e : ending A)
  | DropPermit (t : N)
  | DropBackground (t : N).

Definition submit (t : N) (bg : bool) (s : boundary) : boundary :=
  {| PERMITS := if bg then PERMITS s else acquire t (PERMITS s);
     BACKGROUND_PERMITS := if bg then acquire t (BACKGROUND_PERMITS s) else BACKGROUND_PERMITS s;
     WAITING := S (WAITING s); IN_FLIGHT := IN_FLIGHT s; PEAK_IN_FLIGHT := PEAK_IN_FLIGHT s;
     STARTED := STARTED s;
     builds := <[t := {| background := bg; phase_of := if bg then AskedBackground else AskedEngine |}]> (builds s) |}.

Definition set_phase (t : N) (bg : bool) (p : phase) (s : boundary) : gmap N build :=
  <[t := {| background := bg; phase_of := p |}]> (builds s).

Definition got_background (t : N) (s : boundary) : boundary :=
  {| PERMITS := acquire t (PERMITS s); BACKGROUND_PERMITS := BACKGROUND_PERMITS s;
     WAITING := WAITING s; IN_FLIGHT := IN_FLIGHT s; PEAK_IN_FLIGHT := PEAK_IN_FLIGHT s;
     STARTED := STARTED s; builds := set_phase t true AskedEngine s |}.

(** [drop(waiting)] and [InFlight::enter]. *)
Definition admit_build (t : N) (bg : bool) (s : boundary) : boundary :=
  let current := S (IN_FLIGHT s) in
  {| PERMITS := PERMITS s; BACKGROUND_PERMITS := BACKGROUND_PERMITS s;
     WAITING := pred (WAITING s); IN_FLIGHT := current;
     PEAK_IN_FLIGHT := Nat.max (PEAK_IN_FLIGHT s) current; STARTED := S (STARTED s);
     builds := set_phase t bg Running s |}.

(** The guard is dropped first, then the permit, then the background permit. *)
Definition finish (t : N) (bg : bool) (e : ending A) (s : boundary) : boundary :=
  {| PERMITS := PERMITS s; BACKGROUND_PERMITS := BACKGROUND_PERMITS s;
     WAITING := WAITING s; IN_FLIGHT := pred (IN_FLIGHT s); PEAK_IN_FLIGHT := PEAK_IN_FLIGHT s;
     STARTED := STARTED s; builds := set_phase t bg (Leaving (with_permit_result secs e)) s |}.

Definition drop_permit (t : N) (bg : bool) (r : A + BundleFailure) (s : boundary) : boundary :=
  {| PERMITS := release t (PERMITS s); BACKGROUND_PERMITS := BACKGROUND_PERMITS s;
     WAITING := WAITING s; IN_FLIGHT := IN_FLIGHT s; PEAK_IN_FLIGHT := PEAK_IN_FLIGHT s;
     STARTED := STARTED s; builds := set_phase t bg (if bg then LeavingBackground r else Done r) s |}.

Definition drop_background (t : N) (r : A + BundleFailure) (s : boundary) : boundary :=
  {| PERMITS := PERMITS s; BACKGROUND_PERMITS := release t (BACKGROUND_PERMITS s);
     WAITING := WAITING s; IN_FLIGHT := IN_FLIGHT s; PEAK_IN_FLIGHT := PEAK_IN_FLIGHT s;
     STARTED := STARTED s; builds := set_phase t true (Done r) s |}.

Definition step (a : action) (s : boundary) : option boundary :=
  match a with
  | Submit t bg => match builds s !! t with None => Some (submit t bg s) | Some _ => None end
  | GotBackground t =>
      match builds s !! t with
      | Some {| background := true; phase_of := AskedBackground |} =>
          if decide (t ∈ holders (BACKGROUND_PERMITS s)) then Some (got_background t s) else None
      | _ => None
      end
  | Admit t =>
      match builds s !! t with
      | Some {| background := bg; phase_of := AskedEngine |} =>
          if decide (t ∈ holders (PERMITS s)) then Some (admit_build t bg s) else None
      | _ => None
      end
  | Finish t e =>
      match builds s !! t with
      | Some {| background := bg; phase_of := Running |} => Some (finish t bg e s)
      | _ => None
      end
  | DropPermit t =>
      match builds s !! t with
      | Some {| background := bg; phase_of := Leaving r |} => Some (drop_permit t bg r s)
      | _ => None
      end
  | DropBackground t =>
      match builds s !! t with
      | Some {| background := true; phase_of := LeavingBackground r |} => Some (drop_background t r s)
      | _ => None
      end
  end.

Inductive reachable : boundary → Prop :=
  | reach_new : reachable new_boundary
  | reach_step a s s' : reachable s → step a s = Some s' → reachable s'.

(** ** The invariant *)

Definition wants_engine (b : build) : bool :=
  match phase_of b with AskedEngine | Running | Leaving _ => true | _ => false end.
Definition wants_background (b : build) : bool :=
  background b && match phase_of b with Done _ => false | _ => true end.
Definition has_permit (b : build) : bool :=
  match phase_of b with Running | Leaving _ => true | _ => false end.
Definition has_background (b : build) : bool :=
  background b && match phase_of b with AskedBackground | Done _ => false | _ => true end.

Definition is_waiting (b : build) : nat :=
  match phase_of b with AskedBackground | AskedEngine => 1 | _ => 0 end.
Definition is_running (b : build) : nat := match phase_of b with Running => 1 | _ => 0 end.
Definition was_admitted (b : build) : nat :=
  match phase_of b with AskedBackground | AskedEngine => 0 | _ => 1 end.

Record inv (s : boundary) : Prop := {
  inv_engine : sem_ok ENGINE_PERMITS (PERMITS s);
  inv_background : sem_ok (ENGINE_PERMITS - 1) (BACKGROUND_PERMITS s);
  inv_line : ∀ t, in_line (PERMITS s) t ↔ ∃ b, builds s !! t = Some b ∧ wants_engine b = true;
  inv_back_line : ∀ t, in_line (BACKGROUND_PERMITS s) t ↔
                       ∃ b, builds s !! t = Some b ∧ wants_background b = true;
  inv_held : ∀ t b, builds s !! t = Some b → has_permit b = true → t ∈ holders (PERMITS s);
  inv_back_held : ∀ t b, builds s !! t = Some b → has_background b = true →
                         t ∈ holders (BACKGROUND_PERMITS s);
  inv_kind : ∀ t b, builds s !! t = Some b → background b = false →
             match phase_of b with AskedBackground | LeavingBackground _ => False | _ => True end;
  inv_waiting : WAITING s = tally is_waiting (builds s);
  inv_in_flight : IN_FLIGHT s = tally is_running (builds s);
  inv_started : STARTED s = tally was_admitted (builds s);
  inv_peak : IN_FLIGHT s ≤ PEAK_IN_FLIGHT s ≤ ENGINE_PERMITS;
}.

Context `{FS : !FairSemaphore}.

Lemma boundary_inv_new : inv new_boundary.
Proof.
  split; cbn; rewrite ?tally_empty; try done; try apply new_sem_ok.
  - intros t. split; [by intros ?%new_sem_line|]. by intros (? & ? & _).
  - intros t. split; [by intros ?%new_sem_line|]. by intros (? & ? & _).
  - unfold ENGINE_PERMITS. lia.
Qed.

(** A caller's place in a line after one build has moved. *)
Lemma line_moves (f : build → bool) (m : gmap N build) (l l' : N → Prop) t b :
  (∀ u, l u ↔ ∃ b, m !! u = Some b ∧ f b = true) →
  (∀ u, u ≠ t → (l' u ↔ l u)) → (l' t ↔ f b = true) →
  ∀ u, l' u ↔ ∃ b', <[t := b]> m !! u = Some b' ∧ f b' = true.
Proof.
  intros Hl Ho Ht u. destruct (decide (u = t)) as [->|Hne].
  - rewrite Ht, lookup_insert_eq. naive_solver.
  - rewrite (Ho u Hne), Hl. by rewrite lookup_insert_ne.
Qed.

Lemma held_moves (f : build → bool) (m : gmap N build) (h h' : list N) t b :
  (∀ u b, m !! u = Some b → f b = true → u ∈ h) →
  (∀ u, u ≠ t → u ∈ h → u ∈ h') → (f b = true → t ∈ h') →
  ∀ u b', <[t := b]> m !! u = Some b' → f b' = true → u ∈ h'.
Proof.
  intros Hh Ho Ht u b' [[<- <-]|[Hne Hu]]%lookup_insert_Some Hf; [auto|]. apply Ho; [done|].
  by eapply Hh.
Qed.

Lemma kind_moves (m : gmap N build) t b :
  (∀ t b, m !! t = Some b → background b = false →
   match phase_of b with AskedBackground | LeavingBackground _ => False | _ => True end) →
  (background b = false → match phase_of b with AskedBackground | LeavingBackground _ => False | _ => True end) →
  ∀ u b', <[t := b]> m !! u = Some b' → background b' = false →
  match phase_of b' with AskedBackground | LeavingBackground _ => False | _ => True end.
Proof. intros Hm Hb u b' [[<- <-]|[_ Hu]]%lookup_insert_Some; [done|by apply (Hm u)]. Qed.

Lemma acquire_line_iff t s u : in_line (acquire t s) u ↔ u = t ∨ in_line s u.
Proof. unfold in_line. by rewrite acquire_line, elem_of_cons. Qed.

Lemma release_line_iff n t s u :
  sem_ok n s → t ∈ holders s → u ≠ t → (in_line (release t s) u ↔ in_line s u).
Proof. intros Hs Ht Hu. unfold in_line. rewrite (release_line t s Ht), elem_of_cons. naive_solver. Qed.

Lemma not_in_line s t :
  inv s → builds s !! t = None → ¬ in_line (PERMITS s) t ∧ ¬ in_line (BACKGROUND_PERMITS s) t.
Proof.
  intros Hi Ht. split; [rewrite (inv_line s Hi)|rewrite (inv_back_line s Hi)]; intros (b & Hb & _);
    congruence.
Qed.

Lemma inv_submit t bg s : inv s → builds s !! t = None → inv (submit t bg s).
Proof.
  intros Hi Ht. destruct (not_in_line s t Hi Ht) as [Hne Hnb].
  destruct Hi as [He Hb Hl Hbl Hh Hbh Hk Hw Hf Hs Hp].
  split; cbn [submit PERMITS BACKGROUND_PERMITS WAITING IN_FLIGHT PEAK_IN_FLIGHT STARTED builds];
    rewrite ?tally_insert_new by done.
  - destruct bg; [done|by apply acquire_ok].
  - destruct bg; [by apply acquire_ok|done].
  - apply (line_moves wants_engine (builds s) (in_line (PERMITS s))); [done|..].
    + intros u Hu. destruct bg; [done|]. rewrite acquire_line_iff. naive_solver.
    + destruct bg; [by split|]. rewrite acquire_line_iff. naive_solver.
  - apply (line_moves wants_background (builds s) (in_line (BACKGROUND_PERMITS s))); [done|..].
    + intros u Hu. destruct bg; [|done]. rewrite acquire_line_iff. naive_solver.
    + destruct bg; [|by split]. rewrite acquire_line_iff. naive_solver.
  - apply (held_moves has_permit (builds s) (holders (PERMITS s))); [done| |by destruct bg].
    intros u _ Hu. destruct bg; [done|by apply acquire_keeps].
  - apply (held_moves has_background (builds s) (holders (BACKGROUND_PERMITS s))); [done| |by destruct bg].
    intros u _ Hu. destruct bg; [by apply acquire_keeps|done].
  - apply kind_moves; [done|]. by destruct bg.
  - rewrite Hw. by destruct bg.
  - rewrite Hf. by destruct bg.
  - rewrite Hs. by destruct bg.
  - done.
Qed.

Lemma inv_got_background t s :
  inv s → builds s !! t = Some {| background := true; phase_of := AskedBackground |} →
  t ∈ holders (BACKGROUND_PERMITS s) → inv (got_background t s).
Proof.
  intros [He Hb Hl Hbl Hh Hbh Hk Hw Hf Hs Hp] Ht Hg.
  assert (¬ in_line (PERMITS s) t) as Hne.
  { rewrite Hl. intros (b & Hb' & Hb''). by simplify_eq. }
  pose proof (λ f, tally_insert f (builds s) t _ {| background := true; phase_of := AskedEngine |} Ht) as Hta.
  pose proof (Hta is_waiting) as Hta1. pose proof (Hta is_running) as Hta2.
  pose proof (Hta was_admitted) as Hta3. cbn in Hta1, Hta2, Hta3.
  split; cbn [got_background set_phase PERMITS BACKGROUND_PERMITS WAITING IN_FLIGHT PEAK_IN_FLIGHT STARTED builds];
    unfold set_phase; try done; try lia.
  - by apply acquire_ok.
  - apply (line_moves wants_engine (builds s) (in_line (PERMITS s))); [done|..].
    + intros u Hu. rewrite acquire_line_iff. naive_solver.
    + rewrite acquire_line_iff. naive_solver.
  - apply (line_moves wants_background (builds s) (in_line (BACKGROUND_PERMITS s))); [done|done|].
    rewrite Hbl, Ht. naive_solver.
  - apply (held_moves has_permit (builds s) (holders (PERMITS s))); [done| |done].
    intros u _. apply acquire_keeps.
  - by apply (held_moves has_background (builds s) (holders (BACKGROUND_PERMITS s))).
  - by apply kind_moves.
Qed.

(** Running builds hold distinct engine permits. *)
Lemma running_held s m :
  (∀ t b, m !! t = Some b → has_permit b = true → t ∈ holders s) →
  sem_ok ENGINE_PERMITS s → tally is_running m ≤ ENGINE_PERMITS.
Proof.
  intros Hh Hs. etransitivity; [|apply (ok_bound _ _ Hs)]. apply tally_le_list.
  intros k [bg p] Hk Hr. unfold is_running in Hr. cbn in Hr. destruct p; try done.
  split; [done|]. by eapply Hh.
Qed.

Lemma inv_admit t bg s :
  inv s → builds s !! t = Some {| background := bg; phase_of := AskedEngine |} →
  t ∈ holders (PERMITS s) → inv (admit_build t bg s).
Proof.
  intros [He Hb Hl Hbl Hh Hbh Hk Hw Hf Hs Hp] Ht Hg.
  pose proof (λ f, tally_insert f (builds s) t _ {| background := bg; phase_of := Running |} Ht) as Hta.
  pose proof (Hta is_waiting) as Hta1. pose proof (Hta is_running) as Hta2.
  pose proof (Hta was_admitted) as Hta3. cbn in Hta1, Hta2, Hta3.
  assert (∀ u b', <[t:={| background := bg; phase_of := Running |}]> (builds s) !! u = Some b' →
    has_permit b' = true → u ∈ holders (PERMITS s)) as Hh'
    by by apply (held_moves has_permit (builds s) (holders (PERMITS s))).
  pose proof (running_held _ _ Hh' He) as Hmax.
  split; cbn [admit_build set_phase PERMITS BACKGROUND_PERMITS WAITING IN_FLIGHT PEAK_IN_FLIGHT STARTED builds];
    unfold set_phase; try done; try lia.
  - apply (line_moves wants_engine (builds s) (in_line (PERMITS s))); [done|done|].
    rewrite Hl, Ht. naive_solver.
  - apply (line_moves wants_background (builds s) (in_line (BACKGROUND_PERMITS s))); [done|done|].
    rewrite Hbl, Ht. unfold wants_background. cbn. naive_solver.
  - apply (held_moves has_background (builds s) (holders (BACKGROUND_PERMITS s))); [done|done|].
    intros Hg'. apply (Hbh t _ Ht). unfold has_background in *. by cbn in *.
  - by apply kind_moves.
Qed.

Lemma inv_finish t bg e s :
  inv s → builds s !! t = Some {| background := bg; phase_of := Running |} → inv (finish t bg e s).
Proof.
  intros [He Hb Hl Hbl Hh Hbh Hk Hw Hf Hs Hp] Ht. unfold finish.
  set (r := with_permit_result secs e).
  pose proof (λ f, tally_insert f (builds s) t _ {| background := bg; phase_of := Leaving r |} Ht) as Hta.
  pose proof (Hta is_waiting) as Hta1. pose proof (Hta is_running) as Hta2.
  pose proof (Hta was_admitted) as Hta3. cbn in Hta1, Hta2, Hta3.
  split; cbn [set_phase PERMITS BACKGROUND_PERMITS WAITING IN_FLIGHT PEAK_IN_FLIGHT STARTED builds];
    unfold set_phase; try done; try lia.
  - apply (line_moves wants_engine (builds s) (in_line (PERMITS s))); [done|done|].
    rewrite Hl, Ht. naive_solver.
  - apply (line_moves wants_background (builds s) (in_line (BACKGROUND_PERMITS s))); [done|done|].
    rewrite Hbl, Ht. unfold wants_background. cbn. naive_solver.
  - apply (held_moves has_permit (builds s) (holders (PERMITS s))); [done|done|].
    intros _. by apply (Hh t _ Ht).
  - apply (held_moves has_background (builds s) (holders (BACKGROUND_PERMITS s))); [done|done|].
    intros Hg'. apply (Hbh t _ Ht). unfold has_background in *. by cbn in *.
  - by apply kind_moves.
Qed.

Lemma inv_drop_permit t bg r s :
  inv s → builds s !! t = Some {| background := bg; phase_of := Leaving r |} → inv (drop_permit t bg r s).
Proof.
  intros [He Hb Hl Hbl Hh Hbh Hk Hw Hf Hs Hp] Ht. unfold drop_permit.
  pose proof (Hh t _ Ht eq_refl) as Hg.
  set (b := {| background := bg; phase_of := if bg then LeavingBackground r else Done r |}).
  pose proof (λ f, tally_insert f (builds s) t _ b Ht) as Hta.
  pose proof (Hta is_waiting) as Hta1. pose proof (Hta is_running) as Hta2.
  pose proof (Hta was_admitted) as Hta3.
  assert (is_waiting b = 0 ∧ is_running b = 0 ∧ was_admitted b = 1) as (Hb1 & Hb2 & Hb3)
    by (subst b; by destruct bg).
  cbn in Hta1, Hta2, Hta3. rewrite Hb1 in Hta1. rewrite Hb2 in Hta2. rewrite Hb3 in Hta3.
  split; cbn [PERMITS BACKGROUND_PERMITS WAITING IN_FLIGHT PEAK_IN_FLIGHT STARTED builds];
    unfold set_phase; fold b; try done; try lia.
  - by apply release_ok.
  - apply (line_moves wants_engine (builds s) (in_line (PERMITS s))); [done|..].
    + intros u Hu. by apply release_line_iff with ENGINE_PERMITS.
    + pose proof (release_leaves _ t _ He Hg). subst b. destruct bg; cbn; naive_solver.
  - apply (line_moves wants_background (builds s) (in_line (BACKGROUND_PERMITS s))); [done|done|].
    rewrite Hbl, Ht. subst b. unfold wants_background. destruct bg; cbn; naive_solver.
  - apply (held_moves has_permit (builds s) (holders (PERMITS s))); [done| |subst b; by destruct bg].
    intros u Hu. by apply release_keeps with ENGINE_PERMITS.
  - apply (held_moves has_background (builds s) (holders (BACKGROUND_PERMITS s))); [done|done|].
    intros Hg'. apply (Hbh t _ Ht). subst b. unfold has_background in *. by destruct bg.
  - apply kind_moves; [done|]. subst b. by destruct bg.
Qed.

Lemma inv_drop_background t r s :
  inv s → builds s !! t = Some {| background := true; phase_of := LeavingBackground r |} →
  inv (drop_background t r s).
Proof.
  intros [He Hb Hl Hbl Hh Hbh Hk Hw Hf Hs Hp] Ht. unfold drop_background.
  pose proof (Hbh t _ Ht eq_refl) as Hg.
  pose proof (λ f, tally_insert f (builds s) t _ {| background := true; phase_of := Done r |} Ht) as Hta.
  pose proof (Hta is_waiting) as Hta1. pose proof (Hta is_running) as Hta2.
  pose proof (Hta was_admitted) as Hta3. cbn in Hta1, Hta2, Hta3.
  split; cbn [PERMITS BACKGROUND_PERMITS WAITING IN_FLIGHT PEAK_IN_FLIGHT STARTED builds];
    unfold set_phase; try done; try lia.
  - by apply release_ok.
  - apply (line_moves wants_engine (builds s) (in_line (PERMITS s))); [done|done|].
    rewrite Hl, Ht. naive_solver.
  - apply (line_moves wants_background (builds s) (in_line (BACKGROUND_PERMITS s))); [done|..].
    + intros u Hu. by apply release_line_iff with (ENGINE_PERMITS - 1).
    + pose proof (release_leaves _ t _ Hb Hg). cbn. naive_solver.
  - by apply (held_moves has_permit (builds s) (holders (PERMITS s))).
  - apply (held_moves has_background (builds s) (holders (BACKGROUND_PERMITS s))); [done| |done].
    intros u Hu. by apply release_keeps with (ENGINE_PERMITS - 1).
  - by apply kind_moves.
Qed.

Lemma boundary_inv_step a s s' : inv s → step a s = Some s' → inv s'.
Proof.
  intros Hi. destruct a as [t bg|t|t|t e|t|t]; cbn [step];
    destruct (builds s !! t) as [[bg' p]|] eqn:Ht; try done.
  - intros [= <-]. by apply inv_submit.
  - destruct bg', p; try done. case_decide; [|done]. intros [= <-]. by apply inv_got_background.
  - destruct p; try done. case_decide; [|done]. intros [= <-]. by apply inv_admit.
  - destruct p; try done. intros [= <-]. by apply inv_finish.
  - destruct p; try done. intros [= <-]. by apply inv_drop_permit.
  - destruct bg', p; try done. intros [= <-]. by apply inv_drop_background.
Qed.

Lemma boundary_reachable_inv s : reachable s → inv s.
Proof. induction 1; [apply boundary_inv_new|by eapply boundary_inv_step]. Qed.

(** ** Progress *)

Definition can_advance (s : boundary) : Prop :=
  ∃ a s', (∀ t bg, a ≠ Submit t bg) ∧ step a s = Some s'.

(** The builds that want the engine never wait on one another for ever. *)
Lemma engine_advances s t b :
  inv s → builds s !! t = Some b → wants_engine b = true → can_advance s.
Proof.
  intros Hi Hb Hw.
  destruct (line_held ENGINE_PERMITS (PERMITS s) t) as [u Hu].
  { unfold ENGINE_PERMITS. lia. }
  { apply Hi. }
  { apply (inv_line s Hi). by exists b. }
  assert (in_line (PERMITS s) u) as (c & Hc & Hwc)%(inv_line s Hi) by (apply elem_of_app; by left).
  destruct c as [bg []]; try done.
  - exists (Admit u). eexists. split; [done|]. cbn. rewrite Hc. by rewrite decide_True.
  - exists (Finish u Elapsed). eexists. split; [done|]. cbn. by rewrite Hc.
  - exists (DropPermit u). eexists. split; [done|]. cbn. by rewrite Hc.
Qed.

Lemma boundary_progress s t b :
  inv s → builds s !! t = Some b → (∀ r, phase_of b ≠ Done r) → can_advance s.
Proof.
  intros Hi Hb Hd. destruct (wants_engine b) eqn:Hw; [by eapply engine_advances|].
  assert (wants_background b = true) as Hwb.
  { pose proof (inv_kind s Hi _ _ Hb) as Hk. unfold wants_background. destruct b as [[] []]; cbn in *; try done.
    all: first [by destruct (Hd _ eq_refl)|by destruct (Hk eq_refl)]. }
  destruct (line_held (ENGINE_PERMITS - 1) (BACKGROUND_PERMITS s) t) as [u Hu].
  { unfold ENGINE_PERMITS. lia. }
  { apply Hi. }
  { apply (inv_back_line s Hi). by exists b. }
  assert (in_line (BACKGROUND_PERMITS s) u) as (c & Hc & Hwc)%(inv_back_line s Hi)
    by (apply elem_of_app; by left).
  destruct (wants_engine c) eqn:Hwe; [by eapply engine_advances|].
  destruct c as [[] []]; try done.
  - exists (GotBackground u). eexists. split; [done|]. cbn. rewrite Hc. by rewrite decide_True.
  - exists (DropBackground u). eexists. split; [done|]. cbn. by rewrite Hc.
Qed.

(** Background builds in the engine's line: those that hold the background permit. *)
Definition background_in_line (b : build) : nat :=
  if background b && wants_engine b then 1 else 0.

Lemma background_bounded s : inv s → tally background_in_line (builds s) ≤ ENGINE_PERMITS - 1.
Proof.
  intros Hi. etransitivity; [|apply (ok_bound _ _ (inv_background s Hi))].
  apply tally_le_list. intros k b Hk Hb. unfold background_in_line in *.
  destruct b as [[] p]; cbn in *; [|done]. destruct (wants_engine _) eqn:Hw; [|done].
  split; [done|]. apply (inv_back_held s Hi _ _ Hk). unfold has_background. by destruct p.
Qed.

(** ** What the boundary promises *)

(** C32. The engine boundary under every interleaving of submissions, grants and
    endings. At most two builds run at once and the recorded peak never says
    more; a background build holds a background permit as long as it wants or
    holds the engine, so at most one of them is ever among those holding or
    waiting for an engine permit and the other permit is free for, or held by,
    an interactive build; a permit is never free while somebody waits for it;
    the counters are exact; and while a build is open some step other than a
    submission can be made, a build that never returns included, since it is
    cut off. *)
Theorem boundary_admits_within_permits s :
  reachable s →
  IN_FLIGHT s = tally is_running (builds s) ∧
  IN_FLIGHT s ≤ PEAK_IN_FLIGHT s ≤ ENGINE_PERMITS ∧
  WAITING s = tally is_waiting (builds s) ∧
  STARTED s = tally was_admitted (builds s) ∧
  tally background_in_line (builds s) ≤ ENGINE_PERMITS - 1 ∧
  (queue (PERMITS s) ≠ [] → length (holders (PERMITS s)) = ENGINE_PERMITS) ∧
  (∀ t b, builds s !! t = Some b → (∀ r, phase_of b ≠ Done r) → can_advance s).
Proof.
  intros Hi%boundary_reachable_inv. split_and!; try apply Hi.
  - by apply background_bounded.
  - intros t b. by apply boundary_progress.
Qed.

Fixpoint run (l : list action) (s : boundary) : option boundary :=
  match l with
  | [] => Some s
  | a :: l => s' ← step a s; run l s'
  end.

Lemma boundary_run_reachable l s s' : reachable s → run l s = Some s' → reachable s'.
Proof.
  revert s. induction l as [|a l IH]; intros s Hs; cbn [run]; [by intros [= <-]|].
  destruct (step a s) as [s1|] eqn:E; [|done]. apply IH. by eapply reach_step.
Qed.
End boundary.

(** ** Witness: a line kept as a list, two background builds and an interactive one *)

Fixpoint remove_first (t : N) (l : list N) : list N :=
  match l with [] => [] | u :: l => if decide (u = t) then l else u :: remove_first t l end.

Lemma remove_first_perm t l rest : l ≡ₚ t :: rest → remove_first t l ≡ₚ rest.
Proof.
  intros Hl. apply (Permutation_cons_inv (a := t)). rewrite <- Hl.
  assert (t ∈ l) as Ht by (rewrite Hl; left). clear Hl.
  induction l as [|u l IH]; [by apply not_elem_of_nil in Ht|]. cbn.
  case_decide as Hu; [by rewrite Hu|]. apply elem_of_cons in Ht as [->|Ht]; [done|].
  rewrite Permutation_swap. by rewrite IH.
Qed.

Record line := { line_permits : nat; line_holders : list N; line_queue : list N }.

#[export] Instance list_line : Semaphore := {|
  sem := line;
  new_sem n := {| line_permits := n; line_holders := []; line_queue := [] |};
  permits := line_permits; holders := line_holders; queue := line_queue;
  acquire t s :=
    if decide (line_queue s = [] ∧ length (line_holders s) < line_permits s)
    then {| line_permits := line_permits s; line_holders := t :: line_holders s; line_queue := [] |}
    else {| line_permits := line_permits s; line_holders := line_holders s; line_queue := line_queue s ++ [t] |};
  release t s :=
    {| line_permits := line_permits s; line_queue := tail (line_queue s);
       line_holders := option_list (head (line_queue s)) ++ remove_first t (line_holders s) |};
|}.

#[export] Instance list_line_fair : FairSemaphore.
Proof.
  split.
  - done.
  - intros t s. cbn. split; case_decide; done.
  - intros t rest s Hr. cbn in *. split_and!; [done..|].
    f_equiv. by apply remove_first_perm.
Qed.

Definition three_builds : list (@action string) :=
  [Submit 1 true; Submit 2 true; Submit 3 false; GotBackground 1; Admit 3; Admit 1;
   Finish 3 Elapsed; DropPermit 3]%N.

Lemma three_builds_run : ∃ s, run "8" three_builds new_boundary = Some s ∧
  builds s !! 3%N = Some {| background := false; phase_of := Done (inr (timeout_failure "8")) |} ∧
  IN_FLIGHT s = 1 ∧ PEAK_IN_FLIGHT s = 2.
Proof. eexists. split; [vm_compute; reflexivity|]. by split_and!. Qed.

Lemma boundary_admits_within_permits_witness :
  ∃ s, reachable (A := string) "8" s ∧ PEAK_IN_FLIGHT s = 2 ∧
    IN_FLIGHT s ≤ PEAK_IN_FLIGHT s ≤ ENGINE_PERMITS.
Proof.
  destruct three_builds_run as (s & Hr & _ & _ & Hp). exists s.
  assert (reachable "8" s) as Hs by exact (boundary_run_reachable "8" _ _ _ (reach_new "8") Hr).
  split; [exact Hs|]. split; [exact Hp|].
  exact (proj1 (proj2 (boundary_admits_within_permits "8" s Hs))).
Defined.
End Permits.
