(* ===== verification/Scheduling.v ===== *)
(** The bounded miss drain (engine/scheduling.rs): a fixed set of workers that
    take items through a shared cursor and finish in any order, and the callers
    that put the results back in the order of the items.  A drain is a step
    relation over its workers; what a caller gets is stated of every schedule
    that joins. *)
From stdpp Require Import base list sorting strings.
From S2P Require Import Prelude EngineBoundary.

Module Drain.

Definition MISS_DRAIN_WORKERS : nat := Permits.ENGINE_PERMITS + 2.

Inductive worker := Fetching | Busy (index : nat) | Stopped.
Inductive action := Fetch (w : nat) | Complete (w : nat).

#[global] Instance worker_eq_dec : EqDecision worker.
Proof. solve_decision. Defined.

Definition busy (w : worker) : option nat := match w with Busy i => Some i | _ => None end.

Section bounded.
(** [items], and the pair [run] gives for the item at an index. *)
Context {A R : Type} (items : list A) (run : nat → A → nat * R).

Record drain := {
  cursor : nat;
  workers : list worker;
  slots_taken : list nat;         (* the slots whose item has been taken *)
  completed : list (nat * R);     (* in completion order *)
  panicked : bool;                (* a slot was taken twice *)
}.

Definition start_drain (width : nat) : drain :=
  {| cursor := 0; workers := replicate (Nat.min width (length items)) Fetching;
     slots_taken := []; completed := []; panicked := false |}.

(** [Fetch]: the [fetch_add], and the [take] of the slot at that index;
    [Complete]: the run's pair is pushed. *)
Definition step (a : action) (s : drain) : option drain :=
  match a with
  | Fetch w =>
      match workers s !! w with
      | Some Fetching =>
          let index := cursor s in
          Some (if decide (index < length items) then
                  {| cursor := S index; workers := <[w := Busy index]> (workers s);
                     slots_taken := index :: slots_taken s; completed := completed s;
                     panicked := panicked s || bool_decide (index ∈ slots_taken s) |}
                else
                  {| cursor := S index; workers := <[w := Stopped]> (workers s);
                     slots_taken := slots_taken s; completed := completed s;
                     panicked := panicked s |})
      | _ => None
      end
  | Complete w =>
      match workers s !! w with
      | Some (Busy index) =>
          match items !! index with
          | Some x =>
              Some {| cursor := cursor s; workers := <[w := Fetching]> (workers s);
                      slots_taken := slots_taken s;
                      completed := completed s ++ [run index x];
                      panicked := panicked s |}
          | None => None
          end
      | _ => None
      end
  end.

Fixpoint steps (l : list action) (s : drain) : option drain :=
  match l with
  | [] => Some s
  | a :: l => s' ← step a s; steps l s'
  end.

(** The scope joins every worker. *)
Definition joined (s : drain) : Prop := Forall (eq Stopped) (workers s).

(** What [drain_bounded] can return: the inline path for a lone item off the
    pool, or the completed pairs of any schedule that joins without a panic. *)
Definition drain_bounded (on_pool : bool) (width : nat) (out : list (nat * R)) : Prop :=
  if decide (length items ≤ 1 ∧ on_pool = false) then out = imap run items
  else ∃ l s, steps l (start_drain width) = Some s ∧ joined s ∧
              panicked s = false ∧ out = completed s.

(** ** The invariant *)

Lemma busy_insert (ws : list worker) w a b :
  ws !! w = Some a →
  omap busy (<[w := b]> ws) ++ option_list (busy a) ≡ₚ omap busy ws ++ option_list (busy b).
Proof.
  intros Hw. rewrite <- (take_drop_middle ws w a Hw) at 2.
  rewrite insert_take_drop by (by eapply lookup_lt_Some).
  rewrite !omap_app. cbn. destruct (busy a), (busy b); cbn; rewrite ?app_nil_r;
    rewrite <- ?(assoc_L (++)); cbn; solve_Permutation.
Qed.

(** The pair an index produces. *)
Definition result_at (i : nat) : list (nat * R) :=
  match items !! i with Some x => [run i x] | None => [] end.

Record inv (s : drain) : Prop := {
  inv_taken : completed s ++ (omap busy (workers s) ≫= result_at)
                ≡ₚ seq 0 (Nat.min (cursor s) (length items)) ≫= result_at;
  inv_busy : Forall (λ i, i < length items) (omap busy (workers s));
  inv_slots : slots_taken s ≡ₚ seq 0 (Nat.min (cursor s) (length items));
  inv_ok : panicked s = false;
  inv_stopped : Stopped ∈ workers s → length items ≤ cursor s;
  inv_workers : length items ≠ 0 → workers s ≠ [];
}.

Lemma busy_replicate n : omap busy (replicate n Fetching) = [].
Proof. by induction n. Qed.

Lemma drain_inv_start width : 0 < width → inv (start_drain width).
Proof.
  intros Hw. split; cbn; rewrite ?busy_replicate; try done.
  - intros H%elem_of_replicate_inv. done.
  - intros Hn E%(f_equal length). rewrite length_replicate in E. cbn in E. lia.
Qed.

Lemma stopped_insert (ws : list worker) w a b :
  ws !! w = Some a → b ≠ Stopped → Stopped ∈ <[w := b]> ws → Stopped ∈ ws.
Proof.
  intros Hw Hb [j Hj]%list_elem_of_lookup. destruct (decide (w = j)) as [<-|Hj'].
  - rewrite list_lookup_insert_eq in Hj by (by eapply lookup_lt_Some). congruence.
  - rewrite list_lookup_insert_ne in Hj by done. by eapply list_elem_of_lookup_2.
Qed.

Lemma insert_nonempty (ws : list worker) w b : ws ≠ [] → <[w := b]> ws ≠ [].
Proof. destruct ws; [done|]. by destruct w. Qed.

Lemma inv_fetch_item s w :
  inv s → workers s !! w = Some Fetching → cursor s < length items →
  inv {| cursor := S (cursor s); workers := <[w := Busy (cursor s)]> (workers s);
         slots_taken := cursor s :: slots_taken s; completed := completed s;
         panicked := panicked s || bool_decide (cursor s ∈ slots_taken s) |}.
Proof.
  intros [Ht Hbz Hs Ho Hst Hne] Hw Hlt.
  pose proof (busy_insert _ _ _ (Busy (cursor s)) Hw) as Hb. cbn in Hb. rewrite app_nil_r in Hb.
  rewrite Nat.min_l in Ht, Hs by lia.
  assert (seq 0 (Nat.min (S (cursor s)) (length items)) = seq 0 (cursor s) ++ [cursor s]) as Hq
    by (rewrite Nat.min_l by lia; by rewrite seq_S).
  split; cbn -[Nat.min]; rewrite ?Hq.
  - rewrite Hb, !bind_app. cbn. rewrite (assoc_L (++)). by rewrite Ht.
  - rewrite Hb. apply Forall_app. auto.
  - rewrite Hs. by rewrite Permutation_app_comm.
  - rewrite Ho. apply bool_decide_eq_false. rewrite Hs, elem_of_seq. lia.
  - intros H%(stopped_insert _ _ _ _ Hw); [|done]. apply Hst in H. lia.
  - intros Hn. by apply insert_nonempty, Hne.
Qed.

Lemma inv_fetch_end s w :
  inv s → workers s !! w = Some Fetching → ¬ cursor s < length items →
  inv {| cursor := S (cursor s); workers := <[w := Stopped]> (workers s);
         slots_taken := slots_taken s; completed := completed s; panicked := panicked s |}.
Proof.
  intros [Ht Hbz Hs Ho Hst Hne] Hw Hge.
  pose proof (busy_insert _ _ _ Stopped Hw) as Hb. cbn in Hb. rewrite !app_nil_r in Hb.
  rewrite Nat.min_r in Ht, Hs by lia.
  split; cbn -[Nat.min]; rewrite ?Nat.min_r by lia; try done.
  - by rewrite Hb.
  - by rewrite Hb.
  - lia.
  - intros Hn. by apply insert_nonempty, Hne.
Qed.

Lemma inv_complete s w index x :
  inv s → workers s !! w = Some (Busy index) → items !! index = Some x →
  inv {| cursor := cursor s; workers := <[w := Fetching]> (workers s);
         slots_taken := slots_taken s; completed := completed s ++ [run index x];
         panicked := panicked s |}.
Proof.
  intros [Ht Hbz Hs Ho Hst Hne] Hw Hx.
  pose proof (busy_insert _ _ _ Fetching Hw) as Hb. cbn in Hb. rewrite app_nil_r in Hb.
  split; cbn; try done.
  - rewrite <- Ht, <- Hb, bind_app. cbn. unfold result_at at 3. rewrite Hx.
    rewrite <- !(assoc_L (++)). cbn. solve_Permutation.
  - rewrite <- Hb in Hbz. by apply Forall_app in Hbz as [? _].
  - intros H%(stopped_insert _ _ _ _ Hw); [|done]. auto.
  - intros Hn. by apply insert_nonempty, Hne.
Qed.

Lemma drain_inv_step a s s' : inv s → step a s = Some s' → inv s'.
Proof.
  intros Hi. destruct a as [w|w]; cbn [step];
    destruct (workers s !! w) as [[|index|]|] eqn:Hw; try done.
  - case_decide as Hlt; intros [= <-]; [by apply inv_fetch_item|by apply inv_fetch_end].
  - destruct (items !! index) as [x|] eqn:Hx; [|done]. intros [= <-]. by apply inv_complete.
Qed.

Lemma drain_inv_steps l s s' : inv s → steps l s = Some s' → inv s'.
Proof.
  revert s. induction l as [|a l IH]; intros s Hi; cbn [steps]; [by intros [= <-]|].
  destruct (step a s) as [s1|] eqn:E; [|done]. by apply IH, (drain_inv_step a s).
Qed.

Lemma bind_fmap_list {X Y Z} (g : Y → list Z) (h : X → Y) (l : list X) :
  (h <$> l) ≫= g = l ≫= λ x, g (h x).
Proof. induction l as [|x l IH]; cbn; [done|]. by rewrite IH. Qed.

Lemma seq_results (l : list A) (f : nat → A → nat * R) :
  (seq 0 (length l) ≫= λ i, match l !! i with Some x => [f i x] | None => [] end) = imap f l.
Proof.
  revert f. induction l as [|x l IH]; intros f; [done|].
  rewrite imap_cons. change (f 0 x :: ?r) with ([f 0 x] ++ r). cbn -[app]. f_equal.
  rewrite <- fmap_S_seq, bind_fmap_list. apply (IH (λ i, f (S i))).
Qed.

Lemma joined_idle ws : Forall (eq Stopped) ws → omap busy ws = [].
Proof. by induction 1 as [|? ws <- _ IH]. Qed.

(** What a joined drain holds: every item's result once, whatever the order. *)
Lemma joined_completed width l s :
  0 < width → steps l (start_drain width) = Some s → joined s →
  panicked s = false ∧ completed s ≡ₚ imap run items.
Proof.
  intros Hw Hl Hj. pose proof (drain_inv_steps _ _ _ (drain_inv_start width Hw) Hl)
    as [Ht _ _ Ho Hst Hne]. split; [done|].
  rewrite (joined_idle _ Hj) in Ht. cbn in Ht. rewrite app_nil_r in Ht. rewrite Ht.
  rewrite Nat.min_r; [unfold result_at; by rewrite seq_results|].
  destruct (decide (length items = 0)) as [->|Hn]; [lia|]. apply Hst. specialize (Hne Hn).
  unfold joined in Hj. destruct (workers s) as [|? ws]; [done|]. inv Hj. left.
Qed.

Lemma drain_bounded_results on_pool width out :
  0 < width → drain_bounded on_pool width out → out ≡ₚ imap run items.
Proof.
  unfold drain_bounded. case_decide; [by intros _ ->|].
  intros Hw (l & s & Hl & Hj & _ & ->). by eapply joined_completed.
Qed.

(** ** Every schedule joins *)

Definition worker_weight (w : worker) : nat :=
  match w with Fetching => 1 | Busy _ => 2 | Stopped => 0 end.

Definition weight (s : drain) : nat :=
  2 * (length items - cursor s) + sum_list_with worker_weight (workers s).

Lemma weight_insert (ws : list worker) w a b :
  ws !! w = Some a →
  sum_list_with worker_weight (<[w := b]> ws) + worker_weight a =
  sum_list_with worker_weight ws + worker_weight b.
Proof.
  revert w. induction ws as [|x ws IH]; intros [|w]; cbn; try done.
  - intros [= ->]. lia.
  - intros H%IH. rewrite <- !Nat.add_assoc. by f_equal.
Qed.

Lemma step_weight a s s' : step a s = Some s' → weight s' < weight s.
Proof.
  destruct a as [w|w]; cbn [step];
    destruct (workers s !! w) as [[|index|]|] eqn:Hw; try done.
  - pose proof (weight_insert _ _ _ (Busy (cursor s)) Hw).
    pose proof (weight_insert _ _ _ Stopped Hw). cbn in *.
    case_decide; intros [= <-]; unfold weight; cbn; lia.
  - destruct (items !! index); [|done]. intros [= <-].
    pose proof (weight_insert _ _ _ Fetching Hw). unfold weight; cbn in *; lia.
Qed.

Lemma steps_bounded l s s' : steps l s = Some s' → length l + weight s' ≤ weight s.
Proof.
  revert s. induction l as [|a l IH]; intros s; cbn [steps length]; [intros [= <-]; lia|].
  destruct (step a s) as [s1|] eqn:E; [|done]. intros H. apply IH in H.
  apply step_weight in E. lia.
Qed.

Lemma start_weight width : weight (start_drain width) ≤ 3 * length items.
Proof.
  unfold weight. cbn. assert (∀ n, sum_list_with worker_weight (replicate n Fetching) = n) as ->.
  { induction n; cbn; lia. }
  lia.
Qed.

(** While a worker is left running, some worker can step. *)
Lemma drain_progress s : inv s → joined s ∨ ∃ a, is_Some (step a s).
Proof.
  intros Hi. destruct (decide (Forall (λ w, w = Stopped) (workers s))) as [H|H].
  { left. eapply Forall_impl; [done|]. by intros ? ->. }
  right. apply not_Forall_Exists, Exists_exists in H; [|apply _].
  destruct H as (w & [j Hj]%list_elem_of_lookup & Hw). destruct w as [|index|];
    [| |by destruct Hw].
  - exists (Fetch j). cbn. rewrite Hj. eauto.
  - exists (Complete j). cbn. rewrite Hj. assert (index < length items) as Hlt.
    { pose proof (inv_busy _ Hi) as Hb. rewrite Forall_forall in Hb. apply Hb.
      apply list_elem_of_omap. exists (Busy index). split; [|done].
      by apply list_elem_of_lookup_2 with j. }
    apply lookup_lt_is_Some_2 in Hlt as [x ->]. eauto.
Qed.
End bounded.

(** ** Reassembly *)

Definition by_index {R} (p q : nat * R) : Prop := p.1 ≤ q.1.
#[global] Instance by_index_dec {R} : RelDecision (@by_index R).
Proof. intros p q. unfold by_index. apply _. Defined.
#[global] Instance by_index_total {R} : Total (@by_index R).
Proof. intros p q. unfold by_index. lia. Qed.
#[global] Instance by_index_trans {R} : Transitive (@by_index R).
Proof. intros p q r. unfold by_index. lia. Qed.

(** [drain_ordered] and [drain_ordered_owned]: sort by index, drop the index. *)
Definition drain_ordered {R} (pairs : list (nat * R)) : list R :=
  (merge_sort by_index pairs).*2.

(** [drain_classified]: the settled slots and the pending work, by index. *)
Definition settled {R P} (classified : list (R + P)) : list (option R) :=
  (λ c, match c with inl r => Some r | inr _ => None end) <$> classified.

Definition pending {R P} (classified : list (R + P)) : list (nat * P) :=
  omap (λ p : nat * (R + P), match p.2 with inl _ => None | inr w => Some (p.1, w) end)
       (imap pair classified).

(** The work a drained slot does; [items[index]] out of range is a panic, which
    the scope passes on. *)
Definition run_pending {A R P} (items : list A) (run : nat → A → P → R)
    (_ : nat) (work : nat * P) : nat * option R :=
  (work.1, x ← items !! work.1; Some (run work.1 x work.2)).

Definition scope_results {R} (completed : list (nat * option R)) : option (list (nat * R)) :=
  mapM (λ p, r ← p.2; Some (p.1, r)) completed.

(** [settled[index] = Some(result)] panics out of range. *)
Definition place {R} (slots : list (option R)) (p : nat * R) : option (list (option R)) :=
  if decide (p.1 < length slots) then Some (<[p.1 := Some p.2]> slots) else None.

Fixpoint place_all {R} (slots : list (option R)) (pairs : list (nat * R)) : option (list (option R)) :=
  match pairs with [] => Some slots | p :: pairs => s ← place slots p; place_all s pairs end.

(** [None] is a panic; the last line is the [expect] on every slot. *)
Definition drain_classified {A R P} (items : list A) (classify : nat → A → R + P)
    (completed : list (nat * option R)) : option (list R) :=
  let classified := imap classify items in
  slots ← match pending classified with
          | [] => Some (settled classified)
          | _ => pairs ← scope_results completed; place_all (settled classified) pairs
          end;
  mapM id slots.

Lemma place_all_spec {R} (pairs : list (nat * R)) slots :
  NoDup pairs.*1 → Forall (λ p, p.1 < length slots) pairs →
  ∃ slots', place_all slots pairs = Some slots' ∧ length slots' = length slots ∧
    (∀ i r, (i, r) ∈ pairs → slots' !! i = Some (Some r)) ∧
    (∀ i, i ∉ pairs.*1 → slots' !! i = slots !! i).
Proof.
  revert slots. induction pairs as [|[j v] pairs IH]; intros slots Hnd Hb.
  { exists slots. split_and!; auto. intros i r H. by apply not_elem_of_nil in H. }
  inversion Hnd as [|? ? Hj Hnd']; subst. inversion Hb as [|? ? Hlt Hb']; subst.
  cbn in Hj, Hlt. destruct (IH (<[j := Some v]> slots)) as (s' & Hs & Hlen & Hin & Hout); [done|..].
  { by rewrite length_insert. }
  exists s'. cbn. unfold place. rewrite decide_True by done. cbn.
  rewrite length_insert in Hlen. split_and!; try done.
  - intros i r [[= -> ->]|H]%elem_of_cons; [|by apply Hin].
    rewrite Hout by done. by rewrite list_lookup_insert_eq.
  - intros i [Hi Hi']%not_elem_of_cons. rewrite Hout by done. by rewrite list_lookup_insert_ne.
Qed.

Lemma imap_pairs_sorted {A R} (f : nat → A → R) (l : list A) n :
  StronglySorted by_index (imap (λ i x, (n + i, f i x)) l).
Proof.
  revert f n. induction l as [|x l IH]; intros f n; [constructor|]. rewrite imap_cons. constructor.
  - rewrite (imap_ext _ (λ i x, (S n + i, f (S i) x))) by (intros; cbn; by rewrite Nat.add_succ_r).
    apply (IH (λ i, f (S i))).
  - apply Forall_forall. intros p (i & y & -> & _)%elem_of_lookup_imap.
    unfold by_index. cbn. lia.
Qed.

Lemma imap_keys {A R} (f : nat → A → R) (l : list A) :
  (imap (λ i x, (i, f i x)) l).*1 = seq 0 (length l).
Proof.
  rewrite fmap_imap. apply list_eq. intros i. rewrite list_lookup_imap.
  destruct (l !! i) as [x|] eqn:E; cbn.
  - apply lookup_lt_Some in E. by rewrite lookup_seq_lt.
  - apply lookup_ge_None in E. by rewrite lookup_seq_ge.
Qed.

(** A list of pairs sorted by position is already in order. *)
Lemma drain_ordered_imap {A R} (f : nat → A → R) (l : list A) :
  drain_ordered (imap (λ i x, (i, f i x)) l) = imap f l.
Proof.
  unfold drain_ordered.
  transitivity ((imap (λ i x, (i, f i x)) l).*2).
  - f_equal. apply (StronglySorted_unique_strong by_index).
    + intros [i a] [j b] Ha Hb Hab Hba. rewrite merge_sort_Permutation in Ha.
      assert (i = j) as -> by (unfold by_index in *; cbn in *; lia).
      apply elem_of_lookup_imap in Ha as (? & ? & [= -> ->] & ?), Hb as (? & ? & [= -> ->] & ?).
      congruence.
    + apply (StronglySorted_merge_sort _).
    + apply (imap_pairs_sorted f l 0).
    + apply merge_sort_Permutation.
  - rewrite fmap_imap. by apply imap_ext.
Qed.

(** ** What the classified drain answers *)

Section classified.
Context {A R P : Type} (items : list A) (classify : nat → A → R + P) (run : nat → A → P → R).

Definition answer (i : nat) (x : A) : R :=
  match classify i x with inl r => r | inr w => run i x w end.

(** The pairs the pending work makes, in the order of the items. *)
Definition drained (l : list (nat * A)) : list (nat * R) :=
  omap (λ p, match classify p.1 p.2 with inl _ => None | inr w => Some (p.1, run p.1 p.2 w) end) l.

Lemma pending_imap :
  pending (imap classify items) =
  omap (λ p : nat * A, match classify p.1 p.2 with inl _ => None | inr w => Some (p.1, w) end)
       (imap pair items).
Proof.
  unfold pending. assert (imap pair (imap classify items)
    = (λ p : nat * A, (p.1, classify p.1 p.2)) <$> imap pair items) as ->.
  { apply list_eq. intros i. rewrite list_lookup_fmap, !list_lookup_imap.
    by destruct (items !! i). }
  induction (imap pair items) as [|p l IH]; [done|]. cbn. rewrite IH. by destruct (classify _ _).
Qed.

Lemma run_pending_drained :
  imap (run_pending items run) (pending (imap classify items)) =
  (λ p, (p.1, Some p.2)) <$> drained (imap pair items).
Proof.
  rewrite pending_imap. unfold drained.
  assert (Forall (λ p, items !! p.1 = Some p.2) (imap pair items)) as Hl.
  { apply Forall_forall. intros p (i & x & -> & Hx)%elem_of_lookup_imap. done. }
  change (imap (run_pending items run)) with (imap (λ _ : nat, run_pending items run 0)).
  induction Hl as [|[i x] l Hx _ IH]; [done|]. cbn in *.
  destruct (classify i x); [done|]. rewrite imap_cons. cbn. f_equal; [|done].
  unfold run_pending. cbn. by rewrite Hx.
Qed.

Lemma elem_of_drained i r :
  (i, r) ∈ drained (imap pair items) ↔
  ∃ x w, items !! i = Some x ∧ classify i x = inr w ∧ r = run i x w.
Proof.
  unfold drained. rewrite list_elem_of_omap. split.
  - intros (p & (j & x & -> & Hx)%elem_of_lookup_imap & Hp). cbn in Hp.
    destruct (classify j x) as [|w] eqn:E; [done|]. injection Hp as [= -> <-]. eauto.
  - intros (x & w & Hx & Hc & ->). exists (i, x). split.
    + apply elem_of_lookup_imap. eauto.
    + cbn. by rewrite Hc.
Qed.

Lemma drained_keys : NoDup (drained (imap pair items)).*1.
Proof.
  assert (NoDup (imap pair items).*1) as Hnd.
  { rewrite (imap_keys (λ _ x, x)). apply NoDup_seq. }
  unfold drained. induction (imap pair items) as [|[i x] l IH]; [constructor|].
  cbn in *. inversion Hnd as [|? ? Hi Hnd']; subst. specialize (IH Hnd').
  destruct (classify i x); [done|]. cbn. constructor; [|done].
  intros ([j r] & -> & ([k y] & Hk & Hr)%list_elem_of_omap)%list_elem_of_fmap. apply Hi.
  cbn in *. destruct (classify k y); [done|]. injection Hr as [= -> _].
  apply list_elem_of_fmap. by exists (j, y).
Qed.

Lemma settled_length : length (settled (imap classify items)) = length items.
Proof. unfold settled. by rewrite length_fmap, length_imap. Qed.

Lemma scope_results_some (l : list (nat * R)) :
  scope_results ((λ p, (p.1, Some p.2)) <$> l) = Some l.
Proof.
  unfold scope_results. apply mapM_Some. induction l as [|[i r] l IH]; constructor; done.
Qed.

(** The drained results fill exactly the slots left open. *)
Lemma place_drained pairs :
  pairs ≡ₚ drained (imap pair items) →
  place_all (settled (imap classify items)) pairs = Some (Some <$> imap answer items).
Proof.
  intros Hp. destruct (place_all_spec pairs (settled (imap classify items)))
    as (slots & -> & Hlen & Hin & Hout).
  - rewrite Hp. apply drained_keys.
  - rewrite Hp, settled_length. apply Forall_forall.
    intros [i r] (x & w & Hx & _)%elem_of_drained. by eapply lookup_lt_Some.
  - f_equal. apply list_eq. intros i. rewrite list_lookup_fmap, list_lookup_imap.
    destruct (items !! i) as [x|] eqn:Hx; cbn.
    + unfold answer. destruct (classify i x) as [r|w] eqn:Hc.
      * rewrite Hout. { unfold settled. rewrite list_lookup_fmap, list_lookup_imap, Hx. cbn. by rewrite Hc. }
        intros ([j r'] & -> & Hj)%list_elem_of_fmap. rewrite Hp in Hj.
        apply elem_of_drained in Hj as (? & ? & ? & ? & _). cbn in *. congruence.
      * apply Hin. rewrite Hp. apply elem_of_drained. eauto.
    + apply lookup_ge_None. rewrite Hlen, settled_length. by apply lookup_ge_None.
Qed.

(** Whatever order the pending results complete in. *)
Lemma drain_classified_answers completed :
  completed ≡ₚ imap (run_pending items run) (pending (imap classify items)) →
  drain_classified items classify completed = Some (imap answer items).
Proof.
  rewrite run_pending_drained. intros (pairs & -> & Hp)%Permutation_map_inv.
  unfold drain_classified.
  assert (match pending (imap classify items) with
          | [] => Some (settled (imap classify items))
          | _ => ps ← scope_results (map (λ p, (p.1, Some p.2)) pairs);
                 place_all (settled (imap classify items)) ps
          end = Some (Some <$> imap answer items)) as ->.
  { destruct (pending (imap classify items)) eqn:E.
    - pose proof run_pending_drained as Hr. rewrite E in Hr. cbn in Hr.
      symmetry in Hr. apply fmap_nil_inv in Hr. rewrite <- (place_drained []); [done|by rewrite Hr].
    - change (map ?f pairs) with (f <$> pairs). rewrite scope_results_some. by apply place_drained. }
  cbn. by apply mapM_fmap_Some.
Qed.
End classified.

(** ** The property *)

Lemma drain_ordered_answers {A R} (items : list A) (f : nat → A → R) on_pool out :
  drain_bounded items (λ i x, (i, f i x)) on_pool MISS_DRAIN_WORKERS out →
  drain_ordered out = imap f items.
Proof.
  intros H%drain_bounded_results; [|unfold MISS_DRAIN_WORKERS, Permits.ENGINE_PERMITS; lia].
  rewrite <- drain_ordered_imap. unfold drain_ordered. f_equal.
  apply (StronglySorted_unique_strong by_index);
    [|apply (StronglySorted_merge_sort _)..|by rewrite !merge_sort_Permutation].
  intros [i a] [j b] Ha Hb Hab Hba. rewrite merge_sort_Permutation, ?H in Ha.
  rewrite merge_sort_Permutation in Hb.
  assert (i = j) as -> by (unfold by_index in *; cbn in *; lia).
  apply elem_of_lookup_imap in Ha as (? & ? & [= -> ->] & ?), Hb as (? & ? & [= -> ->] & ?).
  congruence.
Qed.

(** C38. The bounded drain answers as a plain loop over the items would, whatever
    order its workers run and finish in: the ordered drain gives [f i x] for
    each item in the items' order; the classified drain gives the classifier's
    answer where it has one and the run's elsewhere, every slot filled and
    none of its [expect]s reached; and a drain of any items never takes a slot
    twice, always has a worker that can step until all have joined, and takes
    at most three steps an item. *)
Theorem drains_answer_in_order {A R P} (items : list A) (f : nat → A → R)
    (classify : nat → A → R + P) (run : nat → A → P → R) :
  (∀ on_pool out,
     drain_bounded items (λ i x, (i, f i x)) on_pool MISS_DRAIN_WORKERS out →
     drain_ordered out = imap f items) ∧
  (∀ on_pool out,
     drain_bounded (pending (imap classify items)) (run_pending items run)
       on_pool MISS_DRAIN_WORKERS out →
     drain_classified items classify out =
       Some (imap (λ i x, match classify i x with inl r => r | inr w => run i x w end) items)) ∧
  (∀ l s, steps items (λ i x, (i, f i x)) l (start_drain items MISS_DRAIN_WORKERS) = Some s →
     panicked s = false ∧ length l ≤ 3 * length items ∧
     (joined s ∨ ∃ a, is_Some (step items (λ i x, (i, f i x)) a s))).
Proof.
  assert (0 < MISS_DRAIN_WORKERS) as Hw by (unfold MISS_DRAIN_WORKERS, Permits.ENGINE_PERMITS; lia).
  split_and!.
  - intros on_pool out. apply drain_ordered_answers.
  - intros on_pool out H%drain_bounded_results; [|done].
    by apply drain_classified_answers.
  - intros l s Hl.
    pose proof (drain_inv_steps _ _ _ _ _ (drain_inv_start items (λ i x, (i, f i x)) _ Hw) Hl) as Hi.
    split_and!; [by apply (inv_ok _ _ _ Hi)| |by apply drain_progress].
    apply steps_bounded in Hl. pose proof (start_weight items (R:=R) MISS_DRAIN_WORKERS).
    lia.
Qed.

(** Two items, the second finished first. *)
Definition two_items : list Z := [10; 20]%Z.
Definition second_first : list action :=
  [Fetch 0; Fetch 1; Complete 1; Fetch 1; Complete 0; Fetch 0].

Lemma second_first_joins :
  drain_bounded two_items (λ i x, (i, (x + 1)%Z)) true MISS_DRAIN_WORKERS [(1, 21%Z); (0, 11%Z)].
Proof.
  unfold drain_bounded. rewrite decide_False by (intros [_ ?]; done).
  exists second_first. eexists. split; [vm_compute; reflexivity|].
  split; [repeat constructor|]. by split.
Qed.

Lemma drains_answer_in_order_witness :
  drain_bounded two_items (λ i x, (i, (x + 1)%Z)) true MISS_DRAIN_WORKERS [(1, 21%Z); (0, 11%Z)] ∧
  drain_ordered [(1, 21%Z); (0, 11%Z)] = [11; 21]%Z.
Proof.
  split; [exact second_first_joins|].
  exact (proj1 (drains_answer_in_order two_items (λ _ x, x + 1)%Z (λ _ x, inr x)
                  (λ _ (_ : Z) (w : Z), w)) true _ second_first_joins).
Defined.
End Drain.
