(* ===== verification/AssetBoundary.v ===== *)
(** The execution boundary of the asset processors (pipeline/asset_boundary.rs):
    a two-permit gate over a condition variable, with a deadline for each
    caller that covers its admission and its job.  Every critical section is a
    step; the clock, the scheduler and what a job returns are the steps'
    choices. *)
From stdpp Require Import base gmap strings.
From S2P Require Import Prelude.

Module AssetGate.

Definition ASSET_PROCESSING_PERMITS : nat := 2.

(** A panic's payload, and the message taken from it. *)
Inductive payload := StaticStr (s : string) | OwnedString (s : string) | Opaque.
Definition panic_message (p : payload) : string :=
  match p with StaticStr s => s | OwnedString s => s | Opaque => "non-string panic payload" end.

Section gate.
(** [T] is what a job returns. *)
Context {T : Type}.

(** [Result<T, AssetBoundaryError>]; [limit] is in nanoseconds. *)
Inductive outcome :=
  | Answered (r : T)
  | AdmissionTimedOut (limit : N)
  | ExecutionTimedOut (limit : N)
  | Panicked (message : string)
  | AdmissionFailed (message : string).

(** Where a caller of [execute] is. *)
Inductive phase :=
  | Building            (* [executor]: the cell was empty, a pool is being built *)
  | Trying              (* about to take the lock in [acquire] *)
  | Sleeping            (* in [wait_timeout] *)
  | WithPermit            (* holds the permit, about to check the deadline *)
  | Awaiting            (* in [recv_timeout] *)
  | Returned (o : outcome).

(** A job handed to the pool; it holds its caller's permit until it is dropped. *)
Inductive job :=
  | Queued
  | Working
  | Replied (o : outcome)     (* sent, the permit about to be dropped *)
  | Released (o : outcome).

Record caller := { limit : N; phase_of : phase }.

Record gate := {
  built : bool;               (* [EXECUTOR] is set *)
  available : nat;
  callers : gmap N caller;
  jobs : gmap N job;
  expired : gset N;           (* the callers whose deadline has passed *)
}.

Definition new_gate : gate :=
  {| built := false; available := ASSET_PROCESSING_PERMITS; callers := ∅; jobs := ∅; expired := ∅ |}.

Definition set_phase (t : N) (p : phase) (m : gmap N caller) : gmap N caller :=
  match m !! t with Some c => <[t := {| limit := limit c; phase_of := p |}]> m | None => m end.

Definition with_callers (m : gmap N caller) (s : gate) : gate :=
  {| built := built s; available := available s; callers := m; jobs := jobs s; expired := expired s |}.
Definition with_available (n : nat) (s : gate) : gate :=
  {| built := built s; available := n; callers := callers s; jobs := jobs s; expired := expired s |}.
Definition with_job (t : N) (j : job) (s : gate) : gate :=
  {| built := built s; available := available s; callers := callers s;
     jobs := <[t := j]> (jobs s); expired := expired s |}.
Definition move (t : N) (p : phase) (s : gate) : gate := with_callers (set_phase t p (callers s)) s.

Definition is_sleeping (c : caller) : nat := match phase_of c with Sleeping => 1 | _ => 0 end.
Definition is_trying (c : caller) : nat := match phase_of c with Trying => 1 | _ => 0 end.
Definition is_admitted (c : caller) : nat := match phase_of c with WithPermit => 1 | _ => 0 end.
Definition holds_permit (j : job) : nat := match j with Released _ => 0 | _ => 1 end.
Definition is_working (j : job) : nat := match j with Working => 1 | _ => 0 end.

(** [notify_one]: some sleeper wakes, if there is one; which is [woken]. *)
Definition notify_one (woken : option N) (s : gate) : option gate :=
  match woken with
  | Some w => c ← callers s !! w;
              match phase_of c with Sleeping => Some (move w Trying s) | _ => None end
  | None => if decide (tally is_sleeping (callers s) = 0) then Some s else None
  end.

Definition release (woken : option N) (s : gate) : option gate :=
  notify_one woken (with_available (S (available s)) s).

(** One turn of the loop of [acquire], under the lock. *)
Definition acquire (t : N) (c : caller) (woken : option N) (s : gate) : option gate :=
  if decide (t ∈ expired s) then
    let s := move t (Returned (AdmissionTimedOut (limit c))) s in
    if decide (0 < available s) then notify_one woken s else Some s
  else if decide (0 < available s) then Some (move t WithPermit (with_available (pred (available s)) s))
  else Some (move t Sleeping s).

(** The rest of [submit] up to the hand-over to the pool. *)
Definition submit (t : N) (c : caller) (woken : option N) (s : gate) : option gate :=
  if decide (t ∈ expired s) then release woken (move t (Returned (AdmissionTimedOut (limit c))) s)
  else Some (with_job t Queued (move t Awaiting s)).

(** The pool takes a job: it runs, or finds its deadline passed. *)
Definition begin_job (t : N) (c : caller) (s : gate) : gate :=
  with_job t (if decide (t ∈ expired s) then Replied (ExecutionTimedOut (limit c)) else Working) s.

Inductive action :=
  | Enter (t : N) (limit : N)               (* [execute] *)
  | Built (t : N) (failure : option string) (* [AssetExecutor::new] returned *)
  | Acquire (t : N) (woken : option N)
  | Submit (t : N) (woken : option N)
  | Begin (t : N)
  | Work (t : N) (r : T + payload)          (* the work returned or panicked *)
  | Release (t : N) (woken : option N)
  | Receive (t : N)
  | GiveUp (t : N)                          (* [recv_timeout] timed out *)
  | Wake (t : N)                            (* a wait timed out, or woke for nothing *)
  | Expire (t : N).

Definition step (a : action) (s : gate) : option gate :=
  match a with
  | Enter t limit =>
      match callers s !! t with
      | None => Some (with_callers
                  (<[t := {| limit := limit; phase_of := if built s then Trying else Building |}]> (callers s)) s)
      | Some _ => None
      end
  | Built t failure =>
      c ← callers s !! t;
      match phase_of c, failure with
      | Building, Some m => Some (move t (Returned (AdmissionFailed m)) s)
      | Building, None => Some (move t Trying
          {| built := true; available := available s; callers := callers s;
             jobs := jobs s; expired := expired s |})
      | _, _ => None
      end
  | Acquire t woken =>
      c ← callers s !! t; match phase_of c with Trying => acquire t c woken s | _ => None end
  | Submit t woken =>
      c ← callers s !! t; match phase_of c with WithPermit => submit t c woken s | _ => None end
  | Begin t =>
      c ← callers s !! t;
      match jobs s !! t with
      | Some Queued => if decide (tally is_working (jobs s) < ASSET_PROCESSING_PERMITS)
                       then Some (begin_job t c s) else None
      | _ => None
      end
  | Work t r =>
      match jobs s !! t with
      | Some Working =>
          Some (with_job t (Replied match r with inl r => Answered r | inr p => Panicked (panic_message p) end) s)
      | _ => None
      end
  | Release t woken =>
      match jobs s !! t with
      | Some (Replied o) => release woken (with_job t (Released o) s)
      | _ => None
      end
  | Receive t =>
      c ← callers s !! t;
      match phase_of c, jobs s !! t with
      | Awaiting, Some (Replied o) | Awaiting, Some (Released o) => Some (move t (Returned o) s)
      | _, _ => None
      end
  | GiveUp t =>
      c ← callers s !! t;
      match phase_of c, jobs s !! t with
      | Awaiting, Some Queued | Awaiting, Some Working =>
          if decide (t ∈ expired s) then Some (move t (Returned (ExecutionTimedOut (limit c))) s) else None
      | _, _ => None
      end
  | Wake t =>
      c ← callers s !! t; match phase_of c with Sleeping => Some (move t Trying s) | _ => None end
  | Expire t =>
      Some {| built := built s; available := available s; callers := callers s; jobs := jobs s;
              expired := {[t]} ∪ expired s |}
  end.

Inductive reachable : gate → Prop :=
  | reach_new : reachable new_gate
  | reach_step a s s' : reachable s → step a s = Some s' → reachable s'.

(** ** The invariant *)

Definition replied (j : job) : option outcome :=
  match j with Replied o | Released o => Some o | _ => None end.

(** What a job can have replied. *)
Definition job_ok (s : gate) (t : N) (c : caller) (j : job) : Prop :=
  match replied j with
  | Some (ExecutionTimedOut l) => t ∈ expired s ∧ l = limit c
  | Some (AdmissionTimedOut _ | AdmissionFailed _) => False
  | _ => True
  end.

(** What a caller can have been told. *)
Definition caller_ok (s : gate) (t : N) (c : caller) : Prop :=
  match phase_of c with
  | Building | Trying | Sleeping | WithPermit | Returned (AdmissionFailed _) => jobs s !! t = None
  | Awaiting => is_Some (jobs s !! t)
  | Returned (AdmissionTimedOut l) => t ∈ expired s ∧ l = limit c ∧ jobs s !! t = None
  | Returned (ExecutionTimedOut l) => t ∈ expired s ∧ l = limit c ∧ is_Some (jobs s !! t)
  | Returned o => (j ← jobs s !! t; replied j) = Some o
  end.

(** [debt] is the number of wakes a step still owes. *)
Record inv (debt : nat) (s : gate) : Prop := {
  inv_permits : available s + tally is_admitted (callers s) + tally holds_permit (jobs s)
                = ASSET_PROCESSING_PERMITS;
  inv_wake : tally is_sleeping (callers s) ≠ 0 → available s ≤ tally is_trying (callers s) + debt;
  inv_caller : ∀ t c, callers s !! t = Some c → caller_ok s t c;
  inv_job : ∀ t j, jobs s !! t = Some j → ∃ c, callers s !! t = Some c ∧ job_ok s t c j;
}.

Lemma gate_inv_new : inv 0 new_gate.
Proof. by split. Qed.

Lemma set_phase_insert t p m c :
  m !! t = Some c → set_phase t p m = <[t := {| limit := limit c; phase_of := p |}]> m.
Proof. intros Hc. unfold set_phase. by rewrite Hc. Qed.

Lemma move_callers t p s c :
  callers s !! t = Some c →
  callers (move t p s) = <[t := {| limit := limit c; phase_of := p |}]> (callers s).
Proof. apply set_phase_insert. Qed.

Lemma move_tally f t p s c :
  callers s !! t = Some c →
  tally f (callers (move t p s)) + f c = tally f (callers s) + f {| limit := limit c; phase_of := p |}.
Proof. intros Hc. rewrite (move_callers _ _ _ _ Hc). by apply tally_insert. Qed.

(** Moving one caller keeps the others, and the jobs. *)
Lemma move_ok t p s c :
  callers s !! t = Some c → caller_ok s t {| limit := limit c; phase_of := p |} →
  (∀ t c, callers s !! t = Some c → caller_ok s t c) →
  ∀ t' c', callers (move t p s) !! t' = Some c' → caller_ok (move t p s) t' c'.
Proof.
  intros Hc Hp Ho t' c'. rewrite (move_callers _ _ _ _ Hc).
  intros [[<- <-]|[_ ?]]%lookup_insert_Some; [apply Hp|by apply (Ho t')].
Qed.

Lemma move_jobs_ok t p s c :
  callers s !! t = Some c →
  (∀ t j, jobs s !! t = Some j → ∃ c, callers s !! t = Some c ∧ job_ok s t c j) →
  ∀ t' j, jobs (move t p s) !! t' = Some j →
  ∃ c, callers (move t p s) !! t' = Some c ∧ job_ok (move t p s) t' c j.
Proof.
  intros Hc Hj t' j Hj'. destruct (Hj t' j Hj') as (c' & Hc' & Hok).
  rewrite (move_callers _ _ _ _ Hc). destruct (decide (t = t')) as [<-|Hne].
  - eexists. rewrite lookup_insert_eq. split; [done|]. simplify_eq. apply Hok.
  - exists c'. by rewrite lookup_insert_ne.
Qed.

Lemma inv_move t p n e d s c :
  inv d s → callers s !! t = Some c →
  caller_ok s t {| limit := limit c; phase_of := p |} →
  n + is_admitted {| limit := limit c; phase_of := p |} = available s + is_admitted c →
  (n = 0 ∨ is_sleeping {| limit := limit c; phase_of := p |} ≤ is_sleeping c ∧
           n + is_trying c ≤ available s + is_trying {| limit := limit c; phase_of := p |} + e) →
  inv (d + e) (move t p (with_available n s)).
Proof.
  intros [Hp Hw Hc Hj] Ht Hok Hn Hs.
  pose proof (move_tally is_admitted t p s c Ht) as Ha.
  pose proof (move_tally is_sleeping t p s c Ht) as Hsl.
  pose proof (move_tally is_trying t p s c Ht) as Htr.
  split.
  - cbn [available jobs move with_callers with_available callers] in *. lia.
  - cbn [available jobs move with_callers with_available callers] in *.
    intros Hs'. destruct Hs as [->|[? ?]]; lia.
  - by apply (move_ok t p (with_available n s) c).
  - by apply (move_jobs_ok t p (with_available n s) c).
Qed.

Lemma inv_move_same t p s c :
  inv 0 s → callers s !! t = Some c →
  caller_ok s t {| limit := limit c; phase_of := p |} →
  is_admitted {| limit := limit c; phase_of := p |} = is_admitted c →
  (available s = 0 ∨ is_sleeping {| limit := limit c; phase_of := p |} ≤ is_sleeping c ∧
           is_trying c ≤ is_trying {| limit := limit c; phase_of := p |}) →
  inv 0 (move t p s).
Proof.
  intros Hi Hc Hok Ha Hs. pose proof (inv_move t p (available s) 0 0 s c) as H.
  destruct s. apply H; try done; [cbn in *; lia|]. destruct Hs as [?|[? ?]]; [by left|right; lia].
Qed.

(** One wake pays one debt. *)
Lemma inv_notify woken s s' : inv 1 s → notify_one woken s = Some s' → inv 0 s'.
Proof.
  intros Hi. destruct woken as [w|]; cbn [notify_one].
  - destruct (callers s !! w) as [c|] eqn:Hc; [|done]. cbn.
    destruct c as [l []]; try done. cbn [phase_of]. intros [= <-].
    destruct Hi as [Hp Hw Hcs Hj].
    pose proof (move_tally is_admitted w Trying s _ Hc) as Ha.
    pose proof (move_tally is_sleeping w Trying s _ Hc) as Hsl.
    pose proof (move_tally is_trying w Trying s _ Hc) as Htr. cbn in Ha, Hsl, Htr.
    pose proof (tally_pos is_sleeping (callers s) w _ Hc) as Hpos. cbn in Hpos.
    split.
    + cbn [available jobs move with_callers callers] in *. lia.
    + cbn [available jobs move with_callers callers] in *. lia.
    + apply (move_ok w Trying s _ Hc); [|done]. apply (Hcs w _ Hc).
    + by apply (move_jobs_ok w Trying s _ Hc).
  - case_decide as Hz; [|done]. intros [= <-]. by destruct Hi.
Qed.

(** A job moves on, possibly giving its permit back. *)
Lemma inv_with_job t j j' n e d s :
  inv d s → jobs s !! t = Some j →
  (∀ c, callers s !! t = Some c → job_ok s t c j → job_ok s t c j') →
  (∀ o, replied j = Some o → replied j' = Some o) →
  n + holds_permit j' = available s + holds_permit j → n ≤ available s + e →
  inv (d + e) (with_available n (with_job t j' s)).
Proof.
  intros [Hp Hw Hc Hj] Ht Hok Hr Hn He.
  pose proof (tally_insert holds_permit (jobs s) t j j' Ht) as Hh.
  split; cbn [available jobs callers expired with_available with_job].
  - lia.
  - intros Hs. specialize (Hw Hs). lia.
  - intros t' c Ht'. specialize (Hc t' c Ht'). unfold caller_ok in *. cbn.
    destruct (decide (t = t')) as [<-|Hne]; [|by rewrite lookup_insert_ne].
    rewrite lookup_insert_eq. rewrite Ht in Hc. cbn in Hc.
    destruct (phase_of c) as [| | | | |[]]; naive_solver.
  - intros t' j0 [[<- <-]|[Hne Hj0]]%lookup_insert_Some; [|by apply (Hj t')].
    destruct (Hj t j Ht) as (c & Hcc & Hjok). exists c. split; [done|]. by apply Hok.
Qed.

Lemma inv_acquire t c woken s s' :
  inv 0 s → callers s !! t = Some c → phase_of c = Trying → acquire t c woken s = Some s' → inv 0 s'.
Proof.
  intros Hi Hc Hp. pose proof (inv_caller _ _ Hi _ _ Hc) as Hok.
  destruct c as [l p]. cbn in Hp. subst p. cbn in Hok. unfold acquire.
  case_decide as He; [|case_decide as Ha; intros [= <-]].
  - assert (inv 1 (move t (Returned (AdmissionTimedOut l)) s)) as Hm.
    { destruct s. apply (inv_move t _ _ 1 0 _ _ Hi Hc); cbn in *; [done|lia|]. right. lia. }
    cbn [limit available move with_callers]. case_decide as Ha; [by apply inv_notify|].
    intros [= <-]. apply (inv_move_same t _ s _ Hi Hc); cbn; [done|done|]. left. lia.
  - apply (inv_move t _ _ 0 0 _ _ Hi Hc); cbn; [done|lia|]. right. lia.
  - apply (inv_move_same t _ s _ Hi Hc); cbn; [done|done|]. left. lia.
Qed.

Lemma gate_inv_submit t c woken s s' :
  inv 0 s → callers s !! t = Some c → phase_of c = WithPermit → submit t c woken s = Some s' → inv 0 s'.
Proof.
  intros Hi Hc Hp. pose proof (inv_caller _ _ Hi _ _ Hc) as Hok.
  destruct c as [l p]. cbn in Hp. subst p. cbn in Hok. unfold submit. case_decide as He.
  - apply inv_notify.
    apply (inv_move t _ _ 1 0 _ _ Hi Hc); cbn; [done|lia|]. right. lia.
  - intros [= <-]. destruct Hi as [Hp Hw Hcs Hj].
    pose proof (move_tally is_admitted t Awaiting s _ Hc) as Ha.
    pose proof (move_tally is_sleeping t Awaiting s _ Hc) as Hsl.
    pose proof (move_tally is_trying t Awaiting s _ Hc) as Htr. cbn in Ha, Hsl, Htr.
    split; cbn [available jobs with_job callers move with_callers] in *.
    + rewrite tally_insert_new by done. cbn. lia.
    + lia.
    + intros t' c'. rewrite (set_phase_insert t Awaiting _ _ Hc). unfold caller_ok. cbn.
      intros [[<- <-]|[Hne Hc']]%lookup_insert_Some; [cbn; by rewrite lookup_insert_eq|].
      rewrite lookup_insert_ne by done. by apply Hcs.
    + intros t' j. rewrite (set_phase_insert t Awaiting _ _ Hc).
      intros [[<- <-]|[Hne Hj']]%lookup_insert_Some.
      * eexists. by rewrite lookup_insert_eq.
      * rewrite lookup_insert_ne by done. by apply (Hj t').
Qed.

Lemma inv_enter t c s :
  inv 0 s → callers s !! t = None → phase_of c = Trying ∨ phase_of c = Building →
  inv 0 (with_callers (<[t := c]> (callers s)) s).
Proof.
  intros [Hp Hw Hcs Hj] Ht Hc.
  assert (is_admitted c = 0 ∧ is_sleeping c = 0) as [Ha Hs]
    by (destruct c as [l []]; cbn in *; naive_solver).
  split; cbn; rewrite ?tally_insert_new by done; [lia|rewrite Hs; cbn; lia|..].
  - intros t' c' [[<- <-]|[Hne Hc']]%lookup_insert_Some; [|by apply Hcs].
    assert (jobs s !! t = None) as Hn.
    { apply eq_None_ne_Some. intros j Hjj. destruct (Hj t j Hjj) as (? & ? & _). congruence. }
    unfold caller_ok. cbn. by destruct Hc as [-> | ->].
  - intros t' j Hj'. destruct (Hj t' j Hj') as (c' & Hc' & Hok). exists c'.
    split; [|done]. by rewrite lookup_insert_ne by congruence.
Qed.

Lemma inv_expire t s :
  inv 0 s → inv 0 {| built := built s; available := available s; callers := callers s;
                     jobs := jobs s; expired := {[t]} ∪ expired s |}.
Proof.
  intros [Hp Hw Hcs Hj]. split; cbn; try done.
  - intros t' c Hc. specialize (Hcs t' c Hc). unfold caller_ok in *. cbn.
    destruct (phase_of c) as [| | | | |[]]; try done; set_solver.
  - intros t' j Hjj. destruct (Hj t' j Hjj) as (c & Hc & Hok). exists c. split; [done|].
    unfold job_ok in *. cbn. destruct (replied j) as [[]|]; try done; set_solver.
Qed.

Lemma inv_answered t p s c :
  inv 0 s → callers s !! t = Some c → phase_of c = Awaiting →
  caller_ok s t {| limit := limit c; phase_of := Returned p |} → inv 0 (move t (Returned p) s).
Proof.
  intros Hi Hc Hp Hok. apply (inv_move_same t _ s c); try done; unfold is_admitted, is_sleeping, is_trying;
    cbn; rewrite Hp; [done|]. by right.
Qed.

Lemma gate_inv_step a s s' : inv 0 s → step a s = Some s' → inv 0 s'.
Proof.
  intros Hi. destruct a as [t l|t f|t w|t w|t|t r|t w|t|t|t|t]; cbn [step];
    try (destruct (callers s !! t) as [c|] eqn:Hc; cbn [mbind option_bind]; [|done]).
  - destruct (callers s !! t) as [c|] eqn:Hc; [done|]. intros [= <-].
    apply inv_enter; [done..|]. cbn. destruct (built s); auto.
  - destruct c as [l []]; try done. cbn [phase_of].
    destruct f as [m|]; intros [= <-].
    + by apply (inv_move_same t _ s _ Hi Hc); [apply (inv_caller _ _ Hi _ _ Hc)| |right].
    + apply (inv_move_same t Trying _ {| limit := l; phase_of := Building |}); try done.
      * by destruct Hi.
      * apply (inv_caller _ _ Hi _ _ Hc).
      * right. cbn. lia.
  - destruct (phase_of c) eqn:Hp; try done. by apply inv_acquire.
  - destruct (phase_of c) eqn:Hp; try done. by apply gate_inv_submit.
  - destruct (jobs s !! t) as [[]|] eqn:Hj; try done. case_decide; [|done]. intros [= <-].
    unfold begin_job.
    assert (∀ j, with_job t j s = with_available (available s) (with_job t j s)) as -> by (by destruct s).
    apply (inv_with_job t Queued _ _ 0 0 s Hi Hj); try done.
    + intros c' Hc' _. simplify_eq. unfold job_ok. case_decide; cbn; auto.
    + case_decide; cbn; lia.
    + lia.
  - destruct (jobs s !! t) as [[]|] eqn:Hj; try done. intros [= <-].
    assert (∀ j, with_job t j s = with_available (available s) (with_job t j s)) as -> by (by destruct s).
    apply (inv_with_job t Working _ _ 0 0 s Hi Hj); try done; [|cbn; lia].
    intros c' Hc' _. by destruct r.
  - destruct (jobs s !! t) as [[]|] eqn:Hj; try done. unfold release. apply inv_notify.
    apply (inv_with_job t _ _ _ 1 0 s Hi Hj); try done; cbn; lia.
  - pose proof (inv_caller _ _ Hi _ _ Hc) as Hok.
    destruct (phase_of c) eqn:Hp; try done.
    destruct (jobs s !! t) as [j|] eqn:Hj; [|done].
    destruct (inv_job _ _ Hi _ _ Hj) as (c' & Hc' & Hjok). simplify_eq.
    destruct j as [| |o|o]; try done; intros [= <-]; apply (inv_answered t o s c Hi Hc Hp);
      unfold caller_ok, job_ok in *; cbn in *; rewrite Hj; destruct o; naive_solver.
  - pose proof (inv_caller _ _ Hi _ _ Hc) as Hok.
    destruct (phase_of c) eqn:Hp; try done.
    destruct (jobs s !! t) as [[]|] eqn:Hj; try done; case_decide; try done; intros [= <-];
      apply (inv_answered t _ s c Hi Hc Hp); unfold caller_ok; cbn; rewrite Hj; split_and!; eauto.
  - destruct c as [l []]; try done. cbn [phase_of]. intros [= <-].
    apply (inv_move_same t Trying s _ Hi Hc); cbn; [|done|right; lia].
    apply (inv_caller _ _ Hi _ _ Hc).
  - intros [= <-]. by apply inv_expire.
Qed.

Lemma reachable_gate_inv s : reachable s → inv 0 s.
Proof. induction 1; [apply gate_inv_new|by eapply gate_inv_step]. Qed.

(** ** Progress *)

Lemma notify_total s : ∃ woken s', notify_one woken s = Some s'.
Proof.
  destruct (decide (tally is_sleeping (callers s) = 0)) as [Hz|Hz].
  - exists None, s. cbn. by rewrite decide_True.
  - apply tally_exists in Hz as (w & [l []] & Hw & Hs); try done.
    exists (Some w). eexists. cbn. by rewrite Hw.
Qed.

(** A step that ends, or moves on, some caller's request. *)
Definition advances (a : action) : Prop :=
  match a with Enter _ _ | Expire _ | Wake _ => False | _ => True end.
Definition can_advance (s : gate) : Prop := ∃ a s', advances a ∧ step a s = Some s'.

Lemma trying_advances s t c : callers s !! t = Some c → phase_of c = Trying → can_advance s.
Proof.
  intros Hc Hp. destruct (decide (t ∈ expired s ∧ 0 < available s)) as [[He Ha]|Hn].
  - destruct (notify_total (move t (Returned (AdmissionTimedOut (limit c))) s)) as (w & s' & Hw).
    exists (Acquire t w), s'. split; [done|]. cbn [step]. rewrite Hc. cbn. rewrite Hp. unfold acquire.
    rewrite decide_True by done. cbn [available move with_callers]. by rewrite decide_True.
  - exists (Acquire t None). cbn. rewrite Hc. cbn. rewrite Hp. unfold acquire.
    repeat case_decide; try (eexists; split; done). exfalso. by apply Hn.
Qed.

Lemma admitted_advances s t c : callers s !! t = Some c → phase_of c = WithPermit → can_advance s.
Proof.
  intros Hc Hp.
  destruct (notify_total (with_available (S (available s))
    (move t (Returned (AdmissionTimedOut (limit c))) s))) as (w & s' & Hw).
  exists (Submit t w). cbn. rewrite Hc. cbn. rewrite Hp. unfold submit. case_decide.
  - exists s'. split; [done|]. apply Hw.
  - eexists. split; done.
Qed.

Lemma held_job_advances s t j :
  inv 0 s → jobs s !! t = Some j → holds_permit j ≠ 0 → can_advance s.
Proof.
  intros Hi Hj Hh. destruct (inv_job _ _ Hi _ _ Hj) as (c & Hc & _).
  destruct j as [| |o|o]; [| | |done].
  - destruct (decide (tally is_working (jobs s) < ASSET_PROCESSING_PERMITS)) as [Hlt|Hge].
    + exists (Begin t). eexists. split; [done|]. cbn. rewrite Hc, Hj. cbn. by rewrite decide_True.
    + destruct (tally_exists is_working (jobs s)) as (t' & j & Hj' & Hw).
      { unfold ASSET_PROCESSING_PERMITS in Hge. lia. }
      exists (Work t' (inr Opaque)). eexists. split; [done|]. cbn. rewrite Hj'.
      by destruct j.
  - exists (Work t (inr Opaque)). eexists. split; [done|]. cbn. by rewrite Hj.
  - destruct (notify_total (with_available (S (available s)) (with_job t (Released o) s))) as (w & s' & Hw).
    exists (Release t w), s'. split; [done|]. cbn. rewrite Hj. apply Hw.
Qed.

Lemma gate_progress s t c :
  inv 0 s → callers s !! t = Some c → (∀ o, phase_of c ≠ Returned o) → can_advance s.
Proof.
  intros Hi Hc Hn. destruct (phase_of c) eqn:Hp; [..|by destruct (Hn o)].
  - exists (Built t None). eexists. split; [done|]. cbn. rewrite Hc. cbn. by rewrite Hp.
  - by eapply trying_advances.
  - assert (tally is_sleeping (callers s) ≠ 0) as Hs.
    { pose proof (tally_pos is_sleeping (callers s) t c Hc) as H. unfold is_sleeping at 1 in H.
      rewrite Hp in H. lia. }
    pose proof (inv_wake _ _ Hi Hs) as Hw. pose proof (inv_permits _ _ Hi) as Hsum.
    unfold ASSET_PROCESSING_PERMITS in Hsum.
    destruct (decide (tally is_trying (callers s) = 0)) as [Htr|Htr].
    + destruct (decide (tally is_admitted (callers s) = 0)) as [Had|Had].
      * destruct (tally_exists holds_permit (jobs s)) as (t' & j & Hj & Hh); [lia|].
        by eapply held_job_advances.
      * apply tally_exists in Had as (t' & c' & Hc' & Ha). apply (admitted_advances s t' c' Hc').
        unfold is_admitted in Ha. by destruct (phase_of c').
    + apply tally_exists in Htr as (t' & c' & Hc' & Ha). apply (trying_advances s t' c' Hc').
      unfold is_trying in Ha. by destruct (phase_of c').
  - by eapply admitted_advances.
  - pose proof (inv_caller _ _ Hi _ _ Hc) as Hok. unfold caller_ok in Hok. rewrite Hp in Hok.
    destruct Hok as [j Hj]. destruct (decide (holds_permit j = 0)) as [Hz|Hz];
      [|by eapply held_job_advances].
    destruct j as [| | |o]; try done. exists (Receive t). eexists. split; [done|].
    cbn. rewrite Hc. cbn. by rewrite Hp, Hj.
Qed.

(** ** What the boundary promises *)

(** The asset boundary under every interleaving of callers, workers,
    deadlines and wakes. Its two permits are conserved: free ones, those of
    admitted callers and those of jobs add up to two, so no more than two jobs
    are ever queued, running or not yet dropped, timed-out ones included. No
    wake is lost: while a caller sleeps, every free permit has an awake caller
    about to take it. A caller is told what its own job replied, or, only once
    its deadline has passed, that admission (no job was ever queued) or
    execution timed out. And while any request is open, some step other than
    an arrival, a wake or the passing of time can be made. *)
Theorem asset_gate_conserves_permits s :
  reachable s →
  available s + tally is_admitted (callers s) + tally holds_permit (jobs s) = ASSET_PROCESSING_PERMITS ∧
  (tally is_sleeping (callers s) ≠ 0 → available s ≤ tally is_trying (callers s)) ∧
  (∀ t c o, callers s !! t = Some c → phase_of c = Returned o →
     match o with
     | Answered _ | Panicked _ => (j ← jobs s !! t; replied j) = Some o
     | AdmissionTimedOut l => t ∈ expired s ∧ l = limit c ∧ jobs s !! t = None
     | ExecutionTimedOut l => t ∈ expired s ∧ l = limit c ∧ is_Some (jobs s !! t)
     | AdmissionFailed _ => jobs s !! t = None
     end) ∧
  (∀ t c, callers s !! t = Some c → (∀ o, phase_of c ≠ Returned o) → can_advance s).
Proof.
  intros Hi%reachable_gate_inv. split_and!.
  - apply Hi.
  - intros Hs. pose proof (inv_wake _ _ Hi Hs). lia.
  - intros t c o Hc Hp. pose proof (inv_caller _ _ Hi _ _ Hc) as Hok. unfold caller_ok in Hok.
    rewrite Hp in Hok. by destruct o.
  - intros t c. by apply gate_progress.
Qed.

Fixpoint run (l : list action) (s : gate) : option gate :=
  match l with
  | [] => Some s
  | a :: l => s' ← step a s; run l s'
  end.

Lemma gate_run_reachable l s s' : reachable s → run l s = Some s' → reachable s'.
Proof.
  revert s. induction l as [|a l IH]; intros s Hs; cbn [run]; [by intros [= <-]|].
  destruct (step a s) as [s1|] eqn:E; [|done]. apply IH. by eapply reach_step.
Qed.
End gate.
#[global] Arguments gate : clear implicits.
#[global] Arguments action : clear implicits.

(** ** Witness: two jobs running, a third caller asleep whose deadline has
    passed, and a fourth asleep *)

Definition crowded : list (action N) :=
  [Enter 1 5; Built 1 None; Enter 2 5; Enter 3 5; Enter 4 5;
   Acquire 1 None; Submit 1 None; Begin 1; Acquire 2 None; Submit 2 None; Begin 2;
   Acquire 3 None; Acquire 4 None; Expire 3; Work 1 (inl 7);
   Release 1 (Some 3); Acquire 3 (Some 4); Receive 1]%N.

Lemma crowded_runs : ∃ s, run crowded new_gate = Some s ∧
  callers s !! 1%N = Some {| limit := 5; phase_of := Returned (Answered 7%N) |} ∧
  callers s !! 4%N = Some {| limit := 5; phase_of := Trying |} ∧ available s = 1.
Proof. eexists. split; [vm_compute; reflexivity|]. by split_and!. Qed.

Lemma asset_gate_conserves_permits_witness :
  ∃ s : gate N, reachable s ∧ available s = 1 ∧
    1 + tally is_admitted (callers s) + tally holds_permit (jobs s) = ASSET_PROCESSING_PERMITS.
Proof.
  destruct crowded_runs as (s & Hr & _ & _ & Ha). exists s.
  assert (reachable s) as Hs by exact (gate_run_reachable _ _ _ reach_new Hr).
  split; [exact Hs|]. split; [exact Ha|].
  pose proof (proj1 (asset_gate_conserves_permits s Hs)) as H. rewrite Ha in H. exact H.
Defined.
End AssetGate.
