(* ===== verification/RegistryCache.v ===== *)
(** The registry metadata store (registry/cache.rs): one map of npm metadata in
    each daemon, persisted as a whole in a file every daemon shares.  A persist
    is a union with the file, a clear and a compaction are not; what a clear
    removed must not come back through a sibling that still holds it. *)
From stdpp Require Import base gmap strings sorting.
From S2P Require Import Prelude.

(** ** Entries and snapshots (registry/types.rs) *)

Record RegistryPackageMetadata := {
  latest_version : option string;
  latest_published_at : option string;
  deprecated_versions : list string;
}.
Record RegistryPackageMetadataEntry := {
  metadata : option RegistryPackageMetadata;
  updated_at : N;
  retry_after : option N;
  error : option string;
  not_found : bool;
}.
Abbreviation Entry := RegistryPackageMetadataEntry.
Abbreviation Entries := (gmap string Entry).

#[export] Instance metadata_eq_dec : EqDecision RegistryPackageMetadata.
Proof. solve_decision. Defined.
#[export] Instance entry_eq_dec : EqDecision RegistryPackageMetadataEntry.
Proof. solve_decision. Defined.

Record RegistrySnapshot := { schema_version : N; snap_entries : Entries; snap_cleared_at : N }.
Definition default_snapshot : RegistrySnapshot :=
  {| schema_version := 0; snap_entries := ∅; snap_cleared_at := 0 |}.

Definition REGISTRY_PERSIST_BATCH : N := 16.
Definition REGISTRY_SCHEMA_VERSION : N := 1.
Definition REGISTRY_RETENTION_MS : N := 30 * 24 * 60 * 60 * 1000.

(** serde_json: how a snapshot and an entry are written and read. [text] is
    the text of a file; [None] is a failure. *)
Class SerdeJson := {
  text : Type;
  text_len : text → N;
  snapshot_to_vec : RegistrySnapshot → option text;
  snapshot_from_str : text → option RegistrySnapshot;
  entry_to_vec : Entry → option text;
}.

(** What is written is read back. *)
Class SerdeRoundTrip `{SerdeJson} : Prop :=
  from_to s t : snapshot_to_vec s = Some t → snapshot_from_str t = Some s.

Section store.
Context `{SJ : SerdeJson, HO : HashOrder}.

(** [cleared_at] is measured at its widest. *)
Definition snapshot_bytes (entries : Entries) : N :=
  match snapshot_to_vec {| schema_version := REGISTRY_SCHEMA_VERSION; snap_entries := entries;
                           snap_cleared_at := u64_max |} with
  | Some bytes => text_len bytes
  | None => 0%N
  end.

Definition entry_footprint (key : string) (entry : Entry) : N :=
  N.of_nat (String.length key) + default 0%N (text_len <$> entry_to_vec entry) + 4.

(** ** The helpers *)

Definition unexpired (now_ms retention_ms : N) (entry : Entry) : bool :=
  match retry_after entry with Some retry_at => now_ms <? retry_at | None => false end%N ||
  (sat_sub now_ms (updated_at entry) <=? retention_ms)%N.

Definition prune_expired_entries (entries : Entries) (now_ms retention_ms : N) : nat * Entries :=
  let kept := filter (λ p : string * Entry, unexpired now_ms retention_ms p.2 = true) entries in
  (size entries - size kept, kept).

(** [HashMap::insert] over the other map's entries, in whatever order they come. *)
Definition merge_one (entries : Entries) (p : string * Entry) : Entries :=
  let keep_ours := match entries !! p.1 with
                   | Some ours => bool_decide (updated_at p.2 <= updated_at ours)%N
                   | None => false
                   end in
  if keep_ours then entries else <[p.1 := p.2]> entries.
Definition merge_newest (entries on_disk : Entries) : Entries :=
  foldl merge_one entries (hash_iter on_disk).

Definition age_cmp : N * string → N * string → comparison := cmp_lex N.compare String.compare.
(** The keys, oldest first. *)
Definition by_age (entries : Entries) : list (N * string) :=
  sort age_cmp ((λ p : string * Entry, (updated_at p.2, p.1)) <$> hash_iter entries).

(** The first phase: it stops on the first key it does not evict, and that key
    has left the iterator by then. *)
Fixpoint evict_estimated (max_bytes : N) (ordered : list (N * string)) (estimated : N)
    (evicted : nat) (entries : Entries) : list (N * string) * nat * Entries :=
  match ordered with
  | [] => ([], evicted, entries)
  | (_, key) :: rest =>
      if (estimated <=? max_bytes)%N then (rest, evicted, entries)
      else
        let footprint := match entries !! key with Some e => entry_footprint key e | None => 0%N end in
        evict_estimated max_bytes rest (sat_sub estimated footprint) (S evicted) (delete key entries)
  end.

(** The second: the exact size decides. *)
Fixpoint evict_exact (max_bytes : N) (ordered : list (N * string)) (evicted : nat)
    (entries : Entries) : nat * Entries :=
  if (snapshot_bytes entries <=? max_bytes)%N then (evicted, entries)
  else match ordered with
       | [] => (evicted, entries)
       | (_, key) :: rest => evict_exact max_bytes rest (S evicted) (delete key entries)
       end.

Definition evict_oldest_over_budget (entries : Entries) (max_bytes : N) : nat * Entries :=
  if (max_bytes =? 0)%N then (0, entries)
  else if (snapshot_bytes entries <=? max_bytes)%N then (0, entries)
  else
    let '(rest, evicted, entries') :=
      evict_estimated max_bytes (by_age entries) (snapshot_bytes entries) 0 entries in
    evict_exact max_bytes rest evicted entries'.

(** ** The cache *)

Record RegistryMetadataCache := {
  backed : bool;                     (* the path is not empty *)
  entries : Entries;
  cleared_at : N;
  unpersisted_writes : N;            (* a [usize] *)
  entries_poisoned : bool;
  persist_poisoned : bool;
}.

Definition set_entries (e : Entries) (c : RegistryMetadataCache) : RegistryMetadataCache :=
  {| backed := backed c; entries := e; cleared_at := cleared_at c;
     unpersisted_writes := unpersisted_writes c; entries_poisoned := entries_poisoned c;
     persist_poisoned := persist_poisoned c |}.
Definition set_cleared (at_ : N) (c : RegistryMetadataCache) : RegistryMetadataCache :=
  {| backed := backed c; entries := entries c; cleared_at := at_;
     unpersisted_writes := unpersisted_writes c; entries_poisoned := entries_poisoned c;
     persist_poisoned := persist_poisoned c |}.
Definition set_unpersisted (n : N) (c : RegistryMetadataCache) : RegistryMetadataCache :=
  {| backed := backed c; entries := entries c; cleared_at := cleared_at c;
     unpersisted_writes := n; entries_poisoned := entries_poisoned c;
     persist_poisoned := persist_poisoned c |}.

(** What the file system does for one operation: whether the file can be read,
    and whether the new one gets written (its directory made, its temporary
    renamed). *)
Record Io := { can_read : bool; can_write : bool }.
Abbreviation File := (option text).

Definition load_snapshot (io : Io) (file : File) : RegistrySnapshot :=
  match (if can_read io then file else None) with
  | Some contents =>
      match snapshot_from_str contents with
      | Some s => if (schema_version s =? REGISTRY_SCHEMA_VERSION)%N then s else default_snapshot
      | None => default_snapshot
      end
  | None => default_snapshot
  end.

Definition new_cache (io : Io) (file : File) : RegistryMetadataCache :=
  let snapshot := load_snapshot io file in
  {| backed := true; entries := snap_entries snapshot; cleared_at := snap_cleared_at snapshot;
     unpersisted_writes := 0; entries_poisoned := false; persist_poisoned := false |}.
Definition empty_cache : RegistryMetadataCache :=
  {| backed := false; entries := ∅; cleared_at := 0; unpersisted_writes := 0;
     entries_poisoned := false; persist_poisoned := false |}.

Definition adopt_clear (at_ : N) (c : RegistryMetadataCache) : RegistryMetadataCache :=
  if (cleared_at c <? at_)%N
  then set_cleared at_ (set_entries (filter (λ p : string * Entry, (at_ < updated_at p.2)%N) (entries c)) c)
  else c.

Definition get (package_name : string) (c : RegistryMetadataCache) : option Entry :=
  if entries_poisoned c then None else entries c !! package_name.
Definition get_many (package_names : list string) (c : RegistryMetadataCache) : list (option Entry) :=
  if entries_poisoned c then replicate (length package_names) None
  else (λ key, entries c !! key) <$> package_names.

(** [Result<(), String>]: [true] is [Ok]. With it, the text that was renamed
    over the file, if any. *)
Definition write_snapshot (io : Io) (snapshot : Entries) (c : RegistryMetadataCache) : bool * option text :=
  match snapshot_to_vec {| schema_version := REGISTRY_SCHEMA_VERSION; snap_entries := snapshot;
                           snap_cleared_at := cleared_at c |} with
  | Some bytes => if can_write io then (true, Some bytes) else (false, None)
  | None => (false, None)
  end.
(** The file after it. *)
Definition renamed (written : option text) (file : File) : File :=
  match written with Some bytes => Some bytes | None => file end.

(** ** The operations that reach the file

    Each reads the [file] as it is when it loads it, and answers what it renames
    over it. *)

Definition persist_snapshot (io : Io) (c : RegistryMetadataCache) (file : File) :
    bool * RegistryMetadataCache * option text :=
  if negb (backed c) then (true, c, None)
  else if persist_poisoned c then (false, c, None)
  else
    let on_disk := load_snapshot io file in
    if entries_poisoned c then (false, c, None)
    else
      let c := adopt_clear (snap_cleared_at on_disk) c in
      let '(ok, written) := write_snapshot io (merge_newest (entries c) (snap_entries on_disk)) c in
      (ok, c, written).

(** A failed persist restores the count, so that a later flush retries. *)
Definition flush (io : Io) (c : RegistryMetadataCache) (file : File) :
    bool * RegistryMetadataCache * option text :=
  let had := unpersisted_writes c in
  if (had =? 0)%N then (true, c, None)
  else
    let '(ok, c, written) := persist_snapshot io (set_unpersisted 0 c) file in
    if ok then (true, c, written)
    else (false, set_unpersisted (wrap_add (unpersisted_writes c) had) c, written).

Definition write_entry (io : Io) (package_name : string) (entry : Entry)
    (c : RegistryMetadataCache) (file : File) : bool * RegistryMetadataCache * option text :=
  if entries_poisoned c then (false, c, None)
  else
    let c := set_entries (<[package_name := entry]> (entries c)) c in
    let before := unpersisted_writes c in
    let c := set_unpersisted (wrap_add before 1) c in
    if (REGISTRY_PERSIST_BATCH <=? before + 1)%N then flush io c file else (true, c, None).

Definition write_metadata (io : Io) (package_name : string) (m : RegistryPackageMetadata) (at_ : N) :=
  write_entry io package_name
    {| metadata := Some m; updated_at := at_; retry_after := None; error := None; not_found := false |}.

Definition clear (io : Io) (now : N) (c : RegistryMetadataCache) :
    bool * RegistryMetadataCache * option text :=
  if negb (backed c) then
    (true, set_unpersisted 0 (if entries_poisoned c then c else set_entries ∅ c), None)
  else if persist_poisoned c then (false, c, None)
  else if entries_poisoned c then (false, c, None)
  else
    let c := set_unpersisted 0 (set_cleared (N.max (cleared_at c) now) (set_entries ∅ c)) in
    let '(ok, written) := write_snapshot io ∅ c in
    (ok, c, written).

(** The prune and, with a budget, the eviction. *)
Definition compact_entries (now_ms retention_ms : N) (max_bytes : option N) (e : Entries) : nat * Entries :=
  let '(removed, e) := prune_expired_entries e now_ms retention_ms in
  match max_bytes with
  | Some max_bytes => let '(evicted, e) := evict_oldest_over_budget e max_bytes in (removed + evicted, e)
  | None => (removed, e)
  end.

Definition compact_authoritatively (io : Io) (now_ms retention_ms : N) (max_bytes : option N)
    (c : RegistryMetadataCache) (file : File) : nat * RegistryMetadataCache * option text :=
  if negb (backed c) then
    if entries_poisoned c then (0, c, None)
    else let '(removed, e) := compact_entries now_ms retention_ms max_bytes (entries c) in
         (removed, set_unpersisted 0 (set_entries e c), None)
  else if persist_poisoned c then (0, c, None)
  else if entries_poisoned c then (0, c, None)
  else
    let on_disk := load_snapshot io file in
    let c := adopt_clear (snap_cleared_at on_disk) c in
    let '(removed, e) := compact_entries now_ms retention_ms max_bytes
                           (merge_newest (entries c) (snap_entries on_disk)) in
    let c := set_unpersisted 0 (set_entries e c) in
    (removed, c, (write_snapshot io e c).2).

Definition purge_expired (io : Io) (now_ms retention_ms : N) :=
  compact_authoritatively io now_ms retention_ms None.
Definition run_maintenance (io : Io) (now_ms max_bytes : N) :=
  compact_authoritatively io now_ms REGISTRY_RETENTION_MS (Some max_bytes).

Definition serialized_size_bytes (c : RegistryMetadataCache) : N :=
  if entries_poisoned c then 0 else snapshot_bytes (entries c).

(** ** Eviction *)

(** serde_json writes an object's entry as a quoted key, a colon, the value and,
    unless it is the last one, a comma: what goes when a key does is at least
    what the footprint counts. *)
Class SnapshotSizes : Prop :=
  drop_key_law m k e : m !! k = Some e → delete k m ≠ ∅ →
    (snapshot_bytes (delete k m) + entry_footprint k e <= snapshot_bytes m)%N.

Definition deletes (m : Entries) (l : list (N * string)) : Entries :=
  foldl (λ m p, delete p.2 m) m l.

(** What the first phase believes the size is once it has evicted [l]. *)
Definition estimate (m : Entries) (est : N) (l : list (N * string)) : N :=
  foldl (λ est p, sat_sub est match m !! p.2 with Some e => entry_footprint p.2 e | None => 0%N end) est l.

Lemma estimate_delete m k est l : k ∉ l.*2 → estimate (delete k m) est l = estimate m est l.
Proof.
  revert est. induction l as [|[a k'] l IH]; intros est; [done|]. cbn.
  intros [Hk Hl]%not_elem_of_cons. rewrite lookup_delete_ne by done. by apply IH.
Qed.

Lemma evict_estimated_spec `{!SnapshotSizes} max ord est ev m :
  NoDup ord.*2 → (∀ k, is_Some (m !! k) ↔ k ∈ ord.*2) → (m ≠ ∅ → snapshot_bytes m <= est)%N →
  ∃ n, evict_estimated max ord est ev m = (drop (S n) ord, ev + n, deletes m (take n ord)) ∧
    n ≤ length ord ∧
    (deletes m (take n ord) = ∅ ∧ n = length ord ∨ (snapshot_bytes (deletes m (take n ord)) <= max)%N) ∧
    ∀ j, j < n → (max < estimate m est (take j ord))%N.
Proof.
  revert est ev m. induction ord as [|[a k] ord IH]; intros est ev m Hnd Hdom Hest; cbn [evict_estimated].
  { exists 0. cbn. rewrite Nat.add_0_r. split_and!; [done|done| |lia]. left. split; [|done].
    apply map_empty. intros k. apply eq_None_not_Some. rewrite Hdom. apply not_elem_of_nil. }
  cbn in Hnd. apply NoDup_cons in Hnd as [Hk Hnd].
  assert (is_Some (m !! k)) as [e He] by (apply Hdom; left).
  destruct (N.leb_spec est max) as [Hle|Hgt].
  { exists 0. rewrite Nat.add_0_r. split_and!; [done|lia| |lia]. right.
    etransitivity; [|exact Hle]. apply Hest. intros ->. by rewrite lookup_empty in He. }
  rewrite He.
  destruct (IH (sat_sub est (entry_footprint k e)) (S ev) (delete k m)) as (n & Hr & Hn & Hf & Hj); [done|..].
  - intros k'. rewrite lookup_delete_is_Some, Hdom. cbn. rewrite elem_of_cons. naive_solver.
  - intros Hne. pose proof (drop_key_law m k e He Hne). unfold sat_sub.
    assert (m ≠ ∅) as Hm by (intros ->; by rewrite lookup_empty in He). specialize (Hest Hm). lia.
  - exists (S n). rewrite Hr. split_and!; [f_equal; f_equal; lia|cbn; lia| |].
    + cbn. destruct Hf as [[Hf ->]|Hf]; [by left|by right].
    + intros [|j] Hlt; [done|].
      change (max < estimate m (sat_sub est match m !! k with
        | Some e => entry_footprint k e | None => 0%N end) (take j ord))%N.
      rewrite He, <- (estimate_delete m k).
      * apply Hj. lia.
      * intros Hin. apply Hk. rewrite <- (take_drop j ord), fmap_app. apply elem_of_app. by left.
Qed.

Lemma by_age_keys m : (by_age m).*2 ≡ₚ (hash_iter m).*1.
Proof.
  unfold by_age. rewrite sort_perm, <- list_fmap_compose. by erewrite list_fmap_ext.
Qed.

Lemma elem_of_by_age_keys m k : k ∈ (by_age m).*2 ↔ is_Some (m !! k).
Proof.
  rewrite by_age_keys, list_elem_of_fmap. split.
  - intros ([k' e] & -> & He%elem_of_hash_iter). eauto.
  - intros [e He]. exists (k, e). by rewrite elem_of_hash_iter.
Qed.

Lemma lookup_deletes m l k :
  deletes m l !! k = if decide (k ∈ l.*2) then None else m !! k.
Proof.
  revert m. induction l as [|[a k'] l IH]; intros m; cbn.
  { by rewrite decide_False by apply not_elem_of_nil. }
  rewrite IH. destruct (decide (k = k')) as [->|Hne].
  - rewrite lookup_delete_eq. repeat case_decide; set_solver.
  - rewrite lookup_delete_ne by done. repeat case_decide; set_solver.
Qed.

(** The oldest go first, while the estimate is over the budget; and what is
    left fits. *)
Lemma evict_spec `{!SnapshotSizes} m max n m' :
  evict_oldest_over_budget m max = (n, m') →
  m' = deletes m (take n (by_age m)) ∧ n ≤ size m ∧
  ((max = 0 ∨ snapshot_bytes m <= max)%N → n = 0) ∧
  (max ≠ 0%N → (snapshot_bytes m' <= max)%N ∨ m' = ∅) ∧
  (∀ j, j < n → (max < estimate m (snapshot_bytes m) (take j (by_age m)))%N).
Proof.
  unfold evict_oldest_over_budget. destruct (N.eqb_spec max 0) as [->|Hmax].
  { intros [= <- <-]. split_and!; [done|lia|done|done|lia]. }
  destruct (N.leb_spec (snapshot_bytes m) max) as [Hfit|Hover].
  { intros [= <- <-]. split_and!; [done|lia|done|by left|lia]. }
  destruct (evict_estimated_spec max (by_age m) (snapshot_bytes m) 0 m) as (n' & -> & Hn & Hf & Hj).
  - rewrite by_age_keys. apply hash_iter_nodup.
  - intros k. by rewrite elem_of_by_age_keys.
  - done.
  - cbv beta iota. rewrite Nat.add_0_l. assert (length (by_age m) = size m) as Hlen.
    { unfold by_age. by rewrite length_sort, length_fmap, length_hash_iter. }
    assert (evict_exact max (drop (S n') (by_age m)) n' (deletes m (take n' (by_age m)))
            = (n', deletes m (take n' (by_age m)))) as ->.
    { destruct Hf as [[_ ->]|Hf].
      - rewrite drop_ge by lia. cbn. by case_match.
      - destruct (drop _ _) as [|[a k] rest]; cbn; by rewrite (proj2 (N.leb_le _ _) Hf). }
    intros [= <- <-]. split_and!; [done|lia|by intros [?|?]; lia| |done].
    intros _. destruct Hf as [[-> _]|Hf]; [by right|by left].
Qed.

(** ** Merging *)

Definition newest (ours : option Entry) (theirs : Entry) : Entry :=
  match ours with
  | Some ours => if decide (updated_at theirs <= updated_at ours)%N then ours else theirs
  | None => theirs
  end.

Lemma merge_one_lookup m k e k' :
  merge_one m (k, e) !! k' = if decide (k' = k) then Some (newest (m !! k) e) else m !! k'.
Proof.
  unfold merge_one, newest. cbn [fst snd]. destruct (m !! k) as [o|] eqn:Ho;
    repeat (case_decide || case_bool_decide); subst; rewrite ?lookup_insert_eq, ?lookup_insert_ne by done;
    try done; lia.
Qed.

Lemma foldl_merge_lookup (l : list (string * Entry)) m k :
  NoDup l.*1 →
  foldl merge_one m l !! k =
  match (list_to_map l : Entries) !! k with Some e => Some (newest (m !! k) e) | None => m !! k end.
Proof.
  revert m. induction l as [|[k0 e0] l IH]; intros m Hnd; [done|]. cbn in *.
  apply NoDup_cons in Hnd as [Hk0 Hnd]. rewrite IH by done. rewrite merge_one_lookup.
  apply not_elem_of_list_to_map_1 in Hk0. case_decide as Hk.
  - subst k0. by rewrite Hk0, lookup_insert_eq.
  - by rewrite lookup_insert_ne by done.
Qed.

(** The newest of the two for every package, and nothing lost. *)
Lemma merge_newest_lookup m d k :
  merge_newest m d !! k = match d !! k with Some e => Some (newest (m !! k) e) | None => m !! k end.
Proof.
  unfold merge_newest. rewrite foldl_merge_lookup by apply hash_iter_nodup.
  by rewrite (list_to_map_proper _ _ (hash_iter_nodup d) (hash_iter_perm _ d)), list_to_map_to_list.
Qed.

(** ** A history of several daemons over one file *)

Inductive op :=
  | WriteEntry (package_name : string) (entry : Entry)
  | Flush
  | Clear (now : N)
  | Purge (now retention_ms : N)
  | Maintain (now max_bytes : N).

Definition do_op (o : op) (io : Io) (c : RegistryMetadataCache) (file : File) :
    bool * RegistryMetadataCache * option text :=
  match o with
  | WriteEntry k e => write_entry io k e c file
  | Flush => flush io c file
  | Clear now => clear io now c
  | Purge now r => let '(_, c, written) := purge_expired io now r c file in (true, c, written)
  | Maintain now m => let '(_, c, written) := run_maintenance io now m c file in (true, c, written)
  end.

(** [Begin] and [Rename] are the two halves of an operation, what it does to its
    daemon and its rename of the file it read earlier: other daemons may rename
    theirs in between. *)
Inductive event :=
  | Open (d : N) (io : Io) | Do (d : N) (io : Io) (o : op) | Close (d : N) (io : Io)
  | Begin (d : N) (io : Io) (o : op) | Rename (d : N).

Record world := { daemons : gmap N RegistryMetadataCache; shared : File; in_flight : gmap N text }.

(** [Close] is the drop of the cache: it flushes. A daemon has one rename in
    flight, under its [persist_lock]. *)
Definition step (ev : event) (w : world) : world :=
  match ev with
  | Open d io =>
      {| daemons := <[d := new_cache io (shared w)]> (daemons w); shared := shared w; in_flight := in_flight w |}
  | Do d io o =>
      match daemons w !! d with
      | Some c => let '(_, c, written) := do_op o io c (shared w) in
                  {| daemons := <[d := c]> (daemons w); shared := renamed written (shared w); in_flight := in_flight w |}
      | None => w
      end
  | Close d io =>
      match daemons w !! d with
      | Some c => let '(_, _, written) := flush io c (shared w) in
                  {| daemons := delete d (daemons w); shared := renamed written (shared w); in_flight := in_flight w |}
      | None => w
      end
  | Begin d io o =>
      match daemons w !! d, in_flight w !! d with
      | Some c, None =>
          let '(_, c, written) := do_op o io c (shared w) in
          {| daemons := <[d := c]> (daemons w); shared := shared w;
             in_flight := match written with Some bytes => <[d := bytes]> (in_flight w) | None => in_flight w end |}
      | _, _ => w
      end
  | Rename d =>
      {| daemons := daemons w; shared := renamed (in_flight w !! d) (shared w); in_flight := delete d (in_flight w) |}
  end.

Definition run (l : list event) (w : world) : world := foldl (λ w ev, step ev w) w l.

Definition written (ev : event) : list (string * Entry) :=
  match ev with Do _ _ (WriteEntry k e) | Begin _ _ (WriteEntry k e) => [(k, e)] | _ => [] end.

(** The file can be read whenever it is asked for, and the clock does not go
    back behind [T]. *)
Definition sound_event (T : N) (ev : event) : Prop :=
  match ev with
  | Open _ io | Close _ io => can_read io = true
  | Do _ io o | Begin _ io o => can_read io = true ∧ match o with Clear now => (T <= now)%N | _ => True end
  | Rename _ => True
  end.

(** ** What a clear leaves *)

Section cleared.
Context `{SRT : !SerdeRoundTrip} (T : N) (L : list (string * Entry)).

Definition after_clear (m : Entries) : Prop :=
  ∀ k e, m !! k = Some e → (T < updated_at e)%N ∨ (k, e) ∈ L.
Definition clean_file (f : File) : Prop :=
  ∃ t s, f = Some t ∧ snapshot_from_str t = Some s ∧ schema_version s = REGISTRY_SCHEMA_VERSION ∧
    (T <= snap_cleared_at s)%N ∧ after_clear (snap_entries s).
Definition clean_cache (c : RegistryMetadataCache) : Prop :=
  backed c = true → (T <= cleared_at c)%N → after_clear (entries c).

Lemma load_clean io f : can_read io = true → clean_file f →
  (T <= snap_cleared_at (load_snapshot io f))%N ∧ after_clear (snap_entries (load_snapshot io f)).
Proof.
  intros Hr (t & s & -> & Hs & Hv & Hc & Ha). unfold load_snapshot. rewrite Hr, Hs, Hv. by split.
Qed.

Lemma adopt_clean at_ c : (T <= at_)%N → clean_cache c → backed c = true →
  let c' := adopt_clear at_ c in
  backed c' = true ∧ (T <= cleared_at c')%N ∧ after_clear (entries c').
Proof.
  intros Hat Hc Hb. unfold adopt_clear. destruct (N.ltb_spec (cleared_at c) at_) as [Hlt|Hge].
  - cbn. split_and!; [done|done|]. intros k e [_ He]%map_lookup_filter_Some. cbn in He. left. lia.
  - cbn. split_and!; [done|lia|]. apply Hc; [done|lia].
Qed.

Lemma merge_clean m d : after_clear m → after_clear d → after_clear (merge_newest m d).
Proof.
  intros Hm Hd k e. rewrite merge_newest_lookup. destruct (d !! k) as [b|] eqn:Hb; [|by apply Hm].
  unfold newest. destruct (m !! k) as [a|] eqn:Ha; [case_decide|]; intros [= <-]; auto.
Qed.

Definition clean_text (written : option text) : Prop := ∀ t, written = Some t → clean_file (Some t).

Lemma renamed_clean written f : clean_text written → clean_file f → clean_file (renamed written f).
Proof. intros Hw Hf. destruct written as [t|]; [by apply Hw|done]. Qed.

Lemma nothing_clean : clean_text None.
Proof. done. Qed.

Lemma write_clean io m c ok written :
  (T <= cleared_at c)%N → after_clear m → write_snapshot io m c = (ok, written) → clean_text written.
Proof.
  intros Ht Hm. unfold write_snapshot. destruct (snapshot_to_vec _) as [bytes|] eqn:Hb;
    [destruct (can_write io)|]; intros [= <- <-] t; try done. intros [= <-].
  eexists bytes, _. split; [done|]. split; [by apply from_to|]. by split_and!.
Qed.

Lemma after_clear_subset m m' : after_clear m → m' ⊆ m → after_clear m'.
Proof. intros Hm Hs k e He. apply Hm. by eapply lookup_weaken. Qed.

Lemma evict_estimated_subset max ord est ev m : (evict_estimated max ord est ev m).2 ⊆ m.
Proof.
  revert est ev m. induction ord as [|[a k] ord IH]; intros est ev m; cbn; [done|].
  case_match; [done|]. etransitivity; [apply IH|]. apply delete_subseteq.
Qed.
Lemma evict_exact_subset max ord ev m : (evict_exact max ord ev m).2 ⊆ m.
Proof.
  revert ev m. induction ord as [|[a k] ord IH]; intros ev m; cbn; case_match; try done.
  etransitivity; [apply IH|]. apply delete_subseteq.
Qed.
Lemma evict_subset m max : (evict_oldest_over_budget m max).2 ⊆ m.
Proof.
  unfold evict_oldest_over_budget. repeat (case_match; [done|]).
  pose proof (evict_estimated_subset max (by_age m) (snapshot_bytes m) 0 m) as Hs.
  destruct (evict_estimated _ _ _ _ _) as [[rest ev] m1].
  etransitivity; [apply evict_exact_subset|exact Hs].
Qed.
Lemma compact_subset now r max m : (compact_entries now r max m).2 ⊆ m.
Proof.
  unfold compact_entries, prune_expired_entries. set (kept := filter _ m).
  assert (kept ⊆ m) as Hk by apply map_filter_subseteq.
  destruct max as [max|]; [|done]. pose proof (evict_subset kept max) as Hs.
  destruct (evict_oldest_over_budget kept max). by etransitivity.
Qed.

Definition clean_pair (r : bool * RegistryMetadataCache * option text) : Prop :=
  clean_cache r.1.2 ∧ clean_text r.2.

Lemma unpersisted_clean n c : clean_cache c → clean_cache (set_unpersisted n c).
Proof. done. Qed.

Lemma persist_clean io c f :
  can_read io = true → clean_cache c → clean_file f → clean_pair (persist_snapshot io c f).
Proof.
  intros Hr Hc Hf. unfold persist_snapshot. destruct (backed c) eqn:Hb; [|done]. cbn [negb].
  destruct (persist_poisoned c); [done|]. destruct (entries_poisoned c); [done|].
  destruct (load_clean io f Hr Hf) as [Ht Ha].
  destruct (adopt_clean _ c Ht Hc Hb) as (Hb' & Ht' & Ha').
  destruct (write_snapshot _ _ _) as [ok written] eqn:Hw.
  split; [by intros _ _|]. eapply write_clean; [| |exact Hw]; [done|]. by apply merge_clean.
Qed.

Lemma flush_clean io c f :
  can_read io = true → clean_cache c → clean_file f → clean_pair (flush io c f).
Proof.
  intros Hr Hc Hf. unfold flush. case_match; [done|].
  pose proof (persist_clean io (set_unpersisted 0 c) f Hr Hc Hf) as [H1 H2].
  destruct (persist_snapshot _ _ _) as [[ok c'] written]. by destruct ok.
Qed.

Lemma compact_clean io now r max c f :
  can_read io = true → clean_cache c → clean_file f →
  let '(_, c', written) := compact_authoritatively io now r max c f in clean_cache c' ∧ clean_text written.
Proof.
  intros Hr Hc Hf. unfold compact_authoritatively. destruct (backed c) eqn:Hb; cbn [negb].
  2:{ destruct (entries_poisoned c); [done|]. destruct (compact_entries _ _ _ _) as [n e].
      split; [|done]. intros Hb'. cbn in Hb'. congruence. }
  destruct (persist_poisoned c); [done|]. destruct (entries_poisoned c); [done|].
  destruct (load_clean io f Hr Hf) as [Ht Ha].
  destruct (adopt_clean _ c Ht Hc Hb) as (Hb' & Ht' & Ha').
  pose proof (compact_subset now r max (merge_newest
    (entries (adopt_clear (snap_cleared_at (load_snapshot io f)) c)) (snap_entries (load_snapshot io f)))) as Hs.
  destruct (compact_entries _ _ _ _) as [n e]. cbn in Hs.
  assert (after_clear e) as He by (eapply after_clear_subset; [|exact Hs]; by apply merge_clean).
  split; [by intros _ _|]. destruct (write_snapshot _ _ _) as [ok written] eqn:Hw.
  by eapply write_clean; [| |exact Hw].
Qed.

Lemma clear_clean io now c :
  (T <= now)%N → clean_cache c → clean_pair (clear io now c).
Proof.
  intros Hn Hc. unfold clear. destruct (backed c) eqn:Hb; cbn [negb].
  2:{ split; [|done]. intros Hb'. cbn in Hb'. destruct (entries_poisoned c); cbn in *; congruence. }
  destruct (persist_poisoned c); [done|]. destruct (entries_poisoned c); [done|].
  destruct (write_snapshot _ _ _) as [ok written] eqn:Hw.
  split; [intros _ _ k e; cbn; by rewrite lookup_empty|].
  eapply write_clean; [| |exact Hw]; [cbn; lia|]. intros k e. by rewrite lookup_empty.
Qed.

Lemma write_entry_clean io k e c f :
  (k, e) ∈ L → can_read io = true → clean_cache c → clean_file f → clean_pair (write_entry io k e c f).
Proof.
  intros Hin Hr Hc Hf. unfold write_entry. destruct (entries_poisoned c); [done|].
  assert (clean_cache (set_entries (<[k := e]> (entries c)) c)) as Hc'.
  { intros Hb Ht k' e'. cbn in *. intros [[<- <-]|[_ He']]%lookup_insert_Some; [by right|by apply Hc]. }
  cbv zeta. case_match; [|by split]. by apply flush_clean.
Qed.

Lemma do_op_clean o io c f :
  (∀ k e, o = WriteEntry k e → (k, e) ∈ L) → (∀ now, o = Clear now → (T <= now)%N) →
  can_read io = true → clean_cache c → clean_file f → clean_pair (do_op o io c f).
Proof.
  intros Hw Hcl Hr Hc Hf. destruct o; cbn [do_op].
  - apply write_entry_clean; auto.
  - by apply flush_clean.
  - by apply clear_clean; auto.
  - pose proof (compact_clean io now retention_ms None c f Hr Hc Hf) as H. unfold purge_expired.
    by destruct (compact_authoritatively _ _ _ _ _ _) as [[n c'] written].
  - pose proof (compact_clean io now REGISTRY_RETENTION_MS (Some max_bytes) c f Hr Hc Hf) as H.
    unfold run_maintenance. by destruct (compact_authoritatively _ _ _ _ _ _) as [[n c'] f'].
Qed.

Record clean_world (w : world) : Prop := {
  cw_file : clean_file (shared w);
  cw_daemons : ∀ d c, daemons w !! d = Some c → clean_cache c;
  cw_in_flight : ∀ d, clean_text (in_flight w !! d);
}.

Lemma inserted_clean d c (m : gmap N RegistryMetadataCache) :
  clean_cache c → (∀ d' c', m !! d' = Some c' → clean_cache c') →
  ∀ d' c', <[d := c]> m !! d' = Some c' → clean_cache c'.
Proof. intros Hc Hm d' c'. intros [[<- <-]|[_ ?]]%lookup_insert_Some; [done|by eapply Hm]. Qed.

Lemma op_clean d io o c w :
  sound_event T (Do d io o) → (∀ x, x ∈ written (Do d io o) → x ∈ L) → clean_world w → daemons w !! d = Some c →
  clean_pair (do_op o io c (shared w)).
Proof.
  intros [Hr Hs] Hw [Hf Hd _] Hc. apply do_op_clean; [|by intros now ->|done|by eapply Hd|done].
  intros k e ->. apply Hw. left.
Qed.

Lemma step_clean ev w :
  sound_event T ev → (∀ x, x ∈ written ev → x ∈ L) → clean_world w → clean_world (step ev w).
Proof.
  intros Hs Hw Hclean. pose proof Hclean as [Hf Hd Hi].
  destruct ev as [d io|d io o|d io|d io o|d]; cbn [step].
  - split; [done| |done]. apply inserted_clean; [|done]. intros _ _. by apply load_clean.
  - destruct (daemons w !! d) as [c|] eqn:Hc; [|done].
    destruct (op_clean d io o c w Hs Hw Hclean Hc) as [H1 H2]. destruct (do_op _ _ _ _) as [[ok c'] written].
    split; [by apply renamed_clean|by apply inserted_clean|done].
  - destruct (daemons w !! d) as [c|] eqn:Hc; [|done].
    destruct (flush_clean io c (shared w) Hs (Hd _ _ Hc) Hf) as [H1 H2].
    destruct (flush _ _ _) as [[ok c'] written]. split; [by apply renamed_clean| |done].
    intros d' c0. cbn [daemons]. intros [_ Hc0]%lookup_delete_Some. by eapply Hd.
  - destruct (daemons w !! d) as [c|] eqn:Hc; [|done]. destruct (in_flight w !! d) eqn:Hfl; [done|].
    destruct (op_clean d io o c w Hs Hw Hclean Hc) as [H1 H2]. destruct (do_op _ _ _ _) as [[ok c'] written].
    split; [done|by apply inserted_clean|]. intros d'. cbn [in_flight]. destruct written as [bytes|]; [|done].
    destruct (decide (d' = d)) as [->|Hne]; [by rewrite lookup_insert_eq|by rewrite lookup_insert_ne].
  - split; [by apply renamed_clean|done|]. intros d' t. cbn [in_flight].
    intros [_ Ht]%lookup_delete_Some. by eapply Hi.
Qed.

Lemma run_clean l w :
  Forall (sound_event T) l → (∀ x, x ∈ mjoin (written <$> l) → x ∈ L) → clean_world w → clean_world (run l w).
Proof.
  revert w. induction l as [|ev l IH]; intros w Hs Hw Hc; [done|]. cbn.
  apply Forall_cons in Hs as [Hs Hs']. apply IH; [done| |].
  - intros x Hx. apply Hw. cbn. apply elem_of_app. by right.
  - apply step_clean; [done| |done]. intros x Hx. apply Hw. cbn. apply elem_of_app. by left.
Qed.
End cleared.

(** The clear itself, when its write goes through and no rename is in flight. *)
Lemma clear_starts_clean T L io d c w `{!SerdeRoundTrip} :
  daemons w !! d = Some c → backed c = true → (clear io T c).1.1 = true → in_flight w = ∅ →
  (∀ d' c', d' ≠ d → daemons w !! d' = Some c' → backed c' = true → (cleared_at c' < T)%N) →
  clean_world T L (step (Do d io (Clear T)) w).
Proof.
  intros Hc Hb Hok Hfl Hold. cbn [step do_op]. rewrite Hc. unfold clear in *. rewrite Hb in *. cbn [negb] in *.
  destruct (persist_poisoned c); [done|]. destruct (entries_poisoned c); [done|].
  unfold write_snapshot in *. destruct (snapshot_to_vec _) as [bytes|] eqn:Hv; [|done].
  destruct (can_write io); [|done]. split.
  - eexists bytes, _. split; [done|]. split; [by apply from_to|]. cbn. split_and!; [done|lia|].
    intros k e. by rewrite lookup_empty.
  - intros d' c'. cbn [daemons]. intros [[<- <-]|[Hne Hc']]%lookup_insert_Some.
    + intros _ _ k e. cbn. by rewrite lookup_empty.
    + intros Hb' Ht. specialize (Hold d' c' ltac:(done) Hc' Hb'). lia.
  - intros d' t. cbn [in_flight]. by rewrite Hfl, lookup_empty.
Qed.

(** C29. What a clear removed does not come back. Once one daemon's clear at time
    [T] has written the shared file, then over any further history of any daemons
    opening, writing, flushing, clearing, compacting and closing, their reads and
    renames of the file interleaved in any way and any of their writes failing,
    every entry in the file, and every entry of a daemon that has seen the clear,
    is newer than [T] or was written after the clear: what older siblings still
    hold is not written back. The hypotheses are that the clear's own write
    succeeded, that no operation was between its read of the file and its rename
    when the clear was written (the window the code leaves open,
    [rename_across_a_clear_undoes_it]), that the other daemons had seen no clear as
    late as [T], that the clock does not run back behind [T], and that the file can
    be read whenever it is ([failed_clear_is_undone],
    [unreadable_file_is_overwritten]). *)
Theorem cleared_metadata_stays_cleared `{SRT : !SerdeRoundTrip} T io d c w l :
  daemons w !! d = Some c → backed c = true → (clear io T c).1.1 = true → in_flight w = ∅ →
  (∀ d' c', d' ≠ d → daemons w !! d' = Some c' → backed c' = true → (cleared_at c' < T)%N) →
  Forall (sound_event T) l →
  let w' := run l (step (Do d io (Clear T)) w) in
  (∃ t s, shared w' = Some t ∧ snapshot_from_str t = Some s ∧ (T <= snap_cleared_at s)%N ∧
     ∀ k e, snap_entries s !! k = Some e →
       (T < updated_at e)%N ∨ (k, e) ∈ mjoin (written <$> l)) ∧
  (∀ d' c', daemons w' !! d' = Some c' → backed c' = true → (T <= cleared_at c')%N →
     ∀ k e, entries c' !! k = Some e →
       (T < updated_at e)%N ∨ (k, e) ∈ mjoin (written <$> l)).
Proof.
  intros Hc Hb Hok Hfl Hold Hl w'.
  destruct (run_clean T (mjoin (written <$> l)) l _ Hl (λ _ H, H)
    (clear_starts_clean T _ io d c w Hc Hb Hok Hfl Hold)) as [(t & s & Ht & Hs & _ & Hcl & Ha) Hd _].
  split; [by exists t, s|]. intros d' c' Hc' Hb' Ht'. by apply (Hd d' c').
Qed.

(** ** Persisting, and what maintenance leaves *)

(** A flush that succeeds leaves in the file, for every package, the newest of
    what this daemon and the file had. *)
Lemma flush_unions `{SRT : !SerdeRoundTrip} io c f c' f' :
  backed c = true → unpersisted_writes c ≠ 0%N → flush io c f = (true, c', f') →
  ∃ t s, f' = Some t ∧ snapshot_from_str t = Some s ∧
    snap_entries s = merge_newest (entries c') (snap_entries (load_snapshot io f)) ∧
    c' = set_unpersisted 0 (adopt_clear (snap_cleared_at (load_snapshot io f)) c).
Proof.
  intros Hb Hu. unfold flush. destruct (N.eqb_spec (unpersisted_writes c) 0); [done|].
  unfold persist_snapshot. cbn [backed persist_poisoned entries_poisoned set_unpersisted].
  rewrite Hb. cbn [negb]. destruct (persist_poisoned c), (entries_poisoned c); try done.
  set (at_ := snap_cleared_at (load_snapshot io f)).
  assert (adopt_clear at_ (set_unpersisted 0 c) = set_unpersisted 0 (adopt_clear at_ c)) as ->.
  { unfold adopt_clear. cbn. by case_match. }
  unfold write_snapshot. destruct (snapshot_to_vec _) as [bytes|] eqn:Hv; [|done].
  destruct (can_write io); [|done]. intros [= <- <-].
  eexists bytes, _. split; [done|]. split; [by apply from_to|]. done.
Qed.

Lemma elem_of_aged m a k : (a, k) ∈ by_age m ↔ ∃ e, m !! k = Some e ∧ updated_at e = a.
Proof.
  unfold by_age. rewrite elem_of_sort, list_elem_of_fmap. split.
  - intros ([k' e] & [= -> ->] & He%elem_of_hash_iter). eauto.
  - intros (e & He & <-). exists (k, e). by rewrite elem_of_hash_iter.
Qed.

Lemma size_deletes m l :
  NoDup l.*2 → (∀ k, k ∈ l.*2 → is_Some (m !! k)) → size (deletes m l) + length l = size m.
Proof.
  revert m. induction l as [|[a k] l IH]; intros m Hnd Hin; cbn in *; [lia|].
  apply NoDup_cons in Hnd as [Hk Hnd].
  assert (is_Some (m !! k)) as Hm by (apply Hin; left).
  specialize (IH (delete k m) Hnd). rewrite map_size_delete_Some in IH by done.
  assert (size m ≠ 0) as Hz.
  { rewrite map_size_ne_0_lookup. by exists k. }
  assert (size (deletes (delete k m) l) + length l = pred (size m)) as E; [|unfold deletes in *; lia].
  apply IH. intros k' Hk'. rewrite lookup_delete_ne by (by intros <-). apply Hin. by right.
Qed.

(** What eviction keeps is no older than what it takes. *)
Lemma evicted_are_oldest m n k e k' e' :
  deletes m (take n (by_age m)) !! k = Some e → m !! k' = Some e' →
  deletes m (take n (by_age m)) !! k' = None → (updated_at e' <= updated_at e)%N.
Proof.
  rewrite !lookup_deletes. case_decide as Hk; [done|]. intros He He'.
  case_decide as Hk'; [|congruence]. intros _.
  assert ((updated_at e', k') ∈ take n (by_age m)) as H1.
  { apply list_elem_of_fmap in Hk' as ([a k0] & -> & Hin). cbn in *.
    assert ((a, k0) ∈ by_age m) as (e0 & He0 & <-)%elem_of_aged
      by (rewrite <- (take_drop n (by_age m)); apply elem_of_app; by left).
    by simplify_eq. }
  assert ((updated_at e, k) ∈ drop n (by_age m)) as H2.
  { assert ((updated_at e, k) ∈ by_age m) as Hin by (apply elem_of_aged; eauto).
    rewrite <- (take_drop n (by_age m)) in Hin. apply elem_of_app in Hin as [Hin|Hin]; [|done].
    exfalso. apply Hk. apply list_elem_of_fmap. by exists (updated_at e, k). }
  pose proof (sort_sorted age_cmp ((λ p : string * Entry, (updated_at p.2, p.1)) <$> hash_iter m)) as Hs.
  change (sort _ _) with (by_age m) in Hs. rewrite <- (take_drop n (by_age m)) in Hs.
  apply StronglySorted_app in Hs as (Hs & _ & _). specialize (Hs _ _ H1 H2).
  unfold cmp_le, age_cmp, cmp_lex in Hs. cbn in Hs.
  destruct (N.compare_spec (updated_at e') (updated_at e)); cbn in *; [lia|lia|done].
Qed.

(** A registry maintenance pass keeps the newest metadata. Of the merged
    view it drops exactly what has expired, and of the rest evicts the oldest
    entries, in age order, only while its estimate of the size is over the
    budget; what it keeps fits the budget unless nothing is left. No budget, or
    a snapshot within it, evicts nothing; the pass reports exactly how many
    entries it removed. *)
Theorem maintenance_keeps_newest_metadata `{SS : !SnapshotSizes} now max m removed m' :
  compact_entries now REGISTRY_RETENTION_MS (Some max) m = (removed, m') →
  ∃ kept n,
    kept = filter (λ p : string * Entry, unexpired now REGISTRY_RETENTION_MS p.2 = true) m ∧
    removed = size m - size m' ∧
    m' = deletes kept (take n (by_age kept)) ∧
    (∀ k e k' e', m' !! k = Some e → kept !! k' = Some e' → m' !! k' = None →
       (updated_at e' <= updated_at e)%N) ∧
    ((max = 0 ∨ snapshot_bytes kept <= max)%N → m' = kept) ∧
    (max ≠ 0%N → (snapshot_bytes m' <= max)%N ∨ m' = ∅) ∧
    (∀ j, j < n → (max < estimate kept (snapshot_bytes kept) (take j (by_age kept)))%N).
Proof.
  unfold compact_entries, prune_expired_entries. set (kept := filter _ m).
  destruct (evict_oldest_over_budget kept max) as [n e] eqn:Hev. intros [= <- <-].
  destruct (evict_spec kept max n e Hev) as (-> & Hn & H0 & Hfit & Hj).
  exists kept, n. split_and!; [done| |done| | |done|done].
  - assert (size kept ≤ size m) as Hle by (apply map_subseteq_size, map_filter_subseteq).
    assert (length (by_age kept) = size kept) as Hlen
      by (unfold by_age; by rewrite length_sort, length_fmap, length_hash_iter).
    pose proof (size_deletes kept (take n (by_age kept))) as Hs.
    rewrite length_take, Hlen in Hs.
    assert (size (deletes kept (take n (by_age kept))) + n `min` size kept = size kept) as E; [|lia].
    apply Hs.
    + rewrite fmap_take. apply (sublist_NoDup _ (by_age kept).*2); [|apply sublist_take].
      rewrite by_age_keys. apply hash_iter_nodup.
    + intros k Hk. apply elem_of_by_age_keys. rewrite fmap_take in Hk.
      by eapply sublist_subseteq, Hk; apply sublist_take.
  - intros k e0 k' e'. apply evicted_are_oldest.
  - intros ->%H0. done.
Qed.
End store.

(** ** Witnesses: a file that holds its snapshot as it is *)

Definition listed_len (m : Entries) : N :=
  map_fold (λ k _ acc, N.of_nat (String.length k) + 14 + acc)%N 0%N m.

#[export] Instance plain_json : SerdeJson := {|
  text := RegistrySnapshot + Entry;
  text_len t := match t with inl s => 50 + listed_len (snap_entries s) | inr _ => 10 end%N;
  snapshot_to_vec s := Some (inl s);
  snapshot_from_str t := match t with inl s => Some s | inr _ => None end;
  entry_to_vec e := Some (inr e);
|}.
#[export] Instance plain_round_trip : SerdeRoundTrip.
Proof. intros s t [= <-]. done. Qed.
#[export] Instance plain_sizes : SnapshotSizes.
Proof.
  intros m k e He _. unfold snapshot_bytes, entry_footprint. cbn.
  assert (listed_len m = N.of_nat (String.length k) + 14 + listed_len (delete k m))%N as ->; [|lia].
  unfold listed_len at 1. rewrite <- (insert_delete_id m k e He) at 1.
  rewrite map_fold_insert_L; [done|intros; lia|apply lookup_delete_eq].
Qed.

Definition entry_at (at_ : N) : Entry :=
  {| metadata := None; updated_at := at_; retry_after := None; error := None; not_found := false |}.
Definition all_well : Io := {| can_read := true; can_write := true |}.
Definition cannot_read : Io := {| can_read := false; can_write := true |}.
Definition cannot_write : Io := {| can_read := true; can_write := false |}.

(** Two daemons over one file; the second still holds what the first clears. *)
Definition holding (m : Entries) (dirty : N) : RegistryMetadataCache :=
  {| backed := true; entries := m; cleared_at := 0; unpersisted_writes := dirty;
     entries_poisoned := false; persist_poisoned := false |}.
Definition two_daemons : world (SJ := plain_json) :=
  {| daemons := {[1%N := holding {["react" := entry_at 50]} 0; 2%N := holding {["vue" := entry_at 60]} 1]};
     shared := Some (inl {| schema_version := 1; snap_entries := {["react" := entry_at 50]};
                            snap_cleared_at := 0 |});
     in_flight := ∅ |}.

Lemma two_daemons_older d c :
  d ≠ 1%N → daemons two_daemons !! d = Some c → backed c = true → (cleared_at c < 100)%N.
Proof.
  intros Hd Hc _. cbn in Hc. rewrite lookup_insert_ne in Hc by done.
  by apply lookup_singleton_Some in Hc as [_ <-].
Qed.

Definition sibling_flushes : list event :=
  [Begin 2 all_well Flush; Do 2 all_well (WriteEntry "vue" (entry_at 90)); Do 1 all_well (WriteEntry "vite" (entry_at 120));
   Do 1 all_well Flush; Rename 2; Open 3 all_well]%N.

Lemma cleared_metadata_stays_cleared_witness :
  Forall (sound_event 100) sibling_flushes ∧
  ∃ t s, shared (run (HO := key_order) sibling_flushes
             (step (HO := key_order) (Do 1 all_well (Clear 100)) two_daemons)) = Some t ∧
    snapshot_from_str t = Some s ∧ (100 <= snap_cleared_at s)%N ∧
    ∀ k e, snap_entries s !! k = Some e →
      (100 < updated_at e)%N ∨ (k, e) ∈ mjoin (written <$> sibling_flushes).
Proof.
  assert (Forall (sound_event 100) sibling_flushes) as Hs by (by repeat constructor).
  split; [exact Hs|].
  exact (proj1 (cleared_metadata_stays_cleared (HO := key_order) 100 all_well 1
    (holding {["react" := entry_at 50]} 0) two_daemons sibling_flushes
    eq_refl eq_refl eq_refl eq_refl two_daemons_older Hs)).
Defined.

(** A budget of 70 bytes over two entries of 19 and 17 bytes and an envelope of
    50 keeps the newer entry. *)
Definition two_entries : Entries := {["react" := entry_at 50; "vue" := entry_at 60]}.
Lemma newer_kept :
  compact_entries (HO := key_order) 100 REGISTRY_RETENTION_MS (Some 70%N) two_entries =
  (1, {["vue" := entry_at 60]}).
Proof. vm_compute. reflexivity. Qed.

Lemma maintenance_keeps_newest_metadata_witness :
  (snapshot_bytes {["vue" := entry_at 60]} <= 70)%N ∨ {["vue" := entry_at 60]} = (∅ : Entries).
Proof.
  destruct (maintenance_keeps_newest_metadata (HO := key_order) 100 70 two_entries 1
    {["vue" := entry_at 60]} newer_kept) as (kept & n & _ & _ & _ & _ & _ & H & _).
  exact (H ltac:(discriminate)).
Defined.

(** ** What modelling showed *)

(** A compaction whose write fails forgets that there was something to write:
    the flush on drop then writes nothing. *)
Lemma failed_compaction_forgets_writes :
  let c := holding {["vue" := entry_at 60]} 1 in
  let '(_, c', f) := run_maintenance (HO := key_order) cannot_write 100 1000 c None in
  f = None ∧ flush (HO := key_order) all_well c' None = (true, c', None) ∧
  entries c' = {["vue" := entry_at 60]}.
Proof. by vm_compute. Qed.

(** A file that cannot be read for once is taken for an empty one, and the
    persist then writes over what the siblings had put there. *)
Lemma unreadable_file_is_overwritten :
  let c := holding {["vue" := entry_at 60]} 1 in
  let '(ok, _, f) := flush (HO := key_order) cannot_read c (shared two_daemons) in
  ok = true ∧ is_Some f ∧ snap_entries (load_snapshot all_well f) !! "react" = None.
Proof. vm_compute. split_and!; [done|by eexists|done]. Qed.

(** A clear whose write failed is undone on disk by the next persist, which now
    marks the file as cleared. *)
Lemma failed_clear_is_undone :
  let c := holding {["react" := entry_at 50]} 0 in
  let '(ok, c, written) := clear cannot_write 100 c in
  let f := renamed written (shared two_daemons) in
  let '(_, c, written) := write_entry (HO := key_order) all_well "vue" (entry_at 110) c f in
  let f := renamed written f in
  let '(_, c, written) := flush (HO := key_order) all_well c f in
  let f := renamed written f in
  ok = false ∧ snap_cleared_at (load_snapshot all_well f) = 100%N ∧
  snap_entries (load_snapshot all_well f) !! "react" = Some (entry_at 50).
Proof. by vm_compute. Qed.

(** The window that remains between a persist's read of the file and its rename:
    a clear that is written in it is undone on disk, its mark included. *)
Lemma rename_across_a_clear_undoes_it :
  let w := run (HO := key_order) [Begin 2 all_well Flush; Do 1 all_well (Clear 100); Rename 2] two_daemons in
  snap_cleared_at (load_snapshot all_well (shared w)) = 0%N ∧
  snap_entries (load_snapshot all_well (shared w)) !! "react" = Some (entry_at 50).
Proof. by vm_compute. Qed.
