(* ===== verification/RegistryService.v ===== *)
(** Registry hints (registry/service.rs): when the cached npm metadata is
    answered from, how a fetch is retried and what it leaves in the store, and
    the rate limiter every fetch goes through.  Times are in milliseconds; [now_ms]
    is the wall clock and an instant is the monotonic one. *)
From stdpp Require Import base gmap strings sorting pretty.
From S2P Require Import Prelude Json RegistryCache.

(** ** Constants (registry/constants.rs) *)

Definition FRESH_HINT_TTL_MS : N := 6 * 60 * 60 * 1000.
Definition NOT_FOUND_TTL_MS : N := 6 * 60 * 60 * 1000.
Definition TRANSIENT_ERROR_RETRY_MS : N := 5 * 60 * 1000.
Definition MAX_ATTEMPTS : nat := 3.
Definition REGISTRY_RATE_LIMIT_REQUESTS : nat := 20.
Definition REGISTRY_RATE_LIMIT_WINDOW_MS : N := 1000.
Definition REGISTRY_RETRY_BASE_DELAY_MS : N := 100.
Definition REGISTRY_MAX_BACKOFF_MS : N := 5 * 60 * 1000.
Definition REGISTRY_MANUAL_RATE_LIMIT_REQUESTS : nat := 5.
Definition MANUAL_REFRESH_COOLDOWN_MS : N := 10000.
Definition REGISTRY_BODY_TOO_LARGE_ERROR : string := "registry response body exceeds size limit".

(** ** The rate limiter *)

Module RateLimiter.

Record RegistryRateLimiter := {
  window_opens_at : N;
  request_count : nat;
  backoff_until : N;
}.

Definition new_limiter (now : N) : RegistryRateLimiter :=
  {| window_opens_at := now; request_count := 0; backoff_until := now |}.

Definition apply_retry_after (now delay : N) (l : RegistryRateLimiter) : RegistryRateLimiter :=
  let until := (now + N.min delay REGISTRY_MAX_BACKOFF_MS)%N in
  {| window_opens_at := window_opens_at l; request_count := request_count l;
     backoff_until := if (backoff_until l <? until)%N then until else backoff_until l |}.

(** The wait is [0] where the code returns [None]. *)
Definition reserve_slot (now : N) (request_limit : nat) (l : RegistryRateLimiter) :
    N * RegistryRateLimiter :=
  let window := REGISTRY_RATE_LIMIT_WINDOW_MS in
  let '(window_wait, opens, count) :=
    if (window_opens_at l + window <=? now)%N then (0%N, now, 1)
    else if decide (request_count l < request_limit)
    then (sat_sub (window_opens_at l) now, window_opens_at l, S (request_count l))
    else (sat_sub (window_opens_at l + window) now, (window_opens_at l + window)%N, 1) in
  (N.max window_wait (sat_sub (backoff_until l) now),
   {| window_opens_at := opens; request_count := count; backoff_until := backoff_until l |}).

Inductive event := Reserve (now : N) (request_limit : nat) | RetryAfter (now delay : N).
Definition event_time (e : event) : N := match e with Reserve now _ => now | RetryAfter now _ => now end.

(** A request: the window it was counted in, when it may start, and the floor
    in force when it was made. *)
Record slot := { in_window : N; starts : N; floor : N }.

Definition step (e : event) (st : RegistryRateLimiter * list slot) : RegistryRateLimiter * list slot :=
  let '(l, log) := st in
  match e with
  | Reserve now limit =>
      let '(wait, l') := reserve_slot now limit l in
      (l', {| in_window := window_opens_at l'; starts := (now + wait)%N; floor := backoff_until l |} :: log)
  | RetryAfter now delay => (apply_retry_after now delay l, log)
  end.
Definition run (es : list event) (st : RegistryRateLimiter * list slot) := foldl (λ st e, step e st) st es.

(** The requests counted in the window that opens at [w]. *)
Definition counted (w : N) (log : list slot) : nat := length (filter (λ s, in_window s = w) log).

Record inv (st : RegistryRateLimiter * list slot) : Prop := {
  inv_count : counted (window_opens_at st.1) st.2 = request_count st.1;
  inv_limit : ∀ w, counted w st.2 ≤ REGISTRY_RATE_LIMIT_REQUESTS;
  inv_spaced : ∀ s s', s ∈ st.2 → s' ∈ st.2 → in_window s ≠ in_window s' →
    (in_window s + REGISTRY_RATE_LIMIT_WINDOW_MS <= in_window s' ∨
     in_window s' + REGISTRY_RATE_LIMIT_WINDOW_MS <= in_window s)%N;
  inv_past : ∀ s, s ∈ st.2 → in_window s = window_opens_at st.1 ∨
    (in_window s + REGISTRY_RATE_LIMIT_WINDOW_MS <= window_opens_at st.1)%N;
  inv_starts : ∀ s, s ∈ st.2 → (in_window s <= starts s)%N ∧ (floor s <= starts s)%N ∧
    ((floor s <= in_window s)%N → (starts s < in_window s + REGISTRY_RATE_LIMIT_WINDOW_MS)%N);
}.

Lemma counted_cons w s log :
  counted w (s :: log) = (if decide (in_window s = w) then 1 else 0) + counted w log.
Proof. unfold counted. rewrite filter_cons. by case_decide. Qed.

Lemma counted_none w log : (∀ s, s ∈ log → in_window s ≠ w) → counted w log = 0.
Proof.
  intros H. unfold counted. apply length_zero_iff_nil, elem_of_nil_inv. intros s [Hw Hs]%list_elem_of_filter. by apply (H s).
Qed.

Lemma limiter_inv_start now : inv (new_limiter now, []).
Proof.
  split; cbn; try done.
  - intros w. unfold counted. cbn. lia.
  - intros s s' H. by apply not_elem_of_nil in H.
  - intros s H. by apply not_elem_of_nil in H.
  - intros s H. by apply not_elem_of_nil in H.
Qed.

(** A request counted in a window no earlier than the last one. *)
Lemma inv_counted l log s count :
  inv (l, log) →
  (in_window s = window_opens_at l ∧ count = S (request_count l) ∨
   (window_opens_at l + REGISTRY_RATE_LIMIT_WINDOW_MS <= in_window s)%N ∧ count = 1) →
  count ≤ REGISTRY_RATE_LIMIT_REQUESTS →
  (in_window s <= starts s)%N ∧ (floor s <= starts s)%N ∧
    ((floor s <= in_window s)%N → (starts s < in_window s + REGISTRY_RATE_LIMIT_WINDOW_MS)%N) →
  inv ({| window_opens_at := in_window s; request_count := count; backoff_until := backoff_until l |}, s :: log).
Proof.
  intros [Hc Hl Hs Hp Hst] Hw Hcount Hstart. cbn [fst snd] in *.
  assert (∀ s', s' ∈ log → in_window s' = in_window s ∧ in_window s = window_opens_at l ∨
            (in_window s' + REGISTRY_RATE_LIMIT_WINDOW_MS <= in_window s)%N) as Hpast.
  { intros s' Hs'. destruct (Hp s' Hs') as [E|E], Hw as [[E' _]|[E' _]]; [left|right..]; [|lia..].
    split; congruence. }
  assert (counted (in_window s) (s :: log) = count) as Hn.
  { rewrite counted_cons, decide_True by done. destruct Hw as [[-> ->]|[Hw ->]]; [by rewrite Hc|].
    rewrite counted_none; [done|]. intros s' Hs' E. unfold REGISTRY_RATE_LIMIT_WINDOW_MS in *.
    destruct (Hpast s' Hs') as [[_ ?]|?]; lia. }
  split; cbn [fst snd window_opens_at request_count].
  - done.
  - intros w. destruct (decide (in_window s = w)) as [<-|Hne]; [lia|].
    rewrite counted_cons, decide_False by done. apply Hl.
  - intros s1 s2 [->|H1]%elem_of_cons [->|H2]%elem_of_cons Hne; [done|..|by apply Hs].
    + right. destruct (Hpast s2 H2) as [[? _]|?]; [congruence|lia].
    + left. destruct (Hpast s1 H1) as [[? _]|?]; [congruence|lia].
  - intros s' [->|H]%elem_of_cons; [by left|]. destruct (Hpast s' H) as [[? _]|?]; [by left|by right].
  - intros s' [->|H]%elem_of_cons; [done|by apply Hst].
Qed.

Definition allowed (e : event) : Prop :=
  match e with Reserve _ limit => 0 < limit ≤ REGISTRY_RATE_LIMIT_REQUESTS | RetryAfter _ _ => True end.

Lemma limiter_inv_step e st : inv st → allowed e → inv (step e st).
Proof.
  destruct st as [l log]. intros Hi Ha. destruct e as [now limit|now delay]; cbn [step allowed] in *.
  2:{ destruct Hi. by split. }
  unfold reserve_slot. set (W := REGISTRY_RATE_LIMIT_WINDOW_MS). assert (W = 1000%N) as HW by done.
  destruct (N.leb_spec (window_opens_at l + W) now) as [Hel|Hel]; [|case_decide as Hc].
  - refine (inv_counted l log {| in_window := now; starts := _; floor := _ |} 1 Hi _ _ _); cbn.
    + right. by fold W.
    + lia.
    + unfold sat_sub. fold W. lia.
  - refine (inv_counted l log {| in_window := window_opens_at l; starts := _; floor := _ |} _ Hi _ _ _); cbn.
    + by left.
    + lia.
    + unfold sat_sub. fold W. lia.
  - refine (inv_counted l log {| in_window := window_opens_at l + W; starts := _; floor := _ |} 1 Hi _ _ _); cbn.
    + right. fold W. split; [lia|done].
    + lia.
    + unfold sat_sub. fold W. lia.
Qed.

Lemma limiter_inv_run es st : inv st → Forall allowed es → inv (run es st).
Proof.
  revert st. induction es as [|e es IH]; intros st Hi Ha; [done|].
  apply Forall_cons in Ha as [He Ha]. cbn. apply IH; [|done]. by apply limiter_inv_step.
Qed.

(** The requests that start in the window of time from [t] on, no floor delaying them. *)
Definition bursts (t : N) (log : list slot) : list slot :=
  filter (λ s, floor s <= in_window s ∧ t <= starts s ∧ starts s < t + REGISTRY_RATE_LIMIT_WINDOW_MS)%N log.

Lemma two_windows st t : inv st →
  ∃ w1 w2, ∀ s, s ∈ bursts t st.2 → in_window s = w1 ∨ in_window s = w2.
Proof.
  intros Hi. destruct (bursts t st.2) as [|s1 L] eqn:E.
  { exists 0%N, 0%N. intros s Hs. by apply not_elem_of_nil in Hs. }
  assert (∀ s, s ∈ s1 :: L → s ∈ st.2 ∧ (in_window s < t + REGISTRY_RATE_LIMIT_WINDOW_MS)%N ∧
    (t < in_window s + REGISTRY_RATE_LIMIT_WINDOW_MS)%N) as Hin.
  { intros s Hs. rewrite <- E in Hs. apply list_elem_of_filter in Hs as [(Hf & H1 & H2) Hs].
    destruct (inv_starts _ Hi s Hs) as (H3 & _ & H4). specialize (H4 Hf). split; [done|lia]. }
  destruct (filter (λ s, in_window s ≠ in_window s1) L) as [|s2 L'] eqn:E2.
  { exists (in_window s1), (in_window s1). intros s [->|Hs]%elem_of_cons; [by left|]. left.
    destruct (decide (in_window s = in_window s1)) as [|Hne]; [done|]. exfalso.
    assert (s ∈ filter (λ s, in_window s ≠ in_window s1) L) as H by by apply list_elem_of_filter.
    rewrite E2 in H. by apply not_elem_of_nil in H. }
  assert (s2 ∈ L ∧ in_window s2 ≠ in_window s1) as [Hs2 Hne2].
  { assert (s2 ∈ filter (λ s, in_window s ≠ in_window s1) L) as H by (rewrite E2; left).
    apply list_elem_of_filter in H as [? ?]. done. }
  exists (in_window s1), (in_window s2). intros s Hs.
  destruct (decide (in_window s = in_window s1)) as [|Hn1]; [by left|].
  destruct (decide (in_window s = in_window s2)) as [|Hn2]; [by right|]. exfalso.
  destruct (Hin s Hs) as (Hl & ? & ?), (Hin s1 ltac:(left)) as (Hl1 & ? & ?),
    (Hin s2 ltac:(by right)) as (Hl2 & ? & ?).
  pose proof (inv_spaced _ Hi s s1 Hl Hl1 Hn1). pose proof (inv_spaced _ Hi s s2 Hl Hl2 Hn2).
  pose proof (inv_spaced _ Hi s2 s1 Hl2 Hl1 Hne2). unfold REGISTRY_RATE_LIMIT_WINDOW_MS in *. lia.
Qed.

Lemma filter_two_windows (P : slot → Prop) `{HP : !∀ s, Decision (P s)} w1 w2 log :
  (∀ s, s ∈ log → P s → in_window s = w1 ∨ in_window s = w2) →
  length (filter P log) ≤ counted w1 log + counted w2 log.
Proof.
  induction log as [|s log IH]; intros H; [cbn; lia|]. rewrite !counted_cons, filter_cons.
  assert (length (filter P log) ≤ counted w1 log + counted w2 log) as Hl
    by (apply IH; intros s' Hs'; apply H; by right).
  destruct (decide (P s)) as [Hp|Hp]; cbn; [|lia].
  destruct (H s ltac:(left) Hp) as [E|E]; repeat case_decide; first [congruence|lia].
Qed.

(** The rate limiter, over any sequence of reservations (background ones
    with up to twenty a window, manual ones with fewer, at any instants) and of
    Retry-After floors: no window counts more than twenty requests, windows are
    at least their length apart, no request starts before its window opens or
    before the floor in force when it was made, and so, floors aside, at most
    forty requests ever start within one window's length. *)
Theorem limiter_bounds_requests now es t :
  Forall allowed es →
  let log := (run es (new_limiter now, [])).2 in
  (∀ w, counted w log ≤ REGISTRY_RATE_LIMIT_REQUESTS) ∧
  (∀ s s', s ∈ log → s' ∈ log → in_window s ≠ in_window s' →
     (in_window s + REGISTRY_RATE_LIMIT_WINDOW_MS <= in_window s' ∨
      in_window s' + REGISTRY_RATE_LIMIT_WINDOW_MS <= in_window s)%N) ∧
  (∀ s, s ∈ log → (in_window s <= starts s)%N ∧ (floor s <= starts s)%N) ∧
  length (bursts t log) ≤ 2 * REGISTRY_RATE_LIMIT_REQUESTS.
Proof.
  intros Ha log. pose proof (limiter_inv_run es _ (limiter_inv_start now) Ha) as Hi.
  split_and!; [apply Hi|apply Hi| |].
  - intros s Hs. by destruct (inv_starts _ Hi s Hs) as (? & ? & _).
  - destruct (two_windows _ t Hi) as (w1 & w2 & Hw).
    etransitivity; [apply (filter_two_windows _ w1 w2)|].
    + intros s Hs Hp. apply Hw. apply list_elem_of_filter. by split.
    + pose proof (inv_limit _ Hi w1). pose proof (inv_limit _ Hi w2). subst log. lia.
Qed.

Definition burst_of_six : list event :=
  [Reserve 0 5; Reserve 0 5; Reserve 0 5; Reserve 0 5; Reserve 0 5; Reserve 10 5; RetryAfter 20 5000; Reserve 30 20].

Lemma limiter_bounds_requests_witness :
  Forall allowed burst_of_six ∧
  length (bursts 0 (run burst_of_six (new_limiter 0, [])).2) ≤ 2 * REGISTRY_RATE_LIMIT_REQUESTS.
Proof.
  assert (Forall allowed burst_of_six) as Ha
    by (unfold burst_of_six, allowed, REGISTRY_RATE_LIMIT_REQUESTS; repeat constructor; lia).
  split; [exact Ha|].
  exact (proj2 (proj2 (proj2 (limiter_bounds_requests 0 burst_of_six 0 Ha)))).
Defined.
End RateLimiter.

(** ** Hints (registry/types.rs, and the hint of the protocol) *)

Inductive RegistryHintMode := Off | Cached | RefreshStale | ForceRefresh.
Inductive RegistryHintOrigin := FromCache | FromNetwork.
#[export] Instance mode_eq_dec : EqDecision RegistryHintMode.
Proof. solve_decision. Defined.

Record RegistryHint := {
  is_latest : option bool;
  hint_latest_version : option string;
  hint_latest_published_at : option string;
  deprecated : option bool;
  fetched_at : option N;
}.
Record RegistryHintLookup := {
  hint : option RegistryHint;
  lookup_error : option string;
  origin : RegistryHintOrigin;
}.
Definition no_hint : RegistryHintLookup := {| hint := None; lookup_error := None; origin := FromCache |}.

Definition registry_hint_from_metadata (m : RegistryPackageMetadata)
    (installed_version : option string) (at_ : N) : RegistryHint :=
  {| is_latest := installed ← installed_version; latest ← latest_version m;
                  Some (bool_decide (installed = latest));
     hint_latest_version := latest_version m;
     hint_latest_published_at := latest_published_at m;
     deprecated := version ← installed_version; Some (bool_decide (version ∈ deprecated_versions m));
     fetched_at := Some at_ |}.

Definition lookup_from_entry (entry : Entry) (installed_version : option string)
    (o : RegistryHintOrigin) : RegistryHintLookup :=
  {| hint := (λ m, registry_hint_from_metadata m installed_version (updated_at entry)) <$> metadata entry;
     lookup_error := error entry; origin := o |}.

Definition is_usable_without_fetch (entry : Entry) (now_ms : N) : bool :=
  match metadata entry with
  | Some _ => (sat_sub now_ms (updated_at entry) <=? FRESH_HINT_TTL_MS)%N
  | None => not_found entry && (sat_sub now_ms (updated_at entry) <=? NOT_FOUND_TTL_MS)%N
  end.

Definition cached_lookup_from_entry (cached : option Entry) (installed_version : option string)
    (mode : RegistryHintMode) (now_ms : N) (manual_cooldown_active : bool) : option RegistryHintLookup :=
  if decide (mode = Off) then Some no_hint
  else if decide (mode = Cached) then
    Some (default no_hint ((λ entry, lookup_from_entry entry installed_version FromCache) <$> cached))
  else
    entry ← cached;
    if bool_decide (mode = RefreshStale) &&
       (is_usable_without_fetch entry now_ms ||
        match retry_after entry with Some retry_after => (now_ms <? retry_after)%N | None => false end)
    then Some (lookup_from_entry entry installed_version FromCache)
    else if bool_decide (mode = ForceRefresh) && manual_cooldown_active
    then Some (lookup_from_entry entry installed_version FromCache)
    else None.

(** ** Fetching *)

Definition metadata_of_document (document : Value) : RegistryPackageMetadata :=
  {| latest_version := match value_get "dist-tags" document with
                       | Some tags => str_at "latest" tags | None => None end;
     latest_published_at := str_at "modified" document;
     deprecated_versions := sort String.compare
       match value_get "versions" document with
       | Some (Object versions) =>
           omap (λ p : string * Value,
             match str_at "deprecated" p.2 with
             | Some message => if decide (message = EmptyString) then None else Some p.1
             | None => None
             end) versions
       | _ => []
       end |}.

Record HttpRegistryResponse := { status : N; retry_after_ms : option N; body : string }.

Definition is_transient_status (s : N) : bool := ((s =? 408) || (s =? 425) || (500 <=? s))%N.
Definition is_permanent_fetch_error (message : string) : bool :=
  bool_decide (message = REGISTRY_BODY_TOO_LARGE_ERROR).
Definition transient_backoff_ms (attempt : nat) : N := REGISTRY_RETRY_BASE_DELAY_MS * N.of_nat attempt.

Definition failed_entry_from_cache (cached : option Entry) (err : string) (retry : N) : Entry :=
  {| metadata := cached ≫= metadata; updated_at := default 0%N (updated_at <$> cached);
     retry_after := Some retry; error := Some err; not_found := false |}.

(** [hints] and its state: a poisoned lock is [None]. *)
Record RegistryHintService `{SerdeJson} := {
  cache : RegistryMetadataCache;
  file : option text;
  rate_limiter : option RateLimiter.RegistryRateLimiter;
  manual_cooldowns : option (gmap string N);
}.

(** What one attempt meets: the instants of its reservation and of its answer,
    and the client's answer. *)
Record Try := { reserved_at : N; answered_at : N; reply : HttpRegistryResponse + string }.

Inductive fetched :=
  | Definitive (entry : Entry)
  | RateLimited (delay_ms : N)
  | GaveUp (last_error : option string) (permanent : bool).

Section service.
Context `{SJ : SerdeJson, HO : HashOrder}.
(** [serde_json::from_str]. *)
Context (from_str : string → Value + string).

Definition package_metadata_from_response (r : HttpRegistryResponse) : RegistryPackageMetadata + string :=
  match from_str (body r) with
  | inl document => inl (metadata_of_document document)
  | inr err => inr err
  end.

Definition wait_for_rate_limit_slot (now : N) (manual : bool)
    (l : option RateLimiter.RegistryRateLimiter) : option RateLimiter.RegistryRateLimiter :=
  (λ l, (RateLimiter.reserve_slot now
           (if manual then REGISTRY_MANUAL_RATE_LIMIT_REQUESTS else REGISTRY_RATE_LIMIT_REQUESTS) l).2) <$> l.
Definition apply_global_backoff (now delay_ms : N) (l : option RateLimiter.RegistryRateLimiter) :=
  RateLimiter.apply_retry_after now delay_ms <$> l.

(** The attempts of [fetch_package_with_retries]: [remaining] of them, the next
    being the [attempt]-th; the number made is the last component. *)
Fixpoint attempts (now_ms : N) (manual : bool) (env : nat → Try) (remaining attempt : nat)
    (last_error : option string) (l : option RateLimiter.RegistryRateLimiter) :
    fetched * option RateLimiter.RegistryRateLimiter * nat :=
  match remaining with
  | 0 => (GaveUp last_error false, l, pred attempt)
  | S remaining =>
      let l := wait_for_rate_limit_slot (reserved_at (env attempt)) manual l in
      match reply (env attempt) with
      | inl response =>
          if (status response =? 200)%N then
            match package_metadata_from_response response with
            | inl m => (Definitive {| metadata := Some m; updated_at := now_ms; retry_after := None;
                                      error := None; not_found := false |}, l, attempt)
            | inr err => (GaveUp (Some err) false, l, attempt)
            end
          else if (status response =? 404)%N then
            (Definitive {| metadata := None; updated_at := now_ms; retry_after := None;
                           error := None; not_found := true |}, l, attempt)
          else if (status response =? 429)%N then
            let delay_ms := N.min (default (transient_backoff_ms attempt) (retry_after_ms response))
                              REGISTRY_MAX_BACKOFF_MS in
            (RateLimited delay_ms, apply_global_backoff (answered_at (env attempt)) delay_ms l, attempt)
          else
            let last_error := Some ("npm registry responded with " +:+ pretty (status response)) in
            if bool_decide (attempt = MAX_ATTEMPTS) || negb (is_transient_status (status response))
            then (GaveUp last_error false, l, attempt)
            else attempts now_ms manual env remaining (S attempt) last_error l
      | inr err =>
          if is_permanent_fetch_error err then (GaveUp (Some err) true, l, attempt)
          else if decide (attempt = MAX_ATTEMPTS) then (GaveUp (Some err) false, l, attempt)
          else attempts now_ms manual env remaining (S attempt) (Some err) l
      end
  end.

(** The entry the attempts end in. *)
Definition entry_of (now_ms : N) (cached : option Entry) (f : fetched) : Entry :=
  match f with
  | Definitive entry => entry
  | RateLimited delay_ms => failed_entry_from_cache cached "npm registry rate limit" (sat_add now_ms delay_ms)
  | GaveUp last_error permanent =>
      failed_entry_from_cache cached (default "unknown registry error" last_error)
        (wrap_add now_ms (if permanent then NOT_FOUND_TTL_MS else TRANSIENT_ERROR_RETRY_MS))
  end.

Definition with_store (r : bool * RegistryMetadataCache * option text) (l : option RateLimiter.RegistryRateLimiter)
    (s : RegistryHintService) : RegistryHintService :=
  {| cache := r.1.2; file := renamed r.2 (file s); rate_limiter := l; manual_cooldowns := manual_cooldowns s |}.

Definition fetch_package_with_retries (io : Io) (package_name : string) (now_ms : N) (manual : bool)
    (env : nat → Try) (s : RegistryHintService) : Entry * RegistryHintService :=
  let '(f, l, _) := attempts now_ms manual env MAX_ATTEMPTS 1 None (rate_limiter s) in
  let entry := entry_of now_ms (get package_name (cache s)) f in
  (entry, with_store (write_entry io package_name entry (cache s) (file s)) l s).

(** ** Cooldowns *)

(** [last.elapsed() < cooldown]. *)
Definition cooling (now : N) (last : N) : bool := (sat_sub now last <? MANUAL_REFRESH_COOLDOWN_MS)%N.

Definition manual_cooldown_active (now : N) (package_name : string) (s : RegistryHintService) : bool :=
  match manual_cooldowns s with
  | Some cooldowns => match cooldowns !! package_name with Some last => cooling now last | None => false end
  | None => false
  end.
Definition manual_cooldown_hits (now : N) (package_names : list string) (s : RegistryHintService) : list bool :=
  match manual_cooldowns s with
  | Some cooldowns =>
      (λ key, match cooldowns !! key with Some last => cooling now last | None => false end) <$> package_names
  | None => replicate (length package_names) false
  end.

Definition set_cooldowns (m : option (gmap string N)) (s : RegistryHintService) : RegistryHintService :=
  {| cache := cache s; file := file s; rate_limiter := rate_limiter s; manual_cooldowns := m |}.
Definition record_manual_fetch (now : N) (package_name : string) (s : RegistryHintService) : RegistryHintService :=
  set_cooldowns (<[package_name := now]> <$> manual_cooldowns s) s.
Definition sweep_manual_cooldowns (now : N) (s : RegistryHintService) : RegistryHintService :=
  set_cooldowns (filter (λ p : string * N, cooling now p.2 = true) <$> manual_cooldowns s) s.

(** ** Lookups *)

Definition cached_lookup_for_mode (now : N) (package_name : string) (installed_version : option string)
    (mode : RegistryHintMode) (now_ms : N) (s : RegistryHintService) : option RegistryHintLookup :=
  let cached := get package_name (cache s) in
  cached_lookup_from_entry cached installed_version mode now_ms
    (bool_decide (mode = ForceRefresh) && bool_decide (is_Some cached) &&
     manual_cooldown_active now package_name s).

Definition cached_lookups_for_mode (now : N) (targets : list (string * option string))
    (mode : RegistryHintMode) (now_ms : N) (s : RegistryHintService) : list (option RegistryHintLookup) :=
  if decide (mode = Off) then (λ _, Some no_hint) <$> targets
  else
    let cached_entries := get_many targets.*1 (cache s) in
    let hits := if decide (mode = ForceRefresh) then manual_cooldown_hits now targets.*1 s
                else replicate (length targets) false in
    (λ p : (string * option string) * option Entry * bool,
       cached_lookup_from_entry p.1.2 p.1.1.2 mode now_ms p.2) <$> zip (zip targets cached_entries) hits.

(** [hint_for], the fetch being the one the caller leads; it ends at [done_at]. *)
Definition hint_for (io : Io) (now done_at : N) (package_name : string) (installed_version : option string)
    (mode : RegistryHintMode) (now_ms : N) (env : nat → Try) (s : RegistryHintService) :
    RegistryHintLookup * RegistryHintService :=
  match cached_lookup_for_mode now package_name installed_version mode now_ms s with
  | Some lookup => (lookup, s)
  | None =>
      let manual := bool_decide (mode = ForceRefresh) in
      let '(entry, s) := fetch_package_with_retries io package_name now_ms manual env s in
      let s := if manual && bool_decide (error entry = None)
               then record_manual_fetch done_at package_name s else s in
      (lookup_from_entry entry installed_version FromNetwork, s)
  end.

(** ** The rest of the service *)

Definition flush_hints (io : Io) (s : RegistryHintService) : RegistryHintService :=
  with_store (flush io (cache s) (file s)) (rate_limiter s) s.
Definition clear_hints (io : Io) (now_ms : N) (s : RegistryHintService) : RegistryHintService :=
  with_store (clear io now_ms (cache s)) (rate_limiter s) s.
Definition purge_expired_metadata (io : Io) (now_ms : N) (s : RegistryHintService) : nat * RegistryHintService :=
  let '(n, c, f) := purge_expired io now_ms REGISTRY_RETENTION_MS (cache s) (file s) in
  (n, with_store (true, c, f) (rate_limiter s) s).
Definition run_hint_maintenance (io : Io) (now now_ms max_bytes : N) (s : RegistryHintService) :
    nat * RegistryHintService :=
  let s := sweep_manual_cooldowns now s in
  let '(n, c, f) := run_maintenance io now_ms max_bytes (cache s) (file s) in
  (n, with_store (true, c, f) (rate_limiter s) s).
End service.

(** ** One lookup and many *)

Section lookups.
Context `{SJ : SerdeJson}.

(** A batch answers as its lookups would one by one, at the same instant. *)
Lemma batch_is_pointwise now targets mode now_ms s :
  cached_lookups_for_mode now targets mode now_ms s =
  (λ p, cached_lookup_for_mode now p.1 p.2 mode now_ms s) <$> targets.
Proof.
  unfold cached_lookups_for_mode. case_decide as Hoff.
  { apply list_fmap_ext. intros i p _. subst mode. done. }
  assert (∀ l : list (string * option string),
    (λ p : (string * option string) * option Entry * bool,
       cached_lookup_from_entry p.1.2 p.1.1.2 mode now_ms p.2) <$>
      zip (zip l ((λ p, get p.1 (cache s)) <$> l))
          ((λ p, bool_decide (mode = ForceRefresh) && manual_cooldown_active now p.1 s) <$> l) =
    (λ p, cached_lookup_for_mode now p.1 p.2 mode now_ms s) <$> l) as Hpoint.
  { induction l as [|[name v] l IH]; [done|]. cbn. rewrite <- IH. f_equal.
    unfold cached_lookup_for_mode. destruct (get name (cache s)) as [e|]; cbn.
    - by rewrite andb_true_r.
    - rewrite andb_false_r. destruct mode; done. }
  rewrite <- Hpoint. f_equal. f_equal.
  - f_equal. unfold get_many, get. destruct (entries_poisoned (cache s)).
    + rewrite length_fmap. symmetry. by apply const_fmap.
    + by rewrite <- list_fmap_compose.
  - unfold manual_cooldown_hits, manual_cooldown_active. case_decide as Hf.
    + rewrite bool_decide_true by done. cbn. destruct (manual_cooldowns s).
      * by rewrite <- list_fmap_compose.
      * rewrite length_fmap. symmetry. by apply const_fmap.
    + rewrite bool_decide_false by done. symmetry. by apply const_fmap.
Qed.
End lookups.

(** ** What a fetch leaves *)

Section fetches.
Context `{SJ : SerdeJson, HO : HashOrder} (from_str : string → Value + string).

(** The answers after which another attempt is made. *)
Definition retryable (reply : HttpRegistryResponse + string) : Prop :=
  match reply with
  | inl r => status r ≠ 200%N ∧ status r ≠ 404%N ∧ status r ≠ 429%N ∧ is_transient_status (status r) = true
  | inr err => err ≠ REGISTRY_BODY_TOO_LARGE_ERROR
  end.

(** What the last answer says of the outcome. *)
Definition settled_by (now_ms : N) (attempt : nat) (reply : HttpRegistryResponse + string) (f : fetched) : Prop :=
  match f with
  | Definitive e =>
      updated_at e = now_ms ∧ retry_after e = None ∧ error e = None ∧
      ∃ r, reply = inl r ∧
        (status r = 200%N ∧ not_found e = false ∧
           (∃ m, package_metadata_from_response from_str r = inl m ∧ metadata e = Some m) ∨
         status r = 404%N ∧ not_found e = true ∧ metadata e = None)
  | RateLimited delay_ms =>
      ∃ r, reply = inl r ∧ status r = 429%N ∧ (delay_ms <= REGISTRY_MAX_BACKOFF_MS)%N
  | GaveUp last_error permanent =>
      is_Some last_error ∧ (permanent = true ↔ reply = inr REGISTRY_BODY_TOO_LARGE_ERROR) ∧
      match reply with inl r => status r ≠ 404%N ∧ status r ≠ 429%N | inr _ => True end
  end.

Lemma attempts_settle now_ms manual env remaining attempt last l f l' made :
  remaining + attempt = S MAX_ATTEMPTS → 0 < remaining →
  attempts from_str now_ms manual env remaining attempt last l = (f, l', made) →
  attempt ≤ made ≤ MAX_ATTEMPTS ∧
  (∀ j, attempt ≤ j < made → retryable (reply (env j))) ∧
  settled_by now_ms made (reply (env made)) f.
Proof.
  revert attempt last l. induction remaining as [|n IH]; intros attempt last l Hn Hpos; [lia|].
  cbn [attempts].
  assert (∀ last l, ¬ attempt = MAX_ATTEMPTS → retryable (reply (env attempt)) →
    attempts from_str now_ms manual env n (S attempt) last l = (f, l', made) →
    attempt ≤ made ≤ MAX_ATTEMPTS ∧ (∀ j, attempt ≤ j < made → retryable (reply (env j))) ∧
    settled_by now_ms made (reply (env made)) f) as Hnext.
  { intros last' l0 Hmax Hret H. destruct (IH (S attempt) last' l0) as (Hb & Hj & Hs); [lia|lia|done|].
    split; [lia|]. split; [|done]. intros j Hjr. destruct (decide (j = attempt)) as [->|Hne]; [done|].
    apply Hj. lia. }
  assert (∀ f0 l0, settled_by now_ms attempt (reply (env attempt)) f0 → (f0, l0, attempt) = (f, l', made) →
    attempt ≤ made ≤ MAX_ATTEMPTS ∧ (∀ j, attempt ≤ j < made → retryable (reply (env j))) ∧
    settled_by now_ms made (reply (env made)) f) as Hstop.
  { intros f0 l0 Hs [= <- _ <-]. split; [lia|]. split; [lia|done]. }
  destruct (reply (env attempt)) as [r|err] eqn:Hr.
  - destruct (N.eqb_spec (status r) 200) as [E2|E2]; [|destruct (N.eqb_spec (status r) 404) as [E4|E4];
      [|destruct (N.eqb_spec (status r) 429) as [E9|E9]]].
    + destruct (package_metadata_from_response from_str r) as [m|err] eqn:Hm; apply Hstop; cbn.
      * split_and!; [done..|]. exists r. split; [done|]. left. split_and!; [done|done|by exists m].
      * split_and!; [by eexists|done|lia|lia].
    + apply Hstop. cbn. split_and!; [done..|]. exists r. split; [done|]. by right.
    + apply Hstop. cbn. exists r. split_and!; [done|done|lia].
    + destruct (bool_decide _ || _) eqn:Hb.
      * apply Hstop. cbn. by split_and!; [by eexists|done|..].
      * apply orb_false_iff in Hb as [Hb1%bool_decide_eq_false Hb2%negb_false_iff].
        apply Hnext; [done|]. by cbn.
  - destruct (is_permanent_fetch_error err) eqn:Hp; unfold is_permanent_fetch_error in Hp.
    + apply bool_decide_eq_true in Hp as ->. apply Hstop. cbn. by split_and!; [by eexists|..].
    + apply bool_decide_eq_false in Hp. case_decide.
      * apply Hstop. cbn. split_and!; [by eexists| |done]. split; [done|]. intros [= ->]. done.
      * apply Hnext; [done|]. by cbn.
Qed.

(** When a stale-refreshing lookup answers from the store. *)
Lemma refresh_served e version later :
  is_Some (cached_lookup_from_entry (Some e) version RefreshStale later false) ↔
  is_usable_without_fetch e later = true ∨ ∃ t, retry_after e = Some t ∧ (later < t)%N.
Proof.
  unfold cached_lookup_from_entry. cbn.
  destruct (is_usable_without_fetch e later); cbn; [naive_solver|].
  destruct (retry_after e) as [t|]; [|split; [by intros [? ?]|naive_solver]].
  destruct (N.ltb_spec later t); split; try naive_solver.
  intros [?|(t' & [= <-] & ?)]; [done|lia].
Qed.

Lemma usable_iff e later :
  (not_found e = true → metadata e = None) →
  is_usable_without_fetch e later = true ↔
  (is_Some (metadata e) ∨ not_found e = true) ∧ (sat_sub later (updated_at e) <= FRESH_HINT_TTL_MS)%N.
Proof.
  intros Hn. unfold is_usable_without_fetch. change NOT_FOUND_TTL_MS with FRESH_HINT_TTL_MS.
  destruct (metadata e) as [m|].
  - rewrite N.leb_le. naive_solver.
  - rewrite andb_true_iff, N.leb_le. split; [intros [? ?]; auto|]. intros [[[? ?]|?] ?]; done.
Qed.

(** What a failed attempt records. *)
Lemma failed_entry_settles cached err t now_ms cap :
  (now_ms <= t <= now_ms + cap)%N →
  let e := failed_entry_from_cache cached err t in
  error e = Some err ∧ metadata e = cached ≫= metadata ∧
  updated_at e = default 0%N (updated_at <$> cached) ∧ not_found e = false ∧
  retry_after e = Some t ∧ (now_ms <= t <= now_ms + cap)%N.
Proof. by intros ?. Qed.

(** A fetch of npm metadata settles. It makes one to three attempts, each
    but the last having met a transient answer, a 429 or an oversize body never
    being tried again. A success or a 404 is recorded as of [now]; any failure
    keeps the metadata the store had, with its old date, and is retried no
    later than six hours from [now], five minutes after a 429. And what it
    recorded is answered from the store without another fetch exactly while it
    is fresh: for six hours after a success or a 404, and after a failure until
    its retry time, or as long as the old metadata itself is fresh. *)
Theorem fetch_settles io package_name now_ms manual env s e s' :
  fetch_package_with_retries from_str io package_name now_ms manual env s = (e, s') →
  (now_ms + NOT_FOUND_TTL_MS <= u64_max)%N →
  let cached := get package_name (cache s) in
  ∃ made, 1 ≤ made ≤ MAX_ATTEMPTS ∧
    (∀ j, 1 ≤ j < made → retryable (reply (env j))) ∧
    (match error e with
     | None => updated_at e = now_ms ∧ retry_after e = None ∧
               (is_Some (metadata e) ∧ not_found e = false ∨ metadata e = None ∧ not_found e = true)
     | Some _ => metadata e = cached ≫= metadata ∧ updated_at e = default 0%N (updated_at <$> cached) ∧
                 not_found e = false ∧
                 ∃ t, retry_after e = Some t ∧ (now_ms <= t <= now_ms + NOT_FOUND_TTL_MS)%N ∧
                   ((∃ r, reply (env made) = inl r ∧ status r = 429%N) → (t <= now_ms + REGISTRY_MAX_BACKOFF_MS)%N)
     end) ∧
    (∀ version later,
       is_Some (cached_lookup_from_entry (Some e) version RefreshStale later false) ↔
       (error e = None ∨ is_Some (metadata e)) ∧ (sat_sub later (updated_at e) <= FRESH_HINT_TTL_MS)%N ∨
       ∃ t, retry_after e = Some t ∧ (later < t)%N).
Proof.
  unfold fetch_package_with_retries.
  destruct (attempts _ _ _ _ _ _ _ _) as [[f l'] made] eqn:Ha.
  destruct (attempts_settle now_ms manual env MAX_ATTEMPTS 1 None (rate_limiter s) f l' made
    eq_refl ltac:(unfold MAX_ATTEMPTS; lia) Ha) as (Hm & Hj & Hs).
  intros [= <- _] Hmax. exists made. split; [lia|]. split; [done|].
  change NOT_FOUND_TTL_MS with 21600000%N in *.
  assert (∀ d, (d <= 21600000)%N → sat_add now_ms d = now_ms + d ∧ wrap_add now_ms d = now_ms + d)%N as Hadd.
  { intros d Hd. split; [apply sat_add_small; lia|apply wrap_add_small; lia]. }
  split.
  - destruct f as [e|d|last perm]; cbn [entry_of settled_by] in *.
    + destruct Hs as (-> & -> & -> & r & _ & [(_ & -> & m & _ & ->)|(_ & -> & ->)]); eauto 10.
    + destruct Hs as (r & Hr & H9 & Hd). unfold REGISTRY_MAX_BACKOFF_MS in *.
      rewrite (proj1 (Hadd d ltac:(lia))). cbn. split_and!; [done..|]. eexists. split; [done|].
      split; [lia|]. intros _. lia.
    + destruct Hs as (_ & _ & Hr). cbn. split_and!; [done..|]. eexists. split; [done|].
      rewrite (proj2 (Hadd (if perm then NOT_FOUND_TTL_MS else TRANSIENT_ERROR_RETRY_MS)%N ltac:(by destruct perm))).
      split; [unfold NOT_FOUND_TTL_MS, TRANSIENT_ERROR_RETRY_MS; destruct perm; lia|].
      intros (r & Hr' & H9). rewrite Hr' in Hr. by destruct Hr.
  - intros version later. rewrite refresh_served, usable_iff.
    + destruct f as [e|d|last perm]; cbn [entry_of settled_by] in *.
      * destruct Hs as (_ & _ & -> & r & _ & [(_ & -> & m & _ & ->)|(_ & -> & ->)]); naive_solver.
      * cbn. naive_solver.
      * cbn. naive_solver.
    + destruct f as [e|d|last perm]; cbn [entry_of settled_by] in *; [|done..].
      destruct Hs as (_ & _ & _ & r & _ & [(_ & -> & _)|(_ & _ & ->)]); done.
Qed.
End fetches.

(** ** Witness: a server error, then a 429 with an hour's Retry-After, over a
    store that holds old metadata *)

Definition old_entry : Entry :=
  {| metadata := Some {| latest_version := Some "1.0.0"; latest_published_at := None;
                         deprecated_versions := [] |};
     updated_at := 7; retry_after := None; error := None; not_found := false |}.
Definition hints : RegistryHintService (H := plain_json) :=
  {| cache := holding {["react" := old_entry]} 0; file := None;
     rate_limiter := Some (RateLimiter.new_limiter 0); manual_cooldowns := Some ∅ |}.
Definition busy_registry (attempt : nat) : Try :=
  {| reserved_at := N.of_nat attempt; answered_at := N.of_nat attempt;
     reply := inl {| status := if decide (attempt = 1) then 503 else 429;
                     retry_after_ms := Some 3600000%N; body := "" |} |}.

Definition rate_limited_react : Entry :=
  {| metadata := metadata old_entry; updated_at := 7; retry_after := Some 100300000%N;
     error := Some "npm registry rate limit"; not_found := false |}.
Definition fetch_react :=
  fetch_package_with_retries (HO := key_order) (λ _, inr "") all_well "react" 100000000 false busy_registry hints.
Lemma react_fetched : fetch_react = (rate_limited_react, fetch_react.2).
Proof. vm_compute. reflexivity. Qed.

Lemma fetch_settles_witness :
  is_Some (cached_lookup_from_entry (Some rate_limited_react) None RefreshStale 100200000 false) ↔
  (error rate_limited_react = None ∨ is_Some (metadata rate_limited_react)) ∧
    (sat_sub 100200000 7 <= FRESH_HINT_TTL_MS)%N ∨
  ∃ t, retry_after rate_limited_react = Some t ∧ (100200000 < t)%N.
Proof.
  destruct (fetch_settles (HO := key_order) (λ _, inr "") all_well "react" 100000000 false busy_registry
    hints rate_limited_react fetch_react.2 react_fetched ltac:(vm_compute; discriminate))
    as (made & _ & _ & _ & H).
  exact (H None 100200000%N).
Defined.
