(* ===== verification/AssetReport.v ===== *)
(** What the processed assets add to a size and what they owe the user
    (pipeline/assets.rs, and the disclosure sentence of engine/mod.rs): the
    composition by kind, the totals, the disclosures, and how a failed asset
    stage is reported. *)
From stdpp Require Import base list strings pretty.
From S2P Require Import Prelude Stages Results Fingerprints AssetLedger AssetBoundary.

(** ** Sizes *)

(** The five [+=] of a size into a total, each wrapping. *)
Definition add_sizes (a b : MeasuredSizes) : MeasuredSizes :=
  {| m_raw := wrap_add (m_raw a) (m_raw b); m_minified := wrap_add (m_minified a) (m_minified b);
     m_gzip := wrap_add (m_gzip a) (m_gzip b); m_brotli := wrap_add (m_brotli a) (m_brotli b);
     m_zstd := wrap_add (m_zstd a) (m_zstd b) |}.

Lemma wrap_add_assoc a b c : wrap_add (wrap_add a b) c = wrap_add a (wrap_add b c).
Proof.
  unfold wrap_add. generalize (u64_max + 1)%N. intros m.
  rewrite N.Div0.add_mod_idemp_l, N.Div0.add_mod_idemp_r. by rewrite N.add_assoc.
Qed.
Lemma wrap_add_comm a b : wrap_add a b = wrap_add b a.
Proof. unfold wrap_add. by rewrite N.add_comm. Qed.
Lemma add_sizes_assoc a b c : add_sizes (add_sizes a b) c = add_sizes a (add_sizes b c).
Proof. unfold add_sizes. cbn. by rewrite !wrap_add_assoc. Qed.
Lemma add_sizes_comm a b : add_sizes a b = add_sizes b a.
Proof. unfold add_sizes. f_equal; apply wrap_add_comm. Qed.

(** The sum of a list of sizes, from left to right. *)
Definition sum_sizes (l : list MeasuredSizes) : MeasuredSizes := foldl add_sizes ZERO l.

(** ** The uncounted sentence (engine/mod.rs) *)

Record UncountedAsset := { u_path : string; u_bytes : N }.

Definition file_name_or_path (path : string) : string :=
  match parent_and_name path with Some (_, name) => name | None => path end.

Fixpoint join_comma (l : list string) : string :=
  match l with
  | [] => ""
  | [s] => s
  | s :: l => s +:+ ", " +:+ join_comma l
  end.

Definition uncounted_assets_message (assets : list UncountedAsset) (total_is_floor : bool) : string :=
  let disclosed_bytes := foldl wrap_add 0%N (u_bytes <$> assets) in
  let total :=
    if negb total_is_floor && forallb (λ a, 0 <? u_bytes a)%N assets
    then "totalling " +:+ pretty disclosed_bytes +:+ " bytes"
    else if (0 <? disclosed_bytes)%N
    then "totalling at least " +:+ pretty disclosed_bytes +:+ " bytes"
    else "of unknown size" in
  "package ships " +:+ pretty (length assets) +:+ " non-JavaScript asset(s) " +:+ total +:+
  " that this size does NOT include: " +:+ join_comma ((λ a, file_name_or_path (u_path a)) <$> assets).

(** ** [ProcessedAssets] *)

Record ProcessedAssets := {
  contributions : list AssetContribution;
  pa_read_paths : list string;
  read_time_fingerprints : list FileFingerprint;
  uncounted : list UncountedAsset;
  failures : list string;
  stylesheets_measured_separately : option string;
  css_dependency_omissions : list string;
  uncounted_total_is_floor : bool;
  css_dependency_external : list string;
  non_durable_stages : list string;       (* a set *)
}.

Definition no_assets : ProcessedAssets :=
  {| contributions := []; pa_read_paths := []; read_time_fingerprints := []; uncounted := [];
     failures := []; stylesheets_measured_separately := None; css_dependency_omissions := [];
     uncounted_total_is_floor := false; css_dependency_external := []; non_durable_stages := [] |}.

Definition total (p : ProcessedAssets) : MeasuredSizes := sum_sizes (ac_sizes <$> contributions p).

Definition has_uncounted_assets (p : ProcessedAssets) : bool :=
  negb (bool_decide (uncounted p = [])) || negb (bool_decide (css_dependency_omissions p = [])).

#[export] Instance uncounted_eq_dec : EqDecision UncountedAsset.
Proof. solve_decision. Defined.

Definition freshness_fingerprints (p : ProcessedAssets) : list FileFingerprint :=
  sort_and_dedup_fingerprints (read_time_fingerprints p).

Definition unreadable_inputs (p : ProcessedAssets) : list string :=
  dedup (sort String.compare (fp_path <$> filter (λ f, fingerprint_is_unverifiable f = true)
                                           (read_time_fingerprints p))).

(** ** Disclosures *)

Definition uncounted_assets_diagnostic (p : ProcessedAssets) : option ImportDiagnostic :=
  match uncounted p with
  | [] => None
  | _ => Some {| d_stage := diagnostic_stage.UNCOUNTED_ASSETS;
                 d_message := uncounted_assets_message (uncounted p) (uncounted_total_is_floor p);
                 d_details := failures p |}
  end.

Definition imprecise_assets_diagnostic (p : ProcessedAssets) : option ImportDiagnostic :=
  (λ reason, {| d_stage := diagnostic_stage.IMPRECISE_ASSETS;
     d_message := "the stylesheets could not be bundled as one artifact, so each was measured and compressed on its own: bytes two sheets share are counted once per sheet, and no sheet's compression can use what the others contain, so this size reads HIGH";
     d_details := [reason] |}) <$> stylesheets_measured_separately p.

Definition omitted_css_resources_diagnostic (p : ProcessedAssets) : option ImportDiagnostic :=
  match css_dependency_omissions p with
  | [] => None
  | omissions => Some {| d_stage := diagnostic_stage.UNCOUNTED_ASSETS;
      d_message := "the stylesheet was measured, but local resources it references could not be located or inspected, so this size does NOT include their shipped bytes";
      d_details := omissions |}
  end.

Definition external_css_resources_diagnostic (p : ProcessedAssets) : option ImportDiagnostic :=
  match css_dependency_external p with
  | [] => None
  | external => Some {| d_stage := diagnostic_stage.EXTERNAL;
      d_message := "the stylesheet references resources fetched at runtime; they are real weight for the page but are not bytes this package ships, so this size excludes them";
      d_details := external |}
  end.

Definition asset_io_diagnostic (p : ProcessedAssets) : option ImportDiagnostic :=
  match unreadable_inputs p with
  | [] => None
  | paths => Some {| d_stage := engine_stage.ASSET_IO;
      d_message := "one or more asset inputs could not be read during this analysis; the result reflects a changing or unavailable filesystem and will not be reused";
      d_details := (λ path, "unreadable asset input: " +:+ path) <$> paths |}
  end.

Definition asset_compression_diagnostic (p : ProcessedAssets) : option ImportDiagnostic :=
  if decide (stage.COMPRESSION ∈ non_durable_stages p) then
    Some {| d_stage := stage.COMPRESSION;
      d_message := "an asset compressor failed during this analysis; the partial asset size is request-local and will not be reused";
      d_details := [] |}
  else None.

Definition asset_diagnostics (p : ProcessedAssets) : list ImportDiagnostic :=
  omap id [uncounted_assets_diagnostic p; imprecise_assets_diagnostic p;
           omitted_css_resources_diagnostic p; external_css_resources_diagnostic p;
           asset_io_diagnostic p; asset_compression_diagnostic p].

(** ** A failed asset stage *)

Record AssetProcessingFailure := {
  apf_stage : string;
  apf_message : string;
  apf_read_paths : list string;
  apf_read_time_fingerprints : list FileFingerprint;
}.

(** [display] is the error's [to_string]. *)
Definition boundary_failure {T} (display : AssetGate.outcome (T := T) → string)
    (e : AssetGate.outcome (T := T)) : option AssetProcessingFailure :=
  stage ← match e with
          | AssetGate.Answered _ => None
          | AssetGate.AdmissionTimedOut _ | AssetGate.ExecutionTimedOut _ => Some engine_stage.TIMEOUT
          | AssetGate.Panicked _ => Some engine_stage.PANIC
          | AssetGate.AdmissionFailed _ => Some engine_stage.ENGINE_GONE
          end;
  Some {| apf_stage := stage; apf_message := display e; apf_read_paths := []; apf_read_time_fingerprints := [] |}.

(** [disclose_budget_breach]: every asset raw, none counted. *)
Definition disclose_budget_breach (assets : list CollectedAsset) (message : string)
    (reads : list string) (fps : list FileFingerprint) : ProcessedAssets :=
  let unc := (λ a, {| u_path := a_path a; u_bytes := asset_len a |}) <$> assets in
  {| contributions := []; pa_read_paths := reads; read_time_fingerprints := fps; uncounted := unc;
     failures := [message]; stylesheets_measured_separately := None;
     css_dependency_omissions :=
       match unc with
       | [] => ["asset processing stopped at its resource limit, so bytes it had not reached are not in this size"]
       | _ => []
       end;
     uncounted_total_is_floor := true; css_dependency_external := []; non_durable_stages := [] |}.

(** ** The disclosures say what the flag says *)

Lemma existsb_omap_id {A} (f : A → bool) (l : list (option A)) :
  existsb f (omap id l) = existsb (λ o, match o with Some a => f a | None => false end) l.
Proof. induction l as [|[a|] l IH]; cbn; [done| |]; by rewrite IH. Qed.

(** Bytes are missing exactly when a floor is disclosed. *)
Lemma uncounted_is_disclosed p :
  has_uncounted_assets p = existsb (λ d, stage.marks_a_floor (d_stage d)) (asset_diagnostics p).
Proof.
  unfold asset_diagnostics. rewrite existsb_omap_id. cbn.
  unfold has_uncounted_assets, uncounted_assets_diagnostic, imprecise_assets_diagnostic,
    omitted_css_resources_diagnostic, external_css_resources_diagnostic, asset_io_diagnostic,
    asset_compression_diagnostic.
  destruct (uncounted p), (css_dependency_omissions p), (stylesheets_measured_separately p),
    (css_dependency_external p), (unreadable_inputs p); cbn; case_decide; reflexivity.
Qed.

Lemma breach_is_uncounted assets message reads fps :
  has_uncounted_assets (disclose_budget_breach assets message reads fps) = true.
Proof. unfold has_uncounted_assets. cbn. by destruct assets. Qed.
