(* ===== verification/FileSize.v ===== *)
(** File Cost (pipeline/file_size.rs): the imports of a file grouped by runtime,
    one combined build a group, and the per-import sums a group falls back to.
    The resolver, the engine, the minifier, the compressors and the asset stage
    are the parameters; what is modelled is how their answers become totals and
    flags. *)
From stdpp Require Import base gmap list strings.
From S2P Require Import Prelude Stages Results Fingerprints CacheKeys AssetLedger EngineBoundary AssetReport.

(** ** Requests, builds and results (engine/mod.rs, pipeline/analyze.rs) *)

Inductive BundleSelection := SelectNamed (names : list string) | SelectDefault | SelectNamespace | SelectFull.
Record BundleEntry := { entry_path : string; package_root : string; selection : BundleSelection }.

Definition engine_selection (r : ImportRequest) : BundleSelection :=
  match rq_import_kind r with
  | Named => match rq_named r with [] => SelectFull | names => SelectNamed names end
  | Default => SelectDefault
  | Namespace => SelectNamespace
  | Dynamic => SelectFull
  end.

Record BundleArtifact := {
  code : string;
  graph_source_bytes : N;
  loaded_paths : list string;
  art_fingerprints : list FileFingerprint;
  unhashed_paths : list string;
  art_contributions : list ModuleContribution;
  exported_names : list string;
  art_diagnostics : list ImportDiagnostic;
  assets : list CollectedAsset;
  emitted_assets : list UncountedAsset;
}.

Record CompressionSizes := { z_gzip : N; z_brotli : N; z_zstd : N }.

(** ** Imports and totals *)

Inductive SizedPackage := Installed (request : ImportRequest) | NotInstalled | PathAlias.
Record SizedImport := {
  package : SizedPackage;
  si_specifier : string;
  result : option ImportResult;
}.
Definition installed (request : ImportRequest) (r : option ImportResult) : SizedImport :=
  {| package := Installed request; si_specifier := rq_specifier request; result := r |}.
Definition not_installed (spec : string) : SizedImport :=
  {| package := NotInstalled; si_specifier := spec; result := None |}.
Definition path_alias (spec : string) : SizedImport :=
  {| package := PathAlias; si_specifier := spec; result := None |}.

Record FileSizeComputation := {
  f_sizes : MeasuredSizes;
  f_breakdown : list AssetContribution;
  incomplete : bool;
  degraded : bool;
  f_error : option string;
  f_diagnostics : list ImportDiagnostic;
  dependency_fingerprints : list FileFingerprint;
}.
Definition empty_computation : FileSizeComputation :=
  {| f_sizes := ZERO; f_breakdown := []; incomplete := false; degraded := false; f_error := None;
     f_diagnostics := []; dependency_fingerprints := [] |}.

Definition is_file_cost (c : FileSizeComputation) : bool :=
  bool_decide (f_error c = None) && negb (incomplete c) && negb (degraded c) &&
  fingerprints_are_reusable (dependency_fingerprints c) &&
  negb (existsb (λ d, stage.is_transient (d_stage d)) (f_diagnostics c)).

Definition may_enter_aggregate_cache (c : FileSizeComputation) : bool :=
  is_file_cost c ||
  (bool_decide (f_error c = None) && negb (degraded c) &&
   fingerprints_are_reusable (dependency_fingerprints c) &&
   forallb (λ d, stage.may_enter_a_durable_store (d_stage d)) (f_diagnostics c)).

(** Merge one contribution into the row of its kind, or start one. *)
Fixpoint absorb_one (c : AssetContribution) (breakdown : list AssetContribution) : list AssetContribution :=
  match breakdown with
  | [] => [c]
  | b :: rest =>
      if decide (ac_kind b = ac_kind c)
      then {| ac_kind := ac_kind b; ac_sizes := add_sizes (ac_sizes b) (ac_sizes c) |} :: rest
      else b :: absorb_one c rest
  end.
Definition absorb_asset_breakdown_into (breakdown contributions : list AssetContribution) :
    list AssetContribution := foldl (λ b c, absorb_one c b) breakdown contributions.

(** [PerImportTotals]. *)
Record PerImportTotals := {
  sized_any : bool;
  missing_inputs : bool;
  p_sizes : MeasuredSizes;
  p_breakdown : list AssetContribution;
}.
Definition no_totals : PerImportTotals :=
  {| sized_any := false; missing_inputs := false; p_sizes := ZERO; p_breakdown := [] |}.

Definition absorb_fallback (fallback : PerImportTotals) (c : FileSizeComputation) :
    bool * FileSizeComputation :=
  if sized_any fallback then
    (true, {| f_sizes := add_sizes (f_sizes c) (p_sizes fallback);
              f_breakdown := absorb_asset_breakdown_into (f_breakdown c) (p_breakdown fallback);
              incomplete := incomplete c || missing_inputs fallback; degraded := degraded c;
              f_error := f_error c; f_diagnostics := f_diagnostics c;
              dependency_fingerprints := dependency_fingerprints c |})
  else
    (false, {| f_sizes := f_sizes c; f_breakdown := f_breakdown c;
               incomplete := incomplete c || missing_inputs fallback; degraded := degraded c;
               f_error := f_error c; f_diagnostics := f_diagnostics c;
               dependency_fingerprints := dependency_fingerprints c |}).

Definition diagnostic (stage message : string) (details : list string) : ImportDiagnostic :=
  {| d_stage := stage; d_message := message; d_details := details |}.
Definition strip_details (d : ImportDiagnostic) : ImportDiagnostic := diagnostic (d_stage d) (d_message d) [].

(** One import of the conservative sum. *)
Definition per_import_step (st : PerImportTotals * list ImportDiagnostic) (import : SizedImport) :
    PerImportTotals * list ImportDiagnostic :=
  let '(totals, diags) := st in
  let spec := "specifier: " +:+ si_specifier import in
  let missing := {| sized_any := sized_any totals; missing_inputs := true; p_sizes := p_sizes totals;
                    p_breakdown := p_breakdown totals |} in
  match result import with
  | None =>
      (missing, diags ++ [diagnostic stage.FILE_SIZE_FALLBACK
        "import size is still being measured, so it is not counted in this file's conservative total" [spec]])
  | Some r =>
      match sizes r with
      | None =>
          let stg := default stage.FILE_SIZE_FALLBACK (unmeasured_stage r) in
          (missing, diags ++ [diagnostic stg (default "import could not be measured" (error r))
            [spec; if stage.is_transient stg
                   then "this import's own build failed transiently, so its bytes are unknown for this run and the file's total is a floor"
                   else "this import could not be measured, so its bytes are missing from the file's total, which is a floor"]])
      | Some s =>
          let floors := filter (λ d, stage.marks_a_floor (d_stage d) = true) (diagnostics r) in
          ({| sized_any := true; missing_inputs := missing_inputs totals || is_floor r;
              p_sizes := add_sizes (p_sizes totals) s;
              p_breakdown := absorb_asset_breakdown_into (p_breakdown totals) (asset_breakdown r) |},
           diags ++ if is_floor r
                    then (λ d, diagnostic (d_stage d) (d_message d) (spec :: d_details d)) <$> floors
                    else [])
      end
  end.
Definition per_import_totals (sized : list SizedImport) (diags : list ImportDiagnostic) :
    PerImportTotals * list ImportDiagnostic := foldl per_import_step (no_totals, diags) sized.

Definition error_computation (c : FileSizeComputation) (stage message : string)
    (diags : list ImportDiagnostic) : FileSizeComputation :=
  {| f_sizes := ZERO; f_breakdown := []; incomplete := incomplete c; degraded := degraded c;
     f_error := Some message; f_diagnostics := diags ++ [diagnostic stage message []];
     dependency_fingerprints := [] |}.

(** ** The computation *)

Record RuntimeGroup := { entries : list BundleEntry; sized : list SizedImport }.
(** [BTreeMap<ImportRuntime, _>], walked in the order of the runtimes. *)
Abbreviation Groups := (gmap ImportRuntime RuntimeGroup).
Definition runtimes : list ImportRuntime := [Component; Client; Server].
Definition groups_in_order (g : Groups) : list (ImportRuntime * RuntimeGroup) :=
  omap (λ rt, (λ x, (rt, x)) <$> g !! rt) runtimes.

Section compute.
(** [resolve] is [resolve_package_entry] from the active document; [bundle] is
    [bundle_sync] for [BundlePurpose::FileSize]. *)
Context `{FS : FileSystem, CH : ContentHash} (windows : bool)
        (resolve : ImportRequest → ResolvedPackage + string)
        (bundle : ImportRuntime → list BundleEntry → BundleArtifact + Permits.BundleFailure)
        (minify : string → string + string)
        (compress : string → CompressionSizes + string)
        (process_assets_bounded : list CollectedAsset → N → list string → ProcessedAssets + AssetProcessingFailure)
        (first_party_manifests : list string → list string).

(** The state of the first loop: the [incomplete] flag, the diagnostics, the groups. *)
Definition classify_step (st : bool * list ImportDiagnostic * Groups) (import : SizedImport) :
    bool * list ImportDiagnostic * Groups :=
  let '(missing, diags, groups) := st in
  let spec := "specifier: " +:+ si_specifier import in
  match package import with
  | NotInstalled =>
      (true, diags ++ [diagnostic stage.PACKAGE_RESOLUTION
        "package is not installed, so its bytes are missing from this file's total, which is a floor" [spec]], groups)
  | PathAlias =>
      (missing, diags ++ [diagnostic stage.PATH_ALIAS
        "specifier is a path alias resolving to first-party source, not an installed package; Import Lens measures third-party imports, so it contributes no bytes to this file's total" [spec]], groups)
  | Installed request =>
      match resolve request with
      | inl resolved =>
          let group := default {| entries := []; sized := [] |} (groups !! rq_runtime request) in
          let entry := {| entry_path := rp_entry_path resolved; package_root := rp_package_root resolved;
                          selection := engine_selection request |} in
          (missing, diags,
           <[rq_runtime request := {| entries := entries group ++ [entry]; sized := sized group ++ [import] |}]> groups)
      | inr err =>
          if match result import with Some r => is_types_only r | None => false end then
            (missing, diags ++ [diagnostic stage.TYPES_ONLY
              "package contains declarations only; it contributes zero runtime bytes to this file, which is a measurement and not a gap" [spec]], groups)
          else if match result import with Some r => is_native_binary_only r | None => false end then
            (missing, diags ++ [diagnostic stage.NATIVE_BINARY_ONLY
              "package ships only a native binary; it contributes zero runtime bytes to this file, which is a measurement and not a gap" [spec]], groups)
          else (true, diags ++ [diagnostic stage.ENTRY_RESOLUTION err [spec]], groups)
      end
  end.

(** A group that degrades: its flag, its diagnostics, its conservative sum. *)
Definition degrade (group : RuntimeGroup) (own : list ImportDiagnostic)
    (st : FileSizeComputation * list ImportDiagnostic * bool) :
    FileSizeComputation * list ImportDiagnostic * bool :=
  let '(totals, diags, any_sized) := st in
  let '(fallback, diags) := per_import_totals (sized group) (diags ++ own) in
  let totals := {| f_sizes := f_sizes totals; f_breakdown := f_breakdown totals;
                   incomplete := incomplete totals; degraded := true; f_error := f_error totals;
                   f_diagnostics := f_diagnostics totals;
                   dependency_fingerprints := dependency_fingerprints totals |} in
  let '(contributed, totals) := absorb_fallback fallback totals in
  (totals, diags, any_sized || contributed).

(** A group whose build, minification, compression and assets all succeeded. *)
Definition measure (artifact : BundleArtifact) (minified : string) (compressed : CompressionSizes)
    (processed : ProcessedAssets) (st : FileSizeComputation * list ImportDiagnostic * bool) :
    FileSizeComputation * list ImportDiagnostic * bool :=
  let '(totals, diags, any_sized) := st in
  let js := {| m_raw := N.of_nat (String.length (code artifact)); m_minified := N.of_nat (String.length minified);
               m_gzip := z_gzip compressed; m_brotli := z_brotli compressed; m_zstd := z_zstd compressed |} in
  ({| f_sizes := add_sizes (f_sizes totals) (add_sizes js (total processed));
      f_breakdown := absorb_asset_breakdown_into (f_breakdown totals) (contributions processed);
      incomplete := incomplete totals ||
        (negb (bool_decide (emitted_assets artifact = [])) || has_uncounted_assets processed ||
         existsb (λ d, stage.marks_a_floor (d_stage d)) (art_diagnostics artifact));
      degraded := degraded totals; f_error := f_error totals; f_diagnostics := f_diagnostics totals;
      dependency_fingerprints := dependency_fingerprints totals ++ art_fingerprints artifact ++
        freshness_fingerprints processed ++
        omap (file_fingerprint_reading_hash windows) (first_party_manifests (loaded_paths artifact)) ++
        (unverifiable_file_fingerprint windows <$> unhashed_paths artifact) |},
   diags ++ asset_diagnostics processed, true).

(** One turn of the loop over the groups. *)
Definition group_step (st : FileSizeComputation * list ImportDiagnostic * bool)
    (rg : ImportRuntime * RuntimeGroup) : FileSizeComputation * list ImportDiagnostic * bool :=
  let '(runtime, group) := rg in
  match bundle runtime (entries group) with
  | inr failure =>
      degrade group
        ((strip_details <$> Permits.diagnostics failure) ++
         [diagnostic (Permits.stage failure) (Permits.message failure)
            ["combined file-size build failed for this runtime; its totals are conservative per-import sums without shared-module deduplication"]]) st
  | inl artifact =>
      let own := strip_details <$> art_diagnostics artifact in
      match minify (code artifact) with
      | inr err =>
          degrade group (own ++ [diagnostic stage.MINIFY err
            ["minification failed for this runtime; its totals are conservative per-import sums without shared-module deduplication"]]) st
      | inl minified =>
          match compress minified with
          | inr err =>
              degrade group (own ++ [diagnostic stage.COMPRESSION err
                ["compression failed for this runtime; its totals are conservative per-import sums without shared-module deduplication"]]) st
          | inl compressed =>
              match process_assets_bounded (assets artifact) (graph_source_bytes artifact) (loaded_paths artifact) with
              | inr failure =>
                  degrade group (own ++ [diagnostic (apf_stage failure) (apf_message failure)
                    ["asset processing failed for this runtime; its totals are conservative per-import sums without shared-module or shared-asset deduplication"]]) st
              | inl processed =>
                  let '(totals, diags, any_sized) := st in
                  measure artifact minified compressed processed (totals, diags ++ own, any_sized)
              end
          end
      end
  end.

Definition with_diagnostics (diags : list ImportDiagnostic) (err : option string) (fps : list FileFingerprint)
    (c : FileSizeComputation) : FileSizeComputation :=
  {| f_sizes := f_sizes c; f_breakdown := f_breakdown c; incomplete := incomplete c; degraded := degraded c;
     f_error := err; f_diagnostics := diags; dependency_fingerprints := fps |}.

Definition compute_file_size (imports : list SizedImport) : FileSizeComputation :=
  let '(missing, diags, groups) := foldl classify_step (false, [], ∅) imports in
  let totals := {| f_sizes := ZERO; f_breakdown := []; incomplete := missing; degraded := false;
                   f_error := None; f_diagnostics := []; dependency_fingerprints := [] |} in
  if decide (groups = ∅) then with_diagnostics diags None [] totals
  else
    let '(totals, diags, any_sized) := foldl group_step (totals, diags, false) (groups_in_order groups) in
    if any_sized
    then with_diagnostics diags None (sort_and_dedup_fingerprints (dependency_fingerprints totals)) totals
    else error_computation totals stage.FILE_SIZE_FALLBACK "no import could be sized conservatively" diags.

(** ** The reference: what each import and each group contributes *)

Definition entry_of (i : SizedImport) : option (ImportRuntime * BundleEntry) :=
  match package i with
  | Installed r =>
      match resolve r with
      | inl p => Some (rq_runtime r, {| entry_path := rp_entry_path p; package_root := rp_package_root p;
                                        selection := engine_selection r |})
      | inr _ => None
      end
  | _ => None
  end.

(** The bytes of this import belong to the file and no build will count them. *)
Definition gap (i : SizedImport) : bool :=
  match package i with
  | NotInstalled => true
  | PathAlias => false
  | Installed r =>
      match resolve r with
      | inl _ => false
      | inr _ => negb match result i with Some r => is_types_only r || is_native_binary_only r | None => false end
      end
  end.

Definition in_runtime (rt : ImportRuntime) (i : SizedImport) : bool := bool_decide (fst <$> entry_of i = Some rt).
Definition group_of (imports : list SizedImport) (rt : ImportRuntime) : RuntimeGroup :=
  let own := filter (λ i, in_runtime rt i = true) imports in
  {| entries := omap (λ i, snd <$> entry_of i) own; sized := own |}.
Definition groups_of (imports : list SizedImport) : list (ImportRuntime * RuntimeGroup) :=
  filter (λ rg, sized rg.2 ≠ []) ((λ rt, (rt, group_of imports rt)) <$> runtimes).

Definition build_group (rg : ImportRuntime * RuntimeGroup) :
    option (BundleArtifact * string * CompressionSizes * ProcessedAssets) :=
  match bundle rg.1 (entries rg.2) with
  | inl artifact =>
      match minify (code artifact) with
      | inl minified =>
          match compress minified with
          | inl compressed =>
              match process_assets_bounded (assets artifact) (graph_source_bytes artifact) (loaded_paths artifact) with
              | inl processed => Some (artifact, minified, compressed, processed)
              | inr _ => None
              end
          | inr _ => None
          end
      | inr _ => None
      end
  | inr _ => None
  end.

Definition import_sizes (i : SizedImport) : option MeasuredSizes :=
  match result i with Some r => sizes r | None => None end.
Definition import_missing (i : SizedImport) : bool :=
  match result i with
  | Some r => match sizes r with Some _ => is_floor r | None => true end
  | None => true
  end.

(** The sizes of a group: its build's, or the sum of what its imports measured
    to; [None] when there is neither. *)
Definition group_sizes (rg : ImportRuntime * RuntimeGroup) : option MeasuredSizes :=
  match build_group rg with
  | Some (artifact, minified, compressed, processed) =>
      Some (add_sizes {| m_raw := N.of_nat (String.length (code artifact));
                         m_minified := N.of_nat (String.length minified);
                         m_gzip := z_gzip compressed; m_brotli := z_brotli compressed;
                         m_zstd := z_zstd compressed |} (total processed))
  | None => match omap import_sizes (sized rg.2) with [] => None | l => Some (sum_sizes l) end
  end.
Definition group_missing (rg : ImportRuntime * RuntimeGroup) : bool :=
  match build_group rg with
  | Some (artifact, _, _, processed) =>
      negb (bool_decide (emitted_assets artifact = [])) || has_uncounted_assets processed ||
      existsb (λ d, stage.marks_a_floor (d_stage d)) (art_diagnostics artifact)
  | None => existsb import_missing (sized rg.2)
  end.

(** ** The first loop *)

Lemma classify_step_spec missing diags groups i :
  ∃ diags', classify_step (missing, diags, groups) i =
    (missing || gap i, diags',
     match entry_of i with
     | Some (rt, e) =>
         let g := default {| entries := []; sized := [] |} (groups !! rt) in
         <[rt := {| entries := entries g ++ [e]; sized := sized g ++ [i] |}]> groups
     | None => groups
     end).
Proof.
  unfold classify_step, gap, entry_of. destruct (package i) as [r| |].
  - destruct (resolve r) as [p|err].
    + rewrite orb_false_r. by eexists.
    + destruct (result i) as [res|]; [destruct (is_types_only res), (is_native_binary_only res)|];
        cbn; rewrite ?orb_false_r, ?orb_true_r; by eexists.
  - rewrite orb_true_r. by eexists.
  - rewrite orb_false_r. by eexists.
Qed.

Definition found (imports : list SizedImport) (rt : ImportRuntime) : option RuntimeGroup :=
  let g := group_of imports rt in match sized g with [] => None | _ => Some g end.

Lemma in_runtime_entry rt i :
  in_runtime rt i = match entry_of i with Some (rt', _) => bool_decide (rt' = rt) | None => false end.
Proof.
  unfold in_runtime. destruct (entry_of i) as [[rt' e]|]; cbn; [|done].
  apply bool_decide_ext. split; congruence.
Qed.

Lemma group_of_snoc imports i rt :
  group_of (imports ++ [i]) rt =
  match entry_of i with
  | Some (rt', e) =>
      let g := group_of imports rt in
      if decide (rt' = rt) then {| entries := entries g ++ [e]; sized := sized g ++ [i] |} else g
  | None => group_of imports rt
  end.
Proof.
  unfold group_of. rewrite filter_app, omap_app, filter_cons, filter_nil.
  rewrite (in_runtime_entry rt i). destruct (entry_of i) as [[rt' e]|] eqn:He; cbn [bool_decide].
  - destruct (decide (rt' = rt)) as [->|Hne].
    + rewrite bool_decide_true, decide_True by done. cbn. by rewrite He.
    + rewrite bool_decide_false, decide_False by done. cbn. by rewrite !app_nil_r.
  - rewrite decide_False by done. cbn. by rewrite !app_nil_r.
Qed.

Lemma found_default imports rt :
  default {| entries := []; sized := [] |} (found imports rt) = group_of imports rt.
Proof.
  unfold found. destruct (sized (group_of imports rt)) as [|i l] eqn:E; [|done].
  unfold group_of in *. cbn in *. by rewrite E.
Qed.

Lemma classify_spec imports :
  ∃ diags groups, foldl classify_step (false, [], ∅) imports = (existsb gap imports, diags, groups) ∧
    ∀ rt, groups !! rt = found imports rt.
Proof.
  induction imports as [|i imports IH] using rev_ind; [by exists [], ∅|].
  destruct IH as (diags & groups & IH & Hg). rewrite foldl_snoc, IH.
  destruct (classify_step_spec (existsb gap imports) diags groups i) as [diags' ->].
  exists diags'. eexists. rewrite existsb_app. cbn. rewrite orb_false_r. split; [done|].
  intros rt. unfold found. rewrite group_of_snoc. destruct (entry_of i) as [[rt' e]|]; cbn.
  - rewrite Hg, found_default. destruct (decide (rt' = rt)) as [->|Hne].
    + rewrite lookup_insert_eq. cbn. by destruct (filter _ imports).
    + rewrite lookup_insert_ne by done. apply Hg.
  - apply Hg.
Qed.

Lemma groups_in_order_of imports groups :
  (∀ rt, groups !! rt = found imports rt) → groups_in_order groups = groups_of imports.
Proof.
  intros Hg. unfold groups_in_order, groups_of.
  induction runtimes as [|rt l IH]; [done|]. rewrite fmap_cons, filter_cons, <- IH. cbn.
  rewrite Hg. unfold found. destruct (sized (group_of imports rt)) eqn:E; cbn in *;
    case_decide as Hd; rewrite E in Hd; try done; by destruct Hd.
Qed.

Lemma groups_in_order_nil g : groups_in_order g = [] → g = ∅.
Proof.
  unfold groups_in_order, runtimes. cbn. intros Hnil. apply map_empty. intros rt.
  destruct (g !! Component) eqn:?, (g !! Client) eqn:?, (g !! Server) eqn:?; try done. by destruct rt.
Qed.

(** ** The conservative sum *)

Definition sums (l : list SizedImport) (t : PerImportTotals) : Prop :=
  sized_any t = negb (bool_decide (omap import_sizes l = [])) ∧
  missing_inputs t = existsb import_missing l ∧ p_sizes t = sum_sizes (omap import_sizes l).

Lemma per_import_step_sums l i t diags :
  sums l t → sums (l ++ [i]) (per_import_step (t, diags) i).1.
Proof.
  intros (Hany & Hmiss & Hsizes). unfold sums.
  rewrite omap_app, existsb_app. cbn [existsb omap list_omap]. rewrite orb_false_r.
  assert (import_sizes i = match result i with Some r => sizes r | None => None end) as -> by done.
  assert (import_missing i = match result i with
    | Some r => match sizes r with Some _ => is_floor r | None => true end | None => true end) as -> by done.
  unfold per_import_step.
  destruct (result i) as [r|]; [destruct (sizes r) as [z|] eqn:Hz|]; cbn [fst sized_any missing_inputs p_sizes].
  - rewrite Hmiss, Hsizes. unfold sum_sizes. rewrite foldl_snoc.
    split; [|done]. by destruct (omap import_sizes l).
  - by rewrite app_nil_r, orb_true_r.
  - by rewrite app_nil_r, orb_true_r.
Qed.

Lemma per_import_totals_sums l diags : sums l (per_import_totals l diags).1.
Proof.
  unfold per_import_totals. induction l as [|i l IH] using rev_ind; [done|].
  rewrite foldl_snoc. destruct (foldl per_import_step (no_totals, diags) l). by apply per_import_step_sums.
Qed.

(** ** One group *)

Definition unbuilt (rg : ImportRuntime * RuntimeGroup) : bool :=
  match build_group rg with Some _ => false | None => true end.
Definition add_group (s : MeasuredSizes) (o : option MeasuredSizes) : MeasuredSizes :=
  match o with Some z => add_sizes s z | None => s end.

(** What the loop has, against what the groups it walked say. *)
Definition accounts (missing : bool) (gs : list (ImportRuntime * RuntimeGroup))
    (st : FileSizeComputation * list ImportDiagnostic * bool) : Prop :=
  let '(c, _, any) := st in
  incomplete c = missing || existsb group_missing gs ∧ degraded c = existsb unbuilt gs ∧
  f_sizes c = sum_sizes (omap group_sizes gs) ∧ any = negb (bool_decide (omap group_sizes gs = [])).

(** One more group: its sizes, whether it is short, whether it built. *)
Lemma accounts_snoc missing gs rg c diags c' diags' any z :
  accounts missing gs (c, diags, any) →
  group_sizes rg = z →
  incomplete c' = incomplete c || group_missing rg → degraded c' = degraded c || unbuilt rg →
  f_sizes c' = add_group (f_sizes c) z →
  accounts missing (gs ++ [rg]) (c', diags', any || bool_decide (is_Some z)).
Proof.
  intros (Hi & Hd & Hs & Ha) Hz Hi' Hd' Hs'. unfold accounts.
  rewrite !existsb_app, omap_app. cbn [existsb omap list_omap].
  rewrite Hi', Hd', Hs', Hi, Hd, Hs, Ha, Hz, !orb_false_r, orb_assoc. destruct z as [z|]; cbn [add_group].
  - unfold sum_sizes. rewrite foldl_snoc. split_and!; try done. by destruct (omap group_sizes gs).
  - rewrite app_nil_r, (bool_decide_false (is_Some None)) by apply is_Some_None. by rewrite orb_false_r.
Qed.

Lemma degrade_accounts missing gs rg own st :
  build_group rg = None → accounts missing gs st → accounts missing (gs ++ [rg]) (degrade rg.2 own st).
Proof.
  intros Hb Hst. destruct st as [[c diags] any]. unfold degrade.
  pose proof (per_import_totals_sums (sized rg.2) (diags ++ own)) as Hsums.
  destruct (per_import_totals (sized rg.2) (diags ++ own)) as [t diags'].
  destruct Hsums as (Hany & Hmiss & Hsz). cbn [fst] in *. unfold absorb_fallback.
  assert (group_missing rg = missing_inputs t) as Hgm by (unfold group_missing; by rewrite Hb).
  assert (unbuilt rg = true) as Hu by (unfold unbuilt; by rewrite Hb).
  assert (group_sizes rg = if sized_any t then Some (p_sizes t) else None) as Hgs.
  { unfold group_sizes. rewrite Hb, Hany, Hsz. by destruct (omap import_sizes (sized rg.2)). }
  destruct (sized_any t).
  - rewrite <- (bool_decide_true (is_Some (Some (p_sizes t)))) by done.
    eapply accounts_snoc; [exact Hst|exact Hgs|..]; cbn; by rewrite ?Hgm, ?Hu, ?orb_true_r.
  - rewrite <- (bool_decide_false (is_Some (@None MeasuredSizes))) by apply is_Some_None.
    eapply accounts_snoc; [exact Hst|exact Hgs|..]; cbn; by rewrite ?Hgm, ?Hu, ?orb_true_r.
Qed.

(** The four ways a group fails are one degradation; the other way is a measure. *)
Lemma group_step_cases c diags any rg :
  (build_group rg = None ∧ ∃ own, group_step (c, diags, any) rg = degrade rg.2 own (c, diags, any)) ∨
  (∃ art mini comp proc diags', build_group rg = Some (art, mini, comp, proc) ∧
     group_step (c, diags, any) rg = measure art mini comp proc (c, diags', any)).
Proof.
  destruct rg as [rt g]. unfold group_step, build_group. cbn [fst snd].
  destruct (bundle rt (entries g)) as [art|]; [|left; eauto].
  destruct (minify (code art)) as [mini|]; [|left; eauto].
  destruct (compress mini) as [comp|]; [|left; eauto].
  destruct (process_assets_bounded _ _ _) as [proc|]; [|left; eauto].
  right. repeat eexists.
Qed.

Lemma group_step_accounts missing gs rg st :
  accounts missing gs st → accounts missing (gs ++ [rg]) (group_step st rg).
Proof.
  intros Hst. destruct st as [[c diags] any].
  destruct (group_step_cases c diags any rg) as [[Hb [own ->]]|(art & mini & comp & proc & diags' & Hb & ->)].
  - by apply degrade_accounts.
  - unfold measure. rewrite <- (orb_true_r any).
    eassert (group_sizes rg = Some _) as Hgs by (unfold group_sizes; rewrite Hb; reflexivity).
    rewrite <- (bool_decide_true (is_Some (group_sizes rg))) by (rewrite Hgs; done).
    eapply accounts_snoc; [exact Hst|reflexivity|..]; unfold group_missing, unbuilt; rewrite ?Hb, ?Hgs; cbn;
      by rewrite ?orb_false_r.
Qed.

Lemma groups_accounts missing gs c diags :
  accounts missing [] (c, diags, false) → accounts missing gs (foldl group_step (c, diags, false) gs).
Proof.
  intros H0. induction gs as [|rg gs IH] using rev_ind; [done|].
  rewrite foldl_snoc. by apply group_step_accounts.
Qed.

(** C12. The file's cost is the wrapping sum of its runtime groups, each group's build or
    the sum its imports fall back to, and its flags tell the truth about that sum:
    [incomplete] exactly when some import or some group left bytes out, [degraded] exactly
    when some group has no build of its own, an error exactly when there were groups and
    none of them had a size. *)
Theorem compute_file_size_accounts imports :
  let c := compute_file_size imports in
  let gs := groups_of imports in
  f_sizes c = sum_sizes (omap group_sizes gs) ∧
  incomplete c = existsb gap imports || existsb group_missing gs ∧
  degraded c = existsb unbuilt gs ∧
  (f_error c = None ↔ gs = [] ∨ omap group_sizes gs ≠ []).
Proof.
  cbn zeta. unfold compute_file_size.
  destruct (classify_spec imports) as (diags & groups & -> & Hg).
  pose proof (groups_in_order_of imports groups Hg) as Hgs.
  case_decide as Hemp.
  - rewrite <- Hgs, Hemp. cbn. rewrite orb_false_r. split_and!; try done. split; [by left|done].
  - rewrite Hgs. set (c0 := {| f_sizes := ZERO |}).
    pose proof (groups_accounts (existsb gap imports) (groups_of imports) c0 diags) as Hacc.
    destruct (foldl group_step _ _) as [[c diags'] any].
    destruct Hacc as (Hi & Hd & Hs & Ha); [unfold accounts; cbn; by rewrite orb_false_r|].
    assert (groups_of imports ≠ []) as Hne by (rewrite <- Hgs; intros ?%groups_in_order_nil; done).
    rewrite Ha. case_bool_decide as Hnone; cbn [negb f_sizes incomplete degraded f_error error_computation with_diagnostics].
    + rewrite Hnone. split_and!; try done. split; [done|]. intros [|]; done.
    + split_and!; try done. split; [by right|done].
Qed.
End compute.
