(* ===== verification/SharedBytes.v ===== *)
(** Shared bytes (pipeline/file_size.rs [annotate_shared_bytes]): how much of each
    import's weight another import of the document also pulls in, counted within a
    runtime, and why a runtime's annotations do not depend on the others. *)
From stdpp Require Import base gmap list strings.
From S2P Require Import Prelude Stages Results CacheKeys CachedImports.

Definition result_contributions (r : ImportResult) : list ModuleContribution :=
  match internal_contributions r with
  | [] => default [] (module_breakdown r)
  | l => l
  end.

Definition set_shared (n : N) (r : ImportResult) : ImportResult :=
  {| specifier := specifier r; raw_bytes := raw_bytes r; minified_bytes := minified_bytes r;
     gzip_bytes := gzip_bytes r; brotli_bytes := brotli_bytes r; zstd_bytes := zstd_bytes r;
     cache_hit := cache_hit r; side_effects := side_effects r;
     truly_treeshakeable := truly_treeshakeable r; is_cjs := is_cjs r;
     confidence := confidence r; confidence_reasons := confidence_reasons r;
     error := error r; unmeasured_stage := unmeasured_stage r; diagnostics := diagnostics r;
     module_breakdown := module_breakdown r; shared_bytes := Some n;
     asset_breakdown := asset_breakdown r; r_freshness := r_freshness r;
     internal_contributions := internal_contributions r |}.

(** [HashMap<ImportRuntime, HashMap<String, usize>>]. *)
Abbreviation Within := (gmap string nat).
Abbreviation Counts := (gmap ImportRuntime Within).

Definition count_path (within : Within) (m : ModuleContribution) : Within :=
  <[mc_path m := S (default 0 (within !! mc_path m))]> within.
Definition count_import (counts : Counts) (import : ImportRuntime * ImportResult) : Counts :=
  <[import.1 := foldl count_path (default ∅ (counts !! import.1)) (result_contributions import.2)]> counts.

(** More than one sighting in the import's own runtime. *)
Definition is_shared (within : option Within) (m : ModuleContribution) : bool :=
  (1 <? default 0 (within ≫= (λ w : Within, w !! mc_path m)))%nat.
Definition shared_of (counts : Counts) (import : ImportRuntime * ImportResult) : N :=
  foldl wrap_add 0%N
    (mc_bytes <$> filter (λ m, is_shared (counts !! import.1) m = true) (result_contributions import.2)).

Definition annotate_shared_bytes (imports : list (ImportRuntime * ImportResult)) :
    list (ImportRuntime * ImportResult) :=
  let counts := foldl count_import ∅ imports in
  (λ i, (i.1, set_shared (shared_of counts i) i.2)) <$> imports.

(** ** The reference: sightings of a path in one runtime *)

Definition sightings_in (path : string) (ms : list ModuleContribution) : nat :=
  length (filter (λ m, mc_path m = path) ms).
Definition sightings (imports : list (ImportRuntime * ImportResult)) (rt : ImportRuntime) (path : string) : nat :=
  sightings_in path (filter (λ i, i.1 = rt) imports ≫= (λ i, result_contributions i.2)).

Lemma sightings_in_app path a b : sightings_in path (a ++ b) = sightings_in path a + sightings_in path b.
Proof. unfold sightings_in. by rewrite filter_app, length_app. Qed.

Lemma count_path_lookup ms : ∀ within path,
  default 0 (foldl count_path within ms !! path) = default 0 (within !! path) + sightings_in path ms.
Proof.
  induction ms as [|m ms IH]; intros within path; cbn [foldl]; [cbn; lia|].
  rewrite IH. unfold sightings_in, count_path. rewrite filter_cons.
  destruct (decide (mc_path m = path)) as [<-|Hne].
  - rewrite lookup_insert_eq. cbn. lia.
  - by rewrite lookup_insert_ne.
Qed.

Lemma sightings_snoc imports i rt path :
  sightings (imports ++ [i]) rt path =
  sightings imports rt path + if decide (i.1 = rt) then sightings_in path (result_contributions i.2) else 0.
Proof.
  unfold sightings. rewrite filter_app, bind_app, sightings_in_app, filter_cons, filter_nil. f_equal.
  case_decide; cbn; by rewrite ?app_nil_r.
Qed.

(** The nested maps count what the reference counts. *)
Lemma counts_sightings imports rt path :
  default 0 (foldl count_import ∅ imports !! rt ≫= (λ w : Within, w !! path)) = sightings imports rt path.
Proof.
  induction imports as [|i imports IH] using rev_ind; [done|].
  rewrite foldl_snoc, sightings_snoc, <- IH. unfold count_import at 1.
  case_decide as Hrt.
  - rewrite Hrt, lookup_insert_eq. cbn [mbind option_bind]. rewrite count_path_lookup. f_equal.
    by destruct (foldl count_import ∅ imports !! rt).
  - rewrite lookup_insert_ne by done. lia.
Qed.

Definition shared_spec (imports : list (ImportRuntime * ImportResult)) (i : ImportRuntime * ImportResult) : N :=
  foldl wrap_add 0%N
    (mc_bytes <$> filter (λ m, 1 < sightings imports i.1 (mc_path m))%nat (result_contributions i.2)).

Lemma shared_of_spec imports i : shared_of (foldl count_import ∅ imports) i = shared_spec imports i.
Proof.
  unfold shared_of, shared_spec. do 2 f_equal. apply list_filter_iff. intros m.
  unfold is_shared. rewrite counts_sightings. by rewrite Nat.ltb_lt.
Qed.

Lemma sightings_filter imports rt rt' path :
  rt = rt' → sightings (filter (λ i, i.1 = rt) imports) rt' path = sightings imports rt' path.
Proof. intros <-. unfold sightings. by rewrite list_filter_filter_l by done. Qed.

Lemma filter_runtime (f : ImportRuntime * ImportResult → ImportResult) (rt : ImportRuntime)
    (l : list (ImportRuntime * ImportResult)) :
  filter (λ i, i.1 = rt) ((λ i, (i.1, f i)) <$> l) = (λ i, (i.1, f i)) <$> filter (λ i, i.1 = rt) l.
Proof. induction l as [|i l IH]; [done|]. rewrite fmap_cons, !filter_cons, IH. cbn. by case_decide. Qed.

(** An import's shared bytes are those of its modules sighted more than once among the
    imports of its runtime, so a runtime's annotations are those of its own imports alone:
    the document's other runtimes, whose artifacts carry their own copies, never make a
    module shared. *)
Theorem shared_bytes_stay_within_a_runtime imports rt :
  annotate_shared_bytes imports = (λ i, (i.1, set_shared (shared_spec imports i) i.2)) <$> imports ∧
  filter (λ i, i.1 = rt) (annotate_shared_bytes imports) =
  annotate_shared_bytes (filter (λ i, i.1 = rt) imports).
Proof.
  unfold annotate_shared_bytes. split; [apply list_fmap_ext; intros; by rewrite shared_of_spec|].
  cbn zeta. rewrite filter_runtime.
  apply list_fmap_ext. intros k i Hi. apply list_elem_of_lookup_2, list_elem_of_filter in Hi as [Hrt _].
  rewrite !shared_of_spec. unfold shared_spec.
  do 2 f_equal. f_equal. f_equal. apply list_filter_iff. intros m. by rewrite sightings_filter.
Qed.
