(* ===== verification/ProjectRegistry.v ===== *)
(** The project cache registry, run by one thread (cache/project.rs): shard ids and
    roots, the disk-open backoff, the metadata sidecars, the listing and status, and
    which shards a removal, a purge, a sweep, an invalidation and a flush reach. Its
    interleavings are in ShardLocks. *)
From stdpp Require Import base gmap list strings.
From S2P Require Import Prelude Recency CacheKeys Disk.

(** ** Constants *)

Definition SHARD_METADATA_FILE_NAME : string := "importlens-project-cache.json".
Definition SHARD_DB_FILE_NAME : string := "importlens.redb".
Definition PROJECT_METADATA_WRITE_INTERVAL_MILLIS : N := 60000.
Definition ORPHAN_SWEEP_INTERVAL_millis : N := 3600000.

(** ** Roots and shard ids *)

Definition to_ascii_lowercase (c : ascii) : ascii :=
  let n := N_of_ascii c in
  if ((65 <=? n) && (n <=? 90))%N then ascii_of_N (n + 32) else c.
(** [trim_end_matches]. *)
Fixpoint trim_end (c : ascii) (l : list ascii) : list ascii :=
  match l with
  | [] => []
  | a :: l => match trim_end c l with
              | [] => if decide (a = c) then [] else [a]
              | t => a :: t
              end
  end.
Definition slashed (c : ascii) : ascii := if decide (c = "\"%char) then "/"%char else c.

(** A drive letter makes the comparison of roots case-insensitive on any host. *)
Definition normalize_project_root (windows : bool) (project_root : string) : string :=
  let trimmed := trim_end "/"%char (slashed <$> to_bytes project_root) in
  if windows || bool_decide (trimmed !! 1 = Some ":"%char)
  then of_bytes (to_ascii_lowercase <$> trimmed)
  else of_bytes trimmed.

(** FNV-1a over 64 bits. *)
Definition fnv_step (hash : N) (byte : ascii) : N :=
  (N.lxor hash (N_of_ascii byte) * 1099511628211 mod (u64_max + 1))%N.
Definition fnv (l : list ascii) : N := foldl fnv_step 14695981039346656037%N l.

(** [{:016x}]. *)
Definition hex16 (n : N) : list ascii :=
  (λ i, hex_digit (N.land (N.shiftr n (4 * N.of_nat i)) 15)) <$> reverse (seq 0 16).
Definition project_cache_shard_id (windows : bool) (project_root : string) : string :=
  of_bytes (to_bytes "v1-" ++ hex16 (fnv (to_bytes (normalize_project_root windows project_root)))).

(** ** The disk-open backoff *)

Record DiskRetry := { next_attempt_millis : N; interval_millis : N }.
Definition FIRST_INTERVAL_MILLIS : N := 2000.
Definition MAX_INTERVAL_MILLIS : N := 30000.

Definition starting_at (now : N) : DiskRetry :=
  {| next_attempt_millis := sat_add now FIRST_INTERVAL_MILLIS; interval_millis := FIRST_INTERVAL_MILLIS |}.

(** [&mut self]: the claim and the retry it leaves. *)
Definition claim (now : N) (r : DiskRetry) : bool * DiskRetry :=
  if (now <? next_attempt_millis r)%N then (false, r)
  else
    let interval := N.min (interval_millis r * 2) MAX_INTERVAL_MILLIS in
    (true, {| next_attempt_millis := sat_add now interval; interval_millis := interval |}).

(** ** Shards *)

Record ProjectCacheMetadata := {
  md_shard_id : string;
  md_project_root : string;
  md_normalized_root : string;
  md_last_used_millis : N;
}.

(** [cache] is the identity of an [Arc<ImportCache>]. *)
Record LoadedProjectCache := {
  lp_project_root : string;
  lp_normalized_root : string;
  lp_cache_path : string;
  lp_cache : N;
  lp_last_used_millis : N;
  lp_last_metadata_write_millis : N;
  disk_retry : option DiskRetry;
}.

Record ProjectCacheRegistry := {
  base_path : option string;
  enable_disk_cache : bool;
  max_size_mb : N;
  loaded : gmap string LoadedProjectCache;
  budget_bytes : N;
  last_orphan_sweep : option N;
}.

Definition new_with_budget_bytes (base : option string) (enable : bool) (mb budget : N) : ProjectCacheRegistry :=
  {| base_path := base; enable_disk_cache := enable; max_size_mb := mb; loaded := ∅;
     budget_bytes := budget; last_orphan_sweep := None |}.
(** [saturating_mul]. *)
Definition new_registry (base : option string) (enable : bool) (mb : N) : ProjectCacheRegistry :=
  new_with_budget_bytes base enable mb (N.min (mb * (1024 * 1024)) u64_max).

Definition storage_enabled (r : ProjectCacheRegistry) : bool :=
  enable_disk_cache r && bool_decide (is_Some (base_path r)).

(** [Path::join] of a relative name. *)
Definition path_join (base name : string) : string :=
  match reverse (to_bytes base) with
  | [] => name
  | c :: _ => if decide (c = "/"%char) then base +:+ name else base +:+ "/" +:+ name
  end.

Definition cache_path_for_shard (r : ProjectCacheRegistry) (shard_id : string) : string :=
  match base_path r with
  | Some base => if storage_enabled r then path_join base shard_id else ""
  | None => ""
  end.
Definition disk_cache_path (r : ProjectCacheRegistry) (cache_path : string) : option string :=
  if storage_enabled r then Some cache_path else None.

Definition should_write_project_metadata (last_write_millis now_millis : N) : bool :=
  (PROJECT_METADATA_WRITE_INTERVAL_MILLIS <=? sat_sub now_millis last_write_millis)%N.

Definition metadata_of (shard_id : string) (s : LoadedProjectCache) : ProjectCacheMetadata :=
  {| md_shard_id := shard_id; md_project_root := lp_project_root s;
     md_normalized_root := lp_normalized_root s; md_last_used_millis := lp_last_used_millis s |}.
(** The write is returned, not done: its path and its contents. *)
Definition metadata_write_for_loaded (r : ProjectCacheRegistry) (shard_id : string) (s : LoadedProjectCache) :
    option (string * ProjectCacheMetadata) :=
  if storage_enabled r
  then Some (path_join (lp_cache_path s) SHARD_METADATA_FILE_NAME, metadata_of shard_id s)
  else None.

Definition set_times (used written : N) (retry : option DiskRetry) (s : LoadedProjectCache) : LoadedProjectCache :=
  {| lp_project_root := lp_project_root s; lp_normalized_root := lp_normalized_root s;
     lp_cache_path := lp_cache_path s; lp_cache := lp_cache s; lp_last_used_millis := used;
     lp_last_metadata_write_millis := written; disk_retry := retry |}.
Definition set_loaded (l : gmap string LoadedProjectCache) (r : ProjectCacheRegistry) : ProjectCacheRegistry :=
  {| base_path := base_path r; enable_disk_cache := enable_disk_cache r; max_size_mb := max_size_mb r;
     loaded := l; budget_bytes := budget_bytes r; last_orphan_sweep := last_orphan_sweep r |}.

(** What [warm_shard_hit] does under the lock of [loaded]: the cache, whether the
    caller claimed a disk-open retry, and the metadata write it owes. *)
Definition warm_shard_hit (shard_id : string) (now : N) (claim_retry : bool) (r : ProjectCacheRegistry) :
    option (N * bool * option (string * ProjectCacheMetadata)) * ProjectCacheRegistry :=
  match loaded r !! shard_id with
  | None => (None, r)
  | Some s =>
      let '(retry_disk, retry) :=
        match disk_retry s with
        | Some d => if claim_retry then let '(b, d) := claim now d in (b, Some d) else (false, Some d)
        | None => (false, None)
        end in
      let used := set_times now (lp_last_metadata_write_millis s) retry s in
      if bool_decide (retry = None) && should_write_project_metadata (lp_last_metadata_write_millis s) now
      then
        let s := set_times now now retry s in
        (Some (lp_cache s, retry_disk, metadata_write_for_loaded r shard_id s),
         set_loaded (<[shard_id := s]> (loaded r)) r)
      else (Some (lp_cache s, retry_disk, None), set_loaded (<[shard_id := used]> (loaded r)) r)
  end.

(** The shard [cache_for_root] builds on a miss. [available] is whether the open
    of its disk succeeded. *)
Definition cold_shard (r : ProjectCacheRegistry) (windows : bool) (project_root shard_id : string)
    (now cache : N) (available : bool) : LoadedProjectCache :=
  {| lp_project_root := project_root; lp_normalized_root := normalize_project_root windows project_root;
     lp_cache_path := cache_path_for_shard r shard_id; lp_cache := cache; lp_last_used_millis := now;
     lp_last_metadata_write_millis := now;
     disk_retry := if storage_enabled r && negb available then Some (starting_at now) else None |}.

(** The last section of [retry_disk_open], after the disk opened. *)
Definition retry_opened (shard_id : string) (r : ProjectCacheRegistry) :
    option (string * ProjectCacheMetadata) * ProjectCacheRegistry :=
  match loaded r !! shard_id with
  | None => (None, r)
  | Some s =>
      let s := set_times (lp_last_used_millis s) (lp_last_used_millis s) None s in
      (metadata_write_for_loaded r shard_id s, set_loaded (<[shard_id := s]> (loaded r)) r)
  end.

(** ** The directory of the base path *)

(** What the file system holds: a file by its length and what the metadata parser
    makes of its contents, a directory by its entries, [None] when it cannot be read. What cannot be stat'ed counts for nothing,
    as an empty file does. *)
Inductive Node :=
  | FileNode (len : N) (parsed : option ProjectCacheMetadata)
  | DirNode (entries : option (list (string * Node))).

(** A recursive sum, over what can be read. *)
Fixpoint directory_size (n : Node) : N :=
  match n with
  | FileNode len _ => len
  | DirNode None => 0
  | DirNode (Some l) =>
      (fix sum (acc : N) (l : list (string * Node)) : N :=
         match l with [] => acc | (_, n) :: l => sum (wrap_add acc (directory_size n)) l end) 0%N l
  end.

Definition entry (name : string) (entries : list (string * Node)) : option Node :=
  (λ i : nat * (string * Node), i.2.2) <$> list_find (λ e : string * Node, e.1 = name) entries.
Definition read_metadata (n : Node) : option ProjectCacheMetadata :=
  match n with
  | DirNode (Some l) =>
      match entry SHARD_METADATA_FILE_NAME l with Some (FileNode _ parsed) => parsed | _ => None end
  | _ => None
  end.

Record CacheShardInfo := {
  i_shard_id : string;
  i_project_root : string;
  i_normalized_root : string;
  i_cache_path : string;
  i_size_bytes : N;
  i_last_used_millis : option N;
  i_loaded : bool;
  i_entry_count : N;
}.

Definition disk_info (path : string) (n : Node) (m : ProjectCacheMetadata) : CacheShardInfo :=
  {| i_shard_id := md_shard_id m; i_project_root := md_project_root m; i_normalized_root := md_normalized_root m;
     i_cache_path := path; i_size_bytes := directory_size n; i_last_used_millis := Some (md_last_used_millis m);
     i_loaded := false; i_entry_count := 0 |}.

Section listing.
(** [read_dir] of the base, and what a path holds. *)
Context (read_dir : string → option (list (string * Node))) (at_path : string → option Node).

Definition base_entries (r : ProjectCacheRegistry) : list (string * Node) :=
  match base_path r with
  | Some base => (λ e : string * Node, (path_join base e.1, e.2)) <$> default [] (read_dir base)
  | None => []
  end.

Definition scan_disk_shards (r : ProjectCacheRegistry) : list CacheShardInfo :=
  omap (λ e, disk_info e.1 e.2 <$> read_metadata e.2) (base_entries r).
Definition scan_disk_shard_paths (r : ProjectCacheRegistry) : list (string * string) :=
  omap (λ e, (λ m, (md_shard_id m, e.1)) <$> read_metadata e.2) (base_entries r).

Definition info_for_loaded (shard_id : string) (s : LoadedProjectCache) : CacheShardInfo :=
  {| i_shard_id := shard_id; i_project_root := lp_project_root s; i_normalized_root := lp_normalized_root s;
     i_cache_path := lp_cache_path s;
     i_size_bytes := match lp_cache_path s with "" => 0%N | p => default 0%N (directory_size <$> at_path p) end;
     i_last_used_millis := Some (lp_last_used_millis s); i_loaded := true; i_entry_count := 0 |}.

(** The first shard of the same id is overwritten, or the info is pushed. *)
Fixpoint overwrite (info : CacheShardInfo) (shards : list CacheShardInfo) : list CacheShardInfo :=
  match shards with
  | [] => [info]
  | s :: rest => if decide (i_shard_id s = i_shard_id info) then info :: rest else s :: overwrite info rest
  end.

Definition stamp (rollups : gmap string ShardRollup) (s : CacheShardInfo) : CacheShardInfo :=
  match rollups !! i_shard_id s with
  | Some roll =>
      {| i_shard_id := i_shard_id s; i_project_root := i_project_root s; i_normalized_root := i_normalized_root s;
         i_cache_path := i_cache_path s; i_size_bytes := i_size_bytes s;
         i_last_used_millis := i_last_used_millis s; i_loaded := i_loaded s; i_entry_count := entry_count roll |}
  | None => s
  end.

(** Largest first, then by root. *)
Definition shard_order (left right : CacheShardInfo) : comparison :=
  then_with (i_size_bytes right ?= i_size_bytes left)%N
    (String.compare (i_project_root left) (i_project_root right)).

Definition merged_shards `{HO : HashOrder} (r : ProjectCacheRegistry) : list CacheShardInfo :=
  foldl (λ shards '(id, s), overwrite (info_for_loaded id s) shards) (scan_disk_shards r)
    (hash_iter (loaded r)).
Definition list_shards_with_rollups `{HO : HashOrder} (rollups : gmap string ShardRollup)
    (r : ProjectCacheRegistry) : list CacheShardInfo :=
  merge_sort (cmp_le shard_order) (stamp rollups <$> merged_shards r).

Record ProjectCacheStatus := {
  st_total_size_bytes : N;
  st_total_bytes : N;
  st_budget_bytes : N;
  st_project_count : nat;
  st_max_size_mb : N;
  st_current_project : option CacheShardInfo;
}.
(** The rollups of [collect_shard_targets], the last of an id kept. *)
Definition rollups_by_id (targets : list (string * ShardRollup)) : gmap string ShardRollup :=
  foldl (λ m t, <[t.1 := t.2]> m) ∅ targets.
Definition status_for_root `{HO : HashOrder} (windows : bool) (targets : list (string * ShardRollup))
    (project_root : option string) (r : ProjectCacheRegistry) : ProjectCacheStatus :=
  let rollups := rollups_by_id targets in
  let shards := list_shards_with_rollups rollups r in
  {| st_total_size_bytes := foldl wrap_add 0%N (i_size_bytes <$> shards);
     st_total_bytes := foldl sat_add 0%N (total_bytes <$> (hash_iter rollups).*2);
     st_budget_bytes := budget_bytes r; st_project_count := length shards; st_max_size_mb := max_size_mb r;
     st_current_project :=
       root ← normalize_project_root windows <$> project_root;
       snd <$> list_find (λ s, i_normalized_root s = root) shards |}.

(** [seed_recency_clock_from_disk]: the clock is lifted over the largest sequence of
    every shard, the loaded ones' read from their handles. *)
Definition unloaded_paths (r : ProjectCacheRegistry) : list string :=
  omap (λ s : string * string, if decide (is_Some (loaded r !! s.1) ∨ s.2 = "") then None else Some s.2)
    (scan_disk_shard_paths r).
Definition seed_recency_clock_from_disk `{HO : HashOrder} (cache_max_seq : N → N) (disk_max_seq : string → N)
    (r : ProjectCacheRegistry) (clock : RecencyClock.clock) : RecencyClock.clock :=
  if negb (storage_enabled r) then clock
  else foldl (λ c seq, RecencyClock.observe seq c) clock
         ((cache_max_seq <$> (lp_cache <$> (hash_iter (loaded r)).*2)) ++ (disk_max_seq <$> unloaded_paths r)).

#[export] Instance root_state_eq_dec : EqDecision ProjectRootState.
Proof. solve_decision. Defined.

(** ** Which shards an operation reaches *)

(** [remove_all]: the ids it removes, in order. *)
Definition remove_all_ids `{HO : HashOrder} (rollups : gmap string ShardRollup) (r : ProjectCacheRegistry) :
    list string := dedup (sort String.compare (i_shard_id <$> list_shards_with_rollups rollups r)).

Definition shard_root_is_orphaned (split_path : string → components)
    (exists_ : components → option bool) (s : CacheShardInfo) : bool :=
  negb (bool_decide (i_project_root s = "")) &&
  bool_decide (classify_project_root_with (split_path (i_project_root s)) exists_ = Orphaned).

(** What a purge does to one listed shard. *)
Inductive Reclaim := RemoveShard (id : string) | ScrubLoaded (cache : N) | ScrubOnDisk (path : string) | LeaveShard.
Definition purge_one (orphaned : CacheShardInfo → bool) (loaded_ids now_loaded : gmap string LoadedProjectCache)
    (s : CacheShardInfo) : Reclaim :=
  if orphaned s then RemoveShard (i_shard_id s)
  else match loaded_ids !! i_shard_id s with
       | Some _ => match now_loaded !! i_shard_id s with Some l => ScrubLoaded (lp_cache l) | None => LeaveShard end
       | None => if decide (i_cache_path s = "") then LeaveShard else ScrubOnDisk (i_cache_path s)
       end.
(** A removal takes its shard out of the map the rest of the pass looks in. *)
Fixpoint purge_from (orphaned : CacheShardInfo → bool) (loaded_ids now_loaded : gmap string LoadedProjectCache)
    (shards : list CacheShardInfo) : list Reclaim :=
  match shards with
  | [] => []
  | s :: rest =>
      purge_one orphaned loaded_ids now_loaded s ::
      purge_from orphaned loaded_ids (if orphaned s then delete (i_shard_id s) now_loaded else now_loaded) rest
  end.
Definition purge_orphans (orphaned : CacheShardInfo → bool) (shards : list CacheShardInfo)
    (r : ProjectCacheRegistry) : list Reclaim := purge_from orphaned (loaded r) (loaded r) shards.

(** [sweep_orphaned_shards_if_due]: the ids it removes, none before the interval. *)
Definition sweep_orphaned_shards_if_due (orphaned : CacheShardInfo → bool) (now : N)
    (shards : list CacheShardInfo) (r : ProjectCacheRegistry) : list string * ProjectCacheRegistry :=
  if match last_orphan_sweep r with
     | Some previous => (sat_sub now previous <? ORPHAN_SWEEP_INTERVAL_millis)%N
     | None => false
     end
  then ([], r)
  else (i_shard_id <$> filter (λ s, orphaned s = true) shards,
        {| base_path := base_path r; enable_disk_cache := enable_disk_cache r; max_size_mb := max_size_mb r;
           loaded := loaded r; budget_bytes := budget_bytes r; last_orphan_sweep := Some now |}).

(** [invalidate_packages]: the loaded caches, then the paths of the others. *)
Definition invalidate_packages `{HO : HashOrder} (package_names : list string) (r : ProjectCacheRegistry) :
    list N * list string :=
  match package_names with
  | [] => ([], [])
  | _ => (lp_cache <$> (hash_iter (loaded r)).*2,
          unloaded_paths r)
  end.

(** [flush_to_disk]: every loaded shard is flushed, whatever another answered. *)
Fixpoint join_semicolons (l : list string) : string :=
  match l with
  | [] => ""
  | [s] => s
  | s :: l => s +:+ "; " +:+ join_semicolons l
  end.
Definition flush_to_disk `{HO : HashOrder} (flush : N → option string) (r : ProjectCacheRegistry) :
    list N * (unit + string) :=
  let caches := hash_iter (loaded r) in
  let errors := omap (λ c : string * LoadedProjectCache, (λ e, c.1 +:+ ": " +:+ e) <$> flush (lp_cache c.2)) caches in
  (lp_cache <$> caches.*2, match errors with [] => inl tt | _ => inr (join_semicolons errors) end).

(** ** The seeded clock *)

Lemma observe_all l : ∀ c,
  (c <= foldl (λ c seq, RecencyClock.observe seq c) c l)%N ∧
  (∀ seq, seq ∈ l → (seq < u64_max → seq < foldl (λ c seq, RecencyClock.observe seq c) c l)%N).
Proof.
  induction l as [|x l IH]; intros c; cbn [foldl]; [split; [lia|set_solver]|].
  destruct (IH (RecencyClock.observe x c)) as [Hle Hin].
  assert (c <= RecencyClock.observe x c)%N by (unfold RecencyClock.observe; lia).
  split; [lia|]. intros seq [->|Hs]%elem_of_cons Hmax; [|by apply Hin].
  assert (x < RecencyClock.observe x c)%N; [|lia]. unfold RecencyClock.observe, sat_add. lia.
Qed.

(** What a run uses after the seed sorts after every entry a shard kept. *)
Lemma seeded_clock_is_ahead `{HO : HashOrder} cache_max_seq disk_max_seq r clock :
  storage_enabled r = true →
  let c := seed_recency_clock_from_disk cache_max_seq disk_max_seq r clock in
  (clock <= c)%N ∧
  (∀ id sh, loaded r !! id = Some sh → cache_max_seq (lp_cache sh) < u64_max → cache_max_seq (lp_cache sh) < c)%N ∧
  (∀ path, path ∈ unloaded_paths r → disk_max_seq path < u64_max → disk_max_seq path < c)%N.
Proof.
  intros Hst. unfold seed_recency_clock_from_disk. rewrite Hst. cbn [negb]. cbn zeta.
  edestruct observe_all as [Hle Hin]. split_and!; [exact Hle| |].
  - intros id sh Hsh. apply Hin, elem_of_app. left. apply list_elem_of_fmap_2, list_elem_of_fmap_2.
    apply (list_elem_of_fmap_2 snd _ (id, sh)). by apply elem_of_hash_iter.
  - intros path Hp. apply Hin, elem_of_app. right. by apply list_elem_of_fmap_2.
Qed.

(** ** The listing *)

#[export] Instance shard_order_trans : Transitive (cmp_le shard_order).
Proof.
  intros a b c. change (cmp_le (cmp_lex (cmp_rev N.compare) String.compare) (i_size_bytes a, i_project_root a)
      (i_size_bytes b, i_project_root b) →
    cmp_le (cmp_lex (cmp_rev N.compare) String.compare) (i_size_bytes b, i_project_root b)
      (i_size_bytes c, i_project_root c) →
    cmp_le (cmp_lex (cmp_rev N.compare) String.compare) (i_size_bytes a, i_project_root a)
      (i_size_bytes c, i_project_root c)).
  intros. by etransitivity.
Qed.
#[export] Instance shard_order_total : Total (cmp_le shard_order).
Proof.
  intros a b. apply (total (cmp_le (cmp_lex (cmp_rev N.compare) String.compare))
    (i_size_bytes a, i_project_root a) (i_size_bytes b, i_project_root b)).
Qed.

Lemma overwrite_spec info shards :
  NoDup (i_shard_id <$> shards) →
  NoDup (i_shard_id <$> overwrite info shards) ∧
  (∀ s, s ∈ overwrite info shards ↔ s = info ∨ s ∈ shards ∧ i_shard_id s ≠ i_shard_id info).
Proof.
  induction shards as [|s0 rest IH]; cbn [fmap list_fmap overwrite].
  - intros _. split; [by apply NoDup_singleton|]. set_solver.
  - intros [Hnin Hnd]%NoDup_cons. destruct (IH Hnd) as [IHnd IHin]. case_decide as Hid; cbn [fmap list_fmap].
    + split; [rewrite <- Hid; by apply NoDup_cons|]. intros s. rewrite !elem_of_cons. split.
      * intros [->|Hs]; [by left|]. right. split; [by right|]. intros Heq. apply Hnin.
        rewrite Hid, <- Heq. by apply list_elem_of_fmap_2.
      * intros [->|[[->|Hs] Hne]]; [by left|done|by right].
    + split.
      * apply NoDup_cons. split; [|done]. intros (s & Heq & [->|[Hs _]]%IHin)%list_elem_of_fmap; [done|].
        apply Hnin. rewrite Heq. by apply list_elem_of_fmap_2.
      * intros s. rewrite !elem_of_cons, IHin. naive_solver.
Qed.

Lemma overwrites_spec infos : ∀ shards,
  NoDup (i_shard_id <$> shards) → NoDup (i_shard_id <$> infos) →
  let l := foldl (λ l i, overwrite i l) shards infos in
  NoDup (i_shard_id <$> l) ∧
  (∀ s, s ∈ l ↔ s ∈ infos ∨ s ∈ shards ∧ i_shard_id s ∉ i_shard_id <$> infos).
Proof.
  induction infos as [|i infos IH]; intros shards Hnd Hi; cbn [foldl].
  - split; [done|]. set_solver.
  - apply NoDup_cons in Hi as [Hnin Hi]. destruct (overwrite_spec i shards Hnd) as [Hnd' Hin].
    destruct (IH _ Hnd' Hi) as [Hn Hl]. split; [done|]. intros s. rewrite Hl, Hin. cbn [fmap list_fmap].
    rewrite not_elem_of_cons, elem_of_cons. split.
    + intros [?|[[->|[? ?]] ?]]; auto.
    + intros [[->|?]|(? & ? & ?)]; auto.
Qed.

Lemma merged_shards_spec `{HO : HashOrder} r :
  NoDup (i_shard_id <$> scan_disk_shards r) →
  NoDup (i_shard_id <$> merged_shards r) ∧
  (∀ s, s ∈ merged_shards r ↔
    (∃ id p, loaded r !! id = Some p ∧ s = info_for_loaded id p) ∨
    (s ∈ scan_disk_shards r ∧ loaded r !! i_shard_id s = None)).
Proof.
  intros Hnd. set (infos := (λ p, info_for_loaded p.1 p.2) <$> hash_iter (loaded r)).
  assert (merged_shards r = foldl (λ l i, overwrite i l) (scan_disk_shards r) infos) as ->.
  { unfold merged_shards, infos. generalize (scan_disk_shards r).
    induction (hash_iter (loaded r)) as [|[id p] l IH]; intros shards; [done|]. apply IH. }
  assert (i_shard_id <$> infos = (hash_iter (loaded r)).*1) as Hids.
  { unfold infos. rewrite <- list_fmap_compose. by apply list_fmap_ext. }
  destruct (overwrites_spec infos (scan_disk_shards r) Hnd) as [Hn Hin].
  { rewrite Hids. apply hash_iter_nodup. }
  split; [done|]. intros s. rewrite Hin, Hids. f_equiv.
  - unfold infos. rewrite list_elem_of_fmap. split.
    + intros ([id p] & -> & Hp%elem_of_hash_iter). eauto.
    + intros (id & p & Hp & ->). exists (id, p). by rewrite elem_of_hash_iter.
  - f_equiv. rewrite list_elem_of_fmap, eq_None_not_Some. split.
    + intros Hno [p Hp]. apply Hno. exists (i_shard_id s, p). by rewrite elem_of_hash_iter.
    + intros Hno ([id p] & Heq & Hp%elem_of_hash_iter). apply Hno. cbn in Heq. rewrite Heq. by exists p.
Qed.

Lemma stamp_id rollups s : i_shard_id (stamp rollups s) = i_shard_id s.
Proof. unfold stamp. by destruct (rollups !! _). Qed.

(** The listing shows every shard once: each loaded shard with its live state, each
    other shard as its directory describes it, nothing else, the entry counts those of
    the rollups, largest first and then by root. *)
Theorem listing_is_exact `{HO : HashOrder} rollups r :
  NoDup (i_shard_id <$> scan_disk_shards r) →
  let l := list_shards_with_rollups rollups r in
  NoDup (i_shard_id <$> l) ∧
  (∀ s, s ∈ l ↔ ∃ s0, s = stamp rollups s0 ∧
    ((∃ id p, loaded r !! id = Some p ∧ s0 = info_for_loaded id p) ∨
     (s0 ∈ scan_disk_shards r ∧ loaded r !! i_shard_id s0 = None))) ∧
  StronglySorted (cmp_le shard_order) l.
Proof.
  intros Hnd. cbn zeta. destruct (merged_shards_spec r Hnd) as [Hn Hin].
  unfold list_shards_with_rollups. split_and!.
  - rewrite merge_sort_Permutation, <- list_fmap_compose.
    erewrite list_fmap_ext; [exact Hn|]. intros. apply stamp_id.
  - intros s. rewrite merge_sort_Permutation, list_elem_of_fmap. by setoid_rewrite Hin.
  - apply StronglySorted_merge_sort; apply _.
Qed.
End listing.

Definition shard_x : LoadedProjectCache :=
  {| lp_project_root := "/x"; lp_normalized_root := "/x"; lp_cache_path := "/c/x"; lp_cache := 0;
     lp_last_used_millis := 9; lp_last_metadata_write_millis := 0; disk_retry := None |}.
Definition sidecar (id : string) : Node :=
  FileNode 10 (Some {| md_shard_id := id; md_project_root := "/" +:+ id; md_normalized_root := "/" +:+ id;
                       md_last_used_millis := 5 |}).
Definition base_dir (path : string) : option (list (string * Node)) :=
  if decide (path = "/c")
  then Some [("x", DirNode (Some [(SHARD_METADATA_FILE_NAME, sidecar "x")]));
             ("y", DirNode (Some [(SHARD_METADATA_FILE_NAME, sidecar "y"); (SHARD_DB_FILE_NAME, FileNode 90 None)]));
             ("stray", FileNode 1 None)]
  else None.
Definition registry_x : ProjectCacheRegistry :=
  set_loaded {["x" := shard_x]} (new_registry (Some "/c") true 1).

Lemma listing_is_exact_witness :
  i_shard_id <$> list_shards_with_rollups base_dir (λ _, None) (HO := key_order) ∅ registry_x = ["y"; "x"] ∧
  NoDup (i_shard_id <$> list_shards_with_rollups base_dir (λ _, None) (HO := key_order) ∅ registry_x).
Proof.
  split; [by vm_compute|].
  apply (listing_is_exact base_dir (λ _, None) (HO := key_order) ∅ registry_x).
  vm_compute. repeat constructor; set_solver.
Defined.

(** ** The backoff *)

(** The attempts of a run that claimed. *)
Fixpoint claims (r : DiskRetry) (ts : list N) : list N :=
  match ts with
  | [] => []
  | t :: ts => let '(claimed, r) := claim t r in if claimed then t :: claims r ts else claims r ts
  end.

(** The [k]-th interval: doubled each time, up to the largest. *)
Definition interval (k : N) : N := N.min (2000 * 2 ^ k) 30000.
Fixpoint spaced (k base : N) (cs : list N) : Prop :=
  match cs with [] => True | c :: cs => (base + interval k <= c)%N ∧ spaced (k + 1) c cs end.

Lemma interval_next k : N.min (interval k * 2) MAX_INTERVAL_MILLIS = interval (k + 1).
Proof. unfold interval, MAX_INTERVAL_MILLIS. rewrite N.add_1_r, N.pow_succ_r'. lia. Qed.

Lemma claims_spec ts : ∀ k base,
  Sorted N.le (base :: ts) → Forall (λ t, t + MAX_INTERVAL_MILLIS <= u64_max)%N (base :: ts) →
  let cs := claims {| next_attempt_millis := base + interval k; interval_millis := interval k |} ts in
  spaced k base cs ∧
  (∀ t, t ∈ ts → ∃ c, c ∈ base :: cs ∧ (c <= t < c + MAX_INTERVAL_MILLIS)%N).
Proof.
  induction ts as [|t ts IH]; intros k base Hs Hb; cbn [claims].
  - split; [done|]. set_solver.
  - apply Sorted_inv in Hs as [Hs Hle%HdRel_inv]. apply Forall_cons in Hb as [Hbase Hb].
    pose proof (Forall_inv Hb) as Ht. cbv beta in Ht. unfold claim. cbn [next_attempt_millis interval_millis].
    destruct (N.ltb_spec t (base + interval k)) as [Hlt|Hge].
    + destruct (IH k base) as [Hsp Hin]; [|by apply Forall_cons; split; [|apply Forall_cons in Hb as [_ ?]]|].
      { apply Sorted_inv in Hs as [Hs Hd]. constructor; [done|].
        destruct ts; constructor. apply HdRel_inv in Hd. lia. }
      split; [done|]. intros t' [->|?]%elem_of_cons; [|by apply Hin].
      exists base. split; [by left|]. unfold interval, MAX_INTERVAL_MILLIS in *. lia.
    + rewrite interval_next. unfold sat_add. rewrite N.min_l.
      2: { unfold interval, MAX_INTERVAL_MILLIS in *. lia. }
      destruct (IH (k + 1)%N t Hs Hb) as [Hsp Hin]. split; [done|].
      intros t' [->|Ht']%elem_of_cons.
      * exists t. split; [by right; left|]. unfold MAX_INTERVAL_MILLIS. lia.
      * destruct (Hin t' Ht') as (c & Hc & ?). exists c. split; [by right|done].
Qed.

(** Retries of a failed open back off and never stop: successive claims are at least
    the doubling interval apart, and at every attempt the last claim is less than the
    largest interval ago, so an attempt later than that always claims. *)
Theorem retries_back_off now ts :
  Sorted N.le (now :: ts) → Forall (λ t, t + MAX_INTERVAL_MILLIS <= u64_max)%N (now :: ts) →
  let cs := claims (starting_at now) ts in
  spaced 0 now cs ∧ (∀ t, t ∈ ts → ∃ c, c ∈ now :: cs ∧ (c <= t < c + MAX_INTERVAL_MILLIS)%N).
Proof.
  intros Hs Hb. unfold starting_at, sat_add. rewrite N.min_l; [by apply claims_spec|].
  apply Forall_inv in Hb. cbv beta in Hb. unfold FIRST_INTERVAL_MILLIS, MAX_INTERVAL_MILLIS in *. lia.
Qed.

Lemma retries_back_off_witness :
  claims (starting_at 0) [1000; 2000; 3000; 6000; 7000; 40000]%N = [2000; 6000; 40000]%N ∧
  spaced 0 0 (claims (starting_at 0) [1000; 2000; 3000; 6000; 7000; 40000]%N).
Proof.
  split; [by vm_compute|]. apply (retries_back_off 0 [1000; 2000; 3000; 6000; 7000; 40000]%N).
  - repeat constructor; done.
  - repeat constructor; done.
Defined.

(** ** Roots and ids *)

Lemma lowercase_idem c : to_ascii_lowercase (to_ascii_lowercase c) = to_ascii_lowercase c.
Proof. by destruct c as [[] [] [] [] [] [] [] []]. Qed.
Lemma slashed_lowercase c : slashed (to_ascii_lowercase (slashed c)) = to_ascii_lowercase (slashed c).
Proof. by destruct c as [[] [] [] [] [] [] [] []]. Qed.
Lemma slashed_idem c : slashed (slashed c) = slashed c.
Proof. by destruct c as [[] [] [] [] [] [] [] []]. Qed.
Lemma lowercase_is c d : d = "/"%char ∨ d = ":"%char → to_ascii_lowercase c = d ↔ c = d.
Proof. intros [-> | ->]; split; try (intros ->; reflexivity); by destruct c as [[] [] [] [] [] [] [] []]. Qed.

Lemma trim_end_idem c l : trim_end c (trim_end c l) = trim_end c l.
Proof.
  induction l as [|a l IH]; [done|]. cbn. destruct (trim_end c l) as [|b t] eqn:E.
  - case_decide; [done|]. cbn. by rewrite decide_False.
  - change (match trim_end c (b :: t) with [] => if decide (a = c) then [] else [a] | t => a :: t end = a :: b :: t).
    by rewrite IH.
Qed.
Lemma trim_end_fmap c (f : ascii → ascii) l :
  (∀ a, f a = c ↔ a = c) → trim_end c (f <$> l) = f <$> trim_end c l.
Proof.
  intros Hf. induction l as [|a l IH]; [done|]. cbn. rewrite IH.
  destruct (trim_end c l); cbn; [|done]. destruct (decide (a = c)) as [He|He].
  - by rewrite decide_True by by apply Hf.
  - by rewrite decide_False by by rewrite Hf.
Qed.
Lemma elem_of_trim_end c x l : x ∈ trim_end c l → x ∈ l.
Proof.
  induction l as [|a l IH]; cbn; [done|]. destruct (trim_end c l); [case_decide|]; set_solver.
Qed.

Lemma trimmed_fixed l : (∀ c, c ∈ l → slashed c = c) → slashed <$> trim_end "/"%char l = trim_end "/"%char l.
Proof.
  intros Hl. rewrite <- (list_fmap_id (trim_end "/"%char l)) at 2.
  apply list_fmap_ext. intros i c Hc%list_elem_of_lookup_2. by apply Hl, (elem_of_trim_end "/"%char).
Qed.

(** Normalising again changes nothing: a recorded normalised root compares with one
    computed from it. *)
Lemma normalize_idem windows root :
  normalize_project_root windows (normalize_project_root windows root) = normalize_project_root windows root.
Proof.
  unfold normalize_project_root. set (t := trim_end "/"%char (slashed <$> to_bytes root)).
  assert (slashed <$> t = t) as Ht.
  { apply trimmed_fixed. intros c (c' & -> & _)%list_elem_of_fmap. apply slashed_idem. }
  assert (trim_end "/"%char t = t) as Htt by apply trim_end_idem.
  destruct (windows || bool_decide (t !! 1 = Some ":"%char)) eqn:Hlow; rewrite to_of_bytes.
  - assert (slashed <$> (to_ascii_lowercase <$> t) = to_ascii_lowercase <$> t) as ->.
    { rewrite <- Ht, <- !list_fmap_compose. apply list_fmap_ext. intros. apply slashed_lowercase. }
    rewrite trim_end_fmap, Htt by (intros; apply lowercase_is; auto).
    assert ((to_ascii_lowercase <$> t) !! 1 = Some ":"%char ↔ t !! 1 = Some ":"%char) as Hcolon.
    { rewrite list_lookup_fmap, fmap_Some. split.
      - intros (c & -> & Hc%symmetry). f_equal.
        destruct (lowercase_is c ":"%char) as [Hd _]; [by right|]. by apply Hd.
      - intros ->. by exists ":"%char. }
    rewrite (bool_decide_ext _ _ Hcolon), Hlow. f_equal.
    rewrite <- list_fmap_compose. apply list_fmap_ext. intros. apply lowercase_idem.
  - by rewrite Ht, Htt, Hlow.
Qed.

Lemma hex_digit_plain n : hex_digit n ≠ "/"%char ∧ hex_digit n ≠ "\"%char ∧ hex_digit n ≠ ":"%char.
Proof. unfold hex_digit. by repeat case_match. Qed.

(** C40. A root and its normalisation are the same shard, and a shard's id is one plain
    directory name of nineteen characters, without a separator or a drive mark, so that
    every shard is a direct child of the base. *)
Theorem shard_id_names_a_child windows root :
  normalize_project_root windows (normalize_project_root windows root) = normalize_project_root windows root ∧
  project_cache_shard_id windows (normalize_project_root windows root) = project_cache_shard_id windows root ∧
  length (to_bytes (project_cache_shard_id windows root)) = 19 ∧
  (∀ c, c ∈ to_bytes (project_cache_shard_id windows root) → c ≠ "/"%char ∧ c ≠ "\"%char ∧ c ≠ ":"%char).
Proof.
  split; [apply normalize_idem|]. unfold project_cache_shard_id. rewrite normalize_idem. split; [done|].
  rewrite to_of_bytes. split; [done|].
  intros c [Hc|(i & -> & _)%list_elem_of_fmap]%elem_of_app; [|apply hex_digit_plain].
  repeat (apply elem_of_cons in Hc as [->|Hc]; [done|]). by apply elem_of_nil in Hc.
Qed.
