(* ===== verification/ShardLocks.v ===== *)
(** The project cache registry under threads (cache/project.rs, the opens of
    cache/disk.rs): the load lock of each shard, the Arc its callers share, the
    database file its cache holds open and the removal that deletes it. A thread is
    split at the sections the locks and the file system make atomic; any
    interleaving is a run, other daemons' opens included. *)
From stdpp Require Import base gmap list strings.
From S2P Require Import Prelude CacheKeys Disk ProjectRegistry.

Module ShardLock.

Section threads.
Context (windows : bool).

(** ** State *)

(** Who opens a database: a retry of a registered shard, a cold load, a maintenance
    or status pass, another daemon over the same base. *)
Inductive opening :=
  | ForRetry (id : string) (c : N)
  | ForCold (root : string) (now : N)
  | ForTemp (id : string)
  | ForForeign (id : string).
Definition shard_of (k : opening) : string :=
  match k with
  | ForRetry id _ | ForTemp id | ForForeign id => id
  | ForCold root _ => project_cache_shard_id windows root
  end.

Inductive pc :=
  (* [cache_for_root] *)
  | Looking (root : string) (now : N)
  | WarmMeta (id : string) (c : N) (retry : bool) (m : ProjectCacheMetadata)  (* owes a sidecar write *)
  | RetryWait (id : string) (c : N)                  (* [retry_disk_open] *)
  | Rechecking (id : string) (c : N)
  | Opening (k : opening)
  | Recreating (k : opening)                         (* the file is about to be deleted and made anew *)
  | Reopened (id : string) (c : N)
  | RetryMeta (id : string) (c : N) (m : ProjectCacheMetadata)
  | ColdWait (root : string) (now : N)
  | ColdLook (root : string) (now : N)               (* the second look *)
  | ColdMeta (id : string) (c : N) (m : ProjectCacheMetadata)
  | WritingMeta (id : string) (shard : LoadedProjectCache) (m : ProjectCacheMetadata)
  | Inserting (id : string) (shard : LoadedProjectCache)
  | Using (c : N)                                    (* holds the Arc *)
  (* [remove_shard_by_id] *)
  | RemoveWait (id : string)
  | Taking (id : string)
  | Clearing (id : string) (taken : option N) (found : bool)
  | Unlinking (id : string)                          (* [remove_shard_database] *)
  | Rmdir (id : string)
  | Removed (id : string) (removed : bool)
  | Finished.

(** A shard's directory: the file of its database, by inode, and its sidecar. *)
Record dir := { db : option N; sidecar : option ProjectCacheMetadata }.

Record state := {
  reg : ProjectCacheRegistry;
  locks : gmap string N;                     (* who holds a shard's load lock *)
  caches : gmap N (string * option N);       (* every [ImportCache] made: its shard, the inode it has open *)
  files : gmap string dir;
  threads : gmap N pc;
  next : N;                                  (* the next Arc and inode *)
}.

Definition initial (r : ProjectCacheRegistry) : state :=
  {| reg := set_loaded ∅ r; locks := ∅; caches := ∅; files := ∅; threads := ∅; next := 0 |}.

Definition set_thread (t : N) (p : pc) (s : state) : state :=
  {| reg := reg s; locks := locks s; caches := caches s; files := files s;
     threads := <[t := p]> (threads s); next := next s |}.
Definition set_reg (r : ProjectCacheRegistry) (s : state) : state :=
  {| reg := r; locks := locks s; caches := caches s; files := files s; threads := threads s; next := next s |}.
Definition set_locks (l : gmap string N) (s : state) : state :=
  {| reg := reg s; locks := l; caches := caches s; files := files s; threads := threads s; next := next s |}.
Definition set_files (f : gmap string dir) (s : state) : state :=
  {| reg := reg s; locks := locks s; caches := caches s; files := f; threads := threads s; next := next s |}.
Definition set_caches (cs : gmap N (string * option N)) (s : state) : state :=
  {| reg := reg s; locks := locks s; caches := cs; files := files s; threads := threads s; next := next s |}.
Definition bump (s : state) : state :=
  {| reg := reg s; locks := locks s; caches := caches s; files := files s; threads := threads s;
     next := next s + 1 |}.

(** Taking a lock, and dropping its guard, with the section that follows. *)
Definition acquire (t : N) (id : string) (p : pc) (s : state) : option state :=
  match locks s !! id with
  | None => Some (set_thread t p (set_locks (<[id := t]> (locks s)) s))
  | Some _ => None
  end.
Definition release (t : N) (id : string) (p : pc) (s : state) : state :=
  set_thread t p (set_locks (delete id (locks s)) s).

(** ** The database file *)

(** The Arc a thread holds. *)
Definition pc_cache (p : pc) : option N :=
  match p with
  | WarmMeta _ c _ _ | RetryWait _ c | Rechecking _ c | Opening (ForRetry _ c) | Recreating (ForRetry _ c)
  | Reopened _ c | RetryMeta _ c _ | ColdMeta _ c _ | Using c => Some c
  | WritingMeta _ sh _ | Inserting _ sh => Some (lp_cache sh)
  | Clearing _ taken _ => taken
  | _ => None
  end.

(** A cache is dropped, and its database closed, with the last Arc of it. *)
Definition live (s : state) (c : N) : bool :=
  existsb (λ e, bool_decide (lp_cache e.2 = c)) (map_to_list (loaded (reg s))) ||
  existsb (λ e, bool_decide (pc_cache e.2 = Some c)) (map_to_list (threads s)).
(** redb refuses to open a file that is open. *)
Definition held (s : state) (inode : N) : bool :=
  existsb (λ e, bool_decide (e.2.2 = Some inode) && live s e.1) (map_to_list (caches s)).

Definition dir_of (s : state) (id : string) : dir :=
  default {| db := None; sidecar := None |} (files s !! id).
Definition set_db (id : string) (i : option N) (s : state) : state :=
  set_files (<[id := {| db := i; sidecar := sidecar (dir_of s id) |}]> (files s)) s.

(** [write_metadata]: the directory is created if it is missing. *)
Definition write_metadata (id : string) (m : ProjectCacheMetadata) (s : state) : state :=
  set_files (<[id := {| db := db (dir_of s id); sidecar := Some m |}]> (files s)) s.

(** What the file system and the stored bytes answer. *)
Inductive answer :=
  | Good
  | Bad         (* a transient failure *)
  | NoDir       (* the directory could not be created, or the file not deleted *)
  | Corrupt.    (* the file is unreadable, or of another schema *)

(** Where an open ends: with the inode it has open, or without. *)
Definition opened (t : N) (k : opening) (inode : option N) (s : state) : state :=
  match k with
  | ForRetry id c =>
      match inode with
      | Some i => set_thread t (Reopened id c) (set_caches (<[c := (id, Some i)]> (caches s)) s)
      | None => release t id (Using c) s
      end
  | ForCold root now =>
      let id := shard_of k in
      let c := next s in
      let shard := cold_shard (reg s) windows root id now c (bool_decide (is_Some inode)) in
      let s := bump (set_caches (<[c := (id, inode)]> (caches s)) s) in
      match disk_retry shard, metadata_write_for_loaded (reg s) id shard with
      | None, Some (_, m) => set_thread t (WritingMeta id shard m) s
      | _, _ => set_thread t (Inserting id shard) s
      end
  | ForTemp id | ForForeign id =>
      set_thread t (Using (next s)) (bump (set_caches (<[next s := (id, inode)]> (caches s)) s))
  end.

(** [DiskCache::open_database], up to the deletion of an unusable file. *)
Definition open_database (t : N) (k : opening) (a : answer) (s : state) : state :=
  let id := shard_of k in
  let missing := match k with ForTemp _ => bool_decide (db (dir_of s id) = None) | _ => false end in
  if negb (storage_enabled (reg s)) || missing || match a with NoDir => true | _ => false end
  then opened t k None s
  else
    match db (dir_of s id) with
    | Some i =>
        if held s i then opened t k None s
        else match a with
             | Corrupt => set_thread t (Recreating k) s
             | Good => opened t k (Some i) s
             | _ => opened t k None s
             end
    | None =>
        match a with
        | Good => opened t k (Some (next s)) (bump (set_db id (Some (next s)) s))
        | _ => opened t k None (set_db id None s)
        end
    end.

(** [recreate_database]: whatever is at the path now is deleted. *)
Definition recreate_database (t : N) (k : opening) (a : answer) (s : state) : state :=
  let id := shard_of k in
  match db (dir_of s id), a with
  | None, _ | _, NoDir => opened t k None s
  | _, Good => opened t k (Some (next s)) (bump (set_db id (Some (next s)) s))
  | _, _ => opened t k None (set_db id None s)
  end.

(** ** Steps *)

Definition id_of (root : string) : string := project_cache_shard_id windows root.
(** The caller goes on to its retry, or has its cache. *)
Definition after_warm (id : string) (c : N) (retry : bool) : pc :=
  if retry then RetryWait id c else Using c.

Definition step_cold_look (t : N) (root : string) (now : N) (s : state) : state :=
  let id := id_of root in
  let '(hit, r) := warm_shard_hit id now false (reg s) in
  match hit with
  | None => set_thread t (Opening (ForCold root now)) s
  | Some (c, _, Some (_, m)) => set_thread t (ColdMeta id c m) (set_reg r s)
  | Some (c, _, None) => release t id (Using c) (set_reg r s)
  end.

Definition step_look (t : N) (root : string) (now : N) (s : state) : state :=
  let id := id_of root in
  let '(hit, r) := warm_shard_hit id now true (reg s) in
  match hit with
  | None => set_thread t (ColdWait root now) s
  | Some (c, retry, Some (_, m)) => set_thread t (WarmMeta id c retry m) (set_reg r s)
  | Some (c, retry, None) => set_thread t (after_warm id c retry) (set_reg r s)
  end.

(** Only while [c] is still the registered cache. A cache whose disk was attached
    meanwhile needs no open. *)
Definition step_recheck (t : N) (id : string) (c : N) (s : state) : state :=
  if decide (lp_cache <$> loaded (reg s) !! id = Some c)
  then match caches s !! c with
       | Some (_, Some _) => set_thread t (Reopened id c) s
       | _ => set_thread t (Opening (ForRetry id c)) s
       end
  else release t id (Using c) s.

Definition step_reopened (t : N) (id : string) (c : N) (s : state) : state :=
  let '(owed, r) := retry_opened id (reg s) in
  match owed with
  | Some (_, m) => set_thread t (RetryMeta id c m) (set_reg r s)
  | None => release t id (Using c) (set_reg r s)
  end.

(** The removal takes the shard out of the map; what it found in memory or on disk
    tells a shard from an unknown id. *)
Definition step_take (t : N) (id : string) (s : state) : state :=
  let taken := lp_cache <$> loaded (reg s) !! id in
  let found := bool_decide (is_Some taken) ||
    (storage_enabled (reg s) && bool_decide (is_Some (sidecar (dir_of s id)))) in
  set_thread t (Clearing id taken found) (set_reg (set_loaded (delete id (loaded (reg s))) (reg s)) s).
(** [clear], the drop of the Arc, and the paths that delete nothing. *)
Definition step_clear (t : N) (id : string) (found : bool) (s : state) : state :=
  if negb found && bool_decide (files s !! id = None) then release t id (Removed id false) s
  else if negb (storage_enabled (reg s)) then release t id (Removed id true) s
  else set_thread t (Unlinking id) s.
Definition step_unlink (t : N) (id : string) (a : answer) (s : state) : state :=
  match db (dir_of s id) with
  | None => set_thread t (Rmdir id) s
  | Some i =>
      if held s i then release t id (Removed id false) s
      else match a with
           | Good => set_thread t (Rmdir id) (set_db id None s)
           | _ => release t id (Removed id false) s
           end
  end.
Definition step_rmdir (t : N) (id : string) (a : answer) (s : state) : state :=
  match files s !! id, a with
  | None, _ => release t id (Removed id true) s
  | Some _, Good => release t id (Removed id true) (set_files (delete id (files s)) s)
  | Some _, _ => release t id (Removed id false) s
  end.

Definition wrote (id : string) (m : ProjectCacheMetadata) (a : answer) (s : state) : state :=
  match a with Good => write_metadata id m s | _ => s end.

(** One section of thread [t]; [None] when it is done or waits for a lock. *)
Definition advance (t : N) (a : answer) (s : state) : option state :=
  p ← threads s !! t;
  match p with
  | Looking root now => Some (step_look t root now s)
  | WarmMeta id c retry m => Some (set_thread t (after_warm id c retry) (wrote id m a s))
  | RetryWait id c => acquire t id (Rechecking id c) s
  | Rechecking id c => Some (step_recheck t id c s)
  | Opening k => Some (open_database t k a s)
  | Recreating k => Some (recreate_database t k a s)
  | Reopened id c => Some (step_reopened t id c s)
  | RetryMeta id c m | ColdMeta id c m => Some (release t id (Using c) (wrote id m a s))
  | ColdWait root now => acquire t (id_of root) (ColdLook root now) s
  | ColdLook root now => Some (step_cold_look t root now s)
  | WritingMeta id shard m => Some (set_thread t (Inserting id shard) (wrote id m a s))
  | Inserting id shard =>
      Some (release t id (Using (lp_cache shard))
             (set_reg (set_loaded (<[id := shard]> (loaded (reg s))) (reg s)) s))
  | Using _ => Some (set_thread t Finished s)
  | RemoveWait id => acquire t id (Taking id) s
  | Taking id => Some (step_take t id s)
  | Clearing id _ found => Some (step_clear t id found s)
  | Unlinking id => Some (step_unlink t id a s)
  | Rmdir id => Some (step_rmdir t id a s)
  | Removed _ _ | Finished => None
  end.

Inductive call :=
  | CacheForRoot (root : string) (now : N)
  | RemoveShardById (id : string)
  | OpenExisting (id : string)       (* a maintenance, status, purge or invalidation pass *)
  | ForeignOpen (id : string)        (* another daemon *)
  | Clone (id : string).             (* a pass over the loaded shards *)
Inductive action := Call (t : N) (c : call) | Advance (t : N) (a : answer).

Definition step (x : action) (s : state) : option state :=
  match x with
  | Advance t a => advance t a s
  | Call t c =>
      match threads s !! t with
      | Some _ => None
      | None =>
          match c with
          | CacheForRoot root now => Some (set_thread t (Looking root now) s)
          | RemoveShardById id => Some (set_thread t (RemoveWait id) s)
          | OpenExisting id => Some (set_thread t (Opening (ForTemp id)) s)
          | ForeignOpen id => Some (set_thread t (Opening (ForForeign id)) s)
          | Clone id => (λ sh, set_thread t (Using (lp_cache sh)) s) <$> loaded (reg s) !! id
          end
      end
  end.

(** The runs whose every action is allowed. *)
Inductive reachable (allowed : action → Prop) (r : ProjectCacheRegistry) : state → Prop :=
  | reach_initial : reachable allowed r (initial r)
  | reach_step x s s' : reachable allowed r s → allowed x → step x s = Some s' → reachable allowed r s'.

(** ** The locks *)

(** The load lock a thread holds. *)
Definition lock_of (p : pc) : option string :=
  match p with
  | Rechecking id _ | Reopened id _ | RetryMeta id _ _ | ColdMeta id _ _ | WritingMeta id _ _
  | Inserting id _ | Taking id | Clearing id _ _ | Unlinking id | Rmdir id => Some id
  | ColdLook root _ => Some (id_of root)
  | Opening k | Recreating k =>
      match k with ForRetry id _ => Some id | ForCold root _ => Some (id_of root) | _ => None end
  | _ => None
  end.

Definition registered (s : state) (id : string) : option N := lp_cache <$> loaded (reg s) !! id.

(** What a thread that is somewhere knows of the map. *)
Definition knows (s : state) (p : pc) : Prop :=
  match p with
  | Opening (ForCold root _) | Recreating (ForCold root _) => registered s (id_of root) = None
  | WritingMeta id _ _ | Inserting id _ | Clearing id _ _ | Unlinking id | Rmdir id => registered s id = None
  | Opening (ForRetry id c) | Recreating (ForRetry id c) | Reopened id c | RetryMeta id c _ =>
      registered s id = Some c
  | _ => True
  end.

Record inv (s : state) : Prop := {
  inv_held : ∀ t p id, threads s !! t = Some p → lock_of p = Some id → locks s !! id = Some t;
  inv_holder : ∀ t id, locks s !! id = Some t → ∃ p, threads s !! t = Some p ∧ lock_of p = Some id;
  inv_knows : ∀ t p, threads s !! t = Some p → knows s p;
}.

(** What a step of thread [t] from [p] to [p'] may do to what the others rely on. *)
Record frame (s s' : state) (t : N) (old : option pc) (p' : pc) : Prop := {
  fr_old : threads s !! t = old;
  fr_threads : threads s' = <[t := p']> (threads s);
  fr_registered : ∀ id, registered s' id = registered s id ∨ old = Some (Taking id) ∨
    ∃ sh, old = Some (Inserting id sh);
  fr_locks :
    (locks s' = locks s ∧ lock_of p' = old ≫= lock_of) ∨
    (∃ id, old ≫= lock_of = None ∧ lock_of p' = Some id ∧ locks s !! id = None ∧ locks s' = <[id := t]> (locks s)) ∨
    (∃ id, old ≫= lock_of = Some id ∧ lock_of p' = None ∧ locks s' = delete id (locks s));
  fr_knows : knows s' p';
}.

Lemma knows_registered s s' p :
  (∀ id, lock_of p = Some id → registered s' id = registered s id) → knows s p → knows s' p.
Proof.
  intros Hr. assert (∀ id v, lock_of p = Some id → registered s id = v → registered s' id = v) as Hr'.
  { intros id v ? <-. by apply Hr. }
  destruct p as [ | | | |[]|[]| | | | | | | | | | | | | | | ]; cbn in *; intros Hk; try done; by apply Hr'.
Qed.

Lemma inv_frame s s' t old p' : inv s → frame s s' t old p' → inv s'.
Proof.
  intros [Hh Ho Hk] [Hold Ht Hr Hl Hk'].
  assert (∀ id, old ≫= lock_of = Some id → locks s !! id = Some t) as Hmine.
  { intros id. destruct old as [p|]; [|done]. by apply Hh. }
  assert (∀ t0 p0 id, t ≠ t0 → threads s !! t0 = Some p0 → lock_of p0 = Some id → old ≫= lock_of ≠ Some id) as Hother.
  { intros t0 p0 id Hne Hp0 Hid Hold'. pose proof (Hh _ _ _ Hp0 Hid). pose proof (Hmine _ Hold'). congruence. }
  split.
  - intros t0 p0 id. rewrite Ht. intros [[<- <-]|[Hne Hp0]]%lookup_insert_Some Hid.
    + destruct Hl as [[-> Heq]|[(id' & _ & Heq & _ & ->)|(id' & _ & Heq & _)]]; [| |congruence].
      * apply Hmine. congruence.
      * rewrite Hid in Heq. simplify_eq. by rewrite lookup_insert_eq.
    + pose proof (Hh _ _ _ Hp0 Hid) as Hlk.
      destruct Hl as [[-> _]|[(id' & _ & _ & Hfree & ->)|(id' & Hid' & _ & ->)]]; [done| |].
      * by rewrite lookup_insert_ne by congruence.
      * rewrite lookup_delete_ne; [done|]. intros ->. by eapply Hother.
  - intros t0 id. rewrite Ht.
    destruct Hl as [[-> Heq]|[(id' & Hnone & Heq & _ & ->)|(id' & Hid' & _ & ->)]].
    + intros (p0 & Hp0 & Hid)%Ho. destruct (decide (t = t0)) as [<-|Hne].
      * exists p'. rewrite lookup_insert_eq. split; [done|]. rewrite Heq, <- Hold, Hp0. done.
      * exists p0. by rewrite lookup_insert_ne.
    + intros [[<- <-]|[_ (p0 & Hp0 & Hid)%Ho]]%lookup_insert_Some.
      * exists p'. by rewrite lookup_insert_eq.
      * destruct (decide (t = t0)) as [<-|Hne]; [|exists p0; by rewrite lookup_insert_ne].
        exfalso. rewrite <- Hold, Hp0 in Hnone. cbn in Hnone. congruence.
    + intros [Hne (p0 & Hp0 & Hid)%Ho]%lookup_delete_Some. exists p0.
      rewrite lookup_insert_ne; [done|]. intros <-. rewrite <- Hold, Hp0 in Hid'. cbn in Hid'. congruence.
  - intros t0 p0. rewrite Ht. intros [[<- <-]|[Hne Hp0]]%lookup_insert_Some; [done|].
    apply (knows_registered s); [|by eapply Hk]. intros id Hid.
    assert (old ≫= lock_of ≠ Some id) as Hno by by eapply Hother.
    destruct (Hr id) as [?|[Heq|[sh Heq]]]; [done|by rewrite Heq in Hno..].
Qed.

(** The sections of a thread, each in its frame. [beside s s1]: only files and caches
    differ, and the entries' times. *)
Record beside (s s1 : state) : Prop := {
  bs_threads : threads s1 = threads s;
  bs_locks : locks s1 = locks s;
  bs_registered : ∀ id, registered s1 id = registered s id;
}.
#[local] Instance beside_refl : Reflexive beside.
Proof. by split. Qed.

Lemma frame_move s s1 t old p' :
  threads s !! t = old → beside s s1 → lock_of p' = old ≫= lock_of → knows s1 p' →
  frame s (set_thread t p' s1) t old p'.
Proof.
  intros Hold [Ht Hl Hr] Hlk Hk. split; [done|cbn; by rewrite Ht|left; apply Hr|left; by rewrite <- Hl|].
  by apply (knows_registered s1).
Qed.
Lemma frame_release s s1 t old p' id :
  threads s !! t = old → beside s s1 → old ≫= lock_of = Some id → lock_of p' = None → knows s1 p' →
  frame s (release t id p' s1) t old p'.
Proof.
  intros Hold [Ht Hl Hr] Hlk Hlk' Hk. split; [done|cbn; by rewrite Ht|left; apply Hr| |].
  - right; right. exists id. by rewrite <- Hl.
  - by apply (knows_registered s1).
Qed.
Lemma frame_acquire s s' t old p' id :
  threads s !! t = old → old ≫= lock_of = None → lock_of p' = Some id → knows s p' →
  acquire t id p' s = Some s' → frame s s' t old p'.
Proof.
  intros Hold Hlk Hlk' Hk Hs. unfold acquire in Hs. destruct (locks s !! id) eqn:E; simplify_eq.
  split; [done|done|by left|right; left; by exists id|]. by apply (knows_registered s).
Qed.

Lemma warm_registered id now b r :
  let '(hit, r') := warm_shard_hit id now b r in
  (∀ id', lp_cache <$> loaded r' !! id' = lp_cache <$> loaded r !! id') ∧
  lp_cache <$> loaded r !! id = (λ h, h.1.1) <$> hit.
Proof.
  unfold warm_shard_hit. destruct (loaded r !! id) as [sh|] eqn:E; [|done].
  assert (∀ sh', lp_cache sh' = lp_cache sh → ∀ id',
    lp_cache <$> <[id := sh']> (loaded r) !! id' = lp_cache <$> loaded r !! id') as Hsame.
  { intros sh' Hc id'. destruct (decide (id = id')) as [<-|Hne].
    - rewrite lookup_insert_eq, E. cbn. by rewrite Hc.
    - by rewrite lookup_insert_ne. }
  destruct (disk_retry sh) as [d|]; [destruct b; [destruct (claim now d)|]|];
    (destruct (_ && _); cbn; (split; [by apply Hsame|done])).
Qed.

Lemma retry_registered id r :
  let '(_, r') := retry_opened id r in ∀ id', lp_cache <$> loaded r' !! id' = lp_cache <$> loaded r !! id'.
Proof.
  unfold retry_opened. destruct (loaded r !! id) as [sh|] eqn:E; [|done]. intros id'. cbn.
  destruct (decide (id = id')) as [<-|Hne]; [by rewrite lookup_insert_eq, E|by rewrite lookup_insert_ne].
Qed.

Lemma opened_frame s s1 t p k inode :
  threads s !! t = Some p → p = Opening k ∨ p = Recreating k → beside s s1 → knows s p →
  ∃ p', frame s (opened t k inode s1) t (Some p) p'.
Proof.
  intros Hp Hpk Hb Hk. pose proof (bs_registered _ _ Hb) as Hr.
  assert (Some p ≫= lock_of = match k with ForRetry id _ => Some id | ForCold root _ => Some (id_of root) | _ => None end)
    as Hlk by (by destruct Hpk as [-> | ->]).
  assert (match k with ForRetry id c => registered s id = Some c | ForCold root _ => registered s (id_of root) = None
    | _ => True end) as Hk' by (destruct Hpk as [-> | ->]; by destruct k).
  destruct k as [id c|root now|id|id]; cbn [opened].
  - destruct inode as [i|]; eexists.
    + apply frame_move; [done| |by rewrite Hlk|cbn; by rewrite <- Hr in Hk']. by split; destruct Hb.
    + by apply frame_release.
  - cbn zeta. set (sh := cold_shard _ _ _ _ _ _ _). set (s2 := bump _).
    assert (beside s s2) by (by split; destruct Hb).
    assert (registered s2 (id_of root) = None) by (etransitivity; [apply Hr|done]).
    destruct (disk_retry sh); [|destruct (metadata_write_for_loaded _ _ sh) as [[? m]|]];
      eexists; apply frame_move; by rewrite ?Hlk.
  - eexists. apply frame_move; [done| |by rewrite Hlk|done]. by split; destruct Hb.
  - eexists. apply frame_move; [done| |by rewrite Hlk|done]. by split; destruct Hb.
Qed.

Lemma open_frame s t k a :
  threads s !! t = Some (Opening k) → knows s (Opening k) →
  ∃ p', frame s (open_database t k a s) t (Some (Opening k)) p'.
Proof.
  intros Hp Hk. unfold open_database.
  destruct (_ || _); [by apply opened_frame; auto|].
  destruct (db _) as [i|].
  - destruct (held s i); [by apply opened_frame; auto|].
    destruct a; try (by apply opened_frame; auto).
    eexists. by apply frame_move.
  - destruct a; (apply opened_frame; [done|by left| |done]); by split.
Qed.
Lemma recreate_frame s t k a :
  threads s !! t = Some (Recreating k) → knows s (Recreating k) →
  ∃ p', frame s (recreate_database t k a s) t (Some (Recreating k)) p'.
Proof.
  intros Hp Hk. unfold recreate_database.
  destruct (db _), a; (apply opened_frame; [done|by right| |done]); by split.
Qed.

Lemma look_frame s t root now :
  threads s !! t = Some (Looking root now) → ∃ p', frame s (step_look t root now s) t (Some (Looking root now)) p'.
Proof.
  intros Hp. unfold step_look. pose proof (warm_registered (id_of root) now true (reg s)) as Hw.
  destruct (warm_shard_hit _ _ _ _) as [[[[c retry] [[? m]|]]|] r]; destruct Hw as [Hr Hc]; eexists;
    (apply frame_move; [done| |by try destruct retry|by try destruct retry]; by split).
Qed.
Lemma cold_look_frame s t root now :
  threads s !! t = Some (ColdLook root now) →
  ∃ p', frame s (step_cold_look t root now s) t (Some (ColdLook root now)) p'.
Proof.
  intros Hp. unfold step_cold_look. pose proof (warm_registered (id_of root) now false (reg s)) as Hw.
  destruct (warm_shard_hit _ _ _ _) as [[[[c retry] [[? m]|]]|] r]; destruct Hw as [Hr Hc]; eexists.
  - by apply frame_move.
  - by apply frame_release.
  - by apply frame_move.
Qed.

Lemma recheck_frame s t id c :
  threads s !! t = Some (Rechecking id c) → ∃ p', frame s (step_recheck t id c s) t (Some (Rechecking id c)) p'.
Proof.
  intros Hp. unfold step_recheck. case_decide; [destruct (caches s !! c) as [[? []]|]|]; eexists;
    first [by apply frame_move|by apply frame_release].
Qed.
Lemma reopened_frame s t id c :
  threads s !! t = Some (Reopened id c) → knows s (Reopened id c) →
  ∃ p', frame s (step_reopened t id c s) t (Some (Reopened id c)) p'.
Proof.
  intros Hp Hk. unfold step_reopened. pose proof (retry_registered id (reg s)) as Hr.
  destruct (retry_opened _ _) as [[[? m]|] r]; eexists.
  - apply frame_move; try done. unfold knows. by etransitivity; [apply Hr|].
  - by apply frame_release.
Qed.

Lemma take_frame s t id :
  threads s !! t = Some (Taking id) → ∃ p', frame s (step_take t id s) t (Some (Taking id)) p'.
Proof.
  intros Hp. eexists. split; [done|done| |by left|].
  - intros id'. destruct (decide (id = id')) as [<-|Hne]; [by right; left|left].
    unfold registered. cbn. by rewrite lookup_delete_ne.
  - cbn. unfold registered. cbn. by rewrite lookup_delete_eq.
Qed.
Lemma insert_frame s t id sh :
  threads s !! t = Some (Inserting id sh) →
  frame s (release t id (Using (lp_cache sh)) (set_reg (set_loaded (<[id := sh]> (loaded (reg s))) (reg s)) s))
    t (Some (Inserting id sh)) (Using (lp_cache sh)).
Proof.
  intros Hp. split; [done|done| |right; right; by exists id|done].
  intros id'. destruct (decide (id = id')) as [<-|Hne]; [by right; right; exists sh|left].
  unfold registered. cbn. by rewrite lookup_insert_ne.
Qed.

Lemma removal_frames s t a p :
  threads s !! t = Some p → knows s p →
  match p with
  | Clearing id _ found => ∃ p', frame s (step_clear t id found s) t (Some p) p'
  | Unlinking id => ∃ p', frame s (step_unlink t id a s) t (Some p) p'
  | Rmdir id => ∃ p', frame s (step_rmdir t id a s) t (Some p) p'
  | _ => True
  end.
Proof.
  intros Hp Hk. destruct p as [ | | | | | | | | | | | | | | | |id taken found|id|id| | ]; try done.
  - unfold step_clear. destruct (_ && _); [|destruct (negb _)]; eexists;
      first [by apply frame_move|by apply frame_release].
  - unfold step_unlink. destruct (db _) as [i|]; [destruct (held s i); [|destruct a]|]; eexists;
      first [by apply frame_move|by apply frame_release].
  - unfold step_rmdir. destruct (files s !! id), a; eexists; by apply frame_release.
Qed.

Lemma wrote_beside s id m a : beside s (wrote id m a s).
Proof. by destruct a. Qed.

Lemma advance_frame s t a s' :
  inv s → advance t a s = Some s' → ∃ old p', frame s s' t old p'.
Proof.
  intros Hi Hs. unfold advance in Hs. destruct (threads s !! t) as [p|] eqn:Hp; [|done]. cbn in Hs.
  pose proof (inv_knows _ Hi _ _ Hp) as Hk. pose proof (removal_frames s t a p Hp Hk) as Hrem.
  exists (Some p). destruct p; simplify_eq; try done;
    try (eexists; eapply frame_acquire; [..|exact Hs]; done);
    try (eexists; apply frame_move; [done|apply wrote_beside|by try destruct retry|by try destruct retry]);
    try (eexists; apply frame_release; [done|apply wrote_beside|done..]).
  - by apply look_frame.
  - by apply recheck_frame.
  - by apply open_frame.
  - by apply recreate_frame.
  - by apply reopened_frame.
  - by apply cold_look_frame.
  - eexists. apply frame_move; [done|apply wrote_beside|done|]. by destruct a.
  - eexists. by apply insert_frame.
  - eexists. by apply frame_move.
  - by apply take_frame.
Qed.

Lemma step_frame s x s' : inv s → step x s = Some s' → ∃ t old p', frame s s' t old p'.
Proof.
  intros Hi Hs. destruct x as [t c|t a]; [|by eapply advance_frame in Hs as (? & ? & ?); eauto].
  cbn in Hs. destruct (threads s !! t) eqn:Hp; [done|]. exists t, None.
  destruct c; simplify_eq; try (eexists; by apply frame_move).
  apply fmap_Some in Hs as (sh & _ & ->). eexists. by apply frame_move.
Qed.

Lemma inv_initial r : inv (initial r).
Proof. split; cbn; intros *; by rewrite lookup_empty. Qed.
Lemma reachable_locked allowed r s : reachable allowed r s → inv s.
Proof.
  induction 1 as [|x s s' _ IH _ Hs]; [apply inv_initial|].
  destruct (step_frame _ _ _ IH Hs) as (t & old & p' & Hf). by eapply inv_frame.
Qed.

(** C15. The load lock makes a shard one thing at a time: no two threads are inside it, a
    cold load inserts where nothing is registered, a retry reopens only the registered
    cache, a removal deletes a directory nothing is registered for, and a registered
    cache stays its shard's one Arc until a removal takes it. *)
Theorem a_shard_is_one_thing_at_a_time allowed r s :
  reachable allowed r s →
  (∀ t1 t2 p1 p2 id, threads s !! t1 = Some p1 → threads s !! t2 = Some p2 →
    lock_of p1 = Some id → lock_of p2 = Some id → t1 = t2) ∧
  (∀ t p, threads s !! t = Some p → knows s p) ∧
  (∀ x s' id c, step x s = Some s' → registered s id = Some c →
    registered s' id = Some c ∨ ∃ t a, x = Advance t a ∧ threads s !! t = Some (Taking id)).
Proof.
  intros Hi%reachable_locked. split_and!.
  - intros t1 t2 p1 p2 id H1 H2 L1 L2.
    pose proof (inv_held _ Hi _ _ _ H1 L1). pose proof (inv_held _ Hi _ _ _ H2 L2). congruence.
  - apply Hi.
  - intros x s' id c Hs Hc. destruct x as [t cl|t a].
    + destruct (step_frame _ _ _ Hi Hs) as (t' & old & p' & Hf). cbn in Hs.
      left. destruct (threads s !! t) eqn:Hp; [done|]. destruct cl; simplify_eq; try done.
      apply fmap_Some in Hs as (sh & _ & ->). done.
    + destruct (advance_frame _ _ _ _ Hi Hs) as (old & p' & Hf).
      destruct (threads s !! t) as [p|] eqn:Hp; [|cbn in Hs; unfold advance in Hs; by rewrite Hp in Hs].
      rewrite <- Hc. destruct (fr_registered _ _ _ _ _ Hf id) as [?|[Hold|[sh Hold]]]; [by left| |].
      * right. exists t, a. rewrite <- (fr_old _ _ _ _ _ Hf) in Hold. rewrite Hp in Hold. by simplify_eq.
      * rewrite <- (fr_old _ _ _ _ _ Hf), Hp in Hold. simplify_eq.
        pose proof (inv_knows _ Hi _ _ Hp) as Hk. cbn in Hk. congruence.
Qed.

(** The holder of a load lock is never itself waiting. *)
Lemma holder_advances s t p id a :
  threads s !! t = Some p → lock_of p = Some id → is_Some (advance t a s).
Proof. intros Hp Hl. unfold advance. rewrite Hp. by destruct p. Qed.

(** No caller waits for ever on a load lock: every unfinished thread can take its next
    section, or waits for a lock whose holder can, whatever the disk answers it. *)
Theorem load_locks_never_deadlock allowed r s t p :
  reachable allowed r s → threads s !! t = Some p →
  p = Finished ∨ (∃ id b, p = Removed id b) ∨ (∀ a, is_Some (advance t a s)) ∨
  ∃ id t' p', locks s !! id = Some t' ∧ threads s !! t' = Some p' ∧ lock_of p' = Some id ∧
    ∀ a, is_Some (advance t' a s).
Proof.
  intros Hi%reachable_locked Hp.
  assert (∀ id p0, (∀ a, advance t a s = acquire t id p0 s) →
    (∀ a, is_Some (advance t a s)) ∨ ∃ id t' p', locks s !! id = Some t' ∧ threads s !! t' = Some p' ∧
      lock_of p' = Some id ∧ ∀ a, is_Some (advance t' a s)) as Hacq.
  { intros id p0 Ha. destruct (locks s !! id) as [t'|] eqn:Hl.
    - right. destruct (inv_holder _ Hi _ _ Hl) as (p' & Hp' & Hlk).
      exists id, t', p'. split_and!; [done..|]. intros a. by eapply holder_advances.
    - left. intros a. rewrite Ha. unfold acquire. by rewrite Hl. }
  destruct p; try (by eauto); right; right;
    try (left; intros ?; unfold advance; rewrite Hp; by eexists);
    eapply Hacq; intros a; unfold advance; rewrite Hp; reflexivity.
Qed.

(** ** The database files *)

(** One daemon, and no file that must be made anew. *)
Definition in_process (x : action) : Prop :=
  match x with Call _ (ForeignOpen _) | Advance _ Corrupt => False | _ => True end.

Lemma live_spec s c :
  live s c = true ↔ (∃ id, registered s id = Some c) ∨ ∃ t p, threads s !! t = Some p ∧ pc_cache p = Some c.
Proof.
  unfold live, registered. rewrite orb_true_iff, !existsb_exists. f_equiv.
  - split.
    + intros ([id sh] & Hin%list_elem_of_In%elem_of_map_to_list & <-%bool_decide_eq_true).
      exists id. by rewrite Hin.
    + intros (id & (sh & Hsh & ->)%fmap_Some). exists (id, sh).
      rewrite <- list_elem_of_In, elem_of_map_to_list, bool_decide_eq_true. done.
  - split.
    + intros ([t p] & Hin%list_elem_of_In%elem_of_map_to_list & ?%bool_decide_eq_true). by exists t, p.
    + intros (t & p & Hin & Hp). exists (t, p).
      by rewrite <- list_elem_of_In, elem_of_map_to_list, bool_decide_eq_true.
Qed.

Lemma held_spec s i :
  held s i = true ↔ ∃ c id, caches s !! c = Some (id, Some i) ∧ live s c = true.
Proof.
  unfold held. rewrite existsb_exists. split.
  - intros ([c [id o]] & Hin%list_elem_of_In%elem_of_map_to_list & [Ho%bool_decide_eq_true Hl]%andb_true_iff).
    cbn in *. subst o. by exists c, id.
  - intros (c & id & Hin & Hl). exists (c, (id, Some i)).
    rewrite <- list_elem_of_In, elem_of_map_to_list. split; [done|]. cbn. by rewrite bool_decide_true, Hl.
Qed.

Definition db_at (s : state) (id : string) : option N := db (dir_of s id).

(** Every open database is the file its path names, opened once. *)
Record fits (s : state) : Prop := {
  ft_file : ∀ c id i, live s c = true → caches s !! c = Some (id, Some i) → db_at s id = Some i;
  ft_once : ∀ c c' id id' i, live s c = true → live s c' = true →
    caches s !! c = Some (id, Some i) → caches s !! c' = Some (id', Some i) → c = c';
  ft_live : ∀ c, live s c = true → (c < next s)%N;
  ft_inode : ∀ c id i, caches s !! c = Some (id, Some i) → (i < next s)%N;
  ft_db : ∀ id i, db_at s id = Some i → (i < next s)%N;
  ft_rmdir : ∀ t id, threads s !! t = Some (Rmdir id) → db_at s id = None;
  ft_ours : ∀ t p, threads s !! t = Some p →
    match p with Recreating _ | Opening (ForForeign _) => False | _ => True end;
}.

(** A state with the same files and caches, whose threads and map hold no new Arc. *)
Record quiet (s s1 : state) (t : N) (p' : pc) : Prop := {
  qt_caches : caches s1 = caches s;
  qt_db : ∀ id, db_at s1 id = db_at s id;
  qt_next : next s1 = next s;
  qt_threads : threads s1 = <[t := p']> (threads s);
  qt_registered : ∀ id c, registered s1 id = Some c → live s c = true;
  qt_cache : ∀ c, pc_cache p' = Some c → live s c = true;
  qt_pc : match p' with Recreating _ | Opening (ForForeign _) => False | Rmdir id => db_at s id = None | _ => True end;
}.

Lemma quiet_fits s s1 t p' : fits s → quiet s s1 t p' → fits s1.
Proof.
  intros [Hf Ho Hl Hi Hd Hr Hu] [Qc Qd Qn Qt Qr Qp Qpc].
  assert (∀ c, live s1 c = true → live s c = true) as Hlive.
  { intros c [(id & Hid)|(t0 & p0 & Hp0 & Hc)]%live_spec; [by eapply Qr|].
    rewrite Qt in Hp0. apply lookup_insert_Some in Hp0 as [[_ <-]|[_ Hp0]]; [by apply Qp|].
    apply live_spec. eauto. }
  split; rewrite ?Qc, ?Qn; try setoid_rewrite Qd; eauto.
  - intros t0 id. rewrite Qt. intros [[_ ->]|[_ ?]]%lookup_insert_Some; [|by eauto]. done.
  - intros t0 p0. rewrite Qt. intros [[_ <-]|[_ ?]]%lookup_insert_Some; [by destruct p' as [| | | |[]| | | | | | | | | | | | | | | |]|by eapply Hu].
Qed.

Lemma registered_live s id c : registered s id = Some c → live s c = true.
Proof. intros. apply live_spec. eauto. Qed.
Lemma pc_live s t p c : threads s !! t = Some p → pc_cache p = Some c → live s c = true.
Proof. intros. apply live_spec. eauto. Qed.

Lemma wrote_db s id m a id' : db_at (wrote id m a s) id' = db_at s id'.
Proof.
  destruct a; try done. unfold db_at, dir_of. cbn. destruct (decide (id = id')) as [<-|Hne].
  - by rewrite lookup_insert_eq.
  - by rewrite lookup_insert_ne.
Qed.
Lemma set_db_at s id o id' : db_at (set_db id o s) id' = if decide (id = id') then o else db_at s id'.
Proof.
  unfold db_at, dir_of. cbn. case_decide as Hd; [subst; by rewrite lookup_insert_eq|by rewrite lookup_insert_ne].
Qed.

(** A cache that has an inode open nobody has, the file of its shard. *)
Lemma fits_open s s' t p' c id inode :
  fits s → caches s' = <[c := (id, inode)]> (caches s) → (∀ id, db_at s' id = db_at s id) →
  (next s <= next s')%N → (c < next s')%N → threads s' = <[t := p']> (threads s) →
  (∀ id, registered s' id = registered s id) → pc_cache p' = Some c →
  (∀ i, inode = Some i → db_at s id = Some i ∧ held s i = false) →
  match p' with Recreating _ | Opening _ | Rmdir _ => False | _ => True end →
  fits s'.
Proof.
  intros [Hf Ho Hl Hi Hd Hr Hu] Qc Qd Qn Hc Qt Qr Qp Hinode Hpc.
  assert (∀ c0, live s' c0 = true → live s c0 = true ∨ c0 = c) as Hlive.
  { intros c0 [(id0 & Hid)|(t0 & p0 & Hp0 & Hc0)]%live_spec.
    - rewrite Qr in Hid. left. by eapply registered_live.
    - rewrite Qt in Hp0. apply lookup_insert_Some in Hp0 as [[_ <-]|[_ Hp0]]; [right; congruence|].
      left. by eapply pc_live. }
  assert (∀ c0 id0 i, live s' c0 = true → caches s' !! c0 = Some (id0, Some i) →
    (c0 = c ∧ id0 = id ∧ inode = Some i) ∨ (c0 ≠ c ∧ live s c0 = true ∧ caches s !! c0 = Some (id0, Some i))) as Hopen.
  { intros c0 id0 i Hc0. rewrite Qc. intros [[<- ?]|[? ?]]%lookup_insert_Some; [left; by simplify_eq|].
    right. split; [done|]. destruct (Hlive _ Hc0); [done|congruence]. }
  split.
  - intros c0 id0 i Hc0 Hcs. rewrite Qd.
    destruct (Hopen _ _ _ Hc0 Hcs) as [(_ & -> & Hin)|(_ & ? & ?)]; [by apply Hinode|by eauto].
  - intros c1 c2 id1 id2 i H1 H2 C1 C2.
    assert (∀ c0 id0, live s c0 = true → caches s !! c0 = Some (id0, Some i) → inode ≠ Some i) as Hno.
    { intros c0 id0 Hl0 Hc0 [_ Hheld]%Hinode. apply not_true_iff_false in Hheld.
      apply Hheld, held_spec. eauto. }
    destruct (Hopen _ _ _ H1 C1) as [(E1 & _ & I1)|(_ & L1 & E1)],
      (Hopen _ _ _ H2 C2) as [(E2 & _ & I2)|(_ & L2 & E2)].
    + congruence.
    + by destruct (Hno _ _ L2 E2).
    + by destruct (Hno _ _ L1 E1).
    + by eapply Ho.
  - intros c0 [Hc0| ->]%Hlive; [|done]. pose proof (Hl _ Hc0). lia.
  - intros c0 id0 i. rewrite Qc. intros [[<- ?]|[_ Hc0]]%lookup_insert_Some.
    + simplify_eq. destruct (Hinode i) as [Hdb _]; [done|]. pose proof (Hd _ _ Hdb). lia.
    + pose proof (Hi _ _ _ Hc0). lia.
  - intros id0 i. rewrite Qd. intros Hdb. pose proof (Hd _ _ Hdb). lia.
  - intros t0 id0. rewrite Qt, Qd. intros [[_ ->]|[_ ?]]%lookup_insert_Some; [done|by eauto].
  - intros t0 p0. rewrite Qt. intros [[_ <-]|[_ ?]]%lookup_insert_Some; [by destruct p'|by eapply Hu].
Qed.

Lemma opened_fits s t k inode :
  fits s → threads s !! t = Some (Opening k) →
  (∀ i, inode = Some i → db_at s (shard_of k) = Some i ∧ held s i = false) →
  fits (opened t k inode s).
Proof.
  intros Hft Hp Hin. pose proof (ft_ours _ Hft _ _ Hp) as Hours. destruct k as [id c|root now|id|id]; [..|done].
  - assert (live s c = true) as Hc by by eapply pc_live.
    cbn [opened]. destruct inode as [i|].
    + eapply fits_open; try done. by apply (ft_live _ Hft).
    + apply (quiet_fits s _ t (Using c)); [done|]. split; try done; [exact (registered_live s)|].
      intros ? [= <-]. done.
  - cbn [opened]. cbn zeta. set (sh := cold_shard _ _ _ _ _ _ _).
    assert (lp_cache sh = next s) as Hsh by done.
    destruct (disk_retry sh); [|destruct (metadata_write_for_loaded _ _ sh) as [[? m]|]];
      (eapply fits_open; [done|done|done|cbn; lia|cbn; lia|done|done|done|exact Hin|done]).
  - eapply fits_open; [done|done|done|cbn; lia|cbn; lia|done|done|done|done|done].
Qed.

(** Making the file of a shard that has none. *)
Lemma create_fits s id :
  fits s → db_at s id = None → (∀ t, threads s !! t ≠ Some (Rmdir id)) →
  fits (bump (set_db id (Some (next s)) s)) ∧
  held (bump (set_db id (Some (next s)) s)) (next s) = false.
Proof.
  intros [Hf Ho Hl Hi Hd Hr Hu] Hnone Hrm.
  assert (∀ id', db_at (bump (set_db id (Some (next s)) s)) id' = if decide (id = id') then Some (next s) else db_at s id')
    as Hdb by apply set_db_at.
  split.
  - split; cbn [caches next threads bump set_db set_files].
    + intros c id' i Hc Hcs. rewrite Hdb. case_decide as He; [|by eapply Hf].
      subst. pose proof (Hf _ _ _ Hc Hcs). congruence.
    + apply Ho.
    + intros c Hc. pose proof (Hl _ Hc). lia.
    + intros c id' i Hc. pose proof (Hi _ _ _ Hc). lia.
    + intros id' i. rewrite Hdb. case_decide; [intros [= <-]; lia|]. intros Hi'. pose proof (Hd _ _ Hi'). lia.
    + intros t id' Ht. rewrite Hdb. case_decide; [subst; by eapply Hrm in Ht|by eapply Hr].
    + apply Hu.
  - apply not_true_iff_false. intros (c & id' & Hc & _)%held_spec. pose proof (Hi _ _ _ Hc). lia.
Qed.

(** Closing the file of a shard: nobody has it open. *)
Lemma unlink_fits s id i :
  fits s → db_at s id = Some i → held s i = false → fits (set_db id None s).
Proof.
  intros [Hf Ho Hl Hi Hd Hr Hu] Hdb Hheld. split; cbn [caches next threads set_db set_files]; try done.
  - intros c id' i' Hc Hcs. rewrite set_db_at. case_decide as He; [|by eapply Hf]. subst.
    exfalso. apply (not_true_iff_false (held s i)) in Hheld. apply Hheld, held_spec.
    pose proof (Hf _ _ _ Hc Hcs). exists c, id'. split; [congruence|done].
  - intros id' i'. rewrite set_db_at. case_decide; [done|by eapply Hd].
  - intros t id' Ht. rewrite set_db_at. case_decide; [done|by eapply Hr].
Qed.

Lemma warm_live s id now b hit r c retry owed :
  warm_shard_hit id now b (reg s) = (hit, r) → hit = Some (c, retry, owed) → live s c = true.
Proof.
  intros Hw ->. pose proof (warm_registered id now b (reg s)) as H. rewrite Hw in H.
  destruct H as [_ Hc]. by eapply registered_live.
Qed.
Lemma warm_quiet s id now b hit r id' c :
  warm_shard_hit id now b (reg s) = (hit, r) → lp_cache <$> loaded r !! id' = Some c → live s c = true.
Proof.
  intros Hw Hc. pose proof (warm_registered id now b (reg s)) as H. rewrite Hw in H.
  destruct H as [Hr _]. rewrite Hr in Hc. by eapply registered_live.
Qed.

Lemma looks_quiet s t :
  (∀ root now, ∃ p', quiet s (step_look t root now s) t p') ∧
  (∀ root now, ∃ p', quiet s (step_cold_look t root now s) t p').
Proof.
  split; intros root now.
  - unfold step_look. destruct (warm_shard_hit _ _ _ _) as [hit r] eqn:Hw.
    destruct hit as [[[c retry] [[? m]|]]|].
    + exists (WarmMeta (id_of root) c retry m). split; try done; [by intros * ?%(warm_quiet _ _ _ _ _ _ _ _ Hw)|].
      intros ? [= <-]. by eapply warm_live.
    + exists (after_warm (id_of root) c retry).
      split; try done; [by intros * ?%(warm_quiet _ _ _ _ _ _ _ _ Hw)| |by destruct retry].
      intros c' Hc'. assert (c' = c) as -> by (destruct retry; cbn in Hc'; congruence). by eapply warm_live.
    + exists (ColdWait root now). split; try done. exact (registered_live s).
  - unfold step_cold_look. destruct (warm_shard_hit _ _ _ _) as [hit r] eqn:Hw.
    destruct hit as [[[c retry] [[? m]|]]|].
    + exists (ColdMeta (id_of root) c m). split; try done; [by intros * ?%(warm_quiet _ _ _ _ _ _ _ _ Hw)|].
      intros ? [= <-]. by eapply warm_live.
    + exists (Using c). split; try done; [by intros * ?%(warm_quiet _ _ _ _ _ _ _ _ Hw)|].
      intros ? [= <-]. by eapply warm_live.
    + exists (Opening (ForCold root now)). split; try done. exact (registered_live s).
Qed.

(** The sections of a registered cache's retry. *)
Lemma retries_quiet s t id c :
  live s c = true →
  (∃ p', quiet s (step_recheck t id c s) t p') ∧ (∃ p', quiet s (step_reopened t id c s) t p').
Proof.
  intros Hc. split.
  - unfold step_recheck. case_decide; [destruct (caches s !! c) as [[? []]|]|]; eexists;
      (split; try done; [exact (registered_live s)|by intros ? [= <-]]).
  - unfold step_reopened. pose proof (retry_registered id (reg s)) as Hr.
    assert (∀ r', (∀ id', lp_cache <$> loaded r' !! id' = lp_cache <$> loaded (reg s) !! id') →
      ∀ id' c', lp_cache <$> loaded r' !! id' = Some c' → live s c' = true) as Hq.
    { intros r' Hr' id' c' Hc'. rewrite Hr' in Hc'. by eapply registered_live. }
    destruct (retry_opened _ _) as [[[? m]|] r']; eexists;
      (split; try done; [exact (Hq r' Hr)|by intros ? [= <-]]).
Qed.

Lemma open_fits s t k a :
  inv s → fits s → threads s !! t = Some (Opening k) → a ≠ Corrupt → fits (open_database t k a s).
Proof.
  intros Hi Hft Hp Ha. unfold open_database.
  pose proof (ft_ours _ Hft _ _ Hp) as Hours.
  destruct (negb _ || _ || _) eqn:Hskip; [by apply opened_fits|].
  assert (match k with ForTemp id => db_at s id ≠ None | _ => True end) as Hexists.
  { destruct k; try done. apply orb_false_iff in Hskip as [[_ Hm]%orb_false_iff _].
    by apply bool_decide_eq_false in Hm. }
  destruct (db (dir_of s (shard_of k))) as [i|] eqn:Hdb.
  - destruct (held s i) eqn:Hheld; [by apply opened_fits|].
    destruct a; try done; (apply opened_fits; [done..|]); try done. by intros ? [= <-].
  - assert (lock_of (Opening k) = Some (shard_of k)) as Hlk by by destruct k.
    assert (∀ t', threads s !! t' ≠ Some (Rmdir (shard_of k))) as Hrm.
    { intros t' Ht'. pose proof (inv_held _ Hi _ _ _ Hp Hlk). pose proof (inv_held _ Hi _ _ _ Ht' eq_refl). congruence. }
    destruct a; try done.
    + destruct (create_fits s (shard_of k) Hft Hdb Hrm) as [Hft' Hheld].
      apply opened_fits; [done|done|]. intros ? [= <-]. split; [|done].
      change (db_at (set_db (shard_of k) (Some (next s)) s) (shard_of k) = Some (next s)).
      rewrite set_db_at. by rewrite decide_True.
    + apply opened_fits; [|done|done]. destruct Hft as [Hf Ho Hl Hin Hd Hr Hu].
      assert (∀ id', db_at (set_db (shard_of k) None s) id' = db_at s id') as Hsame.
      { intros id'. rewrite set_db_at. case_decide; [by subst|done]. }
      split; cbn [caches next threads set_db set_files]; try done; intros *; rewrite Hsame; eauto.
    + by rewrite orb_true_r in Hskip.
Qed.

Lemma rmdir_fits s id :
  fits s → db_at s id = None → fits (set_files (delete id (files s)) s).
Proof.
  intros [Hf Ho Hl Hin Hd Hr Hu] Hdb.
  assert (∀ id', db_at (set_files (delete id (files s)) s) id' = db_at s id') as Hsame.
  { intros id'. unfold db_at, dir_of in *. cbn. destruct (decide (id = id')) as [<-|Hne].
    - by rewrite lookup_delete_eq.
    - by rewrite lookup_delete_ne. }
  split; cbn [caches next threads set_files]; try done; intros *; rewrite Hsame; eauto.
Qed.

(** A removal's release, once its files are gone. *)
Lemma end_quiet s t p id b : threads s !! t = Some p → quiet s (release t id (Removed id b) s) t (Removed id b).
Proof. split; try done. exact (registered_live s). Qed.

Lemma take_quiet s t id : ∃ p', quiet s (step_take t id s) t p'.
Proof.
  eexists. split; try done.
  - intros id' c. unfold registered. cbn. intros (sh & [_ Hsh]%lookup_delete_Some & ->)%fmap_Some.
    apply (registered_live s id'). unfold registered. by rewrite Hsh.
  - intros c Hc. by apply (registered_live s id).
Qed.

Lemma unlink_step_fits s t a id :
  fits s → threads s !! t = Some (Unlinking id) → fits (step_unlink t id a s).
Proof.
  intros Hft Hp. unfold step_unlink.
  assert (∀ s1, fits s1 → db_at s1 id = None → fits (set_thread t (Rmdir id) s1)) as Hmove.
  { intros s1 Hft1 Hdb. apply (quiet_fits s1 _ t (Rmdir id)); [done|].
    split; try done. exact (registered_live s1). }
  assert (fits (release t id (Removed id false) s)) as Hend by by eapply quiet_fits, end_quiet.
  destruct (db (dir_of s id)) as [i|] eqn:Hdb; [|by apply Hmove].
  destruct (held s i) eqn:Hheld; [done|]. destruct a; try done.
  apply Hmove; [by eapply unlink_fits|]. rewrite set_db_at. by rewrite decide_True.
Qed.

Lemma rmdir_step_fits s t a id :
  fits s → threads s !! t = Some (Rmdir id) → fits (step_rmdir t id a s).
Proof.
  intros Hft Hp. unfold step_rmdir. pose proof (ft_rmdir _ Hft _ _ Hp) as Hdb.
  assert (∀ s1 b, fits s1 → threads s1 !! t = Some (Rmdir id) → fits (release t id (Removed id b) s1)) as Hend
    by (intros; by eapply quiet_fits, end_quiet).
  destruct (files s !! id), a; apply Hend; try done. by apply rmdir_fits.
Qed.

Lemma advance_fits s t a s' :
  inv s → fits s → a ≠ Corrupt → advance t a s = Some s' → fits s'.
Proof.
  intros Hi Hft Ha Hs. unfold advance in Hs. destruct (threads s !! t) as [p|] eqn:Hp; [|done]. cbn in Hs.
  assert (∀ c, pc_cache p = Some c → live s c = true) as Hcache by (intros; by eapply pc_live).
  assert (∀ p', (∀ c, pc_cache p' = Some c → pc_cache p = Some c) →
    match p' with Recreating _ | Opening (ForForeign _) | Rmdir _ => False | _ => True end →
    quiet s (set_thread t p' s) t p') as Hmove.
  { intros p' Hsub Hpc. split; try done; [exact (registered_live s)|by auto|by destruct p'; try done; destruct k]. }
  assert (∀ s1 p', quiet s (set_thread t p' s) t p' → threads s1 = threads s → caches s1 = caches s →
    next s1 = next s → (∀ id, db_at s1 id = db_at s id) →
    (∀ id c, registered s1 id = Some c → live s c = true) → fits (set_thread t p' s1)) as Hwith.
  { intros s1 p' [] Et Ec En Ed Er. apply (quiet_fits s _ t p'); [done|]. split; try done; cbn; by rewrite Et. }
  assert (∀ id m p', quiet s (set_thread t p' s) t p' → fits (set_thread t p' (wrote id m a s))) as Hwrote.
  { intros id m p' Hq. apply Hwith; [done|by destruct a..|apply wrote_db|].
    destruct a; exact (registered_live s). }
  assert (∀ id p', quiet s (set_thread t p' s) t p' → acquire t id p' s = Some s' → fits s') as Hacq.
  { intros id p' Hq. unfold acquire. destruct (locks s !! id); [done|]. intros [= <-].
    apply (Hwith (set_locks _ s)); try done. exact (registered_live s). }
  assert (∀ id0 id m p', quiet s (set_thread t p' s) t p' → fits (release t id0 p' (wrote id m a s))) as Hrel.
  { intros id0 id m p' Hq. apply (Hwith (set_locks _ (wrote id m a s))); [done|by destruct a..|apply wrote_db|].
    destruct a; exact (registered_live s). }
  destruct p; simplify_eq.
  - destruct (looks_quiet s t) as [Hq _]. edestruct Hq. by eapply quiet_fits.
  - apply Hwrote, Hmove; by destruct retry.
  - by eapply Hacq, Hs; apply Hmove.
  - edestruct (retries_quiet s t) as [[p' Hq] _]; [by apply Hcache|]. by eapply quiet_fits.
  - by apply open_fits.
  - by destruct (ft_ours _ Hft _ _ Hp).
  - edestruct (retries_quiet s t) as [_ [p' Hq]]; [by apply Hcache|]. by eapply quiet_fits.
  - by apply Hrel, Hmove.
  - by eapply Hacq, Hs; apply Hmove.
  - destruct (looks_quiet s t) as [_ Hq]. edestruct Hq. by eapply quiet_fits.
  - by apply Hrel, Hmove.
  - by apply Hwrote, Hmove.
  - apply (Hwith (set_locks _ (set_reg _ s))); [by apply Hmove|done..|].
    intros id' c. unfold registered. cbn. intros (sh & [[<- <-]|[_ Hsh]]%lookup_insert_Some & ->)%fmap_Some.
    + by apply Hcache.
    + apply (registered_live s id'). unfold registered. by rewrite Hsh.
  - by apply (quiet_fits s _ t Finished), Hmove.
  - by eapply Hacq, Hs; apply Hmove.
  - destruct (take_quiet s t id) as [p' Hq]. by eapply quiet_fits.
  - unfold step_clear. destruct (_ && _); [|destruct (negb _)].
    + by eapply quiet_fits, end_quiet.
    + by eapply quiet_fits, end_quiet.
    + by eapply quiet_fits, Hmove.
  - by apply unlink_step_fits.
  - by apply rmdir_step_fits.
Qed.

Lemma step_fits s x s' : inv s → fits s → in_process x → step x s = Some s' → fits s'.
Proof.
  intros Hi Hft Hx Hs. destruct x as [t c|t a]; [|eapply advance_fits; try done; by intros ->].
  cbn in Hs. destruct (threads s !! t) eqn:Hp; [done|].
  destruct c; simplify_eq; try done;
    try (eapply quiet_fits; [done|]; split; try done; exact (registered_live s)).
  apply fmap_Some in Hs as (sh & Hsh & ->). eapply quiet_fits; [done|].
  split; try done; [exact (registered_live s)|]. intros ? [= <-].
  apply (registered_live s id). unfold registered. by rewrite Hsh.
Qed.

Lemma fits_initial r : fits (initial r).
Proof.
  assert (∀ c, live (initial r) c ≠ true) as Hno.
  { intros c [(id & Hid)|(t & p & Hp & _)]%live_spec; [by unfold registered in Hid; cbn in Hid; rewrite lookup_empty in Hid|].
    by cbn in Hp; rewrite lookup_empty in Hp. }
  split; cbn; intros *.
  - intros Hc. by apply Hno in Hc.
  - intros Hc. by apply Hno in Hc.
  - intros Hc. by apply Hno in Hc.
  - by rewrite lookup_empty.
  - unfold db_at, dir_of. cbn. by rewrite lookup_empty.
  - by rewrite lookup_empty.
  - by rewrite lookup_empty.
Qed.


(** ** The sidecars *)

Definition belongs (s : state) (id : string) (c : N) : Prop := ∃ o, caches s !! c = Some (id, o).
Definition attached (s : state) (id : string) (c : N) : Prop := ∃ i, caches s !! c = Some (id, Some i).

(** A shard registered without a retry has its database open. *)
Definition backed (s : state) (id : string) (sh : LoadedProjectCache) : Prop :=
  belongs s id (lp_cache sh) ∧
  (storage_enabled (reg s) = true → disk_retry sh = None → attached s id (lp_cache sh)).

Definition pc_attached (s : state) (p : pc) : Prop :=
  match p with
  | WarmMeta id c _ _ | RetryMeta id c _ | ColdMeta id c _ | Reopened id c => attached s id c
  | RetryWait id c | Rechecking id c | Opening (ForRetry id c) | Recreating (ForRetry id c) => belongs s id c
  | WritingMeta id sh _ => attached s id (lp_cache sh) ∧ backed s id sh
  | Inserting id sh => backed s id sh
  | _ => True
  end.

Record attach (s : state) : Prop := {
  at_next : ∀ c e, caches s !! c = Some e → (c < next s)%N;
  at_loaded : ∀ id sh, loaded (reg s) !! id = Some sh → backed s id sh;
  at_pc : ∀ t p, threads s !! t = Some p → pc_attached s p;
}.

(** Caches stay their shard's, and open. *)
Record grows (s s1 : state) : Prop := {
  gr_belongs : ∀ id c, belongs s id c → belongs s1 id c;
  gr_attached : ∀ id c, attached s id c → attached s1 id c;
  gr_storage : storage_enabled (reg s1) = storage_enabled (reg s);
}.
Lemma grows_same s s1 :
  caches s1 = caches s → storage_enabled (reg s1) = storage_enabled (reg s) → grows s s1.
Proof. intros Ec Es. split; [unfold belongs|unfold attached|done]; by rewrite Ec. Qed.

Lemma backed_grows s s1 id sh : grows s s1 → backed s id sh → backed s1 id sh.
Proof. intros [Hb Ha Hs] [? Hat]. split; [by apply Hb|]. rewrite Hs. auto. Qed.
Lemma pc_attached_grows s s1 p : grows s s1 → pc_attached s p → pc_attached s1 p.
Proof.
  intros Hg. pose proof Hg as [Hb Ha Hs]. pose proof (λ id sh, backed_grows _ _ id sh Hg) as Hbk.
  destruct p as [ | | | |[]|[]| | | | | | | | | | | | | | | ]; cbn; naive_solver.
Qed.

Lemma attach_step s s1 t p' :
  attach s → threads s1 = <[t := p']> (threads s) → grows s s1 →
  (∀ c e, caches s1 !! c = Some e → (c < next s1)%N) →
  (∀ id sh, loaded (reg s1) !! id = Some sh → backed s1 id sh) → pc_attached s1 p' → attach s1.
Proof.
  intros [Hn Hl Hp] Ht Hg Hn1 Hl1 Hp1. split; [done..|]. intros t0 p0. rewrite Ht.
  intros [[_ <-]|[_ ?]]%lookup_insert_Some; [done|]. eapply pc_attached_grows; [done|by eapply Hp].
Qed.

(** A section that opens nothing. *)
Lemma attach_move s s1 t p' :
  attach s → threads s1 = <[t := p']> (threads s) → caches s1 = caches s → (next s <= next s1)%N →
  storage_enabled (reg s1) = storage_enabled (reg s) →
  (∀ id sh, loaded (reg s1) !! id = Some sh → backed s id sh) → pc_attached s p' → attach s1.
Proof.
  intros Hat Ht Ec En Es Hl Hp. pose proof (grows_same s s1 Ec Es) as Hg.
  eapply attach_step; [done|done|done| | |by eapply pc_attached_grows].
  - intros c e. rewrite Ec. intros Hc. pose proof (at_next _ Hat _ _ Hc). lia.
  - intros id sh Hsh. eapply backed_grows; [done|by apply Hl].
Qed.

Lemma warm_backed s id now b hit r :
  attach s → warm_shard_hit id now b (reg s) = (hit, r) →
  storage_enabled r = storage_enabled (reg s) ∧
  (∀ id sh, loaded r !! id = Some sh → backed s id sh) ∧
  ∀ c retry owed, hit = Some (c, retry, owed) → belongs s id c ∧ (owed ≠ None → attached s id c).
Proof.
  intros Hat Hw. unfold warm_shard_hit in Hw.
  destruct (loaded (reg s) !! id) as [sh|] eqn:Hsh; [|simplify_eq; by split_and!; [|apply Hat|]].
  destruct (at_loaded _ Hat _ _ Hsh) as [Hbel Hatt].
  assert (∀ r', (∃ used written retry, loaded r' = <[id := set_times used written retry sh]> (loaded (reg s)) ∧
      (retry = None → disk_retry sh = None)) →
    ∀ id' sh', loaded r' !! id' = Some sh' → backed s id' sh') as Hset.
  { intros r' (u & w & retry & -> & Hnone) id' sh' [[<- <-]|[_ ?]]%lookup_insert_Some; [|by apply Hat].
    split; [done|]. intros ? Hr. apply Hatt; [done|]. by apply Hnone. }
  destruct (match disk_retry sh with Some d => _ | None => _ end) as [retry_disk retry] eqn:Hretry.
  assert (retry = None → disk_retry sh = None) as Hnone.
  { intros ->. destruct (disk_retry sh) as [d|]; [|done]. destruct b; [destruct (claim now d)|]; simplify_eq. }
  destruct (bool_decide (retry = None) && _) eqn:Hdue; simplify_eq.
  - split_and!; [done|eapply Hset; by do 3 eexists|]. intros c rt owed [= <- <- <-]. split; [done|].
    unfold metadata_write_for_loaded. destruct (storage_enabled (reg s)) eqn:Hst; [|done]. intros _.
    apply andb_true_iff in Hdue as [Hr%bool_decide_eq_true _]. auto.
  - split_and!; [done|eapply Hset; by do 3 eexists|]. by intros c rt owed [= <- <- <-].
Qed.

Lemma looks_attach s t root now :
  attach s → attach (step_look t root now s) ∧ attach (step_cold_look t root now s).
Proof.
  intros Hat. split.
  - unfold step_look. destruct (warm_shard_hit _ _ _ _) as [hit r] eqn:Hw.
    destruct (warm_backed _ _ _ _ _ _ Hat Hw) as (Hst & Hl & Hhit).
    destruct hit as [[[c retry] [[? m]|]]|];
      (eapply attach_move; [exact Hat|done|done|done|done|first [exact Hl|by apply Hat]|]); [| |done].
    + by eapply Hhit.
    + destruct (Hhit _ _ _ eq_refl) as [Hb _]. by destruct retry.
  - unfold step_cold_look. destruct (warm_shard_hit _ _ _ _) as [hit r] eqn:Hw.
    destruct (warm_backed _ _ _ _ _ _ Hat Hw) as (Hst & Hl & Hhit).
    destruct hit as [[[c retry] [[? m]|]]|];
      (eapply attach_move; [exact Hat|done|done|done|done|first [exact Hl|by apply Hat]|]); [|done|done].
    by eapply Hhit.
Qed.

(** Opening the cache of a retry, or making a new one. *)
Lemma opened_attach s s1 t p k inode :
  attach s → threads s !! t = Some p → p = Opening k ∨ p = Recreating k →
  threads s1 = threads s → caches s1 = caches s → reg s1 = reg s → (next s <= next s1)%N →
  attach (opened t k inode s1).
Proof.
  intros Hat Hp Hk Et Ec Er En. pose proof (at_pc _ Hat _ _ Hp) as Hpc.
  assert (∀ c e, caches s1 !! c = Some e → (c < next s1)%N) as Hnext.
  { intros c e. rewrite Ec. intros Hc. pose proof (at_next _ Hat _ _ Hc). lia. }
  assert (∀ id inode s2 p', reg s2 = reg s → caches s2 = <[next s1 := (id, inode)]> (caches s) →
    next s2 = (next s1 + 1)%N → threads s2 = <[t := p']> (threads s) → pc_attached s2 p' → attach s2) as Hnew.
  { intros id o s2 p' Er2 Ec2 En2 Et2 Hp2. assert (grows s s2) as Hg.
    { split; [| |by rewrite Er2]; intros id' c [o' Hc]; exists o'; rewrite Ec2, lookup_insert_ne; try done;
        intros <-; pose proof (at_next _ Hat _ _ Hc); lia. }
    eapply attach_step; [exact Hat|done|done| | |done].
    - intros c e. rewrite Ec2, En2. intros [[<- _]|[_ Hc]]%lookup_insert_Some; [lia|].
      pose proof (at_next _ Hat _ _ Hc). lia.
    - intros id' sh. rewrite Er2. intros ?%(at_loaded _ Hat). by eapply backed_grows. }
  destruct k as [id c|root now|id|id]; cbn [opened].
  - assert (belongs s id c) as [o Hc] by by destruct Hk as [-> | ->].
    destruct inode as [i|].
    + assert (grows s (set_thread t (Reopened id c) (set_caches (<[c := (id, Some i)]> (caches s1)) s1))) as Hg.
      { split; [| |cbn; by rewrite Er]; intros id' c' [o' Hc']; unfold belongs, attached; cbn; rewrite Ec;
          (destruct (decide (c = c')) as [<-|Hne];
            [rewrite lookup_insert_eq; simplify_eq; eauto|rewrite lookup_insert_ne by done; eauto]). }
      eapply attach_step; [exact Hat|cbn; by rewrite Et|done| | |].
      * cbn. intros c' e [[<- _]|[_ ?]]%lookup_insert_Some; [|by eapply Hnext].
        eapply Hnext. by rewrite Ec.
      * cbn. rewrite Er. intros id' sh ?%(at_loaded _ Hat). by eapply backed_grows.
      * exists i. cbn. by rewrite lookup_insert_eq.
    + eapply attach_move; [exact Hat|cbn; by rewrite Et|done|done|cbn; by rewrite Er| |done].
      cbn. rewrite Er. apply Hat.
  - cbn zeta. set (sh := cold_shard _ _ _ _ _ _ _). set (s2 := bump _).
    assert (∀ p', attached (set_thread t p' s2) (id_of root) (lp_cache sh) ↔ is_Some inode) as Hatt.
    { intros p'. unfold attached. cbn. rewrite lookup_insert_eq. split; [intros [i [= ->]]; eauto|intros [i ->]; eauto]. }
    assert (∀ p', backed (set_thread t p' s2) (id_of root) sh) as Hbk.
    { intros p'. split; [exists inode; cbn; by rewrite lookup_insert_eq|].
      intros Hst Hr. apply Hatt. cbn in Hst, Hr. rewrite Hst in Hr. by destruct inode. }
    destruct (disk_retry sh) eqn:Hr; [|destruct (metadata_write_for_loaded (reg s2) _ sh) as [[? m]|] eqn:Hm];
      (eapply (Hnew (id_of root) inode); [done|cbn; by rewrite Ec|done|cbn; by rewrite Et|]); cbn [pc_attached];
      [apply Hbk| |apply Hbk]. split; [|apply Hbk].
    apply Hbk; [|done]. unfold metadata_write_for_loaded in Hm. cbn in *. by destruct (storage_enabled (reg s1)).
  - by eapply (Hnew id inode); [done|cbn; by rewrite Ec|done|cbn; by rewrite Et|].
  - by eapply (Hnew id inode); [done|cbn; by rewrite Ec|done|cbn; by rewrite Et|].
Qed.

Lemma open_attach s t k a :
  attach s → threads s !! t = Some (Opening k) → attach (open_database t k a s).
Proof.
  intros Hat Hp. unfold open_database.
  assert (∀ s1 inode, threads s1 = threads s → caches s1 = caches s → reg s1 = reg s → (next s <= next s1)%N →
    attach (opened t k inode s1)) as Ho by (intros; eapply opened_attach; eauto).
  destruct (_ || _); [by apply Ho|]. destruct (db _) as [i|].
  - destruct (held s i); [by apply Ho|]. destruct a; try by apply Ho.
    eapply attach_move; [exact Hat|done..|apply Hat|]. pose proof (at_pc _ Hat _ _ Hp) as Hpc. by destruct k.
  - destruct a; apply Ho; try done. cbn. lia.
Qed.
Lemma recreate_attach s t k a :
  attach s → threads s !! t = Some (Recreating k) → attach (recreate_database t k a s).
Proof.
  intros Hat Hp. unfold recreate_database.
  assert (∀ s1 inode, threads s1 = threads s → caches s1 = caches s → reg s1 = reg s → (next s <= next s1)%N →
    attach (opened t k inode s1)) as Ho by (intros; eapply opened_attach; eauto).
  destruct (db _), a; apply Ho; try done. cbn. lia.
Qed.

Lemma reopened_attach s t id c :
  inv s → attach s → threads s !! t = Some (Reopened id c) → attach (step_reopened t id c s).
Proof.
  intros Hi Hat Hp. pose proof (at_pc _ Hat _ _ Hp) as Hc. pose proof (inv_knows _ Hi _ _ Hp) as Hk.
  cbn in Hk. apply fmap_Some in Hk as (sh & Hsh & ->). unfold step_reopened, retry_opened. rewrite Hsh.
  assert (∀ id' sh', <[id := set_times (lp_last_used_millis sh) (lp_last_used_millis sh) None sh]> (loaded (reg s)) !! id'
    = Some sh' → backed s id' sh') as Hl.
  { intros id' sh' [[<- <-]|[_ ?]]%lookup_insert_Some; [|by apply Hat].
    by destruct (at_loaded _ Hat _ _ Hsh). }
  destruct (metadata_write_for_loaded _ _ _) as [[? m]|]; (eapply attach_move; [exact Hat|done..|exact Hl|done]).
Qed.

Lemma advance_attach s t a s' : inv s → attach s → advance t a s = Some s' → attach s'.
Proof.
  intros Hi Hat Hs. unfold advance in Hs. destruct (threads s !! t) as [p|] eqn:Hp; [|done]. cbn in Hs.
  pose proof (at_pc _ Hat _ _ Hp) as Hpc.
  assert (∀ s1 p', threads s1 = <[t := p']> (threads s) → caches s1 = caches s → (next s <= next s1)%N →
    reg s1 = reg s → pc_attached s p' → attach s1) as Hmove.
  { intros s1 p' Et Ec En Er Hp'. eapply attach_move; [exact Hat|done..|by rewrite Er|rewrite Er; apply Hat|done]. }
  assert (∀ id p', acquire t id p' s = Some s' → pc_attached s p' → attach s') as Hacq.
  { intros id p'. unfold acquire. destruct (locks s !! id); [done|]. intros [= <-] ?. by eapply Hmove. }
  assert (∀ id c, attached s id c → belongs s id c) as Hweak by (intros id c [i ?]; by exists (Some i)).
  destruct p; simplify_eq; try (by eapply Hacq, Hpc); try (by eapply Hacq).
  - by apply looks_attach.
  - eapply Hmove; try by destruct a. destruct retry; [by apply Hweak|done].
  - unfold step_recheck. case_decide; [|by eapply Hmove].
    destruct Hpc as [o Hc]. rewrite Hc. destruct o as [i|]; (eapply Hmove; try done); by eexists.
  - by apply open_attach.
  - by apply recreate_attach.
  - by apply reopened_attach.
  - eapply Hmove; by destruct a.
  - by apply looks_attach.
  - eapply Hmove; by destruct a.
  - eapply Hmove; try by destruct a. by destruct Hpc.
  - eapply attach_move; [exact Hat|done..| |done]. cbn.
    intros id' sh [[<- <-]|[_ ?]]%lookup_insert_Some; [done|by apply Hat].
  - by eapply Hmove.
  - eapply attach_move; [exact Hat|done..| |done]. cbn. intros id' sh [_ ?]%lookup_delete_Some. by apply Hat.
  - unfold step_clear. destruct (_ && _); [|destruct (negb _)]; by eapply Hmove.
  - unfold step_unlink. destruct (db _) as [i|]; [destruct (held s i); [|destruct a]|]; by eapply Hmove.
  - unfold step_rmdir. destruct (files s !! id), a; by eapply Hmove.
Qed.

Lemma attach_initial r : attach (initial r).
Proof. split; cbn; intros *; by rewrite lookup_empty. Qed.

Lemma step_attach s x s' : inv s → attach s → step x s = Some s' → attach s'.
Proof.
  intros Hi Hat Hs. destruct x as [t c|t a]; [|by eapply advance_attach]. cbn in Hs.
  destruct (threads s !! t) eqn:Hp; [done|].
  destruct c; simplify_eq; try (eapply attach_move; [exact Hat|done..|apply Hat|done]).
  apply fmap_Some in Hs as (sh & Hsh & ->). eapply attach_move; [exact Hat|done..|apply Hat|done].
Qed.

Lemma reachable_fits r s : reachable in_process r s → fits s.
Proof.
  induction 1 as [|x s s' Hs IH Hx Hst]; [apply fits_initial|]. eapply step_fits; [by eapply reachable_locked|done..].
Qed.
Lemma reachable_attach allowed r s : reachable allowed r s → attach s.
Proof.
  induction 1 as [|x s s' Hs IH Hx Hst]; [apply attach_initial|]. eapply step_attach; [by eapply reachable_locked|done..].
Qed.

(** Within one daemon, and as long as no file has to be made anew, a cache that is
    still referenced and has a database open has the file its shard's path names, and no
    other does: no removal unlinks a database in use, and no two caches write one shard. *)
Theorem open_databases_are_their_shards r s c id i :
  reachable in_process r s → live s c = true → caches s !! c = Some (id, Some i) →
  db (dir_of s id) = Some i ∧
  ∀ c' id' i', live s c' = true → caches s !! c' = Some (id', Some i') → id' = id ∨ i' = i → c' = c.
Proof.
  intros Hft%reachable_fits Hc Hcs.
  pose proof (ft_file _ Hft _ _ _ Hc Hcs) as Hdb. split; [done|].
  intros c' id' i' Hc' Hcs' Heq. pose proof (ft_file _ Hft _ _ _ Hc' Hcs') as Hdb'.
  assert (i' = i) as -> by (destruct Heq as [-> | ->]; congruence). by eapply ft_once.
Qed.

(** A metadata write never brings back a removed shard: within one daemon, whenever a
    thread is about to write a shard's sidecar (on a warm hit, after the lock is
    released, as much as under the load lock), the shard's database is still in its
    directory, and every registered shard not waiting for a retry has its own open. *)
Theorem sidecar_writes_never_resurrect r s :
  reachable in_process r s →
  (∀ t p id, threads s !! t = Some p →
    (∃ c retry m, p = WarmMeta id c retry m) ∨ (∃ c m, p = RetryMeta id c m) ∨ (∃ c m, p = ColdMeta id c m) ∨
    (∃ sh m, p = WritingMeta id sh m) → is_Some (db (dir_of s id))) ∧
  (∀ id sh, loaded (reg s) !! id = Some sh → storage_enabled (reg s) = true → disk_retry sh = None →
    ∃ i, caches s !! lp_cache sh = Some (id, Some i) ∧ db (dir_of s id) = Some i).
Proof.
  intros Hs. pose proof (reachable_fits _ _ Hs) as Hft. pose proof (reachable_attach _ _ _ Hs) as Hat. split.
  - intros t p id Hp Hw. pose proof (at_pc _ Hat _ _ Hp) as Hpc.
    assert (∃ c, pc_cache p = Some c ∧ attached s id c) as (c & Hc & [i Hci]).
    { destruct Hw as [(c & retry & m & ->)|[(c & m & ->)|[(c & m & ->)|(sh & m & ->)]]]; cbn in Hpc; eauto.
      exists (lp_cache sh). by destruct Hpc. }
    exists i. by eapply (ft_file _ Hft c); [eapply pc_live|].
  - intros id sh Hsh Hst Hr. destruct (at_loaded _ Hat _ _ Hsh) as [_ Ha].
    destruct (Ha Hst Hr) as [i Hi]. exists i. split; [done|]. eapply (ft_file _ Hft); [|done].
    apply (registered_live s id). unfold registered. by rewrite Hsh.
Qed.

(** ** Runs *)

Fixpoint run (xs : list action) (s : state) : option state :=
  match xs with [] => Some s | x :: xs => s ← step x s; run xs s end.

Lemma run_reaches (allowed : action → Prop) r xs : ∀ s s',
  reachable allowed r s → Forall allowed xs → run xs s = Some s' → reachable allowed r s'.
Proof.
  induction xs as [|x xs IH]; intros s s' Hs Hall; cbn; [by intros [= <-]|].
  apply Forall_cons in Hall as [Hx Hall]. destruct (step x s) as [s1|] eqn:E; [|done]. cbn.
  apply IH; [by eapply reach_step|done].
Qed.

(** A thread that advances [n] times, every answer good. *)
Definition goes (t : N) (n : nat) : list action := repeat (Advance t Good) n.
End threads.

(** ** Concrete runs *)

Definition base : ProjectCacheRegistry := new_registry (Some "/c") true 100.
Definition p_id : string := project_cache_shard_id false "/p".

(** Two callers load one shard; a removal finds it in use and deletes nothing. *)
Definition two_callers : list action :=
  [Call 1 (CacheForRoot "/p" 5); Call 2 (CacheForRoot "/p" 6)] ++ goes 1 1 ++ goes 2 1 ++ goes 1 5 ++ goes 2 2 ++
  [Call 3 (RemoveShardById p_id)] ++ goes 3 4.
Definition state_after (xs : list action) : state := default (initial base) (run false xs (initial base)).

Lemma two_callers_run :
  run false two_callers (initial base) = Some (state_after two_callers) ∧
  threads (state_after two_callers) = {[1%N := Using 1; 2%N := Using 1; 3%N := Removed p_id false]} ∧
  caches (state_after two_callers) !! 1%N = Some (p_id, Some 0%N) ∧ live (state_after two_callers) 1 = true.
Proof. by vm_compute. Qed.

Lemma two_callers_reachable allowed :
  (∀ x, in_process x → allowed x) → reachable false allowed base (state_after two_callers).
Proof.
  intros Hall. eapply (run_reaches false allowed base two_callers); [apply reach_initial| |apply two_callers_run].
  apply Forall_forall. intros x Hx. apply Hall. revert x Hx. apply Forall_forall. repeat constructor.
Qed.

(** Half-way: the first caller is inside the lock, the second waits for it. *)
Definition one_inside : list action := take 6 two_callers.
Lemma one_inside_run :
  run false one_inside (initial base) = Some (state_after one_inside) ∧
  threads (state_after one_inside) !! 2%N = Some (ColdWait "/p" 6).
Proof. by vm_compute. Qed.
Lemma one_inside_reachable : reachable false (λ _, True) base (state_after one_inside).
Proof.
  eapply (run_reaches false (λ _, True) base one_inside); [apply reach_initial| |apply one_inside_run].
  by apply Forall_forall.
Qed.

Lemma a_shard_is_one_thing_at_a_time_witness :
  ∃ s, reachable false (λ _, True) base s ∧ knows false s (Removed p_id false) ∧ threads s !! 3%N = Some (Removed p_id false).
Proof.
  exists (state_after two_callers).
  assert (reachable false (λ _, True) base (state_after two_callers)) as Hr by by apply two_callers_reachable.
  assert (threads (state_after two_callers) !! 3%N = Some (Removed p_id false)) as Ht
    by (destruct two_callers_run as (_ & -> & _); reflexivity).
  destruct (a_shard_is_one_thing_at_a_time false _ _ _ Hr) as (_ & Hk & _). split_and!; [done|by eapply Hk|done].
Defined.

Lemma load_locks_never_deadlock_witness :
  ∃ s p, reachable false (λ _, True) base s ∧ threads s !! 2%N = Some p ∧
    (p = Finished ∨ (∃ id b, p = Removed id b) ∨ (∀ a, is_Some (advance false 2 a s)) ∨
     ∃ id t' p', locks s !! id = Some t' ∧ threads s !! t' = Some p' ∧ lock_of false p' = Some id ∧
       ∀ a, is_Some (advance false t' a s)).
Proof.
  exists (state_after one_inside), (ColdWait "/p" 6). split_and!;
    [apply one_inside_reachable|apply one_inside_run|].
  apply (load_locks_never_deadlock false (λ _, True) base); [apply one_inside_reachable|apply one_inside_run].
Defined.

Lemma open_databases_are_their_shards_witness :
  ∃ s, reachable false in_process base s ∧ live s 1 = true ∧ caches s !! 1%N = Some (p_id, Some 0%N) ∧
    db (dir_of s p_id) = Some 0%N.
Proof.
  exists (state_after two_callers). destruct two_callers_run as (_ & _ & Hc & Hl).
  assert (reachable false in_process base (state_after two_callers)) as Hr by by apply two_callers_reachable.
  split_and!; [done..|]. apply (open_databases_are_their_shards false _ _ _ _ _ Hr Hl Hc).
Defined.

Lemma sidecar_writes_never_resurrect_witness :
  ∃ s, reachable false in_process base s ∧
    ∀ t p id, threads s !! t = Some p →
      (∃ c retry m, p = WarmMeta id c retry m) ∨ (∃ c m, p = RetryMeta id c m) ∨ (∃ c m, p = ColdMeta id c m) ∨
      (∃ sh m, p = WritingMeta id sh m) → is_Some (db (dir_of s id)).
Proof.
  exists (state_after two_callers).
  assert (reachable false in_process base (state_after two_callers)) as Hr by by apply two_callers_reachable.
  split; [done|]. apply (sidecar_writes_never_resurrect false _ _ Hr).
Defined.

(** *** Where the guarantee ends *)

(** The file is deleted first and the directory after it. Another daemon that opens the
    shard in between has a database whose file the removal then deletes. *)
Definition foreign_between : list action :=
  [Call 1 (ForeignOpen p_id)] ++ goes 1 2 ++ [Call 2 (RemoveShardById p_id)] ++ goes 2 4 ++
  [Call 3 (ForeignOpen p_id)] ++ goes 3 1 ++ goes 2 1.
Lemma foreign_database_is_removed :
  ∃ s, run false foreign_between (initial base) = Some s ∧ threads s !! 2%N = Some (Removed p_id true) ∧
    live s 3 = true ∧ caches s !! 3%N = Some (p_id, Some 2%N) ∧ db (dir_of s p_id) = None.
Proof. exists (state_after foreign_between). by vm_compute. Qed.

(** A pass and a cold load that both find the file of another schema both delete what is
    at its path: the second deletes the database the first has just made and opened. *)
Definition two_recreate : list action :=
  [Call 1 (ForeignOpen p_id)] ++ goes 1 2 ++
  [Call 2 (CacheForRoot "/p" 5)] ++ goes 2 3 ++ [Advance 2 Corrupt; Call 3 (OpenExisting p_id); Advance 3 Corrupt] ++
  goes 2 3 ++ goes 3 1.
Lemma recreated_database_is_unlinked :
  ∃ s, run false two_recreate (initial base) = Some s ∧ registered s p_id = Some 3%N ∧
    caches s !! 3%N = Some (p_id, Some 2%N) ∧ db (dir_of s p_id) = Some 4%N.
Proof. exists (state_after two_recreate). by vm_compute. Qed.
End ShardLock.
