(* ===== verification/BoundedMap.v ===== *)
(** Maps bounded by evicting their least recently used entry, as the daemon's session
    caches are, and the smallest of them: the index of the paths an engine build
    loaded (engine/dependency_paths.rs). *)
From stdpp Require Import base gmap list strings.
From S2P Require Import Prelude Results Fingerprints CacheKeys.

(** ** Least recently used *)

(** The order in which a hash map is walked is not specified. *)
Class MapOrder (K : Type) `{Countable K} := {
  map_iter : ∀ {A}, gmap K A → list (K * A);
  map_iter_perm : ∀ A (m : gmap K A), map_iter m ≡ₚ map_to_list m;
}.
Definition list_order `{Countable K} : MapOrder K := {|
  map_iter A m := map_to_list m;
  map_iter_perm A m := reflexivity _;
|}.

Section lru.
Context `{Countable K} {MO : MapOrder K} {A : Type} (used : A → N).
Implicit Types (m : gmap K A) (a : A).

(** [min_by_key]: the first of the smallest. *)
Fixpoint min_by (best : K * A) (l : list (K * A)) : K * A :=
  match l with
  | [] => best
  | e :: l => min_by (if (used e.2 <? used best.2)%N then e else best) l
  end.
Definition coldest m : option K :=
  match map_iter m with [] => None | e :: l => Some (min_by e l).1 end.

Lemma min_by_spec l : ∀ best,
  (min_by best l = best ∨ min_by best l ∈ l) ∧
  (used (min_by best l).2 <= used best.2)%N ∧ ∀ e, e ∈ l → (used (min_by best l).2 <= used e.2)%N.
Proof.
  induction l as [|e l IH]; intros best; cbn; [split_and!; [by left|done|set_solver]|].
  destruct (IH (if (used e.2 <? used best.2)%N then e else best)) as (Hin & Hle & Hall).
  destruct (N.ltb_spec (used e.2) (used best.2)) as [Hlt|Hge]; cbn in *; split_and!.
  - right. destruct Hin as [->|?]; [by left|by right].
  - lia.
  - intros e' [->|?]%elem_of_cons; [lia|by apply Hall].
  - destruct Hin as [?|?]; [by left|right; by right].
  - done.
  - intros e' [->|?]%elem_of_cons; [lia|by apply Hall].
Qed.

Lemma coldest_spec m k :
  coldest m = Some k → ∃ a, m !! k = Some a ∧ ∀ k' a', m !! k' = Some a' → (used a <= used a')%N.
Proof.
  unfold coldest. pose proof (map_iter_perm A m) as Hperm. destruct (map_iter m) as [|e l]; [done|].
  intros [= <-]. destruct (min_by_spec l e) as (Hin & Hle & Hall). exists (min_by e l).2. split.
  - apply elem_of_map_to_list. rewrite <- Hperm, <- surjective_pairing. destruct Hin as [-> | ?]; [by left|by right].
  - intros k' a' Ha'%elem_of_map_to_list. rewrite <- Hperm in Ha'.
    apply elem_of_cons in Ha' as [<-|Ha']; [done|by apply (Hall (k', a'))].
Qed.
Lemma coldest_None m : coldest m = None → m = ∅.
Proof.
  unfold coldest. pose proof (map_iter_perm A m) as Hperm. destruct (map_iter m); [|done]. intros _.
  apply map_to_list_empty_iff. symmetry in Hperm. by apply Permutation_nil_r in Hperm.
Qed.

Definition remove_coldest m : gmap K A :=
  match coldest m with Some k => delete k m | None => m end.

Lemma remove_coldest_size m : m ≠ ∅ → size (remove_coldest m) = pred (size m).
Proof.
  intros Hne. unfold remove_coldest. destruct (coldest m) as [k|] eqn:Hk; [|by apply coldest_None in Hk].
  destruct (coldest_spec _ _ Hk) as (a & Ha & _). rewrite map_size_delete, Ha. done.
Qed.
(** Only the least recently used goes. *)
Lemma remove_coldest_lookup m k a :
  m !! k = Some a → remove_coldest m !! k = Some a ∨
  (remove_coldest m = delete k m ∧ ∀ k' a', m !! k' = Some a' → (used a <= used a')%N).
Proof.
  intros Ha. unfold remove_coldest. destruct (coldest m) as [k'|] eqn:Hk; [|by left].
  destruct (decide (k' = k)) as [->|Hne]; [right|left; by rewrite lookup_delete_ne].
  destruct (coldest_spec _ _ Hk) as (a0 & Ha0 & Hmin). simplify_eq. by split.
Qed.
Lemma remove_coldest_subseteq m : remove_coldest m ⊆ m.
Proof. unfold remove_coldest. destruct (coldest m); [apply delete_subseteq|done]. Qed.

(** Room for a key that is new in a full map. *)
Definition make_room (capacity : nat) (k : K) m : gmap K A :=
  if bool_decide (m !! k = None) && (capacity <=? size m) then remove_coldest m else m.
Definition insert_bounded (capacity : nat) (k : K) (a : A) m : gmap K A := <[k := a]> (make_room capacity k m).

Lemma insert_bounded_size capacity k a m :
  0 < capacity → size m ≤ capacity → size (insert_bounded capacity k a m) ≤ capacity.
Proof.
  intros Hc Hs. unfold insert_bounded, make_room.
  destruct (m !! k) as [a0|] eqn:Hk.
  - rewrite bool_decide_false by done. cbn [andb]. by rewrite map_size_insert, Hk.
  - rewrite bool_decide_true by done. cbn [andb]. destruct (Nat.leb_spec capacity (size m)) as [Hfull|Hroom].
    + assert (m ≠ ∅) as Hne by (intros ->; rewrite map_size_empty in Hfull; lia).
      pose proof (remove_coldest_size m Hne). rewrite map_size_insert. destruct (remove_coldest m !! k); unfold id; lia.
    + rewrite map_size_insert, Hk. lia.
Qed.

Lemma insert_bounded_lookup capacity k a m k' a' :
  insert_bounded capacity k a m !! k' = Some a' → (k' = k ∧ a' = a) ∨ (k' ≠ k ∧ m !! k' = Some a').
Proof.
  unfold insert_bounded. intros [[<- <-]|[Hne Hk']]%lookup_insert_Some; [by left|right]. split; [done|].
  unfold make_room in Hk'. destruct (_ && _); [|done]. by eapply lookup_weaken, remove_coldest_subseteq.
Qed.

(** What an insert pushes out was the least recently used of a full map. *)
Lemma insert_bounded_evicts capacity k a m k' a' :
  m !! k' = Some a' → k' ≠ k → insert_bounded capacity k a m !! k' = None →
  capacity ≤ size m ∧ ∀ k0 a0, m !! k0 = Some a0 → (used a' <= used a0)%N.
Proof.
  intros Ha' Hne. unfold insert_bounded. rewrite lookup_insert_ne by done. unfold make_room.
  destruct (bool_decide _ && _) eqn:Hfull; [|congruence].
  apply andb_true_iff in Hfull as [_ Hfull%Nat.leb_le].
  destruct (remove_coldest_lookup m k' a' Ha') as [->|[_ Hmin]]; [done|]. by split.
Qed.
End lru.

(** ** The loaded paths of the latest builds *)

Module DependencyPaths.

Definition MAX_DEPENDENCY_PATH_SETS : nat := 32.
Definition key : Type := string * ImportRuntime.
#[export] Instance key_eq_dec : EqDecision key.
Proof. solve_decision. Defined.
#[export] Instance key_countable : Countable key.
Proof. unfold key. apply _. Defined.

Record PathSet := { paths : list string; last_used : N }.
Record DependencyPathIndex := { sets : gmap key PathSet; clock : N }.
Definition new_index : DependencyPathIndex := {| sets := ∅; clock := 0 |}.

Section index.
Context {MO : MapOrder key}.

(** Inserting into a full index evicts one set first. *)
Definition record (k : key) (loaded : list string) (i : DependencyPathIndex) : DependencyPathIndex :=
  {| sets := insert_bounded last_used MAX_DEPENDENCY_PATH_SETS k
               {| paths := dedup (sort String.compare loaded); last_used := clock i |} (sets i);
     clock := wrap_add (clock i) 1 |}.
Definition get (k : key) (i : DependencyPathIndex) : option (list string) * DependencyPathIndex :=
  match sets i !! k with
  | Some s => (Some (paths s),
      {| sets := <[k := {| paths := paths s; last_used := clock i |}]> (sets i); clock := wrap_add (clock i) 1 |})
  | None => (None, i)
  end.
Definition clear (i : DependencyPathIndex) : DependencyPathIndex := {| sets := ∅; clock := clock i |}.

Definition names_package (package_name path : string) : bool :=
  contains (to_bytes ("node_modules/" +:+ package_name +:+ "/"))
    ((λ c, if decide (c = "\"%char) then "/"%char else c) <$> to_bytes path).
Definition invalidate_package (package_name : string) (i : DependencyPathIndex) : DependencyPathIndex :=
  {| sets := filter (λ e : key * PathSet, names_package package_name e.1.1 = false) (sets i); clock := clock i |}.
Definition purge_missing (fs_symlink_metadata : string → option ErrorKind) (i : DependencyPathIndex) : nat * DependencyPathIndex :=
  let kept := filter (λ e : key * PathSet, path_is_definitely_gone fs_symlink_metadata e.1.1 = false) (sets i) in
  (size (sets i) - size kept, {| sets := kept; clock := clock i |}).

Lemma record_bounded k loaded i :
  size (sets i) ≤ MAX_DEPENDENCY_PATH_SETS → size (sets (record k loaded i)) ≤ MAX_DEPENDENCY_PATH_SETS.
Proof. apply insert_bounded_size. unfold MAX_DEPENDENCY_PATH_SETS. lia. Qed.

(** The set just recorded is there, in canonical order, whatever it pushed out. *)
Lemma record_get k loaded i : (get k (record k loaded i)).1 = Some (dedup (sort String.compare loaded)).
Proof. unfold get, record, insert_bounded. cbn [sets]. by rewrite lookup_insert_eq. Qed.

(** A set that was just read is never the one a record of another key evicts, as long
    as an older one is held. *)
Lemma read_set_survives k k' k0 s s0 loaded i :
  sets i !! k = Some s → sets i !! k0 = Some s0 → k0 ≠ k → k ≠ k' →
  (last_used s0 < clock i)%N →
  is_Some (sets (record k' loaded (get k i).2) !! k).
Proof.
  intros Hk Hk0 Hne Hne' Hold. unfold get. rewrite Hk. cbn [snd].
  set (s1 := {| paths := paths s; last_used := clock i |}).
  destruct (sets (record k' loaded {| sets := <[k := s1]> (sets i); clock := wrap_add (clock i) 1 |}) !! k) eqn:E;
    [by eexists|].
  destruct (insert_bounded_evicts last_used _ _ _ _ k s1 (lookup_insert_eq _ _ _) Hne' E) as [_ Hmin].
  specialize (Hmin k0 s0). rewrite lookup_insert_ne in Hmin by done. specialize (Hmin Hk0). cbn in Hmin. lia.
Qed.
End index.
End DependencyPaths.
