(* ===== verification/BuildMemo.v ===== *)
(** The memo of values derived from an engine build (pipeline/build_memo.rs), keyed by
    entry file and runtime. A lookup is a thread split where it lets its lock go: it
    takes a snapshot, checks the fingerprints without the lock, and comes back. A store
    numbers itself before it takes the lock. *)
From stdpp Require Import base gmap list strings.
From S2P Require Import Prelude Results Fingerprints CachedImports BoundedMap.
Import DependencyPaths (key, key_eq_dec, key_countable).

Module Memo.

Definition MAX_ENTRIES : nat := 256.

Section memo.
Context {MO : MapOrder key} {CH : ContentHash} {V : Type}.

Record Entry := {
  value : V;
  fingerprints : list FileFingerprint;
  first_party : list FileFingerprint;
  verified_at : option N;
  generation : N;
  stamp : N;
  used_at : N;
}.
Definition touch (used : N) (verified : option N) (e : Entry) : Entry :=
  {| value := value e; fingerprints := fingerprints e; first_party := first_party e; verified_at := verified;
     generation := generation e; stamp := stamp e; used_at := used |}.

(** What a lookup takes out of the lock. *)
Record Snapshot := {
  sn_value : V;
  sn_fingerprints : list FileFingerprint;   (* those it has to check *)
  sn_stamp : N;
  verified_recently : bool;
  sn_generation : N;                        (* ghost: the generation it read *)
  sn_now : N;                               (* ghost: when it looked *)
}.

Inductive thread :=
  | Took (k : key) (sn : Snapshot)
  | Checked (k : key) (sn : Snapshot) (checked_at : N) (files : FileSystem) (verdict : Freshness)
  | Answered (k : key) (v : option V)
  | Numbered (k : key) (e : Entry)          (* a store, before its lock *)
  | Stored.

Record state := {
  entries : gmap key Entry;
  tick : N;
  threads : gmap N thread;
  born : gmap N (key * Entry);              (* ghost: every store, by its stamp *)
  confirmed : list (N * N);                 (* ghost: the full checks that passed, stamp and time *)
}.
Definition new : state := {| entries := ∅; tick := 0; threads := ∅; born := ∅; confirmed := [] |}.

Definition set_thread (t : N) (th : thread) (s : state) : state :=
  {| entries := entries s; tick := tick s; threads := <[t := th]> (threads s); born := born s;
     confirmed := confirmed s |}.
Definition set_entries (m : gmap key Entry) (s : state) : state :=
  {| entries := m; tick := tick s; threads := threads s; born := born s; confirmed := confirmed s |}.
Definition ticked (s : state) : state :=
  {| entries := entries s; tick := tick s + 1; threads := threads s; born := born s; confirmed := confirmed s |}.
Definition confirm (st at_ : N) (s : state) : state :=
  {| entries := entries s; tick := tick s; threads := threads s; born := born s;
     confirmed := (st, at_) :: confirmed s |}.
Definition bear (k : key) (e : Entry) (s : state) : state :=
  {| entries := entries s; tick := tick s; threads := threads s; born := <[stamp e := (k, e)]> (born s);
     confirmed := confirmed s |}.

Context (trusts_installed_window : bool).

(** [get], up to where it lets the lock go. *)
Definition look (t : N) (k : key) (cache_generation now : N) (s : state) : state :=
  match entries s !! k with
  | None => set_thread t (Answered k None) s
  | Some e =>
      if decide (generation e = cache_generation) then
        let recently := trusts_installed_window &&
          match verified_at e with Some at_ => (sat_sub now at_ <? REVERIFY_TTL_millis)%N | None => false end in
        set_thread t (Took k {| sn_value := value e;
                                sn_fingerprints := if recently then first_party e else fingerprints e;
                                sn_stamp := stamp e; verified_recently := recently;
                                sn_generation := cache_generation; sn_now := now |}) s
      else set_thread t (Answered k None) (set_entries (delete k (entries s)) s)
  end.

(** Under the lock again. *)
Definition finish (t : N) (k : key) (sn : Snapshot) (checked_at : N) (verdict : Freshness) (s : state) : state :=
  match verdict with
  | Fresh =>
      match entries s !! k with
      | Some e =>
          let mine := negb (verified_recently sn) && bool_decide (stamp e = sn_stamp sn) in
          let e' := touch (tick s) (if mine then Some checked_at else verified_at e) e in
          let s1 := ticked (set_entries (<[k := e']> (entries s)) s) in
          set_thread t (Answered k (Some (sn_value sn)))
            (if mine then confirm (sn_stamp sn) checked_at s1 else s1)
      | None => set_thread t (Answered k (Some (sn_value sn))) s
      end
  | Unknown => set_thread t (Answered k None) s
  | Stale | Gone =>
      set_thread t (Answered k None)
        match entries s !! k with
        | Some e => if decide (stamp e = sn_stamp sn) then set_entries (delete k (entries s)) s else s
        | None => s
        end
  end.

(** [insert], up to its lock: the gate, then two ticks, the stamp and the first use
    (drawn together here: only their order with other draws could differ). *)
Definition number (t : N) (k : key) (v : V) (fps : list FileFingerprint) (gen : N) (s : state) : state :=
  if bool_decide (fps = []) || negb (fingerprints_are_reusable fps) then set_thread t Stored s
  else
    let e := {| value := v; fingerprints := fps;
                first_party := filter (λ f, fingerprint_is_installed f = false) fps; verified_at := None;
                generation := gen; stamp := tick s; used_at := tick s + 1 |} in
    set_thread t (Numbered k e) (bear k e (ticked (ticked s))).
Definition store (t : N) (k : key) (e : Entry) (s : state) : state :=
  set_thread t Stored (set_entries (insert_bounded used_at MAX_ENTRIES k e (entries s)) s).

Inductive action :=
  | Get (t : N) (k : key) (cache_generation now : N)
  | CheckFiles (t : N) (files : FileSystem) (now : N)
  | Finish (t : N)
  | Insert (t : N) (k : key) (v : V) (fps : list FileFingerprint) (gen : N)
  | Store (t : N).

Definition step (x : action) (s : state) : option state :=
  match x with
  | Get t k gen now =>
      match threads s !! t with None => Some (look t k gen now s) | Some _ => None end
  | CheckFiles t files now =>
      match threads s !! t with
      | Some (Took k sn) => Some (set_thread t (Checked k sn now files (check_fingerprints_strict (FS := files) (sn_fingerprints sn))) s)
      | _ => None
      end
  | Finish t =>
      match threads s !! t with
      | Some (Checked k sn checked_at _ verdict) => Some (finish t k sn checked_at verdict s)
      | _ => None
      end
  | Insert t k v fps gen =>
      match threads s !! t with None => Some (number t k v fps gen s) | Some _ => None end
  | Store t =>
      match threads s !! t with Some (Numbered k e) => Some (store t k e s) | _ => None end
  end.

Inductive reachable : state → Prop :=
  | reach_new : reachable new
  | reach_step x s s' : reachable s → step x s = Some s' → reachable s'.

(** ** The invariant *)

(** The store an entry or a snapshot comes from, by its stamp. *)
Definition of_store (s : state) (k : key) (e : Entry) : Prop :=
  ∃ e0, born s !! stamp e = Some (k, e0) ∧ value e = value e0 ∧ fingerprints e = fingerprints e0 ∧
    first_party e = filter (λ f, fingerprint_is_installed f = false) (fingerprints e0) ∧
    generation e = generation e0.
Definition confirmed_at (s : state) (st : N) (o : option N) : Prop :=
  match o with Some at_ => (st, at_) ∈ confirmed s | None => True end.

Definition snapped (s : state) (k : key) (sn : Snapshot) : Prop :=
  ∃ e0, born s !! sn_stamp sn = Some (k, e0) ∧ sn_value sn = value e0 ∧ sn_generation sn = generation e0 ∧
    if verified_recently sn
    then trusts_installed_window = true ∧
         sn_fingerprints sn = filter (λ f, fingerprint_is_installed f = false) (fingerprints e0) ∧
         ∃ at_, (sn_stamp sn, at_) ∈ confirmed s ∧ (sat_sub (sn_now sn) at_ < REVERIFY_TTL_millis)%N
    else sn_fingerprints sn = fingerprints e0.

Definition placed (s : state) (th : thread) : Prop :=
  match th with
  | Took k sn => snapped s k sn
  | Checked k sn _ files verdict =>
      snapped s k sn ∧ verdict = check_fingerprints_strict (FS := files) (sn_fingerprints sn)
  | Numbered k e => born s !! stamp e = Some (k, e) ∧ verified_at e = None ∧
      first_party e = filter (λ f, fingerprint_is_installed f = false) (fingerprints e)
  | Answered _ _ | Stored => True
  end.

Record inv (s : state) : Prop := {
  inv_size : size (entries s) ≤ MAX_ENTRIES;
  inv_born : ∀ st k e, born s !! st = Some (k, e) →
    (st < tick s)%N ∧ stamp e = st ∧ fingerprints e ≠ [] ∧ fingerprints_are_reusable (fingerprints e) = true;
  inv_entry : ∀ k e, entries s !! k = Some e → of_store s k e ∧ confirmed_at s (stamp e) (verified_at e);
  inv_placed : ∀ t th, threads s !! t = Some th → placed s th;
}.

(** Stores and confirmations are only added. *)
Record extends (s s' : state) : Prop := {
  ex_born : ∀ st x, born s !! st = Some x → born s' !! st = Some x;
  ex_confirmed : ∀ x, x ∈ confirmed s → x ∈ confirmed s';
}.
Lemma snapped_extends s s' k sn : extends s s' → snapped s k sn → snapped s' k sn.
Proof.
  intros [Hb Hc] (e0 & He & Hv & Hg & Hr). exists e0. split_and!; auto.
  destruct (verified_recently sn); [|done]. destruct Hr as (? & ? & at_ & ? & ?). eauto 6.
Qed.
Lemma placed_extends s s' th : extends s s' → placed s th → placed s' th.
Proof.
  intros Hx. pose proof (λ k sn, snapped_extends s s' k sn Hx) as Hs. pose proof Hx as [Hb Hc].
  destruct th; cbn; naive_solver.
Qed.
Lemma of_store_extends s s' k e : extends s s' → of_store s k e → of_store s' k e.
Proof. intros [Hb _] (e0 & ? & ?). exists e0. auto. Qed.
Lemma confirmed_extends s s' st o : extends s s' → confirmed_at s st o → confirmed_at s' st o.
Proof. intros [_ Hc]. destruct o; cbn; auto. Qed.

(** A step in which thread [t] gets to [th], only forgetting entries or putting in one
    that is accounted for. *)
Lemma inv_step_memo s s' t th :
  inv s → extends s s' → threads s' = <[t := th]> (threads s) → (tick s <= tick s')%N →
  size (entries s') ≤ MAX_ENTRIES →
  (∀ st k e, born s' !! st = Some (k, e) → born s !! st = Some (k, e) ∨
    (st < tick s')%N ∧ stamp e = st ∧ fingerprints e ≠ [] ∧ fingerprints_are_reusable (fingerprints e) = true) →
  (∀ k e, entries s' !! k = Some e → entries s !! k = Some e ∨ of_store s' k e ∧ confirmed_at s' (stamp e) (verified_at e)) →
  placed s' th → inv s'.
Proof.
  intros [Hsz Hb He Hp] Hx Ht Htick Hsz' Hb' He' Hth. split; [done|..].
  - intros st k e Hst. destruct (Hb' _ _ _ Hst) as [Hold|?]; [|done].
    destruct (Hb _ _ _ Hold) as (? & ? & ? & ?). split_and!; try done. lia.
  - intros k e Hk. destruct (He' _ _ Hk) as [Hold|?]; [|done]. destruct (He _ _ Hold) as [? ?].
    split; [by eapply of_store_extends|by eapply confirmed_extends].
  - intros t' th'. rewrite Ht. intros [[_ <-]|[_ ?]]%lookup_insert_Some; [done|].
    eapply placed_extends; [done|by eapply Hp].
Qed.

Lemma extends_refl s s' : born s' = born s → confirmed s' = confirmed s → extends s s'.
Proof. intros Eb Ec. split; intros *; by rewrite ?Eb, ?Ec. Qed.

(** A section that only moves its thread, or forgets an entry. *)
Lemma inv_quiet_memo s s' t th :
  inv s → born s' = born s → confirmed s' = confirmed s → threads s' = <[t := th]> (threads s) →
  (tick s <= tick s')%N → entries s' ⊆ entries s → placed s th → inv s'.
Proof.
  intros Hi Eb Ec Et Hn Hsub Hth. pose proof (extends_refl _ _ Eb Ec) as Hx.
  eapply inv_step_memo; [done..| | | |by eapply placed_extends].
  - etransitivity; [by apply map_subseteq_size|apply Hi].
  - intros st k e. rewrite Eb. by left.
  - intros k e Hk. left. by eapply lookup_weaken.
Qed.

Lemma look_inv s t k gen now : inv s → inv (look t k gen now s).
Proof.
  intros Hi. unfold look. destruct (entries s !! k) as [e|] eqn:Hk; [|by eapply inv_quiet_memo].
  case_decide as Hg; [|by eapply inv_quiet_memo; try done; apply delete_subseteq].
  eapply inv_quiet_memo; try done. destruct (inv_entry _ Hi _ _ Hk) as [(e0 & Hb & Hv & Hf & Hfp & Hgen) Hc].
  exists e0. cbn. split_and!; try done; [congruence|].
  destruct trusts_installed_window eqn:Htr; cbn; [|done].
  destruct (verified_at e) as [at_|]; [|done].
  destruct (N.ltb_spec (sat_sub now at_) REVERIFY_TTL_millis); [|done]. by eauto 6.
Qed.

Lemma finish_inv s t k sn checked_at files verdict :
  inv s → threads s !! t = Some (Checked k sn checked_at files verdict) →
  inv (finish t k sn checked_at verdict s).
Proof.
  intros Hi Ht. destruct (inv_placed _ Hi _ _ Ht) as [(e0 & Hb0 & Hv0 & Hg0 & Hr0) Hver].
  unfold finish. destruct verdict.
  - destruct (entries s !! k) as [e|] eqn:Hk; [|by eapply inv_quiet_memo].
    destruct (inv_entry _ Hi _ _ Hk) as [Hst Hc].
    set (mine := negb (verified_recently sn) && bool_decide (stamp e = sn_stamp sn)).
    set (s1 := set_thread _ _ _). assert (extends s s1) as Hx.
    { split; intros x *; unfold s1; destruct mine; cbn; try done. intros ?. by right. }
    eapply (inv_step_memo s s1 t (Answered k (Some (sn_value sn)))); [done|done|by unfold s1; destruct mine| | | | |done].
    + unfold s1. destruct mine; cbn; lia.
    + assert (entries s1 = <[k := touch (tick s) (if mine then Some checked_at else verified_at e) e]> (entries s)) as ->
        by (unfold s1; by destruct mine).
      rewrite map_size_insert, Hk. apply Hi.
    + intros st k' e'. unfold s1. destruct mine; by left.
    + assert (entries s1 = <[k := touch (tick s) (if mine then Some checked_at else verified_at e) e]> (entries s)) as ->
        by (unfold s1; by destruct mine).
      intros k' e' [[<- <-]|[_ ?]]%lookup_insert_Some; [right|by left]. split.
      * destruct Hst as (e1 & ? & ?). exists e1. split; [by apply Hx|done].
      * destruct mine eqn:Hm; cbn [touch verified_at stamp]; [|by eapply confirmed_extends].
        apply andb_true_iff in Hm as [_ Hs%bool_decide_eq_true]. unfold s1. cbn. rewrite Hs. by left.
  - destruct (entries s !! k); [case_decide|]; eapply inv_quiet_memo; try done. apply delete_subseteq.
  - destruct (entries s !! k); [case_decide|]; eapply inv_quiet_memo; try done. apply delete_subseteq.
  - by eapply inv_quiet_memo.
Qed.

Lemma number_inv s t k v fps gen : inv s → inv (number t k v fps gen s).
Proof.
  intros Hi. unfold number. destruct (bool_decide (fps = []) || _) eqn:Hgate; [by eapply inv_quiet_memo|].
  apply orb_false_iff in Hgate as [Hne%bool_decide_eq_false Hre%negb_false_iff].
  assert (born s !! tick s = None) as Hfresh.
  { destruct (born s !! tick s) as [[k0 e0]|] eqn:E; [|done]. destruct (inv_born _ Hi _ _ _ E). lia. }
  set (e := {| value := v |}).
  eapply (inv_step_memo s _ t (Numbered k e)); [done| |done|cbn; lia|apply Hi| |by left|].
  - split; [|done]. intros st x Hx. cbn. rewrite lookup_insert_ne; [done|]. intros <-. congruence.
  - intros st k' e'. cbn. intros [[<- [= <- <-]]|[_ ?]]%lookup_insert_Some; [right|by left].
    split_and!; try done. cbn. lia.
  - cbn. by rewrite lookup_insert_eq.
Qed.

Lemma store_inv s t k e : inv s → threads s !! t = Some (Numbered k e) → inv (store t k e s).
Proof.
  intros Hi Ht. destruct (inv_placed _ Hi _ _ Ht) as (Hb & Hv & Hf).
  eapply (inv_step_memo s _ t Stored); [done|by apply extends_refl|done|done| |by left| |done].
  - apply insert_bounded_size; [unfold MAX_ENTRIES; lia|apply Hi].
  - intros k' e' [[-> ->]|[_ ?]]%insert_bounded_lookup; [right|by left].
    split; [by exists e|]. cbn. by rewrite Hv.
Qed.

Lemma inv_new : inv new.
Proof.
  split; cbn; try (intros *; by rewrite lookup_empty). rewrite map_size_empty. unfold MAX_ENTRIES. lia.
Qed.

Lemma step_inv_memo x s s' : inv s → step x s = Some s' → inv s'.
Proof.
  intros Hi Hs. destruct x as [t k gen now|t files now|t|t k v fps gen|t]; cbn in Hs;
    destruct (threads s !! t) as [th|] eqn:Ht; try done; try (destruct th; try done); simplify_eq.
  - by apply look_inv.
  - pose proof (inv_placed _ Hi _ _ Ht) as Hp. by eapply inv_quiet_memo.
  - by eapply finish_inv.
  - by apply number_inv.
  - by apply store_inv.
Qed.
Lemma reachable_memo s : reachable s → inv s.
Proof. induction 1 as [|x s s' _ IH Hs]; [apply inv_new|by eapply step_inv_memo]. Qed.

(** Of two checks, the aggregate is fresh exactly when each is. *)
Lemma fresh_each (files : FileSystem) fps :
  check_fingerprints_strict (FS := files) fps = Fresh → ∀ f, f ∈ fps → check_one (FS := files) f = Fresh.
Proof. intros Hf f Hin. apply (check_strict_fresh (FS := files)) in Hf. rewrite Forall_forall in Hf. by apply Hf. Qed.

(** C36. What a lookup serves was stored for its entry under the generation it read, from
    inputs it has just found current: every input outside node_modules, and every
    installed one too unless the memo trusts a window and the same value's inputs were
    all found current within it. *)
Theorem served_memo_is_current s t k v s' :
  reachable s → step (Finish t) s = Some s' → threads s' !! t = Some (Answered k (Some v)) →
  ∃ sn checked_at files e0,
    threads s !! t = Some (Checked k sn checked_at files Fresh) ∧
    born s !! sn_stamp sn = Some (k, e0) ∧ v = value e0 ∧ generation e0 = sn_generation sn ∧
    fingerprints_are_reusable (fingerprints e0) = true ∧
    (∀ f, f ∈ fingerprints e0 → fingerprint_is_installed f = false ∨ verified_recently sn = false →
      check_one (FS := files) f = Fresh) ∧
    (verified_recently sn = true → trusts_installed_window = true ∧
      ∃ at_, (sn_stamp sn, at_) ∈ confirmed s ∧ (sat_sub (sn_now sn) at_ < REVERIFY_TTL_millis)%N).
Proof.
  intros Hi%reachable_memo Hs Ht. cbn in Hs. destruct (threads s !! t) as [th|] eqn:Hth; [|done].
  destruct th as [|k0 sn checked_at files verdict| | |]; try done. simplify_eq.
  destruct (inv_placed _ Hi _ _ Hth) as [(e0 & Hb & Hv & Hg & Hr) ->].
  destruct (check_fingerprints_strict (sn_fingerprints sn)) eqn:Hver;
    [|by exfalso; revert Ht; unfold finish; destruct (entries s !! k0); [case_decide|]; cbn; rewrite lookup_insert_eq..
     |by exfalso; revert Ht; unfold finish; cbn; rewrite lookup_insert_eq].
  assert (k0 = k ∧ v = sn_value sn) as [-> ->].
  { revert Ht. unfold finish. destruct (entries s !! k0) as [e|]; [destruct (_ && _)|]; cbn;
      rewrite lookup_insert_eq; by intros [= -> ->]. }
  exists sn, checked_at, files, e0. destruct (inv_born _ Hi _ _ _ Hb) as (_ & _ & _ & Hre).
  split_and!; try done; [|by destruct (verified_recently sn); [destruct Hr as (? & _ & ?)|]].
  intros f Hf Hcase. apply (fresh_each _ _ Hver). destruct (verified_recently sn).
  - destruct Hr as (_ & -> & _). apply list_elem_of_filter. by destruct Hcase.
  - by rewrite Hr.
Qed.

(** The memo stays within its bound, and a lookup that finds its value stale forgets
    that very value: whatever a concurrent store put there since stays. *)
Theorem stale_lookups_forget_their_own s :
  reachable s → size (entries s) ≤ MAX_ENTRIES ∧
  ∀ t s' k e, step (Finish t) s = Some s' → entries s !! k = Some e → entries s' !! k = None →
    ∃ sn checked_at files verdict e0, threads s !! t = Some (Checked k sn checked_at files verdict) ∧
      verdict ≠ Fresh ∧ verdict = check_fingerprints_strict (FS := files) (sn_fingerprints sn) ∧
      born s !! stamp e = Some (k, e0) ∧ sn_value sn = value e ∧
      (∀ f, f ∈ sn_fingerprints sn → f ∈ fingerprints e).
Proof.
  intros Hi%reachable_memo. split; [apply Hi|]. intros t s' k e Hs Hk Hk'. cbn in Hs.
  destruct (threads s !! t) as [th|] eqn:Hth; [|done].
  destruct th as [|k0 sn checked_at files verdict| | |]; try done. simplify_eq.
  destruct (inv_placed _ Hi _ _ Hth) as [(e0 & Hb & Hv & Hg & Hr) Hver].
  assert (verdict ≠ Fresh ∧ k0 = k ∧ stamp e = sn_stamp sn) as (Hnf & -> & Hst).
  { revert Hk'. unfold finish. destruct verdict.
    - destruct (entries s !! k0) as [e1|] eqn:E1; [destruct (_ && _)|]; cbn; try congruence;
        (destruct (decide (k0 = k)) as [->|]; [by rewrite lookup_insert_eq|by rewrite lookup_insert_ne; congruence]).
    - destruct (entries s !! k0) as [e1|] eqn:E1; [case_decide|]; cbn; try congruence.
      destruct (decide (k0 = k)) as [->|]; [intros _|by rewrite lookup_delete_ne by done; congruence].
      split_and!; [done..|congruence].
    - destruct (entries s !! k0) as [e1|] eqn:E1; [case_decide|]; cbn; try congruence.
      destruct (decide (k0 = k)) as [->|]; [intros _|by rewrite lookup_delete_ne by done; congruence].
      split_and!; [done..|congruence].
    - cbn. congruence. }
  destruct (inv_entry _ Hi _ _ Hk) as [(e1 & Hb1 & Hv1 & Hf1 & Hfp1 & _) _].
  assert (e1 = e0) as -> by congruence.
  exists sn, checked_at, files, verdict, e0. rewrite Hst. split_and!; try done; [congruence|].
  intros f Hf. rewrite Hf1. destruct (verified_recently sn); [|by rewrite <- Hr].
  destruct Hr as (_ & Heq & _). rewrite Heq in Hf. by apply list_elem_of_filter in Hf as [_ ?].
Qed.

Fixpoint run (xs : list action) (s : state) : option state :=
  match xs with [] => Some s | x :: xs => s ← step x s; run xs s end.
Lemma run_memo xs : ∀ s s', reachable s → run xs s = Some s' → reachable s'.
Proof.
  induction xs as [|x xs IH]; intros s s' Hs; cbn; [by intros [= <-]|].
  destruct (step x s) as [s1|] eqn:E; [|done]. cbn. by apply IH, (reach_step x s).
Qed.
End memo.

(** ** A value stored, checked and served; then found stale *)

Definition src_file (bs : string) : FileSystem :=
  one_file "/p/src/a.js" {| md_len := 3; md_modified := Some 7%Z |} (to_bytes bs).
Definition src_print : FileFingerprint :=
  {| fp_path := "/p/src/a.js"; fp_len := 3; fp_modified_millis := 7; fp_content_hash := Some 3%N |}.
Definition entry_key : key := ("/p/src/a.js", Client).
Definition act : Type := @action N.
Definition served : list act :=
  [Insert 1 entry_key 42%N [src_print] 5; Store 1; Get 2 entry_key 5 100; CheckFiles 2 (src_file "abc") 101].
Definition edited : list act :=
  [Insert 1 entry_key 42%N [src_print] 5; Store 1; Get 2 entry_key 5 100; CheckFiles 2 (src_file "abcd") 101].
Definition after (xs : list act) : @state N :=
  default new (run (MO := list_order) (CH := length_hash) false xs new).

Lemma after_reachable xs :
  is_Some (run (MO := list_order) (CH := length_hash) false xs new) →
  reachable (MO := list_order) (CH := length_hash) false (after xs).
Proof.
  intros [s Hs]. unfold after. rewrite Hs. eapply run_memo; [apply reach_new|exact Hs].
Qed.
Lemma runs_done :
  is_Some (run (MO := list_order) (CH := length_hash) false served new) ∧
  is_Some (run (MO := list_order) (CH := length_hash) false edited new).
Proof. split; by eexists. Qed.

Lemma served_memo_is_current_witness :
  ∃ s s' : @state N, reachable (MO := list_order) (CH := length_hash) false s ∧
    step (MO := list_order) (CH := length_hash) false (Finish 2) s = Some s' ∧
    threads s' !! 2%N = Some (Answered entry_key (Some 42%N)) ∧ ∃ e0 st, born s !! st = Some (entry_key, e0) ∧ 42%N = value e0.
Proof.
  exists (after served). eexists.
  assert (reachable (MO := list_order) (CH := length_hash) false (after served)) as Hr by apply after_reachable, runs_done.
  split_and!; [exact Hr|reflexivity|reflexivity|].
  destruct (served_memo_is_current (MO := list_order) (CH := length_hash) false (after served) 2 entry_key 42%N _ Hr
    eq_refl eq_refl) as (sn & at_ & files & e0 & _ & Hb & Hv & _).
  by exists e0, (sn_stamp sn).
Defined.

Lemma stale_lookups_forget_their_own_witness :
  ∃ s s' : @state N, reachable (MO := list_order) (CH := length_hash) false s ∧ size (entries s) ≤ MAX_ENTRIES ∧
    step (MO := list_order) (CH := length_hash) false (Finish 2) s = Some s' ∧ entries s' !! entry_key = None ∧
    ∃ e sn checked_at files verdict, entries s !! entry_key = Some e ∧
      threads s !! 2%N = Some (Checked entry_key sn checked_at files verdict) ∧ verdict ≠ Fresh.
Proof.
  exists (after edited). eexists.
  assert (reachable (MO := list_order) (CH := length_hash) false (after edited)) as Hr by apply after_reachable, runs_done.
  destruct (stale_lookups_forget_their_own (MO := list_order) (CH := length_hash) false (after edited) Hr) as [Hsz Hdrop].
  split_and!; [exact Hr|exact Hsz|reflexivity|reflexivity|].
  edestruct (Hdrop 2%N _ entry_key _ eq_refl eq_refl eq_refl) as (sn & at_ & files & verdict & e0 & Ht & Hnf & _).
  do 5 eexists. split_and!; [reflexivity|exact Ht|exact Hnf].
Defined.
End Memo.
