(* ===== verification/FileSizeCache.v ===== *)
(** The totals of open documents (pipeline/file_size_cache.rs): one slot a document,
    gated, bounded, and served only under the signature and the inputs it was computed
    from; and the signature. *)
From stdpp Require Import base gmap list strings pretty.
From S2P Require Import Prelude Stages Results Fingerprints CacheKeys FileSize BoundedMap ProjectRegistry.

Definition MAX_CACHED_FILE_SIZES : nat := 64.
Definition REVERIFY_TTL_MS : N := 30000.

Record CachedFileSize := {
  signature : N;
  computation : FileSizeComputation;
  computed_at_millis : N;
  last_used_millis : N;
}.

(** ** The cache *)

Abbreviation FileSizeCache := (gmap string CachedFileSize).

Definition within_ttl (computed now : N) : bool := (sat_sub now computed <=? REVERIFY_TTL_MS)%N.

Section cache.
Context {MO : MapOrder string} {CH : ContentHash}.

Definition get_total {FS : FileSystem} (now : N) (path : string) (sig : N) (c : FileSizeCache) :
    option FileSizeComputation * FileSizeCache :=
  match c !! path with
  | None => (None, c)
  | Some e =>
      if negb (bool_decide (signature e = sig)) || negb (within_ttl (computed_at_millis e) now) then (None, c)
      else if decide (check_fingerprints_strict (dependency_fingerprints (computation e)) = Fresh) then
        (Some (computation e),
         <[path := {| signature := signature e; computation := computation e;
                      computed_at_millis := computed_at_millis e; last_used_millis := now |}]> c)
      else (None, c)
  end.

Definition insert_total (now : N) (path : string) (sig : N) (total : FileSizeComputation) (c : FileSizeCache) :
    FileSizeCache :=
  if negb (may_enter_aggregate_cache total) then c
  else
    let c := <[path := {| signature := sig; computation := total; computed_at_millis := now;
                          last_used_millis := now |}]> c in
    if (MAX_CACHED_FILE_SIZES <? size c) then remove_coldest last_used_millis c else c.

Definition purge_missing_paths (fs_symlink_metadata : string → option ErrorKind) (c : FileSizeCache) :
    nat * FileSizeCache :=
  let kept := filter (λ e : string * CachedFileSize, path_is_definitely_gone fs_symlink_metadata e.1 = false) c in
  (size c - size kept, kept).

(** ** The daemon's use of it *)

Inductive use :=
  | Get (FS : FileSystem) (now : N) (path : string) (sig : N)
  | Insert (now : N) (path : string) (sig : N) (total : FileSizeComputation)
  | Clear
  | Purge (fs_symlink_metadata : string → option ErrorKind).
Definition apply_use (c : FileSizeCache) (u : use) : FileSizeCache :=
  match u with
  | Get files now path sig => (get_total (FS := files) now path sig c).2
  | Insert now path sig total => insert_total now path sig total c
  | Clear => ∅
  | Purge gone => (purge_missing_paths gone c).2
  end.
Definition uses (us : list use) : FileSizeCache := foldl apply_use ∅ us.

(** Every slot holds what an insert put there: the signature, the total and its time. *)
Definition inserted (us : list use) (path : string) (e : CachedFileSize) : Prop :=
  may_enter_aggregate_cache (computation e) = true ∧
  Insert (computed_at_millis e) path (signature e) (computation e) ∈ us.

Lemma inserted_snoc us u path e : inserted us path e → inserted (us ++ [u]) path e.
Proof. intros [? ?]. split; [done|]. apply elem_of_app. by left. Qed.

Lemma uses_inv us :
  size (uses us) ≤ MAX_CACHED_FILE_SIZES ∧ ∀ path e, uses us !! path = Some e → inserted us path e.
Proof.
  induction us as [|u us [IHs IH]] using rev_ind.
  { unfold uses. cbn. rewrite map_size_empty. split; [unfold MAX_CACHED_FILE_SIZES; lia|].
    intros path e. by rewrite lookup_empty. }
  unfold uses in *. rewrite foldl_snoc. set (c := foldl apply_use ∅ us) in *. destruct u as [files now p sig|now p sig total| |gone]; cbn [apply_use].
  - unfold get_total. destruct (c !! p) as [e0|] eqn:Hp; [|split; [done|intros; by apply inserted_snoc, IH]].
    destruct (_ || _); [split; [done|intros; by apply inserted_snoc, IH]|].
    case_decide; cbn [snd]; [|split; [done|intros; by apply inserted_snoc, IH]]. split.
    + by rewrite map_size_insert, Hp.
    + intros path e [[<- <-]|[_ Hc]]%lookup_insert_Some; apply inserted_snoc; [|by apply IH].
      destruct (IH _ _ Hp). by split.
  - unfold insert_total. destruct (may_enter_aggregate_cache total) eqn:Hgate;
      [cbn [negb]|split; [done|intros; by apply inserted_snoc, IH]].
    set (c' := <[p := _]> c).
    assert (∀ path e, c' !! path = Some e → inserted (us ++ [Insert now p sig total]) path e) as Hc'.
    { intros path e [[<- <-]|[_ Hc]]%lookup_insert_Some; [|by apply inserted_snoc, IH].
      split; [done|]. apply elem_of_app. right. by left. }
    assert (size c' ≤ S MAX_CACHED_FILE_SIZES) as Hsz.
    { unfold c'. rewrite map_size_insert. destruct (c !! p); cbn; unfold id; lia. }
    destruct (Nat.ltb_spec MAX_CACHED_FILE_SIZES (size c')) as [Hbig|Hok]; [|done]. split.
    + assert (c' ≠ ∅) as Hne by (intros He; rewrite He, map_size_empty in Hbig; lia).
      rewrite (remove_coldest_size last_used_millis c' Hne). lia.
    + intros path e He. apply Hc'. by eapply lookup_weaken, remove_coldest_subseteq.
  - rewrite map_size_empty. split; [unfold MAX_CACHED_FILE_SIZES; lia|]. intros path e. by rewrite lookup_empty.
  - cbn [purge_missing_paths snd]. split.
    + etransitivity; [apply map_subseteq_size, map_filter_subseteq|done].
    + intros path e [Hc _]%map_lookup_filter_Some. by apply inserted_snoc, IH.
Qed.

(** A cached total is only ever served for the document, the signature and the inputs
    it was computed from: it passed the gate (an error, a degraded sum or a transient
    stage never enters), it is at most thirty seconds old, and every input it lists has
    just been found current; and at most sixty-four documents are kept. *)
Theorem served_totals_are_current us {FS : FileSystem} now path sig total :
  size (uses us) ≤ MAX_CACHED_FILE_SIZES ∧
  ((get_total now path sig (uses us)).1 = Some total →
   may_enter_aggregate_cache total = true ∧
   (∃ at_, Insert at_ path sig total ∈ us ∧ (sat_sub now at_ <= REVERIFY_TTL_MS)%N) ∧
   ∀ f, f ∈ dependency_fingerprints total → check_one f = Fresh).
Proof.
  destruct (uses_inv us) as [Hsz Hin]. split; [done|]. unfold get_total.
  destruct (uses us !! path) as [e|] eqn:He; [|done].
  destruct (negb (bool_decide _) || negb (within_ttl _ _)) eqn:Hold; [done|].
  apply orb_false_iff in Hold as [Hsig%negb_false_iff%bool_decide_eq_true Httl%negb_false_iff].
  case_decide as Hfresh; cbn [fst]; [|done]. intros [= <-]. destruct (Hin _ _ He) as [Hgate Hins].
  split_and!; [done| |].
  - exists (computed_at_millis e). rewrite <- Hsig. split; [done|]. by apply N.leb_le.
  - intros f Hf. apply check_strict_fresh in Hfresh. rewrite Forall_forall in Hfresh. by apply Hfresh.
Qed.
End cache.

(** ** The signature *)

Section signature.
Context {FS : FileSystem} {CD : IdentityCodec} (CARGO_PKG_VERSION : string) (windows : bool)
        (resolve : ImportRequest → ResolvedPackage + string)
        (cached_loaded_paths : string → ImportRuntime → option (list string))
        (* [DefaultHasher], over the generation and the tokens in turn *)
        (hash : N → list string → N).

(** One stat: length and modification time. *)
Definition stat_token (path : string) : string :=
  match fs_metadata path with
  | inl md =>
      let millis := match md_modified md with Some t => if decide (t < 0)%Z then 0%N else Z.to_N (t / 1000000) | None => 0%N end in
      pretty (md_len md) +:+ ":" +:+ pretty millis
  | inr _ => "absent"
  end.

Definition slashes (path : string) : string := of_bytes (slashed <$> to_bytes path).
(** [Path::components]: a backslash separates on Windows. *)
Definition path_has_node_modules_segment (path : string) : bool :=
  negb (is_first_party_path (if windows then slashes path else path)).

Fixpoint join (sep : string) (l : list string) : string :=
  match l with
  | [] => ""
  | [s] => s
  | s :: l => s +:+ sep +:+ join sep l
  end.

Definition first_party_module_token (entry_path : string) (runtime : ImportRuntime) : string :=
  match cached_loaded_paths entry_path runtime with
  | None => stat_token entry_path
  | Some module_paths =>
      join "," (sort String.compare
        ((λ path, slashes path +:+ "=" +:+ stat_token path) <$>
          filter (λ path, path_has_node_modules_segment path = false) module_paths))
  end.

Definition resolved_import_token (request : ImportRequest) (resolved : ResolvedPackage) : string :=
  let key := cache_key_for_resolved_import CARGO_PKG_VERSION windows request resolved in
  let manifest_token := stat_token (path_join (rp_package_root resolved) "package.json") in
  let content_token :=
    if path_has_node_modules_segment (rp_entry_path resolved) then stat_token (rp_entry_path resolved)
    else first_party_module_token (rp_entry_path resolved) (rq_runtime request) in
  key +:+ "|" +:+ content_token +:+ "|" +:+ manifest_token.

(** [{:?}]. *)
Definition debug_runtime (r : ImportRuntime) : string :=
  match r with Component => "Component" | Client => "Client" | Server => "Server" end.
Definition debug_kind (k : ImportKind) : string :=
  match k with Named => "Named" | Default => "Default" | Namespace => "Namespace" | Dynamic => "Dynamic" end.

Definition import_token (import : SizedImport) : string :=
  match package import with
  | NotInstalled => "not_installed:" +:+ si_specifier import
  | PathAlias => "path_alias:" +:+ si_specifier import
  | Installed request =>
      match resolve request with
      | inl resolved => resolved_import_token request resolved
      | inr _ =>
          join ":" ["unresolved"; rq_package_name request; rq_specifier request; rq_version request;
                    debug_runtime (rq_runtime request); debug_kind (rq_import_kind request);
                    join "," (rq_named request)]
      end
  end.

Definition file_size_signature (cache_generation : N) (imports : list SizedImport) : N :=
  hash cache_generation (sort String.compare (import_token <$> imports)).

(** The order the imports are written in does not matter. *)
Lemma signature_unordered cache_generation imports imports' :
  imports ≡ₚ imports' →
  file_size_signature cache_generation imports = file_size_signature cache_generation imports'.
Proof. intros Hp. unfold file_size_signature. by rewrite (sort_unique String.compare _ _ (fmap_Permutation import_token _ _ Hp)). Qed.

(** Nor does what an import measured to: only its request counts. *)
Lemma signature_ignores_results cache_generation imports :
  file_size_signature cache_generation imports =
  file_size_signature cache_generation
    ((λ i, {| package := package i; si_specifier := si_specifier i; result := None |}) <$> imports).
Proof.
  unfold file_size_signature. do 2 f_equal. rewrite <- list_fmap_compose. by apply list_fmap_ext.
Qed.

(** Installing a package that was missing moves the tokens: an import without a request
    never shares one with an import that resolves. *)
Lemma installing_moves_the_token request resolved spec :
  import_token (not_installed spec) ≠ resolved_import_token request resolved ∧
  import_token (path_alias spec) ≠ resolved_import_token request resolved.
Proof.
  split; intros Heq; apply (f_equal (String.get 0)) in Heq;
    [change (Some "n"%char = Some "v"%char) in Heq|change (Some "p"%char = Some "v"%char) in Heq]; done.
Qed.
End signature.

(** ** Witness *)

Definition one_total : FileSizeComputation := empty_computation.
Definition one_use : list use := [Insert 100 "/p/a.ts" 7 one_total].
Lemma served_totals_are_current_witness :
  (get_total (CH := length_hash) (FS := one_file "/p/a.ts" {| md_len := 1; md_modified := None |} []) 200 "/p/a.ts" 7
    (uses (MO := list_order) (CH := length_hash) one_use)).1 = Some one_total ∧
  may_enter_aggregate_cache one_total = true.
Proof.
  split; [by vm_compute|].
  apply (served_totals_are_current (MO := list_order) (CH := length_hash) one_use
    (FS := one_file "/p/a.ts" {| md_len := 1; md_modified := None |} []) 200 "/p/a.ts" 7 one_total).
  by vm_compute.
Defined.
