(* ===== verification/Paths.v ===== *)
(** * Paths ([std::path] on Unix)

    A path is its string; equality, prefixes and parents go through its
    components, as [Path]'s own operations do: repeated separators, inner [.]
    components and a trailing separator do not count. *)
From stdpp Require Import base list strings.
From S2P Require Import Prelude ProjectRegistry.

Set Default Proof Using "Type*".

(** ** Components *)

Inductive PathComponent := RootDir | CurDir | ParentDir | Normal (name : list ascii).
#[export] Instance PathComponent_eq_dec : EqDecision PathComponent.
Proof. solve_decision. Defined.

Definition slash : ascii := "/".
Definition dot : list ascii := ["."%char].
Definition dotdot : list ascii := ["."%char; "."%char].

(** A segment between separators, past the first one. *)
Definition part (seg : list ascii) : option PathComponent :=
  if decide (seg = []) then None
  else if decide (seg = dot) then None
  else if decide (seg = dotdot) then Some ParentDir
  else Some (Normal seg).

(** What the head of the path contributes: a root, or the [.] of [./a]. *)
Definition lead (path : list ascii) : list PathComponent :=
  if starts_with [slash] path then [RootDir]
  else if decide (head (split_on slash path) = Some dot) then [CurDir] else [].

Definition components_of (path : list ascii) : list PathComponent :=
  lead path ++ omap part (split_on slash path).
Definition components (path : string) : list PathComponent := components_of (to_bytes path).

(** [Path]'s equality. *)
Definition path_eqb (a b : string) : bool := bool_decide (components a = components b).

Definition component_str (c : PathComponent) : string :=
  match c with
  | RootDir => "/"
  | CurDir => "."
  | ParentDir => ".."
  | Normal name => of_bytes name
  end.

Fixpoint join_with (sep : string) (l : list string) : string :=
  match l with
  | [] => ""
  | [s] => s
  | s :: l => s +:+ sep +:+ join_with sep l
  end.

(** The path that has these components. *)
Definition render (cs : list PathComponent) : string :=
  match cs with
  | RootDir :: rest => "/" +:+ join_with "/" (component_str <$> rest)
  | _ => join_with "/" (component_str <$> cs)
  end.

(** ** Operations *)

(** [Path::join]: an absolute path replaces, a relative one is appended. *)
Definition path_push (base child : string) : string :=
  if starts_with [slash] (to_bytes child) then child else path_join base child.

(** [Path::parent]: [None] at the root and for the empty path. *)
Definition path_parent (path : string) : option string :=
  match reverse (components path) with
  | [] => None
  | RootDir :: _ => None
  | _ :: rest => Some (render (reverse rest))
  end.

(** [Path::ancestors]: the path, its parent, and so on; a path has at most one
    ancestor more than it has components. *)
Fixpoint ancestors_from (fuel : nat) (path : string) : list string :=
  path :: match fuel with
          | 0 => []
          | S fuel => match path_parent path with
                      | Some up => ancestors_from fuel up
                      | None => []
                      end
          end.
Definition ancestors (path : string) : list string :=
  ancestors_from (length (components path)) path.

(** [Path::file_name]. *)
Definition path_file_name (path : string) : option (list ascii) :=
  match last (components path) with Some (Normal name) => Some name | _ => None end.

(** [Path::with_file_name]. *)
Definition with_file_name (path name : string) : string :=
  match path_file_name path, path_parent path with
  | Some _, Some parent => path_push parent name
  | _, _ => path_push path name
  end.

(** [Path::extension]: what follows the last dot, when something precedes it.
    [rsplit] is the part after the last dot and the part before it. *)
Fixpoint rsplit_dot (l : list ascii) : option (list ascii * list ascii) :=
  match l with
  | [] => None
  | c :: rest =>
      match rsplit_dot rest with
      | Some (before, after) => Some (c :: before, after)
      | None => if decide (c = "."%char) then Some ([], rest) else None
      end
  end.
Definition path_extension (path : string) : option string :=
  name ← path_file_name path;
  '(before, after) ← rsplit_dot name;
  if decide (before = []) then None else Some (of_bytes after).

Fixpoint strip_components (prefix cs : list PathComponent) : option (list PathComponent) :=
  match prefix, cs with
  | [], _ => Some cs
  | a :: prefix, b :: cs => if decide (a = b) then strip_components prefix cs else None
  | _ :: _, [] => None
  end.
Definition path_starts_with (path base : string) : bool :=
  bool_decide (is_Some (strip_components (components base) (components path))).

(** [components().any(|c| c.as_os_str() == name)]. *)
Definition has_component (name path : string) : bool :=
  existsb (λ c, bool_decide (component_str c = name)) (components path).

Definition path_is_absolute (path : string) : bool := starts_with [slash] (to_bytes path).

(** [Path]'s order: component by component, in the order of the variants. *)
Definition component_rank (c : PathComponent) : N :=
  match c with RootDir => 0 | CurDir => 1 | ParentDir => 2 | Normal _ => 3 end.
Definition component_cmp (a b : PathComponent) : comparison :=
  match a, b with
  | Normal x, Normal y => String.compare (of_bytes x) (of_bytes y)
  | _, _ => N.compare (component_rank a) (component_rank b)
  end.
Fixpoint components_cmp (a b : list PathComponent) : comparison :=
  match a, b with
  | [], [] => Eq
  | [], _ :: _ => Lt
  | _ :: _, [] => Gt
  | x :: a, y :: b => then_with (component_cmp x y) (components_cmp a b)
  end.
Definition path_cmp (a b : string) : comparison := components_cmp (components a) (components b).

(** [append_extension]: text added to the path as it is spelled. *)
Definition append_extension (candidate extension : string) : string :=
  candidate +:+ "." +:+ extension.

(** ** Segments *)

Lemma split_on_ne c l : split_on c l ≠ [].
Proof. destruct l as [|a l]; cbn; [done|]. destruct (split_on c l); [done|]. by case_decide. Qed.

Lemma split_on_cons c a l : ∃ s ss, split_on c l = s :: ss ∧
  split_on c (a :: l) = if decide (a = c) then [] :: s :: ss else (a :: s) :: ss.
Proof.
  pose proof (split_on_ne c l). cbn. destruct (split_on c l) as [|s ss]; [done|]. by exists s, ss.
Qed.

Lemma split_on_app c l l' : split_on c (l ++ c :: l') = split_on c l ++ split_on c l'.
Proof.
  induction l as [|a l IH].
  - pose proof (split_on_ne c l'). cbn. destruct (split_on c l'); [done|]. by rewrite decide_True.
  - cbn [app]. destruct (split_on_cons c a (l ++ c :: l')) as (s & ss & Hs & ->).
    destruct (split_on_cons c a l) as (t & ts & Ht & ->).
    rewrite IH, Ht in Hs. cbn in Hs. simplify_eq. by case_decide.
Qed.

Lemma split_on_slash_cons l : split_on slash (slash :: l) = [] :: split_on slash l.
Proof. apply (split_on_app slash [] l). Qed.

Lemma split_on_none c l : c ∉ l → split_on c l = [l].
Proof.
  induction l as [|a l IH]; cbn; [done|]. intros Hc. apply not_elem_of_cons in Hc as [Ha Hl].
  rewrite (IH Hl). by rewrite decide_False by congruence.
Qed.

Lemma split_on_clean c l : Forall (λ s, c ∉ s) (split_on c l).
Proof.
  induction l as [|a l IH]; [cbn; repeat constructor; set_solver|].
  destruct (split_on_cons c a l) as (s & ss & Hs & ->). rewrite Hs in IH.
  inversion IH; subst. case_decide; repeat constructor; try done; set_solver.
Qed.

(** ** The shape of a component list *)

Definition plain (name : list ascii) : Prop :=
  name ≠ [] ∧ name ≠ dot ∧ name ≠ dotdot ∧ slash ∉ name.
Definition inner (c : PathComponent) : Prop :=
  match c with ParentDir => True | Normal name => plain name | _ => False end.
Definition shaped (cs : list PathComponent) : Prop :=
  match cs with
  | RootDir :: rest | CurDir :: rest => Forall inner rest
  | _ => Forall inner cs
  end.

Lemma omap_part_inner segs : Forall (λ s, slash ∉ s) segs → Forall inner (omap part segs).
Proof.
  induction 1 as [|s segs Hs _ IH]; cbn; [constructor|].
  unfold part. repeat case_decide; cbn; [done..| |]; constructor; by repeat split.
Qed.

Lemma components_of_shaped l : shaped (components_of l).
Proof.
  pose proof (omap_part_inner _ (split_on_clean slash l)) as Hi.
  unfold components_of, lead. destruct (starts_with _ l); [done|]. case_decide; [done|]. cbn.
  destruct (omap part _) as [|c cs]; [done|]. by inversion Hi; subst; destruct c.
Qed.
Lemma components_shaped s : shaped (components s).
Proof. apply components_of_shaped. Qed.

Lemma part_name c : inner c → part (to_bytes (component_str c)) = Some c.
Proof.
  destruct c as [| | |n]; cbn; try done. intros (H1 & H2 & H3 & _).
  rewrite to_of_bytes. unfold part. by rewrite !decide_False.
Qed.
Lemma slash_not_in_name c : inner c → slash ∉ to_bytes (component_str c).
Proof.
  destruct c as [| | |n]; cbn; [done|done| |]; [intros _; set_solver|].
  intros (_ & _ & _ & H). by rewrite to_of_bytes.
Qed.

Lemma to_bytes_app s t : to_bytes (s +:+ t) = to_bytes s ++ to_bytes t.
Proof. unfold to_bytes. induction s as [|a s IH]; [done|].
  change (a :: String.list_ascii_of_string (s +:+ t) =
          a :: (String.list_ascii_of_string s ++ String.list_ascii_of_string t)). by f_equal.
Qed.

(** Joining names with separators and splitting them again. *)
Lemma split_join_names c cs :
  Forall inner (c :: cs) →
  split_on slash (to_bytes (join_with "/" (component_str <$> c :: cs))) =
  (to_bytes ∘ component_str) <$> c :: cs.
Proof.
  revert c. induction cs as [|d cs IH]; intros c Hi; inversion Hi as [|?? Hc Hcs]; subst.
  - cbn. by apply split_on_none, slash_not_in_name.
  - change (join_with "/" (component_str <$> c :: d :: cs))
      with (component_str c +:+ "/" +:+ join_with "/" (component_str <$> d :: cs)).
    rewrite !to_bytes_app. cbn [to_bytes String.list_ascii_of_string app].
    change "/"%char with slash. rewrite split_on_app, split_on_none by by apply slash_not_in_name.
    unfold to_bytes in IH. rewrite IH by done. done.
Qed.

Lemma omap_part_names cs : Forall inner cs → omap part ((to_bytes ∘ component_str) <$> cs) = cs.
Proof.
  induction 1 as [|c cs Hc _ IH]; [done|].
  rewrite fmap_cons. cbn [omap list_omap compose]. rewrite part_name by done. by rewrite IH.
Qed.

Lemma starts_with_slash l : starts_with [slash] l = bool_decide (head l = Some slash).
Proof.
  unfold starts_with. destruct l as [|a l]; [done|]. cbn.
  by repeat case_decide; case_bool_decide; simplify_eq.
Qed.

Lemma name_head c : inner c → head (to_bytes (component_str c)) ≠ Some slash.
Proof.
  intros Hc. pose proof (slash_not_in_name c Hc) as Hn.
  destruct (to_bytes _) as [|a l]; [done|]. cbn. intros [= ->]. set_solver.
Qed.
Lemma name_nonempty c : inner c → to_bytes (component_str c) ≠ [].
Proof. intros Hc He. pose proof (part_name c Hc) as Hp. by rewrite He in Hp. Qed.

Lemma names_head c cs :
  Forall inner (c :: cs) → head (to_bytes (join_with "/" (component_str <$> c :: cs))) ≠ Some slash.
Proof.
  intros Hi. inversion Hi as [|?? Hc Hcs]; subst.
  destruct cs as [|d cs]; [by apply name_head|].
  change (join_with "/" (component_str <$> c :: d :: cs))
    with (component_str c +:+ "/" +:+ join_with "/" (component_str <$> d :: cs)).
  rewrite to_bytes_app. pose proof (name_head c Hc). pose proof (name_nonempty c Hc).
  by destruct (to_bytes (component_str c)).
Qed.

Lemma components_names cs :
  Forall inner cs → components (join_with "/" (component_str <$> cs)) = cs.
Proof.
  destruct cs as [|c cs]; [done|]. intros Hi. unfold components, components_of, lead.
  rewrite starts_with_slash, bool_decide_eq_false_2 by by apply names_head.
  rewrite split_join_names by done. inversion Hi; subst.
  rewrite decide_False; [by apply omap_part_names|].
  cbn. intros [= He]. pose proof (part_name c ltac:(done)) as Hp. by rewrite He in Hp.
Qed.

Lemma components_of_rooted l :
  components_of (slash :: l) = RootDir :: omap part (split_on slash l).
Proof.
  unfold components_of, lead. by rewrite starts_with_slash, bool_decide_eq_true_2, split_on_slash_cons.
Qed.

(** A path is determined by its components. *)
Lemma components_render cs : shaped cs → components (render cs) = cs.
Proof.
  destruct cs as [|c cs]; [done|]. destruct c; cbn [shaped render].
  - intros Hi. change (components_of (slash :: to_bytes (join_with "/" (component_str <$> cs))) = RootDir :: cs).
    rewrite components_of_rooted. f_equal. destruct cs as [|d cs]; [done|].
    rewrite split_join_names by done. by apply (omap_part_names (d :: cs)).
  - intros Hi. destruct cs as [|d cs]; [done|].
    change (join_with "/" (component_str <$> CurDir :: d :: cs))
      with ("." +:+ "/" +:+ join_with "/" (component_str <$> d :: cs)).
    change (components_of (dot ++ slash :: to_bytes (join_with "/" (component_str <$> d :: cs))) =
            CurDir :: d :: cs).
    unfold components_of, lead. rewrite starts_with_slash, bool_decide_eq_false_2 by done.
    rewrite split_on_app, (split_on_none slash dot) by by vm_compute; set_solver.
    rewrite decide_True by done. cbn [app]. f_equal. rewrite split_join_names by done.
    by apply (omap_part_names (d :: cs)).
  - intros. by apply components_names.
  - intros. by apply components_names.
Qed.

(** ** Joining *)

Lemma omap_empty_segment : omap part (split_on slash []) = [].
Proof. reflexivity. Qed.

Lemma head_split_app l r : head (split_on slash (l ++ slash :: r)) = head (split_on slash l).
Proof.
  rewrite split_on_app. pose proof (split_on_ne slash l). by destruct (split_on slash l).
Qed.

Lemma components_of_app l r :
  components_of (l ++ slash :: r) = components_of (l ++ [slash]) ++ omap part (split_on slash r).
Proof.
  unfold components_of, lead. rewrite !starts_with_slash, !head_split_app, !split_on_app, !omap_app.
  rewrite !(assoc_L (++)). rewrite omap_empty_segment. cbn [app]. rewrite ?(right_id_L [] (++)).
  by destruct l.
Qed.

Lemma components_of_trailing l : l ≠ [] → components_of (l ++ [slash]) = components_of l.
Proof.
  intros Hl. unfold components_of, lead. rewrite !starts_with_slash, head_split_app, split_on_app, omap_app.
  rewrite omap_empty_segment. cbn [app]. rewrite ?(right_id_L [] (++)). by destruct l.
Qed.

Definition tail_components (child : string) : list PathComponent :=
  omap part (split_on slash (to_bytes child)).

(** Joining a relative path appends its components. *)
Lemma components_push base child :
  base ≠ "" → path_is_absolute child = false →
  components (path_push base child) = components base ++ tail_components child.
Proof.
  intros Hb Hc. unfold path_push. unfold path_is_absolute in Hc. rewrite Hc. unfold path_join.
  assert (to_bytes base ≠ []) as Hb' by (destruct base; done).
  destruct (reverse (to_bytes base)) as [|c r] eqn:Hr.
  { apply (f_equal reverse) in Hr. by rewrite reverse_involutive in Hr. }
  apply (f_equal reverse) in Hr. rewrite reverse_involutive, reverse_cons in Hr.
  unfold components, tail_components. case_decide as Hs.
  - subst c. rewrite to_bytes_app, Hr, <- (assoc_L (++)). cbn [app]. apply components_of_app.
  - rewrite !to_bytes_app. change (to_bytes "/" ++ to_bytes child) with (slash :: to_bytes child).
    by rewrite components_of_app, components_of_trailing.
Qed.

Lemma push_relative base child :
  path_is_absolute child = false → path_push base child = path_join base child.
Proof. unfold path_push, path_is_absolute. by intros ->. Qed.

Lemma path_join_ne base child : child ≠ "" → path_join base child ≠ "".
Proof.
  intros Hc. unfold path_join. destruct (reverse _); [done|].
  case_decide; intros He; apply (f_equal to_bytes) in He; rewrite !to_bytes_app in He;
    apply (f_equal length) in He; rewrite !length_app in He; destruct child; cbn in He; lia || by destruct (Hc eq_refl).
Qed.
Lemma path_push_ne base child : child ≠ "" → path_push base child ≠ "".
Proof. intros Hc. unfold path_push. case_match; [done|by apply path_join_ne]. Qed.

(** ** Parents and ancestors *)

Lemma shaped_app_l cs ds : shaped (cs ++ ds) → shaped cs.
Proof.
  destruct cs as [|c cs]; [constructor|]. cbn.
  destruct c; rewrite ?Forall_cons, Forall_app; intros; explode; try done; by constructor.
Qed.

Lemma path_parent_Some path up :
  path_parent path = Some up → ∃ c, components path = components up ++ [c].
Proof.
  unfold path_parent. destruct (reverse (components path)) as [|c rest] eqn:Hr; [done|].
  apply (f_equal reverse) in Hr. rewrite reverse_involutive, reverse_cons in Hr.
  intros H. exists c. enough (components up = reverse rest) as -> by done.
  pose proof (components_shaped path) as Hs. rewrite Hr in Hs. apply shaped_app_l in Hs.
  destruct c; simplify_eq; by apply components_render.
Qed.

Lemma path_parent_shorter path up :
  path_parent path = Some up → length (components path) = S (length (components up)).
Proof. intros [c ->]%path_parent_Some. rewrite length_app. cbn. lia. Qed.

Lemma ancestors_from_enough n path :
  length (components path) ≤ n → ancestors_from n path = ancestors path.
Proof.
  unfold ancestors. remember (length (components path)) as m eqn:Hm.
  revert n path Hm. induction m as [|m IH]; intros n path Hm Hn.
  - assert (path_parent path = None) as Hp.
    { destruct (path_parent path) eqn:Hp; [|done]. apply path_parent_shorter in Hp. lia. }
    destruct n; cbn; [done|]. by rewrite Hp.
  - destruct n as [|n]; [lia|]. cbn. destruct (path_parent path) as [up|] eqn:Hp; [|done].
    apply path_parent_shorter in Hp. f_equal. apply IH; lia.
Qed.

(** The equation of [ancestors]. *)
Lemma ancestors_unfold path :
  ancestors path = path :: match path_parent path with Some up => ancestors up | None => [] end.
Proof.
  rewrite <- (ancestors_from_enough (S (length (components path)))) by lia. cbn. f_equal.
  destruct (path_parent path) as [up|] eqn:Hp; [|done].
  apply path_parent_shorter in Hp. apply ancestors_from_enough. lia.
Qed.

(** Every ancestor is a prefix of the path, the next one shorter by one. *)
Lemma ancestors_prefix path a :
  a ∈ ancestors path → components a `prefix_of` components path.
Proof.
  remember (length (components path)) as n eqn:Hn. revert path Hn.
  induction n as [n IH] using lt_wf_ind. intros path Hn. rewrite ancestors_unfold.
  intros [->|Ha]%elem_of_cons; [done|].
  destruct (path_parent path) as [up|] eqn:Hp; [|by apply elem_of_nil in Ha].
  pose proof (path_parent_shorter _ _ Hp). apply path_parent_Some in Hp as [c ->].
  etrans; [eapply (IH (length (components up))); [lia|done|done]|by eexists].
Qed.

Lemma strip_components_Some p l r : strip_components p l = Some r ↔ l = p ++ r.
Proof.
  split; [|intros ->; induction p; cbn; [done|by rewrite decide_True]].
  revert l. induction p as [|a p IH]; intros [|b l]; cbn; intros H; simplify_eq; [done..|].
  case_decide; [|done]. subst. f_equal. by apply IH.
Qed.

(** [starts_with] is the prefix order on components. *)
Lemma path_starts_with_spec path base :
  path_starts_with path base = true ↔ components base `prefix_of` components path.
Proof.
  unfold path_starts_with. rewrite bool_decide_eq_true. unfold is_Some, prefix.
  by setoid_rewrite strip_components_Some.
Qed.

(** ** File names *)

Lemma plain_component name : plain name → components_of name = [Normal name].
Proof.
  intros Hp. pose proof Hp as (H1 & H2 & H3 & H4). unfold components_of, lead.
  rewrite starts_with_slash, split_on_none by done. cbn.
  rewrite bool_decide_eq_false_2 by (destruct name; [done|]; intros [= ->]; set_solver).
  rewrite decide_False by (by intros [= ?]). cbn. unfold part. by rewrite !decide_False.
Qed.
Lemma plain_tail name : plain name → tail_components (of_bytes name) = [Normal name].
Proof.
  intros (H1 & H2 & H3 & H4). unfold tail_components. rewrite to_of_bytes, split_on_none by done. cbn.
  unfold part. by rewrite !decide_False.
Qed.
Lemma plain_relative name : plain name → path_is_absolute (of_bytes name) = false.
Proof.
  intros (H1 & _ & _ & H4). unfold path_is_absolute. rewrite to_of_bytes, starts_with_slash.
  apply bool_decide_eq_false_2. destruct name; [done|]. intros [= ->]. set_solver.
Qed.

Lemma file_name_parent path name :
  path_file_name path = Some name →
  ∃ up, path_parent path = Some up ∧ components path = components up ++ [Normal name] ∧ plain name.
Proof.
  intros H. assert (is_Some (path_parent path)) as [up Hup].
  { unfold path_file_name in H. unfold path_parent. destruct (components path) as [|c l _] using rev_ind; [done|].
    rewrite last_snoc in H. rewrite reverse_snoc. destruct c; by eauto. }
  exists up. split; [done|]. destruct (path_parent_Some _ _ Hup) as [c Hc]. unfold path_file_name in H.
  rewrite Hc, last_snoc in H. destruct c as [| | |name']; [done..|]. injection H as ->. split; [done|].
  pose proof (components_shaped path) as Hs. rewrite Hc in Hs. clear -Hs.
  destruct (components up) as [|d cs]; cbn in Hs; [by inversion Hs|].
  destruct d; rewrite ?Forall_cons, Forall_app, Forall_singleton in Hs; by destruct_and?.
Qed.
Lemma with_file_name_components path name name' :
  path_file_name path = Some name → plain name' →
  ∃ up, components path = up ++ [Normal name] ∧ components (with_file_name path (of_bytes name')) = up ++ [Normal name'].
Proof.
  intros H Hp. destruct (file_name_parent _ _ H) as (up & Hup & Hc & _). exists (components up). split; [done|].
  unfold with_file_name. rewrite H, Hup. destruct (decide (up = "")) as [->|Hne].
  - unfold path_push. rewrite (plain_relative _ Hp : starts_with _ _ = _).
    change (components_of (to_bytes (of_bytes name')) = [Normal name']). rewrite to_of_bytes. by apply plain_component.
  - rewrite components_push by (try apply plain_relative; done). by rewrite plain_tail.
Qed.
