(* ===== verification/Manifests.v ===== *)
(** * Package manifests (pipeline/resolver.rs, pipeline/native_binary.rs)

    What the daemon reads in a [package.json]: the side-effects declaration, the
    format of the resolved entry, and the native-binary convention. The JSON
    parser, the glob matcher and the file system are parameters. *)
From stdpp Require Import base list strings.
From S2P Require Import Prelude Json Stages Results ProjectRegistry Paths.

Set Default Proof Using "Type*".

(** [Value::get] and the string a key holds. *)
Definition get (v : Value) (key : string) : option Value := value_get key v.
Definition get_str (v : Value) (key : string) : option string := str_at key v.

(** ** The file system, as the resolver asks it

    Errors carry the text they are displayed with. *)
Class Files := {
  is_file : string → bool;
  is_dir : string → bool;
  exists_path : string → bool;
  canonicalize : string → string + string;
  read_to_string : string → string + string;
  read_dir_names : string → option (list string);
  file_len : string → option N;
}.

(** [serde_json::from_str] and [fast_glob::glob_match]; [relative_path] is
    [rolldown_common::ModuleId::relative_path]. *)
Class ManifestLibraries := {
  from_str : string → Value + string;
  glob_match : string → string → bool;
  relative_path : string → string → string;
}.

Definition ok {A E} (r : A + E) : option A := match r with inl a => Some a | inr _ => None end.

Record PackageManifest := { root : string; json : Value }.

(** ** Candidates for an entry file *)

Definition file_candidates (candidate : string) : list string :=
  [candidate; append_extension candidate "js"; append_extension candidate "mjs";
   append_extension candidate "cjs"; path_push candidate "index.js";
   path_push candidate "index.mjs"; path_push candidate "index.cjs"].

Section manifests.
Context `{FL : Files, ML : ManifestLibraries}.

Definition normalize_existing_path (path : string) : string + string :=
  match canonicalize path with
  | inl real => inl real
  | inr error => inr ("failed to resolve path " +:+ path +:+ ": " +:+ error)
  end.

Definition resolve_file_candidate (candidate : string) : string + string :=
  match find (λ path, is_file path) (file_candidates candidate) with
  | Some path => inl path
  | None => inr ("package entry not found near " +:+ candidate +:+ "; " +:+
                 join_with "; " ((λ path, "candidate: " +:+ path) <$> file_candidates candidate))
  end.

Definition resolve_manifest_file_candidate (m : PackageManifest) (relative : string) : string + string :=
  match resolve_file_candidate (path_push (root m) relative) with
  | inl candidate => normalize_existing_path candidate
  | inr e => inr e
  end.

(** ** The side-effects declaration *)

Inductive SideEffectsMode := SeFalse | SeTrue | SeArray (entry_matches : bool) | SeMissing | SeUnknown.
Inductive SideEffectsKind := KindFalse | KindTrue | KindArray | KindMissing | KindUnknown.
Definition SideEffectsKind_ALL : list SideEffectsKind :=
  [KindFalse; KindTrue; KindArray; KindMissing; KindUnknown].
Definition side_effects_kind (m : SideEffectsMode) : SideEffectsKind :=
  match m with
  | SeFalse => KindFalse | SeTrue => KindTrue | SeArray _ => KindArray
  | SeMissing => KindMissing | SeUnknown => KindUnknown
  end.

Definition has_side_effects (m : SideEffectsMode) : bool :=
  match m with
  | SeFalse => false
  | SeTrue | SeMissing | SeUnknown => true
  | SeArray entry_matches => entry_matches
  end.

(** [str::trim_start_matches("./")]: every leading occurrence. *)
Fixpoint trim_dot_slash_bytes (l : list ascii) : list ascii :=
  match l with
  | "."%char :: ("/"%char :: rest) => trim_dot_slash_bytes rest
  | _ => l
  end.
Definition trim_dot_slash (s : string) : string := of_bytes (trim_dot_slash_bytes (to_bytes s)).

Definition contains_slash (s : string) : bool := existsb (λ c, bool_decide (c = slash)) (to_bytes s).
Definition escape_bang (pattern : string) : string :=
  if starts_with ["!"%char] (to_bytes pattern) then "\" +:+ pattern else pattern.
Definition normalized_pattern (pattern : string) : string :=
  let trimmed := trim_dot_slash pattern in
  let normalized :=
    if negb (String.length trimmed =? String.length pattern)%nat || negb (contains_slash trimmed)
    then "**/" +:+ trimmed else trimmed in
  escape_bang normalized.
Definition side_effects_pattern_matches (pattern path : string) : bool :=
  glob_match (normalized_pattern pattern) (trim_dot_slash path).

(** [Path::strip_prefix], then the names of what is left joined with [/]. *)
Definition normalized_side_effect_path (package_root entry_path : string) : option string :=
  rt ← ok (canonicalize package_root);
  entry ← ok (canonicalize entry_path);
  let relative :=
    match strip_components (components rt) (components entry) with
    | Some inside => inside
    | None => components (relative_path entry rt)
    end in
  let joined := join_with "/" (component_str <$> relative) in
  if decide (joined = "") then None else Some joined.

Definition side_effects_array_mode (patterns : list Value) (package_root entry_path : string) :
    SideEffectsMode :=
  match normalized_side_effect_path package_root entry_path with
  | None => SeUnknown
  | Some entry => SeArray (existsb (λ p, side_effects_pattern_matches p entry) (omap as_str patterns))
  end.

Definition side_effects_mode (package_json : Value) (package_root entry_path : string) : SideEffectsMode :=
  match get package_json "sideEffects" with
  | Some (Bool false) => SeFalse
  | Some (Bool true) => SeTrue
  | Some (Array patterns) => side_effects_array_mode patterns package_root entry_path
  | Some (String_ s) => side_effects_array_mode [String_ s] package_root entry_path
  | Some _ => SeUnknown
  | None => SeMissing
  end.

(** ** The format of the resolved entry *)

Definition package_type (package_json : Value) : option string := get_str package_json "type".

(** [resolve_manifest_file_candidate(..).is_ok_and(|candidate| candidate == entry)]. *)
Definition names_entry (m : PackageManifest) (entry_path relative : string) : bool :=
  match resolve_manifest_file_candidate m relative with
  | inl candidate => path_eqb candidate entry_path
  | inr _ => false
  end.

Definition entry_matches_manifest_esm_field (m : PackageManifest) (entry_path : string) : bool :=
  existsb (names_entry m entry_path) (omap (get_str (json m)) ["module"; "browser"]).

Definition entry_matches_manifest_main_field (m : PackageManifest) (entry_path : string) : bool :=
  match get_str (json m) "main" with Some relative => names_entry m entry_path relative | None => false end.

Fixpoint exports_target_points_to_entry (m : PackageManifest) (entry_path : string) (v : Value) : bool :=
  match v with
  | String_ target => names_entry m entry_path target
  | Array items => existsb (λ item, exports_target_points_to_entry m entry_path item) items
  | Object map => existsb (λ kv, exports_target_points_to_entry m entry_path kv.2) map
  | _ => false
  end.

Fixpoint exports_condition_points_to_entry (m : PackageManifest) (entry_path : string)
    (conditions : list string) (v : Value) : bool :=
  match v with
  | Object map =>
      existsb (λ kv, (bool_decide (kv.1 ∈ conditions) && exports_target_points_to_entry m entry_path kv.2)
                     || exports_condition_points_to_entry m entry_path conditions kv.2) map
  | _ => false
  end.

Definition entry_matches_exports_condition (m : PackageManifest) (entry_path : string)
    (conditions : list string) : bool :=
  match get (json m) "exports" with
  | Some exports => exports_condition_points_to_entry m entry_path conditions exports
  | None => false
  end.

Definition resolved_entry_is_commonjs (m : PackageManifest) (entry_path : string)
    (resolver_is_cjs : bool) : bool :=
  match path_extension entry_path with
  | None => resolver_is_cjs
  | Some extension =>
      if decide (extension ∈ ["cjs"; "cts"]) then true
      else if decide (extension ∈ ["mjs"; "mts"]) then false
      else if decide (extension ∈ ["ts"; "tsx"; "jsx"; "json"]) then false
      else if entry_matches_manifest_esm_field m entry_path then false
      else if entry_matches_exports_condition m entry_path ["browser"; "import"] then false
      else if entry_matches_exports_condition m entry_path ["require"] then true
      else if decide (package_type (json m) = Some "module") then false
      else if decide (package_type (json m) = Some "commonjs") then true
      else resolver_is_cjs || entry_matches_manifest_main_field m entry_path || bool_decide (extension = "js")
  end.

Definition classify_resolved_entry (m : PackageManifest) (entry_path : string) (resolver_is_cjs : bool) :
    string * bool :=
  (entry_path, resolved_entry_is_commonjs m entry_path resolver_is_cjs).
End manifests.

(** ** Native-binary packages (pipeline/native_binary.rs) *)

Definition OS_TOKENS : list string :=
  ["win32"; "windows"; "darwin"; "linux"; "freebsd"; "openbsd"; "netbsd"; "dragonfly"; "sunos";
   "solaris"; "aix"; "android"; "openharmony"; "haiku"; "cygwin"; "wasi"].
Definition ARCH_TOKENS : list string :=
  ["x64"; "x86_64"; "amd64"; "arm64"; "aarch64"; "ia32"; "x86"; "arm"; "armv6"; "armv7"; "armv7l";
   "ppc"; "ppc64"; "ppc64le"; "s390"; "s390x"; "riscv64"; "loong64"; "loongarch64"; "mips"; "mipsel";
   "mips64"; "mips64el"; "wasm32"; "universal"].
Definition LIBC_TOKENS : list string :=
  ["musl"; "gnu"; "gnueabi"; "gnueabihf"; "eabi"; "eabihf"; "glibc"; "msvc"].

(** [rsplit('/').next()] and [split('-')]. *)
Definition dependency_tokens (dependency : string) : list string :=
  let tail := default (to_bytes dependency) (last (split_on slash (to_bytes dependency))) in
  of_bytes <$> split_on "-"%char tail.

(** The loop over the indices, on the tokens that are left. *)
Fixpoint platform_tail (tokens : list string) : bool :=
  match tokens with
  | os :: ((arch :: trailing) as rest) =>
      (bool_decide (os ∈ OS_TOKENS) && bool_decide (arch ∈ ARCH_TOKENS) &&
       match trailing with
       | [] => true
       | [libc] => bool_decide (libc ∈ LIBC_TOKENS)
       | _ => false
       end) || platform_tail rest
  | _ => false
  end.
Definition dependency_is_platform_native (dependency : string) : bool :=
  let tokens := dependency_tokens dependency in
  if (length tokens <? 2)%nat then false else platform_tail tokens.

Definition manifest_is_native_binary_backed (package_json : Value) : bool :=
  match get package_json "optionalDependencies" ≫= as_object with
  | Some optional => existsb (λ kv, dependency_is_platform_native kv.1) optional
  | None => false
  end.

Definition manifest_declares_no_js_entry (package_json : Value) : bool :=
  negb (existsb (λ field, bool_decide (is_Some (get package_json field)))
          ["main"; "module"; "browser"; "exports"]).

Definition annotate_native_binary (r : ImportResult) (package_json : Value) : ImportResult :=
  if bool_decide (sizes r = None) || negb (manifest_is_native_binary_backed package_json) then r
  else push_diagnostic {| d_stage := stage.NATIVE_BINARY;
         d_message := "package is backed by a platform-specific native binary; the measured size is its JavaScript entry only";
         d_details := ["specifier: " +:+ specifier r] |} r.

(** ** The native convention, read from the end of the name *)

Definition platform_suffix (tokens : list string) : Prop :=
  ∃ before os arch libc, tokens = before ++ os :: arch :: libc ∧ os ∈ OS_TOKENS ∧ arch ∈ ARCH_TOKENS ∧
    (libc = [] ∨ ∃ l, libc = [l] ∧ l ∈ LIBC_TOKENS).

Lemma platform_suffix_cons t tokens :
  platform_suffix (t :: tokens) ↔
  (∃ arch libc, tokens = arch :: libc ∧ t ∈ OS_TOKENS ∧ arch ∈ ARCH_TOKENS ∧
     (libc = [] ∨ ∃ l, libc = [l] ∧ l ∈ LIBC_TOKENS)) ∨ platform_suffix tokens.
Proof.
  split.
  - intros ([|b before] & os & arch & libc & He & H); cbn in He; simplify_eq.
    + left. by exists arch, libc.
    + right. by exists before, os, arch, libc.
  - intros [(arch & libc & -> & H)|(before & os & arch & libc & -> & H)].
    + by exists [], t, arch, libc.
    + by exists (t :: before), os, arch, libc.
Qed.

Lemma platform_tail_spec tokens : platform_tail tokens = true ↔ platform_suffix tokens.
Proof.
  induction tokens as [|t [|a rest] IH].
  - split; [done|]. by intros ([] & os & arch & libc & He & _).
  - rewrite platform_suffix_cons, <- IH. split; [done|]. by intros [(? & ? & ? & _)|].
  - rewrite platform_suffix_cons, <- IH. change (platform_tail (t :: a :: rest)) with
      ((bool_decide (t ∈ OS_TOKENS) && bool_decide (a ∈ ARCH_TOKENS) &&
        match rest with [] => true | [libc] => bool_decide (libc ∈ LIBC_TOKENS) | _ => false end)
       || platform_tail (a :: rest)).
    rewrite orb_true_iff, !andb_true_iff, !bool_decide_eq_true.
    split; (intros [H|H]; [left|by right]).
    + destruct H as [[Ht Ha] Hr]. exists a, rest. split_and!; [done..|].
      destruct rest as [|l [|]]; [by left| |done]. right. exists l.
      by apply bool_decide_eq_true in Hr.
    + destruct H as (arch & libc & He & Ht & Ha & Hl). simplify_eq. split; [done|].
      destruct Hl as [->|(l & -> & Hl)]; [done|]. by apply bool_decide_eq_true.
Qed.

(** A dependency counts as a platform binary exactly when the last segment
    of its name ends in an operating system and an architecture, with at most
    one libc or ABI token after them: the scan over positions decides that, and
    the guard on the number of segments rejects nothing else. *)
Theorem platform_native_is_a_suffix dependency :
  dependency_is_platform_native dependency = true ↔ platform_suffix (dependency_tokens dependency).
Proof.
  unfold dependency_is_platform_native. destruct (Nat.ltb_spec (length (dependency_tokens dependency)) 2) as [Hl|Hl].
  - split; [done|]. intros (before & os & arch & libc & He & _). rewrite He, length_app in Hl. cbn in Hl. lia.
  - apply platform_tail_spec.
Qed.

(** ** What the exports walk finds *)

Section exports.
Context `{FL : Files, ML : ManifestLibraries}.

(** [target v s]: [s] is one of the strings below [v]. *)
Inductive target : Value → string → Prop :=
  | target_str s : target (String_ s) s
  | target_item items v s : v ∈ items → target v s → target (Array items) s
  | target_entry map k v s : (k, v) ∈ map → target v s → target (Object map) s.

(** [under conditions v s]: [s] is below one of the conditions, through nested
    objects only. *)
Inductive under (conditions : list string) : Value → string → Prop :=
  | under_here map k v s : (k, v) ∈ map → k ∈ conditions → target v s → under conditions (Object map) s
  | under_deeper map k v s : (k, v) ∈ map → under conditions v s → under conditions (Object map) s.

Lemma existsb_elem {A} (f : A → bool) l : existsb f l = true ↔ ∃ x, x ∈ l ∧ f x = true.
Proof. rewrite existsb_exists. by setoid_rewrite <- list_elem_of_In. Qed.

Lemma exports_target_spec m entry v :
  exports_target_points_to_entry m entry v = true ↔
  ∃ s, target v s ∧ names_entry m entry s = true.
Proof.
  induction v as [| | |s|items IH|map IH] using value_rect; cbn;
    try (split; [done|]; by intros (s & Ht & _); inversion Ht).
  - split; [intros H; exists s; by repeat constructor|]. intros (s' & Ht & H). by inversion Ht; subst.
  - rewrite existsb_elem. rewrite Forall_forall in IH. split.
    + intros (v & Hv & H). apply IH in H as (s & Ht & H); [|done]. exists s. split; [by econstructor|done].
    + intros (s & Ht & H). inversion Ht; subst. exists v. split; [done|]. apply IH; [done|]. by exists s.
  - rewrite existsb_elem. rewrite Forall_forall in IH. split.
    + intros ([k v] & Hv & H). apply (IH (k, v)) in H as (s & Ht & H); [|done].
      exists s. split; [by econstructor|done].
    + intros (s & Ht & H). inversion Ht; subst. exists (k, v). split; [done|].
      apply (IH (k, v)); [done|]. by exists s.
Qed.

Lemma exports_condition_spec m entry conditions v :
  exports_condition_points_to_entry m entry conditions v = true ↔
  ∃ s, under conditions v s ∧ names_entry m entry s = true.
Proof.
  induction v as [| | |s|items IH|map IH] using value_rect; cbn;
    try (split; [done|]; by intros (s' & Ht & _); inversion Ht).
  rewrite existsb_elem. rewrite Forall_forall in IH. split.
  - intros ([k v] & Hv & H). apply orb_true_iff in H as [H|H].
    + apply andb_true_iff in H as [Hk H]. apply bool_decide_eq_true in Hk.
      apply exports_target_spec in H as (s & Ht & H). exists s. split; [by eapply under_here|done].
    + apply (IH (k, v)) in H as (s & Ht & H); [|done]. exists s. split; [by eapply under_deeper|done].
  - intros (s & Hu & H). inversion Hu; subst; exists (k, v); (split; [done|]); apply orb_true_iff.
    + left. apply andb_true_iff. rewrite bool_decide_eq_true. split; [done|].
      apply exports_target_spec. by exists s.
    + right. apply (IH (k, v)); [done|]. by exists s.
Qed.

(** ** Format and side effects *)

(** The extensions whose format does not depend on what the resolver said. *)
Definition FORMAT_EXTENSIONS : list string :=
  ["cjs"; "cts"; "mjs"; "mts"; "ts"; "tsx"; "jsx"; "json"; "js"].

Lemma entry_format_is_settled m entry extension b b' :
  path_extension entry = Some extension → extension ∈ FORMAT_EXTENSIONS →
  resolved_entry_is_commonjs m entry b = resolved_entry_is_commonjs m entry b'.
Proof.
  intros He Hx. unfold resolved_entry_is_commonjs. rewrite He.
  destruct (decide (extension = "js")) as [->|Hjs].
  - rewrite (bool_decide_eq_true_2 ("js" = "js")) by done. by rewrite !orb_true_r.
  - repeat case_decide; try done.
    exfalso. unfold FORMAT_EXTENSIONS in Hx. set_solver.
Qed.

Lemma entry_format_monotone m entry :
  resolved_entry_is_commonjs m entry false = true → resolved_entry_is_commonjs m entry true = true.
Proof.
  unfold resolved_entry_is_commonjs. destruct (path_extension entry); [|done].
  repeat case_match; done.
Qed.

(** The pattern handed to the matcher never reads as a negation. *)
Lemma normalized_pattern_is_positive p :
  starts_with ["!"%char] (to_bytes (normalized_pattern p)) = false.
Proof.
  unfold normalized_pattern, escape_bang. case_match; [|done].
  rewrite to_bytes_app. done.
Qed.

(** The declaration, as patterns over the entry's own path. *)
Definition declared_patterns (v : Value) : option (list string) :=
  match get v "sideEffects" with
  | Some (Bool false) => Some []
  | Some (Array items) => Some (omap as_str items)
  | Some (String_ s) => Some [s]
  | _ => None
  end.

(** An import is free of side effects exactly when the manifest declares
    the boolean [false], or declares patterns (an array's strings, or one
    string) of which none matches the entry's path below the package's real
    root; a missing or malformed declaration, and an entry whose path cannot be
    canonicalized, are side-effectful. *)
Theorem side_effects_follow_the_declaration v package_root entry_path :
  has_side_effects (side_effects_mode v package_root entry_path) = false ↔
  ∃ patterns, declared_patterns v = Some patterns ∧
    (get v "sideEffects" = Some (Bool false) ∨
     ∃ path, normalized_side_effect_path package_root entry_path = Some path ∧
       ∀ p, p ∈ patterns → side_effects_pattern_matches p path = false).
Proof.
  assert (∀ ps patterns, omap as_str ps = patterns →
    has_side_effects (side_effects_array_mode ps package_root entry_path) = false ↔
    ∃ path, normalized_side_effect_path package_root entry_path = Some path ∧
       ∀ p, p ∈ patterns → side_effects_pattern_matches p path = false) as Harr.
  { intros ps _ <-. unfold side_effects_array_mode.
    destruct (normalized_side_effect_path package_root entry_path) as [path|]; cbn.
    - rewrite <- not_true_iff_false, existsb_elem. split.
      + intros H. exists path. split; [done|]. intros p Hp. apply not_true_iff_false.
        intros Hm. apply H. by exists p.
      + intros (q & [= <-] & H) (p & Hp & Hm). by rewrite (H p Hp) in Hm.
    - split; [done|]. by intros (q & ? & _). }
  unfold side_effects_mode, declared_patterns.
  destruct (get v "sideEffects") as [[|[]|n|s|items|map]|] eqn:Hg; cbn;
    try (split; [done|]; by intros (? & ? & _)).
  - split; [intros _; exists []; by split; [|left]|done].
  - rewrite (Harr [String_ s] [s]) by done. split.
    + intros H. exists [s]. split; [done|by right].
    + by intros (? & [= <-] & [|H]).
  - rewrite (Harr items (omap as_str items)) by done. split.
    + intros H. eexists. split; [done|by right].
    + by intros (? & [= <-] & [|H]).
Qed.
End exports.
