(* ===== verification/BundlerAliases.v ===== *)
(** * Bundler alias tables (pipeline/bundler_aliases.rs)

    The aliases a Vite, webpack or Rollup config spells out, read from its
    syntax tree without running it. The parser is a parameter: it hands over the
    fragment of the tree the reader looks at, with [process["cwd"]] spelled as
    the member access it is. *)
From stdpp Require Import base list strings sorting.
From S2P Require Import Prelude Json ProjectRegistry Paths Manifests.

Set Default Proof Using "Type*".

Definition BUNDLER_CONFIG_STEMS : list string := ["vite.config"; "webpack.config"; "rollup.config"].
Definition BUNDLER_CONFIG_EXTENSIONS : list string := ["js"; "mjs"; "cjs"; "ts"; "mts"; "cts"].
Definition MAX_CONFIG_BYTES : N := 262144.

(** ** The syntax tree

    [Wrapped] is what [get_inner_expression] sees through (parentheses and type
    assertions); [Opaque] is every other node, with the expressions below it in
    source order. A spread property, element or argument is [None] with its
    expression. *)
Inductive Expr :=
  | StringLiteral (value : string)
  | Template (single_quasi : option string) (parts : list Expr)
  | Identifier (name : string)
  | ImportMeta
  | StaticMember (object : Expr) (property : string)
  | ObjectExpr (properties : list (PropertyKind * Expr))
  | ArrayExpr (elements : list (bool * Expr))
  | CallExpr (callee : Expr) (arguments : list (bool * Expr))
  | NewExpr (callee : Expr) (arguments : list (bool * Expr))
  | Wrapped (inner : Expr)
  | Opaque (below : list Expr)
with PropertyKind :=
  | Property (computed : bool) (static_name : option string) (key_below : list Expr)
  | SpreadProperty.

(** [true] in an element or argument marks a spread. *)

Section expr_ind.
Context (P : Expr → Prop).
Definition below_kind (k : PropertyKind) : Prop :=
  match k with Property _ _ below => Forall P below | SpreadProperty => True end.
Context (HString : ∀ s, P (StringLiteral s)) (HTemplate : ∀ q l, Forall P l → P (Template q l))
        (HId : ∀ n, P (Identifier n)) (HMeta : P ImportMeta) (HMember : ∀ o p, P o → P (StaticMember o p))
        (HObject : ∀ l, Forall (λ p, below_kind p.1 ∧ P p.2) l → P (ObjectExpr l))
        (HArray : ∀ l, Forall (λ x, P x.2) l → P (ArrayExpr l))
        (HCall : ∀ c l, P c → Forall (λ x, P x.2) l → P (CallExpr c l))
        (HNew : ∀ c l, P c → Forall (λ x, P x.2) l → P (NewExpr c l))
        (HWrapped : ∀ e, P e → P (Wrapped e)) (HOpaque : ∀ l, Forall P l → P (Opaque l)).
Fixpoint expr_rect (e : Expr) : P e :=
  let fix all l : Forall P l :=
    match l with [] => Forall_nil_2 P | e :: l => Forall_cons_2 P e l (expr_rect e) (all l) end in
  let fix all_snd l : Forall (λ x : bool * Expr, P x.2) l :=
    match l with
    | [] => Forall_nil_2 _
    | x :: l => Forall_cons_2 (λ x, P x.2) x l (expr_rect x.2) (all_snd l)
    end in
  match e with
  | StringLiteral s => HString s
  | Template q l => HTemplate q l (all l)
  | Identifier n => HId n
  | ImportMeta => HMeta
  | StaticMember o p => HMember o p (expr_rect o)
  | ObjectExpr l =>
      HObject l ((fix go l : Forall (λ p, below_kind p.1 ∧ P p.2) l :=
        match l with
        | [] => Forall_nil_2 _
        | p :: l => Forall_cons_2 (λ p, below_kind p.1 ∧ P p.2) p l
            (conj match p.1 as k return below_kind k with
                  | Property _ _ below => all below
                  | SpreadProperty => I
                  end (expr_rect p.2)) (go l)
        end) l)
  | ArrayExpr l => HArray l (all_snd l)
  | CallExpr c l => HCall c l (expr_rect c) (all_snd l)
  | NewExpr c l => HNew c l (expr_rect c) (all_snd l)
  | Wrapped e => HWrapped e (expr_rect e)
  | Opaque l => HOpaque l (all l)
  end.
End expr_ind.

Fixpoint inner_expression (e : Expr) : Expr :=
  match e with Wrapped inner => inner_expression inner | _ => e end.

Definition is_specific_id (name : string) (e : Expr) : bool :=
  match inner_expression e with Identifier n => bool_decide (n = name) | _ => false end.

Definition property_value (properties : list (PropertyKind * Expr)) (name : string) : option Expr :=
  snd <$> find (λ p, match p.1 with
                     | Property false (Some key) _ => bool_decide (key = name)
                     | _ => false
                     end) properties.

(** [normalize]: [.] and [..] folded without the file system. *)
Definition normalize_step (normalized : string) (c : PathComponent) : string :=
  match c with
  | CurDir => normalized
  | ParentDir => default normalized (path_parent normalized)
  | c => path_push normalized (component_str c)
  end.
Definition normalize (path : string) : string := foldl normalize_step "" (components path).

Fixpoint trim_start (drop : list ascii) (l : list ascii) : list ascii :=
  match l with
  | c :: rest => if decide (c ∈ drop) then trim_start drop rest else l
  | [] => []
  end.
Definition trim_start_matches (drop : list ascii) (s : string) : string := of_bytes (trim_start drop (to_bytes s)).

(** [rsplit_once('.')] on the name. *)
Definition is_bundler_config_name (name : list ascii) : bool :=
  match rsplit_dot name with
  | Some (stem, extension) =>
      bool_decide (of_bytes stem ∈ BUNDLER_CONFIG_STEMS) &&
      bool_decide (of_bytes extension ∈ BUNDLER_CONFIG_EXTENSIONS)
  | None => false
  end.

Section reader.
Context `{FL : Files}.
Context (directory : string) (root_relative_slash : bool).

Definition is_config_directory (e : Expr) : bool :=
  match e with
  | Identifier name => bool_decide (name = "__dirname")
  | StaticMember ImportMeta property => bool_decide (property = "dirname")
  | CallExpr (StaticMember object property) [] =>
      is_specific_id "process" object && bool_decide (property = "cwd")
  | _ => false
  end.

Definition literal_path (text : string) : string :=
  let under_root := path_push directory (trim_start_matches [slash] text) in
  if root_relative_slash && path_is_absolute text && exists_path under_root
  then normalize under_root
  else normalize (path_push directory text).

Definition is_config_url (e : Expr) : bool :=
  match inner_expression e with
  | StaticMember ImportMeta property => bool_decide (property = "url")
  | _ => false
  end.

Definition url_path (e : Expr) : option string :=
  match inner_expression e with
  | NewExpr callee [(spread, relative); (spread_base, base)] =>
      if is_specific_id "URL" callee && negb spread then
        match inner_expression relative with
        | StringLiteral relative =>
            if negb spread_base && is_config_url base
            then Some (normalize (path_push directory relative)) else None
        | _ => None
        end
      else None
  | _ => None
  end.

(** The loop over the arguments of [resolve] and [join]. *)
Fixpoint join_arguments (joining : bool) (path : string) (arguments : list (bool * Expr)) : option string :=
  match arguments with
  | [] => Some (normalize path)
  | (true, _) :: _ => None
  | (false, argument) :: arguments =>
      if is_config_directory (inner_expression argument) then join_arguments joining directory arguments
      else match inner_expression argument with
           | StringLiteral segment =>
               join_arguments joining
                 (path_push path (if joining then trim_start_matches [slash; "\"%char] segment else segment))
                 arguments
           | _ => None
           end
  end.

Definition call_path (callee : Expr) (arguments : list (bool * Expr)) : option string :=
  name ← match inner_expression callee with
         | Identifier name => Some name
         | StaticMember _ property => Some property
         | _ => None
         end;
  if decide (name = "resolve" ∨ name = "join") then
    join_arguments (bool_decide (name = "join")) directory arguments
  else if decide (name = "fileURLToPath") then
    match arguments with
    | (false, argument) :: _ => url_path argument
    | _ => None
    end
  else None.

Definition path_value (e : Expr) : option string :=
  match inner_expression e with
  | StringLiteral text => Some (literal_path text)
  | Template single_quasi _ => literal_path <$> single_quasi
  | inner =>
      if is_config_directory inner then Some directory
      else match inner with
           | CallExpr callee arguments => call_path callee arguments
           | StaticMember object property => if decide (property = "pathname") then url_path object else None
           | _ => None
           end
  end.

Definition read_table (table : Expr) : list (string * string) :=
  match inner_expression table with
  | ObjectExpr properties =>
      omap (λ p, match p.1 with
                 | Property false (Some key) _ => (λ target, (key, target)) <$> path_value p.2
                 | _ => None
                 end) properties
  | ArrayExpr elements =>
      omap (λ element : bool * Expr,
        match element with
        | (false, ObjectExpr entry) =>
            match inner_expression <$> property_value entry "find" with
            | Some (StringLiteral find) =>
                (λ target, (find, target)) <$> (property_value entry "replacement" ≫= path_value)
            | _ => None
            end
        | _ => None
        end) elements
  | _ => []
  end.

(** [visit_object_property] and [visit_call_expression], before the walk goes on. *)
Definition read_property (p : PropertyKind) (value : Expr) : list (string * string) :=
  match p with
  | Property false (Some key) _ => if decide (key = "alias") then read_table value else []
  | _ => []
  end.
Definition read_call (callee : Expr) (arguments : list (bool * Expr)) : list (string * string) :=
  if is_specific_id "alias" (inner_expression callee) then
    match arguments with
    | (false, ObjectExpr options) :: _ =>
        match property_value options "entries" with Some entries => read_table entries | None => [] end
    | _ => []
    end
  else [].

(** The visitor: every expression, in source order, a property or a call read
    before what is below it. *)
Fixpoint visit_expr (e : Expr) : list (string * string) :=
  match e with
  | StringLiteral _ | Identifier _ | ImportMeta => []
  | Template _ below | Opaque below => flat_map visit_expr below
  | StaticMember object _ => visit_expr object
  | ObjectExpr properties =>
      flat_map (λ p, read_property p.1 p.2 ++
        match p.1 with Property _ _ key_below => flat_map visit_expr key_below | SpreadProperty => [] end ++
        visit_expr p.2) properties
  | ArrayExpr elements => flat_map (λ element, visit_expr element.2) elements
  | CallExpr callee arguments =>
      read_call callee arguments ++ visit_expr callee ++ flat_map (λ argument, visit_expr argument.2) arguments
  | NewExpr callee arguments => visit_expr callee ++ flat_map (λ argument, visit_expr argument.2) arguments
  | Wrapped inner => visit_expr inner
  end.
End reader.

(** ** The tables of a workspace *)

(** [oxc_parser] at the source type of the path: the expressions of the
    program, [None] when the type is unknown or the parse is fatal. *)
Class ConfigParser := parse_config : string → string → option (list Expr).

Fixpoint take_while {A} (f : A → bool) (l : list A) : list A :=
  match l with
  | [] => []
  | a :: l => if f a then a :: take_while f l else []
  end.

Section tables.
Context `{FL : Files, CP : ConfigParser}.

(** [ancestors().skip(1).take_while(starts_with(workspace_root))]. *)
Definition workspace_directories (workspace_root active_document_path : string) : list string :=
  take_while (λ d, path_starts_with d workspace_root) (tail (ancestors active_document_path)).

Definition bundler_configs_in (directory : string) : list string :=
  match read_dir_names directory with
  | None => []
  | Some names =>
      sort String.compare
        (filter (λ path, match path_file_name path with Some name => is_bundler_config_name name | None => false end
                         && is_file path = true)
           (path_push directory <$> names))
  end.

Definition declared_aliases (config : string) : list (string * string) :=
  match path_parent config with
  | None => []
  | Some directory =>
      match file_len config with
      | None => []
      | Some len =>
          if (MAX_CONFIG_BYTES <? len)%N then []
          else match read_to_string config with
               | inr _ => []
               | inl source =>
                   match parse_config config source with
                   | None => []
                   | Some program =>
                       let root_relative_slash :=
                         match path_file_name config with
                         | Some name => starts_with (to_bytes "vite.") name
                         | None => false
                         end in
                       flat_map (visit_expr directory root_relative_slash) program
                   end
               end
      end
  end.

Definition alias_tables (workspace_root active_document_path : string) : list (list (string * string)) :=
  filter (λ aliases, aliases ≠ [])
    (declared_aliases <$> (workspace_directories workspace_root active_document_path ≫= bundler_configs_in)).
End tables.

(** ** Targets are normal forms *)

Definition settled (c : PathComponent) : Prop :=
  match c with RootDir => True | Normal name => plain name | _ => False end.
Definition settled_path (path : string) : Prop := Forall settled (components path).

Lemma components_name c : inner c → components (component_str c) = [c].
Proof. intros Hc. apply (components_names [c]). by constructor. Qed.

Lemma push_settled acc name : plain name → settled_path acc → settled_path (path_push acc (of_bytes name)).
Proof.
  intros Hn Ha. unfold settled_path in *.
  assert (inner (Normal name)) as Hi by done. pose proof (components_name _ Hi) as Hc. cbn in Hc.
  assert (path_is_absolute (of_bytes name) = false) as Hrel.
  { unfold path_is_absolute. rewrite starts_with_slash. apply bool_decide_eq_false. by apply (name_head (Normal name)). }
  destruct (decide (acc = "")) as [->|Hne].
  - rewrite push_relative by done. change (path_join "" (of_bytes name)) with (of_bytes name).
    rewrite Hc. repeat constructor; apply Hn.
  - rewrite components_push by done. apply Forall_app. split; [done|]. unfold tail_components.
    rewrite to_of_bytes, split_on_none by apply Hn. cbn.
    pose proof (part_name _ Hi) as Hp. cbn in Hp. rewrite to_of_bytes in Hp. rewrite Hp.
    repeat constructor; apply Hn.
Qed.

Lemma parent_settled path up : path_parent path = Some up → settled_path path → settled_path up.
Proof. unfold settled_path. intros [c ->]%path_parent_Some Hs. by apply Forall_app in Hs as [? _]. Qed.

Lemma normalize_step_settled acc c :
  settled_path acc → inner c ∨ c = RootDir ∨ c = CurDir → settled_path (normalize_step acc c).
Proof.
  intros Ha Hc. destruct c as [| | |name]; cbn [normalize_step].
  - by constructor.
  - done.
  - destruct (path_parent acc) as [up|] eqn:Hp; [|done]. by eapply parent_settled.
  - destruct Hc as [Hc|[|]]; [|done..]. by apply push_settled.
Qed.

Lemma shaped_all cs : shaped cs → Forall (λ c, inner c ∨ c = RootDir ∨ c = CurDir) cs.
Proof.
  assert (∀ l, Forall inner l → Forall (λ c, inner c ∨ c = RootDir ∨ c = CurDir) l) as H.
  { intros l Hl. eapply Forall_impl; [done|]. intros. by left. }
  destruct cs as [|[] cs]; cbn; intros Hs; [by constructor| | |by apply H..].
  - constructor; [by right; left|by apply H].
  - constructor; [by right; right|by apply H].
Qed.

Lemma normalize_settled path : settled_path (normalize path).
Proof.
  unfold normalize. pose proof (shaped_all _ (components_shaped path)) as Hs. revert Hs.
  assert (settled_path "") as H0 by constructor. revert H0. generalize "" as acc.
  induction (components path) as [|c cs IH]; intros acc Ha Hs; [done|]. cbn.
  apply Forall_cons in Hs as [Hc Hs]. apply IH; [by apply normalize_step_settled|done].
Qed.

Lemma push_empty s : path_push "" s = s.
Proof. unfold path_push. by case_match. Qed.

(** Folding a path that has no dots changes nothing but its spelling. *)
Lemma normalize_rooted path : settled_path path → components (normalize path) = components path.
Proof.
  intros Hs. unfold settled_path in Hs. pose proof (components_shaped path) as Hsh.
  unfold normalize. destruct (components path) as [|c cs]; [done|]. cbn [foldl].
  assert (∀ l acc, acc ≠ "" → Forall settled l → Forall inner l →
    components (foldl normalize_step acc l) = components acc ++ l) as Hgen.
  { clear. induction l as [|c l IH]; intros acc Hne Hl Hi; [by rewrite (right_id_L [] (++))|].
    inversion Hl; inversion Hi; subst. destruct c as [| | |n]; try done. cbn.
    assert (plain n) as Hpn by done.
    assert (of_bytes n ≠ "") as Hn.
    { intros He. apply (f_equal to_bytes) in He. rewrite to_of_bytes in He. by destruct Hpn. }
    rewrite IH by (try done; by apply path_push_ne).
    rewrite components_push; [|done|].
    - unfold tail_components. rewrite to_of_bytes, split_on_none by apply Hpn. cbn.
      pose proof (part_name (Normal n) Hpn) as Hp. cbn in Hp. rewrite to_of_bytes in Hp.
      by rewrite Hp, <- (assoc_L (++)).
    - unfold path_is_absolute. rewrite starts_with_slash. apply bool_decide_eq_false. by apply (name_head (Normal n)). }
  inversion Hs; subst. destruct c as [| | |n]; try done; cbn in Hsh.
  - rewrite Hgen by done. done.
  - inversion Hsh; subst. cbn [normalize_step]. assert (plain n) as Hpn by done.
    rewrite push_empty. cbn [component_str]. rewrite Hgen; [|intros He|done..].
    + by rewrite (components_name (Normal n) Hpn : components (of_bytes n) = _).
    + apply (f_equal to_bytes) in He. rewrite to_of_bytes in He. by destruct Hpn.
Qed.

(** ** Every target is an absolute normal form *)

Definition rooted (path : string) : Prop := head (components path) = Some RootDir.
Definition absolute_normal (path : string) : Prop := rooted path ∧ settled_path path.

Lemma rooted_ne path : rooted path → path ≠ "".
Proof. by intros H ->. Qed.

Lemma push_rooted base child : rooted base → rooted (path_push base child).
Proof.
  intros Hb. unfold rooted. destruct (path_is_absolute child) eqn:Hc.
  - unfold path_push. unfold path_is_absolute in Hc. rewrite Hc.
    unfold components, components_of, lead. by rewrite Hc.
  - rewrite components_push by (done || by apply rooted_ne). unfold rooted in Hb. by destruct (components base).
Qed.

Lemma parent_rooted path up : path_parent path = Some up → rooted path → rooted up.
Proof.
  unfold rooted, path_parent. destruct (reverse (components path)) as [|c rest] eqn:Hr; [done|].
  apply (f_equal reverse) in Hr. rewrite reverse_involutive, reverse_cons in Hr.
  intros H Hh. pose proof (components_shaped path) as Hs. rewrite Hr in Hs, Hh. apply shaped_app_l in Hs.
  destruct (reverse rest) as [|d ds] eqn:Hrest.
  - cbn in Hh. by destruct c; simplify_eq.
  - cbn in Hh. simplify_eq. destruct c; simplify_eq; by rewrite components_render.
Qed.

Lemma foldl_rooted cs acc : rooted acc → rooted (foldl normalize_step acc cs).
Proof.
  revert acc. induction cs as [|c cs IH]; intros acc Ha; [done|]. cbn. apply IH.
  destruct c; cbn [normalize_step]; [by apply push_rooted|done| |by apply push_rooted].
  destruct (path_parent acc) eqn:Hp; [|done]. by eapply parent_rooted.
Qed.

Lemma normalize_absolute path : rooted path → absolute_normal (normalize path).
Proof.
  intros Hr. split; [|apply normalize_settled]. unfold normalize, rooted in *.
  destruct (components path) as [|c cs]; [done|]. cbn in Hr. simplify_eq.
  apply (foldl_rooted cs (normalize_step "" RootDir)). reflexivity.
Qed.

Section targets.
Context `{FL : Files} (directory : string) (root_relative_slash : bool) (Hd : absolute_normal directory).

Lemma pushed_absolute child : absolute_normal (normalize (path_push directory child)).
Proof. apply normalize_absolute, push_rooted, Hd. Qed.

Lemma literal_absolute text : absolute_normal (literal_path directory root_relative_slash text).
Proof. unfold literal_path. case_match; apply pushed_absolute. Qed.

Lemma url_absolute e t : url_path directory e = Some t → absolute_normal t.
Proof. unfold url_path. repeat case_match; intros; simplify_eq. apply pushed_absolute. Qed.

Lemma join_absolute joining arguments path t :
  rooted path → join_arguments directory joining path arguments = Some t → absolute_normal t.
Proof.
  revert path. induction arguments as [|[[] e] arguments IH]; intros path Hp; cbn; intros H; simplify_eq.
  - by apply normalize_absolute.
  - case_match; [eapply IH; [apply Hd|done]|]. case_match; simplify_eq. eapply IH; [|done]. by apply push_rooted.
Qed.

Lemma call_absolute callee arguments t : call_path directory callee arguments = Some t → absolute_normal t.
Proof.
  unfold call_path. destruct (match inner_expression callee with Identifier _ => _ | _ => _ end) as [name|]; [|done].
  cbn. case_decide; [apply join_absolute, Hd|]. case_decide; [|done].
  destruct arguments as [|[[] e] ?]; [done..|]. apply url_absolute.
Qed.

Lemma path_value_absolute e t : path_value directory root_relative_slash e = Some t → absolute_normal t.
Proof.
  unfold path_value. destruct (inner_expression e) as [s|q l|n| |o p|l|l|c l|c l|e'|l]; try (case_match; intros; simplify_eq; done);
    try (intros [= <-]; apply literal_absolute).
  - destruct q as [q|]; cbn; [intros [= <-]; apply literal_absolute|done].
  - case_match; [intros; by simplify_eq|]. case_decide; [apply url_absolute|done].
  - case_match; [intros; by simplify_eq|]. apply call_absolute.
Qed.

Definition targets_absolute (aliases : list (string * string)) : Prop :=
  ∀ kt, kt ∈ aliases → absolute_normal kt.2.

Lemma read_table_absolute table : targets_absolute (read_table directory root_relative_slash table).
Proof.
  unfold read_table, targets_absolute. destruct (inner_expression table); intros [k t] Hin;
    try (by apply elem_of_nil in Hin); apply list_elem_of_omap in Hin as (x & _ & Hx);
    repeat case_match; simplify_eq/=.
  - apply fmap_Some in Hx as (v & Hv & [= -> ->]). by eapply path_value_absolute.
  - apply fmap_Some in Hx as (v & Hv & [= -> ->]). apply bind_Some in Hv as (r & _ & Hv). by eapply path_value_absolute.
Qed.

Lemma targets_app l l' : targets_absolute l → targets_absolute l' → targets_absolute (l ++ l').
Proof. intros H H' kt [Hin|Hin]%elem_of_app; [by apply H|by apply H']. Qed.

Lemma targets_flat_map {A} (f : A → list (string * string)) l :
  Forall (λ a, targets_absolute (f a)) l → targets_absolute (flat_map f l).
Proof. induction 1; cbn; [intros kt Hin; by apply elem_of_nil in Hin|by apply targets_app]. Qed.

Lemma visit_absolute e : targets_absolute (visit_expr directory root_relative_slash e).
Proof.
  assert (targets_absolute []) as Hnil by (intros kt Hin; by apply elem_of_nil in Hin).
  assert (∀ k v, targets_absolute (read_property directory root_relative_slash k v)) as Hprop.
  { intros k v. unfold read_property. repeat case_match; try done. apply read_table_absolute. }
  assert (∀ c l, targets_absolute (read_call directory root_relative_slash c l)) as Hcall.
  { intros c l. unfold read_call. repeat case_match; try done. apply read_table_absolute. }
  induction e as [s|q l Hl|n| |o p Ho|l Hl|l Hl|c l Hc Hl|c l Hc Hl|e He|l Hl] using expr_rect; cbn [visit_expr]; try done;
    try by apply targets_flat_map.
  - apply targets_flat_map. eapply Forall_impl; [exact Hl|]. intros [k v] [Hk Hv]. cbn in *.
    apply targets_app; [done|]. apply targets_app; [|done]. destruct k; [by apply targets_flat_map|done].
  - apply targets_app; [done|]. apply targets_app; [done|by apply targets_flat_map].
  - apply targets_app; [done|by apply targets_flat_map].
Qed.
End targets.

Lemma elem_of_take_while {A} (f : A → bool) l a : a ∈ take_while f l → a ∈ l ∧ f a = true.
Proof.
  induction l as [|b l IH]; cbn; [by intros ?%elem_of_nil|].
  destruct (f b) eqn:Hb; [|by intros ?%elem_of_nil].
  intros [->|Ha]%elem_of_cons; [by split; [left|]|]. apply IH in Ha as [? ?]. by split; [right|].
Qed.

(** Past the first directory that is outside the workspace, none is visited. *)
Lemma take_while_prefix {A} (f : A → bool) l : take_while f l `prefix_of` l.
Proof.
  induction l as [|a l IH]; cbn; [done|]. destruct (f a); [by apply prefix_cons|by apply prefix_nil].
Qed.

Section workspace.
Context `{FL : Files, CP : ConfigParser}.

(** [read_dir] lists plain names. *)
Class PlainListings : Prop :=
  listed_plain : ∀ d names, read_dir_names d = Some names → Forall (λ n, plain (to_bytes n)) names.
Context {PL : PlainListings}.

Lemma ancestors_absolute path a :
  absolute_normal path → a ∈ ancestors path → absolute_normal a.
Proof.
  remember (length (components path)) as n eqn:Hn. revert path Hn.
  induction n as [n IH] using lt_wf_ind. intros path Hn Hp. rewrite ancestors_unfold.
  intros [->|Ha]%elem_of_cons; [done|].
  destruct (path_parent path) as [up|] eqn:Hup; [|by apply elem_of_nil in Ha].
  pose proof (path_parent_shorter _ _ Hup). eapply (IH (length (components up))); [lia|done| |done].
  destruct Hp. split; [by eapply parent_rooted|by eapply parent_settled].
Qed.

Lemma declared_absolute config : absolute_normal config → targets_absolute (declared_aliases config).
Proof.
  intros [Hr Hs]. unfold declared_aliases.
  assert (targets_absolute []) as Hnil by (intros kt Hin; by apply elem_of_nil in Hin).
  destruct (path_parent config) as [d|] eqn:Hp; [|done].
  assert (absolute_normal d) as Hd by (split; [by eapply parent_rooted|by eapply parent_settled]).
  repeat case_match; try done; apply targets_flat_map, Forall_forall; intros; by apply visit_absolute.
Qed.

(** Only a [vite], [webpack] or [rollup] config no larger than the cap, in
    a directory at or above the document that lies inside the workspace, gives
    a table, and only when it declares an alias; and whatever spelling a
    target has in the config (a string, [join], [resolve], a file URL, the
    config's own directory), it is read as an absolute path without [.] or
    [..]. *)
Theorem alias_tables_stay_in_the_workspace workspace_root active_document_path table :
  absolute_normal active_document_path → table ∈ alias_tables workspace_root active_document_path →
  table ≠ [] ∧ (∀ key target, (key, target) ∈ table → absolute_normal target) ∧
  ∃ directory name len, directory ∈ tail (ancestors active_document_path) ∧
    components workspace_root `prefix_of` components directory ∧
    table = declared_aliases (path_push directory name) ∧
    is_file (path_push directory name) = true ∧
    is_bundler_config_name (to_bytes name) = true ∧
    file_len (path_push directory name) = Some len ∧ (len <= MAX_CONFIG_BYTES)%N.
Proof.
  intros Hdoc. unfold alias_tables. intros [Hne Ht]%list_elem_of_filter.
  apply list_elem_of_fmap in Ht as (config & -> & Hc). apply list_elem_of_bind in Hc as (d & Hc & Hd).
  unfold workspace_directories in Hd. apply elem_of_take_while in Hd as [Hin Hw].
  apply path_starts_with_spec in Hw.
  unfold bundler_configs_in in Hc. destruct (read_dir_names d) as [names|] eqn:Hnames; [|by apply elem_of_nil in Hc].
  unfold sort in Hc. rewrite merge_sort_Permutation in Hc. apply list_elem_of_filter in Hc as [Hf Hc].
  apply andb_true_iff in Hf as [Hname Hfile].
  apply list_elem_of_fmap in Hc as (name & -> & Hn).
  assert (plain (to_bytes name)) as Hplain.
  { pose proof (listed_plain _ _ Hnames) as Hall. rewrite Forall_forall in Hall. by apply Hall. }
  assert (absolute_normal d) as [Hdr Hds].
  { eapply ancestors_absolute; [done|]. rewrite ancestors_unfold in Hin |- *. by right. }
  assert (absolute_normal (path_push d name)) as Hcfg.
  { split; [by apply push_rooted|]. rewrite <- (of_to_bytes name). by apply push_settled. }
  split; [done|]. split; [intros key target Hkt; exact (declared_absolute _ Hcfg _ Hkt)|].
  assert (path_file_name (path_push d name) = Some (to_bytes name)) as Hfn.
  { unfold path_file_name. rewrite components_push; [|by apply rooted_ne|].
    - unfold tail_components. rewrite split_on_none by apply Hplain. cbn.
      pose proof (part_name (Normal (to_bytes name)) Hplain) as Hp. cbn in Hp. rewrite to_of_bytes in Hp.
      by rewrite Hp, last_snoc.
    - unfold path_is_absolute. rewrite starts_with_slash. apply bool_decide_eq_false.
      pose proof (name_head (Normal (to_bytes name)) Hplain) as Hh. cbn in Hh. by rewrite to_of_bytes in Hh. }
  rewrite Hfn in Hname.
  assert (∃ len, file_len (path_push d name) = Some len ∧ (len <= MAX_CONFIG_BYTES)%N) as (len & Hl & Hle).
  { unfold declared_aliases in Hne. destruct (path_parent _); [|done]. destruct (file_len _) as [len|]; [|done].
    exists len. split; [done|]. destruct (N.ltb_spec MAX_CONFIG_BYTES len); [done|lia]. }
  by exists d, name, len.
Qed.
End workspace.

(** A [vite.config.ts] with one alias of each spelling. *)
Definition vite_program : list Expr :=
  [Opaque [ObjectExpr [(Property false (Some "resolve") [], ObjectExpr
     [(Property false (Some "alias") [], ObjectExpr
        [(Property false (Some "@app") [], StringLiteral "./src/../src/app");
         (Property false (Some "@lib") [], CallExpr (StaticMember (Identifier "path") "resolve")
            [(false, Identifier "__dirname"); (false, StringLiteral "../lib")]);
         (Property false (Some "@url") [], CallExpr (Identifier "fileURLToPath")
            [(false, NewExpr (Identifier "URL")
               [(false, StringLiteral "./u"); (false, StaticMember ImportMeta "url")])]);
         (Property false (Some "@computed") [], Identifier "elsewhere")])])]]].
Definition vite_disk : Files := {|
  is_file p := bool_decide (p = "/w/vite.config.ts"); is_dir p := false; exists_path p := false;
  canonicalize p := inl p; read_to_string p := inl ""; file_len p := Some 400%N;
  read_dir_names p := if decide (p = "/w") then Some ["src"; "vite.config.ts"] else None |}.
#[export] Instance vite_plain : PlainListings (FL := vite_disk).
Proof.
  intros d names H. change (read_dir_names d) with (if decide (d = "/w") then Some ["src"; "vite.config.ts"] else None) in H.
  case_decide; simplify_eq. repeat constructor; by vm_compute; set_solver.
Defined.

Lemma vite_tables :
  alias_tables (FL := vite_disk) (CP := λ _ _, Some vite_program) "/w" "/w/src/a.ts" =
  [[("@app", "/w/src/app"); ("@lib", "/lib"); ("@url", "/w/u")]].
Proof. vm_compute. reflexivity. Qed.

Lemma alias_tables_stay_in_the_workspace_witness :
  absolute_normal "/w/src/a.ts" ∧
  ∀ key target, (key, target) ∈ [("@app", "/w/src/app"); ("@lib", "/lib"); ("@url", "/w/u")] → absolute_normal target.
Proof.
  assert (absolute_normal "/w/src/a.ts") as Hd.
  { split; [vm_compute; reflexivity|]. vm_compute. repeat constructor; (done || set_solver). }
  split; [exact Hd|].
  destruct (alias_tables_stay_in_the_workspace (FL := vite_disk) (CP := λ _ _, Some vite_program) "/w" "/w/src/a.ts"
              [("@app", "/w/src/app"); ("@lib", "/lib"); ("@url", "/w/u")] Hd) as (_ & H & _); [|exact H].
  rewrite vite_tables. left.
Defined.
