(* ===== verification/Resolver.v ===== *)
(** * Package entries and workspace aliases (pipeline/resolver.rs)

    From an import to the package root, manifest and entry it measures; and the
    first-party probe that tells a path alias from a package that is missing.
    The module resolver ([oxc_resolver]) and its tsconfig reader are parameters,
    as are the alias tables of bundler configs. *)
From stdpp Require Import base list strings sorting.
From S2P Require Import Prelude Json Results CacheKeys ProjectRegistry Paths Manifests.

Set Default Proof Using "Type*".

(** ** Resolvers and their options *)

(** [oxc_resolver::ResolveOptions]: the options the daemon sets. [tsconfig] is
    the manual configuration file, whose references stay disabled. *)
Record ResolveOptions := {
  alias : list (string * list string);
  alias_fields : list (list string);
  condition_names : list string;
  extensions : list string;
  extension_alias : list (string * list string);
  main_fields : list string;
  module_type : bool;
  node_path : bool;
  tsconfig : option string;
}.

(** A resolver reads through a cache of file-system facts: the published set's,
    which outlives the request, or one of its own. *)
Inductive FactCache := SharedFacts | OwnFacts.
Record Resolver := { facts : FactCache; options : ResolveOptions }.

(** What [Resolver::resolve] answers with. *)
Record Resolution := {
  full_path : string;
  query : option string;
  fragment : option string;
  is_commonjs_module : bool;
}.

(** [oxc_resolver]: its defaults, its resolution, the [references] a parsed
    tsconfig lists, and [normalize_with]. *)
Class Oxc := {
  default_options : ResolveOptions;
  oxc_resolve : Resolver → string → string → Resolution + string;
  tsconfig_references : string → string → option (list string);
  normalize_with : string → string → string;
}.

Definition module_extensions : list string :=
  [".js"; ".mjs"; ".cjs"; ".jsx"; ".ts"; ".tsx"; ".mts"; ".cts"; ".json"].
Definition alias_target_extensions : list string := module_extensions ++ [".vue"; ".svelte"; ".astro"].
Definition extension_aliases : list (string * list string) :=
  [(".js", [".ts"; ".tsx"; ".js"]); (".mjs", [".mts"; ".mjs"]); (".cjs", [".cts"; ".cjs"]);
   (".jsx", [".tsx"; ".jsx"])].

Definition profile_entry_fields (runtime : ImportRuntime) : list string :=
  match runtime with
  | Component | Client => ["browser"; "module"; "main"]
  | Server => ["module"; "main"]
  end.

Record ResolvedModulePath := { mp_path : string; mp_is_cjs : bool }.
Record ResolvedEntry := { e_entry_path : string; e_is_cjs : bool }.

Record ResolvedPackage := {
  package_root : string;
  package_json : Value;
  entry_path : string;
  is_cjs : bool;
  side_effects : SideEffectsMode;
}.

(** ** Package names *)

Definition is_safe_package_segment (segment : list ascii) : bool :=
  negb (bool_decide (segment = [])) && negb (bool_decide (segment = dot)) &&
  negb (bool_decide (segment = dotdot)) && negb (existsb (λ c, bool_decide (c = "\"%char)) segment) &&
  negb (existsb (λ c, bool_decide (c = ":"%char)) segment).

Definition package_name_is_valid (package_name : string) : bool :=
  let parts := split_on slash (to_bytes package_name) in
  if starts_with ["@"%char] (to_bytes package_name)
  then match parts with
       | [scope; name] => (1 <? length scope)%nat && is_safe_package_segment scope && is_safe_package_segment name
       | _ => false
       end
  else match parts with [name] => is_safe_package_segment name | _ => false end.

Definition validate_package_name (package_name : string) : option string :=
  if package_name_is_valid package_name then None else Some ("unsafe package name: " +:+ package_name).

Definition subpath_for_request (request : ImportRequest) : option string :=
  rest ← strip_prefix (to_bytes (rq_package_name request)) (to_bytes (rq_specifier request));
  sub ← strip_prefix [slash] rest;
  Some (of_bytes sub).

Definition path_looks_cjs (path : string) : bool :=
  let ends_with suffix := starts_with (reverse (to_bytes suffix)) (reverse (to_bytes path)) in
  ends_with ".cjs" || ends_with ".cts".

(** ** Messages *)

Definition quote : ascii := ascii_of_N 34.

Definition NO_ROOT_ENTRY_PHRASE : string := "has no importable root entry".

Definition no_root_entry_message (package_name reason : string) (subpaths : list string) : string :=
  let hint := match subpaths with
              | [] => ""
              | _ => "; importable subpaths include " +:+ join_with ", " subpaths
              end in
  "package '" +:+ package_name +:+ "' " +:+ NO_ROOT_ENTRY_PHRASE +:+ " (" +:+ reason +:+ ")" +:+ hint.

Definition subpath_only_exports (manifest : Value) : option (list string) :=
  exports ← get manifest "exports" ≫= as_object;
  if negb (bool_decide (exports = nil)) &&
     forallb (λ kv, starts_with (to_bytes "./") (to_bytes kv.1) && negb (bool_decide (kv.1 = "."))) exports
  then Some (take 8 exports.*1) else None.

Section resolver.
Context `{FL : Files, ML : ManifestLibraries, OX : Oxc}.

(** ** Options *)

Definition resolve_options (runtime : ImportRuntime) : ResolveOptions :=
  match runtime with
  | Component | Client =>
      {| alias := alias default_options; alias_fields := [["browser"]];
         condition_names := ["browser"; "module"; "import"; "default"];
         extensions := module_extensions; extension_alias := extension_aliases;
         main_fields := profile_entry_fields runtime; module_type := true; node_path := false;
         tsconfig := tsconfig default_options |}
  | Server =>
      {| alias := alias default_options; alias_fields := [];
         condition_names := ["node"; "server"; "module"; "import"; "default"];
         extensions := module_extensions; extension_alias := extension_aliases;
         main_fields := profile_entry_fields runtime; module_type := true; node_path := false;
         tsconfig := tsconfig default_options |}
  end.

Definition stylesheet_resolve_options : ResolveOptions :=
  {| alias := alias default_options; alias_fields := alias_fields default_options;
     condition_names := ["style"; "default"]; extensions := [".css"];
     extension_alias := extension_alias default_options; main_fields := ["style"];
     module_type := module_type default_options; node_path := false; tsconfig := tsconfig default_options |}.

Definition alias_resolve_options (config_file : string) : ResolveOptions :=
  let base := resolve_options Component in
  {| alias := alias base; alias_fields := alias_fields base; condition_names := condition_names base;
     extensions := alias_target_extensions; extension_alias := extension_alias base;
     main_fields := main_fields base; module_type := module_type base; node_path := node_path base;
     tsconfig := Some config_file |}.

Definition bundler_alias_resolve_options (aliases : list (string * string)) : ResolveOptions :=
  let base := resolve_options Component in
  {| alias := (λ kt : string * string, (kt.1, [kt.2])) <$> aliases; alias_fields := alias_fields base;
     condition_names := condition_names base; extensions := alias_target_extensions;
     extension_alias := extension_alias base; main_fields := main_fields base;
     module_type := module_type base; node_path := node_path base; tsconfig := tsconfig base |}.

(** [EntryResolver::for_package] and [get]: an installed package through the
    published set, whose browser resolver serves Component and Client; a
    workspace package through a resolver made for this resolution. *)
Definition is_installed (package_root : string) : bool :=
  match canonicalize package_root with
  | inl real => has_component "node_modules" real
  | inr _ => false
  end.
Definition set_resolver (runtime : ImportRuntime) : Resolver :=
  {| facts := SharedFacts;
     options := match runtime with
                | Component | Client => resolve_options Component
                | Server => resolve_options Server
                end |}.
Definition entry_resolver (package_root : string) (runtime : ImportRuntime) : Resolver :=
  if is_installed package_root then set_resolver runtime
  else {| facts := OwnFacts; options := resolve_options runtime |}.

(** ** One module path *)

Definition resolve_module_path (r : Resolver) (from_path spec : string) : ResolvedModulePath + string :=
  match oxc_resolve r from_path spec with
  | inr error => inr error
  | inl resolution =>
      if bool_decide (is_Some (query resolution)) || bool_decide (is_Some (fragment resolution)) then
        inr ("resolved module '" +:+ spec +:+ "' contains unsupported query or fragment")
      else if negb (is_file (full_path resolution)) then
        inr ("resolved module '" +:+ spec +:+ "' is not a file: " +:+ full_path resolution)
      else
        match normalize_existing_path (full_path resolution) with
        | inr error => inr error
        | inl real => inl {| mp_path := real;
                             mp_is_cjs := is_commonjs_module resolution || path_looks_cjs (full_path resolution) |}
        end
  end.

Definition resolve_with_oxc (r : Resolver) (active_document_path : string) (request : ImportRequest) :
    ResolvedEntry + string :=
  match path_parent active_document_path with
  | None => inr "active document path has no parent directory"
  | Some directory =>
      match resolve_module_path r directory (rq_specifier request) with
      | inl m => inl {| e_entry_path := mp_path m; e_is_cjs := mp_is_cjs m |}
      | inr error => inr error
      end
  end.

(** ** The package root and its manifest *)

Definition package_root_at (directory package_name : string) : string :=
  path_push (path_push directory "node_modules") package_name.
Definition manifest_path (package_root : string) : string := path_push package_root "package.json".

(** The loop: [inr] carries the manifests it looked for. [pop] fails at the
    root; a directory has at most as many parents as components. *)
Fixpoint search_up (fuel : nat) (current package_name : string) (checked : list string) :
    string + list string :=
  let package_root := package_root_at current package_name in
  if exists_path (manifest_path package_root) then inl package_root
  else
    let checked := checked ++ [manifest_path package_root] in
    match fuel with
    | 0 => inr checked
    | S fuel => match path_parent current with
                | Some up => search_up fuel up package_name checked
                | None => inr checked
                end
    end.

Definition find_package_root (active_document_path package_name : string) : string + string :=
  match validate_package_name package_name with
  | Some error => inr error
  | None =>
      match path_parent active_document_path with
      | None => inr "active document path has no parent directory"
      | Some directory =>
          match search_up (length (components directory)) directory package_name [] with
          | inl package_root => inl package_root
          | inr checked =>
              inr ("package manifest not found for " +:+ package_name +:+ "; " +:+
                   join_with "; " ((λ p, "checked: " +:+ p) <$> checked))
          end
      end
  end.

Definition find_package_manifest (active_document_path : string) (request : ImportRequest) :
    PackageManifest + string :=
  match find_package_root active_document_path (rq_package_name request) with
  | inr error => inr error
  | inl package_root =>
      let path := manifest_path package_root in
      match read_to_string path with
      | inr error => inr ("failed to read package manifest " +:+ path +:+ ": " +:+ error)
      | inl text =>
          match from_str text with
          | inr error => inr ("failed to parse package manifest " +:+ path +:+ ": " +:+ error)
          | inl json =>
              match get json "version" with
              | Some (String_ _) => inl {| root := package_root; json := json |}
              | _ => inr ("package manifest " +:+ path +:+ " is missing a string version")
              end
          end
      end
  end.

(** ** Declared entries *)

Definition resolve_manifest_target (r : Resolver) (package_root target : string) : ResolvedModulePath + string :=
  let spec :=
    if starts_with (to_bytes "./") (to_bytes target) || starts_with (to_bytes "../") (to_bytes target) ||
       path_is_absolute target
    then target else "./" +:+ target in
  resolve_module_path r package_root spec.

Definition is_ok {A E} (r : A + E) : bool := match r with inl _ => true | inr _ => false end.

Definition validate_declared_entry_resolution (r : Resolver) (m : PackageManifest) (runtime : ImportRuntime) :
    option string :=
  if bool_decide (is_Some (get (json m) "exports")) then None
  else
    let declared_entries := omap (get_str (json m)) (profile_entry_fields runtime) in
    match declared_entries with
    | [] => None
    | first_target :: _ =>
        if existsb (λ target, is_ok (resolve_manifest_target r (root m) target)) declared_entries then None
        else match resolve_file_candidate (path_push (root m) first_target) with
             | inl _ => None
             | inr error => Some error
             end
    end.

(** [importable_subpaths]: the first eight in the order the directory lists
    them, then sorted. *)
Definition importable_subpaths (package_root : string) : list string :=
  match read_dir_names package_root with
  | None => []
  | Some names =>
      let importable name :=
        is_dir (path_push package_root name) &&
        existsb (λ index, is_file (path_push (path_push package_root name) index))
          ["index.js"; "index.mjs"; "index.cjs"] in
      sort String.compare (take 8 ((λ name, "./" +:+ name) <$> filter (λ name, importable name = true) names))
  end.

Definition legacy_candidate (m : PackageManifest) (target : string) : (string * bool) + string :=
  match resolve_file_candidate (path_push (root m) target) with
  | inl path => inl (classify_resolved_entry m path false)
  | inr error => inr error
  end.

Definition resolve_legacy_fallback (m : PackageManifest) (request : ImportRequest)
    (resolution_error : string) : (string * bool) + string :=
  let subpath := subpath_for_request request in
  if bool_decide (is_Some (get (json m) "exports")) then
    match subpath with
    | Some sub =>
        inr ("subpath './" +:+ sub +:+ "' is not defined in the exports map of " +:+ rq_package_name request)
    | None =>
        match get_str (json m) "main" with
        | Some main => legacy_candidate m main
        | None =>
            match subpath_only_exports (json m) with
            | Some subpaths =>
                inr (no_root_entry_message (rq_package_name request)
                       ("its exports map has no " +:+ String quote ("." +:+ String quote "")) subpaths)
            | None => inr ("failed to resolve package entry with oxc_resolver: " +:+ resolution_error)
            end
        end
    end
  else
    match subpath with
    | Some sub => legacy_candidate m sub
    | None =>
        match head (omap (get_str (json m)) (profile_entry_fields (rq_runtime request))) with
        | Some target => legacy_candidate m target
        | None =>
            match legacy_candidate m "index.js" with
            | inl entry => inl entry
            | inr probed =>
                if negb (manifest_declares_no_js_entry (json m)) then inr probed
                else inr (no_root_entry_message (rq_package_name request)
                            "it declares no main, module, browser or exports, and has no index.js"
                            (importable_subpaths (root m)))
            end
        end
    end.

(** ** The entry of an import *)

Definition package_of (m : PackageManifest) (entry : string * bool) : ResolvedPackage :=
  {| package_root := root m; package_json := json m; entry_path := entry.1; is_cjs := entry.2;
     side_effects := side_effects_mode (json m) (root m) entry.1 |}.

Definition resolve_package_entry (active_document_path : string) (request : ImportRequest) :
    ResolvedPackage + string :=
  match validate_package_name (rq_package_name request) with
  | Some error => inr error
  | None =>
      match find_package_manifest active_document_path request with
      | inr error => inr error
      | inl m =>
          let r := entry_resolver (root m) (rq_runtime request) in
          match resolve_with_oxc r active_document_path request with
          | inl resolved =>
              match match subpath_for_request request with
                    | None => validate_declared_entry_resolution r m (rq_runtime request)
                    | Some _ => None
                    end with
              | Some error => inr error
              | None => inl (package_of m (classify_resolved_entry m (e_entry_path resolved) (e_is_cjs resolved)))
              end
          | inr error =>
              match resolve_legacy_fallback m request error with
              | inl entry => inl (package_of m entry)
              | inr error => inr error
              end
          end
      end
  end.

(** What a stored identity is turned back into. *)
Definition resolved_from_cache_identity (i : CacheIdentity) : option ResolvedPackage :=
  package_root ← ci_package_root i;
  entry_path ← ci_entry_path i;
  text ← ok (read_to_string (manifest_path package_root));
  json ← ok (from_str text);
  let m := {| root := package_root; json := json |} in
  Some (package_of m (classify_resolved_entry m entry_path false)).
End resolver.

(** ** Package roots *)

Section roots.
Context `{FL : Files, ML : ManifestLibraries, OX : Oxc}.

Definition has_manifest (package_name directory : string) : bool :=
  exists_path (manifest_path (package_root_at directory package_name)).

(** The loop is a search of the ancestors, the nearest first; the fuel is the
    number of components, so it never runs out. *)
Lemma search_up_spec n current name checked :
  length (components current) ≤ n →
  search_up n current name checked =
  match find (has_manifest name) (ancestors current) with
  | Some d => inl (package_root_at d name)
  | None => inr (checked ++ ((λ d, manifest_path (package_root_at d name)) <$> ancestors current))
  end.
Proof.
  revert current checked. induction n as [|n IH]; intros current checked Hn;
    rewrite ancestors_unfold; cbn [search_up find];
    change (exists_path (manifest_path (package_root_at current name))) with (has_manifest name current);
    destruct (has_manifest name current); try done.
  - destruct (path_parent current) as [up|] eqn:Hp; [|done]. apply path_parent_shorter in Hp. lia.
  - destruct (path_parent current) as [up|] eqn:Hp; [|done].
    apply path_parent_shorter in Hp. rewrite IH by lia. destruct (find _ _); [done|].
    by rewrite fmap_cons, <- (assoc_L (++)).
Qed.

Lemma find_first {A} (f : A → bool) l x :
  find f l = Some x ↔ ∃ i, l !! i = Some x ∧ f x = true ∧ ∀ j y, j < i → l !! j = Some y → f y = false.
Proof.
  induction l as [|a l IH]; cbn.
  { split; [done|]. by intros (i & ? & _); destruct i. }
  destruct (f a) eqn:Ha.
  - split; [intros [= ->]; exists 0; split_and!; [done..|lia]|].
    intros ([|i] & Hi & Hx & Hj); [by injection Hi|].
    specialize (Hj 0 a ltac:(lia) eq_refl). congruence.
  - rewrite IH. split.
    + intros (i & Hi & Hx & Hj). exists (S i). split_and!; [done..|].
      intros [|j] y Hlt Hy; cbn in Hy; [by simplify_eq|]. apply (Hj j); [lia|done].
    + intros ([|i] & Hi & Hx & Hj); cbn in Hi; [simplify_eq; congruence|].
      exists i. split_and!; [done..|]. intros j y Hlt Hy. apply (Hj (S j)); [lia|done].
Qed.

(** Segments of an accepted name. *)
Lemma safe_segment_part s :
  is_safe_package_segment s = true → part s = Some (Normal s) ∧ "\"%char ∉ s ∧ ":"%char ∉ s.
Proof.
  unfold is_safe_package_segment. rewrite !andb_true_iff, !negb_true_iff, !bool_decide_eq_false.
  intros ((((H1 & H2) & H3) & H4) & H5). unfold part. rewrite !decide_False by done. split; [done|].
  rewrite <- not_true_iff_false, existsb_elem in H4, H5.
  split; intros Hin; [apply H4|apply H5]; eexists; (split; [done|]); by apply bool_decide_eq_true.
Qed.

Definition name_segments (package_name : string) : list (list ascii) :=
  split_on slash (to_bytes package_name).

Lemma valid_name_segments name :
  package_name_is_valid name = true →
  (length (name_segments name) = 1 ∨ length (name_segments name) = 2) ∧
  Forall (λ s, is_safe_package_segment s = true) (name_segments name).
Proof.
  unfold package_name_is_valid, name_segments.
  destruct (starts_with _ _); destruct (split_on _ _) as [|a [|b [|]]]; try done.
  - rewrite !andb_true_iff. intros [[_ Ha] Hb]. split; [by right|]. by repeat constructor.
  - intros Ha. split; [by left|]. by repeat constructor.
Qed.

Lemma segments_parts segs :
  Forall (λ s, is_safe_package_segment s = true) segs → omap part segs = Normal <$> segs.
Proof.
  induction 1 as [|s segs Hs _ IH]; [done|]. cbn.
  apply safe_segment_part in Hs as (-> & _). by rewrite IH.
Qed.

Lemma valid_name_relative name :
  package_name_is_valid name = true → path_is_absolute name = false ∧ name ≠ "".
Proof.
  intros Hv. apply valid_name_segments in Hv as [_ Hs]. unfold name_segments in Hs. split.
  - unfold path_is_absolute. rewrite starts_with_slash. apply bool_decide_eq_false.
    destruct (to_bytes name) as [|c l]; [done|]. cbn. intros [= ->].
    rewrite split_on_slash_cons in Hs. by apply Forall_inv in Hs.
  - intros ->. by apply Forall_inv in Hs.
Qed.

(** The components of a package root are its directory's, [node_modules], and
    the name's own one or two plain names. *)
Lemma package_root_components directory name :
  directory ≠ "" → package_name_is_valid name = true →
  components (package_root_at directory name) =
  components directory ++ Normal (to_bytes "node_modules") :: (Normal <$> name_segments name).
Proof.
  intros Hd Hv. pose proof (valid_name_relative name Hv) as [Hrel _].
  unfold package_root_at. rewrite components_push; [|by apply path_push_ne|done].
  rewrite components_push by done. unfold tail_components.
  apply valid_name_segments in Hv as [_ Hs]. fold (name_segments name).
  rewrite (segments_parts _ Hs), <- (assoc_L (++)). done.
Qed.

(** The root of a package is [node_modules/<name>] under the nearest
    directory, from the document's own upwards, where that package has a
    manifest. A name is accepted only when it is one plain segment, or a scope
    and one: its root is then that directory followed by exactly
    [node_modules] and those segments, so no name reaches outside it; a name
    with an empty, [.], [..], backslashed or colon-bearing segment is refused,
    and a failure lists every manifest looked for. *)
Theorem package_root_is_the_nearest_installed active_document_path name directory :
  path_parent active_document_path = Some directory →
  match find_package_root active_document_path name with
  | inl package_root =>
      package_name_is_valid name = true ∧
      ∃ i d, ancestors directory !! i = Some d ∧ has_manifest name d = true ∧
        (∀ j d', j < i → ancestors directory !! j = Some d' → has_manifest name d' = false) ∧
        package_root = package_root_at d name ∧
        (d ≠ "" → components package_root =
           components d ++ Normal (to_bytes "node_modules") :: (Normal <$> name_segments name)) ∧
        Forall (λ s, plain s ∧ "\"%char ∉ s ∧ ":"%char ∉ s) (name_segments name)
  | inr error =>
      (package_name_is_valid name = false ∧ error = "unsafe package name: " +:+ name) ∨
      (package_name_is_valid name = true ∧ (∀ d, d ∈ ancestors directory → has_manifest name d = false) ∧
       error = "package manifest not found for " +:+ name +:+ "; " +:+
         join_with "; " ((λ d, "checked: " +:+ manifest_path (package_root_at d name)) <$> ancestors directory))
  end.
Proof.
  intros Hp. unfold find_package_root, validate_package_name.
  destruct (package_name_is_valid name) eqn:Hv; [|by left]. rewrite Hp, search_up_spec by done.
  destruct (find _ _) as [d|] eqn:Hf.
  - split; [done|]. apply find_first in Hf as (i & Hi & Hm & Hj). exists i, d. split_and!; try done.
    + intros Hd. by apply package_root_components.
    + pose proof (valid_name_segments name Hv) as [_ Hs]. pose proof (split_on_clean slash (to_bytes name)) as Hc.
      fold (name_segments name) in Hc. rewrite Forall_forall in Hs, Hc |- *. intros s Hin.
      specialize (Hs s Hin). pose proof (safe_segment_part s Hs) as (_ & Hb & Hcol). split; [|done].
      unfold is_safe_package_segment in Hs. rewrite !andb_true_iff, !negb_true_iff, !bool_decide_eq_false in Hs.
      destruct Hs as ((((H1 & H2) & H3) & _) & _). split_and!; try done. by apply Hc.
  - right. split_and!; [done| |].
    + intros d Hd. apply not_true_iff_false. intros Hm. pose proof (find_none _ _ Hf d) as Hn.
      rewrite list_elem_of_In in Hd. by rewrite (Hn Hd) in Hm.
    + cbn [app]. by rewrite <- list_fmap_compose.
Qed.

(** A root that is found is the nearest directory's that has a manifest there. *)
Lemma nearest_root active_document_path name package_root :
  find_package_root active_document_path name = inl package_root →
  ∃ directory i d, path_parent active_document_path = Some directory ∧ ancestors directory !! i = Some d ∧
    package_root = package_root_at d name ∧ exists_path (manifest_path package_root) = true ∧
    ∀ j d', j < i → ancestors directory !! j = Some d' → exists_path (manifest_path (package_root_at d' name)) = false.
Proof.
  intros H. destruct (path_parent active_document_path) as [directory|] eqn:Hp.
  - pose proof (package_root_is_the_nearest_installed active_document_path name directory Hp) as Hn. rewrite H in Hn.
    destruct Hn as (_ & i & d & Hi & Hm & Hj & -> & _). by exists directory, i, d.
  - unfold find_package_root in H. destruct (validate_package_name _); [done|]. by rewrite Hp in H.
Qed.

Lemma refused_names :
  (λ n, package_name_is_valid n) <$>
    [""; "."; ".."; "a/b"; "../x"; "@s"; "@s/"; "@s/.."; "@/x"; "@s/a/b"; "c:x"; "react"; "@s/x"] =
  [false; false; false; false; false; false; false; false; false; false; false; true; true].
Proof. vm_compute. reflexivity. Qed.

End roots.

(** ** A small disk for the witnesses *)

Definition listed_files (files : list string) (texts : list (string * string)) : Files := {|
  is_file p := bool_decide (p ∈ files);
  is_dir p := false;
  exists_path p := bool_decide (p ∈ files);
  canonicalize p := inl p;
  read_to_string p :=
    match find (λ kv, bool_decide (kv.1 = p)) texts with Some kv => inl kv.2 | None => inr "gone" end;
  read_dir_names _ := None;
  file_len _ := None;
|}.
Definition react_disk : Files :=
  listed_files ["/w/node_modules/@s/x/package.json"; "/w/node_modules/@s/x/lib/index.js"]
    [("/w/node_modules/@s/x/package.json", "M")].

(** A parser that knows one manifest; no glob matches. *)
Definition one_manifest (v : Value) : ManifestLibraries := {|
  from_str text := if decide (text = "M") then inl v else inr "expected value";
  glob_match _ _ := false;
  relative_path p _ := p;
|}.
Definition no_options : ResolveOptions :=
  {| alias := []; alias_fields := []; condition_names := []; extensions := []; extension_alias := [];
     main_fields := []; module_type := false; node_path := false; tsconfig := None |}.
Definition resolves_nothing : Oxc := {|
  default_options := no_options;
  oxc_resolve _ _ _ := inr "Cannot find module";
  tsconfig_references _ _ := None;
  normalize_with d _ := d;
|}.

Lemma package_root_is_the_nearest_installed_witness :
  path_parent "/w/src/deep/a.ts" = Some "/w/src/deep" ∧
  find_package_root (FL := react_disk) "/w/src/deep/a.ts" "@s/x" = inl "/w/node_modules/@s/x" ∧
  Forall (λ s, plain s ∧ "\"%char ∉ s ∧ ":"%char ∉ s) (name_segments "@s/x").
Proof.
  assert (path_parent "/w/src/deep/a.ts" = Some "/w/src/deep") as Hp by (vm_compute; reflexivity).
  assert (find_package_root (FL := react_disk) "/w/src/deep/a.ts" "@s/x" = inl "/w/node_modules/@s/x") as Hf
    by (vm_compute; reflexivity).
  split; [exact Hp|]. split; [exact Hf|].
  pose proof (package_root_is_the_nearest_installed (FL := react_disk) _ "@s/x" _ Hp) as H.
  rewrite Hf in H. destruct H as (_ & i & d & _ & _ & _ & _ & _ & H). exact H.
Defined.

(** ** What an accepted entry is *)

Section entries.
Context `{FL : Files, ML : ManifestLibraries, OX : Oxc}.

Lemma resolve_file_candidate_ok candidate path :
  resolve_file_candidate candidate = inl path → path ∈ file_candidates candidate ∧ is_file path = true.
Proof.
  unfold resolve_file_candidate. destruct (find _ _) as [p|] eqn:Hf; [|done]. intros [= <-].
  apply find_some in Hf as [Hin Hp]. by rewrite list_elem_of_In.
Qed.

Lemma legacy_candidate_ok m target entry :
  legacy_candidate m target = inl entry →
  is_file entry.1 = true ∧ entry.1 ∈ file_candidates (path_push (root m) target) ∧
  entry.2 = resolved_entry_is_commonjs m entry.1 false.
Proof.
  unfold legacy_candidate. destruct (resolve_file_candidate _) as [path|] eqn:Hr; [|done].
  intros [= <-]. apply resolve_file_candidate_ok in Hr as [? ?]. done.
Qed.

(** The fallback answers with a file the package declares, or its index. *)
Definition legacy_targets (m : PackageManifest) (request : ImportRequest) : list string :=
  if bool_decide (is_Some (get (json m) "exports")) then
    match subpath_for_request request, get_str (json m) "main" with
    | None, Some main => [main]
    | _, _ => []
    end
  else match subpath_for_request request with
       | Some sub => [sub]
       | None => match head (omap (get_str (json m)) (profile_entry_fields (rq_runtime request))) with
                 | Some target => [target]
                 | None => ["index.js"]
                 end
       end.

Lemma legacy_fallback_ok m request error entry :
  resolve_legacy_fallback m request error = inl entry →
  ∃ target, target ∈ legacy_targets m request ∧ is_file entry.1 = true ∧
    entry.1 ∈ file_candidates (path_push (root m) target) ∧
    entry.2 = resolved_entry_is_commonjs m entry.1 false.
Proof.
  unfold resolve_legacy_fallback, legacy_targets.
  assert (∀ t, legacy_candidate m t = inl entry → ∃ target, target ∈ [t] ∧ is_file entry.1 = true ∧
    entry.1 ∈ file_candidates (path_push (root m) target) ∧ entry.2 = resolved_entry_is_commonjs m entry.1 false) as H.
  { intros t ?%legacy_candidate_ok. exists t. split; [by left|done]. }
  case_bool_decide.
  - destruct (subpath_for_request request); [done|]. destruct (get_str _ _); [apply H|]. by case_match.
  - destruct (subpath_for_request request); [apply H|]. destruct (head _); [apply H|].
    destruct (legacy_candidate m "index.js") eqn:Hl; [|by case_match]. intros [= ->]. by apply H.
Qed.

(** The module resolver's answer: a file, with no query, under its real path. *)
Lemma resolve_module_path_ok r from spec m :
  resolve_module_path r from spec = inl m →
  ∃ resolution, oxc_resolve r from spec = inl resolution ∧ query resolution = None ∧
    fragment resolution = None ∧ is_file (full_path resolution) = true ∧
    canonicalize (full_path resolution) = inl (mp_path m) ∧
    mp_is_cjs m = is_commonjs_module resolution || path_looks_cjs (full_path resolution).
Proof.
  unfold resolve_module_path. destruct (oxc_resolve _ _ _) as [resolution|] eqn:Ho; [|done].
  destruct (query resolution) eqn:Hq; cbn; [done|]. destruct (fragment resolution) eqn:Hg; cbn; [done|].
  destruct (is_file _) eqn:Hf; cbn; [|done]. unfold normalize_existing_path.
  destruct (canonicalize _) as [real|] eqn:Hc; [|done]. intros [= <-]. by exists resolution.
Qed.

Lemma find_package_manifest_ok doc request m :
  find_package_manifest doc request = inl m →
  find_package_root doc (rq_package_name request) = inl (root m) ∧
  ∃ text version, read_to_string (manifest_path (root m)) = inl text ∧ from_str text = inl (json m) ∧
    get_str (json m) "version" = Some version.
Proof.
  unfold find_package_manifest. destruct (find_package_root _ _) as [rt|] eqn:Hr; [|done].
  destruct (read_to_string _) as [text|] eqn:Ht; [|done]. destruct (from_str text) as [v|] eqn:Hv; [|done].
  destruct (get v "version") as [[| | |s| |]|] eqn:Hg; try done.
  intros [= <-]. cbn. split; [done|]. exists text, s. unfold get_str, str_at. unfold get in Hg. by rewrite Hg.
Qed.

(** C22. A resolution that succeeds is a real entry of the installed package:
    the package root is the nearest one with a manifest, the manifest is what
    its [package.json] parses to and has a version, and the entry is a file:
    the module resolver's answer to the specifier, canonical and free of query
    and fragment (with a declared entry that resolves, when the root itself
    was imported and the package has no [exports]), or else a candidate of the
    subpath, [main], profile field or index the fallback allows. Format and
    side effects are read from that manifest and entry; only an installed
    package is resolved through facts that outlive the request. *)
Theorem resolved_entries_are_real active_document_path request p :
  resolve_package_entry active_document_path request = inl p →
  let m := {| root := package_root p; json := package_json p |} in
  let r := entry_resolver (package_root p) (rq_runtime request) in
  (∃ directory i d, path_parent active_document_path = Some directory ∧ ancestors directory !! i = Some d ∧
     package_root p = package_root_at d (rq_package_name request) ∧
     exists_path (manifest_path (package_root p)) = true ∧
     ∀ j d', j < i → ancestors directory !! j = Some d' →
       exists_path (manifest_path (package_root_at d' (rq_package_name request))) = false) ∧
  (∃ text version, read_to_string (manifest_path (package_root p)) = inl text ∧
     from_str text = inl (package_json p) ∧ get_str (package_json p) "version" = Some version) ∧
  side_effects p = side_effects_mode (package_json p) (package_root p) (entry_path p) ∧
  (facts r = SharedFacts ↔ is_installed (package_root p) = true) ∧
  ((∃ directory resolution, path_parent active_document_path = Some directory ∧
      oxc_resolve r directory (rq_specifier request) = inl resolution ∧
      query resolution = None ∧ fragment resolution = None ∧ is_file (full_path resolution) = true ∧
      canonicalize (full_path resolution) = inl (entry_path p) ∧
      is_cjs p = resolved_entry_is_commonjs m (entry_path p)
                   (is_commonjs_module resolution || path_looks_cjs (full_path resolution)) ∧
      (subpath_for_request request = None → validate_declared_entry_resolution r m (rq_runtime request) = None)) ∨
   (∃ error target, resolve_with_oxc r active_document_path request = inr error ∧
      target ∈ legacy_targets m request ∧ is_file (entry_path p) = true ∧
      entry_path p ∈ file_candidates (path_push (package_root p) target) ∧
      is_cjs p = resolved_entry_is_commonjs m (entry_path p) false)).
Proof.
  unfold resolve_package_entry. destruct (validate_package_name _); [done|].
  destruct (find_package_manifest _ _) as [m|] eqn:Hm; [|done].
  apply find_package_manifest_ok in Hm as (Hroot%nearest_root & Hman).
  assert (∀ rt, facts (entry_resolver rt (rq_runtime request)) = SharedFacts ↔ is_installed rt = true) as Hfacts.
  { intros rt. unfold entry_resolver. by destruct (is_installed rt). }
  destruct (resolve_with_oxc _ _ _) as [e|error] eqn:Ho.
  - destruct (match subpath_for_request request with Some _ => _ | None => _ end) eqn:Hd; [done|].
    intros [= <-]. cbn. destruct m as [rt js]; cbn in *. split_and!; try done. left.
    unfold resolve_with_oxc in Ho. destruct (path_parent _) as [directory|]; [|done].
    destruct (resolve_module_path _ _ _) as [mp|] eqn:Hmp; [|done]. simplify_eq.
    apply resolve_module_path_ok in Hmp as (resolution & H1 & H2 & H3 & H4 & H5 & H6). cbn.
    exists directory, resolution. rewrite H6. split_and!; try done. intros Hs. by rewrite Hs in Hd.
  - destruct (resolve_legacy_fallback _ _ _) as [entry|] eqn:Hl; [|done]. intros [= <-].
    apply legacy_fallback_ok in Hl as (target & H1 & H2 & H3 & H4). destruct m as [rt js]; cbn in *.
    split_and!; try done. right. by exists error, target.
Qed.

(** The parts of that a stored identity relies on. *)
Lemma resolved_entries_are_real_helper doc request p :
  resolve_package_entry doc request = inl p →
  (∃ text, read_to_string (manifest_path (package_root p)) = inl text ∧ from_str text = inl (package_json p)) ∧
  side_effects p = side_effects_mode (package_json p) (package_root p) (entry_path p) ∧
  ∃ b, is_cjs p = resolved_entry_is_commonjs {| root := package_root p; json := package_json p |} (entry_path p) b.
Proof.
  unfold resolve_package_entry. destruct (validate_package_name _); [done|].
  destruct (find_package_manifest _ _) as [[rt js]|] eqn:Hm; [|done].
  apply find_package_manifest_ok in Hm as (_ & text & version & Ht & Hv & _).
  destruct (resolve_with_oxc _ _ _) as [e|error] eqn:Ho.
  - destruct (match subpath_for_request request with Some _ => _ | None => _ end); [done|].
    intros [= <-]. cbn in *. split; [by exists text|]. split; [done|by eexists].
  - destruct (resolve_legacy_fallback _ _ _) as [entry|] eqn:Hl; [|done]. intros [= <-].
    apply legacy_fallback_ok in Hl as (? & _ & _ & _ & Hc). cbn in *.
    split; [by exists text|]. split; [done|by exists false].
Qed.

(** ** What a stored identity gives back *)

(** The identity a resolved package is keyed by, where the spelling of its
    paths is kept. *)
Definition identity_names (i : CacheIdentity) (p : ResolvedPackage) : Prop :=
  ci_package_root i = Some (package_root p) ∧ ci_entry_path i = Some (entry_path p).

(** Rebuilding a resolved package from its stored identity, on the disk it
    was resolved on, gives the same package back: root, manifest, entry, side
    effects, and, when the entry has one of the JavaScript, TypeScript or JSON
    extensions, the same format. For any other extension the rebuilt package
    can only lose the resolver's word that the entry is CommonJS, never claim
    it. *)
Theorem rehydration_restores_the_package active_document_path request p i :
  resolve_package_entry active_document_path request = inl p → identity_names i p →
  ∃ q, resolved_from_cache_identity i = Some q ∧
    package_root q = package_root p ∧ package_json q = package_json p ∧
    entry_path q = entry_path p ∧ side_effects q = side_effects p ∧
    (∀ extension, path_extension (entry_path p) = Some extension → extension ∈ FORMAT_EXTENSIONS →
       q = p) ∧
    (is_cjs q = true → is_cjs p = true).
Proof.
  intros Hr [Hi He]. destruct (resolved_entries_are_real_helper _ _ _ Hr) as (Hman & Hse & b & Hcjs).
  destruct Hman as (text & Ht & Hv).
  unfold resolved_from_cache_identity. rewrite Hi, He. cbn. rewrite Ht. cbn. rewrite Hv. cbn.
  eexists. split; [done|]. cbn. split_and!; try done.
  - intros extension Hx Hin. destruct p as [rt js e c se]; cbn in *.
    unfold package_of, classify_resolved_entry. cbn. f_equal; [|done].
    rewrite Hcjs. by eapply entry_format_is_settled.
  - intros Hq. rewrite Hcjs. destruct b; [|done]. by apply entry_format_monotone.
Qed.
End entries.

(** ** A package on disk *)

Definition x_manifest : Value := Object [("version", String_ "1.0.0"); ("main", String_ "lib/index.js")].
Definition x_request : ImportRequest :=
  {| rq_specifier := "@s/x"; rq_package_name := "@s/x"; rq_version := "1.0.0"; rq_named := [];
     rq_import_kind := Default; rq_runtime := Client |}.
Definition x_package : ResolvedPackage :=
  {| package_root := "/w/node_modules/@s/x"; package_json := x_manifest;
     entry_path := "/w/node_modules/@s/x/lib/index.js"; is_cjs := true; side_effects := SeMissing |}.

Lemma x_resolves :
  resolve_package_entry (FL := react_disk) (ML := one_manifest x_manifest) (OX := resolves_nothing)
    "/w/src/a.ts" x_request = inl x_package.
Proof. vm_compute. reflexivity. Qed.

Lemma resolved_entries_are_real_witness :
  resolve_package_entry (FL := react_disk) (ML := one_manifest x_manifest) (OX := resolves_nothing)
    "/w/src/a.ts" x_request = inl x_package ∧
  ∃ directory i d, path_parent "/w/src/a.ts" = Some directory ∧ ancestors directory !! i = Some d ∧
    package_root x_package = package_root_at d "@s/x".
Proof.
  split; [exact x_resolves|].
  destruct (resolved_entries_are_real (FL := react_disk) (ML := one_manifest x_manifest) (OX := resolves_nothing)
              _ _ _ x_resolves) as ((directory & i & d & Hp & Hi & Hr & _) & _). exists directory, i, d.
  split; [exact Hp|]. split; [exact Hi|exact Hr].
Defined.

Definition x_identity : CacheIdentity :=
  {| ci_analyzer_version := ""; ci_specifier := "@s/x"; ci_package_name := "@s/x"; ci_package_version := "1.0.0";
     ci_package_root := Some "/w/node_modules/@s/x"; ci_entry_path := Some "/w/node_modules/@s/x/lib/index.js";
     ci_runtime := Client; ci_import_kind := Default; ci_named_exports := [] |}.

Lemma rehydration_restores_the_package_witness :
  identity_names x_identity x_package ∧
  resolved_from_cache_identity (FL := react_disk) (ML := one_manifest x_manifest) x_identity = Some x_package.
Proof.
  assert (identity_names x_identity x_package) as Hi by (split; reflexivity).
  split; [exact Hi|].
  destruct (rehydration_restores_the_package (FL := react_disk) (ML := one_manifest x_manifest)
              (OX := resolves_nothing) _ _ _ _ x_resolves Hi) as (q & Hq & _ & _ & _ & _ & Hf & _).
  rewrite Hq. f_equal. apply (Hf "js"); [vm_compute; reflexivity|unfold FORMAT_EXTENSIONS; set_solver].
Defined.

(** *** What modelling showed *)

(** The module resolver can say the entry is an ES module (its nearest manifest
    has [type: module]): a [.js] entry is reported as CommonJS all the same. *)
Definition says_module : Oxc := {|
  default_options := no_options;
  oxc_resolve _ _ _ := inl {| full_path := "/w/node_modules/@s/x/lib/index.js"; query := None; fragment := None;
                              is_commonjs_module := false |};
  tsconfig_references _ _ := None;
  normalize_with d _ := d;
|}.
Lemma module_answer_is_discarded :
  resolve_package_entry (FL := react_disk) (ML := one_manifest x_manifest) (OX := says_module)
    "/w/src/a.ts" x_request = inl x_package ∧ is_cjs x_package = true.
Proof. vm_compute. by split. Qed.

(** Nine importable directories, listed in two orders: the eight a hint names
    are not the same eight. *)
Definition nine : list string := ["a"; "b"; "c"; "d"; "e"; "f"; "g"; "h"; "i"].
Definition listing (names : list string) : Files := {|
  is_file _ := true; is_dir _ := true; exists_path _ := true; canonicalize p := inl p;
  read_to_string _ := inr "gone"; read_dir_names _ := Some names; file_len _ := None |}.
Lemma hint_depends_on_the_listing_order :
  nine ≡ₚ reverse nine ∧
  importable_subpaths (FL := listing nine) "/p" ≠ importable_subpaths (FL := listing (reverse nine)) "/p".
Proof. split; [symmetry; apply reverse_Permutation|vm_compute; discriminate]. Qed.
