(* ===== verification/Aliases.v ===== *)
(** * First-party aliases (pipeline/resolver.rs)

    Whether a specifier is a path alias: the workspace's nearest tsconfig, every
    config its [references] reach, and the tables of its bundler configs, each
    asked in turn. *)
From stdpp Require Import base list strings relations.
From S2P Require Import Prelude Json Results ProjectRegistry Paths Manifests BundlerAliases Resolver.

Set Default Proof Using "Type*".

Definition ALIAS_CONFIG_FILE_NAMES : list string := ["tsconfig.json"; "jsconfig.json"].
Definition MAX_REACHABLE_ALIAS_CONFIGS : nat := 24.

(** The first answer of a list of tries ([find_map]). *)
Fixpoint find_map {A B} (f : A → option B) (l : list A) : option B :=
  match l with
  | [] => None
  | a :: l => match f a with Some b => Some b | None => find_map f l end
  end.

Section aliases.
Context `{FL : Files, ML : ManifestLibraries, OX : Oxc, CP : ConfigParser}.

Definition find_workspace_config (workspace_root active_document_path : string) : option string :=
  find_map (λ directory, find (λ candidate, is_file candidate)
                           ((λ name, path_push directory name) <$> ALIAS_CONFIG_FILE_NAMES))
    (workspace_directories workspace_root active_document_path).

Definition referenced_config_file (directory reference : string) : option string :=
  let candidate := normalize_with directory reference in
  if is_file candidate then Some candidate
  else if is_dir candidate then
    let implied := path_push candidate "tsconfig.json" in
    if is_file implied then Some implied else None
  else
    let with_extension := append_extension candidate "json" in
    if is_file with_extension then Some with_extension else None.

Definition referenced_alias_configs (config_file : string) : list string :=
  match path_parent config_file with
  | None => []
  | Some directory =>
      match read_to_string config_file with
      | inr _ => []
      | inl source =>
          match tsconfig_references config_file source with
          | None => []
          | Some references => omap (referenced_config_file directory) references
          end
      end
  end.

(** [discovered.contains(&referenced)]. *)
Definition discovered_contains (discovered : list string) (path : string) : bool :=
  existsb (path_eqb path) discovered.

(** The inner loop, with its [break] at the cap. *)
Fixpoint discover (discovered referenced : list string) : list string :=
  match referenced with
  | [] => discovered
  | r :: referenced =>
      if discovered_contains discovered r then discover discovered referenced
      else
        let discovered := discovered ++ [r] in
        if (MAX_REACHABLE_ALIAS_CONFIGS <=? length discovered)%nat then discovered
        else discover discovered referenced
  end.

(** The outer loop. [next] grows by one a turn and stays below the cap, so the
    cap is enough fuel. *)
Fixpoint walk_references (fuel next : nat) (discovered : list string) : list string :=
  match fuel with
  | 0 => discovered
  | S fuel =>
      match discovered !! next with
      | None => discovered
      | Some current =>
          if (MAX_REACHABLE_ALIAS_CONFIGS <=? length discovered)%nat then discovered
          else walk_references fuel (S next) (discover discovered (referenced_alias_configs current))
      end
  end.
Definition reachable_alias_configs (config_file : string) : list string :=
  walk_references MAX_REACHABLE_ALIAS_CONFIGS 0 [config_file].

(** [ResolverSet::alias_resolvers]: a resolver with its own facts per table. *)
Definition alias_resolvers (workspace_root active_document_path : string) : option (list Resolver) :=
  let of_config config := {| facts := OwnFacts; options := alias_resolve_options config |} in
  let of_table table := {| facts := OwnFacts; options := bundler_alias_resolve_options table |} in
  let resolvers :=
    match find_workspace_config workspace_root active_document_path with
    | Some config_file => of_config <$> reachable_alias_configs config_file
    | None => []
    end ++ (of_table <$> alias_tables workspace_root active_document_path) in
  if bool_decide (resolvers = []) then None else Some resolvers.

Definition is_first_party_source (path : string) : bool :=
  is_file path && negb (has_component "node_modules" path).

(** [FirstPartySourceProbe::resolves_to_first_party_source]. *)
Definition resolves_to_first_party_source (workspace_root active_document_path spec : string) : bool :=
  match path_parent active_document_path with
  | None => false
  | Some directory =>
      match alias_resolvers workspace_root active_document_path with
      | None => false
      | Some resolvers =>
          existsb (λ r, match oxc_resolve r directory spec with
                        | inl resolution => is_first_party_source (full_path resolution)
                        | inr _ => false
                        end) resolvers
      end
  end.

(** ** The walk over [references] *)

Lemma discovered_contains_spec l r :
  discovered_contains l r = true ↔ ∃ d, d ∈ l ∧ components d = components r.
Proof.
  unfold discovered_contains. rewrite existsb_elem. unfold path_eqb.
  setoid_rewrite bool_decide_eq_true. split; intros (d & ? & ?); by exists d.
Qed.

(** What every list the walk builds satisfies. *)
Record found (config : string) (l : list string) : Prop := {
  found_first : head l = Some config;
  found_distinct : NoDup (components <$> l);
  found_capped : length l ≤ MAX_REACHABLE_ALIAS_CONFIGS;
  found_reached : ∀ c, c ∈ l → rtc (λ a b, b ∈ referenced_alias_configs a) config c;
}.

Lemma discover_found config current refs l :
  found config l → length l < MAX_REACHABLE_ALIAS_CONFIGS → current ∈ l →
  (∀ r, r ∈ refs → r ∈ referenced_alias_configs current) →
  found config (discover l refs) ∧ l `prefix_of` discover l refs ∧
  (length (discover l refs) < MAX_REACHABLE_ALIAS_CONFIGS →
   ∀ r, r ∈ refs → ∃ d, d ∈ discover l refs ∧ components d = components r).
Proof.
  revert l. induction refs as [|r refs IH]; intros l Hl Hlen Hc Hrefs; cbn [discover].
  { split_and!; [done..|]. by intros _ r ?%elem_of_nil. }
  destruct (discovered_contains l r) eqn:Hd.
  - apply discovered_contains_spec in Hd as (d & Hin & Hd).
    destruct (IH l) as (Hf & Hp & Hall); [done..| |]; [intros; apply Hrefs; by right|].
    split_and!; [done..|]. intros Hlt s [->|Hs]%elem_of_cons; [|by apply Hall].
    exists d. split; [|done]. destruct Hp as [k ->]. apply elem_of_app. by left.
  - assert (found config (l ++ [r])) as Hf.
    { destruct Hl as [H1 H2 H3 H4]. split.
      - by destruct l.
      - rewrite fmap_app. apply NoDup_app. split_and!; [done| |apply NoDup_singleton].
        intros x (d & -> & Hin)%list_elem_of_fmap Hr. apply list_elem_of_singleton in Hr.
        apply not_true_iff_false in Hd. apply Hd, discovered_contains_spec. by exists d.
      - rewrite length_app. cbn. lia.
      - intros c [Hin| ->%list_elem_of_singleton]%elem_of_app; [by apply H4|].
        eapply rtc_r; [by apply H4|]. apply Hrefs. by left. }
    destruct (Nat.leb_spec MAX_REACHABLE_ALIAS_CONFIGS (length (l ++ [r]))) as [Hcap|Hcap].
    + split_and!; [done|by eexists|lia].
    + destruct (IH (l ++ [r])) as (Hf' & Hp & Hall); [done..|apply elem_of_app; by left| |].
      { intros; apply Hrefs; by right. }
      split_and!; [done|by eapply prefix_app_l|]. intros Hlt s [->|Hs]%elem_of_cons; [|by apply Hall].
      exists r. split; [|done]. destruct Hp as [k ->]. rewrite !elem_of_app. left; right. by left.
Qed.

(** The configs before [next] have had their references read. *)
Definition closed_below (next : nat) (l : list string) : Prop :=
  ∀ i c r, i < next → l !! i = Some c → r ∈ referenced_alias_configs c →
  ∃ d, d ∈ l ∧ components d = components r.

Lemma walk_references_found fuel next config l :
  found config l → next ≤ length l → MAX_REACHABLE_ALIAS_CONFIGS ≤ next + fuel →
  (length l < MAX_REACHABLE_ALIAS_CONFIGS → closed_below next l) →
  found config (walk_references fuel next l) ∧
  (length (walk_references fuel next l) < MAX_REACHABLE_ALIAS_CONFIGS →
   closed_below (length (walk_references fuel next l)) (walk_references fuel next l)).
Proof.
  revert next l. induction fuel as [|fuel IH]; intros next l Hl Hn Hfuel Hcl; cbn [walk_references].
  { split; [done|]. intros Hlt. pose proof (found_capped _ _ Hl). lia. }
  destruct (l !! next) as [current|] eqn:Hc.
  2:{ split; [done|]. intros Hlt. apply lookup_ge_None in Hc. replace (length l) with next by lia. by apply Hcl. }
  destruct (Nat.leb_spec MAX_REACHABLE_ALIAS_CONFIGS (length l)) as [Hcap|Hcap].
  { split; [done|lia]. }
  destruct (discover_found config current (referenced_alias_configs current) l) as (Hf & [k Hp] & Hall);
    [done..|by apply list_elem_of_lookup_2 in Hc|done|].
  pose proof (lookup_lt_Some _ _ _ Hc) as Hlt.
  apply IH; [done| |lia|].
  - rewrite Hp, length_app. lia.
  - intros Hsmall i c r Hi Hic Hr. destruct (decide (i = next)) as [->|Hne].
    + rewrite Hp, lookup_app_l in Hic by done. simplify_eq. by apply Hall.
    + rewrite Hp, lookup_app_l in Hic by lia.
      destruct (Hcl Hcap i c r ltac:(lia) Hic Hr) as (d & Hd & He). exists d. split; [|done].
      rewrite Hp. apply elem_of_app. by left.
Qed.

(** The walk over a config's references always ends within the cap. It
    starts with the config itself, lists no path twice, and lists only configs
    that a chain of references reaches; and when it stays below the cap it has
    missed nothing: every config referenced by a listed one is listed. *)
Theorem reachable_configs_are_the_reachable_ones config_file :
  let configs := reachable_alias_configs config_file in
  head configs = Some config_file ∧
  NoDup (components <$> configs) ∧
  length configs ≤ MAX_REACHABLE_ALIAS_CONFIGS ∧
  (∀ c, c ∈ configs → rtc (λ a b, b ∈ referenced_alias_configs a) config_file c) ∧
  (length configs < MAX_REACHABLE_ALIAS_CONFIGS →
   ∀ c r, c ∈ configs → r ∈ referenced_alias_configs c → ∃ d, d ∈ configs ∧ components d = components r).
Proof.
  cbv zeta. unfold reachable_alias_configs.
  destruct (walk_references_found MAX_REACHABLE_ALIAS_CONFIGS 0 config_file [config_file]) as ([H1 H2 H3 H4] & Hcl).
  - split; [done|cbn; apply NoDup_singleton|unfold MAX_REACHABLE_ALIAS_CONFIGS; cbn; lia|].
    intros c ->%list_elem_of_singleton. done.
  - lia.
  - done.
  - intros _ i c r Hi. lia.
  - split_and!; try done. intros Hlt c r Hc Hr. apply list_elem_of_lookup_1 in Hc as [i Hi].
    eapply (Hcl Hlt); [by eapply lookup_lt_Some|done|done].
Qed.

(** ** The probe *)

Lemma find_map_elem {A B} (f : A → option B) l b : find_map f l = Some b → ∃ a, a ∈ l ∧ f a = Some b.
Proof.
  induction l as [|a l IH]; cbn; [done|]. destruct (f a) eqn:Ha.
  - intros [= ->]. exists a. by split; [left|].
  - intros H. destruct (IH H) as (a' & ? & ?). exists a'. by split; [right|].
Qed.

Lemma workspace_directory_inside workspace_root doc d :
  d ∈ workspace_directories workspace_root doc →
  d ∈ tail (ancestors doc) ∧ components workspace_root `prefix_of` components d.
Proof.
  intros Hd. apply elem_of_take_while in Hd as [? ?]. split; [done|]. by apply path_starts_with_spec.
Qed.

(** A specifier counts as first-party only on positive evidence: some alias
    table of the workspace maps it to a file that exists with no [node_modules]
    in its path. Every table asked reads a config the workspace reaches (from
    the nearest tsconfig or jsconfig in a directory at or above the document
    and inside the workspace root) or an alias table of its bundler configs,
    through facts of its own; a document outside the workspace is never
    first-party evidence. *)
Theorem aliases_need_positive_evidence workspace_root active_document_path spec :
  resolves_to_first_party_source workspace_root active_document_path spec = true →
  ∃ directory r resolution,
    path_parent active_document_path = Some directory ∧
    oxc_resolve r directory spec = inl resolution ∧
    is_file (full_path resolution) = true ∧ has_component "node_modules" (full_path resolution) = false ∧
    facts r = OwnFacts ∧
    components workspace_root `prefix_of` components directory ∧
    ((∃ d name config, d ∈ tail (ancestors active_document_path) ∧
        components workspace_root `prefix_of` components d ∧
        name ∈ ALIAS_CONFIG_FILE_NAMES ∧ is_file (path_push d name) = true ∧
        config ∈ reachable_alias_configs (path_push d name) ∧ options r = alias_resolve_options config) ∨
     (∃ table, table ∈ alias_tables workspace_root active_document_path ∧
        options r = bundler_alias_resolve_options table)).
Proof.
  unfold resolves_to_first_party_source. destruct (path_parent _) as [directory|] eqn:Hp; [|done].
  destruct (alias_resolvers _ _) as [resolvers|] eqn:Hr; [|done].
  rewrite existsb_elem. intros (r & Hin & Hres). destruct (oxc_resolve _ _ _) as [resolution|] eqn:Ho; [|done].
  unfold is_first_party_source in Hres. apply andb_true_iff in Hres as [Hfile Hnm]. apply negb_true_iff in Hnm.
  unfold alias_resolvers in Hr. case_bool_decide; [done|]. simplify_eq.
  assert (∀ d, d ∈ workspace_directories workspace_root active_document_path →
            components workspace_root `prefix_of` components directory) as Hdir.
  { intros d [Hd Hpre]%workspace_directory_inside. etrans; [done|].
    rewrite ancestors_unfold, Hp in Hd. by apply ancestors_prefix. }
  apply elem_of_app in Hin as [Hin|Hin].
  - destruct (find_workspace_config _ _) as [config_file|] eqn:Hc; [|by apply elem_of_nil in Hin].
    apply find_map_elem in Hc as (d & Hd & Hf). apply find_some in Hf as [Hn Hfl].
    rewrite <- list_elem_of_In in Hn. apply list_elem_of_fmap in Hn as (name & -> & Hn).
    apply list_elem_of_fmap in Hin as (config & -> & Hcfg).
    exists directory, {| facts := OwnFacts; options := alias_resolve_options config |}, resolution.
    split_and!; try done; [by eapply Hdir|]. left. apply workspace_directory_inside in Hd as [Hd Hpre].
    by exists d, name, config.
  - apply list_elem_of_fmap in Hin as (table & -> & Ht).
    exists directory, {| facts := OwnFacts; options := bundler_alias_resolve_options table |}, resolution.
    split_and!; try done; [|right; by exists table].
    unfold alias_tables in Ht. apply list_elem_of_filter in Ht as [_ Ht].
    apply list_elem_of_fmap in Ht as (c & _ & Ht). apply list_elem_of_bind in Ht as (d & _ & Hd).
    by eapply Hdir.
Qed.
End aliases.

(** ** A scaffold whose aliases live in a referenced project *)

Definition scaffold_disk : Files :=
  listed_files ["/w/tsconfig.json"; "/w/tsconfig.app.json"; "/w/src/x.ts"]
    [("/w/tsconfig.json", "root"); ("/w/tsconfig.app.json", "app")].
Definition scaffold_oxc : Oxc := {|
  default_options := no_options;
  oxc_resolve r _ spec :=
    if bool_decide (tsconfig (options r) = Some "/w/tsconfig.app.json") && bool_decide (spec = "@app/x")
    then inl {| full_path := "/w/src/x.ts"; query := None; fragment := None; is_commonjs_module := false |}
    else inr "not found";
  tsconfig_references _ source :=
    if decide (source = "root") then Some ["./tsconfig.app"; "./tsconfig.node"; "."] else Some ["./tsconfig"];
  normalize_with d reference :=
    if decide (reference = ".") then d else normalize (path_push d reference);
|}.

Lemma scaffold_reaches :
  reachable_alias_configs (FL := scaffold_disk) (OX := scaffold_oxc) "/w/tsconfig.json" =
  ["/w/tsconfig.json"; "/w/tsconfig.app.json"].
Proof. vm_compute. reflexivity. Qed.

Lemma aliases_need_positive_evidence_witness :
  resolves_to_first_party_source (FL := scaffold_disk) (OX := scaffold_oxc) (CP := λ _ _, None)
    "/w" "/w/src/a.ts" "@app/x" = true ∧
  resolves_to_first_party_source (FL := scaffold_disk) (OX := scaffold_oxc) (CP := λ _ _, None)
    "/w" "/w/src/a.ts" "@app/y" = false ∧
  ∃ directory r resolution,
    path_parent "/w/src/a.ts" = Some directory ∧
    oxc_resolve (Oxc := scaffold_oxc) r directory "@app/x" = inl resolution ∧
    is_file (Files := scaffold_disk) (full_path resolution) = true.
Proof.
  assert (resolves_to_first_party_source (FL := scaffold_disk) (OX := scaffold_oxc) (CP := λ _ _, None)
    "/w" "/w/src/a.ts" "@app/x" = true) as H by (vm_compute; reflexivity).
  split; [exact H|]. split; [vm_compute; reflexivity|].
  destruct (aliases_need_positive_evidence (FL := scaffold_disk) (OX := scaffold_oxc) (CP := λ _ _, None) _ _ _ H)
    as (d & r & res & H1 & H2 & H3 & _).
  exists d, r, res. split; [exact H1|]. split; [exact H2|exact H3].
Defined.
