(* ===== verification/PackageScan.v ===== *)
(** * Packages that ship no JavaScript (pipeline/types_only.rs, native_binary.rs, util.rs)

    The bounded scan that decides whether a package holds declarations only, and
    the two results a package with nothing to import is answered with. *)
From stdpp Require Import base list strings.
From S2P Require Import Prelude Json Stages Results CacheKeys ProjectRegistry Paths Manifests Resolver.

Set Default Proof Using "Type*".

(** ** What [read_dir] shows of a package

    A directory that cannot be listed is [TDir None]; links and special files
    are [TOther]: the entry's own type is asked for, so a link is never
    followed and the tree is finite. Entries that cannot be read are not in it. *)
Inductive Tree :=
  | TFile
  | TDir (entries : option (list (string * Tree)))
  | TOther.

Section tree_ind.
Context (P : Tree → Prop) (HFile : P TFile) (HNone : P (TDir None)) (HOther : P TOther)
        (HDir : ∀ l, Forall (λ e, P e.2) l → P (TDir (Some l))).
Fixpoint tree_rect (t : Tree) : P t :=
  match t with
  | TFile => HFile
  | TDir None => HNone
  | TDir (Some l) =>
      HDir l ((fix go l : Forall (λ e, P e.2) l :=
        match l with
        | [] => Forall_nil_2 _
        | e :: l => Forall_cons_2 (λ e, P e.2) e l (tree_rect e.2) (go l)
        end) l)
  | TOther => HOther
  end.
End tree_ind.

(** ** Names *)

Definition should_skip_package_directory (name : string) : bool :=
  bool_decide (name ∈ ["node_modules"; ".git"; ".hg"; ".svn"; ".cache"; ".turbo"; ".parcel-cache";
                       ".next"; ".nuxt"; ".vite"; "coverage"; "target"]).

Definition lowercase (s : string) : string := of_bytes (ProjectRegistry.to_ascii_lowercase <$> to_bytes s).
Definition ends_with (suffix s : string) : bool :=
  starts_with (reverse (to_bytes suffix)) (reverse (to_bytes s)).

Definition is_declaration_file (name : string) : bool :=
  let lower_name := lowercase name in
  ends_with ".d.ts" lower_name || ends_with ".d.mts" lower_name || ends_with ".d.cts" lower_name.

Definition is_runtime_source_file (name : string) : bool :=
  match path_extension name with
  | Some extension =>
      bool_decide (lowercase extension ∈ ["js"; "mjs"; "cjs"; "jsx"; "ts"; "tsx"; "mts"; "cts"])
  | None => false
  end.

(** ** The scan *)

Record DeclarationOnlyScan := {
  has_declaration_file : bool;
  has_runtime_file : bool;
  hit_cap : bool;
}.
Definition empty_scan : DeclarationOnlyScan :=
  {| has_declaration_file := false; has_runtime_file := false; hit_cap := false |}.
Definition is_declaration_only (s : DeclarationOnlyScan) : bool :=
  has_declaration_file s && negb (has_runtime_file s) && negb (hit_cap s).

Definition DECLARATION_ONLY_MAX_FILES : N := 10000.

(** [scan_entry]: the stack grows at its top, which is the head here. *)
Definition scan_entry (entry : string * Tree) (st : list Tree * N * DeclarationOnlyScan) :
    list Tree * N * DeclarationOnlyScan :=
  let '(stack, files, scan) := st in
  match entry.2 with
  | TDir _ => if should_skip_package_directory entry.1 then st else (entry.2 :: stack, files, scan)
  | TOther => st
  | TFile =>
      let files := (files + 1)%N in
      if (DECLARATION_ONLY_MAX_FILES <? files)%N then
        (stack, files, {| has_declaration_file := has_declaration_file scan;
                          has_runtime_file := has_runtime_file scan; hit_cap := true |})
      else if is_declaration_file entry.1 then
        (stack, files, {| has_declaration_file := true; has_runtime_file := has_runtime_file scan;
                          hit_cap := hit_cap scan |})
      else if is_runtime_source_file entry.1 then
        (stack, files, {| has_declaration_file := has_declaration_file scan; has_runtime_file := true;
                          hit_cap := hit_cap scan |})
      else (stack, files, scan)
  end.

(** The inner loop: [inr] is the early return. *)
Fixpoint scan_entries (entries : list (string * Tree)) (st : list Tree * N * DeclarationOnlyScan) :
    (list Tree * N * DeclarationOnlyScan) + DeclarationOnlyScan :=
  match entries with
  | [] => inl st
  | entry :: entries =>
      let st := scan_entry entry st in
      if has_runtime_file st.2 || hit_cap st.2 then inr st.2 else scan_entries entries st
  end.

(** The outer loop. Every turn takes one directory off the stack for good. *)
Fixpoint scan_stack (fuel : nat) (st : list Tree * N * DeclarationOnlyScan) : option DeclarationOnlyScan :=
  match fuel, st with
  | _, ([], _, scan) => Some scan
  | 0, _ => None
  | S fuel, (directory :: stack, files, scan) =>
      match directory with
      | TDir (Some entries) =>
          match scan_entries entries (stack, files, scan) with
          | inr scan => Some scan
          | inl st => scan_stack fuel st
          end
      | _ => scan_stack fuel (stack, files, scan)
      end
  end.

(** The number of nodes of a tree: one turn each is enough. *)
Fixpoint tree_size (t : Tree) : nat :=
  match t with
  | TDir (Some entries) => S (sum_list ((λ e, tree_size e.2) <$> entries))
  | _ => 1
  end.
Definition scan_declaration_only_package (root : Tree) : option DeclarationOnlyScan :=
  scan_stack (tree_size root) ([root], 0%N, empty_scan).

(** ** The reference: every file of the package *)

Fixpoint files_below (t : Tree) : list string :=
  match t with
  | TDir (Some entries) =>
      flat_map (λ e, match e.2 with
                     | TFile => [e.1]
                     | TDir _ => if should_skip_package_directory e.1 then [] else files_below e.2
                     | TOther => []
                     end) entries
  | _ => []
  end.
Definition is_runtime_file (name : string) : bool := negb (is_declaration_file name) && is_runtime_source_file name.

(** What a scan that has counted [files] files and seen [declared] will say of
    the files that are left. *)
Definition verdict (declared : bool) (files : N) (rest : list string) : bool :=
  (declared || existsb is_declaration_file rest) && negb (existsb is_runtime_file rest) &&
  (files + N.of_nat (length rest) <=? DECLARATION_ONLY_MAX_FILES)%N.

Lemma existsb_perm {A} (f : A → bool) l l' : l ≡ₚ l' → existsb f l = existsb f l'.
Proof. induction 1; cbn; [done|by f_equal|destruct (f x), (f y); done|congruence]. Qed.

Lemma verdict_perm d n l l' : l ≡ₚ l' → verdict d n l = verdict d n l'.
Proof.
  intros H. unfold verdict. by rewrite (existsb_perm is_declaration_file _ _ H),
    (existsb_perm is_runtime_file _ _ H), (Permutation_length H).
Qed.

Definition entry_files (e : string * Tree) : list string :=
  match e.2 with
  | TFile => [e.1]
  | TDir _ => if should_skip_package_directory e.1 then [] else files_below e.2
  | TOther => []
  end.
Lemma files_below_dir l : files_below (TDir (Some l)) = flat_map entry_files l.
Proof. done. Qed.

Definition open_scan (st : list Tree * N * DeclarationOnlyScan) : Prop :=
  has_runtime_file st.2 = false ∧ hit_cap st.2 = false ∧ (st.1.2 <= DECLARATION_ONLY_MAX_FILES)%N.
Definition state_verdict (st : list Tree * N * DeclarationOnlyScan) (more : list string) : bool :=
  verdict (has_declaration_file st.2) st.1.2 (more ++ flat_map files_below st.1.1).

Lemma verdict_over d n l : (DECLARATION_ONLY_MAX_FILES < n + N.of_nat (length l))%N → verdict d n l = false.
Proof.
  intros H. unfold verdict. destruct (N.leb_spec (n + N.of_nat (length l)) DECLARATION_ONLY_MAX_FILES); [lia|].
  apply andb_false_r.
Qed.
Lemma verdict_runtime d n l : existsb is_runtime_file l = true → verdict d n l = false.
Proof. intros H. unfold verdict. rewrite H. by rewrite andb_false_r. Qed.

(** One entry: the scan stays open with the same verdict, or it closes on [false]. *)
Lemma scan_entry_verdict entry st more :
  open_scan st →
  let st' := scan_entry entry st in
  if has_runtime_file st'.2 || hit_cap st'.2
  then state_verdict st (entry_files entry ++ more) = false
  else open_scan st' ∧ state_verdict st (entry_files entry ++ more) = state_verdict st' more.
Proof.
  destruct st as [[stack files] scan]. intros (Hr & Hc & Hf). cbn in Hr, Hc, Hf.
  unfold scan_entry, entry_files, state_verdict. destruct entry as [name []]; cbn [fst snd].
  - destruct (N.ltb_spec DECLARATION_ONLY_MAX_FILES (files + 1)) as [Hn|Hn]; cbn [fst snd has_runtime_file hit_cap].
    { rewrite orb_true_r. apply verdict_over. cbn [app length]. lia. }
    assert (∀ d l, verdict d files (name :: l) =
      (if is_runtime_file name then false else verdict (d || is_declaration_file name) (files + 1) l)) as Hv.
    { intros d l. unfold verdict. cbn [existsb length].
      replace (files + N.of_nat (S (length l)))%N with (files + 1 + N.of_nat (length l))%N by lia.
      by destruct d, (is_declaration_file name), (is_runtime_file name), (existsb is_declaration_file l), (existsb is_runtime_file l). }
    cbn [app]. rewrite Hv. unfold is_runtime_file. destruct (is_declaration_file name); cbn [fst snd has_runtime_file hit_cap negb andb].
    { rewrite Hr, Hc. cbn. split; [by repeat split|]. by rewrite orb_true_r. }
    destruct (is_runtime_source_file name); cbn [fst snd has_runtime_file hit_cap]; [done|].
    rewrite Hr, Hc. cbn. split; [by repeat split|]. by rewrite orb_false_r.
  - destruct (should_skip_package_directory name); cbn [fst snd]; rewrite Hr, Hc; cbn [orb]; (split; [done|]); [done|].
    cbn [flat_map]. apply verdict_perm. rewrite <- (assoc_L (++)). by rewrite Permutation_app_swap_app.
  - rewrite Hr, Hc. cbn [orb]. done.
Qed.

Lemma scan_entries_verdict entries st :
  open_scan st →
  match scan_entries entries st with
  | inl st' => open_scan st' ∧ state_verdict st (flat_map entry_files entries) = state_verdict st' []
  | inr scan => is_declaration_only scan = false ∧ state_verdict st (flat_map entry_files entries) = false
  end.
Proof.
  revert st. induction entries as [|entry entries IH]; intros st Hst; cbn [scan_entries flat_map].
  { done. }
  pose proof (scan_entry_verdict entry st (flat_map entry_files entries) Hst) as He. cbv zeta in He.
  destruct (has_runtime_file _ || hit_cap _) eqn:Hx.
  - split; [|done]. unfold is_declaration_only.
    destruct (has_runtime_file _), (hit_cap _); cbn in *; try done; by rewrite ?andb_false_r.
  - destruct He as [Hopen ->]. by apply IH.
Qed.

(** Every turn the stack loses nodes. *)
Definition stack_size (stack : list Tree) : nat := sum_list (tree_size <$> stack).

Lemma scan_entries_size entries st st' :
  scan_entries entries st = inl st' →
  stack_size st'.1.1 ≤ stack_size st.1.1 + sum_list ((λ e, tree_size e.2) <$> entries).
Proof.
  revert st. induction entries as [|entry entries IH]; intros st; cbn [scan_entries].
  { intros [= ->]. cbn. lia. }
  case_match; [done|]. intros Hs. apply IH in Hs. etrans; [exact Hs|].
  destruct st as [[stack files] scan], entry as [name t]. unfold scan_entry. cbn [fst snd].
  rewrite fmap_cons. cbn [sum_list snd]. destruct t; repeat case_match; cbn [fst snd stack_size fmap list_fmap sum_list];
    unfold stack_size; cbn [fmap list_fmap sum_list tree_size] in *; lia.
Qed.

Lemma tree_size_pos t : 1 ≤ tree_size t.
Proof. destruct t as [|[|]|]; cbn; lia. Qed.

Lemma scan_stack_verdict n st :
  open_scan st → stack_size st.1.1 ≤ n →
  ∃ scan, scan_stack n st = Some scan ∧ is_declaration_only scan = state_verdict st [].
Proof.
  revert st. induction n as [|n IH]; intros [[stack files] scan] Hst Hn; cbn [fst snd] in *.
  all: destruct stack as [|d stack].
  1, 3: exists scan; split; [done|]; destruct Hst as (Hr & Hc & Hf); cbn in Hr, Hc, Hf;
    unfold is_declaration_only, state_verdict, verdict; cbn; rewrite Hr, Hc, N.add_0_r;
    rewrite (proj2 (N.leb_le _ _) Hf); by rewrite !orb_false_r, !andb_true_r.
  - change (tree_size d + stack_size stack ≤ 0) in Hn. pose proof (tree_size_pos d). lia.
  - change (tree_size d + stack_size stack ≤ S n) in Hn. cbn [scan_stack].
    destruct d as [|[entries|]|]; cbn [tree_size] in Hn; try (apply (IH (stack, files, scan)); [exact Hst|cbn [fst]; lia]).
    pose proof (scan_entries_verdict entries (stack, files, scan) Hst) as He.
    pose proof (scan_entries_size entries (stack, files, scan)) as Hs.
    unfold state_verdict at 1. cbn [fst snd app flat_map]. rewrite files_below_dir.
    destruct (scan_entries entries (stack, files, scan)) as [st'|scan'].
    + destruct He as [Hopen He]. specialize (Hs _ eq_refl). cbn [fst snd] in Hs.
      destruct (IH st') as (s & H1 & H2); [done|lia|]. exists s. split; [done|]. rewrite H2, <- He. done.
    + destruct He as [He1 He2]. exists scan'. split; [done|]. by rewrite He1, <- He2.
Qed.

(** The scan of a package always ends, within one turn per node, and it
    says "declarations only" exactly when the package, with its vendored and
    generated directories left out, holds a declaration file, no runtime source
    file, and no more files than the cap: neither the order the directories are
    taken in nor the early returns can change the answer. *)
Theorem scan_decides_declarations_only entries :
  ∃ scan, scan_declaration_only_package (TDir (Some entries)) = Some scan ∧
  (is_declaration_only scan = true ↔
   let files := files_below (TDir (Some entries)) in
   (∃ f, f ∈ files ∧ is_declaration_file f = true) ∧
   (∀ f, f ∈ files → is_runtime_source_file f = true → is_declaration_file f = true) ∧
   (N.of_nat (length files) <= DECLARATION_ONLY_MAX_FILES)%N).
Proof.
  destruct (scan_stack_verdict (tree_size (TDir (Some entries))) ([TDir (Some entries)], 0%N, empty_scan))
    as (scan & Hs & Hv); [by repeat split|unfold stack_size; cbn; lia|].
  exists scan. split; [exact Hs|]. rewrite Hv. unfold state_verdict. cbn [fst snd app flat_map].
  rewrite (right_id_L [] (++)). generalize (files_below (TDir (Some entries))) as files. intros files. cbv zeta.
  unfold verdict. rewrite !andb_true_iff, negb_true_iff, N.leb_le, N.add_0_l, <- not_true_iff_false.
  cbn [orb has_declaration_file empty_scan]. rewrite !existsb_elem. split.
  - intros [[Hd Hr] Hn]. split_and!; [done| |done]. intros f Hf Hrt.
    apply not_false_iff_true. intros Hdf. apply Hr. exists f. split; [done|]. unfold is_runtime_file. by rewrite Hdf, Hrt.
  - intros (Hd & Hr & Hn). split_and!; [done| |done]. intros (f & Hf & Hrt). unfold is_runtime_file in Hrt.
    apply andb_true_iff in Hrt as [Hnd Hrt]. by rewrite (Hr f Hf Hrt) in Hnd.
Qed.

(** ** The results *)

Section results.
Context `{FL : Files, ML : ManifestLibraries} (tree_at : string → Tree).

(** A package that ships nothing: measured, at zero. *)
Definition nothing_shipped (request : ImportRequest) (package_root why stage message : string) : ImportResult :=
  let r := measured (rq_specifier request) ZERO in
  {| specifier := specifier r; raw_bytes := raw_bytes r; minified_bytes := minified_bytes r;
     gzip_bytes := gzip_bytes r; brotli_bytes := brotli_bytes r; zstd_bytes := zstd_bytes r;
     cache_hit := cache_hit r; Results.side_effects := Results.side_effects r; truly_treeshakeable := true;
     Results.is_cjs := Results.is_cjs r; confidence := High; confidence_reasons := [why]; error := error r;
     unmeasured_stage := unmeasured_stage r;
     diagnostics := [{| d_stage := stage; d_message := message;
       d_details := ["specifier: " +:+ rq_specifier request; "package: " +:+ rq_package_name request;
                     "package_root: " +:+ package_root] |}];
     module_breakdown := Some []; shared_bytes := shared_bytes r; asset_breakdown := asset_breakdown r;
     r_freshness := r_freshness r; internal_contributions := internal_contributions r |}.

Definition declaration_only_package_result (active_document_path : string) (request : ImportRequest) :
    option ImportResult :=
  package_root ← ok (find_package_root active_document_path (rq_package_name request));
  scan ← scan_declaration_only_package (tree_at package_root);
  if is_declaration_only scan then
    Some (nothing_shipped request package_root
      "Package contains declaration files only and no runtime source files." stage.TYPES_ONLY
      "package contains declarations only; zero runtime cost")
  else None.

Definition read_manifest_json (package_root : string) : option Value :=
  text ← ok (read_to_string (manifest_path package_root));
  ok (from_str text).

Definition native_binary_only_package_result (active_document_path : string) (request : ImportRequest) :
    option ImportResult :=
  package_root ← ok (find_package_root active_document_path (rq_package_name request));
  manifest ← read_manifest_json package_root;
  if negb (manifest_is_native_binary_backed manifest) || negb (manifest_declares_no_js_entry manifest) then None
  else Some (nothing_shipped request package_root
    "Package ships a platform-specific native binary and no importable JavaScript entry." stage.NATIVE_BINARY_ONLY
    "package ships only a native binary; nothing is imported into the bundle").

Lemma nothing_shipped_measured request rt why st msg :
  sizes (nothing_shipped request rt why st msg) = Some ZERO ∧ result_wf (nothing_shipped request rt why st msg).
Proof. split; [done|]. left. repeat split; by eexists. Qed.
End results.
