(* ===== verification/Analyze.v ===== *)
(** * One import's analysis (pipeline/analyze.rs, fallback.rs, full_package.rs)

    From a resolved entry to a result: one engine build, its minified and
    compressed sizes, its assets, the full-package comparison, and the
    fingerprints the answer expires against; and every way it can fail. The
    engine, minifier, compressors and asset stage are parameters. *)
From stdpp Require Import base list strings.
From Stdlib Require Import ZArith.
From Stdlib.Floats Require Import SpecFloat.
From S2P Require Import Prelude Json Budget Stages Results Fingerprints CacheKeys AssetLedger EngineBoundary AssetReport FileSize ProjectRegistry Paths Manifests Resolver PackageScan.

Set Default Proof Using "Type*".

Record AnalysisContext := { workspace_root : string; active_document_path : string }.

Record FailureFreshness := { ff_fingerprints : list FileFingerprint; ff_loaded_paths : list string }.
Definition no_freshness : FailureFreshness := {| ff_fingerprints := []; ff_loaded_paths := [] |}.
Record AnalysisError := {
  ae_stage : string;
  ae_message : string;
  ae_details : list string;
  ae_freshness : FailureFreshness;
}.

(** [FingerprintSource::ReadTime]. *)
Record FingerprintSource := { fs_fingerprints : list FileFingerprint; stat_paths : list string }.

Inductive BundlePurpose := ImportSize | FileSizeTotal | FullPackageComparison | ExportEnumeration.

(** What a run stores in the full-package memo ([full_package::store]). *)
Record FullPackageMemo := { fm_len : N; fm_fingerprints : list FileFingerprint; fm_generation : N }.

Definition MAX_MODULE_SOURCE_BYTES : N := 20 * 1024 * 1024.

(** ** Details (fallback.rs)

    [chars] of a UTF-8 string: a byte that is not a continuation byte starts one. *)
Definition continues (c : ascii) : bool := let n := N_of_ascii c in ((128 <=? n) && (n <? 192))%N.
Fixpoint take_chars (n : nat) (l : list ascii) : list ascii :=
  match l with
  | [] => []
  | c :: rest =>
      if continues c then c :: take_chars n rest
      else match n with 0 => [] | S n => c :: take_chars n rest end
  end.
Definition count_chars (l : list ascii) : nat := length (filter (λ c, continues c = false) l).
Definition escape_newlines (l : list ascii) : list ascii :=
  flat_map (λ c, if decide (N_of_ascii c = 10%N) then ["\"%char; "n"%char]
                 else if decide (N_of_ascii c = 13%N) then ["\"%char; "r"%char] else [c]) l.
Definition source_excerpt_detail (source : string) : string :=
  let excerpt := of_bytes (escape_newlines (take_chars 240 (to_bytes source))) in
  if (240 <? count_chars (to_bytes source))%nat then "source_excerpt: " +:+ excerpt +:+ "..."
  else "source_excerpt: " +:+ excerpt.

(** [split("; ")], from the left. *)
Fixpoint split_details (fuel : nat) (l : list ascii) : list (list ascii) :=
  match fuel with
  | 0 => [l]
  | S fuel =>
      match find_sub (to_bytes "; ") l with
      | Some i => take i l :: split_details fuel (drop (i + 2) l)
      | None => [l]
      end
  end.
Definition resolver_details (message : string) : list string :=
  of_bytes <$> filter (λ p, starts_with (to_bytes "checked:") p || starts_with (to_bytes "candidate:") p = true)
    (split_details (String.length message) (to_bytes message)).

Definition says (message phrase : string) : bool := contains (to_bytes phrase) (to_bytes message).

Definition is_manifest_fallback_error (message : string) : bool :=
  says message "failed to read package manifest" || says message "failed to parse package manifest" ||
  says message "missing a string version".

(** The stage of an import whose entry did not resolve, from the resolver's words. *)
Definition unresolved_stage (message : string) : string :=
  if says message "unsafe package name" then stage.PACKAGE_VALIDATION
  else if says message "package manifest not found" then stage.PACKAGE_RESOLUTION
  else if is_manifest_fallback_error message then stage.PACKAGE_MANIFEST
  else if says message NO_ROOT_ENTRY_PHRASE then stage.NO_ROOT_ENTRY
  else stage.ENTRY_RESOLUTION.

(** ** Errors and results *)

Definition error_with_context (stage message : string) (context : AnalysisContext) (request : ImportRequest)
    (details : list string) : AnalysisError :=
  {| ae_stage := stage; ae_message := message;
     ae_details := ["specifier: " +:+ rq_specifier request; "package: " +:+ rq_package_name request;
                    "active_document_path: " +:+ active_document_path context;
                    "workspace_root: " +:+ workspace_root context] ++ details;
     ae_freshness := no_freshness |}.

Definition error_result (request : ImportRequest) (e : AnalysisError) : ImportResult :=
  unmeasured (rq_specifier request) (ae_stage e) (ae_message e) (ae_details e).

(** A known stage keeps its name; anything else is a generate failure. *)
Definition contract_stage (s : string) : string :=
  if bool_decide (s ∈ engine_stage.ALL) then s else engine_stage.GENERATE.

Definition engine_error (context : AnalysisContext) (request : ImportRequest) (f : Permits.BundleFailure) :
    AnalysisError :=
  let e := error_with_context (contract_stage (Permits.stage f)) (Permits.message f) context request
             ((λ d, d_stage d +:+ ": " +:+ d_message d) <$> Permits.diagnostics f) in
  {| ae_stage := ae_stage e; ae_message := ae_message e; ae_details := ae_details e;
     ae_freshness := {| ff_fingerprints := Permits.read_time_fingerprints f;
                        ff_loaded_paths := Permits.loaded_paths f |} |}.

Definition sort_dedup_paths (paths : list string) : list string := dedup (sort path_cmp paths).

(** ** Sizes, confidence and contributions *)

(** The [f64] ratio against [0.95], in binary64. *)
Definition ninety_five_percent : spec_float := S754_finite false 8556839292003942 (-53).
Definition within_tree_shaken_ratio (minified full : N) : bool :=
  SFleb (SFdiv 53 1024 (f64_of_u64 minified) (f64_of_u64 full)) ninety_five_percent.

Definition engine_confidence (side_effects : bool) (diags : list ImportDiagnostic) :
    ConfidenceLevel * list string :=
  if negb side_effects && bool_decide (diags = []) then
    (High, ["Rolldown linking plus OXC validation, minification, and compression completed without precision warnings."])
  else
    let reasons :=
      (if side_effects
       then ["Package declares side effects, so modules it retains cannot be certified as tree-shaken away."]
       else []) ++
      (if bool_decide (diags = []) then []
       else ["Analysis emitted diagnostics that can reduce precision: " +:+
             join_with ", " (dedup (sort String.compare (d_stage <$> diags))) +:+ "."]) in
    (Medium, if bool_decide (reasons = []) then ["Engine pipeline completed with conservative assumptions."] else reasons).

(** One asset into the rows: the asset's own size replaces a row of its path. *)
Fixpoint merge_asset (path : string) (len : N) (rows : list ModuleContribution) : list ModuleContribution :=
  match rows with
  | [] => [{| mc_path := path; mc_bytes := len |}]
  | row :: rows =>
      if decide (mc_path row = path) then {| mc_path := mc_path row; mc_bytes := len |} :: rows
      else row :: merge_asset path len rows
  end.
Definition merge_assets (collected : list CollectedAsset) (rows : list ModuleContribution) : list ModuleContribution :=
  foldl (λ rows a, merge_asset (a_path a) (asset_len a) rows) rows collected.

Definition contribution_cmp : ModuleContribution → ModuleContribution → comparison :=
  cmp_on (λ c, (mc_bytes c, mc_path c)) (cmp_lex (cmp_rev N.compare) String.compare).
Definition top_module_contributions (rows : list ModuleContribution) : list ModuleContribution :=
  take 10 (sort contribution_cmp rows).

(** [ImportResult::measured] with the fields the engine path fills in. *)
Definition engine_result (request : ImportRequest) (s : MeasuredSizes) (effects shakeable cjs : bool)
    (diags : list ImportDiagnostic) (rows : list ModuleContribution) (breakdown : list AssetContribution) :
    ImportResult :=
  let r := measured (rq_specifier request) s in
  let '(conf, reasons) := engine_confidence effects diags in
  {| specifier := specifier r; raw_bytes := raw_bytes r; minified_bytes := minified_bytes r;
     gzip_bytes := gzip_bytes r; brotli_bytes := brotli_bytes r; zstd_bytes := zstd_bytes r;
     cache_hit := cache_hit r; Results.side_effects := effects; truly_treeshakeable := shakeable;
     Results.is_cjs := cjs; confidence := conf; confidence_reasons := reasons; error := error r;
     unmeasured_stage := unmeasured_stage r; diagnostics := diags;
     module_breakdown := Some (top_module_contributions rows); shared_bytes := shared_bytes r;
     asset_breakdown := breakdown; r_freshness := r_freshness r; internal_contributions := rows |}.

Section analyze.
Context `{DISK : FileSystem, CH : ContentHash, FL : Files, ML : ManifestLibraries, OX : Oxc} (windows : bool)
        (tree_at : string → Tree)
        (bundle_sync : BundlePurpose → ImportRuntime → list BundleEntry → BundleArtifact + Permits.BundleFailure)
        (minify_source : string → string + string)
        (compress_all : string → CompressionSizes + string)
        (process_assets_bounded : list CollectedAsset → N → list string → ProcessedAssets + AssetProcessingFailure).

(** ** Manifests that shaped the build *)

(** The walk up from one module. [fuel] is the number of components left. *)
Fixpoint manifest_walk (fuel : nat) (rt current : string) (st : list string * list string) :
    list string * list string :=
  let '(seen, manifests) := st in
  if existsb (path_eqb current) seen then st
  else
    let seen := current :: seen in
    let manifest := manifest_path current in
    if is_file manifest then (seen, manifests ++ [manifest])
    else if path_eqb current rt then (seen, manifests)
    else match fuel, path_parent current with
         | S fuel, Some up => manifest_walk fuel rt up (seen, manifests)
         | _, _ => (seen, manifests)
         end.

Definition manifest_step (rt : string) (st : list string * list string) (path : string) : list string * list string :=
  if has_component "node_modules" path then st
  else match path_parent path with
       | Some directory => manifest_walk (length (components directory)) rt directory st
       | None => st
       end.

Definition canonical_root (context : AnalysisContext) : string :=
  match canonicalize (workspace_root context) with inl real => real | inr _ => workspace_root context end.

Definition first_party_manifests (context : AnalysisContext) (loaded : list string) : list string :=
  (foldl (manifest_step (canonical_root context)) ([], []) loaded).2.

Definition manifest_stat_paths (context : AnalysisContext) (package_root : string) (loaded : list string) :
    list string := manifest_path package_root :: first_party_manifests context loaded.

Definition manifest_augmented_fingerprints (context : AnalysisContext) (package_root : string)
    (read_time : list FileFingerprint) (loaded : list string) : list FileFingerprint :=
  read_time ++ omap (file_fingerprint_reading_hash windows) (manifest_stat_paths context package_root loaded).

Definition full_package_fingerprints (context : AnalysisContext) (package_root : string) (full : BundleArtifact) :
    list FileFingerprint :=
  manifest_augmented_fingerprints context package_root (art_fingerprints full) (loaded_paths full).

Definition engine_failure_fingerprints (context : AnalysisContext) (package_root : string) (e : AnalysisError) :
    option FingerprintSource :=
  match ff_fingerprints (ae_freshness e) with
  | [] => None
  | fps => Some {| fs_fingerprints := fps;
                   stat_paths := manifest_stat_paths context package_root (ff_loaded_paths (ae_freshness e)) |}
  end.

Definition unhashed_fingerprints (paths : list string) : list FileFingerprint :=
  unverifiable_file_fingerprint windows <$> paths.

Definition import_freshness (read_time : list FileFingerprint) (unhashed : list string)
    (asset_fingerprints : list FileFingerprint) (stat : list string) : FingerprintSource :=
  {| fs_fingerprints := sort_and_dedup_fingerprints (read_time ++ unhashed_fingerprints unhashed ++ asset_fingerprints);
     stat_paths := stat |}.

Definition asset_processing_error (context : AnalysisContext) (request : ImportRequest) (a : BundleArtifact)
    (f : AssetProcessingFailure) : AnalysisError :=
  let e := error_with_context (apf_stage f) (apf_message f) context request [] in
  {| ae_stage := ae_stage e; ae_message := ae_message e; ae_details := ae_details e;
     ae_freshness := {|
       ff_fingerprints := sort_and_dedup_fingerprints
         (art_fingerprints a ++ apf_read_time_fingerprints f ++ unhashed_fingerprints (unhashed_paths a));
       ff_loaded_paths := sort_dedup_paths (loaded_paths a ++ apf_read_paths f) |} |}.

(** ** The full-package comparison *)

(** The length of the whole package minified, with the diagnostic a failed
    build leaves and what the memo is given. [memo] is what the memo answers,
    [generation] the cache generation read before the build. *)
Definition full_package_len (context : AnalysisContext) (request : ImportRequest) (entry package_root : string)
    (memo : option N) (generation : N) :
    option N * list ImportDiagnostic * option FullPackageMemo :=
  match memo with
  | Some len => (Some len, [], None)
  | None =>
      match bundle_sync FullPackageComparison (rq_runtime request)
              [{| FileSize.entry_path := entry; FileSize.package_root := package_root; selection := SelectFull |}] with
      | inr failure =>
          (None, [diagnostic (contract_stage (Permits.stage failure))
             ("full-package comparison build failed; treating as not tree-shakeable: " +:+ Permits.message failure) []], None)
      | inl full =>
          match minify_source (code full) with
          | inr _ => (None, [], None)
          | inl minified =>
              let len := N.of_nat (String.length minified) in
              (Some len, [],
               if bool_decide (unhashed_paths full = [])
               then Some {| fm_len := len; fm_fingerprints := full_package_fingerprints context package_root full;
                            fm_generation := generation |}
               else None)
          end
      end
  end.

Definition compares (request : ImportRequest) (effects : bool) : bool :=
  negb effects && bool_decide (rq_import_kind request = Named) && negb (bool_decide (rq_named request = [])).

Definition shakeable (minified : string) (full_len : option N) : bool :=
  match full_len with
  | Some len => (0 <? len)%N && within_tree_shaken_ratio (N.of_nat (String.length minified)) len
  | None => false
  end.

(** ** The engine path *)

(** A build whose every stage succeeded, as a result. *)
Definition measured_import (context : AnalysisContext) (request : ImportRequest) (entry package_root : string)
    (mode : SideEffectsMode) (cjs : bool) (memo : option N) (generation : N)
    (a : BundleArtifact) (minified : string) (compressed : CompressionSizes) (processed : ProcessedAssets) :
    (ImportResult * list string * FingerprintSource) * option FullPackageMemo :=
  let effects := has_side_effects mode in
  let diags := (strip_details <$> art_diagnostics a) ++ asset_diagnostics processed in
  let '(full_len, more, stored) :=
    if compares request effects then full_package_len context request entry package_root memo generation
    else (None, [], None) in
  let js := {| m_raw := N.of_nat (String.length (code a)); m_minified := N.of_nat (String.length minified);
               m_gzip := z_gzip compressed; m_brotli := z_brotli compressed; m_zstd := z_zstd compressed |} in
  ((engine_result request (add_sizes js (total processed)) effects (shakeable minified full_len) cjs
      (diags ++ more) (merge_assets (assets a) (art_contributions a)) (contributions processed),
    sort_dedup_paths (loaded_paths a ++ pa_read_paths processed),
    import_freshness (art_fingerprints a) (unhashed_paths a) (freshness_fingerprints processed)
      (manifest_stat_paths context package_root (loaded_paths a))), stored).

Definition analyze_with_rolldown_engine (context : AnalysisContext) (request : ImportRequest)
    (entry package_root : string) (mode : SideEffectsMode) (cjs : bool) (memo : option N) (generation : N) :
    ((ImportResult * list string * FingerprintSource) * option FullPackageMemo) + AnalysisError :=
  match bundle_sync ImportSize (rq_runtime request)
          [{| FileSize.entry_path := entry; FileSize.package_root := package_root;
              selection := engine_selection request |}] with
  | inr failure => inr (engine_error context request failure)
  | inl a =>
      match minify_source (code a) with
      | inr err => inr (error_with_context stage.MINIFY ("failed to minify engine chunk: " +:+ err) context request
                          [source_excerpt_detail (code a)])
      | inl minified =>
          match compress_all minified with
          | inr err => inr (error_with_context stage.COMPRESSION ("failed to compress minified output: " +:+ err)
                              context request [])
          | inl compressed =>
              match process_assets_bounded (assets a) (graph_source_bytes a) (loaded_paths a) with
              | inr failure => inr (asset_processing_error context request a failure)
              | inl processed =>
                  inl (measured_import context request entry package_root mode cjs memo generation
                         a minified compressed processed)
              end
          end
      end
  end.

(** [stat_error] is how the failed stat is displayed. The third part of an
    answer is what the loaded-path index records under the entry and runtime. *)
Definition analyze_import_inner_resolved (stat_error : ErrorKind → string) (context : AnalysisContext)
    (request : ImportRequest) (p : Resolver.ResolvedPackage) (memo : option N) (generation : N) :
    ((ImportResult * FingerprintSource * (string * ImportRuntime * list string)) * option FullPackageMemo) + AnalysisError :=
  let entry := Resolver.entry_path p in
  match fs_metadata entry with
  | inr err =>
      inr (error_with_context stage.ENTRY_METADATA
             ("failed to stat package entry " +:+ entry +:+ ": " +:+ stat_error err) context request
             ["entry_path: " +:+ entry])
  | inl md =>
      if (MAX_MODULE_SOURCE_BYTES <? md_len md)%N then
        inr (error_with_context stage.OVERSIZED_ENTRY
               "entry file exceeds the 20971520 byte module source limit, so no module graph could be built"
               context request ["entry_path: " +:+ entry])
      else
        match analyze_with_rolldown_engine context request entry (Resolver.package_root p) (Resolver.side_effects p)
                (Resolver.is_cjs p) memo generation with
        | inr e => inr e
        | inl ((result, loaded, freshness), stored) =>
            inl ((annotate_native_binary result (package_json p), freshness, (entry, rq_runtime request, loaded)), stored)
        end
  end.

Definition analyze_resolved_import_with_dependencies (stat_error : ErrorKind → string) (context : AnalysisContext)
    (request : ImportRequest) (p : Resolver.ResolvedPackage) (memo : option N) (generation : N) :
    ImportResult * option FingerprintSource :=
  match analyze_import_inner_resolved stat_error context request p memo generation with
  | inl ((result, source, _), _) => (result, Some source)
  | inr e => (error_result request e, engine_failure_fingerprints context (Resolver.package_root p) e)
  end.

(** What a cached answer expires against ([service::dependency_fingerprints]). *)
Definition dependency_fingerprints (p : Resolver.ResolvedPackage) (source : option FingerprintSource) :
    list FileFingerprint :=
  sort_and_dedup_fingerprints
    match source with
    | Some s => fs_fingerprints s ++ omap (file_fingerprint_reading_hash windows) (stat_paths s)
    | None => omap (file_fingerprint_reading_hash windows)
                [manifest_path (Resolver.package_root p); Resolver.entry_path p]
    end.

(** ** Imports that did not resolve *)

Definition unresolved_import_result (context : AnalysisContext) (request : ImportRequest) (message : string) :
    ImportResult + AnalysisError :=
  let stage := unresolved_stage message in
  let failed := inr (error_with_context stage message context request (resolver_details message)) in
  if bool_decide (stage = stage.ENTRY_RESOLUTION) || bool_decide (stage = stage.NO_ROOT_ENTRY) then
    match declaration_only_package_result tree_at (active_document_path context) request with
    | Some result => inl result
    | None => match native_binary_only_package_result (active_document_path context) request with
              | Some result => inl result
              | None => failed
              end
    end
  else failed.

Definition analyze_unresolved_import (context : AnalysisContext) (request : ImportRequest) (message : string) :
    ImportResult :=
  match unresolved_import_result context request message with
  | inl result => result
  | inr e => error_result request e
  end.

Definition analyze_import (stat_error : ErrorKind → string) (context : AnalysisContext) (request : ImportRequest)
    (memo : option N) (generation : N) : ImportResult :=
  match resolve_package_entry (active_document_path context) request with
  | inr message => analyze_unresolved_import context request message
  | inl p =>
      match analyze_import_inner_resolved stat_error context request p memo generation with
      | inl ((result, _, _), _) => result
      | inr e => error_result request e
      end
  end.
End analyze.

(** ** Which manifests a build's sources sit under *)

Section manifests_of.
Context `{FL : Files}.

(** The reference: the nearest manifest at or above a directory, no further up
    than the workspace root. *)
Fixpoint nearest_manifest (fuel : nat) (rt current : string) : option string :=
  if is_file (manifest_path current) then Some (manifest_path current)
  else if path_eqb current rt then None
  else match fuel, path_parent current with
       | S fuel, Some up => nearest_manifest fuel rt up
       | _, _ => None
       end.
Definition manifest_above (rt current : string) : option string :=
  nearest_manifest (length (components current)) rt current.

Lemma nearest_manifest_enough n rt current :
  length (components current) ≤ n → nearest_manifest n rt current = manifest_above rt current.
Proof.
  unfold manifest_above. remember (length (components current)) as m eqn:Hm.
  revert n current Hm. induction m as [|m IH]; intros n current Hm Hn.
  - assert (path_parent current = None) as Hp.
    { destruct (path_parent current) eqn:Hp; [|done]. apply path_parent_shorter in Hp. lia. }
    destruct n; cbn; rewrite ?Hp; repeat case_match; done.
  - destruct n as [|n]; [lia|]. cbn. destruct (is_file _); [done|]. destruct (path_eqb _ _); [done|].
    destruct (path_parent current) as [up|] eqn:Hp; [|done]. apply path_parent_shorter in Hp. apply IH; lia.
Qed.

Lemma manifest_above_unfold rt current :
  manifest_above rt current =
  if is_file (manifest_path current) then Some (manifest_path current)
  else if path_eqb current rt then None
  else match path_parent current with Some up => manifest_above rt up | None => None end.
Proof.
  rewrite <- (nearest_manifest_enough (S (length (components current)))) by lia. cbn.
  destruct (is_file _); [done|]. destruct (path_eqb _ _); [done|].
  destruct (path_parent current) as [up|] eqn:Hp; [|done].
  apply path_parent_shorter in Hp. apply nearest_manifest_enough. lia.
Qed.

(** Directories the walks hold are spelled as they are rendered, so equal
    components are equal directories. *)
Definition rendered (p : string) : Prop := ∃ cs, shaped cs ∧ p = render cs.
Lemma parent_rendered path up : path_parent path = Some up → rendered up.
Proof.
  unfold path_parent. destruct (reverse (components path)) as [|c rest] eqn:Hr; [done|].
  apply (f_equal reverse) in Hr. rewrite reverse_involutive, reverse_cons in Hr.
  intros H. exists (reverse rest). pose proof (components_shaped path) as Hs. rewrite Hr in Hs.
  apply shaped_app_l in Hs. split; [done|]. by destruct c; simplify_eq.
Qed.
Lemma rendered_inj p q : rendered p → rendered q → components p = components q → p = q.
Proof. intros (cs & Hc & ->) (ds & Hd & ->). rewrite !components_render by done. by intros ->. Qed.

Lemma manifest_path_inj p q :
  rendered p → rendered q → manifest_path p = manifest_path q → p = q.
Proof.
  intros Hp Hq He. apply rendered_inj; [done..|].
  assert (∀ r, components (manifest_path r) = components r ++ tail_components "package.json") as H.
  { intros r. unfold manifest_path. destruct (decide (r = "")) as [->|]; [done|by apply components_push]. }
  apply (f_equal components) in He. rewrite !H in He. by apply app_inj_2 in He as [? _].
Qed.

(** What the walks keep: the directories seen have had their manifest listed,
    and each listed manifest is of a directory seen, once. *)
Record walked (rt : string) (st : list string * list string) : Prop := {
  w_rendered : ∀ d, d ∈ st.1 → rendered d;
  w_listed : ∀ d m, d ∈ st.1 → manifest_above rt d = Some m → m ∈ st.2;
  w_of_seen : ∀ m, m ∈ st.2 → ∃ d, d ∈ st.1 ∧ m = manifest_path d;
  w_distinct : NoDup st.2;
}.

Lemma seen_spec current seen :
  rendered current → (∀ d, d ∈ seen → rendered d) →
  existsb (path_eqb current) seen = true ↔ current ∈ seen.
Proof.
  intros Hc Hs. rewrite existsb_elem. split.
  - intros (d & Hd & He). apply bool_decide_eq_true in He.
    by rewrite (rendered_inj current d Hc (Hs d Hd) He).
  - intros Hin. exists current. split; [done|]. by apply bool_decide_eq_true.
Qed.

(** One walk: the directories it adds share the nearest manifest of where it
    starts, and it stops having listed that manifest or at a directory seen. *)
Lemma manifest_walk_spec n rt current seen manifests :
  length (components current) ≤ n → rendered current → (∀ d, d ∈ seen → rendered d) →
  ∃ news pushed, manifest_walk n rt current (seen, manifests) = (news ++ seen, manifests ++ pushed) ∧
    (∀ d, d ∈ news → rendered d ∧ manifest_above rt d = manifest_above rt current) ∧
    (pushed = [] ∨ ∃ d, pushed = [manifest_path d] ∧ d ∈ news ∧ d ∉ seen) ∧
    (∀ m, m ∈ pushed → manifest_above rt current = Some m) ∧
    (∀ m, manifest_above rt current = Some m → m ∈ pushed ∨
       ∃ d, d ∈ seen ∧ length (components d) ≤ length (components current) ∧ manifest_above rt d = Some m).
Proof.
  revert current seen. induction n as [|n IH]; intros current seen Hn Hcur Hren; cbn [manifest_walk].
  all: destruct (existsb (path_eqb current) seen) eqn:Hseen;
    [apply seen_spec in Hseen; [|done..]; exists [], []; cbn; rewrite app_nil_r;
     split_and!; [done|by intros d ?%elem_of_nil|by left|by intros d ?%elem_of_nil|];
     intros m Hm; right; by exists current|].
  all: assert (current ∉ seen) as Hns by
    (intros Hx; apply (seen_spec current seen Hcur Hren) in Hx; by rewrite Hx in Hseen).
  all: pose proof (manifest_above_unfold rt current) as Hu.
  all: destruct (is_file (manifest_path current)) eqn:Hf;
    [exists [current], [manifest_path current]; cbn; split_and!;
     [done|by intros d ->%list_elem_of_singleton|right; exists current; by split_and!; [|left|]
     |by intros m ->%list_elem_of_singleton|intros m Hm; left; rewrite Hu in Hm; simplify_eq; by left]|].
  all: destruct (path_eqb current rt) eqn:Hroot;
    [exists [current], []; cbn; rewrite app_nil_r; split_and!;
     [done|by intros d ->%list_elem_of_singleton|by left|by intros m ?%elem_of_nil|by rewrite Hu]|].
  - assert (path_parent current = None) as Hp.
    { destruct (path_parent current) eqn:Hp; [|done]. apply path_parent_shorter in Hp. lia. }
    rewrite Hp in Hu. exists [current], []. cbn. rewrite app_nil_r. split_and!;
      [done|by intros d ->%list_elem_of_singleton|by left|by intros m ?%elem_of_nil|by rewrite Hu].
  - destruct (path_parent current) as [up|] eqn:Hp.
    2:{ exists [current], []. cbn. rewrite app_nil_r. split_and!;
          [done|by intros d ->%list_elem_of_singleton|by left|by intros m ?%elem_of_nil|by rewrite Hu]. }
    pose proof (path_parent_shorter _ _ Hp) as Hlen.
    destruct (IH up (current :: seen)) as (news & pushed & -> & H1 & H2 & H3 & H4); [lia|by eapply parent_rendered| |].
    { intros d [->|]%elem_of_cons; [done|by apply Hren]. }
    exists (news ++ [current]), pushed. rewrite <- (assoc_L (++)). split_and!; [done| | | |].
    + intros d [Hd| ->%list_elem_of_singleton]%elem_of_app; [rewrite Hu; by apply H1|done].
    + destruct H2 as [->|(d & -> & Hd & Hs)]; [by left|right]. apply not_elem_of_cons in Hs as [_ Hs].
      exists d. rewrite elem_of_app. by split_and!; [|left|].
    + intros m Hm. rewrite Hu. by apply H3.
    + intros m Hm. rewrite Hu in Hm. destruct (H4 m Hm) as [|(d & Hd & Hl & Ha)]; [by left|right].
      exists d. apply elem_of_cons in Hd as [->|Hd]; [lia|]. split_and!; [done|lia|done].
Qed.

Lemma manifest_walk_walked rt current st :
  rendered current → walked rt st →
  let st' := manifest_walk (length (components current)) rt current st in
  walked rt st' ∧ ∀ m, m ∈ st'.2 ↔ m ∈ st.2 ∨ manifest_above rt current = Some m.
Proof.
  destruct st as [seen manifests]. intros Hcur [W1 W2 W3 W4]. cbn [fst snd] in *.
  destruct (manifest_walk_spec _ rt current seen manifests (le_n _) Hcur W1)
    as (news & pushed & -> & H1 & H2 & H3 & H4). cbn.
  assert (∀ m, manifest_above rt current = Some m → m ∈ manifests ++ pushed) as Hm.
  { intros m Hm. apply elem_of_app. destruct (H4 m Hm) as [|(d & Hd & _ & Ha)]; [by right|left; by eapply W2]. }
  split; [split; cbn|].
  - intros d [Hd|Hd]%elem_of_app; [by apply H1|by apply W1].
  - intros d m [Hd|Hd]%elem_of_app Ha.
    + apply Hm. by rewrite <- (proj2 (H1 d Hd)).
    + apply elem_of_app. left. by eapply W2.
  - intros m [Hin|Hin]%elem_of_app.
    + destruct (W3 m Hin) as (d & Hd & ->). exists d. rewrite elem_of_app. by split; [right|].
    + destruct H2 as [->|(d & -> & Hd & _)]; [by apply elem_of_nil in Hin|].
      apply list_elem_of_singleton in Hin as ->. exists d. rewrite elem_of_app. by split; [left|].
  - destruct H2 as [->|(d & -> & Hd & Hs)]; [by rewrite app_nil_r|].
    apply NoDup_app. split_and!; [done| |apply NoDup_singleton].
    intros x Hx ->%list_elem_of_singleton. destruct (W3 _ Hx) as (e & He & Heq).
    apply manifest_path_inj in Heq; [by subst|by apply H1|by apply W1].
  - intros m. rewrite elem_of_app. split; [intros [|]; [by left|right; by apply H3]|].
    intros [|Ha]; [by left|]. by apply elem_of_app, Hm.
Qed.

(** What one loaded module asks for. *)
Definition asks_for (rt path : string) : option string :=
  if has_component "node_modules" path then None
  else path_parent path ≫= manifest_above rt.

Lemma manifest_steps_walked rt loaded st :
  walked rt st →
  let st' := foldl (manifest_step rt) st loaded in
  walked rt st' ∧ ∀ m, m ∈ st'.2 ↔ m ∈ st.2 ∨ ∃ path, path ∈ loaded ∧ asks_for rt path = Some m.
Proof.
  revert st. induction loaded as [|path loaded IH]; intros st Hst; cbn.
  { split; [done|]. intros m. split; [by left|]. by intros [|(? & ?%elem_of_nil & _)]. }
  assert (walked rt (manifest_step rt st path) ∧
    ∀ m, m ∈ (manifest_step rt st path).2 ↔ m ∈ st.2 ∨ asks_for rt path = Some m) as [Hw Hm].
  { unfold manifest_step, asks_for. destruct (has_component _ _).
    { split; [done|]. intros m. split; [by left|by intros [|]]. }
    destruct (path_parent path) as [d|] eqn:Hp; cbn.
    - apply manifest_walk_walked; [by eapply parent_rendered|done].
    - split; [done|]. intros m. split; [by left|by intros [|]]. }
  destruct (IH _ Hw) as [Hw' Hm']. split; [done|]. intros m. rewrite Hm', Hm. split.
  - intros [[|]|(q & ? & ?)]; [by left|right; exists path; by split; [left|]|right; exists q; by split; [right|]].
  - intros [|(q & [->|Hq]%elem_of_cons & Ha)]; [by left; left|by left; right|right; by exists q].
Qed.

(** The manifests a build expires against are exactly the nearest ones, at
    or above the first-party modules it loaded and no further up than the
    workspace root, each listed once; modules under [node_modules] ask for
    none. Cutting a walk short at a directory another walk has passed loses
    nothing. *)
Theorem first_party_manifests_are_the_nearest context loaded :
  NoDup (first_party_manifests context loaded) ∧
  ∀ m, m ∈ first_party_manifests context loaded ↔
    ∃ path, path ∈ loaded ∧ has_component "node_modules" path = false ∧
      ∃ directory, path_parent path = Some directory ∧ manifest_above (canonical_root context) directory = Some m.
Proof.
  destruct (manifest_steps_walked (canonical_root context) loaded ([], [])) as [Hw Hm].
  { split; cbn; [by intros d ?%elem_of_nil|by intros d m ?%elem_of_nil|by intros m ?%elem_of_nil|constructor]. }
  split; [apply Hw|]. intros m. unfold first_party_manifests. rewrite Hm. cbn. unfold asks_for. split.
  - intros [?%elem_of_nil|(path & Hp & Ha)]; [done|]. exists path. destruct (has_component _ _); [done|].
    apply bind_Some in Ha. done.
  - intros (path & Hp & Hn & d & Hd & Ha). right. exists path. split; [done|]. by rewrite Hn, Hd.
Qed.
End manifests_of.
