(* ===== verification/Outcomes.v ===== *)
(** * What an analysis answers with

    The theorems about [Analyze]: when there is a size and which, which stage
    a failure names, what an answer expires against, and what the full-package
    comparison can change. *)
From stdpp Require Import base list strings.
From S2P Require Import Prelude Json Stages Results Fingerprints CacheKeys AssetLedger EngineBoundary AssetReport FileSize ProjectRegistry Paths Manifests Resolver PackageScan Analyze.

Set Default Proof Using "Type*".

(** ** Unverifiable inputs *)

Section unverifiable.
Context `{DISK : FileSystem, CH : ContentHash}.

(** A real file is never as long as a [u64] can say. *)
Definition lengths_are_real : Prop := ∀ path md, fs_metadata path = inl md → (md_len md < u64_max)%N.

Lemma unverifiable_never_fresh f :
  lengths_are_real → fingerprint_is_unverifiable f = true → check_one f ≠ Fresh.
Proof.
  intros Hreal Hu Hfresh. unfold fingerprint_is_unverifiable in Hu.
  rewrite !andb_true_iff, !bool_decide_eq_true in Hu. destruct Hu as [[Hl Hm] Hh].
  assert (check_one f = check_fingerprint f) as Hc.
  { unfold check_one, check_fingerprint_strict. rewrite Hh. by destruct (fingerprint_is_installed f). }
  rewrite Hc in Hfresh. revert Hfresh. unfold check_fingerprint, fingerprint_is_absent.
  rewrite Hl, Hm, Hh. cbn. destruct (fs_metadata (fp_path f)) as [md|e] eqn:Hmd.
  - pose proof (Hreal _ _ Hmd). case_decide; [lia|done].
  - unfold classify_stat_error. by case_decide.
Qed.

Lemma unverifiable_is windows path : fingerprint_is_unverifiable (unverifiable_file_fingerprint windows path) = true.
Proof. done. Qed.

Lemma elem_of_fingerprints f l : f ∈ sort_and_dedup_fingerprints l ↔ f ∈ l.
Proof. unfold sort_and_dedup_fingerprints. rewrite elem_of_dedup. by rewrite sort_perm. Qed.
End unverifiable.

(** ** The contract's stages *)

Lemma contract_stage_known s : contract_stage s ∈ engine_stage.ALL.
Proof. unfold contract_stage. case_bool_decide; [done|]. vm_compute. set_solver. Qed.
Lemma contract_stage_transient s : stage.is_transient s = true → s ∈ engine_stage.ALL → stage.is_transient (contract_stage s) = true.
Proof. intros H Hin. unfold contract_stage. by rewrite bool_decide_eq_true_2. Qed.

Section outcomes.
Context `{DISK : FileSystem, CH : ContentHash, FL : Files, ML : ManifestLibraries, OX : Oxc} (windows : bool)
        (bundle_sync : BundlePurpose → ImportRuntime → list BundleEntry → BundleArtifact + Permits.BundleFailure)
        (minify_source : string → string + string)
        (compress_all : string → CompressionSizes + string)
        (process_assets_bounded : list CollectedAsset → N → list string → ProcessedAssets + AssetProcessingFailure)
        (stat_error : ErrorKind → string) (context : AnalysisContext).

(** ** The stages of a build, as one relation *)

Definition size_build (request : ImportRequest) (p : Resolver.ResolvedPackage) : BundleArtifact + Permits.BundleFailure :=
  bundle_sync ImportSize (rq_runtime request)
    [{| FileSize.entry_path := Resolver.entry_path p; FileSize.package_root := Resolver.package_root p;
        selection := engine_selection request |}].

(** Every stage answered. *)
Definition built (request : ImportRequest) (p : Resolver.ResolvedPackage) (a : BundleArtifact) (minified : string)
    (compressed : CompressionSizes) (processed : ProcessedAssets) : Prop :=
  (∃ md, fs_metadata (Resolver.entry_path p) = inl md ∧ (md_len md <= MAX_MODULE_SOURCE_BYTES)%N) ∧
  size_build request p = inl a ∧ minify_source (code a) = inl minified ∧ compress_all minified = inl compressed ∧
  process_assets_bounded (assets a) (graph_source_bytes a) (loaded_paths a) = inl processed.

(** One stage did not, and this is its error. *)
Inductive failed (request : ImportRequest) (p : Resolver.ResolvedPackage) : AnalysisError → Prop :=
  | failed_stat err :
      fs_metadata (Resolver.entry_path p) = inr err →
      failed request p (error_with_context stage.ENTRY_METADATA
        ("failed to stat package entry " +:+ Resolver.entry_path p +:+ ": " +:+ stat_error err) context request
        ["entry_path: " +:+ Resolver.entry_path p])
  | failed_size md :
      fs_metadata (Resolver.entry_path p) = inl md → (MAX_MODULE_SOURCE_BYTES < md_len md)%N →
      failed request p (error_with_context stage.OVERSIZED_ENTRY
        "entry file exceeds the 20971520 byte module source limit, so no module graph could be built"
        context request ["entry_path: " +:+ Resolver.entry_path p])
  | failed_build f : size_build request p = inr f → failed request p (engine_error context request f)
  | failed_minify a err :
      size_build request p = inl a → minify_source (code a) = inr err →
      failed request p (error_with_context stage.MINIFY ("failed to minify engine chunk: " +:+ err) context request
        [source_excerpt_detail (code a)])
  | failed_compression a minified err :
      size_build request p = inl a → minify_source (code a) = inl minified → compress_all minified = inr err →
      failed request p (error_with_context stage.COMPRESSION ("failed to compress minified output: " +:+ err)
        context request [])
  | failed_assets a minified z f :
      size_build request p = inl a → minify_source (code a) = inl minified → compress_all minified = inl z →
      process_assets_bounded (assets a) (graph_source_bytes a) (loaded_paths a) = inr f →
      failed request p (asset_processing_error windows context request a f).

Definition run (request : ImportRequest) (p : Resolver.ResolvedPackage) (memo : option N) (generation : N) :=
  analyze_import_inner_resolved windows bundle_sync minify_source compress_all process_assets_bounded
    stat_error context request p memo generation.

Lemma run_cases request p memo generation :
  match run request p memo generation with
  | inl ((result, source, recorded), stored) =>
      ∃ a minified z processed r loaded, built request p a minified z processed ∧
        measured_import windows bundle_sync minify_source context request (Resolver.entry_path p)
          (Resolver.package_root p) (Resolver.side_effects p) (Resolver.is_cjs p) memo generation a minified z processed
          = ((r, loaded, source), stored) ∧
        result = annotate_native_binary r (package_json p) ∧ recorded = (Resolver.entry_path p, rq_runtime request, loaded)
  | inr e => failed request p e
  end.
Proof.
  unfold run, analyze_import_inner_resolved, analyze_with_rolldown_engine.
  destruct (fs_metadata _) as [md|err] eqn:Hmd; [|by constructor].
  destruct (N.ltb_spec MAX_MODULE_SOURCE_BYTES (md_len md)) as [Hlen|Hlen]; [by eapply failed_size|].
  fold (size_build request p).
  destruct (size_build request p) as [a|f] eqn:Hb; [|by constructor].
  destruct (minify_source (code a)) as [minified|err] eqn:Hm; [|by eapply failed_minify].
  destruct (compress_all minified) as [z|err] eqn:Hz; [|by eapply failed_compression].
  destruct (process_assets_bounded _ _ _) as [processed|f] eqn:Hp; [|by eapply failed_assets].
  destruct (measured_import _ _ _ _ _ _ _ _ _ _ _ _ _ _ _) as [[[r loaded] source] stored] eqn:Hmi.
  exists a, minified, z, processed, r, loaded. split; [|done]. unfold built. split; [by exists md|done].
Qed.

(** ** Sizes *)

Definition shipped_sizes (a : BundleArtifact) (minified : string) (z : CompressionSizes) (processed : ProcessedAssets) :
    MeasuredSizes :=
  add_sizes {| m_raw := N.of_nat (String.length (code a)); m_minified := N.of_nat (String.length minified);
               m_gzip := z_gzip z; m_brotli := z_brotli z; m_zstd := z_zstd z |} (total processed).

Lemma engine_result_sizes request s effects sh cjs diags rows breakdown :
  let r := engine_result request s effects sh cjs diags rows breakdown in
  sizes r = Some s ∧ result_wf r ∧ diagnostics r = diags ∧ truly_treeshakeable r = sh ∧
  Results.side_effects r = effects ∧ internal_contributions r = rows ∧ unmeasured_stage r = None.
Proof.
  unfold engine_result. destruct (engine_confidence effects diags) as [conf reasons]. cbn.
  split_and!; try done; [by destruct s|]. left. repeat split; by eexists.
Qed.

Lemma annotate_keeps r v :
  sizes (annotate_native_binary r v) = sizes r ∧ (result_wf r → result_wf (annotate_native_binary r v)) ∧
  truly_treeshakeable (annotate_native_binary r v) = truly_treeshakeable r ∧
  diagnostics r ⊆ diagnostics (annotate_native_binary r v) ∧
  unmeasured_stage (annotate_native_binary r v) = unmeasured_stage r.
Proof.
  unfold annotate_native_binary. destruct (_ || _); [done|]. split_and!; try done.
  intros d Hd. cbn. apply elem_of_app. by left.
Qed.

(** The engine result inside a measured import. *)
Lemma measured_import_result request entry rt mode cjs memo gen a minified z processed r loaded source stored :
  measured_import windows bundle_sync minify_source context request entry rt mode cjs memo gen a minified z processed
    = ((r, loaded, source), stored) →
  ∃ full more, r = engine_result request (shipped_sizes a minified z processed) (has_side_effects mode)
      (shakeable minified full) cjs ((strip_details <$> art_diagnostics a) ++ asset_diagnostics processed ++ more)
      (merge_assets (assets a) (art_contributions a)) (contributions processed) ∧
    source = import_freshness windows (art_fingerprints a) (unhashed_paths a) (freshness_fingerprints processed)
      (manifest_stat_paths context rt (loaded_paths a)) ∧
    (if compares request (has_side_effects mode)
     then (full, more, stored) = full_package_len windows bundle_sync minify_source context request entry rt memo gen
     else full = None ∧ more = [] ∧ stored = None).
Proof.
  unfold measured_import. destruct (compares request (has_side_effects mode)).
  - destruct (full_package_len _ _ _ _ _ _ _ _ _) as [[full more] st] eqn:Hf. intros [= <- _ <- <-].
    exists full, more. by rewrite <- (assoc_L (++)).
  - intros [= <- _ <- <-]. exists None, []. by rewrite <- (assoc_L (++)).
Qed.

Definition analyze (request : ImportRequest) (p : Resolver.ResolvedPackage) (memo : option N) (generation : N) :=
  analyze_resolved_import_with_dependencies windows bundle_sync minify_source compress_all process_assets_bounded
    stat_error context request p memo generation.

(** C4. An import has a size exactly when every stage answered: its entry could
    be statted and is within the source limit, and the build, the minifier, the
    compressors and the assets all succeeded. The five sizes are then those of
    the chunk plus those of the assets. Otherwise there is no size at all, and
    the result carries the message and the stage of the one stage that
    failed. *)
Theorem a_size_needs_every_stage request p memo generation :
  let r := (analyze request p memo generation).1 in
  result_wf r ∧
  (∀ s, sizes r = Some s ↔
     ∃ a minified z processed, built request p a minified z processed ∧ s = shipped_sizes a minified z processed) ∧
  (sizes r = None ↔ ∃ e, failed request p e ∧ r = error_result request e).
Proof.
  cbv zeta. unfold analyze, analyze_resolved_import_with_dependencies.
  pose proof (run_cases request p memo generation) as Hi. unfold run in Hi.
  assert (∀ e a minified z processed, failed request p e → ¬ built request p a minified z processed) as Hex.
  { intros e a minified z processed Hf ((md & Hmd & Hl) & Hb & Hm & Hz & Hp).
    destruct Hf; try congruence. rewrite Hmd in H. simplify_eq. lia. }
  destruct (analyze_import_inner_resolved _ _ _ _ _ _ _ _ _ _ _) as [[[[result source] recorded] stored]|e].
  - destruct Hi as (a & minified & z & processed & r & loaded & Hb & Hmi & -> & _).
    apply measured_import_result in Hmi as (full & more & -> & _). cbn.
    match goal with |- context [annotate_native_binary ?r ?v] => destruct (annotate_keeps r v) as (Hs & Hw & _);
      rewrite Hs end.
    edestruct engine_result_sizes as (Hes & Hwf & _). rewrite Hes. split; [by apply Hw|]. split.
    + intros s. split; [intros [= <-]; by exists a, minified, z, processed|].
      intros (a' & m' & z' & p' & Hb' & ->). destruct Hb as (_ & ? & ? & ? & ?), Hb' as (_ & ? & ? & ? & ?). congruence.
    + split; [done|]. intros (e & Hf & _). by destruct (Hex _ _ _ _ _ Hf Hb).
  - cbn. split; [apply unmeasured_wf|]. split.
    + intros s. split; [done|]. intros (a & m & z & q & Hb & _). by destruct (Hex _ _ _ _ _ Hi Hb).
    + split; [|done]. intros _. by exists e.
Qed.

(** ** Stages *)

(** A failure names a stage of the contract. *)
Lemma failed_stage request p e :
  failed request p e →
  ae_stage e ∈ stage.ENTRY_METADATA :: stage.OVERSIZED_ENTRY :: stage.MINIFY :: stage.COMPRESSION :: engine_stage.ALL ∨
  ∃ a f, size_build request p = inl a ∧
    process_assets_bounded (assets a) (graph_source_bytes a) (loaded_paths a) = inr f ∧ ae_stage e = apf_stage f.
Proof.
  destruct 1; cbn; [left; set_solver..| |left; set_solver|left; set_solver|right; by exists a, f].
  left. do 4 right. apply contract_stage_known.
Qed.

(** ** What an answer expires against *)

(** The bytes the build and the assets read. *)
Definition observed_inputs (a : BundleArtifact) (processed : ProcessedAssets) : list FileFingerprint :=
  art_fingerprints a ++ freshness_fingerprints processed.

(** C5. A measured answer is served as fresh only while what its sizes were
    computed from is unchanged: if the fingerprints kept with it check as fresh
    on some later disk, then no module of the size build went unhashed, every
    fingerprint that build and the asset stage took of what they read still
    holds, and so does that of the package's manifest and of every first-party
    manifest above a loaded module that could be read. The build of the whole
    package, which only the comparison behind [truly_treeshakeable] and its
    diagnostics read, is not fingerprinted with the answer and not covered. *)
Theorem measured_answers_expire_with_their_inputs request p memo generation r source a minified z processed
    (later : FileSystem) :
  analyze request p memo generation = (r, Some source) → built request p a minified z processed →
  (∀ path md, fs_metadata (FileSystem := later) path = inl md → (md_len md < u64_max)%N) →
  check_fingerprints_strict (FS := later) (dependency_fingerprints (DISK := DISK) windows p (Some source)) = Fresh →
  unhashed_paths a = [] ∧
  (∀ f, f ∈ observed_inputs a processed → check_one (FS := later) f = Fresh) ∧
  (∀ m f, m = manifest_path (Resolver.package_root p) ∨ m ∈ first_party_manifests context (loaded_paths a) →
     file_fingerprint_reading_hash (FS := DISK) windows m = Some f → check_one (FS := later) f = Fresh).
Proof.
  intros Ha Hb Hreal Hfresh. unfold analyze, analyze_resolved_import_with_dependencies in Ha.
  pose proof (run_cases request p memo generation) as Hi. unfold run in Hi.
  destruct (analyze_import_inner_resolved _ _ _ _ _ _ _ _ _ _ _) as [[[[result src] recorded] stored]|e].
  2:{ exfalso. destruct Hb as ((md & Hmd & Hl) & Hb & Hm & Hz & Hp).
      destruct Hi; try congruence. rewrite Hmd in H. by simplify_eq. }
  destruct Hi as (a' & m' & z' & p' & r' & loaded & Hb' & Hmi & -> & _). simplify_eq.
  assert (a' = a ∧ m' = minified ∧ z' = z ∧ p' = processed) as (-> & -> & -> & ->).
  { destruct Hb as (_ & H1 & H2 & H3 & H4), Hb' as (_ & H1' & H2' & H3' & H4'). split_and!; congruence. }
  apply measured_import_result in Hmi as (full & more & _ & -> & _).
  apply check_strict_fresh in Hfresh. rewrite Forall_forall in Hfresh.
  assert (∀ f, f ∈ art_fingerprints a ++ unhashed_fingerprints (DISK := DISK) windows (unhashed_paths a) ++ freshness_fingerprints processed →
    check_one (FS := later) f = Fresh) as Hall.
  { intros f Hf. apply Hfresh, elem_of_fingerprints, elem_of_app. left. exact (proj2 (elem_of_fingerprints _ _) Hf). }
  split_and!.
  - destruct (unhashed_paths a) as [|u us]; [done|]. exfalso.
    eapply (unverifiable_never_fresh (DISK := later)); [exact Hreal|apply (unverifiable_is (DISK := DISK) windows u)|].
    apply Hall. rewrite !elem_of_app. right; left. by left.
  - intros f Hf. apply Hall. unfold observed_inputs in Hf. rewrite !elem_of_app in *. destruct Hf; [by left|by right; right].
  - intros m f Hm Hf. apply Hfresh, elem_of_fingerprints, elem_of_app. right. cbn [stat_paths import_freshness].
    apply list_elem_of_omap. exists m. split; [|done]. unfold manifest_stat_paths. apply elem_of_cons. by destruct Hm; [left|right].
Qed.
(** ** The full-package comparison *)

Definition full_build (request : ImportRequest) (p : Resolver.ResolvedPackage) : BundleArtifact + Permits.BundleFailure :=
  bundle_sync FullPackageComparison (rq_runtime request)
    [{| FileSize.entry_path := Resolver.entry_path p; FileSize.package_root := Resolver.package_root p;
        selection := SelectFull |}].

(** Where the length compared against comes from. *)
Definition full_len_of (request : ImportRequest) (p : Resolver.ResolvedPackage) (memo : option N) (len : N) : Prop :=
  memo = Some len ∨
  (memo = None ∧ ∃ full minified, full_build request p = inl full ∧ minify_source (code full) = inl minified ∧
     len = N.of_nat (String.length minified)).

Lemma full_package_len_spec request p memo generation :
  match full_package_len windows bundle_sync minify_source context request (Resolver.entry_path p)
          (Resolver.package_root p) memo generation with
  | (full, more, stored) =>
      (∀ len, full = Some len → full_len_of request p memo len) ∧
      (∀ f, memo = None → full_build request p = inr f →
         ∃ d, d ∈ more ∧ d_stage d = contract_stage (Permits.stage f)) ∧
      (∀ m, stored = Some m → memo = None ∧ fm_generation m = generation ∧ full = Some (fm_len m) ∧
         ∃ a, full_build request p = inl a ∧ unhashed_paths a = [] ∧
           fm_fingerprints m = full_package_fingerprints windows context (Resolver.package_root p) a)
  end.
Proof.
  unfold full_package_len. destruct memo as [len|].
  { split_and!; [by intros ? [= <-]; left|done|done]. }
  fold (full_build request p). destruct (full_build request p) as [a|f] eqn:Hb.
  - destruct (minify_source (code a)) as [minified|] eqn:Hm; [|done].
    split_and!; [intros ? [= <-]; right; split; [done|by exists a, minified]|done|].
    intros m. case_bool_decide; [|done]. intros [= <-]. split_and!; try done. by exists a.
  - split_and!; [done| |done]. intros ? _ [= <-]. eexists. split; [by left|done].
Qed.

Lemma not_durable_diagnostic r d :
  d ∈ diagnostics r → stage.is_transient (d_stage d) = true → is_durable r = false.
Proof.
  intros Hd Ht. unfold is_durable. apply andb_false_iff. right. apply not_true_iff_false.
  rewrite forallb_forall. intros Hall. specialize (Hall d). rewrite <- list_elem_of_In in Hall.
  specialize (Hall Hd). by rewrite (stage.transient_not_durable _ Ht) in Hall.
Qed.

(** An import is called tree-shakeable only when its package declares no
    side effects for it, names were imported, and the whole package, minified,
    has a positive length that the import's own is at most 95% of; that length
    is the memo's or a build's, and it is memoized, with the generation read
    before the build, only when every module of that build was fingerprinted.
    When the comparison build failed for a reason of this run (a timeout, a
    panic, a lost engine), the result says so and no durable store may keep
    it. *)
Theorem tree_shaking_is_measured request p memo generation result source recorded stored :
  run request p memo generation = inl ((result, source, recorded), stored) →
  ∃ a minified z processed, built request p a minified z processed ∧
  (truly_treeshakeable result = true →
     has_side_effects (Resolver.side_effects p) = false ∧ rq_import_kind request = Named ∧ rq_named request ≠ [] ∧
     ∃ len, full_len_of request p memo len ∧ (0 < len)%N ∧
       within_tree_shaken_ratio (N.of_nat (String.length minified)) len = true) ∧
  (∀ m, stored = Some m → memo = None ∧ fm_generation m = generation ∧
     ∃ full, full_build request p = inl full ∧ unhashed_paths full = [] ∧
       fm_fingerprints m = full_package_fingerprints windows context (Resolver.package_root p) full) ∧
  (∀ f, compares request (has_side_effects (Resolver.side_effects p)) = true → memo = None →
     full_build request p = inr f → stage.is_transient (Permits.stage f) = true →
     Permits.stage f ∈ engine_stage.ALL →
     truly_treeshakeable result = false ∧ is_durable result = false).
Proof.
  intros Hin. pose proof (run_cases request p memo generation) as Hi. rewrite Hin in Hi.
  destruct Hi as (a & minified & z & processed & r & loaded & Hb & Hmi & -> & _).
  exists a, minified, z, processed. split; [done|].
  apply measured_import_result in Hmi as (full & more & -> & _ & Hc).
  match goal with |- context [annotate_native_binary ?r ?v] =>
    destruct (annotate_keeps r v) as (_ & _ & Hsh & Hdiag & _) end.
  edestruct engine_result_sizes as (_ & _ & Hd & Ht & _). rewrite Ht in Hsh. rewrite Hd in Hdiag.
  unfold compares in Hc |- *.
  destruct (has_side_effects (Resolver.side_effects p)); cbn [negb andb] in *.
  { destruct Hc as (-> & -> & ->). rewrite Hsh. by split_and!. }
  destruct (decide (rq_import_kind request = Named)) as [Hk|Hk];
    [rewrite bool_decide_eq_true_2 in Hc |- * by done|rewrite bool_decide_eq_false_2 in Hc |- * by done]; cbn [andb] in *.
  2:{ destruct Hc as (-> & -> & ->). rewrite Hsh. by split_and!. }
  destruct (decide (rq_named request = [])) as [Hn|Hn];
    [rewrite bool_decide_eq_true_2 in Hc |- * by done|rewrite bool_decide_eq_false_2 in Hc |- * by done]; cbn [negb] in *.
  { destruct Hc as (-> & -> & ->). rewrite Hsh. by split_and!. }
  pose proof (full_package_len_spec request p memo generation) as Hf. rewrite <- Hc in Hf.
  destruct Hf as (H1 & H2 & H3). rewrite Hsh. split_and!.
  - intros Hs. unfold shakeable in Hs. destruct full as [len|]; [|done]. apply andb_true_iff in Hs as [Hl Hr].
    apply N.ltb_lt in Hl. split_and!; try done. exists len. split_and!; [by apply H1|done..].
  - intros m Hm. destruct (H3 m Hm) as (? & ? & _ & ?). done.
  - intros f _ Hmemo Hff Htr Hall. split.
    + unfold full_package_len in Hc. rewrite Hmemo in Hc. fold (full_build request p) in Hc. rewrite Hff in Hc. by simplify_eq.
    + destruct (H2 f Hmemo Hff) as (d & Hdm & Hds). eapply (not_durable_diagnostic _ d).
      * apply Hdiag. rewrite !elem_of_app. by right; right.
      * rewrite Hds. by apply contract_stage_transient.
Qed.

(** ** What modelling showed *)

(** A minification that fails has read the whole graph, yet its answer is kept
    durably and expires only against the manifest and the entry. *)
Lemma minify_failure_forgets_its_reads request p memo generation a err md :
  fs_metadata (Resolver.entry_path p) = inl md → (md_len md <= MAX_MODULE_SOURCE_BYTES)%N →
  size_build request p = inl a → minify_source (code a) = inr err →
  let answer := analyze request p memo generation in
  answer.2 = None ∧ unmeasured_stage answer.1 = Some stage.MINIFY ∧ is_durable answer.1 = true ∧
  dependency_fingerprints windows p answer.2 =
    sort_and_dedup_fingerprints (omap (file_fingerprint_reading_hash windows)
      [manifest_path (Resolver.package_root p); Resolver.entry_path p]).
Proof.
  intros Hmd Hl Hb Hm. cbv zeta. unfold analyze, analyze_resolved_import_with_dependencies,
    analyze_import_inner_resolved, analyze_with_rolldown_engine. rewrite Hmd.
  destruct (N.ltb_spec MAX_MODULE_SOURCE_BYTES (md_len md)); [lia|].
  fold (size_build request p). rewrite Hb, Hm. done.
Qed.
End outcomes.

(** ** Contributions *)

Lemma merge_asset_paths path len rows :
  mc_path <$> merge_asset path len rows =
  (mc_path <$> rows) ++ (if decide (path ∈ mc_path <$> rows) then [] else [path]).
Proof.
  induction rows as [|row rows IH]; [done|]. cbn [merge_asset fmap list_fmap]. destruct (decide (mc_path row = path)) as [<-|Hne].
  - rewrite decide_True by by left. cbn. by rewrite app_nil_r.
  - cbn [fmap list_fmap]. rewrite IH. cbn [app]. f_equal. f_equal.
    destruct (decide (path ∈ mc_path <$> rows)) as [Hin|Hin];
      [rewrite decide_True by by right|rewrite decide_False]; [done|done|].
    by intros [|]%elem_of_cons.
Qed.

Lemma merge_asset_row path len rows row :
  NoDup (mc_path <$> rows) →
  row ∈ merge_asset path len rows ↔
  row = {| mc_path := path; mc_bytes := len |} ∨ (row ∈ rows ∧ mc_path row ≠ path).
Proof.
  induction rows as [|r rows IH]; cbn [merge_asset].
  { rewrite list_elem_of_singleton. intros _. split; [by left|]. by intros [|[?%elem_of_nil _]]. }
  intros [Hr Hnd]%NoDup_cons. case_decide as Hd.
  - subst path. rewrite !elem_of_cons. split; [intros [->|Hin]; [by left|right]|].
    + split; [by right|]. intros He. apply Hr. rewrite <- He. by apply list_elem_of_fmap_2.
    + intros [->|[[->|Hin] Hne]]; [by left|done|by right].
  - rewrite !elem_of_cons, IH by done. split.
    + intros [->|[->|[? ?]]]; [right; by split; [left|]|by left|right; by split; [right|]].
    + intros [->|[[->|?] ?]]; [by right; left|by left|by right; right].
Qed.

Lemma merge_assets_snoc collected x rows :
  merge_assets (collected ++ [x]) rows = merge_asset (a_path x) (asset_len x) (merge_assets collected rows).
Proof. unfold merge_assets. by rewrite foldl_app. Qed.

Lemma merge_assets_nodup collected rows :
  NoDup (mc_path <$> rows) → NoDup (mc_path <$> merge_assets collected rows).
Proof.
  intros Hnd. induction collected as [|x collected IH] using rev_ind; [done|].
  rewrite merge_assets_snoc, merge_asset_paths. case_decide; [by rewrite app_nil_r|].
  apply NoDup_app. split_and!; [done| |apply NoDup_singleton]. by intros y Hy ->%list_elem_of_singleton.
Qed.

(** The rows of a build whose modules and assets are each listed once: every
    asset under its own size, and every other module as the build reported it. *)
Lemma contributions_reconcile collected rows row :
  NoDup (mc_path <$> rows) → NoDup (a_path <$> collected) →
  row ∈ merge_assets collected rows ↔
  (∃ x, x ∈ collected ∧ row = {| mc_path := a_path x; mc_bytes := asset_len x |}) ∨
  (row ∈ rows ∧ ∀ x, x ∈ collected → a_path x ≠ mc_path row).
Proof.
  intros Hr. induction collected as [|x collected IH] using rev_ind; intros Hc.
  { split; [intros H; right; split; [done|by intros x ?%elem_of_nil]|]. by intros [(x & ?%elem_of_nil & _)|[? _]]. }
  rewrite fmap_app in Hc. apply NoDup_app in Hc as (Hc & Hx & _).
  rewrite merge_assets_snoc, merge_asset_row by by apply merge_assets_nodup. rewrite IH by done. split.
  - intros [->|[[(y & Hy & ->)|[Hin Hn]] Hne]].
    + left. exists x. rewrite elem_of_app. by split; [right; left|].
    + left. exists y. rewrite elem_of_app. by split; [left|].
    + right. split; [done|]. intros y [Hy| ->%list_elem_of_singleton]%elem_of_app; [by apply Hn|congruence].
  - intros [(y & [Hy| ->%list_elem_of_singleton]%elem_of_app & ->)|[Hin Hn]].
    + right. split; [left; by exists y|]. cbn. intros He. apply (Hx (a_path y)); [by apply list_elem_of_fmap_2|].
      rewrite He. by left.
    + by left.
    + right. split; [right; split; [done|intros y Hy; apply Hn, elem_of_app; by left]|].
      intros He. apply (Hn x); [apply elem_of_app; right; by left|done].
Qed.

(** ** One import, measured and compared *)

Definition w_request : ImportRequest :=
  {| rq_specifier := "@s/x"; rq_package_name := "@s/x"; rq_version := "1.0.0"; rq_named := ["f"];
     rq_import_kind := Named; rq_runtime := Client |}.
Definition w_entry : string := "/w/node_modules/@s/x/lib/index.js".
Definition w_package : Resolver.ResolvedPackage :=
  {| Resolver.package_root := "/w/node_modules/@s/x"; package_json := x_manifest; Resolver.entry_path := w_entry;
     Resolver.is_cjs := false; Resolver.side_effects := SeFalse |}.
Definition w_disk : FileSystem := one_file w_entry {| md_len := 2; md_modified := Some 5000000%Z |} ["f"; "g"]%char.
Definition w_hash : ContentHash := λ bs, N.of_nat (length bs).
Definition w_fingerprint : FileFingerprint :=
  {| fp_path := w_entry; fp_len := 2; fp_modified_millis := 5; fp_content_hash := Some 2%N |}.
Definition w_artifact (text : string) : BundleArtifact :=
  {| code := text; graph_source_bytes := 2; FileSize.loaded_paths := [w_entry]; art_fingerprints := [w_fingerprint];
     unhashed_paths := []; art_contributions := [{| mc_path := w_entry; mc_bytes := 2 |}]; exported_names := ["f"];
     art_diagnostics := []; assets := []; emitted_assets := [] |}.
Definition w_bundle (purpose : BundlePurpose) (_ : ImportRuntime) (_ : list BundleEntry) :
    BundleArtifact + Permits.BundleFailure :=
  match purpose with
  | FullPackageComparison => inl (w_artifact "0123456789")
  | _ => inl (w_artifact "01234")
  end.
Definition w_minify (text : string) : string + string := inl text.
Definition w_compress (text : string) : CompressionSizes + string :=
  inl {| z_gzip := 3; z_brotli := 2; z_zstd := 3 |}.
Definition w_assets (_ : list CollectedAsset) (_ : N) (_ : list string) : ProcessedAssets + AssetProcessingFailure :=
  inl no_assets.
Definition w_context : AnalysisContext := {| workspace_root := "/w"; active_document_path := "/w/src/a.ts" |}.
Definition w_run :=
  run (DISK := w_disk) (CH := w_hash) (FL := react_disk) false w_bundle w_minify w_compress w_assets (λ _, "gone") w_context
    w_request w_package None 7.
Definition w_analyze :=
  analyze (DISK := w_disk) (CH := w_hash) (FL := react_disk) false w_bundle w_minify w_compress w_assets (λ _, "gone") w_context
    w_request w_package None 7.

Lemma w_built :
  built (DISK := w_disk) w_bundle w_minify w_compress w_assets w_request w_package (w_artifact "01234") "01234"
    {| z_gzip := 3; z_brotli := 2; z_zstd := 3 |} no_assets.
Proof.
  split; [|split_and!; vm_compute; reflexivity].
  exists {| md_len := 2; md_modified := Some 5000000%Z |}. split; [reflexivity|done].
Qed.

Lemma w_run_ok :
  match w_run with
  | inl ((r, _, _), Some m) => truly_treeshakeable r = true ∧ fm_len m = 10%N
  | _ => False
  end.
Proof. vm_compute. by split. Qed.

Lemma w_analyze_ok :
  match w_analyze with
  | (_, Some source) =>
      check_fingerprints_strict (FS := w_disk) (CH := w_hash)
        (dependency_fingerprints (DISK := w_disk) (CH := w_hash) false w_package (Some source)) = Fresh
  | _ => False
  end.
Proof. vm_compute. reflexivity. Qed.

Lemma tree_shaking_is_measured_witness :
  ∃ result source recorded stored, w_run = inl ((result, source, recorded), Some stored) ∧
    truly_treeshakeable result = true ∧ fm_len stored = 10%N ∧ fm_generation stored = 7%N ∧
    ∃ full, full_build w_bundle w_request w_package = inl full ∧ unhashed_paths full = [].
Proof.
  pose proof w_run_ok as Hok.
  destruct w_run as [[[[r src] rec] [st|]]|e] eqn:Hin; [|destruct Hok..]. destruct Hok as [Ht Hl].
  exists r, src, rec, st. split; [reflexivity|]. split; [exact Ht|]. split; [exact Hl|].
  destruct (tree_shaking_is_measured (DISK := w_disk) (CH := w_hash) (FL := react_disk) false w_bundle w_minify w_compress
              w_assets (λ _, "gone") w_context _ _ _ _ _ _ _ _ Hin) as (_ & _ & _ & _ & _ & _ & Hs & _).
  destruct (Hs st eq_refl) as (_ & Hg & full & Hf & Hu & _). split; [exact Hg|]. exists full. split; [exact Hf|exact Hu].
Defined.

Lemma measured_answers_expire_with_their_inputs_witness :
  ∃ r source, w_analyze = (r, Some source) ∧
    check_fingerprints_strict (FS := w_disk) (CH := w_hash) (dependency_fingerprints (DISK := w_disk) (CH := w_hash) false w_package (Some source)) = Fresh ∧
    check_one (FS := w_disk) (CH := w_hash) w_fingerprint = Fresh.
Proof.
  pose proof w_analyze_ok as Hc. destruct w_analyze as [r [source|]] eqn:Ha; [|destruct Hc].
  exists r, source. split; [reflexivity|]. split; [exact Hc|].
  destruct (measured_answers_expire_with_their_inputs (DISK := w_disk) (CH := w_hash) (FL := react_disk) false w_bundle w_minify
    w_compress w_assets (λ _, "gone") w_context _ _ _ _ _ _ _ _ _ _ w_disk Ha w_built) as (_ & H & _).
  - intros path md H. unfold w_disk, one_file in H. cbn in H. case_decide; simplify_eq. reflexivity.
  - exact Hc.
  - apply H. unfold observed_inputs. left.
Defined.

(** ** Imports that did not resolve *)

Section unresolved.
Context `{FL : Files, ML : ManifestLibraries} (tree_at : string → Tree) (context : AnalysisContext).

(** What makes a package with no entry a measured zero. *)
Definition ships_nothing (package_root : string) : Prop :=
  (∃ scan, scan_declaration_only_package (tree_at package_root) = Some scan ∧ is_declaration_only scan = true) ∨
  (∃ manifest, read_manifest_json package_root = Some manifest ∧
     manifest_is_native_binary_backed manifest = true ∧ manifest_declares_no_js_entry manifest = true).

Lemma declaration_only_result_spec request r :
  declaration_only_package_result tree_at (active_document_path context) request = Some r →
  sizes r = Some ZERO ∧ ∃ rt, find_package_root (active_document_path context) (rq_package_name request) = inl rt ∧
    ships_nothing rt.
Proof.
  unfold declaration_only_package_result. destruct (find_package_root _ _) as [rt|] eqn:Hr; [|done]. cbn.
  destruct (scan_declaration_only_package _) as [scan|] eqn:Hs; [|done]. cbn.
  destruct (is_declaration_only scan) eqn:Hd; [|done]. intros [= <-]. split; [done|]. exists rt.
  split; [done|]. left. by exists scan.
Qed.

Lemma native_only_result_spec request r :
  native_binary_only_package_result (active_document_path context) request = Some r →
  sizes r = Some ZERO ∧ ∃ rt, find_package_root (active_document_path context) (rq_package_name request) = inl rt ∧
    ships_nothing rt.
Proof.
  unfold native_binary_only_package_result. destruct (find_package_root _ _) as [rt|] eqn:Hr; [|done]. cbn.
  destruct (read_manifest_json rt) as [manifest|] eqn:Hm; [|done]. cbn.
  destruct (manifest_is_native_binary_backed manifest) eqn:Hb; [|done].
  destruct (manifest_declares_no_js_entry manifest) eqn:Hn; [|done]. intros [= <-]. split; [done|].
  exists rt. split; [done|]. right. by exists manifest.
Qed.

(** An import whose entry did not resolve is given a size only as an answer:
    a zero, when the failure was about the entry alone, the package is
    installed, and it holds declarations only or ships only a native binary.
    Every other failure is without a size, under the stage the resolver's words
    name, with those words as its error. *)
Theorem a_zero_is_an_answer request message :
  let r := analyze_unresolved_import tree_at context request message in
  let stage := unresolved_stage message in
  (sizes r = None ∧ unmeasured_stage r = Some stage ∧ error r = Some message) ∨
  (sizes r = Some ZERO ∧ (stage = stage.ENTRY_RESOLUTION ∨ stage = stage.NO_ROOT_ENTRY) ∧
   ∃ package_root, find_package_root (active_document_path context) (rq_package_name request) = inl package_root ∧
     ships_nothing package_root).
Proof.
  cbv zeta. unfold analyze_unresolved_import, unresolved_import_result.
  destruct (bool_decide (unresolved_stage message = stage.ENTRY_RESOLUTION) ||
            bool_decide (unresolved_stage message = stage.NO_ROOT_ENTRY)) eqn:Hst; [|by left].
  apply orb_true_iff in Hst. rewrite !bool_decide_eq_true in Hst.
  destruct (declaration_only_package_result _ _ _) as [r|] eqn:Hd.
  - right. apply declaration_only_result_spec in Hd as (? & ?). done.
  - destruct (native_binary_only_package_result _ _) as [r|] eqn:Hn; [|by left].
    right. apply native_only_result_spec in Hn as (? & ?). done.
Qed.
End unresolved.
