(* ===== verification/Text.v ===== *)
(** * Text ([str] methods the readers share)

    A [str] is its UTF-8 bytes: trimming, letter case, splitting and the check
    [String::from_utf8] makes. *)
From stdpp Require Import base list strings.
From S2P Require Import Prelude ProjectRegistry.

Set Default Proof Using "Type*".

Definition byte (n : N) : ascii := ascii_of_N n.
Definition between (lo hi : N) (c : ascii) : bool := let n := N_of_ascii c in ((lo <=? n) && (n <=? hi))%N.

(** ** Characters *)

Definition is_ascii_digit : ascii → bool := between 48 57.
Definition is_ascii_uppercase : ascii → bool := between 65 90.
Definition is_ascii_lowercase : ascii → bool := between 97 122.
Definition is_ascii_alphabetic (c : ascii) : bool := is_ascii_uppercase c || is_ascii_lowercase c.
Definition is_ascii_alphanumeric (c : ascii) : bool := is_ascii_alphabetic c || is_ascii_digit c.

Definition lower_bytes (l : list ascii) : list ascii := ProjectRegistry.to_ascii_lowercase <$> l.

(** ** [trim]

    The encodings of Unicode's White_Space characters. *)
Definition whitespace : list (list ascii) :=
  (λ n, [byte n]) <$> [9; 10; 11; 12; 13; 32]%N.
Definition wide_whitespace : list (list ascii) :=
  [[byte 194; byte 133]; [byte 194; byte 160]; [byte 225; byte 154; byte 128]] ++
  ((λ n, [byte 226; byte 128; byte n]) <$> [128; 129; 130; 131; 132; 133; 134; 135; 136; 137; 138; 168; 169; 175]%N) ++
  [[byte 226; byte 129; byte 159]; [byte 227; byte 128; byte 128]].
Definition all_whitespace : list (list ascii) := whitespace ++ wide_whitespace.

(** What is left after the first of the encodings that is a prefix. *)
Fixpoint strip_any (ws : list (list ascii)) (l : list ascii) : option (list ascii) :=
  match ws with
  | [] => None
  | w :: ws => match strip_prefix w l with Some rest => Some rest | None => strip_any ws l end
  end.
Fixpoint trim_front (fuel : nat) (ws : list (list ascii)) (l : list ascii) : list ascii :=
  match fuel with
  | 0 => l
  | S fuel => match strip_any ws l with Some rest => trim_front fuel ws rest | None => l end
  end.
Definition trim_start_bytes (l : list ascii) : list ascii := trim_front (length l) all_whitespace l.
Definition trim_end_bytes (l : list ascii) : list ascii :=
  reverse (trim_front (length l) (reverse <$> all_whitespace) (reverse l)).
Definition trim_bytes (l : list ascii) : list ascii := trim_end_bytes (trim_start_bytes l).

(** ** Splitting *)

(** The first index whose byte is one of [cs]. *)
Fixpoint find_any (cs : list ascii) (l : list ascii) : option nat :=
  match l with
  | [] => None
  | c :: l => if decide (c ∈ cs) then Some 0 else S <$> find_any cs l
  end.

(** [split_once] at a byte. *)
Definition split_once (c : ascii) (l : list ascii) : option (list ascii * list ascii) :=
  (λ i, (take i l, drop (S i) l)) <$> find_any [c] l.

(** ** UTF-8 *)

Definition is_continuation : ascii → bool := between 128 191.

(** [from_utf8]: the well-formed sequences, one arm per row of the table. *)
Fixpoint is_utf8 (l : list ascii) : bool :=
  match l with
  | [] => true
  | a :: l1 =>
      if between 0 127 a then is_utf8 l1
      else match l1 with
           | [] => false
           | b :: l2 =>
               if between 194 223 a then is_continuation b && is_utf8 l2
               else match l2 with
                    | [] => false
                    | c :: l3 =>
                        if between 224 239 a then
                          (if decide (N_of_ascii a = 224)%N then between 160 191 b
                           else if decide (N_of_ascii a = 237)%N then between 128 159 b
                           else is_continuation b) && is_continuation c && is_utf8 l3
                        else match l3 with
                             | [] => false
                             | d :: l4 =>
                                 if between 240 244 a then
                                   (if decide (N_of_ascii a = 240)%N then between 144 191 b
                                    else if decide (N_of_ascii a = 244)%N then between 128 143 b
                                    else is_continuation b) && is_continuation c && is_continuation d && is_utf8 l4
                                 else false
                             end
                    end
           end
  end.

(** ** Facts *)

Lemma strip_prefix_shorter p l r : p ≠ [] → strip_prefix p l = Some r → length r < length l.
Proof.
  intros Hp H. apply strip_prefix_Some in H as ->. rewrite length_app. destruct p; [done|]. cbn. lia.
Qed.

Lemma strip_any_spec ws l r :
  strip_any ws l = Some r → ∃ w, w ∈ ws ∧ l = w ++ r.
Proof.
  induction ws as [|w ws IH]; cbn; [done|]. destruct (strip_prefix w l) as [rest|] eqn:Hw.
  - intros [= ->]. exists w. split; [by left|by apply strip_prefix_Some].
  - intros H. destruct (IH H) as (w' & ? & ?). exists w'. by split; [right|].
Qed.

(** Trimming takes whitespace off the front until there is none: the fuel is
    the length, and each turn takes at least a byte. *)
Lemma trim_front_spec n ws l :
  [] ∉ ws → length l ≤ n →
  strip_any ws (trim_front n ws l) = None ∧ trim_front n ws l `suffix_of` l.
Proof.
  intros Hws. revert l. induction n as [|n IH]; intros l Hl.
  - destruct l; [|cbn in Hl; lia]. split; [|done].
    destruct (strip_any ws []) as [r|] eqn:Hs; [|by cbn; rewrite Hs].
    apply strip_any_spec in Hs as (w & Hw & He). symmetry in He. apply app_eq_nil in He as [-> _]. done.
  - cbn [trim_front]. destruct (strip_any ws l) as [r|] eqn:Hs; [|by split].
    apply strip_any_spec in Hs as (w & Hw & ->). destruct w as [|c w]; [done|].
    rewrite length_app in Hl. cbn in Hl. destruct (IH r) as [H1 H2]; [lia|].
    split; [done|]. by apply suffix_app_r.
Qed.

Lemma is_utf8_ascii l : Forall (λ c, between 0 127 c = true) l → is_utf8 l = true.
Proof. induction 1 as [|c l Hc _ IH]; [done|]. cbn. by rewrite Hc. Qed.

Lemma between_spec lo hi c : between lo hi c = true ↔ (lo <= N_of_ascii c <= hi)%N.
Proof. unfold between. rewrite andb_true_iff, !N.leb_le. done. Qed.

(** Well-formed text is a sequence of characters: an ASCII byte, or a lead byte
    and its continuation bytes. *)
Lemma utf8_induction (P : list ascii → Prop) :
  P [] →
  (∀ a l, between 0 127 a = true → is_utf8 l = true → P l → P (a :: l)) →
  (∀ a cs l, (192 <= N_of_ascii a)%N → cs ≠ [] → Forall (λ c, is_continuation c = true) cs →
             is_utf8 l = true → P l → P (a :: cs ++ l)) →
  ∀ l, is_utf8 l = true → P l.
Proof.
  intros Hnil Hascii Hwide l. remember (length l) as n eqn:Hn. revert l Hn.
  induction n as [n IH] using lt_wf_ind. intros l -> Hl.
  assert (∀ rest, length rest < length l → is_utf8 rest = true → P rest) as IH'.
  { intros rest Hr. by apply (IH (length rest)). }
  clear IH. destruct l as [|a l1]; [done|]. cbn [is_utf8] in Hl.
  destruct (between 0 127 a) eqn:Ha; [by apply Hascii; [|done|apply IH'; [cbn; lia|]]|].
  assert (∀ lo b, (128 <= lo)%N → between lo 191 b = true → is_continuation b = true) as Hc1.
  { intros lo b Hlo Hb. unfold is_continuation. rewrite between_spec in *. lia. }
  assert (∀ hi b, (hi <= 191)%N → between 128 hi b = true → is_continuation b = true) as Hc2.
  { intros lo b Hlo Hb. unfold is_continuation. rewrite between_spec in *. lia. }
  destruct l1 as [|b l2]; [done|]. destruct (between 194 223 a) eqn:H2.
  { apply andb_true_iff in Hl as [Hb Hl]. apply between_spec in H2.
    apply (Hwide a [b]); [lia|done|by repeat constructor|done|]. apply IH'; [cbn; lia|done]. }
  destruct l2 as [|c l3]; [done|]. destruct (between 224 239 a) eqn:H3.
  { rewrite !andb_true_iff in Hl. destruct Hl as [[Hb Hc] Hl]. apply between_spec in H3.
    apply (Hwide a [b; c]); [lia|done| |done|apply IH'; [cbn; lia|done]].
    repeat constructor; [|done]. repeat case_decide; first [done|eapply Hc1; [|exact Hb]; lia|eapply Hc2; [|exact Hb]; lia]. }
  destruct l3 as [|d l4]; [done|]. destruct (between 240 244 a) eqn:H4; [|done].
  rewrite !andb_true_iff in Hl. destruct Hl as [[[Hb Hc] Hd] Hl]. apply between_spec in H4.
  apply (Hwide a [b; c; d]); [lia|done| |done|apply IH'; [cbn; lia|done]].
  repeat constructor; [|done..]. repeat case_decide; first [done|eapply Hc1; [|exact Hb]; lia|eapply Hc2; [|exact Hb]; lia].
Qed.

(** It does not start with a continuation byte, and nothing continues an ASCII
    byte. *)
Lemma utf8_head l b : is_utf8 l = true → head l = Some b → is_continuation b = false.
Proof.
  intros Hl. revert l Hl b. apply (utf8_induction (λ l, ∀ b, head l = Some b → is_continuation b = false)); [done|..].
  - intros c l' Hc _ _ b' [= ->]. rewrite <- not_true_iff_false. unfold is_continuation.
    rewrite between_spec in *. lia.
  - intros c cs l' Hc _ _ _ _ b' [= ->]. rewrite <- not_true_iff_false. unfold is_continuation.
    rewrite between_spec. lia.
Qed.
Lemma utf8_after_ascii l i a b :
  is_utf8 l = true → l !! i = Some a → between 0 127 a = true → l !! S i = Some b → is_continuation b = false.
Proof.
  intros Hl.
  revert i. revert l Hl. apply (utf8_induction (λ l, ∀ i, l !! i = Some a → between 0 127 a = true →
    l !! S i = Some b → is_continuation b = false)); [done|..].
  - intros c l' Hc Hl' IH [|i] Hi Ha Hb; [|by eapply IH]. cbn in Hb. destruct l' as [|b' l']; [done|].
    by apply (utf8_head (b' :: l')).
  - intros c cs l' Hc Hne Hcs Hl' IH [|i] Hi Ha Hb.
    { cbn in Hi. simplify_eq. rewrite between_spec in Ha. lia. }
    change ((cs ++ l') !! i = Some a) in Hi. change ((cs ++ l') !! S i = Some b) in Hb.
    destruct (decide (i < length cs)) as [Hlt|Hge].
    + rewrite lookup_app_l in Hi by done. rewrite Forall_lookup in Hcs. apply Hcs in Hi.
      unfold is_continuation in Hi. rewrite between_spec in *. lia.
    + rewrite lookup_app_r in Hi, Hb by lia. eapply (IH (i - length cs)); [done..|].
      by replace (S (i - length cs)) with (S i - length cs) by lia.
Qed.

Lemma find_sub_Some needle hay i :
  find_sub needle hay = Some i → i + length needle ≤ length hay ∧ starts_with needle (drop i hay) = true.
Proof.
  revert i. induction hay as [|b hay IH]; intros i; cbn [find_sub]; destruct (starts_with needle _) eqn:Hs.
  1,3: intros [= <-]; (split; [|done]); unfold starts_with in Hs;
       destruct (strip_prefix needle _) as [r|] eqn:Hp; [|done];
       apply strip_prefix_Some in Hp; rewrite Hp; rewrite length_app; lia.
  - done.
  - destruct (find_sub needle hay) as [j|]; [|done]. intros [= <-].
    destruct (IH j eq_refl). split; [cbn; lia|done].
Qed.
