(* ===== verification/CssDependencies.v ===== *)
(** * What a stylesheet's references ship (pipeline/css_dependencies.rs, engine/asset_classifier.rs)

    Every [url()] and surviving [@import] of the bundled stylesheet, put into
    one of five buckets. The stat and the read go through the asset ledger and
    are parameters here, as is the canonical path. *)
From stdpp Require Import base gmap list strings pretty.
From S2P Require Import Prelude Fingerprints AssetLedger AssetReport ProjectRegistry Paths Text.

Set Default Proof Using "Type*".

(** ** Classes of files *)

Inductive AssetClass := Counted (kind : AssetKind) | Unmeasured.

Definition classify_asset_class (path : string) : option AssetClass :=
  extension ← path_extension path;
  let extension := of_bytes (lower_bytes (to_bytes extension)) in
  if decide (extension ∈ ["css"; "scss"; "sass"; "less"; "styl"; "stylus"; "pcss"; "postcss"]) then Some (Counted Css)
  else if decide (extension = "wasm") then Some (Counted Wasm)
  else if decide (extension ∈ ["woff"; "woff2"; "ttf"; "otf"; "eot"]) then Some (Counted Font)
  else if decide (extension ∈ ["png"; "jpg"; "jpeg"; "gif"; "svg"; "webp"; "avif"; "ico"; "bmp"]) then Some (Counted Image)
  else if decide (extension ∈ ["mp4"; "webm"; "mp3"; "wav"; "ogg"; "node"]) then Some Unmeasured
  else None.

(** [AssetKind::BINARY]. *)
Definition is_binary (kind : AssetKind) : bool := match kind with Css => false | _ => true end.
Definition counted_kind (path : string) : option AssetKind :=
  match classify_asset_class path with
  | Some (Counted kind) => if is_binary kind then Some kind else None
  | _ => None
  end.

(** ** References as Lightning CSS reports them *)

Inductive Dependency :=
  | Url (url file_path : string)
  | Import (url file_path : string).

Record CssDependencyFailure := { cf_path : string; cf_raw_bytes : N; cf_message : string }.

Record CssDependencyAssets := {
  d_assets : list CollectedAsset;
  d_failures : list CssDependencyFailure;
  d_uncounted : list UncountedAsset;
  d_omissions : list string;
  d_external : list string;
}.

Inductive SupportedAsset :=
  | Collected (a : CollectedAsset)
  | Unreadable (f : CssDependencyFailure)
  | Uncounted (a : UncountedAsset)
  | Omitted (message : string)
  | External (message : string).

(** ** Reading a reference *)

Definition hex_value (c : ascii) : option N :=
  let n := N_of_ascii c in
  if between 48 57 c then Some (n - 48)%N
  else if between 97 102 c then Some (n - 97 + 10)%N
  else if between 65 70 c then Some (n - 65 + 10)%N
  else None.

Definition hex_pair (high low : ascii) : option ascii :=
  h ← hex_value high; l ← hex_value low; Some (ascii_of_N (N.lor (N.shiftl h 4) l)).

(** The loop over the bytes; an escape that is not one is kept as it is. *)
Fixpoint percent_bytes (l : list ascii) : list ascii :=
  match l with
  | [] => []
  | c :: rest =>
      match rest with
      | high :: low :: after =>
          match (if decide (c = "%"%char) then hex_pair high low else None) with
          | Some b => b :: percent_bytes after
          | None => c :: percent_bytes rest
          end
      | _ => c :: percent_bytes rest
      end
  end.
Definition decode_percent_encoded (value : list ascii) : option (list ascii) :=
  let decoded := percent_bytes value in if is_utf8 decoded then Some decoded else None.

Definition resource_path (specifier : list ascii) : option string :=
  let path_end := default (length specifier) (find_any ["?"%char; "#"%char] specifier) in
  path ← decode_percent_encoded (take path_end specifier);
  if decide (path = []) then None else Some (of_bytes path).

Definition has_url_scheme (value : list ascii) : bool :=
  match split_once ":" value with
  | None => false
  | Some (scheme, _) =>
      (1 <? length scheme)%nat &&
      match scheme with
      | first :: rest =>
          is_ascii_alphabetic first &&
          forallb (λ c, is_ascii_alphanumeric c || bool_decide (c ∈ ["+"; "-"; "."]%char)) rest
      | [] => false
      end
  end.
Definition is_remote_reference (value : list ascii) : bool :=
  let value := trim_bytes value in
  starts_with (to_bytes "//") value || has_url_scheme value.

Definition is_data (value : list ascii) : bool := starts_with (to_bytes "data:") (lower_bytes value).

Definition external_import (url file_path : string) : option string :=
  if is_data (trim_bytes (to_bytes url)) then None
  else Some ("external CSS import `" +:+ url +:+ "` in " +:+ file_path +:+
             " is fetched at runtime and is not in this size").

Section collect.
Context (canonical_path : string → string)
        (stat : string → Metadata + ErrorKind)
        (read_asset : string → AssetKind → CollectedAsset + string).

Definition css_resource (url file_path rest : string) : string :=
  "CSS resource `" +:+ url +:+ "` in " +:+ file_path +:+ rest.

(** The file a reference has located, classified and read. *)
Definition collect_located (path : string) : SupportedAsset :=
  let raw_bytes := match stat path with inl md => md_len md | inr _ => 0%N end in
  let unreadable message := Unreadable {| cf_path := path; cf_raw_bytes := raw_bytes; cf_message := message |} in
  match stat path with
  | inr _ => unreadable ("CSS resource " +:+ path +:+ " could not be read, so its shipped bytes are not in this size")
  | inl _ =>
      match counted_kind path with
      | None => Uncounted {| u_path := path; u_bytes := raw_bytes |}
      | Some kind =>
          match read_asset path kind with
          | inl a => Collected a
          | inr error => unreadable ("failed to read CSS resource " +:+ path +:+ ": " +:+ error)
          end
      end
  end.

(** [located] is compared as paths are. *)
Definition collect_supported_asset (url file_path : string) (located : list string) :
    option SupportedAsset * list string :=
  let specifier := trim_bytes (to_bytes url) in
  if bool_decide (specifier = []) || starts_with ["#"%char] specifier || is_data specifier then (None, located)
  else if is_remote_reference specifier then
    (Some (External (css_resource url file_path " is fetched at runtime and is not in this size")), located)
  else
    match resource_path specifier with
    | None =>
        (Some (Omitted (css_resource url file_path
          " could not be interpreted as a file name, so its shipped bytes are not in this size")), located)
    | Some resource =>
        if path_is_absolute resource || negb (path_is_absolute file_path) then
          (Some (Omitted (css_resource url file_path
            " is not package-relative, so its shipped bytes could not be located")), located)
        else
          match path_parent file_path with
          | None => (None, located)
          | Some directory =>
              let path := path_push directory resource in
              if existsb (path_eqb path) located then (None, located)
              else (Some (collect_located (canonical_path path)), path :: located)
          end
    end.

(** The maps and sets the loop fills, by path and by message. *)
Record buckets := {
  b_assets : list (string * CollectedAsset);
  b_failures : list (string * CssDependencyFailure);
  b_uncounted : list (string * UncountedAsset);
  b_omissions : list string;
  b_external : list string;
  b_located : list string;
}.
Definition no_buckets : buckets :=
  {| b_assets := []; b_failures := []; b_uncounted := []; b_omissions := []; b_external := []; b_located := [] |}.

(** [BTreeMap::entry(..).or_insert] and [insert], and [BTreeSet::insert]. *)
Fixpoint entry_or_insert {V} (k : string) (v : V) (m : list (string * V)) : list (string * V) :=
  match m with
  | [] => [(k, v)]
  | (k', v') :: rest =>
      match path_cmp k k' with
      | Lt => (k, v) :: m
      | Eq => m
      | Gt => (k', v') :: entry_or_insert k v rest
      end
  end.
Fixpoint map_insert {V} (k : string) (v : V) (m : list (string * V)) : list (string * V) :=
  match m with
  | [] => [(k, v)]
  | (k', v') :: rest =>
      match path_cmp k k' with
      | Lt => (k, v) :: m
      | Eq => (k', v) :: rest
      | Gt => (k', v') :: map_insert k v rest
      end
  end.
Definition set_insert (s : string) (l : list string) : list string := dedup (sort String.compare (s :: l)).

Definition place (found : SupportedAsset) (b : buckets) : buckets :=
  match found with
  | Collected a =>
      {| b_assets := entry_or_insert (a_path a) a (b_assets b); b_failures := b_failures b;
         b_uncounted := b_uncounted b; b_omissions := b_omissions b; b_external := b_external b; b_located := b_located b |}
  | Unreadable f =>
      {| b_assets := b_assets b; b_failures := map_insert (cf_path f) f (b_failures b);
         b_uncounted := b_uncounted b; b_omissions := b_omissions b; b_external := b_external b; b_located := b_located b |}
  | Uncounted a =>
      {| b_assets := b_assets b; b_failures := b_failures b; b_uncounted := entry_or_insert (u_path a) a (b_uncounted b);
         b_omissions := b_omissions b; b_external := b_external b; b_located := b_located b |}
  | Omitted message =>
      {| b_assets := b_assets b; b_failures := b_failures b; b_uncounted := b_uncounted b;
         b_omissions := set_insert message (b_omissions b); b_external := b_external b; b_located := b_located b |}
  | External message =>
      {| b_assets := b_assets b; b_failures := b_failures b; b_uncounted := b_uncounted b;
         b_omissions := b_omissions b; b_external := set_insert message (b_external b); b_located := b_located b |}
  end.
Definition with_located (l : list string) (b : buckets) : buckets :=
  {| b_assets := b_assets b; b_failures := b_failures b; b_uncounted := b_uncounted b;
     b_omissions := b_omissions b; b_external := b_external b; b_located := l |}.

(** One turn of the loop. *)
Definition examine (d : Dependency) (b : buckets) : buckets :=
  match d with
  | Url url file_path =>
      let '(found, located) := collect_supported_asset url file_path (b_located b) in
      let b := with_located located b in
      match found with Some found => place found b | None => b end
  | Import url file_path =>
      match external_import url file_path with
      | Some message => place (External message) b
      | None => b
      end
  end.

(** The loop, asking [should_continue] before each turn: [turn] counts the
    questions. The references left when it stops are the second part. *)
Fixpoint examine_all (should_continue : nat → bool) (turn : nat) (deps : list Dependency) (b : buckets) :
    buckets * list Dependency :=
  if should_continue turn then
    match deps with
    | [] => (b, [])
    | d :: deps => examine_all should_continue (S turn) deps (examine d b)
    end
  else (b, deps).

Definition collect_referenced_assets (should_continue : nat → bool) (deps : list Dependency) : CssDependencyAssets :=
  let '(b, rest) := examine_all should_continue 0 deps no_buckets in
  let omissions :=
    match rest with
    | [] => b_omissions b
    | _ => set_insert (pretty (length rest) +:+
             " CSS resource reference(s) were not examined because asset processing stopped early, so any bytes they ship are not in this size")
             (b_omissions b)
    end in
  {| d_assets := (b_assets b).*2; d_failures := (b_failures b).*2; d_uncounted := (b_uncounted b).*2;
     d_omissions := omissions; d_external := b_external b |}.
End collect.

(** ** Percent escapes *)

(** The reference encoding: every byte as an escape, in upper case. *)
Definition hex_digit (n : N) : ascii := byte (if (n <? 10)%N then 48 + n else 55 + n).
Definition percent_encode (l : list ascii) : list ascii :=
  flat_map (λ c, ["%"%char; hex_digit (N.shiftr (N_of_ascii c) 4); hex_digit (N.land (N_of_ascii c) 15)]) l.

Lemma hex_pair_encode c :
  hex_pair (hex_digit (N.shiftr (N_of_ascii c) 4)) (hex_digit (N.land (N_of_ascii c) 15)) = Some c.
Proof. destruct c as [[] [] [] [] [] [] [] []]; vm_compute; reflexivity. Qed.

Lemma percent_bytes_encode l : percent_bytes (percent_encode l) = l.
Proof.
  induction l as [|c l IH]; [done|]. cbn [percent_encode flat_map app percent_bytes].
  rewrite decide_True by done. rewrite hex_pair_encode. f_equal. exact IH.
Qed.

(** Text without a percent sign reads as itself. *)
Lemma percent_bytes_plain l : "%"%char ∉ l → percent_bytes l = l.
Proof.
  induction l as [|c l IH]; [done|]. intros Hc. apply not_elem_of_cons in Hc as [Hc Hl].
  cbn [percent_bytes]. rewrite IH by done. destruct l as [|? [|? ?]]; [done..|]. by rewrite decide_False by congruence.
Qed.

Lemma decode_percent_encode l : is_utf8 l = true → decode_percent_encoded (percent_encode l) = Some l.
Proof. intros H. unfold decode_percent_encoded. by rewrite percent_bytes_encode, H. Qed.

(** ** Every reference is accounted for *)

Lemma component_cmp_eq a b : component_cmp a b = Eq → a = b.
Proof.
  destruct a, b; cbn; try done. intros H. apply (cmp_eq (cmp := String.compare)) in H.
  apply (f_equal to_bytes) in H. rewrite !to_of_bytes in H. by subst.
Qed.
Lemma components_cmp_eq a b : components_cmp a b = Eq → a = b.
Proof.
  revert b. induction a as [|x a IH]; intros [|y b]; cbn; try done.
  unfold then_with. destruct (component_cmp x y) eqn:Hc; [|done..].
  apply component_cmp_eq in Hc as ->. intros H. f_equal. by apply IH.
Qed.

(** A map has a path when some key is that path. *)
Definition has {V} (m : list (string * V)) (p : string) : Prop :=
  ∃ kv, kv ∈ m ∧ components kv.1 = components p.

Lemma entry_or_insert_has {V} k (v : V) m p :
  has m p ∨ components k = components p → has (entry_or_insert k v m) p.
Proof.
  induction m as [|[k' v'] m IH]; cbn [entry_or_insert].
  { intros [(kv & ?%elem_of_nil & _)|H]; [done|]. exists (k, v). by split; [left|]. }
  destruct (path_cmp k k') eqn:Hc.
  - intros [H|H]; [done|]. exists (k', v'). split; [by left|]. apply components_cmp_eq in Hc. cbn. by rewrite <- Hc.
  - intros [(kv & Hin & H)|H]; [exists kv; by split; [right|]|exists (k, v); by split; [left|]].
  - intros [(kv & [->|Hin]%elem_of_cons & H)|H].
    + exists (k', v'). by split; [left|].
    + destruct IH as (w & ? & ?); [left; by exists kv|]. exists w. by split; [right|].
    + destruct IH as (w & ? & ?); [by right|]. exists w. by split; [right|].
Qed.

Lemma map_insert_has {V} k (v : V) m p :
  has m p ∨ components k = components p → has (map_insert k v m) p.
Proof.
  induction m as [|[k' v'] m IH]; cbn [map_insert].
  { intros [(kv & ?%elem_of_nil & _)|H]; [done|]. exists (k, v). by split; [left|]. }
  destruct (path_cmp k k') eqn:Hc.
  - apply components_cmp_eq in Hc. intros [(kv & [->|Hin]%elem_of_cons & H)|H].
    + exists (k', v). by split; [left|].
    + exists kv. by split; [right|].
    + exists (k', v). split; [by left|]. cbn. by rewrite <- Hc.
  - intros [(kv & Hin & H)|H]; [exists kv; by split; [right|]|exists (k, v); by split; [left|]].
  - intros [(kv & [->|Hin]%elem_of_cons & H)|H].
    + exists (k', v'). by split; [left|].
    + destruct IH as (w & ? & ?); [left; by exists kv|]. exists w. by split; [right|].
    + destruct IH as (w & ? & ?); [by right|]. exists w. by split; [right|].
Qed.

(** Values stay under the path they are of. *)
Definition keyed {V} (path_of : V → string) (m : list (string * V)) : Prop :=
  ∀ kv, kv ∈ m → components kv.1 = components (path_of kv.2).

Lemma entry_or_insert_keyed {V} (path_of : V → string) v m :
  keyed path_of m → keyed path_of (entry_or_insert (path_of v) v m).
Proof.
  intros Hm. induction m as [|[k' v'] m IH]; cbn [entry_or_insert]; [by intros kv ->%list_elem_of_singleton|].
  destruct (path_cmp _ k'); [done|by intros kv [->|Hin]%elem_of_cons; [|apply Hm]|].
  intros kv [->|Hin]%elem_of_cons; [apply Hm; by left|]. apply IH; [|done]. intros w Hw. apply Hm. by right.
Qed.
Lemma map_insert_keyed {V} (path_of : V → string) v m :
  keyed path_of m → keyed path_of (map_insert (path_of v) v m).
Proof.
  intros Hm. induction m as [|[k' v'] m IH]; cbn [map_insert]; [by intros kv ->%list_elem_of_singleton|].
  destruct (path_cmp _ k') eqn:Hc.
  - intros kv [->|Hin]%elem_of_cons; [|apply Hm; by right]. cbn. by apply components_cmp_eq in Hc.
  - by intros kv [->|Hin]%elem_of_cons; [|apply Hm].
  - intros kv [->|Hin]%elem_of_cons; [apply Hm; by left|]. apply IH; [|done]. intros w Hw. apply Hm. by right.
Qed.

Lemma elem_of_set_insert s t l : s ∈ set_insert t l ↔ s = t ∨ s ∈ l.
Proof. unfold set_insert. rewrite elem_of_dedup, sort_perm. by rewrite elem_of_cons. Qed.

Section accounting.
Context (canonical_path : string → string) (stat : string → Metadata + ErrorKind)
        (read_asset : string → AssetKind → CollectedAsset + string).

(** The canonical path goes by the path, not its spelling; an asset is of the
    path it was read from. *)
Class LedgerReads : Prop := {
  canonical_proper : ∀ p q, components p = components q → components (canonical_path p) = components (canonical_path q);
  read_path : ∀ p kind a, read_asset p kind = inl a → a_path a = p;
}.
Context {LR : LedgerReads}.

(** A file some reference located is in a bucket. *)
Definition covered (b : buckets) (p : string) : Prop :=
  has (b_assets b) p ∨ has (b_failures b) p ∨ has (b_uncounted b) p.

Record settled_buckets (b : buckets) : Prop := {
  s_assets : keyed a_path (b_assets b);
  s_failures : keyed cf_path (b_failures b);
  s_uncounted : keyed u_path (b_uncounted b);
  s_located : ∀ l, l ∈ b_located b → covered b (canonical_path l);
}.

(** Nothing the reference names is a separate artifact of the package. *)
Definition no_artifact (specifier : list ascii) : Prop :=
  specifier = [] ∨ starts_with ["#"%char] specifier = true ∨ is_data specifier = true.

Definition accounted (b : buckets) (d : Dependency) : Prop :=
  match d with
  | Import url file_path =>
      is_data (trim_bytes (to_bytes url)) = true ∨ ∃ m, external_import url file_path = Some m ∧ m ∈ b_external b
  | Url url file_path =>
      no_artifact (trim_bytes (to_bytes url)) ∨
      (is_remote_reference (trim_bytes (to_bytes url)) = true ∧
       css_resource url file_path " is fetched at runtime and is not in this size" ∈ b_external b) ∨
      (∃ rest, css_resource url file_path rest ∈ b_omissions b) ∨
      path_parent file_path = None ∨
      ∃ directory resource, path_parent file_path = Some directory ∧
        resource_path (trim_bytes (to_bytes url)) = Some resource ∧
        covered b (canonical_path (path_push directory resource))
  end.

(** What placing something keeps. *)
Record grows (b b' : buckets) : Prop := {
  g_covered : ∀ p, covered b p → covered b' p;
  g_omissions : b_omissions b ⊆ b_omissions b';
  g_external : b_external b ⊆ b_external b';
}.

Lemma accounted_grows b b' d : grows b b' → accounted b d → accounted b' d.
Proof.
  intros [Hc Ho He]. destruct d as [url f|url f]; cbn.
  - intros [H|[[H1 H2]|[(r & H)|[H|(dir & res & H1 & H2 & H3)]]]]; [by left|right; left; split; [done|by apply He]| | |].
    + right; right; left. exists r. by apply Ho.
    + by right; right; right; left.
    + right; right; right; right. exists dir, res. split_and!; [done..|by apply Hc].
  - intros [H|(m & H & Hm)]; [by left|right]. exists m. split; [done|by apply He].
Qed.

Lemma place_grows found b : grows b (place found b).
Proof.
  destruct found; split; cbn; try done; unfold covered; cbn;
    try (intros s Hs; apply elem_of_set_insert; by right); intros p [H|[H|H]]; auto using entry_or_insert_has, map_insert_has.
Qed.

Lemma place_settled found b :
  keyed a_path (b_assets b) → keyed cf_path (b_failures b) → keyed u_path (b_uncounted b) →
  let b' := place found b in
  keyed a_path (b_assets b') ∧ keyed cf_path (b_failures b') ∧ keyed u_path (b_uncounted b').
Proof.
  intros H1 H2 H3. destruct found; cbn; split_and!; try done;
    by first [apply entry_or_insert_keyed|apply map_insert_keyed].
Qed.

(** What reading a located file puts in a bucket is under its path. *)
Lemma located_covered b p : covered (place (collect_located stat read_asset p) b) p.
Proof using LR.
  unfold collect_located. destruct (stat p) as [md|e].
  - destruct (counted_kind p) as [kind|].
    + destruct (read_asset p kind) as [a|e] eqn:Hr; unfold covered; cbn.
      * left. apply entry_or_insert_has. right. by rewrite (read_path _ _ _ Hr).
      * right; left. apply map_insert_has. by right.
    + right; right. apply entry_or_insert_has. by right.
  - right; left. apply map_insert_has. by right.
Qed.

Lemma examine_spec d b :
  settled_buckets b →
  let b' := examine canonical_path stat read_asset d b in
  settled_buckets b' ∧ grows b b' ∧ accounted b' d.
Proof using LR.
  intros [H1 H2 H3 H4]. destruct d as [url f|url f]; cbn [examine].
  2:{ unfold external_import at 1 2 3. destruct (is_data _) eqn:Hd; cbn zeta.
      - split; [done|]. split; [done|]. by left.
      - split; [split; cbn; done|]. split; [apply place_grows|].
        right. unfold external_import. rewrite Hd. eexists. split; [done|]. cbn. apply elem_of_set_insert. by left. }
  unfold collect_supported_asset. cbv zeta.
  assert (∀ b', b' = with_located (b_located b) b → settled_buckets b' ∧ grows b b') as Hsame by by intros b' ->.
  destruct (bool_decide _ || _ || _) eqn:Hno.
  { destruct (Hsame _ eq_refl) as [? ?]. split; [done|]. split; [done|]. left.
    apply orb_true_iff in Hno as [[Hn|Hn]%orb_true_iff|Hn]; [left; by apply bool_decide_eq_true in Hn|by right; left|by right; right]. }
  assert (∀ m, settled_buckets (place (External m) (with_located (b_located b) b)) ∧
               settled_buckets (place (Omitted m) (with_located (b_located b) b))) as Hmsg by by intros m.
  assert (∀ x, grows b (place x (with_located (b_located b) b))) as Hgrow.
  { intros x. destruct (place_grows x (with_located (b_located b) b)) as [Hc Ho He]. by split. }
  destruct (is_remote_reference _) eqn:Hr.
  { split; [apply Hmsg|]. split; [apply Hgrow|]. right; left. split; [done|]. cbn. apply elem_of_set_insert. by left. }
  assert (∀ rest, accounted (place (Omitted (css_resource url f rest)) (with_located (b_located b) b)) (Url url f)) as Hom.
  { intros rest. right; right; left. exists rest. cbn. apply elem_of_set_insert. by left. }
  destruct (resource_path _) as [resource|] eqn:Hres; [|split; [apply Hmsg|split; [apply Hgrow|apply Hom]]].
  destruct (path_is_absolute resource || _); [split; [apply Hmsg|split; [apply Hgrow|apply Hom]]|].
  destruct (path_parent f) as [directory|] eqn:Hp.
  2:{ destruct (Hsame _ eq_refl) as [? ?]. split; [done|]. split; [done|]. by right; right; right; left. }
  destruct (existsb (path_eqb (path_push directory resource)) (b_located b)) eqn:Hl.
  { destruct (Hsame _ eq_refl) as [? ?]. split; [done|]. split; [done|]. right; right; right; right.
    exists directory, resource. split_and!; [done..|]. apply existsb_exists in Hl as (l & Hin & He).
    apply list_elem_of_In in Hin. apply bool_decide_eq_true in He.
    pose proof (canonical_proper _ _ He) as Hcan.
    destruct (H4 l Hin) as [(kv & ? & Hk)|[(kv & ? & Hk)|(kv & ? & Hk)]];
      [left|right; left|right; right]; exists kv; by rewrite Hcan. }
  set (p := path_push directory resource). set (b1 := with_located (p :: b_located b) b).
  pose proof (located_covered b1 (canonical_path p)) as Hcov.
  destruct (place_grows (collect_located stat read_asset (canonical_path p)) b1) as [Hc Ho He].
  destruct (place_settled (collect_located stat read_asset (canonical_path p)) b1 H1 H2 H3) as (S1 & S2 & S3).
  split; [split; [done..|]|split; [by split|]].
  - intros l Hin. assert (l = p ∨ l ∈ b_located b) as [->|Hb]; [|exact Hcov|].
    { destruct (collect_located _ _ _) in Hin; cbn in Hin; by apply elem_of_cons in Hin. }
    by apply Hc, H4.
  - right; right; right; right. by exists directory, resource.
Qed.

Lemma examine_all_spec cont turn deps b :
  settled_buckets b →
  let '(b', rest) := examine_all canonical_path stat read_asset cont turn deps b in
  ∃ examined, deps = examined ++ rest ∧ settled_buckets b' ∧ grows b b' ∧
    (∀ d, d ∈ examined → accounted b' d) ∧ ((∀ n, cont n = true) → rest = []).
Proof using LR.
  revert turn b. induction deps as [|d deps IH]; intros turn b Hb; cbn [examine_all]; destruct (cont turn) eqn:Hc.
  - exists []. split_and!; try done. by intros d ?%elem_of_nil.
  - exists []. split_and!; try done. by intros d ?%elem_of_nil.
  - destruct (examine_spec d b Hb) as (Hs & Hg & Ha). specialize (IH (S turn) _ Hs).
    destruct (examine_all _ _ _ _ _ _ _) as [b' rest]. destruct IH as (examined & -> & Hs' & Hg' & Hall & Hrest).
    exists (d :: examined). split_and!; [done|done| | |done].
    + destruct Hg, Hg'. split; [auto|by etrans|by etrans].
    + intros d' [->|Hd]%elem_of_cons; [by eapply accounted_grows|by apply Hall].
  - exists []. split_and!; try done; [by intros d' ?%elem_of_nil|]. intros H. by rewrite H in Hc.
Qed.

(** What the answer says of a located file. *)
Definition disclosed (out : CssDependencyAssets) (p : string) : Prop :=
  (∃ a, a ∈ d_assets out ∧ components (a_path a) = components p) ∨
  (∃ f, f ∈ d_failures out ∧ components (cf_path f) = components p) ∨
  (∃ u, u ∈ d_uncounted out ∧ components (u_path u) = components p).

(** No reference of a stylesheet is dropped. Of the references examined,
    one that names nothing separate (a [data:] payload, a fragment, an empty
    one) leaves no trace; a remote one and a surviving [@import] are disclosed
    as external; one that names no file is named as an omission; and every
    other is resolved against its own source file and lands, under its
    canonical path, among the counted assets, the unreadable files or the
    uncounted ones. References that were not examined because processing
    stopped early are themselves an omission, and there are none when it did
    not stop. *)
Theorem every_reference_is_accounted_for cont deps :
  let out := collect_referenced_assets canonical_path stat read_asset cont deps in
  ∃ examined rest, deps = examined ++ rest ∧ ((∀ n, cont n = true) → rest = []) ∧
  (rest ≠ [] → ∃ m, m ∈ d_omissions out ∧ m = pretty (length rest) +:+
     " CSS resource reference(s) were not examined because asset processing stopped early, so any bytes they ship are not in this size") ∧
  ∀ d, d ∈ examined →
  match d with
  | Import url file_path =>
      is_data (trim_bytes (to_bytes url)) = true ∨ ∃ m, external_import url file_path = Some m ∧ m ∈ d_external out
  | Url url file_path =>
      no_artifact (trim_bytes (to_bytes url)) ∨
      (is_remote_reference (trim_bytes (to_bytes url)) = true ∧
       css_resource url file_path " is fetched at runtime and is not in this size" ∈ d_external out) ∨
      (∃ why, css_resource url file_path why ∈ d_omissions out) ∨
      path_parent file_path = None ∨
      ∃ directory resource, path_parent file_path = Some directory ∧
        resource_path (trim_bytes (to_bytes url)) = Some resource ∧
        disclosed out (canonical_path (path_push directory resource))
  end.
Proof using LR.
  cbv zeta. unfold collect_referenced_assets.
  assert (settled_buckets no_buckets) as H0 by (split; cbn; [by intros kv ?%elem_of_nil..|by intros l ?%elem_of_nil]).
  pose proof (examine_all_spec cont 0 deps no_buckets H0) as H.
  destruct (examine_all _ _ _ _ _ _ _) as [b rest]. destruct H as (examined & -> & [S1 S2 S3 _] & _ & Hall & Hrest).
  exists examined, rest. split; [done|]. split; [done|]. split.
  { intros Hne. destruct rest as [|r rest]; [done|]. eexists. split; [|done]. cbn. apply elem_of_set_insert. by left. }
  intros d Hd. specialize (Hall d Hd). destruct d as [url f|url f]; cbn in Hall |- *; [|done].
  destruct Hall as [H|[H|[(why & H)|[H|(dir & res & H1 & H2 & H3)]]]]; [by left|by right; left| |by right; right; right; left|].
  - right; right; left. exists why. destruct rest; [done|]. apply elem_of_set_insert. by right.
  - right; right; right; right. exists dir, res. split_and!; [done..|]. unfold disclosed. cbn.
    destruct H3 as [(kv & Hin & Hk)|[(kv & Hin & Hk)|(kv & Hin & Hk)]]; [left|right; left|right; right];
      exists kv.2; (split; [by apply list_elem_of_fmap_2|]); [rewrite <- (S1 _ Hin)|rewrite <- (S2 _ Hin)|rewrite <- (S3 _ Hin)]; done.
Qed.
End accounting.

(** An icon font's rules: two spellings of one file, a payload, a CDN, an image. *)
Definition icon_read (p : string) (kind : AssetKind) : CollectedAsset + string :=
  inl {| a_path := p; a_kind := kind; a_bytes := ["f"%char];
         a_fingerprint := {| fp_path := p; fp_len := 1; fp_modified_millis := 0; fp_content_hash := None |} |}.
Definition icon_stat (p : string) : Metadata + ErrorKind :=
  if decide (p = "/p/css/../missing.svg") then inr NotFound else inl {| md_len := 1; md_modified := None |}.
Definition icon_deps : list Dependency :=
  [Url "./icons.woff2?v=1" "/p/css/a.css"; Url " icons.woff2#iefix " "/p/css/a.css"; Url "data:font/woff2;base64,AA" "/p/css/a.css";
   Url "//cdn.example/x.woff2" "/p/css/a.css"; Url "../movie.mp4" "/p/css/a.css"; Url "../missing.svg" "/p/css/a.css";
   Url "b%E9.woff2" "/p/css/a.css"; Import "https://fonts.example/c" "/p/css/a.css"].
#[export] Instance icon_reads : LedgerReads id icon_read.
Proof. split; [done|]. by intros p kind a [= <-]. Defined.

Lemma icon_answer :
  let out := collect_referenced_assets id icon_stat icon_read (λ _, true) icon_deps in
  (a_path <$> d_assets out) = ["/p/css/./icons.woff2"] ∧ (u_path <$> d_uncounted out) = ["/p/css/../movie.mp4"] ∧
  (cf_path <$> d_failures out) = ["/p/css/../missing.svg"] ∧ length (d_omissions out) = 1 ∧ length (d_external out) = 2.
Proof. vm_compute. done. Qed.

Lemma every_reference_is_accounted_for_witness :
  ∃ examined rest, icon_deps = examined ++ rest ∧ rest = [] ∧
    (a_path <$> d_assets (collect_referenced_assets id icon_stat icon_read (λ _, true) icon_deps)) = ["/p/css/./icons.woff2"].
Proof.
  destruct (every_reference_is_accounted_for id icon_stat icon_read (λ _, true) icon_deps)
    as (examined & rest & H1 & H2 & _).
  exists examined, rest. split; [exact H1|]. split; [apply H2; reflexivity|]. exact (proj1 icon_answer).
Defined.
