(* ===== verification/IgnoreRules.v ===== *)
(** * Ignore rules (document/ignore.rs)

    The nearest [.importlensignore] of a document, its rules, and the glob
    matcher they are read with. *)
From stdpp Require Import base gmap list strings.
From S2P Require Import Prelude ProjectRegistry Paths Manifests Text.

Set Default Proof Using "Type*".

(** ** Rules *)

Inductive ImportLensIgnoreRuleKind := Package | Import | PathRule.
Record ImportLensIgnoreRule := { rule_kind : ImportLensIgnoreRuleKind; rule_pattern : list ascii }.
Record ImportLensIgnore := { base_directory : string; rules : list ImportLensIgnoreRule }.
Definition no_rules : ImportLensIgnore := {| base_directory := ""; rules := [] |}.

Definition parse_rule_line (line : list ascii) : ImportLensIgnoreRule :=
  match split_once ":" line with
  | None => {| rule_kind := Import; rule_pattern := line |}
  | Some (kind, pattern) =>
      if decide (kind = to_bytes "package") then {| rule_kind := Package; rule_pattern := pattern |}
      else if decide (kind = to_bytes "import") then {| rule_kind := Import; rule_pattern := pattern |}
      else if decide (kind = to_bytes "path") then {| rule_kind := PathRule; rule_pattern := pattern |}
      else {| rule_kind := Import; rule_pattern := line |}
  end.

(** [str::lines]: a final line feed ends the last line; a carriage return before
    one is dropped. *)
Definition strip_cr (l : list ascii) : list ascii :=
  match reverse l with c :: rest => if decide (c = byte 13) then reverse rest else l | [] => [] end.
Definition lines (contents : list ascii) : list (list ascii) :=
  let parts := split_on (byte 10) contents in
  (strip_cr <$> removelast parts) ++ match last parts with Some [] | None => [] | Some line => [line] end.

Definition parse_import_lens_ignore (contents : string) (base_directory : string) : ImportLensIgnore :=
  {| base_directory := base_directory;
     rules := parse_rule_line <$>
       filter (λ line, negb (bool_decide (line = [])) && negb (starts_with ["#"%char] line) = true)
         (trim_bytes <$> lines (to_bytes contents)) |}.

(** ** The matcher *)

Local Notation memo_table := (gmap (nat * nat) bool).

(** [glob_matches_at]. Every call moves on in the pattern or in the value, so
    their lengths together are enough fuel. *)
Fixpoint glob_matches_at (pattern value : list ascii) (fuel pattern_index value_index : nat) (memo : memo_table) :
    bool * memo_table :=
  match fuel with
  | 0 => (false, memo)
  | S fuel =>
      match memo !! (pattern_index, value_index) with
      | Some result => (result, memo)
      | None =>
          let consume (more : ascii → bool) (memo : memo_table) : bool * memo_table :=
            match value !! value_index with
            | Some c => if more c then glob_matches_at pattern value fuel pattern_index (S value_index) memo else (false, memo)
            | None => (false, memo)
            end in
          let '(result, memo) :=
            match pattern !! pattern_index with
            | None => (bool_decide (value_index = length value), memo)
            | Some c =>
                if decide (c = "*"%char) then
                  if decide (pattern !! S pattern_index = Some "*"%char) then
                    let '(skipped, memo) := glob_matches_at pattern value fuel (S (S pattern_index)) value_index memo in
                    if skipped then (true, memo) else consume (λ _, true) memo
                  else
                    let '(skipped, memo) := glob_matches_at pattern value fuel (S pattern_index) value_index memo in
                    if skipped then (true, memo) else consume (λ c, negb (bool_decide (c = slash))) memo
                else match value !! value_index with
                     | Some v => if decide (c = v) then glob_matches_at pattern value fuel (S pattern_index) (S value_index) memo
                                 else (false, memo)
                     | None => (false, memo)
                     end
            end in
          (result, <[(pattern_index, value_index) := result]> memo)
      end
  end.

Definition glob_matches_exact (pattern value : list ascii) : bool :=
  (glob_matches_at pattern value (S (length pattern + length value)) 0 0 ∅).1.

(** ** Paths *)

Definition normalize_slashes (value : list ascii) : list ascii :=
  (λ c, if decide (c = "\"%char) then slash else c) <$> value.
Fixpoint suffixes_after_slashes (value : list ascii) : list (list ascii) :=
  match value with
  | [] => []
  | c :: rest => if decide (c = slash) then rest :: suffixes_after_slashes rest else suffixes_after_slashes rest
  end.

Definition glob_matches_path (pattern file_path base_directory : list ascii) : bool :=
  let pattern := normalize_slashes pattern in
  let path := normalize_slashes file_path in
  match strip_prefix [slash] pattern with
  | Some anchored =>
      let base := normalize_slashes base_directory in
      match strip_prefix (trim_end slash base) path ≫= strip_prefix [slash] with
      | Some relative => glob_matches_exact anchored relative
      | None => false
      end
  | None => glob_matches_exact pattern path || existsb (glob_matches_exact pattern) (suffixes_after_slashes path)
  end.

Definition should_ignore_import (package_name spec source_file : string) (ignore : ImportLensIgnore) : bool :=
  existsb (λ rule, match rule_kind rule with
                   | Package => glob_matches_exact (rule_pattern rule) (to_bytes package_name)
                   | Import => glob_matches_exact (rule_pattern rule) (to_bytes spec)
                   | PathRule => glob_matches_path (rule_pattern rule) (to_bytes source_file) (to_bytes (base_directory ignore))
                   end) (rules ignore).

(** ** Finding the rules *)

Section files.
Context `{FL : Files}.

(** The loop up from the document's directory. *)
Fixpoint find_up (fuel : nat) (current : string) : option string :=
  let candidate := path_push current ".importlensignore" in
  if is_file candidate then Some candidate
  else match fuel, path_parent current with
       | S fuel, Some up => find_up fuel up
       | _, _ => None
       end.
Definition find_import_lens_ignore (start_file_path : string) : option string :=
  directory ← path_parent start_file_path;
  find_up (length (components directory)) directory.

Definition load_import_lens_ignore (start_file_path : string) : ImportLensIgnore :=
  match find_import_lens_ignore start_file_path with
  | None => no_rules
  | Some ignore_path =>
      match read_to_string ignore_path with
      | inl contents => parse_import_lens_ignore contents (default "" (path_parent ignore_path))
      | inr _ => no_rules
      end
  end.

(** [IgnoreRuleResolver::rules_for]: the memo by directory, [None] a poisoned
    lock. *)
Definition rules_for (active_document_path : string) (by_directory : option (gmap string ImportLensIgnore)) :
    ImportLensIgnore * option (gmap string ImportLensIgnore) :=
  let directory := default "" (path_parent active_document_path) in
  match by_directory with
  | None => (load_import_lens_ignore active_document_path, None)
  | Some cache =>
      match cache !! directory with
      | Some rules => (rules, Some cache)
      | None => let rules := load_import_lens_ignore active_document_path in
                (rules, Some (<[directory := rules]> cache))
      end
  end.
End files.

(** ** What a pattern means *)

Inductive token := Any | AnySegment | Literal (c : ascii).

Fixpoint tokens_of (fuel : nat) (pattern : list ascii) : list token :=
  match fuel, pattern with
  | S fuel, c :: rest =>
      if decide (c = "*"%char) then
        match rest with
        | d :: rest' => if decide (d = "*"%char) then Any :: tokens_of fuel rest' else AnySegment :: tokens_of fuel rest
        | [] => [AnySegment]
        end
      else Literal c :: tokens_of fuel rest
  | _, _ => []
  end.
Definition tokens (pattern : list ascii) : list token := tokens_of (length pattern) pattern.

(** The values a pattern stands for: [**] any text, [*] any text without a
    slash, anything else itself. *)
Fixpoint denotes (ts : list token) (value : list ascii) : Prop :=
  match ts with
  | [] => value = []
  | Any :: ts => ∃ before after, value = before ++ after ∧ denotes ts after
  | AnySegment :: ts => ∃ before after, value = before ++ after ∧ slash ∉ before ∧ denotes ts after
  | Literal c :: ts => ∃ after, value = c :: after ∧ denotes ts after
  end.

Lemma tokens_of_enough n pattern : length pattern ≤ n → tokens_of n pattern = tokens pattern.
Proof.
  unfold tokens. remember (length pattern) as m eqn:Hm. revert n pattern Hm.
  induction m as [m IH] using lt_wf_ind. intros n pattern Hm Hn.
  destruct pattern as [|c [|d rest]]; cbn [length] in Hm; subst m; [by destruct n|..]; (destruct n as [|n]; [lia|]).
  - cbn [tokens_of]. by destruct n.
  - assert (∀ k, tokens_of (S k) (c :: d :: rest) =
      if decide (c = "*"%char) then
        if decide (d = "*"%char) then Any :: tokens_of k rest else AnySegment :: tokens_of k (d :: rest)
      else Literal c :: tokens_of k (d :: rest)) as Hstep by done. rewrite !Hstep.
    rewrite (IH (S (length rest)) ltac:(lia) n (d :: rest) eq_refl ltac:(lia)).
    rewrite (IH (length rest) ltac:(lia) n rest eq_refl ltac:(lia)).
    by rewrite (IH (length rest) ltac:(lia) (S (length rest)) rest eq_refl ltac:(lia)).
Qed.

Lemma tokens_star2 p : tokens ("*"%char :: "*"%char :: p) = Any :: tokens p.
Proof.
  transitivity (Any :: tokens_of (S (length p)) p); [done|]. f_equal. apply tokens_of_enough. lia.
Qed.
Lemma tokens_star p : head p ≠ Some "*"%char → tokens ("*"%char :: p) = AnySegment :: tokens p.
Proof.
  intros Hp. unfold tokens at 1. cbn [length tokens_of]. rewrite decide_True by done.
  destruct p as [|d p]; [done|]. rewrite decide_False by (intros ->; done). done.
Qed.
Lemma tokens_literal c p : c ≠ "*"%char → tokens (c :: p) = Literal c :: tokens p.
Proof. intros Hc. unfold tokens at 1. cbn [length tokens_of]. by rewrite decide_False. Qed.

(** A wildcard matches nothing more, or takes one byte it may take. *)
Lemma denotes_any ts v :
  denotes (Any :: ts) v ↔ denotes ts v ∨ ∃ c v', v = c :: v' ∧ denotes (Any :: ts) v'.
Proof.
  split.
  - intros ([|c before] & after & -> & H); [by left|]. right. exists c, (before ++ after). split; [done|]. by exists before, after.
  - intros [H|(c & v' & -> & before & after & -> & H)]; [by exists [], v|]. by exists (c :: before), after.
Qed.
Lemma denotes_segment ts v :
  denotes (AnySegment :: ts) v ↔
  denotes ts v ∨ ∃ c v', v = c :: v' ∧ c ≠ slash ∧ denotes (AnySegment :: ts) v'.
Proof.
  split.
  - intros ([|c before] & after & -> & Hn & H); [by left|]. apply not_elem_of_cons in Hn as [Hc Hn].
    right. exists c, (before ++ after). split_and!; [done|congruence|]. by exists before, after.
  - intros [H|(c & v' & -> & Hc & before & after & -> & Hn & H)].
    + exists [], v. split_and!; [done|set_solver|done].
    + exists (c :: before), after. split_and!; [done|set_solver|done].
Qed.

(** ** The memoized search decides it *)

Section search.
Context (pattern value : list ascii).

Definition at_index (i j : nat) : Prop := denotes (tokens (drop i pattern)) (drop j value).
Definition sound_memo (memo : memo_table) : Prop :=
  ∀ i j b, memo !! (i, j) = Some b → (b = true ↔ at_index i j).

Lemma drop_lookup_cons {A} (l : list A) i x : l !! i = Some x → drop i l = x :: drop (S i) l.
Proof. intros H. by rewrite (drop_S _ _ _ H). Qed.

Definition decides (run : bool * memo_table) (P : Prop) : Prop := (run.1 = true ↔ P) ∧ sound_memo run.2.

#[local] Instance decides_proper run : Proper (iff ==> iff) (decides run).
Proof. intros P Q H. unfold decides. by rewrite H. Qed.

Lemma at_index_end i j : pattern !! i = None → at_index i j ↔ length value ≤ j.
Proof.
  intros H. apply lookup_ge_None in H. unfold at_index. rewrite (drop_ge pattern) by done. cbn.
  split; [intros Hd; apply (f_equal length) in Hd; rewrite length_drop in Hd; cbn in Hd; lia|apply drop_ge].
Qed.

Lemma at_index_star i j :
  pattern !! i = Some "*"%char →
  at_index i j ↔
  at_index (if decide (pattern !! S i = Some "*"%char) then S (S i) else S i) j ∨
  ∃ c, value !! j = Some c ∧ (pattern !! S i = Some "*"%char ∨ c ≠ slash) ∧ at_index i (S j).
Proof.
  intros Hi. unfold at_index. rewrite (drop_lookup_cons _ _ _ Hi).
  assert (∀ (P : list ascii → Prop) (c0 : ascii → Prop),
    (∃ c v', drop j value = c :: v' ∧ c0 c ∧ P v') ↔ ∃ c, value !! j = Some c ∧ c0 c ∧ P (drop (S j) value)) as Hd.
  { intros P c0. split.
    - intros (c & v' & He & ? & ?). exists c. assert (value !! j = Some c) as Hc.
      { rewrite <- (Nat.add_0_r j), <- lookup_drop, He. done. }
      split; [done|]. rewrite (drop_lookup_cons _ _ _ Hc) in He. by simplify_eq.
    - intros (c & Hc & ? & ?). exists c, (drop (S j) value). by rewrite (drop_lookup_cons _ _ _ Hc). }
  case_decide as Hs.
  - rewrite (drop_lookup_cons _ _ _ Hs), tokens_star2, denotes_any. apply or_iff_compat_l.
    rewrite <- (Hd (denotes (Any :: tokens (drop (S (S i)) pattern))) (λ c, _ ∨ c ≠ slash)).
    split; intros (c & v' & H); exists c, v'; [destruct H; split_and!; [done|by left|done]|by destruct H as (? & _ & ?)].
  - assert (head (drop (S i) pattern) ≠ Some "*"%char) as Hh.
    { rewrite head_lookup, lookup_drop, Nat.add_0_r. done. }
    rewrite tokens_star by done. rewrite denotes_segment. apply or_iff_compat_l.
    rewrite <- (Hd (denotes (AnySegment :: tokens (drop (S i) pattern))) (λ c, _ ∨ c ≠ slash)).
    split; intros (c & v' & He & Hc & H); exists c, v'; split_and!; try done; [by right|by destruct Hc].
Qed.

Lemma at_index_literal i j c :
  pattern !! i = Some c → c ≠ "*"%char → at_index i j ↔ value !! j = Some c ∧ at_index (S i) (S j).
Proof.
  intros Hi Hc. unfold at_index. rewrite (drop_lookup_cons _ _ _ Hi), tokens_literal by done. cbn [denotes]. split.
  - intros (after & He & H). assert (value !! j = Some c) as Hj.
    { rewrite <- (Nat.add_0_r j), <- lookup_drop, He. done. }
    split; [done|]. rewrite (drop_lookup_cons _ _ _ Hj) in He. by simplify_eq.
  - intros [Hj H]. exists (drop (S j) value). by rewrite (drop_lookup_cons _ _ _ Hj).
Qed.

Lemma sound_insert memo i j b : sound_memo memo → (b = true ↔ at_index i j) → sound_memo (<[(i, j) := b]> memo).
Proof.
  intros Hm Hb i' j' b'. destruct (decide ((i', j') = (i, j))) as [He|He].
  - simplify_eq. rewrite lookup_insert_eq. by intros [= <-].
  - rewrite lookup_insert_ne by done. apply Hm.
Qed.

Lemma glob_matches_at_spec fuel i j memo :
  i ≤ length pattern → j ≤ length value → (length pattern - i) + (length value - j) < fuel → sound_memo memo →
  decides (glob_matches_at pattern value fuel i j memo) (at_index i j).
Proof.
  revert i j memo. induction fuel as [|fuel IH]; intros i j memo Hi Hj Hf Hm; [lia|]. cbn [glob_matches_at].
  destruct (memo !! (i, j)) as [b|] eqn:Hb; [split; [by apply Hm|done]|].
  match goal with |- decides (let '(_, _) := ?r in _) _ => set (run := r); enough (decides run (at_index i j)) as [H1 H2];
    [destruct run as [b memo']; split; [done|by apply sound_insert]|] end.
  subst run. destruct (pattern !! i) as [c|] eqn:Hp.
  2:{ split; [|done]. cbn. rewrite bool_decide_eq_true, at_index_end by done. lia. }
  pose proof (lookup_lt_Some _ _ _ Hp) as Hlt.
  destruct (decide (c = "*"%char)) as [->|Hc].
  - rewrite (at_index_star _ _ Hp). case_decide as Hs.
    + pose proof (lookup_lt_Some _ _ _ Hs). destruct (IH (S (S i)) j memo) as [H1 H2]; [lia..|done|].
      destruct (glob_matches_at pattern value fuel (S (S i)) j memo) as [[] memo1]; [split; [by split; [left; apply H1|]|done]|].
      destruct (value !! j) as [v|] eqn:Hv.
      * pose proof (lookup_lt_Some _ _ _ Hv). destruct (IH i (S j) memo1) as [H3 H4]; [lia..|done|]. split; [|done].
        rewrite H3. split; [intros; right; exists v; split_and!; [done|by left|done]|].
        intros [Hl|(w & _ & _ & Hr)]; [by apply H1 in Hl|done].
      * split; [|done]. split; [done|]. intros [Hl|(w & ? & _)]; [by apply H1 in Hl|done].
    + destruct (IH (S i) j memo) as [H1 H2]; [lia..|done|].
      destruct (glob_matches_at pattern value fuel (S i) j memo) as [[] memo1]; [split; [by split; [left; apply H1|]|done]|].
      destruct (value !! j) as [v|] eqn:Hv.
      * case_bool_decide as Hsl; cbn [negb].
        { split; [|done]. split; [done|]. intros [Hl|(w & Hw & [|Hne] & _)]; [by apply H1 in Hl|done|congruence]. }
        pose proof (lookup_lt_Some _ _ _ Hv). destruct (IH i (S j) memo1) as [H3 H4]; [lia..|done|]. split; [|done].
        rewrite H3. split; [intros; right; exists v; split_and!; [done|by right|done]|].
        intros [Hl|(w & _ & _ & Hr)]; [by apply H1 in Hl|done].
      * split; [|done]. split; [done|]. intros [Hl|(w & ? & _)]; [by apply H1 in Hl|done].
  - rewrite (at_index_literal _ _ _ Hp Hc). destruct (value !! j) as [v|] eqn:Hv.
    + case_decide as Hcv; [subst v|split; [split; [done|intros [? _]; congruence]|done]].
      pose proof (lookup_lt_Some _ _ _ Hv). destruct (IH (S i) (S j) memo) as [H3 H4]; [lia..|done|].
      split; [|done]. rewrite H3. split; [done|by intros [_ ?]].
    + split; [|done]. split; [done|by intros [? _]].
Qed.
End search.

(** The memoized glob search always ends and decides what a pattern means:
    [**] stands for any text, [*] for any text without a slash, every other
    byte for itself, and the whole value has to be matched. *)
Theorem glob_decides_its_pattern pattern value :
  glob_matches_exact pattern value = true ↔ denotes (tokens pattern) value.
Proof.
  unfold glob_matches_exact.
  destruct (glob_matches_at_spec pattern value (S (length pattern + length value)) 0 0 ∅) as [H _]; [lia..| |].
  - intros i j b Hb. by rewrite lookup_empty in Hb.
  - exact H.
Qed.

(** ** The memo of rules *)

Section memo_rules.
Context `{FL : Files}.

Definition memo_sound (cache : gmap string ImportLensIgnore) : Prop :=
  ∀ d rules path, cache !! d = Some rules → default "" (path_parent path) = d → rules = load_import_lens_ignore path.

(** The rules depend on the directory alone, but for a path with no parent. *)
Lemma load_by_directory p q :
  path_parent p = path_parent q → load_import_lens_ignore p = load_import_lens_ignore q.
Proof. intros H. unfold load_import_lens_ignore, find_import_lens_ignore. by rewrite H. Qed.

Lemma rules_for_hit path cache rules :
  cache !! default "" (path_parent path) = Some rules → rules_for path (Some cache) = (rules, Some cache).
Proof. intros H. unfold rules_for. by rewrite H. Qed.

Lemma rules_for_miss path cache :
  cache !! default "" (path_parent path) = None → (rules_for path (Some cache)).1 = load_import_lens_ignore path.
Proof. intros H. unfold rules_for. by rewrite H. Qed.
End memo_rules.
