(* ===== verification/Specifiers.v ===== *)
(** * Specifiers (document/specifier.rs, pipeline/node_builtins.rs)

    Which import specifiers name an installed package, and the package they
    name. *)
From stdpp Require Import base list strings.
From S2P Require Import Prelude Text.

Set Default Proof Using "Type*".

(** ** Node's own modules *)

Definition NODE_BUILTIN_MODULES : list string := [
  "assert"; "assert/strict"; "async_hooks"; "buffer"; "child_process"; "cluster"; "console";
   "constants"; "crypto"; "dgram"; "diagnostics_channel"; "dns"; "dns/promises"; "domain";
   "events"; "fs"; "fs/promises"; "http"; "http2"; "https"; "inspector"; "inspector/promises";
   "module"; "net"; "os"; "path"; "path/posix"; "path/win32"; "perf_hooks"; "process"; "punycode";
   "querystring"; "readline"; "readline/promises"; "repl"; "stream"; "stream/consumers";
   "stream/promises"; "stream/web"; "string_decoder"; "timers"; "timers/promises"; "tls";
   "trace_events"; "tty"; "url"; "util"; "util/types"; "v8"; "vm"; "wasi"; "worker_threads"; "zlib"].
Definition NODE_PREFIX_ONLY_MODULES : list string := [
  "node:sea"; "node:sqlite"; "node:test"; "node:test/reporters"].

(** [slice::binary_search]: halve the range until it is empty. *)
Section search.
Context {A : Type} (cmp : A → A → comparison).

Fixpoint bisect (fuel lo hi : nat) (l : list A) (x : A) : option nat :=
  match fuel with
  | 0 => None
  | S fuel =>
      if decide (hi ≤ lo) then None
      else let mid := lo + (hi - lo) / 2 in
           match l !! mid with
           | None => None
           | Some y =>
               match cmp y x with
               | Eq => Some mid
               | Lt => bisect fuel (S mid) hi l x
               | Gt => bisect fuel lo mid l x
               end
           end
  end.
Definition binary_search (l : list A) (x : A) : option nat := bisect (S (length l)) 0 (length l) l x.

(** The lists must be in order for it to see all of them. *)
Fixpoint in_order (l : list A) : bool :=
  match l with
  | a :: (b :: _) as rest => bool_decide (cmp a b = Lt) && in_order rest
  | _ => true
  end.

Context `{!CmpOrder cmp}.

Lemma in_order_sorted l : in_order l = true → StronglySorted (cmp_lt cmp) l.
Proof.
  intros H. apply Sorted_StronglySorted; [intros a b c; apply cmp_trans|].
  induction l as [|a [|b l] IH]; [constructor|repeat constructor|].
  change (bool_decide (cmp a b = Lt) && in_order (b :: l) = true) in H.
  apply andb_true_iff in H as [Hab%bool_decide_eq_true Hl].
  constructor; [by apply IH|by constructor].
Qed.

Lemma sorted_lookup_lt l i j a b :
  StronglySorted (cmp_lt cmp) l → l !! i = Some a → l !! j = Some b → i < j → cmp a b = Lt.
Proof.
  intros Hs. revert i j. induction Hs as [|c l Hs IH Hc]; intros [|i] [|j] Hi Hj Hlt; try done; try lia.
  - cbn in Hi, Hj. simplify_eq. rewrite Forall_lookup in Hc. by eapply Hc.
  - eapply (IH i j); [done..|lia].
Qed.

Lemma bisect_spec fuel lo hi l x :
  StronglySorted (cmp_lt cmp) l → hi ≤ length l → hi - lo < fuel →
  (∀ i, l !! i = Some x → lo ≤ i < hi) →
  is_Some (bisect fuel lo hi l x) ↔ x ∈ l.
Proof.
  intros Hs. revert lo hi. induction fuel as [|fuel IH]; intros lo hi Hhi Hf Hx; [lia|]. cbn [bisect].
  case_decide as Hle.
  { split; [by intros []|]. intros [i Hi]%list_elem_of_lookup_1. apply Hx in Hi. lia. }
  assert (lo + (hi - lo) / 2 < hi) as Hmid.
  { pose proof (Nat.div_lt (hi - lo) 2 ltac:(lia) ltac:(lia)). lia. }
  destruct (lookup_lt_is_Some_2 l (lo + (hi - lo) / 2)) as [y Hy]; [lia|]. rewrite Hy.
  destruct (cmp y x) eqn:Hc.
  - apply cmp_eq in Hc as ->. split; [|by eauto]. intros _. by eapply list_elem_of_lookup_2.
  - apply IH; [lia..|]. intros i Hi. pose proof (Hx i Hi).
    destruct (decide (i ≤ lo + (hi - lo) / 2)) as [Hi'|]; [|lia]. exfalso.
    destruct (decide (i = lo + (hi - lo) / 2)) as [->|].
    + simplify_eq. by rewrite cmp_refl in Hc.
    + pose proof (sorted_lookup_lt l i _ x y Hs Hi Hy ltac:(lia)) as H1. by rewrite (cmp_opp (cmp:=cmp) x y), H1 in Hc.
  - apply IH; [lia..|]. intros i Hi. pose proof (Hx i Hi).
    destruct (decide (lo + (hi - lo) / 2 ≤ i)) as [Hi'|]; [|lia]. exfalso.
    destruct (decide (i = lo + (hi - lo) / 2)) as [->|].
    + simplify_eq. by rewrite cmp_refl in Hc.
    + pose proof (sorted_lookup_lt l _ i y x Hs Hy Hi ltac:(lia)) as H1. by rewrite H1 in Hc.
Qed.

Lemma binary_search_spec l x : in_order l = true → is_Some (binary_search l x) ↔ x ∈ l.
Proof.
  intros Hl. apply bisect_spec; [by apply in_order_sorted|done|lia|].
  intros i Hi. apply lookup_lt_Some in Hi. lia.
Qed.
End search.

Definition strip_node (spec : string) : string :=
  match strip_prefix (to_bytes "node:") (to_bytes spec) with Some bare => of_bytes bare | None => spec end.
Definition is_node_builtin_specifier (spec : string) : bool :=
  if decide (is_Some (binary_search String.compare NODE_PREFIX_ONLY_MODULES spec)) then true
  else bool_decide (is_Some (binary_search String.compare NODE_BUILTIN_MODULES (strip_node spec))).

(** ** Specifiers *)

Definition get_package_name (spec : string) : string :=
  let parts := split_on "/" (to_bytes spec) in
  if starts_with ["@"%char] (to_bytes spec) then
    match parts with
    | scope :: name :: _ => of_bytes (scope ++ "/"%char :: name)
    | _ => spec
    end
  else match parts with first :: _ => of_bytes first | [] => spec end.

Definition starts (prefix spec : string) : bool := starts_with (to_bytes prefix) (to_bytes spec).

Definition is_windows_absolute_path (spec : string) : bool :=
  match to_bytes spec with
  | drive :: colon :: sep :: _ =>
      is_ascii_alphabetic drive && bool_decide (colon = ":"%char) &&
      (bool_decide (sep = "\"%char) || bool_decide (sep = "/"%char))
  | _ => false
  end.
Definition is_relative_specifier (spec : string) : bool :=
  starts "./" spec || starts "../" spec || starts "/" spec || starts "\\" spec || starts ".\" spec ||
  starts "..\" spec || is_windows_absolute_path spec.

Definition is_url_like_specifier (spec : string) : bool :=
  match split_once ":" (to_bytes spec) with
  | Some (first :: rest, _) =>
      is_ascii_alphabetic first &&
      forallb (λ c, is_ascii_alphanumeric c || bool_decide (c ∈ ["+"%char; "."%char; "-"%char])) rest
  | _ => false
  end.
Definition is_framework_virtual_specifier (spec : string) : bool :=
  starts "astro:" spec || starts "virtual:" spec || starts "$" spec || starts "#" spec ||
  starts "@/" spec || starts "~/" spec.
Definition is_host_provided_module (spec : string) : bool :=
  bool_decide (spec = "vscode") || bool_decide (spec = "electron") || starts "bun:" spec.

Definition is_runtime_package_specifier (spec : string) : bool :=
  negb (is_relative_specifier spec) && negb (is_node_builtin_specifier spec) &&
  negb (is_url_like_specifier spec) && negb (is_framework_virtual_specifier spec) &&
  negb (is_host_provided_module spec).

(** The binary searches see every entry of the two lists, so a specifier is
    Node's own exactly when it is listed with its prefix, or its bare name is
    listed; [test] without the prefix stays a package. *)
Theorem builtins_are_exactly_the_listed_ones spec :
  (is_node_builtin_specifier spec = true ↔
   spec ∈ NODE_PREFIX_ONLY_MODULES ∨ strip_node spec ∈ NODE_BUILTIN_MODULES) ∧
  is_runtime_package_specifier "test" = true.
Proof.
  split; [|by vm_compute]. unfold is_node_builtin_specifier.
  rewrite <- (binary_search_spec String.compare NODE_PREFIX_ONLY_MODULES) by by vm_compute.
  rewrite <- (binary_search_spec String.compare NODE_BUILTIN_MODULES) by by vm_compute.
  case_decide; [by split; [left|]|]. rewrite bool_decide_eq_true. naive_solver.
Qed.
