(* ===== verification/Positions.v ===== *)
(** * Positions (document/positions.rs)

    Byte offsets of a document as the editor's line and UTF-16 column. *)
From stdpp Require Import base list strings.
From S2P Require Import Prelude Text.

Set Default Proof Using "Type*".

Definition LF : ascii := byte 10.
Definition CR : ascii := byte 13.

(** [as u32]. *)
Definition to_u32 (n : nat) : N := (N.of_nat n mod 4294967296)%N.

Record SourcePosition := { line : N; character : N }.
Record SourceRange := { range_start : SourcePosition; range_end : SourcePosition }.

(** ** [LineIndex] *)

Fixpoint starts_from (index : nat) (bytes : list ascii) : list nat :=
  match bytes with
  | [] => []
  | b :: rest =>
      if decide (b = LF) then S index :: starts_from (S index) rest
      else if decide (b = CR) then
        match rest with
        | d :: rest' => if decide (d = LF) then S (S index) :: starts_from (S (S index)) rest'
                        else S index :: starts_from (S index) rest
        | [] => [S index]
        end
      else starts_from (S index) rest
  end.
Definition LineIndex_new (source : list ascii) : list nat := 0 :: starts_from 0 source.

(** [partition_point]: how many of a partitioned slice pass. *)
Fixpoint partition_point (f : nat → bool) (l : list nat) : nat :=
  match l with x :: l => if f x then S (partition_point f l) else 0 | [] => 0 end.

(** [&source[a..b]] panics off a character boundary, [None] here. *)
Definition is_char_boundary (source : list ascii) (index : nat) : bool :=
  bool_decide (index = 0) ||
  match source !! index with
  | Some b => negb (is_continuation b)
  | None => bool_decide (index = length source)
  end.
Definition slice (source : list ascii) (a b : nat) : option (list ascii) :=
  if decide (a ≤ b ∧ is_char_boundary source a = true ∧ is_char_boundary source b = true)
  then Some (take (b - a) (drop a source)) else None.

(** [chars().map(len_utf16).sum()], counted on the lead bytes. *)
Definition units_of (b : ascii) : nat :=
  if is_continuation b then 0 else if between 240 255 b then 2 else 1.
Definition utf16_len (text : list ascii) : nat := sum_list (units_of <$> text).

Definition position_at (line_starts : list nat) (source : list ascii) (offset : nat) : option SourcePosition :=
  let safe_offset := offset `min` length source in
  let line := partition_point (λ start, bool_decide (start ≤ safe_offset)) line_starts - 1 in
  line_start ← line_starts !! line;
  text ← slice source line_start safe_offset;
  Some {| line := to_u32 line; character := to_u32 (utf16_len text) |}.

Definition range_from_offsets (line_starts : list nat) (source : list ascii) (start end_ : nat) : option SourceRange :=
  s ← position_at line_starts source start;
  e ← position_at line_starts source end_;
  Some {| range_start := s; range_end := e |}.

(** ** The walk it answers for *)

(** Reading the text from the top: a line ends at a line feed, or at a carriage
    return no line feed follows. *)
Definition ends_line (b : ascii) (rest : list ascii) : bool :=
  bool_decide (b = LF) || (bool_decide (b = CR) && negb (bool_decide (head rest = Some LF))).
Fixpoint walk (l c : nat) (source : list ascii) (offset : nat) : nat * nat :=
  match offset, source with
  | S offset, b :: rest =>
      if ends_line b rest then walk (S l) 0 rest offset else walk l (c + units_of b) rest offset
  | _, _ => (l, c)
  end.

Lemma starts_from_cons k b rest :
  starts_from k (b :: rest) =
  if ends_line b rest then S k :: starts_from (S k) rest else starts_from (S k) rest.
Proof.
  unfold ends_line. cbn [starts_from].
  destruct (decide (b = LF)) as [->|Hb]; [done|]. rewrite bool_decide_false by done. cbn [orb].
  destruct (decide (b = CR)) as [->|Hc]; [|by rewrite bool_decide_false].
  rewrite bool_decide_true by done. destruct rest as [|d rest]; [done|]. cbn [head andb].
  destruct (decide (d = LF)) as [->|Hd]; [by rewrite bool_decide_true|].
  rewrite bool_decide_false by congruence. done.
Qed.

Lemma starts_from_above k source s : s ∈ starts_from k source → k < s ≤ k + length source.
Proof.
  revert k. induction source as [|b rest IH]; intros k; [by intros ?%not_elem_of_nil|].
  rewrite starts_from_cons. cbn [length].
  destruct (ends_line b rest); rewrite ?elem_of_cons; [intros [->|H]; [lia|]|intros H];
    apply IH in H; lia.
Qed.

(** A line starts at the top or after a byte that ends one. *)
Lemma starts_from_after k source s :
  s ∈ starts_from k source → ∃ i b, s = k + S i ∧ source !! i = Some b ∧ between 0 127 b = true.
Proof.
  revert k. induction source as [|b rest IH]; intros k; [by intros ?%not_elem_of_nil|].
  rewrite starts_from_cons. intros H.
  assert (s ∈ starts_from (S k) rest ∨ s = S k ∧ ends_line b rest = true) as [Hs|[-> Hb]].
  { destruct (ends_line b rest); [apply elem_of_cons in H as [->|H]; auto|auto]. }
  - destruct (IH _ Hs) as (i & b' & -> & ? & ?). exists (S i), b'. split_and!; [lia|done..].
  - exists 0, b. split_and!; [lia|done|]. unfold ends_line in Hb.
    apply orb_true_iff in Hb as [Hb|[Hb _]%andb_true_iff]; by apply bool_decide_eq_true in Hb as ->.
Qed.

Lemma partition_point_le f l : partition_point f l ≤ length l.
Proof. induction l as [|x l IH]; cbn; [lia|]. destruct (f x); lia. Qed.

Lemma utf16_len_cons b text : utf16_len (b :: text) = units_of b + utf16_len text.
Proof. done. Qed.

(** The line and column the index gives a position [o] bytes on, from a text
    that starts [k] bytes in at column [c] of line [l]. *)
Definition indexed (k : nat) (source : list ascii) (o l c : nat) : nat * nat :=
  let starts := starts_from k source in
  let n := partition_point (λ s, bool_decide (s ≤ k + o)) starts in
  (l + n, match n with
          | 0 => c + utf16_len (take o source)
          | S m => match starts !! m with Some s => utf16_len (drop (s - k) (take o source)) | None => 0 end
          end).

Lemma walk_indexed source k o l c : walk l c source o = indexed k source o l c.
Proof.
  revert k o l c. induction source as [|b rest IH]; intros k [|o] l c; unfold indexed.
  1,2: cbn; rewrite ?take_nil; cbn; f_equal; lia.
  - assert (partition_point (λ s, bool_decide (s ≤ k + 0)) (starts_from k (b :: rest)) = 0) as ->; [|cbn; f_equal; lia].
    destruct (starts_from k (b :: rest)) as [|s ss] eqn:Hs; [done|]. cbn [partition_point].
    assert (s ∈ starts_from k (b :: rest)) as H by (rewrite Hs; left). apply starts_from_above in H.
    by rewrite bool_decide_false by lia.
  - cbn [walk]. rewrite starts_from_cons. replace (k + S o) with (S k + o) by lia. cbn [take].
    assert (∀ m s, starts_from (S k) rest !! m = Some s →
      drop (s - k) (b :: take o rest) = drop (s - S k) (take o rest)) as Hdrop.
    { intros m s Hs%list_elem_of_lookup_2%starts_from_above. by replace (s - k) with (S (s - S k)) by lia. }
    destruct (ends_line b rest).
    + rewrite (IH (S k)). unfold indexed. cbn [partition_point]. rewrite bool_decide_true by lia.
      destruct (partition_point _ (starts_from (S k) rest)) as [|m] eqn:Hm.
      * cbn. replace (S k - k) with 1 by lia. cbn. f_equal; lia.
      * cbn [lookup list_lookup]. change (list_lookup m (starts_from (S k) rest)) with (starts_from (S k) rest !! m).
        destruct (starts_from (S k) rest !! m) as [s|] eqn:Hs; [rewrite (Hdrop m) by done|]; f_equal; lia.
    + rewrite (IH (S k)). unfold indexed.
      destruct (partition_point _ (starts_from (S k) rest)) as [|m] eqn:Hm.
      * rewrite utf16_len_cons. f_equal; lia.
      * destruct (starts_from (S k) rest !! m) as [s|] eqn:Hs; [by rewrite (Hdrop m)|done].
Qed.

(** The slice a position counts never panics on well-formed text. *)
Lemma line_starts_are_boundaries source s :
  is_utf8 source = true → s ∈ LineIndex_new source → is_char_boundary source s = true.
Proof.
  intros Hu [->|(i & b & -> & Hb & Ha)%starts_from_after]%elem_of_cons; [done|].
  unfold is_char_boundary. apply orb_true_iff. right. cbn [plus].
  destruct (source !! S i) as [d|] eqn:Hd; [by rewrite (utf8_after_ascii source i b d)|].
  apply bool_decide_eq_true. apply lookup_lt_Some in Hb. apply lookup_ge_None in Hd. lia.
Qed.

Lemma current_line source o :
  o ≤ length source →
  let n := partition_point (λ s, bool_decide (s ≤ o)) (LineIndex_new source) - 1 in
  ∃ s, LineIndex_new source !! n = Some s ∧ s ≤ o ∧
       (n, utf16_len (take (o - s) (drop s source))) = walk 0 0 source o.
Proof.
  intros Ho. rewrite (walk_indexed source 0). unfold indexed, LineIndex_new.
  cbn [partition_point plus]. rewrite bool_decide_true by lia. rewrite Nat.sub_succ, Nat.sub_0_r.
  set (n := partition_point _ (starts_from 0 source)).
  assert (∀ s, take (o - s) (drop s source) = drop s (take o source)) as Htake.
  { intros s. by rewrite skipn_firstn_comm. }
  destruct n as [|m] eqn:Hn; [exists 0; split_and!; [done|lia|by rewrite Htake, drop_0]|].
  assert (∀ l i, i < partition_point (λ s, bool_decide (s ≤ o)) l → ∃ s, l !! i = Some s ∧ s ≤ o) as Hp.
  { induction l as [|x l IH]; cbn; [lia|]. intros [|i]; case_bool_decide; try lia; [by exists x|].
    intros Hi. apply IH. lia. }
  destruct (Hp (starts_from 0 source) m) as (s & Hs & Hle); [fold n; lia|].
  exists s. split_and!; [done|done|]. by rewrite Hs, Htake, Nat.sub_0_r.
Qed.

Lemma positions_of source offset :
  is_utf8 source = true → is_char_boundary source (offset `min` length source) = true →
  position_at (LineIndex_new source) source offset =
  Some {| line := to_u32 (walk 0 0 source (offset `min` length source)).1;
          character := to_u32 (walk 0 0 source (offset `min` length source)).2 |}.
Proof.
  intros Hu Hb. unfold position_at. set (o := offset `min` length source) in *.
  destruct (current_line source o) as (s & Hs & Hle & Hw); [lia|]. rewrite Hs. cbn [mbind option_bind].
  unfold slice. rewrite decide_True; [|split_and!; [done| |done]].
  - rewrite <- Hw. done.
  - eapply line_starts_are_boundaries; [done|]. by eapply list_elem_of_lookup_2.
Qed.

(** ** Order *)

Definition before (p q : nat * nat) : Prop := p.1 < q.1 ∨ p.1 = q.1 ∧ p.2 < q.2.
Lemma walk_reaches l c source o : l < (walk l c source o).1 ∨ (walk l c source o).1 = l ∧ c ≤ (walk l c source o).2.
Proof.
  revert l c o. induction source as [|b rest IH]; intros l c [|o]; cbn; try (right; lia).
  destruct (ends_line b rest); [destruct (IH (S l) 0 o); lia|].
  destruct (IH l (c + units_of b) o); [by left|right; lia].
Qed.

(** Later characters have later positions. *)
Lemma walk_increases l c source a b :
  a < b → b ≤ length source → (∀ d, source !! a = Some d → is_continuation d = false) →
  before (walk l c source a) (walk l c source b).
Proof.
  revert l c source b. induction a as [|a IH]; intros l c [|d rest] [|b] Hab Hb Hd; cbn [length] in Hb; try lia.
  - cbn [walk]. unfold before. cbn [fst snd]. specialize (Hd d eq_refl).
    destruct (ends_line d rest); [destruct (walk_reaches (S l) 0 rest b); lia|].
    assert (1 ≤ units_of d) by (unfold units_of; rewrite Hd; case_match; lia).
    destruct (walk_reaches l (c + units_of d) rest b); [by left|right; lia].
  - cbn [walk]. destruct (ends_line d rest); apply IH; (lia || exact Hd).
Qed.

(** A position is where a reader is who walks the text from the top, a
    line ending at a line feed or at a carriage return no line feed follows and
    a column counting UTF-16 units, offsets past the end read as the end; the
    slice it is counted on never leaves a character boundary; and a later
    character is later in the walk. *)
Theorem positions_are_the_walk source offset :
  is_utf8 source = true → is_char_boundary source (offset `min` length source) = true →
  position_at (LineIndex_new source) source offset =
  Some {| line := to_u32 (walk 0 0 source (offset `min` length source)).1;
          character := to_u32 (walk 0 0 source (offset `min` length source)).2 |} ∧
  ∀ later, offset < later ≤ length source → before (walk 0 0 source offset) (walk 0 0 source later).
Proof.
  intros Hu Hb. split; [by apply positions_of|]. intros later Hl.
  rewrite Nat.min_l in Hb by lia. apply walk_increases; [lia..|]. intros d Hd.
  apply orb_true_iff in Hb as [->%bool_decide_eq_true|Hb].
  - apply (utf8_head source); [done|]. by destruct source.
  - rewrite Hd in Hb. by apply negb_true_iff.
Qed.

Definition sample : list ascii := to_bytes "ab" ++ [CR; LF] ++ to_bytes "c" ++ [byte 240; byte 157; byte 132; byte 158] ++ to_bytes "x".
Lemma positions_are_the_walk_witness :
  is_utf8 sample = true ∧ is_char_boundary sample (9 `min` length sample) = true ∧
  position_at (LineIndex_new sample) sample 9 = Some {| line := 1; character := 3 |} ∧
  position_at (LineIndex_new sample) sample 6 = None.
Proof.
  split_and!; [by vm_compute..| |by vm_compute].
  destruct (positions_are_the_walk sample 9) as [-> _]; by vm_compute.
Defined.
