(* ===== verification/ScriptRegions.v ===== *)
(** * Script regions (document/script_regions.rs)

    Where a component or Astro document keeps its scripts, which runtime each
    resolves under, and what its markup refers to. Offsets are bytes. *)
From stdpp Require Import base list strings pretty.
From S2P Require Import Prelude Results Text Positions PackageScan.

Set Default Proof Using "Type*".

Inductive ScriptLanguage := Js | Jsx | Ts | Tsx.
Definition extension_of (l : ScriptLanguage) : string :=
  match l with Js => "js" | Jsx => "jsx" | Ts => "ts" | Tsx => "tsx" end.

Record ScriptRegion := {
  rg_filename : string;
  rg_source : list ascii;
  rg_offset : nat;
  rg_runtime : ImportRuntime;
  shares_bindings_with_markup : bool;
}.

(** ** Searching text *)

Definition is_ascii_whitespace (b : ascii) : bool := bool_decide (N_of_ascii b ∈ [9; 10; 12; 13; 32]%N).
Definition quotes : list ascii := [byte 34; byte 39].
Definition one_of (bs : list ascii) (b : ascii) : bool := bool_decide (b ∈ bs).

(** [position]: the first index that passes. *)
Fixpoint position (f : ascii → bool) (l : list ascii) : option nat :=
  match l with [] => None | b :: l => if f b then Some 0 else S <$> position f l end.

Definition until (bytes : list ascii) (from : nat) (stop : ascii → bool) : nat :=
  match position stop (drop from bytes) with Some relative => from + relative | None => length bytes end.
Definition find_bytes (bytes : list ascii) (from : nat) (needle : list ascii) : option nat :=
  if decide (from ≤ length bytes) then Nat.add from <$> find_sub needle (drop from bytes) else None.

Fixpoint whitespace_len (l : list ascii) : nat :=
  match l with b :: l => if is_ascii_whitespace b then S (whitespace_len l) else 0 | [] => 0 end.
Definition skip_ascii_whitespace (value : list ascii) (offset : nat) : nat :=
  offset + whitespace_len (drop offset value).

Definition text_between (l : list ascii) (a b : nat) : list ascii := take (b - a) (drop a l).

(** ** Attributes *)

Definition read_attribute_value_with_end (value : list ascii) (offset : nat) : option (list ascii * nat) :=
  byte ← value !! offset;
  if one_of quotes byte then
    relative_end ← position (λ b, bool_decide (b = byte)) (drop (S offset) value);
    Some (take relative_end (drop (S offset) value), S offset + relative_end + 1)
  else
    let end_ := until value offset (λ b, is_ascii_whitespace b || bool_decide (b = ">"%char)) in
    Some (text_between value offset end_, end_).

(** The loop over [name[=value]] tokens; every turn moves on. *)
Fixpoint attribute_from (fuel : nat) (lower wanted : list ascii) (offset : nat) : option (list ascii) :=
  match fuel with
  | 0 => None
  | S fuel =>
      if decide (length lower ≤ offset) then None
      else
        let name_end := until lower offset (λ b, is_ascii_whitespace b || one_of ["="; "/"; ">"]%char b) in
        if decide (name_end = offset) then attribute_from fuel lower wanted (skip_ascii_whitespace lower (S offset))
        else
          let name := text_between lower offset name_end in
          let after_name := skip_ascii_whitespace lower name_end in
          if decide (lower !! after_name = Some "="%char) then
            let value_start := skip_ascii_whitespace lower (S after_name) in
            let '(value, value_end) :=
              default ([], S value_start) (read_attribute_value_with_end lower value_start) in
            if decide (name = wanted) then Some value
            else attribute_from fuel lower wanted (skip_ascii_whitespace lower value_end)
          else if decide (name = wanted) then Some []
          else attribute_from fuel lower wanted after_name
  end.
Definition attribute_value (attributes wanted : list ascii) : option (list ascii) :=
  let lower := lower_bytes attributes in
  attribute_from (S (length lower)) lower wanted (skip_ascii_whitespace lower 0).

Definition language_from_attributes (attributes : list ascii) : ScriptLanguage :=
  match of_bytes <$> attribute_value attributes (to_bytes "lang") with
  | Some "ts" | Some "typescript" => Ts
  | Some "tsx" => Tsx
  | Some "jsx" => Jsx
  | _ => Js
  end.

(** ** Script blocks *)

Record ScriptBlock := { attributes : list ascii; block_source : list ascii; content_start : nat }.

Definition is_tag_boundary (b : option ascii) : bool :=
  match b with
  | None => true
  | Some b => bool_decide (b = ">"%char) || is_ascii_whitespace b || bool_decide (b = "/"%char)
  end.

(** [open_tag_end]: a quote opens a value only right after an equals sign. *)
Fixpoint open_tag_from (fuel : nat) (lower_source : list ascii) (index : nat) (after_equals : bool) : option nat :=
  match fuel with
  | 0 => None
  | S fuel =>
      match lower_source !! index with
      | None => None
      | Some b =>
          if decide (b = ">"%char) then Some index
          else if one_of quotes b && after_equals then
            relative ← position (λ c, bool_decide (c = b)) (drop (S index) lower_source);
            open_tag_from fuel lower_source (index + (1 + relative) + 1) false
          else if decide (b = "="%char) then open_tag_from fuel lower_source (S index) true
          else if is_ascii_whitespace b then open_tag_from fuel lower_source (S index) after_equals
          else open_tag_from fuel lower_source (S index) false
      end
  end.
Definition open_tag_end (lower_source : list ascii) (from : nat) : option nat :=
  open_tag_from (S (length lower_source)) lower_source from false.

Definition close_tag : list ascii := to_bytes "</script".
Fixpoint close_from (fuel : nat) (lower_source : list ascii) (scan : nat) : option (nat * nat) :=
  match fuel with
  | 0 => None
  | S fuel =>
      relative ← find_sub close_tag (drop scan lower_source);
      let content_end := scan + relative in
      let after_close_name := content_end + length close_tag in
      if is_tag_boundary (lower_source !! after_close_name) then
        gt ← position (λ b, bool_decide (b = ">"%char)) (drop after_close_name lower_source);
        Some (content_end, after_close_name + gt + 1)
      else close_from fuel lower_source after_close_name
  end.
Definition find_script_close (lower_source : list ascii) (from : nat) : option (nat * nat) :=
  close_from (S (length lower_source)) lower_source from.

Definition open_name : list ascii := to_bytes "<script".
Definition comment_open : list ascii := to_bytes "<!--".
Definition comment_close : list ascii := to_bytes "-->".

(** [script_blocks], its loop from a search offset; every turn moves on. *)
Fixpoint blocks_from (fuel : nat) (source lower_source : list ascii) (search_offset : nat) : list ScriptBlock :=
  match fuel with
  | 0 => []
  | S fuel =>
      match find_sub open_name (drop search_offset lower_source) with
      | None => []
      | Some relative_start =>
          let tag_start := search_offset + relative_start in
          match find_sub comment_open (text_between lower_source search_offset tag_start) with
          | Some comment_start =>
              let after_open := search_offset + comment_start + length comment_open in
              match find_sub comment_close (drop after_open lower_source) with
              | None => []
              | Some comment_end =>
                  blocks_from fuel source lower_source (after_open + comment_end + length comment_close)
              end
          | None =>
              let after_name := tag_start + length open_name in
              if is_tag_boundary (lower_source !! after_name) then
                match open_tag_end lower_source after_name with
                | None => []
                | Some tag_end =>
                    let content_start := S tag_end in
                    match find_script_close lower_source content_start with
                    | None => []
                    | Some (content_end, close_end) =>
                        {| attributes := text_between source after_name tag_end;
                           block_source := text_between source content_start content_end;
                           content_start := content_start |}
                        :: blocks_from fuel source lower_source close_end
                    end
                end
              else blocks_from fuel source lower_source after_name
          end
      end
  end.
Definition script_blocks (source : list ascii) : list ScriptBlock :=
  blocks_from (S (length source)) source (lower_bytes source) 0.

(** ** Regions *)

Definition block_filename (filename : string) (language : ScriptLanguage) (index : nat) : string :=
  filename +:+ "." +:+ pretty index +:+ "." +:+ extension_of language.

Definition component_script_regions (filename : string) (source : list ascii) : list ScriptRegion :=
  let blocks := script_blocks source in
  let template_sees_imports :=
    negb (ends_with ".vue" (lowercase filename)) ||
    existsb (λ b, bool_decide (is_Some (attribute_value (attributes b) (to_bytes "setup")))) blocks in
  imap (λ index b,
    {| rg_filename := block_filename filename (language_from_attributes (attributes b)) index;
       rg_source := block_source b; rg_offset := content_start b; rg_runtime := Component;
       shares_bindings_with_markup := template_sees_imports |}) blocks.

Definition line_ending_after (source : list ascii) (offset : nat) : option nat :=
  b ← source !! offset;
  if decide (b = CR) then
    if decide (source !! S offset = Some LF) then Some (offset + 2) else Some (offset + 1)
  else if decide (b = LF) then Some (offset + 1) else None.
Definition next_line_end (source : list ascii) (offset : nat) : nat := until source offset (one_of [CR; LF]).
Definition previous_line_end (source : list ascii) (offset : nat) : nat :=
  match offset with
  | S before =>
      if decide (source !! before = Some LF) then
        match before with
        | S before' => if decide (source !! before' = Some CR) then before' else before
        | 0 => before
        end
      else if decide (source !! before = Some CR) then before else offset
  | 0 => offset
  end.

Definition fence : list ascii := to_bytes "---".
Fixpoint frontmatter_from (fuel : nat) (source : list ascii) (content_start line_start : nat) : option (nat * nat) :=
  match fuel with
  | 0 => None
  | S fuel =>
      if decide (length source ≤ line_start) then None
      else
        let line_end := next_line_end source line_start in
        if decide (ProjectRegistry.trim_end CR (text_between source line_start line_end) = fence) then
          Some (content_start, previous_line_end source line_start `max` content_start)
        else
          line_start ← line_ending_after source line_end;
          frontmatter_from fuel source content_start line_start
  end.
(** [astro_frontmatter]: where its text starts and ends. *)
Definition astro_frontmatter (source : list ascii) : option (nat * nat) :=
  if starts_with fence source then
    content_start ← line_ending_after source 3;
    frontmatter_from (S (length source)) source content_start content_start
  else None.

Definition is_processed_astro_script (attributes : list ascii) : bool :=
  let normalized := trim_bytes attributes in
  if decide (normalized = []) then true
  else
    let lower := lower_bytes normalized in
    if starts_with (to_bytes "src") lower then
      let current := skip_ascii_whitespace lower 3 in
      if decide (lower !! current = Some "="%char) then
        match read_attribute_value_with_end lower (skip_ascii_whitespace lower (S current)) with
        | Some (_, end_) => bool_decide (trim_bytes (drop end_ lower) = [])
        | None => false
        end
      else false
    else false.

Definition astro_regions (filename : string) (source : list ascii) : list ScriptRegion :=
  let front :=
    match astro_frontmatter source with
    | Some (source_start, source_end) =>
        [{| rg_filename := block_filename filename Ts 0; rg_source := text_between source source_start source_end;
            rg_offset := source_start; rg_runtime := Server; shares_bindings_with_markup := true |}]
    | None => []
    end in
  foldl (λ regions b,
    if is_processed_astro_script (attributes b) then
      regions ++ [{| rg_filename := block_filename filename Ts (length regions); rg_source := block_source b;
                     rg_offset := content_start b; rg_runtime := Client; shares_bindings_with_markup := false |}]
    else regions) front (script_blocks source).

Definition script_regions_for_document (filename : string) (source : list ascii) : list ScriptRegion :=
  let lower_filename := lowercase filename in
  if ends_with ".svelte" lower_filename || ends_with ".vue" lower_filename
  then component_script_regions filename source
  else if ends_with ".astro" lower_filename then astro_regions filename source
  else [{| rg_filename := filename; rg_source := source; rg_offset := 0; rg_runtime := Component;
           shares_bindings_with_markup := false |}].

(** ** The cursor *)

(** [byte_offset_for_utf16]: the first character the units before it reach the
    cursor. *)
Fixpoint byte_offset_from (byte_index utf16_seen utf16_offset : nat) (source : list ascii) : nat :=
  match source with
  | [] => byte_index
  | b :: rest =>
      if is_continuation b then byte_offset_from (S byte_index) utf16_seen utf16_offset rest
      else if decide (utf16_offset ≤ utf16_seen) then byte_index
      else byte_offset_from (S byte_index) (utf16_seen + units_of b) utf16_offset rest
  end.
Definition byte_offset_for_utf16 (source : list ascii) (utf16_offset : nat) : nat :=
  byte_offset_from 0 0 utf16_offset source.

Definition runtime_at_offset (filename : string) (source : list ascii) (utf16_cursor_offset : nat) : ImportRuntime :=
  let offset := byte_offset_for_utf16 source utf16_cursor_offset in
  match list_find (λ r, rg_offset r ≤ offset ≤ rg_offset r + length (rg_source r))
          (script_regions_for_document filename source) with
  | Some (_, r) => rg_runtime r
  | None => Component
  end.

(** ** Markup *)

Inductive TemplateSyntax := Vue | Braces.
#[export] Instance TemplateSyntax_eq_dec : EqDecision TemplateSyntax.
Proof. solve_decision. Defined.

(** Where the braces opened at the head close, [None] if they do not; the
    depth counts those still open. *)
Fixpoint braces_end (depth : nat) (bytes : list ascii) : option nat :=
  match bytes with
  | [] => None
  | b :: rest =>
      if decide (b = "{"%char) then S <$> braces_end (S depth) rest
      else if decide (b = "}"%char) then
        if decide (depth - 1 = 0) then Some 1 else S <$> braces_end (depth - 1) rest
      else S <$> braces_end depth rest
  end.
Definition expression_end (bytes : list ascii) (index : nat) (syntax : TemplateSyntax) : option nat :=
  match syntax with
  | Vue => if starts_with (to_bytes "{{") (drop index bytes)
           then Some match find_bytes bytes (index + 2) (to_bytes "}}") with
                     | Some end_ => end_ + 2 | None => length bytes end
           else None
  | Braces => if decide (bytes !! index = Some "{"%char)
              then Some match braces_end 0 (drop index bytes) with
                        | Some len => index + len | None => length bytes end
              else None
  end.

Definition attribute_value_at (markup : list ascii) (index : nat) (syntax : TemplateSyntax) : list ascii * nat :=
  let bare :=
    let end_ := until markup index (λ b, is_ascii_whitespace b || bool_decide (b = ">"%char)) in
    (text_between markup index end_, end_) in
  match markup !! index with
  | Some b =>
      if one_of quotes b then
        let end_ := default (length markup) (find_bytes markup (S index) [b]) in
        (text_between markup (S index) end_, (end_ + 1) `min` length markup)
      else if decide (b = "{"%char ∧ syntax = Braces) then
        let end_ := default (length markup) (expression_end markup index syntax) in
        (text_between markup index end_, end_)
      else bare
  | None => bare
  end.

(** The attributes of an open tag, [index] after its name; the end is the index
    of the closing angle, or the end of the markup. *)
Fixpoint tag_attributes (fuel : nat) (markup : list ascii) (syntax : TemplateSyntax) (index : nat) :
    list (list ascii) * option nat :=
  match fuel with
  | 0 => ([], None)
  | S fuel =>
      let index := skip_ascii_whitespace markup index in
      match markup !! index with
      | None => ([], None)
      | Some b =>
          if decide (b = ">"%char) then ([], Some index)
          else if decide (b = "{"%char ∧ syntax = Braces) then
            let end_ := default (length markup) (expression_end markup index syntax) in
            let '(references, stop) := tag_attributes fuel markup syntax end_ in
            (text_between markup index end_ :: references, stop)
          else
            let attribute_end :=
              until markup index (λ b, is_ascii_whitespace b || one_of ["="; ">"]%char b) `max` S index in
            let attribute := text_between markup index attribute_end in
            let index := skip_ascii_whitespace markup attribute_end in
            if decide (markup !! index = Some "="%char) then
              let '(value, next) := attribute_value_at markup (skip_ascii_whitespace markup (S index)) syntax in
              let is_expression :=
                match syntax with
                | Vue => match attribute with b :: _ => one_of [":"; "@"; "#"]%char b | [] => false end ||
                         starts_with (to_bytes "v-") attribute
                | Braces => bool_decide ("{"%char ∈ value)
                end in
              let '(references, stop) := tag_attributes fuel markup syntax next in
              (if is_expression then (value :: references, stop) else (references, stop))
            else tag_attributes fuel markup syntax index
      end
  end.

Definition scan_tag (markup : list ascii) (name_start : nat) (syntax : TemplateSyntax) : list (list ascii) * nat :=
  let name_end := until markup name_start (λ b, is_ascii_whitespace b || one_of ["/"; ">"]%char b) in
  let name := text_between markup name_start name_end in
  let component := existsb (λ b, is_ascii_uppercase b || one_of ["-"; "."]%char b) name in
  let '(references, stop) := tag_attributes (S (length markup)) markup syntax name_end in
  let references := if component then name :: references else references in
  match stop with
  | None => (references, length markup)
  | Some index =>
      let after_tag := S index in
      let lower := lower_bytes name in
      if decide (lower = to_bytes "style" ∨ lower = to_bytes "script") then
        (references,
         match find_sub (to_bytes "</" ++ lower) (lower_bytes (drop after_tag markup)) with
         | Some relative => after_tag + relative
         | None => length markup
         end)
      else (references, after_tag)
  end.

Fixpoint scan_from (fuel : nat) (markup : list ascii) (syntax : TemplateSyntax) (index : nat) : list (list ascii) :=
  match fuel with
  | 0 => []
  | S fuel =>
      match drop index markup with
      | [] => []
      | b :: rest =>
          if starts_with (to_bytes "<!--") (b :: rest) then
            scan_from fuel markup syntax
              match find_bytes markup (index + 4) (to_bytes "-->") with Some end_ => end_ + 3 | None => length markup end
          else if starts_with (to_bytes "</") (b :: rest) then
            scan_from fuel markup syntax
              match find_bytes markup index (to_bytes ">") with Some end_ => end_ + 1 | None => length markup end
          else if bool_decide (b = "<"%char) && match rest with c :: _ => is_ascii_alphabetic c | [] => false end then
            let '(references, next) := scan_tag markup (S index) syntax in
            references ++ scan_from fuel markup syntax next
          else match expression_end markup index syntax with
               | Some end_ => text_between markup index end_ :: scan_from fuel markup syntax end_
               | None => scan_from fuel markup syntax (S index)
               end
      end
  end.
Definition scan_template (markup : list ascii) (syntax : TemplateSyntax) : list (list ascii) :=
  scan_from (S (length markup)) markup syntax 0.

Definition span_cmp : nat * nat → nat * nat → comparison := cmp_lex Nat.compare Nat.compare.
#[export] Instance span_cmp_order : CmpOrder span_cmp.
Proof. unfold span_cmp. apply _. Qed.
Definition template_references (filename : string) (source : list ascii) (regions : list ScriptRegion) :
    list (list ascii) :=
  if existsb shares_bindings_with_markup regions then
    let syntax := if ends_with ".vue" (lowercase filename) then Vue else Braces in
    let spans := sort span_cmp ((λ r, (rg_offset r, rg_offset r + length (rg_source r))) <$> regions) in
    let '(references, cursor) :=
      foldl (λ '(references, cursor) '(start, end_),
        (if decide (cursor < start) then references ++ scan_template (text_between source cursor start) syntax
         else references, cursor `max` end_)) ([], 0) spans in
    references ++ scan_template (drop cursor source) syntax
  else [].

(** ** Names in the markup *)

Definition kebab_case (name : list ascii) : option (list ascii) :=
  let hyphen (index : nat) (b : ascii) := bool_decide (0 < index) && is_ascii_uppercase b in
  let spelled := imap (λ index b, (if hyphen index b then ["-"%char] else []) ++ [ProjectRegistry.to_ascii_lowercase b]) name in
  if existsb id (imap hyphen name) then Some (concat spelled) else None.

(** [match_indices]: matches that do not overlap, from the left. *)
Fixpoint matches_from (fuel : nat) (word text : list ascii) (from : nat) : list nat :=
  match fuel with
  | 0 => []
  | S fuel =>
      match find_bytes text from word with
      | None => []
      | Some start => start :: matches_from fuel word text (start + length word)
      end
  end.
Definition match_indices (word text : list ascii) : list nat :=
  match word with
  | [] => filter (λ i, is_char_boundary text i = true) (seq 0 (S (length text)))
  | _ => matches_from (S (length text)) word text 0
  end.

(** The first character of a text that has one. *)
Fixpoint continuation_len (l : list ascii) : nat :=
  match l with b :: l => if is_continuation b then S (continuation_len l) else 0 | [] => 0 end.
Definition first_char (l : list ascii) : option (list ascii) :=
  match l with b :: rest => Some (b :: take (continuation_len rest) rest) | [] => None end.
Definition last_char (l : list ascii) : option (list ascii) :=
  match l with [] => None | _ => Some (drop (length l - S (continuation_len (reverse l))) l) end.

(** [char::is_alphanumeric] past ASCII is Unicode's table. *)
Section names.
Context (wide_alphanumeric : list ascii → bool).

Definition is_identifier_char (c : list ascii) : bool :=
  match c with
  | [b] => is_ascii_alphanumeric b || one_of ["_"; "$"]%char b
  | _ => wide_alphanumeric c
  end.
Definition contains_identifier (text word : list ascii) : bool :=
  existsb (λ start,
    negb (from_option is_identifier_char false (last_char (take start text))) &&
    negb (from_option is_identifier_char false (first_char (drop (start + length word) text))))
    (match_indices word text).

Definition markup_references (references : list (list ascii)) (name : list ascii) : bool :=
  existsb (λ text, contains_identifier text name ||
                   from_option (contains_identifier text) false (kebab_case name)) references.
End names.

Example regions_of_vue :
  (λ r, (of_bytes (rg_source r), rg_offset r, rg_filename r, shares_bindings_with_markup r)) <$>
    script_regions_for_document "A.vue" (to_bytes "<!-- <script> --><script setup lang='ts' x='a>b'>a</scriptx></script ><p :k='v'>{{ NCard }}<n-card/></p>")
  = [("a</scriptx>", 49, "A.vue.0.ts", true)].
Proof. by vm_compute. Qed.
Example references_of_vue :
  of_bytes <$> scan_template (to_bytes "<p :k='v' m='w'>{{ NCard }}<n-card/></p>") Vue = ["v"; "{{ NCard }}"; "n-card"].
Proof. by vm_compute. Qed.

(** ** Every region is where it says *)

(** The fuel of each search: what is left of the text, and every turn takes
    some of it. *)
Lemma position_lt f l i : position f l = Some i → i < length l.
Proof.
  revert i. induction l as [|b l IH]; cbn; [done|]. intros i. destruct (f b); [intros [= <-]; lia|].
  destruct (position f l) as [j|]; [|done]. intros [= <-]. pose proof (IH j eq_refl). lia.
Qed.

Lemma open_tag_from_bounds fuel s index e i :
  open_tag_from fuel s index e = Some i → index ≤ i < length s.
Proof.
  revert index e. induction fuel as [|fuel IH]; intros index e; cbn [open_tag_from]; [done|].
  destruct (s !! index) as [b|] eqn:Hb; [|done]. apply lookup_lt_Some in Hb.
  case_decide; [intros [= <-]; lia|]. case_match; cbn [mbind option_bind].
  - destruct (position _ _) as [r|]; cbn [mbind option_bind]; [|done]. intros Hi%IH. lia.
  - repeat case_match; intros Hi%IH; lia.
Qed.

Lemma close_from_bounds fuel s scan a b :
  close_from fuel s scan = Some (a, b) → scan ≤ a ≤ b ∧ b ≤ length s.
Proof.
  revert scan. induction fuel as [|fuel IH]; intros scan; cbn [close_from]; [done|].
  destruct (find_sub close_tag (drop scan s)) as [r|] eqn:Hr; cbn [mbind option_bind]; [|done].
  apply find_sub_Some in Hr as [Hr _]. rewrite length_drop in Hr. case_match.
  - destruct (position _ _) as [g|] eqn:Hg; cbn [mbind option_bind]; [|done].
    apply position_lt in Hg. rewrite length_drop in Hg. intros [= <- <-]. change (length close_tag) with 8 in *. lia.
  - intros Hi%IH. lia.
Qed.

Definition block_end (b : ScriptBlock) : nat := content_start b + length (block_source b).
Definition block_fits (source : list ascii) (b : ScriptBlock) : Prop :=
  block_source b = take (length (block_source b)) (drop (content_start b) source) ∧ block_end b ≤ length source.

Lemma text_between_fits (source : list ascii) a b :
  a ≤ b → b ≤ length source →
  length (text_between source a b) = b - a ∧
  text_between source a b = take (length (text_between source a b)) (drop a source).
Proof.
  intros Hab Hb. assert (length (text_between source a b) = b - a) as Hl.
  { unfold text_between. rewrite length_take, length_drop. lia. }
  split; [done|]. by rewrite Hl.
Qed.

Lemma blocks_from_fit fuel source search :
  Forall (λ b, search ≤ content_start b ∧ block_fits source b) (blocks_from fuel source (lower_bytes source) search) ∧
  StronglySorted (λ a b, block_end a ≤ content_start b) (blocks_from fuel source (lower_bytes source) search).
Proof.
  set (lower := lower_bytes source). assert (length lower = length source) as Hlen by apply length_fmap.
  revert search. induction fuel as [|fuel IH]; intros search; cbn [blocks_from]; [by split; constructor|].
  assert (∀ next, search ≤ next →
    Forall (λ b, search ≤ content_start b ∧ block_fits source b) (blocks_from fuel source lower next) ∧
    StronglySorted (λ a b, block_end a ≤ content_start b) (blocks_from fuel source lower next)) as Hnext.
  { intros next Hle. destruct (IH next) as [Hf Hs]. split; [|done]. eapply Forall_impl; [exact Hf|].
    cbn. intros b [? ?]. split; [lia|done]. }
  repeat (case_match; try (apply Hnext; lia)); try by split; constructor.
  match goal with H : open_tag_end _ _ = Some ?t, H' : find_script_close _ _ = Some (?a, ?b) |- _ =>
    rename t into tag_end, a into content_end, b into close_end; apply open_tag_from_bounds in H;
    apply close_from_bounds in H' end.
  destruct (IH close_end) as [Hrest Hsorted].
  destruct (text_between_fits source (S tag_end) content_end) as [Hl Hs]; [lia..|].
  split; constructor; try done.
  - cbn. split; [lia|]. split; [exact Hs|]. unfold block_end. cbn [content_start block_source]. lia.
  - eapply Forall_impl; [exact Hrest|]. cbn. intros b [? ?]. split; [lia|done].
  - eapply Forall_impl; [exact Hrest|]. cbn. intros b [? ?]. unfold block_end. cbn [content_start block_source]. lia.
Qed.

(** The search for blocks ends because the text does, never for fuel. *)
Lemma blocks_from_enough fuel source search :
  length source - search < fuel → search ≤ length source →
  blocks_from fuel source (lower_bytes source) search =
  blocks_from (S fuel) source (lower_bytes source) search.
Proof.
  assert (length (lower_bytes source) = length source) as Hlen by apply length_fmap.
  revert search. induction fuel as [|fuel IH]; intros search Hf Hs; [lia|].
  remember (S fuel) as more eqn:Hmore. rewrite Hmore at 1. cbn [blocks_from].
  destruct (find_sub open_name _) as [start|] eqn:Hstart; [|done].
  apply find_sub_Some in Hstart as [Hstart _]. rewrite length_drop, Hlen in Hstart.
  change (length open_name) with 7 in *.
  destruct (find_sub comment_open _) as [c|].
  - destruct (find_sub comment_close _) as [e|] eqn:He; [|done].
    apply find_sub_Some in He as [He _]. rewrite length_drop, Hlen in He.
    change (length comment_open) with 4 in *. change (length comment_close) with 3 in *.
    subst more. apply IH; lia.
  - case_match; [|subst more; apply IH; lia].
    destruct (open_tag_end _ _) as [t|] eqn:Ht; [|done]. apply open_tag_from_bounds in Ht.
    destruct (find_script_close _ _) as [[a b]|] eqn:Hc; [|done]. apply close_from_bounds in Hc.
    f_equal. subst more. apply IH; lia.
Qed.

Lemma line_ending_after_bounds source offset n :
  line_ending_after source offset = Some n → offset < n ≤ length source.
Proof.
  unfold line_ending_after. destruct (source !! offset) as [b|] eqn:Hb; cbn [mbind option_bind]; [|done].
  apply lookup_lt_Some in Hb. repeat case_decide; intros [= <-]; [|lia..].
  match goal with H : _ !! S offset = _ |- _ => apply lookup_lt_Some in H end. lia.
Qed.
Lemma previous_line_end_le source offset : previous_line_end source offset ≤ offset.
Proof. unfold previous_line_end. repeat case_match; lia. Qed.

Lemma frontmatter_bounds fuel source start from a b :
  start ≤ length source → frontmatter_from fuel source start from = Some (a, b) → a ≤ b ∧ b ≤ length source.
Proof.
  intros Hs. revert from. induction fuel as [|fuel IH]; intros from; cbn [frontmatter_from]; [done|].
  case_decide; [done|]. case_decide.
  - intros [= <- <-]. pose proof (previous_line_end_le source from). lia.
  - destruct (line_ending_after _ _) as [n|]; cbn [mbind option_bind]; [|done]. apply IH.
Qed.

Definition region_fits (source : list ascii) (r : ScriptRegion) : Prop :=
  rg_source r = take (length (rg_source r)) (drop (rg_offset r) source) ∧
  rg_offset r + length (rg_source r) ≤ length source.

Lemma script_blocks_fit source : Forall (block_fits source) (script_blocks source).
Proof.
  destruct (blocks_from_fit (S (length source)) source 0) as [H _]. eapply Forall_impl; [exact H|]. by intros b [_ ?].
Qed.

(** Every region is a stretch of its document, at the offset the spans of
    its parse are moved by; the script blocks come in order and never overlap;
    and the search for them ends because the text does. *)
Theorem regions_are_stretches_of_the_document filename source :
  Forall (region_fits source) (script_regions_for_document filename source) ∧
  StronglySorted (λ a b, block_end a ≤ content_start b) (script_blocks source) ∧
  ∀ more, blocks_from (S (length source) + more) source (lower_bytes source) 0 = script_blocks source.
Proof.
  split_and!.
  - pose proof (script_blocks_fit source) as Hb. rewrite Forall_forall in Hb.
    unfold script_regions_for_document. case_match; [|case_match].
    + apply Forall_forall. intros r (i & b & -> & Hi)%elem_of_lookup_imap. apply list_elem_of_lookup_2 in Hi.
      by apply Hb.
    + unfold astro_regions. set (front := match _ with Some _ => _ | None => _ end).
      assert (Forall (region_fits source) front) as Hfront.
      { unfold front, astro_frontmatter. case_match; [|constructor]. case_match; [|done].
        destruct (line_ending_after source 3) as [c|] eqn:Hc; cbn [mbind option_bind] in *; [|done].
        apply line_ending_after_bounds in Hc. case_match. subst.
        match goal with H : frontmatter_from _ _ _ _ = _ |- _ => apply frontmatter_bounds in H; [|lia] end.
        destruct (text_between_fits source n n0) as [Hl Hs]; [lia..|].
        constructor; [|constructor]. split; [exact Hs|]. cbn [rg_offset rg_source]. lia. }
      revert Hfront. generalize front. induction (script_blocks source) as [|b bs IH]; intros regions Hr; cbn; [done|].
      apply IH; [intros b' Hb'; apply Hb; by right|]. case_match; [|done].
      apply Forall_app. split; [done|]. constructor; [apply (Hb b); left|constructor].
    + constructor; [|constructor]. split; cbn [rg_offset rg_source]; [by rewrite drop_0, firstn_all|lia].
  - apply blocks_from_fit.
  - intros more. induction more as [|more IH]; [by rewrite Nat.add_0_r|].
    rewrite <- IH, Nat.add_succ_r. symmetry. apply (blocks_from_enough (S (length source) + more)); lia.
Qed.

(** ** The editor's offset *)

Lemma byte_offset_from_units source k seen o :
  o ≤ length source → (∀ b, source !! o = Some b → is_continuation b = false) →
  byte_offset_from k seen (seen + utf16_len (take o source)) source = k + o.
Proof.
  revert k seen o. induction source as [|b rest IH]; intros k seen [|o] Ho Hb; cbn [length] in Ho; try lia.
  - cbn. lia.
  - cbn [byte_offset_from take]. rewrite (Hb b eq_refl), decide_True by (cbn; lia). lia.
  - cbn [byte_offset_from take]. rewrite utf16_len_cons. destruct (is_continuation b) eqn:Hc.
    + assert (units_of b = 0) as -> by (unfold units_of; by rewrite Hc).
      rewrite Nat.add_0_l, (IH (S k)); [lia|lia|exact Hb].
    + assert (1 ≤ units_of b) by (unfold units_of; rewrite Hc; case_match; lia).
      rewrite decide_False by lia. rewrite Nat.add_assoc, (IH (S k)); [lia|lia|exact Hb].
Qed.

(** The editor counts UTF-16 units and the spans count bytes: reading a
    character boundary's units back gives the boundary, and a cursor inside
    a script resolves under the runtime of the first region that holds it. *)
Theorem cursor_offset_round_trip filename source o :
  is_utf8 source = true → is_char_boundary source o = true →
  byte_offset_for_utf16 source (utf16_len (take o source)) = o ∧
  ∀ before r after,
    script_regions_for_document filename source = before ++ r :: after →
    Forall (λ b, ¬ rg_offset b ≤ o ≤ rg_offset b + length (rg_source b)) before →
    rg_offset r ≤ o ≤ rg_offset r + length (rg_source r) →
    runtime_at_offset filename source (utf16_len (take o source)) = rg_runtime r.
Proof.
  intros Hu Ho. assert (byte_offset_for_utf16 source (utf16_len (take o source)) = o) as Hround.
  { unfold is_char_boundary in Ho. apply orb_true_iff in Ho as [->%bool_decide_eq_true|Ho].
    - apply (byte_offset_from_units source 0 0 0); [lia|]. intros b Hb. apply (utf8_head source); [done|].
      by destruct source.
    - destruct (source !! o) as [b|] eqn:Hb.
      + apply (byte_offset_from_units source 0 0 o); [apply lookup_lt_Some in Hb; lia|].
        intros b' Hb'. simplify_eq. by apply negb_true_iff.
      + apply bool_decide_eq_true in Ho as ->. apply (byte_offset_from_units source 0 0); [done|].
        intros b Hb'. congruence. }
  split; [done|]. intros before r after Hrs Hb Hr. unfold runtime_at_offset. rewrite Hround, Hrs.
  rewrite list_find_app_r by (rewrite list_find_None; exact Hb). cbn [list_find]. by rewrite decide_True.
Qed.

Definition page : list ascii :=
  to_bytes "---" ++ [LF] ++ to_bytes "let a" ++ [byte 240; byte 157; byte 132; byte 158; LF] ++ to_bytes "---" ++ [LF] ++
  to_bytes "<script>b</script>".
Lemma cursor_offset_round_trip_witness :
  is_utf8 page = true ∧ is_char_boundary page 26 = true ∧
  byte_offset_for_utf16 page (utf16_len (take 26 page)) = 26 ∧ utf16_len (take 26 page) = 24 ∧
  runtime_at_offset "a.astro" page (utf16_len (take 26 page)) = Client.
Proof.
  assert (is_utf8 page = true) as Hu by by vm_compute.
  assert (is_char_boundary page 26 = true) as Hb by by vm_compute.
  destruct (cursor_offset_round_trip "a.astro" page 26 Hu Hb) as [H1 H2].
  split_and!; [exact Hu|exact Hb|exact H1|by vm_compute|].
  destruct (script_regions_for_document "a.astro" page) as [|a [|b [|]]] eqn:Hrs; [done..| |by vm_compute in Hrs].
  assert ((λ r, (rg_offset r, length (rg_source r), rg_runtime r)) <$> [a; b] = [(4, 9, Server); (26, 1, Client)]) as He.
  { rewrite <- Hrs. by vm_compute. }
  cbn in He. injection He as Ha1 Ha2 _ Hb1 Hb2 Hr. rewrite <- Hr.
  apply (H2 [a] b []); [done|repeat constructor; lia|lia].
Defined.
