(* ===== verification/DetectedImports.v ===== *)
(** * Detected imports (document/imports.rs)

    The package imports of a document: the parser's module record grouped by
    statement, erased type imports left out, and the editor's positions. The
    parser (oxc) is a parameter: what it reports of a region. *)
From stdpp Require Import base gmap list strings.
From S2P Require Import Prelude Results Text Positions Specifiers ScriptRegions.

Set Default Proof Using "Type*".

(** ** What the parser reports *)

Record Span := { sp_start : nat; sp_end : nat }.
#[export] Instance Span_eq_dec : EqDecision Span.
Proof. solve_decision. Defined.

Inductive ImportImportName := ImportDefault | NamespaceObject | ImportName (name : string).
Inductive ExportImportName := ExportName (name : string) | All | AllButDefault | Null.

Record ImportEntry := {
  ie_request : string; ie_request_span : Span; ie_statement : Span;
  ie_name : ImportImportName; ie_local : Span; ie_is_type : bool;
}.
Record ExportEntry := {
  ee_request : option (string * Span); ee_statement : Span; ee_name : ExportImportName; ee_is_type : bool;
}.
Record RequestedModule := { rm_statement : Span; rm_span : Span; rm_is_import : bool; rm_is_type : bool }.
Record DynamicImport := { dy_span : Span; dy_request : Span }.

(** [requested_modules] is a hash map: its walk is the parser's. *)
Record ModuleRecord := {
  import_entries : list ImportEntry;
  requested_modules : list (string * list RequestedModule);
  indirect_export_entries : list ExportEntry;
  star_export_entries : list ExportEntry;
  dynamic_imports : list DynamicImport;
}.

Record Reference := { is_type : bool; is_value : bool; is_value_as_type : bool }.
Record Symbol := { symbol_name : list ascii; symbol_span : Span; resolved_references : list Reference }.
Record Parsed := {
  fatal_error : bool;
  errors : list string;
  is_typescript : bool;
  module_record : ModuleRecord;
  symbols : list Symbol;
}.

(** ** Erased bindings *)

Definition type_only_reference (r : Reference) : bool := is_type r && negb (is_value r) || is_value_as_type r.
Definition type_only_binding_spans (symbols : list Symbol) (markup_uses : list ascii → bool) : list Span :=
  symbol_span <$> filter (λ s,
    negb (bool_decide (resolved_references s = [])) && forallb type_only_reference (resolved_references s) &&
    negb (markup_uses (symbol_name s)) = true) symbols.

(** ** Groups, one per statement *)

Notation statement_key := (string * (nat * nat))%type.
Record ImportGroup := {
  g_specifier : string; g_statement : Span; g_request : Span;
  has_default : bool; has_namespace : bool; named : list string;
}.
Definition key_of (specifier : string) (statement : Span) : statement_key :=
  (specifier, (sp_start statement, sp_end statement)).
Definition group_key (g : ImportGroup) : statement_key := key_of (g_specifier g) (g_statement g).
Definition new_group (specifier : string) (statement request : Span) : ImportGroup :=
  {| g_specifier := specifier; g_statement := statement; g_request := request;
     has_default := false; has_namespace := false; named := [] |}.
Definition with_default (g : ImportGroup) : ImportGroup :=
  {| g_specifier := g_specifier g; g_statement := g_statement g; g_request := g_request g;
     has_default := true; has_namespace := has_namespace g; named := named g |}.
Definition with_namespace (g : ImportGroup) : ImportGroup :=
  {| g_specifier := g_specifier g; g_statement := g_statement g; g_request := g_request g;
     has_default := has_default g; has_namespace := true; named := named g |}.
Definition with_name (name : string) (g : ImportGroup) : ImportGroup :=
  {| g_specifier := g_specifier g; g_statement := g_statement g; g_request := g_request g;
     has_default := has_default g; has_namespace := has_namespace g; named := named g ++ [name] |}.

Definition apply_import_name (n : ImportImportName) : ImportGroup → ImportGroup :=
  match n with ImportDefault => with_default | NamespaceObject => with_namespace | ImportName name => with_name name end.
Definition apply_export_name (n : ExportImportName) : ImportGroup → ImportGroup :=
  match n with ExportName name => with_name name | All | AllButDefault => with_namespace | Null => id end.

Definition Groups : Type := list ImportGroup * gmap statement_key nat.
(** The group of a statement, pushed the first time it is seen, and the entry
    applied to it. *)
Definition upsert (specifier : string) (statement request : Span) (f : ImportGroup → ImportGroup)
    (st : Groups) : Groups :=
  let key := key_of specifier statement in
  match st.2 !! key with
  | Some index => (alter f index st.1, st.2)
  | None => (st.1 ++ [f (new_group specifier statement request)], <[key := length st.1]> st.2)
  end.

Definition is_erased (type_only : list Span) (e : ImportEntry) : bool :=
  ie_is_type e || bool_decide (ie_local e ∈ type_only).

Definition import_step (type_only : list Span) (st : Groups * gset statement_key) (e : ImportEntry) :
    Groups * gset statement_key :=
  if is_runtime_package_specifier (ie_request e) then
    if is_erased type_only e then (st.1, {[ key_of (ie_request e) (ie_statement e) ]} ∪ st.2)
    else (upsert (ie_request e) (ie_statement e) (ie_request_span e) (apply_import_name (ie_name e)) st.1, st.2)
  else st.

Definition request_step (elided : gset statement_key) (specifier : string) (st : Groups) (r : RequestedModule) : Groups :=
  if rm_is_import r && negb (rm_is_type r) then
    let key := key_of specifier (rm_statement r) in
    if decide (is_Some (st.2 !! key) ∨ key ∈ elided) then st
    else (st.1 ++ [with_namespace (new_group specifier (rm_statement r) (rm_span r))], <[key := length st.1]> st.2)
  else st.
Definition requests_step (elided : gset statement_key) (st : Groups) (m : string * list RequestedModule) : Groups :=
  if is_runtime_package_specifier m.1 then foldl (request_step elided m.1) st m.2 else st.

Definition static_groups (md : ModuleRecord) (type_only : list Span) : list ImportGroup :=
  let '(st, elided) := foldl (import_step type_only) (([], ∅), ∅) (import_entries md) in
  (foldl (requests_step elided) st (requested_modules md)).1.

Definition export_step (st : Groups) (e : ExportEntry) : Groups :=
  match ee_request e with
  | None => st
  | Some (specifier, request) =>
      if is_runtime_package_specifier specifier
      then upsert specifier (ee_statement e) request (apply_export_name (ee_name e)) st else st
  end.
Definition value_exports (es : list ExportEntry) : list ExportEntry := filter (λ e, ee_is_type e = false) es.
Definition export_groups (md : ModuleRecord) : list ImportGroup :=
  (foldl export_step (foldl export_step ([], ∅) (value_exports (indirect_export_entries md)))
    (value_exports (star_export_entries md))).1.

Definition by_position (groups : list ImportGroup) : list ImportGroup :=
  stable_sort (cmp_on (λ g, (sp_start (g_statement g), sp_start (g_request g))) span_cmp) groups.

(** ** Detected imports *)

Inductive ImportSyntax := Static | Reexport | StarReexport | DynamicSyntax.

Record DetectedImportParts := {
  p_specifier : string; p_kind : ImportKind; p_syntax : ImportSyntax; p_named : list string;
  p_statement : Span; p_request : Span;
}.

(** The imports [detected_imports_from_group] makes of a group. *)
Definition group_parts (syntax : ImportSyntax) (group : ImportGroup) : list DetectedImportParts :=
  let names := dedup (sort String.compare (named group)) in
  let part kind syntax named :=
    {| p_specifier := g_specifier group; p_kind := kind; p_syntax := syntax; p_named := named;
       p_statement := g_statement group; p_request := g_request group |} in
  (if has_default group then [part Default syntax []] else []) ++
  (if has_namespace group then [part Namespace match syntax with Reexport => StarReexport | s => s end []] else []) ++
  (match names with [] => [] | _ => [part Named syntax names] end).

Definition static_parts (md : ModuleRecord) (type_only : list Span) : list DetectedImportParts :=
  by_position (static_groups md type_only) ≫= group_parts Static.
Definition export_parts (md : ModuleRecord) : list DetectedImportParts :=
  by_position (export_groups md) ≫= group_parts Reexport.

(** A quoted request, or a template without a substitution; the tests are on
    its first and last characters. *)
Definition literal_dynamic_import_specifier (value : list ascii) : option (list ascii) :=
  first ← head value;
  last ← last value;
  let inner := text_between value 1 (length value - 1) in
  if one_of quotes first && bool_decide (first = last) then Some inner
  else if bool_decide (first = "`"%char) && bool_decide (last = "`"%char) && negb (contains (to_bytes "${") value)
  then Some inner else None.

Definition dynamic_parts (source : list ascii) (md : ModuleRecord) : list DetectedImportParts :=
  omap (λ item,
    specifier ← literal_dynamic_import_specifier
      (text_between source (sp_start (dy_request item)) (sp_end (dy_request item)));
    if is_runtime_package_specifier (of_bytes specifier) then
      Some {| p_specifier := of_bytes specifier; p_kind := Dynamic; p_syntax := DynamicSyntax; p_named := [];
              p_statement := dy_span item; p_request := dy_request item |}
    else None) (dynamic_imports md).

Record DetectedImport := {
  d_specifier : string; d_package_name : string; d_named : list string; d_import_kind : ImportKind;
  d_syntax : ImportSyntax; d_runtime : ImportRuntime; d_line : N; d_quote_end : SourcePosition;
  d_specifier_range : SourceRange; d_statement_range : SourceRange;
}.

(** [create_detected_import]; [None] is the panic of a span off a character
    boundary. *)
Definition create_detected_import (document_source : list ascii) (line_index : list nat) (region : ScriptRegion)
    (parts : DetectedImportParts) : option DetectedImport :=
  let statement_start := rg_offset region + sp_start (p_statement parts) in
  let statement_end := rg_offset region + sp_end (p_statement parts) in
  let specifier_start := rg_offset region + sp_start (p_request parts) in
  let quote_end := rg_offset region + sp_end (p_request parts) in
  start ← position_at line_index document_source statement_start;
  quote ← position_at line_index document_source quote_end;
  specifier_range ← range_from_offsets line_index document_source specifier_start quote_end;
  statement_range ← range_from_offsets line_index document_source statement_start statement_end;
  Some {| d_specifier := p_specifier parts; d_package_name := get_package_name (p_specifier parts);
          d_named := p_named parts; d_import_kind := p_kind parts; d_syntax := p_syntax parts;
          d_runtime := rg_runtime region; d_line := line start; d_quote_end := quote;
          d_specifier_range := specifier_range; d_statement_range := statement_range |}.

Definition statement_position (d : DetectedImport) : N * N :=
  (line (range_start (d_statement_range d)), character (range_start (d_statement_range d))).
Definition sort_by_position (ds : list DetectedImport) : list DetectedImport :=
  stable_sort (cmp_on statement_position (cmp_lex N.compare N.compare)) ds.

(** What a document's analysis comes to: a panic, an error, or its imports. *)
Inductive Analysis := Panic | Failed (message : string) | Imports (ds : list DetectedImport).

Section analysis.
(** The parser and its semantic pass, and Unicode's table. *)
Context (parse : ScriptRegion → Parsed) (wide_alphanumeric : list ascii → bool).

Definition type_only_spans (region : ScriptRegion) (markup : list (list ascii)) : list Span :=
  let parsed := parse region in
  if is_typescript parsed && existsb (λ e, negb (ie_is_type e)) (import_entries (module_record parsed)) then
    type_only_binding_spans (symbols parsed)
      (λ name, shares_bindings_with_markup region && markup_references wide_alphanumeric markup name)
  else [].

Definition imports_from_region (document_source : list ascii) (line_index : list nat) (region : ScriptRegion)
    (markup : list (list ascii)) : Analysis :=
  let parsed := parse region in
  if fatal_error parsed || negb (bool_decide (errors parsed = [])) then
    Failed ("failed to parse document region " +:+ rg_filename region +:+ "; errors: " +:+
            Paths.join_with "; " (errors parsed))
  else
    let create := mapM (create_detected_import document_source line_index region) in
    let md := module_record parsed in
    match create (static_parts md (type_only_spans region markup)), create (export_parts md),
          create (dynamic_parts (rg_source region) md) with
    | Some static, Some exports, Some dynamic => Imports (static ++ exports ++ sort_by_position dynamic)
    | _, _, _ => Panic
    end.

Fixpoint analyze_regions (document_source : list ascii) (line_index : list nat) (markup : list (list ascii))
    (regions : list ScriptRegion) (imports : list DetectedImport) : Analysis :=
  match regions with
  | [] => Imports (sort_by_position imports)
  | region :: regions =>
      match imports_from_region document_source line_index region markup with
      | Imports ds => analyze_regions document_source line_index markup regions (imports ++ ds)
      | failed => failed
      end
  end.
Definition analyze_imports (filename : string) (source : list ascii) : Analysis :=
  let regions := script_regions_for_document filename source in
  let markup := template_references filename source regions in
  analyze_regions source (LineIndex_new source) markup regions [].
End analysis.

(** ** Groups by statement *)

Definition of_key (k : statement_key) : list ImportGroup → list ImportGroup := filter (λ g, group_key g = k).

Definition indexed (st : Groups) : Prop :=
  NoDup (group_key <$> st.1) ∧ ∀ k i, st.2 !! k = Some i ↔ (group_key <$> st.1) !! i = Some k.

Lemma of_key_app k gs gs' : of_key k (gs ++ gs') = of_key k gs ++ of_key k gs'.
Proof. apply filter_app. Qed.
Lemma of_key_cons k g gs :
  of_key k (g :: gs) = if decide (group_key g = k) then g :: of_key k gs else of_key k gs.
Proof. unfold of_key. by rewrite filter_cons. Qed.

Lemma snoc_lookup `{EqDecision A} (l : list A) x k i :
  x ∉ l → (l ++ [x]) !! i = Some k ↔ if decide (k = x) then i = length l else l !! i = Some k.
Proof.
  intros Hx. rewrite lookup_app_Some, list_lookup_singleton_Some. case_decide as Hk.
  - subst k. split; [intros [H|[? [? _]]]; [by apply list_elem_of_lookup_2 in H|lia]|].
    intros ->. right. split_and!; [done|lia|done].
  - split; [intros [H|[_ [_ ->]]]; done|by left].
Qed.

Lemma of_key_none (gs : list ImportGroup) k : k ∉ (group_key <$> gs) → of_key k gs = [].
Proof.
  intros Hk. induction gs as [|g gs IH]; [done|]. cbn in Hk. apply not_elem_of_cons in Hk as [? ?].
  rewrite of_key_cons, decide_False by congruence. by apply IH.
Qed.
Lemma of_key_one (gs : list ImportGroup) i g :
  NoDup (group_key <$> gs) → gs !! i = Some g → of_key (group_key g) gs = [g].
Proof.
  intros Hnd Hi. rewrite <- (take_drop_middle gs i g Hi) in Hnd |- *.
  rewrite fmap_app, fmap_cons in Hnd. apply NoDup_app in Hnd as (_ & Hd & [Hg _]%NoDup_cons).
  rewrite of_key_app, of_key_cons, decide_True by done.
  rewrite (of_key_none (drop (S i) gs)) by done.
  rewrite of_key_none; [done|]. intros Hin. apply (Hd _ Hin). by left.
Qed.

Lemma alter_keys f (gs : list ImportGroup) i :
  (∀ g, group_key (f g) = group_key g) → group_key <$> alter f i gs = group_key <$> gs.
Proof.
  intros Hf. revert i. induction gs as [|g gs IH]; intros [|i]; [done..| |]; cbn; [by rewrite Hf|].
  f_equal. apply IH.
Qed.
Lemma of_key_alter_other f (gs : list ImportGroup) i g k :
  (∀ g, group_key (f g) = group_key g) → gs !! i = Some g → group_key g ≠ k →
  of_key k (alter f i gs) = of_key k gs.
Proof.
  intros Hf. revert i. induction gs as [|g' gs IH]; intros [|i] Hi Hk; [done..| |].
  - cbn in Hi. simplify_eq. change (alter f 0 (g :: gs)) with (f g :: gs).
    by rewrite !of_key_cons, !decide_False by (rewrite ?Hf; done).
  - change (alter f (S i) (g' :: gs)) with (g' :: alter f i gs).
    rewrite !of_key_cons. case_decide; [f_equal|]; by apply IH.
Qed.

(** A pushed group is found by its key from then on. *)
Lemma push_spec g st k :
  indexed st → st.2 !! group_key g = None →
  indexed (st.1 ++ [g], <[group_key g := length st.1]> st.2) ∧
  of_key k (st.1 ++ [g]) = (if decide (group_key g = k) then [g] else of_key k st.1).
Proof.
  intros [Hnd Hix] Hi. destruct st as [gs ix]. cbn [fst snd] in *.
  assert (group_key g ∉ group_key <$> gs) as Hnew.
  { intros [i Hin]%list_elem_of_lookup_1. apply Hix in Hin. congruence. }
  split; [split; cbn [fst snd]|].
  - rewrite fmap_app. cbn. apply NoDup_app. split_and!; [done| |apply NoDup_singleton].
    intros k' Hk' ->%list_elem_of_singleton. done.
  - intros k' i. rewrite fmap_app. cbn. rewrite snoc_lookup, length_fmap by done.
    case_decide as Hk; [subst k'; rewrite lookup_insert_eq|rewrite lookup_insert_ne by done; apply Hix].
    split; congruence.
  - rewrite of_key_app, of_key_cons. case_decide as Hk; [subst k; by rewrite of_key_none|].
    by rewrite app_nil_r.
Qed.

Lemma upsert_spec specifier statement request f st k :
  (∀ g, group_key (f g) = group_key g) → indexed st →
  indexed (upsert specifier statement request f st) ∧
  of_key k (upsert specifier statement request f st).1 =
    (if decide (key_of specifier statement = k) then
       match of_key k st.1 with
       | [] => [f (new_group specifier statement request)]
       | gs => f <$> gs
       end
     else of_key k st.1).
Proof.
  intros Hf Hst. unfold upsert.
  destruct (st.2 !! key_of specifier statement) as [i|] eqn:Hi.
  - destruct Hst as [Hnd Hix]. destruct st as [gs ix]. cbn [fst snd] in *.
    pose proof Hi as Hkey. apply Hix in Hkey. rewrite list_lookup_fmap in Hkey.
    destruct (gs !! i) as [g|] eqn:Hg; [|done]. apply (inj Some) in Hkey. split.
    + unfold indexed. cbn [fst snd]. by rewrite alter_keys.
    + case_decide as Hk; [subst k|by eapply of_key_alter_other; [done| |rewrite Hkey]].
      rewrite <- Hkey. rewrite (of_key_one gs i g) by done. cbn. rewrite <- (Hf g).
      apply (of_key_one _ i); [by rewrite alter_keys|]. by rewrite list_lookup_alter_eq, Hg.
  - set (g := f (new_group specifier statement request)).
    assert (group_key g = key_of specifier statement) as Hkey by (unfold g; by rewrite Hf).
    rewrite <- Hkey in Hi |- *. cbn [fst snd]. destruct (push_spec g st k Hst Hi) as [H1 H2].
    split; [done|]. rewrite H2. case_decide as Hk; [|done]. subst k.
    destruct Hst as [_ Hix]. rewrite of_key_none; [done|].
    intros [i Hin]%list_elem_of_lookup_1. apply Hix in Hin. congruence.
Qed.

(** *** The group a statement's entries make *)

Notation item := (string * Span * Span * (ImportGroup → ImportGroup))%type.
Definition items_group (items : list item) : list ImportGroup :=
  match items with
  | [] => []
  | (specifier, statement, request, _) :: _ =>
      [foldl (λ g x, x.2 g) (new_group specifier statement request) items]
  end.
Definition step_item (st : Groups) (x : item) : Groups :=
  let '(specifier, statement, request, f) := x in upsert specifier statement request f st.
Definition item_key (x : item) : statement_key := let '(specifier, statement, _, _) := x in key_of specifier statement.

Lemma items_group_snoc items specifier statement request f :
  items_group (items ++ [(specifier, statement, request, f)]) =
  match items_group items with [] => [f (new_group specifier statement request)] | gs => f <$> gs end.
Proof. destruct items as [|[[[s st] r] f'] items]; [done|]. cbn. by rewrite foldl_app. Qed.

Lemma fold_items items k :
  (∀ x g, x ∈ items → group_key (x.2 g) = group_key g) →
  indexed (foldl step_item ([], ∅) items) ∧
  of_key k (foldl step_item ([], ∅) items).1 = items_group (filter (λ x, item_key x = k) items).
Proof.
  induction items as [|[[[s st] r] f] items IH] using rev_ind; intros Hf.
  { split; [|done]. split; [constructor|]. intros k' i. cbn. by rewrite lookup_empty. }
  destruct IH as [IH1 IH2]; [intros x g Hx; apply Hf; set_solver|]. rewrite foldl_app. cbn [foldl step_item].
  destruct (upsert_spec s st r f (foldl step_item ([], ∅) items) k) as [H1 H2]; [|done|].
  { intros g. apply (Hf (s, st, r, f)). set_solver. }
  split; [done|]. rewrite H2, filter_app. case_decide as Hk.
  - rewrite filter_cons_True by done. rewrite filter_nil, items_group_snoc, IH2. done.
  - rewrite filter_cons_False by done. by rewrite filter_nil, app_nil_r.
Qed.

Lemma apply_import_key n g : group_key (apply_import_name n g) = group_key g.
Proof. by destruct n. Qed.
Lemma apply_export_key n g : group_key (apply_export_name n g) = group_key g.
Proof. by destruct n. Qed.

Lemma filter_items {E} (mk : E → item) k (es : list E) :
  filter (λ x, item_key x = k) (mk <$> es) = mk <$> filter (λ e, item_key (mk e) = k) es.
Proof.
  induction es as [|e es IH]; [done|]. rewrite fmap_cons, !filter_cons.
  case_decide; [rewrite fmap_cons; f_equal|]; exact IH.
Qed.

(** ** What a statement comes to *)

Definition import_item (e : ImportEntry) : item :=
  (ie_request e, ie_statement e, ie_request_span e, apply_import_name (ie_name e)).
Definition import_key (e : ImportEntry) : statement_key := key_of (ie_request e) (ie_statement e).
Definition runtime_entries (es : list ImportEntry) : list ImportEntry :=
  filter (λ e, is_runtime_package_specifier (ie_request e) = true) es.
(** The bindings of statement [k] that stay at run time. *)
Definition surviving (type_only : list Span) (k : statement_key) (es : list ImportEntry) : list ImportEntry :=
  filter (λ e, import_key e = k) (filter (λ e, is_erased type_only e = false) (runtime_entries es)).
Definition has_erased (type_only : list Span) (k : statement_key) (es : list ImportEntry) : Prop :=
  ∃ e, e ∈ runtime_entries es ∧ is_erased type_only e = true ∧ import_key e = k.

Lemma import_fold type_only es k :
  let st := foldl (import_step type_only) (([], ∅), ∅) es in
  indexed st.1 ∧ of_key k st.1.1 = items_group (import_item <$> surviving type_only k es) ∧
  (k ∈ st.2 ↔ has_erased type_only k es).
Proof.
  cbn zeta. set (kept := filter (λ e, is_erased type_only e = false) (runtime_entries es)).
  assert ((foldl (import_step type_only) (([], ∅), ∅) es).1 = foldl step_item ([], ∅) (import_item <$> kept) ∧
    (k ∈ (foldl (import_step type_only) (([], ∅), ∅) es).2 ↔ has_erased type_only k es)) as [-> He].
  { unfold kept, runtime_entries, has_erased. induction es as [|e es IH] using rev_ind.
    { split; [done|]. cbn. split; [set_solver|]. intros (e & He & _). by apply not_elem_of_nil in He. }
    destruct IH as [IH1 IH2]. rewrite foldl_app. cbn [foldl]. unfold import_step at 1 3.
    unfold runtime_entries. rewrite filter_app.
    destruct (is_runtime_package_specifier (ie_request e)) eqn:Hr.
    - rewrite filter_cons_True by done. rewrite filter_nil, filter_app.
      destruct (is_erased type_only e) eqn:Hx; cbn [fst snd].
      + rewrite filter_cons_False by congruence. rewrite filter_nil, app_nil_r. split; [done|].
        rewrite elem_of_union, elem_of_singleton, IH2. unfold runtime_entries. setoid_rewrite elem_of_app. split.
        * intros [->|(e' & ? & ? & ?)]; [exists e|exists e']; split_and!; auto. right. by left.
        * intros (e' & [Hin| ->%list_elem_of_singleton] & ? & ?); [right; by exists e'|by left].
      + rewrite filter_cons_True by done. rewrite filter_nil, fmap_app, foldl_app, <- IH1. split; [done|].
        rewrite IH2. unfold runtime_entries. setoid_rewrite elem_of_app. split.
        * intros (e' & ? & ? & ?). exists e'. auto.
        * intros (e' & [Hin| ->%list_elem_of_singleton] & ? & ?); [by exists e'|congruence].
    - rewrite filter_cons_False by congruence. rewrite filter_nil, app_nil_r. done. }
  destruct (fold_items (import_item <$> kept) k) as [H1 H2].
  { intros x g (e & -> & _)%list_elem_of_fmap. apply apply_import_key. }
  split_and!; [done| |done]. rewrite H2, filter_items. done.
Qed.

(** The requests for statement [k] the fallback considers, in the order of the
    walk. *)
Definition requests_for (k : statement_key) (ms : list (string * list RequestedModule)) :
    list (string * RequestedModule) :=
  ms ≫= λ m, if is_runtime_package_specifier m.1
              then pair m.1 <$> filter (λ r, rm_is_import r && negb (rm_is_type r) = true ∧
                                             key_of m.1 (rm_statement r) = k) m.2
              else [].
Definition namespace_group (r : string * RequestedModule) : ImportGroup :=
  with_namespace (new_group r.1 (rm_statement r.2) (rm_span r.2)).
(** Only a statement without a group, none of whose bindings was erased. *)
Definition fallback (elided : gset statement_key) (k : statement_key) (before : list ImportGroup)
    (requests : list (string * RequestedModule)) : list ImportGroup :=
  match before, requests with
  | [], r :: _ => if decide (k ∈ elided) then [] else [namespace_group r]
  | gs, _ => gs
  end.

Lemma fallback_app elided k gs rs rs' :
  fallback elided k gs (rs ++ rs') = fallback elided k (fallback elided k gs rs) rs'.
Proof.
  destruct gs as [|g gs]; [|done]. destruct rs as [|r rs]; [done|]. cbn. case_decide; [|done].
  destruct rs'; cbn; [done|]. by rewrite decide_True.
Qed.

Lemma has_index st k : indexed st → is_Some (st.2 !! k) ↔ of_key k st.1 ≠ [].
Proof.
  intros [Hnd Hix]. split.
  - intros [i Hi]. apply Hix in Hi. rewrite list_lookup_fmap in Hi.
    destruct (st.1 !! i) as [g|] eqn:Hg; [|done]. apply (inj Some) in Hi as <-. by rewrite (of_key_one _ i g).
  - intros Hne. destruct (of_key k st.1) as [|g gs] eqn:Hg; [done|].
    assert (g ∈ of_key k st.1) as Hin by (rewrite Hg; left).
    apply list_elem_of_filter in Hin as [<- [i Hi]%list_elem_of_lookup_1]. exists i. apply Hix.
    by rewrite list_lookup_fmap, Hi.
Qed.

Lemma request_step_spec elided specifier st r k :
  indexed st →
  indexed (request_step elided specifier st r) ∧
  of_key k (request_step elided specifier st r).1 =
    fallback elided k (of_key k st.1)
      (pair specifier <$> filter (λ r, rm_is_import r && negb (rm_is_type r) = true ∧
                                       key_of specifier (rm_statement r) = k) [r]).
Proof.
  intros Hst. unfold request_step.
  destruct (rm_is_import r && negb (rm_is_type r)) eqn:Hi.
  2:{ rewrite filter_cons_False by (intros [? _]; congruence). split; [done|]. by destruct (of_key k st.1). }
  pose proof (has_index st (key_of specifier (rm_statement r)) Hst) as Hhas. case_decide as Hs.
  - split; [done|]. destruct (decide (key_of specifier (rm_statement r) = k)) as [<-|Hk].
    + rewrite filter_cons_True by done. destruct (of_key _ st.1) as [|g gs]; [|done]. cbn.
      destruct Hs as [Hs|Hs]; [by apply Hhas in Hs|]. by rewrite decide_True.
    + rewrite filter_cons_False by (intros [_ ?]; done). by destruct (of_key k st.1).
  - apply Decidable.not_or in Hs as [Hs Hne].
    set (g := with_namespace (new_group specifier (rm_statement r) (rm_span r))).
    destruct (push_spec g st k Hst) as [H1 H2]; [by apply eq_None_not_Some|]. split; [done|].
    cbn [fst]. rewrite H2. case_decide as Hk.
    + change (key_of specifier (rm_statement r) = k) in Hk. subst k. rewrite filter_cons_True by done.
      destruct (of_key _ st.1) as [|g' gs]; [|by destruct Hs; apply Hhas]. cbn. by rewrite decide_False.
    + change (key_of specifier (rm_statement r) ≠ k) in Hk. rewrite filter_cons_False by (intros [_ ?]; done).
      by destruct (of_key k st.1).
Qed.

Lemma requests_fold elided ms st k :
  indexed st →
  indexed (foldl (requests_step elided) st ms) ∧
  of_key k (foldl (requests_step elided) st ms).1 = fallback elided k (of_key k st.1) (requests_for k ms).
Proof.
  revert st. induction ms as [|[specifier rs] ms IH]; intros st Hst; cbn [foldl].
  { split; [done|]. cbn. by destruct (of_key k st.1). }
  assert (indexed (requests_step elided st (specifier, rs)) ∧
    of_key k (requests_step elided st (specifier, rs)).1 =
    fallback elided k (of_key k st.1) (requests_for k [(specifier, rs)])) as [H1 H2].
  { unfold requests_step, requests_for. cbn [mbind list_bind fst snd].
    destruct (is_runtime_package_specifier specifier); [|split; [done|]; cbn; by destruct (of_key k st.1)].
    rewrite app_nil_r. clear IH. revert st Hst. induction rs as [|r rs IH]; intros st Hst; cbn [foldl].
    - split; [done|]. cbn. by destruct (of_key k st.1).
    - destruct (request_step_spec elided specifier st r k Hst) as [H1 H2]. destruct (IH _ H1) as [H3 H4].
      split; [done|]. rewrite H4, H2, <- fallback_app, <- fmap_app, <- filter_app. done. }
  destruct (IH _ H1) as [H3 H4]. split; [done|]. rewrite H4, H2, <- fallback_app.
  unfold requests_for. by rewrite <- bind_app.
Qed.

(** ** From groups to imports *)

Definition outline (p : DetectedImportParts) : ImportKind * ImportSyntax * list string :=
  (p_kind p, p_syntax p, p_named p).
Definition part_key (p : DetectedImportParts) : statement_key := key_of (p_specifier p) (p_statement p).
Definition part_position (p : DetectedImportParts) : nat * nat := (sp_start (p_statement p), sp_start (p_request p)).

(** The imports of a statement with these default, namespace and named
    bindings. *)
Definition outlines (syntax : ImportSyntax) (default namespace : bool) (names : list string) :
    list (ImportKind * ImportSyntax * list string) :=
  (if default then [(Default, syntax, [])] else []) ++
  (if namespace then [(Namespace, match syntax with Reexport => StarReexport | s => s end, [])] else []) ++
  (match dedup (sort String.compare names) with [] => [] | ns => [(Named, syntax, ns)] end).

Lemma group_parts_outline syntax g :
  outline <$> group_parts syntax g = outlines syntax (has_default g) (has_namespace g) (named g).
Proof.
  unfold group_parts, outlines. rewrite !fmap_app.
  destruct (has_default g), (has_namespace g), (dedup _); reflexivity.
Qed.

Lemma group_parts_of syntax g p :
  p ∈ group_parts syntax g →
  part_key p = group_key g ∧ part_position p = (sp_start (g_statement g), sp_start (g_request g)).
Proof.
  unfold group_parts. rewrite !elem_of_app.
  destruct (has_default g), (has_namespace g), (dedup _); rewrite ?list_elem_of_singleton, ?elem_of_nil;
    intros H; destruct_or?; subst; done.
Qed.

Lemma parts_of_key syntax gs k :
  filter (λ p, part_key p = k) (gs ≫= group_parts syntax) = of_key k gs ≫= group_parts syntax.
Proof.
  induction gs as [|g gs IH]; [done|]. rewrite bind_cons, filter_app, IH, of_key_cons.
  assert (filter (λ p, part_key p = k) (group_parts syntax g) =
          if decide (group_key g = k) then group_parts syntax g else []) as ->.
  { assert (Forall (λ p, part_key p = group_key g) (group_parts syntax g)) as Hall.
    { apply Forall_forall. intros p Hp. by apply (group_parts_of syntax). }
    induction Hall as [|p ps Hp Hps IHp]; [by case_decide|]. rewrite filter_cons, IHp, Hp. by case_decide. }
  case_decide; [by rewrite bind_cons|done].
Qed.

Lemma of_key_at_most_one (gs : list ImportGroup) k :
  NoDup (group_key <$> gs) → of_key k gs = [] ∨ ∃ g, of_key k gs = [g].
Proof.
  intros Hnd. destruct (of_key k gs) as [|g rest] eqn:Hg; [by left|right]. exists g.
  assert (g ∈ of_key k gs) as Hin by (rewrite Hg; left).
  apply list_elem_of_filter in Hin as [<- [i Hi]%list_elem_of_lookup_1]. by rewrite <- Hg, (of_key_one _ i g).
Qed.

Lemma of_key_by_position gs k : NoDup (group_key <$> gs) → of_key k (by_position gs) = of_key k gs.
Proof.
  intros Hnd. assert (of_key k (by_position gs) ≡ₚ of_key k gs) as Hp.
  { unfold of_key, by_position. by rewrite stable_sort_perm. }
  destruct (of_key_at_most_one gs k Hnd) as [H|[g H]]; rewrite H in Hp |- *.
  - by apply Permutation_nil_r in Hp.
  - by apply Permutation_singleton_r in Hp.
Qed.

Lemma parts_sorted syntax gs :
  StronglySorted (λ p q, cmp_le span_cmp (part_position p) (part_position q))
    (by_position gs ≫= group_parts syntax).
Proof.
  pose proof (stable_sort_sorted (λ g, (sp_start (g_statement g), sp_start (g_request g))) span_cmp gs) as Hs.
  unfold by_position. induction Hs as [|g rest Hs IH Hg]; [constructor|]. rewrite bind_cons.
  assert (Forall (λ p, part_position p = (sp_start (g_statement g), sp_start (g_request g))) (group_parts syntax g)) as Hall.
  { apply Forall_forall. intros p Hp. by apply (group_parts_of syntax). }
  induction Hall as [|p ps Hp Hps IHp]; [done|]. cbn. constructor; [done|].
  apply Forall_forall. intros q [Hq|Hq]%elem_of_app; rewrite Hp.
  - rewrite Forall_forall in Hps. rewrite (Hps q Hq). unfold cmp_le. by rewrite (cmp_refl span_cmp).
  - apply list_elem_of_bind in Hq as (g' & Hq & Hg'). apply group_parts_of in Hq as [_ ->].
    rewrite Forall_forall in Hg. by apply Hg.
Qed.

(** ** Static imports and re-exports, statement by statement *)

Definition is_default_name (n : ImportImportName) : bool := match n with ImportDefault => true | _ => false end.
Definition is_namespace_name (n : ImportImportName) : bool := match n with NamespaceObject => true | _ => false end.
Definition import_name_of (n : ImportImportName) : option string :=
  match n with ImportName name => Some name | _ => None end.
Definition erased_statement (type_only : list Span) (k : statement_key) (es : list ImportEntry) : bool :=
  existsb (λ e, is_erased type_only e && bool_decide (import_key e = k)) (runtime_entries es).

(** What the statement at [k] should come to: its bindings that stay at run
    time; or, with none and none erased, the whole package if it is imported. *)
Definition statement_imports (md : ModuleRecord) (type_only : list Span) (k : statement_key) :
    list (ImportKind * ImportSyntax * list string) :=
  let names := ie_name <$> surviving type_only k (import_entries md) in
  match names with
  | [] => if erased_statement type_only k (import_entries md) then []
          else match requests_for k (requested_modules md) with
               | [] => [] | _ => [(Namespace, Static, [])] end
  | _ => outlines Static (existsb is_default_name names) (existsb is_namespace_name names) (omap import_name_of names)
  end.

Lemma applied_imports es g :
  let g' := foldl (λ g x, x.2 g) g (import_item <$> es) in
  let names := ie_name <$> es in
  has_default g' = has_default g || existsb is_default_name names ∧
  has_namespace g' = has_namespace g || existsb is_namespace_name names ∧
  named g' = named g ++ omap import_name_of names.
Proof.
  cbn zeta. revert g. induction es as [|e es IH]; intros g; cbn [fmap list_fmap foldl existsb omap list_omap].
  { by rewrite !orb_false_r, app_nil_r. }
  destruct (IH ((import_item e).2 g)) as (-> & -> & ->). cbn [import_item snd].
  destruct (ie_name e); cbn; rewrite ?orb_true_r, ?orb_true_l, <- ?app_assoc; done.
Qed.

Lemma erased_statement_spec type_only k es :
  erased_statement type_only k es = true ↔ has_erased type_only k es.
Proof.
  unfold erased_statement, has_erased. rewrite existsb_Exists, Exists_exists.
  setoid_rewrite andb_true_iff. setoid_rewrite bool_decide_eq_true. done.
Qed.

Lemma static_groups_spec md type_only k :
  NoDup (group_key <$> static_groups md type_only) ∧
  ∃ elided, (k ∈ elided ↔ has_erased type_only k (import_entries md)) ∧
  of_key k (static_groups md type_only) =
    fallback elided k (items_group (import_item <$> surviving type_only k (import_entries md)))
      (requests_for k (requested_modules md)).
Proof.
  destruct (import_fold type_only (import_entries md) k) as (H1 & H2 & H3). unfold static_groups.
  destruct (foldl (import_step type_only) (([], ∅), ∅) (import_entries md)) as [st elided]. cbn [fst snd] in *.
  destruct (requests_fold elided (requested_modules md) st k H1) as [[H4 _] H5].
  split; [done|]. exists elided. split; [done|]. by rewrite H5, H2.
Qed.

(** *** Re-exports *)

Definition export_item (e : ExportEntry) : option item :=
  match ee_request e with
  | Some (specifier, request) =>
      if is_runtime_package_specifier specifier
      then Some (specifier, ee_statement e, request, apply_export_name (ee_name e)) else None
  | None => None
  end.
Definition exports_of (k : statement_key) (md : ModuleRecord) : list ExportEntry :=
  filter (λ e, item_key <$> export_item e = Some k)
    (value_exports (indirect_export_entries md) ++ value_exports (star_export_entries md)).
Definition is_star_name (n : ExportImportName) : bool := match n with All | AllButDefault => true | _ => false end.
Definition export_name_of (n : ExportImportName) : option string :=
  match n with ExportName name => Some name | _ => None end.
(** What the re-export at [k] should come to. *)
Definition statement_exports (md : ModuleRecord) (k : statement_key) : list (ImportKind * ImportSyntax * list string) :=
  let names := ee_name <$> exports_of k md in
  outlines Reexport false (existsb is_star_name names) (omap export_name_of names).

Lemma export_fold es : foldl export_step ([], ∅) es = foldl step_item ([], ∅) (omap export_item es).
Proof.
  generalize (([], ∅) : Groups). induction es as [|e es IH]; intros st; [done|]. cbn [foldl]. rewrite IH.
  unfold export_step, export_item. cbn. destruct (ee_request e) as [[s r]|]; [|done].
  by destruct (is_runtime_package_specifier s).
Qed.

Lemma applied_exports k es :
  let items := filter (λ x, item_key x = k) (omap export_item es) in
  let names := ee_name <$> filter (λ e, item_key <$> export_item e = Some k) es in
  ∀ g, let g' := foldl (λ g x, x.2 g) g items in
  has_default g' = has_default g ∧
  has_namespace g' = has_namespace g || existsb is_star_name names ∧
  named g' = named g ++ omap export_name_of names.
Proof.
  cbn zeta. induction es as [|e es IH]; intros g; [cbn; by rewrite orb_false_r, app_nil_r|].
  rewrite filter_cons. cbn [omap list_omap]. destruct (export_item e) as [x|] eqn:Hx; cbn [fmap option_fmap option_map].
  2:{ rewrite decide_False by done. apply IH. }
  rewrite filter_cons. destruct (decide (item_key x = k)) as [Hk|Hk].
  - rewrite decide_True by by rewrite Hk. cbn [fmap list_fmap foldl existsb omap list_omap].
    destruct (IH (x.2 g)) as (-> & -> & ->). unfold export_item in Hx. destruct (ee_request e) as [[s r]|]; [|done].
    destruct (is_runtime_package_specifier s); [|done]. apply (inj Some) in Hx as <-. cbn [snd].
    destruct (ee_name e); cbn; rewrite ?orb_true_r, ?orb_true_l, <- ?app_assoc; done.
  - rewrite decide_False by congruence. apply IH.
Qed.

Lemma export_groups_spec md k :
  NoDup (group_key <$> export_groups md) ∧
  of_key k (export_groups md) = items_group (filter (λ x, item_key x = k)
    (omap export_item (value_exports (indirect_export_entries md) ++ value_exports (star_export_entries md)))).
Proof.
  unfold export_groups. rewrite <- foldl_app, export_fold.
  destruct (fold_items (omap export_item (value_exports (indirect_export_entries md) ++
    value_exports (star_export_entries md))) k) as [[H1 _] H2]; [|done].
  intros x g (e & _ & Hx)%list_elem_of_omap. unfold export_item in Hx. repeat case_match; simplify_eq.
  apply apply_export_key.
Qed.

Lemma not_runtime_comes_to_nothing md type_only k :
  is_runtime_package_specifier k.1 = false → statement_imports md type_only k = [] ∧ statement_exports md k = [].
Proof.
  intros Hk. split.
  - unfold statement_imports.
    assert (surviving type_only k (import_entries md) = []) as ->.
    { apply elem_of_nil_inv. intros e He. unfold surviving, runtime_entries in He.
      rewrite !list_elem_of_filter in He. destruct He as (<- & _ & Hr & _). cbn in Hk. congruence. }
    assert (requests_for k (requested_modules md) = []) as ->; [|by destruct (erased_statement _ _ _)].
    apply elem_of_nil_inv. intros r (m & Hr & _)%list_elem_of_bind.
    destruct (is_runtime_package_specifier m.1) eqn:Hm; [|by apply not_elem_of_nil in Hr].
    apply list_elem_of_fmap in Hr as (r' & -> & [[_ <-] _]%list_elem_of_filter). cbn in Hk. congruence.
  - unfold statement_exports. assert (exports_of k md = []) as ->; [|done].
    apply elem_of_nil_inv. intros e [He _]%list_elem_of_filter. unfold export_item in He.
    destruct (ee_request e) as [[s r]|]; [|done].
    destruct (is_runtime_package_specifier s) eqn:Hs; [|done]. cbn in He. simplify_eq. cbn in Hk. congruence.
Qed.

(** C26. Statement by statement, the static imports of a module record are its
    bindings that stay at run time, default, namespace and sorted names apart;
    a statement all of whose bindings are erased comes to nothing and one
    without any comes to the whole package; its re-exports likewise; nothing
    comes of a specifier that is not an installed package's; and the imports
    come in the order of the text. *)
Theorem imports_are_those_of_the_statements md type_only k :
  outline <$> filter (λ p, part_key p = k) (static_parts md type_only) = statement_imports md type_only k ∧
  outline <$> filter (λ p, part_key p = k) (export_parts md) = statement_exports md k ∧
  (is_runtime_package_specifier k.1 = false → statement_imports md type_only k = [] ∧ statement_exports md k = []) ∧
  StronglySorted (λ p q, cmp_le span_cmp (part_position p) (part_position q)) (static_parts md type_only) ∧
  StronglySorted (λ p q, cmp_le span_cmp (part_position p) (part_position q)) (export_parts md).
Proof.
  split_and!; [| | |apply parts_sorted..].
  - destruct (static_groups_spec md type_only k) as (Hnd & elided & He & Hg).
    unfold static_parts. rewrite parts_of_key, of_key_by_position, Hg by done. unfold statement_imports.
    pose proof (applied_imports (surviving type_only k (import_entries md))) as Happ.
    destruct (surviving type_only k (import_entries md)) as [|e es] eqn:Hs.
    + cbn [fmap list_fmap items_group fallback]. pose proof (erased_statement_spec type_only k (import_entries md)) as Hb.
      destruct (requests_for k (requested_modules md)) as [|r rs]; [by destruct (erased_statement _ _ _)|].
      case_decide as Hin.
      * rewrite (proj2 Hb) by by apply He. done.
      * destruct (erased_statement _ _ _); [by destruct Hin; apply He, Hb|]. done.
    + cbn [fmap list_fmap items_group fallback import_item]. rewrite bind_cons. cbn [mbind list_bind].
      rewrite app_nil_r, group_parts_outline.
      destruct (Happ (new_group (ie_request e) (ie_statement e) (ie_request_span e))) as (H1 & H2 & H3).
      cbn [fmap list_fmap] in H1, H2, H3. rewrite H1, H2, H3. done.
  - destruct (export_groups_spec md k) as [Hnd Hg]. unfold export_parts.
    rewrite parts_of_key, of_key_by_position, Hg by done. unfold statement_exports, exports_of.
    set (es := value_exports _ ++ _). pose proof (applied_exports k es) as Happ. cbn zeta in Happ.
    destruct (filter _ (omap export_item es)) as [|x items] eqn:Hx.
    + destruct (Happ (new_group "" {| sp_start := 0; sp_end := 0 |} {| sp_start := 0; sp_end := 0 |})) as (_ & H2 & H3).
      cbn [foldl has_namespace new_group named orb app] in H2, H3. by rewrite <- H2, <- H3.
    + destruct x as [[[s st] r] f]. cbn [items_group]. rewrite bind_cons. cbn [mbind list_bind].
      rewrite app_nil_r, group_parts_outline. by destruct (Happ (new_group s st r)) as (-> & -> & ->).
  - apply not_runtime_comes_to_nothing.
Qed.

(** ** Positions *)

(** Nothing of a region's imports is lost to a panic when the parser's spans
    are character boundaries of the document. *)
Lemma created_when_on_boundaries source region parts :
  is_utf8 source = true →
  Forall (λ o, is_char_boundary source ((rg_offset region + o) `min` length source) = true)
    [sp_start (p_statement parts); sp_end (p_statement parts); sp_start (p_request parts); sp_end (p_request parts)] →
  is_Some (create_detected_import source (LineIndex_new source) region parts).
Proof.
  intros Hu H. apply Forall_cons in H as [H1 H]. apply Forall_cons in H as [H2 H].
  apply Forall_cons in H as [H3 H]. apply Forall_cons in H as [H4 _].
  unfold create_detected_import, range_from_offsets.
  rewrite !positions_of by done. by eexists.
Qed.

(** A call that only starts and ends with a quote is taken for a literal. *)
Lemma sum_of_literals_is_taken_for_one :
  literal_dynamic_import_specifier (to_bytes "'./' + name + '.js'") = Some (to_bytes "./' + name + '.js") ∧
  of_bytes <$> literal_dynamic_import_specifier (to_bytes "'lib-' + name + '.js'") = Some "lib-' + name + '.js" ∧
  is_runtime_package_specifier "lib-' + name + '.js" = true.
Proof. by vm_compute. Qed.

Example analysis_of_a_module :
  let entry name local type :=
    {| ie_request := "react"; ie_request_span := {| sp_start := 20; sp_end := 27 |};
       ie_statement := {| sp_start := 0; sp_end := 28 |}; ie_name := name;
       ie_local := {| sp_start := local; sp_end := local + 1 |}; ie_is_type := type |} in
  let parsed := {| fatal_error := false; errors := []; is_typescript := true; symbols := [];
    module_record := {| import_entries := [entry ImportDefault 7 false; entry (ImportName "b") 10 false;
                                           entry (ImportName "a") 13 false; entry (ImportName "T") 15 true];
                        requested_modules := [("react", [{| rm_statement := {| sp_start := 0; sp_end := 28 |};
                          rm_span := {| sp_start := 20; sp_end := 27 |}; rm_is_import := true; rm_is_type := false |}])];
                        indirect_export_entries := []; star_export_entries := []; dynamic_imports := [] |} |} in
  match analyze_imports (λ _, parsed) (λ _, false) "a.ts" (to_bytes "import R, {b,a,type T} from 'react'") with
  | Imports ds => (λ d, (d_package_name d, d_import_kind d, d_named d)) <$> ds =
                  [("react", Default, []); ("react", Named, ["a"; "b"])]
  | _ => False
  end.
Proof. by vm_compute. Qed.
