(* ===== verification/Connections.v ===== *)
(** * Connection lifecycles (ipc/server.rs)

    The background work one connection owns: the flags that cancel it, the gate
    that admits one combined build per document, and the answers of a registry
    refresh. A flag is an index into the shared store of atomics; a gate is the
    identity of its semaphore. *)
From stdpp Require Import base gmap list strings.
From S2P Require Import Prelude Results Text.

Set Default Proof Using "Type*".

(** ** Documents *)

Definition NUL : ascii := byte 0.
Definition document_key (workspace_root document_path : string) : string :=
  of_bytes (to_bytes workspace_root ++ NUL :: to_bytes document_path).
Definition document_path_of (key : string) : string :=
  match split_once NUL (to_bytes key) with Some (_, path) => of_bytes path | None => key end.

(** ** Cancellation flags *)

(** The atomics of a connection, [true] once cancelled, and the next to make. *)
Record Flags := { cancelled : gmap nat bool; next_flag : nat }.
Definition cancel_flag (flag : nat) (f : Flags) : Flags :=
  {| cancelled := <[flag := true]> (cancelled f); next_flag := next_flag f |}.
Definition cancel_flags (flags : list nat) (f : Flags) : Flags := foldr cancel_flag f flags.
Definition new_flag (f : Flags) : nat * Flags :=
  (next_flag f, {| cancelled := <[next_flag f := false]> (cancelled f); next_flag := S (next_flag f) |}).

(** A lifecycle: the active flag of each source or document. *)
Abbreviation Lifecycle := (gmap string nat) (only parsing).

(** [start_new_block] and [start_document]. *)
Definition start (key : string) (active : Lifecycle) (f : Flags) : nat * Lifecycle * Flags :=
  let '(flag, f) := new_flag f in
  (flag, <[key := flag]> active, match active !! key with Some previous => cancel_flag previous f | None => f end).

Definition start_new_block (source : string) := start source.
Definition start_document (workspace_root document_path : string) := start (document_key workspace_root document_path).

Definition cancel_all (active : Lifecycle) (f : Flags) : Flags := cancel_flags (map_to_list active).*2 f.

Definition retain_visible (visible : list string) (active : Lifecycle) (f : Flags) : Lifecycle * Flags :=
  let keeps (e : string * nat) := document_path_of e.1 ∈ visible in
  (filter keeps active, cancel_flags (map_to_list (filter (λ e, ¬ keeps e) active)).*2 f).

Record ConnectionLifecycles := {
  registry_refresh : gmap string nat;
  document_stream : gmap string nat;
  swr_refresh : gmap string nat;
  size_builds : gmap string nat;
}.
Definition no_lifecycles : ConnectionLifecycles :=
  {| registry_refresh := ∅; document_stream := ∅; swr_refresh := ∅; size_builds := ∅ |}.

Definition cancel_every (l : ConnectionLifecycles) (f : Flags) : Flags :=
  cancel_all (size_builds l) (cancel_all (swr_refresh l)
    (cancel_all (document_stream l) (cancel_all (registry_refresh l) f))).
Definition retain_documents (document_paths : list string) (l : ConnectionLifecycles) (f : Flags) :
    ConnectionLifecycles * Flags :=
  let '(ds, f) := retain_visible document_paths (document_stream l) f in
  let '(swr, f) := retain_visible document_paths (swr_refresh l) f in
  let '(sizes, f) := retain_visible document_paths (size_builds l) f in
  ({| registry_refresh := registry_refresh l; document_stream := ds; swr_refresh := swr; size_builds := sizes |}, f).

(** ** The build gate *)

(** A bounded size read, from its arm to its answer. *)
Inductive Phase := Waiting | Acquired | Building | Superseded | Answered.
#[export] Instance Phase_eq_dec : EqDecision Phase.
Proof. solve_decision. Defined.
Record SizeRead := { sr_key : string; sr_gate : nat; sr_flag : nat; sr_phase : Phase }.

(** What of it holds the gate's [Arc], and what its one permit. *)
Definition holds_gate (r : SizeRead) : bool :=
  match sr_phase r with Waiting | Acquired | Building => true | _ => false end.
Definition holds_permit (r : SizeRead) : bool :=
  match sr_phase r with Acquired | Building => true | _ => false end.

Record Gates := { gates : gmap string nat; next_gate : nat }.
(** [strong_count > 1]: someone but the map holds it. *)
Definition shared (reads : gmap nat SizeRead) (gate : nat) : bool :=
  existsb (λ e, holds_gate e.2 && bool_decide (sr_gate e.2 = gate)) (map_to_list reads).
Definition gate_for (reads : gmap nat SizeRead) (key : string) (g : Gates) : nat * Gates :=
  let live := filter (λ e, shared reads e.2 = true) (gates g) in
  match live !! key with
  | Some gate => (gate, {| gates := live; next_gate := next_gate g |})
  | None => (next_gate g, {| gates := <[key := next_gate g]> live; next_gate := S (next_gate g) |})
  end.

(** ** The connection *)

Record Connection := {
  lifecycles : ConnectionLifecycles;
  flags : Flags;
  size_build_gate : Gates;
  reads : gmap nat SizeRead;
  closed : bool;
}.
Definition opened : Connection :=
  {| lifecycles := no_lifecycles; flags := {| cancelled := ∅; next_flag := 0 |};
     size_build_gate := {| gates := ∅; next_gate := 0 |}; reads := ∅; closed := false |}.

Definition with_lifecycles (l : ConnectionLifecycles) (f : Flags) (c : Connection) : Connection :=
  {| lifecycles := l; flags := f; size_build_gate := size_build_gate c; reads := reads c; closed := closed c |}.
Definition with_reads (rs : gmap nat SizeRead) (c : Connection) : Connection :=
  {| lifecycles := lifecycles c; flags := flags c; size_build_gate := size_build_gate c; reads := rs; closed := closed c |}.
Definition set_phase (p : Phase) (r : SizeRead) : SizeRead :=
  {| sr_key := sr_key r; sr_gate := sr_gate r; sr_flag := sr_flag r; sr_phase := p |}.

Definition registry_block (source : string) (c : Connection) : Connection :=
  let l := lifecycles c in
  let '(_, active, f) := start_new_block source (registry_refresh l) (flags c) in
  with_lifecycles {| registry_refresh := active; document_stream := document_stream l;
                     swr_refresh := swr_refresh l; size_builds := size_builds l |} f c.
Definition analyze_document (ws doc : string) (c : Connection) : Connection :=
  let l := lifecycles c in
  let '(_, active, f) := start_document ws doc (document_stream l) (flags c) in
  with_lifecycles {| registry_refresh := registry_refresh l; document_stream := active;
                     swr_refresh := swr_refresh l; size_builds := size_builds l |} f c.
(** The [FileSizeDocument] arm; a tagged read gets the bound, as task [t]. *)
Definition file_size_document (t : nat) (ws doc : string) (tagged : bool) (c : Connection) : Connection :=
  let l := lifecycles c in
  let '(_, swr, f) := start_document ws doc (swr_refresh l) (flags c) in
  if tagged then
    let '(gate, g) := gate_for (reads c) (document_key ws doc) (size_build_gate c) in
    let '(flag, sizes, f) := start_document ws doc (size_builds l) f in
    {| lifecycles := {| registry_refresh := registry_refresh l; document_stream := document_stream l;
                        swr_refresh := swr; size_builds := sizes |};
       flags := f; size_build_gate := g;
       reads := <[t := {| sr_key := document_key ws doc; sr_gate := gate; sr_flag := flag; sr_phase := Waiting |}]> (reads c);
       closed := closed c |}
  else with_lifecycles {| registry_refresh := registry_refresh l; document_stream := document_stream l;
                          swr_refresh := swr; size_builds := size_builds l |} f c.
Definition visible_documents (document_paths : list string) (c : Connection) : Connection :=
  let '(l, f) := retain_documents document_paths (lifecycles c) (flags c) in with_lifecycles l f c.
Definition close_connection (c : Connection) : Connection :=
  {| lifecycles := lifecycles c; flags := cancel_every (lifecycles c) (flags c);
     size_build_gate := size_build_gate c; reads := reads c; closed := true |}.

(** The task of a bounded read: it takes the permit, reads its flag, and builds
    or answers that it was superseded; the permit goes with its answer. *)
Definition permit_free (gate : nat) (rs : gmap nat SizeRead) : Prop :=
  ∀ t r, rs !! t = Some r → sr_gate r = gate → holds_permit r = false.
Definition check_flag (f : Flags) (r : SizeRead) : SizeRead :=
  set_phase (if default false (cancelled f !! sr_flag r) then Superseded else Building) r.

(** Frames arrive until the connection closes; tasks go on after that. *)
Inductive step : Connection → Connection → Prop :=
  | StepRegistry source c : closed c = false → step c (registry_block source c)
  | StepAnalyze ws doc c : closed c = false → step c (analyze_document ws doc c)
  | StepFileSize t ws doc tagged c :
      closed c = false → reads c !! t = None → step c (file_size_document t ws doc tagged c)
  | StepVisible docs c : closed c = false → step c (visible_documents docs c)
  | StepClose c : closed c = false → step c (close_connection c)
  | StepAcquire t r c :
      reads c !! t = Some r → sr_phase r = Waiting → permit_free (sr_gate r) (reads c) →
      step c (with_reads (<[t := set_phase Acquired r]> (reads c)) c)
  | StepCheck t r c :
      reads c !! t = Some r → sr_phase r = Acquired →
      step c (with_reads (<[t := check_flag (flags c) r]> (reads c)) c)
  | StepFinish t r c :
      reads c !! t = Some r → sr_phase r = Building →
      step c (with_reads (<[t := set_phase Answered r]> (reads c)) c)
  (** A task can end anywhere: a panic, or the runtime going down. *)
  | StepEnd t r c :
      reads c !! t = Some r → step c (with_reads (<[t := set_phase Answered r]> (reads c)) c).

Definition reachable (c : Connection) : Prop := rtc step opened c.

(** ** A registry refresh's answers *)

Section results.
Context {Result Target : Type} (unanswered : Target → Result).

(** [final_registry_results]; [unanswered] is the error of a slot no job filled. *)
Fixpoint final_registry_results (ordered : list (option Result)) (targets : list Target) (cancelled : bool) :
    list Result :=
  match ordered, targets with
  | result :: ordered, target :: targets =>
      match result with
      | Some r => r :: final_registry_results ordered targets cancelled
      | None => if cancelled then final_registry_results ordered targets cancelled
                else unanswered target :: final_registry_results ordered targets cancelled
      end
  | _, _ => []
  end.

(** A live block answers every target in its place; a cancelled one leaves out
    what it skipped and nothing else. *)
Lemma final_results_spec ordered targets :
  length ordered = length targets →
  final_registry_results ordered targets false =
    zip_with (λ r t, default (unanswered t) r) ordered targets ∧
  final_registry_results ordered targets true = omap id ordered.
Proof.
  revert targets. induction ordered as [|o ordered IH]; intros [|t targets] Hl; try done.
  injection Hl as Hl. destruct (IH targets Hl) as [H1 H2]. cbn. destruct o; cbn; by rewrite H1, H2.
Qed.
End results.

(** ** Flags are live exactly while they are current *)

Inductive Kind := RegistryRefresh | DocumentStream | SwrRefresh | SizeBuilds.
#[export] Instance Kind_eq_dec : EqDecision Kind.
Proof. solve_decision. Defined.
Definition active_of (l : ConnectionLifecycles) (q : Kind * string) : option nat :=
  match q.1 with
  | RegistryRefresh => registry_refresh l | DocumentStream => document_stream l
  | SwrRefresh => swr_refresh l | SizeBuilds => size_builds l
  end !! q.2.

Notation entries := (Kind * string → option nat).
Definition live (f : Flags) (flag : nat) : Prop := cancelled f !! flag = Some false.

Record current (E : entries) (f : Flags) (open : bool) : Prop := {
  cur_bound : ∀ q flag, E q = Some flag → flag < next_flag f;
  cur_live : ∀ q flag, E q = Some flag → open = true → live f flag;
  cur_inj : ∀ q q' flag, E q = Some flag → E q' = Some flag → q = q';
  cur_only : ∀ flag, live f flag → open = true ∧ ∃ q, E q = Some flag;
  cur_dom : ∀ flag b, cancelled f !! flag = Some b → flag < next_flag f;
}.
(** What is still live was, and is where it was. *)
Definition keeps (E : entries) (f : Flags) (E' : entries) (f' : Flags) : Prop :=
  next_flag f ≤ next_flag f' ∧
  ∀ flag, flag < next_flag f → live f' flag → live f flag ∧ ∀ q, E q = Some flag → E' q = Some flag.

Lemma cancel_flags_next l f : next_flag (cancel_flags l f) = next_flag f.
Proof. by induction l. Qed.
Lemma cancel_flags_lookup l f flag :
  cancelled (cancel_flags l f) !! flag = if decide (flag ∈ l) then Some true else cancelled f !! flag.
Proof.
  induction l as [|x l IH]; cbn [cancel_flags foldr]; [done|]. cbn [cancel_flag cancelled].
  destruct (decide (flag = x)) as [->|Hne].
  - rewrite lookup_insert_eq, decide_True by by left. done.
  - rewrite lookup_insert_ne by done. fold (cancel_flags l f). rewrite IH.
    destruct (decide (flag ∈ l)); [rewrite decide_True by by right|rewrite decide_False by by rewrite elem_of_cons; intros [?|?]]; done.
Qed.

(** Starting work at [q0] cancels what was there. *)
Lemma start_current E f q0 previous :
  current E f true → previous = E q0 →
  let f' := match previous with Some p => cancel_flag p (new_flag f).2 | None => (new_flag f).2 end in
  let E' q := if decide (q = q0) then Some (next_flag f) else E q in
  current E' f' true ∧ keeps E f E' f' ∧ live f' (next_flag f) ∧ next_flag f < next_flag f'.
Proof.
  intros [Hb Hl Hi Ho Hd] ->. cbn zeta.
  set (f' := match E q0 with Some p => _ | None => _ end).
  assert (next_flag f' = S (next_flag f)) as Hn by (unfold f'; by destruct (E q0)).
  assert (∀ flag, cancelled f' !! flag =
    if decide (flag = next_flag f) then Some false
    else if decide (E q0 = Some flag) then Some true else cancelled f !! flag) as Hc.
  { intros flag. unfold f'. destruct (E q0) as [p|] eqn:Hp; cbn.
    - pose proof (Hb _ _ Hp). destruct (decide (flag = p)) as [->|Hne].
      + rewrite lookup_insert_eq, decide_False by lia. by rewrite decide_True.
      + rewrite lookup_insert_ne by done. rewrite (decide_False (P := Some p = _)) by congruence.
        case_decide as He; [subst; apply lookup_insert_eq|]. by rewrite lookup_insert_ne.
    - case_decide as He; [subst; apply lookup_insert_eq|]. by rewrite lookup_insert_ne. }
  assert (live f' (next_flag f)) as Hnew by (unfold live; by rewrite Hc, decide_True).
  split_and!; [|split; [lia|]|done|lia].
  - split.
    + intros q flag Hq. rewrite Hn. case_decide; [simplify_eq; lia|]. pose proof (Hb _ _ Hq). lia.
    + intros q flag Hq _. case_decide as He; [by simplify_eq|]. unfold live. rewrite Hc.
      pose proof (Hb _ _ Hq). rewrite decide_False by lia. case_decide as Hp; [|by eapply Hl].
      destruct He. by eapply Hi.
    + intros q q' flag Hq Hq'. cbn in Hq, Hq'.
      destruct (decide (q = q0)) as [->|], (decide (q' = q0)) as [->|]; [done|..|by eapply Hi].
      * apply Hb in Hq'. injection Hq as <-. lia.
      * apply Hb in Hq. injection Hq' as <-. lia.
    + intros flag Hf. split; [done|]. unfold live in Hf. rewrite Hc in Hf.
      case_decide as He; [exists q0; rewrite decide_True by done; by rewrite He|].
      case_decide as Hp; [done|]. destruct (Ho flag Hf) as [_ [q Hq]]. exists q. rewrite decide_False; [done|].
      intros ->. done.
    + intros flag b Hf. rewrite Hn. rewrite Hc in Hf. case_decide; [lia|].
      case_decide as Hp; [apply Hb in Hp; lia|]. apply Hd in Hf. lia.
  - intros flag Hlt Hf. unfold live in Hf. rewrite Hc in Hf. rewrite decide_False in Hf by lia.
    case_decide as Hp; [done|]. split; [done|]. intros q Hq. rewrite decide_False; [done|]. by intros ->.
Qed.

(** Cancelling what is dropped, or everything at the end. *)
Lemma drop_current E f l E' :
  current E f true → (∀ q, E' q = E q ∨ E' q = None) →
  (∀ flag, flag ∈ l ↔ ∃ q, E q = Some flag ∧ E' q = None) →
  current E' (cancel_flags l f) true ∧ keeps E f E' (cancel_flags l f).
Proof.
  intros [Hb Hl Hi Ho Hd] HE Hls.
  assert (∀ q flag, E' q = Some flag → E q = Some flag) as HE' by (intros q flag Hq; destruct (HE q); congruence).
  split; [split|split; [by rewrite cancel_flags_next|]].
  - intros q flag Hq. rewrite cancel_flags_next. eauto.
  - intros q flag Hq _. unfold live. rewrite cancel_flags_lookup. case_decide as Hin; [|eapply Hl; eauto].
    apply Hls in Hin as (q' & Hq' & Hn). pose proof (Hi _ _ _ (HE' _ _ Hq) Hq'). congruence.
  - intros q q' flag Hq Hq'. eapply Hi; eauto.
  - intros flag Hf. split; [done|]. unfold live in Hf. rewrite cancel_flags_lookup in Hf. case_decide as Hin; [done|].
    destruct (Ho flag Hf) as [_ [q Hq]]. exists q. destruct (HE q) as [->|Hn]; [done|].
    destruct Hin. apply Hls. by exists q.
  - intros flag b Hf. rewrite cancel_flags_next. rewrite cancel_flags_lookup in Hf. case_decide as Hin; [|by eapply Hd].
    apply Hls in Hin as (q & Hq & _). eauto.
  - intros flag _ Hf. unfold live in Hf. rewrite cancel_flags_lookup in Hf. case_decide as Hin; [done|].
    split; [done|]. intros q Hq. destruct (HE q) as [->|Hn]; [done|]. destruct Hin. apply Hls. by exists q.
Qed.

Definition set_active (k : Kind) (m : gmap string nat) (l : ConnectionLifecycles) : ConnectionLifecycles :=
  match k with
  | RegistryRefresh => {| registry_refresh := m; document_stream := document_stream l;
                          swr_refresh := swr_refresh l; size_builds := size_builds l |}
  | DocumentStream => {| registry_refresh := registry_refresh l; document_stream := m;
                         swr_refresh := swr_refresh l; size_builds := size_builds l |}
  | SwrRefresh => {| registry_refresh := registry_refresh l; document_stream := document_stream l;
                     swr_refresh := m; size_builds := size_builds l |}
  | SizeBuilds => {| registry_refresh := registry_refresh l; document_stream := document_stream l;
                     swr_refresh := swr_refresh l; size_builds := m |}
  end.
Definition kind_map (k : Kind) (l : ConnectionLifecycles) : gmap string nat :=
  match k with
  | RegistryRefresh => registry_refresh l | DocumentStream => document_stream l
  | SwrRefresh => swr_refresh l | SizeBuilds => size_builds l
  end.

Lemma active_of_set k m l q : active_of (set_active k m l) q = if decide (q.1 = k) then m !! q.2 else active_of l q.
Proof. destruct q as [[] ?], k; reflexivity. Qed.
Lemma active_of_kind k l key : active_of l (k, key) = kind_map k l !! key.
Proof. by destruct k. Qed.

Lemma current_ext E E' f o : (∀ q, E' q = E q) → current E f o → current E' f o.
Proof.
  intros HE [Hb Hl Hi Ho Hd]. split; [| | | |done].
  - intros q flag. rewrite HE. eauto.
  - intros q flag. rewrite HE. eauto.
  - intros q q' flag. rewrite !HE. eauto.
  - intros flag Hf. destruct (Ho flag Hf) as [? [q Hq]]. split; [done|]. exists q. by rewrite HE.
Qed.
Lemma keeps_ext E f E' E'' f' : (∀ q, E'' q = E' q) → keeps E f E' f' → keeps E f E'' f'.
Proof.
  intros HE [Hn Hk]. split; [done|]. intros flag Hlt Hf. destruct (Hk flag Hlt Hf) as [? Hq].
  split; [done|]. intros q. rewrite HE. apply Hq.
Qed.
Lemma keeps_trans E f E' f' E'' f'' : keeps E f E' f' → keeps E' f' E'' f'' → keeps E f E'' f''.
Proof.
  intros [Hn Hk] [Hn' Hk']. split; [lia|]. intros flag Hlt Hf. destruct (Hk' flag ltac:(lia) Hf) as [Hf' Hq'].
  destruct (Hk flag Hlt Hf') as [? Hq]. eauto.
Qed.
#[export] Hint Resolve keeps_trans : daemon.

Lemma start_in k key l f :
  current (active_of l) f true →
  let '(flag, m, f') := start key (kind_map k l) f in
  current (active_of (set_active k m l)) f' true ∧ keeps (active_of l) f (active_of (set_active k m l)) f' ∧
  live f' flag ∧ active_of (set_active k m l) (k, key) = Some flag ∧ next_flag f ≤ flag < next_flag f'.
Proof.
  intros Hc. destruct (start_current (active_of l) f (k, key) (kind_map k l !! key) Hc) as (H1 & H2 & H3 & H4).
  { by rewrite active_of_kind. }
  unfold start, new_flag. cbn beta iota zeta.
  assert (∀ q, active_of (set_active k (<[key := next_flag f]> (kind_map k l)) l) q =
               if decide (q = (k, key)) then Some (next_flag f) else active_of l q) as HE.
  { intros [k' key']. rewrite active_of_set. cbn [fst snd]. case_decide as Hk.
    - subst k'. destruct (decide (key' = key)) as [->|Hne]; [by rewrite lookup_insert_eq, decide_True|].
      rewrite lookup_insert_ne by done. rewrite decide_False by congruence. by rewrite active_of_kind.
    - by rewrite decide_False by congruence. }
  split; [eapply current_ext; [|exact H1]; exact HE|]. split; [eapply keeps_ext; [|exact H2]; exact HE|]. split; [done|].
  split; [by rewrite HE, decide_True|]. split; [lia|exact H4].
Qed.

Lemma retain_in k visible l f :
  current (active_of l) f true →
  let '(m, f') := retain_visible visible (kind_map k l) f in
  current (active_of (set_active k m l)) f' true ∧ keeps (active_of l) f (active_of (set_active k m l)) f'.
Proof.
  intros Hc. unfold retain_visible. apply drop_current; [done|..].
  - intros q. rewrite active_of_set. case_decide as Hk; [|by left].
    destruct q as [k' key]. cbn in Hk. subst k'. rewrite active_of_kind. cbn [snd].
    destruct (filter _ (kind_map k l) !! key) as [flag|] eqn:Hf; [|by right].
    apply map_lookup_filter_Some in Hf as [Hf _]. rewrite Hf. by left.
  - intros flag. rewrite list_elem_of_fmap. split.
    + intros ([key flag'] & -> & Hin). apply elem_of_map_to_list, map_lookup_filter_Some in Hin as [Hin Hv].
      exists (k, key). rewrite active_of_set, active_of_kind. cbn [fst snd] in *. split; [done|].
      rewrite decide_True by done. apply map_lookup_filter_None. right. intros flag2 ?. cbn. naive_solver.
    + intros ([k' key] & Hq & Hn). rewrite active_of_set in Hn. cbn [fst snd] in Hn.
      case_decide as Hk; [subst k'|congruence]. rewrite active_of_kind in Hq.
      exists (key, flag). split; [done|]. apply elem_of_map_to_list, map_lookup_filter_Some. split; [done|].
      cbn. apply map_lookup_filter_None in Hn as [Hn|Hn]; [congruence|exact (Hn _ Hq)].
Qed.

Lemma close_current l f : current (active_of l) f true → current (active_of l) (cancel_every l f) false.
Proof.
  intros [Hb Hl Hi Ho Hd]. unfold cancel_every, cancel_all, cancel_flags. rewrite <- !foldr_app.
  match goal with |- current _ (foldr _ _ ?l) _ => set (fs := l) end. fold (cancel_flags fs f).
  assert (∀ flag, live f flag → flag ∈ fs) as Hall.
  { intros flag Hf. destruct (Ho flag Hf) as [_ [[k key] Hq]]. rewrite active_of_kind in Hq.
    assert (flag ∈ (map_to_list (kind_map k l)).*2) as Hin.
    { apply list_elem_of_fmap. exists (key, flag). split; [done|]. by apply elem_of_map_to_list. }
    unfold fs. rewrite !elem_of_app. destruct k; cbn [kind_map] in Hin; auto. }
  split; [| |done| |].
  - intros q flag Hq. rewrite cancel_flags_next. eauto.
  - done.
  - intros flag Hf. unfold live in Hf. rewrite cancel_flags_lookup in Hf. case_decide as Hin; [done|].
    destruct Hin. by apply Hall.
  - intros flag b Hf. rewrite cancel_flags_next. rewrite cancel_flags_lookup in Hf. case_decide as Hin; [|by eapply Hd].
    unfold fs in Hin. rewrite !elem_of_app in Hin.
    assert (∃ k, flag ∈ (map_to_list (kind_map k l)).*2) as [k Hk].
    { destruct_or!; [exists SizeBuilds|exists SwrRefresh|exists DocumentStream|exists RegistryRefresh]; done. }
    apply list_elem_of_fmap in Hk as ([key flag'] & -> & Hk%elem_of_map_to_list).
    apply (Hb (k, key)). by rewrite active_of_kind.
Qed.

(** ** Every holder of a document's gate holds the same one *)

Record gated (rs : gmap nat SizeRead) (g : Gates) : Prop := {
  gate_inj : ∀ k k' gate, gates g !! k = Some gate → gates g !! k' = Some gate → k = k';
  gate_bound : ∀ k gate, gates g !! k = Some gate → gate < next_gate g;
  gate_held : ∀ t r, rs !! t = Some r → holds_gate r = true → gates g !! sr_key r = Some (sr_gate r);
  gate_once : ∀ t t' r r', rs !! t = Some r → rs !! t' = Some r' → holds_permit r = true →
    holds_permit r' = true → sr_gate r = sr_gate r' → t = t';
}.

Lemma shared_spec rs gate :
  shared rs gate = true ↔ ∃ t r, rs !! t = Some r ∧ holds_gate r = true ∧ sr_gate r = gate.
Proof.
  unfold shared. rewrite existsb_Exists, Exists_exists. split.
  - intros ([t r] & Hin%elem_of_map_to_list & [? ?%bool_decide_eq_true]%andb_true_iff). eauto.
  - intros (t & r & Hr & ? & ?). exists (t, r). split; [by apply elem_of_map_to_list|].
    apply andb_true_iff. split; [done|]. by apply bool_decide_eq_true.
Qed.

(** Pruning drops only gates nobody waits on, so the gate a document's readers
    hold is the one its next reader gets. *)
Lemma gate_for_gated rs key g :
  gated rs g →
  gated rs (gate_for rs key g).2 ∧ gates (gate_for rs key g).2 !! key = Some (gate_for rs key g).1.
Proof.
  intros [Hi Hb Hh Ho]. unfold gate_for. set (kept := filter _ (gates g)).
  assert (∀ k gate, kept !! k = Some gate → gates g !! k = Some gate) as Hk.
  { intros k gate Hk. by apply map_lookup_filter_Some in Hk as [? _]. }
  assert (∀ t r, rs !! t = Some r → holds_gate r = true → kept !! sr_key r = Some (sr_gate r)) as Hkept.
  { intros t r Hr Hg. apply map_lookup_filter_Some. split; [by eapply Hh|]. cbn. apply shared_spec. eauto. }
  destruct (kept !! key) as [gate|] eqn:Hkey; cbn [fst snd].
  - split; [split; cbn [gates next_gate]; eauto|done].
  - split; [split; cbn [gates next_gate]|apply lookup_insert_eq].
    + intros k k' gate H1 H2. destruct (decide (k = key)) as [->|Hn], (decide (k' = key)) as [->|Hn']; [done|..].
      * rewrite lookup_insert_eq in H1. rewrite lookup_insert_ne in H2 by done. simplify_eq. apply Hk, Hb in H2. lia.
      * rewrite lookup_insert_eq in H2. rewrite lookup_insert_ne in H1 by done. simplify_eq. apply Hk, Hb in H1. lia.
      * rewrite lookup_insert_ne in H1, H2 by done. eauto.
    + intros k gate H1. destruct (decide (k = key)) as [->|]; [rewrite lookup_insert_eq in H1; simplify_eq; lia|].
      rewrite lookup_insert_ne in H1 by done. apply Hk, Hb in H1. lia.
    + intros t r Hr Hg. pose proof (Hkept t r Hr Hg) as Hs. rewrite lookup_insert_ne; [done|]. congruence.
    + eauto.
Qed.

(** A read that moves on holds no more than it did, or takes a free permit. *)
Lemma move_gated rs g t r p :
  gated rs g → rs !! t = Some r →
  (holds_gate (set_phase p r) = true → holds_gate r = true) →
  (holds_permit (set_phase p r) = true → holds_permit r = true ∨ permit_free (sr_gate r) rs) →
  gated (<[t := set_phase p r]> rs) g.
Proof.
  intros [Hi Hb Hh Ho] Hr Hg Hp. split; [done|done|..].
  - intros t' r' Hr' Hg'. destruct (decide (t' = t)) as [->|]; [|rewrite lookup_insert_ne in Hr' by done; eauto].
    rewrite lookup_insert_eq in Hr'. simplify_eq. exact (Hh _ _ Hr (Hg Hg')).
  - intros t1 t2 r1 r2 H1 H2 P1 P2 HG.
    destruct (decide (t1 = t)) as [->|Hn], (decide (t2 = t)) as [->|Hn']; [done|..].
    + rewrite lookup_insert_eq in H1. rewrite lookup_insert_ne in H2 by done. simplify_eq. destruct (Hp P1) as [Hold|Hfree]; [by eapply (Ho t t2 r r2)|]. by rewrite (Hfree t2 r2) in P2.
    + rewrite lookup_insert_eq in H2. rewrite lookup_insert_ne in H1 by done. simplify_eq. destruct (Hp P2) as [Hold|Hfree]; [by eapply (Ho t1 t r1 r)|]. by rewrite (Hfree t1 r1) in P1.
    + rewrite lookup_insert_ne in H1, H2 by done. eauto.
Qed.

Record good (c : Connection) : Prop := {
  good_flags : current (active_of (lifecycles c)) (flags c) (negb (closed c));
  good_reads : ∀ t r, reads c !! t = Some r →
    sr_flag r < next_flag (flags c) ∧
    (live (flags c) (sr_flag r) → active_of (lifecycles c) (SizeBuilds, sr_key r) = Some (sr_flag r));
  good_distinct : ∀ t t' r r', reads c !! t = Some r → reads c !! t' = Some r' → sr_flag r = sr_flag r' → t = t';
  good_gates : gated (reads c) (size_build_gate c);
}.

(** The reads' flags survive a change of the lifecycles that keeps what is
    live. *)
Lemma reads_kept (c : Connection) (l : ConnectionLifecycles) f :
  good c → keeps (active_of (lifecycles c)) (flags c) (active_of l) f →
  ∀ t r, reads c !! t = Some r →
    sr_flag r < next_flag f ∧ (live f (sr_flag r) → active_of l (SizeBuilds, sr_key r) = Some (sr_flag r)).
Proof.
  intros Hc [Hn Hk] t r Hr. destruct (good_reads c Hc t r Hr) as [Hlt Hl]. split; [lia|].
  intros Hf. destruct (Hk _ Hlt Hf) as [Hf0 Hq]. auto.
Qed.
Lemma with_lifecycles_good c l f :
  good c → closed c = false → current (active_of l) f true →
  keeps (active_of (lifecycles c)) (flags c) (active_of l) f → good (with_lifecycles l f c).
Proof.
  intros Hc Ho Hl Hk. split; cbn [lifecycles flags reads size_build_gate closed with_lifecycles].
  - by rewrite Ho.
  - by apply reads_kept.
  - apply Hc.
  - apply Hc.
Qed.
Lemma move_good c t r p :
  good c → reads c !! t = Some r →
  (holds_gate (set_phase p r) = true → holds_gate r = true) →
  (holds_permit (set_phase p r) = true → holds_permit r = true ∨ permit_free (sr_gate r) (reads c)) →
  good (with_reads (<[t := set_phase p r]> (reads c)) c).
Proof.
  intros [H1 H2 H3 H4] Hr Hg Hp.
  assert (∀ t' r', <[t := set_phase p r]> (reads c) !! t' = Some r' →
    ∃ r0, reads c !! t' = Some r0 ∧ sr_flag r' = sr_flag r0 ∧ sr_key r' = sr_key r0) as Hsame.
  { intros t' r' Hr'. destruct (decide (t' = t)) as [->|]; [|rewrite lookup_insert_ne in Hr' by done; eauto].
    rewrite lookup_insert_eq in Hr'. simplify_eq. by exists r. }
  split; cbn [lifecycles flags reads size_build_gate closed with_reads]; [done|..].
  - intros t' r' Hr'. destruct (Hsame t' r' Hr') as (r0 & Hr0 & -> & ->). by apply (H2 t').
  - intros t1 t2 r1 r2 Hr1 Hr2 Hf. destruct (Hsame t1 r1 Hr1) as (r0 & Hr0 & He & _).
    destruct (Hsame t2 r2 Hr2) as (r0' & Hr0' & He' & _). apply (H3 t1 t2 r0 r0'); congruence.
  - by apply move_gated.
Qed.

Lemma file_size_good c t ws doc tagged :
  good c → closed c = false → reads c !! t = None → good (file_size_document t ws doc tagged c).
Proof.
  intros Hc Ho Ht. pose proof (good_flags c Hc) as Hcur. rewrite Ho in Hcur. unfold file_size_document.
  pose proof (start_in SwrRefresh (document_key ws doc) (lifecycles c) (flags c) Hcur) as H1.
  unfold start_document. cbn [kind_map] in H1.
  destruct (start (document_key ws doc) (swr_refresh (lifecycles c)) (flags c)) as [[fl1 swr] f1].
  destruct H1 as (Hcur1 & Hk1 & _). cbn [set_active] in Hcur1, Hk1.
  destruct tagged; [|by apply with_lifecycles_good].
  destruct (gate_for_gated (reads c) (document_key ws doc) (size_build_gate c) (good_gates c Hc)) as [Hg Hkey].
  destruct (gate_for (reads c) (document_key ws doc) (size_build_gate c)) as [gate g]. cbn [fst snd] in Hg, Hkey.
  set (l1 := {| registry_refresh := _; swr_refresh := swr |}) in *.
  pose proof (start_in SizeBuilds (document_key ws doc) l1 f1 Hcur1) as H2. cbn [kind_map] in H2.
  change (size_builds l1) with (size_builds (lifecycles c)) in H2.
  destruct (start (document_key ws doc) (size_builds (lifecycles c)) f1) as [[flag sizes] f2].
  destruct H2 as (Hcur2 & Hk2 & _ & Hnew & Hlt). unfold l1 in Hcur2, Hk2, Hnew. cbn [set_active] in Hcur2, Hk2, Hnew.
  pose proof (reads_kept c _ _ Hc (keeps_trans _ _ _ _ _ _ Hk1 Hk2)) as Hreads.
  assert (∀ t' r, reads c !! t' = Some r → sr_flag r < flag) as Hold.
  { intros t' r Hr. destruct (good_reads c Hc t' r Hr) as [? _]. destruct Hk1. lia. }
  split; cbn [lifecycles flags reads size_build_gate closed].
  - by rewrite Ho.
  - intros t' r Hr. destruct (decide (t' = t)) as [->|]; [|rewrite lookup_insert_ne in Hr by done; by apply (Hreads t')].
    rewrite lookup_insert_eq in Hr. simplify_eq. cbn [sr_flag sr_key]. split; [lia|done].
  - intros t1 t2 r1 r2 Hr1 Hr2 Hf.
    destruct (decide (t1 = t)) as [->|], (decide (t2 = t)) as [->|]; [done|..].
    + rewrite lookup_insert_eq in Hr1. rewrite lookup_insert_ne in Hr2 by done. simplify_eq.
      pose proof (Hold _ _ Hr2). cbn in Hf. lia.
    + rewrite lookup_insert_eq in Hr2. rewrite lookup_insert_ne in Hr1 by done. simplify_eq.
      pose proof (Hold _ _ Hr1). cbn in Hf. lia.
    + rewrite lookup_insert_ne in Hr1, Hr2 by done. by eapply (good_distinct c Hc).
  - destruct Hg as [Gi Gb Gh Go]. split; [done|done|..].
    + intros t' r Hr Hh. destruct (decide (t' = t)) as [->|]; [|rewrite lookup_insert_ne in Hr by done; eauto].
      rewrite lookup_insert_eq in Hr. by simplify_eq.
    + intros t1 t2 r1 r2 Hr1 Hr2 P1 P2 HG.
      destruct (decide (t1 = t)) as [->|]; [rewrite lookup_insert_eq in Hr1; by simplify_eq|].
      destruct (decide (t2 = t)) as [->|]; [rewrite lookup_insert_eq in Hr2; by simplify_eq|].
      rewrite lookup_insert_ne in Hr1, Hr2 by done. eauto.
Qed.

Lemma visible_good c docs : good c → closed c = false → good (visible_documents docs c).
Proof.
  intros Hc Ho. pose proof (good_flags c Hc) as Hcur. rewrite Ho in Hcur. unfold visible_documents, retain_documents.
  pose proof (retain_in DocumentStream docs (lifecycles c) (flags c) Hcur) as H1. cbn [kind_map] in H1.
  destruct (retain_visible docs (document_stream (lifecycles c)) (flags c)) as [ds f1]. destruct H1 as [Hc1 Hk1].
  pose proof (retain_in SwrRefresh docs _ f1 Hc1) as H2. cbn [kind_map set_active swr_refresh] in H2.
  destruct (retain_visible docs (swr_refresh (lifecycles c)) f1) as [swr f2]. destruct H2 as [Hc2 Hk2].
  pose proof (retain_in SizeBuilds docs _ f2 Hc2) as H3. cbn [kind_map set_active size_builds] in H3.
  destruct (retain_visible docs (size_builds (lifecycles c)) f2) as [sizes f3]. destruct H3 as [Hc3 Hk3].
  apply with_lifecycles_good; [done|done|exact Hc3|].
  eapply keeps_trans; [exact Hk1|]. eapply keeps_trans; [exact Hk2|exact Hk3].
Qed.

Lemma step_good c c' : good c → step c c' → good c'.
Proof.
  intros Hc Hstep. pose proof (good_flags c Hc) as Hcur.
  destruct Hstep as [source c Ho|ws doc c Ho|t ws doc tagged c Ho Ht|docs c Ho|c Ho|t r c Hr Hp Hfree|t r c Hr Hp|t r c Hr Hp|t r c Hr].
  - rewrite Ho in Hcur. pose proof (start_in RegistryRefresh source (lifecycles c) (flags c) Hcur) as H1.
    unfold registry_block, start_new_block. cbn [kind_map] in H1.
    destruct (start source (registry_refresh (lifecycles c)) (flags c)) as [[fl m] f].
    destruct H1 as (? & ? & _). by apply with_lifecycles_good.
  - rewrite Ho in Hcur. pose proof (start_in DocumentStream (document_key ws doc) (lifecycles c) (flags c) Hcur) as H1.
    unfold analyze_document, start_document. cbn [kind_map] in H1.
    destruct (start (document_key ws doc) (document_stream (lifecycles c)) (flags c)) as [[fl m] f].
    destruct H1 as (? & ? & _). by apply with_lifecycles_good.
  - by apply file_size_good.
  - by apply visible_good.
  - rewrite Ho in Hcur. pose proof (close_current _ _ Hcur) as Hcl. destruct Hc as [H1 H2 H3 H4].
    split; cbn [lifecycles flags reads size_build_gate closed close_connection]; [done| |done|done].
    intros t r Hr. destruct (H2 t r Hr) as [Hlt _]. split.
    + unfold cancel_every, cancel_all. by rewrite !cancel_flags_next.
    + intros Hf. destruct (cur_only _ _ _ Hcl _ Hf) as [? _]. done.
  - apply move_good; [done|done|by cbn; unfold holds_gate; rewrite Hp|by right].
  - unfold check_flag. apply move_good; [done|done|by unfold holds_gate; rewrite Hp|].
    left. unfold holds_permit. by rewrite Hp.
  - apply move_good; [done|done|done|done].
  - apply move_good; [done|done|done|done].
Qed.

Lemma reachable_good c : reachable c → good c.
Proof.
  intros Hr. unfold reachable in Hr. remember opened as c0 eqn:H0.
  assert (good c0) as Hc.
  { subst. split; cbn; [|intros *; by rewrite lookup_empty..|].
    - split; unfold active_of, live; intros *; cbn; rewrite ?lookup_empty; try done;
        repeat match goal with q : Kind * string |- _ => destruct q as [[] ?] end; cbn; rewrite ?lookup_empty; done.
    - split; intros *; cbn; rewrite ?lookup_empty; done. }
  clear H0. induction Hr; [done|]. eauto using step_good.
Qed.

(** Every flag made has its atomic. *)
Definition known (f : Flags) : Prop := ∀ flag, flag < next_flag f → is_Some (cancelled f !! flag).

Lemma known_cancel l f : known f → known (cancel_flags l f).
Proof.
  intros Hf flag Hlt. rewrite cancel_flags_lookup. case_decide; [done|].
  apply Hf. by rewrite cancel_flags_next in Hlt.
Qed.
Lemma known_start key m f : known f → known (start key m f).2.
Proof.
  intros Hf. unfold start. cbn. assert (known (new_flag f).2) as Hn.
  { intros flag Hlt. cbn in *. destruct (decide (flag = next_flag f)) as [->|].
    - by rewrite lookup_insert_eq.
    - rewrite lookup_insert_ne by done. apply Hf. lia. }
  destruct (m !! key) as [p|]; [|done]. exact (known_cancel [p] _ Hn).
Qed.
Lemma known_retain docs l f : known f → known (retain_documents docs l f).2.
Proof. intros Hf. unfold retain_documents, retain_visible. by do 3 apply known_cancel. Qed.

Lemma step_known c c' : known (flags c) → step c c' → known (flags c').
Proof.
  intros Hf Hstep.
  destruct Hstep as [source c Ho|ws doc c Ho|t ws doc tagged c Ho Ht|docs c Ho|c Ho|t r c Hr Hp Hfree|t r c Hr Hp|t r c Hr Hp|t r c Hr];
    try done.
  - unfold registry_block, start_new_block. pose proof (known_start source (registry_refresh (lifecycles c)) _ Hf).
    by destruct (start _ _ _) as [[? ?] ?].
  - unfold analyze_document, start_document.
    pose proof (known_start (document_key ws doc) (document_stream (lifecycles c)) _ Hf).
    by destruct (start _ _ _) as [[? ?] ?].
  - unfold file_size_document, start_document.
    pose proof (known_start (document_key ws doc) (swr_refresh (lifecycles c)) _ Hf) as H1.
    destruct (start _ _ (flags c)) as [[? ?] f1]. destruct tagged; [|done].
    pose proof (known_start (document_key ws doc) (size_builds (lifecycles c)) f1 H1) as H2.
    destruct (gate_for _ _ _). by destruct (start _ _ f1) as [[? ?] f2].
  - unfold visible_documents. pose proof (known_retain docs (lifecycles c) _ Hf).
    by destruct (retain_documents _ _ _).
  - cbn. by do 4 apply known_cancel.
Qed.

Lemma reachable_known c : reachable c → known (flags c).
Proof.
  intros Hr. unfold reachable in Hr. remember opened as c0 eqn:H0.
  assert (known (flags c0)) as Hc by (subst; intros flag; cbn; lia).
  clear H0. induction Hr; [done|]. eauto using step_known.
Qed.

(** A read moves to building, or to superseded, by what its flag says. *)
Lemma check_decides c c' t r r' :
  good c → known (flags c) → step c c' → reads c !! t = Some r → reads c' !! t = Some r' →
  sr_phase r' ≠ sr_phase r →
  (sr_phase r' = Building → live (flags c) (sr_flag r)) ∧
  (sr_phase r' = Superseded → ¬ live (flags c) (sr_flag r)).
Proof.
  intros Hgood Hknown Hstep Hr Hr' Hne.
  assert (∀ c1 t1 r1 p, reads c1 !! t1 = Some r1 → reads c1 !! t = Some r →
    reads (with_reads (<[t1 := set_phase p r1]> (reads c1)) c1) !! t = Some r' → sr_phase r' = p ∧ t1 = t) as Hmove.
  { intros c1 t1 r1 p H1 H2 H3. cbn in H3. destruct (decide (t1 = t)) as [->|]; [|rewrite lookup_insert_ne in H3 by done; by simplify_eq].
    rewrite lookup_insert_eq in H3. by simplify_eq. }
  destruct Hstep as [source c Ho|ws doc c Ho|t0 ws doc tagged c Ho Ht|docs c Ho|c Ho|t0 r0 c Hr0 Hp Hfree|t0 r0 c Hr0 Hp|t0 r0 c Hr0 Hp|t0 r0 c Hr0].
  - exfalso. revert Hr'. unfold registry_block, start_new_block, start. cbn. intros ?. by simplify_eq.
  - exfalso. revert Hr'. unfold analyze_document, start_document, start. cbn. intros ?. by simplify_eq.
  - exfalso. revert Hr'. unfold file_size_document, start_document, start. destruct tagged; cbn; [|intros ?; by simplify_eq].
    destruct (gate_for _ _ _). cbn. destruct (decide (t0 = t)) as [->|]; [congruence|].
    rewrite lookup_insert_ne by done. intros ?. by simplify_eq.
  - exfalso. revert Hr'. unfold visible_documents. destruct (retain_documents _ _ _). cbn. intros ?. by simplify_eq.
  - exfalso. revert Hr'. cbn. intros ?. by simplify_eq.
  - destruct (Hmove _ _ _ _ Hr0 Hr Hr') as [-> _]. done.
  - destruct (Hmove _ _ _ _ Hr0 Hr Hr') as [-> ->]. simplify_eq.
    destruct (good_reads _ Hgood t _ Hr0) as [Hlt _]. destruct (Hknown _ Hlt) as [b Hb].
    unfold live. rewrite Hb. by destruct b.
  - destruct (Hmove _ _ _ _ Hr0 Hr Hr') as [-> _]. done.
  - destruct (Hmove _ _ _ _ Hr0 Hr Hr') as [-> _]. done.
Qed.

Lemma live_once c t t' r r' :
  good c → reads c !! t = Some r → reads c !! t' = Some r' → sr_key r = sr_key r' →
  live (flags c) (sr_flag r) → live (flags c) (sr_flag r') → t = t'.
Proof.
  intros Hc Hr Hr' Hkey L L'. apply (good_distinct c Hc t t' r r'); [done|done|].
  apply (good_reads c Hc t r Hr) in L. apply (good_reads c Hc t' r' Hr') in L'.
  rewrite <- Hkey in L'. congruence.
Qed.

(** A new bounded read is the live one of its document. *)
Lemma newest_is_live c t ws doc :
  good c → closed c = false →
  let c' := file_size_document t ws doc true c in
  ∃ r, reads c' !! t = Some r ∧ sr_key r = document_key ws doc ∧ sr_phase r = Waiting ∧
       live (flags c') (sr_flag r).
Proof.
  intros Hc Ho. pose proof (good_flags c Hc) as Hcur. rewrite Ho in Hcur. unfold file_size_document.
  pose proof (start_in SwrRefresh (document_key ws doc) (lifecycles c) (flags c) Hcur) as H1.
  unfold start_document. cbn [kind_map] in H1.
  destruct (start (document_key ws doc) (swr_refresh (lifecycles c)) (flags c)) as [[fl1 swr] f1].
  destruct H1 as (Hcur1 & _). cbn [set_active] in Hcur1.
  destruct (gate_for _ _ _) as [gate g]. set (l1 := {| registry_refresh := _; swr_refresh := swr |}) in *.
  pose proof (start_in SizeBuilds (document_key ws doc) l1 f1 Hcur1) as H2. cbn [kind_map] in H2.
  change (size_builds l1) with (size_builds (lifecycles c)) in H2.
  destruct (start (document_key ws doc) (size_builds (lifecycles c)) f1) as [[flag sizes] f2].
  destruct H2 as (_ & _ & Hnew & _). cbn. rewrite lookup_insert_eq. eexists. by split_and!.
Qed.

(** C34. Under any interleaving of frames and tasks, at most one of the bounded
    combined builds (those of size reads the client tagged; an untagged read is
    not gated and is not a read of the model) runs per document: pruning the gates
    nobody holds never splits the ones that wait. A read starts building only
    while its flag is live, and is superseded only once it is not; and its flag is
    live exactly while the connection is open and it is the current size build of
    its document, which two reads never both are. A new bounded read of the
    document is that one from its arrival, and every older one stops being it. *)
Theorem one_build_per_document c t t' r r' :
  reachable c → reads c !! t = Some r → reads c !! t' = Some r' → sr_key r = sr_key r' →
  (holds_permit r = true → holds_permit r' = true → t = t') ∧
  (t ≠ t' → holds_gate r = true → holds_gate r' = true → sr_gate r = sr_gate r') ∧
  (live (flags c) (sr_flag r) → live (flags c) (sr_flag r') → t = t') ∧
  (live (flags c) (sr_flag r) ↔
     closed c = false ∧ size_builds (lifecycles c) !! sr_key r = Some (sr_flag r)) ∧
  (∀ c2 r2, step c c2 → reads c2 !! t = Some r2 → sr_phase r2 ≠ sr_phase r →
     (sr_phase r2 = Building → live (flags c) (sr_flag r)) ∧
     (sr_phase r2 = Superseded → ¬ live (flags c) (sr_flag r))) ∧
  (∀ t0 ws doc, closed c = false → reads c !! t0 = None → document_key ws doc = sr_key r →
     let c2 := file_size_document t0 ws doc true c in
     ∃ r0, reads c2 !! t0 = Some r0 ∧ sr_key r0 = sr_key r ∧ sr_phase r0 = Waiting ∧
       live (flags c2) (sr_flag r0) ∧ ¬ live (flags c2) (sr_flag r)).
Proof.
  intros Hreach Hr Hr' Hkey. pose proof (reachable_known _ Hreach) as Hknown.
  apply reachable_good in Hreach as Hc. pose proof Hc as [H1 H2 H3 H4].
  assert (∀ r, holds_permit r = true → holds_gate r = true) as Hpg by (intros r0; unfold holds_permit, holds_gate; by destruct (sr_phase r0)).
  assert (holds_gate r = true → holds_gate r' = true → sr_gate r = sr_gate r') as Hg.
  { intros G G'. pose proof (gate_held _ _ H4 t r Hr G) as E. pose proof (gate_held _ _ H4 t' r' Hr' G') as E'.
    rewrite <- Hkey in E'. congruence. }
  destruct (H2 t r Hr) as [Hlt Hl].
  split_and!.
  - intros P P'. eapply (gate_once _ _ H4); eauto.
  - auto.
  - by apply live_once.
  - split.
    { intros L. destruct (cur_only _ _ _ H1 _ L) as [Ho _]. split; [by apply negb_true_iff in Ho|]. by apply Hl. }
    intros [Ho Hq]. apply (cur_live _ _ _ H1 (SizeBuilds, sr_key r)); [exact Hq|by rewrite Ho].
  - intros c2 r2 Hs Hr2 Hne. by apply (check_decides c c2 t r r2).
  - intros t0 ws doc Ho Ht0 Hk c2. assert (good c2) as Hc2 by (by apply file_size_good).
    destruct (newest_is_live c t0 ws doc Hc Ho) as (r0 & Hr0 & Hk0 & Hp0 & L0). exists r0.
    split_and!; [done|congruence|done|done|]. intros L.
    assert (reads c2 !! t = Some r) as Hr2.
    { unfold c2, file_size_document, start_document, start. cbn. destruct (gate_for _ _ _). cbn.
      rewrite lookup_insert_ne by congruence. done. }
    pose proof (live_once c2 t t0 r r0 Hc2 Hr2 Hr0 ltac:(congruence) L L0). congruence.
Qed.

(** ** Cancellation *)

(** A document's path is read back from its key, whatever it holds. *)
Lemma document_key_path ws doc :
  NUL ∉ to_bytes ws → document_path_of (document_key ws doc) = doc.
Proof.
  intros Hn. unfold document_path_of, document_key, split_once. rewrite to_of_bytes.
  assert (find_any [NUL] (to_bytes ws ++ NUL :: to_bytes doc) = Some (length (to_bytes ws))) as ->.
  { induction (to_bytes ws) as [|b l IH]; [done|]. apply not_elem_of_cons in Hn as [? ?].
    cbn [app find_any length]. rewrite decide_False by set_solver. by rewrite IH. }
  cbn [fmap option_fmap option_map]. rewrite drop_app. cbn.
  rewrite drop_ge by lia. replace (S (length (to_bytes ws)) - length (to_bytes ws)) with 1 by lia. apply of_to_bytes.
Qed.

(** A flag is live exactly while it is the current one of the one source or
    document and kind of work it was made for, and the connection is open: a
    newer request of its kind, hiding its document or closing the connection
    cancels it, and nothing else does. *)
Theorem flags_are_live_while_current c :
  reachable c →
  (∀ flag, live (flags c) flag ↔ closed c = false ∧ ∃ q, active_of (lifecycles c) q = Some flag) ∧
  (∀ q q' flag, active_of (lifecycles c) q = Some flag → active_of (lifecycles c) q' = Some flag → q = q') ∧
  (∀ docs k ws doc, closed c = false → NUL ∉ to_bytes ws → k ≠ RegistryRefresh →
     let c' := visible_documents docs c in
     active_of (lifecycles c') (k, document_key ws doc) =
       (if decide (doc ∈ docs) then active_of (lifecycles c) (k, document_key ws doc) else None)) ∧
  (∀ docs source, active_of (lifecycles (visible_documents docs c)) (RegistryRefresh, source) =
             active_of (lifecycles c) (RegistryRefresh, source)).
Proof.
  intros Hc%reachable_good. destruct Hc as [H1 _ _ _]. split_and!.
  - intros flag. split.
    + intros L. destruct (cur_only _ _ _ H1 _ L) as [Ho ?]. by split; [apply negb_true_iff in Ho|].
    + intros [Ho [q Hq]]. apply (cur_live _ _ _ H1 q); [done|by rewrite Ho].
  - apply (cur_inj _ _ _ H1).
  - intros docs k ws doc Ho Hn Hk. cbn zeta.
    assert (∀ m : gmap string nat,
      filter (λ e : string * nat, document_path_of e.1 ∈ docs) m !! document_key ws doc =
      if decide (doc ∈ docs) then m !! document_key ws doc else None) as Hf.
    { intros m. case_decide as Hd.
      - destruct (m !! document_key ws doc) as [flag|] eqn:Hm.
        + apply map_lookup_filter_Some. cbn. by rewrite document_key_path.
        + apply map_lookup_filter_None. by left.
      - apply map_lookup_filter_None. right. intros flag _. cbn. by rewrite document_key_path. }
    destruct k; [done|apply Hf..].
  - done.
Qed.

(** ** What a frame does, seen from the flags

    The specification the loop is held to, without the operations: which work
    gets a new live flag, which keeps its own, and which is forgotten. *)

Inductive Effect :=
  | Nothing
  | Starts (works : list (Kind * string))
  (** A bounded size read of the document, as task [t]. *)
  | Reads (t : nat) (key : string)
  | Shows (document_paths : list string)
  | Closes.

Definition renewed (c c' : Connection) (q : Kind * string) : Prop :=
  ∃ flag, active_of (lifecycles c') q = Some flag ∧ next_flag (flags c) ≤ flag ∧ live (flags c') flag.
Definition starts_work (works : list (Kind * string)) (c c' : Connection) : Prop :=
  ∀ q, if decide (q ∈ works) then renewed c c' q
       else active_of (lifecycles c') q = active_of (lifecycles c) q.
Definition does (e : Effect) (c c' : Connection) : Prop :=
  match e with
  | Nothing => c' = c
  | Starts works => closed c' = false ∧ reads c' = reads c ∧ starts_work works c c'
  | Reads t key =>
      closed c' = false ∧ starts_work [(SwrRefresh, key); (SizeBuilds, key)] c c' ∧
      ∃ r, reads c' = <[t := r]> (reads c) ∧ sr_key r = key ∧ sr_phase r = Waiting ∧
        active_of (lifecycles c') (SizeBuilds, key) = Some (sr_flag r)
  | Shows docs =>
      closed c' = false ∧ reads c' = reads c ∧
      ∀ q, active_of (lifecycles c') q =
        if decide (q.1 = RegistryRefresh ∨ document_path_of q.2 ∈ docs) then active_of (lifecycles c) q else None
  | Closes => closed c' = true ∧ reads c' = reads c ∧ ∀ flag, ¬ live (flags c') flag
  end.

Lemma renewed_one c c' k key m :
  good c' → closed c' = false → (∀ q, active_of (lifecycles c') q = active_of (set_active k m (lifecycles c)) q) →
  m = <[key := next_flag (flags c)]> (kind_map k (lifecycles c)) → starts_work [(k, key)] c c'.
Proof.
  intros Hg Ho HE -> [k' key']. rewrite HE, active_of_set. cbn [fst snd].
  case_decide as Hin.
  - apply list_elem_of_singleton in Hin as [= -> ->]. exists (next_flag (flags c)).
    assert (active_of (lifecycles c') (k, key) = Some (next_flag (flags c))) as Ha
      by (rewrite HE, active_of_set, decide_True by done; apply lookup_insert_eq).
    split_and!; [done|done|]. apply (cur_live _ _ _ (good_flags _ Hg) _ _ Ha). by rewrite Ho.
  - case_decide as Hk; [|done]. subst k'. rewrite lookup_insert_ne, active_of_kind; [done|].
    intros ->. apply Hin. by left.
Qed.

Lemma registry_block_does source c :
  good c → closed c = false → does (Starts [(RegistryRefresh, source)]) c (registry_block source c).
Proof.
  intros Hc Ho. assert (good (registry_block source c)) as Hg by (eapply step_good; [done|by constructor]).
  split; [done|]. split; [done|]. by eapply renewed_one.
Qed.
Lemma analyze_document_does ws doc c :
  good c → closed c = false →
  does (Starts [(DocumentStream, document_key ws doc)]) c (analyze_document ws doc c).
Proof.
  intros Hc Ho. assert (good (analyze_document ws doc c)) as Hg by (eapply step_good; [done|by constructor]).
  split; [done|]. split; [done|]. by eapply renewed_one.
Qed.
Lemma visible_documents_does docs c :
  closed c = false → does (Shows docs) c (visible_documents docs c).
Proof.
  intros Ho. split; [done|]. split; [done|]. intros [k key]. cbn [fst snd].
  assert (∀ m : gmap string nat, filter (λ e : string * nat, document_path_of e.1 ∈ docs) m !! key =
    if decide (document_path_of key ∈ docs) then m !! key else None) as Hf.
  { intros m. case_decide as Hd.
    - destruct (m !! key) as [flag|] eqn:Hm; [by apply map_lookup_filter_Some|].
      apply map_lookup_filter_None. by left.
    - apply map_lookup_filter_None. by right. }
  destruct k; [by rewrite decide_True by by left|..]; (etrans; [apply Hf|]);
    (destruct (decide (document_path_of key ∈ docs)); [by rewrite decide_True by by right|]);
    rewrite decide_False; [done|by intros [?|?]|done|by intros [?|?]|done|by intros [?|?]].
Qed.
Lemma close_connection_does c :
  good c → closed c = false → does Closes c (close_connection c).
Proof.
  intros Hc Ho. assert (good (close_connection c)) as Hg by (eapply step_good; [done|by constructor]).
  split; [done|]. split; [done|]. intros flag L. by destruct (cur_only _ _ _ (good_flags _ Hg) _ L) as [? _].
Qed.

Lemma file_size_document_does t ws doc (tagged : bool) c :
  good c → closed c = false → reads c !! t = None →
  does (if tagged then Reads t (document_key ws doc) else Starts [(SwrRefresh, document_key ws doc)])
    c (file_size_document t ws doc tagged c).
Proof.
  intros Hc Ho Ht. pose proof (file_size_good c t ws doc tagged Hc Ho Ht) as Hg.
  destruct tagged; [|by split; [|split; [|eapply renewed_one]]].
  destruct (newest_is_live c t ws doc Hc Ho) as (r & Hr & Hkey & Hp & L).
  pose proof (good_reads _ Hg t r Hr) as [_ Hact]. specialize (Hact L). rewrite Hkey in Hact. revert Hg Hr L Hact.
  unfold file_size_document, start_document, start. cbn [new_flag].
  destruct (gate_for _ _ _) as [gate g]. cbv zeta iota beta. set (f1 := match swr_refresh _ !! _ with Some _ => _ | None => _ end).
  set (c' := {| lifecycles := _; reads := _ |}). intros Hg Hr L Hact.
  assert (next_flag f1 = S (next_flag (flags c))) as Hn1 by (unfold f1; by destruct (swr_refresh _ !! _)).
  cbn [reads c'] in Hr. rewrite lookup_insert_eq in Hr. injection Hr as <-.
  split; [done|]. split; [|by eexists].
  intros [k key]. case_decide as Hin.
  - assert (∃ flag, active_of (lifecycles c') (k, key) = Some flag ∧ next_flag (flags c) ≤ flag) as (flag & Ha & Hle).
    { apply elem_of_cons in Hin as [[= -> ->]|[= -> ->]%list_elem_of_singleton]; cbn.
      - exists (next_flag (flags c)). by rewrite lookup_insert_eq.
      - exists (next_flag f1). rewrite lookup_insert_eq. split; [done|lia]. }
    exists flag. split_and!; [done|done|]. apply (cur_live _ _ _ (good_flags _ Hg) _ _ Ha). cbn. by rewrite Ho.
  - destruct k; try done; cbn; (apply lookup_insert_ne; intros <-; apply Hin);
      [by left|by right; left].
Qed.

(** Two reads of one document, the first building when the second arrives. *)
Definition read_at (flag : nat) (p : Phase) : SizeRead :=
  {| sr_key := document_key "w" "d"; sr_gate := 0; sr_flag := flag; sr_phase := p |}.
Definition first_read : Connection := file_size_document 0 "w" "d" true opened.
Definition first_building : Connection :=
  let c := with_reads (<[0 := set_phase Acquired (read_at 1 Waiting)]> (reads first_read)) first_read in
  with_reads (<[0 := check_flag (flags c) (read_at 1 Acquired)]> (reads c)) c.
Definition two_reads : Connection := file_size_document 1 "w" "d" true first_building.

Lemma two_reads_reachable : reachable two_reads.
Proof.
  eapply rtc_l; [exact (StepFileSize 0 "w" "d" true opened eq_refl eq_refl)|].
  eapply rtc_l; [apply (StepAcquire 0 (read_at 1 Waiting)); [by vm_compute..|]|].
  { assert (reads first_read = {[ 0 := read_at 1 Waiting ]}) as He by by vm_compute.
    intros t r Hr _. change (reads first_read !! t = Some r) in Hr. rewrite He in Hr. by apply lookup_singleton_Some in Hr as [_ <-]. }
  eapply rtc_l; [apply (StepCheck 0 (read_at 1 Acquired)); by vm_compute|].
  eapply rtc_l; [|apply rtc_refl]. apply (StepFileSize 1 "w" "d" true); by vm_compute.
Qed.

Lemma one_build_per_document_witness :
  reachable two_reads ∧ reads two_reads !! 0 = Some (read_at 1 Building) ∧ reads two_reads !! 1 = Some (read_at 3 Waiting) ∧
  (live (flags two_reads) 3 ↔ closed two_reads = false ∧ size_builds (lifecycles two_reads) !! document_key "w" "d" = Some 3) ∧
  cancelled (flags two_reads) !! 1 = Some true.
Proof.
  assert (reads two_reads !! 0 = Some (read_at 1 Building)) as H0 by by vm_compute.
  assert (reads two_reads !! 1 = Some (read_at 3 Waiting)) as H1 by by vm_compute.
  split; [exact two_reads_reachable|]. split; [exact H0|]. split; [exact H1|]. split; [|by vm_compute].
  exact (proj1 (proj2 (proj2 (proj2 (one_build_per_document two_reads 1 0 _ _ two_reads_reachable H1 H0 eq_refl))))).
Defined.

Lemma flags_are_live_while_current_witness :
  reachable two_reads ∧
  (live (flags two_reads) 3 ↔ closed two_reads = false ∧ ∃ q, active_of (lifecycles two_reads) q = Some 3) ∧
  closed two_reads = false ∧ active_of (lifecycles two_reads) (SizeBuilds, document_key "w" "d") = Some 3.
Proof.
  split; [exact two_reads_reachable|]. split; [|split; by vm_compute].
  exact (proj1 (flags_are_live_while_current two_reads two_reads_reachable) 3).
Defined.
