(* ===== verification/Documents.v ===== *)
(** * Documents (service.rs)

    What the service answers for a document: its imports detected and ignored,
    each looked up, the misses built, the shared figures annotated, and what it
    pushes after a streamed answer. A lookup of a batch runs beside the others,
    so each has the state it found as an argument. *)
From stdpp Require Import base gmap list strings pretty.
From S2P Require Import Prelude Stages Results Json Fingerprints CacheKeys CachedImports SharedBytes FileSize ProjectRegistry Paths Manifests Resolver Aliases Analyze Text Positions Specifiers ScriptRegions DetectedImports IgnoreRules.

Set Default Proof Using "Type*".

(** ** What a document's import comes to *)

Inductive ReadIntent := Interactive | Bulk.
Inductive ImportAnalysisStatus := Loading | Ready | Missing | Unavailable.

Record ImportAnalysisItem := {
  it_detected : DetectedImport;
  it_status : ImportAnalysisStatus;
  it_message : option string;
  it_request : option ImportRequest;
  it_result : option ImportResult;
}.

(** The identity a push is addressed by. *)
Record RefreshedImportIdentity := {
  ri_specifier : string; ri_kind : ImportKind; ri_named : list string; ri_runtime : ImportRuntime;
}.
#[export] Instance RefreshedImportIdentity_eq_dec : EqDecision RefreshedImportIdentity.
Proof. solve_decision. Defined.
Definition identity_of (d : DetectedImport) : RefreshedImportIdentity :=
  {| ri_specifier := d_specifier d; ri_kind := d_import_kind d; ri_named := d_named d; ri_runtime := d_runtime d |}.

Record PendingBuild := { pb_resolved : Resolver.ResolvedPackage; pb_key : string }.
Inductive CacheProbe := Hit (r : ImportResult) | Miss (p : PendingBuild) | Unresolved (message : string).
Record PendingImport := { pi_detected : DetectedImport; pi_request : ImportRequest; pi_pending : PendingBuild }.
Record MeasuredImport := { mi_result : ImportResult; mi_identity : RefreshedImportIdentity }.
Record CachedDocumentAnalysis := { ca_items : list ImportAnalysisItem; ca_pending : list PendingImport }.

Definition measured_of (items : list ImportAnalysisItem) : list MeasuredImport :=
  omap (λ it, r ← it_result it; Some {| mi_result := r; mi_identity := identity_of (it_detected it) |}) items.

(** ** Shared figures *)

Definition measured_pair (m : MeasuredImport) : ImportRuntime * ImportResult := (ri_runtime (mi_identity m), mi_result m).
Definition annotated (document : list MeasuredImport) : list ImportResult :=
  snd <$> annotate_shared_bytes (measured_pair <$> document).

(** The annotated results, back in the items that carried one. *)
Fixpoint put_back (items : list ImportAnalysisItem) (results : list ImportResult) : list ImportAnalysisItem :=
  match items with
  | [] => []
  | it :: items =>
      match it_result it, results with
      | Some _, r :: results =>
          {| it_detected := it_detected it; it_status := it_status it; it_message := it_message it;
             it_request := it_request it; it_result := Some r |} :: put_back items results
      | _, _ => it :: put_back items results
      end
  end.
Definition annotate_ready_items (items : list ImportAnalysisItem) : list ImportAnalysisItem :=
  put_back items (annotated (measured_of items)).

Definition shared_figure (r : ImportResult) : N := default 0%N (shared_bytes r).

Notation push := (list (ImportResult * RefreshedImportIdentity)).

(** [shared_bytes_corrections]: the imports whose figure changed, [None] and
    zero being one figure. *)
Definition shared_bytes_corrections (document : list MeasuredImport) : push :=
  omap (λ '(import, result),
    if decide (shared_figure (mi_result import) = shared_figure result) then None
    else Some (result, mi_identity import)) (zip document (annotated document)).

Definition revalidated_with_shared_bytes (document : list MeasuredImport) (fresh : list ImportResult)
    (identities : list RefreshedImportIdentity) : push :=
  let siblings := filter (λ m, mi_identity m ∉ identities) document in
  let document := siblings ++ zip_with (λ r i, {| mi_result := r; mi_identity := i |}) fresh identities in
  omap id (imap (λ index '(import, result),
    let recomputed := bool_decide (length siblings ≤ index) in
    if recomputed || negb (bool_decide (shared_figure (mi_result import) = shared_figure result))
    then Some (result, mi_identity import) else None) (zip document (annotated document))).

(** ** The cache a document's imports are looked up in *)

(** What the service asks of a shard's import cache; its freshness policies are
    the cache's own. *)
Class ShardCache := {
  shard : Type;
  get_with_result_freshness : string → shard → option ImportResult * shard;
  get_if_fresh : string → shard → option ImportResult * shard;
  get_if_fresh_and_promote : string → shard → option ImportResult * shard;
  get_for_prewarm : string → shard → option ImportResult * shard;
  probe_freshness : string → shard → option Freshness;
  begin_revalidation : string → shard → bool * shard;
  finish_revalidation : string → shard → shard;
  insert_with_fingerprints_at_generation : string → ImportResult → list FileFingerprint → N → shard → shard;
  cache_generation : shard → N;
}.

Record ComputedAnalysis := {
  c_result : ImportResult;
  c_fingerprints : list FileFingerprint;
  c_reusable : bool;
}.

Definition should_cache_result (r : ImportResult) : bool := is_durable r.
Definition should_rearm_revalidation (f : option Freshness) : bool := bool_decide (f = Some Stale).

Definition revalidation_claim_key (cache_key workspace_root document_path : string) (generation : option N) : string :=
  let nul := of_bytes [byte 0] in
  cache_key +:+ nul +:+ workspace_root +:+ nul +:+ document_path +:+ nul +:+
  match generation with Some value => pretty value | None => "" end.

Section documents.
Context `{FL : Files, ML : ManifestLibraries, OX : Oxc, CP : ConfigParser, CD : IdentityCodec, DISK : FileSystem,
          CH : ContentHash, SC : ShardCache}.
(** The parser, Unicode's table, the build of the daemon, and the analysis of
    [Analyze] at its engine. *)
Context (parse : ScriptRegion → Parsed) (wide_alphanumeric : list ascii → bool) (windows : bool)
        (CARGO_PKG_VERSION : string)
        (analyze_unresolved_import : AnalysisContext → ImportRequest → string → ImportResult)
        (analyze_resolved_import : AnalysisContext → ImportRequest → Resolver.ResolvedPackage →
                                   ImportResult * option FingerprintSource).

Definition cache_key (request : ImportRequest) (resolved : Resolver.ResolvedPackage) : string :=
  cache_key_for_resolved_import CARGO_PKG_VERSION windows request
    {| rp_package_root := Resolver.package_root resolved; rp_entry_path := entry_path resolved |}.

(** ** Detection *)

Definition detected_imports_for_document (active_document_path source : string) (apply_ignore_rules : bool)
    (by_directory : option (gmap string ImportLensIgnore)) : Analysis :=
  match analyze_imports parse wide_alphanumeric active_document_path (to_bytes source) with
  | Imports imports =>
      if apply_ignore_rules then
        let rules := (rules_for active_document_path by_directory).1 in
        Imports (filter (λ d, should_ignore_import (d_package_name d) (d_specifier d) active_document_path rules = false) imports)
      else Imports imports
  | failed => failed
  end.

Definition no_position : SourcePosition := {| line := 0; character := 0 |}.
Definition no_range : SourceRange := {| range_start := no_position; range_end := no_position |}.
Definition detected_import_for_specifier (spec : string) : DetectedImport :=
  {| d_specifier := spec; d_package_name := get_package_name spec; d_named := []; d_import_kind := Namespace;
     d_syntax := Static; d_runtime := Component; d_line := 0; d_quote_end := no_position;
     d_specifier_range := no_range; d_statement_range := no_range |}.

Definition resolve_installed_package_version (active_document_path package_name : string) : string + string :=
  match find_package_root active_document_path package_name with
  | inr _ => inr "Package not found"
  | inl package_root =>
      match read_to_string (path_push package_root "package.json") with
      | inr _ => inr "Package not found"
      | inl contents =>
          match from_str contents with
          | inr _ => inl "unknown"
          | inl json => inl (default "unknown" (value_get "version" json ≫= as_str))
          end
      end
  end.
Definition import_request_for_detected (active_document_path : string) (detected : DetectedImport) :
    ImportRequest + string :=
  match resolve_installed_package_version active_document_path (d_package_name detected) with
  | inr message => inr message
  | inl version =>
      inl {| rq_specifier := d_specifier detected; rq_package_name := d_package_name detected; rq_version := version;
             rq_named := d_named detected; rq_import_kind := d_import_kind detected; rq_runtime := d_runtime detected |}
  end.

(** ** One import *)

Definition fresh_cached_result_for_key (key : string) (intent : ReadIntent) : shard → option ImportResult * shard :=
  match intent with Interactive => get_if_fresh_and_promote key | Bulk => get_if_fresh key end.

Definition probe_cache (context : AnalysisContext) (request : ImportRequest) (serve_stale : bool) (intent : ReadIntent)
    (cache : shard) : CacheProbe * shard :=
  match resolve_package_entry (Analyze.active_document_path context) request with
  | inr message => (Unresolved message, cache)
  | inl resolved =>
      let key := cache_key request resolved in
      let '(found, cache) :=
        if serve_stale then get_with_result_freshness key cache else fresh_cached_result_for_key key intent cache in
      (match found with Some r => Hit r | None => Miss {| pb_resolved := resolved; pb_key := key |} end, cache)
  end.

Definition fingerprint_of (path : string) : option FileFingerprint := file_fingerprint_reading_hash windows path.
(** [dependency_fingerprints]. *)
Definition dependency_fingerprints (resolved : Resolver.ResolvedPackage) (source : option FingerprintSource) :
    list FileFingerprint :=
  sort_and_dedup_fingerprints
    match source with
    | Some s => fs_fingerprints s ++ omap fingerprint_of (stat_paths s)
    | None => omap fingerprint_of [path_push (Resolver.package_root resolved) "package.json"; entry_path resolved]
    end.

Definition compute (context : AnalysisContext) (request : ImportRequest) (resolved : Resolver.ResolvedPackage) :
    ComputedAnalysis :=
  let '(result, analyzed_graph) := analyze_resolved_import context request resolved in
  let fingerprints := if should_cache_result result then dependency_fingerprints resolved analyzed_graph else [] in
  {| c_result := result; c_fingerprints := fingerprints; c_reusable := fingerprints_are_reusable fingerprints |}.

(** [analyze_and_cache]. [flight] is what the flight of this key and generation
    answered, its own computation or another caller's; [later] is the shard once
    it has. *)
Definition analyze_and_cache (flight : string → N → ComputedAnalysis) (should_store : bool)
    (key : string) (cache : shard) (later : shard) : ImportResult * shard :=
  let captured_generation := cache_generation cache in
  let computed := flight key captured_generation in
  (c_result computed,
   if should_cache_result (c_result computed) && c_reusable computed && should_store
   then insert_with_fingerprints_at_generation key (c_result computed) (c_fingerprints computed) captured_generation later
   else later).

Definition prewarm_resolved_import (flight : string → N → ComputedAnalysis) (should_continue should_store : bool)
    (request : ImportRequest) (resolved : Resolver.ResolvedPackage) (cache : shard) : shard :=
  let key := cache_key request resolved in
  let '(found, cache) := get_for_prewarm key cache in
  if bool_decide (is_Some found) || negb should_continue then cache
  else (analyze_and_cache flight should_store key cache cache).2.

(** ** A document's imports *)

Definition item (d : DetectedImport) (status : ImportAnalysisStatus) (message : option string)
    (request : option ImportRequest) (result : option ImportResult) : ImportAnalysisItem :=
  {| it_detected := d; it_status := status; it_message := message; it_request := request; it_result := result |}.

(** The closure of [cached_analysis_items_for_detected], its lookup at [cache]. *)
Definition classify_cached (context : AnalysisContext) (serve_stale : bool) (intent : ReadIntent)
    (cache : shard) (d : DetectedImport) : ImportAnalysisItem * option PendingImport :=
  match import_request_for_detected (Analyze.active_document_path context) d with
  | inr message => (item d Missing (Some message) None None, None)
  | inl request =>
      match (probe_cache context request serve_stale intent cache).1 with
      | Hit r => (item d Ready None (Some request) (Some r), None)
      | Unresolved message =>
          (item d Ready None (Some request) (Some (analyze_unresolved_import context request message)), None)
      | Miss pending =>
          (item d Loading None (Some request) None,
           Some {| pi_detected := d; pi_request := request; pi_pending := pending |})
      end
  end.
Definition cached_analysis_items_for_detected (context : AnalysisContext) (serve_stale : bool) (intent : ReadIntent)
    (found : nat → shard) (detected : list DetectedImport) : CachedDocumentAnalysis :=
  let classified := imap (λ i d, classify_cached context serve_stale intent (found i) d) detected in
  {| ca_items := annotate_ready_items classified.*1; ca_pending := omap snd classified |}.

(** The two closures of [analysis_items_for_detected]; [build] is what
    [build_miss] answers. The drain puts the answers in the imports' order. *)
Definition classify_blocking (context : AnalysisContext) (serve_stale : bool) (intent : ReadIntent)
    (build : PendingImport → ImportResult) (cache : shard) (d : DetectedImport) : ImportAnalysisItem :=
  match import_request_for_detected (Analyze.active_document_path context) d with
  | inr message => item d Missing (Some message) None None
  | inl request =>
      match (probe_cache context request serve_stale intent cache).1 with
      | Hit r => item d Ready None (Some request) (Some r)
      | Unresolved message =>
          item d Ready None (Some request) (Some (analyze_unresolved_import context request message))
      | Miss pending =>
          item d Ready None (Some request) (Some (build {| pi_detected := d; pi_request := request; pi_pending := pending |}))
      end
  end.
Definition analysis_items_for_detected (context : AnalysisContext) (serve_stale : bool) (intent : ReadIntent)
    (build : PendingImport → ImportResult) (found : nat → shard) (detected : list DetectedImport) :
    list ImportAnalysisItem :=
  annotate_ready_items (imap (λ i d, classify_blocking context serve_stale intent build (found i) d) detected).
End documents.

(** ** What follows a streamed answer *)

(** [complete_pending_imports]. The drain hands the imports out in some order,
    each with what [should_continue] said before and after its build. *)
Definition landed (build : PendingImport → ImportResult) (drained : list (PendingImport * (bool * bool))) :
    list MeasuredImport :=
  omap (λ '(p, (before, after)),
    if before && after : bool then Some {| mi_result := build p; mi_identity := identity_of (pi_detected p) |} else None)
    drained.
Definition complete_pending_imports (build : PendingImport → ImportResult) (measured : list MeasuredImport)
    (drained : list (PendingImport * (bool * bool))) (should_continue : bool) : list push :=
  let landed := landed build drained in
  ((λ m, [(mi_result m, mi_identity m)]) <$> landed) ++
  (if should_continue then
     match shared_bytes_corrections (measured ++ landed) with [] => [] | corrections => [corrections] end
   else []).

(** ** Annotation, one import at a time *)

Definition with_result (r : option ImportResult) (it : ImportAnalysisItem) : ImportAnalysisItem :=
  {| it_detected := it_detected it; it_status := it_status it; it_message := it_message it;
     it_request := it_request it; it_result := r |}.

Definition figure_in (pairs : list (ImportRuntime * ImportResult)) (m : MeasuredImport) : ImportResult :=
  set_shared (shared_spec pairs (measured_pair m)) (mi_result m).

Lemma annotated_spec document : annotated document = figure_in (measured_pair <$> document) <$> document.
Proof.
  unfold annotated, annotate_shared_bytes. rewrite <- !list_fmap_compose.
  apply list_fmap_ext. intros i m _. cbn. by rewrite shared_of_spec.
Qed.

Lemma zip_annotated document :
  zip document (annotated document) = (λ m, (m, figure_in (measured_pair <$> document) m)) <$> document.
Proof.
  rewrite annotated_spec. generalize (figure_in (measured_pair <$> document)). intros f.
  induction document as [|m l IH]; [done|]. cbn. by rewrite IH.
Qed.

Lemma put_back_spec (f : MeasuredImport → ImportResult) items :
  put_back items (f <$> measured_of items) =
  (λ it, with_result ((λ r, f {| mi_result := r; mi_identity := identity_of (it_detected it) |}) <$> it_result it) it) <$> items.
Proof.
  induction items as [|it items IH]; [done|]. cbn. destruct it as [d s m q [r|]]; cbn; by rewrite <- IH.
Qed.

Lemma annotate_ready_spec items :
  annotate_ready_items items =
  (λ it, with_result ((λ r, figure_in (measured_pair <$> measured_of items)
           {| mi_result := r; mi_identity := identity_of (it_detected it) |}) <$> it_result it) it) <$> items.
Proof. unfold annotate_ready_items. by rewrite annotated_spec, put_back_spec. Qed.

(** A figure depends only on what the document's imports are made of, in any
    order. *)
Definition shape (p : ImportRuntime * ImportResult) : ImportRuntime * list ModuleContribution :=
  (p.1, result_contributions p.2).

Lemma sightings_shapes pairs pairs' rt path :
  shape <$> pairs ≡ₚ shape <$> pairs' → sightings pairs rt path = sightings pairs' rt path.
Proof.
  assert (∀ pairs, sightings pairs rt path =
    sum_list ((λ s, if decide (s.1 = rt) then sightings_in path s.2 else 0) <$> (shape <$> pairs))) as Hs.
  { intros l. unfold sightings. induction l as [|p l IH]; [done|]. rewrite filter_cons. cbn.
    case_decide; [|done]. rewrite bind_cons, sightings_in_app. by rewrite IH. }
  intros Hp. by rewrite !Hs, Hp.
Qed.

Lemma shared_spec_shapes pairs pairs' p p' :
  shape <$> pairs ≡ₚ shape <$> pairs' → shape p = shape p' → shared_spec pairs p = shared_spec pairs' p'.
Proof.
  intros Hp [= H1 H2]. unfold shared_spec. rewrite H1, H2. do 2 f_equal. apply list_filter_iff.
  intros m. by rewrite (sightings_shapes pairs pairs').
Qed.

Lemma shape_set_shared rt n r : shape (rt, set_shared n r) = shape (rt, r).
Proof. done. Qed.
Lemma set_shared_twice n n' r : set_shared n (set_shared n' r) = set_shared n r.
Proof. done. Qed.

(** ** The table a client keeps *)

(** A push replaces the result of the import it is addressed to, and of no
    other; [None] and zero show alike. *)
Notation shown_table := (list (RefreshedImportIdentity * option ImportResult)).
Definition pushed (id : RefreshedImportIdentity) (p : push) : option ImportResult :=
  fst ∘ snd <$> list_find (λ e, e.2 = id) p.
Definition apply_push (shown : shown_table) (p : push) : shown_table :=
  (λ e, (e.1, match pushed e.1 p with Some r => Some r | None => e.2 end)) <$> shown.
Definition shows (it : ImportAnalysisItem) : RefreshedImportIdentity * option ImportResult :=
  (identity_of (it_detected it), it_result it).

Definition same_figures (r r' : ImportResult) : Prop :=
  set_shared 0 r = set_shared 0 r' ∧ shared_figure r = shared_figure r'.
Definition shows_same (e e' : RefreshedImportIdentity * option ImportResult) : Prop :=
  e.1 = e'.1 ∧ match e.2, e'.2 with Some r, Some r' => same_figures r r' | None, None => True | _, _ => False end.

Lemma pushed_Some id (p : push) r :
  NoDup p.*2 → (r, id) ∈ p → pushed id p = Some r.
Proof.
  intros Hnd Hin. unfold pushed. destruct (list_find _ p) as [[i [r' id']]|] eqn:Hf.
  - apply list_find_Some in Hf as (Hi & Hid & _). cbn in Hid. subst id'. cbn. f_equal.
    apply list_elem_of_lookup_1 in Hin as [j Hj].
    assert (i = j) as ->; [|congruence].
    eapply (NoDup_lookup p.*2); [done|rewrite list_lookup_fmap, Hi; done|rewrite list_lookup_fmap, Hj; done].
  - apply list_find_None in Hf. rewrite Forall_forall in Hf. by destruct (Hf _ Hin).
Qed.
Lemma pushed_None id (p : push) : id ∉ p.*2 → pushed id p = None.
Proof.
  intros Hid. unfold pushed. destruct (list_find _ p) as [[i [r' id']]|] eqn:Hf; [|done].
  apply list_find_Some in Hf as (Hi & Hid' & _). cbn in Hid'. subst id'. destruct Hid.
  apply list_elem_of_fmap. exists (r', id). split; [done|]. by eapply list_elem_of_lookup_2.
Qed.

(** Pushes one import at a time, to distinct identities, reach exactly the
    imports they name. *)
Lemma apply_singles (ms : list MeasuredImport) (shown : shown_table) :
  NoDup (mi_identity <$> ms) →
  foldl apply_push shown ((λ m, [(mi_result m, mi_identity m)]) <$> ms) =
  (λ e, (e.1, match pushed e.1 ((λ m, (mi_result m, mi_identity m)) <$> ms) with Some r => Some r | None => e.2 end)) <$> shown.
Proof.
  revert shown. induction ms as [|m ms IH]; intros shown Hnd; cbn.
  - symmetry. erewrite list_fmap_ext; [by rewrite list_fmap_id|]. intros i [id r] _. done.
  - apply NoDup_cons in Hnd as [Hm Hnd]. rewrite IH by done. unfold apply_push. rewrite <- list_fmap_compose.
    apply list_fmap_ext. intros i [id r] _. cbn. f_equal. unfold pushed. cbn.
    destruct (decide (mi_identity m = id)) as [Hid|Hid]; cbn.
    + destruct (list_find _ _) as [[j [r' id']]|] eqn:Hf; [|done].
      apply list_find_Some in Hf as (Hj & Hid' & _). cbn in Hid'. subst id'.
      apply list_elem_of_lookup_2, list_elem_of_fmap in Hj as (m' & [= -> Hid'] & Hm').
      destruct Hm. apply list_elem_of_fmap. exists m'. split; [congruence|done].
    + by destruct (list_find _ _) as [[j [r' id']]|].
Qed.

(** ** The corrections complete a document *)

Lemma corrections_spec document :
  shared_bytes_corrections document =
  omap (λ m, if decide (shared_figure (mi_result m) = shared_figure (figure_in (measured_pair <$> document) m)) then None
             else Some (figure_in (measured_pair <$> document) m, mi_identity m)) document.
Proof.
  unfold shared_bytes_corrections. rewrite zip_annotated. generalize (figure_in (measured_pair <$> document)). intros f.
  induction document as [|m l IH]; [done|]. cbn. by rewrite IH.
Qed.

(** A table that shows a document's measurements shows the figures of the whole
    document once its corrections are applied. *)
Lemma corrections_complete (document : list MeasuredImport) id r :
  NoDup (mi_identity <$> document) → {| mi_result := r; mi_identity := id |} ∈ document →
  same_figures
    match pushed id (shared_bytes_corrections document) with Some r' => r' | None => r end
    (figure_in (measured_pair <$> document) {| mi_result := r; mi_identity := id |}).
Proof.
  intros Hnd Hin. set (pairs := measured_pair <$> document).
  assert (shared_bytes_corrections document =
    omap (λ m, if decide (shared_figure (mi_result m) = shared_figure (figure_in pairs m)) then None
               else Some (figure_in pairs m, mi_identity m)) document) as ->.
  { apply corrections_spec. }
  set (c := omap _ document).
  assert (∀ r' id', (r', id') ∈ c ↔ ∃ m, m ∈ document ∧ mi_identity m = id' ∧ figure_in pairs m = r' ∧
    shared_figure (mi_result m) ≠ shared_figure (figure_in pairs m)) as Hc.
  { intros r' id'. unfold c. rewrite list_elem_of_omap. split.
    - intros (m & Hm & He). case_decide; [done|]. simplify_eq. by exists m.
    - intros (m & Hm & <- & <- & Hne). exists m. split; [done|]. by rewrite decide_False. }
  assert (NoDup c.*2) as Hndc.
  { unfold c. clear Hc Hin c. revert Hnd. generalize (figure_in pairs). intros f Hnd.
    induction document as [|m l IH]; [constructor|]. cbn in *. apply NoDup_cons in Hnd as [Hm Hnd].
    specialize (IH Hnd). case_decide; [done|]. cbn. apply NoDup_cons. split; [|done].
    intros ([r' id'] & Hid & He)%list_elem_of_fmap. apply list_elem_of_omap in He as (m' & Hm' & He).
    case_decide; [done|]. simplify_eq. destruct Hm. cbn in Hid. apply list_elem_of_fmap. by exists m'. }
  destruct (decide (shared_figure r = shared_figure (figure_in pairs {| mi_result := r; mi_identity := id |}))) as [He|Hne].
  - rewrite pushed_None; [by split|]. intros ([r' id'] & Hid & Hc')%list_elem_of_fmap. cbn in Hid. subst id'.
    apply Hc in Hc' as (m & Hm & Hid & _ & Hne). assert (m = {| mi_result := r; mi_identity := id |}) as ->; [|by destruct Hne].
    apply list_elem_of_lookup_1 in Hm as [i Hi]. apply list_elem_of_lookup_1 in Hin as [j Hj].
    assert (i = j) as ->; [|congruence].
    eapply (NoDup_lookup _ _ _ id Hnd); rewrite list_lookup_fmap, ?Hi, ?Hj; cbn; congruence.
  - rewrite (pushed_Some id c (figure_in pairs {| mi_result := r; mi_identity := id |})); [done|done|].
    apply Hc. by eexists.
Qed.

(** ** A streamed document converges to the blocking one *)

Section converge.
Context (build : PendingImport → ImportResult).
Notation classified := (ImportAnalysisItem * option PendingImport)%type.
Implicit Types (e : classified) (L : list classified).

Definition entry_id e : RefreshedImportIdentity := identity_of (it_detected e.1).
(** An import still to build carries no result, and is addressed as itself. *)
Definition well_classified e : Prop :=
  match e.2 with Some p => it_result e.1 = None ∧ pi_detected p = it_detected e.1 | None => True end.
(** Its result, built if it has to be; and what the client shows of it once the
    builds have landed. *)
Definition full e : option ImportResult := match e.2 with Some p => Some (build p) | None => it_result e.1 end.
Definition streamed_pairs L : list (ImportRuntime * ImportResult) := measured_pair <$> measured_of L.*1.
Definition current_of L e : option ImportResult :=
  match e.2 with
  | Some p => Some (build p)
  | None => (λ r, figure_in (streamed_pairs L) {| mi_result := r; mi_identity := entry_id e |}) <$> it_result e.1
  end.
Definition measurements (f : classified → option ImportResult) L : list MeasuredImport :=
  omap (λ e, r ← f e; Some {| mi_result := r; mi_identity := entry_id e |}) L.

Lemma elem_of_measurements f L m :
  m ∈ measurements f L ↔ ∃ e, e ∈ L ∧ f e = Some (mi_result m) ∧ entry_id e = mi_identity m.
Proof.
  unfold measurements. rewrite list_elem_of_omap. split.
  - intros (e & He & Hm). destruct (f e) as [r|] eqn:Hf; [|done]. cbn in Hm. simplify_eq. by exists e.
  - intros (e & He & Hf & Hid). exists e. split; [done|]. rewrite Hf. cbn. destruct m. cbn in *. by subst.
Qed.
Lemma measurements_distinct f L : NoDup (entry_id <$> L) → NoDup (mi_identity <$> measurements f L).
Proof.
  intros Hnd. induction L as [|e L IH]; [constructor|]. cbn in *. apply NoDup_cons in Hnd as [He Hnd].
  destruct (f e) as [r|]; cbn; [|by apply IH]. apply NoDup_cons. split; [|by apply IH].
  intros (m & Hid & (e' & He' & _ & Hid')%elem_of_measurements)%list_elem_of_fmap. destruct He.
  apply list_elem_of_fmap. exists e'. split; [congruence|done].
Qed.

Lemma annotated_items L :
  annotate_ready_items L.*1 =
  (λ e, with_result ((λ r, figure_in (streamed_pairs L) {| mi_result := r; mi_identity := entry_id e |}) <$> it_result e.1) e.1) <$> L.
Proof. rewrite annotate_ready_spec, <- list_fmap_compose. done. Qed.

Lemma measured_of_fmap (g : classified → ImportAnalysisItem) L :
  (∀ e, it_detected (g e) = it_detected e.1) → measured_of (g <$> L) = measurements (λ e, it_result (g e)) L.
Proof.
  intros Hg. induction L as [|e L IH]; [done|]. cbn. rewrite Hg.
  destruct (it_result (g e)); cbn; [f_equal|]; exact IH.
Qed.

(** What the response measured and what landed are the current results. *)
Lemma streamed_document L drained :
  Forall well_classified L → drained.*1 ≡ₚ omap snd L → Forall (λ s, s.2 = (true, true)) drained →
  measured_of (annotate_ready_items L.*1) ++ landed build drained ≡ₚ measurements (current_of L) L ∧
  landed build drained ≡ₚ measurements (λ e, build <$> e.2) L.
Proof.
  intros Hwf Hperm Hall.
  assert (landed build drained = (λ p, {| mi_result := build p; mi_identity := identity_of (pi_detected p) |}) <$> drained.*1) as ->.
  { clear Hperm. unfold landed. induction Hall as [|[p [a b]] drained Hs Hall IH]; [done|]. cbn in Hs. simplify_eq. cbn. by rewrite IH. }
  rewrite Hperm. rewrite annotated_items, measured_of_fmap by done.
  change (λ e, it_result (with_result _ e.1)) with (λ e, (λ r, figure_in (streamed_pairs L) {| mi_result := r; mi_identity := entry_id e |}) <$> it_result e.1).
  unfold current_of. generalize (figure_in (streamed_pairs L)). intros f. clear Hperm Hall drained.
  induction Hwf as [|[it [p|]] L Hw Hwf [IH1 IH2]]; [done|..].
  - destruct Hw as [Hn Hd]. cbn in Hn, Hd. assert (entry_id (it, Some p) = identity_of (pi_detected p)) as He by (unfold entry_id; cbn; by rewrite Hd).
    cbn. rewrite Hn. cbn. rewrite He. split.
    + etrans; [symmetry; apply Permutation_middle|]. constructor. exact IH1.
    + constructor. exact IH2.
  - cbn. destruct (it_result it); cbn; [|done]. split; [constructor; exact IH1|exact IH2].
Qed.

Lemma shapes_agree L :
  shape <$> (measured_pair <$> measurements (current_of L) L) = shape <$> (measured_pair <$> measurements full L).
Proof.
  unfold current_of, full. generalize (streamed_pairs L). intros pairs.
  induction L as [|[it [p|]] L IH]; [done|..]; cbn; [by f_equal|]. destruct (it_result it); cbn; [|done]. f_equal. apply IH.
Qed.

Lemma perm_distinct (l l' : list MeasuredImport) :
  l ≡ₚ l' → NoDup (mi_identity <$> l') → NoDup (mi_identity <$> l).
Proof. intros H. by rewrite H. Qed.

(** The singles put what landed in its place; the rest stays as answered. *)
Lemma shown_after_singles L drained :
  Forall well_classified L → NoDup (entry_id <$> L) → drained.*1 ≡ₚ omap snd L →
  Forall (λ s, s.2 = (true, true)) drained →
  foldl apply_push (shows <$> annotate_ready_items L.*1)
    ((λ m, [(mi_result m, mi_identity m)]) <$> landed build drained) =
  (λ e, (entry_id e, current_of L e)) <$> L.
Proof.
  intros Hwf Hnd Hperm Hall. destruct (streamed_document L drained Hwf Hperm Hall) as [_ Hl].
  pose proof (measurements_distinct (λ e, build <$> e.2) L Hnd) as Hd.
  rewrite apply_singles by by eapply perm_distinct.
  rewrite annotated_items, <- !list_fmap_compose. apply list_fmap_ext. intros i e Hi.
  apply list_elem_of_lookup_2 in Hi. cbn. change (identity_of (it_detected e.1)) with (entry_id e). f_equal.
  assert (NoDup ((λ m, (mi_result m, mi_identity m)) <$> landed build drained).*2) as Hnd2.
  { rewrite <- list_fmap_compose. by eapply perm_distinct. }
  unfold current_of. destruct e.2 as [p|] eqn:Hp.
  - rewrite (pushed_Some _ _ (build p)); [done|done|]. apply list_elem_of_fmap.
    exists {| mi_result := build p; mi_identity := entry_id e |}. split; [done|]. rewrite Hl.
    apply elem_of_measurements. exists e. by rewrite Hp.
  - rewrite pushed_None; [done|]. rewrite <- list_fmap_compose. cbn.
    intros (m & Hid & Hm)%list_elem_of_fmap. rewrite Hl in Hm.
    apply elem_of_measurements in Hm as (e' & He' & Hb & Hid'). cbn in Hid.
    assert (e' = e) as ->; [|by rewrite Hp in Hb].
    apply list_elem_of_lookup_1 in He' as [j Hj]. apply list_elem_of_lookup_1 in Hi as [k Hk].
    assert (j = k) as ->; [|congruence].
    eapply (NoDup_lookup _ _ _ (entry_id e) Hnd); rewrite list_lookup_fmap, ?Hj, ?Hk; cbn; congruence.
Qed.

Lemma streamed_converges L drained :
  Forall well_classified L → NoDup (entry_id <$> L) → drained.*1 ≡ₚ omap snd L →
  Forall (λ s, s.2 = (true, true)) drained →
  Forall2 shows_same
    (foldl apply_push (shows <$> annotate_ready_items L.*1)
       (complete_pending_imports build (measured_of (annotate_ready_items L.*1)) drained true))
    (shows <$> annotate_ready_items ((λ e, with_result (full e) e.1) <$> L)).
Proof.
  intros Hwf Hnd Hperm Hall. unfold complete_pending_imports. rewrite foldl_app, shown_after_singles by done.
  destruct (streamed_document L drained Hwf Hperm Hall) as [HD _]. set (D := measured_of _ ++ landed build drained) in *.
  assert (∀ shown, foldl apply_push shown match shared_bytes_corrections D with [] => [] | c => [c] end =
    apply_push shown (shared_bytes_corrections D)) as ->.
  { intros shown. destruct (shared_bytes_corrections D) as [|c cs]; [|done]. cbn. unfold apply_push. symmetry.
    erewrite list_fmap_ext; [by rewrite list_fmap_id|]. by intros i [id r]. }
  rewrite annotate_ready_spec, measured_of_fmap by done. unfold apply_push. rewrite <- !list_fmap_compose.
  apply Forall2_fmap, Forall_Forall2_diag, Forall_forall. intros e He. cbn [compose fst snd shows].
  change (measurements (λ e, it_result (with_result (full e) e.1)) L) with (measurements full L).
  split; [done|]. cbn [fst snd]. change (identity_of (it_detected (with_result (full e) e.1))) with (entry_id e).
  assert (NoDup (mi_identity <$> D)) as HndD by (eapply perm_distinct; [exact HD|by apply measurements_distinct]).
  assert (∀ r, full e = Some r → ∃ r1, current_of L e = Some r1 ∧ shape (d_runtime (it_detected e.1), r1) =
    shape (d_runtime (it_detected e.1), r) ∧ ∀ n, set_shared n r1 = set_shared n r) as Hcur.
  { intros r Hr. unfold full in Hr. unfold current_of. destruct e.2; [simplify_eq; by eexists|]. rewrite Hr. by eexists. }
  cbn [with_result it_result it_detected]. destruct (full e) as [r|] eqn:Hf; cbn [fmap option_fmap option_map].
  - destruct (Hcur r eq_refl) as (r1 & Hr1 & Hsh & Hset). rewrite Hr1.
    assert ({| mi_result := r1; mi_identity := entry_id e |} ∈ D) as Hin.
    { rewrite HD. apply elem_of_measurements. by exists e. }
    pose proof (corrections_complete D (entry_id e) r1 HndD Hin) as Hsame.
    assert (figure_in (measured_pair <$> D) {| mi_result := r1; mi_identity := entry_id e |} =
            figure_in (measured_pair <$> measurements full L) {| mi_result := r; mi_identity := entry_id e |}) as <-.
    { unfold figure_in. cbn [mi_result]. rewrite Hset. f_equal. apply shared_spec_shapes; [|exact Hsh].
      rewrite <- shapes_agree. by rewrite HD. }
    by destruct (pushed (entry_id e) (shared_bytes_corrections D)).
  - assert (current_of L e = None) as ->.
    { unfold full in Hf. unfold current_of. destruct e.2; [done|]. by rewrite Hf. }
    rewrite pushed_None; [done|]. rewrite corrections_spec. intros ([r' id] & Hid & Hc)%list_elem_of_fmap.
    cbn in Hid. subst id. apply list_elem_of_omap in Hc as (m & Hm & Hc). case_decide; [done|]. simplify_eq.
    rewrite HD in Hm. apply elem_of_measurements in Hm as (e' & He' & Hb & Hid').
    assert (e' = e) as ->.
    { apply list_elem_of_lookup_1 in He' as [j Hj]. apply list_elem_of_lookup_1 in He as [k Hk].
      assert (j = k) as ->; [|congruence].
      eapply (NoDup_lookup _ _ _ (entry_id e) Hnd); rewrite list_lookup_fmap, ?Hj, ?Hk; cbn; congruence. }
    unfold full in Hf. unfold current_of in Hb. destruct e.2; [done|]. by rewrite Hf in Hb.
Qed.
End converge.
