(* ===== verification/Handlers.v ===== *)
(** * Document requests (service.rs)

    The handlers of the document requests: the blocking and the streamed
    analysis, the analysis of a list of specifiers, a file's size and the
    revalidation behind a size served stale. *)
From stdpp Require Import base gmap list strings pretty.
From S2P Require Import Prelude Stages Results Json Fingerprints CacheKeys CachedImports SharedBytes FileSize BoundedMap FileSizeCache ProjectRegistry Paths Manifests BundlerAliases Resolver Aliases Analyze Text Positions Specifiers ScriptRegions DetectedImports IgnoreRules Documents.

Set Default Proof Using "Type*".

Definition PROTOCOL_VERSION : N := 8.
Definition is_supported_protocol_version (version : N) : bool := (1 <=? version)%N && (version <=? PROTOCOL_VERSION)%N.

Record AnalyzeDocumentRequest := {
  ad_version : N;
  ad_request_id : N;
  ad_workspace_root : string;
  ad_active_document_path : string;
  ad_source : string;
}.
Record AnalyzeDocumentResponse := {
  ar_version : N;
  ar_request_id : N;
  ar_imports : list ImportAnalysisItem;
  ar_error : option string;
  ar_diagnostics : list ImportDiagnostic;
}.
Record StreamedDocumentAnalysis := {
  sd_response : AnalyzeDocumentResponse;
  sd_measured : list MeasuredImport;
  sd_pending : list PendingImport;
}.
Definition settled (r : AnalyzeDocumentResponse) : StreamedDocumentAnalysis :=
  {| sd_response := r; sd_measured := []; sd_pending := [] |}.

Record AnalyzeSpecifiersRequest := {
  as_version : N;
  as_request_id : N;
  as_workspace_root : string;
  as_active_document_path : string;
  as_specifiers : list string;
}.

Record FileSizeDocumentRequest := {
  fr_version : N;
  fr_request_id : N;
  fr_workspace_root : string;
  fr_active_document_path : string;
  fr_source : string;
  fr_force_fresh : bool;
  fr_analysis_generation : option N;
}.
Record FileSizeDocumentResponse := {
  fd_version : N;
  fd_request_id : N;
  fd_sizes : MeasuredSizes;
  fd_imports : list ImportResult;
  fd_states : list ImportAnalysisItem;
  fd_asset_breakdown : list AssetContribution;
  fd_incomplete : bool;
  fd_degraded : bool;
  fd_error : option string;
  fd_diagnostics : list ImportDiagnostic;
}.

Definition for_stage (stage message : string) : ImportDiagnostic :=
  {| d_stage := stage; d_message := message; d_details := [] |}.
Definition unsupported (version : N) : string := "unsupported protocol version " +:+ pretty version.

Definition protocol_error_analyze_document_response (request : AnalyzeDocumentRequest) (message : string) :
    AnalyzeDocumentResponse :=
  {| ar_version := N.min (ad_version request) PROTOCOL_VERSION; ar_request_id := ad_request_id request;
     ar_imports := []; ar_error := Some message; ar_diagnostics := [for_stage "protocol" message] |}.
Definition protocol_error_file_size_document_response (request : FileSizeDocumentRequest) (message : string) :
    FileSizeDocumentResponse :=
  {| fd_version := N.min (fr_version request) PROTOCOL_VERSION; fd_request_id := fr_request_id request;
     fd_sizes := ZERO; fd_imports := []; fd_states := []; fd_asset_breakdown := []; fd_incomplete := false;
     fd_degraded := false; fd_error := Some message; fd_diagnostics := [for_stage "protocol" message] |}.

(** What one import of a revalidation comes to: the loop ends, goes on, or has a
    recomputed result to push. *)
Inductive Revalidated := Stop | Skip | Recomputed (r : ImportResult).

Section handlers.
Context `{FL : Files, ML : ManifestLibraries, OX : Oxc, CP : ConfigParser, CD : IdentityCodec, DISK : FileSystem,
          CH : ContentHash, SC : ShardCache}.
Context (parse : ScriptRegion → Parsed) (wide_alphanumeric : list ascii → bool) (windows : bool)
        (CARGO_PKG_VERSION : string)
        (analyze_unresolved_import : AnalysisContext → ImportRequest → string → ImportResult).
(** The ignore rules remembered so far. *)
Context (by_directory : option (gmap string ImportLensIgnore)).

Local Notation context_of root path := {| workspace_root := root; active_document_path := path |}.
Local Notation detect path source memo := (detected_imports_for_document parse wide_alphanumeric path source true memo).
Local Notation cached := (cached_analysis_items_for_detected windows CARGO_PKG_VERSION analyze_unresolved_import).
Local Notation blocking := (analysis_items_for_detected windows CARGO_PKG_VERSION analyze_unresolved_import).

(** ** Analysis *)

(** [None] is a panic of the detection. *)
Definition handle_analyze_document_streaming (request : AnalyzeDocumentRequest) (found : nat → shard) :
    option StreamedDocumentAnalysis :=
  if negb (is_supported_protocol_version (ad_version request)) then
    Some (settled (protocol_error_analyze_document_response request (unsupported (ad_version request))))
  else
    match detect (ad_active_document_path request) (ad_source request) by_directory with
    | Panic => None
    | Failed error =>
        Some (settled {| ar_version := ad_version request; ar_request_id := ad_request_id request; ar_imports := [];
                         ar_error := Some error; ar_diagnostics := [for_stage "document_parse" error] |})
    | Imports detected =>
        let answer := cached (context_of (ad_workspace_root request) (ad_active_document_path request))
                        false Interactive found detected in
        Some {| sd_response := {| ar_version := ad_version request; ar_request_id := ad_request_id request;
                                  ar_imports := ca_items answer; ar_error := None; ar_diagnostics := [] |};
                sd_measured := measured_of (ca_items answer);
                sd_pending := ca_pending answer |}
    end.

Definition handle_analyze_document_with_intent (request : AnalyzeDocumentRequest) (intent : ReadIntent)
    (build : PendingImport → ImportResult) (found : nat → shard) : option AnalyzeDocumentResponse :=
  if negb (is_supported_protocol_version (ad_version request)) then
    Some {| ar_version := N.min (ad_version request) PROTOCOL_VERSION; ar_request_id := ad_request_id request;
            ar_imports := []; ar_error := Some (unsupported (ad_version request));
            ar_diagnostics := [for_stage "protocol" "unsupported protocol version"] |}
  else
    match detect (ad_active_document_path request) (ad_source request) by_directory with
    | Panic => None
    | Failed error =>
        Some {| ar_version := ad_version request; ar_request_id := ad_request_id request; ar_imports := [];
                ar_error := Some error; ar_diagnostics := [for_stage "document_parse" error] |}
    | Imports detected =>
        Some {| ar_version := ad_version request; ar_request_id := ad_request_id request;
                ar_imports := blocking (context_of (ad_workspace_root request) (ad_active_document_path request))
                                false intent build found detected;
                ar_error := None; ar_diagnostics := [] |}
    end.

Definition handle_analyze_specifiers (request : AnalyzeSpecifiersRequest) (build : PendingImport → ImportResult)
    (found : nat → shard) : AnalyzeDocumentResponse :=
  if negb (is_supported_protocol_version (as_version request)) then
    {| ar_version := N.min (as_version request) PROTOCOL_VERSION; ar_request_id := as_request_id request;
       ar_imports := []; ar_error := Some (unsupported (as_version request));
       ar_diagnostics := [for_stage "protocol" "unsupported protocol version"] |}
  else
    {| ar_version := as_version request; ar_request_id := as_request_id request;
       ar_imports := blocking (context_of (as_workspace_root request) (as_active_document_path request))
                       false Interactive build found
                       (detected_import_for_specifier <$> filter (λ s, is_runtime_package_specifier s = true) (as_specifiers request));
       ar_error := None; ar_diagnostics := [] |}.

(** ** A file's size *)

(** The total of [FileSize.compute_file_size] at the daemon's engine, and the
    signature of [FileSizeCache.file_size_signature] at its hasher. *)
Context {MO : MapOrder string}
        (compute_file_size : AnalysisContext → list SizedImport → FileSizeComputation)
        (file_size_signature : AnalysisContext → list SizedImport → N).

Definition file_size_with_cache (now now' : N) (context : AnalysisContext) (path : string) (imports : list SizedImport)
    (totals : gmap string CachedFileSize) : FileSizeComputation * gmap string CachedFileSize :=
  let sig := file_size_signature context imports in
  let '(hit, totals) := get_total now path sig totals in
  match hit with
  | Some total => (total, totals)
  | None => let computed := compute_file_size context imports in (computed, insert_total now' path sig computed totals)
  end.

Definition sized_import (context : AnalysisContext) (state : ImportAnalysisItem) : SizedImport :=
  match it_request state with
  | Some request => installed request (it_result state)
  | None =>
      if resolves_to_first_party_source (workspace_root context) (active_document_path context)
           (d_specifier (it_detected state))
      then path_alias (d_specifier (it_detected state)) else not_installed (d_specifier (it_detected state))
  end.

Definition file_size_document_response (now now' : N) (request : FileSizeDocumentRequest) (context : AnalysisContext)
    (states : list ImportAnalysisItem) (totals : gmap string CachedFileSize) :
    FileSizeDocumentResponse * gmap string CachedFileSize :=
  let '(total, totals) :=
    file_size_with_cache now now' context (fr_active_document_path request) (sized_import context <$> states) totals in
  ({| fd_version := fr_version request; fd_request_id := fr_request_id request; fd_sizes := f_sizes total;
      fd_imports := omap it_result states; fd_states := states; fd_asset_breakdown := f_breakdown total;
      fd_incomplete := incomplete total; fd_degraded := degraded total; fd_error := f_error total;
      fd_diagnostics := f_diagnostics total |}, totals).

(** [file_size_document_prelude]; [None] is a panic. *)
Definition file_size_document_prelude (request : FileSizeDocumentRequest) :
    option (AnalysisContext * list DetectedImport + FileSizeDocumentResponse) :=
  if negb ((2 <=? fr_version request)%N && (fr_version request <=? PROTOCOL_VERSION)%N) then
    Some (inr (protocol_error_file_size_document_response request (unsupported (fr_version request))))
  else
    match detect (fr_active_document_path request) (fr_source request) (Some ∅) with
    | Panic => None
    | Failed error =>
        Some (inr {| fd_version := fr_version request; fd_request_id := fr_request_id request; fd_sizes := ZERO;
                     fd_imports := []; fd_states := []; fd_asset_breakdown := []; fd_incomplete := false;
                     fd_degraded := false; fd_error := Some error;
                     fd_diagnostics := [for_stage "document_parse" error] |})
    | Imports detected => Some (inl (context_of (fr_workspace_root request) (fr_active_document_path request), detected))
    end.

Definition handle_file_size_document (now now' : N) (request : FileSizeDocumentRequest)
    (build : PendingImport → ImportResult) (found : nat → shard) (totals : gmap string CachedFileSize) :
    option (FileSizeDocumentResponse * gmap string CachedFileSize) :=
  match file_size_document_prelude request with
  | None => None
  | Some (inr response) => Some (response, totals)
  | Some (inl (context, detected)) =>
      Some (file_size_document_response now now' request context
              (blocking context (negb (fr_force_fresh request)) Interactive build found detected) totals)
  end.

Definition handle_file_size_document_streaming (now now' : N) (request : FileSizeDocumentRequest)
    (build : PendingImport → ImportResult) (found : nat → shard) (totals : gmap string CachedFileSize) :
    option (FileSizeDocumentResponse * gmap string CachedFileSize) :=
  if fr_force_fresh request then handle_file_size_document now now' request build found totals
  else
    match file_size_document_prelude request with
    | None => None
    | Some (inr response) => Some (response, totals)
    | Some (inl (context, detected)) =>
        Some (file_size_document_response now now' request context
                (ca_items (cached context true Interactive found detected)) totals)
    end.

(** ** Revalidation *)

(** One turn of the loop of [revalidate_document_sizes]. [before] and [after]
    are what [should_continue] says at its two checks; [flight n] and
    [elsewhere n] are the [n]-th build of the turn and what other threads do to
    the shard while it runs. The claim goes when the turn ends, however it does. *)
Definition revalidate_import (context : AnalysisContext) (generation : option N) (before after : bool)
    (flight : nat → string → N → ComputedAnalysis) (elsewhere : nat → shard → shard) (d : DetectedImport)
    (cache : shard) : Revalidated * shard :=
  if negb before then (Stop, cache)
  else
    match import_request_for_detected (active_document_path context) d with
    | inr _ => (Skip, cache)
    | inl import_request =>
        match resolve_package_entry (active_document_path context) import_request with
        | inr _ => (Skip, cache)
        | inl resolved =>
            let key := cache_key windows CARGO_PKG_VERSION import_request resolved in
            let freshness := probe_freshness key cache in
            if bool_decide (freshness = Some Unknown) then (Skip, cache)
            else
              let claim_key :=
                revalidation_claim_key key (workspace_root context) (active_document_path context) generation in
              let '(claimed, cache) := begin_revalidation claim_key cache in
              if negb claimed then (Skip, cache)
              else
                let '(healed, cache) :=
                  if bool_decide (freshness = Some Fresh) then get_if_fresh_and_promote key cache else (None, cache) in
                let '(result, cache) :=
                  match healed with
                  | Some result => (result, cache)
                  | None => analyze_and_cache (flight 0) true key cache (elsewhere 0 cache)
                  end in
                let '(result, cache) :=
                  if should_rearm_revalidation (probe_freshness key cache)
                  then analyze_and_cache (flight 1) true key cache (elsewhere 1 cache) else (result, cache) in
                (if negb after then Stop else if negb (should_cache_result result) then Skip else Recomputed result,
                 finish_revalidation claim_key cache)
        end
    end.

Fixpoint revalidate_imports (context : AnalysisContext) (generation : option N) (stale_specifiers : list string)
    (should_continue : nat → bool * bool) (flight : nat → nat → string → N → ComputedAnalysis)
    (elsewhere : nat → nat → shard → shard) (index : nat) (detected : list DetectedImport) (cache : shard) :
    list MeasuredImport * shard :=
  match detected with
  | [] => ([], cache)
  | d :: detected =>
      let rest := revalidate_imports context generation stale_specifiers should_continue flight elsewhere (S index) detected in
      if negb (bool_decide (d_specifier d ∈ stale_specifiers)) then rest cache
      else
        let '(before, after) := should_continue index in
        match revalidate_import context generation before after (flight index) (elsewhere index) d cache with
        | (Stop, cache) => ([], cache)
        | (Skip, cache) => rest cache
        | (Recomputed r, cache) =>
            let '(fresh, cache) := rest cache in
            ({| mi_result := r; mi_identity := identity_of d |} :: fresh, cache)
        end
  end.

(** [revalidate_document_sizes]; [found] are the shards the closing lookups of
    the document find. The outer [None] is a panic. *)
Definition revalidate_document_sizes (request : FileSizeDocumentRequest) (stale_specifiers : list string)
    (first : bool) (should_continue : nat → bool * bool) (flight : nat → nat → string → N → ComputedAnalysis)
    (elsewhere : nat → nat → shard → shard) (found : nat → shard) (cache : shard) :
    option (option (list (ImportResult * RefreshedImportIdentity)) * shard) :=
  if bool_decide (stale_specifiers = []) || negb first then Some (None, cache)
  else
    match detect (fr_active_document_path request) (fr_source request) (Some ∅) with
    | Panic => None
    | Failed _ => Some (None, cache)
    | Imports detected =>
        let context := context_of (fr_workspace_root request) (fr_active_document_path request) in
        let '(fresh, cache) :=
          revalidate_imports context (fr_analysis_generation request) stale_specifiers should_continue flight elsewhere
            0 detected cache in
        if bool_decide (fresh = []) then Some (None, cache)
        else
          let document := measured_of (ca_items (cached context true Bulk found detected)) in
          Some (Some (revalidated_with_shared_bytes document (mi_result <$> fresh) (mi_identity <$> fresh)), cache)
    end.

(** ** Streaming converges to blocking *)

Lemma classified_well context serve_stale intent s d :
  well_classified (classify_cached windows CARGO_PKG_VERSION analyze_unresolved_import context serve_stale intent s d) ∧
  it_detected (classify_cached windows CARGO_PKG_VERSION analyze_unresolved_import context serve_stale intent s d).1 = d.
Proof.
  unfold classify_cached, well_classified. destruct (import_request_for_detected _ _); [|done].
  by destruct (probe_cache _ _ _ _ _ _ _).1.
Qed.
Lemma classified_agree build context serve_stale intent s d :
  let e := classify_cached windows CARGO_PKG_VERSION analyze_unresolved_import context serve_stale intent s d in
  let it := classify_blocking windows CARGO_PKG_VERSION analyze_unresolved_import context serve_stale intent build s d in
  it_detected it = it_detected (with_result (full build e) e.1) ∧ it_result it = it_result (with_result (full build e) e.1).
Proof.
  cbn zeta. unfold classify_cached, classify_blocking, full. destruct (import_request_for_detected _ _); [|done].
  by destruct (probe_cache _ _ _ _ _ _ _).1.
Qed.
End handlers.

(** What is annotated of an item is what is shown of it. *)
Lemma measured_of_shows items :
  measured_of items = omap (λ e : RefreshedImportIdentity * option ImportResult,
    r ← e.2; Some {| mi_result := r; mi_identity := e.1 |}) (shows <$> items).
Proof. induction items as [|it items IH]; [done|]. cbn. destruct (it_result it); cbn; [f_equal|]; exact IH. Qed.
Definition shown_in (pairs : list (ImportRuntime * ImportResult)) (e : RefreshedImportIdentity * option ImportResult) :
    RefreshedImportIdentity * option ImportResult :=
  (e.1, (λ r, figure_in pairs {| mi_result := r; mi_identity := e.1 |}) <$> e.2).
Lemma annotate_shows items :
  shows <$> annotate_ready_items items = shown_in (measured_pair <$> measured_of items) <$> (shows <$> items).
Proof. rewrite annotate_ready_spec, <- !list_fmap_compose. done. Qed.

Section converge.
Context `{FL : Files, ML : ManifestLibraries, OX : Oxc, CP : ConfigParser, CD : IdentityCodec, DISK : FileSystem,
          CH : ContentHash, SC : ShardCache}.
Context (parse : ScriptRegion → Parsed) (wide_alphanumeric : list ascii → bool) (windows : bool)
        (CARGO_PKG_VERSION : string)
        (analyze_unresolved_import : AnalysisContext → ImportRequest → string → ImportResult)
        (by_directory : option (gmap string ImportLensIgnore)).

(** C18. Where no two imports of the document are of one specifier, kind and names
    (a push is matched by those, so it could not tell them apart), a client that shows a streamed analysis and applies the pushes that
    complete it, in whatever order the builds drain, ends up showing what the
    blocking analysis of the same document would have: the same imports, each
    with the same result and the same shared figure. *)
Theorem streaming_converges_to_blocking request build found drained streamed answer :
  handle_analyze_document_streaming parse wide_alphanumeric windows CARGO_PKG_VERSION analyze_unresolved_import
    by_directory request found = Some streamed →
  handle_analyze_document_with_intent parse wide_alphanumeric windows CARGO_PKG_VERSION analyze_unresolved_import
    by_directory request Interactive build found = Some answer →
  NoDup (identity_of ∘ it_detected <$> ar_imports (sd_response streamed)) →
  drained.*1 ≡ₚ sd_pending streamed → Forall (λ s, s.2 = (true, true)) drained →
  ar_error (sd_response streamed) = ar_error answer ∧
  Forall2 shows_same
    (foldl apply_push (shows <$> ar_imports (sd_response streamed))
       (complete_pending_imports build (sd_measured streamed) drained true))
    (shows <$> ar_imports answer).
Proof.
  unfold handle_analyze_document_streaming, handle_analyze_document_with_intent.
  destruct (negb _).
  { intros [= <-] [= <-] _ Hp _. cbn in *. apply Permutation_nil_r in Hp. by destruct drained. }
  destruct (detected_imports_for_document _ _ _ _ _ _) as [|e|detected]; [done|..].
  { intros [= <-] [= <-] _ Hp _. cbn in *. apply Permutation_nil_r in Hp. by destruct drained. }
  intros [= <-] [= <-]. cbn. set (context := {| workspace_root := _ |}). intros Hnd Hp Hall. split; [done|].
  set (L := imap (λ i d, classify_cached windows CARGO_PKG_VERSION analyze_unresolved_import context false Interactive (found i) d) detected) in *.
  assert (Forall well_classified L) as Hwf.
  { apply Forall_lookup. intros i e Hi. apply list_lookup_imap_Some in Hi as (d & _ & ->). apply classified_well. }
  assert (shows <$> annotate_ready_items (imap (λ i d, classify_blocking windows CARGO_PKG_VERSION
      analyze_unresolved_import context false Interactive build (found i) d) detected) =
    shows <$> annotate_ready_items ((λ e, with_result (full build e) e.1) <$> L)) as Hb.
  { assert (∀ l l', shows <$> l = shows <$> l' → shows <$> annotate_ready_items l = shows <$> annotate_ready_items l') as Hext.
    { intros l l' H. by rewrite !annotate_shows, !measured_of_shows, H. }
    apply Hext. apply list_eq. intros i. unfold L. rewrite !list_lookup_fmap, !list_lookup_imap.
    destruct (detected !! i) as [d|]; [|done]. cbn [fmap option_fmap option_map]. f_equal. unfold shows.
    destruct (classified_agree windows CARGO_PKG_VERSION analyze_unresolved_import build context false Interactive (found i) d) as [-> ->].
    done. }
  unfold analysis_items_for_detected. rewrite Hb. apply streamed_converges; try done.
  rewrite annotate_ready_spec, <- !list_fmap_compose in Hnd. exact Hnd.
Qed.
End converge.

(** ** What a revalidation pushes *)

(** The siblings whose figure moved, then every recomputed import. *)
Definition moved (pairs : list (ImportRuntime * ImportResult)) (m : MeasuredImport) : option (ImportResult * RefreshedImportIdentity) :=
  if decide (shared_figure (mi_result m) = shared_figure (figure_in pairs m)) then None
  else Some (figure_in pairs m, mi_identity m).
Definition siblings_of (fresh : list MeasuredImport) (document : list MeasuredImport) : list MeasuredImport :=
  filter (λ m, mi_identity m ∉ mi_identity <$> fresh) document.
Definition whole_pairs (fresh document : list MeasuredImport) : list (ImportRuntime * ImportResult) :=
  measured_pair <$> siblings_of fresh document ++ fresh.

Lemma zip_measured (fresh : list MeasuredImport) :
  zip_with (λ r i, {| mi_result := r; mi_identity := i |}) (mi_result <$> fresh) (mi_identity <$> fresh) = fresh.
Proof. induction fresh as [|[r i] fresh IH]; [done|]. cbn. by rewrite IH. Qed.

Lemma imap_below {A B} (f : nat → A → option B) (g : A → option B) l n :
  (∀ i a, i < n → f i a = g a) → length l ≤ n → omap id (imap f l) = omap g l.
Proof.
  intros Hf. revert f n Hf. induction l as [|a l IH]; intros f n Hf Hn; [done|]. cbn in *.
  rewrite (Hf 0 a) by lia. rewrite (IH (f ∘ S) (pred n)); [done|intros; apply Hf; lia|lia].
Qed.
Lemma imap_all {A B} (f : nat → A → option B) (g : A → B) l :
  (∀ i a, f i a = Some (g a)) → omap id (imap f l) = g <$> l.
Proof.
  intros Hf. revert f Hf. induction l as [|a l IH]; intros f Hf; [done|]. cbn. rewrite Hf. cbn. f_equal.
  apply IH. intros; apply Hf.
Qed.

Lemma revalidated_spec document fresh :
  revalidated_with_shared_bytes document (mi_result <$> fresh) (mi_identity <$> fresh) =
  omap (moved (whole_pairs fresh document)) (siblings_of fresh document) ++
  ((λ m, (figure_in (whole_pairs fresh document) m, mi_identity m)) <$> fresh).
Proof.
  unfold revalidated_with_shared_bytes. rewrite zip_measured. fold (siblings_of fresh document).
  rewrite zip_annotated. fold (whole_pairs fresh document). set (pairs := whole_pairs fresh document).
  set (siblings := siblings_of fresh document). rewrite fmap_app, imap_app, omap_app. f_equal.
  - rewrite (imap_below _ (λ '(import, result), if decide (shared_figure (mi_result import) = shared_figure result)
      then None else Some (result, mi_identity import)) _ (length siblings)).
    + generalize siblings. intros l. induction l as [|m l IH]; [done|]. cbn. unfold moved at 1. by rewrite IH.
    + intros i [import result] Hi. rewrite bool_decide_eq_false_2 by lia. cbn.
      case_decide; [by rewrite bool_decide_eq_true_2|by rewrite bool_decide_eq_false_2].
    + by rewrite length_fmap.
  - rewrite (imap_all _ (λ '(import, result), (result, mi_identity import))).
    + rewrite <- list_fmap_compose. done.
    + intros i [import result]. cbn. by rewrite bool_decide_eq_true_2 by (rewrite length_fmap; lia).
Qed.

(** *** The claims of a shard *)

(** A claim is taken once, and moved by nothing but claims. *)
Class ClaimLaws `{SC : ShardCache} := {
  claims : shard → gset string;
  claim_begun k s : (begin_revalidation k s).1 = bool_decide (k ∉ claims s) ∧
                    claims (begin_revalidation k s).2 = {[k]} ∪ claims s;
  claim_finished k s : claims (finish_revalidation k s) = claims s ∖ {[k]};
  read_keeps_claims k s : claims (get_if_fresh_and_promote k s).2 = claims s;
  insert_keeps_claims k r fps g s : claims (insert_with_fingerprints_at_generation k r fps g s) = claims s;
}.

Section revalidation.
Context `{FL : Files, ML : ManifestLibraries, OX : Oxc, CP : ConfigParser, CD : IdentityCodec, DISK : FileSystem,
          CH : ContentHash, SC : ShardCache, CL : !ClaimLaws}.
Context (windows : bool) (CARGO_PKG_VERSION : string).

Lemma analyze_and_cache_claims flight store key cache later :
  claims (analyze_and_cache flight store key cache later).2 = claims later.
Proof. unfold analyze_and_cache. cbn. case_match; [apply insert_keeps_claims|done]. Qed.

(** A turn returns the claim it took, and no other is touched; what it pushes is
    durable. *)
Lemma revalidate_import_spec context generation before after flight elsewhere d cache out cache' k :
  (∀ n s, k ∈ claims (elsewhere n s) ↔ k ∈ claims s) →
  revalidate_import windows CARGO_PKG_VERSION context generation before after flight elsewhere d cache = (out, cache') →
  (k ∈ claims cache' ↔ k ∈ claims cache) ∧ (∀ r, out = Recomputed r → is_durable r = true ∧ before = true ∧ after = true).
Proof.
  intros Helse. unfold revalidate_import.
  destruct before; cbn [negb]; [|by intros [= <- <-]].
  destruct (import_request_for_detected _ _) as [rq|]; [|by intros [= <- <-]].
  destruct (resolve_package_entry _ _) as [resolved|]; [|by intros [= <- <-]].
  set (key := cache_key _ _ _ _). case_bool_decide; [by intros [= <- <-]|].
  set (ck := revalidation_claim_key _ _ _ _). destruct (claim_begun ck cache) as [Hb Hc].
  destruct (begin_revalidation ck cache) as [claimed c1]. cbn [fst snd] in Hb, Hc. subst claimed.
  case_bool_decide as Hfree; cbn [negb].
  2:{ intros [= <- <-]. split; [rewrite Hc; set_solver|done]. }
  set (healed := if bool_decide _ then _ else _).
  assert (claims healed.2 = claims c1) as Hh by (unfold healed; case_bool_decide; [apply read_keeps_claims|done]).
  destruct healed as [h c2]. cbn [snd] in Hh. set (first := match h with Some _ => _ | None => _ end).
  assert (k ∈ claims first.2 ↔ k ∈ claims c2) as Hf.
  { unfold first. destruct h; [done|]. rewrite analyze_and_cache_claims. apply Helse. }
  destruct first as [r1 c3]. cbn [snd] in Hf. set (second := if should_rearm_revalidation _ then _ else _).
  assert (k ∈ claims second.2 ↔ k ∈ claims c3) as Hs.
  { unfold second. case_match; [|done]. rewrite analyze_and_cache_claims. apply Helse. }
  destruct second as [r2 c4]. cbn [snd] in Hs. intros [= <- <-]. split.
  - rewrite claim_finished, elem_of_difference, Hs, Hf, Hh, Hc, elem_of_union, elem_of_singleton.
    split; [by intros [[?|?] ?]|]. intros Hin. split; [by right|]. by intros ->.
  - intros r Hr. destruct after; [|done]. unfold should_cache_result in Hr. destruct (is_durable r2) eqn:Hd; [|done].
    cbn in Hr. by simplify_eq.
Qed.

Lemma revalidate_imports_spec context generation stale continue flight elsewhere index detected cache fresh cache' k :
  (∀ i n s, k ∈ claims (elsewhere i n s) ↔ k ∈ claims s) →
  revalidate_imports windows CARGO_PKG_VERSION context generation stale continue flight elsewhere index detected cache
    = (fresh, cache') →
  (k ∈ claims cache' ↔ k ∈ claims cache) ∧ Forall (λ m, is_durable (mi_result m) = true) fresh ∧
  mi_identity <$> fresh `sublist_of` identity_of <$> filter (λ d, d_specifier d ∈ stale) detected.
Proof.
  intros Helse. revert index cache fresh cache'.
  induction detected as [|d detected IH]; intros index cache fresh cache'; cbn [revalidate_imports].
  { intros [= <- <-]. split_and!; [done|constructor|constructor]. }
  rewrite filter_cons. destruct (decide (d_specifier d ∈ stale)) as [Hst|Hst].
  2:{ rewrite bool_decide_eq_false_2 by done. apply IH. }
  rewrite bool_decide_eq_true_2 by done. cbn [negb]. destruct (continue index) as [before after].
  destruct (revalidate_import _ _ _ _ _ _ _ _ _ _) as [out c1] eqn:Hone.
  apply (revalidate_import_spec _ _ _ _ _ _ _ _ _ _ k) in Hone as [Hk Hd]; [|intros; apply Helse].
  rewrite fmap_cons. destruct out as [| |r].
  - intros [= <- <-]. split_and!; [done|constructor|apply sublist_nil_l].
  - intros H. apply IH in H as (Hk' & Hall & Hsub). split_and!; [by rewrite Hk'|done|by apply sublist_cons].
  - destruct (revalidate_imports _ _ _ _ _ _ _ _ _ _ _) as [fr c2] eqn:Hrest. intros [= <- <-].
    apply IH in Hrest as (Hk' & Hall & Hsub). split_and!; [by rewrite Hk'| |by apply sublist_skip].
    constructor; [by apply (Hd r)|done].
Qed.

Context (parse : ScriptRegion → Parsed) (wide_alphanumeric : list ascii → bool)
        (analyze_unresolved_import : AnalysisContext → ImportRequest → string → ImportResult).

(** *** What a revalidation rebuilds

    The specification of the turns: for each stale import in the document's order
    the outcome of its turn, with the shard the turn leaves. A turn settles on the
    answer of its last build: where the entry is found stale again once the first
    answer is in, an input changed while it was built, and only the trailing
    build's answer counts. *)
Section turns.
Context (context : AnalysisContext) (generation : option N) (stale : list string)
        (continue : nat → bool * bool) (flight : nat → nat → string → N → ComputedAnalysis)
        (elsewhere : nat → nat → shard → shard).

(** The key a turn revalidates, where the import resolves. *)
Definition turn_key (d : DetectedImport) : option string :=
  match import_request_for_detected (active_document_path context) d with
  | inr _ => None
  | inl request =>
      match resolve_package_entry (active_document_path context) request with
      | inr _ => None
      | inl resolved => Some (cache_key windows CARGO_PKG_VERSION request resolved)
      end
  end.
Definition turn_claim (key : string) : string :=
  revalidation_claim_key key (workspace_root context) (active_document_path context) generation.

(** The [n]-th build of turn [i], from shard [s]: its answer, and what it leaves. *)
Definition build_answer (i n : nat) (key : string) (s : shard) : ImportResult :=
  c_result (flight i n key (cache_generation s)).
Definition build_leaves (i n : nat) (key : string) (s : shard) : shard :=
  let built := flight i n key (cache_generation s) in
  if decide (is_durable (c_result built) = true ∧ c_reusable built = true)
  then insert_with_fingerprints_at_generation key (c_result built) (c_fingerprints built) (cache_generation s)
         (elsewhere i n s)
  else elsewhere i n s.

(** The first answer of a turn that holds its claim: a fresh entry as it is, or
    else a build. *)
Inductive first_answer (i : nat) (key : string) (was : option Freshness) (s : shard) : ImportResult → shard → Prop :=
  | AnswerHealed r s1 :
      was = Some Fresh → get_if_fresh_and_promote key s = (Some r, s1) → first_answer i key was s r s1
  | AnswerUnhealed s1 :
      was = Some Fresh → get_if_fresh_and_promote key s = (None, s1) →
      first_answer i key was s (build_answer i 0 key s1) (build_leaves i 0 key s1)
  | AnswerBuilt :
      was ≠ Some Fresh → first_answer i key was s (build_answer i 0 key s) (build_leaves i 0 key s).
Inductive last_answer (i : nat) (key : string) (was : option Freshness) (s : shard) : ImportResult → shard → Prop :=
  | AnswerCurrent r s1 :
      first_answer i key was s r s1 → probe_freshness key s1 ≠ Some Stale → last_answer i key was s r s1
  | AnswerTrailing r s1 :
      first_answer i key was s r s1 → probe_freshness key s1 = Some Stale →
      last_answer i key was s (build_answer i 1 key s1) (build_leaves i 1 key s1).

Inductive turn (i : nat) (d : DetectedImport) (s : shard) : Revalidated → shard → Prop :=
  | TurnCutOff : (continue i).1 = false → turn i d s Stop s
  | TurnUnresolved : (continue i).1 = true → turn_key d = None → turn i d s Skip s
  | TurnUnknown key :
      (continue i).1 = true → turn_key d = Some key → probe_freshness key s = Some Unknown → turn i d s Skip s
  | TurnClaimed key s1 :
      (continue i).1 = true → turn_key d = Some key → probe_freshness key s ≠ Some Unknown →
      begin_revalidation (turn_claim key) s = (false, s1) → turn i d s Skip s1
  | TurnAnswered key s1 r s2 :
      (continue i).1 = true → turn_key d = Some key → probe_freshness key s ≠ Some Unknown →
      begin_revalidation (turn_claim key) s = (true, s1) → last_answer i key (probe_freshness key s) s1 r s2 →
      turn i d s (if (continue i).2 then if is_durable r then Recomputed r else Skip else Stop)
        (finish_revalidation (turn_claim key) s2).

Inductive turns : nat → list DetectedImport → shard → list MeasuredImport → shard → Prop :=
  | TurnsEnd i s : turns i [] s [] s
  | TurnsOther i d ds s fresh s' :
      d_specifier d ∉ stale → turns (S i) ds s fresh s' → turns i (d :: ds) s fresh s'
  | TurnsStop i d ds s s1 : d_specifier d ∈ stale → turn i d s Stop s1 → turns i (d :: ds) s [] s1
  | TurnsSkip i d ds s s1 fresh s' :
      d_specifier d ∈ stale → turn i d s Skip s1 → turns (S i) ds s1 fresh s' → turns i (d :: ds) s fresh s'
  | TurnsRebuilt i d ds s r s1 fresh s' :
      d_specifier d ∈ stale → turn i d s (Recomputed r) s1 → turns (S i) ds s1 fresh s' →
      turns i (d :: ds) s ({| mi_result := r; mi_identity := identity_of d |} :: fresh) s'.

Lemma build_step i n key s :
  analyze_and_cache (flight i n) true key s (elsewhere i n s) = (build_answer i n key s, build_leaves i n key s).
Proof.
  unfold analyze_and_cache, build_answer, build_leaves, should_cache_result. rewrite andb_true_r. f_equal.
  case_decide as H; [by destruct H as [-> ->]|]. case_match eqn:E; [|done]. apply andb_true_iff in E. by destruct H.
Qed.

Lemma revalidate_import_turn i d s out s' :
  revalidate_import windows CARGO_PKG_VERSION context generation (continue i).1 (continue i).2 (flight i) (elsewhere i) d s
    = (out, s') → turn i d s out s'.
Proof.
  unfold revalidate_import. destruct (continue i).1 eqn:Hb; cbn [negb]; [|intros [= <- <-]; by constructor].
  assert (turn_key d = match import_request_for_detected (active_document_path context) d with
    | inr _ => None | inl request => match resolve_package_entry (active_document_path context) request with
      | inr _ => None | inl resolved => Some (cache_key windows CARGO_PKG_VERSION request resolved) end end) as Hkey by done.
  destruct (import_request_for_detected _ _) as [rq|]; [|intros [= <- <-]; by constructor].
  destruct (resolve_package_entry _ _) as [resolved|]; [|intros [= <- <-]; by constructor].
  set (key := cache_key _ _ _ _) in *. fold (turn_claim key).
  case_bool_decide as Hu; [intros [= <- <-]; by eapply TurnUnknown|].
  destruct (begin_revalidation (turn_claim key) s) as [claimed s1] eqn:Hc. destruct claimed; cbn [negb];
    [|intros [= <- <-]; by eapply TurnClaimed].
  set (healed := if bool_decide _ then _ else _).
  assert (∀ h s2 r1 s3, healed = (h, s2) →
    match h with Some result => (result, s2) | None => analyze_and_cache (flight i 0) true key s2 (elsewhere i 0 s2) end
      = (r1, s3) → first_answer i key (probe_freshness key s) s1 r1 s3) as Hfirst.
  { intros h s2 r1 s3. unfold healed. rewrite build_step. case_bool_decide as Hf.
    - intros Hg. destruct h; intros [= <- <-]; [by apply AnswerHealed|by eapply AnswerUnhealed].
    - intros [= <- <-] [= <- <-]. by eapply AnswerBuilt. }
  destruct healed as [h s2]. specialize (Hfirst h s2).
  destruct (match h with Some _ => _ | None => _ end) as [r1 s3]. specialize (Hfirst _ _ eq_refl eq_refl).
  rewrite build_step.
  assert (∀ r2 s4, (if should_rearm_revalidation (probe_freshness key s3)
            then (build_answer i 1 key s3, build_leaves i 1 key s3) else (r1, s3)) = (r2, s4) →
    last_answer i key (probe_freshness key s) s1 r2 s4) as Hlast.
  { intros r2 s4. unfold should_rearm_revalidation. case_bool_decide; intros [= <- <-];
      [by eapply AnswerTrailing|by eapply AnswerCurrent]. }
  destruct (if should_rearm_revalidation _ then _ else _) as [r2 s4]. specialize (Hlast _ _ eq_refl).
  intros [= <- <-]. pose proof (TurnAnswered i d s key s1 r2 s4 Hb Hkey Hu Hc Hlast) as Ht.
  unfold should_cache_result. destruct (continue i).2; cbn [negb]; [|exact Ht]. by destruct (is_durable r2).
Qed.

Lemma revalidate_imports_turns i detected s fresh s' :
  revalidate_imports windows CARGO_PKG_VERSION context generation stale continue flight elsewhere i detected s
    = (fresh, s') → turns i detected s fresh s'.
Proof.
  revert i s fresh s'. induction detected as [|d ds IH]; intros i s fresh s'; cbn [revalidate_imports].
  { intros [= <- <-]. constructor. }
  case_bool_decide as Hst; cbn [negb]; [|intros H; by apply TurnsOther, IH].
  pose proof (revalidate_import_turn i d s) as Hone. destruct (continue i) as [before after]. cbn [fst snd] in Hone.
  destruct (revalidate_import _ _ _ _ _ _ _ _ _ _) as [out s1]. specialize (Hone _ _ eq_refl).
  destruct out as [| |r].
  - intros [= <- <-]. by apply TurnsStop.
  - intros H. by eapply TurnsSkip, IH.
  - destruct (revalidate_imports _ _ _ _ _ _ _ _ _ _ _) as [fr c2] eqn:Hrest. intros [= <- <-].
    by eapply TurnsRebuilt, IH.
Qed.
End turns.

End revalidation.

(** ** A document of two imports of one package *)

Definition e_entry (name : ImportImportName) (from upto request : nat) : ImportEntry :=
  {| ie_request := "@s/x"; ie_request_span := {| sp_start := request; sp_end := upto - 1 |};
     ie_statement := {| sp_start := from; sp_end := upto |}; ie_name := name;
     ie_local := {| sp_start := from + 7; sp_end := from + 8 |}; ie_is_type := false |}.
Definition e_parse (_ : ScriptRegion) : Parsed :=
  {| fatal_error := false; errors := []; is_typescript := false;
     module_record := {| import_entries := [e_entry ImportDefault 0 21 14; e_entry NamespaceObject 22 48 41];
                         requested_modules := []; indirect_export_entries := []; star_export_entries := [];
                         dynamic_imports := [] |};
     symbols := [] |}.
Definition e_request : AnalyzeDocumentRequest :=
  {| ad_version := 8; ad_request_id := 1; ad_workspace_root := "/w"; ad_active_document_path := "/w/src/a.ts";
     ad_source := "import x from '@s/x'; import * as y from '@s/x';" |}.
Definition e_result (n : N) : ImportResult :=
  set_internal [{| mc_path := "/w/node_modules/@s/x/lib/index.js"; mc_bytes := n |}]
    (measured "@s/x" {| m_raw := n; m_minified := n; m_gzip := n; m_brotli := n; m_zstd := n |}).
Definition e_plain_config : ConfigParser := λ _ _, None.
Definition e_disk : FileSystem := one_file "/w/src/a.ts" {| md_len := 2; md_modified := None |} [].
Definition e_key (kind : ImportKind) : string :=
  cache_key (CD := bit_codec) (DISK := e_disk) false "1"
    {| rq_specifier := "@s/x"; rq_package_name := "@s/x"; rq_version := "1.0.0"; rq_named := [];
       rq_import_kind := kind; rq_runtime := Component |} x_package.

(** A shard that has the default import and not the namespace. *)
Definition e_shard : ShardCache := {|
  shard := list string;
  get_with_result_freshness k s := (if decide (k = e_key Default) then Some (e_result 5) else None, s);
  get_if_fresh k s := (if decide (k = e_key Default) then Some (e_result 5) else None, s);
  get_if_fresh_and_promote k s := (if decide (k = e_key Default) then Some (e_result 5) else None, s);
  get_for_prewarm k s := (None, s);
  probe_freshness k _ := if decide (k = e_key Default) then Some Fresh else Some Stale;
  begin_revalidation k s := if decide (k ∈ s) then (false, s) else (true, k :: s);
  finish_revalidation k s := filter (λ c, c ≠ k) s;
  insert_with_fingerprints_at_generation _ _ _ _ s := s;
  cache_generation _ := 0%N;
|}.
Definition e_streamed : option StreamedDocumentAnalysis :=
  handle_analyze_document_streaming (FL := react_disk) (ML := one_manifest x_manifest) (OX := resolves_nothing)
    (CD := bit_codec) (DISK := e_disk) (SC := e_shard) e_parse (λ _, false) false "1"
    (λ _ _ _, e_result 0) None e_request (λ _, []).
Definition e_blocking : option AnalyzeDocumentResponse :=
  handle_analyze_document_with_intent (FL := react_disk) (ML := one_manifest x_manifest) (OX := resolves_nothing)
    (CD := bit_codec) (DISK := e_disk) (SC := e_shard) e_parse (λ _, false) false "1"
    (λ _ _ _, e_result 0) None e_request Interactive (λ _, e_result 7) (λ _, []).
Definition e_pushes (s : StreamedDocumentAnalysis) : list push :=
  complete_pending_imports (λ _, e_result 7) (sd_measured s) ((λ p, (p, (true, true))) <$> sd_pending s) true.

Lemma e_streamed_facts :
  (λ s, (bool_decide (NoDup (identity_of ∘ it_detected <$> ar_imports (sd_response s))), length (sd_pending s),
         shared_bytes ∘ mi_result <$> sd_measured s)) <$> e_streamed = Some (true, 1, [Some 0%N]).
Proof. vm_compute. reflexivity. Qed.
Lemma e_blocking_facts :
  (λ s, (λ it, shared_bytes <$> it_result it) <$> ar_imports s) <$> e_blocking = Some [Some (Some 5%N); Some (Some 7%N)].
Proof. vm_compute. reflexivity. Qed.

(** The default import is served as unshared, and corrected once the namespace
    has landed. *)
Lemma streaming_converges_to_blocking_witness :
  match e_streamed, e_blocking with
  | Some s, Some b =>
      length (sd_pending s) = 1 ∧ (shared_bytes ∘ mi_result <$> sd_measured s) = [Some 0%N] ∧
      ((λ it, shared_bytes <$> it_result it) <$> ar_imports b) = [Some (Some 5%N); Some (Some 7%N)] ∧
      Forall2 shows_same (foldl apply_push (shows <$> ar_imports (sd_response s)) (e_pushes s)) (shows <$> ar_imports b)
  | _, _ => False
  end.
Proof.
  pose proof e_streamed_facts as Hs. pose proof e_blocking_facts as Hb.
  destruct e_streamed as [s|] eqn:Es; [|discriminate Hs]. destruct e_blocking as [b|] eqn:Eb; [|discriminate Hb].
  cbn [fmap option_fmap option_map] in Hs, Hb. injection Hs as Hnd Hlen Hsh. injection Hb as Hb.
  split; [exact Hlen|]. split; [exact Hsh|]. split; [exact Hb|]. apply bool_decide_eq_true in Hnd.
  unfold e_streamed in Es. unfold e_blocking in Eb. unfold e_pushes.
  pose proof (streaming_converges_to_blocking (FL := react_disk) (ML := one_manifest x_manifest)
    (OX := resolves_nothing) (CD := bit_codec) (DISK := e_disk) (SC := e_shard) e_parse (λ _, false) false "1"
    (λ _ _ _, e_result 0) None e_request (λ _, e_result 7) (λ _, []) ((λ p, (p, (true, true))) <$> sd_pending s)
    s b Es Eb Hnd) as H.
  apply H; [by rewrite <- list_fmap_compose, list_fmap_id|apply Forall_fmap, Forall_forall; done].
Defined.

#[export] Instance e_claims : ClaimLaws (SC := e_shard).
Proof.
  refine {| claims := (λ s : list string, list_to_set s) : @shard e_shard → gset string |}; cbn; [..|done|done].
  - intros k s. case_decide as H; cbn; [rewrite bool_decide_eq_false_2|rewrite bool_decide_eq_true_2]; set_solver.
  - intros k s. apply set_eq. intros x. rewrite elem_of_difference, !elem_of_list_to_set, list_elem_of_filter. set_solver.
Defined.
Definition e_size_request : FileSizeDocumentRequest :=
  {| fr_version := 8; fr_request_id := 2; fr_workspace_root := "/w"; fr_active_document_path := "/w/src/a.ts";
     fr_source := ad_source e_request; fr_force_fresh := false; fr_analysis_generation := Some 1%N |}.
Definition e_flight (import build : nat) (_ : string) (_ : N) : ComputedAnalysis :=
  {| Documents.c_result := e_result (10 * N.of_nat import + N.of_nat build); Documents.c_fingerprints := []; c_reusable := true |}.
Definition e_revalidated : option (option push * list string) :=
  revalidate_document_sizes (FL := react_disk) (ML := one_manifest x_manifest) (OX := resolves_nothing)
    (CD := bit_codec) (DISK := e_disk) (SC := e_shard) e_parse (λ _, false) false "1" (λ _ _ _, e_result 0)
    e_size_request ["@s/x"] true (λ _, (true, true)) e_flight (λ _ _ s, s) (λ _, []) ["other"].

Lemma e_revalidated_facts :
  match e_revalidated with
  | Some (Some pushes, s) =>
      s = ["other"] ∧
      (λ e : ImportResult * RefreshedImportIdentity, (minified_bytes e.1, shared_bytes e.1, ri_kind e.2)) <$> pushes =
      [(Some 5%N, Some 5%N, Default); (Some 11%N, Some 11%N, Namespace)]
  | _ => False
  end.
Proof. vm_compute. by split. Qed.

