(* ===== verification/MemoryShard.v ===== *)
(** * The import cache as a document's shard

    What [Documents] and [Handlers] ask of a cache, answered by [Memory]'s: the
    interface's instance and its laws. *)
From stdpp Require Import base gmap list strings.
From S2P Require Import Prelude Recency Stages Results Fingerprints CacheKeys CachedImports ShardTables Disk DiskReads Memory Documents Handlers.

Set Default Proof Using "Type*".

Section memory_shard.
Context `{R : Redb, HO : HashOrder, EC : EnvelopeCodec, CD : IdentityCodec, FS : FileSystem, CH : ContentHash}.
Context (ANALYZER_VERSION : string) (tm : Times).

(** One operation after another, at one reading of the clocks. *)
#[export] Instance memory_shard : ShardCache := {|
  shard := ImportCache;
  get_with_result_freshness key c :=
    let '(got, c) := Memory.get_with_result_freshness ANALYZER_VERSION tm key c in (fst <$> got, c);
  get_if_fresh := Memory.get_if_fresh ANALYZER_VERSION tm;
  get_if_fresh_and_promote := Memory.get_if_fresh_and_promote ANALYZER_VERSION tm;
  get_for_prewarm := Memory.get_for_prewarm ANALYZER_VERSION tm;
  probe_freshness := Memory.probe_freshness;
  begin_revalidation := Memory.begin_revalidation;
  finish_revalidation := Memory.finish_revalidation;
  insert_with_fingerprints_at_generation := Memory.insert_with_fingerprints_at_generation ANALYZER_VERSION tm;
  cache_generation := generation;
|}.

(** *** Nothing but a claim moves the claims *)

Lemma disk_insert_claims key e captured c :
  revalidating (disk_insert ANALYZER_VERSION tm key e captured c).2 = revalidating c.
Proof. unfold disk_insert. by destruct (insert_at_generation _ _ _ _ _ _). Qed.

Lemma remove_claims key id c : revalidating (remove_from_memory_if_current key id c).2 = revalidating c.
Proof. unfold remove_from_memory_if_current. by repeat case_match. Qed.
Lemma evict_claims key id c : revalidating (evict_if_current key id c) = revalidating c.
Proof.
  unfold evict_if_current. pose proof (remove_claims key id c) as H.
  by destruct (remove_from_memory_if_current key id c) as [[|] c'].
Qed.
Lemma guarded_claims key e captured c : revalidating (insert_into_memory_guarded key e captured c) = revalidating c.
Proof. unfold insert_into_memory_guarded. repeat case_decide; [done| |done]. by rewrite remove_claims. Qed.

Lemma evict_batch_claims captured l : ∀ count weight c,
  revalidating (evict_batch ANALYZER_VERSION tm captured l count weight c) = revalidating c.
Proof.
  induction l as [|[seq [key w]] l IH]; intros count weight c; [done|]. cbn [evict_batch].
  case_decide; [done|]. rewrite IH. cbn [revalidating set_memory].
  destruct (memory c !! key) as [e|]; [|done]. case_decide; [|done].
  pose proof (disk_insert_claims key e captured c) as Hd. by destruct (disk_insert _ _ _ _ _ _) as [[|] c'].
Qed.
Lemma cap_claims c : revalidating (enforce_memory_cap ANALYZER_VERSION tm c) = revalidating c.
Proof. unfold enforce_memory_cap. case_decide; [done|]. apply evict_batch_claims. Qed.

Lemma insert_claims key r fps g c :
  revalidating (Memory.insert_with_fingerprints_at_generation ANALYZER_VERSION tm key r fps g c) = revalidating c.
Proof.
  unfold Memory.insert_with_fingerprints_at_generation. case_match; [done|]. unfold Memory.next_seq.
  destruct (RecencyClock.next_seq _) as [seq k]. cbn [allocate]. 
  match goal with |- context [disk_insert _ _ ?k ?e ?g ?c1] => pose proof (disk_insert_claims k e g c1) as Hd end.
  destruct (disk_insert _ _ _ _ _ _) as [okk c']. rewrite cap_claims, guarded_claims. by destruct okk.
Qed.

Lemma promote_claims (promote : bool) e c :
  revalidating (if promote then let '(seq, c) := Memory.next_seq c in store_last_seq (en_cell e) seq c else c) = revalidating c.
Proof. destruct promote; [|done]. unfold Memory.next_seq. by destruct (RecencyClock.next_seq _). Qed.

Lemma lookup_claims key promote fresh stale c :
  revalidating (lookup_cache ANALYZER_VERSION tm key promote fresh stale c).2 = revalidating c.
Proof.
  unfold lookup_cache. destruct (memory c !! key) as [e|].
  - unfold lookup_memory. pose proof (promote_claims promote e c) as Hp.
    destruct (if promote then _ else _) as [m ce nc d di re un cl ge] eqn:Hc. cbn [revalidating] in Hp. subst re.
    destruct (if _ && _ then Fresh else _); repeat case_match; try done; cbn [snd]; by rewrite evict_claims.
  - unfold lookup_disk. destruct (get_entry _ _ _ _ _) as [[got k] d].
    destruct got as [[cached f]|]; [|done]. case_decide; [done|]. cbn [allocate].
    cbn [snd]. rewrite cap_claims, guarded_claims. rewrite promote_claims. by case_decide.
Qed.
Lemma read_claims key intent c : revalidating (read ANALYZER_VERSION tm key intent c).2 = revalidating c.
Proof.
  unfold read. pose proof (lookup_claims key (intent_promotes intent) (intent_requires_fresh intent) EvictStale c) as H.
  by destruct (lookup_cache _ _ _ _ _ _ _) as [[[r f]|] c'].
Qed.

(** The import cache keeps the claims' laws, so every revalidation through it
    gives its claims back ([Handlers.revalidation_settles]). *)
#[export] Instance memory_claims : ClaimLaws (SC := memory_shard).
Proof.
  refine {| claims := revalidating : @shard memory_shard → gset string |}; cbn.
  - intros k s. unfold Memory.begin_revalidation. case_decide as Hk; cbn.
    + rewrite bool_decide_eq_false_2; [split; [done|set_solver]|]. by intros H.
    + by rewrite bool_decide_eq_true_2.
  - done.
  - intros k s. apply read_claims.
  - intros k r fps g s. apply insert_claims.
Defined.
End memory_shard.
