(* ===== verification/PackageJson.v ===== *)
(** * Dependencies of a manifest (document/package_json.rs)

    The scanner that finds the dependency sections of a [package.json] and their
    entries at their places in the text. It reads the bytes once, keeping only a
    bracket depth; what it finds in a JSON document is proved to be exactly its
    string-valued dependencies. *)
From stdpp Require Import base list strings.
From S2P Require Import Prelude Json Manifests ProjectRegistry Text Positions ScriptRegions.

Set Default Proof Using "Type*".

Definition QUOTE : ascii := byte 34.
Definition BACKSLASH : ascii := byte 92.
Definition OPEN : ascii := "{"%char.
Definition CLOSE : ascii := "}"%char.

Record PackageJsonDependencyEntry := {
  pd_name : string; pd_version : string; pd_section : string;
  pd_range : SourceRange; pd_name_range : SourceRange; pd_value_range : SourceRange;
}.
Record PackageJsonDependencySection := { ps_section : string; ps_range : SourceRange; ps_object_range : SourceRange }.
Definition DEPENDENCY_SECTION_NAMES : list string :=
  ["dependencies"; "devDependencies"; "peerDependencies"; "optionalDependencies"].
Record JsonStringToken := { tk_value : string; tk_start : nat; tk_end : nat }.
Record DependencySectionObject := {
  so_section : string; key_start : nat; key_end : nat; object_start : nat; object_end : nat;
}.

Section scanner.
(** [serde_json::from_str::<String>]. *)
Context `{ML : ManifestLibraries} (string_from_str : list ascii → option string) (source : list ascii).

Definition is_json_whitespace (c : ascii) : bool := bool_decide (c ∈ [" "%char; byte 10; byte 13; byte 9]).
Fixpoint leading_whitespace (l : list ascii) : nat :=
  match l with c :: l => if is_json_whitespace c then S (leading_whitespace l) else 0 | [] => 0 end.
Definition skip_whitespace (offset : nat) : nat := offset + leading_whitespace (drop offset source).

(** The loop of [read_json_string], on the text after the opening quote: the end. *)
Fixpoint string_end (current : nat) (l : list ascii) : option nat :=
  match l with
  | [] => None
  | c :: l =>
      if decide (c = BACKSLASH) then match l with [] => None | _ :: l => string_end (S (S current)) l end
      else if decide (c = QUOTE) then Some (S current)
      else string_end (S current) l
  end.
Definition read_json_string (start : nat) : option JsonStringToken :=
  if decide (source !! start = Some QUOTE) then
    end_ ← string_end (S start) (drop (S start) source);
    value ← string_from_str (text_between source start end_);
    Some {| tk_value := value; tk_start := start; tk_end := end_ |}
  else None.

Fixpoint object_end_from (fuel : nat) (depth : Z) (current : nat) : option nat :=
  match fuel with
  | 0 => None
  | S fuel =>
      match source !! current with
      | None => None
      | Some b =>
          if decide (b = QUOTE) then
            match read_json_string current with
            | None => None
            | Some token => object_end_from fuel depth (tk_end token)
            end
          else if decide (b = OPEN) then object_end_from fuel (depth + 1) (S current)
          else if decide (b = CLOSE) then
            if decide (depth - 1 = 0)%Z then Some (S current) else object_end_from fuel (depth - 1) (S current)
          else object_end_from fuel depth (S current)
      end
  end.
Definition matching_object_end (object_start : nat) : option nat :=
  object_end_from (length source) 0 object_start.

(** The loop both scans are: strings go to [on_string] at their depth, brackets
    move the depth, and a string that does not read ends the scan. *)
Fixpoint scan {A} (on_string : Z → JsonStringToken → A → A) (limit fuel : nat) (depth : Z) (current : nat) (acc : A) : A :=
  match fuel with
  | 0 => acc
  | S fuel =>
      if (limit <=? current)%nat then acc
      else
        match source !! current with
        | None => acc
        | Some b =>
            if decide (b = QUOTE) then
              match read_json_string current with
              | None => acc
              | Some token => scan on_string limit fuel depth (tk_end token) (on_string depth token acc)
              end
            else
              let depth := if decide (b ∈ [OPEN; "["%char]) then (depth + 1)%Z
                           else if decide (b ∈ [CLOSE; "]"%char]) then (depth - 1)%Z else depth in
              scan on_string limit fuel depth (S current) acc
        end
  end.

Definition is_dependency_section_name (value : string) : bool := bool_decide (value ∈ DEPENDENCY_SECTION_NAMES).
Definition on_section (depth : Z) (token : JsonStringToken) (sections : list DependencySectionObject) :
    list DependencySectionObject :=
  let colon_offset := skip_whitespace (tk_end token) in
  if bool_decide (depth = 1)%Z && bool_decide (source !! colon_offset = Some ":"%char) &&
     is_dependency_section_name (tk_value token)
  then
    let object_start := skip_whitespace (S colon_offset) in
    match (if decide (source !! object_start = Some OPEN) then matching_object_end object_start else None) with
    | Some object_end =>
        sections ++ [{| so_section := tk_value token; key_start := tk_start token; key_end := tk_end token;
                        object_start := object_start; object_end := object_end |}]
    | None => sections
    end
  else sections.
Definition dependency_section_objects : list DependencySectionObject :=
  scan on_section (length source) (length source) 0 0 [].

(** A dependency before its positions: its name and version tokens. *)
Notation found := (JsonStringToken * JsonStringToken)%type.
Definition on_entry (depth : Z) (name_token : JsonStringToken) (entries : list found) : list found :=
  let colon_offset := skip_whitespace (tk_end name_token) in
  let value_start := skip_whitespace (S colon_offset) in
  let value_token := if decide (source !! colon_offset = Some ":"%char) then read_json_string value_start else None in
  match value_token with
  | Some value_token => if decide (depth = 1)%Z then entries ++ [(name_token, value_token)] else entries
  | None => entries
  end.
Definition entry_tokens (section : DependencySectionObject) : list found :=
  scan on_entry (object_end section) (length source) 0 (object_start section) [].
(** [None] is the panic of a position off a character boundary. *)
Definition entry_at (line_index : list nat) (section : string) (tokens : found) : option PackageJsonDependencyEntry :=
  name_range ← range_from_offsets line_index source (tk_start tokens.1) (tk_end tokens.1);
  value_range ← range_from_offsets line_index source (tk_start tokens.2) (tk_end tokens.2);
  Some {| pd_name := tk_value tokens.1; pd_version := tk_value tokens.2; pd_section := section;
          pd_range := name_range; pd_name_range := name_range; pd_value_range := value_range |}.
Definition dependency_entries_for_section (line_index : list nat) (section : DependencySectionObject) :
    option (list PackageJsonDependencyEntry) :=
  mapM (entry_at line_index (so_section section)) (entry_tokens section).

Definition by_line_and_name : PackageJsonDependencyEntry → PackageJsonDependencyEntry → comparison :=
  cmp_on (λ e, (line (range_start (pd_range e)), pd_name e)) (cmp_lex N.compare String.compare).
Definition package_json_dependency_entries : option (list PackageJsonDependencyEntry) :=
  match from_str (of_bytes source) with
  | inr _ => Some []
  | inl parsed =>
      match as_object parsed with
      | None => Some []
      | Some _ =>
          let named section := match value_get (so_section section) parsed ≫= as_object with
                               | Some (_ :: _) => true | _ => false end in
          entries ← mapM (dependency_entries_for_section (LineIndex_new source))
                         (filter (λ s, named s = true) dependency_section_objects);
          Some (stable_sort by_line_and_name (concat entries))
      end
  end.

Definition section_at (line_index : list nat) (section : DependencySectionObject) : option PackageJsonDependencySection :=
  range ← range_from_offsets line_index source (key_start section) (key_end section);
  object_range ← range_from_offsets line_index source (object_start section) (object_end section);
  Some {| ps_section := so_section section; ps_range := range; ps_object_range := object_range |}.
Definition package_json_dependency_sections : option (list PackageJsonDependencySection) :=
  match from_str (of_bytes source) with
  | inr _ => Some []
  | inl _ => mapM (section_at (LineIndex_new source)) dependency_section_objects
  end.
End scanner.

(** ** JSON text *)

Fixpoint body_ok (l : list ascii) : bool :=
  match l with
  | [] => true
  | c :: l =>
      if decide (c = BACKSLASH) then match l with [] => false | _ :: l => body_ok l end
      else if decide (c = QUOTE) then false else body_ok l
  end.
Definition quoted (body : list ascii) : list ascii := QUOTE :: body ++ [QUOTE].
Definition is_bracket (c : ascii) : bool := bool_decide (c ∈ [OPEN; CLOSE; "["%char; "]"%char]).
(** Neither a quote nor a bracket. *)
Definition plain_byte (c : ascii) : bool := negb (bool_decide (c = QUOTE)) && negb (is_bracket c).
Notation all_ws := (Forall (λ c, is_json_whitespace c = true)).

Section json.
Context (string_from_str : list ascii → option string).

(** Text whose strings read and whose brackets match. *)
Inductive Balanced : list ascii → Prop :=
  | bal_nil : Balanced []
  | bal_char c s : plain_byte c = true → Balanced s → Balanced (c :: s)
  | bal_string body s : body_ok body = true → is_Some (string_from_str (quoted body)) → Balanced s →
      Balanced (quoted body ++ s)
  | bal_nest o c a s : (o, c) ∈ [(OPEN, CLOSE); ("["%char, "]"%char)] → Balanced a → Balanced s →
      Balanced (o :: a ++ c :: s).

(** A member of an object: its key between white space, and its value. *)
Record field {V : Type} := {
  f_before : list ascii; f_key : list ascii; f_mid : list ascii; f_gap : list ascii; f_value : V; f_after : list ascii;
}.
Arguments field : clear implicits.

(** A value that is not a string, nor (in [TRaw]) an object: a number, a word or
    an array; a section's values may also be objects. *)
Inductive raw_text : list ascii → Prop :=
  | raw_plain s : s ≠ [] → Forall (λ c, plain_byte c = true) s → Forall (λ c, is_json_whitespace c = false) s → raw_text s
  | raw_array a : Balanced a → raw_text ("["%char :: a ++ ["]"%char]).
Inductive svalue := SString (body : list ascii) | SRaw (text : list ascii) | SObject (inner : list ascii).
Inductive tvalue := TString (body : list ascii) | TRaw (text : list ascii) | TObject (blank : list ascii) (fields : list (field svalue)).

Definition svalue_text (v : svalue) : list ascii :=
  match v with SString body => quoted body | SRaw text => text | SObject inner => OPEN :: inner ++ [CLOSE] end.
Definition field_text {V} (text : V → list ascii) (f : field V) : list ascii :=
  f_before f ++ quoted (f_key f) ++ f_mid f ++ ":"%char :: f_gap f ++ text (f_value f) ++ f_after f.
Fixpoint members {V} (text : V → list ascii) (fs : list (field V)) : list ascii :=
  match fs with
  | [] => []
  | [f] => field_text text f
  | f :: fs => field_text text f ++ ","%char :: members text fs
  end.
Definition object_text {V} (text : V → list ascii) (blank : list ascii) (fs : list (field V)) : list ascii :=
  OPEN :: match fs with [] => blank | _ => members text fs end ++ [CLOSE].
Definition tvalue_text (v : tvalue) : list ascii :=
  match v with TString body => quoted body | TRaw text => text | TObject blank fs => object_text svalue_text blank fs end.

Definition string_ok (body : list ascii) : Prop := body_ok body = true ∧ is_Some (string_from_str (quoted body)).
Definition field_ok {V} (ok : V → Prop) (f : field V) : Prop :=
  all_ws (f_before f) ∧ string_ok (f_key f) ∧ all_ws (f_mid f) ∧ all_ws (f_gap f) ∧ ok (f_value f) ∧ all_ws (f_after f).
Definition svalue_ok (v : svalue) : Prop :=
  match v with SString body => string_ok body | SRaw text => raw_text text | SObject inner => Balanced inner end.
Definition tvalue_ok (v : tvalue) : Prop :=
  match v with
  | TString body => string_ok body
  | TRaw text => raw_text text
  | TObject blank fs => all_ws blank ∧ Forall (field_ok svalue_ok) fs
  end.

(** What the document holds, at its offsets. *)
Definition string_at (off : nat) (body : list ascii) : JsonStringToken :=
  {| tk_value := default "" (string_from_str (quoted body)); tk_start := off; tk_end := off + length (quoted body) |}.
Definition key_at {V} (off : nat) (f : field V) : nat := off + length (f_before f).
Definition value_at {V} (off : nat) (f : field V) : nat :=
  key_at off f + length (quoted (f_key f)) + length (f_mid f) + 1 + length (f_gap f).
Fixpoint dependencies_from (off : nat) (fs : list (field svalue)) : list (JsonStringToken * JsonStringToken) :=
  match fs with
  | [] => []
  | f :: fs =>
      match f_value f with
      | SString body => [(string_at (key_at off f) (f_key f), string_at (value_at off f) body)]
      | _ => []
      end ++ dependencies_from (off + length (field_text svalue_text f) + 1) fs
  end.
Definition key_name {V} (f : field V) : string := default "" (string_from_str (quoted (f_key f))).
Fixpoint sections_from (off : nat) (fs : list (field tvalue)) : list (DependencySectionObject * list (JsonStringToken * JsonStringToken)) :=
  match fs with
  | [] => []
  | f :: fs =>
      match f_value f with
      | TObject blank deps =>
          if is_dependency_section_name (key_name f) then
            [({| so_section := key_name f; key_start := key_at off f;
                 key_end := key_at off f + length (quoted (f_key f)); object_start := value_at off f;
                 object_end := value_at off f + length (object_text svalue_text blank deps) |},
              dependencies_from (S (value_at off f)) deps)]
          else []
      | _ => []
      end ++ sections_from (off + length (field_text tvalue_text f) + 1) fs
  end.
End json.

Arguments field : clear implicits.

(** ** Reading one string, one gap *)

Lemma string_end_spec body : ∀ k post,
  body_ok body = true → string_end k (body ++ QUOTE :: post) = Some (k + length body + 1).
Proof.
  induction body as [body IH] using (induction_ltof1 _ length). unfold ltof in IH.
  destruct body as [|c body]; intros k post Hok; cbn [app string_end].
  { rewrite decide_False by done. rewrite decide_True by done. f_equal. cbn. lia. }
  cbn [body_ok] in Hok. destruct (decide (c = BACKSLASH)) as [->|Hc].
  - destruct body as [|d body]; [done|]. cbn [app]. rewrite IH by (cbn; lia || done). f_equal. cbn. lia.
  - case_decide; [done|]. rewrite IH by (cbn; lia || done). f_equal. cbn. lia.
Qed.

Lemma ws_plain ws : all_ws ws → Forall (λ c, plain_byte c = true) ws.
Proof.
  intros H. eapply Forall_impl; [exact H|]. intros c Hc. unfold is_json_whitespace in Hc.
  apply bool_decide_eq_true in Hc. repeat (apply elem_of_cons in Hc as [->|Hc]; [done|]). by apply elem_of_nil in Hc.
Qed.

Lemma members_cons {V} (text : V → list ascii) f g fs :
  members text (f :: g :: fs) = field_text text f ++ ","%char :: members text (g :: fs).
Proof. done. Qed.

(** One text, associated in two ways. *)
Ltac reassociate H := rewrite H; cbn [app]; repeat (rewrite <- app_assoc; cbn [app]); reflexivity.

Section scans.
Context (string_from_str : list ascii → option string) (source : list ascii).

Lemma source_at pre c post : source = pre ++ c :: post → source !! length pre = Some c.
Proof. intros ->. by apply list_lookup_middle. Qed.
Lemma length_quoted body : length (quoted body) = length body + 2.
Proof. unfold quoted. cbn. rewrite length_app. cbn. lia. Qed.

Lemma read_string_spec pre body post :
  source = pre ++ quoted body ++ post → string_ok string_from_str body →
  read_json_string string_from_str source (length pre) = Some (string_at string_from_str (length pre) body).
Proof.
  intros Hs [Hok [v Hv]]. unfold read_json_string.
  assert (source = pre ++ QUOTE :: body ++ QUOTE :: post) as Hs' by (rewrite Hs; unfold quoted; cbn; by rewrite <- app_assoc).
  rewrite decide_True by (by eapply source_at).
  replace (drop (S (length pre)) source) with (body ++ QUOTE :: post).
  2:{ rewrite Hs'. change (QUOTE :: body ++ QUOTE :: post) with ([QUOTE] ++ (body ++ QUOTE :: post)).
      rewrite app_assoc, drop_app_length'; [done|]. rewrite length_app. cbn. lia. }
  rewrite string_end_spec by done. cbn [mbind option_bind].
  replace (text_between source (length pre) _) with (quoted body).
  2:{ unfold text_between. rewrite Hs, drop_app_length. symmetry. apply take_app_length'. rewrite length_quoted. lia. }
  rewrite Hv. cbn. unfold string_at. rewrite Hv, length_quoted. cbn. do 2 f_equal. lia.
Qed.

Lemma skip_whitespace_spec pre ws c post :
  source = pre ++ ws ++ c :: post → all_ws ws → is_json_whitespace c = false →
  skip_whitespace source (length pre) = length pre + length ws.
Proof.
  intros -> Hws Hc. unfold skip_whitespace. rewrite drop_app_length. f_equal.
  induction Hws as [|x ws Hx Hws IH]; cbn; [by rewrite Hc|]. rewrite Hx. by rewrite IH.
Qed.

(** ** A scan's progress *)

Section progress.
Context {A : Type} (on : Z → JsonStringToken → A → A) (limit : nat).

(** Within [n] turns the scan gets from one state to the other. *)
Definition passes (n : nat) (s s' : Z * nat * A) : Prop :=
  ∃ k, k ≤ n ∧ ∀ fuel, scan string_from_str source on limit (k + fuel) s.1.1 s.1.2 s.2 =
                       scan string_from_str source on limit fuel s'.1.1 s'.1.2 s'.2.

Lemma passes_refl n s : passes n s s.
Proof. exists 0. split; [lia|done]. Qed.
Lemma passes_trans n m s1 s2 s3 : passes n s1 s2 → passes m s2 s3 → passes (n + m) s1 s3.
Proof.
  intros (k & Hk & H1) (j & Hj & H2). exists (k + j). split; [lia|]. intros fuel.
  rewrite <- Nat.add_assoc, H1. apply H2.
Qed.
Lemma passes_le n m s s' : n ≤ m → passes n s s' → passes m s s'.
Proof. intros Hn (k & Hk & H). exists k. split; [lia|done]. Qed.

Lemma pass_plain pre c post d acc :
  source = pre ++ c :: post → plain_byte c = true → length pre < limit →
  passes 1 (d, length pre, acc) (d, S (length pre), acc).
Proof.
  intros Hs Hc Hl. exists 1. split; [done|]. intros fuel. cbn.
  destruct (Nat.leb_spec limit (length pre)); [lia|]. rewrite (source_at _ _ _ Hs).
  unfold plain_byte, is_bracket in Hc. apply andb_prop in Hc as [Hq Hb].
  apply negb_true_iff, bool_decide_eq_false in Hq, Hb.
  rewrite decide_False by done. rewrite !decide_False; [done|set_solver..].
Qed.
Lemma pass_bracket pre c post d acc :
  source = pre ++ c :: post → is_bracket c = true → length pre < limit →
  passes 1 (d, length pre, acc) ((if decide (c ∈ [OPEN; "["%char]) then d + 1 else d - 1)%Z, S (length pre), acc).
Proof.
  intros Hs Hc Hl. exists 1. split; [done|]. intros fuel. cbn.
  destruct (Nat.leb_spec limit (length pre)); [lia|]. rewrite (source_at _ _ _ Hs).
  unfold is_bracket in Hc. apply bool_decide_eq_true in Hc.
  rewrite decide_False; [|by intros ->; vm_compute in Hc; set_solver].
  case_decide as Ho; [done|]. rewrite decide_True; [done|set_solver].
Qed.
Lemma pass_string pre body post d acc :
  source = pre ++ quoted body ++ post → string_ok string_from_str body → length pre < limit →
  passes 1 (d, length pre, acc)
    (d, length pre + length (quoted body), on d (string_at string_from_str (length pre) body) acc).
Proof.
  intros Hs Hok Hl. exists 1. split; [done|]. intros fuel. cbn.
  destruct (Nat.leb_spec limit (length pre)); [lia|].
  assert (source !! length pre = Some QUOTE) as -> by (rewrite Hs; by apply list_lookup_middle).
  rewrite decide_True by done. by rewrite (read_string_spec _ _ _ Hs Hok).
Qed.

(** Where the scan stands in the text. *)
Lemma passes_at n d p q acc d' p' q' acc' :
  p = q → p' = q' → passes n (d, q, acc) (d', q', acc') → passes n (d, p, acc) (d', p', acc').
Proof. by intros -> ->. Qed.

Lemma pass_plains pre s post d acc :
  source = pre ++ s ++ post → Forall (λ c, plain_byte c = true) s → length pre + length s ≤ limit →
  passes (length s) (d, length pre, acc) (d, length pre + length s, acc).
Proof.
  revert pre. induction s as [|c s IH]; intros pre Hs Hall Hl.
  { eapply passes_at; [done| |apply passes_refl]. cbn. lia. }
  apply Forall_cons in Hall as [Hc Hall]. cbn in Hl |- *. eapply (passes_trans 1 (length s)).
  - eapply (pass_plain pre c (s ++ post)); [done..|lia].
  - eapply passes_at; [| |eapply (IH (pre ++ [c])); [by rewrite <- app_assoc|done|]]; rewrite length_app; cbn; lia.
Qed.

(** What a pair of brackets holds is one level down. *)
Lemma pass_nest pre o c a post d acc acc' :
  (o, c) ∈ [(OPEN, CLOSE); ("["%char, "]"%char)] → source = pre ++ (o :: a ++ [c]) ++ post →
  length pre + length a + 2 ≤ limit →
  passes (length a) ((d + 1)%Z, S (length pre), acc) ((d + 1)%Z, S (length pre) + length a, acc') →
  passes (length a + 2) (d, length pre, acc) (d, length pre + length a + 2, acc').
Proof.
  intros Hoc Hs Hl Hin.
  assert (is_bracket o = true ∧ o ∈ [OPEN; "["%char] ∧ is_bracket c = true ∧ c ∉ [OPEN; "["%char]) as (Ho & Ho' & Hc & Hc').
  { rewrite !elem_of_cons in Hoc. destruct Hoc as [[= -> ->]|[[= -> ->]|[]%elem_of_nil]];
      (split_and!; [done| |done|]; apply (bool_decide_unpack _); vm_compute; exact I). }
  eapply passes_le; [|eapply (passes_trans 1 (length a + 1))]; [lia| |].
  { eapply (pass_bracket pre o (a ++ c :: post)); [reassociate Hs|done|lia]. }
  rewrite decide_True by done. eapply passes_trans; [exact Hin|].
  pose proof (pass_bracket (pre ++ o :: a) c post (d + 1) acc' ltac:(reassociate Hs) Hc) as Hclose.
  rewrite decide_False in Hclose by done. replace (d + 1 - 1)%Z with d in Hclose by lia.
  eapply passes_at; [| |apply Hclose]; rewrite length_app; cbn; lia.
Qed.

(** Balanced text changes nothing where [on] does nothing. *)
Context (inert : ∀ d t acc, (2 ≤ d)%Z → on d t acc = acc).
Lemma pass_balanced s : Balanced string_from_str s → ∀ pre post d acc,
  (2 ≤ d)%Z → source = pre ++ s ++ post → length pre + length s ≤ limit →
  passes (length s) (d, length pre, acc) (d, length pre + length s, acc).
Proof using inert.
  induction 1 as [|c s Hc _ IH|body s Hb Hr _ IH|o c a s Hoc _ IHa _ IHs]; intros pre post d acc Hd Hs Hl.
  - eapply passes_at; [done| |apply passes_refl]. cbn. lia.
  - cbn in Hl |- *. eapply (passes_trans 1 (length s)).
    + eapply (pass_plain pre c (s ++ post)); [done..|lia].
    + eapply passes_at; [| |eapply (IH (pre ++ [c]) post d acc Hd); [reassociate Hs|]]; rewrite length_app; cbn; lia.
  - rewrite length_app in Hl |- *. pose proof (length_quoted body).
    eapply passes_le; [|eapply (passes_trans 1 (length s))]; [lia| |].
    + eapply (pass_string pre body (s ++ post)); [reassociate Hs|by split|lia].
    + rewrite inert by done.
      eapply passes_at; [| |eapply (IH (pre ++ quoted body) post d acc Hd); [reassociate Hs|]]; rewrite length_app; lia.
  - cbn [length] in Hl |- *. rewrite length_app in Hl |- *. cbn [length] in Hl |- *.
    eapply passes_le; [|eapply (passes_trans (length a + 2) (length s))]; [lia| |].
    { eapply (pass_nest pre o c a (s ++ post)); [done|reassociate Hs|lia|].
      eapply passes_at; [| |eapply (IHa (pre ++ [o]) (c :: s ++ post) (d + 1)%Z acc); [lia|reassociate Hs|]];
        rewrite length_app; cbn; lia. }
    eapply passes_at; [| |eapply (IHs (pre ++ o :: a ++ [c]) post d acc Hd); [reassociate Hs|]];
      rewrite length_app; cbn; rewrite length_app; cbn; lia.
Qed.

(** A nested value holds no string at its member's depth. *)
Lemma pass_object inner pre post acc :
  Balanced string_from_str inner → source = pre ++ (OPEN :: inner ++ [CLOSE]) ++ post →
  length pre + length inner + 2 ≤ limit →
  passes (length inner + 2) (1%Z, length pre, acc) (1%Z, length pre + length inner + 2, acc).
Proof using inert.
  intros Hb Hs Hl. eapply (pass_nest pre OPEN CLOSE inner post); [by left|done|lia|].
  eapply passes_at; [| |eapply (pass_balanced inner Hb (pre ++ [OPEN]) (CLOSE :: post) 2 acc); [done|reassociate Hs|]];
    rewrite length_app; cbn; lia.
Qed.
Lemma pass_raw s pre post acc :
  raw_text string_from_str s → source = pre ++ s ++ post → length pre + length s ≤ limit →
  passes (length s) (1%Z, length pre, acc) (1%Z, length pre + length s, acc).
Proof using inert.
  intros Hr Hs Hl. destruct Hr as [s _ Hp _|a Ha]; [by eapply pass_plains|].
  cbn in Hl |- *. rewrite length_app in Hl |- *. cbn in Hl |- *.
  replace (S (length a + 1)) with (length a + 2) by lia. rewrite Nat.add_assoc.
  eapply (pass_nest pre "[" "]" a post); [by right; left|done|lia|].
  eapply passes_at; [| |eapply (pass_balanced a Ha (pre ++ ["["%char]) ("]"%char :: post) 2 acc); [done|reassociate Hs|]];
    rewrite length_app; cbn; lia.
Qed.
End progress.

(** ** The members of an object *)

Section members.
Context {V B : Type} (on : Z → JsonStringToken → list B → list B) (limit : nat) (text : V → list ascii) (ok : V → Prop)
        (out : nat → field V → list B).
Notation ends c := (c ∈ [","%char; CLOSE]).
Context (value_passes : ∀ v pre ws c post acc, ok v → source = pre ++ text v ++ ws ++ c :: post → all_ws ws → ends c →
  length pre + length (text v) ≤ limit →
  passes on limit (length (text v)) (1%Z, length pre, acc) (1%Z, length pre + length (text v), acc)).
Context (key_out : ∀ f pre c post acc, field_ok string_from_str ok f → source = pre ++ field_text text f ++ c :: post →
  ends c → on 1%Z (string_at string_from_str (key_at (length pre) f) (f_key f)) acc = acc ++ out (length pre) f).

Fixpoint outs (off : nat) (fs : list (field V)) : list B :=
  match fs with [] => [] | f :: fs => out off f ++ outs (off + length (field_text text f) + 1) fs end.

Lemma length_field f :
  length (field_text text f) = length (f_before f) + length (quoted (f_key f)) + length (f_mid f) + 1 +
                               length (f_gap f) + length (text (f_value f)) + length (f_after f).
Proof. unfold field_text. repeat (rewrite length_app; cbn [length]). lia. Qed.
Lemma pass_field f pre c post acc :
  field_ok string_from_str ok f → source = pre ++ field_text text f ++ c :: post → ends c →
  length pre + length (field_text text f) ≤ limit →
  passes on limit (length (field_text text f)) (1%Z, length pre, acc)
    (1%Z, length pre + length (field_text text f), acc ++ out (length pre) f).
Proof using value_passes key_out.
  intros Hf Hs Hc Hl. rewrite <- (key_out f pre c post acc Hf Hs Hc). destruct Hf as (Hb & Hk & Hm & Hg & Hv & Ha).
  unfold field_text in Hs. pose proof (length_field f) as Hlen. pose proof (length_quoted (f_key f)).
  set (pre1 := pre ++ f_before f). set (pre2 := pre1 ++ quoted (f_key f)).
  set (pre3 := pre2 ++ f_mid f ++ ":"%char :: f_gap f). set (pre4 := pre3 ++ text (f_value f)).
  assert (length pre1 = length pre + length (f_before f)) as L1 by (unfold pre1; by rewrite length_app).
  assert (length pre2 = length pre1 + length (quoted (f_key f))) as L2 by (unfold pre2; by rewrite length_app).
  assert (length pre3 = length pre2 + length (f_mid f) + 1 + length (f_gap f)) as L3
    by (unfold pre3; rewrite length_app, length_app; cbn; lia).
  assert (length pre4 = length pre3 + length (text (f_value f))) as L4 by (unfold pre4; by rewrite length_app).
  set (acc' := on 1%Z (string_at string_from_str (key_at (length pre) f) (f_key f)) acc).
  assert (passes on limit (length (f_before f)) (1%Z, length pre, acc) (1%Z, length pre1, acc)) as P1.
  { rewrite L1. eapply pass_plains; [reassociate Hs|by apply ws_plain|lia]. }
  assert (passes on limit 1 (1%Z, length pre1, acc) (1%Z, length pre2, acc')) as P2.
  { rewrite L2. unfold acc', key_at. rewrite <- L1.
    eapply pass_string; [unfold pre1; reassociate Hs|done|lia]. }
  assert (passes on limit (length (f_mid f) + 1 + length (f_gap f)) (1%Z, length pre2, acc') (1%Z, length pre3, acc')) as P3.
  { assert (length (f_mid f ++ ":"%char :: f_gap f) = length (f_mid f) + 1 + length (f_gap f)) as L.
    { rewrite length_app. cbn. lia. }
    rewrite <- L. replace (length pre3) with (length pre2 + length (f_mid f ++ ":"%char :: f_gap f)) by lia.
    eapply pass_plains; [unfold pre2, pre1; reassociate Hs| |lia].
    apply Forall_app. split; [by apply ws_plain|]. constructor; [done|by apply ws_plain]. }
  assert (passes on limit (length (text (f_value f))) (1%Z, length pre3, acc') (1%Z, length pre4, acc')) as P4.
  { rewrite L4. eapply (value_passes _ _ (f_after f) c post); [done|unfold pre3, pre2, pre1; reassociate Hs|done|done|lia]. }
  assert (passes on limit (length (f_after f)) (1%Z, length pre4, acc') (1%Z, length pre + length (field_text text f), acc')) as P5.
  { replace (length pre + _) with (length pre4 + length (f_after f)) by lia.
    eapply pass_plains; [unfold pre4, pre3, pre2, pre1; reassociate Hs|by apply ws_plain|lia]. }
  pose proof (passes_trans _ _ _ _ _ _ _ P1 (passes_trans _ _ _ _ _ _ _ P2 (passes_trans _ _ _ _ _ _ _ P3
    (passes_trans _ _ _ _ _ _ _ P4 P5)))) as P.
  eapply passes_le; [|exact P]. lia.
Qed.

Lemma pass_members fs : ∀ pre post acc,
  fs ≠ [] → Forall (field_ok string_from_str ok) fs → source = pre ++ members text fs ++ CLOSE :: post →
  length pre + length (members text fs) ≤ limit →
  passes on limit (length (members text fs)) (1%Z, length pre, acc)
    (1%Z, length pre + length (members text fs), acc ++ outs (length pre) fs).
Proof using value_passes key_out.
  induction fs as [|f fs IH]; intros pre post acc Hne Hok Hs Hl; [done|].
  apply Forall_cons in Hok as [Hf Hok]. destruct fs as [|g fs].
  - cbn [members outs] in Hs, Hl |- *. rewrite app_nil_r. eapply (pass_field f pre CLOSE post); [done|done|by right; left|done].
  - rewrite members_cons in Hs, Hl |- *.
    change (outs (length pre) (f :: g :: fs)) with (out (length pre) f ++ outs (length pre + length (field_text text f) + 1) (g :: fs)).
    set (rest := members text (g :: fs)) in *. rewrite length_app in Hl |- *. cbn [length] in Hl |- *.
    assert (passes on limit 1 (1%Z, length pre + length (field_text text f), acc ++ out (length pre) f)
      (1%Z, length pre + length (field_text text f) + 1, acc ++ out (length pre) f)) as P2.
    { pose proof (pass_plain on limit (pre ++ field_text text f) ","%char (rest ++ CLOSE :: post) 1
        (acc ++ out (length pre) f) ltac:(reassociate Hs) eq_refl) as P. rewrite length_app in P.
      replace (length pre + length (field_text text f) + 1) with (S (length pre + length (field_text text f))) by lia.
      apply P. lia. }
    pose proof (pass_field f pre "," (rest ++ CLOSE :: post) acc Hf ltac:(reassociate Hs) ltac:(by left) ltac:(lia)) as P1.
    pose proof (IH (pre ++ field_text text f ++ [","%char]) post (acc ++ out (length pre) f) ltac:(done) Hok
      ltac:(reassociate Hs)) as P3. rewrite !length_app in P3. cbn [length] in P3.
    rewrite Nat.add_assoc in P3. fold rest in P3. specialize (P3 ltac:(lia)).
    pose proof (passes_trans _ _ _ _ _ _ _ P1 (passes_trans _ _ _ _ _ _ _ P2 P3)) as P.
    rewrite <- app_assoc in P.
    replace (length pre + (length (field_text text f) + S (length rest))) with
      (length pre + length (field_text text f) + 1 + length rest) by lia.
    eapply passes_le; [|exact P]. lia.
Qed.
End members.

(** ** Places around a key *)

Lemma separator_not_space c : c ∈ [","%char; CLOSE] → is_json_whitespace c = false ∧ c ≠ ":"%char.
Proof. intros Hc. repeat (apply elem_of_cons in Hc as [->|Hc]; [done|]). by apply elem_of_nil in Hc. Qed.

(** After a value comes no colon. *)
Lemma no_colon_after pre s ws c post :
  source = pre ++ s ++ ws ++ c :: post → all_ws ws → c ∈ [","%char; CLOSE] →
  source !! skip_whitespace source (length pre + length s) ≠ Some ":"%char.
Proof.
  intros Hs Hws Hc. apply separator_not_space in Hc as [Hc Hne]. rewrite <- length_app.
  rewrite (skip_whitespace_spec (pre ++ s) ws c post) by (done || reassociate Hs).
  rewrite <- length_app. replace (source !! _) with (Some c); [congruence|]. symmetry.
  eapply source_at. reassociate Hs.
Qed.

(** From a key's end, the colon and then the value. *)
Lemma colon_after {V} (text : V → list ascii) ok (f : field V) pre c post x rest :
  field_ok string_from_str ok f → source = pre ++ field_text text f ++ c :: post →
  text (f_value f) = x :: rest → is_json_whitespace x = false →
  let colon := skip_whitespace source (key_at (length pre) f + length (quoted (f_key f))) in
  source !! colon = Some ":"%char ∧ skip_whitespace source (S colon) = value_at (length pre) f ∧
  ∃ pre' post', source = pre' ++ text (f_value f) ++ post' ∧ length pre' = value_at (length pre) f ∧
    post' = f_after f ++ c :: post.
Proof.
  intros (Hb & Hk & Hm & Hg & Hv & Ha) Hs Hx Hx'. unfold field_text in Hs. cbn zeta.
  set (pre2 := pre ++ f_before f ++ quoted (f_key f)).
  assert (key_at (length pre) f + length (quoted (f_key f)) = length pre2) as ->.
  { unfold pre2, key_at. rewrite !length_app. lia. }
  rewrite (skip_whitespace_spec pre2 (f_mid f) ":"%char (f_gap f ++ text (f_value f) ++ f_after f ++ c :: post))
    by (done || unfold pre2; reassociate Hs).
  rewrite <- length_app. split; [eapply (source_at (pre2 ++ f_mid f)); unfold pre2; reassociate Hs|].
  assert (S (length (pre2 ++ f_mid f)) = length (pre2 ++ f_mid f ++ [":"%char])) as ->.
  { rewrite !length_app. cbn. lia. }
  rewrite (skip_whitespace_spec (pre2 ++ f_mid f ++ [":"%char]) (f_gap f) x (rest ++ f_after f ++ c :: post)); [|rewrite Hx in Hs; unfold pre2; reassociate Hs|done|done].
  assert (length (pre2 ++ f_mid f ++ [":"%char]) + length (f_gap f) = value_at (length pre) f) as ->.
  { unfold pre2, value_at, key_at. rewrite !length_app. cbn. lia. }
  split; [done|]. exists (pre2 ++ f_mid f ++ ":"%char :: f_gap f), (f_after f ++ c :: post). split_and!; [|..|done].
  - unfold pre2. reassociate Hs.
  - unfold pre2, value_at, key_at. rewrite !length_app. cbn. lia.
Qed.
Lemma read_string_other start x : source !! start = Some x → x ≠ QUOTE → read_json_string string_from_str source start = None.
Proof. intros Hx Hne. unfold read_json_string. rewrite decide_False; [done|congruence]. Qed.

(** What a value that is not a string begins with. *)
Lemma raw_head s : raw_text string_from_str s → ∃ x rest, s = x :: rest ∧ is_json_whitespace x = false ∧ x ≠ QUOTE ∧ x ≠ OPEN.
Proof.
  destruct 1 as [[|x s] Hne Hp Hw|a _]; [done|..].
  - apply Forall_cons in Hp as [Hp _], Hw as [Hw _]. exists x, s. split_and!; try done; intros ->; vm_compute in Hp; done.
  - by exists "["%char, (a ++ ["]"%char]).
Qed.

(** ** A section's entries *)

Definition dependency (off : nat) (f : field svalue) : list (JsonStringToken * JsonStringToken) :=
  match f_value f with
  | SString body => [(string_at string_from_str (key_at off f) (f_key f), string_at string_from_str (value_at off f) body)]
  | _ => []
  end.
Lemma dependencies_outs off fs :
  dependencies_from string_from_str off fs = outs svalue_text dependency off fs.
Proof. revert off. induction fs as [|f fs IH]; intros off; [done|]. cbn. by rewrite IH. Qed.

Lemma entry_inert d t acc : (2 ≤ d)%Z → on_entry string_from_str source d t acc = acc.
Proof. intros Hd. unfold on_entry. case_match; [|done]. by rewrite decide_False by lia. Qed.

Lemma svalue_passes limit v pre ws c post acc :
  svalue_ok string_from_str v → source = pre ++ svalue_text v ++ ws ++ c :: post → all_ws ws → c ∈ [","%char; CLOSE] →
  length pre + length (svalue_text v) ≤ limit →
  passes (on_entry string_from_str source) limit (length (svalue_text v)) (1%Z, length pre, acc)
    (1%Z, length pre + length (svalue_text v), acc).
Proof.
  intros Hv Hs Hws Hc Hl. destruct v as [body|text|inner]; cbn [svalue_text svalue_ok] in *.
  - pose proof (pass_string (on_entry string_from_str source) limit pre body (ws ++ c :: post) 1 acc) as P.
    pose proof (length_quoted body) as Hq. specialize (P Hs Hv ltac:(lia)).
    assert (on_entry string_from_str source 1 (string_at string_from_str (length pre) body) acc = acc) as He.
    { unfold on_entry. cbn [string_at tk_end]. rewrite decide_False; [done|]. by eapply no_colon_after. }
    rewrite He in P. eapply passes_le; [|exact P]. lia.
  - eapply pass_raw; [exact entry_inert|done|exact Hs|done].
  - assert (length (OPEN :: inner ++ [CLOSE]) = length inner + 2) as E by (cbn; rewrite length_app; cbn; lia).
    rewrite E in *. rewrite Nat.add_assoc. eapply pass_object; [exact entry_inert|done|exact Hs|lia].
Qed.

Lemma entry_key f pre c post acc :
  field_ok string_from_str (svalue_ok string_from_str) f → source = pre ++ field_text svalue_text f ++ c :: post →
  c ∈ [","%char; CLOSE] →
  on_entry string_from_str source 1 (string_at string_from_str (key_at (length pre) f) (f_key f)) acc =
  acc ++ dependency (length pre) f.
Proof.
  intros Hf Hs Hc. unfold on_entry, dependency. cbn [string_at tk_end].
  assert (∃ x rest, svalue_text (f_value f) = x :: rest ∧ is_json_whitespace x = false ∧
    (x = QUOTE ∨ match f_value f with SString _ => False | _ => True end) ∧
    (x ≠ QUOTE ∨ match f_value f with SString _ => True | _ => False end)) as (x & rest & Hx & Hw & Hq & Hnq).
  { destruct Hf as (_ & _ & _ & _ & Hv & _). destruct (f_value f) as [body|text|inner]; cbn in *.
    - eexists QUOTE, _. split_and!; [done|done|by left|by right].
    - apply raw_head in Hv as (x & rest & -> & Hw & Hq & _). exists x, rest. split_and!; [done|done|by right|by left].
    - eexists OPEN, _. split_and!; [done|done|by right|by left]. }
  destruct (colon_after svalue_text _ f pre c post x rest Hf Hs Hx Hw) as (Hcol & Hval & pre' & post' & Hs' & Hpre' & _).
  rewrite decide_True by done. rewrite Hval, <- Hpre'. destruct Hf as (_ & _ & _ & _ & Hv & _).
  destruct (f_value f) as [body|text|inner] eqn:Hfv; cbn [svalue_text svalue_ok] in *.
  - by rewrite (read_string_spec pre' body post').
  - rewrite (read_string_other (length pre') x); [by rewrite app_nil_r| |by destruct Hnq].
    eapply source_at. rewrite Hs', Hx. done.
  - rewrite (read_string_other (length pre') x); [by rewrite app_nil_r| |by destruct Hnq].
    eapply source_at. rewrite Hs', Hx. done.
Qed.

(** ** The end of an object *)

Notation balanced := (Balanced string_from_str).
Lemma balanced_app a b : balanced a → balanced b → balanced (a ++ b).
Proof.
  induction 1 as [|c s Hc _ IH|body s Hb Hr _ IH|o c a s Hoc Ha _ _ IH]; intros Hb'; [done|..]; cbn [app].
  - constructor; [done|by apply IH].
  - rewrite <- app_assoc. constructor; [done..|by apply IH].
  - rewrite <- app_assoc. cbn [app]. constructor; [done..|by apply IH].
Qed.
Lemma balanced_plain s : Forall (λ c, plain_byte c = true) s → balanced s.
Proof. induction 1; by constructor. Qed.
Lemma balanced_quoted body : string_ok string_from_str body → balanced (quoted body).
Proof. intros [Hb Hr]. rewrite <- (app_nil_r (quoted body)). constructor; [done..|constructor]. Qed.
Lemma balanced_nest o c a : (o, c) ∈ [(OPEN, CLOSE); ("["%char, "]"%char)] → balanced a → balanced (o :: a ++ [c]).
Proof. intros Ho Ha. constructor; [done..|constructor]. Qed.

Lemma balanced_field {V} (text : V → list ascii) ok (f : field V) :
  (∀ v, ok v → balanced (text v)) → field_ok string_from_str ok f → balanced (field_text text f).
Proof.
  intros Hval (Hb & Hk & Hm & Hg & Hv & Ha). unfold field_text.
  apply balanced_app; [by apply balanced_plain, ws_plain|]. apply balanced_app; [by apply balanced_quoted|].
  apply balanced_app; [by apply balanced_plain, ws_plain|]. apply bal_char; [done|].
  apply balanced_app; [by apply balanced_plain, ws_plain|]. apply balanced_app; [by apply Hval|].
  by apply balanced_plain, ws_plain.
Qed.
Lemma balanced_members {V} (text : V → list ascii) ok (fs : list (field V)) :
  (∀ v, ok v → balanced (text v)) → Forall (field_ok string_from_str ok) fs → balanced (members text fs).
Proof.
  intros Hval. induction 1 as [|f fs Hf Hfs IH]; [constructor|]. destruct fs as [|g fs].
  - by eapply balanced_field.
  - rewrite members_cons. apply balanced_app; [by eapply balanced_field|]. by apply bal_char.
Qed.
Lemma balanced_svalue v : svalue_ok string_from_str v → balanced (svalue_text v).
Proof.
  destruct v as [body|text|inner]; cbn [svalue_ok svalue_text]; intros Hv.
  - by apply balanced_quoted.
  - destruct Hv as [s _ Hp _|a Ha]; [by apply balanced_plain|]. apply balanced_nest; [by right; left|done].
  - apply balanced_nest; [by left|done].
Qed.
Lemma balanced_inner blank deps :
  all_ws blank → Forall (field_ok string_from_str (svalue_ok string_from_str)) deps →
  balanced match deps with [] => blank | _ => members svalue_text deps end.
Proof.
  intros Hb Hd. destruct deps as [|f deps]; [by apply balanced_plain, ws_plain|].
  eapply balanced_members; [exact balanced_svalue|done].
Qed.

(** Within [n] turns the search gets from one depth and place to the other. *)
Definition skips (n : nat) (s s' : Z * nat) : Prop :=
  ∃ k, k ≤ n ∧ ∀ fuel, object_end_from string_from_str source (k + fuel) s.1 s.2 =
                       object_end_from string_from_str source fuel s'.1 s'.2.
Lemma skips_trans n m s1 s2 s3 : skips n s1 s2 → skips m s2 s3 → skips (n + m) s1 s3.
Proof.
  intros (k & Hk & H1) (j & Hj & H2). exists (k + j). split; [lia|]. intros fuel.
  rewrite <- Nat.add_assoc, H1. apply H2.
Qed.
Lemma skips_le n m s s' : n ≤ m → skips n s s' → skips m s s'.
Proof. intros Hn (k & Hk & H). exists k. split; [lia|done]. Qed.
Lemma skips_at n d p q d' p' q' : p = q → p' = q' → skips n (d, q) (d', q') → skips n (d, p) (d', p').
Proof. by intros -> ->. Qed.

Lemma skip_byte pre c post d :
  source = pre ++ c :: post → c ≠ QUOTE → (1 ≤ d)%Z → (c = CLOSE → 2 ≤ d)%Z →
  skips 1 (d, length pre) ((if decide (c = OPEN) then d + 1 else if decide (c = CLOSE) then d - 1 else d)%Z, length (pre ++ [c])).
Proof.
  intros Hs Hq Hd Hc. exists 1. split; [done|]. intros fuel. cbn. rewrite (source_at _ _ _ Hs).
  rewrite length_app, Nat.add_1_r, decide_False by done. case_decide; [done|]. case_decide as Hclose; [|done].
  rewrite decide_False; [done|]. specialize (Hc Hclose). lia.
Qed.
Lemma skip_string pre body post d :
  source = pre ++ quoted body ++ post → string_ok string_from_str body →
  skips 1 (d, length pre) (d, length (pre ++ quoted body)).
Proof.
  intros Hs Hok. exists 1. split; [done|]. intros fuel. cbn [object_end_from Nat.add fst snd].
  assert (source !! length pre = Some QUOTE) as -> by (rewrite Hs; by apply list_lookup_middle).
  rewrite decide_True by done. rewrite (read_string_spec _ _ _ Hs) by done. by rewrite length_app.
Qed.

(** The search stays inside an object while its text is balanced. *)
Lemma object_end_inside s : balanced s → ∀ pre post depth,
  (1 ≤ depth)%Z → source = pre ++ s ++ post → skips (length s) (depth, length pre) (depth, length (pre ++ s)).
Proof.
  induction 1 as [|c s Hc _ IH|body s Hb Hr _ IH|o c a s Hoc _ IHa _ IHs]; intros pre post depth Hd Hs.
  - exists 0. split; [done|]. by rewrite app_nil_r.
  - unfold plain_byte, is_bracket in Hc. apply andb_prop in Hc as [Hq Hbr].
    apply negb_true_iff, bool_decide_eq_false in Hq, Hbr. rewrite !not_elem_of_cons in Hbr. destruct Hbr as (Ho & Hc & _).
    eapply (skips_trans 1 (length s)); [by eapply (skip_byte pre c (s ++ post))|]. rewrite !decide_False by done.
    eapply skips_at; [done| |eapply (IH (pre ++ [c]) post depth Hd); reassociate Hs]. by rewrite <- app_assoc.
  - pose proof (length_quoted body). rewrite length_app.
    eapply skips_le; [|eapply (skips_trans 1 (length s)); [eapply (skip_string pre body (s ++ post)); [reassociate Hs|by split]|]]; [lia|].
    eapply skips_at; [done| |eapply (IH (pre ++ quoted body) post depth Hd); reassociate Hs]. by rewrite <- app_assoc.
  - set (d' := if decide (o = OPEN) then (depth + 1)%Z else depth).
    assert ((1 ≤ d')%Z ∧ o ≠ QUOTE ∧ c ≠ QUOTE ∧ o ≠ CLOSE ∧ c ≠ OPEN ∧
      (if decide (c = CLOSE) then d' - 1 else d')%Z = depth ∧ (c = CLOSE → 2 ≤ d')%Z) as (H1 & Hqo & Hqc & Hoc' & Hco & H2 & H3).
    { unfold d'. rewrite !elem_of_cons in Hoc. destruct Hoc as [[= -> ->]|[[= -> ->]|[]%elem_of_nil]]; repeat (rewrite decide_True by done || rewrite decide_False by done); split_and!; first [done|lia|by intros; lia]. }
    cbn [length]. rewrite length_app. cbn [length].
    eapply skips_le; [|eapply (skips_trans 1 (length a + (1 + length s)))]; [lia| |].
    { eapply (skip_byte pre o (a ++ c :: s ++ post)); [reassociate Hs|done|done|done]. }
    rewrite (decide_False (P := o = CLOSE)) by done. fold d'.
    eapply skips_trans; [eapply (IHa (pre ++ [o]) (c :: s ++ post) d' H1); reassociate Hs|].
    eapply skips_trans; [eapply (skip_byte ((pre ++ [o]) ++ a) c (s ++ post)); [reassociate Hs|done..]|].
    rewrite (decide_False (P := c = OPEN)) by done. rewrite H2.
    eapply skips_at; [done| |eapply (IHs (((pre ++ [o]) ++ a) ++ [c]) post depth Hd); reassociate Hs].
    f_equal. repeat (rewrite <- app_assoc; cbn [app]). done.
Qed.

Lemma object_end_spec pre inner post :
  balanced inner → source = pre ++ (OPEN :: inner ++ [CLOSE]) ++ post →
  matching_object_end string_from_str source (length pre) = Some (length pre + length (OPEN :: inner ++ [CLOSE])).
Proof.
  intros Hb Hs. unfold matching_object_end.
  destruct (object_end_inside inner Hb (pre ++ [OPEN]) (CLOSE :: post) 1 ltac:(lia) ltac:(reassociate Hs)) as (k & Hk & H).
  assert (∃ n, length source = S (k + S n)) as [n ->].
  { exists (length source - k - 2). rewrite Hs. repeat (rewrite length_app; cbn [length]). lia. }
  cbn [object_end_from fst snd] in H |- *. rewrite (source_at pre OPEN (inner ++ CLOSE :: post)) by (reassociate Hs).
  rewrite decide_False by done. rewrite decide_True by done.
  rewrite (length_app pre [OPEN]), Nat.add_1_r in H. change (0 + 1)%Z with 1%Z. rewrite H. cbn [object_end_from].
  rewrite (source_at ((pre ++ [OPEN]) ++ inner) CLOSE post) by (reassociate Hs).
  rewrite !decide_False by done. rewrite !decide_True by done. f_equal. rewrite !length_app. cbn. rewrite length_app. cbn. lia.
Qed.

(** ** The sections of a document *)

Definition section_of (off : nat) (f : field tvalue) : list DependencySectionObject :=
  match f_value f with
  | TObject blank deps =>
      if is_dependency_section_name (key_name string_from_str f) then
        [{| so_section := key_name string_from_str f; key_start := key_at off f;
            key_end := key_at off f + length (quoted (f_key f)); object_start := value_at off f;
            object_end := value_at off f + length (object_text svalue_text blank deps) |}]
      else []
  | _ => []
  end.
Lemma sections_outs off fs :
  (sections_from string_from_str off fs).*1 = outs tvalue_text section_of off fs.
Proof.
  revert off. induction fs as [|f fs IH]; intros off; [done|]. cbn [sections_from outs]. rewrite fmap_app, IH. f_equal.
  unfold section_of. destruct (f_value f); [done..|]. by case_match.
Qed.

Lemma section_inert d t acc : (2 ≤ d)%Z → on_section string_from_str source d t acc = acc.
Proof. intros Hd. unfold on_section. rewrite bool_decide_eq_false_2 by lia. done. Qed.

Lemma tvalue_passes limit v pre ws c post acc :
  tvalue_ok string_from_str v → source = pre ++ tvalue_text v ++ ws ++ c :: post → all_ws ws → c ∈ [","%char; CLOSE] →
  length pre + length (tvalue_text v) ≤ limit →
  passes (on_section string_from_str source) limit (length (tvalue_text v)) (1%Z, length pre, acc)
    (1%Z, length pre + length (tvalue_text v), acc).
Proof.
  intros Hv Hs Hws Hc Hl. destruct v as [body|text|blank deps]; cbn [tvalue_text tvalue_ok] in *.
  - pose proof (pass_string (on_section string_from_str source) limit pre body (ws ++ c :: post) 1 acc) as P.
    pose proof (length_quoted body) as Hq. specialize (P Hs Hv ltac:(lia)).
    assert (on_section string_from_str source 1 (string_at string_from_str (length pre) body) acc = acc) as He.
    { unfold on_section. cbn [string_at tk_end]. rewrite (bool_decide_eq_false_2 (source !! _ = _)); [done|]. by eapply no_colon_after. }
    rewrite He in P. eapply passes_le; [|exact P]. lia.
  - eapply pass_raw; [exact section_inert|done|exact Hs|done].
  - destruct Hv as [Hb Hd]. unfold object_text in *. set (inner := match deps with [] => blank | _ => _ end) in *.
    assert (length (OPEN :: inner ++ [CLOSE]) = length inner + 2) as E by (cbn; rewrite length_app; cbn; lia).
    rewrite E in *. rewrite Nat.add_assoc. eapply pass_object; [exact section_inert|by apply balanced_inner|exact Hs|lia].
Qed.

Lemma section_key f pre c post acc :
  field_ok string_from_str (tvalue_ok string_from_str) f → source = pre ++ field_text tvalue_text f ++ c :: post →
  c ∈ [","%char; CLOSE] →
  on_section string_from_str source 1 (string_at string_from_str (key_at (length pre) f) (f_key f)) acc =
  acc ++ section_of (length pre) f.
Proof.
  intros Hf Hs Hc. unfold on_section, section_of. cbn [string_at tk_end tk_value tk_start].
  assert (∃ x rest, tvalue_text (f_value f) = x :: rest ∧ is_json_whitespace x = false ∧
    (x ≠ OPEN ∨ match f_value f with TObject _ _ => True | _ => False end)) as (x & rest & Hx & Hw & Hno).
  { destruct Hf as (_ & _ & _ & _ & Hv & _). destruct (f_value f) as [body|text|blank deps]; cbn in *.
    - eexists QUOTE, _. split_and!; [done|done|by left].
    - apply raw_head in Hv as (x & rest & -> & Hw & _ & Ho). exists x, rest. split_and!; [done|done|by left].
    - eexists OPEN, _. split_and!; [done|done|by right]. }
  destruct (colon_after tvalue_text _ f pre c post x rest Hf Hs Hx Hw) as (Hcol & Hval & pre' & post' & Hs' & Hpre' & _).
  rewrite (bool_decide_eq_true_2 _ Hcol), bool_decide_eq_true_2 by done. cbn [andb]. rewrite Hval.
  change (default "" (string_from_str (quoted (f_key f)))) with (key_name string_from_str f).
  assert (source !! value_at (length pre) f = Some x) as Hat by (rewrite <- Hpre'; eapply source_at; by rewrite Hs', Hx).
  destruct Hf as (_ & _ & _ & _ & Hv & _).
  destruct (is_dependency_section_name _).
  2:{ by destruct (f_value f); rewrite app_nil_r. }
  destruct (f_value f) as [body|text|blank deps] eqn:Hfv; cbn [tvalue_text tvalue_ok] in *.
  - rewrite decide_False; [by rewrite app_nil_r|]. rewrite Hat. destruct Hno; [congruence|done].
  - rewrite decide_False; [by rewrite app_nil_r|]. rewrite Hat. destruct Hno; [congruence|done].
  - rewrite decide_True; [|rewrite Hat; by injection Hx as -> _]. destruct Hv as [Hb Hd].
    unfold object_text in *. rewrite <- Hpre', (object_end_spec pre' _ post' (balanced_inner _ _ Hb Hd) Hs'). done.
Qed.

(** ** A whole object, scanned from the level outside *)

Lemma scan_end {A} (on : Z → JsonStringToken → A → A) limit fuel d p acc :
  limit ≤ p → scan string_from_str source on limit fuel d p acc = acc.
Proof. intros H. destruct fuel; [done|]. cbn. by destruct (Nat.leb_spec limit p); [|lia]. Qed.

Lemma scan_object {V B} (on : Z → JsonStringToken → list B → list B) (text : V → list ascii) ok out limit blank fs pre post :
  (∀ v pre ws c post acc, ok v → source = pre ++ text v ++ ws ++ c :: post → all_ws ws → c ∈ [","%char; CLOSE] →
     length pre + length (text v) ≤ limit →
     passes on limit (length (text v)) (1%Z, length pre, acc) (1%Z, length pre + length (text v), acc)) →
  (∀ f pre c post acc, field_ok string_from_str ok f → source = pre ++ field_text text f ++ c :: post →
     c ∈ [","%char; CLOSE] →
     on 1%Z (string_at string_from_str (key_at (length pre) f) (f_key f)) acc = acc ++ out (length pre) f) →
  all_ws blank → Forall (field_ok string_from_str ok) fs →
  source = pre ++ object_text text blank fs ++ post → length pre + length (object_text text blank fs) ≤ limit →
  passes on limit (length (object_text text blank fs)) (0%Z, length pre, [])
    (0%Z, length pre + length (object_text text blank fs), outs text out (S (length pre)) fs).
Proof.
  intros Hval Hkey Hb Hfs Hs Hl. unfold object_text in *. set (inner := match fs with [] => blank | _ => _ end) in *.
  assert (length (OPEN :: inner ++ [CLOSE]) = length inner + 2) as E by (cbn; rewrite length_app; cbn; lia).
  rewrite E in *. rewrite Nat.add_assoc.
  eapply (pass_nest on limit pre OPEN CLOSE inner post); [by left|exact Hs|lia|].
  assert (length (pre ++ [OPEN]) = S (length pre)) as L by (rewrite length_app; cbn; lia).
  rewrite <- L. subst inner. destruct fs as [|f fs].
  - eapply pass_plains; [reassociate Hs|by apply ws_plain|lia].
  - eapply (pass_members on limit text ok out Hval Hkey (f :: fs) (pre ++ [OPEN]) post []); [done|done|reassociate Hs|lia].
Qed.

Lemma entries_of_section pre blank deps post section :
  all_ws blank → Forall (field_ok string_from_str (svalue_ok string_from_str)) deps →
  source = pre ++ object_text svalue_text blank deps ++ post →
  object_start section = length pre → object_end section = length pre + length (object_text svalue_text blank deps) →
  entry_tokens string_from_str source section = dependencies_from string_from_str (S (length pre)) deps.
Proof.
  intros Hb Hd Hs Hst Hen. unfold entry_tokens. rewrite Hst, Hen, dependencies_outs.
  set (n := length (object_text svalue_text blank deps)) in *.
  destruct (scan_object (on_entry string_from_str source) svalue_text (svalue_ok string_from_str) dependency
    (length pre + n) blank deps pre post) as (k & Hk & H); [apply svalue_passes|apply entry_key|done..|].
  replace (length source) with (k + (length source - k)).
  - rewrite H. cbn [fst snd]. by apply scan_end.
  - apply (f_equal length) in Hs. rewrite !length_app in Hs. lia.
Qed.

Lemma sections_of_document before blank fs after :
  Forall (λ c, plain_byte c = true) before → Forall (λ c, plain_byte c = true) after → all_ws blank →
  Forall (field_ok string_from_str (tvalue_ok string_from_str)) fs →
  source = before ++ object_text tvalue_text blank fs ++ after →
  dependency_section_objects string_from_str source = (sections_from string_from_str (S (length before)) fs).*1.
Proof.
  intros Hbe Haf Hb Hfs Hs. unfold dependency_section_objects. rewrite sections_outs.
  set (n := length (object_text tvalue_text blank fs)) in *.
  assert (length source = length before + n + length after) as Hlen by (rewrite Hs, !length_app; unfold n; lia).
  pose proof (pass_plains (on_section string_from_str source) (length source) [] before
    (object_text tvalue_text blank fs ++ after) 0 [] Hs Hbe ltac:(cbn; lia)) as P1.
  pose proof (scan_object (on_section string_from_str source) tvalue_text (tvalue_ok string_from_str) section_of
    (length source) blank fs before after (tvalue_passes (length source)) section_key Hb Hfs Hs ltac:(fold n; lia)) as P2.
  fold n in P2.
  pose proof (pass_plains (on_section string_from_str source) (length source) (before ++ object_text tvalue_text blank fs) after []
    0 (outs tvalue_text section_of (S (length before)) fs) ltac:(rewrite app_nil_r; reassociate Hs) Haf
    ltac:(rewrite length_app; fold n; lia)) as P3.
  rewrite length_app in P3. fold n in P3. cbn [length Nat.add] in P1.
  destruct (passes_trans _ _ _ _ _ _ _ P1 (passes_trans _ _ _ _ _ _ _ P2 P3)) as (k & Hk & H).
  replace (length source) with (k + (length source - k)) at 2 by lia.
  rewrite H. cbn [fst snd]. apply scan_end. lia.
Qed.

(** Each section the document holds has its entries. *)
Lemma tokens_of_sections fs : ∀ pre post,
  Forall (field_ok string_from_str (tvalue_ok string_from_str)) fs → source = pre ++ members tvalue_text fs ++ CLOSE :: post →
  Forall (λ e, entry_tokens string_from_str source e.1 = e.2) (sections_from string_from_str (length pre) fs).
Proof.
  induction fs as [|f fs IH]; intros pre post Hok Hs; [constructor|].
  apply Forall_cons in Hok as [Hf Hok]. cbn [sections_from].
  assert (∃ c post', source = pre ++ field_text tvalue_text f ++ c :: post' ∧ c ∈ [","%char; CLOSE]) as (c & post' & Hs' & Hc).
  { destruct fs as [|g fs]; [exists CLOSE, post; split; [done|by right; left]|].
    rewrite members_cons in Hs. eexists ","%char, _. split; [reassociate Hs|by left]. }
  apply Forall_app. split.
  - destruct (f_value f) as [| |blank deps] eqn:Hv; [constructor..|]. case_match; [|constructor].
    apply Forall_singleton. cbn [fst snd].
    destruct (colon_after tvalue_text _ f pre c post' OPEN
      (match deps with [] => blank | _ => members svalue_text deps end ++ [CLOSE]) Hf Hs' ltac:(by rewrite Hv) eq_refl)
      as (_ & _ & pre2 & post2 & Hs2 & Hpre2 & _).
    rewrite Hv in Hs2. cbn [tvalue_text] in Hs2. destruct Hf as (_ & _ & _ & _ & Ht & _). rewrite Hv in Ht. destruct Ht as [Hb Hd].
    rewrite <- Hpre2. by eapply entries_of_section.
  - destruct fs as [|g fs]; [constructor|]. rewrite members_cons in Hs.
    replace (length pre + length (field_text tvalue_text f) + 1) with (length (pre ++ field_text tvalue_text f ++ [","%char]))
      by (rewrite !length_app; cbn; lia).
    apply (IH _ post); [done|reassociate Hs].
Qed.
End scans.

Lemma mapM_filter_concat {A B} (f : A → option (list B)) (named : A → bool) l :
  Forall (λ a, named a = false → f a = Some []) l →
  @concat B <$> mapM f (filter (λ a, named a = true) l) = @concat B <$> mapM f l.
Proof.
  induction 1 as [|a l Ha Hl IH]; [done|]. rewrite filter_cons. destruct (decide (named a = true)) as [Hn|Hn].
  - cbn. destruct (f a); [|done]. cbn. destruct (mapM f (filter _ l)), (mapM f l); cbn in *; congruence.
  - cbn. rewrite IH, Ha by (by destruct (named a)). cbn. by destruct (mapM f l).
Qed.

(** C28. In a JSON document, whatever its layout and whatever its other members
    hold, the scanner finds exactly the object-valued dependency sections of the
    root, each at its place, and as entries exactly the string-valued members of
    those sections, in reading order within a line and name. *)
Theorem entries_are_the_string_dependencies `{ML : ManifestLibraries} string_from_str before blank fs after parsed root :
  Forall (λ c, plain_byte c = true) before → Forall (λ c, plain_byte c = true) after → all_ws blank →
  Forall (field_ok string_from_str (tvalue_ok string_from_str)) fs →
  let source := before ++ object_text tvalue_text blank fs ++ after in
  let sections := sections_from string_from_str (S (length before)) fs in
  from_str (of_bytes source) = inl parsed → as_object parsed = Some root →
  Forall (λ e, e.2 ≠ [] → ∃ x l, value_get (so_section e.1) parsed ≫= as_object = Some (x :: l)) sections →
  package_json_dependency_sections string_from_str source = mapM (section_at source (LineIndex_new source)) sections.*1 ∧
  package_json_dependency_entries string_from_str source =
    (λ l, stable_sort by_line_and_name (concat l)) <$>
      mapM (λ e, mapM (entry_at source (LineIndex_new source) (so_section e.1)) e.2) sections.
Proof.
  intros Hbe Haf Hb Hfs source sections Hp Hroot Hnamed.
  pose proof (sections_of_document string_from_str source before blank fs after Hbe Haf Hb Hfs eq_refl) as Hsec.
  unfold package_json_dependency_sections, package_json_dependency_entries. rewrite Hp, Hroot, Hsec.
  fold sections. split; [done|].
  assert (Forall (λ e, entry_tokens string_from_str source e.1 = e.2) sections) as Htok.
  { destruct fs as [|f fs]; [constructor|]. unfold sections.
    replace (S (length before)) with (length (before ++ [OPEN])) by (rewrite length_app; cbn; lia).
    eapply (tokens_of_sections string_from_str source (f :: fs) _ after); [done|]. unfold source, object_text.
    by rewrite <- !app_assoc; cbn [app]; rewrite <- app_assoc. }
  set (named := λ s, match value_get (so_section s) parsed ≫= as_object with Some (_ :: _) => true | _ => false end).
  set (g := dependency_entries_for_section string_from_str source (LineIndex_new source)).
  assert (mapM g sections.*1 = mapM (λ e, mapM (entry_at source (LineIndex_new source) (so_section e.1)) e.2) sections) as Hg.
  { clear Hnamed Hsec. induction Htok as [|e l He Hl IH]; [done|].
    change (mapM g (e :: l).*1) with (y ← g e.1; k ← mapM g l.*1; Some (y :: k)). rewrite IH. unfold g, dependency_entries_for_section.
    by rewrite He. }
  pose proof (mapM_filter_concat g named sections.*1) as Hf. rewrite Hg in Hf.
  change (mapM _ (filter _ _) ≫= _) with (l ← mapM g (filter (λ s, named s = true) sections.*1); Some (stable_sort by_line_and_name (concat l))).
  assert (∀ o o' : option (list (list PackageJsonDependencyEntry)),
    @concat PackageJsonDependencyEntry <$> o = @concat PackageJsonDependencyEntry <$> o' →
    (l ← o; Some (stable_sort by_line_and_name (concat l))) = (λ l, stable_sort by_line_and_name (concat l)) <$> o') as Ho.
  { intros [l|] [l'|] Heq; try done. cbn in Heq |- *. by injection Heq as ->. }
  apply Ho, Hf.
  apply Forall_fmap, Forall_forall. intros e He Hn. cbn in Hn |- *.
  rewrite Forall_forall in Htok, Hnamed. unfold g, dependency_entries_for_section. rewrite (Htok _ He).
  destruct e as [sec [|t ts]]; [done|]. cbn [fst snd] in *. unfold named in Hn.
  destruct (Hnamed _ He ltac:(done)) as (x & l & Hx). cbn in Hx. by rewrite Hx in Hn.
Qed.

(** ** No position off a character *)

Section positions.
Context `{ML : ManifestLibraries} (string_from_str : list ascii → option string) (source : list ascii).

(** A place between an ASCII byte and what follows it, or before one. *)
Definition beside_ascii (i : nat) : Prop :=
  ∃ a, between 0 127 a = true ∧ (source !! i = Some a ∨ ∃ j, i = S j ∧ source !! j = Some a).
Definition token_fits (t : JsonStringToken) : Prop := beside_ascii (tk_start t) ∧ beside_ascii (tk_end t).

Lemma beside_ascii_position i : is_utf8 source = true → beside_ascii i →
  is_Some (position_at (LineIndex_new source) source i).
Proof.
  intros Hu (a & Ha & Hi). rewrite positions_of; [by eexists|done|].
  assert (∀ b, is_continuation b = false → source !! i = Some b → is_char_boundary source i = true) as Hb.
  { intros b Hb Hi'. unfold is_char_boundary. rewrite Hi', Hb. by rewrite orb_true_r. }
  destruct (decide (i < length source)) as [Hlt|Hge].
  - rewrite Nat.min_l by lia. apply lookup_lt_is_Some_2 in Hlt as [b Hib]. eapply Hb; [|exact Hib].
    destruct Hi as [Hi|(j & -> & Hj)]; [|exact (utf8_after_ascii source j a b Hu Hj Ha Hib)].
    rewrite Hib in Hi. injection Hi as ->. unfold is_continuation, between in *.
    apply andb_prop in Ha as [_ Ha]. apply N.leb_le in Ha. apply andb_false_iff. left. apply N.leb_gt. lia.
  - rewrite Nat.min_r by lia. unfold is_char_boundary. rewrite (lookup_ge_None_2 source) by lia.
    by rewrite (bool_decide_eq_true_2 (_ = length source)), orb_true_r.
Qed.

Lemma string_end_Some l : ∀ k e, string_end k l = Some e → ∃ j, e = S (k + j) ∧ l !! j = Some QUOTE.
Proof.
  induction l as [l IH] using (induction_ltof1 _ length). unfold ltof in IH. intros k e.
  destruct l as [|c l]; cbn [string_end]; [done|]. case_decide.
  - destruct l as [|d l]; [done|]. intros (j & -> & Hj)%IH; [|cbn; lia]. exists (S (S j)). split; [lia|done].
  - case_decide as Hc; [intros [= <-]; exists 0; split; [lia|by rewrite Hc]|].
    intros (j & -> & Hj)%IH; [|cbn; lia]. exists (S j). split; [lia|done].
Qed.
Lemma read_string_fits start t : read_json_string string_from_str source start = Some t → token_fits t.
Proof.
  unfold read_json_string. case_decide as Hq; [|done].
  destruct (string_end _ _) as [e|] eqn:He; [|done]. cbn. destruct (string_from_str _); [|done]. intros [= <-].
  apply string_end_Some in He as (j & -> & Hj). rewrite lookup_drop in Hj. split; cbn.
  - exists QUOTE. split; [done|by left].
  - exists QUOTE. split; [done|]. right. exists (S start + j). split; [lia|done].
Qed.
Lemma object_end_fits fuel : ∀ depth current e,
  object_end_from string_from_str source fuel depth current = Some e → beside_ascii e.
Proof.
  induction fuel as [|fuel IH]; intros depth current e; [done|]. cbn.
  destruct (source !! current) as [b|] eqn:Hb; [|done]. case_decide.
  { destruct (read_json_string _ _ _); [|done]. apply IH. }
  case_decide; [apply IH|]. case_decide as Hc; [|apply IH]. case_decide; [|apply IH].
  intros [= <-]. exists CLOSE. split; [done|]. right. exists current. by rewrite Hb, Hc.
Qed.

Lemma scan_keeps {A} (P : A → Prop) (on : Z → JsonStringToken → A → A) limit fuel :
  (∀ d t acc, token_fits t → P acc → P (on d t acc)) → ∀ d current acc,
  P acc → P (scan string_from_str source on limit fuel d current acc).
Proof.
  intros Hon. induction fuel as [|fuel IH]; intros d current acc Hacc; [done|]. cbn.
  destruct (_ <=? _); [done|]. destruct (source !! current); [|done]. case_decide; [|by apply IH].
  destruct (read_json_string _ _ current) as [t|] eqn:Ht; [|done]. apply IH, Hon; [by eapply read_string_fits|done].
Qed.

Definition section_fits (o : DependencySectionObject) : Prop :=
  beside_ascii (key_start o) ∧ beside_ascii (key_end o) ∧ beside_ascii (object_start o) ∧ beside_ascii (object_end o).
Lemma sections_fit : Forall section_fits (dependency_section_objects string_from_str source).
Proof.
  unfold dependency_section_objects. apply scan_keeps; [|constructor]. intros d t acc Ht Hacc. unfold on_section.
  destruct (_ && _ && _); [|done]. case_decide as Ho; [|done].
  destruct (matching_object_end _ _ _) as [e|] eqn:He; [|done]. apply Forall_app. split; [done|]. apply Forall_singleton.
  destruct Ht. apply object_end_fits in He. split_and!; cbn; try done. exists OPEN. split; [done|by left].
Qed.
Lemma entries_fit o : Forall (λ e, token_fits e.1 ∧ token_fits e.2) (entry_tokens string_from_str source o).
Proof.
  unfold entry_tokens. apply scan_keeps; [|constructor]. intros d t acc Ht Hacc. unfold on_entry.
  set (value := if decide (_ = Some ":"%char) then _ else _).
  assert (∀ v, value = Some v → token_fits v) as Hv.
  { intros v. unfold value. case_decide; [|done]. apply read_string_fits. }
  destruct value as [v|]; [|done]. case_decide; [|done]. apply Forall_app. split; [done|]. apply Forall_singleton.
  split; [done|by apply Hv].
Qed.

Lemma range_fits a b : is_utf8 source = true → beside_ascii a → beside_ascii b →
  is_Some (range_from_offsets (LineIndex_new source) source a b).
Proof.
  intros Hu Ha Hb. unfold range_from_offsets. destruct (beside_ascii_position a Hu Ha) as [p ->].
  destruct (beside_ascii_position b Hu Hb) as [q ->]. by eexists.
Qed.

(** The scanner takes no position inside a character: it answers for every
    text, JSON or not. *)
Lemma positions_are_total : is_utf8 source = true →
  is_Some (package_json_dependency_entries string_from_str source) ∧
  is_Some (package_json_dependency_sections string_from_str source).
Proof.
  intros Hu. unfold package_json_dependency_entries, package_json_dependency_sections.
  destruct (from_str _) as [parsed|]; [|split; by eexists]. split.
  - destruct (as_object parsed) as [root|]; [|by eexists]. set (l := filter _ _).
    assert (is_Some (mapM (dependency_entries_for_section string_from_str source (LineIndex_new source)) l)) as [x ->]; [|by eexists].
    apply mapM_is_Some_2, Forall_forall. intros o _. unfold dependency_entries_for_section, compose.
    apply mapM_is_Some_2. eapply Forall_impl; [apply entries_fit|]. intros e [[H1 H2] [H3 H4]]. unfold entry_at, compose.
    destruct (range_fits _ _ Hu H1 H2) as [r ->]. destruct (range_fits _ _ Hu H3 H4) as [r' ->]. by eexists.
  - apply mapM_is_Some_2. eapply Forall_impl; [apply sections_fit|]. intros o (H1 & H2 & H3 & H4). unfold section_at, compose.
    destruct (range_fits _ _ Hu H1 H2) as [r ->]. destruct (range_fits _ _ Hu H3 H4) as [r' ->]. by eexists.
Qed.
End positions.

(** ** A manifest *)

Definition m_field {V} (key : string) (v : V) : field V :=
  {| f_before := to_bytes " "; f_key := to_bytes key; f_mid := []; f_gap := to_bytes " "; f_value := v; f_after := [] |}.
Definition m_fields : list (field tvalue) :=
  [m_field "name" (TString (to_bytes "x")); m_field "files" (TRaw (to_bytes "[{},1]"));
   m_field "dependencies" (TObject [] [m_field "b" (SString (to_bytes "^1.0.0")); m_field "a" (SString (to_bytes "2"));
                                        m_field "c" (SObject (to_bytes " "))]);
   m_field "scripts" (TObject [] [m_field "dependencies" (SString (to_bytes "no"))]);
   m_field "devDependencies" (TObject (to_bytes " ") [])].
Definition m_source : list ascii := [] ++ object_text tvalue_text [] m_fields ++ to_bytes " ".
Definition m_unquote (l : list ascii) : option string := Some (of_bytes (removelast (tail l))).
Definition m_json : ManifestLibraries := {|
  from_str _ := inl (Object [("dependencies", Object [("b", String_ "^1.0.0"); ("a", String_ "2")]); ("devDependencies", Object [])]);
  glob_match _ _ := false;
  relative_path p _ := p;
|}.
Lemma m_fields_ok : Forall (field_ok m_unquote (tvalue_ok m_unquote)) m_fields.
Proof.
  assert (all_ws (to_bytes " ")) as Hws by by repeat constructor.
  assert (∀ V (ok : V → Prop) key v, body_ok (to_bytes key) = true → ok v → field_ok m_unquote ok (m_field key v)) as Hf.
  { intros V ok key v Hk Hv. split_and!; [exact Hws|split; [done|by eexists]|constructor|exact Hws|exact Hv|constructor]. }
  unfold m_fields. repeat apply Forall_cons_2; [..|constructor]; apply Hf; try done.
  - apply (raw_array _ (to_bytes "{},1")). cbn.
    apply (bal_nest _ OPEN CLOSE []); [by left|constructor|by repeat constructor].
  - split; [constructor|]. repeat apply Forall_cons_2; [..|constructor]; apply Hf; try done.
    cbn. by repeat constructor.
  - split; [constructor|]. repeat apply Forall_cons_2; [..|constructor]; by apply Hf.
Qed.

Definition m_entries : option (list PackageJsonDependencyEntry) :=
  package_json_dependency_entries (ML := m_json) m_unquote m_source.
Definition m_sections := sections_from m_unquote 1 m_fields.
Definition m_answer : option (list (string * string * string)) :=
  match m_entries with Some es => Some ((λ e, (pd_section e, pd_name e, pd_version e)) <$> es) | None => None end.

(** The nested object, the string of another member and the empty section give
    no entry; one line's entries come in the order of their names. *)
Lemma entries_are_the_string_dependencies_witness :
  m_answer = Some [("dependencies", "a", "2"); ("dependencies", "b", "^1.0.0")] ∧ length m_sections = 2 ∧
  package_json_dependency_sections (ML := m_json) m_unquote m_source =
    mapM (section_at m_source (LineIndex_new m_source)) m_sections.*1.
Proof.
  split; [vm_compute; reflexivity|]. split; [vm_compute; reflexivity|].
  refine (proj1 (entries_are_the_string_dependencies (ML := m_json) m_unquote [] [] m_fields (to_bytes " ") _ _ _ _ _ m_fields_ok
    eq_refl eq_refl _)); [constructor|by repeat constructor|constructor|].
  change (Forall (λ e, e.2 ≠ [] → ∃ x l, value_get (so_section e.1) (Object [("dependencies", Object [("b", String_ "^1.0.0"); ("a", String_ "2")]); ("devDependencies", Object [])]) ≫= as_object = Some (x :: l)) m_sections).
  assert ((λ e, (so_section e.1, match e.2 with [] => true | _ => false end)) <$> m_sections = [("dependencies", false); ("devDependencies", true)]) as Hs
    by (vm_compute; reflexivity).
  destruct m_sections as [|e1 [|e2 [|]]]; try discriminate Hs. injection Hs as H1 _ _ H2. rewrite !Forall_cons, H1.
  split_and!; [|by destruct (e2.2)|constructor]. intros _. eexists _, _. reflexivity.
Defined.
