(* ===== verification/Report.v ===== *)
(** * The workspace report (report/scanner.rs, report/model.rs, service.rs)

    The source files of a workspace, the imports found in them as rows with
    their warnings and budget verdicts, and the summary: what every import site
    costs together, the specifiers imported more than once, the modules more than
    one import reaches, and the largest rows. *)
From stdpp Require Import base gmap list strings pretty.
From S2P Require Import Prelude Stages Results CacheKeys CachedImports SharedBytes ProjectRegistry Paths BundlerAliases PackageScan Positions DetectedImports Documents Handlers.

Set Default Proof Using "Type*".

(** ** The scan *)

(** What [read_dir] shows: links are not followed, every other entry that is
    not a directory may be a source, and a directory may not list. *)
Inductive SourceTree :=
  | SLink
  | SFile
  | SDirectory (entries : option (list (string * SourceTree))).

Definition SUPPORTED_EXTENSIONS : list string := ["js"; "jsx"; "ts"; "tsx"; "mts"; "cts"; "svelte"; "astro"; "vue"].
Definition BUILD_OUTPUT_DIRECTORIES : list string := ["dist"; "build"; "out"].
Definition MAX_SCAN_DEPTH : nat := 64.

Definition should_skip_directory (name : string) : bool :=
  should_skip_package_directory name || bool_decide (name ∈ BUILD_OUTPUT_DIRECTORIES).
Definition is_supported_source (name : string) : bool :=
  match path_extension name with
  | Some extension => existsb (λ candidate, bool_decide (lowercase extension = lowercase candidate)) SUPPORTED_EXTENSIONS
  | None => false
  end.

(** [scan_directory]: the walk of [tree], a directory at [path]. *)
Fixpoint scan_directory (path : string) (depth : nat) (tree : SourceTree) : list string :=
  match tree with
  | SDirectory (Some entries) =>
      if (MAX_SCAN_DEPTH <? depth)%nat then []
      else
        entries ≫= λ e : string * SourceTree,
          match e.2 with
          | SLink => []
          | SDirectory _ => if should_skip_directory e.1 then [] else scan_directory (path_push path e.1) (S depth) e.2
          | SFile => if is_supported_source e.1 then [path_push path e.1] else []
          end
  | _ => []
  end.
Definition scan_workspace_sources (workspace_root : string) (tree : SourceTree) : list string :=
  stable_sort (cmp_on components components_cmp) (scan_directory workspace_root 0 tree).

(** ** Rows *)

Record WorkspaceReportItem := {
  wi_detected : DetectedImport; wi_source_file : string; wi_workspace_root : string;
  wi_result : option ImportResult; wi_warning : option string;
}.
Record WorkspaceReportRow := {
  row_package_name : string; row_specifier : string; row_source_file : string; row_line : N; row_runtime : string;
  row_minified : option N; row_gzip : option N; row_brotli : option N; row_zstd : option N; row_shared : N;
  row_confidence : string; row_confidence_reasons : string; row_top_modules : string; row_warning : string;
  row_modules : list ModuleContribution;
}.
Record DuplicateImportGroup := { di_specifier : string; di_count : N; di_cost : N; di_source_files : list string }.
Record DuplicateModuleGroup := {
  dm_module_path : string; dm_basename : string; dm_count : N; dm_bytes : N; dm_cost : N;
  dm_specifiers : list string; dm_vendored : bool;
}.
Record WorkspaceReportTreemapItem := {
  tm_package_name : string; tm_specifier : string; tm_source_file : string; tm_brotli : N; tm_percentage : N; tm_confidence : string;
}.
Record WorkspaceReportSummary := {
  sm_import_count : N; sm_cost : N; sm_low : N; sm_medium : N; sm_conservative : N; sm_violations : N;
  sm_duplicates : list DuplicateImportGroup; sm_shared : list DuplicateModuleGroup; sm_treemap : list WorkspaceReportTreemapItem;
}.
Definition empty_summary : WorkspaceReportSummary :=
  {| sm_import_count := 0; sm_cost := 0; sm_low := 0; sm_medium := 0; sm_conservative := 0; sm_violations := 0;
     sm_duplicates := []; sm_shared := []; sm_treemap := [] |}.
Record WorkspaceReportRowSet := { rs_rows : list WorkspaceReportRow; rs_conservative : N; rs_violations : N }.

(** [u64] sums. *)
Definition sum_u64 (l : list N) : N := foldl wrap_add 0%N l.
Definition is_conservative_item (i : WorkspaceReportItem) : bool :=
  match wi_result i with
  | Some r => bool_decide (is_Some (sizes r)) && (is_cjs r || side_effects r || negb (truly_treeshakeable r))
  | None => false
  end.
Definition budgetable_brotli (i : WorkspaceReportItem) : option N :=
  r ← wi_result i; if is_budgetable r then brotli_bytes r else None.
(** [per_import_brotli_bytes] of the budgets. *)
Definition is_import_budget_violation (i : WorkspaceReportItem) (budget : option N) : bool :=
  match budgetable_brotli i, budget with Some brotli, Some limit => (limit <? brotli)%N | _, _ => false end.

Definition confidence_for_result (r : option ImportResult) : string :=
  match confidence <$> r with Some High => "high" | Some Medium => "medium" | Some Low => "low" | None => "unknown" end.
Definition basename (path : string) : string := match path_file_name path with Some name => of_bytes name | None => path end.
(** A middle dot between two spaces, in UTF-8. *)
Definition SEPARATOR : string := of_bytes (ascii_of_N <$> [32; 194; 183; 32]%N).
Definition module_breakdown_summary (r : option ImportResult) : string :=
  match r ≫= module_breakdown with
  | Some modules => join_with ", " ((λ m, basename (mc_path m) +:+ " (" +:+ pretty (mc_bytes m) +:+ " B)") <$> take 3 modules)
  | None => ""
  end.
Definition confidence_reason_suffix (r : ImportResult) : string :=
  match confidence_reasons r with [] => "" | reasons => ": " +:+ join_with SEPARATOR reasons end.
Definition warning_for_item (i : WorkspaceReportItem) (budget : option N) : string :=
  let shared := default 0%N (wi_result i ≫= shared_bytes) in
  join_with SEPARATOR
    ((match wi_warning i with Some w => [w] | None => [] end) ++
     (match wi_result i ≫= error with Some e => [e] | None => [] end) ++
     (if (0 <? shared)%N then ["Shares " +:+ pretty shared +:+ " B with other imports in this file"] else []) ++
     (if is_import_budget_violation i budget then
        match budgetable_brotli i, budget with
        | Some brotli, Some limit => ["Budget exceeded: " +:+ pretty brotli +:+ " B br > " +:+ pretty limit +:+ " B br"]
        | _, _ => []
        end
      else []) ++
     (if is_conservative_item i then ["Conservative estimate"] else []) ++
     match wi_result i with
     | Some r => match confidence r with
                 | Low => ["Low confidence" +:+ confidence_reason_suffix r]
                 | Medium => ["Medium confidence" +:+ confidence_reason_suffix r]
                 | High => []
                 end
     | None => []
     end).

(** The file under its root, as the scan joined it. *)
Definition relative_source_file (workspace_root source_file : string) : string :=
  let stripped := match strip_components (components workspace_root) (components source_file) with
                  | Some rest => render rest
                  | None => source_file
                  end in
  of_bytes (trim_start ["/"%char] (slashed <$> to_bytes stripped)).
Definition runtime_str (r : ImportRuntime) : string :=
  match r with Component => "component" | Client => "client" | Server => "server" end.
Definition row_for_item (budget : option N) (i : WorkspaceReportItem) : WorkspaceReportRow :=
  let r := wi_result i in
  {| row_package_name := d_package_name (wi_detected i); row_specifier := d_specifier (wi_detected i);
     row_source_file := relative_source_file (wi_workspace_root i) (wi_source_file i);
     row_line := ((d_line (wi_detected i) + 1) mod 4294967296)%N;
     row_runtime := runtime_str (d_runtime (wi_detected i));
     row_minified := r ≫= minified_bytes; row_gzip := r ≫= gzip_bytes; row_brotli := r ≫= brotli_bytes;
     row_zstd := r ≫= zstd_bytes; row_shared := default 0%N (r ≫= shared_bytes);
     row_confidence := confidence_for_result r;
     row_confidence_reasons := match r with Some r => join_with SEPARATOR (confidence_reasons r) | None => "" end;
     row_top_modules := module_breakdown_summary r; row_warning := warning_for_item i budget;
     row_modules := default [] (r ≫= module_breakdown) |}.

(** The cached key of a row: its size first, the largest on top and the
    unmeasured last, then its place as text. *)
Definition row_key (row : WorkspaceReportRow) : option N * string :=
  (row_brotli row, row_source_file row +:+ ":" +:+ pretty (row_line row) +:+ ":" +:+ row_specifier row).
Definition row_order : option N * string → option N * string → comparison :=
  cmp_lex (cmp_rev (cmp_option N.compare)) String.compare.
Definition count_of {A} (f : A → bool) (l : list A) : N := N.of_nat (length (filter (λ a, f a = true) l)).
Definition build_report_rows (items : list WorkspaceReportItem) (budget : option N) : WorkspaceReportRowSet :=
  {| rs_rows := stable_sort (cmp_on row_key row_order) (row_for_item budget <$> items);
     rs_conservative := count_of is_conservative_item items;
     rs_violations := count_of (λ i, is_import_budget_violation i budget) items |}.

(** ** Groups *)

(** The walk of a [BTreeMap] filled entry by entry: [key] of each site, a [new]
    group the first time, and the site added. *)
Section groups.
Context {S G : Type} (key : S → string) (new : S → G) (add : G → S → G).

Definition upsert_site (m : gmap string G) (s : S) : gmap string G :=
  <[key s := add (default (new s) (m !! key s)) s]> m.
Definition into_values (m : gmap string G) : list G := (stable_sort (cmp_on fst String.compare) (map_to_list m)).*2.
Definition groups (sites : list S) : list G := into_values (foldl upsert_site ∅ sites).

(** The group of a key holds its sites, in order, and no other. *)
Definition group_of (sites : list S) : option G :=
  match sites with [] => None | s :: _ => Some (foldl add (new s) sites) end.
Definition of_site (k : string) : list S → list S := filter (λ s, key s = k).

Lemma upsert_sites sites : ∀ m k,
  foldl upsert_site m sites !! k =
  match m !! k with Some g => Some (foldl add g (of_site k sites)) | None => group_of (of_site k sites) end.
Proof.
  induction sites as [|s sites IH]; intros m k; cbn [foldl]; [by destruct (m !! k)|].
  rewrite IH. unfold upsert_site, of_site. rewrite filter_cons. destruct (decide (key s = k)) as [<-|Hk].
  - rewrite lookup_insert_eq. by destruct (m !! key s).
  - by rewrite lookup_insert_ne.
Qed.
Lemma elem_of_groups sites g : g ∈ groups sites ↔ ∃ k, group_of (of_site k sites) = Some g.
Proof.
  unfold groups, into_values. rewrite list_elem_of_fmap. split.
  - intros ([k g'] & -> & Hin). rewrite stable_sort_perm in Hin. apply elem_of_map_to_list in Hin.
    rewrite upsert_sites, lookup_empty in Hin. by exists k.
  - intros [k Hk]. exists (k, g). split; [done|]. rewrite stable_sort_perm. apply elem_of_map_to_list.
    by rewrite upsert_sites, lookup_empty.
Qed.
Lemma groups_distinct (name : G → string) sites :
  (∀ s, name (new s) = key s) → (∀ g s, name (add g s) = name g) → NoDup (name <$> groups sites).
Proof.
  intros Hnew Hadd. unfold groups, into_values. rewrite <- list_fmap_compose.
  assert (name ∘ snd <$> stable_sort (cmp_on fst String.compare) (map_to_list (foldl upsert_site ∅ sites)) =
    (stable_sort (cmp_on fst String.compare) (map_to_list (foldl upsert_site ∅ sites))).*1) as ->.
  { apply list_fmap_ext. intros i [k g] Hi. apply list_elem_of_lookup_2 in Hi. rewrite stable_sort_perm in Hi.
    apply elem_of_map_to_list in Hi. rewrite upsert_sites, lookup_empty in Hi. cbn.
    assert (∀ l g, name (foldl add g l) = name g) as Hfold.
    { induction l as [|s l IH]; intros g'; cbn; [done|]. by rewrite IH, Hadd. }
    assert (∀ s, s ∈ of_site k sites → key s = k) as Hof by (intros s Hs; by apply list_elem_of_filter in Hs as [? _]).
    unfold group_of in Hi. destruct (of_site k sites) as [|s l]; [done|]. injection Hi as <-.
    rewrite Hfold, Hadd, Hnew. apply Hof. by left. }
  rewrite stable_sort_perm. apply NoDup_fst_map_to_list.
Qed.
End groups.

Definition sorted_set (l : list string) : list string := dedup (sort String.compare l).

Definition add_row (g : DuplicateImportGroup) (row : WorkspaceReportRow) : DuplicateImportGroup :=
  {| di_specifier := di_specifier g; di_count := wrap_add (di_count g) 1;
     di_cost := match row_brotli row with Some brotli => wrap_add (di_cost g) brotli | None => di_cost g end;
     di_source_files := di_source_files g ++ [row_source_file row] |}.
Definition new_import_group (row : WorkspaceReportRow) : DuplicateImportGroup :=
  {| di_specifier := row_specifier row; di_count := 0; di_cost := 0; di_source_files := [] |}.
Definition import_group_key (g : DuplicateImportGroup) : N * (N * string) := (di_count g, (di_cost g, di_specifier g)).
Definition group_order : N * (N * string) → N * (N * string) → comparison :=
  cmp_lex (cmp_rev N.compare) (cmp_lex (cmp_rev N.compare) String.compare).
Definition build_duplicate_import_groups (rows : list WorkspaceReportRow) : list DuplicateImportGroup :=
  stable_sort (cmp_on import_group_key group_order)
    ((λ g, {| di_specifier := di_specifier g; di_count := di_count g; di_cost := di_cost g;
              di_source_files := sorted_set (di_source_files g) |}) <$>
      filter (λ g, (1 < di_count g)%N) (groups row_specifier new_import_group add_row rows)).

(** A module reached by a row. *)
Notation site := (ModuleContribution * string)%type.
Definition module_sites (rows : list WorkspaceReportRow) : list site :=
  rows ≫= λ row, (λ m, (m, row_specifier row)) <$> row_modules row.
Definition count_matches (needle : list ascii) : nat → list ascii → nat :=
  fix go fuel hay :=
    match fuel with
    | 0 => 0
    | S fuel => match find_sub needle hay with Some i => S (go fuel (drop (i + length needle) hay)) | None => 0 end
    end.
Definition is_vendored_module_path (path : string) : bool :=
  let normalized := slashed <$> to_bytes path in
  let has s := match find_sub (to_bytes s) normalized with Some _ => true | None => false end in
  has "/vendor/" || has "/vendors/" || has "/vendored/" ||
  (has "/node_modules/" && (1 <? count_matches (to_bytes "/node_modules/") (length normalized) normalized)%nat).
Definition new_module_group (s : site) : DuplicateModuleGroup :=
  {| dm_module_path := mc_path s.1; dm_basename := basename (mc_path s.1); dm_count := 0; dm_bytes := 0; dm_cost := 0;
     dm_specifiers := []; dm_vendored := is_vendored_module_path (mc_path s.1) |}.
Definition add_site (g : DuplicateModuleGroup) (s : site) : DuplicateModuleGroup :=
  {| dm_module_path := dm_module_path g; dm_basename := dm_basename g; dm_count := wrap_add (dm_count g) 1;
     dm_bytes := N.max (dm_bytes g) (mc_bytes s.1); dm_cost := wrap_add (dm_cost g) (mc_bytes s.1);
     dm_specifiers := dm_specifiers g ++ [s.2]; dm_vendored := dm_vendored g |}.
Definition module_group_key (g : DuplicateModuleGroup) : N * (N * string) := (dm_count g, (dm_cost g, dm_module_path g)).
Definition build_duplicate_module_groups (rows : list WorkspaceReportRow) : list DuplicateModuleGroup :=
  stable_sort (cmp_on module_group_key group_order)
    ((λ g, {| dm_module_path := dm_module_path g; dm_basename := dm_basename g; dm_count := dm_count g;
              dm_bytes := dm_bytes g; dm_cost := dm_cost g; dm_specifiers := sorted_set (dm_specifiers g);
              dm_vendored := dm_vendored g |}) <$>
      filter (λ g, (1 < dm_count g)%N) (groups (λ s : site, mc_path s.1) new_module_group add_site (module_sites rows))).

(** ** Treemap and summary *)

Definition wrap_mul (a b : N) : N := ((a * b) mod (u64_max + 1))%N.
Definition percentage_of (brotli total : N) : N :=
  if decide (total = 0)%N then 0%N else (wrap_add (wrap_mul brotli 100) (total / 2) / total)%N.
Definition build_treemap (rows : list WorkspaceReportRow) (total : N) : list WorkspaceReportTreemapItem :=
  (λ e : WorkspaceReportRow * N,
    {| tm_package_name := row_package_name e.1; tm_specifier := row_specifier e.1; tm_source_file := row_source_file e.1;
       tm_brotli := e.2; tm_percentage := percentage_of e.2 total; tm_confidence := row_confidence e.1 |}) <$>
  take 10 (omap (λ row, brotli ← row_brotli row; if (0 <? brotli)%N then Some (row, brotli) else None) rows).
Definition build_report_summary (s : WorkspaceReportRowSet) : WorkspaceReportSummary :=
  let rows := rs_rows s in
  let cost := sum_u64 (omap row_brotli rows) in
  {| sm_import_count := N.of_nat (length rows); sm_cost := cost;
     sm_low := count_of (λ row, bool_decide (row_confidence row = "low")) rows;
     sm_medium := count_of (λ row, bool_decide (row_confidence row = "medium")) rows;
     sm_conservative := rs_conservative s; sm_violations := rs_violations s;
     sm_duplicates := build_duplicate_import_groups rows; sm_shared := build_duplicate_module_groups rows;
     sm_treemap := build_treemap rows cost |}.

(** ** The report of a workspace *)

Record WorkspaceReportRequest := { wr_version : N; wr_request_id : N; wr_workspace_root : string; wr_budget : option N }.
Record WorkspaceReportResponse := {
  wp_version : N; wp_request_id : N; wp_rows : list WorkspaceReportRow; wp_summary : WorkspaceReportSummary;
  wp_error : option string; wp_diagnostics : list ImportDiagnostic;
}.

Section report.
(** A file's text, [None] when it does not read, and [Handlers]'s blocking
    analysis of it at [Bulk], [None] when it panics. *)
Context (read_source : string → option string) (analyze_document : AnalyzeDocumentRequest → option AnalyzeDocumentResponse).

Definition report_item (request : WorkspaceReportRequest) (source_path : string) (it : ImportAnalysisItem) : WorkspaceReportItem :=
  {| wi_detected := it_detected it; wi_source_file := source_path; wi_workspace_root := wr_workspace_root request;
     wi_result := set_internal [] <$> it_result it;
     wi_warning := match it_result it with Some _ => None | None => it_message it end |}.
Definition analyze_report_source (request : WorkspaceReportRequest) (source_path source : string) : list WorkspaceReportItem :=
  match analyze_document {| ad_version := wr_version request; ad_request_id := wr_request_id request;
                            ad_workspace_root := wr_workspace_root request; ad_active_document_path := source_path;
                            ad_source := source |} with
  | None => []
  | Some response => report_item request source_path <$> ar_imports response
  end.
Definition report_items (request : WorkspaceReportRequest) (files : list string) : list WorkspaceReportItem :=
  files ≫= λ path, match read_source path with None => [] | Some source => analyze_report_source request path source end.
Definition build_workspace_report_inner (request : WorkspaceReportRequest) (tree : SourceTree) : WorkspaceReportResponse :=
  let files := scan_workspace_sources (wr_workspace_root request) tree in
  let row_set := build_report_rows (report_items request files) (wr_budget request) in
  {| wp_version := wr_version request; wp_request_id := wr_request_id request; wp_rows := rs_rows row_set;
     wp_summary := build_report_summary row_set; wp_error := None; wp_diagnostics := [] |}.
(** [panicked] is whether the aggregation did. *)
Definition build_workspace_report_on_worker (panicked : bool) (request : WorkspaceReportRequest) (tree : SourceTree) :
    WorkspaceReportResponse :=
  let failed version error diagnostic :=
    {| wp_version := version; wp_request_id := wr_request_id request; wp_rows := []; wp_summary := empty_summary;
       wp_error := Some error; wp_diagnostics := [diagnostic] |} in
  if negb (is_supported_protocol_version (wr_version request)) then
    failed (N.min (wr_version request) PROTOCOL_VERSION) (unsupported (wr_version request))
      (for_stage "protocol" "unsupported protocol version")
  else if panicked then
    failed (wr_version request) "workspace report aggregation panicked" (for_stage "workspace_report" "aggregation panicked")
  else build_workspace_report_inner request tree.
End report.

(** ** Sums and sorted sets *)

Definition sum_N (l : list N) : N := foldr N.add 0%N l.
Lemma sum_N_cons x l : sum_N (x :: l) = (x + sum_N l)%N.
Proof. done. Qed.
#[local] Arguments sum_N : simpl never.
#[local] Arguments u64_max : simpl never.
Lemma sum_N_perm l l' : l ≡ₚ l' → sum_N l = sum_N l'.
Proof. induction 1; rewrite ?sum_N_cons in *; lia. Qed.
Lemma foldl_wrap_add l : ∀ a, (a + sum_N l <= u64_max)%N → foldl wrap_add a l = (a + sum_N l)%N.
Proof.
  induction l as [|x l IH]; intros a Ha; [cbn; unfold sum_N; cbn; lia|]. rewrite sum_N_cons in *. cbn [foldl].
  rewrite wrap_add_small by lia. rewrite IH by lia. lia.
Qed.
Lemma sum_N_filter {A} (f : A → N) (P : A → Prop) `{∀ a, Decision (P a)} l : (sum_N (f <$> filter P l) <= sum_N (f <$> l))%N.
Proof. induction l as [|a l IH]; [done|]. rewrite filter_cons. case_decide; rewrite ?fmap_cons, ?sum_N_cons; lia. Qed.
Lemma length_filter_le {A} (P : A → Prop) `{∀ a, Decision (P a)} l : length (filter P l) ≤ length l.
Proof. induction l as [|a l IH]; [done|]. rewrite filter_cons. case_decide; cbn; lia. Qed.

Lemma elem_of_filter_map {A B} (f : A → B) (P : A → Prop) `{∀ a, Decision (P a)} (cmp : B → B → comparison) l b :
  b ∈ stable_sort cmp (f <$> filter P l) ↔ ∃ a, b = f a ∧ P a ∧ a ∈ l.
Proof. rewrite stable_sort_perm, list_elem_of_fmap. by setoid_rewrite list_elem_of_filter. Qed.

(** A stable sort by a key that names its elements lists each name once. *)
Lemma sorted_names {A B C} (name : B → C) (f : A → B) (P : A → Prop) `{∀ a, Decision (P a)} (cmp : B → B → comparison) l :
  NoDup ((λ a, name (f a)) <$> l) → NoDup (name <$> stable_sort cmp (f <$> filter P l)).
Proof.
  intros Hnd. rewrite stable_sort_perm, <- list_fmap_compose.
  induction l as [|a l IH]; [constructor|]. cbn in Hnd. apply NoDup_cons in Hnd as [Ha Hnd].
  rewrite filter_cons. case_decide; [|by apply IH]. cbn. apply NoDup_cons. split; [|by apply IH].
  intros (b & Hb & Hin)%list_elem_of_fmap. apply list_elem_of_filter in Hin as [_ Hin]. destruct Ha.
  apply list_elem_of_fmap. by exists b.
Qed.

(** ** Groups in closed form *)

Definition import_group (specifier : string) (sites : list WorkspaceReportRow) : DuplicateImportGroup :=
  {| di_specifier := specifier; di_count := N.of_nat (length sites); di_cost := sum_N (omap row_brotli sites);
     di_source_files := sorted_set (row_source_file <$> sites) |}.
Definition module_group (path : string) (sites : list (ModuleContribution * string)) : DuplicateModuleGroup :=
  {| dm_module_path := path; dm_basename := basename path; dm_count := N.of_nat (length sites);
     dm_bytes := foldr N.max 0%N (mc_bytes ∘ fst <$> sites); dm_cost := sum_N (mc_bytes ∘ fst <$> sites);
     dm_specifiers := sorted_set (snd <$> sites); dm_vendored := is_vendored_module_path path |}.

Lemma add_rows l : ∀ g, (di_count g + N.of_nat (length l) <= u64_max)%N → (di_cost g + sum_N (omap row_brotli l) <= u64_max)%N →
  foldl add_row g l = {| di_specifier := di_specifier g; di_count := (di_count g + N.of_nat (length l))%N;
    di_cost := (di_cost g + sum_N (omap row_brotli l))%N; di_source_files := di_source_files g ++ (row_source_file <$> l) |}.
Proof.
  induction l as [|row l IH]; intros g Hc Hs; cbn [foldl].
  - destruct g. cbn. rewrite app_nil_r. f_equal; unfold sum_N; cbn; lia.
  - cbn [length] in Hc. cbn [omap list_omap] in Hs.
    assert (match row_brotli row with Some b => wrap_add (di_cost g) b | None => di_cost g end =
      di_cost g + match row_brotli row with Some b => b | None => 0 end)%N as Hcost.
    { destruct (row_brotli row) as [b|]; [rewrite sum_N_cons in Hs; rewrite wrap_add_small by lia; done|lia]. }
    rewrite IH; unfold add_row; cbn [di_count di_cost di_specifier di_source_files]; rewrite ?Hcost, ?wrap_add_small by lia.
    + rewrite <- app_assoc. cbn. destruct (row_brotli row); rewrite ?sum_N_cons; f_equal; lia.
    + lia.
    + destruct (row_brotli row); rewrite ?sum_N_cons in Hs; lia.
Qed.
Lemma add_sites l : ∀ g, (dm_count g + N.of_nat (length l) <= u64_max)%N → (dm_cost g + sum_N (mc_bytes ∘ fst <$> l) <= u64_max)%N →
  foldl add_site g l = {| dm_module_path := dm_module_path g; dm_basename := dm_basename g;
    dm_count := (dm_count g + N.of_nat (length l))%N; dm_bytes := N.max (dm_bytes g) (foldr N.max 0%N (mc_bytes ∘ fst <$> l));
    dm_cost := (dm_cost g + sum_N (mc_bytes ∘ fst <$> l))%N; dm_specifiers := dm_specifiers g ++ (snd <$> l);
    dm_vendored := dm_vendored g |}.
Proof.
  induction l as [|s l IH]; intros g Hc Hs; cbn [foldl].
  - destruct g. cbn. rewrite app_nil_r. f_equal; unfold sum_N; cbn; lia.
  - cbn [length] in Hc. rewrite fmap_cons, sum_N_cons in Hs. cbn [compose] in Hs. rewrite IH; unfold add_site; cbn [dm_count dm_cost dm_module_path dm_basename dm_bytes dm_specifiers dm_vendored];
      rewrite ?wrap_add_small by lia; [|lia..].
    rewrite <- app_assoc, fmap_cons, sum_N_cons. cbn. f_equal; lia.
Qed.

Definition row_sites (specifier : string) : list WorkspaceReportRow → list WorkspaceReportRow :=
  filter (λ row, row_specifier row = specifier).
Definition sites_of (path : string) : list (ModuleContribution * string) → list (ModuleContribution * string) :=
  filter (λ s, mc_path s.1 = path).

Lemma sum_brotli_filter (P : WorkspaceReportRow → Prop) `{∀ a, Decision (P a)} rows :
  (sum_N (omap row_brotli (filter P rows)) <= sum_N (omap row_brotli rows))%N.
Proof.
  induction rows as [|row rows IH]; [done|]. rewrite filter_cons. case_decide; cbn; destruct (row_brotli row);
    rewrite ?sum_N_cons; lia.
Qed.
(** The summary's sums over [rows] stay below the width of a [u64]. *)
Definition fits (rows : list WorkspaceReportRow) : Prop :=
  (N.of_nat (length rows) <= u64_max ∧ sum_N (omap row_brotli rows) <= u64_max ∧
   N.of_nat (length (module_sites rows)) <= u64_max ∧ sum_N (mc_bytes ∘ fst <$> module_sites rows) <= u64_max)%N.

Lemma import_group_of rows k : fits rows →
  group_of new_import_group add_row (of_site row_specifier k rows) =
  match row_sites k rows with
  | [] => None
  | sites => Some {| di_specifier := k; di_count := N.of_nat (length sites); di_cost := sum_N (omap row_brotli sites);
                     di_source_files := row_source_file <$> sites |}
  end.
Proof.
  intros (Hc & Hs & _). change (of_site row_specifier k rows) with (row_sites k rows).
  assert (length (row_sites k rows) ≤ length rows) as Hlen by apply length_filter_le.
  assert (sum_N (omap row_brotli (row_sites k rows)) <= sum_N (omap row_brotli rows))%N as Hsum by apply sum_brotli_filter.
  assert (∀ row, row ∈ row_sites k rows → row_specifier row = k) as Hk by (intros row Hr; by apply list_elem_of_filter in Hr as [? _]).
  destruct (row_sites k rows) as [|row sites]; [done|]. unfold group_of. rewrite add_rows; cbn [new_import_group di_count di_cost di_specifier di_source_files]; [|lia..].
  by rewrite (Hk row) by by left.
Qed.
Lemma module_group_of rows k : fits rows →
  group_of new_module_group add_site (of_site (λ s, mc_path s.1) k (module_sites rows)) =
  match sites_of k (module_sites rows) with
  | [] => None
  | sites => Some {| dm_module_path := k; dm_basename := basename k; dm_count := N.of_nat (length sites);
                     dm_bytes := foldr N.max 0%N (mc_bytes ∘ fst <$> sites); dm_cost := sum_N (mc_bytes ∘ fst <$> sites);
                     dm_specifiers := snd <$> sites; dm_vendored := is_vendored_module_path k |}
  end.
Proof.
  intros (_ & _ & Hc & Hs). change (of_site (λ s, mc_path s.1) k (module_sites rows)) with (sites_of k (module_sites rows)).
  assert (length (sites_of k (module_sites rows)) ≤ length (module_sites rows)) as Hlen by apply length_filter_le.
  assert (sum_N (mc_bytes ∘ fst <$> sites_of k (module_sites rows)) <= sum_N (mc_bytes ∘ fst <$> module_sites rows))%N as Hsum
    by apply sum_N_filter.
  assert (∀ s, s ∈ sites_of k (module_sites rows) → mc_path s.1 = k) as Hk by (intros s Hr; by apply list_elem_of_filter in Hr as [? _]).
  destruct (sites_of k (module_sites rows)) as [|s sites]; [done|]. unfold group_of.
  rewrite add_sites; cbn [new_module_group dm_count dm_cost dm_module_path dm_basename dm_bytes dm_specifiers dm_vendored]; [|lia..].
  rewrite (Hk s) by by left. by rewrite N.max_0_l, !N.add_0_l.
Qed.

Lemma duplicate_imports_exact rows g : fits rows →
  g ∈ build_duplicate_import_groups rows ↔ ∃ k, 2 ≤ length (row_sites k rows) ∧ g = import_group k (row_sites k rows).
Proof.
  intros Hf. unfold build_duplicate_import_groups. rewrite elem_of_filter_map. split.
  - intros (g' & -> & Hc & Hg). apply elem_of_groups in Hg as [k Hk]. rewrite import_group_of in Hk by done.
    exists k. destruct (row_sites k rows) as [|row sites] eqn:Hs; [done|]. injection Hk as <-. cbn [di_count] in Hc.
    split; [cbn [length] in Hc |- *; lia|done].
  - intros (k & Hlen & ->). pose proof (import_group_of rows k Hf) as Hk.
    destruct (row_sites k rows) as [|row sites] eqn:Hs; [cbn in Hlen; lia|].
    refine (ex_intro _ _ (conj _ (conj _ (proj2 (elem_of_groups _ _ _ _ _) (ex_intro _ k Hk))))); [done|].
    cbn [di_count dm_count length] in Hlen |- *. lia.
Qed.
Lemma shared_modules_exact rows g : fits rows →
  g ∈ build_duplicate_module_groups rows ↔
  ∃ k, 2 ≤ length (sites_of k (module_sites rows)) ∧ g = module_group k (sites_of k (module_sites rows)).
Proof.
  intros Hf. unfold build_duplicate_module_groups. rewrite elem_of_filter_map. split.
  - intros (g' & -> & Hc & Hg). apply elem_of_groups in Hg as [k Hk]. rewrite module_group_of in Hk by done.
    exists k. destruct (sites_of k _) as [|row sites] eqn:Hs; [done|]. injection Hk as <-. cbn [dm_count] in Hc.
    split; [cbn [length] in Hc |- *; lia|done].
  - intros (k & Hlen & ->). pose proof (module_group_of rows k Hf) as Hk.
    destruct (sites_of k _) as [|row sites] eqn:Hs; [cbn in Hlen; lia|].
    refine (ex_intro _ _ (conj _ (conj _ (proj2 (elem_of_groups _ _ _ _ _) (ex_intro _ k Hk))))); [done|].
    cbn [di_count dm_count length] in Hlen |- *. lia.
Qed.

Lemma percentage_bounded brotli total : (brotli <= total)%N → (total * 101 <= u64_max)%N → (percentage_of brotli total <= 100)%N.
Proof.
  intros Hb Ht. unfold percentage_of. case_decide; [lia|]. unfold wrap_mul. rewrite N.mod_small by lia.
  assert (total / 2 <= total)%N as Hhalf by (apply N.Div0.div_le_upper_bound; lia). rewrite wrap_add_small by lia.
  apply N.lt_succ_r. apply N.Div0.div_lt_upper_bound.
  assert (total / 2 < total)%N by (apply N.div_lt; lia). lia.
Qed.

#[export] Instance group_order_order : CmpOrder group_order.
Proof. unfold group_order. apply _. Qed.
#[export] Instance row_order_order : CmpOrder row_order.
Proof. unfold row_order. apply _. Qed.

(** Over rows whose sums fit a [u64], the duplicate groups are exactly the
    specifiers imported at two or more sites and the shared modules exactly the
    paths two or more imports reach: each once, with its number of sites, its
    cost counted at every site, a module at its fullest, and its files or
    specifiers as a sorted set; the most frequent and costly come first. *)
Theorem duplicates_are_exact rows : fits rows →
  let imports := build_duplicate_import_groups rows in
  let modules := build_duplicate_module_groups rows in
  (∀ g, g ∈ imports ↔ ∃ k, 2 ≤ length (row_sites k rows) ∧ g = import_group k (row_sites k rows)) ∧
  NoDup (di_specifier <$> imports) ∧
  StronglySorted (λ g g', cmp_le group_order (import_group_key g) (import_group_key g')) imports ∧
  (∀ g, g ∈ modules ↔ ∃ k, 2 ≤ length (sites_of k (module_sites rows)) ∧ g = module_group k (sites_of k (module_sites rows))) ∧
  NoDup (dm_module_path <$> modules) ∧
  StronglySorted (λ g g', cmp_le group_order (module_group_key g) (module_group_key g')) modules.
Proof.
  intros Hf imports modules. split_and!.
  - intros g. by apply duplicate_imports_exact.
  - apply sorted_names. cbn. by apply groups_distinct.
  - apply stable_sort_sorted. apply _.
  - intros g. by apply shared_modules_exact.
  - apply sorted_names. cbn. by apply groups_distinct.
  - apply stable_sort_sorted. apply _.
Qed.

(** ** Rows in order *)

Definition positive (l : list N) : list N := filter (λ b, (0 < b)%N) l.
Definition descending : list N → list N := sort (cmp_rev N.compare).

Lemma sorted_brotli rows :
  StronglySorted (λ a b, cmp_le row_order (row_key a) (row_key b)) rows →
  StronglySorted (cmp_le (cmp_rev N.compare)) (positive (omap row_brotli rows)).
Proof.
  induction 1 as [|row rows Hs IH Hall]; [constructor|]. cbn. destruct (row_brotli row) as [b|] eqn:Hb; [|done].
  unfold positive. rewrite filter_cons. case_decide; [|done]. constructor; [done|].
  apply Forall_forall. intros b' [_ Hb']%list_elem_of_filter. apply list_elem_of_omap in Hb' as (row' & Hrow' & Hb').
  rewrite Forall_forall in Hall. specialize (Hall _ Hrow'). unfold cmp_le, row_order, cmp_lex, row_key, cmp_rev in *.
  cbn [fst snd] in Hall. rewrite Hb, Hb' in Hall. cbn in Hall. intros Hgt. apply Hall. by rewrite Hgt.
Qed.

Lemma treemap_sizes rows total :
  tm_brotli <$> build_treemap rows total = take 10 (positive (omap row_brotli rows)).
Proof.
  unfold build_treemap. rewrite <- list_fmap_compose, fmap_take. f_equal.
  induction rows as [|row rows IH]; [done|]. cbn. destruct (row_brotli row) as [b|]; [|done].
  unfold positive in *. rewrite filter_cons. cbn. destruct (N.ltb_spec 0 b).
  - rewrite decide_True by done. cbn. by f_equal.
  - rewrite decide_False by lia. done.
Qed.

Lemma row_brotli_of_items budget (items : list WorkspaceReportItem) :
  omap row_brotli (row_for_item budget <$> items) = omap (λ i, wi_result i ≫= brotli_bytes) items.
Proof. induction items as [|i items IH]; [done|]. cbn. by rewrite IH. Qed.

(** An import is judged over budget exactly when it has five sizes no diagnostic
    takes back, and the limit is below its brotli size. *)
Lemma violation_spec i budget :
  is_import_budget_violation i budget = true ↔
  ∃ r b limit, wi_result i = Some r ∧ is_Some (sizes r) ∧ is_durable r = true ∧
    Forall (λ d, stage.prevents_budget_verdict (d_stage d) = false) (diagnostics r) ∧
    brotli_bytes r = Some b ∧ budget = Some limit ∧ (limit < b)%N.
Proof.
  unfold is_import_budget_violation, budgetable_brotli, is_budgetable. split.
  - destruct (wi_result i) as [r|]; [|done]. cbn. destruct (_ && _ && _) eqn:Hb; [|done].
    destruct (brotli_bytes r) as [b|] eqn:Hbr; [|done]. destruct budget as [limit|]; [|done]. intros Hlt.
    apply andb_prop in Hb as [[Hs Hd]%andb_prop Hp]. apply bool_decide_eq_true in Hs. apply N.ltb_lt in Hlt.
    exists r, b, limit. split_and!; try done. apply Forall_forall. intros d Hin.
    rewrite forallb_forall in Hp. apply negb_true_iff, Hp. by apply list_elem_of_In.
  - intros (r & b & limit & -> & Hs & Hd & Hp & Hb & -> & Hlt). cbn. rewrite (bool_decide_eq_true_2 _ Hs), Hd. cbn.
    assert (forallb (λ d, negb (stage.prevents_budget_verdict (d_stage d))) (diagnostics r) = true) as ->.
    { apply forallb_forall. intros d Hin%list_elem_of_In. rewrite Forall_forall in Hp. by rewrite Hp. }
    rewrite Hb. by apply N.ltb_lt.
Qed.

(** C31. The report's rows are its imports', each once, the costliest first and
    the unmeasured last. Its headline is the sum of the measured brotli sizes
    and of nothing else, its treemap the ten largest positive ones with shares
    of at most a hundred per cent, and its violations the imports whose size can
    be judged and is above the limit. *)
Theorem report_judges_measurements items budget :
  let s := build_report_rows items budget in
  let summary := build_report_summary s in
  let measured := omap (λ i, wi_result i ≫= brotli_bytes) items in
  (sum_N measured * 101 <= u64_max)%N →
  rs_rows s ≡ₚ row_for_item budget <$> items ∧
  StronglySorted (λ a b, cmp_le row_order (row_key a) (row_key b)) (rs_rows s) ∧
  sm_cost summary = sum_N measured ∧
  tm_brotli <$> sm_treemap summary = take 10 (descending (positive measured)) ∧
  Forall (λ t, tm_percentage t <= 100)%N (sm_treemap summary) ∧
  ∃ over, sm_violations summary = N.of_nat (length over) ∧ over `sublist_of` items ∧
    ∀ i, i ∈ over ↔ i ∈ items ∧ ∃ r b limit, wi_result i = Some r ∧ is_Some (sizes r) ∧ is_durable r = true ∧
      Forall (λ d, stage.prevents_budget_verdict (d_stage d) = false) (diagnostics r) ∧
      brotli_bytes r = Some b ∧ budget = Some limit ∧ (limit < b)%N.
Proof.
  intros s summary measured Hfit.
  assert (rs_rows s ≡ₚ row_for_item budget <$> items) as Hperm by apply stable_sort_perm.
  assert (StronglySorted (λ a b, cmp_le row_order (row_key a) (row_key b)) (rs_rows s)) as Hsort
    by (apply stable_sort_sorted; apply _).
  assert (omap row_brotli (rs_rows s) ≡ₚ measured) as Hm by (by rewrite Hperm, row_brotli_of_items).
  assert (sum_N (omap row_brotli (rs_rows s)) = sum_N measured) as Hsum.
  { by apply sum_N_perm. }
  assert (sm_cost summary = sum_N measured) as Hcost.
  { change (sm_cost summary) with (sum_u64 (omap row_brotli (rs_rows s))). unfold sum_u64. rewrite foldl_wrap_add; lia. }
  split_and!; [done..| | |].
  - change (sm_treemap summary) with (build_treemap (rs_rows s) (sm_cost summary)). rewrite treemap_sizes. f_equal. unfold descending.
    apply (StronglySorted_unique (cmp_le (cmp_rev N.compare))); [by apply sorted_brotli|apply sort_sorted; apply _|].
    etrans; [|symmetry; apply sort_perm]. unfold positive. by rewrite Hm.
  - change (sm_treemap summary) with (build_treemap (rs_rows s) (sm_cost summary)). rewrite Hcost, <- Hsum in *.
    unfold build_treemap. apply Forall_fmap, Forall_take, Forall_forall. intros [row b] Hin. cbn [compose tm_percentage snd].
    apply list_elem_of_omap in Hin as (row' & Hrow & Hb). destruct (row_brotli row') as [b'|] eqn:Hbr; [|done]. cbn in Hb.
    destruct (0 <? b')%N; [|done]. simplify_eq.
    apply percentage_bounded; [|done]. assert (b ∈ omap row_brotli (rs_rows s)) as Hin by (apply list_elem_of_omap; by exists row).
    clear - Hin. induction (omap row_brotli (rs_rows s)) as [|x l IH]; [by apply elem_of_nil in Hin|].
    rewrite sum_N_cons. apply elem_of_cons in Hin as [->|Hin]; [lia|]. specialize (IH Hin). lia.
  - exists (filter (λ i, is_import_budget_violation i budget = true) items). split_and!; [done|apply sublist_filter|].
    intros i. rewrite list_elem_of_filter, violation_spec. tauto.
Qed.

(** ** The files a scan finds *)

Section source_ind.
Context (P : SourceTree → Prop) (HLink : P SLink) (HFile : P SFile) (HNone : P (SDirectory None))
        (HDir : ∀ l, Forall (λ e, P e.2) l → P (SDirectory (Some l))).
Fixpoint source_rect (t : SourceTree) : P t :=
  match t with
  | SLink => HLink
  | SFile => HFile
  | SDirectory None => HNone
  | SDirectory (Some l) =>
      HDir l ((fix go l : Forall (λ e, P e.2) l :=
        match l with
        | [] => Forall_nil_2 _
        | e :: l => Forall_cons_2 (λ e, P e.2) e l (source_rect e.2) (go l)
        end) l)
  end.
End source_ind.

(** A source below a directory: the directories that lead to it, none of them
    skipped or a link, and its name. *)
Inductive source_below : SourceTree → list string → string → Prop :=
  | source_here entries name :
      (name, SFile) ∈ entries → is_supported_source name = true → source_below (SDirectory (Some entries)) [] name
  | source_deeper entries dir below dirs name :
      (dir, SDirectory below) ∈ entries → should_skip_directory dir = false → source_below (SDirectory below) dirs name →
      source_below (SDirectory (Some entries)) (dir :: dirs) name.
Definition joined (path : string) (dirs : list string) (name : string) : string := path_push (foldl path_push path dirs) name.

Lemma scan_directory_found tree : ∀ path depth p,
  p ∈ scan_directory path depth tree ↔
  ∃ dirs name, source_below tree dirs name ∧ depth + length dirs ≤ MAX_SCAN_DEPTH ∧ p = joined path dirs name.
Proof.
  induction tree as [| | |entries IH] using source_rect; intros path depth p.
  1-3: cbn [scan_directory]; rewrite elem_of_nil; split; [done|]; intros (dirs & name & Hb & _); by inversion Hb.
  cbn [scan_directory]. destruct (Nat.ltb_spec MAX_SCAN_DEPTH depth) as [Hd|Hd].
  { rewrite elem_of_nil. split; [done|]. intros (dirs & name & _ & Hlen & _). lia. }
  rewrite list_elem_of_bind. rewrite Forall_forall in IH. split.
  - intros ([name entry] & Hp & Hin). cbn [fst snd] in Hp. destruct entry as [| |below]; [by apply elem_of_nil in Hp|..].
    + destruct (is_supported_source name) eqn:Hs; [|by apply elem_of_nil in Hp]. apply list_elem_of_singleton in Hp as ->.
      exists [], name. split_and!; [by eapply source_here|cbn; lia|done].
    + destruct (should_skip_directory name) eqn:Hs; [by apply elem_of_nil in Hp|].
      apply (IH _ Hin) in Hp as (dirs & n & Hb & Hlen & ->).
      exists (name :: dirs), n. split_and!; [by eapply source_deeper|cbn; lia|done].
  - intros (dirs & name & Hb & Hlen & ->). inversion Hb as [? ? Hin Hs|? dir below dirs' ? Hin Hs Hb']; subst.
    + exists (name, SFile). split; [|done]. cbn. rewrite Hs. by apply list_elem_of_singleton.
    + exists (dir, SDirectory below). split; [|done]. cbn [fst snd]. rewrite Hs. apply (IH _ Hin). exists dirs', name.
      split_and!; [done|cbn in Hlen; lia|done].
Qed.

(** The scan lists the supported files at most 64 directories below the root
    that no skipped directory and no link leads to. *)
Lemma scan_finds_the_sources root tree p :
  p ∈ scan_workspace_sources root tree ↔
  ∃ dirs name, source_below tree dirs name ∧ length dirs ≤ MAX_SCAN_DEPTH ∧ p = joined root dirs name.
Proof. unfold scan_workspace_sources. by rewrite stable_sort_perm, scan_directory_found. Qed.

(** ** Two files *)

Definition t_detected (spec : string) (line : N) : DetectedImport :=
  {| d_specifier := spec; d_package_name := spec; d_named := []; d_import_kind := Named; d_syntax := Static;
     d_runtime := Component; d_line := line; d_quote_end := no_position; d_specifier_range := no_range;
     d_statement_range := no_range |}.
Definition t_result (spec : string) (n : N) : ImportResult :=
  let r := measured spec {| m_raw := n; m_minified := n; m_gzip := n; m_brotli := n; m_zstd := n |} in
  {| specifier := specifier r; raw_bytes := raw_bytes r; minified_bytes := minified_bytes r; gzip_bytes := gzip_bytes r;
     brotli_bytes := brotli_bytes r; zstd_bytes := zstd_bytes r; cache_hit := false; side_effects := false;
     truly_treeshakeable := true; is_cjs := false; confidence := High; confidence_reasons := []; error := None;
     unmeasured_stage := None; diagnostics := []; module_breakdown := Some [{| mc_path := "/w/node_modules/m.js"; mc_bytes := n |}];
     shared_bytes := None; asset_breakdown := []; r_freshness := r_freshness r; internal_contributions := [] |}.
Definition t_item (file spec : string) (line : N) (r : option ImportResult) : WorkspaceReportItem :=
  {| wi_detected := t_detected spec line; wi_source_file := file; wi_workspace_root := "/w"; wi_result := r; wi_warning := None |}.
Definition t_items : list WorkspaceReportItem :=
  [t_item "/w/src/b.ts" "x" 0 (Some (t_result "x" 40)); t_item "/w/src/a.ts" "x" 2 (Some (t_result "x" 60));
   t_item "/w/src/a.ts" "y" 3 (Some (unmeasured "y" "timeout" "engine build did not complete" []))].
Definition t_rows : list WorkspaceReportRow := rs_rows (build_report_rows t_items (Some 50%N)).

Lemma duplicates_are_exact_witness :
  fits t_rows ∧
  build_duplicate_import_groups t_rows =
    [{| di_specifier := "x"; di_count := 2; di_cost := 100; di_source_files := ["src/a.ts"; "src/b.ts"] |}] ∧
  (module_group "/w/node_modules/m.js" (sites_of "/w/node_modules/m.js" (module_sites t_rows)) ∈ build_duplicate_module_groups t_rows).
Proof.
  assert (fits t_rows) as Hf by (split_and!; vm_compute; discriminate).
  split; [exact Hf|]. split; [vm_compute; reflexivity|].
  destruct (duplicates_are_exact t_rows Hf) as (_ & _ & _ & H & _). apply H.
  exists "/w/node_modules/m.js". split; [vm_compute; lia|reflexivity].
Defined.

Lemma report_judges_measurements_witness :
  (sum_N (omap (λ i, wi_result i ≫= brotli_bytes) t_items) = 100)%N ∧
  sm_violations (build_report_summary (build_report_rows t_items (Some 50%N))) = 1%N ∧
  tm_percentage <$> sm_treemap (build_report_summary (build_report_rows t_items (Some 50%N))) = [60; 40]%N ∧
  sm_cost (build_report_summary (build_report_rows t_items (Some 50%N))) = 100%N.
Proof.
  split; [vm_compute; reflexivity|]. split; [vm_compute; reflexivity|]. split; [vm_compute; reflexivity|].
  destruct (report_judges_measurements t_items (Some 50%N)) as (_ & _ & H & _); [vm_compute; discriminate|].
  rewrite H. vm_compute. reflexivity.
Defined.
