(* ===== verification/PathMaps.v ===== *)
(** * Maps keyed by paths

    A [HashMap] or [BTreeMap] keyed by paths is kept as an association list in
    the order of its keys, equal as paths are. The order of paths is a total
    order of their components, and a lookup after an insertion is what the
    standard library promises. *)
From stdpp Require Import base list strings.
From S2P Require Import Prelude Paths CssDependencies.

Set Default Proof Using "Type*".

(** ** The order of paths *)

Section lists.
Context {A} (cmp : A → A → comparison) `{!CmpOrder cmp}.
Fixpoint cmp_list (a b : list A) : comparison :=
  match a, b with
  | [], [] => Eq
  | [], _ :: _ => Lt
  | _ :: _, [] => Gt
  | x :: a, y :: b => then_with (cmp x y) (cmp_list a b)
  end.
#[export] Instance cmp_list_order : CmpOrder cmp_list.
Proof.
  split.
  - induction a as [|x a IH]; intros [|y b]; cbn; try done. destruct (cmp x y) eqn:E; cbn.
    + apply (cmp_eq (cmp:=cmp)) in E as ->. rewrite IH. naive_solver.
    + split; [done|]. intros [= -> ->]. by rewrite (cmp_refl cmp) in E.
    + split; [done|]. intros [= -> ->]. by rewrite (cmp_refl cmp) in E.
  - induction a as [|x a IH]; intros [|y b]; cbn; try done.
    rewrite (cmp_opp (cmp:=cmp) x y). destruct (cmp x y); cbn; [apply IH|done..].
  - induction a as [|x a IH]; intros [|y b] [|z c]; cbn; try done.
    destruct (cmp x y) eqn:E1; cbn; [|intros _|done].
    + apply (cmp_eq (cmp:=cmp)) in E1 as ->. destruct (cmp y z); cbn; [apply IH|done..].
    + destruct (cmp y z) eqn:E2; cbn; [|intros _|done].
      * apply (cmp_eq (cmp:=cmp)) in E2 as <-. by rewrite E1.
      * by rewrite (cmp_trans (cmp:=cmp) _ _ _ E1 E2).
Qed.
End lists.

Definition component_key (c : PathComponent) : N * string :=
  (component_rank c, match c with Normal name => of_bytes name | _ => "" end).
#[local] Instance component_key_inj : Inj (=) (=) component_key.
Proof.
  intros [| | |a] [| | |b]; cbn; try done. intros [= H]. apply (f_equal to_bytes) in H. by rewrite !to_of_bytes in H; subst.
Qed.
#[local] Instance component_order : CmpOrder component_cmp.
Proof.
  assert (∀ a b, component_cmp a b = cmp_on component_key (cmp_lex N.compare String.compare) a b) as He
    by (intros [| | |a] [| | |b]; done).
  destruct (cmp_on_order component_key (cmp_lex N.compare String.compare) component_key_inj _) as [H1 H2 H3].
  split; intros *; rewrite !He; [apply H1|apply H2|apply H3].
Qed.
#[export] Instance components_order : CmpOrder components_cmp.
Proof.
  assert (∀ a b, components_cmp a b = cmp_list component_cmp a b) as He
    by (induction a as [|x a IH]; intros [|y b]; cbn; try done; by rewrite IH).
  destruct (cmp_list_order component_cmp) as [H1 H2 H3].
  split; intros *; rewrite !He; [apply H1|apply H2|apply H3].
Qed.

Lemma path_cmp_eq a b : path_cmp a b = Eq ↔ components a = components b.
Proof. apply (cmp_eq (cmp:=components_cmp)). Qed.
Lemma path_cmp_opp a b : path_cmp b a = CompOpp (path_cmp a b).
Proof. apply (cmp_opp (cmp:=components_cmp)). Qed.
Lemma path_cmp_trans a b c : path_cmp a b = Lt → path_cmp b c = Lt → path_cmp a c = Lt.
Proof. apply (cmp_trans (cmp:=components_cmp)). Qed.

(** ** Lookups *)

Fixpoint path_lookup {V} (k : string) (m : list (string * V)) : option V :=
  match m with
  | [] => None
  | (k', v) :: m => if path_eqb k k' then Some v else path_lookup k m
  end.

Lemma path_eqb_spec a b : path_eqb a b = true ↔ components a = components b.
Proof. apply bool_decide_eq_true. Qed.
Lemma path_eqb_cmp a b : path_eqb a b = match path_cmp a b with Eq => true | _ => false end.
Proof.
  destruct (path_eqb a b) eqn:E.
  - apply path_eqb_spec, path_cmp_eq in E. by rewrite E.
  - destruct (path_cmp a b) eqn:Hc; [|done..]. apply path_cmp_eq, path_eqb_spec in Hc. by rewrite Hc in E.
Qed.

(** In the order of its keys, each key once. *)
Definition ordered {V} (m : list (string * V)) : Prop :=
  StronglySorted (λ a b, path_cmp a.1 b.1 = Lt) m.

Section maps.
Context {V : Type}.
Implicit Types (m : list (string * V)) (k p : string) (v : V).

Lemma lookup_below k m : Forall (λ kv, path_cmp k kv.1 = Lt) m → path_lookup k m = None.
Proof. induction 1 as [|[k' v'] m Hk _ IH]; cbn in *; [done|]. by rewrite path_eqb_cmp, Hk. Qed.
Lemma below_trans k k' m : path_cmp k k' = Lt → Forall (λ kv, path_cmp k' kv.1 = Lt) m → Forall (λ kv, path_cmp k kv.1 = Lt) m.
Proof. intros Hk H. eapply Forall_impl; [exact H|]. intros kv. by apply path_cmp_trans. Qed.

(** A key that is a path's other spelling looks up the same. *)
Lemma lookup_spelling k p m : path_eqb k p = true → path_lookup k m = path_lookup p m.
Proof.
  intros Hk%path_eqb_spec. induction m as [|[k' v'] m IH]; cbn; [done|]. by rewrite IH; unfold path_eqb; rewrite Hk.
Qed.

Lemma entry_above k k' v m : path_cmp k' k = Lt → Forall (λ kv, path_cmp k' kv.1 = Lt) m →
  Forall (λ kv, path_cmp k' kv.1 = Lt) (entry_or_insert k v m).
Proof.
  intros Hk. induction 1 as [|[a b] m Ha Hm IH]; cbn [entry_or_insert]; [by repeat constructor|].
  destruct (path_cmp k a); by repeat constructor.
Qed.
Lemma insert_above k k' v m : path_cmp k' k = Lt → Forall (λ kv, path_cmp k' kv.1 = Lt) m →
  Forall (λ kv, path_cmp k' kv.1 = Lt) (map_insert k v m).
Proof.
  intros Hk. induction 1 as [|[a b] m Ha Hm IH]; cbn [map_insert]; [by repeat constructor|].
  destruct (path_cmp k a); by repeat constructor.
Qed.

Lemma entry_ordered k v m : ordered m → ordered (entry_or_insert k v m).
Proof.
  unfold ordered. induction 1 as [|[a b] m Hm IH Ha]; cbn [entry_or_insert]; [by repeat constructor|]. cbn in Ha.
  destruct (path_cmp k a) eqn:Hc; [by constructor| |].
  - constructor; [by constructor|]. constructor; [done|]. by eapply below_trans.
  - constructor; [done|]. apply entry_above; [by cbn; rewrite (path_cmp_opp k a), Hc|done].
Qed.
Lemma insert_ordered k v m : ordered m → ordered (map_insert k v m).
Proof.
  unfold ordered. induction 1 as [|[a b] m Hm IH Ha]; cbn [map_insert]; [by repeat constructor|]. cbn in Ha.
  destruct (path_cmp k a) eqn:Hc; [by constructor| |].
  - constructor; [by constructor|]. constructor; [done|]. by eapply below_trans.
  - constructor; [done|]. apply insert_above; [by cbn; rewrite (path_cmp_opp k a), Hc|done].
Qed.

(** [entry(k).or_insert(v)] then [get(p)]. *)
Lemma lookup_entry p k v m : ordered m →
  path_lookup p (entry_or_insert k v m)
  = match path_lookup p m with Some x => Some x | None => if path_eqb p k then Some v else None end.
Proof.
  intros Hm. induction Hm as [|[a b] m Hm IH Ha]; cbn [entry_or_insert path_lookup]; [done|]. cbn in Ha.
  destruct (path_cmp k a) eqn:Hc; cbn [path_lookup].
  - apply path_cmp_eq in Hc. destruct (path_eqb p a) eqn:Hp; [done|].
    assert (path_eqb p k = false) as -> by (unfold path_eqb in *; by rewrite Hc).
    by destruct (path_lookup p m).
  - destruct (path_eqb p k) eqn:Hp; [|by destruct (path_eqb p a), (path_lookup p m)].
    assert (path_eqb p a = false) as ->.
    { rewrite path_eqb_cmp. apply path_eqb_spec in Hp. unfold path_cmp in *. by rewrite Hp, Hc. }
    rewrite (lookup_spelling p k m Hp), lookup_below; [done|]. by eapply below_trans.
  - destruct (path_eqb p a); [done|]. apply IH.
Qed.

(** [insert(k, v)] then [get(p)]. *)
Lemma lookup_map_insert p k v m : ordered m →
  path_lookup p (map_insert k v m) = if path_eqb p k then Some v else path_lookup p m.
Proof.
  intros Hm. induction Hm as [|[a b] m Hm IH Ha]; cbn [map_insert path_lookup]; [done|]. cbn in Ha.
  destruct (path_cmp k a) eqn:Hc; cbn [path_lookup].
  - apply path_cmp_eq in Hc. unfold path_eqb. by rewrite Hc; destruct (bool_decide _).
  - done.
  - destruct (path_eqb p a) eqn:Hp; [|apply IH].
    assert (path_eqb p k = false) as ->; [|done].
    rewrite path_eqb_cmp. apply path_eqb_spec in Hp. unfold path_cmp in *. rewrite Hp.
    by rewrite (cmp_opp (cmp:=components_cmp)), Hc.
Qed.

Lemma lookup_elem k v m : ordered m → (k, v) ∈ m → path_lookup k m = Some v.
Proof.
  intros Hm. induction Hm as [|[a b] m Hm IH Ha]; [by intros ?%not_elem_of_nil|]. cbn in Ha |- *.
  intros [[= -> ->]|Hin]%elem_of_cons; [by rewrite (proj2 (path_eqb_spec _ _) eq_refl)|].
  rewrite Forall_forall in Ha. specialize (Ha _ Hin). cbn in Ha.
  rewrite path_eqb_cmp, path_cmp_opp, Ha. by apply IH.
Qed.
Lemma elem_lookup k v m : path_lookup k m = Some v → ∃ k', (k', v) ∈ m ∧ components k' = components k.
Proof.
  induction m as [|[a b] m IH]; cbn; [done|]. destruct (path_eqb k a) eqn:E.
  - intros [= ->]. apply path_eqb_spec in E. exists a. by split; [left|].
  - intros (k' & ? & ?)%IH. exists k'. by split; [right|].
Qed.
End maps.
