(* ===== verification/Stylesheets.v ===== *)
(** * Stylesheet trees (pipeline/assets.rs, first half)

    The provider Lightning CSS reads a stylesheet tree through, the two passes
    that bundle a tree with import cycles, and the bundle with the resources it
    references. Lightning CSS is a parameter: one walk is a tree of questions
    to the provider, which its printing, minifying and parsing do not ask. The
    clock and the disk move with every operation; the calls of one walk are one
    after the other. *)
From stdpp Require Import base gmap list strings pretty.
From S2P Require Import Prelude Fingerprints AssetLedger AssetReport ProjectRegistry Paths Text CssDependencies PathMaps ImportCycles.

Set Default Proof Using "Type*".

(** ** State *)

(** The [io::Error]s a provider can meet. *)
Inductive CssError :=
  | LedgerError (e : io_error)
  | TreeLimit
  | NotUtf8 (path : string).

Definition MAX_STYLESHEET_FILES : N := 256.
Definition MAX_STYLESHEET_BYTES : N := 8 * 1024 * 1024.

Record ReadBudget := { rb_files : N; rb_bytes : N }.
Definition no_reads : ReadBudget := {| rb_files := 0; rb_bytes := 0 |}.

(** What a provider is built with, and the state behind its locks. *)
Record TrackingProvider := {
  preloaded : gmap string CollectedAsset;
  synthetic : option (string * list ascii);
}.
Record ProviderState := {
  budget : ReadBudget;
  edges : list import_edge;
  cut_edges : list (import_edge * string);
}.
Definition fresh_provider : ProviderState := {| budget := no_reads; edges := []; cut_edges := [] |}.

Definition tracking_provider (entries : list CollectedAsset) (synthetic : option (string * list ascii)) : TrackingProvider :=
  {| preloaded := foldl (λ m a, <[a_path a := a]> m) ∅ entries; synthetic := synthetic |}.

(** The ledger every attempt shares, the provider of the current one, and the
    moment: the disk and the deadline are functions of it. *)
Record World := { w_ledger : BudgetState; w_provider : ProviderState; w_time : nat }.

Inductive answer (E A : Type) := Good (a : A) | Bad (e : E) | Crash.
Arguments Good {_ _} _.
Arguments Bad {_ _} _.
Arguments Crash {_ _}.

Definition M (E A : Type) : Type := World → answer E A * World.
#[export] Instance M_ret E : MRet (M E) := λ A a w, (Good a, w).
#[export] Instance M_bind E : MBind (M E) := λ A B f m w,
  match m w with
  | (Good a, w) => f a w
  | (Bad e, w) => (Bad e, w)
  | (Crash, w) => (Crash, w)
  end.
#[export] Instance M_fmap E : FMap (M E) := λ A B f m, a ← m; mret (f a).
Definition fail {E A} (e : E) : M E A := λ w, (Bad e, w).
Definition crash {E A} : M E A := λ w, (Crash, w).
Definition look {E A} (f : World → A) : M E A := λ w, (Good (f w), w).
Definition change {E} (f : World → World) : M E unit := λ w, (Good (), f w).
(** A result that is looked at, and [map_err]. *)
Definition attempt {E F A} (m : M E A) : M F (A + E) := λ w,
  match m w with
  | (Good a, w) => (Good (inl a), w)
  | (Bad e, w) => (Good (inr e), w)
  | (Crash, w) => (Crash, w)
  end.
Definition map_err {E F A} (f : E → F) (m : M E A) : M F A := λ w,
  match m w with
  | (Good a, w) => (Good a, w)
  | (Bad e, w) => (Bad (f e), w)
  | (Crash, w) => (Crash, w)
  end.

Definition set_provider (p : ProviderState) (w : World) : World :=
  {| w_ledger := w_ledger w; w_provider := p; w_time := w_time w |}.
Definition set_budget (b : ReadBudget) (w : World) : World :=
  set_provider {| budget := b; edges := edges (w_provider w); cut_edges := cut_edges (w_provider w) |} w.
(** A path stands for all its spellings: the maps and sets keyed by paths hold
    the one of its components. *)
Definition path_normal (path : string) : string := render (components path).
Lemma components_normal path : components (path_normal path) = components path.
Proof. apply components_render, components_shaped. Qed.
Lemma normal_normal path : path_normal (path_normal path) = path_normal path.
Proof. unfold path_normal at 1. by rewrite components_normal. Qed.

Definition edge_cmp : import_edge → import_edge → comparison := cmp_lex path_cmp path_cmp.
Definition edge_eqb (a b : import_edge) : bool := path_eqb a.1 b.1 && path_eqb a.2 b.2.
(** [BTreeSet::insert]. *)
Fixpoint edge_insert (e : import_edge) (l : list import_edge) : list import_edge :=
  match l with
  | [] => [e]
  | e' :: l' =>
      match edge_cmp e e' with
      | Lt => e :: l
      | Eq => l
      | Gt => e' :: edge_insert e l'
      end
  end.
Definition record_edge (e : import_edge) (w : World) : World :=
  let p := w_provider w in
  set_provider {| budget := budget p; edges := edge_insert e (edges p); cut_edges := cut_edges p |} w.

(** ** Lightning CSS *)

Inductive ResolveResult := TargetFile (path : string) | TargetExternal (url : string).

(** A walk ends with a sheet or an error, or asks the provider. *)
Inductive Walk (Sheet : Type) :=
  | Walked (result : Sheet + string)
  | AskRead (file : string) (next : list ascii + CssError → Walk Sheet)
  | AskResolve (specifier originating_file : string) (next : ResolveResult + CssError → Walk Sheet).
Arguments Walked {_} _.
Arguments AskRead {_} _ _.
Arguments AskResolve {_} _ _ _.

(** ** Paths and names *)

Definition is_bare_specifier (specifier : string) : bool :=
  let s := to_bytes specifier in
  negb (starts_with (to_bytes "./") s || starts_with (to_bytes "../") s || starts_with (to_bytes "/") s).

Definition is_stylesheet_path (path : string) : bool :=
  match path_extension path with
  | Some extension => bool_decide (lower_bytes (to_bytes extension) = to_bytes "css")
  | None => false
  end.

Definition cut_sheet_name (index : nat) : string := "__import_lens_cut_import_" +:+ pretty index +:+ "__.css".

Definition cut_target (cut : list (import_edge * string)) (e : import_edge) : option string :=
  snd <$> (snd <$> list_find (λ c, edge_eqb c.1 e = true) cut).

(** *** The virtual entry of several sheets *)

Fixpoint css_escape_bytes (l : list ascii) : list ascii :=
  match l with
  | [] => []
  | c :: l => (if decide (c = "\"%char ∨ c = byte 34) then "\"%char :: c :: css_escape_bytes l else c :: css_escape_bytes l)
  end.
Definition css_string_escape (value : list ascii) : list ascii := css_escape_bytes value.

Definition import_rule (entry : string) : list ascii :=
  to_bytes "@import " ++ byte 34 :: css_string_escape (to_bytes entry) ++ byte 34 :: to_bytes ";".
Fixpoint join_lines (l : list (list ascii)) : list ascii :=
  match l with
  | [] => []
  | [x] => x
  | x :: l => x ++ byte 10 :: join_lines l
  end.

(** [None]: [entries[0]] of no entries panics; the caller has two at least. *)
Definition synthetic_entry (entries : list string) : option (string * list ascii) :=
  match entries with
  | [] => None
  | first :: _ =>
      let directory := default "." (path_parent first) in
      Some (path_push directory "__import_lens_combined_stylesheets__.css", join_lines (import_rule <$> entries))
  end.

(** ** The provider *)

Section provider.
Context `{CH : ContentHash} (windows : bool) (limits : AssetBudgetLimits)
        (disk : nat → FileSystem) (is_file : nat → string → bool) (expires : nat)
        (display : CssError → string)
        (file_provider_resolve : string → string → ResolveResult + CssError)
        (resolve_package : nat → string → string → option string)
        (parse_imports : list ascii → option (list string)).

(** A ledger operation. It takes three moments, as many as the most checks of
    the deadline one has. *)
Definition ledger {A} (m : FileSystem → (nat → bool) → op A) : M CssError A := λ w,
  let t := w_time w in
  let '(o, s) := m (disk t) (λ i, expires <=? t + i) (w_ledger w) in
  (match o with Done a => Good a | Refused e => Bad (LedgerError e) | Panicked => Crash end,
   {| w_ledger := s; w_provider := w_provider w; w_time := t + 3 |}).
(** A question to the disk. *)
Definition on_disk {E A} (f : nat → FileSystem → A) : M E A := λ w,
  (Good (f (w_time w) (disk (w_time w))),
   {| w_ledger := w_ledger w; w_provider := w_provider w; w_time := S (w_time w) |}).

Definition check_deadline_now : M CssError unit := ledger (λ _ expired, check_deadline (expired 0)).
Definition record_failed_read (path : string) (e : ErrorKind) : M CssError unit :=
  ledger (λ FS _, record_failed_path windows path (bool_decide (e = NotFound))).

Definition reserve (bytes : N) : M CssError N :=
  b ← look (budget ∘ w_provider);
  let files := sat_add (rb_files b) 1 in
  let next_bytes := sat_add (rb_bytes b) bytes in
  if decide (MAX_STYLESHEET_FILES < files ∨ MAX_STYLESHEET_BYTES < next_bytes)%N then fail TreeLimit
  else _ ← change (set_budget {| rb_files := files; rb_bytes := next_bytes |}); mret bytes.

(** The reservation cannot exceed what is held: its [expect] is a crash. *)
Definition reconcile (reservation actual_bytes : N) : M CssError unit :=
  b ← look (budget ∘ w_provider);
  if decide (rb_bytes b < reservation)%N then crash
  else
    let reconciled_bytes := sat_add (rb_bytes b - reservation) actual_bytes in
    if decide (MAX_STYLESHEET_BYTES < reconciled_bytes)%N then fail TreeLimit
    else change (set_budget {| rb_files := rb_files b; rb_bytes := reconciled_bytes |}).

(** *** Where an import lands *)

Definition bare_import_target (specifier originating_file relative : string) : M CssError string :=
  found ← on_disk (λ t FS, match fs_metadata relative with inl _ => inl (is_file t relative) | inr e => inr e end);
  let resolve_it : M CssError string :=
    match path_parent originating_file with
    | None => mret relative
    | Some directory =>
        resolution ← on_disk (λ t _, resolve_package t directory specifier);
        match resolution with
        | Some path =>
            if is_stylesheet_path path then _ ← record_failed_read relative NotFound; mret path else mret relative
        | None => mret relative
        end
    end in
  match found with
  | inl true => mret relative
  | inl false => resolve_it
  | inr NotFound => resolve_it
  | inr _ => mret relative
  end.

Definition canonical_file (path : string) : M CssError string :=
  on_disk (λ _ FS, default path (fs_canonicalize path)).

Definition resolve_target (specifier originating_file : string) : M CssError ResolveResult :=
  if is_remote_reference (to_bytes specifier) then mret (TargetExternal specifier)
  else if path_is_absolute specifier then TargetFile <$> canonical_file specifier
  else
    match file_provider_resolve specifier originating_file with
    | inr e => fail e
    | inl (TargetExternal url) => mret (TargetExternal url)
    | inl (TargetFile path) =>
        path ← (if is_bare_specifier specifier then bare_import_target specifier originating_file path else mret path);
        TargetFile <$> canonical_file path
    end.

(** [SourceProvider::resolve]. *)
Definition resolve (specifier originating_file : string) : M CssError ResolveResult :=
  target ← resolve_target specifier originating_file;
  match target with
  | TargetExternal url => mret (TargetExternal url)
  | TargetFile target =>
      let edge := (path_normal originating_file, path_normal target) in
      cut ← look (cut_edges ∘ w_provider);
      match cut_target cut edge with
      | Some empty => mret (TargetFile empty)
      | None =>
          _ ← change (record_edge edge);
          mret (TargetFile target)
      end
  end.

(** *** What a sheet holds *)

Definition is_cut_sheet (file : string) (p : ProviderState) : bool :=
  existsb (λ c, path_eqb c.2 file) (cut_edges p).

Definition utf8_source (key : string) (bytes : list ascii) : M CssError (list ascii) :=
  if is_utf8 bytes then mret bytes else fail (NotUtf8 key).

(** A stylesheet some attempt has read already. *)
Definition read_again (key : string) (asset : CollectedAsset) : M CssError (list ascii) :=
  _ ← ledger (λ _ expired, charge_css_snapshot limits (expired 0) asset);
  _ ← reserve (asset_len asset);
  utf8_source key (a_bytes asset).
(** The stat comes before the read. *)
Definition read_anew (key : string) : M CssError (list ascii) :=
  found ← on_disk (λ _ FS, fs_metadata key);
  match found with
  | inr e => _ ← record_failed_read key e; fail (LedgerError (FsError e))
  | inl md =>
      shared ← ledger (λ FS expired, begin_css_read windows limits (expired 0) key md);
      reservation ← reserve (md_len md);
      bytes ← on_disk (λ _ FS, fs_read key);
      match bytes with
      | inr e => _ ← record_failed_read key e; fail (LedgerError (FsError e))
      | inl bytes =>
          _ ← reconcile reservation (N.of_nat (length bytes));
          _ ← ledger (λ FS expired, finish_css_read windows limits (expired 0) shared bytes);
          utf8_source key bytes
      end
  end.

(** [SourceProvider::read]. *)
Definition served_from_memory (p : TrackingProvider) (file : string) : option (list ascii) :=
  '(path, content) ← synthetic p; if path_eqb file path then Some content else None.
Definition known_sheet (p : TrackingProvider) (key : string) (w : World) : option CollectedAsset :=
  match preloaded p !! key with Some a => Some a | None => snapshot_for key (w_ledger w) end.
Definition read (p : TrackingProvider) (file : string) : M CssError (list ascii) :=
  _ ← check_deadline_now;
  match served_from_memory p file with
  | Some content => mret content
  | None =>
      cut ← look (is_cut_sheet file ∘ w_provider);
      if (cut : bool) then mret []
      else
        key ← canonical_file file;
        known ← look (known_sheet p key);
        source ← match known with
                 | Some asset => read_again key asset
                 | None => read_anew key
                 end;
        _ ← check_deadline_now;
        mret source
  end.

(** *** Import cycles *)

(** A target that does not resolve is left out. *)
Fixpoint resolve_all (sheet : string) (urls : list string) : M CssError (list string) :=
  match urls with
  | [] => mret []
  | url :: urls =>
      target ← attempt (resolve_target url sheet);
      rest ← resolve_all sheet urls;
      mret (match target with inl (TargetFile t) => path_normal t :: rest | _ => rest end)
  end.
Definition sheet_bytes (p : TrackingProvider) (sheet : string) (w : World) : option (list ascii) :=
  match served_from_memory p sheet with
  | Some content => Some content
  | None => a_bytes <$> known_sheet p sheet w
  end.
Definition ordered_imports (p : TrackingProvider) (sheet : string) : M CssError (list string) :=
  bytes ← look (sheet_bytes p sheet);
  match bytes with
  | None => mret []
  | Some source =>
      if is_utf8 source then
        match parse_imports source with Some urls => resolve_all sheet urls | None => mret [] end
      else mret []
  end.

(** The walk of [ImportCycles.visit] over imports that ask the disk. *)
Definition step_target (visit : string → walk → M CssError (option walk)) (sheet target : string) (w : walk) :
    M CssError (option walk) :=
  if decide (target ∈ on_stack w) then mret (Some (close_edge (sheet, target) w))
  else if decide (target ∉ finished w) then visit target w
  else mret (Some w).
Fixpoint visit_targets_in (visit : string → walk → M CssError (option walk)) (sheet : string)
    (targets : list string) (w : walk) : M CssError (option walk) :=
  match targets with
  | [] => mret (Some w)
  | target :: targets =>
      next ← step_target visit sheet target w;
      match next with
      | Some w => visit_targets_in visit sheet targets w
      | None => mret None
      end
  end.
Fixpoint visit_in (p : TrackingProvider) (fuel : nat) (sheet : string) (w : walk) : M CssError (option walk) :=
  match fuel with
  | 0 => mret None
  | S fuel =>
      targets ← ordered_imports p sheet;
      w ← visit_targets_in (visit_in p fuel) sheet targets (enter sheet w);
      mret (leave sheet <$> w)
  end.

(** The sheets whose bytes are known, the synthetic entry and one more: the
    walk goes no deeper. *)
Definition walk_fuel (p : TrackingProvider) (w : World) : nat :=
  3 + size (preloaded p) + size (snapshots (w_ledger w)).

(** Outer [None]: out of fuel. The recorded edges are walked first, in a fixed order. *)
Definition provider_closing_edges (p : TrackingProvider) (entry : string) : M CssError (option (option (gset import_edge))) :=
  recorded ← look (edges ∘ w_provider);
  match ImportCycles.closing_edges (adjacent (sorted_adjacency recorded)) (2 + 2 * length recorded) (path_normal entry) with
  | None => mret None
  | Some any =>
      if decide (any = ∅) then mret (Some None)
      else
        fuel ← look (walk_fuel p);
        w ← visit_in p fuel (path_normal entry) start_walk;
        mret ((λ w, Some (closing w)) <$> w)
  end.

Definition cut_sheets (closing : gset import_edge) : list (import_edge * string) :=
  imap (λ index edge, (edge, with_file_name edge.1 (cut_sheet_name index))) (stable_sort edge_cmp (elements closing)).
(** Only the pass before has cut nothing. *)
Definition cut (closing : gset import_edge) (p : ProviderState) : ProviderState :=
  {| budget := no_reads; edges := edges p; cut_edges := cut_sheets closing ++ cut_edges p |}.

(** ** A bundle *)

Section bundle.
Context {Sheet : Type} (bundler : string → Walk Sheet)
        (print : Sheet → bool → list ascii + string)
        (minify : Sheet → Sheet + string)
        (analyze : Sheet → list Dependency + string).

(** The questions of a walk, answered in turn. *)
Fixpoint run_walk (p : TrackingProvider) (walk : Walk Sheet) : M CssError (Sheet + string) :=
  match walk with
  | Walked result => mret result
  | AskRead file next => source ← attempt (read p file); run_walk p (next source)
  | AskResolve specifier originating_file next =>
      target ← attempt (resolve specifier originating_file); run_walk p (next target)
  end.

Record CssBundle := {
  raw_bytes : list ascii;
  minified_bytes : list ascii;
  referenced_assets : list CollectedAsset;
  referenced_failures : list CssDependencyFailure;
  referenced_uncounted : list UncountedAsset;
  dependency_omissions : list string;
  dependency_external : list string;
}.

(** *** The resources it references *)

(** The path [CssDependencies.collect_supported_asset] stats and reads, not yet
    canonical; [None] when it needs neither. *)
Definition located_path (url file_path : string) (located : list string) : option string :=
  let specifier := trim_bytes (to_bytes url) in
  if bool_decide (specifier = []) || starts_with ["#"%char] specifier || is_data specifier then None
  else if is_remote_reference specifier then None
  else
    resource ← resource_path specifier;
    if path_is_absolute resource || negb (path_is_absolute file_path) then None
    else
      directory ← path_parent file_path;
      let path := path_push directory resource in
      if existsb (path_eqb path) located then None else Some path.

Definition fs_error (e : CssError) : ErrorKind := match e with LedgerError (FsError e) => e | _ => OtherError end.

(** One turn of the loop of [collect_referenced_assets], its stat and read
    through the ledger. *)
Definition examine_in (d : Dependency) (b : buckets) : M CssError buckets :=
  match d with
  | Import _ _ => mret (examine id (λ _, inr NotFound) (λ _ _, inr "") d b)
  | Url url file_path =>
      match located_path url file_path (b_located b) with
      | None => mret (examine id (λ _, inr NotFound) (λ _ _, inr "") d b)
      | Some path =>
          path ← on_disk (λ _ FS, canonical_path path);
          stat ← attempt (ledger (λ FS _, observe_metadata windows path));
          found ← match stat, counted_kind path with
                  | inl _, Some kind => attempt (ledger (λ FS expired, snapshot windows limits expired path kind))
                  | _, _ => mret (inr TreeLimit)
                  end;
          mret (examine (λ _, path)
                  (λ _, match stat with inl md => inl md | inr e => inr (fs_error e) end)
                  (λ _ _, match found with inl a => inl a | inr e => inr (display e) end) d b)
      end
  end.
Fixpoint examine_all_in (deps : list Dependency) (b : buckets) : M CssError (buckets * list Dependency) :=
  going ← attempt check_deadline_now;
  match going, deps with
  | inl _, d :: deps => b ← examine_in d b; examine_all_in deps b
  | _, _ => mret (b, deps)
  end.
Definition collect_in (deps : list Dependency) : M CssError CssDependencyAssets :=
  '(b, rest) ← examine_all_in deps no_buckets;
  let omissions :=
    match rest with
    | [] => b_omissions b
    | _ => set_insert (pretty (length rest) +:+
             " CSS resource reference(s) were not examined because asset processing stopped early, so any bytes they ship are not in this size")
             (b_omissions b)
    end in
  mret {| d_assets := (b_assets b).*2; d_failures := (b_failures b).*2; d_uncounted := (b_uncounted b).*2;
          d_omissions := omissions; d_external := b_external b |}.

Definition no_dependencies (omission : string) : CssDependencyAssets :=
  {| d_assets := []; d_failures := []; d_uncounted := []; d_omissions := [omission]; d_external := [] |}.

(** *** The whole bundle *)

Definition deadline_or_error : M string unit := map_err display check_deadline_now.
Definition of_css {A} (message : string → string) (r : A + string) : M string A :=
  match r with inl a => mret a | inr e => fail (message e) end.
Definition failed_to (what entry error : string) : string :=
  "lightningcss failed to " +:+ what +:+ " " +:+ entry +:+ ": " +:+ error.

Definition bundle_once (p : TrackingProvider) (entry : string) : M string Sheet :=
  result ← map_err display (run_walk p (bundler entry)); of_css (failed_to "bundle" entry) result.

(** [None]: out of fuel. *)
Definition bundle_tree (p : TrackingProvider) (entry : string) : M string (option Sheet) :=
  sheet ← bundle_once p entry;
  closing ← map_err display (provider_closing_edges p entry);
  match closing with
  | None => mret None
  | Some None => mret (Some sheet)
  | Some (Some closing) =>
      _ ← change (λ w, set_provider (cut closing (w_provider w)) w);
      _ ← deadline_or_error;
      Some <$> bundle_once p entry
  end.

Definition bundle_with (p : TrackingProvider) (entry : string) : M string (option CssBundle) :=
  _ ← deadline_or_error;
  tree ← bundle_tree p entry;
  match tree with
  | None => mret None
  | Some sheet =>
      _ ← deadline_or_error;
      raw ← of_css (failed_to "print" entry) (print sheet false);
      _ ← deadline_or_error;
      sheet ← of_css (failed_to "minify" entry) (minify sheet);
      _ ← deadline_or_error;
      deps ← match analyze sheet with
             | inl deps => map_err display (collect_in deps)
             | inr error => mret (no_dependencies ("lightningcss could not inspect resource URLs in " +:+ entry +:+ ": " +:+ error))
             end;
      _ ← deadline_or_error;
      minified ← of_css (failed_to "print" entry) (print sheet true);
      _ ← deadline_or_error;
      mret (Some {| raw_bytes := raw; minified_bytes := minified; referenced_assets := d_assets deps;
                    referenced_failures := d_failures deps; referenced_uncounted := d_uncounted deps;
                    dependency_omissions := d_omissions deps; dependency_external := d_external deps |})
  end.
End bundle.
End provider.

(** ** What every step keeps

    A ledger within its account and a tree within its budget, nothing observed
    taken back, and a deadline that stays passed; a [Crash] is unreachable. *)

Definition keeps_late {A} (m : op A) : Prop := ∀ s, timed_out s = true → timed_out (m s).2 = true.
Lemma late_bind {A B} (m : op A) (f : A → op B) : keeps_late m → (∀ a, keeps_late (f a)) → keeps_late (m ≫= f).
Proof.
  intros Hm Hf s Hs. specialize (Hm s Hs). unfold mbind, op_bind. destruct (m s) as [[a|e|] s1]; [by apply Hf|done..].
Qed.
Lemma late_same {A} (m : op A) : (∀ s, timed_out (m s).2 = timed_out s) → keeps_late m.
Proof. intros Hm s. by rewrite Hm. Qed.
Lemma late_check x : keeps_late (check_available x).
Proof. intros s Hs. unfold check_available. destruct (module_limit_message s); [done|]. by destruct x. Qed.
#[local] Hint Resolve late_check : late.
#[local] Hint Extern 1 (keeps_late _) => apply late_same; intros ?; reflexivity : late.
Ltac late := repeat first [ apply late_bind; [|intros ?] | progress cbn zeta | case_decide | solve [auto with late] | case_match ].

#[local] Hint Resolve extending_ret extending_get extending_refuse extending_panic extending_css extending_unique
  extending_alias extending_observe extending_breached extending_check extending_keep_snapshot extending_begin_css
  extending_begin_resource extending_charge_snapshot extending_finish extending_failed extending_observe_metadata : stylesheet.
Lemma extending_snapshot `{FileSystem, ContentHash} windows limits expired path kind :
  extending (snapshot windows limits expired path kind).
Proof.
  unfold snapshot, check_deadline, snapshot_if_present, finish_css_read.
  repeat first [ solve [auto with stylesheet] | apply extending_bind; [|intros ?] | progress cbn zeta | case_match ].
Qed.
Lemma late_snapshot `{FileSystem, ContentHash} windows limits expired path kind :
  keeps_late (snapshot windows limits expired path kind).
Proof.
  unfold snapshot, check_deadline, snapshot_if_present, begin_resource_read, reserve_unique, finish_read, reconcile_css_work,
    reconcile_input, record_failed_path. late.
Qed.
Lemma late_begin_css `{FileSystem} windows limits x path md : keeps_late (begin_css_read windows limits x path md).
Proof. unfold begin_css_read, charge_css_work, reserve_unique. late. Qed.
Lemma late_charge limits x a : keeps_late (charge_css_snapshot limits x a).
Proof. unfold charge_css_snapshot, charge_css_work. late. Qed.
Lemma late_finish `{ContentHash} windows limits x r kind bs : keeps_late (finish_read windows limits x r kind bs).
Proof. unfold finish_read, reconcile_css_work, reconcile_input. late. Qed.
Lemma late_observe `{FileSystem} windows path : keeps_late (observe_metadata windows path).
Proof. unfold observe_metadata, record_failed_path. late. Qed.

Section sound.
Context `{CH : ContentHash} (windows : bool) (limits : AssetBudgetLimits) (graph : N) (FIN : finite_limits limits).

Lemma snapshot_ends `{FS : FileSystem} expired path kind s held paths :
  accounts limits graph s held paths →
  ends (snapshot windows limits expired path kind) s (λ _ s', accounts limits graph s' held paths)
    (λ s', accounts limits graph s' held paths).
Proof.
  intros Hs. unfold snapshot, check_deadline. apply ends_get. destruct (match _ with Some a => inl a | None => _ end) as [a|c] eqn:Hf.
  { eapply ends_bind; [eapply ends_mono; [by apply check_available_ends|exact (λ _ _ H, H)|by auto]|]. by intros _ s' [-> _]. }
  apply ends_modify. assert (accounts limits graph (set_alias path c s) held paths) as Hs1 by by destruct Hs.
  eapply ends_bind; [eapply ends_mono; [by apply check_available_ends|exact (λ _ _ H, H)|by auto]|]. intros _ s' [-> _]. cbn beta.
  destruct (fs_metadata c) as [md|e]; [|by destruct Hs1]. eapply ends_bind.
  { by apply begin_resource_read_ends. }
  intros r s2 H2. destruct (fs_read c) as [bs|e].
  - eapply ends_mono; [apply (finish_read_ends _ _ graph FIN _ r kind bs s2 _ _ H2); [by left|unfold held_by; lia]|intros a0 s' H'|intros s' H'].
    all: cbn beta zeta in H'; (eapply accounts_weaken; [exact FIN|exact H'|unfold held_by; lia|by intros ? ?; right]).
  - assert (accounts limits graph s2 held paths) as []; [|done].
    eapply accounts_weaken; [exact FIN|exact H2|lia|by intros ? ?; right].
Qed.

Definition within_budget (b : ReadBudget) : Prop := (rb_files b ≤ MAX_STYLESHEET_FILES ∧ rb_bytes b ≤ MAX_STYLESHEET_BYTES)%N.
Definition holding (held : N) (paths : list string) (w : World) : Prop :=
  accounts limits graph (w_ledger w) held paths ∧ within_budget (budget (w_provider w)).
Definition steady : World → Prop := holding 0 [].
Definition later (w w' : World) : Prop :=
  extends (w_ledger w) (w_ledger w') ∧ (timed_out (w_ledger w) = true → timed_out (w_ledger w') = true).
#[export] Instance later_preorder : PreOrder later.
Proof.
  split; [by intros w|]. intros a b c [H1 H2] [H3 H4]. split; [by etrans|auto].
Qed.

Definition triple {E A} (P : World → Prop) (m : M E A) (Q : A → World → Prop) : Prop := ∀ w, P w →
  match m w with
  | (Good a, w') => Q a w' ∧ later w w'
  | (Bad _, w') => steady w' ∧ later w w'
  | (Crash, _) => False
  end.
Definition sound {E A} (m : M E A) : Prop := triple steady m (λ _, steady).

Lemma triple_bind {E A B} P (m : M E A) (f : A → M E B) R Q :
  triple P m R → (∀ a, triple (R a) (f a) Q) → triple P (m ≫= f) Q.
Proof.
  intros Hm Hf w Hw. specialize (Hm w Hw). unfold mbind, M_bind. destruct (m w) as [[a|e|] w1]; [|done..].
  destruct Hm as [Ha Hl]. specialize (Hf a w1 Ha). destruct (f a w1) as [[b|e|] w2]; [| |done].
  all: destruct Hf as [? ?]; split; [done|by etrans].
Qed.
Lemma triple_weaken {E A} (P P' : World → Prop) (m : M E A) (Q Q' : A → World → Prop) :
  triple P m Q → (∀ w, P' w → P w) → (∀ a w, Q a w → Q' a w) → triple P' m Q'.
Proof. intros Hm HP HQ w Hw. specialize (Hm w (HP w Hw)). destruct (m w) as [[a|e|] w1]; [|done..]. naive_solver. Qed.
Lemma triple_ret {E A} (P : World → Prop) (a : A) Q : (∀ w, P w → Q a w) → triple (E := E) P (mret a) Q.
Proof. intros H w Hw. split; [by apply H|done]. Qed.
Lemma triple_fail {E A} (P : World → Prop) (e : E) (Q : A → World → Prop) : (∀ w, P w → steady w) → triple P (fail e) Q.
Proof. intros H w Hw. split; [by apply H|done]. Qed.

Lemma sound_bind {E A B} (m : M E A) (f : A → M E B) : sound m → (∀ a, sound (f a)) → sound (m ≫= f).
Proof. intros Hm Hf. eapply triple_bind; [exact Hm|exact Hf]. Qed.
Lemma sound_fmap {E A B} (f : A → B) (m : M E A) : sound m → sound (f <$> m).
Proof. intros Hm. apply sound_bind; [done|]. intros a. by apply triple_ret. Qed.
Lemma sound_ret {E A} (a : A) : sound (E := E) (mret a).
Proof. by apply triple_ret. Qed.
Lemma sound_fail {E A} (e : E) : sound (A := A) (fail e).
Proof. by apply triple_fail. Qed.
Lemma sound_look {E A} (f : World → A) : sound (E := E) (look f).
Proof. by intros w Hw. Qed.
Lemma sound_attempt {E F A} (m : M E A) : sound m → sound (E := F) (attempt m).
Proof. intros Hm w Hw. specialize (Hm w Hw). unfold attempt. by destruct (m w) as [[a|e|] w1]. Qed.
Lemma sound_map_err {E F A} (f : E → F) (m : M E A) : sound m → sound (map_err f m).
Proof. intros Hm w Hw. specialize (Hm w Hw). unfold map_err. by destruct (m w) as [[a|e|] w1]. Qed.

(** *** The provider *)

Context (disk : nat → FileSystem) (is_file : nat → string → bool) (expires : nat)
        (file_provider_resolve : string → string → ResolveResult + CssError)
        (resolve_package : nat → string → string → option string)
        (parse_imports : list ascii → option (list string)).
Notation lg := (ledger disk expires).
Notation od := (on_disk disk).

Lemma triple_ledger {A} held paths (m : FileSystem → (nat → bool) → op A) (Q : A → World → Prop) :
  (∀ FS ex s, accounts limits graph s held paths →
     ends (m FS ex) s (λ a s', ∀ p t, within_budget (budget p) → Q a {| w_ledger := s'; w_provider := p; w_time := t |})
       (λ s', accounts limits graph s' 0 [])) →
  (∀ FS ex, extending (m FS ex)) → (∀ FS ex, keeps_late (m FS ex)) →
  triple (holding held paths) (lg m) Q.
Proof.
  intros Hm He Hk w [Ha Hb]. unfold ledger.
  specialize (Hm (disk (w_time w)) (λ i, expires <=? w_time w + i) _ Ha).
  pose proof (He (disk (w_time w)) (λ i, expires <=? w_time w + i) (w_ledger w)) as Hx.
  pose proof (Hk (disk (w_time w)) (λ i, expires <=? w_time w + i) (w_ledger w)) as Hl.
  unfold ends in Hm. destruct (m _ _ _) as [[a|e|] s']; [| |done].
  - split; [by apply Hm|done].
  - split; [done|done].
Qed.
Lemma sound_ledger {A} (m : FileSystem → (nat → bool) → op A) :
  (∀ FS ex s, accounts limits graph s 0 [] →
     ends (m FS ex) s (λ _ s', accounts limits graph s' 0 []) (λ s', accounts limits graph s' 0 [])) →
  (∀ FS ex, extending (m FS ex)) → (∀ FS ex, keeps_late (m FS ex)) → sound (lg m).
Proof.
  intros Hm He Hk. apply triple_ledger; [|done..]. intros FS ex s Hs.
  eapply ends_mono; [by apply Hm|by intros a s' ? p t ?|done].
Qed.
Lemma sound_on_disk {E A} (f : nat → FileSystem → A) : sound (E := E) (od f).
Proof. by intros w Hw. Qed.
Lemma sound_change {E} (f : World → World) :
  (∀ w, w_ledger (f w) = w_ledger w) → (∀ w, steady w → within_budget (budget (w_provider (f w)))) → sound (E := E) (change f).
Proof.
  intros Hl Hp w Hw. split; [split; [rewrite Hl; apply Hw|by apply Hp]|]. unfold later. by rewrite Hl.
Qed.

Lemma sound_deadline : sound (check_deadline_now disk expires).
Proof.
  apply sound_ledger; intros FS ex; [|apply extending_check|apply late_check]. intros s Hs. unfold check_deadline.
  eapply ends_mono; [by apply check_available_ends| |done]. by intros [] s' [-> _].
Qed.
Lemma sound_failed path e : sound (record_failed_read windows disk expires path e).
Proof.
  apply sound_ledger; intros FS ex; [|apply extending_failed|]. { by intros s []. }
  unfold record_failed_path. late.
Qed.

Lemma sat_add_above a b : (sat_add a b < u64_max → b ≤ sat_add a b)%N.
Proof. unfold sat_add. lia. Qed.
Lemma reserve_triple held paths bytes :
  triple (holding held paths) (reserve bytes)
    (λ r w, r = bytes ∧ holding held paths w ∧ (bytes ≤ rb_bytes (budget (w_provider w)))%N).
Proof.
  intros w [Ha [Hf Hb]]. unfold reserve, mbind, M_bind, look. cbn [compose]. cbv zeta. case_decide as Hd.
  - split; [|done]. split; [|split; [exact Hf|exact Hb]]. eapply accounts_weaken; [exact FIN|exact Ha|lia|set_solver].
  - apply Decidable.not_or in Hd as [Hd1%N.nlt_ge Hd2%N.nlt_ge]. split; [|done]. split; [done|].
    split; [split; [exact Ha|by split]|]. revert Hd2. cbn [rb_bytes budget w_provider set_budget set_provider].
    generalize (rb_bytes (budget (w_provider w))). intros b Hd2. apply sat_add_above. eapply N.le_lt_trans; [exact Hd2|done].
Qed.
Lemma reconcile_triple held paths reservation actual :
  triple (λ w, holding held paths w ∧ (reservation ≤ rb_bytes (budget (w_provider w)))%N) (reconcile reservation actual)
    (λ _, holding held paths).
Proof.
  intros w [[Ha [Hf Hb]] Hr]. unfold reconcile, mbind, M_bind, look. cbn [compose]. rewrite decide_False by (apply N.nlt_ge; exact Hr).
  cbv zeta. case_decide as Hd.
  - split; [|done]. split; [|split; [exact Hf|exact Hb]]. eapply accounts_weaken; [exact FIN|exact Ha|lia|set_solver].
  - split; [|done]. split; [exact Ha|]. split; [exact Hf|]. by apply N.nlt_ge.
Qed.

Lemma sound_reserve bytes : sound (reserve bytes).
Proof. eapply triple_weaken; [apply (reserve_triple 0 [])|done|]. by intros r w (_ & ? & _). Qed.
Lemma sound_utf8 key bytes : sound (utf8_source key bytes).
Proof. unfold utf8_source. destruct (is_utf8 bytes); [apply sound_ret|apply sound_fail]. Qed.

Lemma sound_read_again key asset : sound (read_again limits disk expires key asset).
Proof.
  apply sound_bind; [|intros _; apply sound_bind; [apply sound_reserve|intros _; apply sound_utf8]].
  apply sound_ledger; intros FS ex; [|apply extending_charge_snapshot|apply late_charge].
  intros s Hs. by apply charge_css_snapshot_ends.
Qed.

Lemma sound_read_anew key : sound (read_anew windows limits disk expires key).
Proof.
  apply sound_bind; [apply sound_on_disk|]. intros [md|e]; [|apply sound_bind; [apply sound_failed|intros _; apply sound_fail]].
  eapply (triple_bind _ _ _ (λ r, holding (held_by r + 0) [r_path r])).
  { apply (triple_ledger 0 []); intros FS ex; [|apply extending_begin_css|apply late_begin_css]. intros s Hs.
    eapply ends_mono; [exact (begin_css_read_ends _ _ _ FIN _ _ _ _ _ _ Hs)| |by auto]. by intros r s' ? p t ?. }
  intros r. eapply triple_bind; [apply reserve_triple|]. intros reservation. cbn beta.
  eapply (triple_bind _ _ _ (λ _ w, reservation = md_len md ∧ holding (held_by r + 0) [r_path r] w ∧ (md_len md ≤ rb_bytes (budget (w_provider w)))%N));
    [by intros w|].
  assert (∀ w, holding (held_by r + 0) [r_path r] w → steady w) as Hdrop.
  { intros w [Ha Hb]. split; [|done]. eapply accounts_weaken; [exact FIN|exact Ha|lia|set_solver]. }
  intros [bytes|e].
  - eapply triple_bind.
    { eapply triple_weaken; [apply (reconcile_triple (held_by r + 0) [r_path r])| |by intros ? ? H; exact H]. by intros w (-> & ? & ?). }
    intros []. cbn beta. eapply (triple_bind _ _ _ (λ _, steady)); [|intros a; apply sound_utf8].
    apply triple_ledger; intros FS ex; [|apply extending_finish|apply late_finish]. intros s Hs.
    eapply ends_mono; [apply (finish_read_ends _ _ _ FIN _ r Css bytes s _ _ Hs); [by left|unfold held_by; lia]| |].
    + intros a s' H' p t Hb. split; [|done]. cbn beta zeta in H'. eapply accounts_weaken; [exact FIN|exact H'|unfold held_by; lia|set_solver].
    + intros s' H'. cbn beta zeta in H'. eapply accounts_weaken; [exact FIN|exact H'|unfold held_by; lia|set_solver].
  - eapply triple_weaken; [apply (sound_bind (record_failed_read windows disk expires key e)); [apply sound_failed|intros _; apply sound_fail]| |done].
    intros w (_ & Hw & _). by apply Hdrop.
Qed.

Lemma sound_canonical path : sound (canonical_file disk path).
Proof. apply sound_on_disk. Qed.

Lemma sound_read p file : sound (read windows limits disk expires p file).
Proof.
  apply sound_bind; [apply sound_deadline|]. intros _. destruct (served_from_memory p file); [apply sound_ret|].
  apply sound_bind; [apply sound_look|]. intros []; [apply sound_ret|]. apply sound_bind; [apply sound_canonical|]. intros key.
  apply sound_bind; [apply sound_look|]. intros known. apply sound_bind; [|intros s; apply sound_bind; [apply sound_deadline|intros _; apply sound_ret]].
  destruct known; [apply sound_read_again|apply sound_read_anew].
Qed.

Notation the_resolve_target := (resolve_target windows disk is_file expires file_provider_resolve resolve_package).
Notation the_resolve := (resolve windows disk is_file expires file_provider_resolve resolve_package).
Notation the_ordered_imports := (ordered_imports windows disk is_file expires file_provider_resolve resolve_package parse_imports).
Notation the_visit_in := (visit_in windows disk is_file expires file_provider_resolve resolve_package parse_imports).
Notation the_provider_closing_edges := (provider_closing_edges windows disk is_file expires file_provider_resolve resolve_package parse_imports).

Lemma sound_bare specifier origin relative :
  sound (bare_import_target windows disk is_file expires resolve_package specifier origin relative).
Proof.
  unfold bare_import_target. apply sound_bind; [apply sound_on_disk|]. intros found. cbv zeta.
  assert (sound (match path_parent origin with
    | None => mret relative
    | Some directory =>
        resolution ← od (λ t _, resolve_package t directory specifier);
        match resolution with
        | Some path => if is_stylesheet_path path then _ ← record_failed_read windows disk expires relative NotFound; mret path else mret relative
        | None => mret relative
        end
    end)) as Hr.
  { destruct (path_parent origin); [|apply sound_ret]. apply sound_bind; [apply sound_on_disk|]. intros [path|]; [|apply sound_ret].
    destruct (is_stylesheet_path path); [|apply sound_ret]. apply sound_bind; [apply sound_failed|]. intros _. apply sound_ret. }
  destruct found as [[]|[]]; try exact Hr; apply sound_ret.
Qed.

Lemma sound_resolve_target specifier origin : sound (the_resolve_target specifier origin).
Proof.
  unfold Stylesheets.resolve_target. destruct (is_remote_reference _); [apply sound_ret|].
  destruct (path_is_absolute specifier); [apply sound_fmap, sound_canonical|].
  destruct (file_provider_resolve specifier origin) as [[path|url]|e]; [|apply sound_ret|apply sound_fail].
  apply sound_bind; [destruct (is_bare_specifier specifier); [apply sound_bare|apply sound_ret]|]. intros path'.
  apply sound_fmap, sound_canonical.
Qed.

Lemma sound_resolve specifier origin : sound (the_resolve specifier origin).
Proof.
  apply sound_bind; [apply sound_resolve_target|]. intros [target|url]; [|apply sound_ret].
  cbv zeta. apply sound_bind; [apply sound_look|]. intros c. destruct (cut_target _ _); [apply sound_ret|].
  apply sound_bind; [|intros []; apply sound_ret]. apply sound_change; [done|]. by intros w [].
Qed.

Lemma sound_resolve_all sheet urls : sound (resolve_all windows disk is_file expires file_provider_resolve resolve_package sheet urls).
Proof.
  induction urls as [|url urls IH]; [apply sound_ret|]. apply sound_bind; [apply sound_attempt, sound_resolve_target|]. intros target.
  apply sound_bind; [exact IH|]. intros rest. apply sound_ret.
Qed.
Lemma sound_ordered_imports p sheet : sound (the_ordered_imports p sheet).
Proof.
  apply sound_bind; [apply sound_look|]. intros [source|]; [|apply sound_ret]. destruct (is_utf8 source); [|apply sound_ret].
  destruct (parse_imports source); [apply sound_resolve_all|apply sound_ret].
Qed.
Lemma sound_visit_in p fuel sheet wk : sound (the_visit_in p fuel sheet wk).
Proof.
  revert sheet wk. induction fuel as [|fuel IH]; intros sheet wk; [apply sound_ret|]. cbn [Stylesheets.visit_in].
  apply sound_bind; [apply sound_ordered_imports|]. intros targets. apply sound_bind; [|intros r; apply sound_ret].
  generalize (enter sheet wk). induction targets as [|t targets IHt]; intros wk'; [apply sound_ret|]. cbn [visit_targets_in].
  apply sound_bind; [unfold step_target; repeat case_decide; [apply sound_ret|apply IH|apply sound_ret]|]. intros [wk2|]; [apply IHt|apply sound_ret].
Qed.
Lemma sound_closing_edges p entry : sound (the_provider_closing_edges p entry).
Proof.
  apply sound_bind; [apply sound_look|]. intros recorded. destruct (closing_edges _ _ _) as [any|]; [|apply sound_ret].
  case_decide; [apply sound_ret|]. apply sound_bind; [apply sound_look|]. intros fuel. apply sound_bind; [apply sound_visit_in|].
  intros r. apply sound_ret.
Qed.

(** *** The bundle *)

Context (display : CssError → string) {Sheet : Type} (bundler : string → Walk Sheet) (print : Sheet → bool → list ascii + string)
        (minify : Sheet → Sheet + string) (analyze : Sheet → list Dependency + string).
Notation the_bundle_with := (bundle_with windows limits disk is_file expires display file_provider_resolve resolve_package parse_imports
  bundler print minify analyze).
Notation the_bundle_tree := (bundle_tree windows limits disk is_file expires display file_provider_resolve resolve_package parse_imports bundler).
Notation the_bundle_once := (bundle_once windows limits disk is_file expires display file_provider_resolve resolve_package bundler).

Lemma sound_run_walk p (walk : Walk Sheet) : sound (run_walk windows limits disk is_file expires file_provider_resolve resolve_package p walk).
Proof.
  induction walk as [r|file next IH|specifier origin next IH]; [apply sound_ret| |].
  - apply sound_bind; [apply sound_attempt, sound_read|]. intros source. apply IH.
  - apply sound_bind; [apply sound_attempt, sound_resolve|]. intros target. apply IH.
Qed.

Lemma sound_examine d b : sound (examine_in windows limits disk expires display d b).
Proof.
  destruct d as [url file_path|url file_path]; [|apply sound_ret]. cbn [examine_in].
  destruct (located_path url file_path (b_located b)) as [path|]; [|apply sound_ret].
  apply sound_bind; [apply sound_on_disk|]. intros path'. apply sound_bind.
  { apply sound_attempt, sound_ledger; intros FS ex; [|apply extending_observe_metadata|apply late_observe]. intros s Hs.
    unfold observe_metadata. destruct (fs_metadata path'); by destruct Hs. }
  intros stat. apply sound_bind; [|intros found; apply sound_ret].
  destruct stat as [md|e]; [|apply sound_ret]. destruct (counted_kind path') as [kind|]; [|apply sound_ret].
  apply sound_attempt, sound_ledger; intros FS ex; [|apply extending_snapshot|apply late_snapshot]. intros s Hs.
  by apply snapshot_ends.
Qed.
Lemma sound_collect deps : sound (collect_in windows limits disk expires display deps).
Proof.
  unfold collect_in. apply sound_bind; [|intros [b rest]; apply sound_ret]. generalize no_buckets.
  induction deps as [|d deps IH]; intros b; cbn [examine_all_in]; (apply sound_bind; [apply sound_attempt, sound_deadline|]); intros [[]|e];
    try apply sound_ret. apply sound_bind; [apply sound_examine|]. intros b'. apply IH.
Qed.

Lemma sound_bundle_once p entry : sound (the_bundle_once p entry).
Proof.
  apply sound_bind; [apply sound_map_err, sound_run_walk|]. intros [sheet|e]; [apply sound_ret|apply sound_fail].
Qed.
Lemma sound_or_error : sound (deadline_or_error disk expires display).
Proof. apply sound_map_err, sound_deadline. Qed.
Lemma sound_of_css {A} message (r : A + string) : sound (of_css message r).
Proof. destruct r; [apply sound_ret|apply sound_fail]. Qed.
Lemma sound_bundle_tree p entry : sound (the_bundle_tree p entry).
Proof.
  apply sound_bind; [apply sound_bundle_once|]. intros sheet. apply sound_bind; [apply sound_map_err, sound_closing_edges|].
  intros [[closing|]|]; [|apply sound_ret..]. apply sound_bind.
  { apply sound_change; [done|]. intros w [_ Hw]. cbn. split; unfold MAX_STYLESHEET_FILES, MAX_STYLESHEET_BYTES; cbn; lia. }
  intros []. apply sound_bind; [apply sound_or_error|]. intros []. apply sound_fmap, sound_bundle_once.
Qed.

Lemma sound_bundle_with p entry : sound (the_bundle_with p entry).
Proof.
  apply sound_bind; [apply sound_or_error|]. intros []. apply sound_bind; [apply sound_bundle_tree|]. intros [sheet|]; [|apply sound_ret].
  apply sound_bind; [apply sound_or_error|]. intros []. apply sound_bind; [apply sound_of_css|]. intros raw.
  apply sound_bind; [apply sound_or_error|]. intros []. apply sound_bind; [apply sound_of_css|]. intros small.
  apply sound_bind; [apply sound_or_error|]. intros []. apply sound_bind.
  { destruct (analyze small); [apply sound_map_err, sound_collect|apply sound_ret]. }
  intros deps. apply sound_bind; [apply sound_or_error|]. intros []. apply sound_bind; [apply sound_of_css|]. intros minified.
  apply sound_bind; [apply sound_or_error|]. intros []. apply sound_ret.
Qed.

End sound.

(** *** The walks have fuel enough *)

Section walks.
Context (windows : bool) (disk : nat → FileSystem) (is_file : nat → string → bool) (expires : nat)
        (file_provider_resolve : string → string → ResolveResult + CssError)
        (resolve_package : nat → string → string → option string)
        (parse_imports : list ascii → option (list string)).
Notation the_resolve_target := (resolve_target windows disk is_file expires file_provider_resolve resolve_package).
Notation the_ordered_imports := (ordered_imports windows disk is_file expires file_provider_resolve resolve_package parse_imports).
Notation the_visit_in := (visit_in windows disk is_file expires file_provider_resolve resolve_package parse_imports).
Notation the_provider_closing_edges := (provider_closing_edges windows disk is_file expires file_provider_resolve resolve_package parse_imports).


Definition snaps (w : World) : gmap string CollectedAsset := snapshots (w_ledger w).
Definition keeps_snaps {E A} (m : M E A) : Prop := ∀ w, snaps (m w).2 = snaps w.
Lemma keeps_bind {E A B} (m : M E A) (f : A → M E B) : keeps_snaps m → (∀ a, keeps_snaps (f a)) → keeps_snaps (m ≫= f).
Proof.
  intros Hm Hf w. specialize (Hm w). unfold mbind, M_bind. destruct (m w) as [[a|e|] w1]; cbn in Hm; [|done..].
  by rewrite Hf.
Qed.
Lemma keeps_attempt {E F A} (m : M E A) : keeps_snaps m → keeps_snaps (E := F) (attempt m).
Proof. intros Hm w. specialize (Hm w). unfold attempt. by destruct (m w) as [[a|e|] w1]. Qed.
Lemma keeps_resolve_target specifier origin : keeps_snaps (the_resolve_target specifier origin).
Proof.
  assert (∀ path, keeps_snaps (TargetFile <$> canonical_file disk path)) as Hc by done.
  unfold Stylesheets.resolve_target. destruct (is_remote_reference _); [done|]. destruct (path_is_absolute specifier); [apply Hc|].
  destruct (file_provider_resolve specifier origin) as [[path|url]|e]; [|done..].
  apply keeps_bind; [|intros a; apply Hc]. destruct (is_bare_specifier specifier); [|done].
  unfold bare_import_target. apply keeps_bind; [done|]. intros found. cbv zeta.
  destruct found as [[]|[]], (path_parent origin) as [up|]; try done; (apply keeps_bind; [done|]);
    (intros [q|]; [|done]); (destruct (is_stylesheet_path q); [|done]); (apply keeps_bind; [by intros w|done]).
Qed.
Lemma keeps_ordered_imports p sheet : keeps_snaps (the_ordered_imports p sheet).
Proof.
  unfold Stylesheets.ordered_imports. apply keeps_bind; [done|]. intros [source|]; [|done]. destruct (is_utf8 source); [|done].
  destruct (parse_imports source) as [urls|]; [|done]. induction urls as [|url urls IH]; [done|]. cbn [resolve_all].
  apply keeps_bind; [apply keeps_attempt, keeps_resolve_target|]. intros a. by apply keeps_bind.
Qed.

Lemma resolve_all_normal sheet urls w targets w' :
  resolve_all windows disk is_file expires file_provider_resolve resolve_package sheet urls w = (Good targets, w') →
  Forall (λ path, path_normal path = path) targets.
Proof.
  revert w targets w'. induction urls as [|url urls IH]; intros w targets w'; cbn [resolve_all]; [intros [= <- <-]; constructor|].
  unfold mbind, M_bind. destruct (attempt _ w) as [[r|e|] w1]; [|done..].
  destruct (resolve_all _ _ _ _ _ _ sheet urls w1) as [[rest|e|] w2] eqn:Hr; [|done..]. apply IH in Hr.
  intros [= <- <-]. destruct r as [[path|url']|e]; [|done..]. constructor; [apply normal_normal|done].
Qed.
(** The sheets that can have imports. *)
Definition known_sheets (p : TrackingProvider) (w : World) : gset string :=
  (match synthetic p with Some (path, _) => {[path_normal path]} | None => ∅ end) ∪ dom (preloaded p) ∪ dom (snaps w).
Definition normal_path (path : string) : Prop := path_normal path = path.

Lemma ordered_imports_known p sheet w targets w' : normal_path sheet →
  the_ordered_imports p sheet w = (Good targets, w') → Forall normal_path targets ∧ (targets ≠ [] → sheet ∈ known_sheets p w).
Proof.
  intros Hn. unfold Stylesheets.ordered_imports, mbind, M_bind, look. unfold sheet_bytes, known_sheet, snapshot_for.
  destruct (served_from_memory p sheet) as [content|] eqn:Hs.
  - assert (sheet ∈ known_sheets p w) as Hk.
    { unfold served_from_memory in Hs. unfold known_sheets. destruct (synthetic p) as [[path c]|]; [|done]. cbn in Hs.
      destruct (path_eqb sheet path) eqn:He; [|done]. apply path_eqb_spec in He. unfold normal_path, path_normal in Hn.
      apply elem_of_union_l, elem_of_union_l, elem_of_singleton. unfold path_normal. by rewrite <- Hn, He. }
    clear Hs. intros H. split; [|done]. revert H. destruct (is_utf8 content); [|intros [= <- <-]; constructor].
    destruct (parse_imports content); [|intros [= <- <-]; constructor]. apply resolve_all_normal.
  - destruct (_ <$> _) as [content|] eqn:Hk; [|intros [= <- <-]; split; [constructor|done]].
    assert (sheet ∈ known_sheets p w) as Hin.
    { unfold known_sheets, snaps. apply fmap_Some in Hk as (a & Hk & _).
      destruct (preloaded p !! sheet) eqn:Hp.
      - apply elem_of_union_l, elem_of_union_r. by eapply elem_of_dom_2.
      - apply elem_of_union_r. by eapply elem_of_dom_2. }
    clear Hk. intros H. split; [|done]. revert H. destruct (is_utf8 content); [|intros [= <- <-]; constructor].
    destruct (parse_imports content); [|intros [= <- <-]; constructor]. apply resolve_all_normal.
Qed.

(** A walk that does not run out keeps the stack and the known sheets. *)
Definition walked (p : TrackingProvider) (stack : gset string) (w : World) (r : answer CssError (option walk) * World) : Prop :=
  match r with
  | (Good (Some wk), w') => on_stack wk = stack ∧ known_sheets p w' = known_sheets p w
  | (Good None, _) => False
  | _ => True
  end.

Lemma visit_targets_walked p fuel sheet targets wk w (K : gset string) :
  (∀ t wk w, normal_path t → known_sheets p w = K → t ∉ on_stack wk → on_stack wk = on_stack wk →
     size (K ∖ on_stack wk) < fuel → walked p (on_stack wk) w (the_visit_in p fuel t wk w)) →
  Forall normal_path targets → known_sheets p w = K → size (K ∖ on_stack wk) < fuel →
  walked p (on_stack wk) w (visit_targets_in (the_visit_in p fuel) sheet targets wk w).
Proof.
  intros IH Ht. revert wk w. induction Ht as [|t targets Ht _ IHt]; intros wk w Hk Hf; [done|]. cbn [visit_targets_in].
  unfold mbind, M_bind.
  assert (walked p (on_stack wk) w (step_target (the_visit_in p fuel) sheet t wk w)) as Hstep.
  { unfold step_target. case_decide; [done|]. case_decide; [|done]. by apply IH. }
  destruct (step_target _ _ _ _ w) as [[[wk1|]|e|] w1]; [|done..].
  destruct Hstep as [Hs Hw]. rewrite <- Hs. specialize (IHt wk1 w1). rewrite Hw, Hs in IHt. specialize (IHt Hk Hf).
  destruct (visit_targets_in _ _ _ _ w1) as [[[wk2|]|e|] w2]; [|done..]. cbn in *. rewrite Hs, <- Hw. done.
Qed.

Lemma visit_in_walked p fuel sheet wk w : normal_path sheet → sheet ∉ on_stack wk →
  size (known_sheets p w ∖ on_stack wk) < fuel → walked p (on_stack wk) w (the_visit_in p fuel sheet wk w).
Proof.
  revert sheet wk w. induction fuel as [|fuel IH]; intros sheet wk w Hn Hs Hf; [lia|]. cbn [Stylesheets.visit_in].
  unfold mbind, M_bind. pose proof (keeps_ordered_imports p sheet w) as Hkeep.
  destruct (the_ordered_imports p sheet w) as [[targets|e|] w1] eqn:Ho; [|done..].
  destruct (ordered_imports_known p sheet w targets w1 Hn Ho) as [Hnt Hin]. cbn in Hkeep.
  assert (known_sheets p w1 = known_sheets p w) as Hk1 by (unfold known_sheets; by rewrite Hkeep).
  assert (walked p (on_stack (enter sheet wk)) w1 (visit_targets_in (the_visit_in p fuel) sheet targets (enter sheet wk) w1)) as Hv.
  { destruct targets as [|t targets]; [done|]. eapply visit_targets_walked; [|exact Hnt|exact Hk1|].
    - intros t' wk' w' Ht' <- Hno _. by apply IH.
    - assert (sheet ∈ known_sheets p w) as Hsk by by apply Hin. cbn [enter on_stack].
      assert (known_sheets p w ∖ ({[sheet]} ∪ on_stack wk) ⊂ known_sheets p w ∖ on_stack wk) as Hlt%subset_size; [|lia].
      clear -Hsk Hs. set_solver. }
  destruct (visit_targets_in _ _ _ _ w1) as [[[wk1|]|e|] w2]; [|done..]. cbn in Hv |- *. destruct Hv as [Hv1 Hv2].
  split; [|congruence]. rewrite Hv1. clear -Hs. set_solver.
Qed.

Lemma size_union_le (X Y : gset string) : size (X ∪ Y) ≤ size X + size Y.
Proof. rewrite size_union_alt. pose proof (subseteq_size (Y ∖ X) Y ltac:(set_solver)). lia. Qed.
Lemma list_to_set_le (l : list string) : size (list_to_set l : gset string) ≤ length l.
Proof.
  induction l as [|x l IH]; cbn; [by rewrite size_empty|]. etrans; [apply size_union_le|]. rewrite size_singleton. lia.
Qed.
Lemma known_sheets_size p w : size (known_sheets p w) < walk_fuel p w.
Proof.
  unfold known_sheets, walk_fuel.
  pose proof (size_union_le ((match synthetic p with Some (path, _) => {[path_normal path]} | None => ∅ end) ∪ dom (preloaded p)) (dom (snaps w))) as H1.
  pose proof (size_union_le (match synthetic p with Some (path, _) => {[path_normal path]} | None => ∅ end) (dom (preloaded p))) as H2.
  rewrite !size_dom in *. unfold snaps in *.
  assert (size (match synthetic p with Some (path, _) => ({[path_normal path]} : gset string) | None => ∅ end) ≤ 1)
    by (destruct (synthetic p) as [[]|]; [by rewrite size_singleton|rewrite size_empty; lia]). lia.
Qed.

(** The walks end: their fuel is never short. *)
Lemma closing_edges_walked p entry w w' : the_provider_closing_edges p entry w ≠ (Good None, w').
Proof.
  unfold Stylesheets.provider_closing_edges, mbind, M_bind, look. cbn [compose]. set (recorded := edges (w_provider w)).
  set (tree := {[path_normal entry]} ∪ list_to_set (recorded.*1) ∪ list_to_set (recorded.*2) : gset string).
  assert (size tree ≤ 2 + 2 * length recorded) as Hsize.
  { pose proof (size_union_le ({[path_normal entry]} ∪ list_to_set recorded.*1) (list_to_set recorded.*2)) as H1.
    pose proof (size_union_le {[path_normal entry]} (list_to_set recorded.*1)) as H2. rewrite size_singleton in H2.
    pose proof (list_to_set_le (recorded.*1)). pose proof (list_to_set_le (recorded.*2)).
    rewrite !length_fmap in *. subst tree. lia. }
  assert (∃ any, ImportCycles.closing_edges (adjacent (sorted_adjacency recorded)) (2 + 2 * length recorded) (path_normal entry) = Some any)
    as [any ->].
  { unfold ImportCycles.closing_edges. edestruct (visit_total (adjacent (sorted_adjacency recorded)) tree) as (wk & -> & _); [| | | |by eexists].
    - intros x y _. unfold edge. rewrite sorted_adjacency_edges. intros (e & -> & [_ He]%list_elem_of_filter)%list_elem_of_fmap.
      apply elem_of_union_r, elem_of_list_to_set. by apply list_elem_of_fmap_2.
    - apply elem_of_union_l, elem_of_union_l. by apply elem_of_singleton.
    - apply not_elem_of_empty.
    - etrans; [apply subseteq_size|exact Hsize]. set_solver. }
  case_decide; [done|]. pose proof (visit_in_walked p (walk_fuel p w) (path_normal entry) start_walk w) as Hv.
  destruct (the_visit_in p (walk_fuel p w) (path_normal entry) start_walk w) as [[[wk|]|e|] w1]; [done| |done..].
  destruct Hv; [apply normal_normal|apply not_elem_of_empty|]. cbn [on_stack start_walk].
  rewrite difference_empty_L. apply known_sheets_size.
Qed.
End walks.

(** ** A whole bundle *)

Section bundles.
Context `{CH : ContentHash} (windows : bool) (limits : AssetBudgetLimits)
        (disk : nat → FileSystem) (is_file : nat → string → bool) (expires : nat) (display : CssError → string)
        (file_provider_resolve : string → string → ResolveResult + CssError)
        (resolve_package : nat → string → string → option string)
        (parse_imports : list ascii → option (list string)).
Context {Sheet : Type} (bundler : string → Walk Sheet) (print : Sheet → bool → list ascii + string)
        (minify : Sheet → Sheet + string) (analyze : Sheet → list Dependency + string).
Notation the_bundle_with := (bundle_with windows limits disk is_file expires display file_provider_resolve resolve_package parse_imports
  bundler print minify analyze).
Notation the_bundle_tree := (bundle_tree windows limits disk is_file expires display file_provider_resolve resolve_package parse_imports bundler).
Notation the_bundle_once := (bundle_once windows limits disk is_file expires display file_provider_resolve resolve_package bundler).

(** *** Never out of fuel *)

Definition settles {E A} (m : M E (option A)) : Prop := ∀ w w', m w ≠ (Good None, w').
Lemma settles_bind {E A B} (m : M E A) (f : A → M E (option B)) : (∀ a, settles (f a)) → settles (m ≫= f).
Proof. intros Hf w w'. unfold mbind, M_bind. destruct (m w) as [[a|e|] w1]; [apply Hf|done..]. Qed.
Lemma settles_option {E A B} (m : M E (option A)) (f : option A → M E (option B)) :
  settles m → (∀ a, settles (f (Some a))) → settles (m ≫= f).
Proof.
  intros Hm Hf w w'. unfold mbind, M_bind. pose proof (Hm w) as Hw. destruct (m w) as [[[a|]|e|] w1]; [apply Hf|by destruct (Hw w1)|done..].
Qed.
Lemma settles_ret {E A} (a : A) : settles (E := E) (mret (Some a)).
Proof. by intros w w'. Qed.
Lemma settles_some {E A} (m : M E A) : settles (Some <$> m).
Proof. apply settles_bind. intros a. apply settles_ret. Qed.
Lemma bundle_tree_settles p entry : settles (the_bundle_tree p entry).
Proof.
  apply settles_bind. intros sheet. apply settles_option.
  - intros w w'. unfold map_err.
    pose proof (closing_edges_walked windows disk is_file expires file_provider_resolve resolve_package parse_imports p entry w) as Hc.
    destruct (provider_closing_edges _ _ _ _ _ _ _ _ _ _) as [[[c|]|e|] w1]; [done|by destruct (Hc w1)|done..].
  - intros [closing|]; [|apply settles_ret]. apply settles_bind. intros []. apply settles_bind. intros []. apply settles_some.
Qed.
Lemma bundle_with_settles p entry : settles (the_bundle_with p entry).
Proof.
  apply settles_bind. intros []. apply settles_option; [apply bundle_tree_settles|]. intros sheet.
  do 7 (apply settles_bind; intros ?). do 2 (apply settles_bind; intros ?). apply settles_ret.
Qed.

(** A bundle ends. From any account of the ledger within its limits, whatever
    Lightning CSS asks in whatever order and whatever the disk answers, nothing
    panics and both walks that look for import cycles end; no tree holds more
    than its files and bytes; and the ledger forgets nothing it observed. *)
Theorem stylesheet_bundles_end graph p entry w : finite_limits limits → steady limits graph w →
  match the_bundle_with p entry w with
  | (Crash, _) | (Good None, _) => False
  | (_, w') => steady limits graph w' ∧ later w w'
  end.
Proof.
  intros Hfin Hw.
  pose proof (sound_bundle_with windows limits graph Hfin disk is_file expires file_provider_resolve resolve_package parse_imports
    display bundler print minify analyze p entry w Hw) as Hs.
  pose proof (bundle_with_settles p entry w) as Hn. destruct (the_bundle_with p entry w) as [[[b|]|e|] w1]; [done|by destruct (Hn w1)|done..].
Qed.
End bundles.

(** ** Cut edges *)

Lemma cut_sheets_edges closing : (cut_sheets closing).*1 ≡ₚ elements closing.
Proof.
  transitivity (stable_sort edge_cmp (elements closing)); [|apply stable_sort_perm]. apply reflexive_eq.
  apply list_eq. intros i. unfold cut_sheets. rewrite list_lookup_fmap, list_lookup_imap. by destruct (_ !! i).
Qed.
(** After the cut exactly the closing edges, however their paths are spelled,
    are answered with a stand-in, and a stand-in reads as an empty sheet. *)
Theorem closing_edges_are_cut closing e p :
  (is_Some (cut_target (cut_sheets closing) e) ↔ ∃ e', e' ∈ closing ∧ edge_eqb e' e = true) ∧
  ∀ empty, cut_target (cut_sheets closing) e = Some empty → is_cut_sheet empty (cut closing p) = true.
Proof.
  unfold cut_target. split.
  - rewrite !fmap_is_Some. split.
    + intros [[i [e' empty]] H%list_find_Some]. destruct H as (Hl & He & _). exists e'. split; [|done].
      apply elem_of_elements. rewrite <- cut_sheets_edges. apply list_elem_of_lookup_2 in Hl. by apply (list_elem_of_fmap_2 fst) in Hl.
    + intros (e' & Hin%elem_of_elements & He). rewrite <- cut_sheets_edges in Hin. apply list_elem_of_fmap in Hin as ([e'' empty] & -> & Hin).
      by eapply list_find_elem_of.
  - intros empty H. unfold is_cut_sheet, cut. cbn [cut_edges]. destruct (list_find _ (cut_sheets closing)) as [[i [e' em]]|] eqn:Hf; [|done].
    injection H as ->. apply list_find_Some in Hf as (Hl & _ & _). apply list_elem_of_lookup_2 in Hl.
    apply existsb_exists. exists (e', empty). split; [|by apply path_eqb_spec]. apply list_elem_of_In, elem_of_app. by left.
Qed.

(** ** What a reference asks of the disk *)

Section asks.
Context (canonical : string → string) (stat : string → Metadata + ErrorKind) (read_asset : string → AssetKind → CollectedAsset + string).

(** [located_path] is the one path [collect_supported_asset] looks at, if any. *)
Lemma located_path_is_looked_at url file_path located path :
  located_path url file_path located = Some path →
  collect_supported_asset canonical stat read_asset url file_path located =
  (Some (collect_located stat read_asset (canonical path)), path :: located).
Proof.
  unfold located_path, collect_supported_asset. destruct (_ || _); [done|]. destruct (is_remote_reference _); [done|].
  destruct (resource_path _) as [resource|]; [cbn|done]. destruct (_ || _); [done|].
  destruct (path_parent file_path) as [up|]; [cbn|done]. destruct (existsb _ _); [done|]. by intros [= <-].
Qed.
Lemma nothing_is_looked_at canonical' stat' read' url file_path located :
  located_path url file_path located = None →
  collect_supported_asset canonical stat read_asset url file_path located =
  collect_supported_asset canonical' stat' read' url file_path located.
Proof.
  unfold located_path, collect_supported_asset. destruct (_ || _); [done|]. destruct (is_remote_reference _); [done|].
  destruct (resource_path _) as [resource|]; [cbn|done]. destruct (_ || _); [done|].
  destruct (path_parent file_path) as [up|]; [cbn|done]. by destruct (existsb _ _).
Qed.
End asks.

(** ** The virtual entry, read back *)

(** A CSS string after its opening quote, as the syntax has it: a backslash
    escapes the byte after it (a hexadecimal escape, which nothing here writes,
    is not read), the quote ends it, a newline breaks it. Returns the value and
    what follows. *)
Definition css_newline (c : ascii) : bool := bool_decide (c = byte 10 ∨ c = byte 12 ∨ c = byte 13).
Fixpoint read_css_string (l : list ascii) : option (list ascii * list ascii) :=
  match l with
  | [] => None
  | c :: l =>
      if decide (c = byte 34) then Some ([], l)
      else if css_newline c then None
      else if decide (c = "\"%char) then
        match l with
        | [] => None
        | d :: l =>
            if css_newline d || bool_decide (is_Some (hex_value d)) then None
            else '(value, rest) ← read_css_string l; Some (d :: value, rest)
        end
      else '(value, rest) ← read_css_string l; Some (c :: value, rest)
  end.
Definition read_import (l : list ascii) : option (list ascii * list ascii) :=
  l ← strip_prefix (to_bytes "@import " ++ [byte 34]) l;
  '(value, rest) ← read_css_string l;
  rest ← strip_prefix (to_bytes ";") rest;
  Some (value, rest).
(** The rules of a sheet that is nothing but imports, one a line. *)
Fixpoint read_imports (fuel : nat) (l : list ascii) : option (list (list ascii)) :=
  match fuel with
  | 0 => None
  | S fuel =>
      '(value, rest) ← read_import l;
      match rest with
      | [] => Some [value]
      | c :: rest => if decide (c = byte 10) then cons value <$> read_imports fuel rest else None
      end
  end.

Lemma escape_reads_back value rest : Forall (λ c, css_newline c = false) value →
  read_css_string (css_string_escape value ++ byte 34 :: rest) = Some (value, rest).
Proof.
  unfold css_string_escape. induction 1 as [|c value Hc _ IH]; [done|]. cbn [css_escape_bytes]. case_decide as Hq.
  - cbn [app read_css_string]. rewrite IH. by destruct Hq as [->| ->].
  - apply Decidable.not_or in Hq as [Hs Hq]. cbn [app read_css_string]. rewrite decide_False, Hc, decide_False by done. by rewrite IH.
Qed.
Lemma import_reads_back entry rest : Forall (λ c, css_newline c = false) (to_bytes entry) →
  read_import (import_rule entry ++ rest) = Some (to_bytes entry, rest).
Proof.
  intros He. unfold import_rule, read_import.
  assert ((to_bytes "@import " ++ byte 34 :: css_string_escape (to_bytes entry) ++ byte 34 :: to_bytes ";") ++ rest =
    (to_bytes "@import " ++ [byte 34]) ++ css_string_escape (to_bytes entry) ++ byte 34 :: to_bytes ";" ++ rest) as ->
    by by rewrite <- !app_assoc; cbn; rewrite <- app_assoc.
  rewrite (strip_prefix_app (to_bytes "@import " ++ [byte 34])). cbn [mbind option_bind]. by rewrite escape_reads_back.
Qed.

#[local] Arguments import_rule : simpl never.
Lemma rules_read_back e entries : Forall (λ e, Forall (λ c, css_newline c = false) (to_bytes e)) (e :: entries) →
  read_imports (S (length entries)) (join_lines (import_rule <$> e :: entries)) = Some (to_bytes <$> e :: entries).
Proof.
  revert e. induction entries as [|e' entries IH]; intros e [He Hes]%Forall_cons.
  - change (read_imports 1 (import_rule e) = Some [to_bytes e]). cbn [read_imports].
    by rewrite <- (app_nil_r (import_rule e)), import_reads_back.
  - specialize (IH e' Hes). cbn [fmap list_fmap] in *. cbn [join_lines length] in *.
    change (read_imports (S (S (length entries)))) with (λ l, '(value, rest) ← read_import l;
      match rest with [] => Some [value] | c :: rest => if decide (c = byte 10) then cons value <$> read_imports (S (length entries)) rest else None end).
    cbn beta. rewrite import_reads_back by done. cbn [mbind option_bind]. rewrite decide_True by done. by rewrite IH.
Qed.

(** The virtual entry of several stylesheets is read as exactly one import of
    each, in order, whatever quotes and backslashes their paths hold; no path
    of theirs ends its string or starts another rule. It takes a path without
    the three line ends a CSS string cannot hold. *)
Theorem synthetic_entry_reads_back entries path content :
  synthetic_entry entries = Some (path, content) →
  Forall (λ e, Forall (λ c, css_newline c = false) (to_bytes e)) entries →
  read_imports (length entries) content = Some (to_bytes <$> entries).
Proof.
  destruct entries as [|e entries]; [done|]. unfold synthetic_entry. intros Hs He.
  assert (content = join_lines (import_rule <$> e :: entries)) as -> by congruence. by apply rules_read_back.
Qed.
(** A path with a newline breaks its string. *)
Example a_newline_breaks_the_entry : read_import (import_rule (of_bytes ["/"; "a"; byte 10; "b"]%char)) = None.
Proof. reflexivity. Qed.
Lemma synthetic_entry_reads_back_witness :
  read_imports 2 (join_lines (import_rule <$> [of_bytes ["/"; "a"; byte 34; ";"]%char; "/b\c.css"]))
  = Some (to_bytes <$> [of_bytes ["/"; "a"; byte 34; ";"]%char; "/b\c.css"]).
Proof.
  apply (synthetic_entry_reads_back [of_bytes ["/"; "a"; byte 34; ";"]%char; "/b\c.css"] "/__import_lens_combined_stylesheets__.css").
  - reflexivity.
  - repeat constructor.
Defined.
