(* ===== verification/AssetProcessing.v ===== *)
(** * Asset processing (pipeline/assets.rs, second half)

    Every asset a build collected, processed the way it ships: the stylesheets
    as one artifact or, when their union fails, one at a time; each wasm module,
    font and image on its own; and what could not be processed disclosed. The
    compressors are parameters, as is Lightning CSS ([Stylesheets]). *)
From stdpp Require Import base gmap list strings pretty.
From S2P Require Import Prelude Stages Results FileSize Fingerprints AssetLedger AssetBoundary AssetReport Paths CssDependencies PathMaps Stylesheets.

Set Default Proof Using "Type*".

Record CssProcessingError := { ce_message : string; ce_non_durable_stages : list string }.
Definition from_transform (message : string) : CssProcessingError :=
  {| ce_message := message; ce_non_durable_stages := [] |}.
Definition from_compression (message : string) : CssProcessingError :=
  {| ce_message := message; ce_non_durable_stages := [stage.COMPRESSION] |}.

Definition may_retry_stylesheets_separately (error : CssProcessingError) : bool :=
  negb (bool_decide (stage.COMPRESSION ∈ ce_non_durable_stages error)).

Record StylesheetOutcome := {
  so_counted : list (CssBundle * CompressionSizes);
  so_failures : list string;
  so_uncounted : list UncountedAsset;
  so_non_durable_stages : list string;
  so_degraded : option string;
}.

Definition raw_disclosure (a : CollectedAsset) : UncountedAsset := {| u_path := a_path a; u_bytes := asset_len a |}.
Definition is_css (a : CollectedAsset) : bool := match a_kind a with AssetLedger.Css => true | _ => false end.
Definition of_kind (kind : AssetLedger.AssetKind) (a : CollectedAsset) : bool :=
  match kind, a_kind a with
  | AssetLedger.Css, AssetLedger.Css | AssetLedger.Wasm, AssetLedger.Wasm
  | AssetLedger.Font, AssetLedger.Font | AssetLedger.Image, AssetLedger.Image => true
  | _, _ => false
  end.
(** The kind as a result spells it. *)
Definition result_kind (kind : AssetLedger.AssetKind) : Results.AssetKind :=
  match kind with
  | AssetLedger.Css => Results.Css | AssetLedger.Wasm => Results.Wasm
  | AssetLedger.Font => Results.Font | AssetLedger.Image => Results.Image
  end.
Definition kind_rank (kind : Results.AssetKind) : N :=
  match kind with Results.Css => 0 | Results.Wasm => 1 | Results.Font => 2 | Results.Image => 3 end.

(** What one artifact adds: a stylesheet is minified, a binary is not. *)
Definition bundle_sizes (b : CssBundle) (z : CompressionSizes) : MeasuredSizes :=
  {| m_raw := N.of_nat (length (Stylesheets.raw_bytes b)); m_minified := N.of_nat (length (Stylesheets.minified_bytes b));
     m_gzip := z_gzip z; m_brotli := z_brotli z; m_zstd := z_zstd z |}.
Definition binary_sizes (a : CollectedAsset) (z : CompressionSizes) : MeasuredSizes :=
  {| m_raw := asset_len a; m_minified := asset_len a; m_gzip := z_gzip z; m_brotli := z_brotli z; m_zstd := z_zstd z |}.

(** ** What is written to the result *)

Definition add_contribution (kind : AssetLedger.AssetKind) (sizes : MeasuredSizes) (p : ProcessedAssets) : ProcessedAssets :=
  {| contributions := contributions p ++ [{| ac_kind := result_kind kind; ac_sizes := sizes |}];
     pa_read_paths := pa_read_paths p; read_time_fingerprints := read_time_fingerprints p; uncounted := uncounted p;
     failures := failures p; stylesheets_measured_separately := stylesheets_measured_separately p;
     css_dependency_omissions := css_dependency_omissions p; uncounted_total_is_floor := uncounted_total_is_floor p;
     css_dependency_external := css_dependency_external p; non_durable_stages := non_durable_stages p |}.
Definition add_uncounted (messages : list string) (assets : list UncountedAsset) (stages : list string) (p : ProcessedAssets) : ProcessedAssets :=
  {| contributions := contributions p; pa_read_paths := pa_read_paths p; read_time_fingerprints := read_time_fingerprints p;
     uncounted := uncounted p ++ assets; failures := failures p ++ messages;
     stylesheets_measured_separately := stylesheets_measured_separately p;
     css_dependency_omissions := css_dependency_omissions p; uncounted_total_is_floor := uncounted_total_is_floor p;
     css_dependency_external := css_dependency_external p; non_durable_stages := non_durable_stages p ++ stages |}.
Definition set_degraded (degraded : option string) (p : ProcessedAssets) : ProcessedAssets :=
  {| contributions := contributions p; pa_read_paths := pa_read_paths p; read_time_fingerprints := read_time_fingerprints p;
     uncounted := uncounted p; failures := failures p; stylesheets_measured_separately := degraded;
     css_dependency_omissions := css_dependency_omissions p; uncounted_total_is_floor := uncounted_total_is_floor p;
     css_dependency_external := css_dependency_external p; non_durable_stages := non_durable_stages p |}.
Definition add_references (omissions external : list string) (p : ProcessedAssets) : ProcessedAssets :=
  {| contributions := contributions p; pa_read_paths := pa_read_paths p; read_time_fingerprints := read_time_fingerprints p;
     uncounted := uncounted p; failures := failures p; stylesheets_measured_separately := stylesheets_measured_separately p;
     css_dependency_omissions := css_dependency_omissions p ++ omissions; uncounted_total_is_floor := uncounted_total_is_floor p;
     css_dependency_external := css_dependency_external p ++ external; non_durable_stages := non_durable_stages p |}.
Definition set_observations (paths : list string) (fps : list FileFingerprint) (p : ProcessedAssets) : ProcessedAssets :=
  {| contributions := stable_sort (cmp_on (kind_rank ∘ ac_kind) N.compare) (contributions p);
     pa_read_paths := paths; read_time_fingerprints := fps;
     uncounted := uncounted p; failures := failures p; stylesheets_measured_separately := stylesheets_measured_separately p;
     css_dependency_omissions := css_dependency_omissions p; uncounted_total_is_floor := uncounted_total_is_floor p;
     css_dependency_external := css_dependency_external p; non_durable_stages := non_durable_stages p |}.

(** The failed and the outside references of a counted bundle, each with its words. *)
Definition bundle_notes (b : CssBundle) : list (string * UncountedAsset) :=
  ((λ f, (cf_message f, {| u_path := cf_path f; u_bytes := cf_raw_bytes f |})) <$> referenced_failures b) ++
  ((λ a, ("CSS resource " +:+ u_path a +:+ " is not a counted asset kind, so its bytes are disclosed rather than included", a))
     <$> referenced_uncounted b).
(** One counted bundle folded in. *)
Definition add_bundle (b : CssBundle) (p : ProcessedAssets) : ProcessedAssets :=
  add_references (dependency_omissions b) (dependency_external b)
    (add_uncounted (bundle_notes b).*1 (bundle_notes b).*2 [] p).

(** A ledger failure's words and paths. *)
Definition sorted_paths (paths : gset string) : list string := stable_sort path_cmp (elements paths).

Definition budget_stage (s : AssetBudgetStage) : string :=
  match s with ModuleGraphLimit => engine_stage.MODULE_GRAPH_LIMIT | Timeout => engine_stage.TIMEOUT end.

Section processing.
Context `{CH : ContentHash} (windows : bool) (limits : AssetBudgetLimits)
        (disk : nat → FileSystem) (is_file : nat → string → bool) (expires : nat) (display : CssError → string)
        (file_provider_resolve : string → string → ResolveResult + CssError)
        (resolve_package : nat → string → string → option string)
        (parse_imports : list ascii → option (list string)).
Context {Sheet : Type} (bundler : string → Walk Sheet) (print : Sheet → bool → list ascii + string)
        (minify : Sheet → Sheet + string) (analyze : Sheet → list Dependency + string)
        (compress : list ascii → CompressionSizes + string) (breach_message : option breach → string).
Notation the_bundle_with := (bundle_with windows limits disk is_file expires display file_provider_resolve resolve_package parse_imports
  bundler print minify analyze).
Notation the_check_deadline_now := (check_deadline_now disk expires).

Definition failing (w : World) : bool := match AssetLedger.failure (w_ledger w) with Some _ => true | None => false end.

(** ** Bundles *)

(** A new provider over the build's ledger; a walk is never out of fuel. *)
Definition bundle_new (p : TrackingProvider) (entry : string) : M CssProcessingError CssBundle :=
  _ ← change (set_provider fresh_provider);
  bundle ← map_err from_transform (the_bundle_with p entry);
  match bundle with Some b => mret b | None => crash end.
Definition bundle_collected_css (entry : CollectedAsset) : M CssProcessingError CssBundle :=
  bundle_new (tracking_provider [entry] None) (a_path entry).
Definition bundle_collected_css_set (entries : list CollectedAsset) : M CssProcessingError CssBundle :=
  match entries with
  | [] => fail (from_transform "no stylesheets to bundle")
  | [single] => bundle_collected_css single
  | many =>
      match synthetic_entry (a_path <$> many) with
      | Some (path, content) => bundle_new (tracking_provider many (Some (path, content))) path
      | None => crash
      end
  end.

Definition compress_bundle (bundle : CssBundle) : M CssProcessingError (CssBundle * CompressionSizes) :=
  let deadline := map_err (λ e, from_transform (display e)) the_check_deadline_now in
  _ ← deadline;
  match compress (Stylesheets.minified_bytes bundle) with
  | inl compressed => _ ← deadline; mret (bundle, compressed)
  | inr error => fail (from_compression ("failed to compress the bundled stylesheet: " +:+ error))
  end.

(** ** Stylesheets *)

Definition sheet_alone (entry : CollectedAsset) : M CssProcessingError (CssBundle * CompressionSizes) :=
  bundle_collected_css entry ≫= compress_bundle.

(** The retry, one sheet at a time, until the ledger fails. *)
Fixpoint separately (entries : list CollectedAsset) (o : StylesheetOutcome) : M CssProcessingError StylesheetOutcome :=
  match entries with
  | [] => mret o
  | entry :: entries =>
      stop ← look failing;
      if (stop : bool) then mret o
      else
        alone ← attempt (sheet_alone entry);
        separately entries
          match alone with
          | inl bundled =>
              {| so_counted := so_counted o ++ [bundled]; so_failures := so_failures o; so_uncounted := so_uncounted o;
                 so_non_durable_stages := so_non_durable_stages o; so_degraded := so_degraded o |}
          | inr error =>
              {| so_counted := so_counted o; so_failures := so_failures o ++ [ce_message error];
                 so_uncounted := so_uncounted o ++ [raw_disclosure entry];
                 so_non_durable_stages := so_non_durable_stages o ++ ce_non_durable_stages error; so_degraded := so_degraded o |}
          end
  end.

(** The outcome is settled before anything is written. *)
Definition settle_stylesheets (entries : list CollectedAsset) : M CssProcessingError StylesheetOutcome :=
  union ← attempt (bundle_collected_css_set entries ≫= compress_bundle);
  match union with
  | inl counted =>
      mret {| so_counted := [counted]; so_failures := []; so_uncounted := []; so_non_durable_stages := []; so_degraded := None |}
  | inr union_error =>
      stop ← look failing;
      if (stop : bool) || negb (may_retry_stylesheets_separately union_error) || (length entries =? 1) then fail union_error
      else
        o ← separately entries {| so_counted := []; so_failures := []; so_uncounted := [];
                                  so_non_durable_stages := ce_non_durable_stages union_error;
                                  so_degraded := Some (ce_message union_error) |};
        match so_counted o with
        | [] => fail {| ce_message := ce_message union_error; ce_non_durable_stages := so_non_durable_stages o |}
        | _ => mret o
        end
  end.

Definition process_stylesheets {E} (assets : list CollectedAsset) (p : ProcessedAssets) : M E (ProcessedAssets * list CollectedAsset) :=
  let entries := filter (λ a, is_css a = true) assets in
  match entries with
  | [] => mret (p, [])
  | _ =>
      bundled ← attempt (settle_stylesheets entries);
      stop ← look failing;
      if (stop : bool) then mret (p, [])
      else
        match bundled with
        | inl o =>
            let p := set_degraded (so_degraded o) (add_uncounted (so_failures o) (so_uncounted o) (so_non_durable_stages o) p) in
            let p := foldl (λ p c, add_bundle c.1 p) p (so_counted o) in
            mret (add_contribution AssetLedger.Css (sum_sizes ((λ c, bundle_sizes c.1 c.2) <$> so_counted o)) p,
                  so_counted o ≫= λ c, referenced_assets c.1)
        | inr error =>
            mret (add_uncounted [ce_message error] (raw_disclosure <$> entries) (ce_non_durable_stages error) p, [])
        end
  end.

(** ** Binary assets *)

(** [None]: the deadline stopped the loop. *)
Fixpoint measure_binaries {E} (files : list CollectedAsset) (sizes : MeasuredSizes) (counted : bool) (p : ProcessedAssets) :
    M E (option (MeasuredSizes * bool) * ProcessedAssets) :=
  match files with
  | [] => mret (Some (sizes, counted), p)
  | a :: files =>
      before ← attempt the_check_deadline_now;
      match before with
      | inr _ => mret (None, p)
      | inl _ =>
          let '(sizes, counted, p) :=
            match compress (a_bytes a) with
            | inl z => (add_sizes sizes (binary_sizes a z), true, p)
            | inr error =>
                (sizes, counted,
                 add_uncounted ["failed to compress " +:+ a_path a +:+ ": " +:+ error] [raw_disclosure a] [stage.COMPRESSION] p)
            end in
          after ← attempt the_check_deadline_now;
          match after with
          | inr _ => mret (None, p)
          | inl _ => measure_binaries files sizes counted p
          end
      end
  end.
Definition process_binary_kind {E} (assets : list CollectedAsset) (kind : AssetLedger.AssetKind) (p : ProcessedAssets) : M E ProcessedAssets :=
  '(measured, p) ← measure_binaries (filter (λ a, of_kind kind a = true) assets) ZERO false p;
  match measured with
  | Some (sizes, true) => mret (add_contribution kind sizes p)
  | _ => mret p
  end.

(** ** Every asset *)

(** One emitted file a path: what the graph collected, then what the counted
    stylesheets reference. *)
Definition assets_by_path (assets referenced : list CollectedAsset) : list (string * CollectedAsset) :=
  foldl (λ m a, entry_or_insert (a_path a) a m) (foldl (λ m a, map_insert (a_path a) a m) [] assets) referenced.

Definition BINARY : list AssetLedger.AssetKind := [AssetLedger.Wasm; AssetLedger.Font; AssetLedger.Image].
Fixpoint process_kinds {E} (kinds : list AssetLedger.AssetKind) (assets : list CollectedAsset) (p : ProcessedAssets) : M E ProcessedAssets :=
  match kinds with
  | [] => mret p
  | kind :: kinds => p ← process_binary_kind assets kind p; process_kinds kinds assets p
  end.

Definition count_assets {E} (assets : list CollectedAsset) (p : ProcessedAssets) : M E ProcessedAssets :=
  '(p, referenced) ← process_stylesheets assets p;
  stop ← look failing;
  if (stop : bool) then mret p
  else process_kinds BINARY (assets_by_path assets referenced).*2 p.

Definition process_assets (assets : list CollectedAsset) : M AssetBudgetFailure ProcessedAssets :=
  stop ← look failing;
  p ← (if (stop : bool) then mret no_assets else count_assets assets no_assets);
  s ← look w_ledger;
  match AssetLedger.failure s with
  | None => mret (set_observations (sorted_paths (AssetLedger.read_paths s)) (AssetLedger.freshness_fingerprints s) p)
  | Some f =>
      match bf_stage f with
      | Timeout => fail f
      | ModuleGraphLimit =>
          mret (disclose_budget_breach assets (breach_message (bf_message f)) (sorted_paths (bf_read_paths f)) (bf_fingerprints f))
      end
  end.

(** [From<AssetBudgetFailure>]; a timeout's message is its own. *)
Definition from_budget_failure (f : AssetBudgetFailure) : AssetProcessingFailure :=
  {| apf_stage := budget_stage (bf_stage f);
     apf_message := match bf_stage f with
                    | ModuleGraphLimit => breach_message (bf_message f)
                    | Timeout => "asset processing did not complete within its deadline"
                    end;
     apf_read_paths := sorted_paths (bf_read_paths f); apf_read_time_fingerprints := bf_fingerprints f |}.

(** The job the boundary runs, from a new ledger; [None] is a panic. *)
Definition processing_job (assets : list CollectedAsset) (graph_source_bytes : N) (graph_loaded_paths : list string) (start : nat) :
    option (ProcessedAssets + AssetProcessingFailure) :=
  let w := {| w_ledger := new_ledger limits graph_source_bytes graph_loaded_paths assets; w_provider := fresh_provider; w_time := start |} in
  match (process_assets assets w).1 with
  | Good p => Some (inl p)
  | Bad f => Some (inr (from_budget_failure f))
  | Crash => None
  end.
(** [answered] is what the boundary made of the job. *)
Definition process_assets_bounded (show : AssetGate.outcome (T := ProcessedAssets + AssetProcessingFailure) → string)
    (assets : list CollectedAsset) (answered : AssetGate.outcome (T := ProcessedAssets + AssetProcessingFailure)) :
    option (ProcessedAssets + AssetProcessingFailure) :=
  match assets with
  | [] => Some (inl no_assets)
  | _ =>
      match answered with
      | AssetGate.Answered r => Some r
      | failed => inr <$> boundary_failure show failed
      end
  end.
End processing.

(** ** Steps that keep the account *)

Section steps.
Context `{CH : ContentHash} (windows : bool) (limits : AssetBudgetLimits) (graph : N) (FIN : finite_limits limits)
        (disk : nat → FileSystem) (is_file : nat → string → bool) (expires : nat) (display : CssError → string)
        (file_provider_resolve : string → string → ResolveResult + CssError)
        (resolve_package : nat → string → string → option string)
        (parse_imports : list ascii → option (list string)).
Context {Sheet : Type} (bundler : string → Walk Sheet) (print : Sheet → bool → list ascii + string)
        (minify : Sheet → Sheet + string) (analyze : Sheet → list Dependency + string)
        (compress : list ascii → CompressionSizes + string) (breach_message : option breach → string).
Notation the_bundle_new := (bundle_new windows limits disk is_file expires display file_provider_resolve resolve_package parse_imports
  bundler print minify analyze).
Notation the_bundle_collected_css := (bundle_collected_css windows limits disk is_file expires display file_provider_resolve resolve_package
  parse_imports bundler print minify analyze).
Notation the_bundle_collected_css_set := (bundle_collected_css_set windows limits disk is_file expires display file_provider_resolve
  resolve_package parse_imports bundler print minify analyze).
Notation the_run_walk := (run_walk windows limits disk is_file expires file_provider_resolve resolve_package).
Notation the_bundle_once := (bundle_once windows limits disk is_file expires display file_provider_resolve resolve_package bundler).
Notation the_bundle_tree := (bundle_tree windows limits disk is_file expires display file_provider_resolve resolve_package
  parse_imports bundler).
Notation the_bundle_with := (bundle_with windows limits disk is_file expires display file_provider_resolve resolve_package
  parse_imports bundler print minify analyze).
Notation the_compress_bundle := (compress_bundle disk expires display compress).
Notation the_sheet_alone := (sheet_alone windows limits disk is_file expires display file_provider_resolve resolve_package
  parse_imports bundler print minify analyze compress).
Notation the_separately := (separately windows limits disk is_file expires display file_provider_resolve resolve_package
  parse_imports bundler print minify analyze compress).
Notation the_settle_stylesheets := (settle_stylesheets windows limits disk is_file expires display file_provider_resolve resolve_package
  parse_imports bundler print minify analyze compress).
Notation the_process_stylesheets := (process_stylesheets windows limits disk is_file expires display file_provider_resolve resolve_package
  parse_imports bundler print minify analyze compress).
Notation the_measure_binaries := (measure_binaries disk expires compress).
Notation the_process_binary_kind := (process_binary_kind disk expires compress).
Notation the_process_kinds := (process_kinds disk expires compress).
Notation the_count_assets := (count_assets windows limits disk is_file expires display file_provider_resolve resolve_package
  parse_imports bundler print minify analyze compress).
Notation the_sound := (sound limits graph).
Notation the_check_deadline_now := (check_deadline_now disk expires).

Lemma later_failing w w' : later w w' → failing w = true → failing w' = true.
Proof.
  intros [He Hl]. unfold failing, AssetLedger.failure. destruct (module_limit_message (w_ledger w)) as [m|] eqn:Hm.
  - by rewrite (ext_limit _ _ He _ Hm).
  - destruct (timed_out (w_ledger w)) eqn:Ht; [|done]. rewrite Hl by done. by destruct (module_limit_message (w_ledger w')).
Qed.
Lemma deadline_fails w e w' : the_check_deadline_now w = (Bad e, w') → failing w' = true.
Proof.
  unfold Stylesheets.check_deadline_now, ledger, check_deadline, check_available, failing, AssetLedger.failure.
  destruct (module_limit_message (w_ledger w)) as [m|] eqn:Hm; [intros [= _ <-]; cbn; by rewrite Hm|].
  destruct (expires <=? w_time w + 0); [|done]. by intros [= _ <-].
Qed.

Lemma sound_bundle_new p entry : the_sound (the_bundle_new p entry).
Proof.
  apply sound_bind; [done|apply sound_change; [done..|]|].
  { intros w _. split; unfold MAX_STYLESHEET_FILES, MAX_STYLESHEET_BYTES; cbn; lia. }
  intros _ w Hw. unfold mbind, M_bind, map_err.
  pose proof (sound_bundle_with windows limits graph FIN disk is_file expires file_provider_resolve resolve_package parse_imports
    display bundler print minify analyze p entry w Hw) as Hs.
  pose proof (bundle_with_settles windows limits disk is_file expires display file_provider_resolve resolve_package parse_imports
    bundler print minify analyze p entry w) as Hn.
  destruct (bundle_with _ _ _ _ _ _ _ _ _ _ _ _ _ _ _ w) as [[[b|]|e|] w1]; [done|by destruct (Hn w1)|done..].
Qed.
Lemma sound_set entries : the_sound (the_bundle_collected_css_set entries).
Proof.
  destruct entries as [|a [|b entries]]; [by apply sound_fail|apply sound_bundle_new|].
  cbn [AssetProcessing.bundle_collected_css_set]. destruct (synthetic_entry _) as [[path content]|] eqn:Hs; [apply sound_bundle_new|done].
Qed.
Lemma sound_compress b : the_sound (the_compress_bundle b).
Proof.
  unfold AssetProcessing.compress_bundle. cbv zeta. apply sound_bind; [done|by apply sound_map_err, sound_deadline|]. intros [].
  destruct (compress _); [|by apply sound_fail]. apply sound_bind; [done|by apply sound_map_err, sound_deadline|]. intros []. by apply sound_ret.
Qed.
Lemma sound_alone entry : the_sound (the_sheet_alone entry).
Proof. apply sound_bind; [done|apply sound_bundle_new|apply sound_compress]. Qed.
Lemma sound_separately entries o : the_sound (the_separately entries o).
Proof.
  revert o. induction entries as [|entry entries IH]; intros o; cbn [AssetProcessing.separately]; [by apply sound_ret|].
  apply sound_bind; [done|by apply sound_look|]. intros []; [by apply sound_ret|].
  apply sound_bind; [done|apply sound_attempt; [done|apply sound_alone]|]. intros alone. apply IH.
Qed.
Lemma sound_settle entries : the_sound (the_settle_stylesheets entries).
Proof.
  apply sound_bind; [done| |].
  { apply sound_attempt; [done|]. apply sound_bind; [done|apply sound_set|apply sound_compress]. }
  intros [counted|union_error]; [by apply sound_ret|]. apply sound_bind; [done|by apply sound_look|]. intros stop.
  destruct (_ || _); [by apply sound_fail|]. apply sound_bind; [done|apply sound_separately|]. intros o.
  destruct (so_counted o); [by apply sound_fail|by apply sound_ret].
Qed.
Lemma sound_process_stylesheets {E} assets p : the_sound (the_process_stylesheets assets p : M E _).
Proof.
  unfold AssetProcessing.process_stylesheets. cbv zeta. destruct (filter _ assets) as [|a entries]; [by apply sound_ret|].
  apply sound_bind; [done|apply sound_attempt; [done|apply sound_settle]|]. intros bundled.
  apply sound_bind; [done|by apply sound_look|]. intros []; [by apply sound_ret|]. destruct bundled; by apply sound_ret.
Qed.
Lemma sound_binaries {E} files sizes counted p : the_sound (the_measure_binaries files sizes counted p : M E _).
Proof.
  revert sizes counted p. induction files as [|a files IH]; intros sizes counted p; cbn [AssetProcessing.measure_binaries]; [by apply sound_ret|].
  apply sound_bind; [done|by apply sound_attempt, sound_deadline|]. intros [[]|e]; [|by apply sound_ret].
  destruct (match compress (a_bytes a) with inl _ => _ | inr _ => _ end) as [[sizes' counted'] p'].
  apply sound_bind; [done|by apply sound_attempt, sound_deadline|]. intros [[]|e]; [apply IH|by apply sound_ret].
Qed.
Lemma sound_kinds {E} kinds assets p : the_sound (the_process_kinds kinds assets p : M E _).
Proof.
  revert p. induction kinds as [|kind kinds IH]; intros p; cbn [AssetProcessing.process_kinds]; [by apply sound_ret|].
  apply sound_bind; [done| |intros p'; apply IH]. apply sound_bind; [done|apply sound_binaries|].
  intros [[[sizes []]|] p']; by apply sound_ret.
Qed.
Lemma sound_count {E} assets p : the_sound (the_count_assets assets p : M E _).
Proof.
  apply sound_bind; [done|apply sound_process_stylesheets|]. intros [p' referenced].
  apply sound_bind; [done|by apply sound_look|]. intros []; [by apply sound_ret|apply sound_kinds].
Qed.

(** *** What a step that did not fail has counted *)

Definition compressed (f : CollectedAsset * CompressionSizes) : Prop := compress (a_bytes f.1) = inl f.2.
Definition bundle_compressed (s : list CollectedAsset * (CssBundle * CompressionSizes)) : Prop :=
  compress (Stylesheets.minified_bytes s.2.1) = inl s.2.2.

Lemma compress_bundle_compresses b w b' z w' : the_compress_bundle b w = (Good (b', z), w') → compress (Stylesheets.minified_bytes b') = inl z.
Proof.
  unfold AssetProcessing.compress_bundle, mbind, M_bind. destruct (map_err _ _ w) as [[[]|e|] w1]; [|done..].
  destruct (compress (Stylesheets.minified_bytes b)) as [z0|e] eqn:Hz; [|done]. destruct (map_err _ _ w1) as [[[]|e|] w2]; [|done..].
  by intros [= <- <- <-].
Qed.
Lemma compress_bundle_same b w b' z w' : the_compress_bundle b w = (Good (b', z), w') → b' = b.
Proof.
  unfold AssetProcessing.compress_bundle, mbind, M_bind. destruct (map_err _ _ w) as [[[]|e|] w1]; [|done..].
  destruct (compress (Stylesheets.minified_bytes b)); [|done]. destruct (map_err _ _ w1) as [[[]|e|] w2]; [|done..]. by intros [= <- _ _].
Qed.

(** The provider serves the sheets from memory, and the entry is the one sheet
    itself or the virtual one that imports each of them, in order. A line end
    inside a path, which no CSS string holds, aside. *)
Definition entry_of (sheets : list CollectedAsset) (p : TrackingProvider) (entry : string) : Prop :=
  (∀ a, a ∈ sheets → ∃ a', preloaded p !! a_path a = Some a' ∧ a' ∈ sheets ∧ a_path a' = a_path a) ∧
  match sheets with
  | [a] => entry = a_path a ∧ synthetic p = None
  | _ => ∃ content, synthetic p = Some (entry, content) ∧
      (Forall (λ a, Forall (λ c, css_newline c = false) (to_bytes (a_path a))) sheets →
       read_imports (length sheets) content = Some (to_bytes <$> (a_path <$> sheets)))
  end.
(** The bundle is what the bundler made of that entry, printed as it is and
    minified. *)
Definition bundle_of (sheets : list CollectedAsset) (b : CssBundle) : Prop :=
  ∃ p entry sheet small w w', entry_of sheets p entry ∧ the_run_walk p (bundler entry) w = (Good (inl sheet), w') ∧
    print sheet false = inl (Stylesheets.raw_bytes b) ∧ minify sheet = inl small ∧
    print small true = inl (Stylesheets.minified_bytes b).

Lemma tracking_serves sheets synthetic a : a ∈ sheets →
  ∃ a', preloaded (tracking_provider sheets synthetic) !! a_path a = Some a' ∧ a' ∈ sheets ∧ a_path a' = a_path a.
Proof.
  cbn. induction sheets as [|x sheets IH] using rev_ind; [by intros ?%not_elem_of_nil|]. rewrite foldl_app. cbn [foldl].
  intros [Ha| ->%list_elem_of_singleton]%elem_of_app.
  - destruct (decide (a_path x = a_path a)) as [He|Hne].
    + rewrite He, lookup_insert_eq. exists x. rewrite elem_of_app. split; [done|]. split; [right; by left|done].
    + rewrite lookup_insert_ne by done. destruct (IH Ha) as (a' & ? & ? & ?). exists a'. rewrite elem_of_app. by repeat split; [|left|].
  - rewrite lookup_insert_eq. exists x. rewrite elem_of_app. split; [done|]. split; [right; by left|done].
Qed.

Lemma once_walks p entry w sheet w' : the_bundle_once p entry w = (Good sheet, w') →
  ∃ w1, the_run_walk p (bundler entry) w = (Good (inl sheet), w1).
Proof.
  unfold bundle_once, mbind, M_bind, map_err. destruct (the_run_walk p (bundler entry) w) as [[[s|e]|e|] w1]; [|done..].
  intros [= -> _]. by exists w1.
Qed.
Lemma bind_good {E A B} (m : M E A) (f : A → M E B) w b w' :
  (m ≫= f) w = (Good b, w') → ∃ a w1, m w = (Good a, w1) ∧ f a w1 = (Good b, w').
Proof. unfold mbind, M_bind. destruct (m w) as [[a|e|] w1]; [|done..]. intros H. by exists a, w1. Qed.
Lemma tree_walks p entry w sheet w' : the_bundle_tree p entry w = (Good (Some sheet), w') →
  ∃ w0 w1, the_run_walk p (bundler entry) w0 = (Good (inl sheet), w1).
Proof.
  intros (s & w1 & H1 & H)%bind_good. apply bind_good in H as (closing & w2 & _ & H). destruct closing as [[closing|]|].
  - apply bind_good in H as (_ & w3 & _ & H). apply bind_good in H as (_ & w4 & _ & H).
    unfold fmap, M_fmap in H. apply bind_good in H as (s' & w5 & Ho & H). injection H as -> _.
    apply once_walks in Ho as [w6 ?]. by exists w4, w6.
  - injection H as -> _. apply once_walks in H1 as [w6 ?]. by exists w, w6.
  - done.
Qed.
Lemma of_css_good {A} message (r : A + string) w a w' : of_css message r w = (Good a, w') → r = inl a.
Proof. destruct r; [by intros [= ->]|done]. Qed.
Lemma bundle_with_bundles sheets p entry w b w' : entry_of sheets p entry →
  the_bundle_with p entry w = (Good (Some b), w') → bundle_of sheets b.
Proof.
  intros He (_ & w1 & _ & H)%bind_good. apply bind_good in H as (sheet & w2 & Ht & H). destruct sheet as [sheet|]; [|done].
  apply tree_walks in Ht as (wa & wb & Hwalk). apply bind_good in H as (_ & w3 & _ & H).
  apply bind_good in H as (raw & w4 & Hraw%of_css_good & H). apply bind_good in H as (_ & w5 & _ & H).
  apply bind_good in H as (small & w6 & Hsmall%of_css_good & H). apply bind_good in H as (_ & w7 & _ & H).
  apply bind_good in H as (deps & w8 & _ & H). apply bind_good in H as (_ & w9 & _ & H).
  apply bind_good in H as (minified & w10 & Hmin%of_css_good & H). apply bind_good in H as (_ & w11 & _ & H).
  injection H as <- _. by exists p, entry, sheet, small, wa, wb.
Qed.
Lemma bundle_new_bundles sheets p entry w b w' : entry_of sheets p entry →
  the_bundle_new p entry w = (Good b, w') → bundle_of sheets b.
Proof.
  intros He (_ & w1 & _ & H)%bind_good. apply bind_good in H as (r & w2 & H1 & H). destruct r as [b'|]; [|done].
  injection H as -> _. unfold map_err in H1. destruct (the_bundle_with p entry w1) as [[r|e|] w3] eqn:Hb; [|done..].
  injection H1 as -> _. by eapply bundle_with_bundles.
Qed.
Lemma collected_css_bundles a w b w' : the_bundle_collected_css a w = (Good b, w') → bundle_of [a] b.
Proof. apply bundle_new_bundles. split; [by intros x; apply tracking_serves|done]. Qed.
Lemma css_set_bundles sheets w b w' : the_bundle_collected_css_set sheets w = (Good b, w') → bundle_of sheets b.
Proof.
  destruct sheets as [|a [|a' sheets]]; [done|apply collected_css_bundles|]. unfold AssetProcessing.bundle_collected_css_set.
  set (many := a :: a' :: sheets). destruct (synthetic_entry (a_path <$> many)) as [[path content]|] eqn:Hs; [|done].
  apply bundle_new_bundles. split; [by intros x; apply tracking_serves|]. subst many. exists content. split; [done|].
  intros Hn. apply (synthetic_entry_reads_back _ path) in Hs; [by rewrite length_fmap in Hs|by apply Forall_fmap].
Qed.

Lemma separately_counts entries o w o' w' : steady limits graph w → the_separately entries o w = (Good o', w') → failing w' = false →
  ∃ (sheets : list (list CollectedAsset * (CssBundle * CompressionSizes))) lost,
    entries ≡ₚ (sheets ≫= fst) ++ lost ∧ so_counted o' = so_counted o ++ sheets.*2 ∧
    so_uncounted o' = so_uncounted o ++ (raw_disclosure <$> lost) ∧ so_degraded o' = so_degraded o ∧
    Forall bundle_compressed sheets ∧ Forall (λ s, bundle_of s.1 s.2.1) sheets ∧ Forall (λ s, ∃ a, s.1 = [a]) sheets.
Proof.
  intros Hw. revert o w Hw. induction entries as [|entry entries IH]; intros o w Hw; cbn [AssetProcessing.separately].
  { intros [= <- <-] _. exists [], []. by rewrite !app_nil_r. }
  unfold mbind, M_bind at 1, look at 1. destruct (failing w) eqn:Hstop; [intros [= <- <-] ?; congruence|].
  intros Hr Hf. unfold M_bind, attempt in Hr. pose proof (sound_alone entry w Hw) as Hs.
  destruct (the_sheet_alone entry w) as [[[b z]|e|] w1] eqn:Ha; [destruct Hs as [Hw1 _]..|done].
  - destruct (IH _ w1 Hw1 Hr Hf) as (sheets & lost & Hp & Hc & Hu & Hd & Hz & Hb & H1). cbn in Hc, Hu, Hd.
    exists (([entry], (b, z)) :: sheets), lost. split; [cbn; by rewrite Hp|]. split; [by rewrite Hc, <- app_assoc|].
    split; [done|]. split; [done|]. apply bind_good in Ha as (b0 & w2 & Hb0 & Ha).
    split; constructor; [by eapply compress_bundle_compresses|done| |constructor; [by eexists|done]].
    apply compress_bundle_same in Ha as ->. constructor; [|done]. by eapply collected_css_bundles.
  - destruct (IH _ w1 Hw1 Hr Hf) as (sheets & lost & Hp & Hc & Hu & Hd & Hz & Hb & H1). cbn in Hc, Hu, Hd.
    exists sheets, (entry :: lost). split; [rewrite Hp; by rewrite Permutation_middle|].
    split; [done|]. split; [by rewrite Hu, <- app_assoc|]. by split.
Qed.

(** The outcome of the stylesheets, as artifacts and sheets lost. *)
Record outcome_counts (entries : list CollectedAsset) (o : StylesheetOutcome)
    (sheets : list (list CollectedAsset * (CssBundle * CompressionSizes))) (lost : list CollectedAsset) : Prop := {
  oc_counted : so_counted o = sheets.*2;
  oc_some : sheets ≠ [];
  oc_covers : entries ≡ₚ (sheets ≫= fst) ++ lost;
  oc_lost : so_uncounted o = raw_disclosure <$> lost;
  oc_compressed : Forall bundle_compressed sheets;
  oc_bundled : Forall (λ s, bundle_of s.1 s.2.1) sheets;
  oc_degraded : match so_degraded o with
                | None => sheets.*1 = [entries] ∧ lost = []
                | Some _ => Forall (λ s, ∃ a, s.1 = [a]) sheets ∧ 2 ≤ length entries
                end;
}.
Lemma settle_counts entries w o w' : entries ≠ [] → steady limits graph w → the_settle_stylesheets entries w = (Good o, w') →
  failing w' = false → ∃ sheets lost, outcome_counts entries o sheets lost.
Proof.
  intros He Hw. unfold AssetProcessing.settle_stylesheets, mbind at 1, M_bind at 1, attempt at 1.
  assert (the_sound (the_bundle_collected_css_set entries ≫= the_compress_bundle)) as Hs
    by (apply sound_bind; [done|apply sound_set|apply sound_compress]).
  specialize (Hs w Hw). destruct ((the_bundle_collected_css_set entries ≫= the_compress_bundle) w) as [[[b z]|e|] w1] eqn:Hu; [| |done].
  - intros [= <- <-] _. exists [(entries, (b, z))], []. split; cbn; try done.
    + by rewrite !app_nil_r.
    + constructor; [|done]. apply bind_good in Hu as (b0 & w2 & _ & Hu). by eapply compress_bundle_compresses.
    + constructor; [|done]. apply bind_good in Hu as (b0 & w2 & Hb & Hu). apply compress_bundle_same in Hu as ->.
      by eapply css_set_bundles.
  - destruct Hs as [Hw1 _]. unfold mbind, M_bind at 1, look. destruct (failing w1 || _ || (length entries =? 1)) eqn:Hc; [done|].
    apply orb_false_iff in Hc as [_ Hlen%Nat.eqb_neq].
    assert (2 ≤ length entries) as H2 by (destruct entries as [|? [|? ?]]; cbn in *; try done; lia).
    unfold M_bind. destruct (the_separately entries _ w1) as [[o1|e1|] w2] eqn:Hr; [|done..].
    destruct (so_counted o1) as [|c cs] eqn:Hco; [done|]. intros [= <- <-] Hf.
    destruct (separately_counts _ _ _ _ _ Hw1 Hr Hf) as (sheets & lost & Hp & Hcs & Hun & Hd & Hz & Hb & H1). cbn in Hcs, Hun, Hd.
    exists sheets, lost. split; [done| |done|done|done|done|by rewrite Hd].
    intros ->. by rewrite Hco in Hcs.
Qed.

(** The files a compressor took, and those it did not. *)
Definition taken (files : list CollectedAsset) : list (CollectedAsset * CompressionSizes) :=
  omap (λ a, match compress (a_bytes a) with inl z => Some (a, z) | inr _ => None end) files.
Definition refused (files : list CollectedAsset) : list (CollectedAsset * string) :=
  omap (λ a, match compress (a_bytes a) with inl _ => None | inr e => Some (a, e) end) files.
Lemma taken_or_refused files : files ≡ₚ (taken files).*1 ++ (refused files).*1.
Proof.
  induction files as [|a files IH]; [done|]. unfold taken, refused in *. cbn. destruct (compress (a_bytes a)); cbn; [by rewrite <- IH|].
  by rewrite <- Permutation_middle, <- IH.
Qed.
Lemma taken_compressed files : Forall compressed (taken files).
Proof.
  apply Forall_forall. intros [a z] (a' & _ & Ha)%list_elem_of_omap. unfold compressed. destruct (compress (a_bytes a')) eqn:E; [|done].
  by injection Ha as <- <-.
Qed.

Definition refusal_words (r : CollectedAsset * string) : string := "failed to compress " +:+ a_path r.1 +:+ ": " +:+ r.2.
Definition with_refused (l : list (CollectedAsset * string)) (p : ProcessedAssets) : ProcessedAssets :=
  add_uncounted (refusal_words <$> l) (raw_disclosure <$> l.*1) (const stage.COMPRESSION <$> l) p.
Lemma with_refused_nil p : with_refused [] p = p.
Proof. destruct p. unfold with_refused, add_uncounted. cbn. by rewrite !app_nil_r. Qed.
Lemma with_refused_cons r l p : with_refused l (with_refused [r] p) = with_refused (r :: l) p.
Proof. destruct p. unfold with_refused, add_uncounted. cbn. by rewrite <- !app_assoc. Qed.

Lemma binaries_count {E} files sizes counted p w r p' w' : steady limits graph w →
  (the_measure_binaries files sizes counted p : M E _) w = (Good (r, p'), w') → failing w' = false →
  r = Some (foldl add_sizes sizes ((λ f, binary_sizes f.1 f.2) <$> taken files), counted || negb (bool_decide (taken files = []))) ∧
  p' = with_refused (refused files) p.
Proof.
  revert sizes counted p w. induction files as [|a files IH]; intros sizes counted p w Hw; cbn [AssetProcessing.measure_binaries].
  { intros [= <- <- <-] _. rewrite with_refused_nil. cbn. by rewrite orb_false_r. }
  unfold mbind, M_bind at 1, attempt at 1. pose proof (sound_deadline limits graph FIN disk expires w Hw) as Hs.
  destruct (the_check_deadline_now w) as [[[]|e|] w1] eqn:H1; [destruct Hs as [Hw1 _]| |done].
  2: { intros [= <- <- <-] Hf. apply deadline_fails in H1. congruence. }
  destruct (match compress (a_bytes a) with inl _ => _ | inr _ => _ end) as [[sizes1 counted1] p1] eqn:Hc.
  unfold M_bind at 1, attempt at 1. pose proof (sound_deadline limits graph FIN disk expires w1 Hw1) as Hs1.
  destruct (the_check_deadline_now w1) as [[[]|e|] w2] eqn:H2; [destruct Hs1 as [Hw2 _]| |done].
  2: { intros [= <- <- <-] Hf. apply deadline_fails in H2. congruence. }
  intros Hr Hf. destruct (IH _ _ _ _ Hw2 Hr Hf) as [-> ->]. unfold taken, refused. cbn.
  destruct (compress (a_bytes a)) as [z|e]; injection Hc as <- <- <-; cbn.
  - by rewrite orb_true_r.
  - split; [done|]. by rewrite <- (with_refused_cons (a, e)).
Qed.

Definition files_of (kind : AssetLedger.AssetKind) (assets : list CollectedAsset) : list CollectedAsset :=
  filter (λ a, of_kind kind a = true) assets.
(** The row of a kind: absent when none of its files was taken. *)
Definition file_row (kind : AssetLedger.AssetKind) (files : list (CollectedAsset * CompressionSizes)) : list AssetContribution :=
  match files with
  | [] => []
  | _ => [{| ac_kind := result_kind kind; ac_sizes := sum_sizes ((λ f, binary_sizes f.1 f.2) <$> files) |}]
  end.
Definition with_rows (rows : list AssetContribution) (p : ProcessedAssets) : ProcessedAssets :=
  {| contributions := contributions p ++ rows; pa_read_paths := pa_read_paths p; read_time_fingerprints := read_time_fingerprints p;
     uncounted := uncounted p; failures := failures p; stylesheets_measured_separately := stylesheets_measured_separately p;
     css_dependency_omissions := css_dependency_omissions p; uncounted_total_is_floor := uncounted_total_is_floor p;
     css_dependency_external := css_dependency_external p; non_durable_stages := non_durable_stages p |}.
Definition with_kind (assets : list CollectedAsset) (p : ProcessedAssets) (kind : AssetLedger.AssetKind) : ProcessedAssets :=
  with_rows (file_row kind (taken (files_of kind assets))) (with_refused (refused (files_of kind assets)) p).

Lemma kinds_count {E} kinds assets p w p' w' : steady limits graph w →
  (the_process_kinds kinds assets p : M E _) w = (Good p', w') → failing w' = false →
  p' = foldl (with_kind assets) p kinds.
Proof.
  revert p w. induction kinds as [|kind kinds IH]; intros p w Hw; cbn [AssetProcessing.process_kinds]; [by intros [= <- <-]|].
  unfold mbind, M_bind at 1, AssetProcessing.process_binary_kind, mbind at 1, M_bind at 1. fold (files_of kind assets).
  pose proof (sound_binaries (E := E) (files_of kind assets) ZERO false p w Hw) as Hs.
  destruct (AssetProcessing.measure_binaries disk expires compress (files_of kind assets) ZERO false p w) as [[[r p1]|e|] w1] eqn:Hm; [destruct Hs as [Hw1 _]|done..].
  intros Hr Hf.
  assert (∃ p2, (match r with Some (sizes, true) => mret (add_contribution kind sizes p1) | _ => mret p1 end : M E ProcessedAssets) w1 = (Good p2, w1) ∧
    (failing w1 = false → p2 = with_kind assets p kind)) as (p2 & H2 & Hp2).
  { destruct r as [[sizes []]|]; eexists; (split; [reflexivity|]); intros Hf1;
      destruct (binaries_count _ _ _ _ _ _ _ _ Hw Hm Hf1) as [Hr1 ->]; try done; injection Hr1 as Hsz Hc.
    - unfold with_kind, file_row, sum_sizes. destruct (taken (files_of kind assets)); [done|]. by rewrite Hsz.
    - unfold with_kind, file_row. destruct (taken (files_of kind assets)); [|done]. cbn. unfold with_rows. rewrite app_nil_r.
      by destruct (with_refused _ p). }
  rewrite H2 in Hr. pose proof (sound_kinds (E := E) kinds assets p2 w1 Hw1) as Hk. unfold the_process_kinds in *. rewrite Hr in Hk.
  rewrite (IH _ _ Hw1 Hr Hf), Hp2; [done|]. destruct (failing w1) eqn:Hf1; [|done]. destruct Hk as [_ Hl].
  apply (later_failing _ _ Hl) in Hf1. congruence.
Qed.

(** *** Folding the counted bundles in *)

Lemma bundles_fold (cs : list (CssBundle * CompressionSizes)) p :
  let p' := foldl (λ p c, add_bundle c.1 p) p cs in
  contributions p' = contributions p ∧ uncounted p' = uncounted p ++ (cs ≫= λ c, (bundle_notes c.1).*2) ∧
  css_dependency_omissions p' = css_dependency_omissions p ++ (cs ≫= λ c, dependency_omissions c.1) ∧
  css_dependency_external p' = css_dependency_external p ++ (cs ≫= λ c, dependency_external c.1) ∧
  stylesheets_measured_separately p' = stylesheets_measured_separately p.
Proof.
  cbn zeta. revert p. induction cs as [|c cs IH]; intros p; cbn [foldl mbind list_bind]; [by rewrite !app_nil_r|].
  destruct (IH (add_bundle c.1 p)) as (-> & -> & -> & -> & ->). cbn. by rewrite <- !app_assoc.
Qed.
Lemma kinds_fold kinds assets p :
  let p' := foldl (with_kind assets) p kinds in
  contributions p' = contributions p ++ (kinds ≫= λ k, file_row k (taken (files_of k assets))) ∧
  uncounted p' = uncounted p ++ (kinds ≫= λ k, raw_disclosure <$> (refused (files_of k assets)).*1) ∧
  css_dependency_omissions p' = css_dependency_omissions p ∧ css_dependency_external p' = css_dependency_external p ∧
  stylesheets_measured_separately p' = stylesheets_measured_separately p.
Proof.
  cbn zeta. revert p. induction kinds as [|k kinds IH]; intros p; cbn [foldl mbind list_bind]; [by rewrite !app_nil_r|].
  destruct (IH (with_kind assets p k)) as (-> & -> & -> & -> & ->). cbn. by rewrite <- !app_assoc.
Qed.
End steps.

(** ** What a result accounts for *)

Definition sheets_of (assets : list CollectedAsset) : list CollectedAsset := filter (λ a, is_css a = true) assets.
Definition binaries_of (assets : list CollectedAsset) : list CollectedAsset := filter (λ a, is_css a = false) assets.
Abbreviation sheet_artifact := (list CollectedAsset * (CssBundle * CompressionSizes))%type.

Definition sheet_row (sheets : list sheet_artifact) : list AssetContribution :=
  match sheets with
  | [] => []
  | _ => [{| ac_kind := Results.Css; ac_sizes := sum_sizes ((λ s, bundle_sizes s.2.1 s.2.2) <$> sheets) |}]
  end.

(** A result as artifacts, each compressed alone, and assets lost: [sheets] and
    the sheets each covers and is the bundle of, [files] of each binary kind. *)
Record accounted_for (compress : list ascii → CompressionSizes + string) (bundled : list CollectedAsset → CssBundle → Prop)
    (assets : list CollectedAsset) (p : ProcessedAssets) (sheets : list sheet_artifact) (files : AssetLedger.AssetKind → list (CollectedAsset * CompressionSizes))
    (lost : list CollectedAsset) : Prop := {
  af_rows : contributions p = sheet_row sheets ++ (BINARY ≫= λ k, file_row k (files k));
  af_all : (sheets ≫= fst) ++ (BINARY ≫= λ k, (files k).*1) ++ lost ≡ₚ
    sheets_of assets ++ binaries_of (assets_by_path assets (sheets ≫= λ s, referenced_assets s.2.1)).*2;
  af_uncounted : uncounted p ≡ₚ (raw_disclosure <$> lost) ++ (sheets ≫= λ s, (bundle_notes s.2.1).*2);
  af_sheets : Forall (bundle_compressed compress) sheets;
  af_bundled : Forall (λ s, bundled s.1 s.2.1) sheets;
  af_files : ∀ k, Forall (λ f, compressed compress f ∧ of_kind k f.1 = true) (files k);
  af_separate : match stylesheets_measured_separately p with
                | None => sheets = [] ∨ sheets.*1 = [sheets_of assets]
                | Some _ => Forall (λ s, ∃ a, s.1 = [a]) sheets ∧ 2 ≤ length (sheets_of assets)
                end;
  af_omissions : css_dependency_omissions p = (sheets ≫= λ s, dependency_omissions s.2.1);
  af_external : css_dependency_external p = (sheets ≫= λ s, dependency_external s.2.1);
}.

Lemma binaries_by_kind l : (BINARY ≫= λ k, files_of k l) ≡ₚ binaries_of l.
Proof.
  change (files_of AssetLedger.Wasm l ++ files_of AssetLedger.Font l ++ files_of AssetLedger.Image l ++ [] ≡ₚ binaries_of l).
  rewrite app_nil_r. induction l as [|a l IH]; [done|]. unfold binaries_of, files_of in *. rewrite !filter_cons.
  assert (match a_kind a with
    | AssetLedger.Css => is_css a = true ∧ of_kind AssetLedger.Wasm a = false ∧ of_kind AssetLedger.Font a = false ∧ of_kind AssetLedger.Image a = false
    | AssetLedger.Wasm => is_css a = false ∧ of_kind AssetLedger.Wasm a = true ∧ of_kind AssetLedger.Font a = false ∧ of_kind AssetLedger.Image a = false
    | AssetLedger.Font => is_css a = false ∧ of_kind AssetLedger.Wasm a = false ∧ of_kind AssetLedger.Font a = true ∧ of_kind AssetLedger.Image a = false
    | AssetLedger.Image => is_css a = false ∧ of_kind AssetLedger.Wasm a = false ∧ of_kind AssetLedger.Font a = false ∧ of_kind AssetLedger.Image a = true
    end) as Hk by (unfold is_css, of_kind; by destruct (a_kind a)).
  destruct (a_kind a); destruct Hk as (H1 & H2 & H3 & H4); rewrite H1, H2, H3, H4;
    repeat (rewrite decide_True by done || rewrite decide_False by done).
  - exact IH.
  - cbn [app]. by apply perm_skip.
  - etrans; [symmetry; apply Permutation_middle|by apply perm_skip].
  - etrans; [rewrite (assoc_L (++)); symmetry; apply Permutation_middle|]. rewrite <- (assoc_L (++)). by apply perm_skip.
Qed.

(** A graph that collects one asset a path loses none of them. *)
Lemma by_path_keeps assets referenced a : NoDup (components ∘ a_path <$> assets) → a ∈ assets →
  a ∈ (assets_by_path assets referenced).*2.
Proof.
  intros Hnd Ha. set (direct := foldl (λ m a, map_insert (a_path a) a m) [] assets).
  assert (PathMaps.ordered direct ∧ path_lookup (a_path a) direct = Some a) as [Ho Hl].
  { subst direct. revert Hnd Ha. induction assets as [|b assets IH] using rev_ind; [by intros _ ?%not_elem_of_nil|].
    rewrite fmap_app, foldl_app. intros (Hnd & Hno & _)%NoDup_app Ha. cbn [foldl].
    assert (PathMaps.ordered (foldl (λ m a, map_insert (a_path a) a m) [] assets)) as Ho.
    { clear. induction assets as [|c assets IH] using rev_ind; [constructor|]. rewrite foldl_app. by apply insert_ordered. }
    split; [by apply insert_ordered|]. rewrite lookup_map_insert by done. destruct (path_eqb (a_path a) (a_path b)) eqn:He.
    - apply elem_of_app in Ha as [Ha|Ha]; [|by apply list_elem_of_singleton in Ha as ->]. apply path_eqb_spec in He.
      destruct (Hno (components (a_path a))); [by apply (list_elem_of_fmap_2 (components ∘ a_path))|]. cbn. rewrite He. by left.
    - apply elem_of_app in Ha as [Ha|Ha]; [by apply IH|]. apply list_elem_of_singleton in Ha as ->.
      by rewrite (proj2 (path_eqb_spec _ _) eq_refl) in He. }
  unfold assets_by_path. fold direct. clearbody direct. clear Hnd Ha.
  revert direct Ho Hl. induction referenced as [|r referenced IH]; intros direct Ho Hl; cbn [foldl].
  - apply elem_lookup in Hl as (k & Hin & _). by apply (list_elem_of_fmap_2 snd) in Hin.
  - apply IH; [by apply entry_ordered|]. by rewrite lookup_entry, Hl.
Qed.

(** ** Counting goes on past what fails *)

Definition goes_on {E A} (m : M E A) : Prop := ∀ w e w', m w ≠ (Bad e, w').
Lemma goes_on_bind {E A B} (m : M E A) (f : A → M E B) : goes_on m → (∀ a, goes_on (f a)) → goes_on (m ≫= f).
Proof.
  intros Hm Hf w e w'. unfold mbind, M_bind. destruct (m w) as [[a|e1|] w1] eqn:Hw; [apply Hf|by destruct (Hm w e1 w1)|done].
Qed.
Lemma goes_on_attempt {E F A} (m : M E A) : goes_on (E := F) (attempt m).
Proof. intros w e w'. unfold attempt. by destruct (m w) as [[a|e1|] w1]. Qed.

Section accounted.
Context `{CH : ContentHash} (windows : bool) (limits : AssetBudgetLimits) (graph : N) (FIN : finite_limits limits)
        (disk : nat → FileSystem) (is_file : nat → string → bool) (expires : nat) (display : CssError → string)
        (file_provider_resolve : string → string → ResolveResult + CssError)
        (resolve_package : nat → string → string → option string)
        (parse_imports : list ascii → option (list string)).
Context {Sheet : Type} (bundler : string → Walk Sheet) (print : Sheet → bool → list ascii + string)
        (minify : Sheet → Sheet + string) (analyze : Sheet → list Dependency + string)
        (compress : list ascii → CompressionSizes + string) (breach_message : option breach → string).
Notation the_process_stylesheets := (process_stylesheets windows limits disk is_file expires display file_provider_resolve resolve_package
  parse_imports bundler print minify analyze compress).
Notation the_count_assets := (count_assets windows limits disk is_file expires display file_provider_resolve resolve_package
  parse_imports bundler print minify analyze compress).
Notation the_process_assets := (process_assets windows limits disk is_file expires display file_provider_resolve resolve_package
  parse_imports bundler print minify analyze compress breach_message).

Notation the_bundle_of := (bundle_of windows limits disk is_file expires file_provider_resolve resolve_package bundler print minify).

Lemma count_goes_on {E} assets p : goes_on (the_count_assets assets p : M E _).
Proof.
  apply goes_on_bind.
  { unfold AssetProcessing.process_stylesheets. cbv zeta. destruct (filter _ assets); [done|].
    apply goes_on_bind; [apply goes_on_attempt|]. intros bundled. apply goes_on_bind; [done|]. intros []; [done|]. by destruct bundled. }
  intros [p' referenced]. apply goes_on_bind; [done|]. intros []; [done|]. generalize (assets_by_path assets referenced).*2. intros all.
  revert p'. induction BINARY as [|kind kinds IH]; intros p'; [done|]. cbn [process_kinds]. apply goes_on_bind; [|intros a; apply IH].
  apply goes_on_bind; [|by intros [[[sizes []]|] p1]]. generalize ZERO, false. revert p'.
  induction (filter _ all) as [|a files IHf]; intros p' sizes counted; [done|]. cbn [measure_binaries].
  apply goes_on_bind; [apply goes_on_attempt|]. intros [[]|e]; [|done].
  destruct (match compress (a_bytes a) with inl _ => _ | inr _ => _ end) as [[sizes' counted'] p1].
  apply goes_on_bind; [apply goes_on_attempt|]. intros [[]|e]; [apply IHf|done].
Qed.

(** What the stylesheets leave, before the binaries. *)
Record sheets_counted (assets : list CollectedAsset) (p : ProcessedAssets) (referenced : list CollectedAsset)
    (sheets : list sheet_artifact) (lost : list CollectedAsset) : Prop := {
  sc_rows : contributions p = sheet_row sheets;
  sc_all : (sheets ≫= fst) ++ lost ≡ₚ sheets_of assets;
  sc_uncounted : uncounted p = (raw_disclosure <$> lost) ++ (sheets ≫= λ s, (bundle_notes s.2.1).*2);
  sc_sheets : Forall (bundle_compressed compress) sheets;
  sc_bundled : Forall (λ s, the_bundle_of s.1 s.2.1) sheets;
  sc_separate : match stylesheets_measured_separately p with
                | None => sheets = [] ∨ sheets.*1 = [sheets_of assets]
                | Some _ => Forall (λ s, ∃ a, s.1 = [a]) sheets ∧ 2 ≤ length (sheets_of assets)
                end;
  sc_omissions : css_dependency_omissions p = (sheets ≫= λ s, dependency_omissions s.2.1);
  sc_external : css_dependency_external p = (sheets ≫= λ s, dependency_external s.2.1);
  sc_referenced : referenced = (sheets ≫= λ s, referenced_assets s.2.1);
}.

Lemma bind_snd {A B C} (f : B → list C) (l : list (A * B)) : l.*2 ≫= f = l ≫= λ x, f x.2.
Proof. induction l as [|x l IH]; [done|]. cbn. by rewrite <- IH. Qed.

Lemma stylesheets_counted {E} assets w p referenced w' : steady limits graph w →
  (the_process_stylesheets assets no_assets : M E _) w = (Good (p, referenced), w') → failing w' = false →
  ∃ sheets lost, sheets_counted assets p referenced sheets lost.
Proof.
  intros Hw. unfold AssetProcessing.process_stylesheets. cbv zeta. fold (sheets_of assets).
  destruct (sheets_of assets) as [|a entries] eqn:Hentries.
  { intros [= <- <- <-] _. exists [], []. split; try done; [by rewrite Hentries|by left]. }
  rewrite <- Hentries. unfold mbind, M_bind at 1, attempt at 1.
  destruct (settle_stylesheets _ _ _ _ _ _ _ _ _ _ _ _ _ _ _ w) as [[o|e|] w1] eqn:Hs; [| |done]; unfold M_bind, look.
  all: destruct (failing w1) eqn:Hf1; [intros [= _ _ <-] ?; congruence|].
  - intros [= <- <- <-] _. assert (sheets_of assets ≠ []) as Hne by by rewrite Hentries.
    edestruct settle_counts as (sheets & lost & Ho); [exact FIN|exact Hne|exact Hw|exact Hs|exact Hf1|].
    exists sheets, lost. destruct Ho as [Hc Hn Hp Hl Hz Hb Hd].
    set (p0 := set_degraded _ _). destruct (bundles_fold (so_counted o) p0) as (Hr & Hu & Hom & Hex & Hsep). split; cbn in *.
    + rewrite Hr. cbn. unfold sheet_row. destruct sheets as [|s sheets]; [done|]. rewrite Hc. by rewrite <- list_fmap_compose.
    + done.
    + rewrite Hu. cbn. by rewrite Hl, Hc, bind_snd.
    + done.
    + done.
    + rewrite Hsep. cbn. destruct (so_degraded o); [done|]. right. apply Hd.
    + rewrite Hom. cbn. by rewrite Hc, bind_snd.
    + rewrite Hex. cbn. by rewrite Hc, bind_snd.
    + by rewrite Hc, bind_snd.
  - intros [= <- <- <-] _. exists [], (sheets_of assets). split; try done; [by rewrite app_nil_r|by left].
Qed.

Lemma assets_counted {E} assets w p w' : steady limits graph w →
  (the_count_assets assets no_assets : M E _) w = (Good p, w') → failing w' = false →
  ∃ sheets files lost, accounted_for compress the_bundle_of assets p sheets files lost.
Proof.
  intros Hw. unfold AssetProcessing.count_assets, mbind at 1, M_bind at 1.
  pose proof (sound_process_stylesheets windows limits graph FIN disk is_file expires display file_provider_resolve resolve_package
    parse_imports bundler print minify analyze compress (E := E) assets no_assets w Hw) as Hs.
  destruct (the_process_stylesheets assets no_assets w) as [[[p1 referenced]|e|] w1] eqn:Hp; [destruct Hs as [Hw1 _]|done..].
  unfold mbind, M_bind, look. destruct (failing w1) eqn:Hf1; [intros [= <- <-] ?; congruence|]. intros Hk Hf.
  destruct (stylesheets_counted _ _ _ _ _ Hw Hp Hf1) as (sheets & lost & [Hr Ha Hu Hz Hb Hd Ho Hx Href]).
  apply (kinds_count limits graph FIN disk expires compress _ _ _ _ _ _ Hw1) in Hk; [|done].
  set (all := (assets_by_path assets referenced).*2) in *.
  destruct (kinds_fold compress BINARY all p1) as (Kr & Ku & Ko & Kx & Kd). rewrite <- Hk in *.
  exists sheets, (λ k, taken compress (files_of k all)), (lost ++ (BINARY ≫= λ k, (refused compress (files_of k all)).*1)).
  split.
  - by rewrite Kr, Hr.
  - rewrite <- Href. fold all. rewrite <- Ha, <- (binaries_by_kind all). cbn [BINARY mbind list_bind]. rewrite !app_nil_r.
    rewrite (taken_or_refused compress (files_of AssetLedger.Wasm all)) at 3. rewrite (taken_or_refused compress (files_of AssetLedger.Font all)) at 3.
    rewrite (taken_or_refused compress (files_of AssetLedger.Image all)) at 3. solve_Permutation.
  - rewrite Ku, Hu, fmap_app, <- !(assoc_L (++)). apply Permutation_app_head. rewrite Permutation_app_comm. apply Permutation_app_tail.
    cbn [BINARY mbind list_bind]. by rewrite !fmap_app.
  - done.
  - done.
  - intros k. apply Forall_forall. intros [a z] Hin. split; [by eapply (proj1 (Forall_forall _ _) (taken_compressed compress _))|].
    apply list_elem_of_omap in Hin as (a' & [Hk' _]%list_elem_of_filter & Hm). destruct (compress (a_bytes a')); [|done]. by injection Hm as <- <-.
  - by rewrite Kd.
  - by rewrite Ko.
  - by rewrite Kx.
Qed.

Lemma wrap_add_zero a b : wrap_add a (wrap_add 0 b) = wrap_add a b.
Proof. unfold wrap_add. by rewrite N.add_0_l, N.Div0.add_mod_idemp_r. Qed.
Lemma add_sizes_zero a b : add_sizes a (add_sizes ZERO b) = add_sizes a b.
Proof. unfold add_sizes, ZERO. cbn [m_raw m_minified m_gzip m_brotli m_zstd]. by rewrite !wrap_add_zero. Qed.
Lemma foldl_sizes a l acc : add_sizes acc (sum_sizes (a :: l)) = foldl add_sizes acc (a :: l).
Proof.
  unfold sum_sizes. cbn [foldl]. revert acc a. induction l as [|b l IH]; intros acc a; cbn [foldl]; [apply add_sizes_zero|].
  rewrite <- (IH (add_sizes acc a) b), <- (IH (add_sizes ZERO a) b), <- add_sizes_assoc. by rewrite add_sizes_zero.
Qed.
(** The total adds the artifacts, each compressed alone. *)
Lemma total_of_artifacts bundled assets p sheets files lost : accounted_for compress bundled assets p sheets files lost →
  total p = sum_sizes (((λ s, bundle_sizes s.2.1 s.2.2) <$> sheets) ++ (BINARY ≫= λ k, (λ f, binary_sizes f.1 f.2) <$> files k)).
Proof.
  intros [Hr _ _ _ _ _ _ _ _]. unfold total. rewrite Hr. cbn [BINARY mbind list_bind]. rewrite !app_nil_r.
  assert (∀ k l acc, foldl add_sizes acc (ac_sizes <$> file_row k l) = foldl add_sizes acc ((λ f, binary_sizes f.1 f.2) <$> l)) as Hf.
  { intros k [|f l] acc; [done|]. apply foldl_sizes. }
  assert (∀ acc, foldl add_sizes acc (ac_sizes <$> sheet_row sheets) = foldl add_sizes acc ((λ s, bundle_sizes s.2.1 s.2.2) <$> sheets)) as Hs.
  { intros acc. destruct sheets as [|s l]; [done|]. apply foldl_sizes. }
  unfold sum_sizes at 1 2. by rewrite !fmap_app, !foldl_app, Hs, !Hf.
Qed.

(** Sorting the rows moves none: they are made in the order of the kinds. *)
Lemma rows_in_order paths fps p bundled sheets files lost assets :
  accounted_for compress bundled assets p sheets files lost → accounted_for compress bundled assets (set_observations paths fps p) sheets files lost.
Proof.
  intros [Hr ? ? ? ? ? ? ? ?]. split; try done. cbn [set_observations contributions]. rewrite Hr. cbn [BINARY mbind list_bind].
  unfold sheet_row, file_row. by destruct sheets, (files AssetLedger.Wasm), (files AssetLedger.Font), (files AssetLedger.Image).
Qed.

(** C6. Every asset a build collected is counted or disclosed. Processing does
    not panic. It fails only when the deadline passed; a breach of the shared
    ledger is instead a floor: every asset at its raw size and none counted.
    Otherwise the collected stylesheets, and the other files one a path,
    references of the counted stylesheets included, are exactly those covered
    by an artifact and those lost, each once; an artifact of stylesheets is what
    the bundler made of them, printed and minified: of the sheet itself, or of an
    entry that imports each of them in order, the sheets served from memory (a
    path with a line end, which no CSS string holds, aside); what is lost is uncounted at its
    raw size, beside what the counted stylesheets could not read or do not
    count; the total is the sum of the artifacts, each compressed alone; and
    the stylesheets are one artifact unless the result says they were measured
    separately. Whatever happens, every input observed before is among the
    observations the result expires with. *)
Theorem every_asset_is_counted_or_disclosed assets w : steady limits graph w →
  match the_process_assets assets w with
  | (Crash, _) => False
  | (Bad f, w') => bf_stage f = Timeout ∧ AssetLedger.failure (w_ledger w') = Some f
  | (Good p, w') =>
      (∀ f, f ∈ fingerprints (w_ledger w) → is_Some (fp_content_hash f) → f ∈ read_time_fingerprints p) ∧
      if failing w' then
        contributions p = [] ∧ uncounted p = raw_disclosure <$> assets ∧ has_uncounted_assets p = true
      else
        ∃ sheets files lost, accounted_for compress the_bundle_of assets p sheets files lost ∧
          total p = sum_sizes (((λ s, bundle_sizes s.2.1 s.2.2) <$> sheets) ++ (BINARY ≫= λ k, (λ f, binary_sizes f.1 f.2) <$> files k)) ∧
          (NoDup (components ∘ a_path <$> assets) → ∀ a, a ∈ assets →
             a ∈ (sheets ≫= fst) ++ (BINARY ≫= λ k, (files k).*1) ++ lost)
  end.
Proof.
  intros Hw. unfold AssetProcessing.process_assets, mbind at 1, M_bind at 1, look at 1.
  assert (∃ p w1, ((if failing w then mret no_assets else the_count_assets assets no_assets) : M AssetBudgetFailure _) w = (Good p, w1) ∧
    later w w1 ∧ (failing w1 = false → (the_count_assets assets no_assets : M AssetBudgetFailure _) w = (Good p, w1))) as (p & w1 & Hc & Hl & Hcount).
  { destruct (failing w) eqn:Hf; [exists no_assets, w; split; [done|]; split; [done|congruence]|].
    pose proof (sound_count windows limits graph FIN disk is_file expires display file_provider_resolve resolve_package
      parse_imports bundler print minify analyze compress (E := AssetBudgetFailure) assets no_assets w Hw) as Hs.
    destruct (the_count_assets assets no_assets w) as [[p|e|] w1] eqn:Hcs; [|by destruct (count_goes_on assets no_assets w e w1)|done].
    exists p, w1. destruct Hs as [_ Hl]. split; [done|]. by split. }
  unfold mbind at 1, M_bind at 1. rewrite Hc. unfold mbind, M_bind, look.
  assert (∀ f, f ∈ fingerprints (w_ledger w) → is_Some (fp_content_hash f) → f ∈ normalized_observations (fingerprints (w_ledger w1))) as Hobs.
  { intros f Hf Hh. apply elem_of_normalized. split; [|by left]. destruct (ext_observed _ _ (proj1 Hl)) as [l ->].
    apply elem_of_app. by left. }
  destruct (AssetLedger.failure (w_ledger w1)) as [f|] eqn:Hf.
  - assert (failing w1 = true) as Hfail by by unfold failing; rewrite Hf. destruct (bf_stage f) eqn:Hstage; [|by split].
    cbn. rewrite Hfail. split; [|split; [done|split; [done|apply breach_is_uncounted]]]. intros g Hg Hh.
    assert (bf_fingerprints f = normalized_observations (fingerprints (w_ledger w1))) as ->; [|by apply Hobs].
    revert Hf. unfold AssetLedger.failure. destruct (module_limit_message _); [by intros [= <-]|]. destruct (timed_out _); [by intros [= <-]|done].
  - assert (failing w1 = false) as Hfail by by unfold failing; rewrite Hf. cbn. rewrite Hfail. split; [exact Hobs|].
    destruct (assets_counted assets w p w1 Hw (Hcount Hfail) Hfail) as (sheets & files & lost & Ha).
    exists sheets, files, lost. pose proof (rows_in_order (sorted_paths (AssetLedger.read_paths (w_ledger w1)))
      (AssetLedger.freshness_fingerprints (w_ledger w1)) p _ sheets files lost assets Ha) as Ha'.
    split; [exact Ha'|]. split; [exact (total_of_artifacts _ _ _ _ _ _ Ha')|]. intros Hnd a Hin. rewrite (af_all _ _ _ _ _ _ _ Ha').
    unfold sheets_of, binaries_of. rewrite elem_of_app, !list_elem_of_filter. destruct (is_css a); [by left|right].
    split; [done|]. by apply by_path_keeps.
Qed.
End accounted.

(** ** A run *)

Module sample.
#[local] Instance hash : ContentHash := λ bs, N.of_nat (length bs).
#[local] Instance empty_disk : FileSystem :=
  {| fs_metadata := λ _, inr NotFound; fs_read := λ _, inr NotFound; fs_canonicalize := λ path, Some path |}.
Definition collected (path : string) (kind : AssetLedger.AssetKind) (bytes : string) : CollectedAsset :=
  from_read false path kind {| md_len := N.of_nat (String.length bytes); md_modified := Some 0%Z |} (to_bytes bytes).
Definition assets : list CollectedAsset :=
  [collected "/p/a.css" AssetLedger.Css "a{}"; collected "/p/b.css" AssetLedger.Css "b{"; collected "/p/m.wasm" AssetLedger.Wasm "asm"].
Definition world : World :=
  {| w_ledger := new_ledger production 0 ["/p/index.js"] assets; w_provider := fresh_provider; w_time := 0 |}.
(** A sheet is its text, and one that does not end with a brace is refused. *)
Definition bundler (entry : string) : Walk (list ascii) :=
  AskRead entry (λ source, Walked match source with
                                  | inl text => if decide (last text = Some "}"%char) then inl text else inr "unexpected end"
                                  | inr _ => inr "unreadable"
                                  end).
Definition run : answer AssetBudgetFailure ProcessedAssets * World :=
  process_assets false production (λ _, empty_disk) (λ _ _, true) 1000 (λ _, "error") (λ _ _, inr TreeLimit) (λ _ _ _, None)
    (λ _, None) bundler (λ sheet _, inl sheet) inl (λ _, inl [])
    (λ bytes, inl {| z_gzip := N.of_nat (length bytes); z_brotli := 2; z_zstd := 3 |}) (λ _, "limit") assets world.
Lemma world_steady : steady production 0 world.
Proof. split; [exact (new_ledger_accounts production 0 ["/p/index.js"] assets)|]. split; by vm_compute. Qed.
(** The union is refused, so the first sheet is counted alone and the
    second disclosed; the module is counted. *)
Lemma run_counts : match run with
  | (Good p, w') => failing w' = false ∧ uncounted p = [{| u_path := "/p/b.css"; u_bytes := 2 |}] ∧
      total p = {| m_raw := 6; m_minified := 6; m_gzip := 6; m_brotli := 4; m_zstd := 6 |} ∧
      bool_decide (stylesheets_measured_separately p = None) = false
  | _ => False
  end.
Proof. vm_compute. repeat split; reflexivity. Qed.
End sample.

Lemma every_asset_is_counted_or_disclosed_witness :
  finite_limits production ∧ steady production 0 sample.world ∧
  match sample.run with
  | (Good p, w') => failing w' = false ∧ ∃ sheets files lost,
      accounted_for (λ bytes, inl {| z_gzip := N.of_nat (length bytes); z_brotli := 2; z_zstd := 3 |})
        (bundle_of (CH := sample.hash) false production (λ _, sample.empty_disk) (λ _ _, true) 1000 (λ _ _, inr TreeLimit) (λ _ _ _, None)
           sample.bundler (λ sheet _, inl sheet) inl) sample.assets p sheets files lost
  | _ => False
  end.
Proof.
  assert (finite_limits production) as Hfin by (repeat split; vm_compute; reflexivity).
  split; [exact Hfin|]. split; [exact sample.world_steady|]. pose proof sample.run_counts as Hc.
  pose proof (every_asset_is_counted_or_disclosed (CH := sample.hash) false production 0 Hfin (λ _, sample.empty_disk) (λ _ _, true) 1000 (λ _, "error")
    (λ _ _, inr TreeLimit) (λ _ _ _, None) (λ _, None) sample.bundler (λ sheet _, inl sheet) inl (λ _, inl [])
    (λ bytes, inl {| z_gzip := N.of_nat (length bytes); z_brotli := 2; z_zstd := 3 |}) (λ _, "limit") sample.assets sample.world
    sample.world_steady) as H.
  fold sample.run in H. destruct sample.run as [[p|f|] w']; [|destruct Hc..]. destruct Hc as (Hf & _). split; [exact Hf|].
  rewrite Hf in H. destruct H as (_ & sheets & files & lost & Ha & _). exists sheets, files, lost. exact Ha.
Defined.
