(* ===== verification/VirtualEntry.v ===== *)
(** * The virtual entry (engine/entry.rs, engine/limits.rs)

    The module a build starts from: one clause for each requested name, under
    an alias of its own, from the pre-resolved target of its entry. [js_string]
    (serde_json) is a parameter: it writes a JavaScript string literal. *)
From stdpp Require Import base list strings pretty.
From S2P Require Import Prelude FileSize Paths Text.

(** ** [str::parse::<usize>]: an optional sign, then digits; [None] on overflow *)
Definition digit_value (c : ascii) : option N :=
  if is_ascii_digit c then Some (N_of_ascii c - 48)%N else None.
Fixpoint parse_digits (acc : N) (l : list ascii) : option N :=
  match l with
  | [] => Some acc
  | c :: l =>
      d ← digit_value c;
      let acc := (10 * acc + d)%N in
      if (acc <=? u64_max)%N then parse_digits acc l else None
  end.
Definition parse_usize (l : list ascii) : option N :=
  let digits := match l with "+"%char :: rest => rest | _ => l end in
  match digits with [] => None | _ => parse_digits 0 digits end.

(** ** Limits (engine/limits.rs) *)
Definition MAX_GRAPH_MODULES : N := 2000.
Definition DEFAULT_MAX_GRAPH_SOURCE_BYTES : N := 100 * 1024 * 1024.
(** [env] is the override variable, when it is set to Unicode text. *)
Definition MAX_GRAPH_SOURCE_BYTES (env : option string) : N :=
  match parse_usize ∘ to_bytes <$> env with
  | Some (Some value) => if (0 <? value)%N then value else DEFAULT_MAX_GRAPH_SOURCE_BYTES
  | _ => DEFAULT_MAX_GRAPH_SOURCE_BYTES
  end.

(** ** The entry's source *)
Definition VIRTUAL_ENTRY_ID : string := "import-lens:entry".
Definition TARGET_PREFIX : string := "import-lens:target/".
Definition synthetic_target (index : nat) : string := TARGET_PREFIX +:+ pretty index.

Definition newline : string := of_bytes [byte 10].
Definition export_alias (index name_index : nat) : string :=
  "__il_entry_" +:+ pretty index +:+ "_export_" +:+ pretty name_index.
Definition default_alias (index : nat) : string := "__il_entry_" +:+ pretty index +:+ "_default".
Definition namespace_alias (index : nat) : string := "__il_entry_" +:+ pretty index +:+ "_namespace".

Definition concat_strings (l : list string) : string := foldr String.append "" l.

Section source.
Context (js_string : string → string).

Definition named_clause (index : nat) (specifier : string) (name_index : nat) (name : string) : string :=
  "export { " +:+ js_string name +:+ " as " +:+ export_alias index name_index +:+ " } from " +:+ specifier +:+
  ";" +:+ newline.
Definition entry_clauses (index : nat) (entry : BundleEntry) : string :=
  let specifier := js_string (synthetic_target index) in
  match selection entry with
  | SelectNamed names => concat_strings (imap (named_clause index specifier) names)
  | SelectDefault =>
      "export { default as " +:+ default_alias index +:+ " } from " +:+ specifier +:+ ";" +:+ newline
  | SelectNamespace | SelectFull =>
      "import * as " +:+ namespace_alias index +:+ " from " +:+ specifier +:+ ";" +:+ newline +:+
      "export { " +:+ namespace_alias index +:+ " };" +:+ newline
  end.
Definition virtual_entry_source (entries : list BundleEntry) : string :=
  concat_strings (imap entry_clauses entries).
End source.

(** [resolve_id]'s reading of a target specifier (engine/plugin.rs). *)
Definition target_index (specifier : string) : option (option N) :=
  parse_usize <$> strip_prefix (to_bytes TARGET_PREFIX) (to_bytes specifier).

(** ** Numbers *)

Definition digits_value (acc : N) (l : list ascii) : N :=
  foldl (λ acc c, 10 * acc + default 0 (digit_value c))%N acc l.
Definition is_digits (l : list ascii) : Prop := Forall (λ c, is_ascii_digit c = true) l.

Lemma pretty_char_digit x :
  (x < 10)%N → is_ascii_digit (pretty_N_char x) = true ∧ digit_value (pretty_N_char x) = Some x.
Proof.
  intros Hx. assert (∃ n, x = N.of_nat n ∧ n < 10) as (n & -> & Hn) by (exists (N.to_nat x); lia).
  by do 10 (destruct n as [|n]; [done|]); lia.
Qed.

Lemma digits_value_app acc l r : digits_value acc (l ++ r) = digits_value (digits_value acc l) r.
Proof. unfold digits_value. by rewrite foldl_app. Qed.

(** What [pretty] prints of a number. *)
Lemma pretty_go_digits x s :
  ∃ ds, to_bytes (pretty_N_go x s) = ds ++ to_bytes s ∧ is_digits ds ∧ digits_value 0 ds = x ∧
        (0 < x → ds ≠ [])%N.
Proof.
  revert s. induction (N.lt_wf_0 x) as [x _ IH]. intros s. destruct (decide (x = 0)%N) as [->|Hx].
  { exists []. repeat split; [constructor|lia]. }
  rewrite pretty_N_go_step by lia.
  destruct (IH (x `div` 10)%N ltac:(apply N.div_lt; lia) (String (pretty_N_char (x `mod` 10)) s)) as (ds & -> & Hd & Hv & _).
  pose proof (N.mod_lt x 10 ltac:(done)) as Hm. destruct (pretty_char_digit _ Hm) as [Hc Hval].
  exists (ds ++ [pretty_N_char (x `mod` 10)]). repeat split.
  - by rewrite <- (assoc_L (++)).
  - apply Forall_app. by split; [|constructor].
  - rewrite digits_value_app, Hv. cbn. rewrite Hval. cbn. pose proof (N.div_mod x 10 ltac:(done)). lia.
  - intros _ Hnil. by apply (app_cons_not_nil ds [] (pretty_N_char (x `mod` 10))).
Qed.

Lemma pretty_digits (n : nat) :
  is_digits (to_bytes (pretty n)) ∧ to_bytes (pretty n) ≠ [] ∧ digits_value 0 (to_bytes (pretty n)) = N.of_nat n.
Proof.
  unfold pretty, pretty_nat, pretty, pretty_N. case_decide as Hn.
  { rewrite Hn. repeat split; [repeat constructor|done]. }
  destruct (pretty_go_digits (N.of_nat n) "") as (ds & -> & Hd & Hv & Hne). cbn. rewrite app_nil_r.
  repeat split; [done|apply Hne; lia|done].
Qed.

Lemma digits_value_mono acc l : (acc <= digits_value acc l)%N.
Proof.
  revert acc. induction l as [|c l IH]; intros acc; cbn; [lia|]. etrans; [|apply IH]. lia.
Qed.

Lemma parse_digits_value acc l :
  is_digits l → (digits_value acc l <= u64_max)%N → parse_digits acc l = Some (digits_value acc l).
Proof.
  revert acc. induction l as [|c l IH]; intros acc Hd Hm; [done|].
  apply Forall_cons in Hd as [Hc Hd]. cbn [parse_digits].
  assert (digit_value c = Some (N_of_ascii c - 48)%N) as Hdc by (unfold digit_value; by rewrite Hc).
  assert (digits_value acc (c :: l) = digits_value (10 * acc + (N_of_ascii c - 48)) l) as Hstep
    by (unfold digits_value; cbn [foldl]; by rewrite Hdc).
  rewrite Hstep in *. rewrite Hdc. cbn.
  pose proof (digits_value_mono (10 * acc + (N_of_ascii c - 48)) l).
  rewrite (proj2 (N.leb_le _ _)) by lia. by apply IH.
Qed.

Lemma parse_usize_pretty (n : nat) :
  (N.of_nat n <= u64_max)%N → parse_usize (to_bytes (pretty n)) = Some (N.of_nat n).
Proof.
  intros Hn. destruct (pretty_digits n) as (Hd & Hne & Hv). unfold parse_usize.
  destruct (to_bytes (pretty n)) as [|c l] eqn:E; [done|].
  assert (c ≠ "+"%char) as Hc by (apply Forall_cons in Hd as [Hc _]; by intros ->).
  assert (match c with "+"%char => l | _ => c :: l end = c :: l) as Hm
    by (destruct c as [[] [] [] [] [] [] [] []]; done).
  assert (match c :: l with "+"%char :: rest => rest | _ => c :: l end = c :: l) as -> by exact Hm.
  rewrite <- Hv. apply parse_digits_value; [done|]. by rewrite Hv.
Qed.

Lemma target_index_synthetic (n : nat) :
  (N.of_nat n <= u64_max)%N → target_index (synthetic_target n) = Some (Some (N.of_nat n)).
Proof.
  intros Hn. unfold target_index, synthetic_target. rewrite to_bytes_app, strip_prefix_app. cbn.
  by rewrite parse_usize_pretty.
Qed.

(** ** Reading the entry back *)

(** The clauses a JavaScript parser finds. *)
Inductive clause :=
  | Reexport (name alias target : string)
  | ImportNamespace (alias target : string)
  | ExportLocal (alias : string).

Definition exported (c : clause) : list string :=
  match c with Reexport _ alias _ | ExportLocal alias => [alias] | ImportNamespace _ _ => [] end.

(** What an entry asks for. *)
Definition requested (index : nat) (entry : BundleEntry) : list clause :=
  let target := synthetic_target index in
  match selection entry with
  | SelectNamed names => imap (λ j name, Reexport name (export_alias index j) target) names
  | SelectDefault => [Reexport "default" (default_alias index) target]
  | SelectNamespace | SelectFull =>
      [ImportNamespace (namespace_alias index) target; ExportLocal (namespace_alias index)]
  end.

(** The string literals of JSON, which are JavaScript's too: one starts with a
    quote, and reading it gives back its text and leaves what follows it. *)
Class JsStrings := {
  js_string : string → string;
  read_literal : list ascii → option (string * list ascii);
  literal_quoted : ∀ s, head (to_bytes (js_string s)) = Some (byte 34);
  read_js_string : ∀ s rest, read_literal (to_bytes (js_string s) ++ rest) = Some (s, rest);
}.

Section reader.
Context `{JS : JsStrings}.

Definition space : ascii := byte 32.
Definition skip (text : string) (l : list ascii) : option (list ascii) := strip_prefix (to_bytes text) l.
Fixpoint read_identifier (l : list ascii) : string * list ascii :=
  match l with
  | [] => ("", [])
  | c :: rest =>
      if decide (c = space) then ("", l)
      else let '(name, rest) := read_identifier rest in (String c name, rest)
  end.

(** [from "…";] and the end of the line. *)
Definition read_from (l : list ascii) : option (string * list ascii) :=
  l ← skip "from " l;
  '(target, l) ← read_literal l;
  l ← skip (";" +:+ newline) l;
  Some (target, l).

Definition read_exported (name : string) (l : list ascii) : option (clause * list ascii) :=
  l ← skip " as " l;
  let '(alias, l) := read_identifier l in
  l ← skip " } " l;
  '(target, l) ← read_from l;
  Some (Reexport name alias target, l).

Definition read_clause (l : list ascii) : option (clause * list ascii) :=
  match skip "import * as " l with
  | Some l =>
      let '(alias, l) := read_identifier l in
      l ← skip " " l;
      '(target, l) ← read_from l;
      Some (ImportNamespace alias target, l)
  | None =>
      l ← skip "export { " l;
      if decide (head l = Some (byte 34)) then '(name, l) ← read_literal l; read_exported name l
      else
        let '(word, l) := read_identifier l in
        if decide (word = "default") then read_exported "default" l
        else l ← skip (" };" +:+ newline) l; Some (ExportLocal word, l)
  end.

(** Every clause takes a byte at least. *)
Fixpoint read_source (fuel : nat) (l : list ascii) : option (list clause) :=
  match l, fuel with
  | [], _ => Some []
  | _, 0 => None
  | _, S fuel => '(c, l) ← read_clause l; cs ← read_source fuel l; Some (c :: cs)
  end.

(** A stretch of the source reads as one clause, or as several. *)
Definition reads_clause (l : list ascii) (c : clause) : Prop :=
  l ≠ [] ∧ ∀ rest, read_clause (l ++ rest) = Some (c, rest).
Definition reads (l : list ascii) (cs : list clause) : Prop :=
  ∀ fuel rest cs', read_source fuel rest = Some cs' → read_source (length cs + fuel) (l ++ rest) = Some (cs ++ cs').

Lemma reads_nil : reads [] [].
Proof. by intros fuel rest cs'. Qed.
Lemma reads_app l l' cs cs' : reads l cs → reads l' cs' → reads (l ++ l') (cs ++ cs').
Proof.
  intros H H' fuel rest more Hm. rewrite <- !(assoc_L (++)), length_app, <- Nat.add_assoc. by apply H, H'.
Qed.
Lemma reads_one l c : reads_clause l c → reads l [c].
Proof.
  intros [Hne Hc] fuel rest cs' Hr. cbn [length Nat.add]. destruct (l ++ rest) as [|a t] eqn:E.
  { by apply app_nil in E as [-> _]. }
  cbn [read_source]. rewrite <- E, Hc. cbn. by rewrite Hr.
Qed.

Lemma reads_imap {A} (text : nat → A → string) (cs : nat → A → list clause) (l : list A) :
  (∀ i x, l !! i = Some x → reads (to_bytes (text i x)) (cs i x)) →
  reads (to_bytes (concat_strings (imap text l))) (concat (imap cs l)).
Proof.
  revert text cs. induction l as [|x l IH]; intros text cs H; [apply reads_nil|].
  cbn [imap concat_strings foldr concat]. rewrite to_bytes_app. apply reads_app; [by apply (H 0)|].
  apply (IH (text ∘ S) (cs ∘ S)). intros i y Hy. by apply (H (S i)).
Qed.

(** *** The pieces of a clause *)

Definition word (s : string) : Prop := space ∉ to_bytes s.
Lemma read_identifier_word s rest :
  word s → head rest = Some space → read_identifier (to_bytes s ++ rest) = (s, rest).
Proof.
  unfold word. intros Hs Hr. induction s as [|c s IH].
  { destruct rest as [|a rest]; [done|]. injection Hr as ->. done. }
  change (to_bytes (String c s)) with (c :: to_bytes s) in *. apply not_elem_of_cons in Hs as [Hc Hs].
  cbn [app read_identifier]. by rewrite decide_False, IH.
Qed.

Lemma skip_bytes text rest : skip text (to_bytes text ++ rest) = Some rest.
Proof. apply strip_prefix_app. Qed.

Lemma digits_word s : is_digits (to_bytes s) → word s.
Proof. intros Hd Hin. unfold is_digits in Hd. rewrite Forall_forall in Hd. by specialize (Hd _ Hin). Qed.
Lemma word_app s t : word s → word t → word (s +:+ t).
Proof. unfold word. rewrite to_bytes_app. intros Hs Ht [?|?]%elem_of_app; [by apply Hs|by apply Ht]. Qed.
Lemma pretty_word (n : nat) : word (pretty n).
Proof. apply digits_word, pretty_digits. Qed.
Lemma literal_word s : bool_decide (space ∈ to_bytes s) = false → word s.
Proof. by intros ?%bool_decide_eq_false. Qed.
Lemma aliases_are_words i j :
  word (export_alias i j) ∧ word (default_alias i) ∧ word (namespace_alias i).
Proof.
  repeat split; repeat apply word_app; try apply pretty_word; by apply literal_word; vm_compute.
Qed.

Lemma read_from_spec target rest :
  read_from (to_bytes ("from " +:+ js_string target +:+ ";" +:+ newline) ++ rest) = Some (target, rest).
Proof.
  unfold read_from. rewrite to_bytes_app, <- (assoc_L (++)), skip_bytes. cbn [mbind option_bind].
  rewrite to_bytes_app, <- (assoc_L (++)), read_js_string. cbn [mbind option_bind].
  by rewrite skip_bytes.
Qed.

Lemma read_exported_spec name alias target rest :
  word alias →
  read_exported name (to_bytes (" as " +:+ alias +:+ " } from " +:+ js_string target +:+ ";" +:+ newline) ++ rest)
  = Some (Reexport name alias target, rest).
Proof.
  intros Hw. unfold read_exported. rewrite to_bytes_app, <- (assoc_L (++)), skip_bytes. cbn [mbind option_bind].
  rewrite to_bytes_app, <- (assoc_L (++)), read_identifier_word by done.
  change (" } from " +:+ js_string target +:+ ";" +:+ newline)
    with (" } " +:+ ("from " +:+ js_string target +:+ ";" +:+ newline)).
  rewrite to_bytes_app, <- (assoc_L (++)), skip_bytes. cbn [mbind option_bind]. by rewrite read_from_spec.
Qed.

Lemma not_namespace x rest : skip "import * as " (to_bytes ("export { " +:+ x) ++ rest) = None.
Proof. done. Qed.

Lemma named_reads index name_index name :
  reads_clause (to_bytes (named_clause js_string index (js_string (synthetic_target index)) name_index name))
    (Reexport name (export_alias index name_index) (synthetic_target index)).
Proof.
  split; [done|]. intros rest. unfold named_clause, read_clause. rewrite not_namespace.
  rewrite to_bytes_app, <- (assoc_L (++)), skip_bytes. cbn [mbind option_bind].
  rewrite to_bytes_app, <- (assoc_L (++)). rewrite decide_True.
  - rewrite read_js_string. cbn [mbind option_bind]. by apply read_exported_spec, (aliases_are_words index name_index).
  - pose proof (literal_quoted name) as Hq. by destruct (to_bytes (js_string name)).
Qed.

Lemma default_reads index :
  reads_clause (to_bytes ("export { default as " +:+ default_alias index +:+ " } from " +:+
                          js_string (synthetic_target index) +:+ ";" +:+ newline))
    (Reexport "default" (default_alias index) (synthetic_target index)).
Proof.
  split; [done|]. intros rest.
  change ("export { default as " +:+ ?x) with ("export { " +:+ ("default" +:+ (" as " +:+ x))).
  unfold read_clause. rewrite not_namespace, to_bytes_app, <- (assoc_L (++)), skip_bytes. cbn [mbind option_bind].
  rewrite to_bytes_app, <- (assoc_L (++)), decide_False by done.
  rewrite read_identifier_word by (by try apply literal_word). rewrite decide_True by done.
  apply read_exported_spec. by apply (aliases_are_words _ 0).
Qed.

Lemma namespace_reads index :
  reads (to_bytes ("import * as " +:+ namespace_alias index +:+ " from " +:+ js_string (synthetic_target index) +:+
                   ";" +:+ newline +:+ "export { " +:+ namespace_alias index +:+ " };" +:+ newline))
    [ImportNamespace (namespace_alias index) (synthetic_target index); ExportLocal (namespace_alias index)].
Proof.
  pose proof (aliases_are_words index 0) as (_ & _ & Hw).
  set (target := js_string _). set (alias := namespace_alias index) in *.
  assert (∀ a b c d e f g h, to_bytes (a +:+ b +:+ c +:+ d +:+ e +:+ newline +:+ f +:+ g +:+ h)
    = to_bytes (a +:+ b +:+ c +:+ d +:+ e +:+ newline) ++ to_bytes (f +:+ g +:+ h)) as Hsplit
    by (intros; rewrite !to_bytes_app, <- !(assoc_L (++)); done).
  rewrite Hsplit. apply (reads_app _ _ [_] [_]); apply reads_one; (split; [done|]); intros rest; unfold read_clause.
  - rewrite to_bytes_app, <- (assoc_L (++)), skip_bytes.
    rewrite to_bytes_app, <- (assoc_L (++)), read_identifier_word by done.
    change (" from " +:+ target +:+ ";" +:+ newline) with (" " +:+ ("from " +:+ target +:+ ";" +:+ newline)).
    rewrite to_bytes_app, <- (assoc_L (++)), skip_bytes. cbn [mbind option_bind]. unfold target. by rewrite read_from_spec.
  - rewrite not_namespace, to_bytes_app, <- (assoc_L (++)), skip_bytes. cbn [mbind option_bind].
    rewrite to_bytes_app, <- (assoc_L (++)), decide_False by done.
    rewrite read_identifier_word, decide_False by done. by rewrite skip_bytes.
Qed.

Lemma imap_singletons {A B} (f : nat → A → B) (l : list A) : imap f l = concat (imap (λ i x, [f i x]) l).
Proof. revert f. induction l as [|x l IH]; intros f; [done|]. cbn [imap concat app]. f_equal. apply (IH (f ∘ S)). Qed.

Lemma entry_reads index entry :
  reads (to_bytes (entry_clauses js_string index entry)) (requested index entry).
Proof.
  unfold entry_clauses, requested. destruct (selection entry) as [names| | |].
  - rewrite (imap_singletons (λ j name, Reexport name (export_alias index j) (synthetic_target index)) names).
    apply reads_imap. intros j name _. apply reads_one, named_reads.
  - apply reads_one, default_reads.
  - apply namespace_reads.
  - apply namespace_reads.
Qed.
End reader.

(** *** Aliases *)

(** An alias starts with the index of its entry. *)
Definition alias_of (index : nat) (alias : string) : Prop :=
  ∃ r, to_bytes alias = to_bytes "__il_entry_" ++ to_bytes (pretty index) ++ "_"%char :: r.

Lemma digits_split d d' r r' :
  is_digits d → is_digits d' → d ++ "_"%char :: r = d' ++ "_"%char :: r' → d = d' ∧ r = r'.
Proof.
  intros Hd. revert d'. induction Hd as [|c d Hc Hd IH]; intros [|c' d'] Hd'; cbn.
  - by intros [= ->].
  - intros [= <- _]. by apply Forall_cons in Hd' as [? _].
  - intros [= -> _]. done.
  - intros [= <- H]. apply Forall_cons in Hd' as [_ Hd']. destruct (IH d' Hd' H) as [-> ->]. done.
Qed.

Lemma alias_index i i' a : alias_of i a → alias_of i' a → i = i'.
Proof.
  intros [r Hr] [r' Hr']. rewrite Hr in Hr'. apply (inj (app _)) in Hr'.
  apply digits_split in Hr' as [Hp _]; [|apply pretty_digits..]. apply (inj to_bytes) in Hp. by apply (inj pretty) in Hp.
Qed.

Lemma requested_alias index entry a : a ∈ (requested index entry ≫= exported) → alias_of index a.
Proof.
  unfold alias_of. intros (c & Hc & Ha)%list_elem_of_bind. unfold requested in Ha.
  destruct (selection entry) as [names| | |]; [apply elem_of_lookup_imap in Ha as (j & name & -> & _)|..];
    repeat (apply elem_of_cons in Ha as [->|Ha]); try (by apply not_elem_of_nil in Ha);
    cbn in Hc; try (by apply not_elem_of_nil in Hc); apply list_elem_of_singleton in Hc as ->;
    unfold export_alias, default_alias, namespace_alias; rewrite !to_bytes_app; by eexists.
Qed.

Lemma export_alias_inj i : Inj (=) (=) (export_alias i).
Proof.
  intros j j' H. unfold export_alias in H. apply (f_equal to_bytes) in H. rewrite !to_bytes_app in H.
  by do 3 apply (inj (app _)) in H; apply (inj to_bytes), (inj pretty) in H.
Qed.

Lemma requested_nodup index entry : NoDup (requested index entry ≫= exported).
Proof.
  unfold requested. destruct (selection entry) as [names| | |]; cbn; [|by apply NoDup_singleton..].
  assert (imap (λ j name, Reexport name (export_alias index j) (synthetic_target index)) names ≫= exported
          = export_alias index <$> seq 0 (length names)) as ->.
  { generalize (export_alias index). intros f. induction names as [|name names IH] in f |- *; [done|].
    cbn. f_equal. rewrite <- fmap_S_seq, <- list_fmap_compose. apply (IH (f ∘ S)). }
  apply NoDup_fmap; [apply export_alias_inj|apply NoDup_seq].
Qed.

Lemma imap_bind_nodup {A B} (f : nat → A → list B) (P : nat → B → Prop) (l : list A) :
  (∀ i x, NoDup (f i x)) → (∀ i x b, b ∈ f i x → P i b) → (∀ i i' b, P i b → P i' b → i = i') →
  NoDup (concat (imap f l)).
Proof.
  revert f P. induction l as [|x l IH]; intros f P Hn HP Hi; [constructor|]. cbn [imap concat].
  apply NoDup_app. split; [apply Hn|split].
  - intros b Hb Hr. apply list_elem_of_In, in_concat in Hr as (bs & Hbs%list_elem_of_In & Hin%list_elem_of_In).
    apply elem_of_lookup_imap in Hbs as (i & y & -> & _).
    specialize (Hi _ _ _ (HP _ _ _ Hb) (HP _ _ _ Hin)). done.
  - apply (IH (f ∘ S) (P ∘ S)); [intros; apply Hn|intros i y b; apply HP|].
    intros i i' b H H'. by injection (Hi _ _ _ H H').
Qed.

(** C37. The virtual entry asks for what was requested and nothing else:
    read as JavaScript, whatever the names hold, it is the clauses of its
    entries in order, each from the target of its own entry, which reads back
    as the entry's index; and no two clauses export the same alias. *)
Theorem virtual_entry_reads_back `{JS : JsStrings} (entries : list BundleEntry) :
  (N.of_nat (length entries) <= u64_max)%N →
  let clauses := concat (imap requested entries) in
  read_source (length clauses) (to_bytes (virtual_entry_source js_string entries)) = Some clauses ∧
  NoDup (clauses ≫= exported) ∧
  (∀ index entry, entries !! index = Some entry → requested index entry ⊆ clauses) ∧
  (∀ index, index < length entries → target_index (synthetic_target index) = Some (Some (N.of_nat index))).
Proof.
  intros Hlen clauses. split; [|split; [|split]].
  - assert (reads (to_bytes (virtual_entry_source js_string entries)) clauses) as H
      by (apply reads_imap; intros; apply entry_reads).
    specialize (H 0 [] [] eq_refl). by rewrite Nat.add_0_r, !app_nil_r in H.
  - assert (clauses ≫= exported = concat (imap (λ i e, requested i e ≫= exported) entries)) as ->.
    { unfold clauses. clear. generalize requested. induction entries as [|e es IH]; intros f; [done|].
      cbn [imap concat]. rewrite bind_app. f_equal. apply (IH (f ∘ S)). }
    apply (imap_bind_nodup _ alias_of); [apply requested_nodup|apply requested_alias|apply alias_index].
  - intros index entry He c Hc. apply list_elem_of_In, in_concat. exists (requested index entry).
    split; apply list_elem_of_In; [|done]. apply elem_of_lookup_imap. by exists index, entry.
  - intros index Hi. apply target_index_synthetic. lia.
Qed.

(** A writer of literals that escapes quotes and backslashes. *)
Definition escape (c : ascii) : list ascii :=
  if decide (c = byte 34 ∨ c = "\"%char) then ["\"%char; c] else [c].
Fixpoint unescape (l : list ascii) : option (list ascii * list ascii) :=
  match l with
  | [] => None
  | c :: l =>
      if decide (c = byte 34) then Some ([], l)
      else if decide (c = "\"%char) then
        match l with [] => None | c :: l => '(s, rest) ← unescape l; Some (c :: s, rest) end
      else '(s, rest) ← unescape l; Some (c :: s, rest)
  end.
Definition quote_string (s : string) : string := of_bytes (byte 34 :: flat_map escape (to_bytes s) ++ [byte 34]).
Definition unquote (l : list ascii) : option (string * list ascii) :=
  match l with
  | c :: l => if decide (c = byte 34) then '(s, rest) ← unescape l; Some (of_bytes s, rest) else None
  | [] => None
  end.
Lemma unescape_escape s rest : unescape (flat_map escape s ++ byte 34 :: rest) = Some (s, rest).
Proof.
  induction s as [|c s IH]; [done|]. cbn [flat_map]. unfold escape at 1. case_decide as Hc; cbn [app unescape].
  - rewrite decide_False, decide_True by done. by rewrite IH.
  - rewrite !decide_False by naive_solver. by rewrite IH.
Qed.
#[local] Instance quoted_strings : JsStrings.
Proof.
  refine {| js_string := quote_string; read_literal := unquote |}; [done|].
  intros s rest. unfold quote_string. rewrite to_of_bytes. cbn [app unquote]. rewrite decide_True by done.
  rewrite <- (assoc_L (++)). cbn [app]. rewrite unescape_escape. cbn. by rewrite of_to_bytes.
Defined.

Definition w_entries : list BundleEntry :=
  [{| entry_path := "/p/a.js"; package_root := "/p"; selection := SelectNamed [of_bytes (to_bytes "he" ++ byte 34 :: to_bytes " } llo"); "b"] |};
   {| entry_path := "/q/b.js"; package_root := "/q"; selection := SelectNamespace |};
   {| entry_path := "/p/a.js"; package_root := "/p"; selection := SelectDefault |}].
Lemma virtual_entry_reads_back_witness :
  length (concat (imap requested w_entries)) = 5 ∧
  read_source 5 (to_bytes (virtual_entry_source js_string w_entries)) = Some (concat (imap requested w_entries)).
Proof. split; [done|]. apply (virtual_entry_reads_back w_entries). vm_compute. discriminate. Defined.
