(* ===== verification/Plugin.v ===== *)
(** * The engine plugin (engine/plugin.rs)

    The hooks a build calls on concurrent tasks and the state they share: what
    a module id names on disk, the source bytes admitted, the fingerprints of
    what was read, the assets collected, and the first failure in order of its
    words. A hook is a thread, split at its locks, atomics and disk accesses.
    The bundler (Rolldown) is a parameter: its resolver, its module types and
    what it reports of a parsed module. *)
From stdpp Require Import base list strings.
From S2P Require Import Prelude Fingerprints AssetLedger AssetReport FileSize Paths Text CssDependencies PathMaps Analyze VirtualEntry.

Set Default Proof Using "Type*".

(** ** The state of a build *)

Inductive AssetInputFailure := Absent | Unreadable.
#[export] Instance AssetInputFailure_eq_dec : EqDecision AssetInputFailure.
Proof. solve_decision. Defined.

Record BuildState := {
  b_loaded_paths : list (string * unit);
  read_time : list (string * FileFingerprint);
  canonical : list (string * string);
  total_source_bytes : N;
  limit_breach : option string;
  collected : list (string * CollectedAsset);
  failed_asset_inputs : list (string * AssetInputFailure);
  unmeasured : list (string * UncountedAsset);
  externals : list string;
  b_entry_stable_ids : list string;
}.
Definition new_build : BuildState :=
  {| b_loaded_paths := []; read_time := []; canonical := []; total_source_bytes := 0; limit_breach := None;
     collected := []; failed_asset_inputs := []; unmeasured := []; externals := []; b_entry_stable_ids := [] |}.

Definition set_loaded l s := {| b_loaded_paths := l; read_time := read_time s; canonical := canonical s;
  total_source_bytes := total_source_bytes s; limit_breach := limit_breach s; collected := collected s;
  failed_asset_inputs := failed_asset_inputs s; unmeasured := unmeasured s; externals := externals s;
  b_entry_stable_ids := b_entry_stable_ids s |}.
Definition set_read_time m s := {| b_loaded_paths := b_loaded_paths s; read_time := m; canonical := canonical s;
  total_source_bytes := total_source_bytes s; limit_breach := limit_breach s; collected := collected s;
  failed_asset_inputs := failed_asset_inputs s; unmeasured := unmeasured s; externals := externals s;
  b_entry_stable_ids := b_entry_stable_ids s |}.
Definition set_canonical m s := {| b_loaded_paths := b_loaded_paths s; read_time := read_time s; canonical := m;
  total_source_bytes := total_source_bytes s; limit_breach := limit_breach s; collected := collected s;
  failed_asset_inputs := failed_asset_inputs s; unmeasured := unmeasured s; externals := externals s;
  b_entry_stable_ids := b_entry_stable_ids s |}.
Definition set_total n s := {| b_loaded_paths := b_loaded_paths s; read_time := read_time s; canonical := canonical s;
  total_source_bytes := n; limit_breach := limit_breach s; collected := collected s;
  failed_asset_inputs := failed_asset_inputs s; unmeasured := unmeasured s; externals := externals s;
  b_entry_stable_ids := b_entry_stable_ids s |}.
Definition set_breach b s := {| b_loaded_paths := b_loaded_paths s; read_time := read_time s; canonical := canonical s;
  total_source_bytes := total_source_bytes s; limit_breach := b; collected := collected s;
  failed_asset_inputs := failed_asset_inputs s; unmeasured := unmeasured s; externals := externals s;
  b_entry_stable_ids := b_entry_stable_ids s |}.
Definition set_collected m s := {| b_loaded_paths := b_loaded_paths s; read_time := read_time s; canonical := canonical s;
  total_source_bytes := total_source_bytes s; limit_breach := limit_breach s; collected := m;
  failed_asset_inputs := failed_asset_inputs s; unmeasured := unmeasured s; externals := externals s;
  b_entry_stable_ids := b_entry_stable_ids s |}.
Definition set_failed m s := {| b_loaded_paths := b_loaded_paths s; read_time := read_time s; canonical := canonical s;
  total_source_bytes := total_source_bytes s; limit_breach := limit_breach s; collected := collected s;
  failed_asset_inputs := m; unmeasured := unmeasured s; externals := externals s;
  b_entry_stable_ids := b_entry_stable_ids s |}.
Definition set_unmeasured m s := {| b_loaded_paths := b_loaded_paths s; read_time := read_time s; canonical := canonical s;
  total_source_bytes := total_source_bytes s; limit_breach := limit_breach s; collected := collected s;
  failed_asset_inputs := failed_asset_inputs s; unmeasured := m; externals := externals s;
  b_entry_stable_ids := b_entry_stable_ids s |}.
Definition set_externals l s := {| b_loaded_paths := b_loaded_paths s; read_time := read_time s; canonical := canonical s;
  total_source_bytes := total_source_bytes s; limit_breach := limit_breach s; collected := collected s;
  failed_asset_inputs := failed_asset_inputs s; unmeasured := unmeasured s; externals := l;
  b_entry_stable_ids := b_entry_stable_ids s |}.
Definition set_entry_ids l s := {| b_loaded_paths := b_loaded_paths s; read_time := read_time s; canonical := canonical s;
  total_source_bytes := total_source_bytes s; limit_breach := limit_breach s; collected := collected s;
  failed_asset_inputs := failed_asset_inputs s; unmeasured := unmeasured s; externals := externals s;
  b_entry_stable_ids := l |}.

(** ** Recording, each operation under one lock *)

Definition record_fingerprint (path : string) (f : FileFingerprint) (s : BuildState) : BuildState :=
  set_read_time (entry_or_insert path f (read_time s)) s.

(** The smallest message stays. *)
Definition record_breach (message : string) (s : BuildState) : BuildState :=
  match limit_breach s with
  | Some recorded =>
      match String.compare recorded message with
      | Gt => set_breach (Some message) s
      | _ => s
      end
  | None => set_breach (Some message) s
  end.

(** [Unreadable] wins in either order; the first spelling of the key stays. *)
Definition note_failure (path : string) (failure : AssetInputFailure) (m : list (string * AssetInputFailure)) :=
  let m := entry_or_insert path failure m in
  match failure with Unreadable => map_insert path Unreadable m | Absent => m end.
Definition record_failed_asset_input (path : string) (failure : AssetInputFailure) (s : BuildState) : BuildState :=
  set_failed (note_failure path failure (failed_asset_inputs s)) s.

Definition record_unresolved_external (specifier : string) (s : BuildState) : BuildState :=
  set_externals (set_insert specifier (externals s)) s.

(** [canonical_path], its two locked parts, and [alias_canonical]. *)
Definition canonical_memo (path : string) (s : BuildState) : option string := path_lookup path (canonical s).
Definition remember_canonical (path real : string) (s : BuildState) : BuildState :=
  set_canonical (map_insert path real (canonical s)) s.

(** The locked part of [record_asset]: the slot's asset, and whether this one took it. *)
Definition claim_asset (asset : CollectedAsset) (s : BuildState) : BuildState * FileFingerprint * bool :=
  match path_lookup (a_path asset) (collected s) with
  | Some winner => (s, a_fingerprint winner, false)
  | None => (set_collected (entry_or_insert (a_path asset) asset (collected s)) s, a_fingerprint asset, true)
  end.

(** [BTreeMap::insert] replaces the value; [is_none] of what it replaced. *)
Definition record_unmeasured_asset (asset : UncountedAsset) (s : BuildState) : BuildState * bool :=
  (set_unmeasured (map_insert (u_path asset) asset (unmeasured s)) s,
   bool_decide (path_lookup (u_path asset) (unmeasured s) = None)).

(** ** Source bytes

    [inr] is the error's [current]; [None] is the panic of a release without a
    reservation. *)
Definition try_reserve_source_bytes (total bytes limit : N) : N + N :=
  if ((total + bytes <=? u64_max) && (total + bytes <=? limit))%N then inl (total + bytes)%N else inr total.
Definition release_source_bytes (total bytes : N) : option N :=
  if (bytes <=? total)%N then Some (total - bytes)%N else None.
Definition reconcile_source_bytes (total reserved actual limit : N) : option (N + N) :=
  match N.compare actual reserved with
  | Lt => inl <$> release_source_bytes total (reserved - actual)
  | Eq => Some (inl total)
  | Gt => Some (try_reserve_source_bytes total (actual - reserved) limit)
  end.

(** ** Specifiers *)

Definition min_option (a b : option nat) : option nat :=
  match a, b with Some a, Some b => Some (Nat.min a b) | Some a, None => Some a | None, b => b end.
Definition VERBATIM_PREFIX : list ascii := ["\"; "\"; "?"; "\"]%char.
Definition hash : ascii := "#"%char.

Definition path_portion_bytes (specifier : list ascii) : list ascii :=
  let offset := if starts_with VERBATIM_PREFIX specifier then length VERBATIM_PREFIX else 0 in
  let scanned := drop offset specifier in
  let query := find_sub ["?"%char] scanned in
  let fragment :=
    match strip_prefix [hash] scanned with
    | Some package_import => S <$> find_sub [hash] package_import
    | None => find_sub [hash] scanned
    end in
  let path_end := default (length scanned) (min_option query fragment) in
  take (offset + path_end) specifier.
Definition path_portion (specifier : string) : string := of_bytes (path_portion_bytes (to_bytes specifier)).

Definition supported_asset_observation_candidate (specifier importer : string) : option string :=
  let specifier_path := path_portion specifier in
  match classify_asset_class specifier_path with
  | None => None
  | Some _ =>
      if path_is_absolute specifier_path then Some specifier_path
      else if negb (starts_with (to_bytes "./") (to_bytes specifier) || starts_with (to_bytes "../") (to_bytes specifier))
      then Some specifier_path
      else if negb (path_is_absolute importer) then None
      else (λ parent, path_push parent specifier_path) <$> path_parent importer
  end.

Definition is_bare_subpath_specifier (specifier : string) : bool :=
  let l := to_bytes specifier in
  if starts_with (to_bytes "./") l || starts_with (to_bytes "../") l || starts_with (to_bytes "/") l ||
     starts_with [hash] l || path_is_absolute specifier then false
  else
    let required := if starts_with (to_bytes "@") l then 3 else 2 in
    required <=? length (filter (λ part, part ≠ []) (split_on slash l)).

Definition failure_kind_of (e : ErrorKind) : AssetInputFailure :=
  match e with NotFound => Absent | _ => Unreadable end.

(** ** Hooks *)

(** What the bundler gives the hooks: its module types and the types its loader
    knows by extension. *)
Class Bundler := {
  ModuleType : Type;
  Js : ModuleType;
  Empty : ModuleType;
  from_known_str : string → option ModuleType;
}.
#[global] Arguments ModuleType {_}.

Record HookLoadOutput `{Bundler} := { lo_code : string; lo_module_type : option ModuleType }.
Record HookResolveIdOutput := { ro_id : string; ro_package_json_path : option string; ro_external : option bool }.
Definition from_id (id : string) : HookResolveIdOutput :=
  {| ro_id := id; ro_package_json_path := None; ro_external := None |}.

Inductive hook_error := Io (e : ErrorKind) | LimitBreached (message : string) | UnknownTarget (specifier : string)
  | ResolverFailed (message : string).

Inductive outcome `{Bundler} :=
  | LoadReturned (r : option HookLoadOutput + hook_error)
  | ParsedReturned (r : unit + hook_error)
  | ResolveReturned (r : option (HookResolveIdOutput) + hook_error).

Record HookResolveIdArgs := { ra_specifier : string; ra_importer : option string }.

(** What [module_parsed] is told: [mi_path] is [ModuleId::as_path]. *)
Record ParsedModule := {
  mi_id : string;
  mi_path : option string;
  mi_code : option string;
  mi_is_entry : bool;
  mi_stable_id : string;
}.

(** A pre-resolved entry and its package's manifest. *)
Record PreResolvedTarget := { pt_entry_path : string; pt_manifest_path : option string }.

(** The disk, and the bundler's own resolver, as one step finds them. The resolver
    answers with an id, refuses, or fails the build. *)
Record world := {
  disk : FileSystem;
  regular_file : string → bool;
  ctx_resolve : string → string → option HookResolveIdOutput + string;
}.

(** One access to the shared state a hook still owes. *)
Inductive effect :=
  | RecordFingerprint (path : string) (f : FileFingerprint)
  | RecordBreach (message : string)
  | Release (bytes : N)
  | RecordFailed (path : string) (failure : AssetInputFailure)
  | RecordExternal (specifier : string).

Definition apply_effect (e : effect) (s : BuildState) : option BuildState :=
  match e with
  | RecordFingerprint path f => Some (record_fingerprint path f s)
  | RecordBreach message => Some (record_breach message s)
  | Release bytes => (λ n, set_total n s) <$> release_source_bytes (total_source_bytes s) bytes
  | RecordFailed path failure => Some (record_failed_asset_input path failure s)
  | RecordExternal specifier => Some (record_unresolved_external specifier s)
  end.

(** Where a [load] stands. [path] is the id or what is left of it without its
    loader suffix, [real] the canonical path. *)
Inductive load_pc :=
  | Begin
  | Remember (real : string)
  | Stat (real : string)
  | Literal (real : string) (e : ErrorKind)
  | RememberLiteral (real : string) (e : ErrorKind) (literal_real : string)
  | StatLiteral (real : string) (e : ErrorKind) (literal_real : string)
  | AliasId (path real : string) (md : Metadata)
  | Admit (path real : string) (md : Metadata)
  | Read (path real : string) (md : Metadata) (reserved : option N)
  | Reconcile (path real : string) (md : Metadata) (data : list ascii) (reserved : N)
  | Note (real : string) (md : Metadata) (data : list ascii)
  | Claim (asset : CollectedAsset)
  | ClaimUnmeasured (asset : UncountedAsset).

Inductive parsed_pc :=
  | ParsedBegin
  | Reserve (path : string)
  | PathOf (path : string)
  | RememberPath (path real : string)
  | InsertPath (real : string).

(** A hook in flight; when it has decided, the accesses it still owes, the
    source bytes that stay its own (a ghost) and what it returns. *)
Inductive hook `{Bundler} :=
  | Loading (id : string) (pc : load_pc)
  | Parsing (m : ParsedModule) (pc : parsed_pc)
  | Resolving (args : HookResolveIdArgs)
  | Ending (effects : list effect) (kept : N) (out : outcome).

Section hooks.
Context `{BU : Bundler} `{CH : ContentHash} (windows : bool) (max_graph_source_bytes : N)
        (entry_source : string) (targets : list PreResolvedTarget).

Definition module_limit_message (path : string) : string :=
  "module " +:+ path +:+ " exceeds the " +:+ pretty.pretty MAX_MODULE_SOURCE_BYTES +:+ " byte module source limit".
Definition total_limit_message : string :=
  "module graph exceeds the " +:+ pretty.pretty max_graph_source_bytes +:+ " byte total source limit".
Definition module_count_message : string :=
  "module graph exceeds the " +:+ pretty.pretty MAX_GRAPH_MODULES +:+ " internal module limit".

Definition loader_suffix_module_type (read id : string) : option ModuleType :=
  if path_eqb read id then None else extension ← path_extension read; from_known_str extension.

Definition loaded (effects : list effect) (kept : N) (r : option HookLoadOutput + hook_error) : hook :=
  Ending effects kept (LoadReturned r).
Definition stub : option HookLoadOutput + hook_error := inl (Some {| lo_code := ""; lo_module_type := Some Empty |}).

Definition read_time_fingerprint (real : string) (md : Metadata) (data : list ascii) : FileFingerprint :=
  file_fingerprint_from_read_time windows real (md_len md) (modified_millis md) (content_hash data).

(** The stat failed for good. *)
Definition unstattable (path real : string) (e : ErrorKind) : hook :=
  match classify_asset_class path with
  | Some _ => loaded [RecordFailed real (failure_kind_of e)] 0 (inr (Io e))
  | None => loaded [] 0 (inl None)
  end.

(** What the read gave, before any further access; [None] is the [expect] of a
    classified asset's reservation. *)
Definition consume (id path real : string) (md : Metadata) (data : list ascii) (reserved : option N) : option hook :=
  match classify_asset_class path with
  | Some _ =>
      reserved ← reserved;
      if (MAX_MODULE_SOURCE_BYTES <? N.of_nat (length data))%N
      then Some (loaded [RecordFingerprint real (read_time_fingerprint real md data); Release reserved;
                         RecordBreach (module_limit_message real)] 0 (inr (LimitBreached (module_limit_message real))))
      else Some (Loading id (Reconcile path real md data reserved))
  | None =>
      Some (loaded [RecordFingerprint real (read_time_fingerprint real md data)] 0
              (inl (if is_utf8 data
                    then Some {| lo_code := of_bytes data; lo_module_type := loader_suffix_module_type path id |}
                    else None)))
  end.

(** One step of [load]; [None] is a panic. *)
Definition load_step (w : world) (id : string) (pc : load_pc) (s : BuildState) : option (hook * BuildState) :=
  let stripped := path_portion id in
  let stay pc := Some (Loading id pc, s) in
  match pc with
  | Begin =>
      if decide (id = VIRTUAL_ENTRY_ID) then
        Some (loaded [] 0 (inl (Some {| lo_code := entry_source; lo_module_type := Some Js |})), s)
      else if negb (path_is_absolute stripped) then Some (loaded [] 0 (inl None), s)
      else match canonical_memo stripped s with
           | Some real => stay (Stat real)
           | None => stay (Remember (default stripped (@fs_canonicalize (disk w) stripped)))
           end
  | Remember real => Some (Loading id (Stat real), remember_canonical stripped real s)
  | Stat real =>
      match @fs_metadata (disk w) real with
      | inl md => stay (if path_eqb stripped id then Admit stripped real md else AliasId stripped real md)
      | inr e => if path_eqb id stripped then Some (unstattable stripped real e, s) else stay (Literal real e)
      end
  | Literal real e =>
      match canonical_memo id s with
      | Some literal_real => stay (StatLiteral real e literal_real)
      | None => stay (RememberLiteral real e (default id (@fs_canonicalize (disk w) id)))
      end
  | RememberLiteral real e literal_real =>
      Some (Loading id (StatLiteral real e literal_real), remember_canonical id literal_real s)
  | StatLiteral real e literal_real =>
      match @fs_metadata (disk w) literal_real with
      | inl md => stay (Admit id literal_real md)
      | inr _ => Some (unstattable stripped real e, s)
      end
  | AliasId path real md => Some (Loading id (Admit path real md), remember_canonical id real s)
  | Admit path real md =>
      if (MAX_MODULE_SOURCE_BYTES <? md_len md)%N
      then Some (loaded [RecordFingerprint real (stat_fingerprint windows real md); RecordBreach (module_limit_message real)]
                   0 (inr (LimitBreached (module_limit_message real))), s)
      else
        match classify_asset_class path with
        | Some _ =>
            match try_reserve_source_bytes (total_source_bytes s) (md_len md) max_graph_source_bytes with
            | inl n => Some (Loading id (Read path real md (Some (md_len md))), set_total n s)
            | inr _ =>
                Some (loaded [RecordBreach total_limit_message; RecordFingerprint real (stat_fingerprint windows real md)]
                        0 (inr (LimitBreached total_limit_message)), s)
            end
        | None => stay (Read path real md None)
        end
  | Read path real md reserved =>
      match @fs_read (disk w) real with
      | inl data => h ← consume id path real md data reserved; Some (h, s)
      | inr e =>
          let released := match reserved with Some n => [Release n] | None => [] end in
          Some (match classify_asset_class path with
                | Some _ => loaded (released ++ [RecordFailed real (failure_kind_of e)]) 0 (inr (Io e))
                | None => loaded released 0 (inl None)
                end, s)
      end
  | Reconcile path real md data reserved =>
      match reconcile_source_bytes (total_source_bytes s) reserved (N.of_nat (length data)) max_graph_source_bytes with
      | None => None
      | Some (inr _) =>
          Some (loaded [RecordBreach total_limit_message; RecordFingerprint real (read_time_fingerprint real md data);
                        Release reserved] 0 (inr (LimitBreached total_limit_message)), s)
      | Some (inl n) =>
          Some (match classify_asset_class path with
                | Some (Counted kind) => Loading id (Claim (from_read windows real kind md data))
                | _ => Loading id (Note real md data)
                end, set_total n s)
      end
  | Note real md data =>
      Some (Loading id (ClaimUnmeasured {| u_path := real; u_bytes := N.of_nat (length data) |}),
            record_fingerprint real (read_time_fingerprint real md data) s)
  | Claim asset =>
      let '(s, fingerprint, inserted) := claim_asset asset s in
      Some (loaded ([RecordFingerprint (a_path asset) fingerprint] ++
                    if inserted then [] else [Release (asset_len asset)]) 0 stub, s)
  | ClaimUnmeasured asset =>
      let '(s, inserted) := record_unmeasured_asset asset s in
      Some (loaded (if inserted then [] else [Release (u_bytes asset)]) (if inserted then u_bytes asset else 0) stub, s)
  end.

(** One step of [module_parsed]. *)
Definition source_bytes (m : ParsedModule) : N :=
  match mi_code m with Some code => N.of_nat (String.length code) | None => 0%N end.
Definition parsed_step (w : world) (m : ParsedModule) (pc : parsed_pc) (s : BuildState) : hook * BuildState :=
  let answer effects kept r : hook := Ending effects kept (ParsedReturned r) in
  match pc with
  | ParsedBegin =>
      let s := if mi_is_entry m then set_entry_ids (b_entry_stable_ids s ++ [mi_stable_id m]) s else s in
      (if decide (mi_id m = VIRTUAL_ENTRY_ID) then answer [] 0%N (inl ())
       else match mi_path m with
            | None => answer [] 0%N (inl ())
            | Some path =>
                if (MAX_MODULE_SOURCE_BYTES <? source_bytes m)%N
                then answer [RecordBreach (module_limit_message path)] 0%N (inr (LimitBreached (module_limit_message path)))
                else Parsing m (Reserve path)
            end, s)
  | Reserve path =>
      match try_reserve_source_bytes (total_source_bytes s) (source_bytes m) max_graph_source_bytes with
      | inl n => (Parsing m (PathOf path), set_total n s)
      | inr _ => (answer [RecordBreach total_limit_message] 0%N (inr (LimitBreached total_limit_message)), s)
      end
  | PathOf path =>
      (match canonical_memo path s with
       | Some real => Parsing m (InsertPath real)
       | None => Parsing m (RememberPath path (default path (@fs_canonicalize (disk w) path)))
       end, s)
  | RememberPath path real => (Parsing m (InsertPath real), remember_canonical path real s)
  | InsertPath real =>
      let s := set_loaded (entry_or_insert real () (b_loaded_paths s)) s in
      let module_count := N.of_nat (length (b_loaded_paths s)) in
      (if (MAX_GRAPH_MODULES <? module_count)%N
       then answer [RecordBreach module_count_message] (source_bytes m) (inr (LimitBreached module_count_message))
       else answer [] (source_bytes m) (inl ()), s)
  end.

(** [resolve_id]. *)
Definition unresolved_boundary (specifier : string) : list effect * option HookResolveIdOutput :=
  if is_bare_subpath_specifier specifier
  then ([RecordExternal specifier],
        Some {| ro_id := specifier; ro_package_json_path := None; ro_external := Some true |})
  else ([], None).

Definition resolve_failure_kind (w : world) (candidate : string) : AssetInputFailure :=
  match @fs_metadata (disk w) candidate with inr e => failure_kind_of e | inl _ => Unreadable end.

Definition resolve_id (w : world) (args : HookResolveIdArgs) :
    list effect * (option HookResolveIdOutput + hook_error) :=
  let specifier := ra_specifier args in
  let boundary := let '(effects, r) := unresolved_boundary specifier in (effects, inl r) in
  if decide (specifier = VIRTUAL_ENTRY_ID) then ([], inl (Some (from_id VIRTUAL_ENTRY_ID)))
  else match target_index specifier with
  | Some index =>
      match i ← index; targets !! N.to_nat i with
      | Some target => ([], inl (Some {| ro_id := pt_entry_path target;
                                         ro_package_json_path := pt_manifest_path target; ro_external := None |}))
      | None => ([], inr (UnknownTarget specifier))
      end
  | None =>
      match ra_importer args with
      | None => ([], inl None)
      | Some importer =>
          match supported_asset_observation_candidate specifier importer with
          | Some candidate =>
              match ctx_resolve w specifier importer with
              | inr message => ([], inr (ResolverFailed message))
              | inl (Some resolved) => ([], inl (Some resolved))
              | inl None =>
                  if negb (path_is_absolute candidate) then boundary
                  else ([RecordFailed candidate (resolve_failure_kind w candidate)], inl None)
              end
          | None =>
              if is_bare_subpath_specifier specifier then
                match ctx_resolve w specifier importer with
                | inr message => ([], inr (ResolverFailed message))
                | inl (Some resolved) => ([], inl (Some resolved))
                | inl None => boundary
                end
              else ([], inl None)
          end
      end
  end.

(** One step of a hook: [None] when it has returned, or panics. *)
Definition hook_step (w : world) (h : hook) (s : BuildState) : option (hook * BuildState) :=
  match h with
  | Loading id pc => load_step w id pc s
  | Parsing m pc => Some (parsed_step w m pc s)
  | Resolving args => let '(effects, r) := resolve_id w args in Some (Ending effects 0 (ResolveReturned r), s)
  | Ending [] _ _ => None
  | Ending (e :: effects) kept out => s ← apply_effect e s; Some (Ending effects kept out, s)
  end.

(** A build: its hooks in the order they were called, each taking its steps when
    it may. [log] is a ghost: what was recorded, in the order it was. *)
Record build := { shared : BuildState; hooks : list hook; log : list effect }.
Definition recorded (h : hook) : list effect := match h with Ending (e :: _) _ _ => [e] | _ => [] end.
Inductive action :=
  | CallLoad (id : string) | CallParsed (m : ParsedModule) | CallResolve (args : HookResolveIdArgs)
  | Step (i : nat) (w : world).
Definition call (h : hook) (b : build) : build :=
  {| shared := shared b; hooks := hooks b ++ [h]; log := log b |}.
Definition step (a : action) (b : build) : option build :=
  match a with
  | CallLoad id => Some (call (Loading id Begin) b)
  | CallParsed m => Some (call (Parsing m ParsedBegin) b)
  | CallResolve args => Some (call (Resolving args) b)
  | Step i w =>
      h ← hooks b !! i;
      '(h', s) ← hook_step w h (shared b);
      Some {| shared := s; hooks := <[i := h']> (hooks b); log := log b ++ recorded h |}
  end.
Fixpoint run (l : list action) (b : build) : option build :=
  match l with
  | [] => Some b
  | a :: l => b ← step a b; run l b
  end.
End hooks.
#[global] Arguments build {_}.
#[global] Arguments outcome {_}.

Definition new_run `{Bundler} : build := {| shared := new_build; hooks := []; log := [] |}.

(** ** The plugin of a request *)

Definition canonical_manifest_path (w : world) (package_root : string) : option string :=
  manifest ← @fs_canonicalize (disk w) (path_push package_root "package.json");
  if regular_file w manifest then Some manifest else None.
Definition for_entry (w : world) (entry : BundleEntry) : PreResolvedTarget :=
  {| pt_entry_path := default (FileSize.entry_path entry) (@fs_canonicalize (disk w) (FileSize.entry_path entry));
     pt_manifest_path := canonical_manifest_path w (FileSize.package_root entry) |}.
Definition for_request (js_string : string → string) (w : world) (entries : list BundleEntry) :
    string * list PreResolvedTarget := (virtual_entry_source js_string entries, for_entry w <$> entries).
Definition passthrough : string * list PreResolvedTarget := ("", []).

(** ** What the adapter reads when the bundler is done *)

Definition sorted_loaded_paths (s : BuildState) : list string := sort_dedup_paths (b_loaded_paths s).*1.
Definition read_time_fingerprints (s : BuildState) : list FileFingerprint * list string :=
  (stable_sort (cmp_on fp_path String.compare) (read_time s).*2,
   filter (λ p, path_lookup p (read_time s) = None) (sorted_loaded_paths s)).
Definition sorted_assets (s : BuildState) : list CollectedAsset :=
  stable_sort (cmp_on a_path path_cmp) (collected s).*2.
Definition unmeasured_assets (s : BuildState) : list UncountedAsset := (unmeasured s).*2.
Definition unresolved_externals (s : BuildState) : list string := externals s.
Definition unreadable_asset_paths (s : BuildState) : list string :=
  sort_dedup_paths (filter (λ kv, kv.2 = Unreadable) (failed_asset_inputs s)).*1.
Definition asset_input_fingerprints `{FileSystem} (windows : bool) (s : BuildState) : list FileFingerprint :=
  sort_and_dedup_fingerprints
    ((λ kv, match kv.2 with
            | Absent => absent_file_fingerprint windows kv.1
            | Unreadable => unverifiable_file_fingerprint windows kv.1
            end) <$> failed_asset_inputs s).
Definition take_breach (s : BuildState) : option string * BuildState := (limit_breach s, set_breach None s).
Definition graph_source_bytes (s : BuildState) : N := total_source_bytes s.
Definition entry_stable_ids (s : BuildState) : list string := b_entry_stable_ids s.
