(* ===== verification/PluginRuns.v ===== *)
(** * Runs of the engine plugin

    The theorems about [Plugin]: over every interleaving of its hooks, the
    source bytes admitted are accounted for, nothing panics, what was read is
    what is fingerprinted, collected or disclosed, and what a build reports is a
    function of what was observed and not of the order. *)
From stdpp Require Import base list strings.
From S2P Require Import Prelude Fingerprints AssetLedger AssetReport FileSize Paths CssDependencies PathMaps Analyze VirtualEntry Plugin.

Set Default Proof Using "Type*".

(** ** Sums *)

Definition sum_of {A} (f : A → N) (l : list A) : N := foldr (λ x n, f x + n)%N 0%N l.
#[local] Arguments sum_of : simpl never.
Lemma sum_of_cons {A} (f : A → N) x l : sum_of f (x :: l) = (f x + sum_of f l)%N.
Proof. done. Qed.
Lemma sum_of_app {A} (f : A → N) l r : sum_of f (l ++ r) = (sum_of f l + sum_of f r)%N.
Proof. induction l as [|x l IH]; cbn [app]; rewrite ?sum_of_cons; [done|]. rewrite IH. lia. Qed.
Lemma sum_of_insert {A} (f : A → N) l i x y :
  l !! i = Some x → (sum_of f (<[i := y]> l) + f x = sum_of f l + f y)%N.
Proof.
  revert i. induction l as [|z l IH]; intros [|i] H; [done|done|injection H as ->|].
  - change (<[0 := y]> (x :: l)) with (y :: l). rewrite !sum_of_cons. lia.
  - change (<[S i := y]> (z :: l)) with (z :: <[i := y]> l). rewrite !sum_of_cons. specialize (IH i H). lia.
Qed.
Lemma sum_of_lookup {A} (f : A → N) l i x : l !! i = Some x → (f x <= sum_of f l)%N.
Proof.
  revert i. induction l as [|z l IH]; intros [|i]; cbn; [done|done|intros [= ->]|intros H; specialize (IH i H)];
    rewrite sum_of_cons; lia.
Qed.

(** ** Path maps *)

Lemma claimed_sum {V} (f : V → N) k v (m : list (string * V)) :
  path_lookup k m = None →
  sum_of (λ kv, f kv.2) (entry_or_insert k v m) = (f v + sum_of (λ kv, f kv.2) m)%N.
Proof.
  induction m as [|[k' v'] m IH]; cbn [entry_or_insert path_lookup]; [done|].
  destruct (path_eqb k k') eqn:He; [done|]. intros Hn.
  destruct (path_cmp k k') eqn:Hc; [|by rewrite sum_of_cons|].
  - apply components_cmp_eq, path_eqb_spec in Hc. by rewrite He in Hc.
  - rewrite !sum_of_cons, IH by done. cbn. lia.
Qed.

Lemma entry_or_insert_Forall {V} (P : V → Prop) k v (m : list (string * V)) :
  P v → Forall (λ kv, P kv.2) m → Forall (λ kv, P kv.2) (entry_or_insert k v m).
Proof.
  intros Hv. induction 1 as [|[k' v'] m Hk Hm IH]; cbn [entry_or_insert]; [by repeat constructor|].
  destruct (path_cmp _ _); by repeat constructor.
Qed.

Section runs.
Context `{BU : Bundler} `{CH : ContentHash} (windows : bool) (max_graph_source_bytes : N)
        (entry_source : string) (targets : list PreResolvedTarget).
Implicit Types (b : build) (s : BuildState).

(** ** Bytes a hook holds *)

Definition releases (effects : list effect) : N :=
  sum_of (λ e, match e with Release n => n | _ => 0 end)%N effects.
Definition load_held (pc : load_pc) : N :=
  match pc with
  | Read _ _ _ (Some n) | Reconcile _ _ _ _ n => n
  | Note _ _ data => N.of_nat (length data)
  | Claim asset => asset_len asset
  | ClaimUnmeasured asset => u_bytes asset
  | _ => 0
  end%N.
Definition held (h : hook) : N :=
  match h with
  | Loading _ pc => load_held pc
  | Parsing m (PathOf _ | RememberPath _ _ | InsertPath _) => source_bytes m
  | Parsing _ _ | Resolving _ => 0
  | Ending effects kept _ => releases effects + kept
  end%N.
(** Bytes of the collected assets. *)
Definition asset_bytes s : N := sum_of (λ kv, asset_len kv.2) (collected s).

(** What a hook knows where it stands. *)
Definition within_file_limit (data : list ascii) : Prop := (N.of_nat (length data) <= MAX_MODULE_SOURCE_BYTES)%N.
Definition load_ok (pc : load_pc) : Prop :=
  match pc with
  | Read path _ _ reserved => is_Some (classify_asset_class path) ↔ is_Some reserved
  | Reconcile path _ _ data _ => is_Some (classify_asset_class path) ∧ within_file_limit data
  | Note _ _ data => within_file_limit data
  | Claim asset => within_file_limit (a_bytes asset)
  | ClaimUnmeasured asset => (u_bytes asset <= MAX_MODULE_SOURCE_BYTES)%N
  | _ => True
  end.
Definition hook_ok (h : hook) : Prop :=
  match h with
  | Loading _ pc => load_ok pc
  | Parsing m (Reserve _ | PathOf _ | RememberPath _ _ | InsertPath _) => (source_bytes m <= MAX_MODULE_SOURCE_BYTES)%N
  | Parsing _ _ | Resolving _ => True
  | Ending _ kept _ => (kept <= MAX_MODULE_SOURCE_BYTES)%N
  end.
Definition assets_ok s : Prop := Forall (λ kv, within_file_limit (a_bytes kv.2)) (collected s).

(** One step keeps the account, given [others] bytes held elsewhere. *)
Definition accounted s (h : hook) (others : N) : Prop :=
  total_source_bytes s = (asset_bytes s + held h + others)%N ∧ (total_source_bytes s <= max_graph_source_bytes)%N ∧
  hook_ok h ∧ assets_ok s.

Lemma reserve_spec total n limit t : try_reserve_source_bytes total n limit = inl t → t = (total + n)%N ∧ (t <= limit)%N.
Proof.
  unfold try_reserve_source_bytes. destruct (_ && _)%N eqn:E; [|done]. intros [= <-].
  apply andb_true_iff in E as [_ ?%N.leb_le]. done.
Qed.
Lemma release_spec total n t : release_source_bytes total n = Some t → (t + n = total)%N.
Proof. unfold release_source_bytes. destruct (_ <=? _)%N eqn:E; [|done]. apply N.leb_le in E. intros [= <-]. lia. Qed.
Lemma reconcile_spec total reserved actual limit t :
  (total <= limit)%N → reconcile_source_bytes total reserved actual limit = Some (inl t) →
  (t + reserved = total + actual)%N ∧ (t <= limit)%N.
Proof.
  unfold reconcile_source_bytes. intros Hl. destruct (N.compare_spec actual reserved) as [->|Hlt|Hgt].
  - intros [= <-]. lia.
  - destruct (release_source_bytes _ _) eqn:E; [|done]. intros [= <-]. apply release_spec in E. lia.
  - intros [= H]. apply reserve_spec in H. lia.
Qed.
Lemma reconcile_total total reserved actual limit :
  (reserved <= total)%N → is_Some (reconcile_source_bytes total reserved actual limit).
Proof.
  unfold reconcile_source_bytes, release_source_bytes. intros H. destruct (N.compare_spec actual reserved) as [->|Hlt|Hgt];
    [by eexists| |by eexists]. rewrite (proj2 (N.leb_le _ _)) by lia. by eexists.
Qed.

Lemma effect_keeps e es kept (out : outcome) s s' others :
  accounted s (Ending (e :: es) kept out) others → apply_effect e s = Some s' →
  accounted s' (Ending es kept out) others.
Proof.
  intros (Ht & Hl & Hk & Ha) Hs. cbn [held] in *. unfold releases in *. rewrite sum_of_cons in Ht.
  destruct e as [p f|m|n|p k|sp]; cbn [apply_effect] in Hs; simplify_eq.
  - by repeat split.
  - unfold record_breach. destruct (limit_breach s); [destruct (String.compare _ _)|]; by repeat split.
  - destruct (release_source_bytes _ _) as [t|] eqn:Hr; [|done]. cbn in Hs. simplify_eq.
    apply release_spec in Hr. repeat split; [|cbn; lia|done..]. cbn. unfold asset_bytes, releases in *. cbn. lia.
  - by repeat split.
  - by repeat split.
Qed.

Lemma claim_keeps asset s others s' f inserted :
  accounted s (Loading "" (Claim asset)) others → claim_asset asset s = (s', f, inserted) →
  total_source_bytes s' = total_source_bytes s ∧ assets_ok s' ∧
  (asset_bytes s' + (if inserted then 0 else asset_len asset) = asset_bytes s + asset_len asset)%N.
Proof.
  intros (Ht & Hl & Hk & Ha). unfold claim_asset. destruct (path_lookup _ _) eqn:E; intros [= <- <- <-].
  - by repeat split.
  - repeat split; [by apply (entry_or_insert_Forall (λ a, within_file_limit (a_bytes a)))|]. unfold asset_bytes. cbn. rewrite claimed_sum by done. lia.
Qed.

(** Steps that touch neither bytes nor assets. *)
Lemma accounted_same s s' h h' others :
  accounted s h others → total_source_bytes s' = total_source_bytes s → collected s' = collected s →
  held h' = held h → hook_ok h' → accounted s' h' others.
Proof.
  intros (Ht & Hl & _ & Ha) Hn Hc Hh Hk. unfold accounted, asset_bytes, assets_ok in *. by rewrite Hn, Hc, Hh.
Qed.

Lemma unstattable_account path real e : held (unstattable path real e) = 0%N ∧ hook_ok (unstattable path real e).
Proof. unfold unstattable. by destruct (classify_asset_class path). Qed.

Lemma consume_account id path real md data reserved :
  load_ok (Read path real md reserved) →
  ∃ h, consume windows id path real md data reserved = Some h ∧ held h = default 0%N reserved ∧ hook_ok h.
Proof.
  unfold consume. cbn [load_ok]. destruct (classify_asset_class path) as [c|] eqn:Hc; intros Hr.
  - destruct (proj1 Hr ltac:(done)) as [n ->]. cbn [mbind option_bind].
    destruct (_ <? _)%N eqn:Hn; eexists; (split; [done|]); cbn [loaded held hook_ok load_held load_ok default].
    + split; [unfold releases, sum_of; cbn; lia|lia].
    + apply N.ltb_ge in Hn. by rewrite Hc.
  - eexists. split; [done|]. destruct reserved; [|done]. by destruct (proj2 Hr ltac:(done)).
Qed.

Definition load_stepped := load_step windows max_graph_source_bytes entry_source.
Lemma find_keeps w id pc s others :
  accounted s (Loading id pc) others → load_held pc = 0%N →
  match pc with Admit _ _ _ | Read _ _ _ _ | Reconcile _ _ _ _ _ | Note _ _ _ | Claim _ | ClaimUnmeasured _ => False | _ => True end →
  ∃ h s', load_stepped w id pc s = Some (h, s') ∧ accounted s' h others.
Proof.
  intros Hacc Hz Hpc. unfold load_stepped.
  assert (∀ h s', total_source_bytes s' = total_source_bytes s → collected s' = collected s → held h = 0%N → hook_ok h →
            ∃ h1 s1, Some (h, s') = Some (h1, s1) ∧ accounted s1 h1 others) as Hq.
  { intros h s' H1 H2 H3 H4. exists h, s'. split; [done|]. apply (accounted_same s s' (Loading id pc)); [done..| |done].
    cbn [held]. by rewrite Hz. }
  destruct pc; cbn [load_step]; try done.
  - case_decide; [by apply Hq|]. destruct (negb _); [by apply Hq|]. destruct (canonical_memo _ _); by apply Hq.
  - by apply Hq.
  - destruct (fs_metadata _) as [md|e]; [destruct (path_eqb _ _); by apply Hq|].
    destruct (path_eqb _ _); [apply Hq; try done; apply unstattable_account|by apply Hq].
  - destruct (canonical_memo _ _); by apply Hq.
  - by apply Hq.
  - destruct (fs_metadata _) as [md|e']; [by apply Hq|]. apply Hq; try done; apply unstattable_account.
  - by apply Hq.
Qed.

Lemma read_keeps w id pc s others :
  accounted s (Loading id pc) others →
  match pc with Admit _ _ _ | Read _ _ _ _ => True | _ => False end →
  ∃ h s', load_stepped w id pc s = Some (h, s') ∧ accounted s' h others.
Proof.
  intros Hacc Hpc. unfold load_stepped.
  destruct pc as [| | | | | | |path real md|path real md reserved| | | |]; try done; cbn [load_step].
  - destruct (_ <? _)%N eqn:Hbig.
    { eexists _, _. split; [done|]. by apply (accounted_same s s (Loading id (Admit path real md))). }
    destruct (classify_asset_class path) eqn:Hc.
    + destruct (try_reserve_source_bytes _ _ _) as [t|t] eqn:Hr.
      * apply reserve_spec in Hr as [-> Hl]. eexists _, _. split; [done|]. destruct Hacc as (Ht & _ & Hk & Ha).
        unfold accounted, asset_bytes, assets_ok in *. cbn in *. rewrite Hc. repeat split; try done. lia.
      * eexists _, _. split; [done|]. by apply (accounted_same s s (Loading id (Admit path real md))).
    + eexists _, _. split; [done|]. apply (accounted_same s s (Loading id (Admit path real md))); try done.
      cbn. by rewrite Hc.
  - destruct (fs_read _) as [data|e].
    + pose proof Hacc as (_ & _ & Hk & _). destruct (consume_account id path real md data reserved Hk) as (h & -> & Hh & Hk').
      eexists _, _. split; [done|]. apply (accounted_same s s (Loading id (Read path real md reserved))); try done.
    + eexists _, _. split; [done|]. apply (accounted_same s s (Loading id (Read path real md reserved))); try done;
        destruct (classify_asset_class path), reserved; cbn; try done; unfold releases, sum_of; cbn; lia.
Qed.

Lemma admitted_keeps w id pc s others :
  accounted s (Loading id pc) others →
  match pc with Reconcile _ _ _ _ _ | Note _ _ _ | Claim _ | ClaimUnmeasured _ => True | _ => False end →
  ∃ h s', load_stepped w id pc s = Some (h, s') ∧ accounted s' h others.
Proof.
  intros Hacc Hpc. unfold load_stepped. pose proof Hacc as (Ht & Hl & Hk & Ha).
  destruct pc as [| | | | | | | | |path real md data reserved|real md data|asset|asset]; try done; cbn [load_step].
  - destruct (reconcile_total (total_source_bytes s) reserved (N.of_nat (length data)) max_graph_source_bytes) as [r Hr].
    { cbn in Ht. lia. }
    rewrite Hr. destruct r as [t|t].
    + apply reconcile_spec in Hr as [Hr1 Hr2]; [|done]. eexists _, _. split; [done|].
      destruct Hk as [[c Hc] Hsmall]. rewrite Hc. unfold accounted, asset_bytes, assets_ok in *. cbn in Ht.
      destruct c as [kind|]; cbn; repeat split; try done; [change (asset_len (from_read windows real kind md data)) with (N.of_nat (length data))|]; lia.
    + eexists _, _. split; [done|]. apply (accounted_same s s (Loading id (Reconcile path real md data reserved))); try done.
      cbn. unfold releases, sum_of. cbn. lia.
  - eexists _, _. split; [done|]. apply (accounted_same s _ (Loading id (Note real md data))); done.
  - destruct (claim_asset asset s) as [[s' f] inserted] eqn:Hc.
    destruct (claim_keeps asset s others s' f inserted) as (H1 & H2 & H3); [done..|].
    eexists _, _. split; [done|]. unfold accounted. rewrite H1. cbn in *. repeat split; try done; try lia.
    unfold releases, sum_of. destruct inserted; cbn; lia.
  - unfold record_unmeasured_asset. eexists _, _. split; [done|].
    apply (accounted_same s _ (Loading id (ClaimUnmeasured asset))); try done; case_bool_decide; cbn; try done; try lia;
      unfold releases, sum_of; cbn; lia.
Qed.

Lemma load_keeps w id pc s others :
  accounted s (Loading id pc) others →
  ∃ h s', load_stepped w id pc s = Some (h, s') ∧ accounted s' h others.
Proof.
  intros Hacc. destruct pc as [| | | | | | | |? ? ? []| | | |];
    first [by apply find_keeps|by apply read_keeps|by apply admitted_keeps].
Qed.

Lemma parsed_keeps w m pc s others :
  accounted s (Parsing m pc) others →
  let '(h, s') := parsed_step max_graph_source_bytes w m pc s in accounted s' h others.
Proof.
  intros Hacc. pose proof Hacc as (Ht & Hl & Hk & Ha). destruct pc as [|path|path|path real|real]; cbn [parsed_step].
  - apply (accounted_same s _ (Parsing m ParsedBegin)); [done|by destruct (mi_is_entry m)..| |];
      (case_decide; [done|]); (destruct (mi_path m); [|done]); destruct (_ <? _)%N eqn:Hs; try done.
    by apply N.ltb_ge in Hs.
  - destruct (try_reserve_source_bytes _ _ _) as [t|t] eqn:Hr.
    + apply reserve_spec in Hr as [-> Hr]. cbn in Ht. repeat split; try done. unfold asset_bytes in *. cbn. lia.
    + by apply (accounted_same s s (Parsing m (Reserve path))).
  - apply (accounted_same s s (Parsing m (PathOf path))); try done; by destruct (canonical_memo _ _).
  - by apply (accounted_same s _ (Parsing m (RememberPath path real))).
  - apply (accounted_same s _ (Parsing m (InsertPath real))); try done; by destruct (_ <? _)%N.
Qed.

Definition returned (h : hook) : Prop := match h with Ending [] _ _ => True | _ => False end.
Definition stepped := hook_step windows max_graph_source_bytes entry_source targets.

(** A hook that has not returned can take its step, and the account stays. *)
Lemma hook_keeps w h s others :
  accounted s h others → ¬ returned h →
  ∃ h' s', stepped w h s = Some (h', s') ∧ accounted s' h' others.
Proof.
  intros Hacc Hn. unfold stepped. destruct h as [id pc|m pc|args|[|e es] kept out]; cbn [hook_step].
  - by apply load_keeps.
  - pose proof (parsed_keeps w m pc s others Hacc) as Hp. destruct (parsed_step _ _ _ _ _) as [h' s']. by eexists _, _.
  - destruct (resolve_id targets w args) as [effects r] eqn:Hr. eexists _, _. split; [done|].
    apply (accounted_same s s (Resolving args)); try done.
    assert (releases effects = 0%N) as Hz; [|cbn; rewrite Hz; done].
    unfold resolve_id, unresolved_boundary in Hr. clear -Hr.
    repeat (destruct (is_bare_subpath_specifier _) || case_match || case_decide); by simplify_eq.
  - by destruct Hn.
  - assert (∃ s', apply_effect e s = Some s') as [s' Hs].
    { destruct Hacc as (Ht & _). destruct e; try by eexists. cbn in Ht. unfold releases in Ht. rewrite sum_of_cons in Ht.
      unfold apply_effect, release_source_bytes. rewrite (proj2 (N.leb_le _ _)) by lia. by eexists. }
    rewrite Hs. eexists _, _. split; [done|]. by apply (effect_keeps e es kept out s).
Qed.

(** ** What a hook records *)

Definition breach_of (out : outcome) : option string :=
  match out with
  | LoadReturned (inr (LimitBreached m)) | ParsedReturned (inr (LimitBreached m)) => Some m
  | _ => None
  end.
Definition hook_breach (h : hook) : option string := match h with Ending _ _ out => breach_of out | _ => None end.
Definition pending (h : hook) : list effect := match h with Ending effects _ _ => effects | _ => [] end.

(** What the log does not show stays what it was. *)
Definition unrecorded (s s' : BuildState) : Prop :=
  limit_breach s' = limit_breach s ∧ failed_asset_inputs s' = failed_asset_inputs s ∧ externals s' = externals s.
(** A hook owes a breach exactly when that is what it returns. *)
Definition coherent (h : hook) : Prop := ∀ m, RecordBreach m ∈ pending h ↔ hook_breach h = Some m.

Ltac coherence := intros ?; cbn; rewrite ?elem_of_cons, ?elem_of_nil; naive_solver.

(** Steps that only remember a path, or move bytes. *)
Definition quiet (s s' : BuildState) : Prop :=
  unrecorded s s' ∧ b_loaded_paths s' = b_loaded_paths s ∧ read_time s' = read_time s ∧
  collected s' = collected s ∧ unmeasured s' = unmeasured s.
Definition claims (h : hook) : option UncountedAsset :=
  match h with Loading _ (ClaimUnmeasured u) => Some u | _ => None end.
Definition quiet_step s h s' : Prop := quiet s s' ∧ coherent h ∧ claims h = None.

Lemma consume_quiet id path real md data reserved h :
  consume windows id path real md data reserved = Some h → coherent h ∧ claims h = None.
Proof.
  unfold consume. destruct (classify_asset_class path); [destruct reserved; [|done]; cbn; destruct (_ <? _)%N|];
    intros [= <-]; (split; [coherence|done]).
Qed.
Lemma unstattable_quiet s path real e : quiet_step s (unstattable path real e) s.
Proof. split; [done|]. unfold unstattable. destruct (classify_asset_class path); (split; [coherence|done]). Qed.

Lemma load_quiet w id pc s h s' :
  match pc with Note _ _ _ | Claim _ | ClaimUnmeasured _ => False | _ => True end →
  load_stepped w id pc s = Some (h, s') → quiet_step s h s'.
Proof.
  unfold load_stepped. intros Hpc H.
  destruct pc as [|real|real|real e|real e lreal|real e lreal|path real md|path real md|path real md reserved
                  |path real md data reserved|real md data|asset|asset]; try done; cbn [load_step] in H.
  9: { destruct (fs_read real) as [data|e].
       - destruct (consume windows id path real md data reserved) eqn:Hc; [|done].
         cbn in H. simplify_eq. split; [done|]. by eapply consume_quiet.
       - destruct (classify_asset_class path), reserved; simplify_eq; (split; [done|]); (split; [coherence|done]). }
  9: { destruct (reconcile_source_bytes _ _ _ _) as [[t|t]|]; [|simplify_eq; split; [done|split; [coherence|done]]|done].
       destruct (classify_asset_class path) as [[]|]; simplify_eq; (split; [done|split; [coherence|done]]). }
  all: repeat match goal with
    | H : context [if ?c then _ else _] |- _ => destruct c
    | H : context [canonical_memo ?a ?b] |- _ => destruct (canonical_memo a b)
    | H : context [fs_metadata ?a] |- _ => destruct (fs_metadata a)
    | H : context [classify_asset_class ?a] |- _ => destruct (classify_asset_class a)
    | H : context [try_reserve_source_bytes ?a ?b ?c] |- _ => destruct (try_reserve_source_bytes a b c)
    end; simplify_eq/=; try (split; [done|split; [coherence|done]]); apply unstattable_quiet.
Qed.

Lemma load_records w id pc s h s' :
  load_stepped w id pc s = Some (h, s') →
  unrecorded s s' ∧ b_loaded_paths s' = b_loaded_paths s ∧ coherent h.
Proof.
  intros H. destruct pc as [| | | | | | | | | |real md data|asset|asset];
    try (apply load_quiet in H as ((? & ? & _) & ? & _); done); cbn in H.
  - simplify_eq. split; [done|]. split; [done|coherence].
  - unfold claim_asset in H. destruct (path_lookup _ _); simplify_eq/=; (split; [done|]); (split; [done|coherence]).
  - simplify_eq. split; [done|]. split; [done|]. case_bool_decide; coherence.
Qed.

(** Modules are counted as they are recorded. *)
Definition counted (s s' : BuildState) (h : hook) : Prop :=
  b_loaded_paths s' = b_loaded_paths s ∨
  ((MAX_GRAPH_MODULES < N.of_nat (length (b_loaded_paths s')))%N → hook_breach h = Some module_count_message).

Lemma parsed_records w m pc s h s' :
  parsed_step max_graph_source_bytes w m pc s = (h, s') →
  unrecorded s s' ∧ counted s s' h ∧ coherent h ∧ claims h = None ∧
  read_time s' = read_time s ∧ collected s' = collected s ∧ unmeasured s' = unmeasured s.
Proof.
  destruct pc as [|path|path|path real|real]; cbn [parsed_step]; intros H.
  - injection H as <- <-. destruct (mi_is_entry m); (split; [done|]); (split; [by left|]);
      (case_decide; [|destruct (mi_path m); [destruct (_ <? _)%N|]]); (split; [coherence|done]).
  - destruct (try_reserve_source_bytes _ _ _); simplify_eq; (split; [done|]); (split; [by left|]); (split; [coherence|done]).
  - injection H as <- <-. split; [done|]. split; [by left|]. destruct (canonical_memo _ _); (split; [coherence|done]).
  - injection H as <- <-. split; [done|]. split; [by left|]. split; [coherence|done].
  - injection H as <- <-. split; [done|]. split.
    + right. intros Hm%N.ltb_lt. cbn in Hm |- *. by rewrite Hm.
    + destruct (_ <? _)%N; (split; [coherence|done]).
Qed.

Lemma resolve_records w args effects r :
  resolve_id targets w args = (effects, r) → coherent (Ending effects 0 (ResolveReturned r)).
Proof.
  unfold resolve_id, unresolved_boundary. intros H m. cbn. split; [|done]. clear - H. intros Hm. exfalso.
  revert H. repeat (destruct (is_bare_subpath_specifier _) || case_match || case_decide); intros [= <- <-];
    rewrite ?elem_of_cons, ?elem_of_nil in Hm; naive_solver.
Qed.

(** A step either works off what the hook owes, or decides. *)
Lemma step_records w h s h' s' :
  stepped w h s = Some (h', s') →
  match h with
  | Ending (e :: es) kept out => h' = Ending es kept out ∧ apply_effect e s = Some s'
  | _ => recorded h = [] ∧ hook_breach h = None ∧ pending h = [] ∧ unrecorded s s' ∧ coherent h' ∧ counted s s' h'
  end.
Proof.
  unfold stepped. destruct h as [id pc|m pc|args|[|e es] kept out]; cbn [hook_step].
  - intros (H1 & H2 & H3)%load_records. do 4 (split; [done|]). split; [done|by left].
  - intros [= (H1 & H2 & H3 & _)%parsed_records]. do 4 (split; [done|]). done.
  - destruct (resolve_id targets w args) as [effects r] eqn:Hr. intros [= <- <-]. apply resolve_records in Hr.
    do 4 (split; [done|]). split; [done|by left].
  - done.
  - destruct (apply_effect e s) as [s1|]; [|done]. by intros [= <- <-].
Qed.

(** ** What a build reports, from what was recorded *)

Definition breach_messages (l : list effect) : list string :=
  omap (λ e, match e with RecordBreach m => Some m | _ => None end) l.
Definition external_names (l : list effect) : list string :=
  omap (λ e, match e with RecordExternal x => Some x | _ => None end) l.
Definition failures_at (p : string) (l : list effect) : list AssetInputFailure :=
  omap (λ e, match e with RecordFailed q k => if path_eqb p q then Some k else None | _ => None end) l.
(** An unreadable observation outranks an absence. *)
Definition observed_failure (p : string) (l : list effect) : option AssetInputFailure :=
  if decide (Unreadable ∈ failures_at p l) then Some Unreadable
  else if decide (Absent ∈ failures_at p l) then Some Absent else None.
Definition smallest (m : option string) (l : list string) : Prop :=
  match m with
  | None => l = []
  | Some b => b ∈ l ∧ ∀ x, x ∈ l → cmp_le String.compare b x
  end.

Record reported (l : list effect) (s : BuildState) : Prop := {
  rp_breach : smallest (limit_breach s) (breach_messages l);
  rp_ordered : ordered (failed_asset_inputs s);
  rp_failed : ∀ p, path_lookup p (failed_asset_inputs s) = observed_failure p l;
  rp_externals : externals s = dedup (sort String.compare (external_names l));
}.

Lemma reported_new : reported [] new_build.
Proof. split; [done|constructor|done|done]. Qed.

Lemma reported_unrecorded l s s' : unrecorded s s' → reported l s → reported l s'.
Proof. intros (H1 & H2 & H3) [Hb Ho Hf He]. split; rewrite ?H1, ?H2, ?H3; done. Qed.

Lemma smallest_snoc m s l :
  smallest (limit_breach s) l → smallest (limit_breach (record_breach m s)) (l ++ [m]).
Proof.
  unfold record_breach. destruct (limit_breach s) as [b|] eqn:Hb; cbn.
  - intros [Hin Hle]. destruct (String.compare b m) eqn:Hc; cbn; rewrite ?Hb; cbn;
      (split; [apply elem_of_app; by (left + (right; left))|]);
      intros x [Hx| ->%list_elem_of_singleton]%elem_of_app; try by apply Hle.
    1-2: unfold cmp_le; by rewrite Hc.
    + transitivity b; [|by apply Hle]. unfold cmp_le. by rewrite (cmp_opp (cmp:=String.compare) b m), Hc.
    + unfold cmp_le. by rewrite (cmp_refl String.compare).
  - intros ->. cbn. split; [by left|]. intros x ->%list_elem_of_singleton. unfold cmp_le. by rewrite (cmp_refl String.compare).
Qed.

Lemma failures_snoc p q k l :
  failures_at p (l ++ [RecordFailed q k]) = failures_at p l ++ (if path_eqb p q then [k] else []).
Proof. unfold failures_at. rewrite omap_app. cbn. by destruct (path_eqb p q). Qed.

Lemma observed_snoc p q k l :
  observed_failure p (l ++ [RecordFailed q k])
  = if path_eqb p q
    then match k with
         | Unreadable => Some Unreadable
         | Absent => match observed_failure p l with Some x => Some x | None => Some Absent end
         end
    else observed_failure p l.
Proof.
  unfold observed_failure. rewrite failures_snoc. destruct (path_eqb p q); [|by rewrite app_nil_r].
  destruct k.
  - destruct (decide (Unreadable ∈ failures_at p l)) as [Hu|Hu].
    + rewrite decide_True; [done|]. apply elem_of_app. by left.
    + rewrite decide_False by (rewrite elem_of_app, list_elem_of_singleton; naive_solver).
      rewrite decide_True by (apply elem_of_app; right; by left). by case_decide.
  - rewrite decide_True; [done|]. apply elem_of_app. right. by left.
Qed.

Lemma note_failure_spec p q k m : ordered m →
  ordered (note_failure q k m) ∧
  path_lookup p (note_failure q k m)
  = if path_eqb p q
    then match k with
         | Unreadable => Some Unreadable
         | Absent => match path_lookup p m with Some x => Some x | None => Some Absent end
         end
    else path_lookup p m.
Proof.
  intros Hm. unfold note_failure. pose proof (entry_ordered q k m Hm) as He. destruct k.
  - split; [done|]. rewrite lookup_entry by done. by destruct (path_lookup p m), (path_eqb p q).
  - split; [by apply insert_ordered|]. rewrite lookup_map_insert by done. destruct (path_eqb p q) eqn:Hp; [done|].
    rewrite lookup_entry, Hp by done. by destruct (path_lookup p m).
Qed.

Lemma reported_effect e s s' l :
  apply_effect e s = Some s' → reported l s → reported (l ++ [e]) s'.
Proof.
  intros Ha [Hb Ho Hf He].
  assert (∀ e, (∀ m, e ≠ RecordBreach m) → breach_messages (l ++ [e]) = breach_messages l) as Kb
    by (intros [] H; unfold breach_messages; rewrite omap_app; cbn; rewrite ?app_nil_r; naive_solver).
  assert (∀ e, (∀ q k, e ≠ RecordFailed q k) → ∀ p, observed_failure p (l ++ [e]) = observed_failure p l) as Kf
    by (intros [] H p; unfold observed_failure, failures_at; rewrite omap_app; cbn; rewrite ?app_nil_r; naive_solver).
  assert (∀ e, (∀ x, e ≠ RecordExternal x) → external_names (l ++ [e]) = external_names l) as Ke
    by (intros [] H; unfold external_names; rewrite omap_app; cbn; rewrite ?app_nil_r; naive_solver).
  destruct e as [p f|m|n|p k|x]; cbn in Ha.
  - simplify_eq. split; cbn; rewrite ?Kb, ?Ke by done; try done. intros q. by rewrite Kf.
  - simplify_eq. split; rewrite ?Ke by done.
    + unfold breach_messages. rewrite omap_app. cbn. by apply smallest_snoc.
    + unfold record_breach. destruct (limit_breach s); [destruct (String.compare _ _)|]; done.
    + intros q. rewrite Kf by done. rewrite <- Hf. unfold record_breach.
      destruct (limit_breach s); [destruct (String.compare _ _)|]; done.
    + rewrite <- He. unfold record_breach. destruct (limit_breach s); [destruct (String.compare _ _)|]; done.
  - destruct (release_source_bytes _ _); [|done]. simplify_eq/=. split; cbn; rewrite ?Kb, ?Ke by done; try done.
    intros q. by rewrite Kf.
  - simplify_eq. split; cbn; rewrite ?Kb, ?Ke by done; try done.
    + by apply note_failure_spec.
    + intros q. rewrite observed_snoc, (proj2 (note_failure_spec q p k _ Ho)), Hf. done.
  - simplify_eq. split; rewrite ?Kb by done; try done.
    + intros q. by rewrite Kf.
    + change (set_insert x (externals s) = dedup (sort String.compare (external_names (l ++ [RecordExternal x])))).
      unfold set_insert, external_names in *. rewrite He, omap_app. apply sort_dedup_canonical; [apply _|].
      intros y. cbn [omap list_omap]. rewrite elem_of_cons, elem_of_dedup, elem_of_sort, elem_of_app, list_elem_of_singleton.
      naive_solver.
Qed.

(** The report depends on what was recorded, in whatever order. *)
Lemma reported_perm l l' s s' :
  l ≡ₚ l' → reported l s → reported l' s' →
  limit_breach s = limit_breach s' ∧ externals s = externals s' ∧
  ∀ p, path_lookup p (failed_asset_inputs s) = path_lookup p (failed_asset_inputs s').
Proof.
  intros Hp [Hb Ho Hf He] [Hb' Ho' Hf' He']. split; [|split].
  - assert (breach_messages l ≡ₚ breach_messages l') as Hm by (unfold breach_messages; by rewrite Hp).
    destruct (limit_breach s) as [b|], (limit_breach s') as [b'|]; cbn in *; [| | |done].
    + destruct Hb as [Hi Hle], Hb' as [Hi' Hle']. f_equal.
      apply (anti_symm (cmp_le String.compare)); [apply Hle|apply Hle']; by rewrite Hm || rewrite <- Hm.
    + rewrite Hb' in Hm. apply Permutation_nil_r in Hm. rewrite Hm in Hb. by destruct Hb as [?%not_elem_of_nil _].
    + rewrite Hb in Hm. apply Permutation_nil in Hm. rewrite Hm in Hb'. by destruct Hb' as [?%not_elem_of_nil _].
  - rewrite He, He'. apply sort_dedup_canonical; [apply _|]. intros x. unfold external_names. by rewrite Hp.
  - intros p. rewrite Hf, Hf'. unfold observed_failure.
    assert (∀ k, k ∈ failures_at p l ↔ k ∈ failures_at p l') as Hk by (intros k; unfold failures_at; by rewrite Hp).
    destruct (decide (Unreadable ∈ failures_at p l)) as [Hu|Hu]; [by rewrite (decide_True (P := Unreadable ∈ failures_at p l')) by by apply Hk|].
    rewrite (decide_False (P := Unreadable ∈ failures_at p l')) by (by rewrite <- Hk).
    destruct (decide (Absent ∈ failures_at p l)) as [Ha|Ha]; [by rewrite decide_True by by apply Hk|].
    by rewrite decide_False by (by rewrite <- Hk).
Qed.

(** ** Builds *)

Definition build_step := step windows max_graph_source_bytes entry_source targets.
Definition build_run := run windows max_graph_source_bytes entry_source targets.

Record build_ok (b : build) : Prop := {
  bo_total : total_source_bytes (shared b) = (asset_bytes (shared b) + sum_of held (hooks b))%N;
  bo_limit : (total_source_bytes (shared b) <= max_graph_source_bytes)%N;
  bo_hooks : Forall hook_ok (hooks b);
  bo_assets : assets_ok (shared b);
  bo_reported : reported (log b) (shared b);
  bo_coherent : ∀ h m, h ∈ hooks b → RecordBreach m ∈ pending h → hook_breach h = Some m;
  bo_owed : ∀ h m, h ∈ hooks b → hook_breach h = Some m → RecordBreach m ∈ pending h ∨ RecordBreach m ∈ log b;
  bo_logged : ∀ m, RecordBreach m ∈ log b → ∃ h, h ∈ hooks b ∧ hook_breach h = Some m;
  bo_modules : (MAX_GRAPH_MODULES < N.of_nat (length (b_loaded_paths (shared b))))%N →
               ∃ h, h ∈ hooks b ∧ hook_breach h = Some module_count_message;
}.

Lemma new_run_ok : build_ok new_run.
Proof.
  split; cbn; try done; try lia.
  - constructor.
  - apply reported_new.
  - by intros h m ?%not_elem_of_nil.
  - by intros h m ?%not_elem_of_nil.
  - by intros m ?%not_elem_of_nil.
Qed.

Lemma call_ok h b :
  held h = 0%N → hook_ok h → pending h = [] → hook_breach h = None → build_ok b → build_ok (call h b).
Proof.
  intros Hh Hk Hp Hb [Ht Hl Hho Ha Hr Hc Ho Hg Hm]. split; cbn; try done.
  - rewrite sum_of_app, sum_of_cons, Ht, Hh. unfold sum_of at 3. cbn. lia.
  - by apply Forall_app; split; [|constructor].
  - intros h' m [?| ->%list_elem_of_singleton]%elem_of_app; [by apply Hc|]. rewrite Hp. by intros ?%not_elem_of_nil.
  - intros h' m [?| ->%list_elem_of_singleton]%elem_of_app; [by apply Ho|]. by rewrite Hb.
  - intros m (h' & ? & ?)%Hg. exists h'. split; [|done]. apply elem_of_app. by left.
  - intros (h' & ? & ?)%Hm. exists h'. split; [|done]. apply elem_of_app. by left.
Qed.

Lemma elem_insert_new {A} (l : list A) i (x y z : A) : l !! i = Some x → z ∈ <[i := y]> l → z = y ∨ z ∈ l.
Proof.
  intros Hi (j & Hj)%list_elem_of_lookup. destruct (decide (i = j)) as [->|Hne].
  - rewrite list_lookup_insert_eq in Hj by (by eapply lookup_lt_Some). left. congruence.
  - rewrite list_lookup_insert_ne in Hj by done. right. by eapply list_elem_of_lookup_2.
Qed.
Lemma elem_insert_here {A} (l : list A) i (x y : A) : l !! i = Some x → y ∈ <[i := y]> l.
Proof.
  intros Hi. apply (list_elem_of_lookup_2 _ i). apply list_lookup_insert_eq. by eapply lookup_lt_Some.
Qed.
Lemma elem_insert_old {A} (l : list A) i (x y z : A) : l !! i = Some x → z ∈ l → z = x ∨ z ∈ <[i := y]> l.
Proof.
  intros Hi (j & Hj)%list_elem_of_lookup. destruct (decide (i = j)) as [->|Hne]; [left; congruence|]. right.
  apply (list_elem_of_lookup_2 _ j). by rewrite list_lookup_insert_ne.
Qed.

(** A hook that has failed on a limit stays so. *)
Lemma breach_stays w h s h' s' m : stepped w h s = Some (h', s') → hook_breach h = Some m → hook_breach h' = Some m.
Proof.
  intros Hs%step_records Hb. destruct h as [| | |[|e es] kept out]; naive_solver.
Qed.
Lemma breached_stays w i b h h' s' m :
  hooks b !! i = Some h → stepped w h (shared b) = Some (h', s') →
  (∃ k, k ∈ hooks b ∧ hook_breach k = Some m) → ∃ k, k ∈ <[i := h']> (hooks b) ∧ hook_breach k = Some m.
Proof.
  intros Hi Hs (k & Hk & Hb). destruct (elem_insert_old _ i h h' k Hi Hk) as [->|Hin]; [|by exists k].
  exists h'. split; [by eapply elem_insert_here|by eapply breach_stays].
Qed.

Lemma effect_loaded e s s' : apply_effect e s = Some s' → b_loaded_paths s' = b_loaded_paths s.
Proof.
  destruct e; cbn; [by intros [= <-]| |destruct (release_source_bytes _ _); by intros [= <-]|by intros [= <-]|by intros [= <-]].
  intros [= <-]. unfold record_breach. by destruct (limit_breach s); [destruct (String.compare _ _)|].
Qed.

Lemma build_accounted i b h :
  build_ok b → hooks b !! i = Some h → ∃ others, sum_of held (hooks b) = (held h + others)%N ∧ accounted (shared b) h others.
Proof.
  intros [Ht Hl Hho Ha _ _ _ _ _] Hi. pose proof (sum_of_lookup held _ _ _ Hi) as Hle.
  exists (sum_of held (hooks b) - held h)%N. split; [lia|]. split; [lia|]. split; [done|].
  split; [|done]. rewrite Forall_forall in Hho. apply Hho. by eapply list_elem_of_lookup_2.
Qed.

Lemma hook_step_ok w i b h h' s' :
  build_ok b → hooks b !! i = Some h → stepped w h (shared b) = Some (h', s') →
  build_ok {| shared := s'; hooks := <[i := h']> (hooks b); log := log b ++ recorded h |}.
Proof.
  intros Hok Hi Hs. destruct (build_accounted i b h Hok Hi) as (others & Hsum & Hacc).
  destruct Hok as [Ht Hl Hho Ha Hr Hc Ho Hg Hm].
  assert (¬ returned h) as Hn by (intros Hret; unfold stepped in Hs; by destruct h as [| | |[] ? ?]).
  destruct (hook_keeps w h (shared b) others Hacc Hn) as (h1 & s1 & Hs1 & Hacc'). simplify_eq.
  destruct Hacc' as (Ht' & Hl' & Hk' & Ha').
  pose proof (sum_of_insert held (hooks b) i h h' Hi) as Hins.
  pose proof (step_records w h (shared b) h' s' Hs) as Hrec.
  assert (h ∈ hooks b) as Hin by (by eapply list_elem_of_lookup_2).
  split; cbn; try done.
  - lia.
  - apply Forall_insert; [done|by intros].
  - destruct h as [id pc|m pc|args|[|e es] kept out]; [..|done|]; cbn [recorded].
    1-3: rewrite app_nil_r; by eapply reported_unrecorded; [apply Hrec|].
    destruct Hrec as [_ He]. by eapply reported_effect.
  - intros k m Hk Hp. destruct (elem_insert_new _ i h h' k Hi Hk) as [->|?]; [|by apply Hc].
    destruct h as [| | |[|e es] kept out]; [..|done|]; [by apply Hrec..|]. destruct Hrec as [-> _].
    apply (Hc _ m Hin). by right.
  - intros k m Hk Hb. destruct (elem_insert_new _ i h h' k Hi Hk) as [->|Hk'0].
    + destruct h as [| | |[|e es] kept out]; [..|done|]; [left; by apply Hrec..|]. destruct Hrec as [-> _].
      cbn in Hb. destruct (Ho _ m Hin Hb) as [[<-|?]%elem_of_cons|?]; [|by left|]; right; cbn [recorded]; apply elem_of_app;
        [right; by left|by left].
    + destruct (Ho k m Hk'0 Hb) as [?|?]; [by left|]. right. apply elem_of_app. by left.
  - intros m [Hl0|Hl0]%elem_of_app; eapply breached_stays; try done; [by apply Hg|]. exists h. split; [done|].
    destruct h as [| | |[|e es] kept out]; [by apply not_elem_of_nil in Hl0..|].
    apply list_elem_of_singleton in Hl0 as <-. apply (Hc _ m Hin). by left.
  - intros Hmax. assert (counted (shared b) s' h') as [He|Hn'].
    { destruct h as [| | |[|e es] kept out]; [..|done|]; [apply Hrec..|]. left. destruct Hrec as [_ He]. by eapply effect_loaded. }
    + rewrite He in Hmax. eapply breached_stays; [done..|]. by apply Hm.
    + exists h'. split; [by eapply elem_insert_here|by apply Hn'].
Qed.

Lemma build_step_ok a b b' : build_ok b → build_step a b = Some b' → build_ok b'.
Proof.
  intros Hok. unfold build_step. destruct a as [id|m|args|i w]; cbn [step].
  - intros [= <-]. by apply call_ok.
  - intros [= <-]. by apply call_ok.
  - intros [= <-]. by apply call_ok.
  - destruct (hooks b !! i) as [h|] eqn:Hi; [|done]. cbn. change (hook_step _ _ _ _ w h (shared b)) with (stepped w h (shared b)).
    destruct (stepped w h (shared b)) as [[h' s']|] eqn:Hs; [|done]. intros [= <-]. by apply (hook_step_ok w i b h h' s').
Qed.

Lemma build_run_ok l b b' : build_ok b → build_run l b = Some b' → build_ok b'.
Proof.
  unfold build_run. revert b. induction l as [|a l IH]; intros b Hok; cbn [run]; [by intros [= <-]|].
  destruct (step _ _ _ _ a b) as [b1|] eqn:Hs; [|done]. cbn. by apply IH, (build_step_ok a b).
Qed.

(** ** Fingerprints of what was collected *)

Definition owes (h : hook) (p : string) : Prop := ∃ f, RecordFingerprint p f ∈ pending h.
Record prints_ok (b : build) : Prop := {
  po_assets : ∀ a, a ∈ (collected (shared b)).*2 →
              has (read_time (shared b)) (a_path a) ∨ ∃ h, h ∈ hooks b ∧ owes h (a_path a);
  po_unmeasured : ∀ u, u ∈ (unmeasured (shared b)).*2 → has (read_time (shared b)) (u_path u);
  po_claims : ∀ h u, h ∈ hooks b → claims h = Some u → has (read_time (shared b)) (u_path u);
}.

Lemma entry_values {V} k (v x : V) m : x ∈ (entry_or_insert k v m).*2 → x = v ∨ x ∈ m.*2.
Proof.
  induction m as [|[k' v'] m IH]; cbn [entry_or_insert]; [by intros ->%list_elem_of_singleton; left|].
  destruct (path_cmp k k'); cbn; [by right|intros [->|?]%elem_of_cons; [by left|by right]|].
  rewrite !elem_of_cons. naive_solver.
Qed.
Lemma insert_values {V} k (v x : V) m : x ∈ (map_insert k v m).*2 → x = v ∨ x ∈ m.*2.
Proof.
  induction m as [|[k' v'] m IH]; cbn [map_insert]; [by intros ->%list_elem_of_singleton; left|].
  destruct (path_cmp k k'); cbn; rewrite ?elem_of_cons; naive_solver.
Qed.

(** What the step did to the fingerprints and to what they are owed for. *)
Record prints_step (s s' : BuildState) (h h' : hook) : Prop := {
  ps_kept : ∀ p, has (read_time s) p → has (read_time s') p;
  ps_owed : ∀ p, owes h p → owes h' p ∨ has (read_time s') p;
  ps_assets : ∀ a, a ∈ (collected s').*2 → a ∈ (collected s).*2 ∨ owes h' (a_path a);
  ps_unmeasured : ∀ u, u ∈ (unmeasured s').*2 → u ∈ (unmeasured s).*2 ∨ claims h = Some u;
  ps_claims : ∀ u, claims h' = Some u → has (read_time s') (u_path u);
}.

Lemma quiet_prints s s' h h' :
  read_time s' = read_time s → collected s' = collected s →
  unmeasured s' = unmeasured s → claims h' = None → (∀ p, ¬ owes h p) → prints_step s s' h h'.
Proof.
  intros H1 H2 H3 H4 H5. split; rewrite ?H1, ?H2, ?H3, ?H4; try done; [naive_solver|by left|by left].
Qed.

Lemma effect_prints e es kept out s s' :
  apply_effect e s = Some s' → prints_step s s' (Ending (e :: es) kept out) (Ending es kept out).
Proof.
  intros He.
  assert (collected s' = collected s ∧ unmeasured s' = unmeasured s) as [H2 H3].
  { destruct e; cbn in He; [by simplify_eq| |destruct (release_source_bytes _ _); by simplify_eq/=|by simplify_eq..].
    simplify_eq. unfold record_breach. by destruct (limit_breach s); [destruct (String.compare _ _)|]. }
  assert (∀ p, has (read_time s) p ∨ (∃ f, e = RecordFingerprint p f) → has (read_time s') p) as Hhas.
  { intros p Hp. destruct e as [q f|m|n|q k|x]; cbn in He.
    - simplify_eq. cbn. apply entry_or_insert_has. destruct Hp as [?|[f' [= -> _]]]; [by left|by right].
    - destruct Hp as [Hp|[? [=]]]. simplify_eq. unfold record_breach. by destruct (limit_breach s); [destruct (String.compare _ _)|].
    - destruct Hp as [Hp|[? [=]]]. destruct (release_source_bytes _ _); by simplify_eq/=.
    - destruct Hp as [Hp|[? [=]]]. by simplify_eq.
    - destruct Hp as [Hp|[? [=]]]. by simplify_eq. }
  split; rewrite ?H2, ?H3; try done; [naive_solver| |by left|by left].
  intros p [f [Hf|Hf]%elem_of_cons]; [right; apply Hhas; right; by exists f|left; by exists f].
Qed.

Lemma undecided_owes h p : pending h = [] → ¬ owes h p.
Proof. intros Hp [f Hf]. rewrite Hp in Hf. by apply not_elem_of_nil in Hf. Qed.

Lemma step_prints w h s h' s' :
  (∀ u, claims h = Some u → has (read_time s) (u_path u)) →
  stepped w h s = Some (h', s') → prints_step s s' h h'.
Proof.
  intros Hclaim Hs. pose proof (step_records w h s h' s' Hs) as Hrec.
  destruct h as [id pc|m pc|args|[|e es] kept out]; [| | |done|destruct Hrec as [-> He]; by apply effect_prints].
  - change (load_stepped w id pc s = Some (h', s')) in Hs.
    destruct pc as [| | | | | | | | | |real md data|asset|asset];
      try (apply load_quiet in Hs as ((_ & ? & ? & ? & ?) & _ & ?); [|done]; apply quiet_prints;
           [done..|intros p; by apply undecided_owes]).
    + cbn in Hs. simplify_eq. split; cbn; try done.
      * intros p Hp. apply entry_or_insert_has. by left.
      * intros p Hp. by apply undecided_owes in Hp.
      * by left.
      * by left.
      * intros u [= <-]. apply entry_or_insert_has. by right.
    + cbn in Hs. unfold claim_asset in Hs. split.
      1: by destruct (path_lookup _ _); simplify_eq/=.
      1: by intros p Hp; apply undecided_owes in Hp.
      all: destruct (path_lookup _ _) eqn:Hl; simplify_eq/=; try done; try (by left).
      intros a [->|?]%entry_values; [right; eexists; by left|by left].
    + cbn in Hs. simplify_eq. split; cbn; try done.
      * by intros p Hp; apply undecided_owes in Hp.
      * by left.
      * intros u [->|?]%insert_values; [by right|by left].
  - unfold stepped in Hs. cbn [hook_step] in Hs. injection Hs as (_ & _ & _ & Hc & H1 & H2 & H3)%parsed_records.
    apply quiet_prints; try done. intros p. by apply undecided_owes.
  - unfold stepped in Hs. cbn [hook_step] in Hs. destruct (resolve_id targets w args). simplify_eq.
    apply quiet_prints; try done. intros p. by apply undecided_owes.
Qed.

Lemma build_step_prints a b b' : prints_ok b → build_step a b = Some b' → prints_ok b'.
Proof.
  assert (∀ h, claims h = None → prints_ok b → prints_ok (call h b)) as Hcall.
  { intros h Hc [Ha Hu Hcl]. split; cbn; [|done|].
    - intros a0 [?|(k & ? & ?)]%Ha; [by left|]. right. exists k. split; [|done]. apply elem_of_app. by left.
    - intros k u [?| ->%list_elem_of_singleton]%elem_of_app; [by apply Hcl|]. by rewrite Hc. }
  intros Hok. unfold build_step. destruct a as [id|m|args|i w]; cbn [step]; try (intros [= <-]; by apply Hcall).
  destruct (hooks b !! i) as [h|] eqn:Hi; [|done]. cbn. change (hook_step _ _ _ _ w h (shared b)) with (stepped w h (shared b)).
  destruct (stepped w h (shared b)) as [[h' s']|] eqn:Hs; [|done]. intros [= <-].
  destruct Hok as [Ha Hu Hcl]. assert (h ∈ hooks b) as Hin by (by eapply list_elem_of_lookup_2).
  apply step_prints in Hs as [Hk Ho Has Hun Hc]; [|intros u; by apply Hcl]. split; cbn.
  - intros a [Hold|Hnew]%Has; [|right; exists h'; split; [by eapply elem_insert_here|done]].
    destruct (Ha a Hold) as [?|(k & Hkin & Hko)]; [left; by apply Hk|].
    destruct (elem_insert_old _ i h h' k Hi Hkin) as [->|?]; [|right; by exists k].
    destruct (Ho _ Hko) as [?|?]; [|by left]. right. exists h'. split; [by eapply elem_insert_here|done].
  - intros u [Hold|Hnew]%Hun; apply Hk; [by apply Hu|by apply (Hcl h)].
  - intros k u Hkin Hku. destruct (elem_insert_new _ i h h' k Hi Hkin) as [->|?]; [by apply Hc|]. apply Hk. by apply (Hcl k).
Qed.

Lemma build_run_prints l b b' : prints_ok b → build_run l b = Some b' → prints_ok b'.
Proof.
  unfold build_run. revert b. induction l as [|a l IH]; intros b Hok; cbn [run]; [by intros [= <-]|].
  destruct (step _ _ _ _ a b) as [b1|] eqn:Hs; [|done]. cbn. by apply IH, (build_step_prints a b).
Qed.

Lemma unreadable_reported s l :
  reported l s → unreadable_asset_paths s ≠ [] ↔ ∃ p, RecordFailed p Unreadable ∈ l.
Proof.
  intros [_ Ho Hf _]. split.
  - intros Hne. destruct (unreadable_asset_paths s) as [|p ps] eqn:E; [done|].
    assert (p ∈ unreadable_asset_paths s) as Hp by (rewrite E; by left). unfold unreadable_asset_paths, sort_dedup_paths in Hp.
    rewrite elem_of_dedup in Hp. unfold sort in Hp. rewrite merge_sort_Permutation in Hp.
    apply list_elem_of_fmap in Hp as ([q k] & -> & [Hk Hin]%list_elem_of_filter). cbn in Hk. subst k.
    apply lookup_elem in Hin; [|done]. cbn in Hin. rewrite Hf in Hin. unfold observed_failure in Hin.
    destruct (decide (Unreadable ∈ failures_at q l)) as [Hu|]; [|by case_decide].
    apply list_elem_of_omap in Hu as ([| | |r k|] & Hl & Hk); cbn in Hk; try done.
    destruct (path_eqb q r); simplify_eq. by exists r.
  - intros [p Hp] Hnil.
    assert (path_lookup p (failed_asset_inputs s) = Some Unreadable) as Hl.
    { rewrite Hf. unfold observed_failure. rewrite decide_True; [done|]. apply list_elem_of_omap.
      exists (RecordFailed p Unreadable). split; [done|]. by rewrite (proj2 (path_eqb_spec _ _) eq_refl). }
    apply elem_lookup in Hl as (k & Hk & _).
    assert (k ∈ unreadable_asset_paths s) as Hin; [|rewrite Hnil in Hin; by apply not_elem_of_nil in Hin].
    unfold unreadable_asset_paths, sort_dedup_paths. rewrite elem_of_dedup. unfold sort. rewrite merge_sort_Permutation.
    apply list_elem_of_fmap. exists (k, Unreadable). split; [done|]. by apply list_elem_of_filter.
Qed.

Lemma has_lookup {V} (m : list (string * V)) p : has m p → is_Some (path_lookup p m).
Proof.
  intros ([k v] & Hin & Hk). induction m as [|[k' v'] m IH]; [by apply not_elem_of_nil in Hin|]. cbn.
  destruct (path_eqb p k') eqn:E; [by eexists|]. apply elem_of_cons in Hin as [[= <- <-]|Hin]; [|by apply IH].
  assert (path_eqb p k = true) by (by apply path_eqb_spec). congruence.
Qed.

Lemma unreturned_steps b i w h :
  build_ok b → hooks b !! i = Some h → ¬ returned h → is_Some (build_step (Step i w) b).
Proof.
  intros Hok Hi Hn. destruct (build_accounted i b h Hok Hi) as (others & _ & Hacc).
  destruct (hook_keeps w h (shared b) others Hacc Hn) as (h' & s' & Hs & _).
  unfold build_step. cbn [step]. rewrite Hi. cbn. unfold stepped in Hs. rewrite Hs. by eexists.
Qed.

(** The bytes a returned hook keeps: a parsed module's source, the length of an
    unmeasured file it was the first to record. *)
Definition kept_bytes (h : hook) : N := match h with Ending _ kept _ => kept | _ => 0%N end.
Lemma returned_held l : Forall returned l → sum_of held l = sum_of kept_bytes l.
Proof.
  induction 1 as [|h l Hh Hl IH]; [done|]. rewrite !sum_of_cons, IH. by destruct h as [| | |[|] kept out].
Qed.

(** ** What the hooks saw

    The steps a run took, each with the disk it found and the hook as it stood. *)

Definition moved (a : action) b : list (world * hook) :=
  match a with
  | Step i w => match hooks b !! i with Some h => [(w, h)] | None => [] end
  | _ => []
  end.
Fixpoint trace (l : list action) b : list (world * hook) :=
  match l with
  | [] => []
  | a :: l => moved a b ++ match build_step a b with Some b' => trace l b' | None => [] end
  end.

(** What every step keeps of the steps before it holds of a run. *)
Lemma trace_ind (I : list (world * hook) → build → Prop) :
  (∀ T a b b', build_ok b → I T b → build_step a b = Some b' → I (T ++ moved a b) b') →
  ∀ l b, I [] new_run → build_run l new_run = Some b → I (trace l new_run) b.
Proof.
  intros Hstep. assert (∀ l T b b', build_ok b → I T b → build_run l b = Some b' → I (T ++ trace l b) b') as H.
  { unfold build_run. induction l as [|a l IH]; intros T b b' Hok HI; cbn [run trace].
    - intros [= <-]. by rewrite app_nil_r.
    - change (step _ _ _ _ a b) with (build_step a b). destruct (build_step a b) as [b1|] eqn:Hs; [|done]. cbn.
      rewrite app_assoc. apply IH; [by eapply build_step_ok|by eapply Hstep]. }
  intros l b HI Hrun. apply (H l [] new_run b new_run_ok HI Hrun).
Qed.

(** A file's stat, and the bytes a load that held it read. *)
Definition stats (h : hook) : option string :=
  match h with Loading _ (Stat real | StatLiteral _ _ real) => Some real | _ => None end.
Definition statted (T : list (world * hook)) (real : string) (md : Metadata) : Prop :=
  ∃ w h, (w, h) ∈ T ∧ stats h = Some real ∧ @fs_metadata (disk w) real = inl md.
Definition was_read (T : list (world * hook)) (real : string) (md : Metadata) (data : list ascii) : Prop :=
  statted T real md ∧
  ∃ w id path reserved, (w, Loading id (Read path real md reserved)) ∈ T ∧ @fs_read (disk w) real = inl data.
(** The asset is a file that was read: its bytes and their fingerprint are that
    read's. *)
Definition read_asset T (a : CollectedAsset) : Prop :=
  ∃ md, was_read T (a_path a) md (a_bytes a) ∧
  a_fingerprint a = {| fp_path := identity_path_string windows (a_path a); fp_len := md_len md;
                       fp_modified_millis := modified_millis md; fp_content_hash := Some (content_hash (a_bytes a)) |}.
(** The fingerprint is of a read of the path, or of the stat a limit refused. *)
Definition observed T (p : string) (f : FileFingerprint) : Prop :=
  ∃ q md hash, path_eqb p q = true ∧
  f = {| fp_path := identity_path_string windows q; fp_len := md_len md;
         fp_modified_millis := modified_millis md; fp_content_hash := hash |} ∧
  match hash with
  | Some h => ∃ data, was_read T q md data ∧ h = content_hash data
  | None => statted T q md
  end.

Definition knows T (h : hook) : Prop :=
  match h with
  | Loading _ (AliasId _ real md | Admit _ real md | Read _ real md _) => statted T real md
  | Loading _ (Reconcile _ real md data _ | Note real md data) => was_read T real md data
  | Loading _ (Claim a) => read_asset T a
  | Ending effects _ _ => ∀ p f, RecordFingerprint p f ∈ effects → observed T p f
  | _ => True
  end.
Record evidence T s : Prop := {
  ev_collected : ordered (collected s);
  ev_assets : ∀ k a, (k, a) ∈ collected s → k = a_path a ∧ read_asset T a;
  ev_read_time : ordered (read_time s);
  ev_prints : ∀ p f, (p, f) ∈ read_time s → observed T p f;
}.

Lemma statted_more T T' real md : statted T real md → statted (T ++ T') real md.
Proof. intros (w & h & Hin & H). exists w, h. by rewrite elem_of_app; split; [left|]. Qed.
Lemma was_read_more T T' real md data : was_read T real md data → was_read (T ++ T') real md data.
Proof.
  intros (Hs & w & id & path & r & Hin & H). split; [by apply statted_more|].
  exists w, id, path, r. by rewrite elem_of_app; split; [left|].
Qed.
Lemma read_asset_more T T' a : read_asset T a → read_asset (T ++ T') a.
Proof. intros (md & Hr & Hf). exists md. by split; [apply was_read_more|]. Qed.
Lemma observed_more T T' p f : observed T p f → observed (T ++ T') p f.
Proof.
  intros (q & md & hash & Hp & Hf & H). exists q, md, hash. do 2 (split; [done|]). destruct hash as [h|]; [|by apply statted_more].
  destruct H as (data & Hr & Hh). exists data. by split; [apply was_read_more|].
Qed.
Lemma knows_more T T' h : knows T h → knows (T ++ T') h.
Proof.
  destruct h as [id []| | |]; cbn [knows]; try done;
    eauto using statted_more, was_read_more, read_asset_more, observed_more.
Qed.
Lemma evidence_more T T' s : evidence T s → evidence (T ++ T') s.
Proof.
  intros [Hc Ha Hr Hp]. split; try done; [|by intros p f Hin; apply observed_more, Hp].
  intros k a Hin. destruct (Ha k a Hin). by split; [|apply read_asset_more].
Qed.

Lemma entry_elem {V} k (v : V) m x : x ∈ entry_or_insert k v m → x = (k, v) ∨ x ∈ m.
Proof.
  induction m as [|[k' v'] m IH]; cbn [entry_or_insert]; [by intros ->%list_elem_of_singleton; left|].
  destruct (path_cmp k k'); [by right|by intros [->|?]%elem_of_cons; [left|right]|]. rewrite !elem_of_cons. naive_solver.
Qed.
Lemma path_eqb_refl p : path_eqb p p = true.
Proof. by apply path_eqb_spec. Qed.

Lemma read_observed T real md data : was_read T real md data → observed T real (read_time_fingerprint windows real md data).
Proof.
  intros H. exists real, md, (Some (content_hash data)). split; [apply path_eqb_refl|]. split; [done|]. by exists data.
Qed.
Lemma stat_observed T real md : statted T real md → observed T real (stat_fingerprint windows real md).
Proof. intros H. exists real, md, None. by split; [apply path_eqb_refl|]. Qed.
Lemma asset_observed T p a : path_eqb p (a_path a) = true → read_asset T a → observed T p (a_fingerprint a).
Proof.
  intros Hp (md & Hr & Hf). exists (a_path a), md, (Some (content_hash (a_bytes a))). do 2 (split; [done|]). by exists (a_bytes a).
Qed.

Lemma statted_here T w h real md :
  stats h = Some real → @fs_metadata (disk w) real = inl md → statted (T ++ [(w, h)]) real md.
Proof. intros Hs Hm. exists w, h. split; [|done]. rewrite elem_of_app. right. by left. Qed.

Ltac one_print := intros ? ?; rewrite ?elem_of_cons, ?elem_of_nil; intros Hprint;
  destruct_or? Hprint; simplify_eq; try done; eauto using read_observed, stat_observed, statted_more, was_read_more.

Lemma consume_knows T id path real md data reserved h :
  was_read T real md data → consume windows id path real md data reserved = Some h → knows T h.
Proof.
  intros Hr. unfold consume. destruct (classify_asset_class path).
  - destruct reserved; [|done]. cbn. destruct (_ <? _)%N; intros [= <-]; [|done]. cbn. one_print.
  - intros [= <-]. cbn. one_print.
Qed.
Lemma unstattable_knows T path real e : knows T (unstattable path real e).
Proof. unfold unstattable. destruct (classify_asset_class path); cbn; one_print. Qed.

Lemma read_knows T w id path real md reserved s h s' :
  statted T real md → load_stepped w id (Read path real md reserved) s = Some (h, s') →
  knows (T ++ [(w, Loading id (Read path real md reserved))]) h.
Proof.
  intros Hk H. unfold load_stepped in H. cbn [load_step] in H.
  destruct (@fs_read (disk w) real) as [data|e] eqn:Hread.
  - destruct (consume windows id path real md data reserved) eqn:Hc; [|done]. cbn in H. simplify_eq.
    eapply consume_knows; [|done]. split; [by apply statted_more|]. exists w, id, path, reserved.
    split; [rewrite elem_of_app; right; by left|done].
  - destruct (classify_asset_class path), reserved; simplify_eq; cbn; one_print.
Qed.

Lemma load_knows T w id pc s h s' :
  match pc with Claim _ => False | _ => True end →
  knows T (Loading id pc) → load_stepped w id pc s = Some (h, s') → knows (T ++ [(w, Loading id pc)]) h.
Proof.
  intros Hpc Hk H.
  destruct pc as [|real|real|real e|real e lreal|real e lreal|path real md|path real md|path real md reserved
                  |path real md data reserved|real md data|asset|asset]; try done.
  9: by eapply read_knows.
  all: unfold load_stepped in H; cbn [load_step] in H; cbn [knows] in Hk.
  9: { destruct (reconcile_source_bytes _ _ _ _) as [[t|t]|]; [|simplify_eq; cbn; one_print|done].
       destruct (classify_asset_class path) as [[]|]; simplify_eq; cbn; eauto using was_read_more.
       exists md. by split; [apply was_read_more|]. }
  all: repeat match goal with
    | H : context [if ?c then _ else _] |- _ => destruct c
    | H : context [canonical_memo ?a ?b] |- _ => destruct (canonical_memo a b)
    | H : match fs_metadata ?a with _ => _ end = Some _ |- _ => destruct (fs_metadata a) eqn:?
    | H : context [classify_asset_class ?a] |- _ => destruct (classify_asset_class a)
    | H : context [try_reserve_source_bytes ?a ?b ?c] |- _ => destruct (try_reserve_source_bytes a b c)
    end; simplify_eq/=; eauto using statted_more, statted_here;
    try (by one_print); try apply unstattable_knows. case_bool_decide; one_print.
Qed.

Lemma step_knows T w h s h' s' :
  evidence T s → knows T h → stepped w h s = Some (h', s') → knows (T ++ [(w, h)]) h'.
Proof.
  intros [_ Ha _ _] Hk Hs. destruct h as [id pc|m pc|args|[|e es] kept out].
  - destruct pc as [| | | | | | | | | | |asset|]; try (by eapply load_knows).
    unfold stepped in Hs. cbn in Hs. unfold claim_asset in Hs.
    destruct (path_lookup (a_path asset) (collected s)) as [winner|] eqn:Hl; simplify_eq; cbn; intros p f;
      rewrite ?elem_of_cons, elem_of_nil; (intros [[= -> ->]|Hn]; [|naive_solver]); apply asset_observed, read_asset_more.
    + apply elem_lookup in Hl as (k & Hin & Hc). destruct (Ha k winner Hin) as [-> _]. by apply path_eqb_spec.
    + apply elem_lookup in Hl as (k & Hin & _). by apply (Ha k).
    + apply path_eqb_refl.
    + done.
  - apply step_records in Hs as Hrec. destruct h' as [?|?|?|effects kept out]; try done.
    all: unfold stepped in Hs; cbn [hook_step] in Hs; destruct pc; cbn [parsed_step] in Hs;
      repeat case_match; simplify_eq; cbn; one_print.
  - unfold stepped in Hs. cbn [hook_step] in Hs. destruct (resolve_id targets w args) as [effects r] eqn:Hr. simplify_eq.
    cbn. intros p f Hin. exfalso. unfold resolve_id, unresolved_boundary in Hr. clear -Hr Hin.
    repeat (destruct (is_bare_subpath_specifier _) || case_match || case_decide); simplify_eq;
      rewrite ?elem_of_cons, ?elem_of_nil in Hin; naive_solver.
  - done.
  - apply step_records in Hs as [-> _]. cbn in *. intros p f Hin. apply observed_more, Hk. by right.
Qed.

(** What a step does to the maps of assets and of fingerprints. *)
Inductive filed (h : hook) s s' : Prop :=
  | FiledNothing : read_time s' = read_time s → collected s' = collected s → filed h s s'
  | FiledNote id real md data : h = Loading id (Note real md data) → collected s' = collected s →
      read_time s' = entry_or_insert real (read_time_fingerprint windows real md data) (read_time s) → filed h s s'
  | FiledAsset id a : h = Loading id (Claim a) → read_time s' = read_time s →
      path_lookup (a_path a) (collected s) = None → collected s' = entry_or_insert (a_path a) a (collected s) → filed h s s'
  | FiledPrint p f : RecordFingerprint p f ∈ pending h → collected s' = collected s →
      read_time s' = entry_or_insert p f (read_time s) → filed h s s'.

Lemma step_files w h s h' s' : stepped w h s = Some (h', s') → filed h s s'.
Proof.
  intros Hs. destruct h as [id pc|m pc|args|[|e es] kept out]; [|..|done|].
  - change (load_stepped w id pc s = Some (h', s')) in Hs.
    destruct pc as [| | | | | | | | | |real md data|asset|asset];
      try (apply load_quiet in Hs as ((_ & _ & ? & ? & _) & _ & _); [by constructor 1|done]).
    + cbn in Hs. simplify_eq. by eapply (FiledNote _ _ _ id real md data).
    + cbn in Hs. unfold claim_asset in Hs. destruct (path_lookup _ _) eqn:Hl; simplify_eq/=; [by constructor 1|].
      by eapply (FiledAsset _ _ _ id asset).
    + cbn in Hs. simplify_eq. by constructor 1.
  - unfold stepped in Hs. cbn [hook_step] in Hs. injection Hs as (_ & _ & _ & _ & ? & ? & _)%parsed_records. by constructor 1.
  - unfold stepped in Hs. cbn [hook_step] in Hs. destruct (resolve_id targets w args). simplify_eq. by constructor 1.
  - apply step_records in Hs as [_ He]. destruct e as [p f|m|n|p k|x]; cbn in He.
    + simplify_eq. apply (FiledPrint _ _ _ p f); [by left|done..].
    + simplify_eq. unfold record_breach. by destruct (limit_breach s); [destruct (String.compare _ _)|]; constructor 1.
    + destruct (release_source_bytes _ _); simplify_eq/=. by constructor 1.
    + simplify_eq. by constructor 1.
    + simplify_eq. by constructor 1.
Qed.

Lemma step_evidence T w h s h' s' :
  evidence T s → knows T h → stepped w h s = Some (h', s') → evidence (T ++ [(w, h)]) s'.
Proof.
  intros Hev Hk Hs%step_files. apply (evidence_more T [(w, h)]) in Hev as [Hc Ha Hr Hp]. apply (knows_more T [(w, h)]) in Hk.
  destruct Hs as [H1 H2|id real md data -> H1 H2|id a -> H1 Hn H2|p f Hin H1 H2]; split; rewrite ?H1, ?H2;
    auto using entry_ordered.
  - intros p f [[= -> ->]|?]%entry_elem; [by apply read_observed|by apply Hp].
  - intros k x [[= -> ->]|?]%entry_elem; [done|by apply Ha].
  - intros q g [[= -> ->]|?]%entry_elem; [|by apply Hp]. destruct h; try by apply not_elem_of_nil in Hin. by apply Hk.
Qed.

(** The file was also read as a module, or as one that is not measured. *)
Definition elsewhere (T : list (world * hook)) (p : string) : Prop :=
  ∃ w id real md, path_eqb p real = true ∧
  ((∃ path reserved, (w, Loading id (Read path real md reserved)) ∈ T ∧ classify_asset_class path = None) ∨
   ∃ data, (w, Loading id (Note real md data)) ∈ T).
Definition own s (p : string) (f : FileFingerprint) : Prop :=
  ∃ a, path_lookup p (collected s) = Some a ∧ f = a_fingerprint a.
Definition limit_failed b : Prop := ∃ k, k ∈ hooks b ∧ is_Some (hook_breach k).
(** A fingerprint that is not the collected asset's has another cause, and only
    a file a limit refused is not hashed. *)
Definition settled T b (p : string) (f : FileFingerprint) : Prop :=
  (own (shared b) p f ∨ elsewhere T p ∨ limit_failed b) ∧ (fp_content_hash f = None → limit_failed b).
Definition prints_agree T b : Prop :=
  (∀ p f, path_lookup p (read_time (shared b)) = Some f → settled T b p f) ∧
  (∀ k p f, k ∈ hooks b → RecordFingerprint p f ∈ pending k → settled T b p f).

(** Why a hook comes to owe a fingerprint. *)
Lemma owed_print T w h s h' s' p f :
  stepped w h s = Some (h', s') → RecordFingerprint p f ∈ pending h' →
  RecordFingerprint p f ∈ pending h ∨ is_Some (hook_breach h') ∨
  (elsewhere (T ++ [(w, h)]) p ∧ is_Some (fp_content_hash f)) ∨
  (∃ id a, h = Loading id (Claim a) ∧ p = a_path a ∧ f = (claim_asset a s).1.2).
Proof.
  intros Hs Hin. destruct h as [id pc|m pc|args|[|e es] kept out]; [|..|done|].
  - change (load_stepped w id pc s = Some (h', s')) in Hs. unfold load_stepped in Hs.
    destruct pc as [|real|real|real e|real e lreal|real e lreal|path real md|path real md|path real md reserved
                  |path real md data reserved|real md data|asset|asset]; cbn [load_step] in Hs.
    9: { destruct (@fs_read (disk w) real) as [data|e].
         - unfold consume in Hs. destruct (classify_asset_class path) eqn:Hc.
           + destruct reserved; [|done]. cbn in Hs. destruct (_ <? _)%N; cbn in Hs; simplify_eq; [|by apply not_elem_of_nil in Hin].
             right. left. by eexists.
           + cbn in Hs. simplify_eq. apply list_elem_of_singleton in Hin as [= -> ->]. right. right. left.
             split; [|by eexists]. exists w, id, real, md. split; [apply path_eqb_refl|]. left. exists path, reserved.
             split; [rewrite elem_of_app; right; by left|done].
         - destruct (classify_asset_class path), reserved; simplify_eq; cbn in Hin;
             rewrite ?elem_of_cons, ?elem_of_nil in Hin; naive_solver. }
    9: { destruct (reconcile_source_bytes _ _ _ _) as [[t|t]|]; [|simplify_eq; right; left; by eexists|done].
         destruct (classify_asset_class path) as [[]|]; simplify_eq; by apply not_elem_of_nil in Hin. }
    10: { do 3 right. exists id, asset. destruct (claim_asset asset s) as [[s1 g] []]; simplify_eq; cbn in Hin;
            rewrite ?elem_of_cons, ?elem_of_nil in Hin; naive_solver. }
    all: right; left; repeat match goal with
    | H : context [if ?c then _ else _] |- _ => destruct c
    | H : context [canonical_memo ?a ?b] |- _ => destruct (canonical_memo a b)
    | H : context [fs_metadata ?a] |- _ => destruct (fs_metadata a)
    | H : context [try_reserve_source_bytes ?a ?b ?c] |- _ => destruct (try_reserve_source_bytes a b c)
    | H : context [unstattable] |- _ => unfold unstattable in H
    | H : context [classify_asset_class ?a] |- _ => destruct (classify_asset_class a)
    end; simplify_eq/=; rewrite ?elem_of_cons, ?elem_of_nil in Hin; try (by naive_solver).
    case_bool_decide; rewrite ?elem_of_cons, ?elem_of_nil in Hin; naive_solver.
  - exfalso. unfold stepped in Hs. cbn [hook_step] in Hs. destruct pc; cbn [parsed_step] in Hs;
      repeat case_match; simplify_eq; cbn in Hin; rewrite ?elem_of_cons, ?elem_of_nil in Hin; naive_solver.
  - exfalso. unfold stepped in Hs. cbn [hook_step] in Hs. destruct (resolve_id targets w args) as [effects r] eqn:Hr.
    simplify_eq. cbn in Hin. unfold resolve_id, unresolved_boundary in Hr. clear -Hr Hin.
    repeat (destruct (is_bare_subpath_specifier _) || case_match || case_decide); simplify_eq;
      rewrite ?elem_of_cons, ?elem_of_nil in Hin; naive_solver.
  - apply step_records in Hs as [-> _]. left. by right.
Qed.

Lemma own_stays T h s s' p f : evidence T s → filed h s s' → own s p f → own s' p f.
Proof.
  intros [Hc _ _ _] Hf (a & Hl & ->). exists a. split; [|done].
  destruct Hf as [_ ->|? ? ? ? _ -> _|? x _ _ _ ->|? ? _ -> _]; [done..| |done]. by rewrite lookup_entry, Hl.
Qed.
Lemma settled_spelling T b p q f : path_eqb p q = true → settled T b q f → settled T b p f.
Proof.
  intros Hp [H0 Hn]. split; [|done]. destruct H0 as [(a & Hl & Hf)|[(w & id & real & md & Hq & H)|H]]; [left|right; left|by right; right].
  - exists a. by rewrite (lookup_spelling p q).
  - exists w, id, real, md. split; [|done]. rewrite path_eqb_spec in *. by rewrite Hp.
Qed.
Lemma settled_stays T w i b h h' s' p f :
  evidence T (shared b) → hooks b !! i = Some h → stepped w h (shared b) = Some (h', s') → settled T b p f →
  settled (T ++ [(w, h)]) {| shared := s'; hooks := <[i := h']> (hooks b); log := log b ++ recorded h |} p f.
Proof.
  intros Hev Hi Hs [H0 Hn].
  assert (limit_failed b → limit_failed {| shared := s'; hooks := <[i := h']> (hooks b); log := log b ++ recorded h |}) as Hb.
  { intros (k & Hk & m & Hm). destruct (breached_stays w i b h h' s' m Hi Hs) as (k' & ? & ?); [by exists k|].
    exists k'. by split; [|exists m]. }
  split; [|naive_solver]. destruct H0 as [Ho|[(w' & id & real & md & Hp & H)|H]].
  - left. eapply own_stays; [done|by eapply step_files|done].
  - right. left. exists w', id, real, md. split; [done|]. setoid_rewrite elem_of_app. naive_solver.
  - right. right. by apply Hb.
Qed.

Lemma claimed_own T a s :
  evidence T s → read_asset T a →
  own (claim_asset a s).1.1 (a_path a) (claim_asset a s).1.2 ∧ is_Some (fp_content_hash (claim_asset a s).1.2).
Proof.
  intros [Hc Ha _ _] Hread. unfold claim_asset. destruct (path_lookup (a_path a) (collected s)) as [x|] eqn:Hl; cbn.
  - split; [by exists x|]. apply elem_lookup in Hl as (k & Hin & _). destruct (Ha k x Hin) as [_ (md & _ & ->)]. by eexists.
  - destruct Hread as (md & _ & Hf). split; [|rewrite Hf; by eexists]. exists a. split; [|done]. cbn.
    by rewrite lookup_entry, Hl, path_eqb_refl.
Qed.

Lemma step_agrees T w i b h h' s' :
  evidence T (shared b) → knows T h → prints_agree T b → hooks b !! i = Some h →
  stepped w h (shared b) = Some (h', s') →
  prints_agree (T ++ [(w, h)]) {| shared := s'; hooks := <[i := h']> (hooks b); log := log b ++ recorded h |}.
Proof.
  intros Hev Hkn [Hr Hp] Hi Hs. assert (h ∈ hooks b) as Hin by (by eapply list_elem_of_lookup_2). split; cbn.
  - pose proof (ev_read_time _ _ Hev) as Ho. intros p f Hl.
    destruct (step_files w h (shared b) h' s' Hs) as [H1 H2|id real md data -> H1 H2|id a -> H1 Hn H2|q g Hpend H1 H2];
      rewrite ?H1, ?H2, ?lookup_entry in Hl by done; try (by eapply settled_stays, Hr).
    + destruct (path_lookup p (read_time (shared b))) eqn:E; simplify_eq; [by eapply settled_stays, Hr|].
      destruct (path_eqb p real) eqn:Hq; simplify_eq. split; [|done]. right. left. exists w, id, real, md. split; [done|]. right. exists data.
      rewrite elem_of_app. right. by left.
    + destruct (path_lookup p (read_time (shared b))) eqn:E; simplify_eq; [by eapply settled_stays, Hr|].
      destruct (path_eqb p q) eqn:Hq; simplify_eq. eapply settled_spelling; [done|]. by eapply settled_stays, Hp.
  - intros k p f [->|Hk]%(elem_insert_new _ i h h' k Hi) Hpend; [|by eapply settled_stays, Hp].
    destruct (owed_print T w h (shared b) h' s' p f Hs Hpend) as [?|[?|[[? [? Hf]]|(id & a & -> & -> & ->)]]].
    + by eapply settled_stays, Hp.
    + assert (limit_failed {| shared := s'; hooks := <[i := h']> (hooks b); log := log b ++ recorded h |}); [|by split; [right; right|]].
      exists h'. split; [by eapply elem_insert_here|done].
    + split; [by right; left|]. by rewrite Hf.
    + destruct (claimed_own T a (shared b) Hev Hkn) as [Ho [x Hx]]. split; [|by rewrite Hx]. left. unfold stepped in Hs. cbn in Hs.
      by destruct (claim_asset a (shared b)) as [[s1 g] ins]; simplify_eq.
Qed.

(** What the hooks know of their reads, and what was recorded of them. *)
Definition witnessed T b : Prop := evidence T (shared b) ∧ Forall (knows T) (hooks b) ∧ prints_agree T b.
Lemma build_step_witnessed T a b b' : witnessed T b → build_step a b = Some b' → witnessed (T ++ moved a b) b'.
Proof.
  assert (∀ h, knows T h → pending h = [] → witnessed T b → witnessed (T ++ []) (call h b)) as Hcall.
  { intros h Hk Hp (Hev & Hks & Hr & Hpr). rewrite app_nil_r. split; [done|]. split; [by apply Forall_app; split; [|constructor]|].
    assert (∀ p f, settled T b p f → settled T (call h b) p f) as Hst.
    { assert (limit_failed b → limit_failed (call h b)) as Hb by (intros (k & ? & ?); exists k; cbn; rewrite elem_of_app; by split; [left|]).
      unfold settled. cbn. naive_solver. }
    split; [intros p f Hl; by apply Hst, Hr|]. intros k p f [Hin| ->%list_elem_of_singleton]%elem_of_app Hf; [by eapply Hst, Hpr|].
    rewrite Hp in Hf. by apply not_elem_of_nil in Hf. }
  intros Hw. unfold build_step. destruct a as [id|m|args|i w]; cbn [step moved]; try (intros [= <-]; by apply Hcall).
  destruct (hooks b !! i) as [h|] eqn:Hi; [|done]. cbn [mbind option_bind]. change (hook_step _ _ _ _ w h (shared b)) with (stepped w h (shared b)).
  destruct (stepped w h (shared b)) as [[h' s']|] eqn:Hs; [|done]. intros [= <-].
  destruct Hw as (Hev & Hks & Hag). assert (knows T h) as Hk.
  { rewrite Forall_forall in Hks. apply Hks. by eapply list_elem_of_lookup_2. }
  split; [by eapply step_evidence|]. split; [|by eapply step_agrees]. cbn. apply Forall_insert; [|by eapply step_knows].
  eapply Forall_impl; [exact Hks|]. intros k. apply knows_more.
Qed.
Lemma run_witnessed l b : build_run l new_run = Some b → witnessed (trace l new_run) b.
Proof.
  apply (trace_ind witnessed).
  - intros T a b0 b' _. apply build_step_witnessed.
  - split; [split; cbn; [apply SSorted_nil| |apply SSorted_nil|]; by intros * ?%not_elem_of_nil|]. split; [constructor|]. split; [done|].
    by intros k p f ?%not_elem_of_nil.
Qed.

(** ** What the hooks failed to see

    An observation of a supported asset that failed, or a subpath the resolver
    refused, and what is to be recorded of it; an absence is a [NotFound]. *)
Inductive omitted (w : world) : hook → effect → Prop :=
  | UnreadAsset id path real md reserved e k :
      is_Some (classify_asset_class path) → @fs_read (disk w) real = inr e → (k = Absent ↔ e = NotFound) →
      omitted w (Loading id (Read path real md reserved)) (RecordFailed real k)
  | UnstattableAsset id real e k :
      is_Some (classify_asset_class (path_portion id)) → path_eqb id (path_portion id) = true →
      @fs_metadata (disk w) real = inr e → (k = Absent ↔ e = NotFound) →
      omitted w (Loading id (Stat real)) (RecordFailed real k)
  | UnstattableLiteral id real e literal_real e' k :
      is_Some (classify_asset_class (path_portion id)) →
      @fs_metadata (disk w) literal_real = inr e' → (k = Absent ↔ e = NotFound) →
      omitted w (Loading id (StatLiteral real e literal_real)) (RecordFailed real k)
  | UnresolvedAsset specifier importer candidate k :
      specifier ≠ VIRTUAL_ENTRY_ID → target_index specifier = None →
      supported_asset_observation_candidate specifier importer = Some candidate → path_is_absolute candidate = true →
      ctx_resolve w specifier importer = inl None → (k = Absent ↔ @fs_metadata (disk w) candidate = inr NotFound) →
      omitted w (Resolving {| ra_specifier := specifier; ra_importer := Some importer |}) (RecordFailed candidate k)
  | RefusedSubpath specifier importer :
      specifier ≠ VIRTUAL_ENTRY_ID → target_index specifier = None →
      (∀ candidate, supported_asset_observation_candidate specifier importer = Some candidate → path_is_absolute candidate = false) →
      is_bare_subpath_specifier specifier = true → ctx_resolve w specifier importer = inl None →
      omitted w (Resolving {| ra_specifier := specifier; ra_importer := Some importer |}) (RecordExternal specifier).

Lemma failure_kind_known e k : (k = Absent ↔ e = NotFound) → failure_kind_of e = k.
Proof. destruct e, k; cbn; naive_solver. Qed.
Lemma resolve_kind_known w p k : (k = Absent ↔ @fs_metadata (disk w) p = inr NotFound) → resolve_failure_kind w p = k.
Proof.
  unfold resolve_failure_kind. destruct (@fs_metadata (disk w) p) as [md|e]; [destruct k; naive_solver|].
  intros H. apply failure_kind_known. naive_solver.
Qed.

(** A hook that failed to see owes the record of it. *)
Lemma omitted_owed w h e s h' s' : omitted w h e → stepped w h s = Some (h', s') → e ∈ pending h'.
Proof.
  assert (∀ path, is_Some (classify_asset_class path) → ∃ c, classify_asset_class path = Some c) as Hc by (intros ? [c ?]; by exists c).
  intros Ho Hs. destruct Ho as [id path real md reserved err k (c & Hcl)%Hc Hr Hk|id real err k (c & Hcl)%Hc Hid Hm Hk
    |id real err lit err' k (c & Hcl)%Hc Hm Hk|spec imp cand k Hv Ht Hcand Habs Hx Hk|spec imp Hv Ht Hcand Hb Hx];
    unfold stepped in Hs; cbn [hook_step load_step] in Hs.
  - rewrite Hr, Hcl in Hs. rewrite (failure_kind_known _ _ Hk) in Hs. destruct reserved; simplify_eq; cbn;
      rewrite ?elem_of_cons; naive_solver.
  - rewrite Hm, Hid in Hs. unfold unstattable in Hs. rewrite Hcl, (failure_kind_known _ _ Hk) in Hs. simplify_eq. by left.
  - rewrite Hm in Hs. unfold unstattable in Hs. rewrite Hcl, (failure_kind_known _ _ Hk) in Hs. simplify_eq. by left.
  - unfold resolve_id in Hs. cbn [ra_specifier ra_importer] in Hs. rewrite decide_False, Ht, Hcand, Hx, Habs, (resolve_kind_known _ _ _ Hk) in Hs by done.
    cbn in Hs. simplify_eq. by left.
  - unfold resolve_id, unresolved_boundary in Hs. cbn [ra_specifier ra_importer] in Hs. rewrite decide_False, Ht, Hx, Hb in Hs by done.
    destruct (supported_asset_observation_candidate spec imp) as [cand|]; [rewrite (Hcand cand) in Hs by done|];
      cbn in Hs; simplify_eq; by left.
Qed.

(** What is owed is recorded, sooner or later. *)
Definition recorded_or_owed b (e : effect) : Prop := e ∈ log b ∨ ∃ h, h ∈ hooks b ∧ e ∈ pending h.
Lemma owed_stays w i b h h' s' e :
  hooks b !! i = Some h → stepped w h (shared b) = Some (h', s') → recorded_or_owed b e →
  recorded_or_owed {| shared := s'; hooks := <[i := h']> (hooks b); log := log b ++ recorded h |} e.
Proof.
  intros Hi Hs [Hl|(k & Hk & He)]; [left; cbn; rewrite elem_of_app; by left|].
  destruct (elem_insert_old _ i h h' k Hi Hk) as [->|?]; [|right; by exists k]. apply step_records in Hs.
  destruct h as [| | |[|e0 es] kept out]; try by apply not_elem_of_nil in He.
  destruct Hs as [-> _]. apply elem_of_cons in He as [->|He]; [left; cbn; rewrite elem_of_app; right; by left|].
  right. exists (Ending es kept out). split; [by eapply elem_insert_here|done].
Qed.

Definition omissions_owed (T : list (world * hook)) b : Prop := ∀ w h e, (w, h) ∈ T → omitted w h e → recorded_or_owed b e.
Lemma run_owes l b : build_run l new_run = Some b → omissions_owed (trace l new_run) b.
Proof.
  apply (trace_ind omissions_owed); [|by intros w h e ?%not_elem_of_nil]. clear l b.
  intros T a b b' _ HI. unfold build_step.
  assert (∀ h, omissions_owed (T ++ []) (call h b)) as Hcall.
  { intros h w k e Hin Ho. rewrite app_nil_r in Hin. destruct (HI w k e Hin Ho) as [?|(k' & ? & ?)]; [by left|].
    right. exists k'. cbn. rewrite elem_of_app. by split; [left|]. }
  destruct a as [id|m|args|i w]; cbn [step moved]; try (intros [= <-]; by apply Hcall).
  destruct (hooks b !! i) as [h|] eqn:Hi; [|done]. cbn [mbind option_bind]. change (hook_step _ _ _ _ w h (shared b)) with (stepped w h (shared b)).
  destruct (stepped w h (shared b)) as [[h' s']|] eqn:Hs; [|done]. intros [= <-].
  intros w0 k e [Hin|[= -> ->]%list_elem_of_singleton]%elem_of_app Ho; [by eapply owed_stays, HI|].
  right. exists h'. split; [by eapply elem_insert_here|by eapply omitted_owed].
Qed.
Lemma returned_disclosed l b w h e :
  build_run l new_run = Some b → Forall returned (hooks b) → (w, h) ∈ trace l new_run → omitted w h e → e ∈ log b.
Proof.
  intros Hrun Hret Hin Ho. destruct (run_owes l b Hrun w h e Hin Ho) as [?|(k & Hh & He)]; [done|]. rewrite Forall_forall in Hret. specialize (Hret k Hh).
  destruct k as [| | |[] ? ?]; try done. by apply not_elem_of_nil in He.
Qed.

(** Once every hook has returned, one that failed on a limit left its message. *)
Lemma returned_breach b :
  build_ok b → Forall returned (hooks b) → limit_failed b → is_Some (limit_breach (shared b)).
Proof.
  intros [_ _ _ _ Hr _ Ho _ _] Hret (h & Hin & m & Hb). destruct (Ho h m Hin Hb) as [Hx|Hx].
  { rewrite Forall_forall in Hret. specialize (Hret h Hin). destruct h as [| | |[] ? ?]; try done. by apply not_elem_of_nil in Hx. }
  destruct (limit_breach (shared b)) as [x|] eqn:Hn; [by eexists|]. pose proof (rp_breach _ _ Hr) as Hs. rewrite Hn in Hs. cbn in Hs.
  assert (m ∈ breach_messages (log b)) as Hin' by (apply list_elem_of_omap; by eexists).
  rewrite Hs in Hin'. by apply not_elem_of_nil in Hin'.
Qed.

(** ** Where a classified file ends *)

Definition carries (c : AssetClass) (real : string) (h : hook) : Prop :=
  match h with
  | Loading _ (Reconcile path r _ _ _) => classify_asset_class path = Some c ∧ r = real
  | Loading _ (Claim a) => c = Counted (a_kind a) ∧ a_path a = real
  | Loading _ (Note r _ _) => c = Unmeasured ∧ r = real
  | Loading _ (ClaimUnmeasured u) => c = Unmeasured ∧ u_path u = real
  | _ => False
  end.
(** A counted file is collected, an unmeasured one is to be disclosed. *)
Definition arrived s (c : AssetClass) (real : string) : Prop :=
  match c with
  | Counted _ => has (collected s) real
  | Unmeasured => has (unmeasured s) real
  end.

Lemma carried_on w c real h s h' s' :
  carries c real h → stepped w h s = Some (h', s') → carries c real h' ∨ arrived s' c real ∨ is_Some (hook_breach h').
Proof.
  unfold stepped. destruct h as [id pc| | |]; try done.
  destruct pc as [| | | | | | | | |path r md data reserved|r md data|a|u]; try done; cbn.
  - intros [Hc ->]. destruct (reconcile_source_bytes _ _ _ _) as [[t|t]|]; [|intros [= <- <-]; right; right; by eexists|done].
    rewrite Hc. destruct c; intros [= <- <-]; by left.
  - intros [-> ->] [= <- <-]. by left.
  - intros [-> <-]. unfold claim_asset. destruct (path_lookup (a_path a) (collected s)) as [x|] eqn:Hl; intros [= <- <-]; right; left.
    + apply elem_lookup in Hl as (k & Hin & Hk). by exists (k, x).
    + cbn. apply entry_or_insert_has. by right.
  - intros [-> <-] [= <- <-]. right. left. cbn. apply map_insert_has. by right.
Qed.
Lemma read_carries w id path real md reserved data c s h' s' :
  classify_asset_class path = Some c → @fs_read (disk w) real = inl data →
  stepped w (Loading id (Read path real md reserved)) s = Some (h', s') → carries c real h' ∨ is_Some (hook_breach h').
Proof.
  intros Hc Hr. unfold stepped. cbn [hook_step load_step]. rewrite Hr. unfold consume. rewrite Hc.
  destruct reserved; [|done]. cbn. destruct (_ <? _)%N; intros [= <- <-]; [right; by eexists|by left].
Qed.
Lemma step_unmeasured w h s h' s' :
  stepped w h s = Some (h', s') → unmeasured s' = unmeasured s ∨ ∃ u, unmeasured s' = map_insert (u_path u) u (unmeasured s).
Proof.
  intros Hs. destruct h as [id pc|m pc|args|[|e es] kept out]; [|..|done|].
  - change (load_stepped w id pc s = Some (h', s')) in Hs.
    destruct pc as [| | | | | | | | | |r md data|a|u];
      try (apply load_quiet in Hs as ((_ & _ & _ & _ & ->) & _ & _); [by left|done]); cbn in Hs.
    + simplify_eq. by left.
    + unfold claim_asset in Hs. destruct (path_lookup _ _); simplify_eq; by left.
    + simplify_eq. right. by exists u.
  - unfold stepped in Hs. cbn [hook_step] in Hs. injection Hs as (_ & _ & _ & _ & _ & _ & ->)%parsed_records. by left.
  - unfold stepped in Hs. cbn [hook_step] in Hs. destruct (resolve_id targets w args). simplify_eq. by left.
  - apply step_records in Hs as [_ He]. destruct e; cbn in He; [..|destruct (release_source_bytes _ _)| |]; simplify_eq/=; try by left.
    left. unfold record_breach. by destruct (limit_breach s); [destruct (String.compare _ _)|].
Qed.
Lemma arrived_stays w h s h' s' c real : stepped w h s = Some (h', s') → arrived s c real → arrived s' c real.
Proof.
  intros Hs. destruct c as [k|]; cbn.
  - destruct (step_files w h s h' s' Hs) as [_ ->|? ? ? ? _ -> _|? a _ _ _ ->|? ? _ -> _]; [done..| |done].
    intros H. apply entry_or_insert_has. by left.
  - destruct (step_unmeasured w h s h' s' Hs) as [->|[u ->]]; [done|]. intros H. apply map_insert_has. by left.
Qed.

Definition reads_arrive (T : list (world * hook)) b : Prop :=
  ∀ w id path real md reserved data c,
    (w, Loading id (Read path real md reserved)) ∈ T → classify_asset_class path = Some c → @fs_read (disk w) real = inl data →
    arrived (shared b) c real ∨ (∃ h, h ∈ hooks b ∧ carries c real h) ∨ limit_failed b.
Lemma run_lands l b : build_run l new_run = Some b → reads_arrive (trace l new_run) b.
Proof.
  apply (trace_ind reads_arrive); [|by intros w id path real md r data c ?%not_elem_of_nil]. clear l b. intros T a b b' _ HI. unfold build_step.
  assert (∀ h, reads_arrive (T ++ []) (call h b)) as Hcall.
  { intros h w id path real md r data c Hin Hc Hr. rewrite app_nil_r in Hin. unfold limit_failed. cbn. setoid_rewrite elem_of_app.
    destruct (HI w id path real md r data c Hin Hc Hr) as [?|[(k & ? & ?)|(k & ? & ?)]]; naive_solver. }
  destruct a as [id|m|args|i w]; cbn [step moved]; try (intros [= <-]; by apply Hcall).
  destruct (hooks b !! i) as [h|] eqn:Hi; [|done]. cbn [mbind option_bind]. change (hook_step _ _ _ _ w h (shared b)) with (stepped w h (shared b)).
  destruct (stepped w h (shared b)) as [[h' s']|] eqn:Hs; [|done]. intros [= <-].
  assert (h' ∈ <[i := h']> (hooks b)) as Hh' by (by eapply elem_insert_here).
  intros w0 id path real md r data c [Hin|[= -> <-]%list_elem_of_singleton]%elem_of_app Hc Hr; unfold limit_failed; cbn.
  - destruct (HI w0 id path real md r data c Hin Hc Hr) as [?|[(k & Hk & Hca)|(k & Hk & m & Hb)]].
    + left. by eapply arrived_stays.
    + destruct (elem_insert_old _ i h h' k Hi Hk) as [->|?]; [|right; left; by exists k].
      destruct (carried_on w c real h (shared b) h' s' Hca Hs) as [?|[?|?]]; [right; left; by exists h'|by left|right; right; by exists h'].
    + right. right. destruct (breached_stays w i b h h' s' m Hi Hs) as (k' & ? & ?); [by exists k|]. exists k'. by split; [|exists m].
  - right. destruct (read_carries _ _ _ _ _ _ _ _ _ _ _ Hc Hr Hs); [left|right]; by exists h'.
Qed.
Lemma run_keyed l b : build_run l new_run = Some b → keyed u_path (unmeasured (shared b)).
Proof.
  apply (trace_ind (λ _ b, keyed u_path (unmeasured (shared b)))); [|by intros kv ?%not_elem_of_nil]. clear l b.
  intros _ a b b' _ HI. unfold build_step. destruct a as [id|m|args|i w]; cbn [step]; try (intros [= <-]; exact HI).
  destruct (hooks b !! i) as [h|] eqn:Hi; [|done]. cbn [mbind option_bind]. change (hook_step _ _ _ _ w h (shared b)) with (stepped w h (shared b)).
  destruct (stepped w h (shared b)) as [[h' s']|] eqn:Hs; [|done]. intros [= <-]. cbn.
  destruct (step_unmeasured w h (shared b) h' s' Hs) as [->|[u ->]]; [done|by apply map_insert_keyed].
Qed.
(** Once every hook has returned and no limit was breached, every classified
    file that was read is collected or to be disclosed. *)
Lemma returned_landed l b w id path real md reserved data c :
  build_run l new_run = Some b → Forall returned (hooks b) → limit_breach (shared b) = None →
  (w, Loading id (Read path real md reserved)) ∈ trace l new_run → classify_asset_class path = Some c →
  @fs_read (disk w) real = inl data →
  match c with
  | Counted _ => ∃ a, a ∈ (collected (shared b)).*2 ∧ path_eqb (a_path a) real = true
  | Unmeasured => ∃ u, u ∈ (unmeasured (shared b)).*2 ∧ path_eqb (u_path u) real = true
  end.
Proof.
  intros Hrun Hret Hn Hin Hc Hr. destruct (run_lands l b Hrun w id path real md reserved data c Hin Hc Hr) as [Ha|[(h & Hh & Hca)|Hb]].
  - destruct (run_witnessed l b Hrun) as ([_ Ea _ _] & _). pose proof (run_keyed l b Hrun) as Hk.
    destruct c; cbn in Ha; destruct Ha as ([k x] & Hx & Hp); exists x; rewrite path_eqb_spec; cbn in Hp;
      (split; [apply list_elem_of_fmap; by exists (k, x)|]).
    + by destruct (Ea k x Hx) as [<- _].
    + rewrite <- Hp. symmetry. by apply (Hk (k, x)).
  - rewrite Forall_forall in Hret. specialize (Hret h Hh). by destruct h as [| | |[] ? ?].
  - destruct (returned_breach b (build_run_ok l _ _ new_run_ok Hrun) Hret Hb) as [x Hx]. by rewrite Hn in Hx.
Qed.

(** C8. Over every interleaving of the hooks of a build, no hook panics or is
    stuck; the source bytes admitted are those of the collected assets and those
    hooks still hold, never above the limit, no asset above the file limit;
    every collected asset is what a load read, under the stat it took first,
    with the fingerprint of those bytes; and every recorded fingerprint is of
    such a read, or unhashed of such a stat. Once every hook has returned, the
    bytes are exactly the assets', the parsed modules' and the recorded
    unmeasured files', the graph is within its module limit unless a hook failed
    on it, only a limit left a file unhashed, and every collected asset's path
    has a fingerprint: that of the very read that was collected, unless a limit
    was breached or the file was also loaded as a module or as unmeasured. Every
    unmeasured file has a fingerprint too. *)
Theorem source_bytes_are_accounted l b :
  build_run l new_run = Some b →
  (∀ i w h, hooks b !! i = Some h → ¬ returned h → is_Some (build_step (Step i w) b)) ∧
  total_source_bytes (shared b) = (asset_bytes (shared b) + sum_of held (hooks b))%N ∧
  (total_source_bytes (shared b) <= max_graph_source_bytes)%N ∧
  Forall (λ kv, within_file_limit (a_bytes kv.2)) (collected (shared b)) ∧
  (∀ k a, (k, a) ∈ collected (shared b) → k = a_path a ∧ read_asset (trace l new_run) a) ∧
  (∀ p f, (p, f) ∈ read_time (shared b) → observed (trace l new_run) p f) ∧
  (Forall returned (hooks b) →
     graph_source_bytes (shared b) = (asset_bytes (shared b) + sum_of kept_bytes (hooks b))%N ∧
     (limit_breach (shared b) = None → N.of_nat (length (b_loaded_paths (shared b))) <= MAX_GRAPH_MODULES)%N ∧
     (∀ p f, (p, f) ∈ read_time (shared b) → fp_content_hash f = None → is_Some (limit_breach (shared b))) ∧
     (∀ k a, (k, a) ∈ collected (shared b) → ∃ f, path_lookup k (read_time (shared b)) = Some f ∧
        (f = a_fingerprint a ∨ is_Some (limit_breach (shared b)) ∨ elsewhere (trace l new_run) k)) ∧
     (∀ u, u ∈ (unmeasured (shared b)).*2 → has (read_time (shared b)) (u_path u))).
Proof.
  intros Hrun. pose proof (build_run_ok l _ _ new_run_ok Hrun) as Hok.
  assert (prints_ok b) as [Pa Pu _].
  { apply (build_run_prints l new_run); [|done]. split; cbn; intros *; by intros ?%not_elem_of_nil. }
  destruct (run_witnessed l b Hrun) as ([Ec Ea Er Ep] & _ & [Ag _]).
  pose proof Hok as [Ht Hl Hho Ha _ _ _ _ Hm].
  split; [by intros i w h; apply unreturned_steps|]. do 5 (split; [done|]). intros Hret.
  pose proof (returned_breach b Hok Hret) as Hbr.
  split; [unfold graph_source_bytes; by rewrite Ht, returned_held|]. split; [|split; [|split; [|done]]].
  - intros Hnone. apply N.le_ngt. intros (h & Hin & Hb)%Hm. destruct Hbr as [x Hx]; [|by rewrite Hnone in Hx].
    exists h. by split; [|eexists].
  - intros p f Hf%lookup_elem Hn; [|done]. by apply Hbr, (Ag p f Hf).
  - intros k a Hin. destruct (Ea k a Hin) as [-> _]. destruct (has_lookup (read_time (shared b)) (a_path a)) as [f Hf].
    { destruct (Pa a) as [?|(h & Hh & g & Hg)]; [by apply list_elem_of_fmap; exists (a_path a, a)|done|].
      rewrite Forall_forall in Hret. specialize (Hret h Hh). destruct h as [| | |[] ? ?]; try done. by apply not_elem_of_nil in Hg. }
    exists f. split; [done|]. destruct (Ag _ f Hf) as [[(x & Hx & ->)|[?|?]] _]; [left|by right; right|right; left; by apply Hbr].
    rewrite (lookup_elem _ _ _ Ec Hin) in Hx. by simplify_eq.
Qed.

(** C9. What a build reports is a function of what its hooks observed, not of
    the order: the breach is the smallest message of those recorded, which once
    every hook has returned are those the failing hooks returned; a path is
    unreadable when any observation of it was, absent when all were; the
    refused specifiers are the recorded ones, sorted; and two builds that
    recorded the same observations report the same. *)
Theorem observations_have_no_order l b :
  build_run l new_run = Some b →
  smallest (limit_breach (shared b)) (breach_messages (log b)) ∧
  (Forall returned (hooks b) → ∀ m, RecordBreach m ∈ log b ↔ ∃ h, h ∈ hooks b ∧ hook_breach h = Some m) ∧
  (∀ p, path_lookup p (failed_asset_inputs (shared b)) = observed_failure p (log b)) ∧
  (unreadable_asset_paths (shared b) ≠ [] ↔ ∃ p, RecordFailed p Unreadable ∈ log b) ∧
  unresolved_externals (shared b) = dedup (sort String.compare (external_names (log b))) ∧
  (∀ l' b', build_run l' new_run = Some b' → log b ≡ₚ log b' →
     limit_breach (shared b) = limit_breach (shared b') ∧
     unresolved_externals (shared b) = unresolved_externals (shared b') ∧
     ∀ p, path_lookup p (failed_asset_inputs (shared b)) = path_lookup p (failed_asset_inputs (shared b'))).
Proof.
  intros Hrun. pose proof (build_run_ok l _ _ new_run_ok Hrun) as [_ _ _ _ Hr Hc Ho Hg _]. pose proof Hr as [Hb _ Hf He].
  split; [done|]. split; [|split; [done|split; [by apply unreadable_reported|split; [done|]]]].
  - intros Hret m. split; [apply Hg|]. intros (h & Hin & Hm). destruct (Ho h m Hin Hm) as [Hx|?]; [|done].
    rewrite Forall_forall in Hret. specialize (Hret h Hin). destruct h as [| | |[] ? ?]; try done. by apply not_elem_of_nil in Hx.
  - intros l' b' Hrun' Hp. apply (reported_perm (log b) (log b')); [done..|].
    by apply (build_run_ok l' _ _ new_run_ok Hrun').
Qed.
End runs.

(** ** Concrete builds *)

#[local] Instance small_bundler : Bundler :=
  {| ModuleType := bool; Js := true; Empty := false; from_known_str := λ _, None |}.
#[local] Instance small_hash : ContentHash := length_hash.
Definition w_disk : FileSystem := {|
  fs_metadata := λ p, if decide (p = "/p/a.css") then inl {| md_len := 3; md_modified := Some 0%Z |} else inr NotFound;
  fs_read := λ p, if decide (p = "/p/a.css") then inl (to_bytes "a{}") else inr NotFound;
  fs_canonicalize := Some;
|}.
Definition w_world : world :=
  {| disk := w_disk; regular_file := λ _, true; ctx_resolve := λ _ _, inl None |}.
Definition w_module : ParsedModule :=
  {| mi_id := "/p/i.js"; mi_path := Some "/p/i.js"; mi_code := Some "go()"; mi_is_entry := true; mi_stable_id := "i.js" |}.
Definition w_steps (l : list nat) : list action := (λ i, Step i w_world) <$> l.

(** The same stylesheet loaded twice at once, and a module. *)
Definition w_loads : list action :=
  [CallLoad "/p/a.css"; CallLoad "/p/a.css"; CallParsed w_module] ++
  w_steps [0; 1; 0; 1; 0; 1; 2; 0; 1; 0; 1; 0; 1; 2; 0; 1; 0; 1; 1; 2; 2; 2].
Definition w_build : build := default new_run (build_run false 100 "" [] w_loads new_run).
Lemma w_build_runs : build_run false 100 "" [] w_loads new_run = Some w_build.
Proof. vm_compute. reflexivity. Qed.
Lemma source_bytes_are_accounted_witness :
  total_source_bytes (shared w_build) = 7%N ∧ total_source_bytes (shared w_build) = (asset_bytes (shared w_build) + sum_of held (hooks w_build))%N.
Proof.
  split; [by vm_compute|]. destruct (source_bytes_are_accounted false 100 "" [] w_loads w_build w_build_runs) as (_ & H & _). exact H.
Defined.

(** An addon that is not there, and a subpath the resolver refuses. *)
Definition w_misses : list action :=
  [CallResolve {| ra_specifier := "./x.node"; ra_importer := Some "/p/i.js" |};
   CallResolve {| ra_specifier := "pkg/sub"; ra_importer := Some "/p/i.js" |}] ++ w_steps [0; 1; 1; 0].
Definition w_missed : build := default new_run (build_run false 100 "" [] w_misses new_run).
Lemma w_missed_runs : build_run false 100 "" [] w_misses new_run = Some w_missed.
Proof. vm_compute. reflexivity. Qed.
Lemma observations_have_no_order_witness :
  path_lookup "/p/x.node" (failed_asset_inputs (shared w_missed)) = Some Absent ∧
  path_lookup "/p/x.node" (failed_asset_inputs (shared w_missed)) = observed_failure "/p/x.node" (log w_missed).
Proof.
  split; [by vm_compute|].
  destruct (observations_have_no_order false 100 "" [] w_misses w_missed w_missed_runs) as (_ & _ & H & _). exact (H "/p/x.node").
Defined.

(** An unmeasured file that grew between two loads of it: the ceiling was
    charged its first length, the disclosure states its second. *)
Definition w_addon (data : string) : world :=
  {| disk := {| fs_metadata := λ p, inl {| md_len := N.of_nat (String.length data); md_modified := Some 0%Z |};
                fs_read := λ p, inl (to_bytes data); fs_canonicalize := Some |};
     regular_file := λ _, true; ctx_resolve := λ _ _, inl None |}.
Definition w_regrown : list action :=
  [CallLoad "/p/x.node"] ++ repeat (Step 0 (w_addon "abc")) 8 ++
  [CallLoad "/p/x.node"] ++ repeat (Step 1 (w_addon "abcde")) 8.
Lemma a_regrown_file_is_disclosed_anew :
  match build_run false 100 "" [] w_regrown new_run with
  | Some b => graph_source_bytes (shared b) = 3%N ∧ u_bytes <$> unmeasured_assets (shared b) = [5%N] ∧
              hooks b = [Ending [] 3 (LoadReturned stub); Ending [] 0 (LoadReturned stub)]
  | None => False
  end.
Proof. vm_compute. repeat split. Qed.
