(* ===== verification/Adapter.v ===== *)
(** * The engine adapter (engine/adapter.rs)

    From what the bundler built, or how it failed, to the contract's artifact or
    failure: the retries, the classification of a failure, the single chunk, and
    the disclosure of every byte the number omits. The bundler (Rolldown) is a
    parameter: one attempt's output or diagnostics, with the plugin state it
    left. *)
From stdpp Require Import base list strings pretty.
From S2P Require Import Prelude Stages Results Fingerprints AssetLedger EngineBoundary AssetReport FileSize Paths Text CssDependencies PathMaps Analyze Specifiers VirtualEntry Plugin PluginRuns.

Set Default Proof Using "Type*".

(** ** What the bundler answers with *)

(** The kinds the adapter tells apart. *)
Inductive EventKind :=
  | MissingExportError | AmbiguousExternalNamespaceError
  | ParseError | JsonParseError | TransformError
  | UnresolvedEntry | UnresolvedImport | ResolveError | UnloadableDependencyError
  | OtherEvent (name : string).
(** [bd_kind_text] and [bd_text] are what the kind and the diagnostic print. *)
Record BuildDiagnostic := { bd_kind : EventKind; bd_kind_text : string; bd_text : string }.

(** A module of the chunk: its id, the path it is when it is one, the bytes it
    rendered to. *)
Record RenderedModule := { rm_id : string; rm_path : option string; rm_rendered_length : N }.
Record OutputChunk := {
  oc_code : string;
  oc_modules : list RenderedModule;
  oc_imports : list string;
  oc_exports : list string;
}.
Inductive Output := ChunkOutput (c : OutputChunk) | AssetOutput (filename : string) (source : list ascii).
Record BundleOutput := { out_assets : list Output; out_warnings : list BuildDiagnostic }.

Record ExportEnumeration := {
  ee_names : list string;
  ee_diagnostics : list ImportDiagnostic;
  ee_read_time_fingerprints : list FileFingerprint;
  ee_loaded_paths : list string;
  ee_unhashed_paths : list string;
}.

(** ** Node builtins stay external *)

Definition builtin_specifiers : list string :=
  (NODE_BUILTIN_MODULES ≫= λ m, [m; "node:" +:+ m]) ++ NODE_PREFIX_ONLY_MODULES.
Definition longest (l : list string) : nat := foldr (λ s n, Nat.max (String.length s) n) 0 l.
Definition is_builtin_external (specifier : string) : bool :=
  (String.length specifier <=? longest builtin_specifiers) && bool_decide (specifier ∈ builtin_specifiers).

(** ** Diagnostics *)

Definition stage_for (d : BuildDiagnostic) : string :=
  match bd_kind d with
  | MissingExportError => engine_stage.MISSING_EXPORT
  | AmbiguousExternalNamespaceError => engine_stage.AMBIGUOUS_EXPORT
  | ParseError | JsonParseError | TransformError => engine_stage.PARSE
  | UnresolvedEntry | UnresolvedImport | ResolveError | UnloadableDependencyError => engine_stage.RESOLVE
  | OtherEvent _ => engine_stage.LINK
  end.

Definition engine_diagnostic (stage message : string) : ImportDiagnostic :=
  {| d_stage := stage; d_message := message; d_details := [] |}.
Definition diagnostic_key (d : ImportDiagnostic) : nat * string := (engine_stage.rank (d_stage d), d_message d).
Definition contract_diagnostics (ds : list BuildDiagnostic) : list ImportDiagnostic :=
  stable_sort (cmp_on diagnostic_key (cmp_lex Nat.compare String.compare))
    ((λ d, engine_diagnostic (stage_for d) (bd_kind_text d +:+ ": " +:+ bd_text d)) <$> ds).

Section adapter.
Context `{DISK : FileSystem} (windows : bool).

(** [identity_path_string] without a verbatim prefix. *)
Definition rolldown_entry_path (path : string) : string :=
  let normalized := to_bytes (identity_path_string windows path) in
  match strip_prefix (to_bytes "//?/UNC/") normalized with
  | Some unc => "//" +:+ of_bytes unc
  | None => of_bytes (default normalized (strip_prefix (to_bytes "//?/") normalized))
  end.

Definition build_observations (s : BuildState) : list FileFingerprint * list string :=
  let '(fingerprints, unhashed) := read_time_fingerprints s in
  (sort_and_dedup_fingerprints (fingerprints ++ asset_input_fingerprints windows s), unhashed).

Definition asset_io_message (paths : list string) : string :=
  "supported asset input(s) could not be read during this analysis; retry after the filesystem settles: " +:+
  join_with ", " paths.
Definition asset_io_diagnostic (s : BuildState) : option ImportDiagnostic :=
  match unreadable_asset_paths s with
  | [] => None
  | paths => Some (engine_diagnostic engine_stage.ASSET_IO (asset_io_message paths))
  end.

(** ** Failures *)

Definition newlines (l : list string) : string := join_with newline l.
Definition failure_stage (ds : list BuildDiagnostic) : string :=
  match ds with
  | [] => engine_stage.LINK
  | d :: ds => foldl (λ least d, if engine_stage.rank (stage_for d) <? engine_stage.rank least then stage_for d else least)
                 (stage_for d) ds
  end.

Definition classify_failure (ds : list BuildDiagnostic) (s : BuildState) : Permits.BundleFailure :=
  let failure stage message diagnostics : Permits.BundleFailure :=
    {| Permits.stage := stage; Permits.message := message; Permits.diagnostics := diagnostics;
       Permits.loaded_paths := sorted_loaded_paths s;
       Permits.read_time_fingerprints := (build_observations s).1 |} in
  match (take_breach s).1 with
  | Some breach => failure engine_stage.MODULE_GRAPH_LIMIT breach (contract_diagnostics ds)
  | None =>
      match asset_io_diagnostic s with
      | Some asset_io => failure engine_stage.ASSET_IO (d_message asset_io) (contract_diagnostics ds ++ [asset_io])
      | None =>
          let diagnostics := contract_diagnostics ds in
          failure (failure_stage ds)
            (match diagnostics with
             | [] => "rolldown build failed without diagnostics"
             | _ => newlines (d_message <$> diagnostics)
             end) diagnostics
      end
  end.

(** ** Retries *)

(** [String::contains] of the importer as a diagnostic names it. *)
Definition names_importer (entry : string) (message : string) : bool :=
  contains (to_bytes "imported by " ++ byte 34 :: to_bytes entry ++ [byte 34]) (to_bytes message).
Definition is_internal_unbound_import (failure : Permits.BundleFailure) (entry_stable_ids : list string) : bool :=
  bool_decide (entry_stable_ids ≠ []) && bool_decide (Permits.diagnostics failure ≠ []) &&
  forallb (λ d, bool_decide (d_stage d = engine_stage.MISSING_EXPORT) &&
                negb (existsb (λ entry, names_importer entry (d_message d)) entry_stable_ids))
    (Permits.diagnostics failure).

(** One attempt with the lazy barrel on or off, and missing exports stubbed or
    not: the bundler's answer and the state of the attempt's own plugin. *)
Definition Attempts := nat → bool → bool → (BundleOutput + list BuildDiagnostic) * BuildState.

(** The loop; [n] counts the attempts. [None] is out of fuel. *)
Fixpoint build_with_retries (fuel n : nat) (attempt : Attempts) (lazy_barrel : bool)
    (unbound_imports : option (list ImportDiagnostic)) :
    option (BundleOutput * BuildState * list ImportDiagnostic + Permits.BundleFailure) :=
  match fuel with
  | 0 => None
  | S fuel =>
      let '(r, s) := attempt n lazy_barrel (bool_decide (is_Some unbound_imports)) in
      match r with
      | inl output => Some (inl (output, s, default [] unbound_imports))
      | inr ds =>
          let failure := classify_failure ds s in
          if negb lazy_barrel && bool_decide (unbound_imports = None) &&
             bool_decide (Permits.stage failure = engine_stage.MODULE_GRAPH_LIMIT)
          then build_with_retries fuel (S n) attempt true unbound_imports
          else if bool_decide (unbound_imports = None) && is_internal_unbound_import failure (entry_stable_ids s)
          then build_with_retries fuel (S n) attempt lazy_barrel (Some (Permits.diagnostics failure))
          else Some (inr failure)
      end
  end.

(** ** The artifact *)

Definition chunks (output : BundleOutput) : list OutputChunk :=
  omap (λ o, match o with ChunkOutput c => Some c | AssetOutput _ _ => None end) (out_assets output).
Definition emitted (output : BundleOutput) : list UncountedAsset :=
  omap (λ o, match o with
             | AssetOutput filename source => Some {| u_path := filename; u_bytes := N.of_nat (length source) |}
             | ChunkOutput _ => None
             end) (out_assets output).

Definition single_chunk (output : BundleOutput) (s : BuildState) : OutputChunk + Permits.BundleFailure :=
  match chunks output with
  | [chunk] => inl chunk
  | many =>
      let asset_io := asset_io_diagnostic s in
      inr {| Permits.stage := if bool_decide (unreadable_asset_paths s = []) then engine_stage.OUTPUT_SHAPE
                              else engine_stage.ASSET_IO;
             Permits.message :=
               match asset_io with
               | Some d => d_message d
               | None => "expected exactly one JavaScript chunk, got " +:+ pretty (length many) +:+
                         "; a split graph cannot be measured from one chunk without under-reporting the rest"
               end;
             Permits.diagnostics := contract_diagnostics (out_warnings output) ++ option_list asset_io;
             Permits.loaded_paths := sorted_loaded_paths s;
             Permits.read_time_fingerprints := (build_observations s).1 |}
  end.

Definition uncounted_diagnostic (assets : list UncountedAsset) : option ImportDiagnostic :=
  match assets with
  | [] => None
  | _ => Some (engine_diagnostic diagnostic_stage.UNCOUNTED_ASSETS (uncounted_assets_message assets false))
  end.

Definition contributions_of (modules : list RenderedModule) : list ModuleContribution :=
  omap (λ m, if decide (rm_id m = VIRTUAL_ENTRY_ID) then None
             else match rm_path m with
                  | None => None
                  | Some path => if (rm_rendered_length m =? 0)%N then None
                                 else Some {| mc_path := path; mc_bytes := rm_rendered_length m |}
                  end) modules.

Definition stub_disclosure : ImportDiagnostic :=
  engine_diagnostic engine_stage.MISSING_EXPORT
    "a dependency imports a binding its source module does not export; the graph was measured with that binding stubbed, so whatever the real binding would have retained is NOT in this size, and the import named above is `undefined` wherever it is used".
Definition external_disclosure (import : string) : ImportDiagnostic :=
  engine_diagnostic diagnostic_stage.EXTERNAL ("external module kept as an import boundary: " +:+ import).
Definition boundary_disclosure (specifier : string) : ImportDiagnostic :=
  engine_diagnostic engine_stage.RESOLVE
    ("could not resolve '" +:+ specifier +:+ "'; kept as an import boundary, so anything it would have pulled in is NOT in this size").

Definition all_emitted (output : BundleOutput) (s : BuildState) : list UncountedAsset :=
  stable_sort (cmp_on u_path path_cmp) (emitted output ++ unmeasured_assets s).
Definition artifact_diagnostics (output : BundleOutput) (s : BuildState) (unbound_imports : list ImportDiagnostic)
    (chunk : OutputChunk) : list ImportDiagnostic :=
  contract_diagnostics (out_warnings output) ++
  (if bool_decide (unbound_imports = []) then [] else unbound_imports ++ [stub_disclosure]) ++
  option_list (asset_io_diagnostic s) ++ option_list (uncounted_diagnostic (all_emitted output s)) ++
  (external_disclosure <$> oc_imports chunk) ++ (boundary_disclosure <$> unresolved_externals s).

Definition translate (output : BundleOutput) (s : BuildState) (unbound_imports : list ImportDiagnostic) :
    BundleArtifact + Permits.BundleFailure :=
  match single_chunk output s with
  | inr failure => inr failure
  | inl chunk =>
      let '(fingerprints, unhashed) := build_observations s in
      inl {| code := oc_code chunk;
             FileSize.graph_source_bytes := Plugin.graph_source_bytes s;
             FileSize.loaded_paths := sorted_loaded_paths s;
             art_fingerprints := fingerprints;
             unhashed_paths := unhashed;
             art_contributions := contributions_of (oc_modules chunk);
             exported_names := oc_exports chunk;
             art_diagnostics := artifact_diagnostics output s unbound_imports chunk;
             assets := sorted_assets s;
             emitted_assets := all_emitted output s |}
  end.

(** ** The engine's two operations; three attempts are enough *)

Definition bundle (entries : list BundleEntry) (attempt : Attempts) : option (BundleArtifact + Permits.BundleFailure) :=
  match entries with
  | [] => Some (inr {| Permits.stage := engine_stage.GENERATE; Permits.message := "bundle request contains no entries";
                       Permits.diagnostics := []; Permits.loaded_paths := []; Permits.read_time_fingerprints := [] |})
  | _ =>
      r ← build_with_retries 3 0 attempt false None;
      Some (match r with
            | inl (output, s, unbound) => translate output s unbound
            | inr failure => inr failure
            end)
  end.

Definition enumerate_exports (attempt : Attempts) : option (ExportEnumeration + Permits.BundleFailure) :=
  r ← build_with_retries 3 0 attempt false None;
  Some (match r with
        | inr failure => inr failure
        | inl (output, s, unbound) =>
            match single_chunk output s with
            | inr failure => inr failure
            | inl chunk =>
                let '(fingerprints, unhashed) := build_observations s in
                inl {| ee_names := oc_exports chunk;
                       ee_diagnostics := contract_diagnostics (out_warnings output) ++ unbound ++ option_list (asset_io_diagnostic s);
                       ee_read_time_fingerprints := fingerprints;
                       ee_loaded_paths := sorted_loaded_paths s;
                       ee_unhashed_paths := unhashed |}
            end
        end).
End adapter.

(** ** Builtins *)

Lemma longest_bound s l : s ∈ l → String.length s <= longest l.
Proof. unfold longest. induction 1 as [|t l' Hin IH]; cbn; lia. Qed.

(** The engine externalizes what the document filter calls a builtin. *)
Lemma externals_are_the_builtins s : is_builtin_external s = is_node_builtin_specifier s.
Proof.
  apply eq_true_iff_eq. rewrite (proj1 (builtins_are_exactly_the_listed_ones s)). unfold is_builtin_external.
  assert (Forall (λ m, strip_node m = m) NODE_BUILTIN_MODULES) as Hbare by (apply (bool_decide_unpack _); vm_compute; exact I).
  rewrite Forall_forall in Hbare.
  assert (s ∈ builtin_specifiers ↔ s ∈ NODE_PREFIX_ONLY_MODULES ∨ strip_node s ∈ NODE_BUILTIN_MODULES) as <-.
  { unfold builtin_specifiers. rewrite elem_of_app, list_elem_of_bind. split.
    - intros [(m & Hs & Hm)|?]; [right|by left]. rewrite elem_of_cons, list_elem_of_singleton in Hs. destruct Hs as [->| ->].
      + by rewrite Hbare.
      + unfold strip_node. by rewrite to_bytes_app, strip_prefix_app, of_to_bytes.
    - intros [?|Hb]; [by right|left]. exists (strip_node s). split; [|done]. unfold strip_node.
      rewrite elem_of_cons, list_elem_of_singleton. destruct (strip_prefix _ (to_bytes s)) as [bare|] eqn:E; [|by left].
      right. apply strip_prefix_Some in E. apply (inj to_bytes). by rewrite to_bytes_app, to_of_bytes. }
  rewrite andb_true_iff, bool_decide_eq_true, Nat.leb_le. split; [naive_solver|]. intros H. split; [by apply longest_bound|done].
Qed.

(** ** The order of diagnostics *)

Lemma rank_inj s t : s ∈ engine_stage.ALL → t ∈ engine_stage.ALL → engine_stage.rank s = engine_stage.rank t → s = t.
Proof.
  intros [i Hi]%list_elem_of_lookup [j Hj]%list_elem_of_lookup. rewrite (StageOrder.rank_lookup _ _ Hi), (StageOrder.rank_lookup _ _ Hj).
  intros ->. by simplify_eq.
Qed.
Lemma stage_for_known d : stage_for d ∈ engine_stage.ALL.
Proof. unfold stage_for. destruct (bd_kind d); apply (bool_decide_unpack _); vm_compute; exact I. Qed.

Definition contract_diagnostic (d : BuildDiagnostic) : ImportDiagnostic :=
  engine_diagnostic (stage_for d) (bd_kind_text d +:+ ": " +:+ bd_text d).
Lemma contract_key_inj a b : diagnostic_key (contract_diagnostic a) = diagnostic_key (contract_diagnostic b) →
  contract_diagnostic a = contract_diagnostic b.
Proof.
  unfold diagnostic_key, contract_diagnostic, engine_diagnostic. cbn. intros [= Hr Hm].
  apply rank_inj in Hr as ->; [by rewrite Hm|apply stage_for_known..].
Qed.

Lemma elem_of_contract d ds : d ∈ contract_diagnostics ds ↔ ∃ b, b ∈ ds ∧ d = contract_diagnostic b.
Proof. unfold contract_diagnostics. rewrite stable_sort_perm, list_elem_of_fmap. naive_solver. Qed.
Lemma contract_nil ds : contract_diagnostics ds = [] ↔ ds = [].
Proof.
  split; [|by intros ->]. intros H. destruct ds as [|d ds]; [done|].
  assert (contract_diagnostic d ∈ contract_diagnostics (d :: ds)) as Hin by (apply elem_of_contract; exists d; by split; [left|]).
  rewrite H in Hin. by apply not_elem_of_nil in Hin.
Qed.

(** Sorting by a key that tells the elements apart forgets their order. *)
Lemma sorted_by_key {A B} (f : A → B) (cmp : B → B → comparison) `{!CmpOrder cmp} (l l' : list A) :
  (∀ x y, x ∈ l → y ∈ l → f x = f y → x = y) → l ≡ₚ l' →
  stable_sort (cmp_on f cmp) l = stable_sort (cmp_on f cmp) l'.
Proof.
  intros Hinj Hp. set (a := stable_sort _ l). set (b := stable_sort _ l').
  assert (a ≡ₚ l) as Ha by apply stable_sort_perm. assert (b ≡ₚ l) as Hb by (rewrite Hp; apply stable_sort_perm).
  assert (f <$> a = f <$> b) as Hf.
  { apply (StronglySorted_unique (cmp_le cmp)); [| |by rewrite Ha, Hb].
    - pose proof (stable_sort_sorted f cmp l) as Hs. fold a in Hs. clear -Hs. induction Hs as [|x s Hs IH Hx]; constructor; [done|].
      by apply Forall_fmap.
    - pose proof (stable_sort_sorted f cmp l') as Hs. fold b in Hs. clear -Hs. induction Hs as [|x s Hs IH Hx]; constructor; [done|].
      by apply Forall_fmap. }
  assert (∀ x, x ∈ a → x ∈ l) as Hal by (intros x; by rewrite Ha). assert (∀ x, x ∈ b → x ∈ l) as Hbl by (intros x; by rewrite Hb).
  clearbody a b. clear -Hinj Hf Hal Hbl. revert b Hf Hbl. induction a as [|x a IH]; intros [|y b]; cbn; try done.
  intros [= Hxy Hf] Hbl. f_equal; [by apply Hinj; [apply Hal|apply Hbl|]; try left|].
  apply IH; [|done|]; intros z Hz; [apply Hal|apply Hbl]; by right.
Qed.

Lemma contract_perm ds ds' : ds ≡ₚ ds' → contract_diagnostics ds = contract_diagnostics ds'.
Proof.
  intros Hp. unfold contract_diagnostics. apply sorted_by_key; [apply _| |by rewrite Hp].
  intros x y (a & -> & _)%list_elem_of_fmap (b & -> & _)%list_elem_of_fmap. apply contract_key_inj.
Qed.

(** The earliest stage present. *)
Lemma failure_stage_least ds :
  match ds with
  | [] => failure_stage ds = engine_stage.LINK
  | _ => (∃ d, d ∈ ds ∧ failure_stage ds = stage_for d) ∧
         ∀ d, d ∈ ds → engine_stage.rank (failure_stage ds) <= engine_stage.rank (stage_for d)
  end.
Proof.
  destruct ds as [|d ds]; [done|]. cbn [failure_stage].
  set (next := λ least d, if engine_stage.rank (stage_for d) <? engine_stage.rank least then stage_for d else least).
  assert (∀ ds least, let r := foldl next least ds in
            (r = least ∨ ∃ x, x ∈ ds ∧ r = stage_for x) ∧ engine_stage.rank r <= engine_stage.rank least ∧
            ∀ x, x ∈ ds → engine_stage.rank r <= engine_stage.rank (stage_for x)) as H.
  { clear. induction ds as [|b ds IH]; intros least; cbn [foldl].
    - split; [by left|]. split; [done|]. by intros x ?%not_elem_of_nil.
    - destruct (IH (next least b)) as (Hr & Hle & Hall).
      assert (engine_stage.rank (next least b) <= engine_stage.rank least ∧
              engine_stage.rank (next least b) <= engine_stage.rank (stage_for b)) as [H1 H2].
      { unfold next. destruct (_ <? _) eqn:E; [apply Nat.ltb_lt in E|apply Nat.ltb_ge in E]; lia. }
      split; [|split; [lia|]].
      + destruct Hr as [Hr|(x & Hx & Hr)]; [|right; exists x; by split; [right|]].
        rewrite Hr. unfold next. destruct (_ <? _); [right; exists b; by split; [left|]|by left].
      + intros x [->|Hx]%elem_of_cons; [lia|by apply Hall]. }
  destruct (H ds (stage_for d)) as (Hr & Hle & Hall). split.
  - destruct Hr as [->|(x & Hx & ->)]; [exists d; by split; [left|]|exists x; by split; [right|]].
  - intros x [->|Hx]%elem_of_cons; [done|by apply Hall].
Qed.

Section facts.
Context `{DISK : FileSystem} (windows : bool).

(** C11. A failed build is reported by the earliest cause, whatever order the
    bundler's tasks finished in: a graph that breached a limit before anything
    else, then an input that could not be read, then the stage of least rank
    among the diagnostics; and neither the stage, the message nor the list
    depends on the order of the diagnostics. *)
Theorem failures_have_one_report ds ds' s :
  ds ≡ₚ ds' →
  classify_failure windows ds s = classify_failure windows ds' s ∧
  match limit_breach s with
  | Some breach => Permits.stage (classify_failure windows ds s) = engine_stage.MODULE_GRAPH_LIMIT ∧
                   Permits.message (classify_failure windows ds s) = breach
  | None =>
      if decide (unreadable_asset_paths s = []) then
        (ds = [] ∧ Permits.stage (classify_failure windows ds s) = engine_stage.LINK) ∨
        (∃ d, d ∈ ds ∧ Permits.stage (classify_failure windows ds s) = stage_for d ∧
         ∀ x, x ∈ ds → engine_stage.rank (stage_for d) <= engine_stage.rank (stage_for x))
      else Permits.stage (classify_failure windows ds s) = engine_stage.ASSET_IO
  end.
Proof.
  intros Hp. split.
  - unfold classify_failure. rewrite (contract_perm ds ds' Hp).
    assert (failure_stage ds = failure_stage ds') as ->; [|done].
    pose proof (failure_stage_least ds) as H1. pose proof (failure_stage_least ds') as H2.
    destruct ds as [|d l]; [by apply Permutation_nil in Hp as ->|].
    destruct ds' as [|d' l']; [by apply Permutation_nil_r in Hp|].
    destruct H1 as [(x & Hx & Hsx) H1], H2 as [(y & Hy & Hsy) H2].
    apply rank_inj; [rewrite Hsx; apply stage_for_known|rewrite Hsy; apply stage_for_known|].
    apply Nat.le_antisymm; [rewrite Hsy; apply H1; by rewrite Hp|rewrite Hsx; apply H2; by rewrite <- Hp].
  - unfold classify_failure, asset_io_diagnostic. cbn [take_breach fst]. destruct (limit_breach s) as [b|]; [done|].
    destruct (unreadable_asset_paths s) as [|p ps]; [|done]. cbn. pose proof (failure_stage_least ds) as H.
    destruct ds as [|d l]; [by left|]. right. destruct H as [(x & Hx & Hs) H]. exists x. split; [done|]. by rewrite <- Hs.
Qed.

(** ** Retries *)

(** Why an attempt ran as it did: the lazy barrel follows a breach of the plain
    build, a stub follows a failure of nothing but edges between dependencies,
    whose diagnostics it carries. *)
Definition unbound_only (ds : list ImportDiagnostic) (entry_ids : list string) : Prop :=
  entry_ids ≠ [] ∧ ds ≠ [] ∧
  ∀ d, d ∈ ds → d_stage d = engine_stage.MISSING_EXPORT ∧ ∀ e, e ∈ entry_ids → names_importer e (d_message d) = false.
Record warranted (attempt : Attempts) (n : nat) (lazy : bool) (unbound : option (list ImportDiagnostic)) : Prop := {
  wa_lazy : lazy = true → ∃ m ds s, m < n ∧ attempt m false false = (inr ds, s) ∧
            Permits.stage (classify_failure windows ds s) = engine_stage.MODULE_GRAPH_LIMIT;
  wa_stub : ∀ us, unbound = Some us → ∃ m b ds s, m < n ∧ attempt m b false = (inr ds, s) ∧
            us = Permits.diagnostics (classify_failure windows ds s) ∧ unbound_only us (entry_stable_ids s);
}.

Lemma internal_spec f ids : is_internal_unbound_import f ids = true ↔ unbound_only (Permits.diagnostics f) ids.
Proof.
  unfold is_internal_unbound_import, unbound_only. rewrite !andb_true_iff, !bool_decide_eq_true, forallb_Forall, Forall_forall.
  split.
  - intros [[H1 H2] H3]. split; [done|]. split; [done|]. intros d Hd. specialize (H3 d Hd).
    apply andb_true_iff in H3 as [?%bool_decide_eq_true He]. split; [done|]. intros e Hin.
    apply negb_true_iff in He. destruct (names_importer e (d_message d)) eqn:E; [|done].
    assert (existsb (λ entry, names_importer entry (d_message d)) ids = true) as Hx; [|congruence].
    apply existsb_Exists, Exists_exists. by exists e.
  - intros (H1 & H2 & H3). split; [done|]. intros d Hd. destruct (H3 d Hd) as [Hs He].
    apply andb_true_iff. split; [by apply bool_decide_eq_true|]. apply negb_true_iff.
    destruct (existsb _ _) eqn:E; [|done]. apply existsb_Exists, Exists_exists in E as (e & Hin & Hn). by rewrite He in Hn.
Qed.

Definition attempts_left (lazy : bool) (unbound : option (list ImportDiagnostic)) : nat :=
  match unbound with Some _ => 1 | None => if lazy then 2 else 3 end.

(** What the loop answers with, from an attempt that ran for a reason. *)
Definition answered (attempt : Attempts) (r : BundleOutput * BuildState * list ImportDiagnostic + Permits.BundleFailure) : Prop :=
  ∃ n lazy unbound, n < 3 ∧ warranted attempt n lazy unbound ∧
  match r with
  | inl (output, s, us) => attempt n lazy (bool_decide (is_Some unbound)) = (inl output, s) ∧ us = default [] unbound
  | inr failure => ∃ ds s, attempt n lazy (bool_decide (is_Some unbound)) = (inr ds, s) ∧
      failure = classify_failure windows ds s ∧
      (unbound = None → ¬ unbound_only (Permits.diagnostics failure) (entry_stable_ids s)) ∧
      (unbound = None → lazy = false → Permits.stage failure ≠ engine_stage.MODULE_GRAPH_LIMIT)
  end.

Lemma retries_from attempt fuel n lazy unbound :
  attempts_left lazy unbound <= fuel → n + attempts_left lazy unbound <= 3 → warranted attempt n lazy unbound →
  ∃ r, build_with_retries windows fuel n attempt lazy unbound = Some r ∧ answered attempt r.
Proof.
  revert n lazy unbound. induction fuel as [|fuel IH]; intros n lazy unbound Hf Hn Hw;
    [by destruct unbound, lazy; cbn in Hf; lia|]. cbn [build_with_retries].
  assert (n < 3) as Hn3 by (destruct unbound, lazy; cbn in Hn; lia).
  destruct (attempt n lazy _) as [[output|ds] s] eqn:Ha.
  { eexists. split; [done|]. by exists n, lazy, unbound. }
  pose proof (internal_spec (classify_failure windows ds s) (entry_stable_ids s)) as Hi.
  destruct unbound as [us|].
  { rewrite andb_false_r. cbn. eexists. split; [done|]. exists n, lazy, (Some us). repeat split; try done; try apply Hw. by exists ds, s. }
  rewrite !(bool_decide_eq_true_2 (None = None)), andb_true_r by done. rewrite bool_decide_eq_false_2 in Ha by by intros [].
  destruct lazy; cbn [negb andb].
  - destruct (is_internal_unbound_import _ _) eqn:E; cbn.
    + apply IH; cbn in *; [lia|lia|]. split.
      * intros _. destruct Hw as [(m & d & s0 & ? & ? & ?) _]; [done|]. exists m, d, s0. by split; [lia|].
      * intros us [= <-]. exists n, true, ds, s. split; [lia|]. split; [done|]. split; [done|]. by apply Hi.
    + eexists. split; [done|]. exists n, true, None. split; [done|]. split; [done|]. exists ds, s.
      rewrite bool_decide_eq_false_2 by by intros []. split; [done|]. split; [done|]. split; [|done].
      intros _ Hu. apply Hi in Hu. congruence.
  - case_bool_decide as Hl; cbn.
    { apply IH; cbn in *; [lia|lia|]. split; [|done]. intros _. exists n, ds, s. by split; [lia|]. }
    destruct (is_internal_unbound_import _ _) eqn:E; cbn.
    + apply IH; cbn in *; [lia|lia|]. split; [done|]. intros us [= <-]. exists n, false, ds, s.
      split; [lia|]. split; [done|]. split; [done|]. by apply Hi.
    + eexists. split; [done|]. exists n, false, None. split; [done|]. split; [done|]. exists ds, s.
      rewrite bool_decide_eq_false_2 by by intros []. split; [done|]. split; [done|]. split; [|done].
      intros _ Hu. apply Hi in Hu. congruence.
Qed.

(** C10. A build ends within three attempts, whatever the bundler does, and each
    retry has its reason: the lazy barrel only after the plain build breached a
    graph limit, stubs only after a failure made of nothing but missing exports
    none of which the build's own entry asked for, whose diagnostics the answer
    carries; what comes back is that attempt's output with the state of its own
    plugin, or the failure of an attempt no retry was warranted for. *)
Theorem retries_have_reasons attempt :
  ∃ r, (∀ fuel, 3 <= fuel → build_with_retries windows fuel 0 attempt false None = Some r) ∧ answered attempt r.
Proof.
  assert (warranted attempt 0 false None) as Hw by by split.
  destruct (retries_from attempt 3 0 false None) as (r & Hr & Ha); [cbn; lia..|done|].
  exists r. split; [|done]. intros fuel Hf.
  assert (∀ f g n lazy unbound x, f <= g → build_with_retries windows f n attempt lazy unbound = Some x →
            build_with_retries windows g n attempt lazy unbound = Some x) as Hmono.
  { clear. induction f as [|f IH]; intros [|g] n lazy unbound x Hfg; cbn [build_with_retries]; try done; try lia.
    destruct (attempt n lazy _) as [[?|ds] s]; [done|].
    destruct (_ && _ && _); [apply IH; lia|]. destruct (_ && _); [apply IH; lia|done]. }
  by apply (Hmono 3).
Qed.

(** ** What an artifact discloses *)

Lemma single_chunk_spec output s c : single_chunk windows output s = inl c ↔ chunks output = [c].
Proof. unfold single_chunk. destruct (chunks output) as [|? [|? ?]]; naive_solver. Qed.

Lemma elem_of_contributions path n modules :
  {| mc_path := path; mc_bytes := n |} ∈ contributions_of modules ↔
  ∃ m, m ∈ modules ∧ rm_id m ≠ VIRTUAL_ENTRY_ID ∧ rm_path m = Some path ∧ rm_rendered_length m = n ∧ n ≠ 0%N.
Proof.
  unfold contributions_of. rewrite list_elem_of_omap. split.
  - intros (m & Hm & H). exists m. case_decide; [done|]. destruct (rm_path m); [|done].
    destruct (rm_rendered_length m =? 0)%N eqn:E; [done|]. apply N.eqb_neq in E. by simplify_eq.
  - intros (m & Hm & Hid & Hp & Hn & Hz). exists m. split; [done|]. rewrite decide_False, Hp, Hn by done.
    by rewrite (proj2 (N.eqb_neq _ _)).
Qed.

Lemma app_nil_iff {A} (l r : list A) : l ++ r = [] ↔ l = [] ∧ r = [].
Proof. split; [apply app_nil|by intros [-> ->]]. Qed.
Lemma fmap_nil_iff {A B} (f : A → B) (l : list A) : f <$> l = [] ↔ l = [].
Proof. by destruct l. Qed.
Lemma option_list_nil {A} (o : option A) : option_list o = [] ↔ o = None.
Proof. by destruct o. Qed.
Lemma asset_io_none s : asset_io_diagnostic s = None ↔ unreadable_asset_paths s = [].
Proof. unfold asset_io_diagnostic. by destruct (unreadable_asset_paths s). Qed.
Lemma uncounted_none l : uncounted_diagnostic l = None ↔ l = [].
Proof. by destruct l. Qed.
Lemma all_emitted_perm output s : all_emitted output s ≡ₚ emitted output ++ unmeasured_assets s.
Proof. apply stable_sort_perm. Qed.

Lemma diagnostics_nil output s unbound chunk :
  artifact_diagnostics output s unbound chunk = [] ↔
  out_warnings output = [] ∧ unbound = [] ∧ unreadable_asset_paths s = [] ∧
  (emitted output = [] ∧ unmeasured_assets s = []) ∧ oc_imports chunk = [] ∧ unresolved_externals s = [].
Proof.
  unfold artifact_diagnostics. rewrite !app_nil_iff, contract_nil, !option_list_nil, asset_io_none, uncounted_none, !fmap_nil_iff.
  assert (all_emitted output s = [] ↔ emitted output = [] ∧ unmeasured_assets s = []) as ->.
  { rewrite <- app_nil_iff. pose proof (all_emitted_perm output s) as Hp.
    split; intros H; rewrite H in Hp; [by apply Permutation_nil_l in Hp|by apply Permutation_nil_r in Hp]. }
  case_bool_decide as Hu; [naive_solver|]. rewrite app_nil_iff. naive_solver.
Qed.

Context `{BU : Bundler} `{CH : ContentHash} (max_graph_source_bytes : N) (entry_source : string)
        (targets : list PreResolvedTarget).

(** C7. An artifact is of one chunk, its rows the chunk's own modules that
    rendered to something, and it says everything it leaves out: over whatever
    run of the plugin's hooks, a specifier the resolver refused, an input that
    could not be read, a file shipped but not measured, a stubbed binding and
    an external import each have their diagnostic, and there is no diagnostic at
    all exactly when there was none of these and the bundler did not warn. What
    is recorded is what happened: once every hook has returned, every
    observation of a supported asset that failed and every subpath the resolver
    refused is recorded, and unless a limit was breached every supported asset
    that was read is among the artifact's assets or its disclosed files. *)
Theorem omissions_are_disclosed l b output unbound art :
  build_run windows max_graph_source_bytes entry_source targets l new_run = Some b →
  translate windows output (shared b) unbound = inl art →
  (∃ chunk, chunks output = [chunk] ∧ code art = oc_code chunk ∧
     (∀ path n, {| mc_path := path; mc_bytes := n |} ∈ art_contributions art ↔
        ∃ m, m ∈ oc_modules chunk ∧ rm_id m ≠ VIRTUAL_ENTRY_ID ∧ rm_path m = Some path ∧
             rm_rendered_length m = n ∧ n ≠ 0%N) ∧
     (∀ x, x ∈ oc_imports chunk → external_disclosure x ∈ art_diagnostics art) ∧
     (art_diagnostics art = [] ↔
        out_warnings output = [] ∧ unbound = [] ∧ oc_imports chunk = [] ∧ emitted output = [] ∧
        unmeasured_assets (shared b) = [] ∧ external_names (log b) = [] ∧ ¬ ∃ p, RecordFailed p Unreadable ∈ log b)) ∧
  (∀ x, RecordExternal x ∈ log b → boundary_disclosure x ∈ art_diagnostics art) ∧
  ((∃ p, RecordFailed p Unreadable ∈ log b) → ∃ d, d ∈ art_diagnostics art ∧ d_stage d = engine_stage.ASSET_IO) ∧
  (∀ u, u ∈ unmeasured_assets (shared b) ++ emitted output → u ∈ emitted_assets art ∧
     engine_diagnostic diagnostic_stage.UNCOUNTED_ASSETS (uncounted_assets_message (emitted_assets art) false)
       ∈ art_diagnostics art) ∧
  (∀ d, d ∈ unbound → d ∈ art_diagnostics art ∧ stub_disclosure ∈ art_diagnostics art) ∧
  (Forall returned (hooks b) →
     let T := trace windows max_graph_source_bytes entry_source targets l new_run in
     (∀ w h e, (w, h) ∈ T → omitted w h e → e ∈ log b) ∧
     (limit_breach (shared b) = None → ∀ w id path real md reserved data c,
        (w, Loading id (Read path real md reserved)) ∈ T → classify_asset_class path = Some c →
        @fs_read (disk w) real = inl data →
        match c with
        | Counted _ => ∃ a, a ∈ assets art ∧ path_eqb (a_path a) real = true
        | Unmeasured => ∃ u, u ∈ emitted_assets art ∧ path_eqb (u_path u) real = true
        end)).
Proof.
  intros Hrun Ht. pose proof (build_run_ok _ _ _ _ l _ _ (new_run_ok _) Hrun) as Hok.
  pose proof (bo_reported _ _ Hok) as Hr.
  assert (∀ x, x ∈ externals (shared b) ↔ RecordExternal x ∈ log b) as Hext.
  { intros x. rewrite (rp_externals _ _ Hr), elem_of_dedup, elem_of_sort. unfold external_names.
    rewrite list_elem_of_omap. split; [intros ([] & ? & ?); by simplify_eq|intros H; by eexists]. }
  pose proof (unreadable_reported (shared b) (log b) Hr) as Hunread.
  unfold translate in Ht. destruct (single_chunk windows output (shared b)) as [chunk|] eqn:Hc; [|done].
  destruct (build_observations windows (shared b)) as [fps unhashed]. injection Ht as <-. cbn [art_diagnostics emitted_assets code art_contributions].
  apply single_chunk_spec in Hc. unfold artifact_diagnostics.
  split; [exists chunk; split; [done|split; [done|split; [intros; apply elem_of_contributions|split]]]|].
  3: split; [|split; [|split; [|split]]].
  - intros x Hx. rewrite !elem_of_app. do 4 right. left. by apply list_elem_of_fmap_2.
  - change (artifact_diagnostics output (shared b) unbound chunk = [] ↔ out_warnings output = [] ∧ unbound = [] ∧
      oc_imports chunk = [] ∧ emitted output = [] ∧ unmeasured_assets (shared b) = [] ∧ external_names (log b) = [] ∧
      ¬ ∃ p, RecordFailed p Unreadable ∈ log b).
    rewrite diagnostics_nil, <- Hunread.
    assert (unresolved_externals (shared b) = [] ↔ external_names (log b) = []) as ->.
    { unfold unresolved_externals. rewrite (rp_externals _ _ Hr). split; [|by intros ->]. intros Hn.
      apply list.elem_of_nil_inv. intros x Hx.
      assert (x ∈ dedup (sort String.compare (external_names (log b)))) as Hin by (by rewrite elem_of_dedup, elem_of_sort).
      rewrite Hn in Hin. by apply not_elem_of_nil in Hin. }
    assert (unreadable_asset_paths (shared b) = [] ↔ ¬ unreadable_asset_paths (shared b) ≠ []) as Hnn
      by (destruct (unreadable_asset_paths (shared b)); naive_solver).
    rewrite <- Hnn. naive_solver.
  - intros x Hx. rewrite !elem_of_app. do 5 right. apply list_elem_of_fmap_2. by apply Hext.
  - intros Hp%Hunread. destruct (asset_io_diagnostic (shared b)) as [d|] eqn:Hd; [|by apply asset_io_none in Hd].
    exists d. split; [rewrite !elem_of_app; do 2 right; left; by left|]. unfold asset_io_diagnostic in Hd.
    destruct (unreadable_asset_paths (shared b)); [done|]. by injection Hd as <-.
  - intros u Hu. assert (u ∈ all_emitted output (shared b)) as Hin by (rewrite all_emitted_perm, elem_of_app; rewrite elem_of_app in Hu; naive_solver).
    split; [done|]. rewrite !elem_of_app. do 3 right. left. unfold uncounted_diagnostic.
    destruct (all_emitted output (shared b)); [by apply not_elem_of_nil in Hin|by left].
  - intros d Hd. rewrite bool_decide_eq_false_2 by (intros ->; by apply not_elem_of_nil in Hd).
    split; rewrite !elem_of_app; right; left; [by left|right; by left].
  - intros Hret. split; [intros w h e Hin Ho; by apply (returned_disclosed _ _ _ _ l b w h e Hrun Hret Hin Ho)|]. intros Hn w id path real md r data c Hin Hcl Hr'.
    pose proof (returned_landed _ _ _ _ l b w id path real md r data c Hrun Hret Hn Hin Hcl Hr') as Hl. cbn [assets].
    destruct c; destruct Hl as (x & Hx & Hp); exists x; (split; [|done]).
    + unfold sorted_assets. by rewrite stable_sort_perm.
    + rewrite all_emitted_perm, elem_of_app. by right.
Qed.
End facts.

(** ** Concrete answers *)

Definition w_diagnostic (k : EventKind) (text : string) : BuildDiagnostic :=
  {| bd_kind := k; bd_kind_text := "E"; bd_text := text |}.
Definition w_parse := w_diagnostic ParseError "a syntax error".
Definition w_missing := w_diagnostic MissingExportError "no such export".
#[local] Existing Instance w_disk.
#[local] Existing Instance small_bundler.
#[local] Existing Instance small_hash.
Lemma failures_have_one_report_witness :
  classify_failure false [w_missing; w_parse] new_build = classify_failure false [w_parse; w_missing] new_build ∧
  Permits.stage (classify_failure false [w_missing; w_parse] new_build) = engine_stage.PARSE.
Proof.
  split; [|done]. apply (failures_have_one_report false [w_missing; w_parse] [w_parse; w_missing] new_build).
  apply Permutation_swap.
Defined.

(** A build whose graph has a refused subpath and nothing else to say. *)
Definition w_output : BundleOutput :=
  {| out_assets := [ChunkOutput {| oc_code := "go()"; oc_modules := [{| rm_id := "/p/i.js"; rm_path := Some "/p/i.js"; rm_rendered_length := 4 |}];
                                   oc_imports := []; oc_exports := [] |}];
     out_warnings := [] |}.
Definition w_artifact_of : BundleArtifact + Permits.BundleFailure := translate false w_output (shared w_missed) [].
Lemma w_translated : ∃ art, translate false w_output (shared w_missed) [] = inl art ∧ art_diagnostics art = [boundary_disclosure "pkg/sub"].
Proof. eexists. split; [vm_compute; reflexivity|]. vm_compute. reflexivity. Qed.
Lemma omissions_are_disclosed_witness :
  ∃ art, translate false w_output (shared w_missed) [] = inl art ∧ boundary_disclosure "pkg/sub" ∈ art_diagnostics art.
Proof.
  destruct w_translated as (art & Ht & _). exists art. split; [exact Ht|].
  destruct (omissions_are_disclosed false 100 "" [] w_misses w_missed w_output [] art w_missed_runs Ht) as (_ & H & _).
  apply (H "pkg/sub").
  assert (log w_missed = [RecordExternal "pkg/sub"; RecordFailed "/p/./x.node" Absent]) as -> by (vm_compute; reflexivity).
  left.
Defined.
