(* ===== verification/Completions.v ===== *)
(** * Completions (document/completion.rs, pipeline/export_list.rs, service.rs)

    Which import's braces hold the cursor, what that package exports, and the
    answers to the completion and enumeration requests. The parser is a
    parameter, as is one build that enumerates exports ([Adapter]'s, behind the
    execution boundary); what the memo of builds answers is [BuildMemo]'s. *)
From stdpp Require Import base gmap list strings pretty.
From S2P Require Import Prelude Stages Results Fingerprints CacheKeys EngineBoundary ProjectRegistry Paths Manifests Resolver Analyze Text Specifiers Positions ScriptRegions DetectedImports Documents Handlers Adapter.

Set Default Proof Using "Type*".

(** ** The statement at the cursor *)

Record NamedImportCompletionContext := {
  nc_specifier : string;
  nc_imported_names : list string;
  nc_runtime : ImportRuntime;
}.
Record NamedImportGroup := { ng_specifier : string; ng_statement : Span; ng_imported_names : list string }.
Record OffsetRange := { or_start : nat; or_end : nat }.

Definition open_brace : ascii := "{"%char.
Definition close_brace : ascii := "}"%char.

(** [source.get(a..b)] is [slice]: [None] off a character boundary. *)
Definition named_import_member_range (source : list ascii) (statement_span : Span) : option OffsetRange :=
  statement ← slice source (sp_start statement_span) (sp_end statement_span);
  open ← find_sub [open_brace] statement;
  close ← (λ i, i + open + 1) <$> find_sub [close_brace] (drop (open + 1) statement);
  Some {| or_start := sp_start statement_span + open + 1; or_end := sp_start statement_span + close |}.
Definition within (range : option OffsetRange) (offset : nat) : bool :=
  match range with
  | Some r => (or_start r <=? offset) && (offset <=? or_end r)
  | None => false
  end.

(** The group of an entry's statement, made when it is first seen. *)
Fixpoint add_entry (e : ImportEntry) (groups : list NamedImportGroup) : list NamedImportGroup :=
  let name := match ie_name e with ImportName name => [name] | _ => [] end in
  match groups with
  | [] => [{| ng_specifier := ie_request e; ng_statement := ie_statement e; ng_imported_names := name |}]
  | g :: groups =>
      if decide (ng_statement g = ie_statement e)
      then {| ng_specifier := ng_specifier g; ng_statement := ng_statement g; ng_imported_names := ng_imported_names g ++ name |} :: groups
      else g :: add_entry e groups
  end.
(** Statements start at different places, so the order of the map the groups
    come from does not show. *)
Definition named_groups (md : ModuleRecord) : list NamedImportGroup :=
  stable_sort (cmp_on (λ g, sp_start (ng_statement g)) Nat.compare)
    (foldl (λ groups e, add_entry e groups) [] (filter (λ e, ie_is_type e = false) (import_entries md))).

(** The runtime is filled in by [region_completion_context]. *)
Definition completion_context_from_module_record (source : list ascii) (offset : nat) (md : ModuleRecord) :
    option NamedImportCompletionContext :=
  match list_find (λ g, within (named_import_member_range source (ng_statement g)) offset = true) (named_groups md) with
  | Some (_, g) =>
      Some {| nc_specifier := ng_specifier g; nc_imported_names := dedup (sort String.compare (ng_imported_names g));
              nc_runtime := Component |}
  | None =>
      let requests := '(specifier, requested) ← requested_modules md;
                      pair specifier <$> filter (λ r, rm_is_import r && negb (rm_is_type r) = true) requested in
      match list_find (λ r, within (named_import_member_range source (rm_statement r.2)) offset = true) requests with
      | Some (_, (specifier, _)) =>
          Some {| nc_specifier := specifier; nc_imported_names := []; nc_runtime := Component |}
      | None => None
      end
  end.

Section context.
Context (parse : ScriptRegion → Parsed).
Definition region_completion_context (region : ScriptRegion) (offset : nat) : option NamedImportCompletionContext :=
  let parsed := parse region in
  if fatal_error parsed || bool_decide (errors parsed ≠ []) then None
  else
    (λ c, {| nc_specifier := nc_specifier c; nc_imported_names := nc_imported_names c; nc_runtime := rg_runtime region |})
    <$> completion_context_from_module_record (rg_source region) offset (module_record parsed).

Fixpoint first_context (offset : nat) (regions : list ScriptRegion) : option NamedImportCompletionContext :=
  match regions with
  | [] => None
  | region :: regions =>
      if (offset <? rg_offset region) || (rg_offset region + length (rg_source region) <? offset) then first_context offset regions
      else match region_completion_context region (offset - rg_offset region) with
           | Some c => Some c
           | None => first_context offset regions
           end
  end.
Definition named_import_completion_context (filename : string) (source : list ascii) (utf16_cursor_offset : nat) :
    option NamedImportCompletionContext :=
  first_context (byte_offset_for_utf16 source utf16_cursor_offset) (script_regions_for_document filename source).
End context.

(** ** What a package exports (pipeline/export_list.rs) *)

(** What the memo is given: the enumeration under the generation read before
    its build. *)
Record StoredEnumeration := {
  se_entry_path : string; se_runtime : ImportRuntime; se_enumeration : ExportEnumeration;
  se_fingerprints : list FileFingerprint; se_generation : N;
}.

(** ** Requests *)

Record EnumerateExportsRequest := {
  er_version : N; er_request_id : N; er_workspace_root : string; er_active_document_path : string;
  er_specifier : string; er_package_name : string; er_package_version : string; er_cursor_offset : option nat;
}.
Record EnumerateExportsResponse := {
  es_version : N; es_request_id : N; es_specifier : string; es_exports : list string;
  es_error : option string; es_diagnostics : list ImportDiagnostic;
}.
Record CompleteImportMembersRequest := {
  cq_version : N; cq_request_id : N; cq_workspace_root : string; cq_active_document_path : string;
  cq_source : list ascii; cq_cursor_offset : nat;
}.
Record CompleteImportMembersResponse := {
  cs_version : N; cs_request_id : N; cs_specifier : option string; cs_exports : list string;
  cs_imported_names : list string; cs_error : option string; cs_diagnostics : list ImportDiagnostic;
}.

Definition completes_version (version : N) : bool := (2 <=? version)%N && (version <=? PROTOCOL_VERSION)%N.
Definition protocol_error_exports_response (request : EnumerateExportsRequest) (message : string) : EnumerateExportsResponse :=
  {| es_version := N.min (er_version request) PROTOCOL_VERSION; es_request_id := er_request_id request;
     es_specifier := er_specifier request; es_exports := []; es_error := Some message;
     es_diagnostics := [{| d_stage := "protocol"; d_message := message; d_details := ["specifier: " +:+ er_specifier request] |}] |}.

Section service.
Context `{FL : Files, ML : ManifestLibraries, OX : Oxc, DISK : FileSystem, CH : ContentHash}.
Context (parse : ScriptRegion → Parsed) (windows : bool)
        (memo_get : string → ImportRuntime → option ExportEnumeration) (cache_generation : N)
        (enumerate_exports_sync : string → ImportRuntime → ExportEnumeration + Permits.BundleFailure).

Definition enumerate_exports_cached (context : AnalysisContext) (package_root entry_path : string) (runtime : ImportRuntime) :
    (ExportEnumeration + Permits.BundleFailure) * option StoredEnumeration :=
  match memo_get entry_path runtime with
  | Some cached => (inl cached, None)
  | None =>
      match enumerate_exports_sync entry_path runtime with
      | inr failure => (inr failure, None)
      | inl enumeration =>
          (inl enumeration,
           if decide (ee_unhashed_paths enumeration = []) then
             Some {| se_entry_path := entry_path; se_runtime := runtime; se_enumeration := enumeration;
                     se_fingerprints := manifest_augmented_fingerprints windows context package_root
                                          (ee_read_time_fingerprints enumeration) (ee_loaded_paths enumeration);
                     se_generation := cache_generation |}
           else None)
      end
  end.

Definition enumerate_exports_with_runtime (request : EnumerateExportsRequest) (runtime : ImportRuntime) :
    EnumerateExportsResponse * option StoredEnumeration :=
  let context := {| workspace_root := er_workspace_root request; active_document_path := er_active_document_path request |} in
  let import_request := {| rq_specifier := er_specifier request; rq_package_name := er_package_name request;
                           rq_version := er_package_version request; rq_named := []; rq_import_kind := Namespace;
                           rq_runtime := runtime |} in
  let answer exports error diagnostics : EnumerateExportsResponse :=
    {| es_version := er_version request; es_request_id := er_request_id request; es_specifier := er_specifier request;
       es_exports := exports; es_error := error; es_diagnostics := diagnostics |} in
  match resolve_package_entry (active_document_path context) import_request with
  | inr error => (answer [] (Some error) [for_stage "entry_resolution" error], None)
  | inl resolved =>
      match enumerate_exports_cached context (Resolver.package_root resolved) (Resolver.entry_path resolved) runtime with
      | (inl enumeration, stored) =>
          (answer (ee_names enumeration) None ((λ d, for_stage (d_stage d) (d_message d)) <$> ee_diagnostics enumeration), stored)
      | (inr failure, stored) =>
          (answer [] (Some (Permits.message failure)) [for_stage (Permits.stage failure) (Permits.message failure)], stored)
      end
  end.

(** The document's text on disk, classified at the cursor. *)
Definition runtime_for_enumeration (request : EnumerateExportsRequest) : ImportRuntime :=
  match er_cursor_offset request with
  | None => Component
  | Some offset =>
      match read_to_string (er_active_document_path request) with
      | inl source => runtime_at_offset (er_active_document_path request) (to_bytes source) offset
      | inr _ => Component
      end
  end.

Definition service_enumerate_exports (request : EnumerateExportsRequest) :
    EnumerateExportsResponse * option StoredEnumeration :=
  if negb (completes_version (er_version request)) then
    ({| es_version := N.min (er_version request) PROTOCOL_VERSION; es_request_id := er_request_id request;
        es_specifier := er_specifier request; es_exports := []; es_error := Some (unsupported (er_version request));
        es_diagnostics := [] |}, None)
  else enumerate_exports_with_runtime request (runtime_for_enumeration request).

Definition complete_import_members (request : CompleteImportMembersRequest) :
    CompleteImportMembersResponse * option StoredEnumeration :=
  let answer version specifier exports names error diagnostics : CompleteImportMembersResponse :=
    {| cs_version := version; cs_request_id := cq_request_id request; cs_specifier := specifier; cs_exports := exports;
       cs_imported_names := names; cs_error := error; cs_diagnostics := diagnostics |} in
  if negb (completes_version (cq_version request)) then
    (answer (N.min (cq_version request) PROTOCOL_VERSION) None [] [] (Some (unsupported (cq_version request)))
       [for_stage "protocol" "unsupported protocol version"], None)
  else
    match named_import_completion_context parse (cq_active_document_path request) (cq_source request) (cq_cursor_offset request) with
    | None => (answer (cq_version request) None [] [] None [], None)
    | Some c =>
        let package_name := get_package_name (nc_specifier c) in
        match resolve_installed_package_version (cq_active_document_path request) package_name with
        | inr error =>
            (answer (cq_version request) (Some (nc_specifier c)) [] (nc_imported_names c) (Some error)
               [for_stage "package_resolution" error], None)
        | inl package_version =>
            let '(response, stored) := enumerate_exports_with_runtime
              {| er_version := cq_version request; er_request_id := cq_request_id request;
                 er_workspace_root := cq_workspace_root request; er_active_document_path := cq_active_document_path request;
                 er_specifier := nc_specifier c; er_package_name := package_name; er_package_version := package_version;
                 er_cursor_offset := None |} (nc_runtime c) in
            ({| cs_version := es_version response; cs_request_id := es_request_id response;
                cs_specifier := Some (nc_specifier c); cs_exports := es_exports response;
                cs_imported_names := nc_imported_names c; cs_error := es_error response;
                cs_diagnostics := es_diagnostics response |}, stored)
        end
    end.
End service.

(** ** The braces and the names *)

Lemma find_byte_spec c l i : find_sub [c] l = Some i ↔ ∃ pre suf, l = pre ++ c :: suf ∧ c ∉ pre ∧ length pre = i.
Proof.
  revert i. induction l as [|a l IH]; intros i.
  { split; [done|]. intros (pre & suf & H & _). by destruct pre. }
  cbn [find_sub]. unfold starts_with. cbn [strip_prefix]. case_decide as Hc.
  - subst. split.
    + intros [= <-]. exists [], l. split; [done|]. split; [apply not_elem_of_nil|done].
    + intros (pre & suf & H & Hn & <-). destruct pre as [|b pre]; [done|]. injection H as <- _. by destruct Hn; left.
  - split.
    + destruct (find_sub [c] l) as [j|] eqn:E; [|done]. intros [= <-].
      destruct (proj1 (IH j) eq_refl) as (pre & suf & -> & Hn & <-).
      exists (a :: pre), suf. split; [done|]. split; [by apply not_elem_of_cons|done].
    + intros (pre & suf & H & Hn & <-). destruct pre as [|b pre]; [by injection H as ->|]. injection H as -> ->.
      apply not_elem_of_cons in Hn as [_ Hn]. cbn. assert (find_sub [c] (pre ++ c :: suf) = Some (length pre)) as ->; [|done].
      apply IH. by exists pre, suf.
Qed.

(** The range is what the statement's first braces hold. *)
Lemma member_range_spec source span r :
  named_import_member_range source span = Some r ↔
  ∃ pre members suf, slice source (sp_start span) (sp_end span) = Some (pre ++ open_brace :: members ++ close_brace :: suf) ∧
    open_brace ∉ pre ∧ close_brace ∉ members ∧
    or_start r = sp_start span + length pre + 1 ∧ or_end r = or_start r + length members.
Proof.
  unfold named_import_member_range. split.
  - destruct (slice _ _ _) as [st|]; [|done]. cbn. destruct (find_sub [open_brace] st) as [o|] eqn:Ho; [|done]. cbn.
    apply find_byte_spec in Ho as (pre & rest & -> & Hpre & <-).
    rewrite drop_app_add; cbn [drop]; rewrite drop_0.
    destruct (find_sub [close_brace] rest) as [c|] eqn:Hc; [|done]. cbn. intros [= <-].
    apply find_byte_spec in Hc as (members & suf & -> & Hm & <-). exists pre, members, suf. cbn. repeat split; try done; lia.
  - intros (pre & members & suf & -> & Hpre & Hm & Hs & He). cbn.
    rewrite (proj2 (find_byte_spec open_brace _ (length pre))) by by exists pre, (members ++ close_brace :: suf). cbn.
    rewrite drop_app_add; cbn [drop]; rewrite drop_0.
    rewrite (proj2 (find_byte_spec close_brace _ (length members))) by by exists members, suf. cbn.
    destruct r as [a b]. cbn in *. f_equal. f_equal; lia.
Qed.

Definition runtime_entries (md : ModuleRecord) : list ImportEntry := filter (λ e, ie_is_type e = false) (import_entries md).
Definition entry_names (statement : Span) (es : list ImportEntry) : list string :=
  es ≫= λ e, if decide (ie_statement e = statement) then match ie_name e with ImportName n => [n] | _ => [] end else [].

(** The groups made so far: one a statement, with its names and its specifier. *)
Definition grouped (es : list ImportEntry) (groups : list NamedImportGroup) : Prop :=
  (∀ s, s ∈ ng_statement <$> groups ↔ s ∈ ie_statement <$> es) ∧ NoDup (ng_statement <$> groups) ∧
  ∀ g, g ∈ groups → ng_imported_names g = entry_names (ng_statement g) es ∧
    ∃ e, e ∈ es ∧ ie_statement e = ng_statement g ∧ ng_specifier g = ie_request e.

Lemma add_entry_statements e groups :
  ng_statement <$> add_entry e groups =
  (ng_statement <$> groups) ++ (if decide (ie_statement e ∈ ng_statement <$> groups) then [] else [ie_statement e]).
Proof.
  induction groups as [|g groups IH]; [done|]. cbn [add_entry]. destruct (decide (ng_statement g = ie_statement e)) as [Hs|Hs]; cbn.
  - rewrite decide_True by (rewrite Hs; by left). by rewrite app_nil_r.
  - rewrite IH. f_equal. f_equal. destruct (decide (ie_statement e ∈ ng_statement <$> groups)).
    + by rewrite decide_True by by right.
    + by rewrite decide_False by by apply not_elem_of_cons.
Qed.

Lemma elem_of_add_entry e groups g : NoDup (ng_statement <$> groups) → g ∈ add_entry e groups →
  (g ∈ groups ∧ ng_statement g ≠ ie_statement e) ∨
  (ng_statement g = ie_statement e ∧
   ((ng_imported_names g = entry_names (ie_statement e) [e] ∧ ng_specifier g = ie_request e ∧ ie_statement e ∉ ng_statement <$> groups) ∨
    ∃ g', g' ∈ groups ∧ ng_statement g' = ie_statement e ∧ ng_specifier g = ng_specifier g' ∧
          ng_imported_names g = ng_imported_names g' ++ entry_names (ie_statement e) [e])).
Proof.
  assert (entry_names (ie_statement e) [e] = match ie_name e with ImportName n => [n] | _ => [] end) as Hn
    by (cbn; rewrite decide_True by done; by rewrite app_nil_r).
  rewrite Hn. induction groups as [|x groups IH]; cbn [add_entry fmap list_fmap].
  - intros _ ->%list_elem_of_singleton. right. split; [done|]. left. repeat split. apply not_elem_of_nil.
  - intros [Hx Hnd]%NoDup_cons. case_decide as Hs.
    + intros [->|Hg]%elem_of_cons.
      * right. cbn. split; [done|]. right. exists x. split; [by left|]. done.
      * left. split; [by right|]. intros He. apply Hx. rewrite Hs, <- He. by apply list_elem_of_fmap_2.
    + intros [->|Hg]%elem_of_cons; [left; by split; [left|]|].
      destruct (IH Hnd Hg) as [[? ?]|[? [(? & ? & ?)|(g' & ? & ?)]]]; [left; by split; [right|]|right..]; (split; [done|]).
      * left. repeat split; try done. by apply not_elem_of_cons.
      * right. exists g'. by split; [right|].
Qed.

Lemma grouped_entries es : grouped es (foldl (λ groups e, add_entry e groups) [] es).
Proof.
  induction es as [|e es IH] using rev_ind.
  { split; [done|]. split; [constructor|]. by intros g ?%not_elem_of_nil. }
  rewrite foldl_app. cbn [foldl]. set (groups := foldl _ [] es) in *. destruct IH as (Hs & Hn & Hg).
  split; [|split].
  - intros s. rewrite add_entry_statements, fmap_app, !elem_of_app, Hs. cbn.
    case_decide as Hin; rewrite ?elem_of_nil, ?list_elem_of_singleton; [|done]. apply Hs in Hin. naive_solver.
  - rewrite add_entry_statements. case_decide; [by rewrite app_nil_r|]. apply NoDup_app. split; [done|].
    split; [|apply NoDup_singleton]. by intros s Hin ->%list_elem_of_singleton.
  - intros g Hin. unfold entry_names. rewrite bind_app. fold (entry_names (ng_statement g) es) (entry_names (ng_statement g) [e]).
    destruct (elem_of_add_entry e groups g Hn Hin) as [[Hold Hne]|[He [(Hnm & Hsp & Hnew)|(g' & Hg' & He' & Hsp & Hnm)]]].
    + destruct (Hg g Hold) as (-> & e0 & ? & ? & ?). split; [|exists e0; split; [apply elem_of_app; by left|done]].
      cbn. rewrite decide_False by congruence. by rewrite app_nil_r.
    + rewrite He, Hnm. split; [|exists e; split; [apply elem_of_app; right; by left|done]].
      assert (entry_names (ie_statement e) es = []) as ->; [|done]. rewrite Hs in Hnew. clear -Hnew.
      unfold entry_names. induction es as [|x es IH]; [done|]. cbn in *. apply not_elem_of_cons in Hnew as [? ?].
      rewrite decide_False by done. by apply IH.
    + destruct (Hg g' Hg') as (Hn' & e0 & ? & ? & ?). rewrite Hnm, Hn', He', He. split; [done|].
      exists e0. split; [apply elem_of_app; by left|]. split; [congruence|]. by rewrite Hsp.
Qed.

(** A statement holds the cursor when its first braces do. *)
Definition holds (source : list ascii) (offset : nat) (span : Span) : Prop :=
  within (named_import_member_range source span) offset = true.

(** The completion at a cursor is of a statement of the run-time whose first
    braces hold it: its specifier, and exactly the names it imports already,
    sorted, each once; a statement no entry survives of, as one with empty
    braces, is recovered with no names, and there is no completion exactly when
    no run-time statement's braces hold the cursor. *)
Theorem completions_are_of_the_braces source offset md :
  match completion_context_from_module_record source offset md with
  | Some c =>
      StronglySorted (cmp_lt String.compare) (nc_imported_names c) ∧
      ((∃ e, e ∈ runtime_entries md ∧ holds source offset (ie_statement e) ∧ nc_specifier c = ie_request e ∧
         ∀ n, n ∈ nc_imported_names c ↔
           ∃ e', e' ∈ runtime_entries md ∧ ie_statement e' = ie_statement e ∧ ie_name e' = ImportName n) ∨
       (nc_imported_names c = [] ∧ (∀ e, e ∈ runtime_entries md → ¬ holds source offset (ie_statement e)) ∧
        ∃ requested r, (nc_specifier c, requested) ∈ requested_modules md ∧ r ∈ requested ∧
          rm_is_import r = true ∧ rm_is_type r = false ∧ holds source offset (rm_statement r)))
  | None =>
      (∀ e, e ∈ runtime_entries md → ¬ holds source offset (ie_statement e)) ∧
      ∀ specifier requested r, (specifier, requested) ∈ requested_modules md → r ∈ requested →
        rm_is_import r = true → rm_is_type r = false → ¬ holds source offset (rm_statement r)
  end.
Proof.
  unfold completion_context_from_module_record, holds.
  destruct (grouped_entries (runtime_entries md)) as (Hst & _ & Hg).
  assert (∀ g, g ∈ named_groups md ↔ g ∈ foldl (λ groups e, add_entry e groups) [] (runtime_entries md)) as Hin
    by (intros g; unfold named_groups; by rewrite stable_sort_perm).
  destruct (list_find _ (named_groups md)) as [[i g]|] eqn:Hf.
  - apply list_find_Some in Hf as (Hl & Hw & _). apply list_elem_of_lookup_2 in Hl. apply Hin in Hl.
    destruct (Hg g Hl) as (Hn & e & He & Hse & Hsp). cbn. split; [apply (dedup_sorted String.compare), sort_sorted; apply _|].
    left. exists e. split; [done|]. split; [by rewrite Hse|]. split; [done|]. intros n.
    rewrite elem_of_dedup, elem_of_sort, Hn. unfold entry_names. rewrite list_elem_of_bind. split.
    + intros (e' & Hx & He'). case_decide as Hs; [|by apply not_elem_of_nil in Hx]. exists e'. split; [done|]. split; [congruence|].
      destruct (ie_name e'); try by apply not_elem_of_nil in Hx. by apply list_elem_of_singleton in Hx as ->.
    + intros (e' & He' & Hs & Hnm). exists e'. split; [|done]. rewrite decide_True by congruence. rewrite Hnm. by left.
  - apply list_find_None in Hf. rewrite Forall_forall in Hf.
    assert (∀ e, e ∈ runtime_entries md → ¬ within (named_import_member_range source (ie_statement e)) offset = true) as Hno.
    { intros e He Hw. assert (ie_statement e ∈ ng_statement <$> named_groups md) as Hs.
      { unfold named_groups. rewrite stable_sort_perm. apply Hst. by apply list_elem_of_fmap_2. }
      apply list_elem_of_fmap in Hs as (g & Hs & Hg'). apply (Hf g Hg'). by rewrite <- Hs. }
    match goal with |- context [list_find ?P ?l] => destruct (list_find P l) as [[i [specifier r]]|] eqn:Hr end.
    + apply list_find_Some in Hr as (Hl & Hw & _). apply list_elem_of_lookup_2, list_elem_of_bind in Hl as ([sp rs] & Hl & Hm).
      apply list_elem_of_fmap in Hl as (r' & [= -> ->] & [Hi Hl]%list_elem_of_filter).
      apply andb_true_iff in Hi as [Hi1 Hi2%negb_true_iff]. cbn. split; [constructor|]. right. split; [done|]. split; [done|].
      by exists rs, r'.
    + split; [done|]. apply list_find_None in Hr. rewrite Forall_forall in Hr. intros specifier requested r Hm Hr' Hi Ht.
      apply (Hr (specifier, r)). apply list_elem_of_bind. exists (specifier, requested). split; [|done].
      apply list_elem_of_fmap_2, list_elem_of_filter. by rewrite Hi, Ht.
Qed.
