(* ===== verification/Dependencies.v ===== *)
(** * The package.json request (service.rs)

    What the service answers for a manifest: each dependency resolved, its
    registry hint, its size from the cache or built, and the partial answers it
    streams while it works. A lookup runs beside the others, so each has the
    shard and the registry it found as an argument. *)
From stdpp Require Import base gmap list strings pretty.
From S2P Require Import Prelude Stages Results Json RegistryCache RegistryService Fingerprints CacheKeys CachedImports SharedBytes ProjectRegistry Paths Manifests Resolver Aliases Analyze Text Positions Specifiers ScriptRegions DetectedImports PackageJson Documents Handlers.

Set Default Proof Using "Type*".

Inductive ProtocolRegistryHintMode := P_Off | P_Cached | P_RefreshStale | P_ForceRefresh.

Record AnalyzePackageJsonRequest := {
  pr_version : N;
  pr_request_id : N;
  pr_workspace_root : string;
  pr_active_document_path : string;
  pr_source : string;
  pr_streaming : bool;
  pr_include_registry_hints : bool;
  pr_force_registry_refresh : bool;
  pr_refresh_section : option string;
  pr_registry_hint_mode : option ProtocolRegistryHintMode;
}.
Record PackageJsonDependencyAnalysisItem := {
  pa_entry : PackageJsonDependencyEntry;
  pa_name : string;
  pa_section : string;
  pa_status : ImportAnalysisStatus;
  pa_installed_version : option string;
  pa_registry_hint : option RegistryHint;
  pa_message : option string;
  pa_result : option ImportResult;
}.
Record AnalyzePackageJsonResponse := {
  pj_version : N;
  pj_request_id : N;
  pj_sections : list PackageJsonDependencySection;
  pj_states : list PackageJsonDependencyAnalysisItem;
  pj_indexes : option (list nat);
  pj_error : option string;
  pj_diagnostics : list ImportDiagnostic;
}.

Definition effective_registry_hint_mode (request : AnalyzePackageJsonRequest) : RegistryHintMode :=
  match pr_registry_hint_mode request with
  | Some P_Off => Off
  | Some P_Cached => RegistryService.Cached
  | Some P_RefreshStale => RefreshStale
  | Some P_ForceRefresh => ForceRefresh
  | None => if pr_force_registry_refresh request then ForceRefresh
            else if pr_include_registry_hints request then RegistryService.Cached else Off
  end.

Definition dependency_item (entry : PackageJsonDependencyEntry) (status : ImportAnalysisStatus)
    (version : option string) (registry_hint : option RegistryHint) (message : option string) :
    PackageJsonDependencyAnalysisItem :=
  {| pa_entry := entry; pa_name := pd_name entry; pa_section := pd_section entry; pa_status := status;
     pa_installed_version := version; pa_registry_hint := registry_hint; pa_message := message; pa_result := None |}.
(** [state.status = Ready; state.result = Some(result)]. *)
Definition ready_with (result : ImportResult) (state : PackageJsonDependencyAnalysisItem) :
    PackageJsonDependencyAnalysisItem :=
  {| pa_entry := pa_entry state; pa_name := pa_name state; pa_section := pa_section state; pa_status := Ready;
     pa_installed_version := pa_installed_version state; pa_registry_hint := pa_registry_hint state;
     pa_message := pa_message state; pa_result := Some result |}.

Definition dependency_request (name version : string) : ImportRequest :=
  {| rq_specifier := name; rq_package_name := name; rq_version := version; rq_named := [];
     rq_import_kind := Namespace; rq_runtime := Component |}.

Notation PreparedDependency := (ImportRequest * (Resolver.ResolvedPackage + string))%type.
Record PendingPackageJsonAnalysis := {
  pp_import_request : ImportRequest;
  pp_resolved : Resolver.ResolvedPackage;
  pp_cache_key : string;
}.
Inductive PackageJsonCacheClassification :=
  | Settled (index : nat) (result : ImportResult)
  | Pending (index : nat) (analysis : PendingPackageJsonAnalysis).

Definition settled_pair (c : PackageJsonCacheClassification) : option (nat * ImportResult) :=
  match c with Settled index result => Some (index, result) | Pending _ _ => None end.
Definition pending_pair (c : PackageJsonCacheClassification) : option (nat * PendingPackageJsonAnalysis) :=
  match c with Settled _ _ => None | Pending index analysis => Some (index, analysis) end.
(** [sort_by_key(|(index, _)| *index)]. *)
Definition by_index {A} : list (nat * A) → list (nat * A) := stable_sort (cmp_on fst Nat.compare).

(** [states[index]] made ready with [result], for each pair in turn. *)
Definition make_ready (states : list PackageJsonDependencyAnalysisItem) (results : list (nat * ImportResult)) :
    list PackageJsonDependencyAnalysisItem :=
  foldl (λ states p, alter (ready_with p.2) p.1 states) states results.

Section dependencies.
Context `{FL : Files, ML : ManifestLibraries, OX : Oxc, CP : ConfigParser, CD : IdentityCodec, DISK : FileSystem,
          CH : ContentHash, SC : ShardCache, SJ : SerdeJson, HO : HashOrder}.
Context (string_from_str : list ascii → option string) (windows : bool) (CARGO_PKG_VERSION : string)
        (analyze_unresolved_import : AnalysisContext → ImportRequest → string → ImportResult)
        (registry_from_str : string → Value + string).

(** What the registry lookup of one dependency meets: the disk, when it starts
    and ends, the answers of the registry, and the service as it finds it. *)
Record HintLookup := {
  hl_io : Io; hl_now : N; hl_done_at : N; hl_env : nat → Try; hl_service : RegistryHintService;
}.
Definition registry_hint (at_ : HintLookup) (name version : string) (mode : RegistryHintMode) (now_ms : N) :
    option RegistryHint :=
  hint (hint_for registry_from_str (hl_io at_) (hl_now at_) (hl_done_at at_) name (Some version) mode now_ms
          (hl_env at_) (hl_service at_)).1.

(** The closure that resolves one dependency. *)
Definition prepare (context : AnalysisContext) (mode : RegistryHintMode) (now_ms : N) (at_ : HintLookup)
    (entry : PackageJsonDependencyEntry) : PackageJsonDependencyAnalysisItem * option PreparedDependency :=
  let probe := dependency_request (pd_name entry) "" in
  let '(version, resolved) :=
    match resolve_package_entry (active_document_path context) probe with
    | inl resolved =>
        (inl (default "unknown" (value_get "version" (Resolver.package_json resolved) ≫= as_str)), inl resolved)
    | inr message => (resolve_installed_package_version (active_document_path context) (pd_name entry), inr message)
    end in
  match version with
  | inl version =>
      (dependency_item entry Loading (Some version) (registry_hint at_ (pd_name entry) version mode now_ms) None,
       Some (dependency_request (pd_name entry) version, resolved))
  | inr message => (dependency_item entry Missing None None (Some message), None)
  end.

(** [fresh_cached_result_for_resolved_import]. *)
Definition fresh_cached_result_for_resolved_import (request : ImportRequest) (resolved : Resolver.ResolvedPackage)
    (intent : ReadIntent) (cache : shard) : string * (option ImportResult * shard) :=
  let key := cache_key windows CARGO_PKG_VERSION request resolved in
  (key, fresh_cached_result_for_key key intent cache).

Definition classify (context : AnalysisContext) (found : nat → shard) (index : nat)
    (prepared : option PreparedDependency) : option PackageJsonCacheClassification :=
  match prepared with
  | None => None
  | Some (import_request, resolved) =>
      match resolved with
      | inr message => Some (Settled index (analyze_unresolved_import context import_request message))
      | inl resolved =>
          let '(key, (cached, _)) :=
            fresh_cached_result_for_resolved_import import_request resolved Interactive (found index) in
          match cached with
          | Some result => Some (Settled index result)
          | None => Some (Pending index {| pp_import_request := import_request; pp_resolved := resolved; pp_cache_key := key |})
          end
      end
  end.

(** The drain's closure: the shard it finds, and the flight of its key. *)
Definition built (flight : nat → string → N → ComputedAnalysis) (building : nat → shard)
    (pending : nat * PendingPackageJsonAnalysis) : nat * ImportResult :=
  (pending.1, (analyze_and_cache (flight pending.1) true (pp_cache_key pending.2) (building pending.1) (building pending.1)).1).

(** A partial answer about the states at [indexes]. *)
Definition partial (request : AnalyzePackageJsonRequest) (sections : list PackageJsonDependencySection)
    (states : list PackageJsonDependencyAnalysisItem) (indexes : list nat) : AnalyzePackageJsonResponse :=
  {| pj_version := pr_version request; pj_request_id := pr_request_id request; pj_sections := sections;
     pj_states := states; pj_indexes := Some indexes; pj_error := None; pj_diagnostics := [] |}.
Definition ready_states (states : list PackageJsonDependencyAnalysisItem) (results : list (nat * ImportResult)) :
    list PackageJsonDependencyAnalysisItem :=
  omap (λ p : nat * ImportResult, ready_with p.2 <$> states !! p.1) results.

(** Everything the request was asked and met, up to the builds. *)
Record Environment := {
  en_now_ms : N;
  en_registry : nat → HintLookup;
  en_found : nat → shard;
  en_flight : nat → string → N → ComputedAnalysis;
  en_building : nat → shard;
}.

Definition prepared_dependencies (request : AnalyzePackageJsonRequest) (context : AnalysisContext) (en : Environment)
    (entries : list PackageJsonDependencyEntry) :
    list (PackageJsonDependencyAnalysisItem * option PreparedDependency) :=
  imap (λ i entry, prepare context (effective_registry_hint_mode request) (en_now_ms en) (en_registry en i) entry) entries.
Definition classifications (context : AnalysisContext) (en : Environment)
    (import_requests : list (option PreparedDependency)) : list PackageJsonCacheClassification :=
  omap id (imap (classify context (en_found en)) import_requests).

(** The partials, in the order they are emitted; [drained] are the pending
    analyses in the order the drain finishes them. *)
Definition partials_of (request : AnalyzePackageJsonRequest) (sections : list PackageJsonDependencySection)
    (entries : list PackageJsonDependencyEntry) (states : list PackageJsonDependencyAnalysisItem)
    (cached_indexed_results : list (nat * ImportResult)) (drained : list (nat * ImportResult)) :
    list AnalyzePackageJsonResponse :=
  (if bool_decide (entries = []) then [] else
     [partial request sections ((λ entry, dependency_item entry Loading None None None) <$> entries) (seq 0 (length entries))]) ++
  (if bool_decide (states = []) then [] else [partial request sections states (seq 0 (length states))]) ++
  (if bool_decide (cached_indexed_results = []) then [] else
     [partial request [] (ready_states states cached_indexed_results) cached_indexed_results.*1]) ++
  ((λ p, partial request [] (ready_states states [p]) [p.1]) <$> drained).

(** The shared figures, from the runtimes of the requests. *)
Definition annotated_results (import_requests : list (option PreparedDependency)) (indexed_results : list (nat * ImportResult)) :
    list (nat * ImportResult) :=
  let runtimes := (λ index, match import_requests !! index with
                            | Some (Some (request, _)) => rq_runtime request
                            | _ => Component
                            end) <$> indexed_results.*1 in
  zip indexed_results.*1 (annotate_shared_bytes (zip runtimes indexed_results.*2)).*2.

(** [analyze_package_json]: the partials it emits and the answer it gives.
    [schedule] is the order the drain finishes the pending analyses in. [None]
    is a panic. *)
Definition analyze_package_json (request : AnalyzePackageJsonRequest) (emit_partial : bool) (en : Environment)
    (schedule : list (nat * PendingPackageJsonAnalysis) → list (nat * PendingPackageJsonAnalysis)) :
    option (list AnalyzePackageJsonResponse * AnalyzePackageJsonResponse) :=
  if negb (is_supported_protocol_version (pr_version request)) then
    Some ([], {| pj_version := N.min (pr_version request) PROTOCOL_VERSION; pj_request_id := pr_request_id request;
                 pj_sections := []; pj_states := []; pj_indexes := None; pj_error := Some (unsupported (pr_version request));
                 pj_diagnostics := [for_stage "protocol" "unsupported protocol version"] |})
  else
    let context := {| workspace_root := pr_workspace_root request; active_document_path := pr_active_document_path request |} in
    sections ← package_json_dependency_sections string_from_str (to_bytes (pr_source request));
    entries ← package_json_dependency_entries string_from_str (to_bytes (pr_source request));
    let resolved := prepared_dependencies request context en entries in
    let states := resolved.*1 in
    let import_requests := resolved.*2 in
    let classified := classifications context en import_requests in
    let cached_indexed_results := by_index (omap settled_pair classified) in
    let pending_analysis := by_index (omap pending_pair classified) in
    let partials :=
      if emit_partial
      then partials_of request sections entries states cached_indexed_results
             (built (en_flight en) (en_building en) <$> schedule pending_analysis)
      else [] in
    let analyzed_results := built (en_flight en) (en_building en) <$> pending_analysis in
    let indexed_results := by_index (cached_indexed_results ++ analyzed_results) in
    Some (partials,
          {| pj_version := pr_version request; pj_request_id := pr_request_id request; pj_sections := sections;
             pj_states := make_ready states (annotated_results import_requests indexed_results);
             pj_indexes := None; pj_error := None; pj_diagnostics := [] |}).

Definition handle_analyze_package_json (request : AnalyzePackageJsonRequest) (en : Environment) :
    option AnalyzePackageJsonResponse :=
  snd <$> analyze_package_json request false en id.
Definition handle_analyze_package_json_streaming (request : AnalyzePackageJsonRequest) :
    Environment → (list (nat * PendingPackageJsonAnalysis) → list (nat * PendingPackageJsonAnalysis)) →
    option (list AnalyzePackageJsonResponse * AnalyzePackageJsonResponse) :=
  analyze_package_json request (pr_streaming request).
End dependencies.

(** ** What indexed updates do *)

Lemma by_index_perm {A} (l : list (nat * A)) : by_index l ≡ₚ l.
Proof. apply stable_sort_perm. Qed.

(** The first value filed under an index. *)
Definition found_at {A} (i : nat) (l : list (nat * A)) : option A := (λ p, p.2.2) <$> list_find (λ p, p.1 = i) l.
Definition made_ready (result : option ImportResult) (state : PackageJsonDependencyAnalysisItem) :
    PackageJsonDependencyAnalysisItem :=
  match result with Some r => ready_with r state | None => state end.

Lemma found_at_cons {A} i j (a : A) l : found_at i ((j, a) :: l) = if decide (j = i) then Some a else found_at i l.
Proof. unfold found_at. cbn. case_decide; [done|]. by destruct (list_find _ l) as [[k p]|]. Qed.
Lemma found_at_Some {A} i (l : list (nat * A)) a : NoDup l.*1 → found_at i l = Some a ↔ (i, a) ∈ l.
Proof.
  induction l as [|[j b] l IH]; intros Hnd; [by rewrite elem_of_nil|]. apply NoDup_cons in Hnd as [Hj Hnd].
  rewrite found_at_cons, elem_of_cons. case_decide as Hji.
  - subst. split; [by intros [= ->]; left|]. intros [[= ->]|Hin]; [done|]. destruct Hj. apply list_elem_of_fmap. by exists (i, a).
  - rewrite IH by done. split; [by right|]. by intros [[= -> ->]|].
Qed.
Lemma found_at_perm {A} i (l l' : list (nat * A)) : NoDup l.*1 → l ≡ₚ l' → found_at i l = found_at i l'.
Proof.
  intros Hnd Hp. assert (NoDup l'.*1) as Hnd' by by rewrite <- Hp. apply option_eq. intros a.
  rewrite !found_at_Some by done. by rewrite Hp.
Qed.
Lemma found_at_fmap {A B} (f : A → B) i (l : list (nat * A)) :
  found_at i ((λ p : nat * A, (p.1, f p.2)) <$> l) = f <$> found_at i l.
Proof. induction l as [|[j a] l IH]; [done|]. rewrite fmap_cons. cbn [fst snd]. rewrite !found_at_cons, IH. by case_decide. Qed.
Lemma found_at_None {A} i (l : list (nat * A)) : found_at i l = None → i ∉ l.*1.
Proof.
  induction l as [|[j a] l IH]; [intros _; apply not_elem_of_nil|]. rewrite found_at_cons. cbn. rewrite elem_of_cons.
  case_decide; [done|]. naive_solver.
Qed.

Lemma make_ready_lookup states results i :
  NoDup results.*1 → make_ready states results !! i = made_ready (found_at i results) <$> states !! i.
Proof.
  revert states. induction results as [|[j r] results IH]; intros states Hnd; [unfold make_ready; cbn; by destruct (states !! i)|].
  apply NoDup_cons in Hnd as [Hj Hnd]. change (make_ready states ((j, r) :: results)) with (make_ready (alter (ready_with r) j states) results).
  rewrite IH, found_at_cons by done. case_decide as Hji.
  - subst. rewrite list_lookup_alter_eq. destruct (found_at i results) as [r'|] eqn:Hf.
    + apply found_at_Some in Hf; [|done]. destruct Hj. apply list_elem_of_fmap. by exists (i, r').
    + by destruct (states !! i).
  - by rewrite list_lookup_alter_ne.
Qed.

(** An enumeration that keeps the index of what it keeps repeats none. *)
Lemma elem_of_imap_omap {A B} (f : nat → A → option B) l b :
  b ∈ omap id (imap f l) ↔ ∃ i a, l !! i = Some a ∧ f i a = Some b.
Proof.
  rewrite list_elem_of_omap. split.
  - intros (o & Ho & Heq). cbn in Heq. subst o. apply list_elem_of_lookup_1 in Ho as [i Hi].
    rewrite list_lookup_imap in Hi. destruct (l !! i) as [a|] eqn:Ha; [|done]. injection Hi as Hi. by exists i, a.
  - intros (i & a & Ha & Hf). exists (Some b). split; [|done]. apply (list_elem_of_lookup_2 _ i).
    by rewrite list_lookup_imap, Ha; cbn; rewrite Hf.
Qed.
Lemma imap_omap_NoDup {A B} (g : B → nat) (f : nat → A → option B) l : ∀ n,
  (∀ i a b, f i a = Some b → g b = n + i) →
  NoDup (g <$> omap id (imap f l)) ∧ Forall (λ b, n ≤ g b) (omap id (imap f l)).
Proof.
  revert f. induction l as [|a l IH]; intros f n Hf; [split; constructor|]. cbn.
  destruct (IH (f ∘ S) (S n)) as [Hnd Hge]; [intros i a' b Hb; cbn in Hb; apply Hf in Hb; lia|].
  destruct (f 0 a) as [b|] eqn:Hb; cbn.
  - apply Hf in Hb. split.
    + constructor; [|done]. intros Hin. apply list_elem_of_fmap in Hin as (b' & Heq & Hin).
      rewrite Forall_forall in Hge. apply Hge in Hin. lia.
    + constructor; [lia|]. eapply Forall_impl; [exact Hge|]. cbn. lia.
  - split; [done|]. eapply Forall_impl; [exact Hge|]. cbn. lia.
Qed.

Section answers.
Context `{FL : Files, ML : ManifestLibraries, OX : Oxc, CP : ConfigParser, CD : IdentityCodec, DISK : FileSystem,
          CH : ContentHash, SC : ShardCache, SJ : SerdeJson, HO : HashOrder}.
Context (windows : bool) (CARGO_PKG_VERSION : string)
        (analyze_unresolved_import : AnalysisContext → ImportRequest → string → ImportResult)
        (context : AnalysisContext) (en : Environment) (import_requests : list (option PreparedDependency)).

Local Notation the_classify := (classify windows CARGO_PKG_VERSION analyze_unresolved_import context (en_found en)).
Local Notation the_built := (built (en_flight en) (en_building en)).
Local Notation the_classified := (classifications windows CARGO_PKG_VERSION analyze_unresolved_import context en import_requests).
Local Notation the_cached := (by_index (omap settled_pair the_classified)).
Local Notation the_pending := (by_index (omap pending_pair the_classified)).

Definition index_of (c : PackageJsonCacheClassification) : nat :=
  match c with Settled i _ | Pending i _ => i end.
(** What a dependency is answered, from where its classification leaves it. *)
Definition answer_of (c : PackageJsonCacheClassification) : nat * ImportResult :=
  match c with Settled i r => (i, r) | Pending i p => the_built (i, p) end.
Definition answered : list (nat * ImportResult) := answer_of <$> the_classified.

Lemma classify_index i prep c : the_classify i prep = Some c → index_of c = i.
Proof.
  unfold classify. destruct prep as [[rq [resolved|message]]|]; [..|done]; [|by intros [= <-]].
  unfold fresh_cached_result_for_resolved_import. destruct (fresh_cached_result_for_key _ _ _) as [[r|] s]; by intros [= <-].
Qed.
Lemma classify_total i prep : is_Some (the_classify i prep) ↔ is_Some prep.
Proof.
  unfold classify. destruct prep as [[rq [resolved|message]]|]; [..|done]; [|by split; eexists].
  unfold fresh_cached_result_for_resolved_import. destruct (fresh_cached_result_for_key _ _ _) as [[r|] s]; by split; eexists.
Qed.
Lemma answered_index c : (answer_of c).1 = index_of c.
Proof. by destruct c. Qed.

Lemma answered_NoDup : NoDup answered.*1.
Proof.
  unfold answered. rewrite <- list_fmap_compose.
  rewrite (list_fmap_ext _ index_of the_classified) by (intros; apply answered_index).
  apply (imap_omap_NoDup index_of _ _ 0). intros i prep c Hc. by apply classify_index in Hc.
Qed.
Lemma answered_iff i : (∃ r, (i, r) ∈ answered) ↔ ∃ prep, import_requests !! i = Some (Some prep).
Proof.
  unfold answered, classifications. split.
  - intros (r & Hr). apply list_elem_of_fmap in Hr as (c & Heq & Hc).
    apply elem_of_imap_omap in Hc as (j & prep & Hj & Hf).
    assert (j = i) as ->. { apply classify_index in Hf. rewrite <- Hf, <- answered_index, <- Heq. done. }
    destruct prep as [prep|]; [by exists prep|done].
  - intros (prep & Hi). destruct (proj2 (classify_total i (Some prep))) as [c Hc]; [by eexists|].
    exists (answer_of c).2. apply list_elem_of_fmap. exists c. split.
    + rewrite <- (classify_index _ _ _ Hc), <- answered_index. by destruct (answer_of c).
    + apply elem_of_imap_omap. by exists i, (Some prep).
Qed.

Lemma answers_perm : the_cached ++ (the_built <$> the_pending) ≡ₚ answered.
Proof.
  rewrite !by_index_perm. unfold answered. generalize (the_classified). intros l. clear.
  induction l as [|[i r|i p] l IH]; [done|..]; cbn [omap list_omap settled_pair pending_pair fmap list_fmap]; cbn.
  - by rewrite <- IH.
  - change (list_fmap _ _ the_built) with (fmap (M := list) the_built). rewrite <- IH. by rewrite Permutation_middle.
Qed.
End answers.

(** ** The table a client keeps *)

(** A partial replaces the states at its indexes. *)
Notation shown_states := (gmap nat PackageJsonDependencyAnalysisItem).
Definition show_at (shown : shown_states) (p : nat * PackageJsonDependencyAnalysisItem) : shown_states := <[p.1 := p.2]> shown.
Definition updates (r : AnalyzePackageJsonResponse) : list (nat * PackageJsonDependencyAnalysisItem) :=
  zip (default [] (pj_indexes r)) (pj_states r).
Definition apply_partial (shown : shown_states) (r : AnalyzePackageJsonResponse) : shown_states :=
  foldl show_at shown (updates r).

Lemma apply_partials shown partials :
  foldl apply_partial shown partials = foldl show_at shown (partials ≫= updates).
Proof.
  revert shown. induction partials as [|r partials IH]; intros shown; [done|]. rewrite bind_cons, foldl_app. apply IH.
Qed.
Lemma show_at_other l shown i : i ∉ l.*1 → foldl show_at shown l !! i = shown !! i.
Proof.
  revert shown. induction l as [|[j x] l IH]; intros shown Hi; [done|]. cbn in *.
  apply not_elem_of_cons in Hi as [Hij Hi]. rewrite IH by done. unfold show_at. cbn. by rewrite lookup_insert_ne.
Qed.
Lemma show_at_in l shown i x : NoDup l.*1 → (i, x) ∈ l → foldl show_at shown l !! i = Some x.
Proof.
  revert shown. induction l as [|[j y] l IH]; intros shown Hnd Hin; [by apply not_elem_of_nil in Hin|].
  apply NoDup_cons in Hnd as [Hj Hnd]. apply elem_of_cons in Hin as [Heq|Hin]; [|by apply IH].
  injection Heq as -> ->. cbn. rewrite show_at_other by done. unfold show_at. cbn. apply lookup_insert_eq.
Qed.
Lemma show_all (l : list PackageJsonDependencyAnalysisItem) shown i x : l !! i = Some x →
  foldl show_at shown (zip (seq 0 (length l)) l) !! i = Some x.
Proof.
  intros Hi. apply show_at_in.
  - rewrite fst_zip by (rewrite length_seq; done). apply NoDup_seq.
  - apply (list_elem_of_lookup_2 _ i). apply lookup_zip_Some. split; [|done].
    apply lookup_seq. split; [done|by eapply lookup_lt_Some].
Qed.

(** What makes the states at the indexes of [results] ready. *)
Definition ready_updates (states : list PackageJsonDependencyAnalysisItem) (results : list (nat * ImportResult)) :
    list (nat * PackageJsonDependencyAnalysisItem) :=
  omap (λ p : nat * ImportResult, x ← states !! p.1; Some (p.1, ready_with p.2 x)) results.
Definition in_range (states : list PackageJsonDependencyAnalysisItem) (results : list (nat * ImportResult)) : Prop :=
  Forall (λ p : nat * ImportResult, p.1 < length states) results.

Lemma ready_updates_spec states results : in_range states results →
  zip results.*1 (ready_states states results) = ready_updates states results ∧
  (ready_updates states results).*1 = results.*1.
Proof.
  induction 1 as [|[i r] results Hi _ IH]; [done|]. destruct (lookup_lt_is_Some_2 states i Hi) as [x Hx].
  cbn [fst] in Hi. unfold ready_states, ready_updates in *. cbn. rewrite Hx. cbn. destruct IH as [-> ->]. done.
Qed.
Lemma ready_updates_app states a b : ready_updates states (a ++ b) = ready_updates states a ++ ready_updates states b.
Proof. apply omap_app. Qed.
Lemma singles_updates request states results : in_range states results →
  ((λ p, partial request [] (ready_states states [p]) [p.1]) <$> results) ≫= updates = ready_updates states results.
Proof.
  induction 1 as [|[i r] results Hi _ IH]; [done|]. rewrite fmap_cons, bind_cons, IH.
  destruct (lookup_lt_is_Some_2 states i Hi) as [x Hx]. unfold ready_states, ready_updates, updates, partial. cbn in *.
  by rewrite Hx.
Qed.

(** A client that applies the partials shows every dependency as resolved, with
    the results of [results] where it has one. *)
Lemma partials_show request sections entries states cached drained i x :
  length states = length entries → in_range states (cached ++ drained) → NoDup (cached ++ drained).*1 →
  states !! i = Some x →
  foldl apply_partial ∅ (partials_of request sections entries states cached drained) !! i =
  Some (made_ready (found_at i (cached ++ drained)) x).
Proof.
  intros Hlen Hr Hnd Hx. rewrite apply_partials. unfold partials_of.
  assert (states ≠ []) as Hs by (by destruct states). assert (entries ≠ []) as He by (by destruct entries, states).
  rewrite (bool_decide_eq_false_2 (entries = [])), (bool_decide_eq_false_2 (states = [])) by done.
  rewrite !bind_app, !foldl_app. pose proof Hr as [Hc Hd]%Forall_app. rewrite singles_updates by done.
  assert ((if bool_decide (cached = []) then [] else [partial request [] (ready_states states cached) cached.*1]) ≫= updates =
          ready_updates states cached) as ->.
  { case_bool_decide as Hn; [by subst|]. rewrite bind_cons. cbn [mbind list_bind]. rewrite app_nil_r.
    by apply ready_updates_spec. }
  rewrite <- foldl_app, <- ready_updates_app. pose proof (ready_updates_spec _ _ Hr) as [_ Hfst].
  destruct (found_at i (cached ++ drained)) as [r|] eqn:Hf.
  - apply found_at_Some in Hf; [|done]. apply show_at_in; [by rewrite Hfst|].
    apply list_elem_of_omap. exists (i, r). cbn. by rewrite Hx.
  - rewrite show_at_other.
    + cbn [mbind list_bind]. rewrite !app_nil_r. by apply show_all.
    + rewrite Hfst. by apply found_at_None.
Qed.

(** ** The figures of an answer *)

Definition component_pairs (results : list ImportResult) : list (ImportRuntime * ImportResult) := (λ r, (Component, r)) <$> results.
Definition with_figure (results : list ImportResult) (r : ImportResult) : ImportResult :=
  set_shared (shared_spec (component_pairs results) (Component, r)) r.

Lemma zip_components (l : list (nat * ImportResult)) :
  zip ((λ _, Component) <$> l.*1) l.*2 = component_pairs l.*2.
Proof. induction l as [|p l IH]; [done|]. cbn. by rewrite IH. Qed.

Lemma annotated_results_spec (import_requests : list (option PreparedDependency)) indexed_results :
  Forall (λ o : option PreparedDependency, ∀ p, o = Some p → rq_runtime p.1 = Component) import_requests →
  annotated_results import_requests indexed_results =
  (λ p : nat * ImportResult, (p.1, with_figure indexed_results.*2 p.2)) <$> indexed_results.
Proof.
  intros Hrt. unfold annotated_results.
  rewrite (list_fmap_ext _ (λ _, Component) indexed_results.*1).
  2:{ intros k i _. destruct (import_requests !! i) as [[[rq p]|]|] eqn:Hi; [|done..].
      rewrite Forall_forall in Hrt. apply list_elem_of_lookup_2 in Hi. by apply (Hrt _ Hi (rq, p)). }
  rewrite zip_components. unfold annotate_shared_bytes. rewrite <- list_fmap_compose.
  assert (∀ f : ImportResult → ImportResult, (∀ r, (snd ∘ λ i : ImportRuntime * ImportResult,
    (i.1, set_shared (shared_of (foldl count_import ∅ (component_pairs indexed_results.*2)) i) i.2)) (Component, r) = f r) →
    ∀ l : list (nat * ImportResult), zip l.*1 ((snd ∘ λ i : ImportRuntime * ImportResult,
    (i.1, set_shared (shared_of (foldl count_import ∅ (component_pairs indexed_results.*2)) i) i.2)) <$> component_pairs l.*2) =
    (λ p : nat * ImportResult, (p.1, f p.2)) <$> l) as Hf.
  { intros f Hf l. induction l as [|[i r] l IH]; [done|]. cbn [fmap list_fmap fst snd component_pairs zip zip_with].
    f_equal; [f_equal; apply Hf|apply IH]. }
  apply Hf. intros r. cbn. unfold with_figure. by rewrite shared_of_spec.
Qed.

Lemma with_figure_again results r : with_figure (with_figure results <$> results) (with_figure results r) = with_figure results r.
Proof.
  unfold with_figure at 1. rewrite (shared_spec_shapes _ (component_pairs results) _ (Component, r)).
  - unfold with_figure. apply set_shared_twice.
  - unfold component_pairs. by rewrite <- !list_fmap_compose.
  - done.
Qed.
Lemma with_figure_perm results results' r : results ≡ₚ results' → with_figure results r = with_figure results' r.
Proof.
  intros Hp. unfold with_figure. f_equal. apply shared_spec_shapes; [|done]. unfold component_pairs. by rewrite Hp.
Qed.

(** Making states ready adds their results to those there are. *)
Lemma make_ready_results results : ∀ states,
  NoDup results.*1 → Forall (λ p : nat * ImportResult, ∃ x, states !! p.1 = Some x ∧ pa_result x = None) results →
  omap pa_result (make_ready states results) ≡ₚ results.*2 ++ omap pa_result states.
Proof.
  induction results as [|[i r] results IH]; intros states Hnd Hr; [done|].
  apply NoDup_cons in Hnd as [Hi Hnd]. apply Forall_cons in Hr as [(x & Hx & Hn) Hr]. cbn in Hx.
  change (make_ready states ((i, r) :: results)) with (make_ready (alter (ready_with r) i states) results).
  rewrite IH; [|done|].
  - apply list_elem_of_split_length in Hx as (l1 & l2 & -> & ->).
    rewrite <- (Nat.add_0_r (length l1)), alter_app_r. cbn. rewrite !omap_app. cbn. rewrite Hn.
    by rewrite <- !Permutation_middle.
  - rewrite Forall_forall in Hr |- *. intros p Hp. destruct (Hr p Hp) as (y & Hy & Hy').
    exists y. split; [|done]. rewrite list_lookup_alter_ne; [done|]. intros ->. apply Hi.
    apply list_elem_of_fmap. by exists p.
Qed.

(** ** Every dependency settles *)

(** What an answer leaves of a dependency. *)
Definition is_missing (st : PackageJsonDependencyAnalysisItem) : Prop :=
  pa_status st = Missing ∧ pa_installed_version st = None ∧ pa_result st = None ∧ is_Some (pa_message st).
Definition is_ready (st : PackageJsonDependencyAnalysisItem) : Prop :=
  pa_status st = Ready ∧ is_Some (pa_installed_version st) ∧ is_Some (pa_result st) ∧ pa_message st = None.
(** The same state, but for the shared figure of its result. *)
Definition same_but_shared (st st' : PackageJsonDependencyAnalysisItem) : Prop :=
  match pa_result st, pa_result st' with
  | None, None => st = st'
  | Some r, Some r' => set_shared 0 r = set_shared 0 r' ∧ ready_with r' st = st'
  | _, _ => False
  end.

Section settling.
Context `{FL : Files, ML : ManifestLibraries, OX : Oxc, CP : ConfigParser, CD : IdentityCodec, DISK : FileSystem,
          CH : ContentHash, SC : ShardCache, SJ : SerdeJson, HO : HashOrder}.
Context (string_from_str : list ascii → option string) (windows : bool) (CARGO_PKG_VERSION : string)
        (analyze_unresolved_import : AnalysisContext → ImportRequest → string → ImportResult)
        (registry_from_str : string → Value + string).

Local Notation the_prepare := (prepare registry_from_str).

(** A dependency is missing when it neither resolves nor has a manifest to read
    a version from. *)
Definition dependency_is_installed (context : AnalysisContext) (entry : PackageJsonDependencyEntry) : bool :=
  match resolve_package_entry (active_document_path context) (dependency_request (pd_name entry) ""),
        resolve_installed_package_version (active_document_path context) (pd_name entry) with
  | inr _, inr _ => false
  | _, _ => true
  end.

Lemma prepare_spec context mode now_ms at_ entry :
  match the_prepare context mode now_ms at_ entry with
  | (st, None) => is_missing st ∧ dependency_is_installed context entry = false
  | (st, Some (rq, _)) =>
      (pa_status st = Loading ∧ is_Some (pa_installed_version st) ∧ pa_result st = None ∧ pa_message st = None) ∧
      rq_runtime rq = Component ∧ dependency_is_installed context entry = true
  end ∧ pa_entry (the_prepare context mode now_ms at_ entry).1 = entry ∧
  pa_result (the_prepare context mode now_ms at_ entry).1 = None.
Proof.
  unfold prepare, dependency_is_installed. destruct (resolve_package_entry _ _) as [resolved|message].
  - cbn. split_and!; try done.
  - destruct (resolve_installed_package_version _ _) as [version|m]; cbn; by split_and!.
Qed.

Section settled_states.
Context (request : AnalyzePackageJsonRequest) (context : AnalysisContext) (en : Environment)
        (entries : list PackageJsonDependencyEntry).
Local Notation the_resolved := (prepared_dependencies registry_from_str request context en entries).
Local Notation the_answered := (answered windows CARGO_PKG_VERSION analyze_unresolved_import context en the_resolved.*2).

Lemma resolved_at i p : the_resolved !! i = Some p → ∃ entry, entries !! i = Some entry ∧
  p = the_prepare context (effective_registry_hint_mode request) (en_now_ms en) (en_registry en i) entry.
Proof.
  unfold prepared_dependencies. rewrite list_lookup_imap. destruct (entries !! i) as [entry|]; [|done].
  intros [= <-]. by exists entry.
Qed.
Lemma resolved_entries : pa_entry <$> the_resolved.*1 = entries.
Proof.
  apply list_eq. intros i. rewrite !list_lookup_fmap. destruct (the_resolved !! i) as [p|] eqn:Hp.
  - apply resolved_at in Hp as (entry & -> & ->). cbn. by rewrite (proj1 (proj2 (prepare_spec _ _ _ _ _))).
  - unfold prepared_dependencies in Hp. rewrite list_lookup_imap in Hp. by destruct (entries !! i).
Qed.
Lemma requests_are_component :
  Forall (λ o : option PreparedDependency, ∀ p, o = Some p → rq_runtime p.1 = Component) the_resolved.*2.
Proof.
  apply Forall_forall. intros o Ho [rq rv] ->. apply list_elem_of_fmap in Ho as ([st o] & Heq & Ho).
  apply list_elem_of_lookup_1 in Ho as [i Hi]. apply resolved_at in Hi as (entry & _ & Hp).
  pose proof (prepare_spec context (effective_registry_hint_mode request) (en_now_ms en) (en_registry en i) entry) as [H _].
  rewrite <- Hp in H. cbn in Heq. subst o. apply H.
Qed.
Lemma resolved_results : Forall (λ st, pa_result st = None) the_resolved.*1.
Proof.
  apply Forall_forall. intros st Hst. apply list_elem_of_fmap in Hst as ([st' o] & -> & Ho).
  apply list_elem_of_lookup_1 in Ho as [i Hi]. apply resolved_at in Hi as (entry & _ & Hp).
  change (pa_result (st', o).1 = None). rewrite Hp. apply prepare_spec.
Qed.
Lemma answered_in_range : in_range the_resolved.*1 the_answered.
Proof.
  apply Forall_forall. intros [i r] Hi.
  destruct (proj1 (answered_iff windows CARGO_PKG_VERSION analyze_unresolved_import context en the_resolved.*2 i)) as [prep Hp];
    [by exists r|].
  apply lookup_lt_Some in Hp. cbn. rewrite !length_fmap in *. exact Hp.
Qed.

(** What the request leaves of one dependency: its resolution, and its answer if
    it has one. *)
Lemma settles i st : the_resolved.*1 !! i = Some st →
  if dependency_is_installed context (pa_entry st) then ∃ r, found_at i the_answered = Some r ∧ ∀ f, is_ready (ready_with (f r) st)
  else found_at i the_answered = None ∧ is_missing st.
Proof.
  rewrite list_lookup_fmap. destruct (the_resolved !! i) as [p|] eqn:Hp; [|done]. intros [= <-].
  pose proof Hp as Hi. apply resolved_at in Hp as (entry & _ & Hp).
  pose proof (prepare_spec context (effective_registry_hint_mode request) (en_now_ms en) (en_registry en i) entry) as [H [He _]].
  rewrite <- Hp in H, He. rewrite He. destruct p as [st o].
  pose proof (answered_NoDup windows CARGO_PKG_VERSION analyze_unresolved_import context en the_resolved.*2) as Hnd.
  pose proof (answered_iff windows CARGO_PKG_VERSION analyze_unresolved_import context en the_resolved.*2 i) as Ha.
  rewrite list_lookup_fmap, Hi in Ha. cbn in Ha. destruct o as [[rq rv]|].
  - destruct H as ((H1 & H2 & H3 & H4) & _ & ->). destruct (proj2 Ha) as [r Hr]; [by eexists|]. exists r.
    split; [by apply found_at_Some|]. intros f. split_and!; try done.
  - destruct H as (H1 & ->). split; [|done]. destruct (found_at i _) as [r|] eqn:Hf; [|done].
    apply found_at_Some in Hf; [|done]. destruct (proj1 Ha) as [prep Hpr]; [by exists r|]. done.
Qed.
(** The states of the answer, from the results in any order. *)
Lemma answer_states L : L ≡ₚ the_answered →
  let states := make_ready the_resolved.*1 ((λ p : nat * ImportResult, (p.1, with_figure L.*2 p.2)) <$> L) in
  (∀ i, states !! i = made_ready (with_figure the_answered.*2 <$> found_at i the_answered) <$> the_resolved.*1 !! i) ∧
  pa_entry <$> states = entries ∧
  (∀ i st, states !! i = Some st → ∀ r, pa_result st = Some r → r = with_figure (omap pa_result states) r).
Proof.
  intros HL. set (g := λ p : nat * ImportResult, _). cbn zeta.
  assert (NoDup L.*1) as Hnd by (rewrite HL; apply answered_NoDup).
  assert ((g <$> L).*1 = L.*1) as Hg by by rewrite <- list_fmap_compose.
  assert (∀ i, make_ready the_resolved.*1 (g <$> L) !! i =
    made_ready (with_figure the_answered.*2 <$> found_at i the_answered) <$> the_resolved.*1 !! i) as Hat.
  { intros i. rewrite make_ready_lookup by by rewrite Hg. unfold g. rewrite found_at_fmap, (found_at_perm i L the_answered) by done.
    destruct (found_at i _) as [r|]; [|done]. cbn. by rewrite (with_figure_perm L.*2 the_answered.*2) by by rewrite HL. }
  split; [exact Hat|]. split.
  { rewrite <- resolved_entries at 2. apply list_eq. intros i. rewrite (list_lookup_fmap _ (make_ready _ _)), Hat.
    rewrite (list_lookup_fmap _ the_resolved.*1). destruct (the_resolved.*1 !! i) as [st|]; [|done]. cbn. f_equal.
    by destruct (found_at i _). }
  assert (omap pa_result (make_ready the_resolved.*1 (g <$> L)) ≡ₚ with_figure the_answered.*2 <$> the_answered.*2) as Hfig.
  { rewrite make_ready_results.
    - assert (omap pa_result the_resolved.*1 = []) as ->.
      { generalize resolved_results. generalize (the_resolved.*1). induction 1 as [|st l Hst _ IH]; [done|]. cbn. by rewrite Hst. }
      rewrite app_nil_r. trans (with_figure the_answered.*2 <$> L.*2); [|apply fmap_Permutation, fmap_Permutation, HL].
      rewrite <- !list_fmap_compose. erewrite list_fmap_ext; [done|]. intros i p _. cbn.
      apply with_figure_perm, fmap_Permutation, HL.
    - by rewrite Hg.
    - apply Forall_fmap. rewrite HL. eapply Forall_impl; [apply answered_in_range|]. intros p Hp. cbn.
      destruct (lookup_lt_is_Some_2 the_resolved.*1 p.1 Hp) as [x Hx]. exists x. split; [done|].
      pose proof resolved_results as Hr. rewrite Forall_forall in Hr. apply Hr. by eapply list_elem_of_lookup_2. }
  intros i st Hst r Hr. rewrite (with_figure_perm _ _ r Hfig). rewrite Hat in Hst.
  destruct (the_resolved.*1 !! i) as [st0|] eqn:H0; [|done]. injection Hst as <-.
  destruct (found_at i the_answered) as [r0|] eqn:Hf; cbn in Hr.
  - injection Hr as <-. by rewrite with_figure_again.
  - pose proof resolved_results as Hrr. rewrite Forall_forall in Hrr.
    rewrite (Hrr st0) in Hr; [done|]. by eapply list_elem_of_lookup_2.
Qed.
End settled_states.
(** C19. A package.json request is answered for every text: one state for each
    dependency, in the manifest's order, missing exactly when it is not
    installed and with a size otherwise, each shared figure counted over the
    whole answer. A client that applies the partial answers, in whatever order
    the builds finish, shows that answer but for the shared figures. *)
Theorem every_dependency_settles request en schedule :
  is_supported_protocol_version (pr_version request) = true → is_utf8 (to_bytes (pr_source request)) = true →
  (∀ l, schedule l ≡ₚ l) →
  let context := {| workspace_root := pr_workspace_root request; active_document_path := pr_active_document_path request |} in
  ∃ entries partials response,
    package_json_dependency_entries string_from_str (to_bytes (pr_source request)) = Some entries ∧
    handle_analyze_package_json_streaming string_from_str windows CARGO_PKG_VERSION analyze_unresolved_import
      registry_from_str request en schedule = Some (partials, response) ∧
    pa_entry <$> pj_states response = entries ∧
    (∀ i st, pj_states response !! i = Some st →
       (if dependency_is_installed context (pa_entry st) then is_ready st else is_missing st) ∧
       (∀ r, pa_result st = Some r → r = with_figure (omap pa_result (pj_states response)) r) ∧
       (pr_streaming request = true →
        ∃ shown, foldl apply_partial ∅ partials !! i = Some shown ∧ same_but_shared shown st)).
Proof.
  intros Hv Hu Hsch context.
  destruct (positions_are_total string_from_str _ Hu) as [[entries He] [sections Hs]].
  unfold handle_analyze_package_json_streaming, analyze_package_json. rewrite Hv, He, Hs. cbn [negb mbind option_bind].
  eexists entries, _, _. split; [done|]. split; [done|]. cbn [pj_states]. fold context.
  set (resolved := prepared_dependencies _ _ _ _ _). set (A := answered windows CARGO_PKG_VERSION analyze_unresolved_import context en resolved.*2).
  set (cached := by_index (omap settled_pair _)). set (pending := by_index (omap pending_pair _)). set (f := built _ _).
  assert (cached ++ (f <$> pending) ≡ₚ A) as Hperm by apply answers_perm.
  assert (cached ++ (f <$> schedule pending) ≡ₚ A) as Hdrain by by rewrite (Hsch pending).
  assert (NoDup A.*1) as Hnd by apply answered_NoDup. set (L := by_index _).
  assert (L ≡ₚ A) as HL by (unfold L; by rewrite by_index_perm).
  rewrite annotated_results_spec by apply requests_are_component.
  destruct (answer_states request context en entries L HL) as (Hat & Hent & Hfig). fold resolved A in Hat, Hent, Hfig.
  set (states := make_ready _ _) in *. split; [exact Hent|]. intros i st Hst.
  destruct (resolved.*1 !! i) as [st0|] eqn:H0; [|by rewrite Hat, H0 in Hst].
  rewrite Hat, H0 in Hst. injection Hst as <-. split_and!.
  - pose proof (settles request context en entries i st0 H0) as Hset. fold resolved A in Hset.
    assert (pa_entry (made_ready (with_figure A.*2 <$> found_at i A) st0) = pa_entry st0) as -> by by destruct (found_at i A).
    destruct (dependency_is_installed _ _); [|by destruct Hset as [-> ?]]. destruct Hset as (r & -> & Hr). apply Hr.
  - apply (Hfig i). by rewrite Hat, H0.
  - intros ->. exists (made_ready (found_at i A) st0). split.
    + rewrite (found_at_perm i A (cached ++ (f <$> schedule pending))), partials_show with (x := st0); [done|..].
      * unfold resolved, prepared_dependencies. by rewrite length_fmap, length_imap.
      * unfold in_range. rewrite Hdrain. apply answered_in_range.
      * by rewrite Hdrain.
      * done.
      * done.
      * by rewrite Hdrain.
    + destruct (found_at i A) as [r|]; [done|].
      pose proof (resolved_results request context en entries) as Hrr. rewrite Forall_forall in Hrr.
      unfold same_but_shared. cbn. by rewrite (Hrr st0) by by eapply list_elem_of_lookup_2.
Qed.
End settling.

(** ** A manifest of two packages, one of them installed twice over *)

Definition w_fields : list (field tvalue) :=
  [m_field "dependencies" (TObject [] [m_field "gone" (SString (to_bytes "2")); m_field "@s/x" (SString (to_bytes "1"))]);
   m_field "devDependencies" (TObject [] [m_field "@s/x" (SString (to_bytes "1"))])].
Definition w_root : Value :=
  Object [("dependencies", Object [("gone", String_ "2"); ("@s/x", String_ "1")]); ("devDependencies", Object [("@s/x", String_ "1")])].
Definition w_libraries : ManifestLibraries := {|
  from_str t := if decide (t = "M") then inl x_manifest else inl w_root;
  glob_match _ _ := false;
  relative_path p _ := p;
|}.
Definition w_package_json : AnalyzePackageJsonRequest :=
  {| pr_version := 8; pr_request_id := 1; pr_workspace_root := "/w"; pr_active_document_path := "/w/src/a.ts";
     pr_source := of_bytes (object_text tvalue_text [] w_fields); pr_streaming := true; pr_include_registry_hints := true;
     pr_force_registry_refresh := false; pr_refresh_section := None; pr_registry_hint_mode := None |}.
Definition w_empty : @shard e_shard := @nil string.
Definition w_environment : Environment (SC := e_shard) (SJ := plain_json) := {|
  en_now_ms := 100000000;
  en_registry _ := {| hl_io := all_well; hl_now := 0; hl_done_at := 0; hl_env := busy_registry; hl_service := hints |};
  en_found _ := w_empty;
  en_flight _ _ _ := {| c_result := e_result 7; c_fingerprints := []; c_reusable := true |};
  en_building _ := w_empty;
|}.
Definition w_answer :=
  handle_analyze_package_json_streaming (FL := react_disk) (ML := w_libraries) (OX := resolves_nothing) (CD := bit_codec)
    (DISK := e_disk) (SC := e_shard) (SJ := plain_json) (HO := key_order) m_unquote false "1" (λ _ _ _, e_result 0)
    (λ _, inr "") w_package_json w_environment (@rev _).

Lemma w_answer_facts :
  (λ a, (length a.1, (λ st, (pa_name st, pa_status st, shared_bytes <$> pa_result st)) <$> pj_states a.2)) <$> w_answer =
  Some (4, [("@s/x", Ready, Some (Some 7%N)); ("@s/x", Ready, Some (Some 7%N)); ("gone", Missing, None)]).
Proof. vm_compute. reflexivity. Qed.

(** The package listed twice shares its bytes with itself; a client that saw the
    two builds finish in the other order shows the same states. *)
Lemma every_dependency_settles_witness :
  match w_answer with
  | Some (partials, response) =>
      length partials = 4 ∧
      ((λ st, (pa_name st, pa_status st, shared_bytes <$> pa_result st)) <$> pj_states response) =
        [("@s/x", Ready, Some (Some 7%N)); ("@s/x", Ready, Some (Some 7%N)); ("gone", Missing, None)] ∧
      ∃ st shown, pj_states response !! 0 = Some st ∧ foldl apply_partial ∅ partials !! 0 = Some shown ∧ same_but_shared shown st
  | None => False
  end.
Proof.
  pose proof w_answer_facts as Hw.
  destruct (every_dependency_settles (FL := react_disk) (ML := w_libraries) (OX := resolves_nothing) (CD := bit_codec)
    (DISK := e_disk) (SC := e_shard) (SJ := plain_json) (HO := key_order) m_unquote false "1" (λ _ _ _, e_result 0)
    (λ _, inr "") w_package_json w_environment (@rev _)) as (entries & partials & response & _ & Ha & _ & Hall).
  - reflexivity.
  - vm_compute. reflexivity.
  - intros l. symmetry. apply Permutation_rev.
  - change (w_answer = Some (partials, response)) in Ha. rewrite Ha in Hw |- *.
    cbn [fmap option_fmap option_map fst snd] in Hw. injection Hw as Hlen Hst.
    split; [exact Hlen|]. split; [exact Hst|].
    destruct (pj_states response !! 0) as [st|] eqn:H0;
      [|clear -Hst H0; destruct (pj_states response); [discriminate Hst|discriminate H0]].
    destruct (Hall 0 st H0) as (_ & _ & Hshown). destruct (Hshown eq_refl) as (shown & Hs & Hsame).
    exists st, shown. exact (conj eq_refl (conj Hs Hsame)).
Defined.
