(* ===== verification/Prefetch.v ===== *)
(** * Prewarming (prefetch.rs)

    The background jobs that fill a cache before it is asked: the dependencies of
    a manifest, and the entries a project used last. A newer job, or a request,
    supersedes them through one generation counter. *)
From stdpp Require Import base gmap list strings.
From S2P Require Import Prelude Results Json Fingerprints CacheKeys CachedImports ProjectRegistry Paths Manifests Resolver Aliases Analyze Text Positions ScriptRegions DetectedImports IgnoreRules PackageJson Documents Handlers.

Set Default Proof Using "Type*".

Definition RECENT_PREWARM_LIMIT : nat := 20.
Definition DEFAULT_EXPORT_MEMO_LIMIT : nat := 512.

Record PrewarmJob := { pw_request : ImportRequest; pw_resolved : Resolver.ResolvedPackage }.

(** ** Supersession *)

(** The [AtomicU64] of a [CancellationToken]. *)
Definition token_cancel (generation : N) : N := wrap_add generation 1.
Definition token_next_generation (generation : N) : N * N := (wrap_add generation 1, wrap_add generation 1).
Definition token_is_current (mine generation : N) : bool := bool_decide (generation = mine).

(** ** Which packages have a default export *)

Inductive ExportExportName := ExportDefault | ExportName (name : string) | ExportNull.
Record ParsedEntry := {
  en_fatal_error : bool;
  en_has_module_syntax : bool;
  en_local_export_entries : list ExportExportName;
  en_indirect_export_entries : list ExportExportName;
  en_star_export_entries : list ExportExportName;
}.
(** The parser, and its source types. *)
Class EntryParser := {
  SourceType : Type;
  source_type_from_path : string → option SourceType;
  source_type_mjs : SourceType;
  parse_entry : string → SourceType → ParsedEntry;
}.

Definition exports_default (name : ExportExportName) : bool :=
  match name with ExportDefault => true | ExportName name => bool_decide (name = "default") | ExportNull => false end.
Definition source_exposes_default `{EntryParser} (source : string) (source_type : SourceType) : bool :=
  let parsed := parse_entry source source_type in
  if en_fatal_error parsed then true
  else if negb (en_has_module_syntax parsed) then true
  else existsb exports_default (en_local_export_entries parsed) ||
       existsb exports_default (en_indirect_export_entries parsed) ||
       existsb exports_default (en_star_export_entries parsed).

Definition rotate_left_32 (n : N) : N := N.lor (N.shiftl n 32 mod 2 ^ 64) (N.shiftr n 32).
Definition entry_stat_token `{FileSystem} (path : string) : N :=
  match fs_metadata path with
  | inr _ => 0
  | inl metadata =>
      let modified := match md_modified metadata with
                      | Some t => if decide (0 ≤ t)%Z then (Z.to_N t / 1000000) mod 2 ^ 64 else 0
                      | None => 0
                      end in
      N.lxor (md_len metadata) (rotate_left_32 modified)
  end%N.

Section prewarm.
Context `{FL : Files, ML : ManifestLibraries, OX : Oxc, CP : ConfigParser, CD : IdentityCodec, DISK : FileSystem,
          CH : ContentHash, SC : ShardCache, EP : EntryParser}.
Context (windows : bool) (CARGO_PKG_VERSION : string) (to_lowercase : string → string).

Definition entry_exposes_default_export (entry_path : string) : bool :=
  match read_to_string entry_path with
  | inr _ => true
  | inl source => source_exposes_default source (default source_type_mjs (source_type_from_path entry_path))
  end.

Notation default_memo := (gmap string (N * bool)).
Definition exposes_default_export (resolved : Resolver.ResolvedPackage) (memo : default_memo) : bool * default_memo :=
  let path := entry_path resolved in
  let token := entry_stat_token path in
  let probe :=
    let has_default := entry_exposes_default_export path in
    let memo := if (DEFAULT_EXPORT_MEMO_LIMIT <=? size memo) && negb (bool_decide (is_Some (memo !! path))) then ∅ else memo in
    (has_default, <[path := (token, has_default)]> memo) in
  match memo !! path with
  | Some (cached_token, has_default) => if decide (cached_token = token) then (has_default, memo) else probe
  | None => probe
  end.

(** ** The dependencies of a manifest *)

Definition is_string (v : Value) : bool := bool_decide (is_Some (as_str v)).
Definition package_json_dependency_names (contents : string) : list string + string :=
  match from_str contents with
  | inr error => inr ("failed to parse package.json: " +:+ error)
  | inl json =>
      let named field := match value_get field json ≫= as_object with
                         | Some dependencies => (filter (λ e, is_string e.2 = true) dependencies).*1
                         | None => []
                         end in
      inl (dedup (sort String.compare (DEPENDENCY_SECTION_NAMES ≫= named)))
  end.

Definition prewarm_request (package_name version : string) (import_kind : ImportKind) : ImportRequest :=
  {| rq_specifier := package_name; rq_package_name := package_name; rq_version := version; rq_named := [];
     rq_import_kind := import_kind; rq_runtime := Component |}.
Definition installed_package (active_document_path package_name : string) : option Resolver.ResolvedPackage :=
  ok (resolve_package_entry active_document_path (prewarm_request package_name "" Namespace)).

(** One turn of the loop over the names. *)
Definition prewarm_jobs_of (active_document_path package_name : string) (memo : default_memo) :
    list PrewarmJob * default_memo :=
  match installed_package active_document_path package_name with
  | None => ([], memo)
  | Some resolved =>
      match value_get "version" (Resolver.package_json resolved) ≫= as_str with
      | None => ([], memo)
      | Some version =>
          let '(has_default, memo) := exposes_default_export resolved memo in
          let job kind := {| pw_request := prewarm_request package_name version kind; pw_resolved := resolved |} in
          ((if has_default : bool then [job Default] else []) ++ [job Namespace], memo)
      end
  end.
(** [should_continue n] is its answer before the [n]-th name; [None] is the
    empty answer of a superseded job. *)
Fixpoint prewarm_loop (active_document_path : string) (should_continue : nat → bool) (index : nat)
    (names : list string) (memo : default_memo) : option (list PrewarmJob) * default_memo :=
  match names with
  | [] => (Some [], memo)
  | name :: names =>
      if negb (should_continue index) then (None, memo)
      else
        let '(jobs, memo) := prewarm_jobs_of active_document_path name memo in
        let '(rest, memo) := prewarm_loop active_document_path should_continue (S index) names memo in
        (app jobs <$> rest, memo)
  end.
Definition package_json_prewarm_jobs (package_json_path active_document_path : string) (should_continue : nat → bool)
    (memo : default_memo) : (list PrewarmJob + string) * default_memo :=
  match read_to_string package_json_path with
  | inr error => (inr ("failed to read package.json " +:+ package_json_path +:+ ": " +:+ error), memo)
  | inl contents =>
      match package_json_dependency_names contents with
      | inr error => (inr error, memo)
      | inl names =>
          let '(jobs, memo) := prewarm_loop active_document_path should_continue 0 names memo in
          (inl (default [] jobs), memo)
      end
  end.

(** ** Where a prewarm caches *)

Definition is_within (path root : string) : bool :=
  if windows then path_starts_with (to_lowercase path) (to_lowercase root) else path_starts_with path root.
Definition prewarm_root (workspace_root : option string) (package_json_path : string) : string :=
  let manifest_dir := default package_json_path (path_parent package_json_path) in
  match workspace_root with
  | Some root => if is_within manifest_dir root then root else manifest_dir
  | None => manifest_dir
  end.

(** ** The jobs *)

(** What the checks of one job of the drain answer: its own, and the two that
    [prewarm_resolved_import] makes. *)
Record JobChecks := { jc_current : bool; jc_continue : bool; jc_store : bool }.
Definition run_job (flight : string → N → ComputedAnalysis) (cache : shard) (j : PrewarmJob * JobChecks) : shard :=
  let '(job, checks) := j in
  if jc_current checks then
    prewarm_resolved_import windows CARGO_PKG_VERSION flight (jc_continue checks) (jc_store checks)
      (pw_request job) (pw_resolved job) cache
  else cache.
(** The drain: the jobs in the order they run, each with what its checks
    answer. *)
Definition run_jobs (flight : string → N → ComputedAnalysis) (drained : list (PrewarmJob * JobChecks)) (cache : shard) :
    shard := foldl (run_job flight) cache drained.

Definition run_prewarm_job (before ready : bool) (during : nat → bool) (schedule : list PrewarmJob → list (PrewarmJob * JobChecks))
    (flight : string → N → ComputedAnalysis) (context : AnalysisContext) (package_json_path : string)
    (memo : default_memo) (cache : shard) : default_memo * shard :=
  if negb before then (memo, cache)
  else
    match package_json_prewarm_jobs package_json_path (active_document_path context) during memo with
    | (inr _, memo) => (memo, cache)
    | (inl jobs, memo) =>
        if bool_decide (jobs = []) || negb ready then (memo, cache)
        else (memo, run_jobs flight (schedule jobs) cache)
    end.

Definition import_request_from_identity (identity : CacheIdentity) : ImportRequest :=
  {| rq_specifier := ci_specifier identity; rq_package_name := ci_package_name identity;
     rq_version := ci_package_version identity; rq_named := ci_named_exports identity;
     rq_import_kind := ci_import_kind identity; rq_runtime := ci_runtime identity |}.
Definition recent_job (key : string) : option PrewarmJob :=
  identity ← decode_cache_identity key;
  resolved ← resolved_from_cache_identity identity;
  Some {| pw_request := import_request_from_identity identity; pw_resolved := resolved |}.
(** [recent_keys]: the shard's keys, most recent first. *)
Definition run_recent_prewarm_job (before ready : bool) (schedule : list PrewarmJob → list (PrewarmJob * JobChecks))
    (flight : string → N → ComputedAnalysis) (recent_keys : nat → list string) (cache : shard) : shard :=
  if negb before then cache
  else
    let jobs := omap recent_job (recent_keys RECENT_PREWARM_LIMIT) in
    if bool_decide (jobs = []) || negb ready then cache else run_jobs flight (schedule jobs) cache.
(** The document a recent job is analysed for. *)
Definition recent_document (jobs : list PrewarmJob) (workspace_root : string) : string :=
  default (path_push workspace_root "package.json")
    (job ← head jobs; path_parent (entry_path (pw_resolved job))).
End prewarm.

(** ** What a prewarm fills is what a request looks up *)

Section hits.
Context `{FL : Files, ML : ManifestLibraries, OX : Oxc, CP : ConfigParser, CD : IdentityCodec, DISK : FileSystem,
          CH : ContentHash, SC : ShardCache, EP : EntryParser}.
Context (windows : bool) (CARGO_PKG_VERSION : string).

(** A resolution does not depend on the version, kind or names asked for. *)
Lemma resolution_of_name doc name version kind version' kind' :
  resolve_package_entry doc (prewarm_request name version kind) = resolve_package_entry doc (prewarm_request name version' kind').
Proof. reflexivity. Qed.

Lemma installed_version doc name resolved :
  installed_package doc name = Some resolved →
  ∃ version, value_get "version" (Resolver.package_json resolved) ≫= as_str = Some version ∧
    resolve_installed_package_version doc name = inl version.
Proof.
  unfold installed_package, resolve_package_entry. cbn [rq_package_name prewarm_request].
  destruct (validate_package_name name); [done|].
  destruct (find_package_manifest _ _) as [m|] eqn:Hm; [|done].
  apply find_package_manifest_ok in Hm as (Hroot & text & version & Ht & Hj & Hv). cbn in Hroot.
  assert (value_get "version" (json m) ≫= as_str = Some version) as Hver by exact Hv.
  intros Hok. exists version.
  assert (Resolver.package_json resolved = json m) as ->.
  { destruct (resolve_with_oxc _ _ _) as [e|error]; [case_match; [done|by injection Hok as <-]|].
    destruct (resolve_legacy_fallback _ _ _); [by injection Hok as <-|done]. }
  split; [done|]. unfold resolve_installed_package_version. rewrite Hroot.
  change (path_push (root m) "package.json") with (manifest_path (root m)). rewrite Ht, Hj, Hver. done.
Qed.

Lemma jobs_of_name doc name memo job :
  job ∈ (prewarm_jobs_of doc name memo).1 →
  ∃ version kind, installed_package doc name = Some (pw_resolved job) ∧
    resolve_installed_package_version doc name = inl version ∧ pw_request job = prewarm_request name version kind.
Proof.
  unfold prewarm_jobs_of. destruct (installed_package doc name) as [resolved|] eqn:Hi; [|intros H; by apply not_elem_of_nil in H].
  destruct (installed_version _ _ _ Hi) as (version & -> & Hr).
  destruct (exposes_default_export resolved memo) as [[] memo']; cbn; rewrite ?elem_of_cons, elem_of_nil; intros Hj;
    destruct_or?; subst; try done; eexists version, _; done.
Qed.
Lemma jobs_of_installed doc name memo resolved :
  installed_package doc name = Some resolved →
  ∃ version, {| pw_request := prewarm_request name version Namespace; pw_resolved := resolved |} ∈ (prewarm_jobs_of doc name memo).1.
Proof.
  intros Hi. unfold prewarm_jobs_of. rewrite Hi. destruct (installed_version _ _ _ Hi) as (version & -> & _).
  exists version. destruct (exposes_default_export resolved memo) as [has memo']. cbn.
  apply elem_of_app. right. by apply list_elem_of_singleton.
Qed.

Lemma prewarm_loop_all doc names : ∀ index memo,
  ∃ memos, length memos = length names ∧
    (prewarm_loop doc (λ _, true) index names memo).1 =
    Some (concat (zip_with (λ name memo, (prewarm_jobs_of doc name memo).1) names memos)).
Proof.
  induction names as [|name names IH]; intros index memo; cbn; [by exists []|].
  destruct (prewarm_jobs_of doc name memo) as [jobs memo1] eqn:Hj.
  destruct (IH (S index) memo1) as (memos & Hl & Hm).
  destruct (prewarm_loop doc (λ _, true) (S index) names memo1) as [rest memo2]. cbn in Hm. subst rest.
  exists (memo :: memos). cbn. rewrite Hj, Hl. done.
Qed.

Lemma elem_of_zip_jobs doc names memos job :
  job ∈ concat (zip_with (λ name memo, (prewarm_jobs_of doc name memo).1) names memos) →
  ∃ name memo, name ∈ names ∧ job ∈ (prewarm_jobs_of doc name memo).1.
Proof.
  revert memos. induction names as [|name names IH]; intros [|memo memos]; cbn;
    try (intros H; by apply not_elem_of_nil in H).
  intros [Hj|Hj]%elem_of_app; [exists name, memo; by split; [left|]|].
  destruct (IH _ Hj) as (n & m & Hn & Hm). exists n, m. by split; [right|].
Qed.
Lemma zip_jobs_installed doc names memos name resolved :
  length memos = length names → name ∈ names → installed_package doc name = Some resolved →
  ∃ version, {| pw_request := prewarm_request name version Namespace; pw_resolved := resolved |} ∈
    concat (zip_with (λ name memo, (prewarm_jobs_of doc name memo).1) names memos).
Proof.
  revert memos. induction names as [|n names IH]; intros [|memo memos] Hl Hn Hi; try done;
    [by apply not_elem_of_nil in Hn|].
  apply elem_of_cons in Hn as [->|Hn]; cbn.
  - destruct (jobs_of_installed doc n memo resolved Hi) as [version Hv]. exists version. apply elem_of_app. by left.
  - destruct (IH memos ltac:(cbn in Hl; lia) Hn Hi) as [version Hv]. exists version. apply elem_of_app. by right.
Qed.

(** The entry of a key, filled unless it is there: by the flight's durable,
    reusable answer for that key, at the generation read after the lookup. *)
Definition fill (flight : string → N → ComputedAnalysis) (key : string) (cache : shard) : shard :=
  let '(found, cache) := get_for_prewarm key cache in
  if decide (is_Some found) then cache
  else
    let computed := flight key (cache_generation cache) in
    if is_durable (c_result computed) && c_reusable computed
    then insert_with_fingerprints_at_generation key (c_result computed) (c_fingerprints computed)
           (cache_generation cache) cache
    else cache.
Definition uninterrupted (c : JobChecks) : Prop := jc_current c = true ∧ jc_continue c = true ∧ jc_store c = true.
Definition job_key (job : PrewarmJob) : string := cache_key windows CARGO_PKG_VERSION (pw_request job) (pw_resolved job).

Lemma run_job_fills flight cache job checks :
  uninterrupted checks →
  run_job windows CARGO_PKG_VERSION flight cache (job, checks) = fill flight (job_key job) cache.
Proof.
  intros (H1 & H2 & H3). unfold run_job, prewarm_resolved_import, fill, job_key. rewrite H1, H2, H3.
  destruct (get_for_prewarm _ cache) as [found cache1]. cbn [negb]. rewrite orb_false_r.
  destruct found as [r|].
  - rewrite bool_decide_eq_true_2, decide_True by done. done.
  - rewrite bool_decide_eq_false_2, decide_False by by intros []. unfold analyze_and_cache, should_cache_result.
    cbn. by rewrite andb_true_r.
Qed.
Lemma run_jobs_fill flight drained cache :
  Forall uninterrupted drained.*2 →
  run_jobs windows CARGO_PKG_VERSION flight drained cache =
    foldl (λ cache key, fill flight key cache) cache (job_key <$> drained.*1).
Proof.
  revert cache. induction drained as [|[job checks] drained IH]; intros cache Hall; [done|].
  apply Forall_cons in Hall as [Hc Hall]. cbn in Hc. unfold run_jobs in *. cbn [foldl fmap list_fmap fst].
  by rewrite run_job_fills, IH.
Qed.

(** C27. A manifest's uninterrupted prewarm has a namespace job for every installed
    dependency. Its run, in whatever order its jobs are drained, fills the entries
    of exactly those jobs' keys, one after the other: it looks each up and, where
    there is none, inserts the durable, reusable answer of that key's flight. And
    each key is that of the very entry that a document beside the manifest looks
    up when it imports that package: the import is detected as the same request,
    resolves to the same package and has the same key. *)
Theorem prewarmed_imports_are_looked_up doc package_json_path contents names memo jobs memo' :
  read_to_string package_json_path = inl contents → package_json_dependency_names contents = inl names →
  package_json_prewarm_jobs package_json_path doc (λ _, true) memo = (inl jobs, memo') →
  (∀ name resolved, name ∈ names → installed_package doc name = Some resolved →
     ∃ version, {| pw_request := prewarm_request name version Namespace; pw_resolved := resolved |} ∈ jobs) ∧
  (∀ job d, job ∈ jobs → d_specifier d = rq_specifier (pw_request job) → d_package_name d = rq_package_name (pw_request job) →
     d_named d = [] → d_import_kind d = rq_import_kind (pw_request job) → d_runtime d = Component →
     d_package_name d ∈ names ∧
     import_request_for_detected doc d = inl (pw_request job) ∧
     ∀ context serve_stale intent cache, active_document_path context = doc →
       let key := cache_key windows CARGO_PKG_VERSION (pw_request job) (pw_resolved job) in
       probe_cache windows CARGO_PKG_VERSION context (pw_request job) serve_stale intent cache =
         let '(found, cache) :=
           if serve_stale then get_with_result_freshness key cache else fresh_cached_result_for_key key intent cache in
         (match found with Some r => Hit r | None => Miss {| pb_resolved := pw_resolved job; pb_key := key |} end, cache)) ∧
  (∀ schedule flight context cache, active_document_path context = doc →
     (schedule jobs).*1 ≡ₚ jobs → Forall uninterrupted (schedule jobs).*2 →
     run_prewarm_job windows CARGO_PKG_VERSION true true (λ _, true) schedule flight context package_json_path memo cache =
       (memo', foldl (λ cache key, fill flight key cache) cache (job_key <$> (schedule jobs).*1))).
Proof.
  intros Hc Hn Hjobs. apply and_assoc. split.
  2: { intros schedule flight context cache <- Hp Hall. unfold run_prewarm_job. cbn [negb]. rewrite Hjobs, orb_false_r.
       case_bool_decide as He; [|by rewrite run_jobs_fill].
       subst jobs. apply Permutation_nil_r in Hp. by rewrite Hp. }
  revert Hjobs. unfold package_json_prewarm_jobs. rewrite Hc, Hn.
  destruct (prewarm_loop_all doc names 0 memo) as (memos & Hl & Hm).
  destruct (prewarm_loop doc _ 0 names memo) as [found memo1]. cbn in Hm. subst found. intros [= <- <-]. split.
  - intros name resolved Hin Hi. by apply (zip_jobs_installed doc names memos).
  - intros job d Hj Hs Hp Hnm Hk Hr.
    apply elem_of_zip_jobs in Hj as (name & m & Hin & Hj). apply jobs_of_name in Hj as (version & kind & Hi & Hv & Hreq).
    rewrite Hreq in Hs, Hp, Hk |- *. cbn in Hs, Hp, Hk. split; [by rewrite Hp|]. split.
    + unfold import_request_for_detected. rewrite Hp, Hv, Hs, Hnm, Hk, Hr. done.
    + intros context serve_stale intent cache <-. cbn zeta. unfold probe_cache.
      rewrite (resolution_of_name _ name version kind "" Namespace). unfold installed_package, ok in Hi.
      destruct (resolve_package_entry _ _) as [resolved|]; [|done]. injection Hi as <-. done.
Qed.

(** A recent entry is warmed under the key it was stored by, where a path that
    has been normalized is normal. *)
Lemma recent_keys_are_rewarmed `{!LawfulCodec CD} request resolved job :
  let normal := normalize_identity_path windows in
  let identity := cache_identity_for_import CARGO_PKG_VERSION windows request
    (Some {| rp_package_root := Resolver.package_root resolved; rp_entry_path := entry_path resolved |}) in
  is_Some (to_vec identity) →
  normal (normal (Resolver.package_root resolved)) = normal (Resolver.package_root resolved) →
  normal (normal (entry_path resolved)) = normal (entry_path resolved) →
  recent_job (cache_key windows CARGO_PKG_VERSION request resolved) = Some job →
  cache_key windows CARGO_PKG_VERSION (pw_request job) (pw_resolved job) = cache_key windows CARGO_PKG_VERSION request resolved.
Proof.
  cbn zeta. intros Hv Hr He. unfold recent_job, cache_key, cache_key_for_resolved_import.
  rewrite decode_encode_identity by done. cbn [mbind option_bind].
  destruct (resolved_from_cache_identity _) as [p|] eqn:Hp; [|done]. intros [= <-]. f_equal.
  unfold resolved_from_cache_identity in Hp. cbn in Hp.
  destruct (ok (read_to_string _)) as [text|]; [|done]. cbn in Hp. destruct (ok (from_str text)) as [js|]; [|done].
  cbn in Hp. injection Hp as <-. apply same_identity. unfold same_import. cbn.
  split_and!; try done. unfold requested_names. cbn. intros n. destruct (decide (rq_import_kind request = Named)); [|done].
  by rewrite elem_of_dedup, elem_of_sort.
Qed.
End hits.

(** ** A manifest with one installed dependency *)

Definition p_manifest : Value :=
  Object [("dependencies", Object [("@s/x", String_ "^1.0.0"); ("absent", String_ "2"); ("odd", Bool true)]);
          ("devDependencies", Json.Null)].
Definition p_libraries : ManifestLibraries := {|
  from_str t := if decide (t = "P") then inl p_manifest else inl x_manifest;
  glob_match _ _ := false;
  relative_path p _ := p;
|}.
Definition p_disk : Files :=
  listed_files ["/w/package.json"; "/w/node_modules/@s/x/package.json"; "/w/node_modules/@s/x/lib/index.js"]
    [("/w/package.json", "P"); ("/w/node_modules/@s/x/package.json", "M"); ("/w/node_modules/@s/x/lib/index.js", "export {}")].
(** An entry with module syntax and no default export. *)
Definition p_parser : EntryParser := {|
  SourceType := unit; source_type_from_path _ := None; source_type_mjs := tt;
  parse_entry _ _ := {| en_fatal_error := false; en_has_module_syntax := true; en_local_export_entries := [ExportName "a"];
                        en_indirect_export_entries := []; en_star_export_entries := [ExportNull] |};
|}.
Definition p_jobs :=
  package_json_prewarm_jobs (FL := p_disk) (ML := p_libraries) (OX := resolves_nothing) (DISK := e_disk) (EP := p_parser)
    "/w/package.json" "/w/src/a.ts" (λ _, true) ∅.
Definition p_job : PrewarmJob := {| pw_request := prewarm_request "@s/x" "1.0.0" Namespace; pw_resolved := x_package |}.
Lemma p_jobs_found : p_jobs.1 = inl [p_job].
Proof. vm_compute. reflexivity. Qed.

Definition p_checks : JobChecks := {| jc_current := true; jc_continue := true; jc_store := true |}.
(** A shard that remembers the keys it was given. *)
Definition p_shard : ShardCache := {|
  shard := list string;
  get_with_result_freshness _ s := (None, s); get_if_fresh _ s := (None, s); get_if_fresh_and_promote _ s := (None, s);
  get_for_prewarm _ s := (None, s); probe_freshness _ _ := None;
  begin_revalidation _ s := (true, s); finish_revalidation _ s := s;
  insert_with_fingerprints_at_generation k _ _ _ s := k :: s;
  cache_generation _ := 0%N;
|}.
Definition p_flight (_ : string) (_ : N) : ComputedAnalysis :=
  {| Documents.c_result := e_result 5; Documents.c_fingerprints := []; c_reusable := true |}.
Definition p_context : AnalysisContext := {| workspace_root := "/w"; active_document_path := "/w/src/a.ts" |}.

(** Only the installed dependency is warmed, without a default import; importing
    it looks up the key that was filled. *)
Lemma prewarmed_imports_are_looked_up_witness :
  package_json_dependency_names (ML := p_libraries) "P" = inl ["@s/x"; "absent"] ∧ p_jobs.1 = inl [p_job] ∧
  import_request_for_detected (FL := p_disk) (ML := p_libraries) "/w/src/a.ts"
    {| d_specifier := "@s/x"; d_package_name := "@s/x"; d_named := []; d_import_kind := Namespace; d_syntax := Static;
       d_runtime := Component; d_line := 0; d_quote_end := no_position; d_specifier_range := no_range;
       d_statement_range := no_range |} = inl (pw_request p_job) ∧
  ∃ memo', run_prewarm_job (FL := p_disk) (ML := p_libraries) (OX := resolves_nothing) (CD := bit_codec) (DISK := e_disk)
      (SC := p_shard) (EP := p_parser) false "1" true true (λ _, true) (λ jobs, (λ j, (j, p_checks)) <$> jobs)
      p_flight p_context "/w/package.json" ∅ [] =
    (memo', [job_key (CD := bit_codec) (DISK := e_disk) false "1" p_job]).
Proof.
  assert (package_json_dependency_names (ML := p_libraries) "P" = inl ["@s/x"; "absent"]) as Hn by (vm_compute; reflexivity).
  split; [exact Hn|]. split; [exact p_jobs_found|].
  pose proof p_jobs_found as Hj. destruct p_jobs as [jobs memo'] eqn:E. cbn in Hj. subst jobs.
  destruct (prewarmed_imports_are_looked_up (FL := p_disk) (ML := p_libraries) (OX := resolves_nothing)
    (CD := bit_codec) (DISK := e_disk) (SC := p_shard) (EP := p_parser) false "1" "/w/src/a.ts" "/w/package.json" "P"
    ["@s/x"; "absent"] ∅ [p_job] memo' eq_refl Hn E) as (_ & Hlook & Hrun). split.
  - refine (proj1 (proj2 (Hlook p_job _ _ _ _ _ _ _))); try reflexivity. apply list_elem_of_singleton. reflexivity.
  - exists memo'.
    pose proof (Hrun (λ jobs, (λ j, (j, p_checks)) <$> jobs) p_flight p_context [] eq_refl) as Hran.
    refine (eq_trans (Hran _ _) _); [reflexivity|by repeat constructor|]. reflexivity.
Defined.
