(* ===== verification/Server.v ===== *)
(** * The connection loop (ipc/server.rs, lifecycle.rs)

    One client's connection: the frames it sends, what the loop does with each,
    the tasks it starts, the frames they queue, and the ways it ends. What a
    request's handler answers is elsewhere; here an answer is that of the handler
    or the request's protocol error. *)
From stdpp Require Import base gmap list strings pretty.
From S2P Require Import Prelude Stages Results ProjectRegistry Connections Handlers Report Dependencies Prefetch Completions.

Set Default Proof Using "Type*".

(** ** What a client sends *)

Record HelloMessage := {
  he_version : N; he_workspace_root : string; he_storage_path : string; he_enable_disk_cache : bool;
  he_cache_max_size_mb : N; he_registry_cache_max_size_mb : N; he_log_level : string;
}.
Record PrewarmPackageJsonMessage := {
  pm_package_json_path : string; pm_active_document_path : string; pm_workspace_root : option string;
}.
Record NodeModulesChangedMessage := { nm_package_json_paths : list string; nm_tsconfig_paths : list string }.
Record RegistryHintTarget := { rt_name : string; rt_installed_version : option string }.
Record RefreshRegistryHintsRequest := {
  rr_version : N; rr_request_id : N; rr_targets : list RegistryHintTarget; rr_mode : ProtocolRegistryHintMode;
  rr_source : option string;
}.
Record CacheStatusRequest := { ct_version : N; ct_request_id : N; ct_workspace_root : option string }.
Record CacheListRequest := { cl_version : N; cl_request_id : N }.
Inductive CacheRemoveScope := CurrentProject | Selected | All | Orphans | Registry.
#[export] Instance CacheRemoveScope_eq_dec : EqDecision CacheRemoveScope.
Proof. solve_decision. Defined.
Record CacheRemoveRequest := {
  cx_version : N; cx_request_id : N; cx_scope : CacheRemoveScope; cx_workspace_root : option string;
  cx_shard_ids : option (list string);
}.

Inductive ClientMessage :=
  | Hello (hello : HelloMessage)
  | AnalyzeDocument (request : AnalyzeDocumentRequest)
  | AnalyzePackageJson (request : AnalyzePackageJsonRequest)
  | AnalyzeSpecifiers (request : AnalyzeSpecifiersRequest)
  | CacheInvalidate (package_name : string)
  | CacheInvalidateAll
  | PrewarmPackageJson (message : PrewarmPackageJsonMessage)
  | NodeModulesChanged (message : NodeModulesChangedMessage)
  | VisibleDocuments (document_paths : list string)
  | EnumerateExports (request : EnumerateExportsRequest)
  | FileSizeDocument (request : FileSizeDocumentRequest)
  | CompleteImportMembers (request : CompleteImportMembersRequest)
  | CacheStatus (request : CacheStatusRequest)
  | CacheList (request : CacheListRequest)
  | CacheRemove (request : CacheRemoveRequest)
  | RefreshRegistryHints (request : RefreshRegistryHintsRequest)
  | WorkspaceReport (request : WorkspaceReportRequest)
  | Shutdown.

(** ** Protocol errors *)

Record CacheOperationResult := {
  co_shard_id : string; co_project_root : string; co_cache_path : string; co_removed : bool; co_error : option string;
}.
Record CacheStatusResponse := {
  st_version : N; st_request_id : N; st_total_size_bytes : N; st_project_count : nat; st_max_size_mb : N;
  st_current_project : option CacheShardInfo; st_total_bytes : N; st_budget_bytes : N; st_registry_size_bytes : N;
  st_error : option string; st_diagnostics : list ImportDiagnostic;
}.
Record CacheListResponse := {
  sl_version : N; sl_request_id : N; sl_shards : list CacheShardInfo; sl_error : option string;
  sl_diagnostics : list ImportDiagnostic;
}.
Record CacheRemoveResponse := {
  cd_version : N; cd_request_id : N; cd_removed : list CacheOperationResult; cd_failed : list CacheOperationResult;
  cd_scrubbed_entries : nat; cd_registry_entries_removed : nat; cd_error : option string;
  cd_diagnostics : list ImportDiagnostic;
}.
Record RegistryHintResult := {
  rx_target : RegistryHintTarget; rx_hint : option RegistryService.RegistryHint; rx_error : option string;
  rx_origin : option string;
}.
Record RefreshRegistryHintsResponse := {
  rf_version : N; rf_request_id : N; rf_results : list RegistryHintResult; rf_indexes : option (list nat);
  rf_error : option string; rf_diagnostics : list ImportDiagnostic;
}.

Definition protocol_diagnostics (message : string) : list ImportDiagnostic := [for_stage "protocol" message].
Definition protocol_error_analyze_package_json_response (request : AnalyzePackageJsonRequest) (message : string) :
    AnalyzePackageJsonResponse :=
  {| pj_version := N.min (pr_version request) PROTOCOL_VERSION; pj_request_id := pr_request_id request; pj_sections := [];
     pj_states := []; pj_indexes := None; pj_error := Some message; pj_diagnostics := protocol_diagnostics message |}.
Definition protocol_error_analyze_specifiers_response (request : AnalyzeSpecifiersRequest) (message : string) :
    AnalyzeDocumentResponse :=
  {| ar_version := N.min (as_version request) PROTOCOL_VERSION; ar_request_id := as_request_id request; ar_imports := [];
     ar_error := Some message; ar_diagnostics := protocol_diagnostics message |}.
Definition protocol_error_complete_import_members_response (request : CompleteImportMembersRequest) (message : string) :
    CompleteImportMembersResponse :=
  {| cs_version := N.min (cq_version request) PROTOCOL_VERSION; cs_request_id := cq_request_id request;
     cs_specifier := None; cs_exports := []; cs_imported_names := []; cs_error := Some message;
     cs_diagnostics := protocol_diagnostics message |}.
Definition protocol_error_cache_status_response (request : CacheStatusRequest) (message : string) : CacheStatusResponse :=
  {| st_version := N.min (ct_version request) PROTOCOL_VERSION; st_request_id := ct_request_id request;
     st_total_size_bytes := 0; st_project_count := 0; st_max_size_mb := 0; st_current_project := None;
     st_total_bytes := 0; st_budget_bytes := 0; st_registry_size_bytes := 0; st_error := Some message;
     st_diagnostics := protocol_diagnostics message |}.
Definition protocol_error_cache_list_response (request : CacheListRequest) (message : string) : CacheListResponse :=
  {| sl_version := N.min (cl_version request) PROTOCOL_VERSION; sl_request_id := cl_request_id request; sl_shards := [];
     sl_error := Some message; sl_diagnostics := protocol_diagnostics message |}.
Definition protocol_error_cache_remove_response (request : CacheRemoveRequest) (message : string) : CacheRemoveResponse :=
  {| cd_version := N.min (cx_version request) PROTOCOL_VERSION; cd_request_id := cx_request_id request; cd_removed := [];
     cd_failed := []; cd_scrubbed_entries := 0; cd_registry_entries_removed := 0; cd_error := Some message;
     cd_diagnostics := protocol_diagnostics message |}.
Definition protocol_error_refresh_registry_hints (request : RefreshRegistryHintsRequest) (message : string) :
    RefreshRegistryHintsResponse :=
  {| rf_version := N.min (rr_version request) PROTOCOL_VERSION; rf_request_id := rr_request_id request; rf_results := [];
     rf_indexes := None; rf_error := Some message; rf_diagnostics := protocol_diagnostics message |}.
Definition workspace_report_protocol_error (request : WorkspaceReportRequest) (message : string) : WorkspaceReportResponse :=
  {| wp_version := N.min (wr_version request) PROTOCOL_VERSION; wp_request_id := wr_request_id request; wp_rows := [];
     wp_summary := empty_summary; wp_error := Some message; wp_diagnostics := [for_stage "workspace_report" message] |}.

Inductive AnyResponse :=
  | OfDocument (r : AnalyzeDocumentResponse) | OfPackageJson (r : AnalyzePackageJsonResponse)
  | OfExports (r : EnumerateExportsResponse) | OfFileSize (r : FileSizeDocumentResponse)
  | OfMembers (r : CompleteImportMembersResponse) | OfStatus (r : CacheStatusResponse) | OfList (r : CacheListResponse)
  | OfRemove (r : CacheRemoveResponse) | OfHints (r : RefreshRegistryHintsResponse) | OfReport (r : WorkspaceReportResponse).
(** The error a request is answered with; [None] where a message has no answer. *)
Definition refusal (m : ClientMessage) (message : string) : option AnyResponse :=
  match m with
  | AnalyzeDocument r => Some (OfDocument (protocol_error_analyze_document_response r message))
  | AnalyzePackageJson r => Some (OfPackageJson (protocol_error_analyze_package_json_response r message))
  | AnalyzeSpecifiers r => Some (OfDocument (protocol_error_analyze_specifiers_response r message))
  | EnumerateExports r => Some (OfExports (protocol_error_exports_response r message))
  | FileSizeDocument r => Some (OfFileSize (protocol_error_file_size_document_response r message))
  | CompleteImportMembers r => Some (OfMembers (protocol_error_complete_import_members_response r message))
  | CacheStatus r => Some (OfStatus (protocol_error_cache_status_response r message))
  | CacheList r => Some (OfList (protocol_error_cache_list_response r message))
  | CacheRemove r => Some (OfRemove (protocol_error_cache_remove_response r message))
  | RefreshRegistryHints r => Some (OfHints (protocol_error_refresh_registry_hints r message))
  | WorkspaceReport r => Some (OfReport (workspace_report_protocol_error r message))
  | Hello _ | CacheInvalidate _ | CacheInvalidateAll | PrewarmPackageJson _ | NodeModulesChanged _ | VisibleDocuments _
  | Shutdown => None
  end.
Definition expects_answer (m : ClientMessage) : bool := match refusal m "" with Some _ => true | None => false end.

(** ** Recycling (lifecycle.rs) *)

(** In milliseconds. *)
Definition UPTIME_RECYCLE_AFTER : N := 4 * 60 * 60 * 1000.
Definition IDLE_RECYCLE_AFTER : N := 15 * 60 * 1000.
Definition RECYCLE_DETECTION_WINDOW : N := 10 * 60 * 1000.
Record LifecycleState := { started_at : N; last_batch_at : option N }.
Definition record_batch_at (now : N) (l : LifecycleState) : LifecycleState :=
  {| started_at := started_at l; last_batch_at := Some now |}.
Definition should_recycle (now : N) (l : LifecycleState) : bool :=
  negb (sat_sub now (started_at l) <=? UPTIME_RECYCLE_AFTER)%N &&
  (IDLE_RECYCLE_AFTER <? sat_sub now (default (started_at l) (last_batch_at l)))%N.
(** The timestamps the recycle file holds after a recycle; [held] are those it
    parses to. *)
Definition record_recycle_timestamp (now_millis : N) (held : option (list N)) : list N :=
  let cutoff := sat_sub now_millis RECYCLE_DETECTION_WINDOW in
  sort N.compare (filter (λ timestamp, (cutoff <= timestamp)%N) (default [] held) ++ [now_millis]).

(** ** The tasks of a connection *)

Inductive Content := Handled | Refused (message : string).
(** A frame, by the place of the message it is about among those read. *)
Inductive Frame :=
  | Partial (seq : nat)
  | Response (seq : nat) (content : Content)
  | Push (seq : nat).
#[export] Instance Content_eq_dec : EqDecision Content.
Proof. solve_decision. Defined.
#[export] Instance Frame_eq_dec : EqDecision Frame.
Proof. solve_decision. Defined.
Definition frame_seq (f : Frame) : nat := match f with Partial n | Response n _ | Push n => n end.

(** A task answers, may go on to push refreshed results, and ends. [lost] says
    that neither its answer nor the fallback could be encoded. *)
Inductive TaskState := Working | Background (pushes : bool) | Finished.
#[export] Instance TaskState_eq_dec : EqDecision TaskState.
Proof. solve_decision. Defined.
Record Task := { tk_message : ClientMessage; tk_service : nat; tk_state : TaskState; tk_lost : bool }.
Definition set_state (st : TaskState) (lost : bool) (t : Task) : Task :=
  {| tk_message := tk_message t; tk_service := tk_service t; tk_state := st; tk_lost := lost |}.

(** The request streams its partial answers. *)
Definition streams (m : ClientMessage) : bool :=
  match m with
  | AnalyzePackageJson r => (2 <=? pr_version r)%N && pr_streaming r
  | RefreshRegistryHints _ => true
  | _ => false
  end.
Definition pushes (m : ClientMessage) : bool :=
  match m with AnalyzeDocument _ | FileSizeDocument _ => true | _ => false end.
Definition invalidates (m : ClientMessage) : bool :=
  match m with CacheInvalidate _ | CacheInvalidateAll | NodeModulesChanged _ => true | _ => false end.

Definition join_error_message (error : string) : string := "analysis worker failed: " +:+ error.
Definition unencodable (error : string) : string := "the response could not be encoded: " +:+ error.
Definition superseded_read : string := "superseded by a newer size read for this document".
Definition report_stopped : string := "workspace report worker stopped before sending a response".
Definition no_hello : string := "hello message not received".

(** [queue_outbound]: a message that does not encode is dropped. *)
Definition queue_outbound (encoded : bool) (f : Frame) : list Frame := if encoded then [f] else [].
(** [queue_response]: one that does not encode is replaced by the request's
    error, which may not encode either. *)
Definition queue_response (error : option string) (fallback : bool) (seq : nat) (c : Content) : list Frame :=
  match error with
  | None => [Response seq c]
  | Some error => queue_outbound fallback (Response seq (Refused (unencodable error)))
  end.
(** What the task's handler comes to: its answer, or a panic or cancellation;
    the forwarder of a registry refresh has no handler to fail. *)
Definition can_fail (m : ClientMessage) : bool := match m with RefreshRegistryHints _ => false | _ => true end.
Definition joined_content (m : ClientMessage) (failure : option string) : Content :=
  match failure with
  | None => Handled
  | Some error => match m with WorkspaceReport _ => Refused report_stopped | _ => Refused (join_error_message error) end
  end.

Inductive Act := ActPartial | ActRespond | ActSupersede | ActPush | ActEnd.
(** One step of task [t]: the frames it queues and what it becomes. *)
Inductive task_step (t : nat) (tk : Task) : Act → list Frame → Task → Prop :=
  | TaskPartial encoded :
      tk_state tk = Working → streams (tk_message tk) = true →
      task_step t tk ActPartial (queue_outbound encoded (Partial t)) tk
  | TaskRespond failure error fallback :
      tk_state tk = Working → expects_answer (tk_message tk) = true →
      (failure = None ∨ can_fail (tk_message tk) = true) →
      let frames := queue_response error fallback t (joined_content (tk_message tk) failure) in
      task_step t tk ActRespond frames
        (set_state (Background (pushes (tk_message tk) && bool_decide (failure = None))) (bool_decide (frames = [])) tk)
  (** A size read that a newer one replaced while it waited. *)
  | TaskSuperseded encoded :
      tk_state tk = Working → (∃ r, tk_message tk = FileSizeDocument r) →
      let frames := queue_outbound encoded (Response t (Refused superseded_read)) in
      task_step t tk ActSupersede frames (set_state (Background false) (bool_decide (frames = [])) tk)
  | TaskPush encoded :
      tk_state tk = Background true → task_step t tk ActPush (queue_outbound encoded (Push t)) tk
  | TaskEnd pushing :
      tk_state tk = Background pushing → task_step t tk ActEnd [] (set_state Finished (tk_lost tk) tk)
  | TaskInvalidated :
      tk_state tk = Working → invalidates (tk_message tk) = true → task_step t tk ActEnd [] (set_state Finished false tk).

(** ** The loop *)

Inductive Prewarm := RecentEntries (service : nat) (workspace_root : string)
  | OfManifest (service : nat) (workspace_root : string) (message : PrewarmPackageJsonMessage).
(** Why a connection is closed, and how it ended. *)
Inductive Exit := OnShutdown | OnEof | OnError.
Inductive Ending := HelloRefused | Closed (e : Exit) | Recycled | WriteFailed.
Inductive Phase := Serving | Settling (e : Exit) | Joining (e : Exit) | RecycleJoining
  | Draining (ending : Ending) | Ended (ending : Ending).

Record Tasks := { spawned : gmap nat Task; active_tasks : list nat; invalidation : option nat }.
(** [queued] are the frames ever queued; the first [written] have been sent. *)
Record Wire := { queued : list Frame; written : nat }.
Record Prefetcher := { generation : N; prewarms : list (N * Prewarm) }.
Record Loop := {
  hello_received : bool;
  service : nat;                                (* the hellos accepted so far *)
  maintenance_task : option nat;
  lifecycle : LifecycleState;
  connection : Connections.Connection;
  prefetcher : Prefetcher;
  work : Tasks;
  wire : Wire;
  connection_workspace_root : option string;
  received : list ClientMessage;
  flushed : list (nat * gmap nat Task);         (* each flush: the service, and the tasks it found *)
  phase : Phase;
}.

Definition set_work (w : Tasks) (s : Loop) : Loop :=
  {| hello_received := hello_received s; service := service s; maintenance_task := maintenance_task s;
     lifecycle := lifecycle s; connection := connection s; prefetcher := prefetcher s; work := w; wire := wire s;
     connection_workspace_root := connection_workspace_root s; received := received s; flushed := flushed s; phase := phase s |}.
Definition set_wire (w : Wire) (s : Loop) : Loop :=
  {| hello_received := hello_received s; service := service s; maintenance_task := maintenance_task s;
     lifecycle := lifecycle s; connection := connection s; prefetcher := prefetcher s; work := work s; wire := w;
     connection_workspace_root := connection_workspace_root s; received := received s; flushed := flushed s; phase := phase s |}.
Definition set_connection (c : Connections.Connection) (s : Loop) : Loop :=
  {| hello_received := hello_received s; service := service s; maintenance_task := maintenance_task s;
     lifecycle := lifecycle s; connection := c; prefetcher := prefetcher s; work := work s; wire := wire s;
     connection_workspace_root := connection_workspace_root s; received := received s; flushed := flushed s; phase := phase s |}.
Definition set_lifecycle (l : LifecycleState) (s : Loop) : Loop :=
  {| hello_received := hello_received s; service := service s; maintenance_task := maintenance_task s;
     lifecycle := l; connection := connection s; prefetcher := prefetcher s; work := work s; wire := wire s;
     connection_workspace_root := connection_workspace_root s; received := received s; flushed := flushed s; phase := phase s |}.
Definition set_prefetcher (p : Prefetcher) (s : Loop) : Loop :=
  {| hello_received := hello_received s; service := service s; maintenance_task := maintenance_task s;
     lifecycle := lifecycle s; connection := connection s; prefetcher := p; work := work s; wire := wire s;
     connection_workspace_root := connection_workspace_root s; received := received s; flushed := flushed s; phase := phase s |}.
Definition set_received (l : list ClientMessage) (s : Loop) : Loop :=
  {| hello_received := hello_received s; service := service s; maintenance_task := maintenance_task s;
     lifecycle := lifecycle s; connection := connection s; prefetcher := prefetcher s; work := work s; wire := wire s;
     connection_workspace_root := connection_workspace_root s; received := l; flushed := flushed s; phase := phase s |}.
Definition enter (p : Phase) (s : Loop) : Loop :=
  {| hello_received := hello_received s; service := service s; maintenance_task := maintenance_task s;
     lifecycle := lifecycle s; connection := connection s; prefetcher := prefetcher s; work := work s; wire := wire s;
     connection_workspace_root := connection_workspace_root s; received := received s; flushed := flushed s; phase := p |}.

(** *** Tasks *)

Definition is_finished (tasks : gmap nat Task) (t : nat) : bool :=
  match tasks !! t with Some tk => bool_decide (tk_state tk = Finished) | None => true end.
Definition reap_finished_tasks (w : Tasks) : Tasks :=
  {| spawned := spawned w; active_tasks := filter (λ t, is_finished (spawned w) t = false) (active_tasks w);
     invalidation := invalidation w |}.
Definition track_active_task (t : nat) (w : Tasks) : Tasks :=
  let w := reap_finished_tasks w in
  {| spawned := spawned w; active_tasks := active_tasks w ++ [t]; invalidation := invalidation w |}.
Definition spawn (t : nat) (m : ClientMessage) (s : Loop) : Loop :=
  let w := work s in
  set_work (track_active_task t
    {| spawned := <[t := {| tk_message := m; tk_service := service s; tk_state := Working; tk_lost := false |}]> (spawned w);
       active_tasks := active_tasks w; invalidation := invalidation w |}) s.
Definition spawn_invalidation (t : nat) (m : ClientMessage) (s : Loop) : Loop :=
  let s := spawn t m s in
  set_work {| spawned := spawned (work s); active_tasks := active_tasks (work s); invalidation := Some t |} s.
Definition queue (frames : list Frame) (s : Loop) : Loop :=
  set_wire {| queued := queued (wire s) ++ frames; written := written (wire s) |} s.

Definition cancel_prefetch (s : Loop) : Loop :=
  set_prefetcher {| generation := token_cancel (generation (prefetcher s)); prewarms := prewarms (prefetcher s) |} s.
Definition dispatch_prewarm (p : Prewarm) (s : Loop) : Loop :=
  let '(mine, generation) := token_next_generation (generation (prefetcher s)) in
  set_prefetcher {| generation := generation; prewarms := prewarms (prefetcher s) ++ [(mine, p)] |} s.
Definition record_batch (now : N) (s : Loop) : Loop := set_lifecycle (record_batch_at now (lifecycle s)) s.
Definition lift (f : Connections.Connection → Connections.Connection) (s : Loop) : Loop := set_connection (f (connection s)) s.

(** [service.flush_cache()], and what is let go before it. *)
Definition abort_maintenance (s : Loop) : Loop :=
  {| hello_received := hello_received s; service := service s; maintenance_task := None;
     lifecycle := lifecycle s; connection := connection s; prefetcher := prefetcher s; work := work s; wire := wire s;
     connection_workspace_root := connection_workspace_root s; received := received s; flushed := flushed s; phase := phase s |}.
Definition flush_cache (s : Loop) : Loop :=
  {| hello_received := hello_received s; service := service s; maintenance_task := maintenance_task s;
     lifecycle := lifecycle s; connection := connection s; prefetcher := prefetcher s; work := work s; wire := wire s;
     connection_workspace_root := connection_workspace_root s; received := received s;
     flushed := flushed s ++ [(service s, spawned (work s))]; phase := phase s |}.

Definition recycle_if_needed (now : N) (s : Loop) : Loop :=
  if negb (should_recycle now (lifecycle s)) then s
  else
    let s := cancel_prefetch s in
    let s := set_work (reap_finished_tasks (work s)) s in
    if negb (bool_decide (active_tasks (work s) = [])) then enter RecycleJoining s
    else enter (Draining Recycled) (flush_cache (abort_maintenance s)).

(** [close_connection], up to its waits. *)
Definition begin_close (e : Exit) (s : Loop) : Loop :=
  enter (Settling e) (cancel_prefetch (lift Connections.close_connection (abort_maintenance s))).

(** *** A frame *)

(** The arms of the loop, for the message read at place [t]; the log level, the
    legacy cache and the recency seed of a hello are not of this state. *)
Definition accept_hello (now : N) (hello : HelloMessage) (s : Loop) : Loop :=
  let s := {| hello_received := true; service := S (service s); maintenance_task := Some (S (service s));
              lifecycle := lifecycle s; connection := connection s; prefetcher := prefetcher s; work := work s;
              wire := wire s; connection_workspace_root := Some (he_workspace_root hello); received := received s;
              flushed := flushed s; phase := phase s |} in
  recycle_if_needed now (dispatch_prewarm (RecentEntries (service s) (he_workspace_root hello)) s).
Definition prewarm_manifest (windows : bool) (to_lowercase : string → string) (message : PrewarmPackageJsonMessage)
    (s : Loop) : Loop :=
  let root := match pm_workspace_root message with
              | Some root => root
              | None => prewarm_root windows to_lowercase (connection_workspace_root s) (pm_package_json_path message)
              end in
  dispatch_prewarm (OfManifest (service s) root message) s.

Section arms.
Context (windows : bool) (to_lowercase : string → string).
(** Whether the loop's own error for the message at a place encodes. *)
Context (encodes : nat → bool).

(** The arms of the requests, once a hello has been received: the interactive
    ones end prewarming and count as activity. *)
Definition interactive (now : N) (s : Loop) : Loop := record_batch now (cancel_prefetch s).
Definition arm_analyze_document (now : N) (t : nat) (r : AnalyzeDocumentRequest) (s : Loop) : Loop :=
  spawn t (AnalyzeDocument r)
    (lift (analyze_document (ad_workspace_root r) (ad_active_document_path r)) (interactive now s)).
Definition arm_analyze_package_json (now : N) (t : nat) (r : AnalyzePackageJsonRequest) (s : Loop) : Loop :=
  spawn t (AnalyzePackageJson r) (interactive now s).
Definition arm_analyze_specifiers (now : N) (t : nat) (r : AnalyzeSpecifiersRequest) (s : Loop) : Loop :=
  spawn t (AnalyzeSpecifiers r) (interactive now s).
Definition arm_workspace_report (now : N) (t : nat) (r : WorkspaceReportRequest) (s : Loop) : Loop :=
  spawn t (WorkspaceReport r) (interactive now s).
Definition arm_enumerate_exports (now : N) (t : nat) (r : EnumerateExportsRequest) (s : Loop) : Loop :=
  spawn t (EnumerateExports r) (interactive now s).
Definition arm_complete_import_members (now : N) (t : nat) (r : CompleteImportMembersRequest) (s : Loop) : Loop :=
  spawn t (CompleteImportMembers r) (interactive now s).
Definition arm_file_size_document (now : N) (t : nat) (r : FileSizeDocumentRequest) (s : Loop) : Loop :=
  spawn t (FileSizeDocument r)
    (lift (file_size_document t (fr_workspace_root r) (fr_active_document_path r)
             (bool_decide (is_Some (fr_analysis_generation r)))) (interactive now s)).
Definition arm_cache_request (t : nat) (m : ClientMessage) (s : Loop) : Loop := spawn t m s.
Definition arm_cache_remove (t : nat) (r : CacheRemoveRequest) (s : Loop) : Loop := spawn t (CacheRemove r) (cancel_prefetch s).
Definition arm_invalidate (t : nat) (m : ClientMessage) (s : Loop) : Loop := spawn_invalidation t m (cancel_prefetch s).
Definition arm_node_modules_changed (t : nat) (message : NodeModulesChangedMessage) (s : Loop) : Loop :=
  if bool_decide (nm_package_json_paths message = []) && bool_decide (nm_tsconfig_paths message = []) then s
  else arm_invalidate t (NodeModulesChanged message) s.
Definition arm_refresh_registry_hints (t : nat) (r : RefreshRegistryHintsRequest) (s : Loop) : Loop :=
  if negb (is_supported_protocol_version (rr_version r))
  then queue (queue_outbound (encodes t) (Response t (Refused (unsupported (rr_version r))))) s
  else spawn t (RefreshRegistryHints r) (lift (registry_block (default "" (rr_source r))) s).

Definition handle (now : N) (m : ClientMessage) (s : Loop) : Loop :=
  let t := length (received s) in
  let s := set_received (received s ++ [m]) s in
  match m with
  | Hello hello =>
      if negb (is_supported_protocol_version (he_version hello)) then enter (Ended HelloRefused) s
      else accept_hello now hello s
  | Shutdown => begin_close OnShutdown s
  | _ =>
      if negb (hello_received s) then
        if expects_answer m then queue (queue_outbound (encodes t) (Response t (Refused no_hello))) s else s
      else
        match m with
        | AnalyzeDocument r => arm_analyze_document now t r s
        | AnalyzePackageJson r => arm_analyze_package_json now t r s
        | AnalyzeSpecifiers r => arm_analyze_specifiers now t r s
        | CacheInvalidate _ | CacheInvalidateAll => arm_invalidate t m s
        | CacheStatus _ | CacheList _ => arm_cache_request t m s
        | CacheRemove r => arm_cache_remove t r s
        | RefreshRegistryHints r => arm_refresh_registry_hints t r s
        | WorkspaceReport r => arm_workspace_report now t r s
        | PrewarmPackageJson message => prewarm_manifest windows to_lowercase message s
        | NodeModulesChanged message => arm_node_modules_changed t message s
        | VisibleDocuments document_paths => lift (visible_documents document_paths) s
        | EnumerateExports r => arm_enumerate_exports now t r s
        | FileSizeDocument r => arm_file_size_document now t r s
        | CompleteImportMembers r => arm_complete_import_members now t r s
        | Hello _ | Shutdown => s
        end
  end.

(** *** The steps *)

Definition settled_invalidation (w : Tasks) : Prop :=
  ∀ t, invalidation w = Some t → is_finished (spawned w) t = true.
(** What task [t] needs of the connection before it answers, and leaves. *)
Definition may_build (t : nat) (c : Connections.Connection) : Prop := ∀ r, reads c !! t = Some r → sr_phase r = Building.
Definition was_superseded (t : nat) (c : Connections.Connection) : Prop :=
  ∃ r, reads c !! t = Some r ∧ sr_phase r = Superseded.
Definition release (t : nat) (c : Connections.Connection) : Connections.Connection :=
  match reads c !! t with
  | Some r => with_reads (<[t := Connections.set_phase Answered r]> (reads c)) c
  | None => c
  end.
(** An answered read gives its permit back; a superseded one already has. *)
Definition admits (a : Act) (t : nat) (c : Connections.Connection) : Prop :=
  match a with ActRespond => may_build t c | ActSupersede => was_superseded t c | _ => True end.
Definition leaves (a : Act) (t : nat) (c : Connections.Connection) : Connections.Connection :=
  match a with ActRespond => release t c | _ => c end.

Definition advance (t : nat) (tk : Task) (frames : list Frame) (s : Loop) : Loop :=
  queue frames (set_work {| spawned := <[t := tk]> (spawned (work s)); active_tasks := active_tasks (work s);
                            invalidation := invalidation (work s) |} s).
Definition clear_invalidation (w : Tasks) : Tasks :=
  {| spawned := spawned w; active_tasks := active_tasks w; invalidation := None |}.
Definition send (s : Loop) : Loop := set_wire {| queued := queued (wire s); written := S (written (wire s)) |} s.
Definition outbound (s : Loop) : list Frame := drop (written (wire s)) (queued (wire s)).
(** [close_connection] after its waits: the flush, whatever is unfinished. *)
Definition finish_close (e : Exit) (s : Loop) : Loop :=
  let s := flush_cache (set_work (reap_finished_tasks (work s)) s) in
  enter match e with OnShutdown => Draining (Closed OnShutdown) | _ => Ended (Closed e) end s.

(** A frame that does not decode leaves everything as it is. *)
Inductive serve_step : Loop → Loop → Prop :=
  | ServeInvalidated s t :
      phase s = Serving → invalidation (work s) = Some t → settled_invalidation (work s) →
      serve_step s (set_work (clear_invalidation (work s)) s)
  | ServeWrite s f rest : phase s = Serving → outbound s = f :: rest → serve_step s (send s)
  | ServeWriteFails s f rest : phase s = Serving → outbound s = f :: rest → serve_step s (begin_close OnError s)
  | ServeRead s now m : phase s = Serving → invalidation (work s) = None → serve_step s (handle now m s)
  | ServeFramingError s : phase s = Serving → invalidation (work s) = None → serve_step s (begin_close OnError s)
  | ServeEof s : phase s = Serving → invalidation (work s) = None → serve_step s (begin_close OnEof s)
  | ServeTick s now : phase s = Serving → serve_step s (recycle_if_needed now s)
  (** The wait of a recycle ends with its tasks, or at its deadline. *)
  | ServeRecycleJoined s : phase s = RecycleJoining →
      serve_step s (enter Serving (set_work (reap_finished_tasks (work s)) s))
  | ServeSettled s e : phase s = Settling e → settled_invalidation (work s) → serve_step s (enter (Joining e) s)
  (** As that of a closing does. *)
  | ServeJoined s e : phase s = Joining e → serve_step s (finish_close e s)
  | ServeDrain s ending f rest : phase s = Draining ending → outbound s = f :: rest → serve_step s (send s)
  | ServeDrainFails s ending f rest :
      phase s = Draining ending → outbound s = f :: rest → serve_step s (enter (Ended WriteFailed) s)
  | ServeDrained s ending : phase s = Draining ending → outbound s = [] → serve_step s (enter (Ended ending) s)
  (** The tasks go on until the end. *)
  | ServeTask s t tk a frames tk' :
      (∀ ending, phase s ≠ Ended ending) → spawned (work s) !! t = Some tk → task_step t tk a frames tk' →
      admits a t (connection s) → serve_step s (advance t tk' frames (lift (leaves a t) s))
  | ServeAcquire s t r :
      (∀ ending, phase s ≠ Ended ending) → reads (connection s) !! t = Some r → sr_phase r = Waiting →
      permit_free (sr_gate r) (reads (connection s)) →
      serve_step s (lift (λ c, with_reads (<[t := Connections.set_phase Acquired r]> (reads c)) c) s)
  | ServeCheck s t r :
      (∀ ending, phase s ≠ Ended ending) → reads (connection s) !! t = Some r → sr_phase r = Acquired →
      serve_step s (lift (λ c, with_reads (<[t := check_flag (flags c) r]> (reads c)) c) s).
End arms.

(** A connection starts before its hello, at an instant. *)
Definition new_loop (now : N) : Loop :=
  {| hello_received := false; service := 0; maintenance_task := None;
     lifecycle := {| started_at := now; last_batch_at := None |}; connection := opened;
     prefetcher := {| generation := 0; prewarms := [] |};
     work := {| spawned := ∅; active_tasks := []; invalidation := None |}; wire := {| queued := []; written := 0 |};
     connection_workspace_root := None; received := []; flushed := []; phase := Serving |}.
Definition served (windows : bool) (to_lowercase : string → string) (encodes : nat → bool) (s : Loop) : Prop :=
  ∃ now, rtc (serve_step windows to_lowercase encodes) (new_loop now) s.

(** ** What the loop keeps *)

Definition is_partial (f : Frame) : Prop := match f with Partial _ => True | _ => False end.
Definition is_push (f : Frame) : Prop := match f with Push _ => True | _ => False end.
Definition about (n : nat) (fs : list Frame) : list Frame := filter (λ f, frame_seq f = n) fs.

(** Partials, at most one answer, then pushes; [lost] says there is none. *)
Definition answer_shape (n : nat) (m : ClientMessage) (lost : bool) (fs : list Frame) : Prop :=
  ∃ partials answer pushed, fs = partials ++ answer ++ pushed ∧ Forall is_partial partials ∧ Forall is_push pushed ∧
    (streams m = false → partials = []) ∧ (pushes m = false → pushed = []) ∧
    if lost || negb (expects_answer m) then answer = [] else ∃ c, answer = [Response n c].
Definition task_shape (n : nat) (tk : Task) (fs : list Frame) : Prop :=
  match tk_state tk with
  | Working => Forall is_partial fs ∧ (streams (tk_message tk) = false → fs = [])
  | Background pushing => (pushing = true → pushes (tk_message tk) = true) ∧ expects_answer (tk_message tk) = true ∧
                          answer_shape n (tk_message tk) (tk_lost tk) fs
  | Finished => answer_shape n (tk_message tk) (tk_lost tk) fs
  end.
Definition untasked_shape (encodes : nat → bool) (n : nat) (m : ClientMessage) (fs : list Frame) : Prop :=
  if expects_answer m then ∃ message, fs = queue_outbound (encodes n) (Response n (Refused message)) else fs = [].

Definition invalidations_done (tasks : gmap nat Task) : Prop :=
  ∀ t tk, tasks !! t = Some tk → invalidates (tk_message tk) = true → tk_state tk = Finished.
Definition all_done (tasks : gmap nat Task) : Prop := ∀ t tk, tasks !! t = Some tk → tk_state tk = Finished.

Record kept (encodes : nat → bool) (rcv : list ClientMessage) (w : Tasks) (q : list Frame) (wr : nat)
    (fl : list (nat * gmap nat Task)) (p : Phase) : Prop := {
  k_messages : ∀ t tk, spawned w !! t = Some tk → rcv !! t = Some (tk_message tk);
  k_frames : ∀ n, match spawned w !! n, rcv !! n with
                  | Some tk, _ => task_shape n tk (about n q)
                  | None, Some m => untasked_shape encodes n m (about n q)
                  | None, None => about n q = []
                  end;
  k_barrier : ∀ t tk, spawned w !! t = Some tk → invalidates (tk_message tk) = true → tk_state tk ≠ Finished →
              invalidation w = Some t;
  k_active : ∀ t tk, spawned w !! t = Some tk → tk_state tk ≠ Finished → t ∈ active_tasks w;
  k_joining : ∀ e, p = Joining e → invalidations_done (spawned w);
  k_recycled : p = Draining Recycled ∨ p = Ended Recycled → all_done (spawned w);
  k_flushed : ∀ f, f ∈ fl → invalidations_done f.2;
  k_written : wr ≤ length q;
  k_drained : p = Ended Recycled ∨ p = Ended (Closed OnShutdown) → wr = length q;
}.
Definition keeps_serving (encodes : nat → bool) (s : Loop) : Prop :=
  kept encodes (received s) (work s) (queued (wire s)) (written (wire s)) (flushed s) (phase s).

Lemma about_app n a b : about n (a ++ b) = about n a ++ about n b.
Proof. apply filter_app. Qed.
Lemma about_own n fs : Forall (λ f, frame_seq f = n) fs → about n fs = fs.
Proof. intros H. unfold about. induction H as [|f fs Hf _ IH]; [done|]. by rewrite filter_cons_True, IH. Qed.
Lemma about_other n n' fs : Forall (λ f, frame_seq f = n') fs → n ≠ n' → about n fs = [].
Proof.
  intros H Hn. unfold about. induction H as [|f fs Hf _ IH]; [done|]. rewrite filter_cons_False, IH; [done|]. congruence.
Qed.

Lemma pushes_expect m : pushes m = true → expects_answer m = true.
Proof. by destruct m. Qed.
Lemma streams_expect m : streams m = true → expects_answer m = true.
Proof. by destruct m. Qed.
Lemma invalidates_quiet m : invalidates m = true → expects_answer m = false.
Proof. by destruct m. Qed.

(** *** What a task step does *)

Lemma task_step_frames t tk a frames tk' :
  task_step t tk a frames tk' → Forall (λ f, frame_seq f = t) frames ∧ tk_message tk' = tk_message tk.
Proof.
  assert (∀ (e : bool) f, frame_seq f = t → Forall (λ f, frame_seq f = t) (queue_outbound e f)) as Ho
    by (intros [] f Hf; repeat constructor; done).
  destruct 1 as [e|f e fb|e|e| |]; (split; [|done]); try (apply Ho; done); try by constructor.
  unfold frames, queue_response. destruct e; [by apply Ho|by repeat constructor].
Qed.
Lemma task_step_shape t tk a frames tk' fs :
  task_step t tk a frames tk' → task_shape t tk fs → task_shape t tk' (fs ++ frames).
Proof.
  intros H. destruct H as [e Hw Hs|f e fb Hw Hx Hf frames|e Hw [r Hr] frames|e Hw|p Hw|Hw Hi]; unfold task_shape; cbn; rewrite Hw.
  - intros [Hp Hq]. split; [apply Forall_app; split; [done|]|congruence]. destruct e; by repeat constructor.
  - intros [Hp Hq]. split; [by intros [? _]%andb_true_iff|]. split; [done|].
    exists fs, frames, []. rewrite app_nil_r. split_and!; try done.
    rewrite Hx. cbn. rewrite orb_false_r. case_bool_decide as Hn; [done|].
    unfold frames, queue_response, queue_outbound in *. destruct e; [destruct fb|]; [by eexists|done|by eexists].
  - intros [Hp Hq]. assert (streams (tk_message tk) = false) as Hst by by rewrite Hr. split; [done|].
    split; [by rewrite Hr|]. rewrite (Hq Hst).
    exists [], frames, []. rewrite app_nil_r. split_and!; try done. rewrite Hr. cbn.
    rewrite orb_false_r. unfold frames, queue_outbound in *. destruct e; cbn; [by eexists|done].
  - intros (Hp & Hx & ps & ans & us & -> & H1 & H2 & H3 & H4 & H5). split_and!; try done.
    exists ps, ans, (us ++ queue_outbound e (Push t)). split_and!; try done.
    + by rewrite <- !app_assoc.
    + apply Forall_app. split; [done|]. destruct e; by repeat constructor.
    + intros Hn. rewrite Hp in Hn by done. done.
  - intros (_ & _ & H). by rewrite app_nil_r.
  - intros [_ Hq]. pose proof (invalidates_quiet _ Hi) as Hx.
    assert (streams (tk_message tk) = false) as Hs by (destruct (streams _) eqn:E; [apply streams_expect in E; congruence|done]).
    rewrite (Hq Hs). exists [], [], []. split_and!; try done. by rewrite Hx.
Qed.

(** *** The operations *)

Section keeping.
Context (windows : bool) (to_lowercase : string → string) (encodes : nat → bool).
Local Notation the_kept := (keeps_serving encodes).

Lemma kept_finished (tasks : gmap nat Task) t : is_finished tasks t = true ↔ ∀ tk, tasks !! t = Some tk → tk_state tk = Finished.
Proof.
  unfold is_finished. destruct (tasks !! t) as [tk|]; [|done].
  rewrite bool_decide_eq_true. split; [by intros H tk' [= <-]|by intros H; apply H].
Qed.

Lemma kept_reap w rcv q wr fl p : kept encodes rcv w q wr fl p → kept encodes rcv (reap_finished_tasks w) q wr fl p.
Proof.
  intros [H1 H2 H3 H4 H5 H6 H7 H8 H9]. split; try done. cbn. intros t tk Ht Hn.
  apply list_elem_of_filter. split; [|by eapply H4].
  destruct (is_finished _ _) eqn:E; [|done]. destruct Hn. by eapply kept_finished.
Qed.

(** Entering a phase that promises no more. *)
Lemma kept_enter p p' rcv w q wr fl :
  kept encodes rcv w q wr fl p →
  (∀ e, p' = Joining e → invalidations_done (spawned w)) → (p' = Draining Recycled ∨ p' = Ended Recycled → all_done (spawned w)) →
  (p' = Ended Recycled ∨ p' = Ended (Closed OnShutdown) → wr = length q) →
  kept encodes rcv w q wr fl p'.
Proof. by intros [H1 H2 H3 H4 H5 H6 H7 H8 H9]; split. Qed.
Lemma kept_flush sv rcv w q wr fl p :
  kept encodes rcv w q wr fl p → invalidations_done (spawned w) → kept encodes rcv w q wr (fl ++ [(sv, spawned w)]) p.
Proof.
  intros [H1 H2 H3 H4 H5 H6 H7 H8 H9] Hd; split; try done.
  intros f [Hf|Hf%list_elem_of_singleton]%elem_of_app; [by apply H7|by subst].
Qed.

(** A message read at the next place: without an answer of the loop's, or with
    one. *)
Lemma kept_fresh rcv w q wr fl p :
  kept encodes rcv w q wr fl p → spawned w !! length rcv = None ∧ about (length rcv) q = [].
Proof.
  intros H. assert (rcv !! length rcv = None) as Hn by by apply lookup_ge_None.
  assert (spawned w !! length rcv = None) as Hs.
  { destruct (spawned w !! length rcv) as [tk|] eqn:E; [|done]. apply (k_messages _ _ _ _ _ _ _ H) in E. congruence. }
  split; [done|]. pose proof (k_frames _ _ _ _ _ _ _ H (length rcv)) as Hf. by rewrite Hs, Hn in Hf.
Qed.
Lemma kept_receive m frames rcv w q wr fl p :
  kept encodes rcv w q wr fl p → p = Serving → untasked_shape encodes (length rcv) m frames →
  Forall (λ f, frame_seq f = length rcv) frames →
  kept encodes (rcv ++ [m]) w (q ++ frames) wr fl p.
Proof.
  intros H -> Hu Hf. destruct (kept_fresh _ _ _ _ _ _ H) as [Hs Hq]. destruct H as [H1 H2 H3 H4 H5 H6 H7 H8 H9]. split; try done.
  - intros t tk Ht. apply lookup_app_l_Some. by apply H1.
  - intros n. rewrite about_app. destruct (decide (n = length rcv)) as [->|Hne].
    + rewrite Hs, lookup_app_r, Nat.sub_diag, Hq, about_own by done. done.
    + rewrite (about_other n (length rcv) frames), app_nil_r by done. specialize (H2 n).
      destruct (spawned w !! n); [done|]. destruct (decide (n < length rcv)).
      * by rewrite lookup_app_l.
      * rewrite lookup_ge_None_2 in H2 by lia. rewrite lookup_ge_None_2; [done|]. rewrite length_app. cbn. lia.
  - rewrite length_app. lia.
  - by intros [?|?].
Qed.
Lemma kept_spawn m sv inv rcv w q wr fl p :
  kept encodes rcv w q wr fl p → p = Serving → (inv = Some (length rcv) ∨ invalidates m = false ∧ inv = invalidation w) →
  (inv = Some (length rcv) → invalidation w = None) →
  let t := length rcv in
  let tk := {| tk_message := m; tk_service := sv; tk_state := Working; tk_lost := false |} in
  let w' := track_active_task t {| spawned := <[t := tk]> (spawned w); active_tasks := active_tasks w; invalidation := inv |} in
  kept encodes (rcv ++ [m]) w' q wr fl p.
Proof.
  intros H -> Hinv Hnone t tk w'. destruct (kept_fresh _ _ _ _ _ _ H) as [Hs Hq]. destruct H as [H1 H2 H3 H4 H5 H6 H7 H8 H9].
  split; try done; cbn.
  - intros u x [[<- <-]|[Hne Hx]]%lookup_insert_Some.
    + unfold t. by rewrite lookup_app_r, Nat.sub_diag.
    + apply lookup_app_l_Some. by apply H1.
  - intros n. destruct (decide (t = n)) as [<-|Hne].
    + rewrite lookup_insert_eq. unfold t. rewrite Hq. by split.
    + rewrite lookup_insert_ne by done. specialize (H2 n). destruct (spawned w !! n); [done|].
      destruct (decide (n < length rcv)).
      * by rewrite lookup_app_l.
      * rewrite lookup_ge_None_2 in H2 by lia. rewrite lookup_ge_None_2; [done|]. rewrite length_app. cbn. unfold t in Hne. lia.
  - intros u x [[<- <-]|[Hne Hx]]%lookup_insert_Some Hi Hf.
    + destruct Hinv as [->|[? _]]; [done|]. cbn in Hi. congruence.
    + pose proof (H3 u x Hx Hi Hf) as Hw. destruct Hinv as [E|[_ ->]]; [|done]. rewrite (Hnone E) in Hw. done.
  - intros u x [[<- <-]|[Hne Hx]]%lookup_insert_Some Hf; apply elem_of_app; [right; by left|].
    left. apply list_elem_of_filter. split; [|by eapply H4].
    unfold is_finished. cbn. rewrite lookup_insert_ne, Hx by done. by apply bool_decide_eq_false.
  - by intros [?|?].
Qed.

(** A step of a task. *)
Lemma kept_task t tk a frames tk' rcv w q wr fl p :
  kept encodes rcv w q wr fl p → (∀ ending, p ≠ Ended ending) → spawned w !! t = Some tk → task_step t tk a frames tk' →
  kept encodes rcv {| spawned := <[t := tk']> (spawned w); active_tasks := active_tasks w; invalidation := invalidation w |}
    (q ++ frames) wr fl p.
Proof.
  intros [H1 H2 H3 H4 H5 H6 H7 H8 H9] Hp Ht Hstep. destruct (task_step_frames _ _ _ _ _ Hstep) as [Hf Hm].
  assert (tk_state tk ≠ Finished) as Hlive by (destruct Hstep; congruence).
  split; cbn; try done.
  - intros u x [[<- <-]|[Hne Hx]]%lookup_insert_Some; [|by apply H1]. rewrite Hm. by apply H1.
  - intros n. rewrite about_app. specialize (H2 n). destruct (decide (t = n)) as [<-|Hne].
    + rewrite lookup_insert_eq, (about_own t frames) by done. rewrite Ht in H2. by eapply task_step_shape.
    + rewrite lookup_insert_ne, (about_other n t frames), app_nil_r by done. exact H2.
  - intros u x [[<- <-]|[Hne Hx]]%lookup_insert_Some; [|by apply H3]. rewrite Hm. intros Hi _. by eapply H3.
  - intros u x [[<- <-]|[Hne Hx]]%lookup_insert_Some; [|by apply H4]. intros _. by eapply H4.
  - intros e He u x [[<- <-]|[Hne Hx]]%lookup_insert_Some; [|by eapply H5]. rewrite Hm. intros Hi.
    destruct Hlive. by eapply H5.
  - intros [He|He]; [|by destruct (Hp Recycled)]. destruct Hlive. eapply H6; [by left|exact Ht].
  - rewrite length_app. lia.
  - intros [He|He]; by destruct (Hp _ He).
Qed.

(** *** The steps *)

Lemma reaped_all_done rcv w q wr fl p :
  kept encodes rcv w q wr fl p → active_tasks (reap_finished_tasks w) = [] → all_done (spawned w).
Proof.
  intros H Ha t tk Ht. destruct (decide (tk_state tk = Finished)) as [|Hn]; [done|].
  pose proof (k_active _ _ _ _ _ _ _ (kept_reap _ _ _ _ _ _ H) t tk Ht Hn) as Hin. rewrite Ha in Hin. by apply not_elem_of_nil in Hin.
Qed.
Lemma done_invalidations tasks : all_done tasks → invalidations_done tasks.
Proof. intros H t tk Ht _. by eapply H. Qed.

Lemma kept_recycle now s : the_kept s → phase s = Serving → the_kept (recycle_if_needed now s).
Proof.
  unfold keeps_serving. intros H Hp. unfold recycle_if_needed. destruct (should_recycle now _); cbn [negb]; [|exact H].
  pose proof (kept_reap _ _ _ _ _ _ H) as Hr.
  change (active_tasks (work (set_work (reap_finished_tasks (work (cancel_prefetch s))) (cancel_prefetch s))))
    with (active_tasks (reap_finished_tasks (work s))).
  case_bool_decide as Ha; cbn [negb].
  - pose proof (reaped_all_done _ _ _ _ _ _ H Ha) as Hd.
    change (kept encodes (received s) (reap_finished_tasks (work s)) (queued (wire s)) (written (wire s))
      (flushed s ++ [(service s, spawned (reap_finished_tasks (work s)))]) (Draining Recycled)).
    apply (kept_enter (phase s)); [apply kept_flush; [exact Hr|by apply done_invalidations]|done|done|by intros [?|?]].
  - change (kept encodes (received s) (reap_finished_tasks (work s)) (queued (wire s)) (written (wire s)) (flushed s) RecycleJoining).
    apply (kept_enter (phase s)); [exact Hr|done|by intros [?|?]..].
Qed.

Lemma kept_quiet m rcv w q wr fl p :
  kept encodes rcv w q wr fl p → p = Serving → expects_answer m = false → kept encodes (rcv ++ [m]) w q wr fl p.
Proof.
  intros H Hp Hm. rewrite <- (app_nil_r q). apply kept_receive; [done|done| |constructor].
  unfold untasked_shape. by rewrite Hm.
Qed.
Lemma kept_refuse m message rcv w q wr fl p :
  kept encodes rcv w q wr fl p → p = Serving → expects_answer m = true →
  kept encodes (rcv ++ [m]) w (q ++ queue_outbound (encodes (length rcv)) (Response (length rcv) (Refused message))) wr fl p.
Proof.
  intros H Hp Hm. apply kept_receive; [done|done| |].
  - unfold untasked_shape. rewrite Hm. by exists message.
  - unfold queue_outbound. destruct (encodes _); by repeat constructor.
Qed.

Lemma kept_handle now m s :
  the_kept s → phase s = Serving → invalidation (work s) = None → the_kept (handle windows to_lowercase encodes now m s).
Proof.
  unfold keeps_serving. intros H Hp Hi.
  assert (∀ inv, inv = Some (length (received s)) ∨ invalidates m = false ∧ inv = invalidation (work s) →
    kept encodes (received s ++ [m]) (track_active_task (length (received s))
      {| spawned := <[length (received s) := {| tk_message := m; tk_service := service s; tk_state := Working; tk_lost := false |}]>
           (spawned (work s)); active_tasks := active_tasks (work s); invalidation := inv |})
      (queued (wire s)) (written (wire s)) (flushed s) (phase s)) as Hspawn.
  { intros inv Hinv. apply kept_spawn; [done|done|done|done]. }
  pose proof (Hspawn (invalidation (work s))) as Hplain. pose proof (Hspawn (Some (length (received s))) (or_introl eq_refl)) as Hinval.
  pose proof (λ message, kept_refuse m message _ _ _ _ _ _ H Hp) as Hrefuse.
  pose proof (kept_quiet m _ _ _ _ _ _ H Hp) as Hquiet.
  unfold handle, arm_node_modules_changed, arm_refresh_registry_hints. destruct m as [hello|r|r|r|name| |message|message|paths|r|r|r|r|r|r|r|r|];
    try (destruct (hello_received (set_received _ s)); cbn [negb expects_answer refusal]; [|by first [apply Hrefuse|apply Hquiet]]).
  all: try (by apply Hplain; right).
  all: try exact Hinval.
  all: try (by apply Hquiet).
  - specialize (Hquiet eq_refl). destruct (negb _).
    + change (kept encodes (received s ++ [Hello hello]) (work s) (queued (wire s)) (written (wire s)) (flushed s) (Ended HelloRefused)).
      apply (kept_enter (phase s)); [exact Hquiet|done|by intros [?|?]..].
    + apply kept_recycle; [exact Hquiet|exact Hp].
  - destruct (bool_decide _ && bool_decide _); [by apply Hquiet|exact Hinval].
  - destruct (negb _); [by apply Hrefuse|by apply Hplain; right].
  - specialize (Hquiet eq_refl).
    change (kept encodes (received s ++ [Shutdown]) (work s) (queued (wire s)) (written (wire s)) (flushed s) (Settling OnShutdown)).
    apply (kept_enter (phase s)); [exact Hquiet|done|by intros [?|?]..].
Qed.

Lemma kept_close e s : the_kept s → the_kept (begin_close e s).
Proof.
  intros H. change (kept encodes (received s) (work s) (queued (wire s)) (written (wire s)) (flushed s) (Settling e)).
  apply (kept_enter (phase s)); [exact H|done|by intros [?|?]..].
Qed.
Lemma kept_wire s frames wr :
  the_kept s → wr ≤ length (queued (wire s) ++ frames) → frames = [] → (∀ ending, phase s ≠ Ended ending) →
  the_kept (set_wire {| queued := queued (wire s) ++ frames; written := wr |} s).
Proof.
  intros [H1 H2 H3 H4 H5 H6 H7 H8 H9] Hw -> Hp. rewrite app_nil_r in *. split; try done.
  intros [E|E]; by destruct (Hp _ E).
Qed.
Lemma kept_send s : the_kept s → (∀ ending, phase s ≠ Ended ending) → outbound s ≠ [] → the_kept (send s).
Proof.
  intros H Hp Ho. assert (written (wire s) < length (queued (wire s))) as Hlt.
  { destruct (decide (written (wire s) < length (queued (wire s)))) as [|Hn]; [done|].
    destruct Ho. unfold outbound. apply drop_ge. lia. }
  destruct H as [H1 H2 H3 H4 H5 H6 H7 H8 H9]. split; try done.
  intros [E|E]; by destruct (Hp _ E).
Qed.
Lemma drained_all s : the_kept s → outbound s = [] → written (wire s) = length (queued (wire s)).
Proof.
  intros H Ho. pose proof (k_written _ _ _ _ _ _ _ H) as Hw. apply (f_equal length) in Ho. unfold outbound in Ho.
  rewrite length_drop in Ho. cbn in Ho. lia.
Qed.
(** No invalidation runs once the last one has settled. *)
Lemma settled_done s : the_kept s → settled_invalidation (work s) → invalidations_done (spawned (work s)).
Proof.
  intros H Hs t tk Ht Hi. destruct (decide (tk_state tk = Finished)) as [|Hn]; [done|].
  pose proof (k_barrier _ _ _ _ _ _ _ H t tk Ht Hi Hn) as Hinv. by apply (proj1 (kept_finished (spawned (work s)) t) (Hs t Hinv)).
Qed.
Lemma none_done s : the_kept s → invalidation (work s) = None → invalidations_done (spawned (work s)).
Proof. intros H Hn. apply settled_done; [done|]. intros t Ht. congruence. Qed.

Lemma kept_step s s' : the_kept s → serve_step windows to_lowercase encodes s s' → the_kept s'.
Proof.
  intros H Hst.
  destruct Hst as [s t Hp Hi Hs|s f rest Hp Ho|s f rest Hp Ho|s now m Hp Hi|s Hp Hi|s Hp Hi|s now Hp|s Hp|s e Hp Hs|s e Hp
    |s en f rest Hp Ho|s en f rest Hp Ho|s en Hp Ho|s t tk a frames tk' Hp Ht Hs Ha|s t r Hp Hr Hph Hf|s t r Hp Hr Hph].
  - pose proof (settled_done _ H Hs) as Hd. destruct H as [H1 H2 H3 H4 H5 H6 H7 H8 H9]. split; try done.
    intros u tk Hu Hinv Hn. destruct Hn. by eapply Hd.
  - apply kept_send; [done|by rewrite Hp|by rewrite Ho].
  - by apply kept_close.
  - by apply kept_handle.
  - by apply kept_close.
  - by apply kept_close.
  - by apply kept_recycle.
  - apply kept_reap in H. apply (kept_enter (phase s)); [exact H|done|by intros [?|?]..].
  - apply (kept_enter (phase s)); [exact H|intros e2 _; exact (settled_done s H Hs)|by intros [?|?]..].
  - pose proof (k_joining _ _ _ _ _ _ _ H e Hp) as Hd. apply kept_reap in H.
    change (kept encodes (received s) (reap_finished_tasks (work s)) (queued (wire s)) (written (wire s))
      (flushed s ++ [(service s, spawned (reap_finished_tasks (work s)))])
      match e with OnShutdown => Draining (Closed OnShutdown) | _ => Ended (Closed e) end).
    apply (kept_enter (phase s)); [by apply kept_flush|by destruct e|destruct e; by intros [?|?]..].
  - apply kept_send; [done|by rewrite Hp|by rewrite Ho].
  - apply (kept_enter (phase s)); [exact H|done|by intros [?|?]..].
  - apply (kept_enter (phase s)); [exact H|done| |].
    + intros [E|[= ->]]; [done|]. eapply k_recycled; [exact H|by left].
    + intros _. exact (drained_all s H Ho).
  - unfold keeps_serving. eapply kept_task; [exact H|exact Hp|exact Ht|exact Hs].
  - exact H.
  - exact H.
Qed.
Lemma served_kept s : served windows to_lowercase encodes s → the_kept s.
Proof.
  intros [now Hr]. remember (new_loop now) as s0 eqn:E. assert (the_kept s0) as H0.
  { subst s0. split; cbn; try done; try lia; try (by intros [?|?]); by intros f Hf%not_elem_of_nil. }
  clear E. induction Hr as [|x y z Hxy _ IH]; [done|]. apply IH. by eapply kept_step.
Qed.
End keeping.

(** ** The loop implements the lifecycles of [Connections] *)

Section linking.
Context (windows : bool) (to_lowercase : string → string) (encodes : nat → bool).

Record linked (s : Loop) : Prop := {
  ln_reachable : Connections.reachable (connection s);
  ln_open : phase s = Serving ∨ phase s = RecycleJoining → closed (connection s) = false;
  ln_reads : ∀ t r, reads (connection s) !! t = Some r → t < length (received s);
}.

Lemma linked_move s s' :
  linked s → connection s' = connection s ∨ Connections.step (connection s) (connection s') →
  (phase s' = Serving ∨ phase s' = RecycleJoining → closed (connection s') = false) →
  (∀ t r, reads (connection s') !! t = Some r → t < length (received s')) → linked s'.
Proof.
  intros [Hr Ho Hd] Hs Ho' Hd'. split; [|done|done]. destruct Hs as [->|Hs]; [done|].
  eapply rtc_r; [exact Hr|exact Hs].
Qed.
Lemma linked_same s s' :
  linked s → connection s' = connection s → phase s = Serving ∨ phase s = RecycleJoining →
  (∃ l, received s' = received s ++ l) → linked s'.
Proof.
  intros H Hc Hp [l Hl]. apply (linked_move s); [done|by left|by intros _; rewrite Hc; apply (ln_open s H)|].
  intros t r. rewrite Hc, Hl, length_app. intros Hr. apply (ln_reads s H) in Hr. lia.
Qed.

Lemma registry_block_reads source c : reads (registry_block source c) = reads c ∧ closed (registry_block source c) = closed c.
Proof. unfold registry_block. by destruct (start_new_block _ _ _) as [[? ?] ?]. Qed.
Lemma analyze_document_reads ws doc c : reads (analyze_document ws doc c) = reads c ∧ closed (analyze_document ws doc c) = closed c.
Proof. unfold analyze_document. by destruct (start_document _ _ _ _) as [[? ?] ?]. Qed.
Lemma visible_documents_reads docs c : reads (visible_documents docs c) = reads c ∧ closed (visible_documents docs c) = closed c.
Proof. unfold visible_documents. by destruct (retain_documents _ _ _) as [? ?]. Qed.
Lemma file_size_document_reads t ws doc tagged c u r :
  reads (file_size_document t ws doc tagged c) !! u = Some r → u = t ∨ reads c !! u = Some r.
Proof.
  unfold file_size_document. destruct (start_document _ _ _ _) as [[? ?] ?]. destruct tagged; [|by right].
  destruct (gate_for _ _ _) as [? ?]. destruct (start_document _ _ _ _) as [[? ?] ?]. cbn.
  intros [[-> _]|[_ ?]]%lookup_insert_Some; [by left|by right].
Qed.
Lemma file_size_document_closed t ws doc tagged c : closed (file_size_document t ws doc tagged c) = closed c.
Proof.
  unfold file_size_document. destruct (start_document _ _ _ _) as [[? ?] ?]. destruct tagged; [|done].
  destruct (gate_for _ _ _) as [? ?]. by destruct (start_document _ _ _ _) as [[? ?] ?].
Qed.

Lemma recycle_same now s : connection (recycle_if_needed now s) = connection s ∧ received (recycle_if_needed now s) = received s.
Proof. unfold recycle_if_needed. destruct (negb (should_recycle _ _)); [done|]. by destruct (negb (bool_decide _)). Qed.

Lemma linked_handle now m s :
  linked s → phase s = Serving → linked (handle windows to_lowercase encodes now m s).
Proof.
  intros H Hp. pose proof (ln_open s H (or_introl Hp)) as Hopen.
  assert (reads (connection s) !! length (received s) = None) as Hfresh.
  { destruct (reads _ !! _) as [r|] eqn:E; [|done]. apply (ln_reads s H) in E. lia. }
  assert (∀ s', connection s' = connection s → received s' = received s ++ [m] → linked s') as Hsame.
  { intros s' Hc Hl. eapply linked_same; [exact H|exact Hc|by left|by eexists]. }
  assert (∀ s' c', Connections.step (connection s) c' → reads c' = reads (connection s) ∧ closed c' = closed (connection s) →
    connection s' = c' → received s' = received s ++ [m] → linked s') as Hmove.
  { intros s' c' Hs [Hr Hc] <- Hl. apply (linked_move s); [done|by right|by rewrite Hc|].
    intros t r. rewrite Hr, Hl, length_app. intros Ht. apply (ln_reads s H) in Ht. lia. }
  unfold handle, arm_node_modules_changed, arm_refresh_registry_hints. destruct m as [hello|r|r|r|name| |message|message|paths|r|r|r|r|r|r|r|r|];
    try (destruct (hello_received _); cbn [negb expects_answer refusal]; [|by apply Hsame]).
  all: try (by apply Hsame).
  - destruct (negb _); [by apply Hsame|]. unfold accept_hello. apply Hsame; by rewrite ?(proj1 (recycle_same _ _)), ?(proj2 (recycle_same _ _)).
  - eapply Hmove; [apply (StepAnalyze (ad_workspace_root r) (ad_active_document_path r)); exact Hopen|apply analyze_document_reads|done|done].
  - by destruct (bool_decide _ && bool_decide _); apply Hsame.
  - eapply Hmove; [apply (StepVisible paths); exact Hopen|apply visible_documents_reads|done|done].
  - apply (linked_move s); [done|right; by apply StepFileSize|intros _; exact (eq_trans (file_size_document_closed _ _ _ _ _) Hopen)|].
    intros t x Hx. change (received _) with (received s ++ [FileSizeDocument r]). rewrite length_app. cbn.
    apply file_size_document_reads in Hx as [->|Hx]; [lia|]. apply (ln_reads s H) in Hx. lia.
  - destruct (negb _); [by apply Hsame|].
    eapply Hmove; [apply (StepRegistry (default "" (rr_source r))); exact Hopen|apply registry_block_reads|done|done].
  - apply (linked_move s); [done|right; by apply StepClose|by intros [?|?]|].
    intros t x Hx. change (received _) with (received s ++ [Shutdown]). rewrite length_app.
    change (reads (connection s) !! t = Some x) in Hx. apply (ln_reads s H) in Hx. lia.
Qed.

Lemma linked_close e s : linked s → phase s = Serving → linked (begin_close e s).
Proof.
  intros H Hp. apply (linked_move s); [done|right; apply StepClose; apply (ln_open s H); by left|by intros [?|?]|].
  intros t x Hx. change (reads (connection s) !! t = Some x) in Hx. by apply (ln_reads s H) in Hx.
Qed.
Lemma linked_read s c' :
  linked s → Connections.step (connection s) c' → closed c' = closed (connection s) →
  (∀ t r, reads c' !! t = Some r → is_Some (reads (connection s) !! t)) → linked (set_connection c' s).
Proof.
  intros H Hs Hc Hd. apply (linked_move s); [done|by right|intros Hp; cbn in *; rewrite Hc; by apply (ln_open s H)|].
  intros t r Hr. destruct (Hd t r Hr) as [x Hx]. by apply (ln_reads s H) in Hx.
Qed.
Lemma with_reads_dom t x c u r :
  is_Some (reads c !! t) → reads (with_reads (<[t := x]> (reads c)) c) !! u = Some r → is_Some (reads c !! u).
Proof. intros Ht. cbn. intros [[-> _]|[_ H]]%lookup_insert_Some; [done|by eexists]. Qed.

Lemma linked_step s s' : linked s → serve_step windows to_lowercase encodes s s' → linked s'.
Proof.
  intros H Hst.
  destruct Hst as [s t Hp Hi Hs|s f rest Hp Ho|s f rest Hp Ho|s now m Hp Hi|s Hp Hi|s Hp Hi|s now Hp|s Hp|s e Hp Hs|s e Hp
    |s en f rest Hp Ho|s en f rest Hp Ho|s en Hp Ho|s t tk a frames tk' Hp Ht Hs Ha|s t r Hp Hr Hph Hf|s t r Hp Hr Hph].
  - apply (linked_same s); [done|done|by left|exists []; by rewrite app_nil_r].
  - apply (linked_same s); [done|done|by left|exists []; by rewrite app_nil_r].
  - by apply linked_close.
  - by apply linked_handle.
  - by apply linked_close.
  - by apply linked_close.
  - apply (linked_same s); [done|apply recycle_same|by left|exists []; by rewrite app_nil_r, (proj2 (recycle_same _ _))].
  - apply (linked_same s); [done|done|by right|exists []; by rewrite app_nil_r].
  - apply (linked_move s); [done|by left|by intros [?|?]|apply (ln_reads s H)].
  - apply (linked_move s); [done|by left|destruct e; by intros [?|?]|apply (ln_reads s H)].
  - apply (linked_move s); [done|by left|cbn; rewrite Hp; by intros [?|?]|apply (ln_reads s H)].
  - apply (linked_move s); [done|by left|by intros [?|?]|apply (ln_reads s H)].
  - apply (linked_move s); [done|by left|by intros [?|?]|apply (ln_reads s H)].
  - assert (linked (set_connection (leaves a t (connection s)) s)) as Hl.
    { destruct a; cbn [leaves admits] in *; try (destruct H; by split). unfold release.
      destruct (reads (connection s) !! t) as [r|] eqn:Hr; [|destruct H; by split].
      apply linked_read; [done|eapply StepFinish; [done|by apply Ha]|done|].
      intros u x. apply with_reads_dom. by eexists. }
    destruct Hl as [H1 H2 H3]. split; [exact H1|exact H2|exact H3].
  - apply linked_read; [done|by eapply StepAcquire|done|]. intros u x. apply with_reads_dom. by eexists.
  - apply linked_read; [done|by eapply StepCheck|done|]. intros u x. apply with_reads_dom. by eexists.
Qed.

(** *** What each step does to the connection *)

(** What a message read at place [t] asks of the lifecycles. *)
Definition effect_of (hello : bool) (t : nat) (m : ClientMessage) : Effect :=
  match m with
  | Shutdown => Closes
  | AnalyzeDocument r =>
      if hello then Starts [(DocumentStream, document_key (ad_workspace_root r) (ad_active_document_path r))]
      else Nothing
  | RefreshRegistryHints r =>
      if hello && is_supported_protocol_version (rr_version r)
      then Starts [(RegistryRefresh, default "" (rr_source r))] else Nothing
  | FileSizeDocument r =>
      let key := document_key (fr_workspace_root r) (fr_active_document_path r) in
      if hello then match fr_analysis_generation r with
                    | Some _ => Reads t key
                    | None => Starts [(SwrRefresh, key)]
                    end
      else Nothing
  | VisibleDocuments document_paths => if hello then Shows document_paths else Nothing
  | _ => Nothing
  end.

(** A step reads a message and does what it asks; or stops serving, and cancels
    everything; or is a task's or the wire's, and touches no flag and no gate. *)
Inductive move (s s' : Loop) : Prop :=
  | MoveMessage m :
      phase s = Serving → received s' = received s ++ [m] →
      does (effect_of (hello_received s) (length (received s)) m) (connection s) (connection s') → move s s'
  | MoveClose e :
      phase s = Serving → phase s' = Settling e → received s' = received s →
      does Closes (connection s) (connection s') → move s s'
  | MoveTask :
      received s' = received s → (∀ e, phase s' = Settling e → phase s = Settling e) →
      lifecycles (connection s') = lifecycles (connection s) → flags (connection s') = flags (connection s) →
      size_build_gate (connection s') = size_build_gate (connection s) →
      closed (connection s') = closed (connection s) →
      connection s' = connection s ∨ Connections.step (connection s) (connection s') → move s s'.

Lemma handle_received now m s : received (handle windows to_lowercase encodes now m s) = received s ++ [m].
Proof.
  unfold handle, arm_node_modules_changed, arm_refresh_registry_hints. destruct m; try done;
    try (destruct (hello_received _); [|done]); try done.
  - destruct (negb _); [done|]. unfold accept_hello. by rewrite (proj2 (recycle_same _ _)).
  - by destruct (bool_decide _ && bool_decide _).
  - by destruct (negb (is_supported_protocol_version _)).
Qed.

Lemma handle_does now m s :
  linked s → phase s = Serving →
  does (effect_of (hello_received s) (length (received s)) m) (connection s)
    (connection (handle windows to_lowercase encodes now m s)).
Proof.
  intros H Hp. pose proof (ln_open s H (or_introl Hp)) as Hopen.
  pose proof (reachable_good _ (ln_reachable s H)) as Hgood.
  assert (reads (connection s) !! length (received s) = None) as Hfresh.
  { destruct (reads _ !! _) as [r|] eqn:E; [|done]. apply (ln_reads s H) in E. lia. }
  unfold handle, arm_node_modules_changed, arm_refresh_registry_hints, effect_of.
  destruct m as [hello|r|r|r|name| |message|message|paths|r|r|r|r|r|r|r|r|]; try done;
    try (change (hello_received (set_received _ s)) with (hello_received s); destruct (hello_received s); [|done]);
    try done; cbn [negb andb].
  - destruct (negb _); [done|]. unfold accept_hello. cbn [does]. by rewrite (proj1 (recycle_same _ _)).
  - by apply analyze_document_does.
  - by destruct (bool_decide _ && bool_decide _).
  - by apply visible_documents_does.
  - pose proof (file_size_document_does (length (received s)) (fr_workspace_root r) (fr_active_document_path r)
      (bool_decide (is_Some (fr_analysis_generation r))) _ Hgood Hopen Hfresh) as Hd. revert Hd.
    destruct (fr_analysis_generation r) as [g|] eqn:Eg;
      [rewrite bool_decide_eq_true_2 by done|rewrite bool_decide_eq_false_2 by by intros []];
      intros Hd; cbn; rewrite Eg; exact Hd.
  - destruct (is_supported_protocol_version (rr_version r)); cbn [negb]; [|done]. by apply registry_block_does.
  - by apply close_connection_does.
Qed.

Lemma begin_close_moves e s s' :
  linked s → phase s = Serving → s' = begin_close e s → move s s'.
Proof.
  intros H Hp ->. apply (MoveClose _ _ e); [done..|].
  apply close_connection_does; [by apply reachable_good, ln_reachable|]. apply (ln_open s H). by left.
Qed.

Lemma loop_moves s s' : linked s → serve_step windows to_lowercase encodes s s' → move s s'.
Proof.
  intros H Hst.
  assert (∀ s1, received s1 = received s → connection s1 = connection s →
    (∀ e, phase s1 = Settling e → phase s = Settling e) → move s s1) as Hsame.
  { intros s1 Hr Hc He. apply MoveTask; rewrite ?Hc; try done. by left. }
  destruct Hst as [s t Hp Hi Hs|s f rest Hp Ho|s f rest Hp Ho|s now m Hp Hi|s Hp Hi|s Hp Hi|s now Hp|s Hp|s e Hp Hs|s e Hp
    |s en f rest Hp Ho|s en f rest Hp Ho|s en Hp Ho|s t tk a frames tk' Hp Ht Hs Ha|s t r Hp Hr Hph Hf|s t r Hp Hr Hph];
    try (by apply Hsame); try (by eapply begin_close_moves).
  - apply (MoveMessage _ _ m); [done|apply handle_received|by apply handle_does].
  - apply Hsame; [apply recycle_same..|]. unfold recycle_if_needed.
    destruct (negb (should_recycle _ _)); [done|]. by destruct (negb (bool_decide _)).
  - apply Hsame; [done|done|]. by destruct e.
  - assert (leaves a t (connection s) = connection s ∨ Connections.step (connection s) (leaves a t (connection s))) as Hl.
    { destruct a; try by left. cbn [leaves admits] in *. unfold release.
      destruct (reads (connection s) !! t) as [r|] eqn:Hr; [|by left].
      right. eapply StepFinish; [done|by apply Ha]. }
    assert (∀ A (f : Connections.Connection → A), (∀ rs c, f (with_reads rs c) = f c) →
      f (leaves a t (connection s)) = f (connection s)) as Hf.
    { intros A f Hf. destruct a; try done. cbn [leaves]. unfold release. destruct (reads _ !! t); [apply Hf|done]. }
    apply MoveTask; [done|done|by apply Hf..|exact Hl].
  - apply MoveTask; [done..|]. right. by eapply StepAcquire.
  - apply MoveTask; [done..|]. right. by eapply StepCheck.
Qed.

Lemma served_linked s : served windows to_lowercase encodes s → linked s.
Proof.
  intros [now Hr]. remember (new_loop now) as s0 eqn:E. assert (linked s0) as H0.
  { subst s0. split; [apply rtc_refl|done|done]. }
  clear E. induction Hr as [|x y z Hxy _ IH]; [done|]. apply IH. by eapply linked_step.
Qed.

End linking.

(** A hello the loop refuses ends the connection at once: nothing is cancelled,
    joined or flushed, whatever was running. *)
Lemma a_refused_hello_skips_the_close windows to_lowercase encodes now hello s :
  is_supported_protocol_version (he_version hello) = false →
  let s' := handle windows to_lowercase encodes now (Hello hello) s in
  phase s' = Ended HelloRefused ∧ flushed s' = flushed s ∧ connection s' = connection s ∧ work s' = work s.
Proof. intros Hv. cbn. by rewrite Hv. Qed.

(** ** What a client can rely on *)

Section serving.
Context (windows : bool) (to_lowercase : string → string) (encodes : nat → bool).
Local Notation the_step := (serve_step windows to_lowercase encodes).

(** The frames about a message: its partial answers, its one answer, then what
    refreshes it. *)
Definition conversation (fs : list Frame) (n : nat) (answered : bool) : Prop :=
  ∃ partials answer pushed, fs = partials ++ answer ++ pushed ∧ Forall is_partial partials ∧ Forall is_push pushed ∧
    if answered then ∃ c, answer = [Response n c] else answer = [].

(** The message is answered: it asks for an answer, its task is past its
    handler, and something of its answer could be encoded. *)
Definition is_answered (s : Loop) (n : nat) (m : ClientMessage) : bool :=
  expects_answer m &&
  match spawned (work s) !! n with
  | Some tk => negb (bool_decide (tk_state tk = Working)) && negb (tk_lost tk)
  | None => encodes n
  end.

Lemma shape_conversation n m lost fs :
  answer_shape n m lost fs → conversation fs n (negb (lost || negb (expects_answer m))).
Proof.
  intros (ps & ans & us & H1 & H2 & H3 & _ & _ & H4). exists ps, ans, us. split_and!; try done.
  by destruct (lost || negb (expects_answer m)).
Qed.
Lemma quiet_conversation n : conversation [] n false.
Proof. by exists [], [], []. Qed.

Lemma served_conversation s n m :
  keeps_serving encodes s → received s !! n = Some m →
  conversation (about n (queued (wire s))) n (is_answered s n m).
Proof.
  intros H Hm. pose proof (k_frames _ _ _ _ _ _ _ H n) as Hf. unfold is_answered.
  destruct (spawned (work s) !! n) as [tk|] eqn:Ht.
  - pose proof (k_messages _ _ _ _ _ _ _ H n tk Ht) as Hmm. rewrite Hm in Hmm. injection Hmm as ->.
    unfold task_shape in Hf. destruct (tk_state tk) eqn:Hst.
    + rewrite bool_decide_eq_true_2 by done. cbn. rewrite andb_false_r. destruct Hf as [Hf _].
      exists (about n (queued (wire s))), [], []. by rewrite !app_nil_r.
    + rewrite bool_decide_eq_false_2 by done. destruct Hf as (_ & Hx & Hf). apply shape_conversation in Hf.
      rewrite Hx in *. cbn in *. by rewrite orb_false_r in Hf.
    + rewrite bool_decide_eq_false_2 by done. apply shape_conversation in Hf. cbn.
      by rewrite negb_orb, negb_involutive, andb_comm in Hf.
  - rewrite Hm in Hf. unfold untasked_shape in Hf. destruct (expects_answer m); cbn.
    + destruct Hf as [message ->]. unfold queue_outbound. destruct (encodes n); [|apply quiet_conversation].
      exists [], [Response n (Refused message)], []. split_and!; try done. by eexists.
    + rewrite Hf. apply quiet_conversation.
Qed.

(** C14. Over every schedule of a connection: what the client is sent about each
    message is its partial answers, at most one answer and only then what
    refreshes it, and the answer is there once the request's task is past its
    handler; no message is read while an earlier invalidation runs, and the cache
    is flushed only when none does; an idle daemon recycles only once every task
    has ended, and a recycle or a shutdown that ends well has sent every frame. *)
Theorem every_request_is_answered_once s :
  served windows to_lowercase encodes s →
  (∀ n m, received s !! n = Some m → conversation (about n (queued (wire s))) n (is_answered s n m)) ∧
  (∀ s', the_step s s' → received s' ≠ received s → invalidations_done (spawned (work s))) ∧
  (∀ f, f ∈ flushed s → invalidations_done f.2) ∧
  (phase s = Ended Recycled → ∀ n tk, spawned (work s) !! n = Some tk → tk_state tk = Finished) ∧
  (phase s = Ended Recycled ∨ phase s = Ended (Closed OnShutdown) → written (wire s) = length (queued (wire s))).
Proof.
  intros H%served_kept. split_and!.
  - intros n m Hm. by apply served_conversation.
  - intros s' Hs Hne. destruct Hs; try done.
    + by eapply none_done.
    + by rewrite (proj2 (recycle_same _ _)) in Hne.
  - apply (k_flushed _ _ _ _ _ _ _ H).
  - intros Hp. eapply k_recycled; [exact H|by right].
  - apply (k_drained _ _ _ _ _ _ _ H).
Qed.
End serving.

(** ** A connection, from its hello to its recycle *)

Definition w_hello : HelloMessage :=
  {| he_version := 8; he_workspace_root := "/w"; he_storage_path := "/s"; he_enable_disk_cache := true;
     he_cache_max_size_mb := 512; he_registry_cache_max_size_mb := 32; he_log_level := "info" |}.
Definition w_specifiers : AnalyzeSpecifiersRequest :=
  {| as_version := 8; as_request_id := 1; as_workspace_root := "/w"; as_active_document_path := "/w/a.ts"; as_specifiers := ["x"] |}.
Definition w_handle := handle false id (λ _, true).
Definition w_task (m : ClientMessage) : Task := {| tk_message := m; tk_service := 1; tk_state := Working; tk_lost := false |}.
(** Asked too early, greeted, an invalidation that runs and settles, and a
    request; then the daemon is idle. *)
Definition w0 : Loop := w_handle 0 (AnalyzeSpecifiers w_specifiers) (new_loop 0).
Definition w1 : Loop := w_handle 0 (Hello w_hello) w0.
Definition w2 : Loop := w_handle 0 (CacheInvalidate "x") w1.
Definition w3 : Loop := advance 2 (set_state Finished false (w_task (CacheInvalidate "x"))) [] (lift (leaves ActEnd 2) w2).
Definition w4 : Loop := set_work (clear_invalidation (work w3)) w3.
Definition w5 : Loop := w_handle 0 (AnalyzeSpecifiers w_specifiers) w4.
Definition w6 : Loop :=
  advance 3 (set_state (Background false) false (w_task (AnalyzeSpecifiers w_specifiers))) [Response 3 Handled]
    (lift (leaves ActRespond 3) w5).
Definition w7 : Loop :=
  advance 3 (set_state Finished false (set_state (Background false) false (w_task (AnalyzeSpecifiers w_specifiers)))) []
    (lift (leaves ActEnd 3) w6).
Definition w8 : Loop := recycle_if_needed 20000000 w7.
Definition w9 : Loop := send (send w8).
Definition w10 : Loop := enter (Ended Recycled) w9.

Lemma w10_served : served false id (λ _, true) w10.
Proof.
  exists 0%N. eapply rtc_l; [exact (ServeRead false id (λ _, true) (new_loop 0) 0 (AnalyzeSpecifiers w_specifiers) eq_refl eq_refl)|].
  eapply rtc_l; [exact (ServeRead false id (λ _, true) w0 0 (Hello w_hello) eq_refl eq_refl)|].
  eapply rtc_l; [apply (ServeRead false id (λ _, true) w1 0 (CacheInvalidate "x")); by vm_compute|].
  eapply rtc_l.
  { apply (ServeTask false id (λ _, true) w2 2 (w_task (CacheInvalidate "x")) ActEnd [] (set_state Finished false (w_task (CacheInvalidate "x"))));
      [|by vm_compute|by apply TaskInvalidated|done]. intros e. by vm_compute. }
  eapply rtc_l; [apply (ServeInvalidated false id (λ _, true) w3 2); [by vm_compute|by vm_compute|]|].
  { intros t [= <-]. by vm_compute. }
  eapply rtc_l; [apply (ServeRead false id (λ _, true) w4 0 (AnalyzeSpecifiers w_specifiers)); by vm_compute|].
  eapply rtc_l.
  { apply (ServeTask false id (λ _, true) w5 3 (w_task (AnalyzeSpecifiers w_specifiers)) ActRespond [Response 3 Handled]
      (set_state (Background false) false (w_task (AnalyzeSpecifiers w_specifiers)))); [|by vm_compute| |].
    - intros e. by vm_compute.
    - exact (TaskRespond 3 (w_task (AnalyzeSpecifiers w_specifiers)) None None true eq_refl eq_refl (or_introl eq_refl)).
    - intros r Hr. by vm_compute in Hr. }
  eapply rtc_l.
  { apply (ServeTask false id (λ _, true) w6 3 (set_state (Background false) false (w_task (AnalyzeSpecifiers w_specifiers))) ActEnd []
      (set_state Finished false (set_state (Background false) false (w_task (AnalyzeSpecifiers w_specifiers))))); [|by vm_compute|by eapply TaskEnd|done].
    intros e. by vm_compute. }
  eapply rtc_l; [apply (ServeTick false id (λ _, true) w7 20000000); by vm_compute|].
  eapply rtc_l; [eapply (ServeDrain false id (λ _, true) w8); by vm_compute|].
  eapply rtc_l; [eapply (ServeDrain false id (λ _, true) (send w8)); by vm_compute|].
  eapply rtc_l; [apply (ServeDrained false id (λ _, true) w9); by vm_compute|]. apply rtc_refl.
Qed.

(** The early request is refused and the later one answered, each once, and
    everything was sent. *)
Lemma every_request_is_answered_once_witness :
  served false id (λ _, true) w10 ∧ phase w10 = Ended Recycled ∧
  queued (wire w10) = [Response 0 (Refused no_hello); Response 3 Handled] ∧ written (wire w10) = 2 ∧
  conversation (about 3 (queued (wire w10))) 3 true ∧
  written (wire w10) = length (queued (wire w10)).
Proof.
  split; [exact w10_served|]. split; [vm_compute; reflexivity|]. split; [vm_compute; reflexivity|].
  split; [vm_compute; reflexivity|].
  destruct (every_request_is_answered_once false id (λ _, true) w10 w10_served) as (Hc & _ & _ & _ & Hw). split.
  - exact (Hc 3 (AnalyzeSpecifiers w_specifiers) ltac:(vm_compute; reflexivity)).
  - apply Hw. left. vm_compute. reflexivity.
Defined.

(** Greeted, and asked for the size of a document, tagged. *)
Definition w_size : FileSizeDocumentRequest :=
  {| fr_version := 8; fr_request_id := 2; fr_workspace_root := "/w"; fr_active_document_path := "/w/a.ts";
     fr_source := ""; fr_force_fresh := false; fr_analysis_generation := Some 1%N |}.
Definition w2_sized : Loop := w_handle 0 (FileSizeDocument w_size) w1.

Lemma w1_served : served false id (λ _, true) w1.
Proof.
  exists 0%N. eapply rtc_l; [exact (ServeRead false id (λ _, true) (new_loop 0) 0 (AnalyzeSpecifiers w_specifiers) eq_refl eq_refl)|].
  eapply rtc_l; [exact (ServeRead false id (λ _, true) w0 0 (Hello w_hello) eq_refl eq_refl)|]. apply rtc_refl.
Qed.
Lemma w2_sized_step : serve_step false id (λ _, true) w1 w2_sized.
Proof. apply (ServeRead false id (λ _, true) w1 0 (FileSizeDocument w_size)); by vm_compute. Qed.

