(* ===== verification/CacheRequests.v ===== *)
(** * Cache requests (service.rs, cache/project.rs)

    The requests that look at the caches or throw parts of them away, and the
    invalidations a client's file watcher sends: which shards each reaches, which
    derived caches follow, and the generation that keeps late inserts stale. What
    a cleared shard's cache does with its entries is [Memory]. *)
From stdpp Require Import base gmap list strings pretty.
From S2P Require Import Prelude Recency Stages Results Json RegistryCache RegistryService Fingerprints CacheKeys CachedImports ShardTables Disk SharedBytes FileSize BoundedMap FileSizeCache ProjectRegistry Text Specifiers Handlers Server.

Set Default Proof Using "Type*".

(** ** The daemon's caches *)

(** The registry of shards and what the disk holds at a path; the caches a
    removal has cleared; the derived caches; the resolver sets made so far and
    the process-wide generation. *)
Record DaemonCaches `{SerdeJson} := {
  cache_registry : ProjectCacheRegistry;
  disk_at : string → option Node;
  cleared_caches : list N;
  registry_hints : RegistryHintService;
  dependency_paths : DependencyPaths.DependencyPathIndex;
  file_size_cache : FileSizeCache;
  resolver_sets : N;
  generation_now : N;
}.

Definition after_last_marker (marker l : list ascii) : option (list ascii) :=
  (fix go l := match l with
               | [] => None
               | _ :: rest => match go rest with
                              | Some found => Some found
                              | None => strip_prefix marker l
                              end
               end) l.
Definition strip_suffix (suffix l : list ascii) : option (list ascii) :=
  reverse <$> strip_prefix (reverse suffix) (reverse l).
Definition package_name_from_package_json_path (package_json_path : string) : option string :=
  let normalized := (λ c, if decide (c = "\"%char) then "/"%char else c) <$> to_bytes package_json_path in
  after ← after_last_marker (to_bytes "/node_modules/") normalized;
  Some (get_package_name (of_bytes (default after (strip_suffix (to_bytes "/package.json") after)))).

Section caches.
Context `{SJ : SerdeJson, HO : HashOrder} (windows : bool).
(** The shards' rollups, and whether a listed shard is orphaned. *)
Context (rollups : gmap string ShardRollup) (targets : list (string * ShardRollup)) (orphaned : CacheShardInfo → bool)
        (read_dir : string → option (list (string * Node))).
(** What the disk answers a removal: [remove_shard_database]'s error, and that
    of [fs::remove_dir_all]. *)
Context (remove_shard_database : string → option string) (remove_dir_all : string → option (ErrorKind * string)).
(** The entries a scrub of a surviving shard drops. *)
Context (scrubbed_by : Reclaim → nat).

Definition set_registry (r : ProjectCacheRegistry) (d : DaemonCaches) : DaemonCaches :=
  {| cache_registry := r; disk_at := disk_at d; cleared_caches := cleared_caches d; registry_hints := registry_hints d;
     dependency_paths := dependency_paths d; file_size_cache := file_size_cache d; resolver_sets := resolver_sets d;
     generation_now := generation_now d |}.
Definition set_hints (h : RegistryHintService) (d : DaemonCaches) : DaemonCaches :=
  {| cache_registry := cache_registry d; disk_at := disk_at d; cleared_caches := cleared_caches d; registry_hints := h;
     dependency_paths := dependency_paths d; file_size_cache := file_size_cache d; resolver_sets := resolver_sets d;
     generation_now := generation_now d |}.
Definition set_derived (paths : DependencyPaths.DependencyPathIndex) (sizes : FileSizeCache) (d : DaemonCaches) : DaemonCaches :=
  {| cache_registry := cache_registry d; disk_at := disk_at d; cleared_caches := cleared_caches d;
     registry_hints := registry_hints d; dependency_paths := paths; file_size_cache := sizes;
     resolver_sets := resolver_sets d; generation_now := generation_now d |}.
Definition invalidate_shared_resolvers (d : DaemonCaches) : DaemonCaches :=
  {| cache_registry := cache_registry d; disk_at := disk_at d; cleared_caches := cleared_caches d;
     registry_hints := registry_hints d; dependency_paths := dependency_paths d; file_size_cache := file_size_cache d;
     resolver_sets := N.succ (resolver_sets d); generation_now := generation_now d |}.
Definition bump_generation (d : DaemonCaches) : DaemonCaches :=
  {| cache_registry := cache_registry d; disk_at := disk_at d; cleared_caches := cleared_caches d;
     registry_hints := registry_hints d; dependency_paths := dependency_paths d; file_size_cache := file_size_cache d;
     resolver_sets := resolver_sets d; generation_now := wrap_add (generation_now d) 1 |}.
Definition clear_derived (d : DaemonCaches) : DaemonCaches :=
  set_derived (DependencyPaths.clear (dependency_paths d)) ∅ d.

(** ** Removing a shard *)

Definition operation (shard_id root path : string) (error : option string) : CacheOperationResult :=
  {| co_shard_id := shard_id; co_project_root := root; co_cache_path := path;
     co_removed := bool_decide (error = None); co_error := error |}.
Definition remove_shard_by_id (shard_id : string) (d : DaemonCaches) : CacheOperationResult * DaemonCaches :=
  let r := cache_registry d in
  let shard := loaded r !! shard_id in
  let read_metadata_for_shard := disk_at d (cache_path_for_shard r shard_id) ≫= read_metadata in
  let metadata := match shard with Some s => Some (metadata_of shard_id s) | None => read_metadata_for_shard end in
  let cache_path := match shard with Some s => lp_cache_path s | None => cache_path_for_shard r shard_id end in
  let d := {| cache_registry := set_loaded (delete shard_id (loaded r)) r; disk_at := disk_at d;
              cleared_caches := cleared_caches d ++ match shard with Some s => [lp_cache s] | None => [] end;
              registry_hints := registry_hints d; dependency_paths := dependency_paths d;
              file_size_cache := file_size_cache d; resolver_sets := resolver_sets d; generation_now := generation_now d |} in
  let result := operation shard_id (default "" (md_project_root <$> metadata)) cache_path in
  let gone := {| cache_registry := cache_registry d; disk_at := (λ p, if decide (p = cache_path) then None else disk_at d p);
                 cleared_caches := cleared_caches d; registry_hints := registry_hints d;
                 dependency_paths := dependency_paths d; file_size_cache := file_size_cache d;
                 resolver_sets := resolver_sets d; generation_now := generation_now d |} in
  if bool_decide (metadata = None) && bool_decide (disk_at d cache_path = None)
  then (result (Some "cache shard not found"), d)
  else if bool_decide (cache_path = "") then (result None, d)
  else
    match remove_shard_database (path_join cache_path SHARD_DB_FILE_NAME) with
    | Some error => (result (Some error), d)
    | None =>
        match remove_dir_all cache_path with
        | None | Some (NotFound, _) => (result None, gone)
        | Some (_, error) => (result (Some error), d)
        end
    end.
Fixpoint remove_shards (shard_ids : list string) (d : DaemonCaches) : list CacheOperationResult * DaemonCaches :=
  match shard_ids with
  | [] => ([], d)
  | id :: shard_ids =>
      let '(result, d) := remove_shard_by_id id d in
      let '(results, d) := remove_shards shard_ids d in (result :: results, d)
  end.

Definition list_shards (d : DaemonCaches) : list CacheShardInfo :=
  list_shards_with_rollups read_dir (disk_at d) rollups (cache_registry d).
Definition remove_current_project (project_root : string) : DaemonCaches → list CacheOperationResult * DaemonCaches :=
  remove_shards [project_cache_shard_id windows project_root].
Definition remove_selected (shard_ids : list string) : DaemonCaches → list CacheOperationResult * DaemonCaches :=
  remove_shards shard_ids.
Definition remove_all (d : DaemonCaches) : list CacheOperationResult * DaemonCaches :=
  remove_shards (remove_all_ids read_dir (disk_at d) rollups (cache_registry d)) d.
(** [purge_orphans]: the shards it removes, and the entries it scrubs of the
    others. *)
Definition purge_orphaned_shards (d : DaemonCaches) : list CacheOperationResult * nat * DaemonCaches :=
  let plan := purge_orphans orphaned (list_shards d) (cache_registry d) in
  let '(removed, d) := remove_shards (omap (λ a, match a with RemoveShard id => Some id | _ => None end) plan) d in
  (removed, sum_list (scrubbed_by <$> plan), d).
Definition sweep_orphans (now : N) (d : DaemonCaches) : list CacheOperationResult * DaemonCaches :=
  let '(ids, r) := sweep_orphaned_shards_if_due orphaned now (list_shards d) (cache_registry d) in
  remove_shards ids (set_registry r d).

(** The file of the daemon's first releases. *)
Definition LEGACY_CENTRAL_CACHE_DB_FILE_NAME : string := "importlens.redb".
Definition LEGACY_CENTRAL_CACHE_SHARD_ID : string := "legacy-central".
Definition remove_legacy_central_cache (exists_ : string → bool) (remove_file : string → option (ErrorKind * string))
    (storage_path : string) : option CacheOperationResult :=
  let cache_path := path_join storage_path LEGACY_CENTRAL_CACHE_DB_FILE_NAME in
  if negb (exists_ cache_path) then None
  else Some (operation LEGACY_CENTRAL_CACHE_SHARD_ID "" cache_path
               match remove_file cache_path with
               | None | Some (NotFound, _) => None
               | Some (_, error) => Some error
               end).

(** ** The requests *)

(** Whether the disk says that a path is gone. *)
Context (fs_symlink_metadata : string → option ErrorKind).

Definition cache_status (request : CacheStatusRequest) (d : DaemonCaches) : CacheStatusResponse :=
  if negb (is_supported_protocol_version (ct_version request)) then
    {| st_version := N.min (ct_version request) PROTOCOL_VERSION; st_request_id := ct_request_id request;
       Server.st_total_size_bytes := 0; Server.st_project_count := 0; Server.st_max_size_mb := 0;
       Server.st_current_project := None; Server.st_total_bytes := 0; Server.st_budget_bytes := 0;
       st_registry_size_bytes := 0; st_error := Some (unsupported (ct_version request));
       st_diagnostics := [for_stage "protocol" "unsupported protocol version"] |}
  else
    let status := status_for_root read_dir (disk_at d) windows targets (ct_workspace_root request) (cache_registry d) in
    {| st_version := ct_version request; st_request_id := ct_request_id request;
       Server.st_total_size_bytes := ProjectRegistry.st_total_size_bytes status;
       Server.st_project_count := ProjectRegistry.st_project_count status;
       Server.st_max_size_mb := ProjectRegistry.st_max_size_mb status;
       Server.st_current_project := ProjectRegistry.st_current_project status;
       Server.st_total_bytes := ProjectRegistry.st_total_bytes status;
       Server.st_budget_bytes := ProjectRegistry.st_budget_bytes status;
       st_registry_size_bytes := serialized_size_bytes (RegistryService.cache (registry_hints d));
       st_error := None; st_diagnostics := [] |}.

Definition list_cache (request : CacheListRequest) (d : DaemonCaches) : CacheListResponse :=
  if negb (is_supported_protocol_version (cl_version request)) then
    {| sl_version := N.min (cl_version request) PROTOCOL_VERSION; sl_request_id := cl_request_id request; sl_shards := [];
       sl_error := Some (unsupported (cl_version request));
       sl_diagnostics := [for_stage "protocol" "unsupported protocol version"] |}
  else
    {| sl_version := cl_version request; sl_request_id := cl_request_id request; sl_shards := list_shards d;
       sl_error := None; sl_diagnostics := [] |}.

Definition root_required : string := "workspace_root is required for current_project cache removal".
Definition refused_removal (request : CacheRemoveRequest) (version : N) (error diagnostic : string) : CacheRemoveResponse :=
  {| cd_version := version; cd_request_id := cx_request_id request; cd_removed := []; cd_failed := [];
     cd_scrubbed_entries := 0; cd_registry_entries_removed := 0; cd_error := Some error;
     cd_diagnostics := [for_stage "protocol" diagnostic] |}.

(** What the scope removes: the results, the entries scrubbed of kept shards,
    and the registry entries dropped; [None] where a root is needed and absent. *)
Definition remove_scope (io : RegistryCache.Io) (now_ms : N) (request : CacheRemoveRequest) (d : DaemonCaches) :
    option (list CacheOperationResult * nat * nat * DaemonCaches) :=
  match cx_scope request with
  | CurrentProject =>
      project_root ← cx_workspace_root request;
      let '(results, d) := remove_current_project project_root d in Some (results, 0, 0, d)
  | Selected =>
      let '(results, d) := remove_selected (default [] (cx_shard_ids request)) d in Some (results, 0, 0, d)
  | All =>
      let '(results, d) := remove_all d in
      Some (results, 0, 0, invalidate_shared_resolvers (set_hints (clear_hints io now_ms (registry_hints d)) d))
  | Registry => Some ([], 0, 0, set_hints (clear_hints io now_ms (registry_hints d)) d)
  | Orphans =>
      let '(purged, hints) := purge_expired_metadata io now_ms (registry_hints d) in
      let '(results, scrubbed, d) := purge_orphaned_shards (set_hints hints d) in Some (results, scrubbed, purged, d)
  end.
(** What follows a removal in the derived caches. *)
Definition settle_derived (scope : CacheRemoveScope) (some_removed : bool) (d : DaemonCaches) : DaemonCaches :=
  let d := if bool_decide (scope = Orphans)
           then set_derived (DependencyPaths.purge_missing fs_symlink_metadata (dependency_paths d)).2
                  (purge_missing_paths fs_symlink_metadata (file_size_cache d)).2 d
           else d in
  if bool_decide (scope = All) || some_removed then clear_derived d else d.
Definition remove_cache (io : RegistryCache.Io) (now_ms : N) (request : CacheRemoveRequest) (d : DaemonCaches) :
    CacheRemoveResponse * DaemonCaches :=
  if negb (is_supported_protocol_version (cx_version request)) then
    (refused_removal request (N.min (cx_version request) PROTOCOL_VERSION) (unsupported (cx_version request))
       "unsupported protocol version", d)
  else
    match remove_scope io now_ms request d with
    | None => (refused_removal request (cx_version request) root_required root_required, d)
    | Some (results, scrubbed, purged, d) =>
        let removed := filter (λ r, co_removed r = true) results in
        ({| cd_version := cx_version request; cd_request_id := cx_request_id request; cd_removed := removed;
            cd_failed := filter (λ r, co_removed r = false) results; cd_scrubbed_entries := scrubbed;
            cd_registry_entries_removed := purged; cd_error := None; cd_diagnostics := [] |},
         bump_generation (settle_derived (cx_scope request) (negb (bool_decide (removed = []))) d))
    end.
(** The handler the loop runs: a removal of everything takes the legacy file too. *)
Definition handle_cache_remove (io : RegistryCache.Io) (now_ms : N) (legacy : option CacheOperationResult) (request : CacheRemoveRequest)
    (d : DaemonCaches) : CacheRemoveResponse * DaemonCaches :=
  let '(response, d) := remove_cache io now_ms request d in
  match (if bool_decide (cx_scope request = All) then legacy else None) with
  | None => (response, d)
  | Some result =>
      ({| cd_version := cd_version response; cd_request_id := cd_request_id response;
          cd_removed := if co_removed result then cd_removed response ++ [result] else cd_removed response;
          cd_failed := if co_removed result then cd_failed response else cd_failed response ++ [result];
          cd_scrubbed_entries := cd_scrubbed_entries response;
          cd_registry_entries_removed := cd_registry_entries_removed response; cd_error := cd_error response;
          cd_diagnostics := cd_diagnostics response |}, d)
  end.

(** ** Invalidation and maintenance *)

(** The shards an invalidation rewrites: the caches of the loaded ones and the
    paths of the others. *)
Definition rewritten : Type := list N * list string.
Definition drop_packages (package_names : list string) (d : DaemonCaches) : DaemonCaches :=
  set_derived (foldl (λ i name, DependencyPaths.invalidate_package name i) (dependency_paths d) package_names)
    (file_size_cache d) d.
Definition service_invalidate_packages (package_names : list string) (d : DaemonCaches) : rewritten * DaemonCaches :=
  (invalidate_packages read_dir package_names (cache_registry d),
   bump_generation (invalidate_shared_resolvers (drop_packages package_names d))).
Definition service_invalidate_package (package_name : string) : DaemonCaches → rewritten * DaemonCaches :=
  service_invalidate_packages [package_name].
Definition invalidate_all (d : DaemonCaches) : list CacheOperationResult * DaemonCaches :=
  let '(results, d) := remove_all d in
  (results, bump_generation (invalidate_shared_resolvers
              (set_derived (DependencyPaths.clear (dependency_paths d)) (file_size_cache d) d))).

(** [None] where nothing was invalidated. *)
Inductive Invalidated := InvalidatedPackages (shards : rewritten) | InvalidatedAll (results : list CacheOperationResult).
Definition invalidate_package_json_paths (package_json_paths : list string) (d : DaemonCaches) :
    option Invalidated * DaemonCaches :=
  let package_names := omap package_name_from_package_json_path package_json_paths in
  if bool_decide (package_names = []) then
    if bool_decide (package_json_paths = []) then (None, d)
    else let '(results, d) := invalidate_all d in (Some (InvalidatedAll results), d)
  else
    let '(shards, d) := service_invalidate_packages package_names d in (Some (InvalidatedPackages shards), d).
Definition invalidate_workspace_config_paths (config_paths : list string) (d : DaemonCaches) : bool * DaemonCaches :=
  if bool_decide (config_paths = []) then (false, d)
  else (true, set_derived (dependency_paths d) ∅ (invalidate_shared_resolvers d)).

(** One pass, after the shards' own; [claimed] says that no other pass runs, and
    the entries the shards evict are not of this state. *)
Definition run_cache_maintenance (claimed : bool) (io : RegistryCache.Io) (now now_ms registry_max_bytes : N) (d : DaemonCaches) :
    DaemonCaches :=
  if negb claimed then d
  else
    let '(_, hints) := run_hint_maintenance io now now_ms registry_max_bytes (registry_hints d) in
    let '(results, d) := sweep_orphans now (set_hints hints d) in
    if bool_decide (filter (λ r, co_removed r = true) results = []) then d else bump_generation (clear_derived d).
End caches.

(** ** What a removal leaves *)

Lemma overwrite_ids info shards id :
  id = i_shard_id info ∨ id ∈ i_shard_id <$> shards → id ∈ i_shard_id <$> overwrite info shards.
Proof.
  induction shards as [|s shards IH]; cbn.
  - rewrite elem_of_nil, list_elem_of_singleton. by intros [?|?].
  - case_decide as Hs; cbn; rewrite !elem_of_cons.
    + intros [?|[?|?]]; [by left|left; congruence|by right].
    + intros [?|[?|?]]; [right; apply IH; by left|by left|right; apply IH; by right].
Qed.

Section left.
Context `{SJ : SerdeJson, HO : HashOrder} (windows : bool).
Context (rollups : gmap string ShardRollup) (targets : list (string * ShardRollup)) (orphaned : CacheShardInfo → bool)
        (read_dir : string → option (list (string * Node))).
Context (remove_shard_database : string → option string) (remove_dir_all : string → option (ErrorKind * string))
        (scrubbed_by : Reclaim → nat) (fs_symlink_metadata : string → option ErrorKind).
Local Notation the_remove_one := (remove_shard_by_id remove_shard_database remove_dir_all).
Local Notation the_remove := (remove_shards remove_shard_database remove_dir_all).
Local Notation the_remove_all := (remove_all rollups read_dir remove_shard_database remove_dir_all).
Local Notation the_remove_scope := (remove_scope windows rollups orphaned read_dir remove_shard_database remove_dir_all scrubbed_by).
Local Notation the_remove_cache := (remove_cache windows rollups orphaned read_dir remove_shard_database remove_dir_all scrubbed_by fs_symlink_metadata).

(** What a removal does not touch. *)
Record beside (d d' : DaemonCaches) : Prop := {
  bs_paths : dependency_paths d' = dependency_paths d;
  bs_sizes : file_size_cache d' = file_size_cache d;
  bs_generation : generation_now d' = generation_now d;
}.
(** The shards of [ids] are let go and their caches cleared; the others stay. *)
Record removes (ids : list string) (d d' : DaemonCaches) : Prop := {
  rm_gone : ∀ id, id ∈ ids → loaded (cache_registry d') !! id = None;
  rm_kept : ∀ id, id ∉ ids → loaded (cache_registry d') !! id = loaded (cache_registry d) !! id;
  rm_cleared : ∀ id s, id ∈ ids → loaded (cache_registry d) !! id = Some s → lp_cache s ∈ cleared_caches d';
  rm_before : ∀ c, c ∈ cleared_caches d → c ∈ cleared_caches d';
}.

Lemma remove_one_spec id d result d' :
  the_remove_one id d = (result, d') → co_shard_id result = id ∧ beside d d' ∧ removes [id] d d'.
Proof.
  unfold remove_shard_by_id. set (c1 := bool_decide (_ = None) && _). set (c2 := bool_decide (_ = "")).
  set (d1 := {| cache_registry := set_loaded _ _ |}).
  assert (beside d d1 ∧ removes [id] d d1) as [Hb Hr].
  { split; [done|]. split; cbn.
    - intros i ->%list_elem_of_singleton. apply lookup_delete_eq.
    - intros i Hi. rewrite lookup_delete_ne; [done|]. intros ->. apply Hi. by apply list_elem_of_singleton.
    - intros i s ->%list_elem_of_singleton Hs. rewrite Hs. apply elem_of_app. right. by left.
    - intros c Hc. apply elem_of_app. by left. }
  destruct c1; [by intros [= <- <-]|]. destruct c2; [by intros [= <- <-]|].
  destruct (remove_shard_database _); [by intros [= <- <-]|].
  destruct (remove_dir_all _) as [[[] e]|]; intros [= <- <-]; try done; split; try done; (split; [by destruct Hb|]); by destruct Hr.
Qed.

Lemma remove_shards_spec ids : ∀ d results d',
  the_remove ids d = (results, d') → co_shard_id <$> results = ids ∧ beside d d' ∧ removes ids d d'.
Proof.
  induction ids as [|id ids IH]; intros d results d'; cbn.
  - intros [= <- <-]. split; [done|]. split; [done|]. split; [by intros id ?%not_elem_of_nil|done|by intros id s ?%not_elem_of_nil|done].
  - destruct (the_remove_one id d) as [result d1] eqn:H1. destruct (the_remove ids d1) as [rest d2] eqn:H2.
    intros [= <- <-]. apply remove_one_spec in H1 as (Hid & [B1 B2 B3] & [R1 R2 R3 R4]).
    apply IH in H2 as (Hids & [C1 C2 C3] & [Q1 Q2 Q3 Q4]). split; [cbn; congruence|]. split; [split; congruence|]. split.
    + intros i Hi. destruct (decide (i ∈ ids)) as [|Hn]; [by apply Q1|]. apply elem_of_cons in Hi as [->|Hi]; [|done].
      rewrite Q2 by done. apply R1. by left.
    + intros i Hi. apply not_elem_of_cons in Hi as [Hne Hi]. rewrite Q2 by done. apply R2.
      by rewrite list_elem_of_singleton.
    + intros i s Hi Hs. destruct (decide (i = id)) as [->|Hne].
      * apply Q4. eapply R3; [by left|done].
      * apply elem_of_cons in Hi as [->|Hi]; [done|]. eapply Q3; [done|]. rewrite R2; [done|]. by rewrite list_elem_of_singleton.
    + intros c Hc. apply Q4, R4, Hc.
Qed.

Lemma loaded_are_listed d id s : loaded (cache_registry d) !! id = Some s →
  id ∈ remove_all_ids read_dir (disk_at d) rollups (cache_registry d).
Proof.
  intros Hs. unfold remove_all_ids. rewrite elem_of_dedup, elem_of_sort. unfold list_shards_with_rollups.
  apply (elem_of_Permutation_proper _ (i_shard_id <$> (stamp rollups <$> merged_shards read_dir (disk_at d) (cache_registry d)))).
  { apply fmap_Permutation. symmetry. apply merge_sort_Permutation. }
  rewrite <- list_fmap_compose. rewrite (list_fmap_ext _ i_shard_id) by (intros; apply stamp_id).
  unfold merged_shards. apply elem_of_hash_iter in Hs. revert Hs.
  assert (∀ l shards, (id, s) ∈ l ∨ id ∈ i_shard_id <$> shards →
    id ∈ i_shard_id <$> foldl (λ shards '(id, s), overwrite (info_for_loaded (disk_at d) id s) shards) shards l) as H.
  { induction l as [|[i x] l IH]; intros shards; cbn; [by intros [?%not_elem_of_nil|]|].
    rewrite elem_of_cons. intros [[Heq|Hin]|Hin]; apply IH.
    - injection Heq as <- <-. right. apply overwrite_ids. by left.
    - by left.
    - right. apply overwrite_ids. by right. }
  intros Hs. apply H. by left.
Qed.

(** What a handled removal returns, over the shards it reached. *)
Lemma removes_mono ids d d1 d2 :
  removes ids d d1 → cache_registry d2 = cache_registry d1 → cleared_caches d2 = cleared_caches d1 → removes ids d d2.
Proof. intros [R1 R2 R3 R4] Hr Hc. split; rewrite ?Hr, ?Hc; eauto. Qed.
Lemma removes_from ids d0 d d1 :
  removes ids d0 d1 → cache_registry d = cache_registry d0 → cleared_caches d = cleared_caches d0 → removes ids d d1.
Proof. intros [R1 R2 R3 R4] Hr Hc. split; rewrite ?Hr, ?Hc; eauto. Qed.
Lemma removes_nothing d d' :
  cache_registry d' = cache_registry d → cleared_caches d' = cleared_caches d → removes [] d d'.
Proof.
  intros Hr Hc. split; rewrite ?Hr, ?Hc; [by intros id ?%not_elem_of_nil|done|by intros id s ?%not_elem_of_nil|done].
Qed.

Lemma remove_scope_spec io now_ms request d results scrubbed purged d1 :
  the_remove_scope io now_ms request d = Some (results, scrubbed, purged, d1) →
  removes (co_shard_id <$> results) d d1 ∧ beside d d1 ∧
  (cx_scope request = Registry → results = []) ∧
  (cx_scope request = All → ∀ id s, loaded (cache_registry d) !! id = Some s → id ∈ co_shard_id <$> results).
Proof.
  unfold remove_scope. destruct (cx_scope request) eqn:Hs; intros H.
  - unfold mbind, option_bind, remove_current_project in H. destruct (cx_workspace_root request) as [root|]; [|done].
    destruct (remove_shards _ _ _ d) as [rs d2] eqn:Hd. injection H as <- <- <- <-.
    apply remove_shards_spec in Hd as (-> & Hb & Hr). by split_and!.
  - unfold remove_selected in H. destruct (remove_shards _ _ _ d) as [rs d2] eqn:Hd. injection H as <- <- <- <-.
    apply remove_shards_spec in Hd as (-> & Hb & Hr). by split_and!.
  - unfold remove_all in H. destruct (remove_shards _ _ _ d) as [rs d2] eqn:Hd. injection H as <- <- <- <-.
    apply remove_shards_spec in Hd as (-> & [B1 B2 B3] & Hr). split_and!; [by apply (removes_mono _ d d2)|by split|done|].
    intros _ id s. apply loaded_are_listed.
  - destruct (purge_expired_metadata _ _ _) as [n hints]. unfold purge_orphaned_shards in H.
    destruct (remove_shards _ _ _ _) as [rs d2] eqn:Hd. injection H as <- <- <- <-.
    apply remove_shards_spec in Hd as (-> & [B1 B2 B3] & Hr).
    split_and!; [by apply (removes_from _ (set_hints hints d))|by split|done|done].
  - injection H as <- <- <- <-. split_and!; [by apply removes_nothing|by split|done|done].
Qed.

Lemma settle_derived_spec scope some d :
  let d' := settle_derived fs_symlink_metadata scope some d in
  cache_registry d' = cache_registry d ∧ cleared_caches d' = cleared_caches d ∧ generation_now d' = generation_now d ∧
  (scope = All ∨ some = true → DependencyPaths.sets (dependency_paths d') = ∅ ∧ file_size_cache d' = ∅) ∧
  (scope ≠ All → scope ≠ Orphans → some = false → dependency_paths d' = dependency_paths d ∧ file_size_cache d' = file_size_cache d).
Proof. destruct scope, some; cbn; split_and!; try done; intros [?|?]; done. Qed.
Lemma partition_ids (results : list CacheOperationResult) :
  co_shard_id <$> results ≡ₚ
  co_shard_id <$> filter (λ r, co_removed r = true) results ++ filter (λ r, co_removed r = false) results.
Proof.
  apply fmap_Permutation. induction results as [|r results IH]; [done|]. rewrite !filter_cons.
  destruct (co_removed r); cbn; [by constructor|]. etransitivity; [by constructor|]. apply Permutation_middle.
Qed.
Lemma removes_perm ids ids' d d' : ids ≡ₚ ids' → removes ids d d' → removes ids' d d'.
Proof.
  intros Hp. assert (∀ id, id ∈ ids ↔ id ∈ ids') as He by (intros id; by rewrite Hp).
  intros [R1 R2 R3 R4]. split; [intros id Hi; apply R1|intros id Hi; apply R2|intros id s Hi; apply R3|exact R4]; by rewrite He.
Qed.

(** C21. A cache removal that is handled names every shard it reached exactly
    once, as removed or as failed; each of them is let go and its cache cleared,
    the others stay, and a removal of everything leaves no shard loaded. The
    generation moves on, so that no analysis already running stores a fresh
    row, and the derived caches are emptied when everything or some shard went.
    A refused removal changes nothing. *)
Theorem removals_settle io now_ms request d response d' :
  the_remove_cache io now_ms request d = (response, d') →
  match cd_error response with
  | Some _ => d' = d ∧ cd_removed response = [] ∧ cd_failed response = []
  | None =>
      Forall (λ r, co_removed r = true) (cd_removed response) ∧ Forall (λ r, co_removed r = false) (cd_failed response) ∧
      removes (co_shard_id <$> cd_removed response ++ cd_failed response) d d' ∧
      generation_now d' = wrap_add (generation_now d) 1 ∧
      (cx_scope request = All → loaded (cache_registry d') = ∅) ∧
      (cx_scope request = Registry → cache_registry d' = cache_registry d) ∧
      (cx_scope request = All ∨ cd_removed response ≠ [] →
        DependencyPaths.sets (dependency_paths d') = ∅ ∧ file_size_cache d' = ∅) ∧
      (cx_scope request ≠ All → cx_scope request ≠ Orphans → cd_removed response = [] →
        dependency_paths d' = dependency_paths d ∧ file_size_cache d' = file_size_cache d)
  end.
Proof.
  unfold remove_cache. destruct (negb _); [by intros [= <- <-]|].
  destruct (the_remove_scope io now_ms request d) as [[[[results scrubbed] purged] d1]|] eqn:Hs; [|by intros [= <- <-]].
  intros [= <- <-]. unfold cd_error, cd_removed, cd_failed.
  pose proof (remove_scope_spec _ _ _ _ _ _ _ _ Hs) as (Hr & [B1 B2 B3] & Hreg & Hall).
  pose proof (settle_derived_spec (cx_scope request)
                (negb (bool_decide (filter (λ r, co_removed r = true) results = []))) d1) as (S1 & S2 & S3 & S4 & S5).
  set (d2 := settle_derived _ _ _ d1) in *.
  assert (removes (co_shard_id <$> results) d (bump_generation d2)) as Hr2 by (by apply (removes_mono _ d d1)).
  split_and!.
  - apply Forall_forall. by intros r [? _]%list_elem_of_filter.
  - apply Forall_forall. by intros r [? _]%list_elem_of_filter.
  - eapply removes_perm; [apply partition_ids|done].
  - cbn. congruence.
  - intros Heq. apply map_empty. intros id. destruct (decide (id ∈ co_shard_id <$> results)) as [Hi|Hi].
    + by apply Hr2.
    + rewrite (rm_kept _ _ _ Hr2 id Hi). destruct (loaded (cache_registry d) !! id) eqn:Hl; [|done].
      by destruct Hi; eapply Hall.
  - intros Heq. cbn. rewrite S1. unfold remove_scope in Hs. rewrite Heq in Hs. by injection Hs as <- <- <- <-.
  - intros H. apply S4. destruct H as [H|H]; [by left|right]. by rewrite bool_decide_eq_false_2.
  - intros H1 H2 H3. cbn. rewrite <- B1, <- B2. apply S5; [done..|]. by rewrite bool_decide_eq_true_2.
Qed.
End left.

(** One loaded shard is cleared with everything else; the shard that only the
    disk holds resists. *)
Definition daemon_x : DaemonCaches (H := plain_json) :=
  {| cache_registry := registry_x; disk_at := λ _, None; cleared_caches := []; registry_hints := hints;
     dependency_paths := DependencyPaths.new_index; file_size_cache := ∅; resolver_sets := 0; generation_now := 4 |}.
Definition clear_everything : CacheRemoveRequest :=
  {| cx_version := PROTOCOL_VERSION; cx_request_id := 9; cx_scope := All; cx_workspace_root := None; cx_shard_ids := None |}.
Definition cleared_x : CacheRemoveResponse * DaemonCaches (H := plain_json) :=
  remove_cache (HO := key_order) false ∅ (λ _, false) base_dir (λ _, None) (λ _, None) (λ _, 0) (λ _, None) all_well 5000
    clear_everything daemon_x.
Lemma removals_settle_witness :
  (co_shard_id <$> cd_removed cleared_x.1, co_shard_id <$> cd_failed cleared_x.1) = (["x"], ["y"]) ∧
  loaded (cache_registry cleared_x.2) = ∅ ∧ generation_now cleared_x.2 = 5%N.
Proof.
  assert (cd_error cleared_x.1 = None) as He by (vm_compute; reflexivity).
  split; [vm_compute; reflexivity|].
  pose proof (removals_settle (HO := key_order) false ∅ (λ _, false) base_dir (λ _, None) (λ _, None) (λ _, 0) (λ _, None)
                all_well 5000 clear_everything daemon_x cleared_x.1 cleared_x.2 (surjective_pairing _)) as H.
  rewrite He in H. destruct H as (_ & _ & _ & Hg & Hl & _). split; [exact (Hl eq_refl)|].
  rewrite Hg. reflexivity.
Defined.
