(* ===== verification/AtomicWrite.v ===== *)
(** * Whole-file replacement (atomic_write.rs)

    Writers of several processes over one file system, step by step: create the
    temp file, write it, flush it, rename it over the target. A process may die
    and the power may go between any two steps; what was not flushed is then
    lost. A directory entry names an inode and an open file writes to its inode,
    so a temp file that two writers shared would mix. *)
From stdpp Require Import base list strings pretty.
From S2P Require Import Prelude ProjectRegistry Paths.

Set Default Proof Using "Type*".

(** ** State *)

(** Where a call stands: the path of its temp file, and the inode it opened. *)
Inductive WriteStage :=
  | Creating
  | Writing (inode : N) (written : nat)
  | Syncing (inode : N)
  | Renaming (inode : N)
  | Removing
  | Returned (ok : bool)
  | Killed.
Record Writer := {
  w_pid : N;
  w_path : string;
  w_bytes : list ascii;
  w_temp : string;
  w_seq : N;
  w_stage : WriteStage;
}.
(** The directory entries by path, the inodes' bytes and whether they are
    flushed, the next inode, each process's [TEMP_SEQUENCE], and the calls. *)
Record Storage := {
  entry_of : list PathComponent → option N;
  bytes_of : N → list ascii;
  flushed : N → bool;
  next_inode : N;
  TEMP_SEQUENCE : N → N;
  writers : list Writer;
}.

Definition file_at (s : Storage) (path : string) : option (list ascii) := bytes_of s <$> entry_of s (components path).

(** ** The file system *)

Definition update {A B} `{EqDecision A} (f : A → B) (a : A) (b : B) : A → B := λ x, if decide (x = a) then b else f x.
Definition on_disk (entry : list PathComponent → option N) (bytes : N → list ascii) (clean : N → bool) (next : N)
    (s : Storage) : Storage :=
  {| entry_of := entry; bytes_of := bytes; flushed := clean; next_inode := next; TEMP_SEQUENCE := TEMP_SEQUENCE s;
     writers := writers s |}.
(** [File::create]: an existing file is truncated, its inode kept. *)
Definition create (path : string) (s : Storage) : N * Storage :=
  match entry_of s (components path) with
  | Some inode => (inode, on_disk (entry_of s) (update (bytes_of s) inode []) (update (flushed s) inode false) (next_inode s) s)
  | None =>
      let inode := next_inode s in
      (inode, on_disk (update (entry_of s) (components path) (Some inode)) (update (bytes_of s) inode [])
                (update (flushed s) inode false) (inode + 1)%N s)
  end.
(** One [write]: the bytes land at the file's offset. *)
Definition write_at (inode : N) (offset : nat) (chunk : list ascii) (s : Storage) : Storage :=
  let old := bytes_of s inode in
  on_disk (entry_of s)
    (update (bytes_of s) inode (take offset old ++ chunk ++ drop (offset + length chunk) old))
    (update (flushed s) inode false) (next_inode s) s.
Definition sync_all (inode : N) (s : Storage) : Storage :=
  on_disk (entry_of s) (bytes_of s) (update (flushed s) inode true) (next_inode s) s.
(** [fs::rename]: an atomic replace; [None] where the source is not there. *)
Definition rename (from to : string) (s : Storage) : option Storage :=
  inode ← entry_of s (components from);
  Some (on_disk (update (update (entry_of s) (components from) None) (components to) (Some inode))
          (bytes_of s) (flushed s) (next_inode s) s).
Definition remove_file (path : string) (s : Storage) : Storage :=
  on_disk (update (entry_of s) (components path) None) (bytes_of s) (flushed s) (next_inode s) s.

(** ** One call *)

Definition temp_name (file_name : list ascii) (pid seq : N) : list ascii :=
  file_name ++ to_bytes ("." +:+ pretty pid +:+ "." +:+ pretty seq +:+ ".tmp").
Definition temp_path_of (path : string) (file_name : list ascii) (pid seq : N) : string :=
  with_file_name path (of_bytes (temp_name file_name pid seq)).

Definition with_writers (l : list Writer) (s : Storage) : Storage :=
  {| entry_of := entry_of s; bytes_of := bytes_of s; flushed := flushed s; next_inode := next_inode s;
     TEMP_SEQUENCE := TEMP_SEQUENCE s; writers := l |}.
(** A call up to its temp path; a path without a file name fails at once. *)
Definition begin_write (pid : N) (path : string) (bytes : list ascii) (s : Storage) : Storage :=
  let call temp seq stage := {| w_pid := pid; w_path := path; w_bytes := bytes; w_temp := temp; w_seq := seq; w_stage := stage |} in
  match path_file_name path with
  | None => with_writers (writers s ++ [call "" 0%N (Returned false)]) s
  | Some file_name =>
      let seq := TEMP_SEQUENCE s pid in
      {| entry_of := entry_of s; bytes_of := bytes_of s; flushed := flushed s; next_inode := next_inode s;
         TEMP_SEQUENCE := update (TEMP_SEQUENCE s) pid (wrap_add seq 1);
         writers := writers s ++ [call (temp_path_of path file_name pid seq) seq Creating] |}
  end.

(** What the operating system answers a step: it did it, a [write] took so many
    bytes, or it failed. *)
Inductive Answer := Did | Took (count : nat) | Failed.
Definition at_stage (w : Writer) (stage : WriteStage) : Writer :=
  {| w_pid := w_pid w; w_path := w_path w; w_bytes := w_bytes w; w_temp := w_temp w; w_seq := w_seq w; w_stage := stage |}.
(** The next step of [write_durably], the rename, or the clean-up. *)
Definition advance (w : Writer) (answer : Answer) (s : Storage) : option (WriteStage * Storage) :=
  match w_stage w, answer with
  | Creating, Did => let '(inode, s) := create (w_temp w) s in Some (Writing inode 0, s)
  | Creating, Failed => Some (Removing, s)
  | Writing inode written, Took count =>
      if (0 <? count) && (written + count <=? length (w_bytes w))
      then Some (Writing inode (written + count),
                 write_at inode written (take count (drop written (w_bytes w))) s)
      else None
  | Writing inode written, Did => if written =? length (w_bytes w) then Some (Syncing inode, s) else None
  | Writing _ _, Failed => Some (Removing, s)
  | Syncing inode, Did => Some (Renaming inode, sync_all inode s)
  | Syncing _, Failed => Some (Removing, s)
  | Renaming _, Did =>
      match rename (w_temp w) (w_path w) s with Some s => Some (Returned true, s) | None => Some (Removing, s) end
  | Renaming _, Failed => Some (Removing, s)
  | Removing, Did => Some (Returned false, remove_file (w_temp w) s)
  | Removing, Failed => Some (Returned false, s)
  | _, _ => None
  end.

(** ** Histories *)

Inductive Event :=
  | Begin (pid : N) (path : string) (bytes : list ascii)
  | Advance (call : nat) (answer : Answer)
  | Dies (pid : N)
  | PowerLoss (leaves : N → list ascii).
Definition happen (e : Event) (s : Storage) : option Storage :=
  match e with
  | Begin pid path bytes => Some (begin_write pid path bytes s)
  | Advance i answer =>
      w ← writers s !! i;
      '(stage, s) ← advance w answer s;
      Some (with_writers (<[i := at_stage w stage]> (writers s)) s)
  | Dies pid =>
      Some {| entry_of := entry_of s; bytes_of := bytes_of s; flushed := flushed s; next_inode := next_inode s;
              TEMP_SEQUENCE := update (TEMP_SEQUENCE s) pid 0%N; writers := (λ w, if decide (w_pid w = pid) then at_stage w Killed else w) <$> writers s |}
  | PowerLoss leaves =>
      Some {| entry_of := entry_of s; bytes_of := λ i, if flushed s i then bytes_of s i else leaves i; flushed := λ _, true;
              next_inode := next_inode s; TEMP_SEQUENCE := λ _, 0%N; writers := (λ w, at_stage w Killed) <$> writers s |}
  end.
Fixpoint history (es : list Event) (s : Storage) : option Storage :=
  match es with [] => Some s | e :: es => happen e s ≫= history es end.

(** ** Temp paths *)

(** The paths that temp files are at. *)
Definition is_temp (cs : list PathComponent) : bool :=
  match last cs with Some (Normal name) => starts_with (reverse (to_bytes ".tmp")) (reverse name) | _ => false end.
Definition dotted : list ascii := to_bytes ".".

Lemma pretty_go_no_char c x s :
  (∀ d, (d < 10)%N → pretty_N_char d ≠ c) → c ∉ to_bytes s → c ∉ to_bytes (pretty_N_go x s).
Proof.
  intros Hc. revert s. induction (N.lt_wf_0 x) as [x _ IH]; intros s Hs.
  destruct (decide (x = 0)%N) as [->|Hx]; [by rewrite pretty_N_go_0|].
  rewrite pretty_N_go_step by lia. apply IH; [apply N.div_lt; lia|].
  change (c ∉ pretty_N_char (x mod 10) :: to_bytes s). apply not_elem_of_cons. split; [|done].
  intros ->. by eapply Hc; [apply N.mod_lt|].
Qed.
Lemma pretty_no_char c (x : N) : (∀ d, (d < 10)%N → pretty_N_char d ≠ c) → c ∉ to_bytes (pretty x).
Proof.
  intros Hc. unfold pretty, pretty_N. case_decide.
  - change (c ∉ ["0"%char]). rewrite list_elem_of_singleton. intros ->. by apply (Hc 0%N).
  - apply pretty_go_no_char; [done|]. by intros ?%elem_of_nil.
Qed.
Lemma digit_is c : c = slash ∨ c = "."%char → ∀ d, (d < 10)%N → pretty_N_char d ≠ c.
Proof.
  intros Hc d Hd. assert (d ∈ [0; 1; 2; 3; 4; 5; 6; 7; 8; 9]%N) as H by (rewrite !elem_of_cons; lia).
  rewrite !elem_of_cons, elem_of_nil in H. by destruct Hc as [-> | ->]; destruct_or? H; subst.
Qed.

Lemma temp_name_bytes name pid seq :
  temp_name name pid seq = name ++ "."%char :: to_bytes (pretty pid) ++ "."%char :: to_bytes (pretty seq) ++ to_bytes ".tmp".
Proof. unfold temp_name. by rewrite !to_bytes_app. Qed.
Lemma split_last_dot (a b x y : list ascii) :
  "."%char ∉ x → "."%char ∉ y → a ++ "."%char :: x = b ++ "."%char :: y → a = b ∧ x = y.
Proof.
  intros Hx Hy H. apply (f_equal reverse) in H. rewrite !reverse_app, !reverse_cons, <- !(assoc_L (++)) in H. cbn in H.
  enough (reverse x = reverse y) as He.
  { rewrite He in H. apply app_inv_head in H. injection H as H. split; by apply (inj reverse). }
  revert H. assert ("."%char ∉ reverse x) as Hx' by (by rewrite elem_of_reverse).
  assert ("."%char ∉ reverse y) as Hy' by (by rewrite elem_of_reverse). revert Hx' Hy'.
  generalize (reverse x) as u, (reverse y) as v. clear. induction u as [|c u IH]; intros [|d v] Hu Hv; cbn.
  - done.
  - intros [= <- _]. by destruct Hv; left.
  - intros [= -> _]. by destruct Hu; left.
  - intros [= -> H]. rewrite not_elem_of_cons in Hu, Hv. f_equal. by apply IH; [apply Hu|apply Hv|].
Qed.
Lemma temp_name_inj name pid seq name' pid' seq' :
  temp_name name pid seq = temp_name name' pid' seq' → name = name' ∧ pid = pid' ∧ seq = seq'.
Proof.
  rewrite !temp_name_bytes. intros H.
  assert (∀ n p s, n ++ "."%char :: to_bytes (pretty p) ++ "."%char :: to_bytes (pretty s) ++ to_bytes ".tmp" =
                   ((n ++ "."%char :: to_bytes (pretty (p : N))) ++ "."%char :: to_bytes (pretty (s : N))) ++ to_bytes ".tmp") as Hr.
  { intros n p s. by rewrite <- !(assoc_L (++)). }
  rewrite !Hr in H. apply app_inv_tail in H.
  apply split_last_dot in H as [H Hs]; [|apply pretty_no_char, digit_is; by right..].
  apply split_last_dot in H as [H Hp]; [|apply pretty_no_char, digit_is; by right..].
  apply (inj to_bytes) in Hs. apply (inj to_bytes) in Hp. by apply (inj pretty) in Hs, Hp.
Qed.
Lemma temp_name_plain name pid seq : plain name → plain (temp_name name pid seq).
Proof.
  intros (H1 & H2 & H3 & H4). rewrite temp_name_bytes.
  assert (4 < length (name ++ "."%char :: to_bytes (pretty pid) ++ "."%char :: to_bytes (pretty seq) ++ to_bytes ".tmp")) as Hl.
  { rewrite length_app. cbn. rewrite !length_app. cbn. rewrite length_app. cbn. lia. }
  split_and!; [intros He; rewrite He in Hl; cbn in Hl; lia..|].
  rewrite elem_of_app, elem_of_cons, elem_of_app, elem_of_cons, elem_of_app.
  intros [?|[?|[H|[?|[H|H]]]]]; try done; [by eapply (pretty_no_char slash), H; apply digit_is; left..|].
  by vm_compute in H; set_solver.
Qed.

Section temp_paths.
Context (path : string) (name : list ascii) (named : path_file_name path = Some name).

Lemma temp_components pid seq :
  ∃ up, components path = up ++ [Normal name] ∧ components (temp_path_of path name pid seq) = up ++ [Normal (temp_name name pid seq)].
Proof.
  destruct (file_name_parent _ _ named) as (_ & _ & _ & Hp). by apply with_file_name_components, temp_name_plain.
Qed.
Lemma temp_is_temp pid seq : is_temp (components (temp_path_of path name pid seq)) = true.
Proof.
  destruct (temp_components pid seq) as (up & _ & ->). unfold is_temp. rewrite last_snoc. unfold temp_name.
  rewrite !to_bytes_app, !(assoc_L (++)), reverse_app. unfold starts_with. by rewrite strip_prefix_app.
Qed.
End temp_paths.
Lemma temp_path_inj path name pid seq path' name' pid' seq' :
  path_file_name path = Some name → path_file_name path' = Some name' →
  components (temp_path_of path name pid seq) = components (temp_path_of path' name' pid' seq') → pid = pid' ∧ seq = seq'.
Proof.
  intros Hn Hn' H. destruct (temp_components _ _ Hn pid seq) as (up & _ & He).
  destruct (temp_components _ _ Hn' pid' seq') as (up' & _ & He'). rewrite He, He' in H.
  apply app_inj_tail in H as [_ [= H]]. by apply temp_name_inj in H as (_ & -> & ->).
Qed.

(** ** The invariant *)

(** No two entries name one inode, and what an ordinary path names is flushed. *)
Record disk_ok (s : Storage) : Prop := {
  dk_single : ∀ p q i, entry_of s p = Some i → entry_of s q = Some i → p = q;
  dk_below : ∀ p i, entry_of s p = Some i → (i < next_inode s)%N;
  dk_flushed : ∀ p i, is_temp p = false → entry_of s p = Some i → flushed s i = true;
}.
(** What a call still running has made of its temp file. *)
Definition progress (s : Storage) (w : Writer) (stage : WriteStage) : Prop :=
  match stage with
  | Writing i n => entry_of s (components (w_temp w)) = Some i ∧ bytes_of s i = take n (w_bytes w)
  | Syncing i => entry_of s (components (w_temp w)) = Some i ∧ bytes_of s i = w_bytes w
  | Renaming i => entry_of s (components (w_temp w)) = Some i ∧ bytes_of s i = w_bytes w ∧ flushed s i = true
  | _ => True
  end.
Definition running (w : Writer) : Prop := match w_stage w with Returned _ | Killed => False | _ => True end.
Record call_ok (s : Storage) (w : Writer) : Prop := {
  ck_temp : ∃ name, path_file_name (w_path w) = Some name ∧ w_temp w = temp_path_of (w_path w) name (w_pid w) (w_seq w);
  ck_ordinary : is_temp (components (w_path w)) = false;
  ck_seq : (w_seq w < TEMP_SEQUENCE s (w_pid w))%N;
  ck_progress : progress s w (w_stage w);
}.
Record calls_ok (s : Storage) : Prop := {
  cs_call : ∀ k w, writers s !! k = Some w → running w → call_ok s w;
  cs_apart : ∀ k k' w w', writers s !! k = Some w → writers s !! k' = Some w' → running w → running w' →
    w_pid w = w_pid w' → w_seq w = w_seq w' → k = k';
}.

(** A step of one call: it touches its own temp file and nothing else, and an
    ordinary path only by the rename. *)
Record confined (w : Writer) (s s' : Storage) : Prop := {
  cf_temp : ∀ p, is_temp p = true → p ≠ components (w_temp w) → entry_of s' p = entry_of s p;
  cf_inode : ∀ i, (i < next_inode s)%N → entry_of s (components (w_temp w)) ≠ Some i →
    bytes_of s' i = bytes_of s i ∧ flushed s' i = flushed s i;
  cf_own : ∀ i, entry_of s' (components (w_temp w)) = Some i →
    entry_of s (components (w_temp w)) = Some i ∨ (next_inode s <= i)%N;
  cf_next : (next_inode s <= next_inode s')%N;
  cf_same : writers s' = writers s ∧ TEMP_SEQUENCE s' = TEMP_SEQUENCE s;
  cf_ordinary : ∀ p, is_temp p = false → entry_of s' p = entry_of s p ∨
    p = components (w_path w) ∧ entry_of s' p = entry_of s (components (w_temp w)) ∧
    ∃ i, entry_of s' p = Some i ∧ bytes_of s' i = w_bytes w ∧ bytes_of s' i = bytes_of s i;
}.

Lemma update_eq {A B} `{EqDecision A} (f : A → B) a b : update f a b a = b.
Proof. unfold update. by rewrite decide_True. Qed.
Lemma update_ne {A B} `{EqDecision A} (f : A → B) a a' b : a' ≠ a → update f a b a' = f a'.
Proof. intros. unfold update. by rewrite decide_False. Qed.

Section advance.
Context (w : Writer) (s : Storage) (disk : disk_ok s) (runs : running w) (ok : call_ok s w).
Local Notation temp := (components (w_temp w)).

Lemma own_temp : is_temp temp = true.
Proof using ok. destruct (ck_temp _ _ ok) as (name & Hn & ->). by apply temp_is_temp. Qed.
Lemma target_is_not_temp : components (w_path w) ≠ temp.
Proof. intros He. pose proof own_temp as H. rewrite <- He, (ck_ordinary _ _ ok) in H. done. Qed.

(** The entries stay: only the inode behind the temp file changes. *)
Lemma confined_inode i bytes clean :
  entry_of s temp = Some i → (∀ j, j ≠ i → bytes j = bytes_of s j ∧ clean j = flushed s j) →
  let s' := on_disk (entry_of s) bytes clean (next_inode s) s in disk_ok s' ∧ confined w s s'.
Proof.
  intros Hi Hj. destruct disk as [D1 D2 D3]. split.
  - split; [exact D1|exact D2|]. intros p j Hp Hpj. cbn in *. destruct (Hj j) as [_ ->]; [|by eapply D3].
    intros ->. rewrite (D1 _ _ _ Hpj Hi) in Hp. by rewrite own_temp in Hp.
  - split; try done; cbn; [|by left|by left]. intros j _ Hne. apply Hj. by intros ->.
Qed.
Lemma confined_same : confined w s s.
Proof. split; try done; by left. Qed.

Lemma create_ok : let '(i, s') := create (w_temp w) s in
  disk_ok s' ∧ confined w s s' ∧ entry_of s' temp = Some i ∧ bytes_of s' i = [].
Proof.
  unfold create. destruct (entry_of s temp) as [i|] eqn:Hi.
  - pose proof (confined_inode i (update (bytes_of s) i []) (update (flushed s) i false) Hi) as H.
    destruct H as [Hd Hc]; [intros j Hj; by rewrite !update_ne|]. cbn. by rewrite update_eq.
  - cbn. rewrite !update_eq. destruct disk as [D1 D2 D3]. split; [|split; [|done]].
    + split; cbn; unfold update.
      * intros p q j. repeat case_decide; subst; try done; [intros [= <-] Hq|intros Hp [= <-]|by apply D1];
          [apply D2 in Hq|apply D2 in Hp]; lia.
      * intros p j. case_decide; [intros [= <-]|intros Hd%D2]; lia.
      * intros p j Hp. case_decide; [subst; by rewrite own_temp in Hp|]. intros Hj.
        rewrite decide_False by (intros ->; apply D2 in Hj; lia). by eapply D3.
    + split; cbn; try done; [| | |lia|].
      * intros p _ Hp. by apply update_ne.
      * intros j Hj _. rewrite !update_ne by lia. done.
      * intros j. rewrite update_eq. intros [= <-]. by right.
      * intros p Hp. left. apply update_ne. intros ->. by rewrite own_temp in Hp.
Qed.
Lemma remove_ok : disk_ok (remove_file (w_temp w) s) ∧ confined w s (remove_file (w_temp w) s).
Proof.
  destruct disk as [D1 D2 D3]. split.
  - split; cbn; unfold update; [intros p q i|intros p i|intros p i Hp]; repeat case_decide; try done; eauto.
  - split; cbn; try done; [by intros p _ Hp; apply update_ne|by intros i; rewrite update_eq|].
    intros p Hp. left. apply update_ne. intros ->. by rewrite own_temp in Hp.
Qed.
Lemma rename_ok i s' :
  w_stage w = Renaming i → rename (w_temp w) (w_path w) s = Some s' → disk_ok s' ∧ confined w s s'.
Proof.
  intros Hw. pose proof (ck_progress _ _ ok) as Hp. rewrite Hw in Hp. destruct Hp as (Hi & Hb & Hf).
  unfold rename. rewrite Hi. cbn. intros [= <-]. destruct disk as [D1 D2 D3]. pose proof target_is_not_temp as Hne.
  split; split; cbn; unfold update; try done.
  - intros p q j. repeat case_decide; subst; try done; try congruence; [intros [= <-] Hq|intros Hq [= <-]|eauto];
      by destruct (D1 _ _ _ Hq Hi).
  - intros p j. repeat case_decide; try done; [intros [= <-]|]; eauto.
  - intros p j Hp. repeat case_decide; try done; [by intros [= <-]|eauto].
  - intros p Hp Hpt. rewrite !decide_False; [done|done|]. intros ->. by rewrite (ck_ordinary _ _ ok) in Hp.
  - intros j. by rewrite decide_False, decide_True.
  - intros p Hp. case_decide; [right|left; rewrite decide_False; [done|intros ->; by rewrite own_temp in Hp]].
    split; [done|]. split; [done|]. by exists i.
Qed.

Lemma advance_ok answer stage s' :
  advance w answer s = Some (stage, s') →
  disk_ok s' ∧ confined w s s' ∧ progress s' w stage ∧
  (stage = Returned true → file_at s' (w_path w) = Some (w_bytes w)).
Proof.
  pose proof (ck_progress _ _ ok) as Hp. pose proof runs as Hr0. unfold running in Hr0. unfold advance. intros H.
  destruct (w_stage w) as [|i n|i|i| | |] eqn:Hw; [| | | | |done..].
  - destruct answer; [|done|by injection H as <- <-; split_and!; [|apply confined_same| |]].
    pose proof create_ok as Hc. destruct (create _ s) as [j t]. injection H as <- <-.
    destruct Hc as (? & ? & ? & ?). by split_and!.
  - destruct Hp as [Hi Hb]. destruct answer as [|count|]; [| |by injection H as <- <-; split_and!; [|apply confined_same| |]].
    + destruct (n =? _) eqn:Hn; [|done]. apply Nat.eqb_eq in Hn. injection H as <- <-.
      split; [done|]. split; [apply confined_same|]. split; [|done]. split; [done|]. by rewrite Hb, Hn, firstn_all.
    + destruct (_ && _); [|done]. injection H as <- <-. unfold write_at.
      pose proof (confined_inode i (update (bytes_of s) i (take n (bytes_of s i) ++ take count (drop n (w_bytes w)) ++
        drop (n + length (take count (drop n (w_bytes w)))) (bytes_of s i))) (update (flushed s) i false) Hi) as [? ?];
        [intros j Hj; by rewrite !update_ne|].
      split; [done|]. split; [done|]. split; [|done]. split; [done|]. cbn. rewrite update_eq, Hb, take_take, Nat.min_id.
      rewrite (drop_ge (take n _)) by (rewrite length_take; lia). by rewrite app_nil_r, take_take_drop.
  - destruct Hp as [Hi Hb]. destruct answer; [|done|by injection H as <- <-; split_and!; [|apply confined_same| |]].
    injection H as <- <-. pose proof (confined_inode i (bytes_of s) (update (flushed s) i true) Hi) as [? ?];
      [intros j Hj; by rewrite !update_ne|].
    split; [done|]. split; [done|]. split; [|done]. split_and!; [done..|]. cbn. by rewrite update_eq.
  - destruct Hp as (Hi & Hb & Hf). destruct answer; [|done|by injection H as <- <-; split_and!; [|apply confined_same| |]].
    destruct (rename _ _ s) as [t|] eqn:Hr; [|by unfold rename in Hr; rewrite Hi in Hr].
    injection H as <- <-. destruct (rename_ok _ _ Hw Hr) as [? ?]. split_and!; [done..|]. intros _.
    unfold rename in Hr. rewrite Hi in Hr. injection Hr as <-. unfold file_at. cbn. by rewrite update_eq, <- Hb.
  - destruct answer; [|done|]; injection H as <- <-; split_and!; try done; try apply remove_ok; apply confined_same.
Qed.
End advance.

(** ** Every step *)

Lemma disk_same s s' :
  entry_of s' = entry_of s → flushed s' = flushed s → next_inode s' = next_inode s → disk_ok s → disk_ok s'.
Proof. intros H1 H2 H3 [D1 D2 D3]. split; rewrite ?H1, ?H2, ?H3; eauto. Qed.
Lemma progress_same s s' w stage :
  entry_of s' = entry_of s → bytes_of s' = bytes_of s → flushed s' = flushed s → progress s w stage → progress s' w stage.
Proof. intros H1 H2 H3. destruct stage; cbn; by rewrite ?H1, ?H2, ?H3. Qed.

(** Two running calls have two temp files. *)
Lemma temps_apart s k k' w w' :
  calls_ok s → writers s !! k = Some w → writers s !! k' = Some w' → running w → running w' → k ≠ k' →
  components (w_temp w') ≠ components (w_temp w).
Proof.
  intros [C1 C2] Hk Hk' Hr Hr' Hne He. apply Hne.
  destruct (ck_temp _ _ (C1 _ _ Hk Hr)) as (n & Hn & Ht), (ck_temp _ _ (C1 _ _ Hk' Hr')) as (n' & Hn' & Ht').
  rewrite Ht, Ht' in He. apply temp_path_inj in He as [? ?]; [|done..]. by eapply C2.
Qed.
(** A call is not disturbed by the step of another one. *)
Lemma progress_frame s s' w w' :
  disk_ok s → confined w s s' → is_temp (components (w_temp w')) = true → components (w_temp w') ≠ components (w_temp w) →
  progress s w' (w_stage w') → progress s' w' (w_stage w').
Proof.
  intros [D1 D2 D3] [F1 F2 _ _ _ _] Ht Hne.
  assert (∀ i, entry_of s (components (w_temp w')) = Some i →
    entry_of s' (components (w_temp w')) = Some i ∧ bytes_of s' i = bytes_of s i ∧ flushed s' i = flushed s i) as H.
  { intros i Hi. rewrite F1 by done. split; [done|]. apply F2; [by eapply D2|]. intros Hi'. by destruct (Hne (D1 _ _ _ Hi Hi')). }
  destruct (w_stage w'); cbn; try done.
  - intros [Hi Hb]. destruct (H _ Hi) as (-> & -> & _). done.
  - intros [Hi Hb]. destruct (H _ Hi) as (-> & -> & _). done.
  - intros (Hi & Hb & Hf). destruct (H _ Hi) as (-> & -> & ->). done.
Qed.

(** An inode that no temp file has, whole on the disk. *)
Record settled (i : N) (s : Storage) : Prop := {
  st_below : (i < next_inode s)%N;
  st_flushed : flushed s i = true;
  st_ordinary : ∀ p, entry_of s p = Some i → is_temp p = false;
}.
Lemma ordinary_settled s p i : disk_ok s → is_temp p = false → entry_of s p = Some i → settled i s.
Proof. intros [D1 D2 D3] Hp Hi. split; eauto. intros q Hq. by rewrite (D1 _ _ _ Hq Hi). Qed.

(** What a step leaves of the ordinary paths and the settled inodes. *)
Record steady (s s' : Storage) : Prop := {
  sd_settled : ∀ i, settled i s → settled i s' ∧ bytes_of s' i = bytes_of s i;
  sd_ordinary : ∀ p, is_temp p = false → entry_of s' p = entry_of s p ∨
    ∃ w i, w ∈ writers s ∧ p = components (w_path w) ∧ entry_of s' p = Some i ∧ bytes_of s' i = w_bytes w;
}.
Definition ordinary_event (e : Event) : Prop :=
  match e with Begin _ path _ => is_temp (components path) = false | _ => True end.
Definition asked (w : Writer) : Event := Begin (w_pid w) (w_path w) (w_bytes w).

Lemma steady_refl s s' :
  entry_of s' = entry_of s → bytes_of s' = bytes_of s → flushed s' = flushed s → next_inode s' = next_inode s → steady s s'.
Proof.
  intros H1 H2 H3 H4. split; [|by intros p _; left; rewrite H1].
  intros i [A B C]. split; [split; rewrite ?H1, ?H3, ?H4; done|by rewrite H2].
Qed.
Lemma confined_steady s s' w :
  disk_ok s → call_ok s w → w ∈ writers s → confined w s s' → disk_ok s' → steady s s'.
Proof.
  intros Hd Hw Hin [F1 F2 F3 F4 _ F6] _. pose proof (own_temp w s Hw) as Ht. split.
  - intros i [A B C]. destruct (F2 i A) as [Hb Hf]; [intros Hi; apply C in Hi; congruence|].
    split; [|done]. split; [lia|by rewrite Hf|]. intros p Hp. destruct (is_temp p) eqn:Hpt; [|done].
    destruct (decide (p = components (w_temp w))) as [->|Hne].
    + destruct (F3 _ Hp) as [Hi|Hi]; [apply C in Hi; congruence|lia].
    + rewrite F1 in Hp by done. apply C in Hp. congruence.
  - intros p Hp. destruct (F6 p Hp) as [|(-> & _ & i & Hi & Hb & _)]; [by left|right]. by exists w, i.
Qed.

Lemma begin_ok pid path bytes s s' :
  calls_ok s → (∀ pid, TEMP_SEQUENCE s pid < u64_max)%N → is_temp (components path) = false →
  begin_write pid path bytes s = s' → calls_ok s' ∧ (∀ pid, TEMP_SEQUENCE s' pid <= TEMP_SEQUENCE s pid + 1)%N.
Proof.
  intros [C1 C2] Hs Ht <-. unfold begin_write. destruct (path_file_name path) as [name|] eqn:Hn.
  - assert (wrap_add (TEMP_SEQUENCE s pid) 1 = TEMP_SEQUENCE s pid + 1)%N as Hw.
    { apply wrap_add_small. specialize (Hs pid). lia. }
    split; [|intros q; cbn; rewrite Hw; unfold update; case_decide; subst; lia]. split; cbn; rewrite ?Hw.
    + intros k w Hk Hr. apply lookup_app_Some in Hk as [Hk|[_ Hk]].
      * destruct (C1 _ _ Hk Hr) as [A B C D]. split; [done|done| |by eapply progress_same, D].
        cbn. unfold update. case_decide as He; [|done]. rewrite He in C. lia.
      * apply list_lookup_singleton_Some in Hk as [_ <-]. split; cbn; [by exists name|done| |done]. rewrite update_eq. lia.
    + assert (∀ k w, writers s !! k = Some w → running w → w_pid w = pid → w_seq w = TEMP_SEQUENCE s pid → False) as Hnew.
      { intros k w Hk Hr He Hq. pose proof (ck_seq _ _ (C1 _ _ Hk Hr)) as Hl. rewrite He, Hq in Hl. lia. }
      intros k k' w w' Hk Hk' Hr Hr' Hp Hq. apply lookup_app_Some in Hk as [Hk|[Hlk Hk]], Hk' as [Hk'|[Hlk' Hk']].
      * by eapply C2.
      * apply list_lookup_singleton_Some in Hk' as [_ <-]. by destruct (Hnew _ _ Hk Hr).
      * apply list_lookup_singleton_Some in Hk as [_ <-]. by destruct (Hnew _ _ Hk' Hr').
      * apply list_lookup_singleton_Some in Hk as [Hk _], Hk' as [Hk' _]. lia.
  - split; [|intros q; cbn; lia]. split; cbn.
    + intros k w Hk Hr. apply lookup_app_Some in Hk as [Hk|[_ Hk]].
      * destruct (C1 _ _ Hk Hr) as [A B C D]. split; [done|done|done|by eapply progress_same, D].
      * apply list_lookup_singleton_Some in Hk as [_ <-]. done.
    + intros k k' w w' Hk Hk' Hr Hr' Hp Hq. apply lookup_app_Some in Hk as [Hk|[Hlk Hk]], Hk' as [Hk'|[Hlk' Hk']];
        try (apply list_lookup_singleton_Some in Hk as [_ <-]); try (apply list_lookup_singleton_Some in Hk' as [_ <-]); try done.
      by eapply C2.
Qed.

Lemma advance_calls s k w answer stage s' :
  disk_ok s → calls_ok s → writers s !! k = Some w → running w → advance w answer s = Some (stage, s') →
  calls_ok (with_writers (<[k := at_stage w stage]> (writers s')) s').
Proof.
  intros Hd Hc Hk Hr H. pose proof (cs_call _ Hc _ _ Hk Hr) as Hw.
  destruct (advance_ok w s Hd Hr Hw _ _ _ H) as (Hd' & Hf & Hp & _). destruct (cf_same _ _ _ Hf) as [Hws Hts]. rewrite Hws.
  assert (∀ i u, <[k := at_stage w stage]> (writers s) !! i = Some u → running u →
            (i = k ∧ u = at_stage w stage) ∨ (i ≠ k ∧ writers s !! i = Some u)) as Hi.
  { intros i u Hu _. apply list_lookup_insert_Some in Hu as [(-> & <- & _)|[? Hu]]; [by left|by right]. }
  split; cbn.
  - intros i u Hu Hru. destruct (Hi _ _ Hu Hru) as [[-> ->]|[Hne Hu']].
    + destruct Hw as [A B C _]. split; cbn; [done|done|by rewrite Hts|by eapply progress_same, Hp].
    + pose proof (cs_call _ Hc _ _ Hu' Hru) as Hcu. pose proof (own_temp u s Hcu) as Htu.
      pose proof (temps_apart s k i w u Hc Hk Hu' Hr Hru (not_eq_sym Hne)) as Ha.
      destruct Hcu as [A B C D]. split; [done|done|cbn; by rewrite Hts|].
      eapply progress_same; [..|by eapply progress_frame, D]; done.
  - intros i j u v Hu Hv Hru Hrv Hpid Hseq.
    destruct (Hi _ _ Hu Hru) as [[-> ->]|[Hne Hu']], (Hi _ _ Hv Hrv) as [[-> ->]|[Hne' Hv']]; try done.
    + by eapply (cs_apart _ Hc k j w v).
    + by eapply (cs_apart _ Hc i k u w).
    + by eapply (cs_apart _ Hc i j u v).
Qed.

Record stays (e : Event) (s s' : Storage) : Prop := {
  sy_disk : disk_ok s';
  sy_calls : calls_ok s';
  sy_seq : (∀ pid, TEMP_SEQUENCE s' pid <= TEMP_SEQUENCE s pid + 1)%N;
  sy_asked : ∀ w, w ∈ writers s' → asked w = e ∨ ∃ u, u ∈ writers s ∧ asked u = asked w;
  sy_steady : steady s s';
}.
Lemma happen_ok e s s' :
  disk_ok s → calls_ok s → (∀ pid, TEMP_SEQUENCE s pid < u64_max)%N → ordinary_event e → happen e s = Some s' → stays e s s'.
Proof.
  intros Hd Hc Hs He H. destruct e as [pid path bytes|k answer|pid|leaves]; cbn in H.
  - injection H as H. destruct (begin_ok _ _ _ _ _ Hc Hs He H) as [Hc' Hs']. unfold begin_write in H.
    destruct (path_file_name path); subst s'; split; try done; try (by eapply disk_same, Hd); try (by apply steady_refl);
      cbn; intros w [Hw| ->%list_elem_of_singleton]%elem_of_app; (by left) || (right; by exists w).
  - destruct (writers s !! k) as [w|] eqn:Hk; [|done]. cbn in H.
    destruct (advance w answer s) as [[stage t]|] eqn:Ha; [|done]. cbn in H. injection H as <-.
    assert (running w) as Hr by (unfold running; unfold advance in Ha; by destruct (w_stage w)).
    pose proof (cs_call _ Hc _ _ Hk Hr) as Hw. pose proof (list_elem_of_lookup_2 _ _ _ Hk) as Hin.
    destruct (advance_ok w s Hd Hr Hw _ _ _ Ha) as (Hd' & Hf & _ & _). destruct (cf_same _ _ _ Hf) as [Hws Hts].
    split; [by apply (disk_same t)|by eapply (advance_calls s)| | |].
    + intros pid. cbn. rewrite Hts. lia.
    + cbn. rewrite Hws. intros u Hu. right. apply list_elem_of_lookup_1 in Hu as [i Hu].
      apply list_lookup_insert_Some in Hu as [(_ & <- & _)|[_ Hu]]; [by exists w|exists u]. by split; [eapply list_elem_of_lookup_2|].
    + destruct (confined_steady _ _ _ Hd Hw Hin Hf Hd') as [S1 S2]. split; [|exact S2].
      intros i Hi. destruct (S1 i Hi) as [[A B C] Hb]. by split.
  - injection H as <-. split; [by eapply disk_same, Hd| | | |by apply steady_refl].
    + assert (∀ k u, ((λ w, if decide (w_pid w = pid) then at_stage w Killed else w) <$> writers s) !! k = Some u → running u →
        writers s !! k = Some u ∧ w_pid u ≠ pid) as Hf.
      { intros k u Hk Hr. rewrite list_lookup_fmap in Hk. destruct (writers s !! k) as [v|]; [|done].
        cbn in Hk. case_decide; by injection Hk as <-. }
      split; cbn.
      * intros k w H Hr. destruct (Hf _ _ H Hr) as [Hk Hne]. destruct (cs_call _ Hc _ _ Hk Hr) as [A B C D].
        split; [done|done|cbn; by rewrite update_ne|by eapply progress_same, D].
      * intros k k' w w' Hk Hk' Hr Hr'. destruct (Hf _ _ Hk Hr), (Hf _ _ Hk' Hr'). by eapply (cs_apart _ Hc).
    + intros q. cbn. unfold update. case_decide; lia.
    + intros w (u & -> & Hu)%list_elem_of_fmap. right. exists u. split; [done|]. by case_decide.
  - injection H as <-. assert (∀ k u, ((λ w, at_stage w Killed) <$> writers s) !! k = Some u → ¬ running u) as Hf.
    { intros k u Hk. rewrite list_lookup_fmap in Hk. destruct (writers s !! k); [|done]. cbn in Hk. injection Hk as <-. by intros []. }
    split; [| |intros q; cbn; lia|intros w (u & -> & Hu)%list_elem_of_fmap; right; by exists u|].
    + destruct Hd as [D1 D2 D3]. by split.
    + split; [intros k u Hk Hr; by destruct (Hf _ _ Hk)|intros k k' u v Hk Hk' Hr; by destruct (Hf _ _ Hk)].
    + split; [|by left]. intros i [A B C]. split; [by split|]. cbn. by rewrite B.
Qed.

Lemma steady_file e s s' p :
  disk_ok s → stays e s s' → is_temp p = false →
  bytes_of s' <$> entry_of s' p = bytes_of s <$> entry_of s p ∨
  ∃ w, w ∈ writers s ∧ p = components (w_path w) ∧ bytes_of s' <$> entry_of s' p = Some (w_bytes w).
Proof.
  intros Hd [_ _ _ _ [S1 S2]] Hp. destruct (S2 p Hp) as [He|(w & i & Hw & Hc & Hi & Hb)].
  - left. rewrite He. destruct (entry_of s p) as [i|] eqn:Hi; [|done]. cbn. f_equal.
    apply S1. by eapply ordinary_settled.
  - right. exists w. split_and!; [done..|]. by rewrite Hi, <- Hb.
Qed.

(** What a history does to the files, from a state where [past] was asked. *)
Record follows (past es : list Event) (s s' : Storage) : Prop := {
  fo_disk : disk_ok s';
  fo_calls : calls_ok s';
  fo_seq : (∀ pid, TEMP_SEQUENCE s' pid <= TEMP_SEQUENCE s pid + N.of_nat (length es))%N;
  fo_asked : ∀ w, w ∈ writers s' → asked w ∈ past ++ es;
  fo_settled : ∀ i, settled i s → settled i s' ∧ bytes_of s' i = bytes_of s i;
  fo_files : ∀ p, is_temp p = false →
    bytes_of s' <$> entry_of s' p = bytes_of s <$> entry_of s p ∨
    ∃ pid path bytes, Begin pid path bytes ∈ past ++ es ∧ p = components path ∧ bytes_of s' <$> entry_of s' p = Some bytes;
}.
Lemma history_ok es : ∀ past s s',
  disk_ok s → calls_ok s → (∀ pid, TEMP_SEQUENCE s pid + N.of_nat (length es) <= u64_max)%N → Forall ordinary_event es →
  (∀ w, w ∈ writers s → asked w ∈ past) → history es s = Some s' → follows past es s s'.
Proof.
  induction es as [|e es IH]; intros past s s' Hd Hc Hs Ho Ha H; cbn in H.
  { injection H as <-. split; try done; rewrite ?app_nil_r; [lia|done|by left]. }
  destruct (happen e s) as [t|] eqn:He; [|done]. cbn in H. inversion Ho as [|? ? Hoe Hoes]; subst.
  pose proof Hs as Hs0. cbn in Hs.
  assert (stays e s t) as Ht by (apply (happen_ok e s); try done; intros pid; specialize (Hs pid); lia).
  pose proof (steady_file e s t) as Hfile. destruct Ht as [T1 T2 T3 T4 T5].
  assert (follows (past ++ [e]) es t s') as [F1 F2 F3 F4 F5 F6].
  { apply IH; try done; [intros pid; specialize (Hs pid); specialize (T3 pid); lia|].
    intros w Hw. apply elem_of_app. destruct (T4 w Hw) as [->|(u & Hu & <-)]; [right; by left|left; by apply Ha]. }
  rewrite <- (assoc_L (++)) in F4, F6. split; try done.
  - intros pid. specialize (F3 pid). specialize (T3 pid). cbn. lia.
  - intros i Hi. destruct (sd_settled _ _ T5 i Hi) as [Hit <-]. by apply F5.
  - intros p Hp. destruct (F6 p Hp) as [->|?]; [|by right].
    destruct (Hfile p Hd ltac:(by split) Hp) as [->|(w & Hw & Hc' & ->)]; [by left|right].
    exists (w_pid w), (w_path w), (w_bytes w). split; [|done]. apply elem_of_app. left. by apply Ha.
Qed.

(** C17. Whole-file writes of any number of processes never tear a file. Whatever
    their interleaving, whichever steps fail, wherever a process dies or the
    power goes, an ordinary path holds what it held before or the whole of what
    some call wrote to it; a file that a reader has opened keeps its bytes; and a
    call that returns [Ok] has put its own bytes at its path. *)
Theorem files_are_never_torn es later s0 s s' :
  disk_ok s0 → writers s0 = [] → (∀ pid, TEMP_SEQUENCE s0 pid = 0%N) →
  Forall ordinary_event (es ++ later) → (N.of_nat (length (es ++ later)) < u64_max)%N →
  history es s0 = Some s → history later s = Some s' →
  (∀ path, is_temp (components path) = false →
    (file_at s path = file_at s0 path ∨
     ∃ pid path' bytes, Begin pid path' bytes ∈ es ∧ components path' = components path ∧ file_at s path = Some bytes) ∧
    ∀ i, entry_of s (components path) = Some i → bytes_of s' i = bytes_of s i) ∧
  ∀ k w w' answer t, writers s !! k = Some w → happen (Advance k answer) s = Some t → writers t !! k = Some w' →
    w_stage w' = Returned true → file_at t (w_path w) = Some (w_bytes w).
Proof.
  intros Hd Hw Hq [Ho Hol]%Forall_app Hl H H'. rewrite length_app in Hl.
  assert (calls_ok s0) as Hc0 by (split; rewrite Hw; done).
  assert (follows [] es s0 s) as [F1 F2 F3 F4 F5 F6].
  { apply history_ok; try done; [intros pid; rewrite Hq; lia|rewrite Hw; by intros w ?%elem_of_nil]. }
  assert (follows es later s s') as [G1 G2 G3 G4 G5 G6].
  { apply history_ok; try done. intros pid. specialize (F3 pid). rewrite Hq in F3. lia. }
  split.
  - intros path Hp. split.
    + destruct (F6 _ Hp) as [|(pid & path' & bytes & ? & ? & ?)]; [by left|right]. by exists pid, path', bytes.
    + intros i Hi. apply G5. by eapply ordinary_settled.
  - intros k w w' answer t Hk Ht Hk' Hr. cbn in Ht. rewrite Hk in Ht. cbn in Ht.
    destruct (advance w answer s) as [[stage u]|] eqn:Ha; [|done]. cbn in Ht. injection Ht as <-.
    assert (running w) as Hrun by (unfold running; unfold advance in Ha; by destruct (w_stage w)).
    destruct (advance_ok w s F1 Hrun (cs_call _ F2 _ _ Hk Hrun) _ _ _ Ha) as (_ & Hf & _ & Hret).
    destruct (cf_same _ _ _ Hf) as [Hws _]. cbn in Hk'. rewrite Hws, list_lookup_insert_eq in Hk'
      by (by eapply lookup_lt_Some). injection Hk' as <-. by apply Hret.
Qed.

(** One process dies half way through its write; the other one's lands. *)
Definition state_json : string := "/s/state.json".
Definition stored : Storage :=
  {| entry_of := update (λ _, None) (components state_json) (Some 0%N); bytes_of := update (λ _, []) 0%N (to_bytes "old");
     flushed := λ _, true; next_inode := 1; TEMP_SEQUENCE := λ _, 0%N; writers := [] |}.
Definition two_writers : list Event :=
  [Begin 1 state_json (to_bytes "new"); Advance 0 Did; Advance 0 (Took 2); Begin 2 state_json (to_bytes "other");
   Advance 1 Did; Advance 1 (Took 5); Dies 1; Advance 1 Did; Advance 1 Did].
Definition before_the_rename : Storage := default stored (history two_writers stored).
Definition after_the_rename : Storage := default stored (happen (Advance 1 Did) before_the_rename).
Lemma files_are_never_torn_witness :
  file_at before_the_rename state_json = Some (to_bytes "old") ∧ file_at after_the_rename state_json = Some (to_bytes "other") ∧
  bytes_of after_the_rename 0 = to_bytes "old".
Proof.
  assert (disk_ok stored) as Hd.
  { split; cbn; unfold update.
    - intros p q i. repeat case_decide; by subst.
    - intros p i. case_decide; [|done]. by intros [= <-].
    - done. }
  assert (Forall ordinary_event (two_writers ++ [Advance 1 Did])) as Ho by (repeat constructor).
  assert (history two_writers stored = Some before_the_rename) as H1.
  { assert (bool_decide (is_Some (history two_writers stored)) = true) as H by (vm_compute; reflexivity).
    apply bool_decide_eq_true in H. unfold before_the_rename. by destruct H as [s ->]. }
  assert (happen (Advance 1 Did) before_the_rename = Some after_the_rename) as H2.
  { assert (bool_decide (is_Some (happen (Advance 1 Did) before_the_rename)) = true) as H by (vm_compute; reflexivity).
    apply bool_decide_eq_true in H. unfold after_the_rename. by destruct H as [s ->]. }
  assert (history [Advance 1 Did] before_the_rename = Some after_the_rename) as H3 by (unfold history; rewrite H2; exact eq_refl).
  assert (writers before_the_rename !! 1 = Some
    {| w_pid := 2; w_path := state_json; w_bytes := to_bytes "other"; w_temp := "/s/state.json.2.0.tmp"; w_seq := 0;
       w_stage := Renaming 2 |}) as Hw by (vm_compute; reflexivity).
  assert (writers after_the_rename !! 1 = Some
    {| w_pid := 2; w_path := state_json; w_bytes := to_bytes "other"; w_temp := "/s/state.json.2.0.tmp"; w_seq := 0;
       w_stage := Returned true |}) as Hw' by (vm_compute; reflexivity).
  destruct (files_are_never_torn two_writers [Advance 1 Did] stored before_the_rename after_the_rename Hd eq_refl (λ _, eq_refl) Ho
    ltac:(vm_compute; reflexivity) H1 H3) as [Hfiles Hret].
  assert (entry_of before_the_rename (components state_json) = Some 0%N) as He by (vm_compute; reflexivity).
  assert (is_temp (components state_json) = false) as Ht by (vm_compute; reflexivity).
  split; [vm_compute; reflexivity|]. split; [exact (Hret 1 _ _ Did after_the_rename Hw H2 Hw' eq_refl)|].
  rewrite (proj2 (Hfiles state_json Ht) 0%N He). vm_compute. reflexivity.
Defined.
