(* ===== verification/RegistryClient.v ===== *)
(** * The registry client (registry/client.rs)

    What one HTTP exchange becomes: the URL of a package, the delay a
    [Retry-After] header asks for, and the answer or error the fetch is given.
    The exchange itself is ureq's and HTTP dates are httpdate's. *)
From Stdlib Require Import SpecFloat.
From stdpp Require Import base list strings.
From S2P Require Import Prelude ProjectRegistry Text Budget RegistryService.

Set Default Proof Using "Type*".

Definition DEFAULT_TIMEOUT_MS : N := 3000.
Definition MAX_REGISTRY_BODY_BYTES : N := 64 * 1024 * 1024.

Definition registry_url (package_name : string) : string :=
  match to_bytes package_name with
  | "@"%char :: rest =>
      "https://registry.npmjs.org/@" +:+
      of_bytes (rest ≫= λ c, if decide (c = "/"%char) then to_bytes "%2F" else [c])
  | _ => "https://registry.npmjs.org/" +:+ package_name
  end.

(** ** [str::parse::<f64>] *)

Definition digit (c : ascii) : option N :=
  let n := N_of_ascii c in if ((48 <=? n) && (n <=? 57))%N then Some (n - 48)%N else None.
(** The digits a text starts with: their value on top of [value], how many they
    are, and the rest. *)
Fixpoint read_digits (l : list ascii) (value : N) (count : nat) : N * nat * list ascii :=
  match l with
  | [] => (value, count, [])
  | c :: rest => match digit c with
                 | Some d => read_digits rest (value * 10 + d)%N (S count)
                 | None => (value, count, l)
                 end
  end.
Definition read_sign (l : list ascii) : bool * list ascii :=
  match l with
  | "-"%char :: rest => (true, rest)
  | "+"%char :: rest => (false, rest)
  | _ => (false, l)
  end.
(** The double nearest to [mantissa * 10 ^ exponent]. *)
Definition decimal (negative : bool) (mantissa : N) (exponent : Z) : spec_float :=
  match mantissa with
  | N0 => S754_zero negative
  | Npos m =>
      match exponent with
      | Zneg e => SFdiv 53 1024 (S754_finite negative m 0) (S754_finite false (10 ^ e) 0)
      | _ => binary_normalize 53 1024 ((if negative then Z.opp else id) (Zpos m * 10 ^ exponent)%Z) 0 negative
      end
  end.
Definition read_exponent (l : list ascii) : option Z :=
  match l with
  | [] => Some 0%Z
  | c :: rest =>
      if decide (c = "e"%char ∨ c = "E"%char) then
        let '(negative, rest) := read_sign rest in
        match read_digits rest 0 0 with
        | (value, S _, []) => Some ((if negative then Z.opp else id) (Z.of_N value))
        | _ => None
        end
      else None
  end.
Definition parse_f64 (text : string) : option spec_float :=
  let '(negative, l) := read_sign (to_bytes text) in
  let lower := lower_bytes l in
  if decide (lower = to_bytes "inf" ∨ lower = to_bytes "infinity") then Some (S754_infinity negative)
  else if decide (lower = to_bytes "nan") then Some S754_nan
  else
    let '(whole, wholes, l) := read_digits l 0 0 in
    let '(mantissa, fractions, l) := match l with
                                     | "."%char :: rest => read_digits rest whole 0
                                     | _ => (whole, 0, l)
                                     end in
    if decide (wholes + fractions = 0) then None
    else exponent ← read_exponent l; Some (decimal negative mantissa (exponent - Z.of_nat fractions)).

(** ** The delay *)

Definition is_finite (x : spec_float) : bool := match x with S754_zero _ | S754_finite _ _ _ => true | _ => false end.
(** [f64::max] with [0.0], and [f64::round]: to the nearest integer, a half away
    from zero; the values here are not negative. *)
Definition max_zero (x : spec_float) : spec_float :=
  match x with S754_finite false _ _ | S754_infinity false => x | _ => S754_zero false end.
Definition f64_round (x : spec_float) : spec_float :=
  match x with
  | S754_finite sign m (Zneg e) =>
      binary_normalize 53 1024 ((if sign then Z.opp else id) (Z.shiftr (Zpos m + 2 ^ (Zpos e - 1)) (Zpos e))) 0 sign
  | _ => x
  end.

Section client.
(** The milliseconds from now to an HTTP date, 0 for a past one. *)
Context (http_date_delay : string → option N).
Definition retry_after_delay_ms (header : string) : option N :=
  match parse_f64 header with
  | Some seconds =>
      if is_finite seconds then Some (u64_of_f64 (f64_round (f64_mul (max_zero seconds) (f64_of_u64 1000)))) else None
  | None => http_date_delay header
  end.

(** ** One request *)

Inductive BodyError := BodyExceedsLimit | OtherError (message : string).
Record Exchange := { x_status : N; x_retry_after : option string; x_read : N → string + BodyError }.
(** What the agent answers a URL. *)
Context (call : string → Exchange + string).
Definition get_package_metadata (package_name : string) : HttpRegistryResponse + string :=
  match call (registry_url package_name) with
  | inr error => inr error
  | inl response =>
      let retry_after := x_retry_after response ≫= retry_after_delay_ms in
      match x_read response MAX_REGISTRY_BODY_BYTES with
      | inl body => inl {| status := x_status response; retry_after_ms := retry_after; body := body |}
      | inr BodyExceedsLimit => inr REGISTRY_BODY_TOO_LARGE_ERROR
      | inr (OtherError message) => inr message
      end
  end.

(** A body over the limit is the one failure of an exchange that is never tried
    again, unless ureq's own words are the marker. *)
Theorem oversized_bodies_are_permanent package_name response :
  call (registry_url package_name) = inl response →
  x_read response MAX_REGISTRY_BODY_BYTES ≠ inr (OtherError REGISTRY_BODY_TOO_LARGE_ERROR) →
  (∃ message, get_package_metadata package_name = inr message ∧ is_permanent_fetch_error message = true) ↔
  x_read response MAX_REGISTRY_BODY_BYTES = inr BodyExceedsLimit.
Proof.
  intros Hc Ho. unfold get_package_metadata. rewrite Hc. destruct (x_read _ _) as [body|[|message]].
  - split; [by intros (? & ? & _)|done].
  - split; [done|]. intros _. eexists. split; [done|]. by apply bool_decide_eq_true.
  - split; [|done]. intros (? & [= <-] & Hp). apply bool_decide_eq_true in Hp. by subst.
Qed.
End client.

Example delta_seconds :
  retry_after_delay_ms (λ _, None) <$> ["120"; "1.5"; "-5"; "0.0004"; ".0005"; "1e3"; "99999999999999999999"] =
  [Some 120000; Some 1500; Some 0; Some 0; Some 1; Some 1000000; Some u64_max]%N.
Proof. vm_compute. reflexivity. Qed.
Example not_delta_seconds :
  retry_after_delay_ms (λ _, None) <$> ["soon"; ""; "inf"; "NaN"; "."; "1e"; "5 "] = replicate 7 None.
Proof. vm_compute. reflexivity. Qed.
Example scoped_url : registry_url "@scope/name" = "https://registry.npmjs.org/@scope%2Fname".
Proof. vm_compute. reflexivity. Qed.
