(* ===== verification/Logging.v ===== *)
(** * Log lines (logging.rs)

    The levels, what a line looks like, and the timestamp: the date is computed
    from the days since 1970 with no calendar library, and is proved to be the
    Gregorian calendar's by walking it day by day. *)
From Stdlib Require Import ZArith.
From stdpp Require Import base numbers list strings pretty.
From S2P Require Import Prelude ProjectRegistry Text.
Local Open Scope Z_scope.

(** ** Levels *)

Inductive LogLevel := LevelError | LevelWarn | LevelInfo | LevelDebug.
Definition level_rank (level : LogLevel) : N :=
  match level with LevelError => 0 | LevelWarn => 1 | LevelInfo => 2 | LevelDebug => 3 end.
(** [CURRENT_LEVEL]: the first level set stays. *)
Definition set_log_level (level : LogLevel) (current : option LogLevel) : option LogLevel :=
  match current with Some _ => current | None => Some level end.
Definition parse_log_level (value : string) : LogLevel :=
  let lower := of_bytes (lower_bytes (to_bytes value)) in
  if decide (lower = "error") then LevelError
  else if decide (lower = "warn" ∨ lower = "warning") then LevelWarn
  else if decide (lower = "debug") then LevelDebug
  else LevelInfo.
Definition current_log_level (current : option LogLevel) : LogLevel := default LevelInfo current.
Definition should_log (current : option LogLevel) (level : LogLevel) : bool :=
  (level_rank level <=? level_rank (current_log_level current))%N.
Definition level_token (level : LogLevel) : string :=
  match level with LevelError => "ERROR" | LevelWarn => "WARN" | LevelInfo => "INFO" | LevelDebug => "DEBUG" end.

(** ** Timestamps *)

(** [era] rounds down, as Rust's division of a negative number does not. *)
Definition civil_from_days (days : Z) : Z * Z * Z :=
  let z := days + 719468 in
  let era := Z.quot (if 0 <=? z then z else z - 146096) 146097 in
  let doe := z - era * 146097 in
  let yoe := (doe - doe / 1460 + doe / 36524 - doe / 146096) / 365 in
  let y := yoe + era * 400 in
  let doy := doe - (365 * yoe + yoe / 4 - yoe / 100) in
  let mp := (5 * doy + 2) / 153 in
  let d := doy - (153 * mp + 2) / 5 + 1 in
  let m := if mp <? 10 then mp + 3 else mp - 9 in
  (if m <=? 2 then y + 1 else y, m, d).

(** [{:0width$}] of a number that is not negative. *)
Definition zero_padded (width : nat) (n : Z) : string :=
  let digits := pretty (Z.to_N n) in
  of_bytes (replicate (width - String.length digits) "0"%char) +:+ digits.
Definition chrono_like_timestamp (millis : N) : string :=
  let millis := Z.of_N millis in
  let seconds := millis / 1000 in
  let subsec_ms := millis mod 1000 in
  let days := seconds / 86400 in
  let day_seconds := seconds mod 86400 in
  let '(year, month, day) := civil_from_days days in
  zero_padded 4 year +:+ "-" +:+ zero_padded 2 month +:+ "-" +:+ zero_padded 2 day +:+ "T" +:+
  zero_padded 2 (day_seconds / 3600) +:+ ":" +:+ zero_padded 2 (day_seconds mod 3600 / 60) +:+ ":" +:+
  zero_padded 2 (day_seconds mod 60) +:+ "." +:+ zero_padded 3 subsec_ms +:+ "Z".

Definition PREFIX : string := "[import-lens-daemon]".
(** Whether a line goes to the standard error, and the line; [None] where the
    level is not logged. *)
Definition write_log (current : option LogLevel) (now_millis : N) (level : LogLevel) (component message : string) :
    option (bool * string) :=
  if negb (should_log current level) then None
  else
    let head := PREFIX +:+ " " +:+ chrono_like_timestamp now_millis +:+ " [" +:+ level_token level +:+ "] " in
    let line := if decide (component = "") then head +:+ message else head +:+ "[" +:+ component +:+ "] " +:+ message in
    Some (match level with LevelError | LevelWarn => true | _ => false end, line +:+ String (ascii_of_N 10) "").

Example first_day : chrono_like_timestamp 0 = "1970-01-01T00:00:00.000Z".
Proof. vm_compute. reflexivity. Qed.
Example leap_day : chrono_like_timestamp 1709210096789 = "2024-02-29T12:34:56.789Z".
Proof. vm_compute. reflexivity. Qed.

(** ** The calendar *)

Definition leap (y : Z) : bool := (y mod 4 =? 0) && (negb (y mod 100 =? 0) || (y mod 400 =? 0)).
Definition month_days (y m : Z) : Z :=
  if m =? 2 then if leap y then 29 else 28
  else if (m =? 4) || (m =? 6) || (m =? 9) || (m =? 11) then 30 else 31.
Definition next_day (date : Z * Z * Z) : Z * Z * Z :=
  let '(y, m, d) := date in
  if d <? month_days y m then (y, m, d + 1)
  else if m <? 12 then (y, m + 1, 1)
  else (y + 1, 1, 1).

(** Years begin in March here, as they do in the computation: the days of a
    period before its year [y], the year of a day, and the month and day of a
    day of the year with whether January has passed. *)
Definition year_start (y : Z) : Z := 365 * y + y / 4 - y / 100 + y / 400.
Definition year_of (doe : Z) : Z := (doe - doe / 1460 + doe / 36524 - doe / 146096) / 365.
Definition date_in (doy : Z) : Z * Z * Z :=
  let mp := (5 * doy + 2) / 153 in
  let m := if mp <? 10 then mp + 3 else mp - 9 in
  (if m <=? 2 then 1 else 0, m, doy - (153 * mp + 2) / 5 + 1).
Definition date_of (y doy : Z) : Z * Z * Z := let '(later, m, d) := date_in doy in (y + later, m, d).

Lemma year_of_mono a b : 0 <= a <= b → b < 146097 → year_of a <= year_of b.
Proof.
  intros Hab Hb. unfold year_of. apply Z.div_le_mono; [lia|].
  assert (a / 36524 <= b / 36524) by (apply Z.div_le_mono; lia).
  destruct (decide (a = b)) as [->|]; [lia|]. assert (a / 146096 = 0) by (apply Z.div_small; lia).
  destruct (decide (b = 146096)) as [->|].
  - assert (a / 36524 <= 3) by (apply Z.lt_succ_r, Z.div_lt_upper_bound; lia).
    change (146096 / 1460) with 100. change (146096 / 36524) with 4. change (146096 / 146096) with 1.
    pose proof (Z.div_pos a 1460 ltac:(lia) ltac:(lia)). pose proof (Z.mul_div_le a 1460 ltac:(lia)).
    assert (a - a / 1460 <= 146095 - 146095 / 1460) as Hm; [|change (146095 / 1460) with 100 in Hm; lia].
    Z.to_euclidean_division_equations. lia.
  - assert (b / 146096 = 0) by (apply Z.div_small; lia). Z.to_euclidean_division_equations. lia.
Qed.

(** The checks over one period's years and one year's days. *)
Definition year_checked (y : Z) : bool :=
  (year_of (year_start y) =? y) && (year_of (year_start (y + 1) - 1) =? y) &&
  (year_start (y + 1) - year_start y =? if leap (y + 1) then 366 else 365).
Definition follows_in_year (long : bool) (doy : Z) : bool :=
  let '(later, m, d) := date_in doy in
  let days := if m =? 2 then if long then 29 else 28 else month_days 1 m in
  bool_decide (date_in (doy + 1) =
    if d <? days then (later, m, d + 1) else if m <? 12 then (later, m + 1, 1) else (later + 1, 1, 1)).
Lemma checked (P : Z → bool) (n : nat) :
  forallb P (Z.of_nat <$> seq 0 n) = true → ∀ i, 0 <= i < Z.of_nat n → P i = true.
Proof.
  intros H i Hi. rewrite forallb_forall in H. apply H. apply list_elem_of_In, list_elem_of_fmap.
  exists (Z.to_nat i). split; [lia|]. apply elem_of_seq. lia.
Qed.
Lemma years_checked y : 0 <= y < 400 → year_checked y = true.
Proof. apply (checked year_checked 400). vm_compute. reflexivity. Qed.
Lemma days_checked doy : 0 <= doy < 364 → follows_in_year false doy = true.
Proof. apply (checked (follows_in_year false) 364). vm_compute. reflexivity. Qed.
Lemma long_days_checked doy : 0 <= doy < 365 → follows_in_year true doy = true.
Proof. apply (checked (follows_in_year true) 365). vm_compute. reflexivity. Qed.

Lemma year_checks y :
  0 <= y < 400 → year_of (year_start y) = y ∧ year_of (year_start (y + 1) - 1) = y ∧
  year_start (y + 1) - year_start y = if leap (y + 1) then 366 else 365.
Proof. intros H%years_checked. unfold year_checked in H. rewrite !andb_true_iff, !Z.eqb_eq in H. tauto. Qed.
Lemma year_start_mono a b : 0 <= a <= b → b <= 400 → year_start a <= year_start b.
Proof.
  intros Ha Hb. unfold year_start. destruct (decide (a = b)) as [->|]; [lia|].
  assert (a / 400 = 0) by (apply Z.div_small; lia). assert (0 <= b / 400) by (apply Z.div_pos; lia).
  Z.to_euclidean_division_equations. lia.
Qed.
Lemma year_of_spec doe :
  0 <= doe < 146097 → 0 <= year_of doe < 400 ∧ year_start (year_of doe) <= doe < year_start (year_of doe + 1).
Proof.
  intros Hd. pose proof (year_of_mono 0 doe ltac:(lia) ltac:(lia)) as H0. pose proof (year_of_mono doe 146096 ltac:(lia) ltac:(lia)) as H1.
  change (year_of 0) with 0 in H0. change (year_of 146096) with 399 in H1. set (y := year_of doe) in *.
  split; [lia|]. split.
  - destruct (decide (year_start y <= doe)) as [|Hlt]; [done|]. destruct (decide (y = 0)) as [Hy|Hy].
    { rewrite Hy in Hlt. change (year_start 0) with 0 in Hlt. lia. }
    destruct (year_checks (y - 1) ltac:(lia)) as (_ & Hend & _). replace (y - 1 + 1) with y in Hend by lia.
    assert (year_start y <= 146097) by (change 146097 with (year_start 400); apply year_start_mono; lia).
    pose proof (year_of_mono doe (year_start y - 1) ltac:(lia) ltac:(lia)). lia.
  - destruct (decide (doe < year_start (y + 1))) as [|Hge]; [done|]. destruct (decide (y = 399)) as [Hy|Hy].
    { rewrite Hy in Hge. change (year_start (399 + 1)) with 146097 in Hge. lia. }
    destruct (year_checks (y + 1) ltac:(lia)) as (Hst & _ & _).
    pose proof (year_start_mono 0 (y + 1) ltac:(lia) ltac:(lia)). change (year_start 0) with 0 in *.
    pose proof (year_of_mono (year_start (y + 1)) doe ltac:(lia) ltac:(lia)). lia.
Qed.
Lemma year_of_unique doe y :
  0 <= y < 400 → year_start y <= doe < year_start (y + 1) → year_of doe = y.
Proof.
  intros Hy Hd. destruct (year_checks y Hy) as (Hs & He & _).
  pose proof (year_start_mono 0 y ltac:(lia) ltac:(lia)). change (year_start 0) with 0 in *.
  assert (year_start (y + 1) <= 146097) by (change 146097 with (year_start 400); apply year_start_mono; lia).
  pose proof (year_of_mono (year_start y) doe ltac:(lia) ltac:(lia)).
  pose proof (year_of_mono doe (year_start (y + 1) - 1) ltac:(lia) ltac:(lia)). lia.
Qed.

(** The computation by era, year and day of the year. *)
Lemma civil_by_parts days :
  0 <= days + 719468 →
  let z := days + 719468 in let doe := z mod 146097 in
  civil_from_days days = date_of (z / 146097 * 400 + year_of doe) (doe - year_start (year_of doe)).
Proof.
  intros Hz z doe. unfold civil_from_days. fold z. fold z in Hz. rewrite (proj2 (Z.leb_le 0 z) Hz), Z.quot_div_nonneg by lia.
  replace (z - z / 146097 * 146097) with doe by (subst doe; pose proof (Z.div_mod z 146097 ltac:(lia)); lia).
  pose proof (Z.mod_pos_bound z 146097 ltac:(lia)) as Hd. fold doe in Hd. destruct (year_of_spec doe Hd) as [Hy _].
  cbv zeta. fold (year_of doe). unfold year_start. rewrite (Z.div_small (year_of doe) 400), Z.add_0_r by lia.
  unfold date_of, date_in. set (doy := doe - _). set (mp := (5 * doy + 2) / 153).
  destruct (_ <=? 2); f_equal; f_equal; lia.
Qed.

Lemma leap_period y k : leap (k * 400 + y) = leap y.
Proof.
  unfold leap. replace (k * 400 + y) with (y + (100 * k) * 4) at 1 by lia.
  replace (k * 400 + y) with (y + (4 * k) * 100) at 1 by lia.
  replace (k * 400 + y) with (y + k * 400) by lia. by rewrite !Z.mod_add.
Qed.
Lemma month_days_any y m : m ≠ 2 → month_days y m = month_days 1 m.
Proof. intros Hm. unfold month_days. by rewrite (proj2 (Z.eqb_neq m 2) Hm). Qed.
Lemma next_in_year y doy long :
  0 <= doy → long = leap (y + 1) → (doy + 1 < if long then 366 else 365) →
  next_day (date_of y doy) = date_of y (doy + 1).
Proof.
  intros H0 Hl Hd. assert (follows_in_year long doy = true) as Hf.
  { destruct long; [apply long_days_checked|apply days_checked]; lia. }
  unfold follows_in_year in Hf. unfold date_of. destruct (date_in doy) as [[later m] d] eqn:He.
  apply bool_decide_eq_true in Hf. rewrite Hf. clear Hf. unfold next_day.
  assert (month_days (y + later) m = if m =? 2 then if long then 29 else 28 else month_days 1 m) as ->.
  { destruct (m =? 2) eqn:Hm; [|apply month_days_any; lia]. apply Z.eqb_eq in Hm. subst m.
    unfold date_in in He. injection He as <- Hm _. rewrite Hm. cbn. by rewrite <- Hl. }
  destruct (d <? _); [done|]. destruct (m <? 12); [done|]. f_equal. f_equal. lia.
Qed.
Lemma next_year y long :
  long = leap (y + 1) → next_day (date_of y (if long then 365 else 364)) = date_of (y + 1) 0.
Proof.
  intros ->. destruct (leap (y + 1)) eqn:Hl; unfold date_of.
  - change (date_in 365) with (1, 2, 29). change (date_in 0) with (0, 3, 1). unfold next_day, month_days. rewrite Hl.
    by rewrite Z.add_0_r.
  - change (date_in 364) with (1, 2, 28). change (date_in 0) with (0, 3, 1). unfold next_day, month_days. rewrite Hl.
    by rewrite Z.add_0_r.
Qed.

Lemma civil_step days : 0 <= days → civil_from_days (days + 1) = next_day (civil_from_days days).
Proof.
  intros Hd. rewrite !civil_by_parts by lia. cbv zeta. replace (days + 1 + 719468) with (days + 719468 + 1) by lia.
  set (z := days + 719468). pose proof (Z.mod_pos_bound z 146097 ltac:(lia)) as Hm.
  pose proof (Z.div_mod z 146097 ltac:(lia)) as Hz. set (era := z / 146097) in *. set (doe := z mod 146097) in *.
  destruct (year_of_spec doe Hm) as [Hy Hs]. set (y := year_of doe) in *.
  destruct (year_checks y Hy) as (_ & _ & Hlen).
  assert (leap (era * 400 + y + 1) = leap (y + 1)) as Hleap by (rewrite <- Z.add_assoc; apply leap_period).
  destruct (decide (doe + 1 < year_start (y + 1))) as [Hin|Hend].
  - assert (year_start (y + 1) <= 146097) by (change 146097 with (year_start 400); apply year_start_mono; lia).
    assert ((z + 1) / 146097 = era) as -> by (symmetry; apply (Z.div_unique _ _ _ (doe + 1)); lia).
    assert ((z + 1) mod 146097 = doe + 1) as -> by (symmetry; apply (Z.mod_unique _ _ era); lia).
    rewrite (year_of_unique (doe + 1) y) by lia. symmetry.
    replace (doe + 1 - year_start y) with (doe - year_start y + 1) by lia.
    apply (next_in_year _ _ (leap (y + 1))); [lia|by rewrite Hleap|destruct (leap (y + 1)); lia].
  - replace (doe - year_start y) with (if leap (y + 1) then 365 else 364) by (destruct (leap (y + 1)); lia).
    rewrite next_year by (by rewrite Hleap). destruct (decide (y = 399)) as [Hlast|Hnot].
    + rewrite Hlast in Hs, Hend. change (year_start (399 + 1)) with 146097 in *.
      assert ((z + 1) / 146097 = era + 1) as -> by (symmetry; apply (Z.div_unique _ _ _ 0); lia).
      assert ((z + 1) mod 146097 = 0) as -> by (symmetry; apply (Z.mod_unique _ _ (era + 1)); lia).
      change (year_of 0) with 0. change (year_start 0) with 0. f_equal. lia.
    + assert (year_start (y + 1) < 146097).
      { destruct (year_checks 399 ltac:(lia)) as (_ & _ & Hl). change (year_start (399 + 1)) with 146097 in Hl.
        pose proof (year_start_mono (y + 1) 399 ltac:(lia) ltac:(lia)). destruct (leap (399 + 1)); lia. }
      assert ((z + 1) / 146097 = era) as -> by (symmetry; apply (Z.div_unique _ _ _ (doe + 1)); lia).
      assert ((z + 1) mod 146097 = doe + 1) as -> by (symmetry; apply (Z.mod_unique _ _ era); lia).
      destruct (year_checks (y + 1) ltac:(lia)) as (_ & _ & Hl).
      rewrite (year_of_unique (doe + 1) (y + 1)) by (destruct (leap (y + 1 + 1)); lia). f_equal; lia.
Qed.

(** The date of the timestamp is the Gregorian calendar's, for every day from
    the first one on. *)
Theorem timestamps_keep_the_calendar (n : nat) :
  civil_from_days (Z.of_nat n) = Nat.iter n next_day (1970, 1, 1).
Proof.
  induction n as [|n IH]; [vm_compute; reflexivity|]. cbn [Nat.iter nat_rect]. fold (Nat.iter n next_day (1970, 1, 1)).
  rewrite <- IH. replace (Z.of_nat (S n)) with (Z.of_nat n + 1) by lia. apply civil_step. lia.
Qed.
