(* ===== verification/Reclaim.v ===== *)
(** * Reclaim (reclaim.rs)

    When the daemon's pools give their freed memory back: the counters that say
    whether it is quiet, the loop that sweeps once after each burst, and the heap
    that the threads' long-lived data shares. What collecting a heap does is
    mimalloc's. *)
From stdpp Require Import base list.
From S2P Require Import Prelude.

Set Default Proof Using "Type*".

(** ** The sweep *)

(** [ACTIVITY], [WORKING], the loop's own [seen] and [swept], and the sweeps it
    has started. *)
Record Quiet := { ACTIVITY : N; WORKING : nat; seen : N; swept : N; sweeps : nat }.
Definition starting : Quiet := {| ACTIVITY := 0; WORKING := 0; seen := 0; swept := 0; sweeps := 0 |}.

Definition note_activity (q : Quiet) : Quiet :=
  {| ACTIVITY := wrap_add (ACTIVITY q) 1; WORKING := WORKING q; seen := seen q; swept := swept q; sweeps := sweeps q |}.
Definition work (q : Quiet) : Quiet :=
  {| ACTIVITY := ACTIVITY q; WORKING := S (WORKING q); seen := seen q; swept := swept q; sweeps := sweeps q |}.
(** [Work]'s drop; a guard is dropped once, so the count is not 0. *)
Definition drop_work (q : Quiet) : Quiet :=
  note_activity {| ACTIVITY := ACTIVITY q; WORKING := Nat.pred (WORKING q); seen := seen q; swept := swept q; sweeps := sweeps q |}.
(** One turn of [sweep_when_settled], its sleep over. *)
Definition settle_tick (q : Quiet) : Quiet :=
  let now := ACTIVITY q in
  if negb (bool_decide (now = seen q)) || (0 <? WORKING q) then
    {| ACTIVITY := now; WORKING := WORKING q; seen := now; swept := swept q; sweeps := sweeps q |}
  else if bool_decide (now = swept q) then q
  else {| ACTIVITY := now; WORKING := WORKING q; seen := seen q; swept := now; sweeps := S (sweeps q) |}.

Inductive Beat := Noted | Started | Finished | Ticked.
Definition beat (q : Quiet) (b : Beat) : Quiet :=
  match b with Noted => note_activity q | Started => work q | Finished => drop_work q | Ticked => settle_tick q end.
Definition beats : Quiet → list Beat → Quiet := foldl beat.
Definition is_sign (b : Beat) : bool := match b with Noted | Finished => true | _ => false end.
Definition signs (bs : list Beat) : nat := length (filter (λ b, is_sign b = true) bs).

(** Between two turns of the loop only the counters move. *)
Lemma burst_frame bs : ∀ q,
  Forall (λ b, b ≠ Ticked) bs →
  seen (beats q bs) = seen q ∧ swept (beats q bs) = swept q ∧ sweeps (beats q bs) = sweeps q ∧
  ((ACTIVITY q <= u64_max)%N → ACTIVITY (beats q bs) = wrap_add (ACTIVITY q) (N.of_nat (signs bs))).
Proof.
  induction bs as [|b bs IH]; intros q Hb.
  { split_and!; try done. intros Ha. cbn. unfold wrap_add. rewrite N.add_0_r, N.mod_small; [done|lia]. }
  inversion Hb as [|? ? Hne Hbs]; subst. change (beats q (b :: bs)) with (beats (beat q b) bs).
  destruct (IH (beat q b) Hbs) as (-> & -> & -> & Ha). split_and!; [by destruct b..|]. intros Hq.
  assert (ACTIVITY (beat q b) = if is_sign b then wrap_add (ACTIVITY q) 1 else ACTIVITY q) as Hbeat by (by destruct b).
  rewrite Ha; rewrite Hbeat; clear Ha IH.
  - unfold signs. rewrite filter_cons. destruct (is_sign b); cbn [decide]; [|done].
    rewrite decide_True by done. cbn [length]. unfold wrap_add. rewrite N.Div0.add_mod_idemp_l. f_equal. lia.
  - destruct (is_sign b); [|done]. unfold wrap_add. pose proof (N.mod_lt (ACTIVITY q + 1) (u64_max + 1)). lia.
Qed.
Lemma tick_sees q : seen (settle_tick q) = ACTIVITY (settle_tick q).
Proof.
  unfold settle_tick. destruct (negb _ || _) eqn:Hq; [done|]. apply orb_false_iff in Hq as [Hq _].
  apply negb_false_iff, bool_decide_eq_true in Hq. by case_bool_decide.
Qed.
Lemma tick_activity q : ACTIVITY (settle_tick q) = ACTIVITY q.
Proof. unfold settle_tick. destruct (_ || _); [done|]. by case_bool_decide. Qed.
Lemma wrap_same a n : (a <= u64_max)%N → (n <= u64_max)%N → wrap_add a n = a → n = 0%N.
Proof.
  unfold wrap_add. intros Ha Hn H. pose proof (N.Div0.div_mod (a + n) (u64_max + 1)) as Hd. rewrite H in Hd.
  assert ((a + n) / (u64_max + 1) < 2)%N by (apply N.Div0.div_lt_upper_bound; lia).
  destruct (decide ((a + n) / (u64_max + 1) = 0)%N) as [He|He]; rewrite ?He in Hd; [lia|].
  assert ((a + n) / (u64_max + 1) = 1)%N as He1 by lia. rewrite He1 in Hd. lia.
Qed.

(** A turn sweeps only when nothing has happened since the turn before it and no
    work is held, and only activity that no sweep followed; and once the daemon
    is quiet for one whole turn, everything so far has been swept. *)
Theorem sweeps_follow_quiet q bs :
  (ACTIVITY q <= u64_max)%N → Forall (λ b, b ≠ Ticked) bs → (N.of_nat (signs bs) <= u64_max)%N →
  let before := beats (settle_tick q) bs in let after := settle_tick before in
  (sweeps after ≠ sweeps before → signs bs = 0 ∧ WORKING before = 0 ∧ swept before ≠ ACTIVITY before) ∧
  (signs bs = 0 → WORKING before = 0 → swept after = ACTIVITY after ∧ sweeps after ≤ S (sweeps before)).
Proof.
  intros Ha Hb Hn before after. destruct (burst_frame bs (settle_tick q) Hb) as (Hs & Hw & Hc & Hact).
  fold before in Hs, Hw, Hc, Hact. rewrite tick_activity in Hact. specialize (Hact Ha).
  rewrite tick_sees, tick_activity in Hs. subst after. unfold settle_tick. split.
  - destruct (negb _ || _) eqn:Hq; [by intros []|]. apply orb_false_iff in Hq as [Hq1 Hq2].
    apply negb_false_iff, bool_decide_eq_true in Hq1. apply Nat.ltb_ge in Hq2. case_bool_decide as Hsw; [by intros []|]. intros _.
    split_and!; [|lia|by apply not_eq_sym]. rewrite Hs, Hact in Hq1.
    assert (N.of_nat (signs bs) = 0%N) by (by apply (wrap_same (ACTIVITY q))). lia.
  - intros H0 Hwork. rewrite H0 in Hact. change (N.of_nat 0) with 0%N in Hact.
    assert (ACTIVITY before = seen before) as He.
    { rewrite Hact, Hs. unfold wrap_add. rewrite N.add_0_r. apply N.mod_small. lia. }
    rewrite bool_decide_eq_true_2 by done. rewrite Hwork. cbn. case_bool_decide as Hsw; cbn; [|done]. split; [done|lia].
Qed.

(** ** The long-lived heap *)

(** [LONG_LIVED] on one thread: set for the extent of [make], then as before. *)
Definition long_lived {A} (make : bool → A) (scope : bool) : A * bool := (make true, scope).

(** A thread in [long_lived_heap_in_scope]: it loads the pointer, makes a heap
    where there is none, and tries to publish it. *)
Inductive Seeker := Asking | Making | Publishing (fresh : N) | Given (heap : option N).
Record Heaps := { LONG_LIVED_HEAP : option N; next_heap : N; deleted : list N; seekers : list Seeker }.
Definition seek (thread : nat) (in_scope created : bool) (h : Heaps) : option Heaps :=
  seeker ← seekers h !! thread;
  let at_ stage := <[thread := stage]> (seekers h) in
  match seeker with
  | Asking =>
      let stage := if negb in_scope then Given None
                   else match LONG_LIVED_HEAP h with Some heap => Given (Some heap) | None => Making end in
      Some {| LONG_LIVED_HEAP := LONG_LIVED_HEAP h; next_heap := next_heap h; deleted := deleted h; seekers := at_ stage |}
  | Making =>
      if created
      then Some {| LONG_LIVED_HEAP := LONG_LIVED_HEAP h; next_heap := (next_heap h + 1)%N; deleted := deleted h;
                   seekers := at_ (Publishing (next_heap h)) |}
      else Some {| LONG_LIVED_HEAP := LONG_LIVED_HEAP h; next_heap := next_heap h; deleted := deleted h; seekers := at_ (Given None) |}
  | Publishing fresh =>
      match LONG_LIVED_HEAP h with
      | None => Some {| LONG_LIVED_HEAP := Some fresh; next_heap := next_heap h; deleted := deleted h;
                        seekers := at_ (Given (Some fresh)) |}
      | Some winner => Some {| LONG_LIVED_HEAP := Some winner; next_heap := next_heap h; deleted := deleted h ++ [fresh];
                               seekers := at_ (Given (Some winner)) |}
      end
  | Given _ => None
  end.
Inductive seeks (threads : nat) : Heaps → Prop :=
  | seeks_start : seeks threads {| LONG_LIVED_HEAP := None; next_heap := 0; deleted := []; seekers := replicate threads Asking |}
  | seeks_step h h' thread in_scope created : seeks threads h → seek thread in_scope created h = Some h' → seeks threads h'.

(** Every thread that is given a heap is given the same one, whoever won. *)
Theorem the_heap_is_shared threads h :
  seeks threads h →
  ∀ k heap, seekers h !! k = Some (Given (Some heap)) → LONG_LIVED_HEAP h = Some heap.
Proof.
  induction 1 as [|h h' thread in_scope created _ IH H].
  { intros k heap Hk. by apply lookup_replicate in Hk as [[=] _]. }
  unfold seek in H. destruct (seekers h !! thread) as [seeker|] eqn:Ht; [|done]. cbn in H.
  assert (∀ stage k x, <[thread := stage]> (seekers h) !! k = Some x → x = stage ∨ seekers h !! k = Some x) as Hi.
  { intros stage k x Hx. apply list_lookup_insert_Some in Hx as [(_ & -> & _)|[_ ?]]; [by left|by right]. }
  assert (∀ stage k heap, stage = Making ∨ stage = Given None ∨ (∃ fresh, stage = Publishing fresh) ∨ stage = Given (LONG_LIVED_HEAP h) →
    <[thread := stage]> (seekers h) !! k = Some (Given (Some heap)) → LONG_LIVED_HEAP h = Some heap) as Hk.
  { intros stage k heap Hs Hk. destruct (Hi _ _ _ Hk) as [<-|]; [|by eapply IH]. naive_solver. }
  destruct seeker as [| |fresh|]; [| | |done].
  - destruct (negb in_scope), (LONG_LIVED_HEAP h) eqn:Hl; injection H as <-; cbn; intros k heap; rewrite ?Hl; apply Hk; auto.
  - destruct created; injection H as <-; intros k heap; apply Hk; eauto.
  - destruct (LONG_LIVED_HEAP h) as [winner|] eqn:Hl; injection H as <-; cbn; intros k heap; [apply Hk; auto|].
    intros Hx. destruct (Hi _ _ _ Hx) as [[= ->]|Hx']; [done|]. apply IH in Hx'. congruence.
Qed.
